(* ===== verification/_CoqProject ===== *)
-Q . S2P
Prelude.v
Command.v
AuthorityProtocol.v
Objects.v
TransactionLayout.v
TransactionSnapshot.v
TransactionRequest.v
TransactionWire.v
NodeWork.v
WorkSignal.v
NodeOwner.v
ReferenceTable.v
World.v
Session.v
DeathWork.v
ReceiveArena.v
Thread.v
RoutingAuthority.v
DescriptorManifest.v
TransferImage.v
ScatterGather.v
PointerFixups.v
PreparedTransaction.v
TransactionQueue.v
Connection.v
Registry.v
WriteRead.v
Ioctl.v
Device.v
DeviceInvariant.v
DeviceOperations.v
DeviceRouting.v
DeviceRequests.v
System.v
ElfBase.v
PackedRelocations.v
ElfRewrite.v
ElfPlan.v
ElfSegments.v
ElfDynamic.v
ElfTls.v
ElfImage.v
ElfRelocate.v
DependencyGraph.v
MappingComponents.v
GroupLayout.v
UnloadOrder.v
NamespaceLayout.v
NamespaceSymbols.v
ElfLoad.v
ElfLoadSafe.v
ElfLoadWhole.v
