(* ===== verification/Prelude.v ===== *)
(** * Verification of the darwin-art Binder device and ELF loader

    Two crates of [src/darwin-art/crates] let unmodified Android user space run on a host that
    has neither the Binder driver nor the Android linker.

    [darwin-art-binder-device] is the Binder driver.  Processes open a device, write [BC_*]
    command records, and read [BR_*] records; the crate keeps what the Linux driver keeps: nodes
    and their owners, per-process handle tables, transaction stacks, receive buffers, death
    notifications, and a routing authority that connects devices of different host processes.

    [darwin-art-elf-loader] is the linker.  It plans the mapping of an ELF image from its program
    headers, reserves and fills the memory, reads the dynamic section, rewrites instructions the
    host cannot run, relocates the image against the symbols of the other images, and gives its
    threads their thread-local storage.

    This library models the two crates, one file per component, and proves what the components
    promise.  Paths below are relative to the [src] directory of the crate.

    ** Files of the Binder device

    - [Prelude]: results and the [?] operator, fixed-width arithmetic, bytes and their
      little-endian encodings, allocation outcomes, ordered iteration of maps, shared lemmas.
    - [Command] ([command.rs]): framing of [BC_*] records.
    - [AuthorityProtocol] ([authority_protocol/types.rs], [codec.rs]): tokens and messages of
      the routing authority, and their codec.
    - [Objects] ([objects.rs], [object_fields.rs]): the object table of a transaction.
    - [TransactionLayout], [TransactionSnapshot], [TransactionRequest], [TransactionWire]
      (files of the same names): sections of a buffer, captured bytes, [BC_TRANSACTION]
      headers, [BR_TRANSACTION] records.
    - [NodeWork] ([node_work.rs], [node_wire.rs]): the notification protocol between a node
      and its owner.
    - [WorkSignal] ([work_signal.rs]): the generation counter that wakes readers.
    - [NodeOwner] ([node_owner.rs], [node_owner/*.rs], [node_ack.rs], [routing_id.rs]): nodes,
      holds, the owner's work queue, acknowledgements.
    - [ReferenceTable] ([reference_table.rs], [reference_command.rs]): handles of a process.
    - [World]: owners, tables and holds together, over one shared store of nodes.
    - [Session] ([session.rs], [session/*.rs], [transaction_objects.rs], [remote_objects.rs]):
      one process's node owner and handle table, target resolution, object translation.
    - [DeathWork] ([death_work.rs]): queued death notifications.
    - [ReceiveArena] ([receive_arena.rs], [mapping.rs]): the allocator of receive buffers.
    - [Thread] ([thread.rs], [thread/transactions.rs]): looper state, transaction stacks,
      return work.
    - [RoutingAuthority] ([routing_authority/types.rs], [state.rs]): the profile-wide router.
    - [DescriptorManifest] ([descriptor_manifest.rs]), [TransferImage] ([transfer_image.rs]):
      the shared-memory image of a transaction between host processes.
    - [ScatterGather] ([scatter_gather.rs]), [PointerFixups] ([pointer_fixups.rs],
      [pointer_fixups/order.rs]): pointed-to buffers and the plan that relocates pointers.
    - [PreparedTransaction] ([prepared_transaction.rs], [owned_transaction.rs],
      [planned_fds.rs], [transaction_fds.rs], [prepared_transaction/fd_installation.rs]):
      staging of a transaction in the receiver's arena.
    - [TransactionQueue] ([transaction_queue.rs]): the receive queue of a process.
    - [Connection] ([connection.rs], [connection/*.rs], [remote_transaction.rs],
      [installed_fds.rs]): one open of the device, composed of the parts above.
    - [Registry] ([connection_registry.rs], [connection_registry/**.rs], [security.rs]): the
      table of connections, local calls, the context manager, routing and teardown.
    - [WriteRead] ([write_read.rs]): execution of a write buffer and the read that follows.
    - [Ioctl] ([ioctl.rs]): the write-read header and the copies through client memory.
    - [Device] ([device.rs], [device/*.rs]): the operations a process or a peer calls.
    - [DeviceInvariant], [DeviceOperations], [DeviceRouting], [DeviceRequests]: the invariant
      of a whole device and its preservation by the operations of a connection, by routing
      between connections, and by whole requests.
    - [System]: runs of a device, as sequences of operations of any processes and peers, in
      any order, with the theorems about all of them.

    ** Files of the ELF loader

    - [ElfBase] ([lib.rs]): errors, constants, program headers, checked reads, the fixed-width
      operations of instructions and relocations.
    - [PackedRelocations] ([packed_relocations.rs]): SLEB128 numbers and APS2 tables.
    - [ElfRewrite] ([stack_guard.rs], [lib.rs]): rewriting of stack-guard reads and of direct
      system calls.
    - [ElfPlan] ([lib.rs]): the ELF header, the program headers and the load plan with its page
      protections.
    - [ElfSegments] ([lib.rs]): the reservation and the copies of the segments into it.
    - [ElfDynamic] ([lib.rs], [metadata.rs]): the dynamic section and the metadata read from it.
    - [ElfTls] ([tls.rs]): TLS modules, blocks of threads, descriptors, unloading.
    - [ElfImage] ([lib.rs]): reads of a loaded image: ranges, strings, hash tables, symbol
      counts, version tables, exports.
    - [ElfRelocate] ([lib.rs], [relocation_symbols.rs]): relocation, against any resolver of
      symbols (the class [SymbolResolver]).
    ** Conventions

    A [u32], [u64], [usize] (64 bits) or [i32] is a [Z] with its bounds, and arithmetic is
    written as the source writes it: checked, saturating or wrapping.  Bytes are lists of
    [Byte.byte].  A Rust [Result] is a [result]; an operation that can fail after it changed
    its state returns the state next to the result; a panic or an abort is [None] of an
    [option].  Data behind [Arc] or a shared [Mutex] lives in a [Store] and is named by a
    reference, so that what one owner changes the others see.  A [BTreeMap] is a [gmap] visited
    in key order; the order of a [HashMap] is a class ([Iteration]) whose only law is that each
    entry is visited once, and theorems hold for all its instances.  An allocation that can fail
    ([try_reserve]) asks a function ([Reserve]) from program points to outcomes, and theorems
    hold for all such functions.  What comes from outside the crate (the sender's memory, the
    kernel's answers to [mmap], [shm_open], [fstat], [dup], the descriptors of a carrier) is an
    argument; hypotheses on it state documented behaviour of the calls, and each theorem with
    such a hypothesis has a witness at concrete answers.  A mutex is held for a whole operation,
    so an operation is one transition; poisoned locks follow a panic, and the theorems that
    exclude panics exclude them.

    ** Theorems

    - Codecs: command framing, authority messages, transaction headers, read records,
      descriptor manifests and transfer images are accepted exactly in their wire format,
      decode to what was encoded, and never read outside the input.
    - Objects and fixups: an object table is accepted exactly when its objects are whole,
      tagged, aligned, ordered and disjoint; planned pointer and descriptor writes are in
      bounds and pairwise disjoint; relocated pointers name the receiver's copies.
    - Counting: in every run of owners, tables, holds and sessions, the counters of each node
      are the sums of the handles and holds that exist, no release panics, and each owner's
      queue holds exactly the nodes with unsent notifications.  Sessions refine that world.
    - Notification and wake-up: the node protocol sends each notification once per change of
      demand, and no wake-up is lost between a look at the queue and the wait.
    - Threads: every call and submission has exactly the stack entries and return work of its
      stage; submissions and replies round-trip; loss of the authority completes waiting calls.
    - Receive side: the arena's regions tile the mapping and never overlap; a prepared buffer
      holds exactly what was sent; the queue's transactions and the arena's allocations
      correspond one to one; every descriptor is closed exactly once.
    - Routing: each call gets exactly one terminal answer, deliveries carry the credentials of
      their sender's connection, tokens are not reused, closing notifies whom it must.
    - Connections: a delivery is published whole or undone whole; the worker pool asks for one
      thread at a time; disconnecting releases everything the connection owns.
    - Requests: consumption counts exactly the completed records, a write buffer can be split
      at any record without a change of meaning, only the consumption fields of a header
      change, and a blocking request executes its writes once.
    - The device: in every state that operations reach from the empty device, every operation
      returns, the counters of all nodes are exact, every registered call has its caller
      waiting, and closing a connection ends the calls to it.  The operations carry the
      preconditions of [System.permitted]: a connection is closed once, a hold is released
      once, the kernel maps inside the address space, decoded images fit their layouts, the
      authority numbers a call once, client reads fill their destinations.  The one allocation
      the code does not check is a precondition there and a panic in
      [Device.context_manager_out_of_memory_panics].

    - Loading: an accepted plan maps disjoint segments inside one reservation and no page both
      writable and executable; the filled reservation holds exactly the file's bytes and zeros.
    - Decoding: SLEB128 numbers, RELR words, the dynamic section and the GNU hash table mean what
      their formats say, and the walk of a version table ends.
    - Rewriting: the replaced instructions compute what the replaced ones did, and no other
      instruction changes.
    - Relocation: it writes only inside writable segments of the image, and a word relocation
      stores the value of its formula.
    - TLS: in every run, a resolved address lies in the block of its thread and module, and a
      module is unloaded only when no thread has a block and no descriptor names it.
    ** Bounds and fuel

    [PointerFixups.climb] follows parent links with [S cursor] steps of fuel: a parent index
    must be smaller than its child's, so the loop ends before ([climb_total]).
    [NodeOwner.read_pending_loop] runs at most once per queued node, the bound the source takes
    before its loop.  [TransferImage] tries names for shared memory until one is free, so it takes
    the list of the kernel's answers, one per attempt.  A condition-variable wait is a function of the states its wake-ups find.  
    [PackedRelocations.sleb128] reads at most ten bytes, as the source does; the groups of an APS2
    table take [S (length rest)] steps, as every group consumes a byte.  The hash chain of
    [ElfImage] takes [S limit] steps and the walk of a version table [S mapping_size], as both
    move forward in the image; UTF-8 decoding takes one step per byte.
    All other recursion is structural.

    ** Not modelled

    - Interleavings inside one operation of the device.  The gate of the registry serialises
      transactions; a request of one thread and the rest of the device alternate as whole
      operations here, where the source releases the lock of one connection between the
      records of a request.
    - The accessors [max_threads] and [duplicate_receive_mapping] of [device.rs].
    - Of the ELF loader: the guest's code, which initializers and finalizers call; the assembly of
      the TLS resolver; the C interface ([ffi*.rs]).
    - Names, logging and accessors: [Debug] output, [state_name], environment switches that
      only print.
    - Mapping and unmapping of memory and the duplication of descriptors, beyond the answers
      they give: they only call the kernel.
    - The other crates of the workspace, the C++, Objective-C and Java sources, probes, tools
      and patches: most of them call host services (processes, files, dynamic linking, ART) and
      are listed one by one in the manifest with the reason.
*)
From Stdlib Require Strings.Byte.
From coqutil Require Import Byte Word.LittleEndianList.
From stdpp Require Export prelude gmap sorting.

#[global] Open Scope Z_scope.
#[export] Set Warnings "-clear-no-such-hyp".

(** ** Results: Rust's [Result<A, E>] and the [?] operator *)

Inductive result (A E : Type) : Type :=
| Ok (a : A)
| Err (e : E).
Arguments Ok {A E} a.
Arguments Err {A E} e.

Declare Scope rust_scope.
Delimit Scope rust_scope with rust.
#[global] Open Scope rust_scope.

Notation "'let?' x := c 'in' k" :=
  (match c with Ok x => k | Err e => Err e end)
  (at level 10, x pattern, c at level 200, k at level 200) : rust_scope.

Definition map_err {A E F} (f : E -> F) (r : result A E) : result A F :=
  match r with Ok a => Ok a | Err e => Err (f e) end.

Definition result_map {A B E} (f : A -> B) (r : result A E) : result B E :=
  match r with Ok a => Ok (f a) | Err e => Err e end.

(** [Option::ok_or]. *)
Definition ok_or {A E} (o : option A) (e : E) : result A E :=
  match o with Some a => Ok a | None => Err e end.

(** [then_some(()).ok_or(e)] on a condition. *)
Definition ensure {E} (b : bool) (e : E) : result unit E :=
  if b then Ok tt else Err e.

Definition is_ok {A E} (r : result A E) : bool :=
  match r with Ok _ => true | Err _ => false end.

(** The [errno] values the sources put into [io::Error]. *)
Inductive Errno : Type :=
| EBADF | EEXIST | EFAULT | EINVAL | EIO | EMFILE | ENOENT | ENOSPC | EOVERFLOW | EPERM | ESRCH.

#[export] Instance Errno_eq_dec : EqDecision Errno.
Proof. solve_decision. Defined.

(** ** Machine integers

    Every Rust integer is a [Z]; widths are explicit.  [usize] is 64 bits wide:
    the sources build for macOS on ARM64 only. *)

Definition u16_max : Z := 2 ^ 16 - 1.
Definition u32_max : Z := 2 ^ 32 - 1.
Definition u64_max : Z := 2 ^ 64 - 1.
Definition usize_max : Z := u64_max.
Definition i32_max : Z := 2 ^ 31 - 1.
Definition isize_max : Z := 2 ^ 63 - 1.

Definition u16_range (z : Z) : Prop := 0 <= z <= u16_max.
Definition u32_range (z : Z) : Prop := 0 <= z <= u32_max.
Definition u64_range (z : Z) : Prop := 0 <= z <= u64_max.
Definition i32_range (z : Z) : Prop := - 2 ^ 31 <= z <= i32_max.

Definition checked_add (max a b : Z) : option Z :=
  if a + b <=? max then Some (a + b) else None.
Definition checked_sub (a b : Z) : option Z :=
  if b <=? a then Some (a - b) else None.
Definition checked_mul (max a b : Z) : option Z :=
  if a * b <=? max then Some (a * b) else None.
Definition wrapping_add (max a b : Z) : Z := (a + b) mod (max + 1).
Definition saturating_add (max a b : Z) : Z := Z.min max (a + b).

(** [value & !7] on a 64-bit integer. *)
Definition and_not_7 (v : Z) : Z := Z.land v (u64_max - 7).
(** [value.checked_add(7).map(|v| v & !7)]. *)
Definition align8 (v : Z) : option Z := and_not_7 <$> checked_add usize_max v 7.

(** ** Byte slices *)

Abbreviation byte := Init.Byte.byte.
Abbreviation bytes := (list Init.Byte.byte).

#[export] Instance byte_eq_decision : EqDecision byte := Strings.Byte.byte_eq_dec.

Definition len {A} (l : list A) : Z := Z.of_nat (length l).

(** [slice.get(a..b)]: [None] unless [a <= b <= len]. *)
Definition get_range {A} (l : list A) (a b : Z) : option (list A) :=
  if (0 <=? a) && (a <=? b) && (b <=? len l)
  then Some (take (Z.to_nat (b - a)) (drop (Z.to_nat a) l)) else None.

(** [&slice[a..]] and the in-bounds sub-slice [&slice[a..b]] (constant bounds). *)
Definition slice {A} (l : list A) (a b : nat) : list A := take (b - a) (drop a l).

(** [output[off..off + src.len()].copy_from_slice(src)], in bounds. *)
Definition copy_at {A} (off : nat) (src out : list A) : list A :=
  take off out ++ src ++ drop (off + length src) out.

Definition u16_le (z : Z) : bytes := le_split 2 z.
Definition u32_le (z : Z) : bytes := le_split 4 z.
Definition u64_le (z : Z) : bytes := le_split 8 z.
(** [to_le_bytes] of an [i32]: two's complement, which [le_split] produces. *)
Definition i32_le (z : Z) : bytes := le_split 4 z.

(** [uN::from_le_bytes]. *)
Definition from_le (l : bytes) : Z := le_combine l.
Definition from_le_i32 (l : bytes) : Z :=
  let v := le_combine l in if v <=? i32_max then v else v - 2 ^ 32.

Definition le_at (l : bytes) (off n : nat) : Z := from_le (slice l off (off + n)).
Definition u16_at (l : bytes) (off : nat) : Z := le_at l off 2.
Definition u32_at (l : bytes) (off : nat) : Z := le_at l off 4.
Definition u64_at (l : bytes) (off : nat) : Z := le_at l off 8.
Definition i32_at (l : bytes) (off : nat) : Z := from_le_i32 (slice l off (off + 4)).

Definition zeroed (n : nat) : bytes := replicate n Byte.x00.

(** ** Ordered maps

    A [BTreeMap] with integer keys is a [gmap] whose iteration is [in_order]. *)

Definition key_le {A} (a b : Z * A) : Prop := a.1 <= b.1.

#[export] Instance key_le_dec {A} : RelDecision (@key_le A) := fun a b => Z.le_dec a.1 b.1.
#[export] Instance key_le_total {A} : Total (@key_le A).
Proof. intros a b. unfold key_le. lia. Qed.
#[export] Instance key_le_trans {A} : Transitive (@key_le A).
Proof. intros a b c. unfold key_le. lia. Qed.

Definition in_order {A} (m : gmap Z A) : list (Z * A) := merge_sort key_le (map_to_list m).

(** The order of [HashMap::iter]: unspecified, but each entry comes once. *)
Class Iteration (K V : Type) `{Countable K} : Type := {
  iter : gmap K V -> list (K * V);
  iter_perm m : iter m ≡ₚ map_to_list m }.

#[export] Instance key_order K V `{Countable K} : Iteration K V :=
  {| iter := map_to_list; iter_perm m := Permutation_refl _ |}.

(** How many values of a map satisfy a test. *)
Definition map_count {A} (P : A -> bool) (m : gmap Z A) : Z :=
  map_fold (fun _ v n => Z.b2z (P v) + n) 0 m.

(** ** Fallible allocation

    [try_reserve] may fail at any call.  An operation that reserves memory takes
    the answers of its reservations: [rsv p] is the answer of the call at path
    [p], a call site of the operation, and for a nested operation or a loop
    iteration the path below it. *)
Definition Reserve := list nat -> bool.
Definition below (site : nat) (rsv : Reserve) : Reserve := fun p => rsv (site :: p).
Definition reserve_ok : Reserve := fun _ => true.

#[global] Arguments checked_add : simpl never.
#[global] Arguments checked_sub : simpl never.
#[global] Arguments checked_mul : simpl never.
#[global] Arguments align8 : simpl never.

(** ** Tactics *)

(** Closes equivalences between an [option] equation and linear facts. *)
Ltac iff_lia := split; intros; destruct_and?; simplify_eq/=; split_and?; (done || lia).

(** Linear arithmetic with [/] and [mod] by constants. *)
Ltac mod_lia := Z.to_euclidean_division_equations; lia.

(** Splits the [match]es and conditionals of the goal or the context until the
    equation [H] between results can be inverted. *)
Ltac inv_result H :=
  repeat (case_match; simplify_eq/=; try discriminate H); simplify_eq/=.

(** ** Lemmas *)

Lemma checked_add_Some max a b c :
  checked_add max a b = Some c <-> c = a + b /\ a + b <= max.
Proof. unfold checked_add. destruct (Z.leb_spec (a + b) max); iff_lia. Qed.

Lemma checked_add_None max a b : checked_add max a b = None <-> max < a + b.
Proof. unfold checked_add. destruct (Z.leb_spec (a + b) max); iff_lia. Qed.

Lemma checked_sub_Some a b c : checked_sub a b = Some c <-> c = a - b /\ b <= a.
Proof. unfold checked_sub. destruct (Z.leb_spec b a); iff_lia. Qed.

Lemma checked_sub_None a b : checked_sub a b = None <-> a < b.
Proof. unfold checked_sub. destruct (Z.leb_spec b a); iff_lia. Qed.

Lemma checked_mul_Some max a b c :
  checked_mul max a b = Some c <-> c = a * b /\ a * b <= max.
Proof. unfold checked_mul. destruct (Z.leb_spec (a * b) max); iff_lia. Qed.

(** Masking with [!7] rounds down to a multiple of eight. *)
Lemma and_not_7_spec v : u64_range v -> and_not_7 v = v - v mod 8.
Proof.
  intros Hv. unfold and_not_7.
  assert (Z.land v (u64_max - 7) = Z.ldiff v (Z.ones 3)) as ->.
  { apply Z.bits_inj'; intros n Hn.
    rewrite Z.land_spec, Z.ldiff_spec.
    destruct (decide (n < 64)).
    - replace (u64_max - 7) with (Z.ldiff (Z.ones 64) (Z.ones 3)) by reflexivity.
      rewrite Z.ldiff_spec, (Z.ones_spec_low 64) by lia. done.
    - replace (Z.testbit v n) with false; [done|].
      symmetry. destruct (decide (v = 0)) as [->|]; [apply Z.bits_0|].
      apply Z.bits_above_log2; [unfold u64_range in Hv; lia|].
      apply Z.log2_lt_pow2; [unfold u64_range in Hv; lia|].
      apply Z.lt_le_trans with (2 ^ 64).
      + unfold u64_range, u64_max in Hv. lia.
      + apply Z.pow_le_mono_r; lia. }
  rewrite Z.ldiff_ones_r, Z.shiftr_div_pow2, Z.shiftl_mul_pow2 by lia.
  change (2 ^ 3) with 8. pose proof (Z.div_mod v 8). lia.
Qed.

Lemma align8_Some v a :
  0 <= v -> align8 v = Some a -> v <= a < v + 8 /\ a mod 8 = 0 /\ a <= usize_max.
Proof.
  intros Hv. unfold align8. destruct (checked_add usize_max v 7) as [c|] eqn:E; [|done].
  apply checked_add_Some in E as [-> Hle]. simpl. intros [= <-].
  rewrite and_not_7_spec by (unfold u64_range, usize_max in *; lia).
  pose proof (Z.mod_pos_bound (v + 7) 8 ltac:(lia)).
  assert ((v + 7 - (v + 7) mod 8) mod 8 = 0).
  { rewrite Zminus_mod_idemp_r, Z.sub_diag. done. }
  unfold usize_max in *. lia.
Qed.

Lemma align8_None v : align8 v = None <-> usize_max < v + 7.
Proof.
  unfold align8. destruct (checked_add usize_max v 7) eqn:E; simpl.
  - apply checked_add_Some in E. iff_lia.
  - apply checked_add_None in E. iff_lia.
Qed.

(** *** Slices *)

Lemma len_nonneg {A} (l : list A) : 0 <= len l.
Proof. unfold len. lia. Qed.

Lemma len_app {A} (l k : list A) : len (l ++ k) = len l + len k.
Proof. unfold len. rewrite length_app. lia. Qed.

Lemma length_slice {A} (l : list A) a b :
  (b <= length l)%nat -> length (slice l a b) = (b - a)%nat.
Proof. intros. unfold slice. rewrite length_take, length_drop. lia. Qed.

Lemma slice_glue {A} (l : list A) a b c :
  (a <= b <= c)%nat -> slice l a b ++ slice l b c = slice l a c.
Proof.
  intros H. unfold slice.
  replace (drop b l) with (drop (b - a) (drop a l)) by (rewrite drop_drop; f_equal; lia).
  rewrite take_take_drop. f_equal. lia.
Qed.

Lemma slice_all {A} (l : list A) n : length l = n -> slice l 0 n = l.
Proof. intros <-. unfold slice. rewrite Nat.sub_0_r, drop_0. by apply take_ge. Qed.

Lemma slice_def {A} (l : list A) a b : slice l a b = take (b - a) (drop a l).
Proof. done. Qed.

Lemma slice_prefix {A} (l : list A) n : slice l 0 n ++ drop n l = l.
Proof. unfold slice. rewrite Nat.sub_0_r, drop_0. apply take_drop. Qed.

Lemma copy_at_def {A} off (src out : list A) :
  copy_at off src out = take off out ++ src ++ drop (off + length src) out.
Proof. done. Qed.

Lemma slice_app_l {A} (l k : list A) a b :
  (b <= length l)%nat -> slice (l ++ k) a b = slice l a b.
Proof.
  intros. unfold slice. destruct (decide (a <= length l)%nat).
  - rewrite drop_app_le by lia. rewrite take_app_le; [done|]. rewrite length_drop. lia.
  - replace (b - a)%nat with 0%nat by lia. by rewrite !take_0.
Qed.

Lemma slice_app_r {A} (l k : list A) a b :
  slice (l ++ k) (length l + a) (length l + b) = slice k a b.
Proof. unfold slice. rewrite drop_app_add. f_equal. lia. Qed.

Lemma get_range_Some {A} (l : list A) a b r :
  get_range l a b = Some r <->
  0 <= a <= b /\ b <= len l /\ r = take (Z.to_nat (b - a)) (drop (Z.to_nat a) l).
Proof.
  unfold get_range.
  destruct (Z.leb_spec 0 a), (Z.leb_spec a b), (Z.leb_spec b (len l)); simpl; iff_lia.
Qed.

Lemma length_get_range {A} (l : list A) a b r :
  get_range l a b = Some r -> len r = b - a.
Proof.
  intros (? & Hb & ->)%get_range_Some. unfold len in *.
  rewrite length_take, length_drop. lia.
Qed.

Lemma get_range_slice {A} (l : list A) (a b : nat) :
  (a <= b)%nat -> (b <= length l)%nat ->
  get_range l (Z.of_nat a) (Z.of_nat b) = Some (slice l a b).
Proof.
  intros. apply get_range_Some. unfold len, slice. split_and!; try lia.
  f_equal; [lia|f_equal; lia].
Qed.

(** A sub-range of a range. *)
Lemma get_range_sub {A} (l r : list A) a b (i j : nat) :
  get_range l a b = Some r -> (i <= j)%nat -> a + Z.of_nat j <= b ->
  get_range l (a + Z.of_nat i) (a + Z.of_nat j) = Some (slice r i j).
Proof.
  intros (? & ? & ->)%get_range_Some ??. apply get_range_Some. split_and!; [lia..|].
  unfold slice. rewrite skipn_firstn_comm, take_take, drop_drop.
  f_equal; [lia|f_equal; lia].
Qed.

Lemma length_copy_at {A} off (src out : list A) :
  (off + length src <= length out)%nat -> length (copy_at off src out) = length out.
Proof.
  intros. unfold copy_at. rewrite !length_app, length_take, length_drop. lia.
Qed.

Lemma take_copy_at {A} n off (src out : list A) :
  (n <= off)%nat -> (off <= length out)%nat ->
  take n (copy_at off src out) = take n out.
Proof.
  intros. unfold copy_at. rewrite take_app_le by (rewrite length_take; lia).
  rewrite take_take. f_equal. lia.
Qed.

Lemma drop_copy_at {A} n off (src out : list A) :
  (off + length src <= n)%nat -> (off <= length out)%nat ->
  drop n (copy_at off src out) = drop n out.
Proof.
  intros. unfold copy_at. rewrite app_assoc, drop_app_ge.
  - rewrite length_app, length_take, drop_drop. f_equal. lia.
  - rewrite length_app, length_take. lia.
Qed.

Lemma lookup_slice {A} (l : list A) a b i :
  slice l a b !! i = if (i <? b - a)%nat then l !! (a + i)%nat else None.
Proof.
  unfold slice. destruct (Nat.ltb_spec i (b - a)).
  - rewrite lookup_take_lt by done. apply lookup_drop.
  - apply lookup_take_ge. lia.
Qed.

Lemma lookup_copy_at {A} off (src out : list A) i :
  (off + length src <= length out)%nat ->
  copy_at off src out !! i =
    if (i <? off)%nat then out !! i
    else if (i <? off + length src)%nat then src !! (i - off)%nat else out !! i.
Proof.
  intros H. unfold copy_at. destruct (Nat.ltb_spec i off).
  - rewrite lookup_app_l by (rewrite length_take; lia). by apply lookup_take_lt.
  - rewrite lookup_app_r by (rewrite length_take; lia). rewrite length_take, Nat.min_l by lia.
    destruct (Nat.ltb_spec i (off + length src)).
    + by rewrite lookup_app_l by lia.
    + rewrite lookup_app_r by lia. rewrite lookup_drop. f_equal. lia.
Qed.

(** A slice depends on its bytes only. *)
Lemma slice_ext {A} (l l' : list A) a b : (forall i, (a <= i < b)%nat -> l' !! i = l !! i) -> slice l' a b = slice l a b.
Proof. intros H. apply list_eq. intros i. rewrite !lookup_slice. destruct (Nat.ltb_spec i (b - a)); [apply H; lia|done]. Qed.

(** Two elements of a sorted list. *)
Lemma sorted_pair {A} (R : A -> A -> Prop) l x y :
  StronglySorted R l -> x ∈ l -> y ∈ l -> x = y \/ R x y \/ R y x.
Proof.
  induction 1 as [|z l Hl IH Hz]; [by intros []%not_elem_of_nil|]. rewrite Forall_forall in Hz.
  intros [->|?]%elem_of_cons [->|?]%elem_of_cons; auto.
Qed.

(** Reading around and inside what was written. *)
Lemma slice_copy_outside {A} off (src out : list A) a b :
  (off + length src <= length out)%nat -> (b <= off \/ off + length src <= a)%nat ->
  slice (copy_at off src out) a b = slice out a b.
Proof.
  intros H Hout. apply list_eq. intros i. rewrite !lookup_slice, lookup_copy_at by done.
  repeat case_match; try done; rewrite ?Nat.ltb_lt, ?Nat.ltb_ge in *; lia.
Qed.

Lemma slice_copy_inside {A} off (src out : list A) a b :
  (a + off + length src <= b)%nat -> (b <= length out)%nat ->
  slice (copy_at (a + off) src out) a b = copy_at off src (slice out a b).
Proof.
  intros H Hb. apply list_eq. intros i.
  rewrite lookup_slice, !lookup_copy_at, !lookup_slice by (rewrite ?length_slice; lia).
  repeat case_match; rewrite ?Nat.ltb_lt, ?Nat.ltb_ge in *; try lia; try done. f_equal. lia.
Qed.

Lemma slice_copy_at {A} off (src out : list A) :
  (off <= length out)%nat ->
  slice (copy_at off src out) off (off + length src) = src.
Proof.
  intros. unfold slice, copy_at.
  rewrite drop_app_ge by (rewrite length_take; lia).
  rewrite length_take.
  replace (off - off `min` length out)%nat with 0%nat by lia. rewrite drop_0.
  rewrite take_app_le by lia. apply take_ge. lia.
Qed.

(** Writing the next field of a record whose prefix is already written. *)
Lemma copy_at_next {A} (done_ src rest : list A) n :
  length done_ = n -> (length src <= length rest)%nat ->
  copy_at n src (done_ ++ rest) = (done_ ++ src) ++ drop (length src) rest.
Proof.
  intros <- ?. rewrite <- app_assoc. unfold copy_at.
  rewrite take_app_length, drop_app_add. done.
Qed.

(** *** Ordered maps *)

Lemma in_order_perm {A} (m : gmap Z A) : in_order m ≡ₚ map_to_list m.
Proof. apply merge_sort_Permutation. Qed.

Lemma in_order_lookup {A} (m : gmap Z A) k v : (k, v) ∈ in_order m <-> m !! k = Some v.
Proof. by rewrite in_order_perm, elem_of_map_to_list. Qed.

Lemma in_order_NoDup {A} (m : gmap Z A) : NoDup (in_order m).*1.
Proof. rewrite in_order_perm. apply NoDup_fst_map_to_list. Qed.

(** Iteration visits the keys in strictly ascending order. *)
Lemma in_order_keys {A} (m : gmap Z A) : StronglySorted Z.lt (in_order m).*1.
Proof.
  pose proof (StronglySorted_merge_sort key_le (map_to_list m)) as Hs. fold (in_order m) in Hs.
  pose proof (in_order_NoDup m) as Hd.
  induction (in_order m) as [|[k v] l IH]; simpl in *; [constructor|].
  apply StronglySorted_inv in Hs as [Hs Hk]. apply NoDup_cons in Hd as [Hn Hd].
  constructor; [by apply IH|]. apply Forall_forall. intros k' Hk'.
  pose proof Hk' as ([k1 v1] & -> & Hin)%list_elem_of_fmap. rewrite Forall_forall in Hk.
  specialize (Hk _ Hin). unfold key_le in Hk. simpl in *.
  destruct (decide (k = k1)); [subst; done|lia].
Qed.

Section map_count.
Context {A : Type} (P : A -> bool).
Implicit Types m : gmap Z A.

Lemma map_count_insert m k v :
  m !! k = None -> map_count P (<[k := v]> m) = Z.b2z (P v) + map_count P m.
Proof. intros Hk. unfold map_count. by rewrite map_fold_insert_L by (done || (intros; lia)). Qed.

Lemma map_count_delete m k v :
  m !! k = Some v -> map_count P m = Z.b2z (P v) + map_count P (delete k m).
Proof. intros Hk. unfold map_count. by rewrite (map_fold_delete_L _ _ k v) by (done || (intros; lia)). Qed.

Lemma map_count_replace m k v v' :
  m !! k = Some v -> map_count P (<[k := v']> m) = map_count P m - Z.b2z (P v) + Z.b2z (P v').
Proof.
  intros Hk. rewrite (map_count_delete m k v Hk), <- insert_delete_eq.
  rewrite map_count_insert by apply lookup_delete_eq. lia.
Qed.

Lemma map_count_nonneg m : 0 <= map_count P m.
Proof.
  induction m as [|k v m Hk IH] using map_ind; [done|].
  rewrite map_count_insert by done. destruct (P v); simpl; lia.
Qed.

Lemma map_count_zero m : (forall k v, m !! k = Some v -> P v = false) -> map_count P m = 0.
Proof.
  induction m as [|k v m Hk IH] using map_ind; intros HP; [done|].
  rewrite map_count_insert by done. rewrite (HP k v) by apply lookup_insert_eq.
  rewrite IH; [done|]. intros k' v' Hk'. apply (HP k'). rewrite lookup_insert_ne by congruence. done.
Qed.
End map_count.

(** *** Little-endian words *)

Lemma length_u16_le z : length (u16_le z) = 2%nat. Proof. apply length_le_split. Qed.
Lemma length_u32_le z : length (u32_le z) = 4%nat. Proof. apply length_le_split. Qed.
Lemma length_u64_le z : length (u64_le z) = 8%nat. Proof. apply length_le_split. Qed.
Lemma length_i32_le z : length (i32_le z) = 4%nat. Proof. apply length_le_split. Qed.

Lemma from_u16_le z : u16_range z -> from_le (u16_le z) = z.
Proof.
  intros. unfold u16_range in *. unfold from_le, u16_le. rewrite le_combine_split.
  apply Z.mod_small. unfold u16_max in *. lia.
Qed.
Lemma from_u32_le z : u32_range z -> from_le (u32_le z) = z.
Proof.
  intros. unfold from_le, u32_le. rewrite le_combine_split.
  apply Z.mod_small. unfold u32_range, u32_max in *. lia.
Qed.
Lemma from_u64_le z : u64_range z -> from_le (u64_le z) = z.
Proof.
  intros. unfold from_le, u64_le. rewrite le_combine_split.
  apply Z.mod_small. unfold u64_range, u64_max in *. lia.
Qed.
Lemma from_i32_le z : i32_range z -> from_le_i32 (i32_le z) = z.
Proof.
  intros [Hlo Hhi]. unfold from_le_i32, i32_le, i32_max in *. rewrite le_combine_split.
  change (2 ^ (Z.of_nat 4 * 8)) with (2 ^ 32).
  destruct (decide (0 <= z)).
  - rewrite Z.mod_small by lia. destruct (Z.leb_spec z (2 ^ 31 - 1)); lia.
  - rewrite <- (Z.mod_add z 1) by lia. rewrite Z.mod_small by lia.
    destruct (Z.leb_spec (z + 1 * 2 ^ 32) (2 ^ 31 - 1)); lia.
Qed.

Lemma from_le_range l n : length l = n -> 0 <= from_le l < 2 ^ (8 * Z.of_nat n).
Proof. intros <-. apply le_combine_bound. Qed.

Lemma le_split_from_le l n : length l = n -> le_split n (from_le l) = l.
Proof. intros <-. apply split_le_combine. Qed.

Lemma u32_le_from_le l : length l = 4%nat -> u32_le (from_le l) = l.
Proof. apply (le_split_from_le l 4). Qed.
Lemma u64_le_from_le l : length l = 8%nat -> u64_le (from_le l) = l.
Proof. apply (le_split_from_le l 8). Qed.

Lemma u16_le_at l off : (off + 2 <= length l)%nat -> u16_le (u16_at l off) = slice l off (off + 2).
Proof. intros. apply le_split_from_le. rewrite length_slice; lia. Qed.
Lemma u32_le_at l off : (off + 4 <= length l)%nat -> u32_le (u32_at l off) = slice l off (off + 4).
Proof. intros. apply le_split_from_le. rewrite length_slice; lia. Qed.
Lemma u64_le_at l off : (off + 8 <= length l)%nat -> u64_le (u64_at l off) = slice l off (off + 8).
Proof. intros. apply le_split_from_le. rewrite length_slice; lia. Qed.
Lemma i32_le_at l off : (off + 4 <= length l)%nat -> i32_le (i32_at l off) = slice l off (off + 4).
Proof.
  intros. unfold i32_at, from_le_i32.
  assert (length (slice l off (off + 4)) = 4%nat) as Hlen by (rewrite length_slice; lia).
  pose proof (le_split_from_le _ _ Hlen) as Hs. unfold from_le in Hs.
  destruct (Z.leb_spec (le_combine (slice l off (off + 4))) i32_max); [done|].
  unfold i32_le. rewrite le_split_mod. change (2 ^ (Z.of_nat 4 * 8)) with (2 ^ 32).
  rewrite <- (Z.mod_add _ 1) by lia.
  replace (le_combine (slice l off (off + 4)) - 2 ^ 32 + 1 * 2 ^ 32)
    with (le_combine (slice l off (off + 4))) by lia.
  rewrite <- le_split_mod. done.
Qed.

Lemma u32_at_range l off : (off + 4 <= length l)%nat -> u32_range (u32_at l off).
Proof.
  intros. unfold u32_range, u32_at, le_at.
  pose proof (from_le_range (slice l off (off + 4)) 4). rewrite length_slice in * by lia.
  unfold u32_max. lia.
Qed.
Lemma u64_at_range l off : (off + 8 <= length l)%nat -> u64_range (u64_at l off).
Proof.
  intros. unfold u64_range, u64_at, le_at.
  pose proof (from_le_range (slice l off (off + 8)) 8). rewrite length_slice in * by lia.
  unfold u64_max. lia.
Qed.

Lemma i32_at_range l off : (off + 4 <= length l)%nat -> i32_range (i32_at l off).
Proof.
  intros. unfold i32_range, i32_at, from_le_i32, i32_max.
  pose proof (from_le_range (slice l off (off + 4)) 4) as R. unfold from_le in R.
  rewrite length_slice in R by lia.
  destruct (Z.leb_spec (le_combine (slice l off (off + 4))) (2 ^ 31 - 1)); lia.
Qed.

Create HintDb rust discriminated.
#[export] Hint Resolve len_nonneg u32_at_range u64_at_range i32_at_range : rust.

Create Rewrite HintDb wire.
#[export] Hint Rewrite @length_app length_u16_le length_u32_le length_u64_le length_i32_le : wire.

(** From here on the codecs are used through the lemmas above; they still
    evaluate under [vm_compute]. *)
#[global] Opaque u16_le u32_le u64_le i32_le from_le from_le_i32.
#[global] Opaque u16_at u32_at u64_at i32_at slice copy_at get_range.

(** Reading back a field of an encoded record: the bytes at its offset are the
    encoding of the value. *)
Lemma u32_at_field l off v :
  slice l off (off + 4) = u32_le v -> u32_range v -> u32_at l off = v.
Proof. intros E ?. transitivity (from_le (u32_le v)); [by rewrite <- E|by apply from_u32_le]. Qed.
Lemma u64_at_field l off v :
  slice l off (off + 8) = u64_le v -> u64_range v -> u64_at l off = v.
Proof. intros E ?. transitivity (from_le (u64_le v)); [by rewrite <- E|by apply from_u64_le]. Qed.
Lemma u16_at_field l off v :
  slice l off (off + 2) = u16_le v -> u16_range v -> u16_at l off = v.
Proof. intros E ?. transitivity (from_le (u16_le v)); [by rewrite <- E|by apply from_u16_le]. Qed.
Lemma i32_at_field l off v :
  slice l off (off + 4) = i32_le v -> i32_range v -> i32_at l off = v.
Proof. intros E ?. transitivity (from_le_i32 (i32_le v)); [by rewrite <- E|by apply from_i32_le]. Qed.

(** *** Sequential field access

    [xx_at] over a record that starts with another field skips it.  These
    equations turn the offsets of a decoder into the fields of the encoder. *)

Lemma slice_skip {A} (p r : list A) n a b :
  length p = n -> slice (p ++ r) (n + a) (n + b) = slice r a b.
Proof. intros <-. apply slice_app_r. Qed.

Lemma slice_here {A} (p r : list A) n : length p = n -> slice (p ++ r) 0 n = p.
Proof. intros <-. rewrite slice_app_l by lia. by apply slice_all. Qed.

Section fields.
Context (p : bytes).

Lemma u64_at_skip n r k : length p = n -> u64_at (p ++ r) (n + k) = u64_at r k.
Proof.
  intros E. change (from_le (slice (p ++ r) (n + k) (n + k + 8)) = from_le (slice r k (k + 8))).
  by rewrite <- Nat.add_assoc, slice_skip.
Qed.
Lemma u32_at_skip n r k : length p = n -> u32_at (p ++ r) (n + k) = u32_at r k.
Proof.
  intros E. change (from_le (slice (p ++ r) (n + k) (n + k + 4)) = from_le (slice r k (k + 4))).
  by rewrite <- Nat.add_assoc, slice_skip.
Qed.
Lemma i32_at_skip n r k : length p = n -> i32_at (p ++ r) (n + k) = i32_at r k.
Proof.
  intros E.
  change (from_le_i32 (slice (p ++ r) (n + k) (n + k + 4)) = from_le_i32 (slice r k (k + 4))).
  by rewrite <- Nat.add_assoc, slice_skip.
Qed.
Lemma u16_at_skip n r k : length p = n -> u16_at (p ++ r) (n + k) = u16_at r k.
Proof.
  intros E. change (from_le (slice (p ++ r) (n + k) (n + k + 2)) = from_le (slice r k (k + 2))).
  by rewrite <- Nat.add_assoc, slice_skip.
Qed.
End fields.

Lemma u64_at_here v r : u64_range v -> u64_at (u64_le v ++ r) 0 = v.
Proof. apply u64_at_field. apply slice_here, length_u64_le. Qed.
Lemma u32_at_here v r : u32_range v -> u32_at (u32_le v ++ r) 0 = v.
Proof. apply u32_at_field. apply slice_here, length_u32_le. Qed.
Lemma i32_at_here v r : i32_range v -> i32_at (i32_le v ++ r) 0 = v.
Proof. apply i32_at_field. apply slice_here, length_i32_le. Qed.
Lemma u64_at_last v : u64_range v -> u64_at (u64_le v) 0 = v.
Proof. rewrite <- (app_nil_r (u64_le v)). apply u64_at_here. Qed.
Lemma u32_at_last v : u32_range v -> u32_at (u32_le v) 0 = v.
Proof. rewrite <- (app_nil_r (u32_le v)). apply u32_at_here. Qed.

Lemma u16_at_here v r : u16_range v -> u16_at (u16_le v ++ r) 0 = v.
Proof. apply u16_at_field. apply slice_here, length_u16_le. Qed.

(** Evaluates the field reads of an encoded record. *)
Ltac read_fields :=
  repeat match goal with
  | |- context [u64_at (u64_le ?v ++ _) 0] => rewrite (u64_at_here v) by eauto with rust
  | |- context [u64_at (u64_le ?v) 0] => rewrite (u64_at_last v) by eauto with rust
  | |- context [u32_at (u32_le ?v ++ _) 0] => rewrite (u32_at_here v) by eauto with rust
  | |- context [u32_at (u32_le ?v) 0] => rewrite (u32_at_last v) by eauto with rust
  | |- context [i32_at (i32_le ?v ++ _) 0] => rewrite (i32_at_here v) by eauto with rust
  | |- context [u64_at (u64_le ?v ++ ?r) ?k] =>
      let k' := eval cbv in (k - 8)%nat in
      change (u64_at (u64_le v ++ r) k) with (u64_at (u64_le v ++ r) (8 + k')%nat);
      rewrite (u64_at_skip (u64_le v) 8 r k' (length_u64_le v))
  | |- context [u32_at (u64_le ?v ++ ?r) ?k] =>
      let k' := eval cbv in (k - 8)%nat in
      change (u32_at (u64_le v ++ r) k) with (u32_at (u64_le v ++ r) (8 + k')%nat);
      rewrite (u32_at_skip (u64_le v) 8 r k' (length_u64_le v))
  | |- context [i32_at (u64_le ?v ++ ?r) ?k] =>
      let k' := eval cbv in (k - 8)%nat in
      change (i32_at (u64_le v ++ r) k) with (i32_at (u64_le v ++ r) (8 + k')%nat);
      rewrite (i32_at_skip (u64_le v) 8 r k' (length_u64_le v))
  | |- context [u64_at (u32_le ?v ++ ?r) ?k] =>
      let k' := eval cbv in (k - 4)%nat in
      change (u64_at (u32_le v ++ r) k) with (u64_at (u32_le v ++ r) (4 + k')%nat);
      rewrite (u64_at_skip (u32_le v) 4 r k' (length_u32_le v))
  | |- context [u32_at (u32_le ?v ++ ?r) ?k] =>
      let k' := eval cbv in (k - 4)%nat in
      change (u32_at (u32_le v ++ r) k) with (u32_at (u32_le v ++ r) (4 + k')%nat);
      rewrite (u32_at_skip (u32_le v) 4 r k' (length_u32_le v))
  | |- context [u64_at (i32_le ?v ++ ?r) ?k] =>
      let k' := eval cbv in (k - 4)%nat in
      change (u64_at (i32_le v ++ r) k) with (u64_at (i32_le v ++ r) (4 + k')%nat);
      rewrite (u64_at_skip (i32_le v) 4 r k' (length_i32_le v))
  | |- context [u32_at (i32_le ?v ++ ?r) ?k] =>
      let k' := eval cbv in (k - 4)%nat in
      change (u32_at (i32_le v ++ r) k) with (u32_at (i32_le v ++ r) (4 + k')%nat);
      rewrite (u32_at_skip (i32_le v) 4 r k' (length_i32_le v))
  end.

(** Computes the length of an encoded record. *)
Ltac wire_length := rewrite ?length_app, ?length_u64_le, ?length_u32_le, ?length_i32_le, ?length_u16_le; reflexivity.
