(* ===== verification/Command.v ===== *)
(** * Framing of the Binder write command stream ([command.rs])

    The BC command kinds, their UAPI words and payload sizes, and [decode], which
    cuts one record off the front of a client's write buffer. *)
From S2P Require Import Prelude.

Inductive Kind : Type :=
| Transaction | Reply | AcquireResult | FreeBuffer | Increfs | Acquire | Release | Decrefs
| IncrefsDone | AcquireDone | AttemptAcquire | RegisterLooper | EnterLooper | ExitLooper
| RequestDeath | ClearDeath | DeadBinderDone | TransactionSg | ReplySg
| RequestFreeze | ClearFreeze | FreezeDone.

#[export] Instance Kind_eq_dec : EqDecision Kind.
Proof. solve_decision. Defined.

Definition KINDS : list Kind :=
  [Transaction; Reply; AcquireResult; FreeBuffer; Increfs; Acquire; Release; Decrefs;
   IncrefsDone; AcquireDone; AttemptAcquire; RegisterLooper; EnterLooper; ExitLooper;
   RequestDeath; ClearDeath; DeadBinderDone; TransactionSg; ReplySg;
   RequestFreeze; ClearFreeze; FreezeDone].

(** The [repr(u8)] discriminant, [self as u32]. *)
Definition discriminant (k : Kind) : Z :=
  match k with
  | Transaction => 0 | Reply => 1 | AcquireResult => 2 | FreeBuffer => 3
  | Increfs => 4 | Acquire => 5 | Release => 6 | Decrefs => 7
  | IncrefsDone => 8 | AcquireDone => 9 | AttemptAcquire => 10
  | RegisterLooper => 11 | EnterLooper => 12 | ExitLooper => 13
  | RequestDeath => 14 | ClearDeath => 15 | DeadBinderDone => 16
  | TransactionSg => 17 | ReplySg => 18
  | RequestFreeze => 19 | ClearFreeze => 20 | FreezeDone => 21
  end.

Definition payload_size (k : Kind) : nat :=
  match k with
  | Transaction | Reply => 64
  | TransactionSg | ReplySg => 72
  | IncrefsDone | AcquireDone => 16
  | RequestDeath | ClearDeath | RequestFreeze | ClearFreeze => 12
  | FreeBuffer | AttemptAcquire | DeadBinderDone | FreezeDone => 8
  | RegisterLooper | EnterLooper | ExitLooper => 0
  | _ => 4
  end.

Definition word (k : Kind) : Z :=
  let size := Z.of_nat (payload_size k) in
  let direction := if size =? 0 then 0 else Z.shiftl 1 30 in
  Z.lor (Z.lor (Z.lor direction (Z.shiftl size 16))
               (from_le [Byte.x00; Byte.x63; Byte.x00; Byte.x00]))
        (discriminant k).

Inductive DecodeError : Type :=
| Truncated
| UnknownCommand (w : Z).

Record Command : Type := { kind : Kind; payload : bytes }.

Definition kind_of_word (w : Z) : option Kind := find (fun k => word k =? w) KINDS.

#[global] Arguments word : simpl never.
#[global] Arguments kind_of_word : simpl never.

Definition decode (input : bytes) : result (Command * Z) DecodeError :=
  let? head := ok_or (get_range input 0 4) Truncated in
  let w := from_le head in
  let? k := ok_or (kind_of_word w) (UnknownCommand w) in
  let last := 4 + Z.of_nat (payload_size k) in
  let? p := ok_or (get_range input 4 last) Truncated in
  Ok ({| kind := k; payload := p |}, last).

(** ** Lemmas *)

Lemma word_range k : u32_range (word k).
Proof. destruct k; vm_compute; split; discriminate. Qed.

Lemma find_word k : kind_of_word (word k) = Some k.
Proof. destruct k; vm_compute; reflexivity. Qed.

Lemma word_inj k1 k2 : word k1 = word k2 -> k1 = k2.
Proof.
  intros E. pose proof (find_word k1) as H1. rewrite E, find_word in H1. congruence.
Qed.

Lemma find_word_Some w k : kind_of_word w = Some k -> word k = w.
Proof. intros [_ H]%find_some. by apply Z.eqb_eq. Qed.

(** The inversion of a successful [decode]: which bytes it reads. *)
Lemma command_decode_inv input c n :
  decode input = Ok (c, n) ->
  n = 4 + Z.of_nat (payload_size (kind c)) /\ length (payload c) = payload_size (kind c) /\
  exists rest, input = u32_le (word (kind c)) ++ payload c ++ rest.
Proof.
  unfold decode. intros H.
  destruct (get_range input 0 4) as [head|] eqn:Eh; [|done]. simpl in H.
  destruct (kind_of_word _) as [k|] eqn:Ek; [|done]. simpl in H.
  destruct (get_range input 4 _) as [p|] eqn:Ep; [|done]. simpl in H.
  injection H as <- <-. simpl.
  apply find_word_Some in Ek.
  pose proof (length_get_range _ _ _ _ Ep) as Lp.
  pose proof (length_get_range _ _ _ _ Eh) as Lh.
  apply get_range_Some in Eh as (_ & _ & Eh). apply get_range_Some in Ep as (_ & Lin & Ep).
  unfold len in *.
  split; [done|]. split; [lia|].
  exists (drop (4 + payload_size k) input).
  rewrite Ek, u32_le_from_le by lia.
  rewrite Eh, Ep, <- drop_drop.
  replace (Z.to_nat (4 + Z.of_nat (payload_size k) - 4)) with (payload_size k) by lia.
  change (Z.to_nat 4) with 4%nat. change (Z.to_nat (4 - 0)) with 4%nat.
  change (Z.to_nat 0) with 0%nat.
  rewrite take_drop, drop_0, take_drop. done.
Qed.

(** A framed record decodes whatever follows it. *)
Lemma decode_framed k p rest :
  length p = payload_size k ->
  decode (u32_le (word k) ++ p ++ rest) =
    Ok ({| kind := k; payload := p |}, 4 + Z.of_nat (payload_size k)).
Proof.
  intros Hp. unfold decode.
  assert (get_range (u32_le (word k) ++ p ++ rest) 0 4 = Some (u32_le (word k))) as ->.
  { apply get_range_Some. unfold len. rewrite !length_app, length_u32_le.
    split_and!; try lia. done. }
  simpl. rewrite from_u32_le by apply word_range. rewrite find_word. simpl.
  assert (get_range (u32_le (word k) ++ p ++ rest) 4 (4 + Z.of_nat (payload_size k)) = Some p) as ->.
  { apply get_range_Some. unfold len. rewrite !length_app, length_u32_le.
    split_and!; try lia.
    change (drop (Z.to_nat 4) (u32_le (word k) ++ p ++ rest)) with (p ++ rest).
    rewrite take_app_le by lia. symmetry. apply take_ge. lia. }
  done.
Qed.

(** ** Properties *)

(** A command decodes precisely from its frame.  Decoding yields a command and a
    number of consumed bytes exactly when the input starts with the command's
    [BC_*] word and its payload, the payload has the size its kind declares, and
    the count covers the word and the payload; whatever follows is untouched. *)
Theorem command_decode_exact input c consumed :
  decode input = Ok (c, consumed) <->
  consumed = 4 + Z.of_nat (payload_size (kind c)) /\
  length (payload c) = payload_size (kind c) /\
  exists rest, input = u32_le (word (kind c)) ++ payload c ++ rest.
Proof.
  split; [apply command_decode_inv|]. intros (-> & Hp & rest & ->).
  destruct c as [k p]. by apply decode_framed.
Qed.
