(* ===== verification/AuthorityProtocol.v ===== *)
(** * The Binder routing-authority control protocol ([authority_protocol/])

    Tokens and messages of the stream between a process endpoint and the profile's
    routing authority, and the versioned binary codec.  A [Write] or [Read] is a
    byte stream: [encode] appends to it, [read_exact] fails at its end. *)
From S2P Require Import Prelude.

(** ** Types ([types.rs])

    The four token types are newtypes over a non-zero [u64]; here they are the
    wrapped integer, and [token_ok] is the invariant their only constructor
    [from_nonzero] establishes. *)

Abbreviation ConnectionToken := Z (only parsing).
Abbreviation LocalNodeToken := Z (only parsing).
Abbreviation CallToken := Z (only parsing).
Abbreviation TransferToken := Z (only parsing).

Definition from_nonzero (raw : Z) : option Z := if raw =? 0 then None else Some raw.

Definition token_ok (t : Z) : Prop := 0 < t <= u64_max.

Inductive TransactionFailure : Type := DeadReply | FailedReply.

#[export] Instance TransactionFailure_eq_dec : EqDecision TransactionFailure.
Proof. solve_decision. Defined.

Record NodeToken : Type := { owner : ConnectionToken; local : LocalNodeToken }.

#[export] Instance NodeToken_eq_dec : EqDecision NodeToken.
Proof. solve_decision. Defined.
#[export] Instance NodeToken_countable : Countable NodeToken.
Proof.
  apply (inj_countable' (fun n => (owner n, local n))
                        (fun p => {| owner := p.1; local := p.2 |})).
  by intros [].
Qed.

Inductive Message : Type :=
| OpenConnection
| PublishNode (local : LocalNodeToken)
| SetContextManager (local : LocalNodeToken)
| GetContextManager
| RouteTransaction (target : NodeToken) (caller_thread : Z) (transfer : TransferToken)
    (code flags : Z)
| CompleteReply (call : CallToken) (transfer : TransferToken) (code flags : Z)
| RequestDeath (target : NodeToken) (cookie : Z)
| ClearDeath (target : NodeToken) (cookie : Z)
| CloseConnection
| ConnectionOpened (connection : ConnectionToken) (android_uid : Z)
| NodePublished (node : NodeToken)
| ContextManagerSet (node : NodeToken)
| ContextManagerFound (node : option NodeToken)
| RouteAccepted (call : option CallToken)
| RouteRejected (reason : TransactionFailure)
| ReplyAccepted (call : CallToken)
| DeathRequested
| DeathCleared
| DeliverTransaction (call : option CallToken) (sender : ConnectionToken)
    (sender_pid sender_euid : Z) (target : LocalNodeToken) (caller_thread : Z)
    (transfer : TransferToken) (code flags : Z)
| DeliverReply (call : CallToken) (source : ConnectionToken) (sender_pid sender_euid : Z)
    (target_thread : Z) (transfer : TransferToken) (code flags : Z)
| TargetDead (call : CallToken) (target_thread : Z)
| CallerDead (call : CallToken)
| NodeDead (cookie : Z).

#[export] Instance Message_eq_dec : EqDecision Message.
Proof. solve_decision. Defined.

(** ** Codec ([codec.rs]) *)

(** [b"DABND001"]. *)
Definition MAGIC : bytes :=
  [Byte.x44; Byte.x41; Byte.x42; Byte.x4e; Byte.x44; Byte.x30; Byte.x30; Byte.x31].
Definition VERSION : Z := 5.
Definition HEADER_BYTES : nat := 16.
Definition MAX_PAYLOAD_BYTES : nat := 56.

Definition OPEN : Z := 1.
Definition PUBLISH_NODE : Z := 2.
Definition ROUTE_TRANSACTION : Z := 3.
Definition COMPLETE_REPLY : Z := 4.
Definition CLOSE : Z := 5.
Definition SET_CONTEXT_MANAGER : Z := 6.
Definition GET_CONTEXT_MANAGER : Z := 7.
Definition REQUEST_DEATH : Z := 8.
Definition CLEAR_DEATH : Z := 9.
Definition OPENED : Z := 0x8001.
Definition NODE_PUBLISHED : Z := 0x8002.
Definition ROUTE_ACCEPTED : Z := 0x8003.
Definition DELIVER_TRANSACTION : Z := 0x8004.
Definition DELIVER_REPLY : Z := 0x8005.
Definition TARGET_DEAD : Z := 0x8006.
Definition CALLER_DEAD : Z := 0x8007.
Definition CONTEXT_MANAGER_SET : Z := 0x8008.
Definition CONTEXT_MANAGER_FOUND : Z := 0x8009.
Definition REPLY_ACCEPTED : Z := 0x800a.
Definition DEATH_REQUESTED : Z := 0x800b.
Definition DEATH_CLEARED : Z := 0x800c.
Definition NODE_DEAD : Z := 0x800d.
Definition ROUTE_REJECTED : Z := 0x800e.

Inductive DecodeError : Type :=
| Io | BadMagic | UnsupportedVersion | Oversized | UnknownOperation | WrongPayloadSize
| ZeroToken | InvalidOptionalToken | InvalidTransactionFailure.

(** The operation code and the payload bytes [push]ed for a message. *)
Definition payload (message : Message) : Z * bytes :=
  match message with
  | OpenConnection => (OPEN, [])
  | PublishNode local => (PUBLISH_NODE, u64_le local)
  | SetContextManager local => (SET_CONTEXT_MANAGER, u64_le local)
  | GetContextManager => (GET_CONTEXT_MANAGER, [])
  | RouteTransaction target caller_thread transfer code flags =>
      (ROUTE_TRANSACTION,
       u64_le (owner target) ++ u64_le (local target) ++ u64_le caller_thread ++
       u64_le transfer ++ u32_le code ++ u32_le flags)
  | CompleteReply call transfer code flags =>
      (COMPLETE_REPLY, u64_le call ++ u64_le transfer ++ u32_le code ++ u32_le flags)
  | RequestDeath target cookie =>
      (REQUEST_DEATH, u64_le (owner target) ++ u64_le (local target) ++ u64_le cookie)
  | ClearDeath target cookie =>
      (CLEAR_DEATH, u64_le (owner target) ++ u64_le (local target) ++ u64_le cookie)
  | CloseConnection => (CLOSE, [])
  | ConnectionOpened connection android_uid =>
      (OPENED, u64_le connection ++ u32_le android_uid)
  | NodePublished node => (NODE_PUBLISHED, u64_le (owner node) ++ u64_le (local node))
  | ContextManagerSet node => (CONTEXT_MANAGER_SET, u64_le (owner node) ++ u64_le (local node))
  | ContextManagerFound node =>
      (CONTEXT_MANAGER_FOUND,
       u64_le (from_option owner 0 node) ++ u64_le (from_option local 0 node))
  | RouteAccepted call => (ROUTE_ACCEPTED, u64_le (default 0 call))
  | RouteRejected reason =>
      (ROUTE_REJECTED, u32_le (match reason with DeadReply => 1 | FailedReply => 2 end))
  | ReplyAccepted call => (REPLY_ACCEPTED, u64_le call)
  | DeathRequested => (DEATH_REQUESTED, [])
  | DeathCleared => (DEATH_CLEARED, [])
  | DeliverTransaction call sender sender_pid sender_euid target caller_thread transfer code flags =>
      (DELIVER_TRANSACTION,
       u64_le (default 0 call) ++ u64_le sender ++ i32_le sender_pid ++ u32_le sender_euid ++
       u64_le target ++ u64_le caller_thread ++ u64_le transfer ++ u32_le code ++ u32_le flags)
  | DeliverReply call source sender_pid sender_euid target_thread transfer code flags =>
      (DELIVER_REPLY,
       u64_le call ++ u64_le source ++ i32_le sender_pid ++ u32_le sender_euid ++
       u64_le target_thread ++ u64_le transfer ++ u32_le code ++ u32_le flags)
  | TargetDead call target_thread => (TARGET_DEAD, u64_le call ++ u64_le target_thread)
  | CallerDead call => (CALLER_DEAD, u64_le call)
  | NodeDead cookie => (NODE_DEAD, u64_le cookie)
  end.

(** [encode] writes the header, then the payload. *)
Definition encode (output : bytes) (message : Message) : bytes :=
  let (operation, payload) := payload message in
  let header := MAGIC ++ u16_le VERSION ++ u16_le operation ++ u32_le (len payload) in
  (output ++ header) ++ payload.

Definition exact (bs : bytes) (expected : nat) : result unit DecodeError :=
  ensure (length bs =? expected)%nat WrongPayloadSize.

(** [read_exact::<N>] on a payload; every instance in the sources has [N = 8]. *)
Definition read_exact_8 (bs : bytes) : result Z DecodeError :=
  let? _ := exact bs 8 in Ok (from_le bs).

Definition token (raw : Z) : result Z DecodeError := ok_or (from_nonzero raw) ZeroToken.

Definition optional_token (raw : Z) : result (option Z) DecodeError :=
  if raw =? 0 then Ok None
  else ok_or (Some <$> from_nonzero raw) InvalidOptionalToken.

(** [NodeToken::new(token(read_u64(bytes, at))?, token(read_u64(bytes, at + 8))?)]. *)
Definition node_token (bs : bytes) (at_ : nat) : result NodeToken DecodeError :=
  let? o := token (u64_at bs at_) in
  let? l := token (u64_at bs (at_ + 8)) in
  Ok {| owner := o; local := l |}.

Definition parse (operation : Z) (bs : bytes) : result Message DecodeError :=
  if operation =? OPEN then let? _ := exact bs 0 in Ok OpenConnection
  else if operation =? PUBLISH_NODE then
    let? raw := read_exact_8 bs in let? t := token raw in Ok (PublishNode t)
  else if operation =? SET_CONTEXT_MANAGER then
    let? raw := read_exact_8 bs in let? t := token raw in Ok (SetContextManager t)
  else if operation =? GET_CONTEXT_MANAGER then let? _ := exact bs 0 in Ok GetContextManager
  else if operation =? ROUTE_TRANSACTION then
    let? _ := exact bs 40 in
    let? target := node_token bs 0 in
    let? transfer := token (u64_at bs 24) in
    Ok (RouteTransaction target (u64_at bs 16) transfer (u32_at bs 32) (u32_at bs 36))
  else if operation =? COMPLETE_REPLY then
    let? _ := exact bs 24 in
    let? call := token (u64_at bs 0) in
    let? transfer := token (u64_at bs 8) in
    Ok (CompleteReply call transfer (u32_at bs 16) (u32_at bs 20))
  else if (operation =? REQUEST_DEATH) || (operation =? CLEAR_DEATH) then
    let? _ := exact bs 24 in
    let? target := node_token bs 0 in
    let cookie := u64_at bs 16 in
    Ok (if operation =? REQUEST_DEATH then RequestDeath target cookie else ClearDeath target cookie)
  else if operation =? CLOSE then let? _ := exact bs 0 in Ok CloseConnection
  else if operation =? OPENED then
    let? _ := exact bs 12 in
    let? connection := token (u64_at bs 0) in
    Ok (ConnectionOpened connection (u32_at bs 8))
  else if operation =? NODE_PUBLISHED then
    let? _ := exact bs 16 in let? node := node_token bs 0 in Ok (NodePublished node)
  else if operation =? CONTEXT_MANAGER_SET then
    let? _ := exact bs 16 in let? node := node_token bs 0 in Ok (ContextManagerSet node)
  else if operation =? CONTEXT_MANAGER_FOUND then
    let? _ := exact bs 16 in
    let o := u64_at bs 0 in
    let l := u64_at bs 8 in
    if (o =? 0) && (l =? 0) then Ok (ContextManagerFound None)
    else if (o =? 0) || (l =? 0) then Err InvalidOptionalToken
    else
      let? o := token o in
      let? l := token l in
      Ok (ContextManagerFound (Some {| owner := o; local := l |}))
  else if operation =? ROUTE_ACCEPTED then
    let? raw := read_exact_8 bs in let? call := optional_token raw in Ok (RouteAccepted call)
  else if operation =? ROUTE_REJECTED then
    let? _ := exact bs 4 in
    let reason := u32_at bs 0 in
    if reason =? 1 then Ok (RouteRejected DeadReply)
    else if reason =? 2 then Ok (RouteRejected FailedReply)
    else Err InvalidTransactionFailure
  else if operation =? REPLY_ACCEPTED then
    let? raw := read_exact_8 bs in let? t := token raw in Ok (ReplyAccepted t)
  else if operation =? DEATH_REQUESTED then let? _ := exact bs 0 in Ok DeathRequested
  else if operation =? DEATH_CLEARED then let? _ := exact bs 0 in Ok DeathCleared
  else if operation =? DELIVER_TRANSACTION then
    let? _ := exact bs 56 in
    let? call := optional_token (u64_at bs 0) in
    let? sender := token (u64_at bs 8) in
    let? target := token (u64_at bs 24) in
    let? transfer := token (u64_at bs 40) in
    Ok (DeliverTransaction call sender (i32_at bs 16) (u32_at bs 20) target (u64_at bs 32)
          transfer (u32_at bs 48) (u32_at bs 52))
  else if operation =? DELIVER_REPLY then
    let? _ := exact bs 48 in
    let? call := token (u64_at bs 0) in
    let? source := token (u64_at bs 8) in
    let? transfer := token (u64_at bs 32) in
    Ok (DeliverReply call source (i32_at bs 16) (u32_at bs 20) (u64_at bs 24)
          transfer (u32_at bs 40) (u32_at bs 44))
  else if operation =? TARGET_DEAD then
    let? _ := exact bs 16 in
    let? call := token (u64_at bs 0) in
    Ok (TargetDead call (u64_at bs 8))
  else if operation =? CALLER_DEAD then
    let? raw := read_exact_8 bs in let? t := token raw in Ok (CallerDead t)
  else if operation =? NODE_DEAD then let? raw := read_exact_8 bs in Ok (NodeDead raw)
  else Err UnknownOperation.

(** [Read::read_exact] on a byte stream. *)
Definition read_exact (n : nat) (input : bytes) : result (bytes * bytes) DecodeError :=
  if (n <=? length input)%nat then Ok (take n input, drop n input) else Err Io.

(** [decode] returns the message and the rest of the stream. *)
Definition decode (input : bytes) : result (Message * bytes) DecodeError :=
  let? (header, input) := read_exact HEADER_BYTES input in
  if negb (bool_decide (slice header 0 8 = MAGIC)) then Err BadMagic
  else if negb (u16_at header 8 =? VERSION) then Err UnsupportedVersion
  else
    let operation := u16_at header 10 in
    let length := u32_at header 12 in
    if Z.of_nat MAX_PAYLOAD_BYTES <? length then Err Oversized
    else
      let? (payload, input) := read_exact (Z.to_nat length) input in
      let? message := parse operation payload in
      Ok (message, input).

(** ** Well-formed messages *)

Definition node_token_ok (n : NodeToken) : Prop := token_ok (owner n) /\ token_ok (local n).

(** What the Rust types guarantee of a message's fields. *)
Definition message_ok (m : Message) : Prop :=
  match m with
  | OpenConnection | GetContextManager | CloseConnection | DeathRequested | DeathCleared
  | RouteRejected _ => True
  | PublishNode t | SetContextManager t | ReplyAccepted t | CallerDead t => token_ok t
  | RouteTransaction target caller_thread transfer code flags =>
      node_token_ok target /\ u64_range caller_thread /\ token_ok transfer /\
      u32_range code /\ u32_range flags
  | CompleteReply call transfer code flags =>
      token_ok call /\ token_ok transfer /\ u32_range code /\ u32_range flags
  | RequestDeath target cookie | ClearDeath target cookie =>
      node_token_ok target /\ u64_range cookie
  | ConnectionOpened connection uid => token_ok connection /\ u32_range uid
  | NodePublished node | ContextManagerSet node => node_token_ok node
  | ContextManagerFound node => from_option node_token_ok True node
  | RouteAccepted call => from_option token_ok True call
  | DeliverTransaction call sender pid euid target thread transfer code flags =>
      from_option token_ok True call /\ token_ok sender /\ i32_range pid /\ u32_range euid /\
      token_ok target /\ u64_range thread /\ token_ok transfer /\
      u32_range code /\ u32_range flags
  | DeliverReply call source pid euid thread transfer code flags =>
      token_ok call /\ token_ok source /\ i32_range pid /\ u32_range euid /\
      u64_range thread /\ token_ok transfer /\ u32_range code /\ u32_range flags
  | TargetDead call thread => token_ok call /\ u64_range thread
  | NodeDead cookie => u64_range cookie
  end.

(** ** Lemmas *)

Lemma token_ok_range t : token_ok t -> u64_range t.
Proof. unfold token_ok, u64_range. lia. Qed.
Lemma zero_range : u64_range 0.
Proof. unfold u64_range, u64_max. lia. Qed.
Lemma default_token_range c : from_option token_ok True c -> u64_range (default 0 c).
Proof. destruct c; simpl; [apply token_ok_range|intros; apply zero_range]. Qed.
#[local] Hint Resolve token_ok_range zero_range default_token_range : rust.

Lemma token_Ok t : token_ok t -> token t = Ok t.
Proof.
  intros [??]. unfold token, from_nonzero. destruct (Z.eqb_spec t 0); [lia|done].
Qed.

Lemma token_Ok_inv raw t : u64_range raw -> token raw = Ok t -> t = raw /\ token_ok t.
Proof.
  intros [??]. unfold token, from_nonzero. destruct (Z.eqb_spec raw 0); [done|].
  intros [= <-]. unfold token_ok. lia.
Qed.

Lemma optional_token_Ok c :
  from_option token_ok True c -> optional_token (default 0 c) = Ok c.
Proof.
  destruct c as [t|]; simpl; [|done]. intros [??]. unfold optional_token, from_nonzero.
  destruct (Z.eqb_spec t 0); [lia|done].
Qed.

Lemma optional_token_Ok_inv raw c :
  u64_range raw -> optional_token raw = Ok c ->
  raw = default 0 c /\ from_option token_ok True c.
Proof.
  intros [??]. unfold optional_token, from_nonzero. destruct (Z.eqb_spec raw 0); simpl.
  - by intros [= <-].
  - intros [= <-]. simpl. unfold token_ok. lia.
Qed.

Lemma node_token_Ok node rest :
  node_token_ok node ->
  node_token (u64_le (owner node) ++ u64_le (local node) ++ rest) 0 = Ok node.
Proof.
  intros [Ho Hl]. unfold node_token. read_fields.
  rewrite !token_Ok by done. by destruct node.
Qed.

Lemma node_token_Ok_last node :
  node_token_ok node ->
  node_token (u64_le (owner node) ++ u64_le (local node)) 0 = Ok node.
Proof. rewrite <- (app_nil_r (u64_le (local node))). apply node_token_Ok. Qed.

(** Decides the tests on constant operation codes. *)
Ltac decide_op :=
  repeat match goal with
  | |- context [?a =? ?b] =>
      is_const a; is_const b;
      let v := eval vm_compute in (a =? b) in
      match v with true => idtac | false => idtac end;
      change (a =? b) with v; cbv beta iota delta [orb]
  end.

Lemma exact_Ok (bs : bytes) n : length bs = n -> exact bs n = Ok tt.
Proof. intros <-. unfold exact, ensure. by rewrite Nat.eqb_refl. Qed.

Lemma read_exact_8_Ok v : u64_range v -> read_exact_8 (u64_le v) = Ok v.
Proof.
  intros. unfold read_exact_8. rewrite exact_Ok by wire_length. by rewrite from_u64_le.
Qed.

Lemma parse_context_manager_found node :
  from_option node_token_ok True node ->
  parse CONTEXT_MANAGER_FOUND
    (u64_le (from_option owner 0 node) ++ u64_le (from_option local 0 node)) =
  Ok (ContextManagerFound node).
Proof.
  intros H. unfold parse. decide_op. rewrite exact_Ok by wire_length.
  destruct node as [node|]; cbn [from_option] in *.
  - destruct H as [Ho Hl]. read_fields. rewrite !token_Ok by done.
    destruct Ho, Hl, node as [o l]; simpl in *.
    destruct (Z.eqb_spec o 0), (Z.eqb_spec l 0); [lia..|reflexivity].
  - read_fields. reflexivity.
Qed.

Lemma parse_route_rejected reason :
  parse ROUTE_REJECTED (u32_le (match reason with DeadReply => 1 | FailedReply => 2 end)) =
  Ok (RouteRejected reason).
Proof. by destruct reason; vm_compute. Qed.

Lemma parse_payload m :
  message_ok m -> parse (payload m).1 (payload m).2 = Ok m.
Proof.
  destruct m; intros H; cbn [message_ok] in H; cbn [payload fst snd];
    lazymatch goal with
    | |- parse CONTEXT_MANAGER_FOUND _ = _ => exact (parse_context_manager_found _ H)
    | |- parse ROUTE_REJECTED _ = _ => exact (parse_route_rejected _)
    | _ => idtac
    end;
    unfold parse; decide_op; destruct_and?;
    rewrite ?exact_Ok by wire_length;
    rewrite ?read_exact_8_Ok, ?token_Ok by eauto with rust;
    rewrite ?node_token_Ok, ?node_token_Ok_last by assumption; read_fields;
    rewrite ?optional_token_Ok, ?token_Ok by assumption; reflexivity.
Qed.

Lemma exact_Ok_inv (bs : bytes) n u : exact bs n = Ok u -> length bs = n.
Proof. unfold exact, ensure. by destruct (Nat.eqb_spec (length bs) n). Qed.

Lemma read_exact_8_Ok_inv bs v :
  read_exact_8 bs = Ok v -> u64_le v = bs /\ u64_range v.
Proof.
  unfold read_exact_8. destruct (exact bs 8) eqn:E; [|done]. intros [= <-].
  apply exact_Ok_inv in E. split; [by apply u64_le_from_le|].
  pose proof (from_le_range bs 8 E). unfold u64_range, u64_max. lia.
Qed.

Lemma node_token_Ok_inv bs node :
  (16 <= length bs)%nat -> node_token bs 0 = Ok node ->
  owner node = u64_at bs 0 /\ local node = u64_at bs 8 /\ node_token_ok node.
Proof.
  intros Hlen. unfold node_token. cbn [Nat.add].
  destruct (token (u64_at bs 0)) as [o|] eqn:Eo; [|done].
  destruct (token (u64_at bs 8)) as [l|] eqn:El; [|done]. intros [= <-].
  apply token_Ok_inv in Eo as [-> ?]; [|apply u64_at_range; lia].
  apply token_Ok_inv in El as [-> ?]; [|apply u64_at_range; lia]. done.
Qed.

(** Rebuilds a byte string from its consecutive fields. *)
Ltac glue_fields :=
  rewrite ?u64_le_at, ?u32_le_at, ?i32_le_at by lia; cbn [Nat.add];
  rewrite ?slice_glue by lia; apply slice_all; lia.

(** A parsed payload is the payload of the message it is parsed to. *)
Definition parsed (operation : Z) (bs : bytes) (m : Message) : Prop :=
  payload m = (operation, bs) /\ message_ok m.

(** Inverts the field decoders a parse succeeded through. *)
Ltac parsed_fields :=
  repeat match goal with
  | H : Ok _ = Ok _ |- _ => injection H as H
  | H : (let? _ := ?c in _) = Ok _ |- _ => let E := fresh "E" in destruct c eqn:E; [|discriminate H]
  | H : exact _ _ = Ok _ |- _ => apply exact_Ok_inv in H
  | H : read_exact_8 _ = Ok _ |- _ => apply read_exact_8_Ok_inv in H as [<- ?]
  | H : token _ = Ok _ |- _ =>
      apply token_Ok_inv in H as [-> ?]; [|first [assumption | apply u64_at_range; lia]]
  | H : optional_token _ = Ok _ |- _ =>
      apply optional_token_Ok_inv in H as [? ?]; [|first [assumption | apply u64_at_range; lia]]
  | H : node_token _ 0 = Ok _ |- _ =>
      apply node_token_Ok_inv in H as (? & ? & ?); [|lia]
  end.

Lemma u32_le_of l v : length l = 4%nat -> u32_at l 0 = v -> u32_le v = l.
Proof. intros E <-. rewrite u32_le_at by lia. by apply slice_all. Qed.

Lemma u64_le_two l a b :
  length l = 16%nat -> u64_at l 0 = a -> u64_at l 8 = b -> u64_le a ++ u64_le b = l.
Proof. intros E <- <-. glue_fields. Qed.

Ltac parsed_tac :=
  let H := fresh in intros H; parsed_fields; subst;
  split; cbn [payload message_ok fst snd];
  [ f_equal; repeat match goal with H : _ = u64_at _ _ |- _ => rewrite H end;
    repeat match goal with H : u64_at _ _ = default 0 _ |- _ => rewrite <- H end;
    first [ by apply eq_sym, nil_length_inv | reflexivity | glue_fields ]
  | split_and?; eauto with rust lia ].

Lemma parsed_context_manager_found bs m :
  parse CONTEXT_MANAGER_FOUND bs = Ok m -> parsed CONTEXT_MANAGER_FOUND bs m.
Proof.
  unfold parse. decide_op. intros H.
  destruct (exact bs 16) eqn:E; [|done]. apply exact_Ok_inv in E.
  destruct (Z.eqb_spec (u64_at bs 0) 0) as [E0|], (Z.eqb_spec (u64_at bs 8) 0) as [E8|];
    simpl in H; try discriminate H.
  - injection H as <-. split; [|done]. cbn [payload from_option]. f_equal. by apply u64_le_two.
  - parsed_fields. subst. split; [|done]. cbn [payload from_option owner local]. f_equal.
    by apply u64_le_two.
Qed.

Lemma parsed_route_rejected bs m :
  parse ROUTE_REJECTED bs = Ok m -> parsed ROUTE_REJECTED bs m.
Proof.
  unfold parse. decide_op. intros H.
  destruct (exact bs 4) eqn:E; [|done]. apply exact_Ok_inv in E.
  destruct (Z.eqb_spec (u32_at bs 0) 1), (Z.eqb_spec (u32_at bs 0) 2); simplify_eq;
    (split; [cbn [payload]; f_equal; by apply u32_le_of|done]).
Qed.

Lemma parse_Ok_inv operation bs m : parse operation bs = Ok m -> parsed operation bs m.
Proof.
  destruct (decide (operation = CONTEXT_MANAGER_FOUND)) as [->|Hcm];
    [apply parsed_context_manager_found|].
  destruct (decide (operation = ROUTE_REJECTED)) as [->|Hrr]; [apply parsed_route_rejected|].
  unfold parse.
  repeat lazymatch goal with
  | |- (if (_ =? CONTEXT_MANAGER_FOUND) then _ else _) = _ -> _ =>
      destruct (Z.eqb_spec operation CONTEXT_MANAGER_FOUND); [done|]
  | |- (if (_ =? ROUTE_REJECTED) then _ else _) = _ -> _ =>
      destruct (Z.eqb_spec operation ROUTE_REJECTED); [done|]
  | |- (if (_ =? REQUEST_DEATH) || _ then _ else _) = _ -> _ =>
      destruct (Z.eqb_spec operation REQUEST_DEATH) as [->|_]; cbn [orb]; [parsed_tac|];
      destruct (Z.eqb_spec operation CLEAR_DEATH) as [->|_]; [parsed_tac|]
  | |- (if (_ =? ?c) then _ else _) = _ -> _ =>
      destruct (Z.eqb_spec operation c) as [->|_]; [parsed_tac|]
  | |- Err _ = Ok _ -> _ => intros [=]
  end.
Qed.

Lemma payload_bounds m :
  (length (payload m).2 <= MAX_PAYLOAD_BYTES)%nat /\ u16_range (payload m).1.
Proof.
  assert (Hr : forall op, bool_decide (0 <= op <= u16_max) = true -> u16_range op).
  { intros op ?%bool_decide_eq_true. done. }
  destruct m; cbn [payload fst snd]; (split;
    [rewrite ?length_app, ?length_u64_le, ?length_u32_le, ?length_i32_le; apply Nat.leb_le; reflexivity|
    apply Hr; vm_compute; reflexivity]).
Qed.

(** The sixteen header bytes of an encoded message. *)
Definition header_of (operation : Z) (length : Z) : bytes :=
  MAGIC ++ u16_le VERSION ++ u16_le operation ++ u32_le length.

Lemma encode_eq out m :
  encode out m = out ++ header_of (payload m).1 (len (payload m).2) ++ (payload m).2.
Proof. unfold encode, header_of. destruct (payload m). by rewrite !app_assoc. Qed.

Lemma length_header_of op n : length (header_of op n) = HEADER_BYTES.
Proof. unfold header_of. rewrite !length_app, !length_u16_le, length_u32_le. reflexivity. Qed.

Lemma read_exact_app n p r : length p = n -> read_exact n (p ++ r) = Ok (p, r).
Proof.
  intros <-. unfold read_exact. rewrite length_app.
  destruct (Nat.leb_spec (length p) (length p + length r)); [|lia].
  by rewrite take_app_length, drop_app_length.
Qed.

Lemma read_exact_Ok_inv n input p r :
  read_exact n input = Ok (p, r) -> input = p ++ r /\ length p = n.
Proof.
  unfold read_exact. destruct (Nat.leb_spec n (length input)); intros [= <- <-].
  split; [by rewrite take_drop|rewrite length_take; lia].
Qed.

Lemma header_of_fields op n :
  u16_range op -> u32_range n ->
  slice (header_of op n) 0 8 = MAGIC /\ u16_at (header_of op n) 8 = VERSION /\
  u16_at (header_of op n) 10 = op /\ u32_at (header_of op n) 12 = n.
Proof.
  intros ??. unfold header_of. split_and!.
  - by apply slice_here.
  - rewrite (u16_at_skip MAGIC 8 _ 0) by reflexivity. apply u16_at_here.
    unfold u16_range, VERSION, u16_max. lia.
  - rewrite (u16_at_skip MAGIC 8 _ 2) by reflexivity.
    rewrite (u16_at_skip _ 2 _ 0) by apply length_u16_le. by apply u16_at_here.
  - rewrite (u32_at_skip MAGIC 8 _ 4) by reflexivity.
    rewrite (u32_at_skip _ 2 _ 2) by apply length_u16_le.
    rewrite (u32_at_skip _ 2 _ 0) by apply length_u16_le. by apply u32_at_last.
Qed.

Lemma header_of_glue h :
  length h = HEADER_BYTES -> slice h 0 8 = MAGIC -> u16_at h 8 = VERSION ->
  h = header_of (u16_at h 10) (u32_at h 12).
Proof.
  unfold HEADER_BYTES. intros Hl Hm Hv. unfold header_of.
  rewrite <- Hm, <- Hv, !u16_le_at, u32_le_at by lia. simpl.
  rewrite !slice_glue by lia. symmetry. by apply slice_all.
Qed.

Lemma decode_encode_app m rest :
  message_ok m -> decode (encode [] m ++ rest) = Ok (m, rest).
Proof.
  intros Hm. pose proof (payload_bounds m) as [Hl Hop].
  assert (Hn : u32_range (len (payload m).2)).
  { unfold u32_range, len, MAX_PAYLOAD_BYTES, u32_max in *. lia. }
  rewrite encode_eq, app_nil_l, <- app_assoc. unfold decode.
  rewrite read_exact_app by apply length_header_of.
  destruct (header_of_fields _ _ Hop Hn) as (-> & -> & -> & ->).
  rewrite bool_decide_true, Z.eqb_refl by done. cbn [negb].
  destruct (Z.ltb_spec (Z.of_nat MAX_PAYLOAD_BYTES) (len (payload m).2)); [unfold len in *; lia|].
  rewrite read_exact_app by (unfold len; lia). by rewrite parse_payload.
Qed.

Lemma message_decode_inv input m rest :
  decode input = Ok (m, rest) -> message_ok m /\ input = encode [] m ++ rest.
Proof.
  unfold decode. destruct (read_exact HEADER_BYTES input) as [[h tl]|] eqn:Eh; [|done].
  apply read_exact_Ok_inv in Eh as [-> Hh].
  destruct (bool_decide_reflect (slice h 0 8 = MAGIC)) as [Hm|]; [|done].
  destruct (Z.eqb_spec (u16_at h 8) VERSION) as [Hv|]; [|done]. cbn [negb].
  destruct (Z.ltb_spec (Z.of_nat MAX_PAYLOAD_BYTES) (u32_at h 12)); [done|].
  destruct (read_exact _ tl) as [[p tl']|] eqn:Ep; [|done].
  apply read_exact_Ok_inv in Ep as [-> Hp].
  destruct (parse _ p) as [m'|] eqn:E; [|done]. intros [= -> ->].
  apply parse_Ok_inv in E as [E Hok]. split; [done|].
  rewrite encode_eq, E, app_nil_l, <- app_assoc. f_equal.
  rewrite (header_of_glue h) at 1 by done. f_equal. unfold len. cbn [snd].
  pose proof (u32_at_range h 12 ltac:(rewrite Hh; unfold HEADER_BYTES; lia)) as [??]. lia.
Qed.


(** ** Properties *)

(** C16: decoding is the exact inverse of encoding on streams.  A stream decodes to a
    message and a rest precisely when the message satisfies what its Rust type
    guarantees and the stream is that message's encoding followed by the rest; so
    every message round trips, no byte is over-read or dropped, and no second
    byte sequence is accepted for a message. *)
Theorem authority_codec_exact input m rest :
  decode input = Ok (m, rest) <-> message_ok m /\ input = encode [] m ++ rest.
Proof.
  split; [apply message_decode_inv|]. intros [Hm ->]. by apply decode_encode_app.
Qed.
