(* ===== verification/Objects.v ===== *)
(** * Structural validation of Binder objects ([objects.rs], [object_fields.rs])

    The offset table of a transaction is decoded and every object it points at is
    checked for alignment, order, known type and completeness before anything is
    translated. *)
From Stdlib Require Import Sorted.
From S2P Require Import Prelude.

(** ** Definitions *)

Inductive Kind : Type := Binder | WeakBinder | Handle | WeakHandle | Fd | Buffer | FdArray.

#[export] Instance Kind_eq_dec : EqDecision Kind.
Proof. solve_decision. Defined.

(** The three characters of each type: [sb*], [wb*], [sh*], [wh*], [fd*], [pt*], [fda]. *)
Definition tag_bytes (k : Kind) : bytes :=
  match k with
  | Binder => [Byte.x73; Byte.x62; Byte.x2a]
  | WeakBinder => [Byte.x77; Byte.x62; Byte.x2a]
  | Handle => [Byte.x73; Byte.x68; Byte.x2a]
  | WeakHandle => [Byte.x77; Byte.x68; Byte.x2a]
  | Fd => [Byte.x66; Byte.x64; Byte.x2a]
  | Buffer => [Byte.x70; Byte.x74; Byte.x2a]
  | FdArray => [Byte.x66; Byte.x64; Byte.x61]
  end.

(** [u32::from_be_bytes([b0, b1, b2, 0x85])]. *)
Definition tag (k : Kind) : Z := from_le (reverse (tag_bytes k ++ [Byte.x85])).

Definition size (k : Kind) : Z :=
  match k with Buffer => 40 | FdArray => 32 | _ => 24 end.

Inductive Error : Type :=
| OffsetTableSize | InvalidOffset | UnknownType (tag : Z) | IncompleteObject | OutOfMemory.

Record Object : Type := { kind : Kind; offset : Z; obytes : bytes }.

#[export] Instance Object_eq_dec : EqDecision Object.
Proof. solve_decision. Defined.

(** [chunks_exact(8)]: a shorter remainder is dropped. *)
Fixpoint chunks8 (l : bytes) : list bytes :=
  match l with
  | a :: b :: c :: d :: e :: f :: g :: h :: r => [a; b; c; d; e; f; g; h] :: chunks8 r
  | _ => []
  end.

Definition kinds : list Kind := [Binder; WeakBinder; Handle; WeakHandle; Fd; Buffer; FdArray].

Definition kind_of_tag (t : Z) : option Kind :=
  snd <$> list_find (fun k => tag k = t) kinds.

(** The body of the loop of [validate] up to the [push]: one entry of the table. *)
Definition validate_entry (data : bytes) (minimum : Z) (encoded : bytes) : result Object Error :=
  let offset := from_le encoded in
  if (offset <? minimum) || negb (offset mod 4 =? 0) then Err InvalidOffset
  else
    let? header_end := ok_or (checked_add usize_max offset 4) InvalidOffset in
    let? header := ok_or (get_range data offset header_end) IncompleteObject in
    let t := from_le header in
    let? kind := ok_or (kind_of_tag t) (UnknownType t) in
    let? end_ := ok_or (checked_add usize_max offset (size kind)) InvalidOffset in
    let? bs := ok_or (get_range data offset end_) IncompleteObject in
    Ok {| kind := kind; offset := offset; obytes := bs |}.

(** The loop of [validate]; iteration [i] reserves at path [[i]]. *)
Fixpoint validate_loop (rsv : Reserve) (data : bytes) (i : nat) (minimum : Z)
    (chunks : list bytes) : result (list Object) Error :=
  match chunks with
  | [] => Ok []
  | encoded :: chunks =>
      let? object := validate_entry data minimum encoded in
      let? _ := ensure (rsv [i]) OutOfMemory in
      let? rest := validate_loop rsv data (S i) (offset object + size (kind object)) chunks in
      Ok (object :: rest)
  end.

Definition validate (rsv : Reserve) (data offsets : bytes) : result (list Object) Error :=
  if negb (Nat.modulo (length offsets) 8 =? 0)%nat then Err OffsetTableSize
  else validate_loop rsv data 0 0 (chunks8 offsets).

(** [object_fields.rs]: the typed view of a validated object. *)
Inductive Fields : Type :=
| FNode (weak : bool) (flags pointer cookie : Z)
| FHandle (weak : bool) (flags handle cookie : Z)
| FFd (fd cookie : Z)
| FBuffer (flags pointer length parent parent_offset : Z)
| FFdArray (count parent parent_offset : Z).

Definition fields (o : Object) : Fields :=
  let word := u32_at (obytes o) in
  let wide := u64_at (obytes o) in
  match kind o with
  | Binder | WeakBinder =>
      FNode (bool_decide (kind o = WeakBinder)) (word 4%nat) (wide 8%nat) (wide 16%nat)
  | Handle | WeakHandle =>
      FHandle (bool_decide (kind o = WeakHandle)) (word 4%nat) (word 8%nat) (wide 16%nat)
  | Fd => FFd (word 8%nat) (wide 16%nat)
  | Buffer => FBuffer (word 4%nat) (wide 8%nat) (wide 16%nat) (wide 24%nat) (wide 32%nat)
  | FdArray => FFdArray (wide 8%nat) (wide 16%nat) (wide 24%nat)
  end.

(** ** Specification *)

(** An object lies at its offset: aligned, complete, in bounds and of its kind. *)
Definition object_at (data : bytes) (o : Object) : Prop :=
  0 <= offset o /\ offset o mod 4 = 0 /\ offset o + size (kind o) <= usize_max /\
  get_range data (offset o) (offset o + size (kind o)) = Some (obytes o) /\
  u32_at (obytes o) 0 = tag (kind o).

(** [a] ends before [b] starts. *)
Definition before (a b : Object) : Prop := offset a + size (kind a) <= offset b.

(** The offset table that lists the objects. *)
Definition table (objects : list Object) : bytes := concat (u64_le ∘ offset <$> objects).

(** ** Lemmas *)

Lemma size_pos k : 24 <= size k <= 40.
Proof. destruct k; simpl; lia. Qed.

Lemma tag_inj j k : tag j = tag k -> j = k.
Proof. destruct j, k; (done || (intros H; vm_compute in H; discriminate H)). Qed.

Lemma kind_of_tag_Some t k : kind_of_tag t = Some k <-> tag k = t.
Proof.
  unfold kind_of_tag. split.
  - intros ([i k'] & (_ & H & _)%list_find_Some & ->)%fmap_Some. done.
  - intros <-. destruct k; vm_compute; reflexivity.
Qed.

Lemma chunks8_app a l : length a = 8%nat -> chunks8 (a ++ l) = a :: chunks8 l.
Proof. intros H. do 8 (destruct a as [|? a]; [done|]). by destruct a. Qed.

Lemma chunks8_spec n l :
  length l = (n * 8)%nat ->
  concat (chunks8 l) = l /\ Forall (fun c => length c = 8%nat) (chunks8 l).
Proof.
  induction n as [|n IH] in l |- *; intros H; [by apply nil_length_inv in H as ->|].
  rewrite <- (take_drop 8 l). assert (length (take 8 l) = 8%nat) by (rewrite length_take; lia).
  rewrite chunks8_app by done. destruct (IH (drop 8 l)) as [E F]; [rewrite length_drop; lia|].
  simpl. rewrite E. auto.
Qed.

Lemma table_cons o objects : table (o :: objects) = u64_le (offset o) ++ table objects.
Proof. done. Qed.

Lemma chunks8_table objects : chunks8 (table objects) = u64_le ∘ offset <$> objects.
Proof.
  induction objects as [|o objects IH]; [done|]. rewrite table_cons.
  rewrite chunks8_app by apply length_u64_le. by rewrite IH.
Qed.

Lemma length_table objects : length (table objects) = (length objects * 8)%nat.
Proof.
  induction objects as [|o objects IH]; [done|]. rewrite table_cons, length_app, IH, length_u64_le.
  done.
Qed.

Lemma from_le_header bs : from_le (slice bs 0 4) = u32_at bs 0.
Proof. reflexivity. Qed.

Lemma validate_entry_Ok data minimum encoded o :
  0 <= minimum -> length encoded = 8%nat ->
  validate_entry data minimum encoded = Ok o <->
  encoded = u64_le (offset o) /\ minimum <= offset o /\ object_at data o.
Proof.
  intros Hmin Henc. pose proof (from_le_range encoded 8 Henc) as Hr. unfold validate_entry.
  split.
  - destruct (Z.ltb_spec (from_le encoded) minimum); [done|].
    destruct (Z.eqb_spec (from_le encoded mod 4) 0) as [Hal|]; [|done]. simpl.
    destruct (checked_add usize_max _ 4) as [he|] eqn:E4; [|done]. simpl.
    apply checked_add_Some in E4 as [-> _].
    destruct (get_range data _ _) as [h|] eqn:Eh; [|done]. simpl.
    destruct (kind_of_tag (from_le h)) as [k|] eqn:Ek; [|done]. simpl.
    apply kind_of_tag_Some in Ek.
    destruct (checked_add usize_max _ (size k)) as [fin|] eqn:Ee; [|done]. simpl.
    apply checked_add_Some in Ee as [-> ?].
    destruct (get_range data _ (_ + size k)) as [bs|] eqn:Eb; [|done]. intros [= <-]. simpl.
    split_and!; [by rewrite u64_le_from_le|lia|]. unfold object_at. simpl. split_and!; try done; [lia|].
    pose proof (size_pos k).
    pose proof (get_range_sub _ _ _ _ 0 4 Eb ltac:(lia) ltac:(lia)) as Hs.
    rewrite Z.add_0_r in Hs. change (Z.of_nat 4) with 4 in Hs. rewrite Eh in Hs.
    injection Hs as ->. by rewrite <- from_le_header.
  - intros (-> & Hm & H0 & Ha & Hmax & Hg & Ht). pose proof (size_pos (kind o)).
    assert (u64_range (offset o)) by (unfold u64_range; unfold usize_max in *; lia).
    rewrite from_u64_le by done.
    destruct (Z.ltb_spec (offset o) minimum); [lia|]. rewrite Ha. simpl.
    rewrite (proj2 (checked_add_Some usize_max _ 4 _)) by (split; [done|lia]). simpl.
    pose proof (get_range_sub _ _ _ _ 0 4 Hg ltac:(lia) ltac:(lia)) as Hs.
    rewrite Z.add_0_r in Hs. change (Z.of_nat 4) with 4 in Hs. rewrite Hs. simpl.
    rewrite from_le_header, Ht, (proj2 (kind_of_tag_Some _ _)) by done. simpl.
    rewrite (proj2 (checked_add_Some usize_max _ (size _) _)) by (split; [done|lia]). simpl.
    rewrite Hg. by destruct o.
Qed.

Lemma validate_loop_Ok rsv data i minimum chunks objects :
  0 <= minimum -> Forall (fun c => length c = 8%nat) chunks ->
  validate_loop rsv data i minimum chunks = Ok objects <->
  concat chunks = table objects /\ length objects = length chunks /\
  Forall (fun o => minimum <= offset o) objects /\ Forall (object_at data) objects /\
  StronglySorted before objects /\
  forall k, (k < length objects)%nat -> rsv [(i + k)%nat] = true.
Proof.
  induction chunks as [|c chunks IH] in i, minimum, objects |- *; intros Hmin HF.
  { simpl. split; [intros [= <-]; split_and!; by (constructor || (simpl; intros; lia))|].
    intros (_ & H & _). by apply nil_length_inv in H as ->. }
  apply Forall_cons in HF as [Hc HF]. cbn [validate_loop concat length].
  split.
  - destruct (validate_entry data minimum c) as [o|] eqn:Ev; [|done].
    apply validate_entry_Ok in Ev as (-> & Hm & Ho); [|done..].
    destruct (rsv [i]) eqn:Er; [|done]. simpl.
    destruct (validate_loop _ _ _ _ _) as [rest|] eqn:El; [|done]. intros [= <-].
    pose proof (size_pos (kind o)).
    apply IH in El as (-> & Hl & Hge & Hat & Hs & Hr); [|destruct Ho; lia|done].
    rewrite table_cons. split_and!; [done|simpl; lia| | by constructor | by constructor | ].
    + constructor; [done|]. eapply Forall_impl; [apply Hge|]. simpl. lia.
    + intros [|k] Hk; [by rewrite Nat.add_0_r|]. rewrite <- Nat.add_succ_comm. apply Hr. simpl in Hk. lia.
  - destruct objects as [|o rest]; [intros (_ & [=] & _)|]. rewrite table_cons.
    intros (E & Hl & Hge & Hat & Hs & Hr).
    apply app_inj_1 in E as [-> E]; [|by rewrite length_u64_le].
    apply Forall_cons in Hge as [? _]. apply Forall_cons_1 in Hat as [Ho Hat].
    apply StronglySorted_inv in Hs as [Hs Hb].
    rewrite (proj2 (validate_entry_Ok data minimum _ o Hmin Hc)) by done.
    rewrite <- (Nat.add_0_r i) at 1. rewrite (Hr 0%nat) by (simpl; lia). simpl.
    pose proof (size_pos (kind o)).
    assert (Hnn : 0 <= offset o + size (kind o)) by (destruct Ho; lia).
    rewrite (proj2 (IH (S i) _ rest Hnn HF)); [done|].
    split_and!; try done; [simpl in Hl; lia|].
    intros k Hk. rewrite Nat.add_succ_comm. apply Hr. simpl. lia.
Qed.

Lemma validate_Ok rsv data offsets objects :
  validate rsv data offsets = Ok objects <->
  offsets = table objects /\ Forall (object_at data) objects /\
  StronglySorted before objects /\ forall k, (k < length objects)%nat -> rsv [k] = true.
Proof.
  unfold validate. split.
  - destruct (Nat.eqb_spec (length offsets mod 8) 0) as [Hm|]; [|done]. simpl.
    apply Nat.Div0.mod_divides in Hm as [n Hn].
    destruct (chunks8_spec n offsets) as [E F]; [lia|].
    intros H%validate_loop_Ok; [|done..]. destruct H as (<- & _ & _ & ? & ? & Hr). by rewrite E.
  - intros (-> & Hat & Hs & Hr). rewrite length_table, Nat.Div0.mod_mul. simpl.
    apply validate_loop_Ok; [done| |].
    + destruct (chunks8_spec (length objects) (table objects) (length_table _)). done.
    + rewrite chunks8_table. split_and!; try done; [by rewrite length_fmap|].
      eapply Forall_impl; [apply Hat|]. by intros o [? _].
Qed.

(** Objects accepted once are accepted again. *)
Lemma validate_again rsv data offsets objects :
  validate rsv data offsets = Ok objects -> validate reserve_ok data offsets = Ok objects.
Proof. rewrite !validate_Ok. intros (-> & ? & ? & _). by split_and!. Qed.

(** ** Properties *)

(** C17: a transaction's objects are accepted exactly when the offset table is the
    encoding of their offsets, every object is complete, in bounds, four-byte
    aligned and carries its kind's tag, each one ends before the next starts, and
    every reservation succeeds; the result lists them in table order. *)
Theorem objects_validate_exact rsv data offsets objects :
  validate rsv data offsets = Ok objects <->
  offsets = table objects /\ Forall (object_at data) objects /\
  StronglySorted before objects /\ forall k, (k < length objects)%nat -> rsv [k] = true.
Proof. apply validate_Ok. Qed.
