(* ===== verification/TransactionLayout.v ===== *)
(** * Receive-buffer layout ([transaction_layout.rs])

    The data, offset-table and extra sections of a transaction, each aligned to
    eight bytes in one buffer of at least eight bytes. *)
From S2P Require Import Prelude.

(** A [Range<usize>] is its two ends. *)
Record Range : Type := { start : Z; stop : Z }.

Definition range_len (r : Range) : Z := stop r - start r.

Record TransactionLayout : Type :=
  { data : Range; offsets : Range; extra : Range; total : Z }.

#[export] Instance Range_eq_dec : EqDecision Range.
Proof. solve_decision. Defined.
#[export] Instance TransactionLayout_eq_dec : EqDecision TransactionLayout.
Proof. solve_decision. Defined.

Definition new (data_size offsets_size extra_size : Z) : option TransactionLayout :=
  offsets_start ← align8 data_size;
  aligned_offsets ← align8 offsets_size;
  extra_start ← checked_add usize_max offsets_start aligned_offsets;
  aligned_extra ← align8 extra_size;
  unclamped ← checked_add usize_max extra_start aligned_extra;
  offsets_end ← checked_add usize_max offsets_start offsets_size;
  extra_end ← checked_add usize_max extra_start extra_size;
  Some {| data := {| start := 0; stop := data_size |};
          offsets := {| start := offsets_start; stop := offsets_end |};
          extra := {| start := extra_start; stop := extra_end |};
          total := Z.max unclamped 8 |}.

(** ** Specification *)

(** The next multiple of eight. *)
Definition round_up8 (v : Z) : Z := 8 * ((v + 7) / 8).

(** Sections of the requested sizes, in order, disjoint, each starting at a multiple
    of eight, inside a buffer whose size is a multiple of eight and fits [usize]. *)
Definition layout_ok (data_size offsets_size extra_size : Z) (l : TransactionLayout) : Prop :=
  range_len (data l) = data_size /\ range_len (offsets l) = offsets_size /\
  range_len (extra l) = extra_size /\
  start (data l) = 0 /\ stop (data l) <= start (offsets l) < stop (data l) + 8 /\
  stop (offsets l) <= start (extra l) < stop (offsets l) + 8 /\
  stop (extra l) <= total l < Z.max (stop (extra l) + 8) 9 /\
  start (offsets l) mod 8 = 0 /\ start (extra l) mod 8 = 0 /\ total l mod 8 = 0 /\
  8 <= total l <= usize_max.

(** ** Lemmas *)

Lemma round_up8_bounds v : v <= round_up8 v < v + 8 /\ round_up8 v mod 8 = 0.
Proof. unfold round_up8. split; mod_lia. Qed.

Lemma align8_round_up v :
  0 <= v -> align8 v = if round_up8 v <=? usize_max then Some (round_up8 v) else None.
Proof.
  intros Hv. pose proof (round_up8_bounds v) as [Hb Hm].
  destruct (align8 v) as [a|] eqn:E.
  - apply align8_Some in E as (Ha & Hr & Hmax); [|lia].
    destruct (Z.leb_spec (round_up8 v) usize_max); [f_equal|]; mod_lia.
  - apply align8_None in E. unfold usize_max, u64_max in *.
    destruct (Z.leb_spec (round_up8 v) (2 ^ 64 - 1)); [|done].
    exfalso. change (2 ^ 64) with (8 * 2 ^ 61) in *. mod_lia.
Qed.

Lemma new_eq d o e :
  0 <= d -> 0 <= o -> 0 <= e ->
  new d o e =
    if round_up8 d + round_up8 o + round_up8 e <=? usize_max then
      Some {| data := {| start := 0; stop := d |};
              offsets := {| start := round_up8 d; stop := round_up8 d + o |};
              extra := {| start := round_up8 d + round_up8 o;
                          stop := round_up8 d + round_up8 o + e |};
              total := Z.max (round_up8 d + round_up8 o + round_up8 e) 8 |}
    else None.
Proof.
  intros Hd Ho He. unfold new, checked_add. rewrite !align8_round_up by done.
  pose proof (round_up8_bounds d). pose proof (round_up8_bounds o).
  pose proof (round_up8_bounds e).
  repeat match goal with
  | |- context [if (?a <=? ?b) then _ else _] => destruct (Z.leb_spec a b); simpl; try lia
  end; done.
Qed.

Lemma new_layout_ok d o e l :
  0 <= d -> 0 <= o -> 0 <= e -> new d o e = Some l -> layout_ok d o e l.
Proof.
  intros ???. rewrite new_eq by done. case_match eqn:E; [|done]. intros [= <-].
  apply Z.leb_le in E.
  pose proof (round_up8_bounds d) as [? Hd]. pose proof (round_up8_bounds o) as [? Ho].
  pose proof (round_up8_bounds e) as [? He].
  unfold layout_ok, range_len; simpl. unfold usize_max, u64_max in *.
  split_and!; try lia; mod_lia.
Qed.

Lemma layout_ok_new d o e l :
  0 <= d -> 0 <= o -> 0 <= e -> layout_ok d o e l -> new d o e = Some l.
Proof.
  intros ???. rewrite new_eq by done. destruct l as [[? ?] [? ?] [? ?] ?].
  unfold layout_ok, range_len; simpl.
  intros (? & ? & ? & ? & ? & ? & ? & ? & ? & ? & ?).
  pose proof (round_up8_bounds d) as [??]. pose proof (round_up8_bounds o) as [??].
  pose proof (round_up8_bounds e) as [??].
  destruct (Z.leb_spec (round_up8 d + round_up8 o + round_up8 e) usize_max).
  - repeat f_equal; mod_lia.
  - exfalso. unfold usize_max, u64_max in *. change (2 ^ 64) with (8 * 2 ^ 61) in *. mod_lia.
Qed.

(** ** Properties *)

(** For section sizes of type [usize], a layout is computed exactly when one
    exists: the result has the requested section sizes, in order and disjoint, each
    section starts at the first multiple of eight after the previous one, and the
    total is the smallest multiple of eight, at least eight, that holds them without
    overflowing [usize]. *)
Theorem layout_new_exact d o e l (Hd : u64_range d) (Ho : u64_range o) (He : u64_range e) :
  new d o e = Some l <-> layout_ok d o e l.
Proof.
  destruct Hd, Ho, He. split; [by apply new_layout_ok|by apply layout_ok_new].
Qed.

Lemma layout_new_exact_witness :
  new 13 8 16 = Some {| data := {| start := 0; stop := 13 |};
                        offsets := {| start := 16; stop := 24 |};
                        extra := {| start := 24; stop := 40 |}; total := 40 |} /\
  layout_ok 13 8 16 {| data := {| start := 0; stop := 13 |};
                       offsets := {| start := 16; stop := 24 |};
                       extra := {| start := 24; stop := 40 |}; total := 40 |}.
Proof.
  split; [vm_compute; reflexivity|].
  apply (layout_new_exact 13 8 16); [vm_compute; split; discriminate..|].
  vm_compute. reflexivity.
Defined.
