(* ===== verification/TransactionSnapshot.v ===== *)
(** * Owned transaction snapshots ([transaction_snapshot.rs])

    [capture] copies the two client slices and validates the copies. *)
From S2P Require Import Prelude Objects TransactionLayout.

Inductive Error : Type :=
| Layout | ExtraAlignment | SObjects (e : Objects.Error) | OutOfMemory.

Record TransactionSnapshot : Type :=
  { sdata : bytes; soffsets : bytes; slayout : TransactionLayout }.

(** The trait [TransactionPayload]: the immutable sections the receive side consumes. *)
Class TransactionPayload (T : Type) : Type :=
  { payload_data : T -> bytes;
    payload_offsets : T -> bytes;
    payload_layout : T -> TransactionLayout }.

(** Its provided method [objects]. *)
Definition objects `{TransactionPayload T} (rsv : Reserve) (p : T)
    : result (list Object) Objects.Error :=
  validate rsv (payload_data p) (payload_offsets p).

#[export] Instance TransactionSnapshot_payload : TransactionPayload TransactionSnapshot :=
  { payload_data := sdata; payload_offsets := soffsets; payload_layout := slayout }.

(** The local function [copy] of [capture]. *)
Definition copy (reserved : bool) (source : bytes) : result bytes Error :=
  let? _ := ensure reserved OutOfMemory in Ok source.

Definition capture (rsv : Reserve) (data offsets : bytes) (extra_size : Z)
    : result TransactionSnapshot Error :=
  if negb (extra_size mod 8 =? 0) then Err ExtraAlignment
  else
    let? layout := ok_or (TransactionLayout.new (len data) (len offsets) extra_size) Layout in
    let? data := copy (rsv [0%nat]) data in
    let? offsets := copy (rsv [1%nat]) offsets in
    let? _ := map_err SObjects (validate (below 2 rsv) data offsets) in
    Ok {| sdata := data; soffsets := offsets; slayout := layout |}.

(** ** Lemmas *)

Lemma capture_Ok rsv data offsets extra_size s :
  capture rsv data offsets extra_size = Ok s ->
  sdata s = data /\ soffsets s = offsets /\ extra_size mod 8 = 0 /\
  TransactionLayout.new (len data) (len offsets) extra_size = Some (slayout s) /\
  exists objs, validate (below 2 rsv) data offsets = Ok objs.
Proof.
  unfold capture, copy. destruct (Z.eqb_spec (extra_size mod 8) 0); [|done]. simpl.
  destruct (TransactionLayout.new _ _ _); [|done]. simpl.
  destruct (rsv [0%nat]); [|done]. simpl. destruct (rsv [1%nat]); [|done]. simpl.
  destruct (validate _ _ _) eqn:E; [|done]. simpl. intros [= <-]. simpl. eauto 6.
Qed.
