(* ===== verification/TransactionRequest.v ===== *)
(** * Write-side transaction headers ([transaction_request.rs]) *)
From Stdlib Require Import Sorted.
From S2P Require Import Prelude Command Objects TransactionLayout TransactionSnapshot.

Inductive Target : Type := THandle (handle : Z) | TReply.

Record SenderRange : Type := { address : Z; rsize : Z }.

Inductive Error : Type :=
| Framing (e : Command.DecodeError)
| NotTransaction (k : Command.Kind)
| CopiedLengthMismatch
| SizeOverflow
| Snapshot (e : TransactionSnapshot.Error).

Record Request : Type :=
  { target : Target; code : Z; flags : Z; rdata : SenderRange; roffsets : SenderRange;
    rextra : Z }.

(** [usize::try_from(u64)] succeeds on the 64-bit target, so [SizeOverflow] is never
    returned. *)
Definition capture_copied (rsv : Reserve) (r : Request) (data offsets : bytes)
    : result TransactionSnapshot Error :=
  if negb (len data =? rsize (rdata r)) || negb (len offsets =? rsize (roffsets r))
  then Err CopiedLengthMismatch
  else map_err Snapshot (capture rsv data offsets (rextra r)).

Definition decode (input : bytes) : result (Request * Z) Error :=
  let? (command, bs) := map_err Framing (Command.decode input) in
  let? reply :=
    match Command.kind command with
    | Command.Transaction | Command.TransactionSg => Ok false
    | Command.Reply | Command.ReplySg => Ok true
    | kind => Err (NotTransaction kind)
    end in
  let data := Command.payload command in
  Ok ({| target := if reply : bool then TReply else THandle (u32_at data 0);
         code := u32_at data 16;
         flags := u32_at data 20;
         rdata := {| address := u64_at data 48; rsize := u64_at data 32 |};
         roffsets := {| address := u64_at data 56; rsize := u64_at data 40 |};
         rextra :=
           match Command.kind command with
           | Command.TransactionSg | Command.ReplySg => u64_at data 64
           | _ => 0
           end |}, bs).

(** ** Lemmas *)

Lemma decode_command input r n :
  decode input = Ok (r, n) ->
  exists c, Command.decode input = Ok (c, n) /\ (64 <= length (Command.payload c))%nat.
Proof.
  unfold decode. destruct (Command.decode input) as [[c bs]|] eqn:E; [|done]. simpl. intros H.
  pose proof (command_decode_inv _ _ _ E) as (_ & Hl & _).
  destruct (Command.kind c) eqn:Ek; simpl in H; try done; injection H as <- <-;
    exists c; (split; [done|rewrite Hl; simpl; lia]).
Qed.

Lemma decode_extra_range input r n : decode input = Ok (r, n) -> u64_range (rextra r).
Proof.
  unfold decode. destruct (Command.decode input) as [[c bs]|] eqn:E; [|done]. simpl. intros H.
  pose proof (command_decode_inv _ _ _ E) as (_ & Hl & _).
  assert (u64_range 0) by (unfold u64_range, u64_max; lia).
  destruct (Command.kind c) eqn:Ek; simpl in H; try done; injection H as <- <-; simpl; try done;
    apply u64_at_range; rewrite Hl; simpl; lia.
Qed.

(** ** Properties *)

(** What a decoded transaction header captures is exactly what it announced.  The
    snapshot holds the copied bytes unchanged, of the announced lengths; its layout
    is the one of these sections and the announced extra size, which is a multiple
    of eight; and the offset table denotes well-formed, disjoint, ordered objects of
    the copied data, which a later validation of the snapshot finds again. *)
Theorem request_capture_sound rsv input r n data offsets s
    (Hdecode : decode input = Ok (r, n))
    (Hcapture : capture_copied rsv r data offsets = Ok s) :
  sdata s = data /\ soffsets s = offsets /\
  len data = rsize (rdata r) /\ len offsets = rsize (roffsets r) /\ rextra r mod 8 = 0 /\
  layout_ok (len data) (len offsets) (rextra r) (slayout s) /\
  exists objs,
    objects reserve_ok s = Ok objs /\ soffsets s = table objs /\
    Forall (object_at (sdata s)) objs /\ StronglySorted before objs.
Proof.
  apply decode_extra_range in Hdecode. unfold capture_copied in Hcapture.
  destruct (Z.eqb_spec (len data) (rsize (rdata r))); [|done].
  destruct (Z.eqb_spec (len offsets) (rsize (roffsets r))); [|done]. simpl in Hcapture.
  destruct (capture _ _ _ _) as [s'|] eqn:E; [|done]. injection Hcapture as ->.
  apply capture_Ok in E as (Hd & Ho & Hx & Hl & objs & Hv). rewrite Hd, Ho.
  apply new_layout_ok in Hl; [|apply len_nonneg..|by destruct Hdecode].
  split_and!; try done. exists objs. unfold objects. simpl. rewrite Hd, Ho.
  split; [by eapply validate_again|]. by apply validate_Ok in Hv as (? & ? & ? & _).
Qed.

(** A [BC_TRANSACTION] to handle 7 with 24 bytes of data, one object, and its copies. *)
Definition example_data : bytes := u32_le (tag Binder) ++ zeroed 20.
Definition example_input : bytes :=
  u32_le (Command.word Command.Transaction) ++
  u32_le 7 ++ zeroed 12 ++ u32_le 3 ++ u32_le 1 ++ zeroed 8 ++
  u64_le 24 ++ u64_le 8 ++ u64_le 4096 ++ u64_le 8192.
Definition example_request : Request :=
  {| target := THandle 7; code := 3; flags := 1;
     rdata := {| address := 4096; rsize := 24 |};
     roffsets := {| address := 8192; rsize := 8 |}; rextra := 0 |}.
Definition example_snapshot : TransactionSnapshot :=
  {| sdata := example_data; soffsets := u64_le 0;
     slayout := {| TransactionLayout.data := {| start := 0; stop := 24 |};
                   offsets := {| start := 24; stop := 32 |};
                   extra := {| start := 32; stop := 32 |}; total := 32 |} |}.

Lemma request_capture_sound_witness :
  decode example_input = Ok (example_request, 68) /\
  layout_ok 24 8 0 (slayout example_snapshot).
Proof.
  assert (Hd : decode example_input = Ok (example_request, 68)) by (vm_compute; reflexivity).
  split; [exact Hd|].
  apply (request_capture_sound reserve_ok example_input example_request 68
           example_data (u64_le 0) example_snapshot Hd).
  vm_compute. reflexivity.
Defined.
