(* ===== verification/TransactionWire.v ===== *)
(** * Read-side transaction records ([transaction_wire.rs]) *)
From S2P Require Import Prelude.

Definition BR_TRANSACTION : Z := 0x80407202.
Definition BR_REPLY : Z := 0x80407203.
Definition RECORD_SIZE : nat := 4 + 64.

Record Metadata : Type :=
  { target_pointer : Z; target_cookie : Z; code : Z; flags : Z; sender_pid : Z;
    sender_euid : Z; data_size : Z; offsets_size : Z; buffer : Z; offsets : Z }.

(** The output slice after the call and the returned count.  [payload] is
    [record[4..]]: its offsets are shifted by four. *)
Definition encode_transaction (output : bytes) (reply : bool) (value : Metadata)
    : bytes * option Z :=
  if (length output <? RECORD_SIZE)%nat then (output, None)
  else
    let put off src out := copy_at (4 + off) src out in
    let output := copy_at 0 (u32_le (if reply then BR_REPLY else BR_TRANSACTION)) output in
    let output := put 0%nat (u64_le (target_pointer value)) output in
    let output := put 8%nat (u64_le (target_cookie value)) output in
    let output := put 16%nat (u32_le (code value)) output in
    let output := put 20%nat (u32_le (flags value)) output in
    let output := put 24%nat (i32_le (sender_pid value)) output in
    let output := put 28%nat (u32_le (sender_euid value)) output in
    let output := put 32%nat (u64_le (data_size value)) output in
    let output := put 40%nat (u64_le (offsets_size value)) output in
    let output := put 48%nat (u64_le (buffer value)) output in
    let output := put 56%nat (u64_le (offsets value)) output in
    (output, Some (Z.of_nat RECORD_SIZE)).

(** ** Specification: the packed [binder_transaction_data] record *)

Definition record (reply : bool) (m : Metadata) : bytes :=
  u32_le (if reply then BR_REPLY else BR_TRANSACTION) ++
  u64_le (target_pointer m) ++ u64_le (target_cookie m) ++ u32_le (code m) ++
  u32_le (flags m) ++ i32_le (sender_pid m) ++ u32_le (sender_euid m) ++
  u64_le (data_size m) ++ u64_le (offsets_size m) ++ u64_le (buffer m) ++ u64_le (offsets m).

(** ** Properties *)

(** A transaction record is written only into a buffer that holds it, as the
    packed [BR_TRANSACTION] or [BR_REPLY] record in the first 68 bytes, and the rest
    of the buffer keeps its contents; a shorter buffer is left untouched. *)
Theorem encode_transaction_packed output reply m :
  encode_transaction output reply m =
    if (length output <? RECORD_SIZE)%nat then (output, None)
    else (record reply m ++ drop RECORD_SIZE output, Some 68).
Proof.
  unfold encode_transaction. destruct (Nat.ltb_spec (length output) RECORD_SIZE) as [|Hlen]; [done|].
  unfold RECORD_SIZE in Hlen. f_equal. rewrite <- (app_nil_l output) at 1. simpl Nat.add.
  repeat (rewrite copy_at_next;
    [|by autorewrite with wire|autorewrite with wire; rewrite ?length_drop; lia];
    autorewrite with wire).
  unfold record. rewrite <- !app_assoc, !drop_drop. done.
Qed.
