(* ===== verification/NodeWork.v ===== *)
(** * Owner notification state of a node ([node_work.rs])

    Which [BR_*] reference notifications a node's owner has been sent, and which
    acknowledgements it still owes.  [Strength] and [Counts] are declared in
    [reference_table.rs]. *)
From S2P Require Import Prelude.

(** ** Definitions *)

Inductive Strength : Type := Strong | Weak.

#[export] Instance Strength_eq_dec : EqDecision Strength.
Proof. solve_decision. Defined.

Record Counts : Type := { strong : Z; weak : Z }.

#[export] Instance Counts_eq_dec : EqDecision Counts.
Proof. solve_decision. Defined.

Definition default_counts : Counts := {| strong := 0; weak := 0 |}.

Record Demand : Type :=
  { internal_strong : bool; local_strong_demand : bool; has_remote_references : bool;
    local_weak_demand : bool; temporary_demand : bool }.

Inductive Notification : Type := Increfs | Acquire | Release | Decrefs.

#[export] Instance Notification_eq_dec : EqDecision Notification.
Proof. solve_decision. Defined.

Record NodeWork : Type :=
  { has_weak : bool; has_strong : bool; pending_weak : bool; pending_strong : bool }.

#[export] Instance NodeWork_eq_dec : EqDecision NodeWork.
Proof. solve_decision. Defined.

Definition default_work : NodeWork :=
  {| has_weak := false; has_strong := false; pending_weak := false; pending_strong := false |}.

Inductive NoPendingAcknowledgement : Type := NoPendingAck.

Definition mark_context_manager_refs (w : NodeWork) : NodeWork :=
  {| has_weak := true; has_strong := true;
     pending_weak := pending_weak w; pending_strong := pending_strong w |}.

(** A [Batch] borrows the state it was prepared from; it carries the state to commit
    and the four notification slots. *)
Record Batch : Type := { next : NodeWork; slots : list (option Notification) }.

Definition strong_demand (w : NodeWork) (d : Demand) : bool :=
  internal_strong d || local_strong_demand d || pending_strong w.

Definition weak_demand (w : NodeWork) (d : Demand) : bool :=
  has_remote_references d || local_weak_demand d || temporary_demand d || pending_weak w ||
  strong_demand w d.

Definition prepare (w : NodeWork) (d : Demand) : Batch :=
  let strong := strong_demand w d in
  let weak := weak_demand w d in
  let next := w in
  let '(next, increfs) :=
    if weak && negb (has_weak w) then
      ({| has_weak := true; has_strong := has_strong next;
          pending_weak := true; pending_strong := pending_strong next |}, Some Increfs)
    else (next, None) in
  let '(next, acquire) :=
    if strong && negb (has_strong w) then
      ({| has_weak := has_weak next; has_strong := true;
          pending_weak := pending_weak next; pending_strong := true |}, Some Acquire)
    else (next, None) in
  let '(next, release) :=
    if negb strong && has_strong w then
      ({| has_weak := has_weak next; has_strong := false;
          pending_weak := pending_weak next; pending_strong := pending_strong next |},
       Some Release)
    else (next, None) in
  let '(next, decrefs) :=
    if negb weak && has_weak w then
      ({| has_weak := false; has_strong := has_strong next;
          pending_weak := pending_weak next; pending_strong := pending_strong next |},
       Some Decrefs)
    else (next, None) in
  {| next := next; slots := [increfs; acquire; release; decrefs] |}.

Definition notifications (b : Batch) : list Notification := omap id (slots b).

Definition commit (b : Batch) : NodeWork := next b.

Definition acknowledge (w : NodeWork) (s : Strength) : result NodeWork NoPendingAcknowledgement :=
  match s with
  | Strong =>
      if negb (pending_strong w) then Err NoPendingAck
      else Ok {| has_weak := has_weak w; has_strong := has_strong w;
                 pending_weak := pending_weak w; pending_strong := false |}
  | Weak =>
      if negb (pending_weak w) then Err NoPendingAck
      else Ok {| has_weak := has_weak w; has_strong := has_strong w;
                 pending_weak := false; pending_strong := pending_strong w |}
  end.

(** ** Specification: the protocol an owner sees

    The owner holds at most one weak and one strong reference for the driver, takes
    the strong one only under the weak one, gives neither back before it has
    acknowledged taking it, and gives the strong one back first. *)

(** [Registered] is the registration as context manager, by which the owner comes to
    hold both references without being told to take them. *)
Inductive Event : Type := Sent (n : Notification) | Acked (s : Strength) | Registered.

Definition observe (c : NodeWork) (e : Event) : option NodeWork :=
  match e with
  | Sent Increfs =>
      if has_weak c then None
      else Some {| has_weak := true; has_strong := has_strong c;
                   pending_weak := true; pending_strong := pending_strong c |}
  | Sent Acquire =>
      if negb (has_weak c) || has_strong c then None
      else Some {| has_weak := true; has_strong := true;
                   pending_weak := pending_weak c; pending_strong := true |}
  | Sent Release =>
      if negb (has_strong c) || pending_strong c then None
      else Some {| has_weak := has_weak c; has_strong := false;
                   pending_weak := pending_weak c; pending_strong := false |}
  | Sent Decrefs =>
      if negb (has_weak c) || has_strong c || pending_weak c then None
      else Some {| has_weak := false; has_strong := false;
                   pending_weak := false; pending_strong := pending_strong c |}
  | Acked s => match acknowledge c s with Ok c => Some c | Err _ => None end
  | Registered => Some (mark_context_manager_refs c)
  end.

Fixpoint observe_all (c : NodeWork) (es : list Event) : option NodeWork :=
  match es with
  | [] => Some c
  | e :: es => c ← observe c e; observe_all c es
  end.

(** Histories of the node's work state: batches are published and committed whole, and
    acknowledgements arrive in any order. *)
Inductive history : NodeWork -> list Event -> NodeWork -> Prop :=
| history_nil w : history w [] w
| history_publish w0 es w d :
    history w0 es w ->
    history w0 (es ++ (Sent <$> notifications (prepare w d))) (commit (prepare w d))
| history_ack w0 es w s w' :
    history w0 es w -> acknowledge w s = Ok w' -> history w0 (es ++ [Acked s]) w'
| history_manager w0 es w :
    history w0 es w -> history w0 (es ++ [Registered]) (mark_context_manager_refs w).

Definition work_ok (w : NodeWork) : Prop :=
  (pending_strong w -> has_strong w) /\ (pending_weak w -> has_weak w) /\
  (has_strong w -> has_weak w).

(** ** Lemmas *)

(** After a commit the owner holds exactly what is demanded. *)
Lemma commit_demand w d :
  has_strong (commit (prepare w d)) = strong_demand w d /\
  has_weak (commit (prepare w d)) = weak_demand w d.
Proof.
  unfold prepare, commit, weak_demand.
  destruct (strong_demand w d), (has_remote_references d), (local_weak_demand d),
    (temporary_demand d), (pending_weak w), (has_weak w) eqn:?, (has_strong w) eqn:?;
    simpl; auto.
Qed.

Lemma default_work_ok : work_ok default_work.
Proof. by split_and!. Qed.

Lemma prepare_ok w d : work_ok w -> work_ok (commit (prepare w d)).
Proof.
  intros (H1 & H2 & H3). unfold work_ok, prepare, commit, weak_demand, strong_demand in *.
  destruct w as [[] [] [] []], d as [[] [] [] [] []]; simpl in *; naive_solver.
Qed.

Lemma acknowledge_ok w s w' : work_ok w -> acknowledge w s = Ok w' -> work_ok w'.
Proof.
  intros (H1 & H2 & H3). unfold work_ok. destruct w as [[] [] [] []], s; simpl in *;
    intros; simplify_eq; naive_solver.
Qed.

Lemma mark_context_manager_refs_ok w : work_ok (mark_context_manager_refs w).
Proof. by split_and!. Qed.

#[export] Hint Resolve default_work_ok prepare_ok acknowledge_ok mark_context_manager_refs_ok : rust.

Lemma prepare_observed w d :
  work_ok w ->
  observe_all w (Sent <$> notifications (prepare w d)) = Some (commit (prepare w d)).
Proof.
  intros (H1 & H2 & H3). unfold prepare, notifications, commit, weak_demand, strong_demand in *.
  destruct w as [[] [] [] []], d as [[] [] [] [] []]; simpl in *; naive_solver.
Qed.

Lemma observe_all_app c es es' :
  observe_all c (es ++ es') = (c ← observe_all c es; observe_all c es').
Proof.
  induction es as [|e es IH] in c |- *; [done|]. simpl. destruct (observe c e); simpl; auto.
Qed.

Lemma prepare_quiescent w d : notifications (prepare (commit (prepare w d)) d) = [].
Proof.
  unfold prepare, notifications, commit, weak_demand, strong_demand.
  destruct w as [[] [] [] []], d as [[] [] [] [] []]; reflexivity.
Qed.

Lemma history_observed w0 es w :
  history w0 es w -> work_ok w0 -> observe_all w0 es = Some w /\ work_ok w.
Proof.
  induction 1 as [|w0 es w d _ IH|w0 es w s w' _ IH Ha|w0 es w _ IH]; intros H0; [done|..];
    destruct (IH H0) as [E Hw]; rewrite observe_all_app, E; simpl.
  - split; [by apply prepare_observed|eauto with rust].
  - rewrite Ha. eauto with rust.
  - eauto with rust.
Qed.

(** ** Properties *)

(** In every history of a node, the owner's view replays to the driver's state:
    it is told to take each reference only when it does not hold it, the strong one
    only under the weak one, and to give a reference back only after it acknowledged
    taking it, the strong one before the weak one.  A committed batch leaves the owner
    with exactly the demanded references and nothing more to send for that demand. *)
Theorem node_work_protocol es w (H : history default_work es w) :
  observe_all default_work es = Some w /\ work_ok w /\
  forall d, has_strong (commit (prepare w d)) = strong_demand w d /\
            has_weak (commit (prepare w d)) = weak_demand w d /\
            notifications (prepare (commit (prepare w d)) d) = [].
Proof.
  destruct (history_observed _ _ _ H default_work_ok). split_and!; [done..|].
  intros d. destruct (commit_demand w d). auto using prepare_quiescent.
Qed.

(** One remote strong reference comes, is acknowledged, and goes. *)
Lemma node_work_protocol_witness :
  observe_all default_work
    [Sent Increfs; Sent Acquire; Acked Strong; Acked Weak; Sent Release; Sent Decrefs] =
    Some default_work.
Proof.
  set (d := {| internal_strong := true; local_strong_demand := false;
               has_remote_references := true; local_weak_demand := false;
               temporary_demand := false |}).
  set (d0 := {| internal_strong := false; local_strong_demand := false;
                has_remote_references := false; local_weak_demand := false;
                temporary_demand := false |}).
  apply (node_work_protocol _ default_work).
  apply (history_publish _ [Sent Increfs; Sent Acquire; Acked Strong; Acked Weak]
           {| has_weak := true; has_strong := true; pending_weak := false;
              pending_strong := false |} d0).
  apply (history_ack _ [Sent Increfs; Sent Acquire; Acked Strong]
           {| has_weak := true; has_strong := true; pending_weak := true;
              pending_strong := false |} Weak); [|reflexivity].
  apply (history_ack _ [Sent Increfs; Sent Acquire] (commit (prepare default_work d)) Strong);
    [|reflexivity].
  apply (history_publish _ [] default_work d). constructor.
Defined.
