(* ===== verification/WorkSignal.v ===== *)
(** * The work signal ([work_signal.rs])

    A generation counter and a condition variable.  A condition-variable wait is
    modelled by the states its waiter finds each time it holds the mutex: first the
    state it starts from, then one state per (possibly spurious) wake-up. *)
From S2P Require Import Prelude.

(** ** Definitions *)

Record State : Type := { generation : Z; closed : bool }.

#[export] Instance State_eq_dec : EqDecision State.
Proof. solve_decision. Defined.
#[export] Instance State_inhabited : Inhabited State :=
  populate {| generation := 0; closed := false |}.

Definition default_signal : State := {| generation := 0; closed := false |}.

Inductive WaitOutcome : Type := Changed | Closed | TimedOut.

#[export] Instance WaitOutcome_eq_dec : EqDecision WaitOutcome.
Proof. solve_decision. Defined.

(** [Condvar::wait_while]: [None] while the waiter is still blocked. *)
Fixpoint wait_while {S} (condition : S -> bool) (wakes : list S) : option S :=
  match wakes with
  | [] => None
  | s :: wakes => if condition s then wait_while condition wakes else Some s
  end.

(** [Condvar::wait_timeout_while]: at each wake-up the condition is checked first, then
    whether the time has run out. *)
Fixpoint wait_timeout_while {S} (condition : S -> bool) (wakes : list (S * bool))
    : option (S * bool) :=
  match wakes with
  | [] => None
  | (s, expired) :: wakes =>
      if negb (condition s) then Some (s, false)
      else if expired then Some (s, true)
      else wait_timeout_while condition wakes
  end.

Definition snapshot (s : State) : Z := generation s.

Definition notify (s : State) : State :=
  {| generation := wrapping_add u64_max (generation s) 1; closed := closed s |}.

Definition close (s : State) : State := {| generation := generation s; closed := true |}.

Definition unchanged (observed : Z) (s : State) : bool :=
  negb (closed s) && (generation s =? observed).

Definition wait_after_indefinite (wakes : list State) (observed : Z) : option WaitOutcome :=
  s ← wait_while (unchanged observed) wakes;
  Some (if closed s then Closed else Changed).

(** [expired] says whether the time-out has passed when the first check is done. *)
Definition wait_after (s : State) (expired : bool) (wakes : list (State * bool)) (observed : Z)
    : option WaitOutcome :=
  if closed s then Some Closed
  else if negb (generation s =? observed) then Some Changed
  else
    '(s, timed_out) ← wait_timeout_while (unchanged observed) ((s, expired) :: wakes);
    Some (if closed s then Closed
          else if negb (generation s =? observed) then Changed
          else if timed_out : bool then TimedOut
          else Changed).

(** ** Specification: one waiter among producers

    A producer publishes a unit of work and notifies afterwards.  The waiter takes a
    snapshot, looks at the queue, and waits only if it was empty. *)

Inductive Waiter : Type := Idle | Observed (g : Z) | Waiting (g : Z).

Record System : Type :=
  { signal : State;
    queue : Z;            (** published units not yet taken *)
    unsignalled : Z;      (** units published by producers that did not notify yet *)
    notified : Z;         (** notifications since the snapshot *)
    waiter : Waiter }.

Inductive step : System -> System -> Prop :=
| step_publish s q u n w :
    step {| signal := s; queue := q; unsignalled := u; notified := n; waiter := w |}
         {| signal := s; queue := q + 1; unsignalled := u + 1; notified := n; waiter := w |}
| step_notify s q u n w :
    0 < u ->
    step {| signal := s; queue := q; unsignalled := u; notified := n; waiter := w |}
         {| signal := notify s; queue := q; unsignalled := u - 1; notified := n + 1;
            waiter := w |}
| step_take s q u n w :
    0 < q ->
    step {| signal := s; queue := q; unsignalled := u; notified := n; waiter := w |}
         {| signal := s; queue := q - 1; unsignalled := u; notified := n; waiter := w |}
| step_close s q u n w :
    step {| signal := s; queue := q; unsignalled := u; notified := n; waiter := w |}
         {| signal := close s; queue := q; unsignalled := u; notified := n; waiter := w |}
| step_snapshot s q u n :
    step {| signal := s; queue := q; unsignalled := u; notified := n; waiter := Idle |}
         {| signal := s; queue := q; unsignalled := u; notified := 0;
            waiter := Observed (snapshot s) |}
| step_found_work s q u n g :
    0 < q ->
    step {| signal := s; queue := q; unsignalled := u; notified := n; waiter := Observed g |}
         {| signal := s; queue := q; unsignalled := u; notified := n; waiter := Idle |}
| step_wait s u n g :
    step {| signal := s; queue := 0; unsignalled := u; notified := n; waiter := Observed g |}
         {| signal := s; queue := 0; unsignalled := u; notified := n; waiter := Waiting g |}
| step_wake s q u n g outcome :
    wait_after_indefinite [s] g = Some outcome ->
    step {| signal := s; queue := q; unsignalled := u; notified := n; waiter := Waiting g |}
         {| signal := s; queue := q; unsignalled := u; notified := n; waiter := Idle |}.

Definition initial (w : System) : Prop :=
  signal w = default_signal /\ queue w = 0 /\ unsignalled w = 0 /\ notified w = 0 /\
  waiter w = Idle.

Definition reachable (w : System) : Prop := exists w0, initial w0 /\ rtc step w0 w.

Definition system_ok (w : System) : Prop :=
  0 <= unsignalled w /\ 0 <= notified w /\ 0 <= generation (signal w) <= u64_max /\
  match waiter w with
  | Idle => True
  | Observed g => generation (signal w) = (g + notified w) mod (u64_max + 1)
  | Waiting g =>
      generation (signal w) = (g + notified w) mod (u64_max + 1) /\ 0 <= g <= u64_max /\
      queue w <= unsignalled w + notified w
  end /\
  match waiter w with Observed g => 0 <= g <= u64_max | _ => True end.

(** ** Lemmas *)

Lemma wrapping_succ_mod g n :
  wrapping_add u64_max ((g + n) mod (u64_max + 1)) 1 = (g + (n + 1)) mod (u64_max + 1).
Proof. unfold wrapping_add. rewrite Z.add_mod_idemp_l by done. f_equal. lia. Qed.

Lemma wrapping_add_range a b : 0 <= wrapping_add u64_max a b <= u64_max.
Proof.
  unfold wrapping_add. pose proof (Z.mod_pos_bound (a + b) (u64_max + 1)).
  unfold u64_max in *. lia.
Qed.

Lemma step_ok w w' : step w w' -> system_ok w -> system_ok w'.
Proof.
  destruct 1; unfold system_ok; simpl; intros (Hu & Hn & Hg & Hw & Hb);
    try (split_and!; try lia; try done; fail).
  - destruct w; simpl in *; destruct_and?; split_and!; try done; lia.
  - pose proof (wrapping_add_range (generation s) 1).
    destruct w; simpl in *; destruct_and?; split_and!; try done; try lia;
      by match goal with H : generation s = _ |- _ => rewrite H, wrapping_succ_mod end.
  - destruct w; simpl in *; destruct_and?; split_and!; try done; lia.
  - unfold snapshot. rewrite Z.add_0_r, Z.mod_small by lia. split_and!; try done; try lia.
Qed.

Lemma reachable_ok w : reachable w -> system_ok w.
Proof.
  intros (w0 & (H1 & H2 & H3 & H4 & H5) & Hr).
  assert (H0 : system_ok w0).
  { unfold system_ok. rewrite H1, H3, H4, H5. simpl. unfold u64_max. split_and!; lia || done. }
  clear H1 H2 H3 H4 H5. induction Hr; eauto using step_ok.
Qed.

Lemma wait_timeout_while_Some {S} (c : S -> bool) wakes s t :
  wait_timeout_while c wakes = Some (s, t) ->
  exists e, (s, e) ∈ wakes /\ (if t : bool then c s = true /\ e = true else c s = false).
Proof.
  induction wakes as [|[s' e'] wakes IH]; simpl; [done|].
  destruct (c s') eqn:E; simpl; [destruct e'|].
  - intros [= <- <-]. exists true. set_solver.
  - intros H. destruct (IH H) as (e & ? & ?). exists e. split; [by right|done].
  - intros [= <- <-]. exists e'. set_solver.
Qed.

(** A timed wait reports what happened: a time-out only when the signal is open and
    unchanged, a change only when the generation moved, closure only when closed. *)
Lemma wait_after_sound s expired wakes observed outcome :
  wait_after s expired wakes observed = Some outcome ->
  exists s' e', (s', e') ∈ (s, expired) :: wakes /\
    match outcome with
    | Closed => closed s' = true
    | Changed => closed s' = false /\ generation s' <> observed
    | TimedOut => closed s' = false /\ generation s' = observed /\ e' = true
    end.
Proof.
  unfold wait_after. destruct (closed s) eqn:Ec; [intros [= <-]; exists s, expired; set_solver|].
  destruct (Z.eqb_spec (generation s) observed) as [Eg|];
    simpl negb; cbn iota; [|intros [= <-]; exists s, expired; set_solver].
  destruct (wait_timeout_while _ _) as [[s' t]|] eqn:E; [|done]. simpl.
  apply wait_timeout_while_Some in E as (e & Hin & Ht). intros [= <-]. exists s', e.
  split; [done|]. unfold unchanged in Ht.
  destruct (closed s') eqn:Ec'; [done|]. destruct (Z.eqb_spec (generation s') observed);
    simpl; [|done]. destruct t; simpl in Ht; [by destruct Ht|done].
Qed.

(** ** Properties *)


