(* ===== verification/NodeOwner.v ===== *)
(** * Node owners, nodes and their demand ([node_owner.rs], [node_owner/], [routing_id.rs],
      [node_wire.rs], [node_ack.rs])

    [Arc<OwnerState>], [Arc<Node>] and [Arc<Signal>] are shared, interior-mutable
    objects: the model keeps them in a [Store] and passes references.  Reference
    equality is [Arc::ptr_eq].  Each operation holds the locks it needs throughout, so it
    is one transition of the store; lock poisoning is recovered everywhere here and has
    no effect. *)
From S2P Require Import Prelude Command Objects NodeWork WorkSignal.

(** ** The store *)

Abbreviation OwnerRef := positive (only parsing).
Abbreviation NodeRef := positive (only parsing).
Abbreviation SignalRef := positive (only parsing).
Abbreviation ConnectionId := Z (only parsing).
Abbreviation LocalNodeId := Z (only parsing).

(** [ConnectionId::next] and [LocalNodeId::next]: the identity and the new serial. *)
Definition id_next (previous : Z) : option (Z * Z) :=
  (fun v => (v, v)) <$> checked_add u64_max previous 1.

(** [NodeId]: the owning connection and the node's serial there. *)
Definition NodeId : Type := Z * Z.

Record OwnerState : Type :=
  { alive : bool;
    order : list Z;             (** [work.pending.order] *)
    membership : gset Z;        (** [work.pending.membership] *)
    osignal : option SignalRef;
    routing_owner : option ConnectionId }.

Record Lifecycle : Type :=
  { remote_tables : Z; strong_tables : Z; local_strong : Z; local_weak : Z; temporary : Z;
    work : NodeWork }.

Definition default_lifecycle : Lifecycle :=
  {| remote_tables := 0; strong_tables := 0; local_strong := 0; local_weak := 0;
     temporary := 0; work := default_work |}.

Record Node : Type :=
  { nowner : OwnerRef; local_id : LocalNodeId; pointer : Z; cookie : Z; initial_flags : Z;
    lifecycle : Lifecycle }.

#[export] Instance OwnerState_inhabited : Inhabited OwnerState :=
  populate {| alive := false; order := []; membership := ∅; osignal := None;
              routing_owner := None |}.
#[export] Instance Node_inhabited : Inhabited Node :=
  populate {| nowner := 1%positive; local_id := 0; pointer := 0; cookie := 0;
              initial_flags := 0; lifecycle := default_lifecycle |}.

Record Store : Type :=
  { owners : gmap OwnerRef OwnerState; nodes : gmap NodeRef Node;
    signals : gmap SignalRef State }.

Definition empty_store : Store := {| owners := ∅; nodes := ∅; signals := ∅ |}.

Definition set_owner (σ : Store) (r : OwnerRef) (o : OwnerState) : Store :=
  {| owners := <[r := o]> (owners σ); nodes := nodes σ; signals := signals σ |}.
Definition set_node (σ : Store) (r : NodeRef) (n : Node) : Store :=
  {| owners := owners σ; nodes := <[r := n]> (nodes σ); signals := signals σ |}.
Definition set_lifecycle (σ : Store) (r : NodeRef) (l : Lifecycle) : Store :=
  let n := nodes σ !!! r in
  set_node σ r {| nowner := nowner n; local_id := local_id n; pointer := pointer n;
                  cookie := cookie n; initial_flags := initial_flags n; lifecycle := l |}.
Definition set_pending (σ : Store) (r : OwnerRef) (q : list Z) (m : gset Z) : Store :=
  let o := owners σ !!! r in
  set_owner σ r {| alive := alive o; order := q; membership := m; osignal := osignal o;
                   routing_owner := routing_owner o |}.
Definition signal_notify (σ : Store) (r : SignalRef) : Store :=
  {| owners := owners σ; nodes := nodes σ; signals := alter notify r (signals σ) |}.

(** ** Work queue ([work_queue.rs]) *)

(** [OwnerState::schedule]. *)
Definition schedule (σ : Store) (r : OwnerRef) (p : Z) : Store :=
  let o := owners σ !!! r in
  if alive o && negb (bool_decide (p ∈ membership o)) then
    let σ := set_pending σ r (order o ++ [p]) ({[p]} ∪ membership o) in
    match osignal o with Some s => signal_notify σ s | None => σ end
  else σ.

(** ** Lifecycle ([lifecycle.rs]) *)

Inductive Error : Type :=
| NotLocalNode | CookieMismatch | OutOfMemory | NodeIdsExhausted | UnknownNode
| NoPendingAcknowledgement.

(** [checked_add(1).filter(|n| *n <= i32::MAX as u32)]. *)
Definition bounded_succ (v : Z) : option Z :=
  n ← checked_add u32_max v 1; if n <=? i32_max then Some n else None.

(** The local function [transition] of [update_remote]. *)
Definition transition (value : Z) (before after : bool) : result Z unit :=
  match before, after with
  | false, true => ok_or (bounded_succ value) tt
  | true, false => ok_or (checked_sub value 1) tt
  | _, _ => Ok value
  end.

Definition nonzero (c : Counts) : bool := negb (bool_decide (c = default_counts)).

(** [Node::update_remote]. *)
Definition update_remote (σ : Store) (r : NodeRef) (before after : Counts)
    : Store * result unit unit :=
  let n := nodes σ !!! r in
  let state := lifecycle n in
  match transition (remote_tables state) (nonzero before) (nonzero after) with
  | Err e => (σ, Err e)
  | Ok remote =>
      match transition (strong_tables state) (negb (strong before =? 0))
              (negb (strong after =? 0)) with
      | Err e => (σ, Err e)
      | Ok strong =>
          let σ := set_lifecycle σ r
            {| remote_tables := remote; strong_tables := strong;
               local_strong := local_strong state; local_weak := local_weak state;
               temporary := temporary state; work := work state |} in
          (schedule σ (nowner n) (pointer n), Ok tt)
      end
  end.

Inductive HoldKind : Type := HStrong | HWeak | HTemporary.

Record LocalHold : Type := { hnode : NodeRef; hkind : HoldKind }.

Definition local_count (l : Lifecycle) (k : HoldKind) : Z :=
  match k with
  | HStrong => local_strong l
  | HWeak => local_weak l
  | HTemporary => temporary l
  end.

(** Assignment through [local_count]'s mutable reference. *)
Definition set_local_count (l : Lifecycle) (k : HoldKind) (v : Z) : Lifecycle :=
  {| remote_tables := remote_tables l; strong_tables := strong_tables l;
     local_strong := match k with HStrong => v | _ => local_strong l end;
     local_weak := match k with HWeak => v | _ => local_weak l end;
     temporary := match k with HTemporary => v | _ => temporary l end;
     work := work l |}.

(** [Node::hold]. *)
Definition hold (σ : Store) (r : NodeRef) (k : HoldKind) : Store * result LocalHold Errno :=
  let n := nodes σ !!! r in
  match bounded_succ (local_count (lifecycle n) k) with
  | None => (σ, Err EOVERFLOW)
  | Some v =>
      let σ := set_lifecycle σ r (set_local_count (lifecycle n) k v) in
      (schedule σ (nowner n) (pointer n), Ok {| hnode := r; hkind := k |})
  end.

(** [Drop for LocalHold]; [None] is the panic of its [expect]. *)
Definition drop_hold (σ : Store) (h : LocalHold) : option Store :=
  let n := nodes σ !!! hnode h in
  v ← checked_sub (local_count (lifecycle n) (hkind h)) 1;
  let σ := set_lifecycle σ (hnode h) (set_local_count (lifecycle n) (hkind h) v) in
  Some (schedule σ (nowner n) (pointer n)).

(** ** Owner tables ([node_owner.rs]) *)

Record NodeOwner : Type :=
  { state : OwnerRef; onodes : gmap Z NodeRef; nodes_by_local : gmap LocalNodeId NodeRef;
    next_node : Z }.

(** [NodeOwner::new]. *)
Definition new (σ : Store) : Store * NodeOwner :=
  let r := fresh (dom (owners σ)) in
  (set_owner σ r {| alive := true; order := []; membership := ∅; osignal := None;
                    routing_owner := None |},
   {| state := r; onodes := ∅; nodes_by_local := ∅; next_node := 0 |}).

(** [NodeOwner::resolve]; reservations at [[0]] and [[1]]. *)
Definition resolve (rsv : Reserve) (σ : Store) (own : NodeOwner) (object : Object)
    : Store * NodeOwner * result NodeRef Error :=
  match fields object with
  | FNode _ flags p c =>
      match onodes own !! p with
      | Some r =>
          if negb (cookie (nodes σ !!! r) =? c) then (σ, own, Err CookieMismatch)
          else (σ, own, Ok r)
      | None =>
          if negb (rsv [0%nat]) then (σ, own, Err OutOfMemory)
          else if negb (rsv [1%nat]) then (σ, own, Err OutOfMemory)
          else
            match id_next (next_node own) with
            | None => (σ, own, Err NodeIdsExhausted)
            | Some (local_id, serial) =>
                let r := fresh (dom (nodes σ)) in
                (set_node σ r {| nowner := state own; local_id := local_id; pointer := p;
                                 cookie := c; initial_flags := flags;
                                 lifecycle := default_lifecycle |},
                 {| state := state own; onodes := <[p := r]> (onodes own);
                    nodes_by_local := <[local_id := r]> (nodes_by_local own);
                    next_node := serial |},
                 Ok r)
            end
      end
  | _ => (σ, own, Err NotLocalNode)
  end.

(** [NodeOwner::lookup_local]. *)
Definition lookup_local (own : NodeOwner) (token : Z) : result NodeRef Error :=
  if token =? 0 then Err UnknownNode
  else ok_or (nodes_by_local own !! token) UnknownNode.

Definition owns (σ : Store) (own : NodeOwner) (r : NodeRef) : bool :=
  bool_decide (state own = nowner (nodes σ !!! r)).

(** [Node::owner_alive]. *)
Definition owner_alive (σ : Store) (r : NodeRef) : bool :=
  alive (owners σ !!! nowner (nodes σ !!! r)).

(** [Node::routing_id]. *)
Definition routing_id (σ : Store) (r : NodeRef) : option NodeId :=
  (fun c => (c, local_id (nodes σ !!! r))) <$> routing_owner (owners σ !!! nowner (nodes σ !!! r)).

Definition attach_work_signal (σ : Store) (own : NodeOwner) (s : SignalRef) : Store :=
  let o := owners σ !!! state own in
  set_owner σ (state own) {| alive := alive o; order := order o; membership := membership o;
                             osignal := Some s; routing_owner := routing_owner o |}.

(** [OnceLock::set] succeeds once. *)
Definition bind_routing_id (σ : Store) (own : NodeOwner) (id : ConnectionId)
    : Store * result unit unit :=
  let o := owners σ !!! state own in
  match routing_owner o with
  | Some _ => (σ, Err tt)
  | None =>
      (set_owner σ (state own) {| alive := alive o; order := order o;
                                  membership := membership o; osignal := osignal o;
                                  routing_owner := Some id |}, Ok tt)
  end.

(** [Drop for NodeOwner]. *)
Definition drop_owner (σ : Store) (own : NodeOwner) : Store :=
  let o := owners σ !!! state own in
  set_owner σ (state own) {| alive := false; order := order o; membership := membership o;
                             osignal := osignal o; routing_owner := routing_owner o |}.

(** [NodeOwner::acknowledge]. *)
Definition acknowledge (σ : Store) (own : NodeOwner) (p c : Z) (s : Strength)
    : Store * result unit Error :=
  match onodes own !! p with
  | None => (σ, Err UnknownNode)
  | Some r =>
      let n := nodes σ !!! r in
      if negb (cookie n =? c) then (σ, Err CookieMismatch)
      else
        let l := lifecycle n in
        match NodeWork.acknowledge (work l) s with
        | Err _ => (σ, Err NoPendingAcknowledgement)
        | Ok w =>
            let σ := set_lifecycle σ r
              {| remote_tables := remote_tables l; strong_tables := strong_tables l;
                 local_strong := local_strong l; local_weak := local_weak l;
                 temporary := temporary l; work := w |} in
            (schedule σ (nowner n) (pointer n), Ok tt)
        end
  end.

(** The [Demand] a node's counters express. *)
Definition demand (l : Lifecycle) : Demand :=
  {| internal_strong := negb (strong_tables l =? 0);
     has_remote_references := negb (remote_tables l =? 0);
     local_strong_demand := negb (local_strong l =? 0);
     local_weak_demand := negb (local_weak l =? 0);
     temporary_demand := negb (temporary l =? 0) |}.

(** [NodeOwner::publish_notifications]: [publish] is the callback, a function of the state
    [s] it captures. *)
Definition publish_notifications {S} (σ : Store) (own : NodeOwner) (p : Z)
    (publish : S -> Z -> list Notification -> S * result unit Errno) (s : S)
    : Store * S * result Z Errno :=
  match onodes own !! p with
  | None => (σ, s, Err ENOENT)
  | Some r =>
      let n := nodes σ !!! r in
      let l := lifecycle n in
      let batch := prepare (work l) (demand l) in
      let commands := notifications batch in
      let '(s, published) :=
        if negb (bool_decide (commands = [])) then publish s (cookie n) commands
        else (s, Ok tt) in
      match published with
      | Err e => (σ, s, Err e)
      | Ok _ =>
          (set_lifecycle σ r
             {| remote_tables := remote_tables l; strong_tables := strong_tables l;
                local_strong := local_strong l; local_weak := local_weak l;
                temporary := temporary l; work := commit batch |}, s, Ok (len commands))
      end
  end.

(** ** Node-work records ([node_wire.rs]) *)

Definition br_number (c : Notification) : Z :=
  match c with Increfs => 7 | Acquire => 8 | Release => 9 | Decrefs => 10 end.

(** [(2 << 30) | (16 << 16) | ('r' << 8) | number]. *)
Definition br_word (c : Notification) : Z :=
  Z.lor (Z.lor (Z.lor (Z.shiftl 2 30) (Z.shiftl 16 16)) (Z.shiftl 114 8)) (br_number c).

(** The loop of [encode], over the records from byte [off] on. *)
Fixpoint encode_records (p c : Z) (commands : list Notification) (off : nat) (output : bytes)
    : bytes :=
  match commands with
  | [] => output
  | command :: commands =>
      let output := copy_at off (u32_le (br_word command)) output in
      let output := copy_at (off + 4) (u64_le p) output in
      let output := copy_at (off + 12) (u64_le c) output in
      encode_records p c commands (off + 20) output
  end.

Definition encode (p c : Z) (commands : list Notification) (output : bytes)
    : bytes * result Z Errno :=
  match checked_mul usize_max (len commands) 20 with
  | None => (output, Err EOVERFLOW)
  | Some size =>
      if len output <? size then (output, Err ENOSPC)
      else (encode_records p c commands 0 output, Ok size)
  end.

(** [NodeOwner::read_node_notifications]: the callback encodes into [output] and records
    the count. *)
Definition read_node_notifications (σ : Store) (own : NodeOwner) (p : Z) (output : bytes)
    : Store * bytes * result Z Errno :=
  let publish := fun '(output, written) c commands =>
    match encode p c commands output with
    | (output, Ok n) => (output, n, Ok tt)
    | (output, Err e) => (output, written, Err e)
    end in
  match publish_notifications σ own p publish (output, 0) with
  | (σ, (output, _), Err e) => (σ, output, Err e)
  | (σ, (output, written), Ok _) => (σ, output, Ok written)
  end.

(** The loop of [read_pending_node_work]. *)
Fixpoint read_pending_loop (budget : nat) (σ : Store) (own : NodeOwner) (output : bytes)
    : Store * bytes * result Z Errno :=
  match budget with
  | O => (σ, output, Ok 0)
  | S budget =>
      let o := owners σ !!! state own in
      match order o with
      | [] => (σ, output, Ok 0)
      | p :: rest =>
          let σ := set_pending σ (state own) rest (membership o ∖ {[p]}) in
          match read_node_notifications σ own p output with
          | (σ, output, Ok written) =>
              if written =? 0 then read_pending_loop budget σ own output
              else (σ, output, Ok written)
          | (σ, output, Err e) =>
              let o := owners σ !!! state own in
              let σ :=
                if negb (bool_decide (p ∈ membership o)) then
                  set_pending σ (state own) (p :: order o) ({[p]} ∪ membership o)
                else σ in
              (σ, output, Err e)
          end
      end
  end.

Definition read_pending_node_work (σ : Store) (own : NodeOwner) (output : bytes)
    : Store * bytes * result Z Errno :=
  read_pending_loop (length (order (owners σ !!! state own))) σ own output.

(** [NodeOwner::wait_for_node_work], given the queues the waiter finds at its wake-ups. *)
Definition wait_for_node_work (wakes : list (list Z * bool)) : option bool :=
  '(pending, _) ← wait_timeout_while (fun q => bool_decide (q = [])) wakes;
  Some (negb (bool_decide (pending = []))).

(** ** Context-manager references ([lifecycle/context_manager.rs]) *)

Record ContextManagerRefs : Type := { cstrong : LocalHold; cweak : LocalHold }.

Definition acquire_context_manager_refs (σ : Store) (own : NodeOwner) (r : NodeRef)
    : Store * result ContextManagerRefs Errno :=
  if negb (owns σ own r) then (σ, Err EINVAL)
  else
    let l := lifecycle (nodes σ !!! r) in
    match bounded_succ (local_strong l), bounded_succ (local_weak l) with
    | Some strong, Some weak =>
        (set_lifecycle σ r
           {| remote_tables := remote_tables l; strong_tables := strong_tables l;
              local_strong := strong; local_weak := weak; temporary := temporary l;
              work := mark_context_manager_refs (work l) |},
         Ok {| cstrong := {| hnode := r; hkind := HStrong |};
               cweak := {| hnode := r; hkind := HWeak |} |})
    | _, _ => (σ, Err EOVERFLOW)
    end.

(** Dropping the record drops its two holds in field order. *)
Definition drop_context_manager_refs (σ : Store) (c : ContextManagerRefs) : option Store :=
  σ ← drop_hold σ (cstrong c); drop_hold σ (cweak c).

(** ** Acknowledgement commands ([node_ack.rs]) *)

Inductive AckError : Type :=
| AckFraming (e : Command.DecodeError) | NotAcknowledgement (k : Command.Kind).

Record AckOutcome : Type := { abytes : Z; acknowledgement : result unit Error }.

Definition ack_dispatch (σ : Store) (own : NodeOwner) (input : bytes)
    : Store * result AckOutcome AckError :=
  match Command.decode input with
  | Err e => (σ, Err (AckFraming e))
  | Ok (command, n) =>
      let ack s :=
        let p := u64_at (Command.payload command) 0 in
        let c := u64_at (Command.payload command) 8 in
        let '(σ, acknowledgement) := acknowledge σ own p c s in
        (σ, Ok {| abytes := n; acknowledgement := acknowledgement |}) in
      match Command.kind command with
      | Command.IncrefsDone => ack Weak
      | Command.AcquireDone => ack Strong
      | kind => (σ, Err (NotAcknowledgement kind))
      end
  end.

(** ** Invariants *)

Definition owner_ok (o : OwnerState) : Prop :=
  NoDup (order o) /\ membership o = list_to_set (order o).

Definition count_ok (v : Z) : Prop := 0 <= v <= i32_max.

Definition lifecycle_ok (l : Lifecycle) : Prop :=
  count_ok (remote_tables l) /\ count_ok (strong_tables l) /\ count_ok (local_strong l) /\
  count_ok (local_weak l) /\ count_ok (temporary l) /\ work_ok (work l).

(** What the owner has yet to be told about a node. *)
Definition unsent (l : Lifecycle) : list Notification :=
  notifications (prepare (work l) (demand l)).

(** A node with something to tell a live owner is in the owner's work queue, except for
    the queue entry [x] that is being served. *)
Definition node_ok (σ : Store) (x : option (OwnerRef * Z)) (n : Node) : Prop :=
  lifecycle_ok (lifecycle n) /\
  exists o, owners σ !! nowner n = Some o /\
    (alive o -> unsent (lifecycle n) <> [] ->
     pointer n ∈ order o \/ x = Some (nowner n, pointer n)).

Record store_ok_except (x : option (OwnerRef * Z)) (σ : Store) : Prop := {
  store_owners : map_Forall (fun _ => owner_ok) (owners σ);
  store_nodes : map_Forall (fun _ => node_ok σ x) (nodes σ);
  store_unique r r' n n' :
    nodes σ !! r = Some n -> nodes σ !! r' = Some n' ->
    nowner n = nowner n' -> pointer n = pointer n' -> r = r';
  store_queue r o p :
    owners σ !! r = Some o -> p ∈ order o ->
    exists r' n, nodes σ !! r' = Some n /\ nowner n = r /\ pointer n = p }.

Definition store_ok : Store -> Prop := store_ok_except None.

(** The owner's two tables index exactly the nodes it owns. *)
Record table_ok (σ : Store) (own : NodeOwner) : Prop := {
  table_owner : is_Some (owners σ !! state own);
  table_nodes p r :
    onodes own !! p = Some r <->
    exists n, nodes σ !! r = Some n /\ nowner n = state own /\ pointer n = p;
  table_local i r :
    nodes_by_local own !! i = Some r <->
    exists n, nodes σ !! r = Some n /\ nowner n = state own /\ local_id n = i;
  table_ids i r : nodes_by_local own !! i = Some r -> 0 < i <= next_node own;
  table_next : 0 <= next_node own <= u64_max }.

(** ** Lemmas *)

Definition scheduled (p : Z) (o : OwnerState) : OwnerState :=
  if alive o && negb (bool_decide (p ∈ membership o)) then
    {| alive := alive o; order := order o ++ [p]; membership := {[p]} ∪ membership o;
       osignal := osignal o; routing_owner := routing_owner o |}
  else o.

Lemma nodes_schedule σ r p : nodes (schedule σ r p) = nodes σ.
Proof. unfold schedule. by repeat case_match. Qed.

Lemma owners_schedule σ r p o :
  owners σ !! r = Some o -> owners (schedule σ r p) = <[r := scheduled p o]> (owners σ).
Proof.
  intros Ho. unfold schedule, scheduled, set_pending. rewrite (lookup_total_correct _ _ _ Ho).
  case_match; [|by rewrite insert_id]. by case_match.
Qed.

Lemma scheduled_ok p o : owner_ok o -> owner_ok (scheduled p o).
Proof.
  intros [Hd Hm]. unfold scheduled. destruct (alive o); [|done]. simpl.
  case_bool_decide as Hin; simpl; [done|]. split; simpl.
  - apply NoDup_app. rewrite Hm, elem_of_list_to_set in Hin.
    split_and!; [done| |apply NoDup_singleton]. set_solver.
  - rewrite list_to_set_app_L, Hm. set_solver.
Qed.

Lemma elem_of_scheduled p o : owner_ok o -> alive o -> p ∈ order (scheduled p o).
Proof.
  intros [_ Hm] Ha. unfold scheduled. destruct (alive o); [|done]. simpl.
  case_bool_decide as Hin; simpl; [|set_solver]. by rewrite Hm, elem_of_list_to_set in Hin.
Qed.

Lemma scheduled_mono p q o : q ∈ order o -> q ∈ order (scheduled p o).
Proof. unfold scheduled. case_match; simpl; set_solver. Qed.

Lemma scheduled_inv p q o : q ∈ order (scheduled p o) -> q = p \/ q ∈ order o.
Proof. unfold scheduled. case_match; simpl; set_solver. Qed.

Lemma alive_scheduled p o : alive (scheduled p o) = alive o.
Proof. unfold scheduled. by case_match. Qed.

Lemma bounded_succ_Some v w : bounded_succ v = Some w <-> w = v + 1 /\ v < i32_max.
Proof.
  unfold bounded_succ. destruct (checked_add u32_max v 1) as [n|] eqn:E; simpl.
  - apply checked_add_Some in E as [-> ?]. destruct (Z.leb_spec (v + 1) i32_max); iff_lia.
  - apply checked_add_None in E. unfold u32_max, i32_max in *. iff_lia.
Qed.

Lemma transition_Ok v before after w :
  count_ok v -> transition v before after = Ok w ->
  count_ok w /\ w = v + Z.b2z after - Z.b2z before.
Proof.
  unfold count_ok. intros Hv. destruct before, after; simpl; try (intros [= <-]; lia).
  - destruct (checked_sub v 1) eqn:E; intros [= <-]. apply checked_sub_Some in E. lia.
  - destruct (bounded_succ v) eqn:E; intros [= <-]. apply bounded_succ_Some in E. lia.
Qed.

Lemma node_pointer_set σ r l r' p n :
  nodes σ !! r = Some n ->
  (exists r0 n0, nodes σ !! r0 = Some n0 /\ nowner n0 = r' /\ pointer n0 = p) ->
  exists r0 n0, nodes (set_lifecycle σ r l) !! r0 = Some n0 /\ nowner n0 = r' /\ pointer n0 = p.
Proof.
  intros Hr (r0 & n0 & H0 & <- & <-). simpl. rewrite (lookup_total_correct _ _ _ Hr).
  destruct (decide (r = r0)) as [->|].
  - rewrite Hr in H0. injection H0 as <-. eexists r0, _. by rewrite lookup_insert_eq.
  - exists r0, n0. by rewrite lookup_insert_ne.
Qed.

(** Changing a node's state and queueing it keeps the store well formed. *)
Lemma store_ok_schedule σ r n l :
  store_ok σ -> nodes σ !! r = Some n -> lifecycle_ok l ->
  store_ok (schedule (set_lifecycle σ r l) (nowner n) (pointer n)).
Proof.
  intros [Ho Hn Hu Hq] Hr Hl. destruct (Hn r n Hr) as (_ & o & Hown & _).
  assert (Hs : owners (schedule (set_lifecycle σ r l) (nowner n) (pointer n)) =
               <[nowner n := scheduled (pointer n) o]> (owners σ)).
  { exact (owners_schedule (set_lifecycle σ r l) _ _ _ Hown). }
  assert (Hns : nodes (schedule (set_lifecycle σ r l) (nowner n) (pointer n)) =
                nodes (set_lifecycle σ r l)) by apply nodes_schedule.
  split.
  - rewrite Hs. apply map_Forall_insert_2; [apply scheduled_ok, (Ho _ _ Hown)|done].
  - rewrite Hns. simpl. rewrite (lookup_total_correct _ _ _ Hr).
    apply map_Forall_insert_2.
    + split; [done|]. exists (scheduled (pointer n) o). simpl. rewrite Hs, lookup_insert_eq.
      split; [done|]. rewrite alive_scheduled. intros Ha _. left.
      apply elem_of_scheduled; [apply (Ho _ _ Hown)|done].
    + intros r' n' Hr'. destruct (Hn r' n' Hr') as (? & o' & Hown' & Hs'). split; [done|].
      rewrite Hs. destruct (decide (nowner n' = nowner n)) as [E|].
      * exists (scheduled (pointer n) o). rewrite E, lookup_insert_eq. split; [done|].
        rewrite E, Hown in Hown'. injection Hown' as <-. rewrite alive_scheduled.
        intros Ha Hne. destruct (Hs' Ha Hne); [left; by apply scheduled_mono|done].
      * exists o'. rewrite lookup_insert_ne by done. done.
  - rewrite Hns. simpl. rewrite (lookup_total_correct _ _ _ Hr).
    intros r1 r2 n1 n2 H1 H2. rewrite lookup_insert_Some in H1, H2.
    destruct H1 as [[<- <-]|[? H1]], H2 as [[<- <-]|[? H2]]; simpl; eauto.
  - rewrite Hs, Hns. intros r' o' p Ho' Hp. apply (node_pointer_set σ r l r' p n Hr).
    apply lookup_insert_Some in Ho' as [[<- <-]|[_ Ho']]; [|by eapply Hq].
    apply scheduled_inv in Hp as [->|Hp]; [by exists r, n|by eapply Hq].
Qed.

(** What never changes about a node. *)
Definition ident (n : Node) : OwnerRef * LocalNodeId * Z * Z :=
  (nowner n, local_id n, pointer n, cookie n).

(** The store has the same owners and nodes; only their states may differ. *)
Definition frame (σ σ' : Store) : Prop :=
  ident <$> nodes σ' = ident <$> nodes σ /\ dom (owners σ') = dom (owners σ).

#[export] Instance frame_preorder : PreOrder frame.
Proof.
  split; [by intros|]. intros σ1 σ2 σ3 [H1 H2] [H3 H4]. split; congruence.
Qed.

Lemma frame_node σ σ' r n :
  frame σ σ' -> nodes σ !! r = Some n ->
  exists n', nodes σ' !! r = Some n' /\ ident n' = ident n.
Proof.
  intros [E _] Hr. apply (f_equal (lookup r)) in E. rewrite !lookup_fmap, Hr in E. simpl in E.
  destruct (nodes σ' !! r) as [n'|]; simpl in E; [apply Some_inj in E; eauto|done].
Qed.

Lemma frame_sym σ σ' : frame σ σ' -> frame σ' σ.
Proof. intros [??]. by split. Qed.

Lemma frame_node_iff σ σ' r (P : OwnerRef * LocalNodeId * Z * Z -> Prop) :
  frame σ σ' ->
  (exists n, nodes σ !! r = Some n /\ P (ident n)) <->
  (exists n, nodes σ' !! r = Some n /\ P (ident n)).
Proof.
  intros F. split; intros (n & Hr & HP).
  - destruct (frame_node _ _ _ _ F Hr) as (n' & ? & E). exists n'. by rewrite E.
  - destruct (frame_node _ _ _ _ (frame_sym _ _ F) Hr) as (n' & ? & E). exists n'. by rewrite E.
Qed.

Lemma table_ok_frame σ σ' own : frame σ σ' -> table_ok σ own -> table_ok σ' own.
Proof.
  intros F [Ho Hn Hl Hi Hx]. split; [|intros p r|intros i r|done..].
  - apply elem_of_dom. destruct F as [_ ->]. by apply elem_of_dom.
  - rewrite Hn. apply (frame_node_iff σ σ' r (fun i => i.1.1.1 = state own /\ i.1.2 = p) F).
  - rewrite Hl. apply (frame_node_iff σ σ' r (fun i => i.1.1.1 = state own /\ i.1.1.2 = _) F).
Qed.

Lemma frame_set_lifecycle σ r n l : nodes σ !! r = Some n -> frame σ (set_lifecycle σ r l).
Proof.
  intros Hr. split; [|done]. simpl. rewrite fmap_insert, (lookup_total_correct _ _ _ Hr).
  simpl. apply insert_id. by rewrite lookup_fmap, Hr.
Qed.

Lemma frame_schedule σ r p o : owners σ !! r = Some o -> frame σ (schedule σ r p).
Proof.
  intros Ho. split; [by rewrite nodes_schedule|].
  rewrite (owners_schedule _ _ _ _ Ho), dom_insert_lookup_L; eauto.
Qed.

(** A whole operation on one node: update its state, then queue it. *)
Lemma update_node_ok σ r n l :
  store_ok σ -> nodes σ !! r = Some n -> lifecycle_ok l ->
  let σ' := schedule (set_lifecycle σ r l) (nowner n) (pointer n) in
  frame σ σ' /\ store_ok σ'.
Proof.
  intros Hσ Hr Hl σ'. split; [|by apply store_ok_schedule].
  destruct (store_nodes _ _ Hσ r n Hr) as (_ & o & Ho & _).
  etransitivity; [by eapply frame_set_lifecycle|]. by apply (frame_schedule _ _ _ o).
Qed.

(** The update itself, as later operations see it. *)
Lemma lookup_update_node σ r n l r' :
  nodes σ !! r = Some n ->
  lifecycle <$> nodes (schedule (set_lifecycle σ r l) (nowner n) (pointer n)) !! r' =
    if decide (r = r') then Some l else lifecycle <$> nodes σ !! r'.
Proof.
  intros Hr. rewrite nodes_schedule. simpl. case_decide as E.
  - subst. by rewrite lookup_insert_eq.
  - by rewrite lookup_insert_ne.
Qed.

Lemma lifecycle_of σ x r n : store_ok_except x σ -> nodes σ !! r = Some n -> lifecycle_ok (lifecycle n).
Proof. intros Hσ Hr. apply (store_nodes _ _ Hσ r n Hr). Qed.

Lemma update_remote_ok σ r n before after σ' res :
  store_ok σ -> nodes σ !! r = Some n -> update_remote σ r before after = (σ', res) ->
  frame σ σ' /\ store_ok σ'.
Proof.
  intros Hσ Hr. unfold update_remote. rewrite (lookup_total_correct _ _ _ Hr).
  pose proof (lifecycle_of _ _ _ _ Hσ Hr) as (H1 & H2 & ? & ? & ? & ?).
  destruct (transition (remote_tables _) _ _) eqn:E1; [|by intros [= <- <-]].
  destruct (transition (strong_tables _) _ _) eqn:E2; [|by intros [= <- <-]].
  apply transition_Ok in E1 as [? _]; [|done]. apply transition_Ok in E2 as [? _]; [|done].
  intros [= <- <-]. by apply update_node_ok.
Qed.

Lemma set_local_count_ok l k v :
  lifecycle_ok l -> count_ok v -> lifecycle_ok (set_local_count l k v).
Proof. intros (?&?&?&?&?&?) ?. by destruct k; split_and!. Qed.

Lemma local_count_ok l k : lifecycle_ok l -> count_ok (local_count l k).
Proof. intros (?&?&?&?&?&?). by destruct k. Qed.

Lemma hold_ok σ r n k σ' res :
  store_ok σ -> nodes σ !! r = Some n -> hold σ r k = (σ', res) -> frame σ σ' /\ store_ok σ'.
Proof.
  intros Hσ Hr. unfold hold. rewrite (lookup_total_correct _ _ _ Hr).
  pose proof (lifecycle_of _ _ _ _ Hσ Hr) as Hl.
  destruct (bounded_succ _) eqn:E; intros [= <- <-]; [|done]. apply bounded_succ_Some in E.
  apply update_node_ok; [done..|]. apply set_local_count_ok; [done|].
  pose proof (local_count_ok _ k Hl). unfold count_ok in *. lia.
Qed.

Lemma drop_hold_ok σ h n σ' :
  store_ok σ -> nodes σ !! hnode h = Some n -> drop_hold σ h = Some σ' ->
  frame σ σ' /\ store_ok σ'.
Proof.
  intros Hσ Hr. unfold drop_hold. rewrite (lookup_total_correct _ _ _ Hr).
  pose proof (lifecycle_of _ _ _ _ Hσ Hr) as Hl.
  destruct (checked_sub _ _) eqn:E; [|done]. simpl. intros [= <-].
  apply checked_sub_Some in E. apply update_node_ok; [done..|].
  apply set_local_count_ok; [done|].
  pose proof (local_count_ok _ (hkind h) Hl). unfold count_ok in *. lia.
Qed.

Lemma acknowledge_node_ok σ own p c s σ' res :
  store_ok σ -> table_ok σ own -> acknowledge σ own p c s = (σ', res) ->
  frame σ σ' /\ store_ok σ'.
Proof.
  intros Hσ Ht. unfold acknowledge. destruct (onodes own !! p) as [r|] eqn:Ep; [|by intros [= <- <-]].
  apply Ht in Ep as (n & Hr & _ & _). rewrite (lookup_total_correct _ _ _ Hr).
  pose proof (lifecycle_of _ _ _ _ Hσ Hr) as (?&?&?&?&?&?).
  case_match; [by intros [= <- <-]|].
  destruct (NodeWork.acknowledge _ _) eqn:E; intros [= <- <-]; [|done].
  apply update_node_ok; [done..|]. split_and!; try done. eauto using acknowledge_ok.
Qed.

Lemma set_lifecycle_id σ r n : nodes σ !! r = Some n -> set_lifecycle σ r (lifecycle n) = σ.
Proof.
  intros Hr. unfold set_lifecycle, set_node. rewrite (lookup_total_correct _ _ _ Hr).
  destruct σ as [os ns ss], n; simpl in *. f_equal. by apply insert_id.
Qed.

(** A state with nothing left to send needs no queue entry. *)
Lemma store_ok_quiescent x σ r n l :
  store_ok_except x σ -> nodes σ !! r = Some n ->
  (x = None \/ x = Some (nowner n, pointer n)) -> lifecycle_ok l -> unsent l = [] ->
  store_ok (set_lifecycle σ r l).
Proof.
  intros [Ho Hn Hu Hqu] Hr Hx Hl Hq. split.
  - done.
  - simpl. rewrite (lookup_total_correct _ _ _ Hr). intros r' n' Hr'.
    apply lookup_insert_Some in Hr' as [[<- <-]|[Hne Hr']].
    + destruct (Hn r n Hr) as (_ & o & ? & _). split; [done|]. exists o. done.
    + destruct (Hn r' n' Hr') as (? & o & Hown & Hs). split; [done|]. exists o. split; [done|].
      intros Ha Hne'. destruct (Hs Ha Hne') as [?|Hx']; [by left|]. exfalso.
      destruct Hx as [-> | ->]; [done|]. injection Hx' as ??. by eapply Hne, (Hu r r').
  - simpl. rewrite (lookup_total_correct _ _ _ Hr). intros r1 r2 n1 n2 H1 H2.
    rewrite lookup_insert_Some in H1, H2.
    destruct H1 as [[<- <-]|[? H1]], H2 as [[<- <-]|[? H2]]; simpl; eauto.
  - intros r' o p Hr' Hp. apply (node_pointer_set σ r l r' p n Hr). by eapply Hqu.
Qed.

(** The state a published batch is committed to. *)
Definition sent (l : Lifecycle) : Lifecycle :=
  {| remote_tables := remote_tables l; strong_tables := strong_tables l;
     local_strong := local_strong l; local_weak := local_weak l; temporary := temporary l;
     work := commit (prepare (work l) (demand l)) |}.

Lemma sent_ok l : lifecycle_ok l -> lifecycle_ok (sent l).
Proof. intros (?&?&?&?&?&?). split_and!; try done. by apply prepare_ok. Qed.

Lemma unsent_sent l : unsent (sent l) = [].
Proof. apply prepare_quiescent. Qed.

Lemma commit_nothing w d : notifications (prepare w d) = [] -> commit (prepare w d) = w.
Proof.
  unfold prepare, notifications, commit, weak_demand, strong_demand.
  destruct w as [[] [] [] []], d as [[] [] [] [] []]; simpl; done.
Qed.

Lemma sent_nothing l : unsent l = [] -> sent l = l.
Proof. intros H. unfold sent. rewrite commit_nothing by done. by destruct l. Qed.

(** *** Records *)

Definition node_record (p c : Z) (n : Notification) : bytes :=
  u32_le (br_word n) ++ u64_le p ++ u64_le c.

Definition node_records (p c : Z) (ns : list Notification) : bytes := ns ≫= node_record p c.

Lemma length_node_record p c n : length (node_record p c n) = 20%nat.
Proof. unfold node_record. by autorewrite with wire. Qed.

Lemma encode_records_app p c ns written rest :
  (20 * length ns <= length rest)%nat ->
  encode_records p c ns (length written) (written ++ rest) =
    written ++ node_records p c ns ++ drop (20 * length ns) rest.
Proof.
  induction ns as [|n ns IH] in written, rest |- *; intros Hl; [done|].
  cbn [encode_records]. simpl length in Hl.
  rewrite copy_at_next by (autorewrite with wire; lia).
  rewrite copy_at_next by (autorewrite with wire; rewrite ?length_drop; autorewrite with wire; lia).
  rewrite copy_at_next by (autorewrite with wire; rewrite ?length_drop; autorewrite with wire; lia).
  autorewrite with wire.
  replace (length written + 20)%nat
    with (length (((written ++ u32_le (br_word n)) ++ u64_le p) ++ u64_le c))
    by (autorewrite with wire; lia).
  rewrite !drop_drop. rewrite IH by (rewrite length_drop; lia).
  rewrite drop_drop. change (node_records p c (n :: ns)) with (node_record p c n ++ node_records p c ns).
  unfold node_record. rewrite <- !app_assoc. repeat f_equal. simpl. lia.
Qed.

Lemma encode_exact p c ns output :
  len ns <= 4 ->
  encode p c ns output =
    if len output <? 20 * len ns then (output, Err ENOSPC)
    else (node_records p c ns ++ drop (20 * length ns) output, Ok (20 * len ns)).
Proof.
  intros Hn. unfold encode. pose proof (len_nonneg ns).
  rewrite (proj2 (checked_mul_Some usize_max _ 20 (20 * len ns)))
    by (unfold usize_max, u64_max; lia).
  destruct (Z.ltb_spec (len output) (20 * len ns)); [done|]. f_equal.
  apply (encode_records_app p c ns [] output). unfold len in *. lia.
Qed.

Lemma unsent_length l : len (unsent l) <= 4.
Proof.
  unfold unsent, prepare, notifications, len. by repeat case_match; simplify_eq/=.
Qed.

(** *** Serving the queue *)

Lemma read_node_exact σ own p r n output :
  onodes own !! p = Some r -> nodes σ !! r = Some n ->
  read_node_notifications σ own p output =
    let ns := unsent (lifecycle n) in
    if len output <? 20 * len ns then (σ, output, Err ENOSPC)
    else (set_lifecycle σ r (sent (lifecycle n)),
          node_records p (cookie n) ns ++ drop (20 * length ns) output, Ok (20 * len ns)).
Proof.
  intros Hp Hr. unfold read_node_notifications, publish_notifications.
  rewrite Hp, (lookup_total_correct _ _ _ Hr). fold (unsent (lifecycle n)). simpl.
  case_bool_decide as E; simpl.
  - rewrite E. change (20 * len []) with 0. destruct (Z.ltb_spec (len output) 0); [pose proof (len_nonneg output); lia|].
    done.
  - rewrite encode_exact by apply unsent_length. by destruct (len output <? _).
Qed.

Lemma set_pending_twice σ r o q m q' m' :
  owners σ !! r = Some o ->
  set_pending (set_pending σ r q m) r q' m' = set_pending σ r q' m'.
Proof.
  intros Ho. unfold set_pending, set_owner. simpl.
  by rewrite insert_insert_eq, lookup_total_insert_eq.
Qed.

Lemma set_pending_id σ r o :
  store_ok σ -> owners σ !! r = Some o ->
  set_pending σ r (order o) (list_to_set (order o)) = σ.
Proof.
  intros Hσ Ho. destruct (store_owners _ _ Hσ _ _ Ho) as [_ Hm].
  unfold set_pending, set_owner. rewrite (lookup_total_correct _ _ _ Ho), <- Hm.
  destruct σ as [os ns ss], o; simpl in *. f_equal. by apply insert_id.
Qed.

Lemma frame_pending σ r o q m : owners σ !! r = Some o -> frame σ (set_pending σ r q m).
Proof. intros Ho. split; [done|]. simpl. rewrite dom_insert_lookup_L; eauto. Qed.

Lemma pop_ok σ r o p rest :
  store_ok σ -> owners σ !! r = Some o -> order o = p :: rest ->
  membership o ∖ {[p]} = list_to_set rest /\
  store_ok_except (Some (r, p)) (set_pending σ r rest (list_to_set rest)).
Proof.
  intros [Ho Hn Hu Hq] Hr Hord. destruct (Ho _ _ Hr) as [Hd Hm]. rewrite Hord in Hd, Hm.
  apply NoDup_cons in Hd as [Hni Hd]. split; [rewrite Hm; set_solver|].
  unfold set_pending. rewrite (lookup_total_correct _ _ _ Hr). split; simpl.
  - by apply map_Forall_insert_2.
  - intros r' n Hr'. destruct (Hn _ _ Hr') as (? & o' & Ho' & Hs). split; [done|]. simpl.
    destruct (decide (nowner n = r)) as [E|].
    + eexists. rewrite E, lookup_insert_eq. split; [done|]. simpl. subst r.
      rewrite Hr in Ho'. injection Ho' as <-. rewrite Hord in Hs.
      intros Ha Hne. destruct (Hs Ha Hne) as [[->|?]%elem_of_cons|?]; [by right|by left|done].
    + exists o'. rewrite lookup_insert_ne by done. split; [done|]. intros Ha Hne.
      destruct (Hs Ha Hne); [by left|done].
  - exact Hu.
  - intros r' o' p' Hr' Hp. apply lookup_insert_Some in Hr' as [[<- <-]|[_ Hr']].
    + apply (Hq r o p' Hr). rewrite Hord. by right.
    + by eapply Hq.
Qed.

(** Nothing to tell about the node behind a queue entry. *)
Definition quiet (σ : Store) (r : OwnerRef) (p : Z) : Prop :=
  forall r' n, nodes σ !! r' = Some n -> nowner n = r -> pointer n = p ->
               unsent (lifecycle n) = [].

(** What serving a queue does: skip quiet entries, then serve one node or find none. *)
Definition served (σ : Store) (own : NodeOwner) (output : bytes) (queue : list Z)
    (outcome : Store * bytes * result Z Errno) : Prop :=
  exists skipped rest,
    queue = skipped ++ rest /\ Forall (quiet σ (state own)) skipped /\
    match rest with
    | [] => outcome = (set_pending σ (state own) [] ∅, output, Ok 0)
    | p :: rest' =>
        exists r n,
          nodes σ !! r = Some n /\ nowner n = state own /\ pointer n = p /\
          unsent (lifecycle n) <> [] /\
          outcome =
            let ns := unsent (lifecycle n) in
            if len output <? 20 * len ns then
              (set_pending σ (state own) rest (list_to_set rest), output, Err ENOSPC)
            else
              (set_lifecycle (set_pending σ (state own) rest' (list_to_set rest')) r
                 (sent (lifecycle n)),
               node_records p (cookie n) ns ++ drop (20 * length ns) output,
               Ok (20 * len ns))
    end.

Lemma served_skip σ own output p queue outcome o r n :
  owners σ !! state own = Some o -> store_ok σ ->
  nodes σ !! r = Some n -> nowner n = state own -> pointer n = p -> unsent (lifecycle n) = [] ->
  served (set_pending σ (state own) queue (list_to_set queue)) own output queue outcome ->
  served σ own output (p :: queue) outcome.
Proof.
  intros Ho Hσ Hr Hown Hp E (skipped & rest & -> & Hq & Hrest).
  exists (p :: skipped), rest. split; [done|]. split.
  - constructor; [|done]. intros r' n' Hr' Hown' Hp'.
    assert (r' = r) as -> by (eapply (store_unique _ _ Hσ); eauto; congruence).
    rewrite Hr in Hr'. by injection Hr' as <-.
  - destruct rest as [|q rest]; [by rewrite (set_pending_twice _ _ o) in Hrest|].
    by rewrite !(set_pending_twice _ _ o) in Hrest.
Qed.

Lemma read_pending_loop_served queue σ own output o :
  store_ok σ -> table_ok σ own -> owners σ !! state own = Some o -> order o = queue ->
  served σ own output queue (read_pending_loop (length queue) σ own output) /\
  store_ok (read_pending_loop (length queue) σ own output).1.1.
Proof.
  induction queue as [|p rest IH] in σ, o |- *; intros Hσ Ht Ho Hord; cbn [length read_pending_loop].
  { split; [|done]. exists [], []. split_and!; [done..|]. do 2 f_equal.
    pose proof (set_pending_id _ _ _ Hσ Ho) as Hid. rewrite Hord in Hid. by symmetry. }
  rewrite (lookup_total_correct _ _ _ Ho), Hord.
  destruct (pop_ok _ _ _ _ _ Hσ Ho Hord) as [-> Hpop].
  destruct (store_queue _ _ Hσ _ _ p Ho) as (r & n & Hr & Hown & Hp); [rewrite Hord; by left|].
  assert (Hlook : onodes own !! p = Some r) by (apply Ht; eauto).
  set (σ1 := set_pending σ (state own) rest (list_to_set rest)) in *.
  assert (Ho1 : owners σ1 !! state own = Some
    {| alive := alive o; order := rest; membership := list_to_set rest;
       osignal := osignal o; routing_owner := routing_owner o |}).
  { unfold σ1, set_pending. simpl. by rewrite lookup_insert_eq, (lookup_total_correct _ _ _ Ho). }
  rewrite (read_node_exact σ1 own p r n output Hlook Hr). cbv zeta.
  destruct (decide (unsent (lifecycle n) = [])) as [E|E].
  - rewrite E, sent_nothing by done. rewrite (set_lifecycle_id σ1 r n) by done.
    change (20 * len []) with 0.
    destruct (Z.ltb_spec (len output) 0); [pose proof (len_nonneg output); lia|]. cbn [Z.eqb].
    assert (Hσ1 : store_ok σ1).
    { rewrite <- (set_lifecycle_id σ1 r n) by done. eapply store_ok_quiescent; [done..| | |done].
      - right. by rewrite Hown, Hp.
      - by eapply lifecycle_of. }
    destruct (IH σ1 _ Hσ1 (table_ok_frame σ σ1 own (frame_pending _ _ _ _ _ Ho) Ht) Ho1 eq_refl)
      as [Hserved Hok].
    split; [|done]. by apply (served_skip _ _ _ _ _ _ o r n).
  - assert (Hpos : 0 < len (unsent (lifecycle n))).
    { destruct (unsent (lifecycle n)); [done|]. unfold len. simpl. lia. }
    destruct (Z.ltb_spec (len output) (20 * len (unsent (lifecycle n)))).
    + rewrite (lookup_total_correct _ _ _ Ho1). simpl.
      pose proof (store_owners _ _ Hσ _ _ Ho) as [Hd _]. rewrite Hord in Hd.
      apply NoDup_cons in Hd as [Hni _].
      rewrite bool_decide_false by (by rewrite elem_of_list_to_set). simpl.
      unfold σ1. rewrite (set_pending_twice _ _ o) by done.
      change ({[p]} ∪ list_to_set rest) with (list_to_set (p :: rest) : gset Z).
      split.
      * exists [], (p :: rest). split_and!; [done..|]. exists r, n. split_and!; [done..|].
        cbv zeta. destruct (Z.ltb_spec (len output) (20 * len (unsent (lifecycle n)))); [done|lia].
      * rewrite <- Hord, set_pending_id by done. done.
    + destruct (Z.eqb_spec (20 * len (unsent (lifecycle n))) 0); [lia|]. split.
      * exists [], (p :: rest). split_and!; [done..|]. exists r, n. split_and!; [done..|].
        cbv zeta. destruct (Z.ltb_spec (len output) (20 * len (unsent (lifecycle n)))); [lia|done].
      * simpl. eapply store_ok_quiescent; [done..| | |apply unsent_sent].
        { right. by rewrite Hown, Hp. }
        { by eapply sent_ok, lifecycle_of. }
Qed.

(** *** Owner operations *)

Lemma store_ok_set_owner σ r o o' :
  store_ok σ -> owners σ !! r = Some o -> order o' = order o -> membership o' = membership o ->
  (alive o' -> alive o) -> frame σ (set_owner σ r o') /\ store_ok (set_owner σ r o').
Proof.
  intros [Ho Hn Hu Hq] Hr Eo Em Ea.
  split; [split; [done|simpl; rewrite dom_insert_lookup_L; eauto]|]. split; simpl.
  - apply map_Forall_insert_2; [|done]. unfold owner_ok. rewrite Eo, Em. apply (Ho _ _ Hr).
  - intros r' n Hr'. destruct (Hn _ _ Hr') as (? & o1 & Ho1 & Hs). split; [done|]. simpl.
    destruct (decide (r = nowner n)) as [->|].
    + exists o'. rewrite lookup_insert_eq. rewrite Hr in Ho1. injection Ho1 as <-.
      rewrite Eo. auto.
    + exists o1. by rewrite lookup_insert_ne.
  - exact Hu.
  - intros r' o1 p Hr' Hp. apply lookup_insert_Some in Hr' as [[<- <-]|[_ Hr']].
    + apply (Hq r o p Hr). by rewrite <- Eo.
    + by eapply Hq.
Qed.

Lemma acquire_context_manager_refs_ok σ own r n σ' res :
  store_ok σ -> nodes σ !! r = Some n -> acquire_context_manager_refs σ own r = (σ', res) ->
  frame σ σ' /\ store_ok σ'.
Proof.
  intros Hσ Hr. unfold acquire_context_manager_refs. case_match; [by intros [= <- <-]|].
  rewrite (lookup_total_correct _ _ _ Hr).
  pose proof (lifecycle_of _ _ _ _ Hσ Hr) as (?&?&?&?&?&?).
  destruct (bounded_succ (local_strong _)) eqn:Es; [|by intros [= <- <-]].
  destruct (bounded_succ (local_weak _)) eqn:Ew; intros [= <- <-]; [|done].
  apply bounded_succ_Some in Es as [-> ?], Ew as [-> ?]. unfold count_ok in *.
  split; [by eapply frame_set_lifecycle|].
  apply (store_ok_quiescent None _ _ n); [done|done|by left| |].
  - unfold lifecycle_ok, count_ok; simpl. split_and!; try lia; eauto with rust.
  - unfold unsent, prepare, notifications, demand, weak_demand, strong_demand; simpl.
    destruct (Z.eqb_spec (local_strong (lifecycle n) + 1) 0); [lia|]. simpl.
    by rewrite !orb_true_r.
Qed.

Lemma new_owner_ok σ σ' own : store_ok σ -> new σ = (σ', own) -> store_ok σ' /\ table_ok σ' own.
Proof.
  intros [Ho Hn Hu Hq]. unfold new. set (r := fresh (dom (owners σ))). intros [= <- <-].
  assert (Hf : owners σ !! r = None) by (apply not_elem_of_dom, is_fresh).
  assert (Hne : forall r' n, nodes σ !! r' = Some n -> nowner n <> r).
  { intros r' n Hr'. destruct (Hn _ _ Hr') as (_ & o & Ho' & _). congruence. }
  split; [split; simpl|split; simpl].
  - by apply map_Forall_insert_2; [split; [constructor|]|].
  - intros r' n Hr'. destruct (Hn _ _ Hr') as (? & o & Ho' & Hs). split; [done|].
    exists o. simpl. rewrite lookup_insert_ne by (by eapply not_eq_sym, Hne). done.
  - exact Hu.
  - intros r' o p Hr' Hp. apply lookup_insert_Some in Hr' as [[<- <-]|[_ Hr']].
    + by apply elem_of_nil in Hp.
    + by eapply Hq.
  - rewrite lookup_insert_eq. eauto.
  - intros p r'. rewrite lookup_empty. split; [done|]. intros (n & Hr' & E & _).
    by destruct (Hne _ _ Hr').
  - intros i r'. rewrite lookup_empty. split; [done|]. intros (n & Hr' & E & _).
    by destruct (Hne _ _ Hr').
  - intros i r'. by rewrite lookup_empty.
  - unfold u64_max. lia.
Qed.

Lemma id_next_Some previous i serial :
  id_next previous = Some (i, serial) <-> i = previous + 1 /\ serial = i /\ i <= u64_max.
Proof.
  unfold id_next. destruct (checked_add _ _ _) eqn:E; simpl.
  - apply checked_add_Some in E as [-> ?]. split; [intros [= <- <-]; lia|intros (-> & -> & _); done].
  - apply checked_add_None in E. split; [done|lia].
Qed.

(** Adding the node that [resolve] creates. *)
Lemma add_node_ok σ own p c flags serial :
  store_ok σ -> table_ok σ own -> onodes own !! p = None -> serial = next_node own + 1 ->
  serial <= u64_max ->
  let r := fresh (dom (nodes σ)) in
  let n := {| nowner := state own; local_id := serial; pointer := p; cookie := c;
              initial_flags := flags; lifecycle := default_lifecycle |} in
  store_ok (set_node σ r n) /\
  table_ok (set_node σ r n)
    {| state := state own; onodes := <[p := r]> (onodes own);
       nodes_by_local := <[serial := r]> (nodes_by_local own); next_node := serial |}.
Proof.
  intros [Ho Hn Hu Hq] [To Tn Tl Ti Tx] Hp Hs Hmax r n.
  assert (Hf : nodes σ !! r = None) by (apply not_elem_of_dom, is_fresh).
  assert (Hnew : forall r' n', nodes σ !! r' = Some n' -> nowner n' = state own ->
                   pointer n' <> p /\ local_id n' <> serial).
  { intros r' n' Hr' Hown. split; intros E.
    - assert (onodes own !! p = Some r') by (apply Tn; eauto). congruence.
    - assert (nodes_by_local own !! serial = Some r') as Hl%Ti by (apply Tl; eauto). lia. }
  split; split; simpl.
  - done.
  - apply map_Forall_insert_2; [|done]. destruct To as [o To].
    split; [|by exists o]. unfold lifecycle_ok, count_ok, i32_max; simpl.
    split_and!; try lia. apply default_work_ok.
  - intros r1 r2 n1 n2 H1 H2. rewrite lookup_insert_Some in H1, H2.
    destruct H1 as [[<- <-]|[? H1]], H2 as [[<- <-]|[? H2]]; simpl; eauto; intros Ew Ep.
    + by destruct (Hnew _ _ H2 (eq_sym Ew)).
    + by destruct (Hnew _ _ H1 Ew).
  - intros r' o q Hr' Hq'. destruct (Hq _ _ _ Hr' Hq') as (r0 & n0 & H0 & ?).
    exists r0, n0. rewrite lookup_insert_ne by congruence. done.
  - done.
  - intros q r'. rewrite !lookup_insert_Some, Tn. split.
    + intros [[<- <-]|[Hne (n' & Hr' & ?)]]; [exists n; by rewrite lookup_insert_eq|].
      exists n'. rewrite lookup_insert_ne by congruence. done.
    + intros (n' & [[<- <-]|[? Hr']]%lookup_insert_Some & Hown & <-); [by left|]. right.
      destruct (Hnew _ _ Hr' Hown). split; [by apply not_eq_sym|eauto].
  - intros i r'. rewrite !lookup_insert_Some, Tl. split.
    + intros [[<- <-]|[Hne (n' & Hr' & ?)]]; [exists n; by rewrite lookup_insert_eq|].
      exists n'. rewrite lookup_insert_ne by congruence. done.
    + intros (n' & [[<- <-]|[? Hr']]%lookup_insert_Some & Hown & <-); [by left|]. right.
      destruct (Hnew _ _ Hr' Hown). split; [by apply not_eq_sym|eauto].
  - intros i r' [[<- <-]|[? Hi%Ti]]%lookup_insert_Some; lia.
  - lia.
Qed.

Lemma resolve_ok rsv σ own object σ' own' res :
  store_ok σ -> table_ok σ own -> resolve rsv σ own object = (σ', own', res) ->
  store_ok σ' /\ table_ok σ' own'.
Proof.
  intros Hσ Ht. unfold resolve. destruct (fields object); try by intros [= <- <- <-].
  destruct (onodes own !! _) as [r|] eqn:Ep; [case_match; by intros [= <- <- <-]|].
  case_match; [by intros [= <- <- <-]|]. case_match; [by intros [= <- <- <-]|].
  destruct (id_next _) as [[i serial]|] eqn:Ei; intros [= <- <- <-]; [|done].
  apply id_next_Some in Ei as (-> & -> & ?). by apply add_node_ok.
Qed.

(** *** Reachable states

    The life of one owner: its own operations, and what other parties do to its nodes. *)
Inductive owner_step : Store * NodeOwner -> Store * NodeOwner -> Prop :=
| step_resolve rsv σ own object σ' own' res :
    resolve rsv σ own object = (σ', own', res) -> owner_step (σ, own) (σ', own')
| step_acknowledge σ own p c s σ' res :
    acknowledge σ own p c s = (σ', res) -> owner_step (σ, own) (σ', own)
| step_read σ own output σ' output' res :
    read_pending_node_work σ own output = (σ', output', res) -> owner_step (σ, own) (σ', own)
| step_context_manager σ own r n σ' res :
    nodes σ !! r = Some n -> acquire_context_manager_refs σ own r = (σ', res) ->
    owner_step (σ, own) (σ', own)
| step_update_remote σ own r n before after σ' res :
    nodes σ !! r = Some n -> update_remote σ r before after = (σ', res) ->
    owner_step (σ, own) (σ', own)
| step_hold σ own r n k σ' res :
    nodes σ !! r = Some n -> hold σ r k = (σ', res) -> owner_step (σ, own) (σ', own)
| step_drop_hold σ own h n σ' :
    nodes σ !! hnode h = Some n -> drop_hold σ h = Some σ' -> owner_step (σ, own) (σ', own)
| step_attach σ own s : owner_step (σ, own) (attach_work_signal σ own s, own)
| step_bind σ own id σ' res : bind_routing_id σ own id = (σ', res) -> owner_step (σ, own) (σ', own)
| step_drop_owner σ own : owner_step (σ, own) (drop_owner σ own, own).

Definition owner_reachable (w : Store * NodeOwner) : Prop := rtc owner_step (new empty_store) w.

Lemma empty_store_ok : store_ok empty_store.
Proof.
  split; simpl; [apply map_Forall_empty..| |]; intros *; by rewrite lookup_empty.
Qed.

Lemma framed_ok σ σ' own :
  frame σ σ' /\ store_ok σ' -> table_ok σ own -> store_ok σ' /\ table_ok σ' own.
Proof. intros [F Hs] Ht. eauto using table_ok_frame. Qed.

Lemma read_pending_ok σ own output σ' output' res :
  store_ok σ -> table_ok σ own -> read_pending_node_work σ own output = (σ', output', res) ->
  served σ own output (order (owners σ !!! state own)) (σ', output', res) /\
  frame σ σ' /\ store_ok σ'.
Proof.
  intros Hσ Ht E. destruct (table_owner _ _ Ht) as [o Ho]. unfold read_pending_node_work in E.
  rewrite (lookup_total_correct _ _ _ Ho) in E |- *.
  destruct (read_pending_loop_served _ σ own output o Hσ Ht Ho eq_refl) as [Hs Hok].
  rewrite E in Hs, Hok. split; [done|]. split; [|done].
  destruct Hs as (skipped & [|p rest] & _ & _ & Hr).
  - injection Hr as -> _ _. by eapply frame_pending.
  - destruct Hr as (r & n & Hr & _ & _ & _ & Heq). cbv zeta in Heq. case_match; simplify_eq.
    + by eapply frame_pending.
    + etransitivity; [by eapply frame_pending|]. by apply (frame_set_lifecycle _ _ n).
Qed.

Lemma resolve_found rsv σ own object σ' own' r w f p c :
  table_ok σ own -> fields object = FNode w f p c ->
  resolve rsv σ own object = (σ', own', Ok r) ->
  onodes own' !! p = Some r /\
  exists n, nodes σ' !! r = Some n /\ nowner n = state own' /\ cookie n = c /\
    onodes own ⊆ onodes own' /\ nodes_by_local own ⊆ nodes_by_local own'.
Proof.
  intros Ht Hf. unfold resolve. rewrite Hf. destruct (onodes own !! p) as [r'|] eqn:Ep.
  - pose proof Ep as (n & Hr & Hown & _)%Ht. rewrite (lookup_total_correct _ _ _ Hr).
    destruct (Z.eqb_spec (cookie n) c); intros [= <- <- <-]. split; [done|]. by exists n.
  - case_match; [done|]. case_match; [done|].
    destruct (id_next _) as [[i serial]|] eqn:Ei; intros [= <- <- <-]. simpl.
    apply id_next_Some in Ei as (-> & -> & ?). rewrite !lookup_insert_eq. split; [done|].
    eexists. split_and!; [done..| |]; apply insert_subseteq; [done|].
    destruct (nodes_by_local own !! _) eqn:El; [|done]. apply (table_ids _ _ Ht) in El. lia.
Qed.

Lemma owner_step_ok w w' :
  owner_step w w' -> store_ok w.1 -> table_ok w.1 w.2 -> store_ok w'.1 /\ table_ok w'.1 w'.2.
Proof.
  destruct 1; simpl; intros Hσ Ht; try (destruct (table_owner _ _ Ht) as [o Ho]).
  - eauto using resolve_ok.
  - eauto using framed_ok, acknowledge_node_ok.
  - eapply framed_ok; [|done]. by eapply read_pending_ok.
  - eauto using framed_ok, acquire_context_manager_refs_ok.
  - eauto using framed_ok, update_remote_ok.
  - eauto using framed_ok, hold_ok.
  - eauto using framed_ok, drop_hold_ok.
  - eapply framed_ok; [|done]. unfold attach_work_signal. rewrite (lookup_total_correct _ _ _ Ho).
    by eapply store_ok_set_owner.
  - revert H. unfold bind_routing_id. rewrite (lookup_total_correct _ _ _ Ho).
    case_match; intros [= <- <-]; [done|]. eapply framed_ok; [|done].
    by eapply store_ok_set_owner.
  - eapply framed_ok; [|done]. unfold drop_owner. rewrite (lookup_total_correct _ _ _ Ho).
    by eapply store_ok_set_owner.
Qed.

Lemma owner_reachable_ok w : owner_reachable w -> store_ok w.1 /\ table_ok w.1 w.2.
Proof.
  unfold owner_reachable. intros H. remember (new empty_store) as w0 eqn:E.
  assert (H0 : store_ok w0.1 /\ table_ok w0.1 w0.2).
  { subst. eapply new_owner_ok; [apply empty_store_ok|]. by destruct (new empty_store). }
  clear E. induction H as [|w0 w1 w2 Hs _ IH]; [done|]. destruct H0. eauto using owner_step_ok.
Qed.

(** ** Properties *)


(** reading the pending node work of a reachable owner serves the queue in order:
    quiet entries are dropped, the first node with something to tell is reported whole, as
    its packed [BR_*] records, and committed; if the buffer is too small for them nothing is
    written, the node stays at the head of the queue and keeps its state; and zero is
    returned only after the whole queue was found quiet. *)
Theorem read_pending_node_work_exact σ own output σ' output' res
    (H : owner_reachable (σ, own))
    (Hread : read_pending_node_work σ own output = (σ', output', res)) :
  served σ own output (order (owners σ !!! state own)) (σ', output', res).
Proof.
  apply owner_reachable_ok in H as [Hσ Ht]. by eapply read_pending_ok.
Qed.

(** A node resolved from a local object keeps its identity.  After a successful
    [resolve] the node belongs to the owner, is found under the object's pointer and under
    its local id, and resolving any object with the same pointer succeeds again, without
    any change and with the same node, exactly when the cookie is the same; no earlier
    entry of the tables is lost. *)
Theorem resolve_identity rsv rsv' σ own object object' σ' own' r w f p c w' f' c'
    (H : owner_reachable (σ, own))
    (Hf : fields object = FNode w f p c) (Hf' : fields object' = FNode w' f' p c')
    (Hres : resolve rsv σ own object = (σ', own', Ok r)) :
  owns σ' own' r = true /\ lookup_local own' (local_id (nodes σ' !!! r)) = Ok r /\
  onodes own ⊆ onodes own' /\ nodes_by_local own ⊆ nodes_by_local own' /\
  resolve rsv' σ' own' object' =
    (σ', own', if c =? c' then Ok r else Err CookieMismatch).
Proof.
  apply owner_reachable_ok in H as [Hσ Ht]. simpl in *.
  destruct (resolve_ok _ _ _ _ _ _ _ Hσ Ht Hres) as [Hσ' Ht'].
  destruct (resolve_found _ _ _ _ _ _ _ _ _ _ _ Ht Hf Hres) as (Hp & n & Hr & Hown & Hc & Hs1 & Hs2).
  assert (Hl : nodes_by_local own' !! local_id n = Some r) by (apply Ht'; eauto).
  pose proof (table_ids _ _ Ht' _ _ Hl). unfold owns, lookup_local, resolve.
  rewrite (lookup_total_correct _ _ _ Hr), Hf', Hp, Hl. split_and!; try done.
  - by apply bool_decide_true.
  - destruct (Z.eqb_spec (local_id n) 0); [lia|done].
  - rewrite (lookup_total_correct _ _ _ Hr), Hc. by destruct (c =? c').
Qed.

(** An owner whose only node, pointer 123 and cookie 456, has gained a strong handle. *)
Definition example_object : Object :=
  {| kind := Binder; offset := 0;
     obytes := u32_le (tag Binder) ++ u32_le 0 ++ u64_le 123 ++ u64_le 456 |}.
Definition example_resolved : Store * NodeOwner :=
  let '(σ, own) := new empty_store in
  let '(σ, own, _) := resolve reserve_ok σ own example_object in (σ, own).
Definition example_retained : Store * NodeOwner :=
  let '(σ, own) := example_resolved in
  ((update_remote σ 1%positive default_counts {| strong := 1; weak := 0 |}).1, own).

Lemma example_resolved_reachable : owner_reachable example_resolved.
Proof.
  unfold owner_reachable, example_resolved. destruct (new empty_store) as [σ own] eqn:E.
  destruct (resolve reserve_ok σ own example_object) as [[σ' own'] res] eqn:Er.
  apply rtc_once. by eapply step_resolve.
Qed.

Lemma example_retained_reachable : owner_reachable example_retained.
Proof.
  unfold owner_reachable. eapply rtc_r; [apply example_resolved_reachable|].
  unfold example_retained. destruct example_resolved as [σ own] eqn:E.
  destruct (nodes σ !! 1%positive) as [n|] eqn:En.
  - eapply step_update_remote; [exact En|]. apply surjective_pairing.
  - vm_compute in E. injection E as <- <-. vm_compute in En. discriminate En.
Qed.


Lemma read_pending_node_work_exact_witness :
  exists outcome,
    served example_retained.1 example_retained.2 (zeroed 40) [123] outcome /\
    outcome.2 = Ok 40 /\ outcome.1.2 = node_records 123 456 [Increfs; Acquire].
Proof.
  exists (read_pending_node_work example_retained.1 example_retained.2 (zeroed 40)).
  split; [|vm_compute; split; reflexivity].
  destruct (read_pending_node_work _ _ _) as [[σ' output'] res] eqn:E.
  refine (read_pending_node_work_exact _ _ _ _ _ _ _ E).
  rewrite <- surjective_pairing. exact example_retained_reachable.
Defined.

Lemma resolve_identity_witness :
  resolve reserve_ok example_resolved.1 example_resolved.2 example_object =
    (example_resolved.1, example_resolved.2, Ok 1%positive).
Proof.
  destruct (new empty_store) as [σ own] eqn:E.
  refine (proj2 (proj2 (proj2 (proj2 (resolve_identity reserve_ok reserve_ok σ own
    example_object example_object example_resolved.1 example_resolved.2 1%positive
    false 0 123 456 false 0 456 _ _ _ _))))); [|vm_compute; reflexivity..|].
  - unfold owner_reachable. rewrite E. apply rtc_refl.
  - vm_compute in E. injection E as <- <-. vm_compute. reflexivity.
Defined.
