(* ===== verification/ReferenceTable.v ===== *)
(** * Receiver-local handles ([reference_table.rs], [reference_command.rs])

    A handle table maps [u32] handles to counted references to local nodes or to nodes of
    the routing authority, and keeps the aggregate demand of local nodes up to date.  A
    [BTreeMap] is a finite map whose iteration visits the keys in ascending order. *)
From S2P Require Import Prelude Command AuthorityProtocol NodeWork NodeOwner.

(** ** Definitions *)

Inductive Error : Type :=
| UnknownHandle | StrongRequired | Underflow | Overflow | NoHandles | NodeState | RemoteHandle.

Inductive Target : Type := Local (r : NodeRef) | Remote (n : NodeToken).

#[export] Instance Target_eq_dec : EqDecision Target.
Proof. solve_decision. Defined.

Record Reference : Type := { target : Target; counts_of : Counts }.

Inductive ResolvedTarget : Type := RLocal (h : LocalHold) | RRemote (n : NodeToken).

Abbreviation ReferenceTable := (gmap Z Reference).

Definition get_count (c : Counts) (s : Strength) : Z :=
  match s with Strong => strong c | Weak => weak c end.

(** Assignment through [count_mut]. *)
Definition set_count (c : Counts) (s : Strength) (v : Z) : Counts :=
  match s with
  | Strong => {| strong := v; weak := weak c |}
  | Weak => {| strong := strong c; weak := v |}
  end.

(** [same_target]: references to nodes are compared by [Arc::ptr_eq]. *)
Definition same_target (first second : Target) : bool :=
  match first, second with
  | Local first, Local second => bool_decide (first = second)
  | Remote first, Remote second => bool_decide (first = second)
  | _, _ => false
  end.

Definition update_target (σ : Store) (t : Target) (before after : Counts)
    : Store * result unit Error :=
  match t with
  | Local r =>
      let '(σ, res) := update_remote σ r before after in
      (σ, map_err (fun _ => NodeState) res)
  | Remote _ => (σ, Ok tt)
  end.

Definition increment (σ : Store) (entries : ReferenceTable) (handle : Z) (s : Strength)
    : Store * ReferenceTable * result (Counts * Counts) Error :=
  match entries !! handle with
  | None => (σ, entries, Err UnknownHandle)
  | Some reference =>
      let before := counts_of reference in
      match bounded_succ (get_count before s) with
      | None => (σ, entries, Err Overflow)
      | Some count =>
          let after := set_count before s count in
          match update_target σ (target reference) before after with
          | (σ, Err e) => (σ, entries, Err e)
          | (σ, Ok _) =>
              (σ, <[handle := {| target := target reference; counts_of := after |}]> entries,
               Ok (before, after))
          end
      end
  end.

Definition decrement (σ : Store) (entries : ReferenceTable) (handle : Z) (s : Strength)
    : Store * ReferenceTable * result (Counts * Counts) Error :=
  match entries !! handle with
  | None => (σ, entries, Err UnknownHandle)
  | Some reference =>
      let before := counts_of reference in
      match checked_sub (get_count before s) 1 with
      | None => (σ, entries, Err Underflow)
      | Some count =>
          let after := set_count before s count in
          match update_target σ (target reference) before after with
          | (σ, Err e) => (σ, entries, Err e)
          | (σ, Ok _) =>
              let entries :=
                <[handle := {| target := target reference; counts_of := after |}]> entries in
              let entries :=
                if bool_decide (after = default_counts) then delete handle entries else entries in
              (σ, entries, Ok (before, after))
          end
      end
  end.

(** The loop of [retain_from] over the occupied handles. *)
Fixpoint free_handle (occupied : list Z) (handle : Z) : result Z Error :=
  match occupied with
  | [] => Ok handle
  | o :: occupied =>
      if o <? handle then free_handle occupied handle
      else if handle <? o then Ok handle
      else
        let? handle := ok_or (checked_add u32_max o 1) NoHandles in
        free_handle occupied handle
  end.

Definition retain_from (σ : Store) (entries : ReferenceTable) (t : Target) (s : Strength)
    (start : Z) : Store * ReferenceTable * result (Z * Counts * Counts) Error :=
  match list_find (fun e => same_target (target e.2) t = true) (in_order entries) with
  | Some (_, (handle, _)) =>
      match increment σ entries handle s with
      | (σ, entries, Ok (before, after)) => (σ, entries, Ok (handle, before, after))
      | (σ, entries, Err e) => (σ, entries, Err e)
      end
  | None =>
      match free_handle (in_order entries).*1 start with
      | Err e => (σ, entries, Err e)
      | Ok handle =>
          let before := default_counts in
          let after := set_count before s 1 in
          match update_target σ t before after with
          | (σ, Err e) => (σ, entries, Err e)
          | (σ, Ok _) =>
              (σ, <[handle := {| target := t; counts_of := after |}]> entries,
               Ok (handle, before, after))
          end
      end
  end.

Definition retain σ entries (node : NodeRef) s := retain_from σ entries (Local node) s 1.
Definition retain_context_manager σ entries (node : NodeRef) s :=
  retain_from σ entries (Local node) s 0.
Definition retain_remote σ entries (node : NodeToken) s := retain_from σ entries (Remote node) s 1.
Definition retain_remote_context_manager σ entries (node : NodeToken) s :=
  retain_from σ entries (Remote node) s 0.

(** [ReferenceTable::resolve]: a local target is returned with a temporary hold. *)
Definition resolve (σ : Store) (entries : ReferenceTable) (handle : Z) (s : Strength)
    : Store * result ResolvedTarget Error :=
  match entries !! handle with
  | None => (σ, Err UnknownHandle)
  | Some reference =>
      if bool_decide (s = Strong) && (strong (counts_of reference) =? 0)
      then (σ, Err StrongRequired)
      else
        match target reference with
        | Local r =>
            let '(σ, h) := hold σ r HTemporary in
            (σ, map_err (fun _ => Overflow) (result_map RLocal h))
        | Remote node => (σ, Ok (RRemote node))
        end
  end.

Definition lookup (σ : Store) (entries : ReferenceTable) (handle : Z) (s : Strength)
    : Store * result LocalHold Error :=
  match resolve σ entries handle s with
  | (σ, Ok (RLocal h)) => (σ, Ok h)
  | (σ, Ok (RRemote _)) => (σ, Err RemoteHandle)
  | (σ, Err e) => (σ, Err e)
  end.

Definition counts (entries : ReferenceTable) (handle : Z) : result Counts Error :=
  result_map counts_of (ok_or (entries !! handle) UnknownHandle).

Definition remote_node (entries : ReferenceTable) (handle : Z) : result NodeToken Error :=
  let? reference := ok_or (entries !! handle) UnknownHandle in
  match target reference with Remote node => Ok node | Local _ => Err RemoteHandle end.

(** [Drop for ReferenceTable]; [None] is the panic of its [expect]. *)
Fixpoint drop_entries (σ : Store) (references : list Reference) : option Store :=
  match references with
  | [] => Some σ
  | reference :: references =>
      match update_target σ (target reference) (counts_of reference) default_counts with
      | (_, Err _) => None
      | (σ, Ok _) => drop_entries σ references
      end
  end.

Definition drop_table (σ : Store) (entries : ReferenceTable) : option Store :=
  drop_entries σ (in_order entries).*2.

(** ** Reference commands ([reference_command.rs]) *)

Inductive CommandError : Type :=
| RefFraming (e : Command.DecodeError)
| NotReferenceUpdate (k : Command.Kind)
| ContextManagerRequired.

Record Outcome : Type := { obytes : Z; update : result (Counts * Counts) Error }.

(** The update of one handle: [BC_ACQUIRE] and [BC_RELEASE] need a strong reference. *)
Definition update_handle (σ : Store) (table : ReferenceTable) (handle : Z) (s : Strength)
    (incr : bool) : Store * ReferenceTable * result (Counts * Counts) Error :=
  match counts table handle with
  | Err e => (σ, table, Err e)
  | Ok c =>
      if bool_decide (s = Strong) && (strong c =? 0) then (σ, table, Err StrongRequired)
      else if incr then increment σ table handle s
      else decrement σ table handle s
  end.

Definition dispatch (σ : Store) (table : ReferenceTable) (input : bytes)
    : Store * ReferenceTable * result Outcome CommandError :=
  match Command.decode input with
  | Err e => (σ, table, Err (RefFraming e))
  | Ok (command, n) =>
      let run s incr :=
        let handle := u32_at (Command.payload command) 0 in
        if handle =? 0 then (σ, table, Err ContextManagerRequired)
        else
          let '(σ, table, update) := update_handle σ table handle s incr in
          (σ, table, Ok {| obytes := n; update := update |}) in
      match Command.kind command with
      | Command.Increfs => run Weak true
      | Command.Acquire => run Strong true
      | Command.Release => run Strong false
      | Command.Decrefs => run Weak false
      | kind => (σ, table, Err (NotReferenceUpdate kind))
      end
  end.

(** ** Specification *)

(** The demand an entry puts on node [r]. *)
Definition refers (r : NodeRef) (e : Reference) : bool :=
  bool_decide (target e = Local r) && nonzero (counts_of e).
Definition refers_strongly (r : NodeRef) (e : Reference) : bool :=
  bool_decide (target e = Local r) && negb (strong (counts_of e) =? 0).

Definition counts_ok (c : Counts) : Prop :=
  count_ok (strong c) /\ count_ok (weak c) /\ c <> default_counts.

Definition target_ok (σ : Store) (t : Target) : Prop :=
  match t with Local r => is_Some (nodes σ !! r) | Remote _ => True end.

Record handles_ok (σ : Store) (entries : ReferenceTable) : Prop := {
  handles_range h e : entries !! h = Some e -> 0 <= h <= u32_max;
  handles_counts h e : entries !! h = Some e -> counts_ok (counts_of e);
  handles_target h e : entries !! h = Some e -> target_ok σ (target e);
  handles_unique h h' e e' :
    entries !! h = Some e -> entries !! h' = Some e' -> target e = target e' -> h = h' }.

(** Every node's table counters move by [remote] and [strongly], its holds not at all. *)
Definition shifts (σ σ' : Store) (remote strongly : NodeRef -> Z) : Prop :=
  forall r n n', nodes σ !! r = Some n -> nodes σ' !! r = Some n' ->
    remote_tables (lifecycle n') = remote_tables (lifecycle n) + remote r /\
    strong_tables (lifecycle n') = strong_tables (lifecycle n) + strongly r /\
    forall k, local_count (lifecycle n') k = local_count (lifecycle n) k.

(** An operation of a table keeps everything well formed, and moves each node's counters
    by exactly what the table's references to it changed. *)
Definition table_step (σ : Store) (t : ReferenceTable) (σ' : Store) (t' : ReferenceTable)
    : Prop :=
  frame σ σ' /\ store_ok σ' /\ handles_ok σ' t' /\
  shifts σ σ' (fun r => map_count (refers r) t' - map_count (refers r) t)
              (fun r => map_count (refers_strongly r) t' - map_count (refers_strongly r) t).

(** ** Lemmas *)

Lemma same_target_spec a b : same_target a b = true <-> a = b.
Proof.
  destruct a, b; simpl; rewrite ?bool_decide_eq_true; naive_solver.
Qed.

Lemma target_ok_frame σ σ' t : frame σ σ' -> target_ok σ t -> target_ok σ' t.
Proof.
  intros F. destruct t; [|done]. intros [n Hn]. simpl.
  destruct (frame_node _ _ _ _ F Hn) as (n' & -> & _). eauto.
Qed.

Lemma handles_ok_frame σ σ' t : frame σ σ' -> handles_ok σ t -> handles_ok σ' t.
Proof. intros F [????]. split; eauto using target_ok_frame. Qed.

Lemma shifts_refl σ : shifts σ σ (fun _ => 0) (fun _ => 0).
Proof. intros r n n' H H'. rewrite H in H'. injection H' as <-. cbv beta. split_and!; [lia..|done]. Qed.

Lemma shifts_ext σ σ' f g f' g' :
  shifts σ σ' f g -> (forall r, f r = f' r) -> (forall r, g r = g' r) -> shifts σ σ' f' g'.
Proof. intros H Hf Hg r n n' Hr Hr'. rewrite <- Hf, <- Hg. by apply H. Qed.

Lemma table_step_refl σ t : store_ok σ -> handles_ok σ t -> table_step σ t σ t.
Proof.
  intros. split_and!; [done..|]. eapply shifts_ext; [apply shifts_refl|..]; intros; cbv beta; lia.
Qed.

(** The effect of a counter update on its target. *)
Lemma update_target_step σ t before after σ' res :
  store_ok σ -> target_ok σ t -> update_target σ t before after = (σ', res) ->
  match res with
  | Err _ => σ' = σ
  | Ok _ =>
      frame σ σ' /\ store_ok σ' /\
      shifts σ σ'
        (fun r => if decide (t = Local r) then Z.b2z (nonzero after) - Z.b2z (nonzero before) else 0)
        (fun r => if decide (t = Local r)
                  then Z.b2z (negb (strong after =? 0)) - Z.b2z (negb (strong before =? 0)) else 0)
  end.
Proof.
  intros Hσ. destruct t as [r|node]; simpl.
  - intros [n Hr]. destruct (update_remote σ r before after) as [σ1 res1] eqn:E.
    pose proof (update_remote_ok _ _ _ _ _ _ _ Hσ Hr E) as [F Hσ1].
    revert E. unfold update_remote. rewrite (lookup_total_correct _ _ _ Hr).
    pose proof (lifecycle_of _ _ _ _ Hσ Hr) as (H1 & H2 & _).
    destruct (transition (remote_tables _) _ _) as [rt|] eqn:E1; [|intros ??; by simplify_eq/=].
    destruct (transition (strong_tables _) _ _) as [st|] eqn:E2; [|intros ??; by simplify_eq/=].
    apply transition_Ok in E1 as [_ ->], E2 as [_ ->]; [|done..]. intros [= <- <-] [= <- <-].
    split_and!; [done..|]. intros r' n1 n2 Hn1 Hn2.
    pose proof (f_equal (fmap lifecycle) Hn2) as E. rewrite lookup_update_node in E by done.
    destruct (decide (Local r = Local r')) as [Er|Er].
    + injection Er as <-. rewrite decide_True in E by done. injection E as <-.
      rewrite Hr in Hn1. injection Hn1 as <-. simpl. split_and!; [lia..|by intros []].
    + rewrite decide_False in E by congruence. rewrite Hn1 in E. injection E as <-.
      split_and!; [lia..|done].
  - intros _ [= <- <-]. split_and!; [done..|].
    eapply shifts_ext; [apply shifts_refl|..]; done.
Qed.

Lemma refers_diff r e c :
  Z.b2z (refers r {| target := target e; counts_of := c |}) - Z.b2z (refers r e) =
  if decide (target e = Local r)
  then Z.b2z (nonzero c) - Z.b2z (nonzero (counts_of e)) else 0.
Proof. unfold refers. simpl. case_decide; [rewrite bool_decide_true|rewrite bool_decide_false]; done. Qed.

Lemma refers_strongly_diff r e c :
  Z.b2z (refers_strongly r {| target := target e; counts_of := c |}) -
  Z.b2z (refers_strongly r e) =
  if decide (target e = Local r)
  then Z.b2z (negb (strong c =? 0)) - Z.b2z (negb (strong (counts_of e) =? 0)) else 0.
Proof.
  unfold refers_strongly. simpl. case_decide; [rewrite bool_decide_true|rewrite bool_decide_false]; done.
Qed.

(** The search returns the first free handle from its start. *)
Lemma free_handle_Ok occupied start h :
  StronglySorted Z.lt occupied -> start <= u32_max ->
  free_handle occupied start = Ok h ->
  start <= h <= u32_max /\ (h ∉ occupied) /\ (forall k, start <= k < h -> k ∈ occupied).
Proof.
  induction occupied as [|o occupied IH] in start |- *; simpl; intros Hs Hmax.
  { intros [= <-]. split_and!; [lia..|apply not_elem_of_nil|lia]. }
  apply StronglySorted_inv in Hs as [Hs Ho]. rewrite Forall_forall in Ho.
  destruct (Z.ltb_spec o start).
  - intros (? & Hn & Hk)%IH; [|done..]. split_and!; [lia..| |].
    + rewrite not_elem_of_cons. split; [lia|done].
    + intros k ?. right. by apply Hk.
  - destruct (Z.ltb_spec start o).
    + intros [= <-]. split_and!; [lia..| |lia]. rewrite not_elem_of_cons. split; [lia|].
      intros Hin%Ho. lia.
    + destruct (checked_add u32_max o 1) eqn:E; [|done]. apply checked_add_Some in E as [-> ?].
      simpl. intros (? & Hn & Hk)%IH; [|done..]. split_and!; [lia..| |].
      * rewrite not_elem_of_cons. split; [lia|done].
      * intros k ?. destruct (decide (k = o)) as [->|]; [by left|]. right. apply Hk. lia.
Qed.

(** It fails only when every handle from its start is taken. *)
Lemma free_handle_Err occupied start e :
  start <= u32_max -> free_handle occupied start = Err e ->
  e = NoHandles /\ forall k, start <= k <= u32_max -> k ∈ occupied.
Proof.
  induction occupied as [|o occupied IH] in start |- *; simpl; intros Hmax; [done|].
  destruct (Z.ltb_spec o start).
  - intros [-> Hk]%IH; [|done]. split; [done|]. intros k ?. right. by apply Hk.
  - destruct (Z.ltb_spec start o); [done|].
    destruct (checked_add u32_max o 1) eqn:E; simpl.
    + apply checked_add_Some in E as [-> ?]. intros [-> Hk]%IH; [|done]. split; [done|].
      intros k ?. destruct (decide (k = o)) as [->|]; [by left|]. right. apply Hk. lia.
    + apply checked_add_None in E. intros [= <-]. split; [done|]. intros k ?. assert (k = o) as -> by lia. by left.
Qed.

Lemma map_count_step P (t : ReferenceTable) h e e' :
  t !! h = Some e ->
  map_count P (<[h := e']> t) - map_count P t = Z.b2z (P e') - Z.b2z (P e).
Proof. intros Hh. rewrite (map_count_replace _ _ _ _ _ Hh). lia. Qed.

Lemma handles_ok_insert σ t h e :
  handles_ok σ t -> 0 <= h <= u32_max -> counts_ok (counts_of e) -> target_ok σ (target e) ->
  (forall h' e', h' <> h -> t !! h' = Some e' -> target e' <> target e) ->
  handles_ok σ (<[h := e]> t).
Proof.
  intros [Hr Hcs Htg Hun] ??? Hnew.
  split; [intros h1 e1|intros h1 e1|intros h1 e1|intros h1 h2 e1 e2];
    rewrite !lookup_insert_Some; [naive_solver..|].
  intros [[<- <-]|[? L1]] [[<- <-]|[? L2]] E; [done| | |eauto].
  - by destruct (Hnew h2 e2).
  - by destruct (Hnew h1 e1).
Qed.

Lemma handles_ok_delete σ t h : handles_ok σ t -> handles_ok σ (delete h t).
Proof.
  intros [Hr Hcs Htg Hun].
  split; [intros h1 e1|intros h1 e1|intros h1 e1|intros h1 h2 e1 e2];
    rewrite !lookup_delete_Some; naive_solver.
Qed.

Lemma replace_step σ t h e c σ' :
  store_ok σ -> handles_ok σ t -> t !! h = Some e -> counts_ok c ->
  update_target σ (target e) (counts_of e) c = (σ', Ok tt) ->
  table_step σ t σ' (<[h := {| target := target e; counts_of := c |}]> t).
Proof.
  intros Hσ Ht Hh Hc Hu.
  pose proof (update_target_step _ _ _ _ _ _ Hσ (handles_target _ _ Ht _ _ Hh) Hu) as (F & Hσ' & Hs).
  split_and!; [done..| |].
  - pose proof (handles_ok_frame _ _ _ F Ht) as Ht'.
    apply handles_ok_insert; simpl; eauto using handles_range, handles_target.
    intros h' e' Hne He' E. by eapply Hne, handles_unique.
  - eapply shifts_ext; [exact Hs|..]; intros r; symmetry; rewrite (map_count_step _ _ _ _ _ Hh).
    + apply refers_diff.
    + apply refers_strongly_diff.
Qed.

Lemma remove_step σ t h e σ' :
  store_ok σ -> handles_ok σ t -> t !! h = Some e ->
  update_target σ (target e) (counts_of e) default_counts = (σ', Ok tt) ->
  table_step σ t σ' (delete h t).
Proof.
  intros Hσ Ht Hh Hu.
  pose proof (update_target_step _ _ _ _ _ _ Hσ (handles_target _ _ Ht _ _ Hh) Hu) as (F & Hσ' & Hs).
  assert (Hz : forall r, refers r {| target := target e; counts_of := default_counts |} = false).
  { intros r. unfold refers. simpl. apply andb_false_r. }
  assert (Hz' : forall r,
    refers_strongly r {| target := target e; counts_of := default_counts |} = false).
  { intros r. unfold refers_strongly. simpl. apply andb_false_r. }
  split_and!; [done..| |].
  - eauto using handles_ok_delete, handles_ok_frame.
  - eapply shifts_ext; [exact Hs|..]; intros r; symmetry.
    + rewrite (map_count_delete _ t h e Hh), <- refers_diff, Hz. simpl. lia.
    + rewrite (map_count_delete _ t h e Hh), <- refers_strongly_diff, Hz'. simpl. lia.
Qed.

Lemma add_step σ t h tg c σ' :
  store_ok σ -> handles_ok σ t -> t !! h = None -> 0 <= h <= u32_max ->
  (forall h' e, t !! h' = Some e -> target e <> tg) -> target_ok σ tg -> counts_ok c ->
  update_target σ tg default_counts c = (σ', Ok tt) ->
  table_step σ t σ' (<[h := {| target := tg; counts_of := c |}]> t).
Proof.
  intros Hσ Ht Hh Hr0 Hnew Htg0 Hc Hu.
  pose proof (update_target_step _ _ _ _ _ _ Hσ Htg0 Hu) as (F & Hσ' & Hs).
  set (e0 := {| target := tg; counts_of := default_counts |}).
  assert (Hz : forall r, refers r e0 = false) by (intros r; apply andb_false_r).
  assert (Hz' : forall r, refers_strongly r e0 = false) by (intros r; apply andb_false_r).
  split_and!; [done..| |].
  - apply handles_ok_insert; simpl; eauto using handles_ok_frame, target_ok_frame.
  - eapply shifts_ext; [exact Hs|..]; intros r; symmetry; rewrite map_count_insert by done.
    + etransitivity; [|exact (refers_diff r e0 c)]. rewrite Hz. simpl. lia.
    + etransitivity; [|exact (refers_strongly_diff r e0 c)]. rewrite Hz'. simpl. lia.
Qed.

Lemma set_count_ok c s v :
  count_ok (strong c) -> count_ok (weak c) -> count_ok v -> set_count c s v <> default_counts ->
  counts_ok (set_count c s v).
Proof. intros. by destruct s; split_and!. Qed.

Lemma increment_step σ t h s σ' t' res :
  store_ok σ -> handles_ok σ t -> increment σ t h s = (σ', t', res) -> table_step σ t σ' t'.
Proof.
  intros Hσ Ht. unfold increment.
  destruct (t !! h) as [e|] eqn:Eh; [|intros [= <- <- <-]; by apply table_step_refl].
  destruct (bounded_succ _) as [c|] eqn:Ec; [|intros [= <- <- <-]; by apply table_step_refl].
  apply bounded_succ_Some in Ec as [-> Hlt].
  pose proof (handles_counts _ _ Ht _ _ Eh) as (H1 & H2 & _).
  destruct (update_target _ _ _ _) as [σ1 [[]|err]] eqn:Eu; intros [= <- <- <-].
  - apply replace_step; [done..| |done]. unfold count_ok in *.
    apply set_count_ok; try done; destruct s; simpl in *; unfold count_ok; try lia;
      intros [=]; lia.
  - apply update_target_step in Eu as ->; [|done|by eapply handles_target].
    by apply table_step_refl.
Qed.

Lemma decrement_step σ t h s σ' t' res :
  store_ok σ -> handles_ok σ t -> decrement σ t h s = (σ', t', res) -> table_step σ t σ' t'.
Proof.
  intros Hσ Ht. unfold decrement.
  destruct (t !! h) as [e|] eqn:Eh; [|intros [= <- <- <-]; by apply table_step_refl].
  destruct (checked_sub _ _) as [c|] eqn:Ec; [|intros [= <- <- <-]; by apply table_step_refl].
  apply checked_sub_Some in Ec as [-> Hlt].
  pose proof (handles_counts _ _ Ht _ _ Eh) as (H1 & H2 & _).
  destruct (update_target _ _ _ _) as [σ1 [[]|err]] eqn:Eu; intros [= <- <- <-].
  - case_bool_decide as Ez.
    + rewrite delete_insert_eq. apply (remove_step σ t h e); [done..|]. by rewrite <- Ez.
    + apply replace_step; [done..| |done]. unfold count_ok in *.
      apply set_count_ok; try done; destruct s; simpl in *; unfold count_ok; lia.
  - apply update_target_step in Eu as ->; [|done|by eapply handles_target].
    by apply table_step_refl.
Qed.

Lemma update_handle_step σ t h s incr σ' t' res :
  store_ok σ -> handles_ok σ t -> update_handle σ t h s incr = (σ', t', res) ->
  table_step σ t σ' t'.
Proof.
  intros Hσ Ht. unfold update_handle.
  destruct (counts t h); [|intros [= <- <- <-]; by apply table_step_refl].
  destruct (bool_decide _ && _); [intros [= <- <- <-]; by apply table_step_refl|].
  destruct incr; eauto using increment_step, decrement_step.
Qed.

Lemma dispatch_step σ t input σ' t' res :
  store_ok σ -> handles_ok σ t -> dispatch σ t input = (σ', t', res) -> table_step σ t σ' t'.
Proof.
  intros Hσ Ht. unfold dispatch.
  destruct (Command.decode input) as [[c m]|]; [|intros [= <- <- <-]; by apply table_step_refl].
  destruct (Command.kind c); try (intros [= <- <- <-]; by apply table_step_refl).
  all: destruct (_ =? 0); [intros [= <- <- <-]; by apply table_step_refl|].
  all: destruct (update_handle _ _ _ _ _) as [[σ1 t1] u] eqn:E; intros [= <- <- <-].
  all: by eapply update_handle_step.
Qed.

Lemma retain_find_None (t : ReferenceTable) tg h e :
  list_find (fun e => same_target (target e.2) tg = true) (in_order t) = None ->
  t !! h = Some e -> target e <> tg.
Proof.
  intros Hf%list_find_None He E. rewrite Forall_forall in Hf.
  apply (Hf (h, e)); [by apply in_order_lookup|]. simpl. by apply same_target_spec.
Qed.

Lemma retain_find_Some (t : ReferenceTable) tg i h e :
  list_find (fun e => same_target (target e.2) tg = true) (in_order t) = Some (i, (h, e)) ->
  t !! h = Some e /\ target e = tg.
Proof.
  intros (Hi & Hs & _)%list_find_Some. apply same_target_spec in Hs. split; [|done].
  apply in_order_lookup. by eapply list_elem_of_lookup_2.
Qed.

Lemma free_handle_fresh (t : ReferenceTable) start h :
  0 <= start <= u32_max -> free_handle (in_order t).*1 start = Ok h ->
  0 <= h <= u32_max /\ t !! h = None.
Proof.
  intros ? (? & Hn & _)%free_handle_Ok; [|apply in_order_keys|lia]. split; [lia|].
  destruct (t !! h) as [e|] eqn:E; [|done]. destruct Hn.
  apply list_elem_of_fmap. exists (h, e). by rewrite in_order_lookup.
Qed.

Lemma first_count_ok s : counts_ok (set_count default_counts s 1).
Proof. destruct s; unfold counts_ok, count_ok, i32_max; simpl; split_and!; (lia || done). Qed.

Lemma retain_step σ t tg s start σ' t' res :
  store_ok σ -> handles_ok σ t -> target_ok σ tg -> 0 <= start <= u32_max ->
  retain_from σ t tg s start = (σ', t', res) -> table_step σ t σ' t'.
Proof.
  intros Hσ Ht Htg Hst. unfold retain_from.
  destruct (list_find _ _) as [[i [h e]]|] eqn:Ef.
  - destruct (increment σ t h s) as [[σ1 t1] [[]|]] eqn:Ei; intros [= <- <- <-];
      by eapply increment_step.
  - destruct (free_handle _ _) as [h|] eqn:Eh; [|intros [= <- <- <-]; by apply table_step_refl].
    apply free_handle_fresh in Eh as [? ?]; [|done].
    destruct (update_target _ _ _ _) as [σ1 [[]|]] eqn:Eu; intros [= <- <- <-].
    + apply add_step; eauto using retain_find_None, first_count_ok.
    + apply update_target_step in Eu as ->; [|done..]. by apply table_step_refl.
Qed.

(** Lowering the counts of a target whose demand is accounted for cannot fail. *)
Lemma update_down_Ok σ tg before after :
  (forall r n, tg = Local r -> nodes σ !! r = Some n ->
     Z.b2z (nonzero before) <= remote_tables (lifecycle n) /\
     Z.b2z (negb (strong before =? 0)) <= strong_tables (lifecycle n)) ->
  target_ok σ tg -> (nonzero after -> nonzero before) ->
  (strong after <> 0 -> strong before <> 0) ->
  exists σ', update_target σ tg before after = (σ', Ok tt).
Proof.
  intros Hc. destruct tg as [r|]; simpl; [|eauto]. intros [n Hr] H1 H2.
  destruct (Hc r n eq_refl Hr) as [Hrem Hstr].
  unfold update_remote, transition. rewrite (lookup_total_correct _ _ _ Hr).
  assert (Hsub : forall v, 1 <= v -> checked_sub v 1 = Some (v - 1)).
  { intros v ?. by apply checked_sub_Some. }
  destruct (nonzero before), (nonzero after); simpl in *; try (by destruct H1);
    destruct (Z.eqb_spec (strong before) 0), (Z.eqb_spec (strong after) 0); simpl in *;
    try (by destruct H2); rewrite ?Hsub by done; simpl; eauto.
Qed.

Lemma shifts_trans σ1 σ2 σ3 f g f' g' :
  frame σ1 σ2 -> shifts σ1 σ2 f g -> shifts σ2 σ3 f' g' ->
  shifts σ1 σ3 (fun r => f r + f' r) (fun r => g r + g' r).
Proof.
  intros F H12 H23 r n n' Hn Hn'. destruct (frame_node _ _ _ _ F Hn) as (n2 & Hn2 & _).
  destruct (H12 r n n2 Hn Hn2) as (? & ? & Hk), (H23 r n2 n' Hn2 Hn') as (? & ? & Hk').
  split_and!; [lia..|]. intros k. by rewrite Hk', Hk.
Qed.

Lemma table_step_trans σ1 t1 σ2 t2 σ3 t3 :
  table_step σ1 t1 σ2 t2 -> table_step σ2 t2 σ3 t3 -> table_step σ1 t1 σ3 t3.
Proof.
  intros (F & _ & _ & H12) (F' & ? & ? & H23). split_and!; [by etransitivity|done..|].
  eapply shifts_ext; [by eapply shifts_trans|..]; intros; simpl; lia.
Qed.

(** The node counters account at least for the references of the table. *)
Definition accounted (σ : Store) (t : ReferenceTable) : Prop :=
  forall r n, nodes σ !! r = Some n ->
    map_count (refers r) t <= remote_tables (lifecycle n) /\
    map_count (refers_strongly r) t <= strong_tables (lifecycle n).

Lemma accounted_entry σ t h e r n :
  accounted σ t -> t !! h = Some e -> nodes σ !! r = Some n -> target e = Local r ->
  Z.b2z (nonzero (counts_of e)) <= remote_tables (lifecycle n) /\
  Z.b2z (negb (strong (counts_of e) =? 0)) <= strong_tables (lifecycle n).
Proof.
  intros Ha He Hr Htg. destruct (Ha r n Hr) as [H1 H2].
  rewrite (map_count_delete _ _ _ _ He) in H1. rewrite (map_count_delete _ _ _ _ He) in H2.
  pose proof (map_count_nonneg (refers r) (delete h t)).
  pose proof (map_count_nonneg (refers_strongly r) (delete h t)).
  unfold refers at 1 in H1. unfold refers_strongly at 1 in H2.
  rewrite Htg, bool_decide_true in H1, H2 by done. simpl in *. lia.
Qed.

Lemma accounted_step σ t σ' t' : accounted σ t -> table_step σ t σ' t' -> accounted σ' t'.
Proof.
  intros Ha (F & _ & _ & Hs) r n' Hn'.
  destruct (frame_node _ _ _ _ (frame_sym _ _ F) Hn') as (n & Hn & _).
  destruct (Ha r n Hn), (Hs r n n' Hn Hn') as (-> & -> & _). lia.
Qed.

Lemma drop_entries_step l σ :
  NoDup l.*1 -> store_ok σ -> handles_ok σ (list_to_map l) -> accounted σ (list_to_map l) ->
  exists σ', drop_entries σ l.*2 = Some σ' /\ table_step σ (list_to_map l) σ' ∅.
Proof.
  induction l as [|[h e] l IH] in σ |- *; intros Hd Hσ Ht Ha.
  { exists σ. split; [done|]. by apply table_step_refl. }
  cbn [fmap list_fmap fst snd] in *. apply NoDup_cons in Hd as [Hn Hd].
  set (t := list_to_map ((h, e) :: l)) in *.
  assert (He : t !! h = Some e) by (unfold t; simpl; apply lookup_insert_eq).
  destruct (update_down_Ok σ (target e) (counts_of e) default_counts) as [σ1 Hu].
  - intros r n Htg Hr. by eapply accounted_entry.
  - by eapply handles_target.
  - done.
  - done.
  - simpl. rewrite Hu. pose proof (remove_step _ _ _ _ _ Hσ Ht He Hu) as Hs.
    assert (Ed : delete h t = list_to_map l).
    { unfold t. simpl. rewrite delete_insert_id; [done|]. by apply not_elem_of_list_to_map. }
    rewrite Ed in Hs. pose proof (accounted_step _ _ _ _ Ha Hs) as Ha1.
    destruct (IH σ1) as (σ' & E & Hs'); [done|by apply Hs..|done|].
    exists σ'. split; [done|]. by eapply table_step_trans.
Qed.

Lemma drop_table_step σ t :
  store_ok σ -> handles_ok σ t -> accounted σ t ->
  exists σ', drop_table σ t = Some σ' /\ table_step σ t σ' ∅.
Proof.
  intros Hσ Ht Ha.
  assert (E : list_to_map (in_order t) = t).
  { rewrite (list_to_map_proper _ (map_to_list t)); [apply list_to_map_to_list|
      apply in_order_NoDup|apply in_order_perm]. }
  pose proof (drop_entries_step (in_order t) σ) as Hd. rewrite E in Hd.
  apply Hd; [apply in_order_NoDup|done..].
Qed.

Lemma increment_Ok_inv σ t h s σ' t' before after :
  increment σ t h s = (σ', t', Ok (before, after)) ->
  exists tg,
    t !! h = Some {| target := tg; counts_of := before |} /\
    t' = <[h := {| target := tg; counts_of := after |}]> t /\
    after = set_count before s (get_count before s + 1) /\ get_count before s < i32_max.
Proof.
  unfold increment. destruct (t !! h) as [e|]; [|done].
  destruct (bounded_succ _) eqn:E; [|done]. apply bounded_succ_Some in E as [-> ?].
  destruct (update_target _ _ _ _) as [σ1 [[]|]]; intros [= <- <- <- <-].
  exists (target e). by destruct e.
Qed.

Lemma get_set_count c s v s' :
  get_count (set_count c s v) s' = if decide (s' = s) then v else get_count c s'.
Proof. by destruct s, s'. Qed.

Lemma set_count_back c s v : set_count (set_count c s v) s (get_count c s) = c.
Proof. by destruct c, s. Qed.

(** A decrement of an accounted table never fails on the node's side. *)
Lemma decrement_Ok σ t h s e :
  handles_ok σ t -> accounted σ t -> t !! h = Some e -> 0 < get_count (counts_of e) s ->
  exists σ' t',
    decrement σ t h s =
      (σ', t', Ok (counts_of e, set_count (counts_of e) s (get_count (counts_of e) s - 1))).
Proof.
  intros Ht Ha He Hpos. unfold decrement. rewrite He.
  rewrite (proj2 (checked_sub_Some _ 1 (get_count (counts_of e) s - 1))) by lia. simpl.
  destruct (update_down_Ok σ (target e) (counts_of e)
    (set_count (counts_of e) s (get_count (counts_of e) s - 1))) as [σ' ->]; [..|eauto].
  - intros r n Htg Hr. by eapply accounted_entry.
  - by eapply handles_target.
  - intros _. unfold nonzero. rewrite bool_decide_false; [done|].
    by destruct (handles_counts _ _ Ht _ _ He) as (_ & _ & ?).
  - destruct s; simpl in *; lia.
Qed.

Lemma increment_undo σ t h s σ1 t1 before after
    (Hσ : store_ok σ) (Ht : handles_ok σ t) (Ha : accounted σ t)
    (H : increment σ t h s = (σ1, t1, Ok (before, after))) :
  exists σ2, decrement σ1 t1 h s = (σ2, t, Ok (after, before)) /\
             shifts σ σ2 (fun _ => 0) (fun _ => 0).
Proof.
  pose proof (increment_step _ _ _ _ _ _ _ Hσ Ht H) as Hs1.
  apply increment_Ok_inv in H as (tg & Hh & -> & -> & Hlt).
  pose proof (handles_counts _ _ Ht _ _ Hh) as (H1 & H2 & Hnz). simpl in *.
  set (after := set_count before s (get_count before s + 1)) in *.
  set (t1 := <[h := {| target := tg; counts_of := after |}]> t) in *.
  assert (Hh1 : t1 !! h = Some {| target := tg; counts_of := after |}) by apply lookup_insert_eq.
  assert (Ga : get_count after s = get_count before s + 1)
    by (unfold after; by rewrite get_set_count, decide_True).
  destruct (decrement_Ok σ1 t1 h s _ (proj1 (proj2 (proj2 Hs1))) (accounted_step _ _ _ _ Ha Hs1) Hh1)
    as (σ2 & t2 & Hd); simpl.
  { rewrite Ga. unfold count_ok in *. destruct s; simpl; lia. }
  assert (Eb : set_count after s (get_count after s - 1) = before).
  { rewrite Ga, Z.add_simpl_r. apply set_count_back. }
  cbn [counts_of] in Hd. rewrite Eb in Hd.
  assert (t2 = t) as ->.
  { revert Hd. unfold decrement. rewrite Hh1. cbn [counts_of target].
    destruct (checked_sub _ _) eqn:Ec; [|done]. apply checked_sub_Some in Ec as [-> _].
    rewrite Eb, bool_decide_false by done.
    destruct (update_target _ _ _ _) as [? [|]]; intros [= _ <-].
    unfold t1. rewrite insert_insert_eq. by apply insert_id. }
  exists σ2. split; [done|].
  pose proof (decrement_step _ _ _ _ _ _ _ (proj1 (proj2 Hs1)) (proj1 (proj2 (proj2 Hs1))) Hd) as Hs2.
  destruct (table_step_trans _ _ _ _ _ _ Hs1 Hs2) as (_ & _ & _ & Hs).
  eapply shifts_ext; [exact Hs|..]; intros; lia.
Qed.

(** Giving back the first reference of a handle frees it. *)
Lemma decrement_first σ t h tg s σ1 :
  store_ok σ -> handles_ok σ t -> accounted σ t -> t !! h = None -> 0 <= h <= u32_max ->
  (forall h' e, t !! h' = Some e -> target e <> tg) -> target_ok σ tg ->
  update_target σ tg default_counts (set_count default_counts s 1) = (σ1, Ok tt) ->
  let t1 := <[h := {| target := tg; counts_of := set_count default_counts s 1 |}]> t in
  exists σ2, decrement σ1 t1 h s = (σ2, t, Ok (set_count default_counts s 1, default_counts)) /\
             shifts σ σ2 (fun _ => 0) (fun _ => 0).
Proof.
  intros Hσ Ht Ha Hh Hr Hnew Htg Hu t1.
  pose proof (add_step _ _ _ _ _ _ Hσ Ht Hh Hr Hnew Htg (first_count_ok s) Hu) as Hs1. fold t1 in Hs1.
  assert (Hh1 : t1 !! h = Some {| target := tg; counts_of := set_count default_counts s 1 |})
    by apply lookup_insert_eq.
  assert (Hz : set_count (set_count default_counts s 1) s (1 - 1) = default_counts) by by destruct s.
  destruct (decrement_Ok σ1 t1 h s _ (proj1 (proj2 (proj2 Hs1))) (accounted_step _ _ _ _ Ha Hs1) Hh1)
    as (σ2 & t2 & Hd); [destruct s; simpl; lia|].
  simpl in Hd. rewrite get_set_count, decide_True, Hz in Hd by done.
  assert (t2 = t) as ->.
  { revert Hd. unfold decrement. rewrite Hh1. cbn [counts_of target].
    destruct (checked_sub _ _) eqn:Ec; [|done]. apply checked_sub_Some in Ec as [-> _].
    rewrite get_set_count, decide_True, Hz, bool_decide_true by done.
    destruct (update_target σ1 _ _ _) as [? [|]]; intros [= _ <-].
    unfold t1. rewrite delete_insert_eq, delete_insert_id by done. done. }
  exists σ2. split; [done|].
  pose proof (decrement_step _ _ _ _ _ _ _ (proj1 (proj2 Hs1)) (proj1 (proj2 (proj2 Hs1))) Hd) as Hs2.
  destruct (table_step_trans _ _ _ _ _ _ Hs1 Hs2) as (_ & _ & _ & Hs).
  eapply shifts_ext; [exact Hs|..]; intros; lia.
Qed.

(** Giving back what [retain_from] took restores the table and the demand. *)
Lemma retain_undo σ t tg s start σ1 t1 h before after :
  store_ok σ -> handles_ok σ t -> accounted σ t -> target_ok σ tg -> 0 <= start <= u32_max ->
  retain_from σ t tg s start = (σ1, t1, Ok (h, before, after)) ->
  exists σ2, decrement σ1 t1 h s = (σ2, t, Ok (after, before)) /\ shifts σ σ2 (fun _ => 0) (fun _ => 0).
Proof.
  intros Hσ Ht Ha Htg Hst. unfold retain_from. destruct (list_find _ _) as [[i [h0 e]]|] eqn:Ef.
  - destruct (increment σ t h0 s) as [[σ' t'] [[b a]|]] eqn:Ei; [|done].
    intros [= <- <- <- <- <-]. by eapply increment_undo.
  - destruct (free_handle _ _) as [h1|] eqn:Eh; [|done].
    destruct (update_target _ _ _ _) as [σ' [[]|]] eqn:Eu; [|done]. intros [= <- <- <- <- <-].
    apply free_handle_fresh in Eh as [Hr Hn]; [|done].
    apply decrement_first; eauto using retain_find_None.
Qed.

(** What [retain_from] leaves in the table. *)
Lemma retain_entry σ t tg s start σ' t' h before after :
  0 <= start <= u32_max -> retain_from σ t tg s start = (σ', t', Ok (h, before, after)) ->
  t' !! h = Some {| target := tg; counts_of := after |} /\
  (forall h', h' <> h -> t' !! h' = t !! h') /\
  (forall s', get_count after s' = get_count before s' + if decide (s' = s) then 1 else 0) /\
  (t !! h = Some {| target := tg; counts_of := before |} \/
   before = default_counts /\ t !! h = None /\ start <= h <= u32_max /\
   (forall k, start <= k < h -> is_Some (t !! k)) /\
   forall h' e, t !! h' = Some e -> target e <> tg).
Proof.
  intros Hstart H. unfold retain_from in H. destruct (list_find _ _) as [[i [h0 e]]|] eqn:Ef.
  - destruct (increment σ t h0 s) as [[σ1 t1] [[b a]|]] eqn:Ei; [|done].
    injection H as <- <- <- <- <-.
    apply increment_Ok_inv in Ei as (tg' & Hh & -> & -> & _).
    apply retain_find_Some in Ef as [He <-]. rewrite Hh in He. injection He as <-. simpl.
    split_and!; [apply lookup_insert_eq|..|by left].
    + intros h' ?. by apply lookup_insert_ne.
    + intros s'. rewrite get_set_count. case_decide; subst; lia.
  - destruct (free_handle _ _) as [h1|] eqn:Eh; [|done].
    destruct (update_target _ _ _ _) as [σ1 [[]|]] eqn:Eu; [|done].
    injection H as <- <- <- <- <-.
    pose proof (free_handle_fresh _ _ _ Hstart Eh) as [_ Hn].
    apply free_handle_Ok in Eh as (? & _ & Hk); [|apply in_order_keys|lia].
    split_and!; [apply lookup_insert_eq|..].
    + intros h' ?. by apply lookup_insert_ne.
    + intros s'. rewrite get_set_count. case_decide; destruct s'; done.
    + right. split_and!; try done; try lia; [|intros h' e He; by eapply retain_find_None].
      intros k Hr. apply Hk in Hr as ([k' e] & -> & Hin)%list_elem_of_fmap.
      apply in_order_lookup in Hin. eauto.
Qed.

(** ** Properties *)

(** Taking a reference gives a target one handle.  If the table already refers to the
    target its handle is reused, otherwise the target gets the first free handle from
    [start] on; only that entry changes, and only the requested count, by one. *)
Theorem retain_exact σ t tg s start σ' t' h before after (Hstart : 0 <= start <= u32_max)
    (H : retain_from σ t tg s start = (σ', t', Ok (h, before, after))) :
  t' !! h = Some {| target := tg; counts_of := after |} /\
  (forall h', h' <> h -> t' !! h' = t !! h') /\
  (forall s', get_count after s' = get_count before s' + if decide (s' = s) then 1 else 0) /\
  (t !! h = Some {| target := tg; counts_of := before |} \/
   before = default_counts /\ t !! h = None /\ start <= h <= u32_max /\
   (forall k, start <= k < h -> is_Some (t !! k)) /\
   forall h' e, t !! h' = Some e -> target e <> tg).
Proof. by eapply retain_entry. Qed.

Lemma retain_exact_witness :
  exists t', (retain_remote empty_store ∅ {| owner := 5; local := 6 |} Strong).1.2 = t' /\
    t' !! 1 = Some {| target := Remote {| owner := 5; local := 6 |};
                      counts_of := {| strong := 1; weak := 0 |} |}.
Proof.
  eexists. split; [reflexivity|].
  refine (proj1 (retain_exact empty_store ∅ (Remote {| owner := 5; local := 6 |}) Strong 1
    empty_store _ 1 default_counts {| strong := 1; weak := 0 |} _ _)).
  - vm_compute. split; discriminate.
  - vm_compute. reflexivity.
Defined.

(** Giving back a reference undoes taking it.  After a successful increment of a
    handle, the decrement succeeds, reports the counts the other way round, restores the
    table exactly, and leaves every node's demand counters where they were. *)
Theorem increment_decrement σ t h s σ1 t1 before after
    (Hσ : store_ok σ) (Ht : handles_ok σ t) (Ha : accounted σ t)
    (H : increment σ t h s = (σ1, t1, Ok (before, after))) :
  exists σ2, decrement σ1 t1 h s = (σ2, t, Ok (after, before)) /\
             shifts σ σ2 (fun _ => 0) (fun _ => 0).
Proof. by eapply increment_undo. Qed.

(** The handle of an authority node, held weakly once. *)
Definition example_entry : Reference :=
  {| target := Remote {| owner := 5; local := 6 |}; counts_of := {| strong := 0; weak := 1 |} |}.
Definition example_table : ReferenceTable := {[ 1 := example_entry ]}.

Lemma example_table_ok : handles_ok empty_store example_table.
Proof.
  unfold example_table. split; intros *; rewrite ?lookup_singleton_Some.
  - intros [<- <-]. unfold u32_max. lia.
  - intros [<- <-]. unfold counts_ok, count_ok, i32_max. simpl. split_and!; (lia || done).
  - intros [<- <-]. done.
  - intros [<- <-] [<- <-]. done.
Qed.

Lemma increment_decrement_witness :
  exists t1 σ2,
    (increment empty_store example_table 1 Strong).1.2 = t1 /\
    decrement empty_store t1 1 Strong =
      (σ2, example_table, Ok ({| strong := 1; weak := 1 |}, {| strong := 0; weak := 1 |})).
Proof.
  eexists. edestruct (increment_decrement empty_store example_table 1 Strong empty_store)
    as (σ2 & Hd & _); [apply empty_store_ok|apply example_table_ok| | |].
  - intros r n Hr. vm_compute in Hr. discriminate Hr.
  - vm_compute. reflexivity.
  - exists σ2. split; [vm_compute; reflexivity|exact Hd].
Defined.
