(* ===== verification/World.v ===== *)
(** * Owners, handle tables and holds together

    Several processes share nodes: each has an owner table ([node_owner.rs]) and a handle
    table ([reference_table.rs]), and anyone may keep holds on nodes.  The model interleaves
    all their operations on one store and shows that the demand counters of every node are
    exactly the references that exist, so that releasing one never underflows. *)
From S2P Require Import Prelude Objects NodeWork WorkSignal NodeOwner ReferenceTable.

#[export] Instance HoldKind_eq_dec : EqDecision HoldKind.
Proof. solve_decision. Defined.

Record World : Type :=
  { wstore : Store; wowners : list NodeOwner; wtables : list ReferenceTable;
    wholds : list LocalHold }.

Definition empty_world : World :=
  {| wstore := empty_store; wowners := []; wtables := []; wholds := [] |}.

(** ** Transitions *)

(** Operations of one owner that leave its table alone. *)
Inductive owner_op (own : NodeOwner) (σ σ' : Store) : Prop :=
| op_acknowledge p c s res : NodeOwner.acknowledge σ own p c s = (σ', res) -> owner_op own σ σ'
| op_read output output' res :
    read_pending_node_work σ own output = (σ', output', res) -> owner_op own σ σ'
| op_attach s : σ' = attach_work_signal σ own s -> owner_op own σ σ'
| op_bind id res : bind_routing_id σ own id = (σ', res) -> owner_op own σ σ'.

(** Operations of one handle table. *)
Inductive table_op (σ : Store) (t : ReferenceTable) (σ' : Store) (t' : ReferenceTable) : Prop :=
| op_increment h s res : increment σ t h s = (σ', t', res) -> table_op σ t σ' t'
| op_decrement h s res : decrement σ t h s = (σ', t', res) -> table_op σ t σ' t'
| op_retain tg s start res :
    target_ok σ tg -> 0 <= start <= u32_max -> retain_from σ t tg s start = (σ', t', res) ->
    table_op σ t σ' t'
| op_command input res : dispatch σ t input = (σ', t', res) -> table_op σ t σ' t'.

(** Connections and threads create, notify and close work signals. *)
Definition set_signals (σ : Store) (Σ : gmap SignalRef State) : Store :=
  {| owners := owners σ; nodes := nodes σ; signals := Σ |}.

Inductive step : World -> World -> Prop :=
| step_new_owner σ os ts hs σ' own :
    new σ = (σ', own) ->
    step {| wstore := σ; wowners := os; wtables := ts; wholds := hs |}
         {| wstore := σ'; wowners := os ++ [own]; wtables := ts; wholds := hs |}
| step_resolve σ os1 own os2 ts hs rsv object σ' own' res :
    NodeOwner.resolve rsv σ own object = (σ', own', res) ->
    step {| wstore := σ; wowners := os1 ++ own :: os2; wtables := ts; wholds := hs |}
         {| wstore := σ'; wowners := os1 ++ own' :: os2; wtables := ts; wholds := hs |}
| step_owner_op σ os ts hs own σ' :
    own ∈ os -> owner_op own σ σ' ->
    step {| wstore := σ; wowners := os; wtables := ts; wholds := hs |}
         {| wstore := σ'; wowners := os; wtables := ts; wholds := hs |}
| step_drop_owner σ os1 own os2 ts hs :
    step {| wstore := σ; wowners := os1 ++ own :: os2; wtables := ts; wholds := hs |}
         {| wstore := drop_owner σ own; wowners := os1 ++ os2; wtables := ts; wholds := hs |}
| step_new_table σ os ts hs :
    step {| wstore := σ; wowners := os; wtables := ts; wholds := hs |}
         {| wstore := σ; wowners := os; wtables := ts ++ [∅]; wholds := hs |}
| step_table_op σ os ts1 t ts2 hs σ' t' :
    table_op σ t σ' t' ->
    step {| wstore := σ; wowners := os; wtables := ts1 ++ t :: ts2; wholds := hs |}
         {| wstore := σ'; wowners := os; wtables := ts1 ++ t' :: ts2; wholds := hs |}
| step_drop_table σ os ts1 t ts2 hs σ' :
    drop_table σ t = Some σ' ->
    step {| wstore := σ; wowners := os; wtables := ts1 ++ t :: ts2; wholds := hs |}
         {| wstore := σ'; wowners := os; wtables := ts1 ++ ts2; wholds := hs |}
| step_lookup σ os ts hs t handle s σ' h :
    t ∈ ts -> ReferenceTable.resolve σ t handle s = (σ', Ok (RLocal h)) ->
    step {| wstore := σ; wowners := os; wtables := ts; wholds := hs |}
         {| wstore := σ'; wowners := os; wtables := ts; wholds := h :: hs |}
| step_hold σ os ts hs r n k σ' h :
    nodes σ !! r = Some n -> hold σ r k = (σ', Ok h) ->
    step {| wstore := σ; wowners := os; wtables := ts; wholds := hs |}
         {| wstore := σ'; wowners := os; wtables := ts; wholds := h :: hs |}
| step_drop_hold σ os ts hs1 h hs2 σ' :
    drop_hold σ h = Some σ' ->
    step {| wstore := σ; wowners := os; wtables := ts; wholds := hs1 ++ h :: hs2 |}
         {| wstore := σ'; wowners := os; wtables := ts; wholds := hs1 ++ hs2 |}
| step_context_manager σ os ts hs own r n σ' c :
    nodes σ !! r = Some n -> acquire_context_manager_refs σ own r = (σ', Ok c) ->
    step {| wstore := σ; wowners := os; wtables := ts; wholds := hs |}
         {| wstore := σ'; wowners := os; wtables := ts; wholds := cstrong c :: cweak c :: hs |}
| step_signals σ os ts hs Σ :
    step {| wstore := σ; wowners := os; wtables := ts; wholds := hs |}
         {| wstore := set_signals σ Σ; wowners := os; wtables := ts; wholds := hs |}.

Definition reachable (w : World) : Prop := rtc step empty_world w.

(** ** Invariant *)

Definition zsum {A} (f : A -> Z) (l : list A) : Z := foldr (fun x n => f x + n) 0 l.

Definition is_hold (r : NodeRef) (k : HoldKind) (h : LocalHold) : bool :=
  bool_decide (hnode h = r) && bool_decide (hkind h = k).

Definition count_holds (r : NodeRef) (k : HoldKind) (hs : list LocalHold) : Z :=
  zsum (fun h => Z.b2z (is_hold r k h)) hs.

(** The counters of a node are the references that exist. *)
Definition balanced (ts : list ReferenceTable) (hs : list LocalHold) (r : NodeRef) (l : Lifecycle)
    : Prop :=
  remote_tables l = zsum (map_count (refers r)) ts /\
  strong_tables l = zsum (map_count (refers_strongly r)) ts /\
  forall k, local_count l k = count_holds r k hs.

Record world_ok (w : World) : Prop := {
  world_store : store_ok (wstore w);
  world_owners : Forall (table_ok (wstore w)) (wowners w);
  world_states : NoDup (state <$> wowners w);
  world_tables : Forall (handles_ok (wstore w)) (wtables w);
  world_holds : Forall (fun h => is_Some (nodes (wstore w) !! hnode h)) (wholds w);
  world_balanced r n :
    nodes (wstore w) !! r = Some n -> balanced (wtables w) (wholds w) r (lifecycle n) }.

(** ** Lemmas *)

Lemma zsum_app {A} (f : A -> Z) l k : zsum f (l ++ k) = zsum f l + zsum f k.
Proof. induction l as [|x l IH]; simpl; [done|]. unfold zsum in *. lia. Qed.

Lemma zsum_cons {A} (f : A -> Z) x l : zsum f (x :: l) = f x + zsum f l.
Proof. done. Qed.

Lemma zsum_nonneg {A} (f : A -> Z) l : (forall x, 0 <= f x) -> 0 <= zsum f l.
Proof. intros Hf. induction l as [|x l IH]; simpl; [done|]. specialize (Hf x). unfold zsum in *. lia. Qed.

Lemma zsum_zero {A} (f : A -> Z) l : Forall (fun x => f x = 0) l -> zsum f l = 0.
Proof. induction 1; simpl; [done|]. unfold zsum in *. lia. Qed.

(** Nothing that identifies or counts references changes. *)
Definition inert (σ σ' : Store) : Prop :=
  frame σ σ' /\ store_ok σ' /\ shifts σ σ' (fun _ => 0) (fun _ => 0).

Section frames.
Context (σ σ' : Store) (F : frame σ σ').

Lemma owners_frame os : Forall (table_ok σ) os -> Forall (table_ok σ') os.
Proof. intros H. eapply Forall_impl; [apply H|]. intros. by eapply table_ok_frame. Qed.

Lemma tables_frame ts : Forall (handles_ok σ) ts -> Forall (handles_ok σ') ts.
Proof. intros H. eapply Forall_impl; [apply H|]. intros. by eapply handles_ok_frame. Qed.

Lemma holds_frame hs :
  Forall (fun h => is_Some (nodes σ !! hnode h)) hs ->
  Forall (fun h => is_Some (nodes σ' !! hnode h)) hs.
Proof.
  intros H. eapply Forall_impl; [apply H|]. intros h [n Hn].
  destruct (frame_node _ _ _ _ F Hn) as (n' & ? & _). eauto.
Qed.
End frames.

(** A transition on the same nodes that rebalances every node is fine. *)
Lemma world_ok_framed σ os ts hs σ' ts' hs' :
  world_ok {| wstore := σ; wowners := os; wtables := ts; wholds := hs |} ->
  frame σ σ' -> store_ok σ' -> Forall (handles_ok σ') ts' ->
  Forall (fun h => is_Some (nodes σ' !! hnode h)) hs' ->
  (forall r n n', nodes σ !! r = Some n -> nodes σ' !! r = Some n' ->
     balanced ts hs r (lifecycle n) -> balanced ts' hs' r (lifecycle n')) ->
  world_ok {| wstore := σ'; wowners := os; wtables := ts'; wholds := hs' |}.
Proof.
  intros [Hs Ho Hst Ht Hh Hb] F Hs' Ht' Hh' Hbal. split; simpl in *; try done.
  - by eapply owners_frame.
  - intros r n' Hn'. destruct (frame_node _ _ _ _ (frame_sym _ _ F) Hn') as (n & Hn & _). eauto.
Qed.

Lemma world_ok_inert σ os ts hs σ' :
  world_ok {| wstore := σ; wowners := os; wtables := ts; wholds := hs |} -> inert σ σ' ->
  world_ok {| wstore := σ'; wowners := os; wtables := ts; wholds := hs |}.
Proof.
  intros Hw (F & Hs' & Hsh). eapply world_ok_framed; [done..| | |].
  - eapply tables_frame; [done|]. apply Hw.
  - eapply holds_frame; [done|]. apply Hw.
  - intros r n n' Hn Hn' (H1 & H2 & H3). destruct (Hsh r n n' Hn Hn') as (E1 & E2 & E3).
    split_and!; [lia..|]. intros k. by rewrite E3.
Qed.

Definition same_counts (l l' : Lifecycle) : Prop :=
  remote_tables l' = remote_tables l /\ strong_tables l' = strong_tables l /\
  forall k, local_count l' k = local_count l k.

Lemma shifts_lifecycles σ σ' :
  (forall r n n', nodes σ !! r = Some n -> nodes σ' !! r = Some n' ->
     same_counts (lifecycle n) (lifecycle n')) ->
  shifts σ σ' (fun _ => 0) (fun _ => 0).
Proof.
  intros H r n n' Hn Hn'. destruct (H r n n' Hn Hn') as (-> & -> & ?). split_and!; [lia..|done].
Qed.

Lemma shifts_same_nodes σ σ' : nodes σ' = nodes σ -> shifts σ σ' (fun _ => 0) (fun _ => 0).
Proof.
  intros E. apply shifts_lifecycles. intros r n n' Hn Hn'. rewrite E, Hn in Hn'.
  injection Hn' as <-. by split_and!.
Qed.

(** Replacing a node's state by one with the same counters. *)
Lemma shifts_update σ σ' r n l :
  nodes σ !! r = Some n -> same_counts (lifecycle n) l ->
  (forall r', lifecycle <$> nodes σ' !! r' =
              if decide (r = r') then Some l else lifecycle <$> nodes σ !! r') ->
  shifts σ σ' (fun _ => 0) (fun _ => 0).
Proof.
  intros Hr Hl Hlook. apply shifts_lifecycles. intros r' n1 n2 H1 H2.
  specialize (Hlook r'). rewrite H1, H2 in Hlook. simpl in Hlook. case_decide as E.
  - subst. rewrite Hr in H1. injection H1 as <-. injection Hlook as ->. done.
  - injection Hlook as ->. by split_and!.
Qed.

Lemma inert_signals σ Σ : store_ok σ -> inert σ (set_signals σ Σ).
Proof. intros Hσ. split_and!; [done|by destruct Hσ; split|by apply shifts_same_nodes]. Qed.

Lemma inert_acknowledge σ own p c s σ' res :
  store_ok σ -> table_ok σ own -> NodeOwner.acknowledge σ own p c s = (σ', res) -> inert σ σ'.
Proof.
  intros Hσ Ht E. destruct (acknowledge_node_ok _ _ _ _ _ _ _ Hσ Ht E) as [F Hs].
  split_and!; [done..|]. revert E. unfold NodeOwner.acknowledge.
  destruct (onodes own !! p) as [r|] eqn:Ep; [|intros [= <- <-]; by apply shifts_same_nodes].
  apply Ht in Ep as (n & Hr & _ & _). rewrite (lookup_total_correct _ _ _ Hr).
  case_match; [intros [= <- <-]; by apply shifts_same_nodes|].
  destruct (NodeWork.acknowledge _ _); intros [= <- <-]; [|by apply shifts_same_nodes].
  eapply shifts_update; [done| |intros r'; by apply lookup_update_node]. by split_and!.
Qed.

Lemma inert_read σ own output σ' output' res :
  store_ok σ -> table_ok σ own -> read_pending_node_work σ own output = (σ', output', res) ->
  inert σ σ'.
Proof.
  intros Hσ Ht E. destruct (read_pending_ok _ _ _ _ _ _ Hσ Ht E) as (Hserved & F & Hs).
  split_and!; [done..|]. destruct Hserved as (skipped & [|p rest] & _ & _ & Hr).
  - injection Hr as -> _ _. by apply shifts_same_nodes.
  - destruct Hr as (r & n & Hr & _ & _ & _ & Heq). cbv zeta in Heq.
    case_match; simplify_eq; [by apply shifts_same_nodes|].
    apply (shifts_update _ _ r n (sent (lifecycle n)) Hr); [by split_and!|].
    intros r'. simpl. case_decide as Er; [subst; by rewrite lookup_insert_eq|].
    by rewrite lookup_insert_ne.
Qed.

Lemma inert_owner_op σ own σ' : store_ok σ -> table_ok σ own -> owner_op own σ σ' -> inert σ σ'.
Proof.
  intros Hσ Ht. destruct (table_owner _ _ Ht) as [o Ho]. destruct 1 as [????|???| |id res Hb].
  - eauto using inert_acknowledge.
  - eauto using inert_read.
  - subst. unfold attach_work_signal. rewrite (lookup_total_correct _ _ _ Ho).
    split; [by eapply store_ok_set_owner|]. split; [by eapply store_ok_set_owner|].
    by apply shifts_same_nodes.
  - revert Hb. unfold bind_routing_id. rewrite (lookup_total_correct _ _ _ Ho).
    case_match; intros [= <- <-]; [split_and!; [done..|by apply shifts_same_nodes]|].
    split; [by eapply store_ok_set_owner|]. split; [by eapply store_ok_set_owner|].
    by apply shifts_same_nodes.
Qed.

Lemma table_op_step σ t σ' t' :
  store_ok σ -> handles_ok σ t -> table_op σ t σ' t' -> table_step σ t σ' t'.
Proof.
  intros Hσ Ht. destruct 1 as [h s res H|h s res H|tg s start res Htg Hst H|input res H].
  - by eapply increment_step.
  - by eapply decrement_step.
  - by eapply retain_step.
  - by eapply dispatch_step.
Qed.

(** *** Holds *)

Definition hold_shifts (σ σ' : Store) (d : NodeRef -> HoldKind -> Z) : Prop :=
  forall r n n', nodes σ !! r = Some n -> nodes σ' !! r = Some n' ->
    remote_tables (lifecycle n') = remote_tables (lifecycle n) /\
    strong_tables (lifecycle n') = strong_tables (lifecycle n) /\
    forall k, local_count (lifecycle n') k = local_count (lifecycle n) k + d r k.

Lemma local_count_set l k v k' :
  local_count (set_local_count l k v) k' = if decide (k' = k) then v else local_count l k'.
Proof. by destruct k, k'. Qed.

(** Setting one hold counter of one node. *)
Lemma hold_shifts_set σ σ' r n k v :
  nodes σ !! r = Some n ->
  (forall r', lifecycle <$> nodes σ' !! r' =
     if decide (r = r') then Some (set_local_count (lifecycle n) k v)
     else lifecycle <$> nodes σ !! r') ->
  hold_shifts σ σ' (fun r' k' =>
    Z.b2z (is_hold r' k' {| hnode := r; hkind := k |}) * (v - local_count (lifecycle n) k)).
Proof.
  intros Hr Hlook r' n1 n2 H1 H2. specialize (Hlook r'). rewrite H1, H2 in Hlook.
  simpl in Hlook. unfold is_hold; simpl. case_decide as E.
  - subst. rewrite Hr in H1. injection H1 as <-. injection Hlook as ->.
    rewrite bool_decide_true by done. split_and!; [done..|]. intros k'. rewrite local_count_set.
    case_decide as Ek; [rewrite bool_decide_true by done; subst; simpl; lia|].
    rewrite bool_decide_false by congruence. simpl. lia.
  - injection Hlook as ->. rewrite bool_decide_false by done. split_and!; [done..|]. intros k'.
    simpl. lia.
Qed.

Lemma hold_step σ r n k σ' h :
  store_ok σ -> nodes σ !! r = Some n -> hold σ r k = (σ', Ok h) ->
  h = {| hnode := r; hkind := k |} /\ frame σ σ' /\ store_ok σ' /\
  hold_shifts σ σ' (fun r' k' => Z.b2z (is_hold r' k' h)).
Proof.
  intros Hσ Hr E. destruct (hold_ok _ _ _ _ _ _ Hσ Hr E) as [F Hs]. revert E. unfold hold.
  rewrite (lookup_total_correct _ _ _ Hr).
  destruct (bounded_succ _) as [v|] eqn:Ev; intros [= <- <-].
  apply bounded_succ_Some in Ev as [-> _]. split_and!; [done..|].
  pose proof (hold_shifts_set σ _ r n k (local_count (lifecycle n) k + 1) Hr
    (fun r' => lookup_update_node σ r n _ r' Hr)) as H.
  intros r' n1 n2 H1 H2. destruct (H r' n1 n2 H1 H2) as (? & ? & Hk). split_and!; [done..|].
  intros k'. rewrite Hk. lia.
Qed.

Lemma drop_hold_step σ h n σ' :
  store_ok σ -> nodes σ !! hnode h = Some n -> drop_hold σ h = Some σ' ->
  frame σ σ' /\ store_ok σ' /\ hold_shifts σ σ' (fun r' k' => - Z.b2z (is_hold r' k' h)).
Proof.
  intros Hσ Hr E. destruct (drop_hold_ok _ _ _ _ Hσ Hr E) as [F Hs]. revert E. unfold drop_hold.
  rewrite (lookup_total_correct _ _ _ Hr).
  destruct (checked_sub _ _) as [v|] eqn:Ev; [|done]. simpl. intros [= <-].
  apply checked_sub_Some in Ev as [-> _]. split_and!; [done..|]. destruct h as [r k]. simpl in *.
  pose proof (hold_shifts_set σ _ r n k (local_count (lifecycle n) k - 1) Hr
    (fun r' => lookup_update_node σ r n _ r' Hr)) as H.
  intros r' n1 n2 H1 H2. destruct (H r' n1 n2 H1 H2) as (? & ? & Hk). split_and!; [done..|].
  intros k'. rewrite Hk. lia.
Qed.

Lemma context_manager_step σ own r n σ' c :
  store_ok σ -> nodes σ !! r = Some n -> acquire_context_manager_refs σ own r = (σ', Ok c) ->
  c = {| cstrong := {| hnode := r; hkind := HStrong |};
         cweak := {| hnode := r; hkind := HWeak |} |} /\
  frame σ σ' /\ store_ok σ' /\
  hold_shifts σ σ'
    (fun r' k' => Z.b2z (is_hold r' k' (cstrong c)) + Z.b2z (is_hold r' k' (cweak c))).
Proof.
  intros Hσ Hr E. destruct (acquire_context_manager_refs_ok _ _ _ _ _ _ Hσ Hr E) as [F Hs].
  revert E. unfold acquire_context_manager_refs. case_match; [done|].
  rewrite (lookup_total_correct _ _ _ Hr).
  destruct (bounded_succ (local_strong _)) eqn:Es; [|done].
  destruct (bounded_succ (local_weak _)) eqn:Ew; intros [= <- <-].
  apply bounded_succ_Some in Es as [-> _], Ew as [-> _]. split_and!; [done..|].
  intros r' n1 n2 H1 H2. simpl in H2. rewrite (lookup_total_correct _ _ _ Hr) in H2.
  unfold is_hold; simpl. apply lookup_insert_Some in H2 as [[<- <-]|[Hne H2]].
  - rewrite Hr in H1. injection H1 as <-. simpl. split_and!; [done..|].
    rewrite !bool_decide_true by done. intros []; simpl; lia.
  - rewrite H1 in H2. injection H2 as <-. rewrite bool_decide_false by done.
    split_and!; [done..|]. intros k. simpl. lia.
Qed.

(** Adding or removing holds in step with the counters keeps the balance. *)
Lemma world_ok_holds σ os ts hs σ' hs' d :
  world_ok {| wstore := σ; wowners := os; wtables := ts; wholds := hs |} ->
  frame σ σ' -> store_ok σ' -> hold_shifts σ σ' d ->
  Forall (fun h => is_Some (nodes σ !! hnode h)) hs' ->
  (forall r k, count_holds r k hs' = count_holds r k hs + d r k) ->
  world_ok {| wstore := σ'; wowners := os; wtables := ts; wholds := hs' |}.
Proof.
  intros Hw F Hs Hsh Hh Hc. eapply world_ok_framed; [done..| | |].
  - eapply tables_frame; [done|]. apply Hw.
  - by eapply holds_frame.
  - intros r n n' Hn Hn' (H1 & H2 & H3). destruct (Hsh r n n' Hn Hn') as (E1 & E2 & E3).
    split_and!; [by rewrite E1|by rewrite E2|]. intros k. by rewrite E3, Hc, H3.
Qed.

(** *** Tables *)

Lemma world_ok_table σ os ts1 t ts2 hs σ' t' :
  world_ok {| wstore := σ; wowners := os; wtables := ts1 ++ t :: ts2; wholds := hs |} ->
  table_step σ t σ' t' ->
  world_ok {| wstore := σ'; wowners := os; wtables := ts1 ++ t' :: ts2; wholds := hs |}.
Proof.
  intros Hw (F & Hs & Ht' & Hsh). eapply world_ok_framed; [done..| | |].
  - pose proof (tables_frame _ _ F _ (world_tables _ Hw)) as H. simpl in H.
    rewrite Forall_app, Forall_cons in *. naive_solver.
  - eapply holds_frame; [done|]. apply Hw.
  - intros r n n' Hn Hn' (H1 & H2 & H3). destruct (Hsh r n n' Hn Hn') as (E1 & E2 & E3).
    rewrite zsum_app, zsum_cons in H1, H2. unfold balanced. rewrite !zsum_app, !zsum_cons.
    split_and!; [lia..|]. intros k. by rewrite E3.
Qed.

Lemma world_accounted σ os ts1 t ts2 hs :
  world_ok {| wstore := σ; wowners := os; wtables := ts1 ++ t :: ts2; wholds := hs |} ->
  accounted σ t.
Proof.
  intros Hw r n Hn. destruct (world_balanced _ Hw r n Hn) as (H1 & H2 & _). simpl in *.
  rewrite zsum_app, zsum_cons in H1, H2.
  pose proof (zsum_nonneg (map_count (refers r)) ts1 (map_count_nonneg _)).
  pose proof (zsum_nonneg (map_count (refers r)) ts2 (map_count_nonneg _)).
  pose proof (zsum_nonneg (map_count (refers_strongly r)) ts1 (map_count_nonneg _)).
  pose proof (zsum_nonneg (map_count (refers_strongly r)) ts2 (map_count_nonneg _)). lia.
Qed.

(** An empty table may be added or forgotten. *)
Lemma world_ok_empty_table σ os ts1 ts2 hs :
  world_ok {| wstore := σ; wowners := os; wtables := ts1 ++ ∅ :: ts2; wholds := hs |} <->
  world_ok {| wstore := σ; wowners := os; wtables := ts1 ++ ts2; wholds := hs |}.
Proof.
  assert (He : handles_ok σ ∅) by (split; intros *; by rewrite lookup_empty).
  assert (Hb : forall r l, balanced (ts1 ++ ∅ :: ts2) hs r l <-> balanced (ts1 ++ ts2) hs r l).
  { intros r l. unfold balanced. rewrite !zsum_app, !zsum_cons. done. }
  split; intros [? ? ? Ht ? H]; (split; simpl in *; try done); rewrite ?Forall_app, ?Forall_cons in *.
  - naive_solver.
  - intros r n Hn. by apply Hb, H.
  - naive_solver.
  - intros r n Hn. by apply Hb, H.
Qed.

(** *** Owners *)

Lemma world_ok_new_owner σ os ts hs σ' own :
  world_ok {| wstore := σ; wowners := os; wtables := ts; wholds := hs |} ->
  new σ = (σ', own) ->
  world_ok {| wstore := σ'; wowners := os ++ [own]; wtables := ts; wholds := hs |}.
Proof.
  intros [Hs Ho Hst Ht Hh Hb] E. simpl in *.
  destruct (new_owner_ok _ _ _ Hs E) as [Hs' Hown]. revert E Hs' Hown. unfold new.
  set (r := fresh (dom (owners σ))). intros [= <- <-] Hs' Hown.
  assert (Hf : forall own', own' ∈ os -> state own' <> r).
  { intros own' Hin E. rewrite Forall_forall in Ho. destruct (table_owner _ _ (Ho _ Hin)) as [o Ho'].
    rewrite E in Ho'. apply (is_fresh (dom (owners σ))). by apply elem_of_dom_2 in Ho'. }
  split; simpl; try done.
  - apply Forall_app. split; [|by apply Forall_singleton]. rewrite Forall_forall in *.
    intros own' Hin. destruct (Ho _ Hin) as [To Tn Tl Ti Tx]. split; simpl; try done.
    rewrite lookup_insert_ne by (by apply not_eq_sym, Hf). done.
  - rewrite fmap_app. apply NoDup_app. split_and!; [done| |apply NoDup_singleton].
    intros x (own' & -> & Hin)%list_elem_of_fmap Hx%list_elem_of_singleton. by apply (Hf own').
  - eapply Forall_impl; [apply Ht|]. by intros t [? ? ? ?].
Qed.

Lemma resolve_cases rsv σ own object σ' own' res :
  NodeOwner.resolve rsv σ own object = (σ', own', res) ->
  σ' = σ /\ own' = own \/
  exists p c flags serial,
    let r := fresh (dom (nodes σ)) in
    onodes own !! p = None /\ serial = next_node own + 1 /\ serial <= u64_max /\
    σ' = set_node σ r {| nowner := state own; local_id := serial; pointer := p; cookie := c;
                         initial_flags := flags; lifecycle := default_lifecycle |} /\
    own' = {| state := state own; onodes := <[p := r]> (onodes own);
              nodes_by_local := <[serial := r]> (nodes_by_local own); next_node := serial |}.
Proof.
  unfold NodeOwner.resolve. destruct (fields object); try (intros [= <- <- _]; by left).
  destruct (onodes own !! _) eqn:Ep; [case_match; intros [= <- <- _]; by left|].
  case_match; [intros [= <- <- _]; by left|]. case_match; [intros [= <- <- _]; by left|].
  destruct (id_next _) as [[i serial]|] eqn:Ei; intros [= <- <- _]; [|by left].
  apply id_next_Some in Ei as (-> & -> & ?). right. eexists _, _, _, _. split_and!; done.
Qed.

(** A new node of one owner is invisible in another owner's tables. *)
Lemma table_ok_other σ own r n :
  table_ok σ own -> nodes σ !! r = None -> nowner n <> state own -> table_ok (set_node σ r n) own.
Proof.
  intros [To Tn Tl Ti Tx] Hf Hne.
  assert (H : forall r' P, (exists n', nodes σ !! r' = Some n' /\ nowner n' = state own /\ P n') <->
    (exists n', <[r := n]> (nodes σ) !! r' = Some n' /\ nowner n' = state own /\ P n')).
  { intros r' P. split; intros (n' & Hr' & ? & ?).
    - exists n'. rewrite lookup_insert_ne by congruence. done.
    - apply lookup_insert_Some in Hr' as [[<- <-]|[? Hr']]; [done|]. by exists n'. }
  split; simpl; try done; intros i r'; rewrite ?Tn, ?Tl; apply H.
Qed.

(** Nothing refers to a node that does not exist. *)
Lemma balanced_fresh σ ts hs r :
  nodes σ !! r = None -> Forall (handles_ok σ) ts ->
  Forall (fun h => is_Some (nodes σ !! hnode h)) hs -> balanced ts hs r default_lifecycle.
Proof.
  intros Hf Ht Hh.
  assert (Hno : forall t h e, handles_ok σ t -> t !! h = Some e -> target e <> Local r).
  { intros t h e Ht1 He Etg. apply (handles_target _ _ Ht1) in He. rewrite Etg in He.
    simpl in He. rewrite Hf in He. by destruct He. }
  unfold balanced, count_holds. rewrite !zsum_zero.
  - split_and!; [done..|]. intros k. rewrite zsum_zero; [by destruct k|].
    eapply Forall_impl; [apply Hh|]. intros h [n Hn]. unfold is_hold.
    rewrite bool_decide_false; [done|]. intros E. by rewrite E, Hf in Hn.
  - eapply Forall_impl; [apply Ht|]. intros t Ht1. apply map_count_zero. intros h e He.
    unfold refers_strongly. rewrite bool_decide_false; [done|]. by eapply Hno.
  - eapply Forall_impl; [apply Ht|]. intros t Ht1. apply map_count_zero. intros h e He.
    unfold refers. rewrite bool_decide_false; [done|]. by eapply Hno.
Qed.

Lemma world_ok_resolve σ os1 own os2 ts hs rsv object σ' own' res :
  world_ok {| wstore := σ; wowners := os1 ++ own :: os2; wtables := ts; wholds := hs |} ->
  NodeOwner.resolve rsv σ own object = (σ', own', res) ->
  world_ok {| wstore := σ'; wowners := os1 ++ own' :: os2; wtables := ts; wholds := hs |}.
Proof.
  intros Hw E. destruct (resolve_cases _ _ _ _ _ _ _ E) as [[-> ->]|Hnew]; [done|].
  destruct Hnew as (p & c & flags & serial & Hp & Hs & Hmax & Eσ & Eown).
  destruct Hw as [Hσ Ho Hst Ht Hh Hb]. simpl in *.
  apply Forall_app in Ho as [Ho1 [Hown Ho2]%Forall_cons].
  destruct (resolve_ok _ _ _ _ _ _ _ Hσ Hown E) as [Hσ' Hown']. clear E.
  set (r := fresh (dom (nodes σ))) in *. set (n := {| nowner := state own |}) in *.
  assert (Hf : nodes σ !! r = None) by (apply not_elem_of_dom, is_fresh).
  rewrite fmap_app, fmap_cons in Hst. pose proof Hst as Hst0.
  apply NoDup_app in Hst as (_ & H1 & [H2 _]%NoDup_cons).
  assert (Hother : forall own1, own1 ∈ os1 ++ os2 -> state own <> state own1).
  { intros own1 [Hin|Hin]%elem_of_app E.
    - apply (H1 (state own)); [|by left]. rewrite E. by apply list_elem_of_fmap_2.
    - apply H2. rewrite E. by apply list_elem_of_fmap_2. }
  subst σ' own'. split; simpl; try done.
  - apply Forall_app. rewrite Forall_cons. rewrite Forall_forall in Ho1, Ho2.
    split_and!; [|done|]; apply Forall_forall; intros own1 Hin; apply table_ok_other; auto;
      apply Hother; set_solver.
  - by rewrite fmap_app, fmap_cons.
  - eapply Forall_impl; [apply Ht|]. intros t [T1 T2 T3 T4]. split; try done.
    intros h e He. specialize (T3 _ _ He). destruct (target e); [|done]. simpl in *.
    apply lookup_insert_is_Some'. by right.
  - eapply Forall_impl; [apply Hh|]. intros h ?. simpl. apply lookup_insert_is_Some'. by right.
  - intros r' n' [[<- <-]|[Hne Hr']]%lookup_insert_Some; [|by apply Hb].
    by eapply balanced_fresh.
Qed.

Lemma world_ok_drop_owner σ os1 own os2 ts hs :
  world_ok {| wstore := σ; wowners := os1 ++ own :: os2; wtables := ts; wholds := hs |} ->
  world_ok {| wstore := drop_owner σ own; wowners := os1 ++ os2; wtables := ts; wholds := hs |}.
Proof.
  intros Hw. pose proof (world_owners _ Hw) as Ho. simpl in Ho.
  apply Forall_app in Ho as [Ho1 [Hown Ho2]%Forall_cons].
  destruct (table_owner _ _ Hown) as [o Hso].
  assert (Hi : inert σ (drop_owner σ own)).
  { unfold drop_owner. rewrite (lookup_total_correct _ _ _ Hso).
    split; [by eapply store_ok_set_owner; [apply Hw|..]|].
    split; [by eapply store_ok_set_owner; [apply Hw|..]|]. by apply shifts_same_nodes. }
  pose proof (world_ok_inert _ _ _ _ _ Hw Hi) as [? ? Hst ? ? ?]. simpl in *.
  split; simpl; try done.
  - eapply owners_frame; [apply Hi|]. by apply Forall_app.
  - rewrite fmap_app in *. apply NoDup_app in Hst as (? & Hd & [_ ?]%NoDup_cons).
    apply NoDup_app. split_and!; try done. intros x Hx Hx2. apply (Hd x Hx). by right.
Qed.

Lemma world_ok_hold σ os ts hs r n k σ' h :
  world_ok {| wstore := σ; wowners := os; wtables := ts; wholds := hs |} ->
  nodes σ !! r = Some n -> hold σ r k = (σ', Ok h) ->
  world_ok {| wstore := σ'; wowners := os; wtables := ts; wholds := h :: hs |}.
Proof.
  intros Hw Hr E. destruct (hold_step _ _ _ _ _ _ (world_store _ Hw) Hr E) as (-> & F & Hs & Hsh).
  eapply world_ok_holds; [done..| |].
  - constructor; [eauto|apply Hw].
  - intros r' k'. unfold count_holds. rewrite zsum_cons. lia.
Qed.

Lemma world_ok_lookup σ os ts hs t handle s σ' h :
  world_ok {| wstore := σ; wowners := os; wtables := ts; wholds := hs |} ->
  t ∈ ts -> ReferenceTable.resolve σ t handle s = (σ', Ok (RLocal h)) ->
  world_ok {| wstore := σ'; wowners := os; wtables := ts; wholds := h :: hs |}.
Proof.
  intros Hw Hin. pose proof (world_tables _ Hw) as Ht. simpl in Ht.
  rewrite Forall_forall in Ht. specialize (Ht _ Hin). unfold ReferenceTable.resolve.
  destruct (t !! handle) as [e|] eqn:Ee; [|done].
  pose proof (handles_target _ _ Ht _ _ Ee) as Htg. destruct (_ && _); [done|].
  destruct (target e) as [r|]; [|done]. destruct Htg as [n Hn].
  destruct (hold σ r HTemporary) as [σ1 [h1|]] eqn:Eh; simpl; intros [= <- <-].
  by eapply world_ok_hold.
Qed.

Lemma world_table σ os ts1 t ts2 hs :
  world_ok {| wstore := σ; wowners := os; wtables := ts1 ++ t :: ts2; wholds := hs |} ->
  handles_ok σ t /\ accounted σ t.
Proof.
  intros Hw. split; [|by eapply world_accounted]. pose proof (world_tables _ Hw) as Ht.
  simpl in Ht. by apply Forall_app in Ht as [_ [Ht _]%Forall_cons].
Qed.

Lemma count_holds_nonneg r k hs : 0 <= count_holds r k hs.
Proof. apply zsum_nonneg. intros h. destruct (is_hold r k h); simpl; lia. Qed.

Lemma world_drop_hold σ os ts hs1 h hs2 :
  world_ok {| wstore := σ; wowners := os; wtables := ts; wholds := hs1 ++ h :: hs2 |} ->
  exists σ', drop_hold σ h = Some σ'.
Proof.
  intros Hw. pose proof (world_holds _ Hw) as Hh. simpl in Hh.
  apply Forall_app in Hh as [_ [[n Hn] _]%Forall_cons].
  destruct (world_balanced _ Hw _ _ Hn) as (_ & _ & Hk). specialize (Hk (hkind h)). simpl in Hk.
  unfold count_holds in Hk. rewrite zsum_app, zsum_cons in Hk. unfold is_hold at 2 in Hk.
  rewrite !bool_decide_true in Hk by done. simpl in Hk.
  pose proof (count_holds_nonneg (hnode h) (hkind h) hs1).
  pose proof (count_holds_nonneg (hnode h) (hkind h) hs2). unfold count_holds in *.
  unfold drop_hold. rewrite (lookup_total_correct _ _ _ Hn).
  destruct (checked_sub _ _) eqn:E; [simpl; eauto|]. apply checked_sub_None in E. lia.
Qed.

Lemma world_step_ok w w' : step w w' -> world_ok w -> world_ok w'.
Proof.
  destruct 1 as [σ os ts hs σ' own E|σ os1 own os2 ts hs rsv object σ' own' res E
    |σ os ts hs own σ' Hin Hop|σ os1 own os2 ts hs|σ os ts hs|σ os ts1 t ts2 hs σ' t' Hop
    |σ os ts1 t ts2 hs σ' E|σ os ts hs t handle s σ' h Hin E|σ os ts hs r n k σ' h Hr E
    |σ os ts hs1 h hs2 σ' E|σ os ts hs own r n σ' c Hr E|σ os ts hs Σ]; intros Hw.
  - by eapply world_ok_new_owner.
  - by eapply world_ok_resolve.
  - pose proof (world_owners _ Hw) as Ho. rewrite Forall_forall in Ho.
    eapply world_ok_inert; [done|]. eapply inert_owner_op; [apply Hw|by apply Ho|done].
  - by eapply world_ok_drop_owner.
  - apply world_ok_empty_table. by rewrite app_nil_r.
  - pose proof (world_tables _ Hw) as Ht. simpl in Ht. apply Forall_app in Ht as [_ [Ht _]%Forall_cons].
    eapply world_ok_table; [done|]. eapply table_op_step; [apply Hw|done..].
  - pose proof (world_tables _ Hw) as Ht. simpl in Ht. apply Forall_app in Ht as [_ [Ht _]%Forall_cons].
    destruct (drop_table_step σ t (world_store _ Hw) Ht (world_accounted _ _ _ _ _ _ Hw))
      as (σ1 & E' & Hs). rewrite E in E'. injection E' as <-.
    apply world_ok_empty_table. by eapply world_ok_table.
  - by eapply world_ok_lookup.
  - by eapply world_ok_hold.
  - pose proof (world_holds _ Hw) as Hh. simpl in Hh. pose proof Hh as Hh0.
    apply Forall_app in Hh as [Hh1 [[n Hn] Hh2]%Forall_cons].
    destruct (drop_hold_step _ _ _ _ (world_store _ Hw) Hn E) as (F & Hs & Hsh).
    eapply world_ok_holds; [done..|by apply Forall_app|]. intros r' k'. unfold count_holds.
    rewrite !zsum_app, zsum_cons. lia.
  - destruct (context_manager_step _ _ _ _ _ _ (world_store _ Hw) Hr E) as (-> & F & Hs & Hsh).
    eapply world_ok_holds; [done..| |].
    + constructor; [eauto|]. constructor; [eauto|]. apply Hw.
    + intros r' k'. unfold count_holds. rewrite !zsum_cons. lia.
  - eapply world_ok_inert; [done|]. apply inert_signals, Hw.
Qed.

(** Nodes never disappear. *)
Lemma step_nodes w w' r :
  step w w' -> world_ok w -> is_Some (nodes (wstore w) !! r) -> is_Some (nodes (wstore w') !! r).
Proof.
  assert (Hf : forall σ σ', frame σ σ' -> is_Some (nodes σ !! r) -> is_Some (nodes σ' !! r)).
  { intros σ σ' F [n Hn]. destruct (frame_node _ _ _ _ F Hn) as (n' & ? & _). eauto. }
  destruct 1 as [σ os ts hs σ' own E|σ os1 own os2 ts hs rsv object σ' own' res E
    |σ os ts hs own σ' Hin Hop|σ os1 own os2 ts hs|σ os ts hs|σ os ts1 t ts2 hs σ' t' Hop
    |σ os ts1 t ts2 hs σ' E|σ os ts hs t handle s σ' h Hin E|σ os ts hs r' n k σ' h Hr E
    |σ os ts hs1 h hs2 σ' E|σ os ts hs own r' n σ' c Hr E|σ os ts hs Σ]; simpl; intros Hw Hn; try done.
  - injection E as <- <-. done.
  - destruct (resolve_cases _ _ _ _ _ _ _ E) as [[-> ->]|(p & c & f & i & _ & _ & _ & -> & _)]; [done|].
    simpl. apply lookup_insert_is_Some'. by right.
  - pose proof (world_owners _ Hw) as Ho. rewrite Forall_forall in Ho.
    eapply Hf; [|done]. eapply inert_owner_op; [apply Hw|by apply Ho|done].
  - eapply Hf; [|done]. eapply table_op_step; [apply Hw|apply (world_table _ _ _ _ _ _ Hw)|done].
  - destruct (world_table _ _ _ _ _ _ Hw) as [Ht Ha].
    destruct (drop_table_step σ t (world_store _ Hw) Ht Ha) as (σ1 & E' & F & _).
    rewrite E in E'. injection E' as <-. by eapply Hf.
  - pose proof (world_ok_lookup _ _ _ _ _ _ _ _ _ Hw Hin E) as Hw'. revert E.
    unfold ReferenceTable.resolve. destruct (t !! handle) as [e|] eqn:Ee; [|done].
    destruct (_ && _); [done|]. destruct (target e) as [r'|] eqn:Et; [|done].
    destruct (hold σ r' HTemporary) as [σ1 [h1|]] eqn:Eh; simpl; intros [= <- <-].
    pose proof (world_tables _ Hw) as Ht. simpl in Ht. rewrite Forall_forall in Ht.
    pose proof (handles_target _ _ (Ht _ Hin) _ _ Ee) as Htg. rewrite Et in Htg. destruct Htg as [n' Hn'].
    eapply Hf; [|done]. by eapply hold_ok; [apply Hw|..].
  - eapply Hf; [|done]. by eapply hold_ok; [apply Hw|..].
  - pose proof (world_holds _ Hw) as Hh. simpl in Hh. apply Forall_app in Hh as [_ [[n Hh] _]%Forall_cons].
    eapply Hf; [|done]. by eapply drop_hold_ok; [apply Hw|..].
  - eapply Hf; [|done]. by eapply acquire_context_manager_refs_ok; [apply Hw|..].
Qed.

Lemma steps_nodes w w' :
  rtc step w w' -> world_ok w ->
  forall r, is_Some (nodes (wstore w) !! r) -> is_Some (nodes (wstore w') !! r).
Proof. induction 1; eauto using step_nodes, world_step_ok. Qed.

Lemma empty_world_ok : world_ok empty_world.
Proof.
  split; simpl; [apply empty_store_ok|constructor..|]. intros r n. by rewrite lookup_empty.
Qed.

Lemma world_reachable_ok w : reachable w -> world_ok w.
Proof.
  unfold reachable. intros H. remember empty_world as w0 eqn:E.
  assert (Hw0 : world_ok w0) by (subst; apply empty_world_ok). clear E.
  induction H; eauto using world_step_ok.
Qed.

(** ** Properties *)

(** whatever the processes do, a node's demand counters are exactly the references
    that exist: [remote_tables] is the number of handle tables that refer to it,
    [strong_tables] the number that refer to it strongly, and the hold counters the number
    of outstanding holds of each kind. *)
Theorem demand_counters_exact w r n (H : reachable w) (Hn : nodes (wstore w) !! r = Some n) :
  remote_tables (lifecycle n) = zsum (map_count (refers r)) (wtables w) /\
  strong_tables (lifecycle n) = zsum (map_count (refers_strongly r)) (wtables w) /\
  forall k, local_count (lifecycle n) k = count_holds r k (wholds w).
Proof. by apply (world_balanced _ (world_reachable_ok _ H)). Qed.

(** releasing never panics.  In every reachable state, dropping any hold, dropping any
    handle table, and giving back any reference that a handle counts succeeds: the
    [expect]s of the two [Drop] implementations never fire and a decrement is never refused
    for the node's state. *)
Theorem release_never_panics w (H : reachable w) :
  (forall h, h ∈ wholds w -> exists σ', drop_hold (wstore w) h = Some σ') /\
  (forall t, t ∈ wtables w -> exists σ', drop_table (wstore w) t = Some σ') /\
  (forall t handle e s, t ∈ wtables w -> t !! handle = Some e ->
     0 < get_count (counts_of e) s ->
     exists σ' t' after, decrement (wstore w) t handle s = (σ', t', Ok (counts_of e, after))).
Proof.
  apply world_reachable_ok in H. destruct w as [σ os ts hs]. simpl. split_and!.
  - intros h (hs1 & hs2 & ->)%list_elem_of_split. by eapply world_drop_hold.
  - intros t (ts1 & ts2 & ->)%list_elem_of_split.
    destruct (world_table _ _ _ _ _ _ H) as [Ht Ha].
    destruct (drop_table_step σ t (world_store _ H) Ht Ha) as (σ' & ? & _). eauto.
  - intros t handle e s (ts1 & ts2 & ->)%list_elem_of_split He Hpos.
    destruct (world_table _ _ _ _ _ _ H) as [Ht Ha].
    destruct (decrement_Ok σ t handle s e Ht Ha He Hpos) as (σ' & t' & ?). eauto.
Qed.

(** One process publishes a node, another takes a strong handle on it and looks it up. *)
Definition example_retained_world : World :=
  let '(σ, own) := example_resolved in
  let '(σ, t, _) := retain σ ∅ 1%positive Strong in
  let '(σ, _) := hold σ 1%positive HTemporary in
  {| wstore := σ; wowners := [own]; wtables := [t];
     wholds := [{| hnode := 1%positive; hkind := HTemporary |}] |}.

Lemma example_retained_world_reachable : reachable example_retained_world.
Proof.
  unfold reachable, example_retained_world, example_resolved.
  destruct (new empty_store) as [σ0 own0] eqn:E0.
  destruct (NodeOwner.resolve reserve_ok σ0 own0 example_object) as [[σ1 own1] res1] eqn:E1.
  destruct (retain σ1 ∅ 1%positive Strong) as [[σ2 t2] res2] eqn:E2.
  destruct (hold σ2 1%positive HTemporary) as [σ3 res3] eqn:E3.
  assert (Hn1 : exists n, nodes σ1 !! 1%positive = Some n).
  { vm_compute in E0. injection E0 as <- <-. vm_compute in E1. injection E1 as <- <- <-.
    eexists. vm_compute. reflexivity. }
  assert (H3 : (exists n, nodes σ2 !! 1%positive = Some n) /\
               res3 = Ok {| hnode := 1%positive; hkind := HTemporary |}).
  { vm_compute in E0. injection E0 as <- <-. vm_compute in E1. injection E1 as <- <- <-.
    vm_compute in E2. injection E2 as <- <- <-. vm_compute in E3. injection E3 as <- <-.
    split; [eexists; vm_compute; reflexivity|reflexivity]. }
  destruct Hn1 as [n1 Hn1], H3 as [[n2 Hn2] ->].
  apply (rtc_l _ _ _ _ (step_new_owner _ _ _ _ _ _ E0)).
  apply (rtc_l _ _ _ _ (step_resolve _ [] _ [] _ _ _ _ _ _ _ E1)).
  apply (rtc_l _ _ _ _ (step_new_table _ _ _ _)).
  eapply (rtc_l _ _ _ _ (step_table_op _ _ [] ∅ [] _ _ _ (op_retain _ _ _ _ (Local 1%positive)
    Strong 1 res2 _ _ E2))).
  apply (rtc_l _ _ _ _ (step_hold _ _ _ _ _ _ _ _ _ Hn2 E3)). apply rtc_refl.
  Unshelve.
  - by exists n1.
  - unfold u32_max. lia.
Qed.

Lemma demand_counters_exact_witness :
  exists n, nodes (wstore example_retained_world) !! 1%positive = Some n /\
    strong_tables (lifecycle n) = zsum (map_count (refers_strongly 1%positive))
                                    (wtables example_retained_world) /\
    strong_tables (lifecycle n) = 1.
Proof.
  destruct (nodes (wstore example_retained_world) !! 1%positive) as [n|] eqn:E.
  - exists n. split; [reflexivity|]. split.
    + exact (proj1 (proj2 (demand_counters_exact _ _ _ example_retained_world_reachable E))).
    + vm_compute in E. injection E as <-. reflexivity.
  - vm_compute in E. discriminate E.
Defined.

Lemma release_never_panics_witness :
  exists σ', drop_hold (wstore example_retained_world)
               {| hnode := 1%positive; hkind := HTemporary |} = Some σ'.
Proof.
  apply (proj1 (release_never_panics _ example_retained_world_reachable)).
  vm_compute. left.
Defined.
