(* ===== verification/Session.v ===== *)
(** * The resources of one connection ([session.rs], [session/], [transaction_objects.rs],
      [remote_objects.rs])

    A session owns the connection's node table and its handle table.  Commands, the translation
    of Binder objects between processes and the choice of a transaction's target are compositions
    of operations of those two tables on the shared [Store].

    Holds are dropped where the source drops them; [None] is the panic of such a [Drop]. *)
From S2P Require Import Prelude Command AuthorityProtocol Objects TransactionRequest NodeWork WorkSignal.
From S2P Require Import NodeOwner ReferenceTable World.

(** ** [session.rs] *)

Record Session : Type := { sowner : NodeOwner; srefs : ReferenceTable }.

Definition set_sowner (s : Session) (own : NodeOwner) : Session := {| sowner := own; srefs := srefs s |}.
Definition set_srefs (s : Session) (t : ReferenceTable) : Session := {| sowner := sowner s; srefs := t |}.

(** [Session::default]. *)
Definition new_session (σ : Store) : Store * Session :=
  let '(σ, own) := NodeOwner.new σ in (σ, {| sowner := own; srefs := ∅ |}).

(** Dropping a session drops its fields in order: the owner, then the references. *)
Definition drop_session (σ : Store) (s : Session) : option Store :=
  drop_table (drop_owner σ (sowner s)) (srefs s).

Definition owns_node (σ : Store) (s : Session) (r : NodeRef) : bool := owns σ (sowner s) r.

Definition resolve_local (rsv : Reserve) (σ : Store) (s : Session) (object : Object)
    : Store * Session * result NodeRef NodeOwner.Error :=
  let '(σ, own, res) := NodeOwner.resolve rsv σ (sowner s) object in (σ, set_sowner s own, res).

Definition lookup_local_node (s : Session) (token : LocalNodeToken) : result NodeRef NodeOwner.Error :=
  lookup_local (sowner s) token.

Definition retain_transferred (σ : Store) (s : Session) (node : NodeRef) (st : Strength)
    : Store * Session * result (Z * Counts * Counts) ReferenceTable.Error :=
  let '(σ, t, res) := ReferenceTable.retain σ (srefs s) node st in (σ, set_srefs s t, res).

Definition retain_remote (σ : Store) (s : Session) (node : NodeToken) (st : Strength)
    : Store * Session * result (Z * Counts * Counts) ReferenceTable.Error :=
  let '(σ, t, res) := ReferenceTable.retain_remote σ (srefs s) node st in (σ, set_srefs s t, res).

Definition retain_remote_context_manager (σ : Store) (s : Session) (node : NodeToken) (st : Strength)
    : Store * Session * result (Z * Counts * Counts) ReferenceTable.Error :=
  let '(σ, t, res) := ReferenceTable.retain_remote_context_manager σ (srefs s) node st in
  (σ, set_srefs s t, res).

(** [context_reference::Outcome]. *)
Record ContextOutcome : Type :=
  { cbytes : Z; cupdate : result (Z * Counts * Counts) ReferenceTable.Error }.

Inductive Error : Type :=
| EFraming (e : Command.DecodeError)
| EUnsupported (k : Command.Kind)
| EReference (e : CommandError)
| EAcknowledgement (e : AckError).

Inductive Outcome : Type :=
| ContextReference (o : ContextOutcome)
| OReference (o : ReferenceTable.Outcome)
| OAcknowledgement (o : AckOutcome).

(** [Outcome::bytes]. *)
Definition outcome_bytes (o : Outcome) : Z :=
  match o with
  | ContextReference o => cbytes o
  | OReference o => ReferenceTable.obytes o
  | OAcknowledgement o => abytes o
  end.

Definition execute (σ : Store) (s : Session) (input : bytes) : Store * Session * result Outcome Error :=
  match Command.decode input with
  | Err e => (σ, s, Err (EFraming e))
  | Ok (decoded, _) =>
      match Command.kind decoded with
      | Command.Increfs | Command.Acquire | Command.Release | Command.Decrefs =>
          let '(σ, t, res) := dispatch σ (srefs s) input in
          (σ, set_srefs s t, map_err EReference (result_map OReference res))
      | Command.IncrefsDone | Command.AcquireDone =>
          let '(σ, res) := ack_dispatch σ (sowner s) input in
          (σ, s, map_err EAcknowledgement (result_map OAcknowledgement res))
      | kind => (σ, s, Err (EUnsupported kind))
      end
  end.

Definition read_node_work (σ : Store) (s : Session) (output : bytes)
    : Store * bytes * result Z Errno :=
  read_pending_node_work σ (sowner s) output.

Definition remote_node_for_handle (s : Session) (handle : Z) : result NodeToken ReferenceTable.Error :=
  remote_node (srefs s) handle.

(** ** [session/context_reference.rs] *)

(** The update of handle zero: with a manager at hand an acquire retains it. *)
Definition update_zero (σ : Store) (t : ReferenceTable) (manager : option NodeRef) (st : Strength)
    (incr : bool) : Store * ReferenceTable * result (Z * Counts * Counts) ReferenceTable.Error :=
  match incr, manager with
  | true, Some manager => retain_context_manager σ t manager st
  | _, _ =>
      match counts t 0 with
      | Err e => (σ, t, Err e)
      | Ok c =>
          if bool_decide (st = Strong) && (strong c =? 0) then (σ, t, Err StrongRequired)
          else
            let '(σ, t, res) := if incr then increment σ t 0 st else decrement σ t 0 st in
            (σ, t, result_map (fun '(before, after) => (0, before, after)) res)
      end
  end.

Definition execute_context_reference (σ : Store) (s : Session) (input : bytes)
    (manager : option NodeRef) : Store * Session * result ContextOutcome Error :=
  match Command.decode input with
  | Err e => (σ, s, Err (EFraming e))
  | Ok (command, n) =>
      let run st incr :=
        if negb (u32_at (Command.payload command) 0 =? 0)
        then (σ, s, Err (EUnsupported (Command.kind command)))
        else
          let '(σ, t, update) := update_zero σ (srefs s) manager st incr in
          (σ, set_srefs s t, Ok {| cbytes := n; cupdate := update |}) in
      match Command.kind command with
      | Command.Increfs => run Weak true
      | Command.Acquire => run Strong true
      | Command.Release => run Strong false
      | Command.Decrefs => run Weak false
      | kind => (σ, s, Err (EUnsupported kind))
      end
  end.

(** ** [session/context_manager.rs] *)

Inductive ManagerError : Type := MNode (e : NodeOwner.Error) | MResource (e : Errno).

Definition create_context_manager_refs (rsv : Reserve) (σ : Store) (s : Session) (object : Object)
    : Store * Session * result ContextManagerRefs ManagerError :=
  match resolve_local rsv σ s object with
  | (σ, s, Err e) => (σ, s, Err (MNode e))
  | (σ, s, Ok node) =>
      let '(σ, res) := acquire_context_manager_refs σ (sowner s) node in
      (σ, s, map_err MResource res)
  end.

(** ** [session/transaction_target.rs] *)

Inductive TargetError : Type :=
| ContextManagerRequired | ReplyStackRequired | TReference (e : ReferenceTable.Error) | DeadTarget
| SelfTransaction | HoldFailed (e : Errno) | RemoteTarget.

Record TargetReferences : Type := { tstrong : LocalHold; ttemporary : LocalHold }.

Inductive ResolvedTransactionTarget : Type :=
| TLocal (refs : TargetReferences) | TRemote (node : NodeToken).

(** The holds a successful resolution hands out. *)
Definition target_holds (res : result ResolvedTransactionTarget TargetError) : list LocalHold :=
  match res with Ok (TLocal refs) => [tstrong refs; ttemporary refs] | _ => [] end.

(** [TargetReferences::for_context_node]. *)
Definition for_context_node (σ : Store) (node : NodeRef)
    : option (Store * result TargetReferences TargetError) :=
  if negb (owner_alive σ node) then Some (σ, Err DeadTarget)
  else
    match hold σ node HTemporary with
    | (σ, Err e) => Some (σ, Err (HoldFailed e))
    | (σ, Ok temporary) =>
        match hold σ node HStrong with
        | (σ, Err e) => σ ← drop_hold σ temporary; Some (σ, Err (HoldFailed e))
        | (σ, Ok strong) => Some (σ, Ok {| tstrong := strong; ttemporary := temporary |})
        end
    end.

Definition resolve_transaction_route (σ : Store) (s : Session) (request : Request)
    : option (Store * result ResolvedTransactionTarget TargetError) :=
  match TransactionRequest.target request with
  | TReply => Some (σ, Err ReplyStackRequired)
  | THandle handle =>
      match ReferenceTable.resolve σ (srefs s) handle Strong with
      | (σ, Err UnknownHandle) =>
          Some (σ, Err (if handle =? 0 then ContextManagerRequired else TReference UnknownHandle))
      | (σ, Err e) => Some (σ, Err (TReference e))
      | (σ, Ok (RRemote node)) => Some (σ, Ok (TRemote node))
      | (σ, Ok (RLocal temporary)) =>
          let node := hnode temporary in
          if negb (owner_alive σ node) then
            σ ← drop_hold σ temporary; Some (σ, Err DeadTarget)
          else if owns σ (sowner s) node then
            σ ← drop_hold σ temporary; Some (σ, Err SelfTransaction)
          else
            match hold σ node HStrong with
            | (σ, Err e) => σ ← drop_hold σ temporary; Some (σ, Err (HoldFailed e))
            | (σ, Ok strong) =>
                Some (σ, Ok (TLocal {| tstrong := strong; ttemporary := temporary |}))
            end
      end
  end.

(** The holds of a target drop in field order. *)
Definition drop_target (σ : Store) (refs : TargetReferences) : option Store :=
  σ ← drop_hold σ (tstrong refs); drop_hold σ (ttemporary refs).

Definition resolve_transaction_target (σ : Store) (s : Session) (request : Request)
    : option (Store * result TargetReferences TargetError) :=
  '(σ, res) ← resolve_transaction_route σ s request;
  Some (σ, match res with
           | Ok (TLocal refs) => Ok refs
           | Ok (TRemote _) => Err RemoteTarget
           | Err e => Err e
           end).

(** ** [transaction_objects.rs] *)

(** [Arc<Node>] keeps the node's memory, not a counted reference. *)
Record Resolved : Type := { rnode : NodeRef; rstrength : Strength; rflags : Z; roffset : Z }.

Record Rewrite : Type := { woffset : Z; wbytes : bytes }.

Record Rollback : Type := { bhandle : Z; bstrength : Strength }.

Inductive RemoteError : Type :=
| RObjects (e : Objects.Error)
| RUnsupported (k : Objects.Kind)
| RSenderNode (e : NodeOwner.Error)
| RSenderReference (e : ReferenceTable.Error)
| RReceiverReference (e : ReferenceTable.Error)
| RReceiverNode (e : NodeOwner.Error)
| RWrongOwner
| RInvalidManifest
| ROutOfMemory.

Inductive ObjectError : Type :=
| XObjects (e : Objects.Error)
| XUnsupported (k : Objects.Kind)
| XSenderNode (e : NodeOwner.Error)
| XSenderReference (e : ReferenceTable.Error)
| XReceiverReference (e : ReferenceTable.Error)
| XRemote (e : RemoteError).

(** [if weak { Strength::Weak } else { Strength::Strong }]. *)
Definition strength (weak : bool) : Strength := if weak then Weak else Strong.

Definition resolve_transaction_object (rsv : Reserve) (σ : Store) (s : Session) (object : Object)
    : option (Store * Session * result Resolved ObjectError) :=
  match fields object with
  | FNode weak flags _ _ =>
      let '(σ, s, res) := resolve_local rsv σ s object in
      Some (σ, s,
        match res with
        | Ok node => Ok {| rnode := node; rstrength := strength weak; rflags := flags;
                           roffset := offset object |}
        | Err e => Err (XSenderNode e)
        end)
  | FHandle weak flags handle _ =>
      match ReferenceTable.lookup σ (srefs s) handle (strength weak) with
      | (σ, Err e) => Some (σ, s, Err (XSenderReference e))
      | (σ, Ok hold) =>
          σ ← drop_hold σ hold;
          Some (σ, s, Ok {| rnode := hnode hold; rstrength := strength weak; rflags := flags;
                            roffset := offset object |})
      end
  | _ => Some (σ, s, Err (XUnsupported (kind object)))
  end.

Definition binder_kind (st : Strength) : Objects.Kind :=
  match st with Strong => Binder | Weak => WeakBinder end.
Definition handle_kind (st : Strength) : Objects.Kind :=
  match st with Strong => Handle | Weak => WeakHandle end.

(** The words [install_transaction_object] and [install_remote_object] write. *)
Definition node_object (st : Strength) (flags p c : Z) : bytes :=
  let bs := copy_at 4 (u32_le flags) (zeroed 24) in
  let bs := copy_at 0 (u32_le (tag (binder_kind st))) bs in
  let bs := copy_at 8 (u64_le p) bs in
  copy_at 16 (u64_le c) bs.
Definition handle_object (st : Strength) (flags handle : Z) : bytes :=
  let bs := copy_at 4 (u32_le flags) (zeroed 24) in
  let bs := copy_at 0 (u32_le (tag (handle_kind st))) bs in
  copy_at 8 (u32_le handle) bs.

Definition install_transaction_object (σ : Store) (s : Session) (resolved : Resolved)
    : Store * Session * result (Rewrite * option Rollback) ObjectError :=
  let st := rstrength resolved in
  if owns_node σ s (rnode resolved) then
    let n := nodes σ !!! rnode resolved in
    (σ, s, Ok ({| woffset := roffset resolved;
                  wbytes := node_object st (rflags resolved) (pointer n) (cookie n) |}, None))
  else
    match retain_transferred σ s (rnode resolved) st with
    | (σ, s, Err e) => (σ, s, Err (XReceiverReference e))
    | (σ, s, Ok (handle, _, _)) =>
        (σ, s, Ok ({| woffset := roffset resolved;
                      wbytes := handle_object st (rflags resolved) handle |},
                   Some {| bhandle := handle; bstrength := st |}))
    end.

Definition rollback_transaction_object (σ : Store) (s : Session) (rollback : Rollback)
    : Store * Session * result unit ObjectError :=
  let '(σ, t, res) := decrement σ (srefs s) (bhandle rollback) (bstrength rollback) in
  (σ, set_srefs s t, map_err XReceiverReference (result_map (fun _ => tt) res)).

(** [Binder | WeakBinder | Handle | WeakHandle]. *)
Definition is_reference (k : Objects.Kind) : bool :=
  match k with Binder | WeakBinder | Handle | WeakHandle => true | _ => false end.

Fixpoint validate_supported (objects : list Object) : result unit ObjectError :=
  match objects with
  | [] => Ok tt
  | object :: objects =>
      if negb (is_reference (kind object)) then Err (XUnsupported (kind object))
      else validate_supported objects
  end.

(** ** [remote_objects.rs] *)

Inductive OutboundSource : Type := SLocal (token : LocalNodeToken) | SRemote (node : NodeToken).

Record OutboundObject : Type :=
  { ooffset : Z; osource : OutboundSource; ostrength : Strength; oflags : Z }.

Record ManifestObject : Type :=
  { moffset : Z; mnode : NodeToken; mstrength : Strength; mflags : Z }.

#[export] Instance ManifestObject_eq_dec : EqDecision ManifestObject.
Proof. solve_decision. Defined.

(** [Node::local_token]; serials start at one. *)
Definition local_token (σ : Store) (r : NodeRef) : LocalNodeToken := local_id (nodes σ !!! r).

(** One object of [resolve_remote_objects]: [Ok None] is its [continue]. *)
Definition resolve_remote_object (rsv : Reserve) (σ : Store) (s : Session) (object : Object)
    : option (Store * Session * result (option OutboundObject) RemoteError) :=
  let out source st flags :=
    Ok (Some {| ooffset := offset object; osource := source; ostrength := st; oflags := flags |}) in
  match fields object with
  | FNode weak flags _ _ =>
      match resolve_local rsv σ s object with
      | (σ, s, Err e) => Some (σ, s, Err (RSenderNode e))
      | (σ, s, Ok node) => Some (σ, s, out (SLocal (local_token σ node)) (strength weak) flags)
      end
  | FHandle weak flags handle _ =>
      match ReferenceTable.resolve σ (srefs s) handle (strength weak) with
      | (σ, Err e) => Some (σ, s, Err (RSenderReference e))
      | (σ, Ok (RRemote node)) => Some (σ, s, out (SRemote node) (strength weak) flags)
      | (σ, Ok (RLocal hold)) =>
          let res := if owns_node σ s (hnode hold)
                     then out (SLocal (local_token σ (hnode hold))) (strength weak) flags
                     else Err RWrongOwner in
          σ ← drop_hold σ hold; Some (σ, s, res)
      end
  | _ => Some (σ, s, Ok None)
  end.

(** The loop over the objects; object [i] reserves below [[i]]. *)
Fixpoint resolve_remote_loop (rsv : Reserve) (σ : Store) (s : Session) (i : nat)
    (objects : list Object) : option (Store * Session * result (list OutboundObject) RemoteError) :=
  match objects with
  | [] => Some (σ, s, Ok [])
  | object :: objects =>
      '(σ, s, res) ← resolve_remote_object (below i rsv) σ s object;
      match res with
      | Err e => Some (σ, s, Err e)
      | Ok entry =>
          '(σ, s, rest) ← resolve_remote_loop rsv σ s (S i) objects;
          Some (σ, s, result_map (fun rest => option_list entry ++ rest) rest)
      end
  end.

Definition resolve_remote_objects (rsv : Reserve) (σ : Store) (s : Session) (data offsets : bytes)
    : option (Store * Session * result (list OutboundObject) RemoteError) :=
  match validate (below 0 rsv) data offsets with
  | Err e => Some (σ, s, Err (RObjects e))
  | Ok objects =>
      if negb (rsv [1%nat]) then Some (σ, s, Err ROutOfMemory)
      else resolve_remote_loop (below 2 rsv) σ s 0 objects
  end.

Definition install_remote_object (σ : Store) (s : Session) (receiver : ConnectionToken)
    (object : ManifestObject) : Store * Session * result (Rewrite * option Rollback) RemoteError :=
  let st := mstrength object in
  if owner (mnode object) =? receiver then
    match lookup_local_node s (local (mnode object)) with
    | Err e => (σ, s, Err (RReceiverNode e))
    | Ok node =>
        let n := nodes σ !!! node in
        (σ, s, Ok ({| woffset := moffset object;
                      wbytes := node_object st (mflags object) (pointer n) (cookie n) |}, None))
    end
  else
    match retain_remote σ s (mnode object) st with
    | (σ, s, Err e) => (σ, s, Err (RReceiverReference e))
    | (σ, s, Ok (handle, _, _)) =>
        (σ, s, Ok ({| woffset := moffset object;
                      wbytes := handle_object st (mflags object) handle |},
                   Some {| bhandle := handle; bstrength := st |}))
    end.

(** The comparison of one object with its entry. *)
Definition manifest_entry (object : Object) (entry : ManifestObject) : result unit RemoteError :=
  let? (weak, flags) :=
    match fields object with
    | FNode weak flags _ _ | FHandle weak flags _ _ => Ok (weak, flags)
    | _ => Err (RUnsupported (kind object))
    end in
  ensure ((offset object =? moffset entry) && bool_decide (strength weak = mstrength entry) &&
          (flags =? mflags entry)) RInvalidManifest.

Fixpoint manifest_entries (pairs : list (Object * ManifestObject)) : result unit RemoteError :=
  match pairs with
  | [] => Ok tt
  | (object, entry) :: pairs =>
      let? _ := manifest_entry object entry in manifest_entries pairs
  end.

Definition validate_manifest (objects : list Object) (manifest : list ManifestObject)
    : result unit RemoteError :=
  let reference_objects := filter (fun o => is_reference (kind o) = true) objects in
  if negb (length reference_objects =? length manifest)%nat then Err RInvalidManifest
  else manifest_entries (zip reference_objects manifest).

Fixpoint validate_delivery_objects (objects : list Object) : result unit RemoteError :=
  match objects with
  | [] => Ok tt
  | object :: objects =>
      if negb (is_reference (kind object) || bool_decide (kind object = Fd))
      then Err (RUnsupported (kind object))
      else validate_delivery_objects objects
  end.

(** ** Specification *)

(** The operations the connection offers, with their arguments. *)
Inductive Op : Type :=
| OpResolveLocal (rsv : Reserve) (object : Object)
| OpRetain (node : NodeRef) (st : Strength)
| OpRetainRemote (node : NodeToken) (st : Strength)
| OpRetainManager (node : NodeToken) (st : Strength)
| OpExecute (input : bytes)
| OpContextReference (input : bytes) (manager : option NodeRef)
| OpContextManager (rsv : Reserve) (object : Object)
| OpTarget (request : Request)
| OpReadWork (output : bytes)
| OpAttach (signal : SignalRef)
| OpBind (id : ConnectionId)
| OpResolveObject (rsv : Reserve) (object : Object)
| OpInstall (resolved : Resolved)
| OpRollback (rollback : Rollback)
| OpResolveRemote (rsv : Reserve) (data offsets : bytes)
| OpInstallRemote (receiver : ConnectionToken) (object : ManifestObject).

Definition manager_holds (res : result ContextManagerRefs ManagerError) : list LocalHold :=
  match res with Ok c => [cstrong c; cweak c] | Err _ => [] end.

(** Running an operation: the new state and the holds it hands out. *)
Definition run (σ : Store) (s : Session) (op : Op) : option (Store * Session * list LocalHold) :=
  match op with
  | OpResolveLocal rsv object => let '(σ, s, _) := resolve_local rsv σ s object in Some (σ, s, [])
  | OpRetain node st => let '(σ, s, _) := retain_transferred σ s node st in Some (σ, s, [])
  | OpRetainRemote node st => let '(σ, s, _) := retain_remote σ s node st in Some (σ, s, [])
  | OpRetainManager node st =>
      let '(σ, s, _) := retain_remote_context_manager σ s node st in Some (σ, s, [])
  | OpExecute input => let '(σ, s, _) := execute σ s input in Some (σ, s, [])
  | OpContextReference input manager =>
      let '(σ, s, _) := execute_context_reference σ s input manager in Some (σ, s, [])
  | OpContextManager rsv object =>
      let '(σ, s, res) := create_context_manager_refs rsv σ s object in Some (σ, s, manager_holds res)
  | OpTarget request =>
      '(σ, res) ← resolve_transaction_route σ s request; Some (σ, s, target_holds res)
  | OpReadWork output => let '(σ, _, _) := read_node_work σ s output in Some (σ, s, [])
  | OpAttach signal => Some (attach_work_signal σ (sowner s) signal, s, [])
  | OpBind id => Some ((bind_routing_id σ (sowner s) id).1, s, [])
  | OpResolveObject rsv object =>
      '(σ, s, _) ← resolve_transaction_object rsv σ s object; Some (σ, s, [])
  | OpInstall resolved => let '(σ, s, _) := install_transaction_object σ s resolved in Some (σ, s, [])
  | OpRollback rollback => let '(σ, s, _) := rollback_transaction_object σ s rollback in Some (σ, s, [])
  | OpResolveRemote rsv data offsets =>
      '(σ, s, _) ← resolve_remote_objects rsv σ s data offsets; Some (σ, s, [])
  | OpInstallRemote receiver object =>
      let '(σ, s, _) := install_remote_object σ s receiver object in Some (σ, s, [])
  end.

(** A node passed to an operation is an [Arc]: it exists. *)
Definition op_ok (σ : Store) (op : Op) : Prop :=
  match op with
  | OpRetain node _ | OpContextReference _ (Some node) => is_Some (nodes σ !! node)
  | OpInstall resolved => is_Some (nodes σ !! rnode resolved)
  | _ => True
  end.

(** ** Lemmas *)

(** A world with a session in it. *)
Section embedding.
Context (os1 os2 : list NodeOwner) (ts1 ts2 : list ReferenceTable).

Definition with_session (σ : Store) (s : Session) (hs : list LocalHold) : World :=
  {| wstore := σ; wowners := os1 ++ sowner s :: os2; wtables := ts1 ++ srefs s :: ts2; wholds := hs |}.

Local Abbreviation steps σ s hs σ' s' hs' :=
  (rtc step (with_session σ s hs) (with_session σ' s' hs')).

Lemma steps_ok σ s hs w : world_ok (with_session σ s hs) -> rtc step (with_session σ s hs) w -> world_ok w.
Proof. intros Hw H. revert Hw. induction H; eauto using world_step_ok. Qed.

Lemma steps_table σ s hs σ' t' : table_op σ (srefs s) σ' t' -> steps σ s hs σ' (set_srefs s t') hs.
Proof. intros H. apply rtc_once. by apply step_table_op. Qed.

Lemma steps_owner σ s hs σ' : owner_op (sowner s) σ σ' -> steps σ s hs σ' s hs.
Proof. intros H. apply rtc_once. eapply step_owner_op; [|done]. set_solver. Qed.

Lemma steps_drop σ s hs h σ' : drop_hold σ h = Some σ' -> steps σ s (h :: hs) σ' s hs.
Proof. intros H. apply rtc_once. by apply (step_drop_hold _ _ _ [] h hs). Qed.

Lemma steps_hold σ s hs r n k σ' h :
  nodes σ !! r = Some n -> hold σ r k = (σ', Ok h) -> steps σ s hs σ' s (h :: hs).
Proof. intros. apply rtc_once. by eapply step_hold. Qed.

Lemma steps_lookup σ s hs handle st σ' h :
  ReferenceTable.resolve σ (srefs s) handle st = (σ', Ok (RLocal h)) -> steps σ s hs σ' s (h :: hs).
Proof. intros. apply rtc_once. eapply step_lookup; [|done]. set_solver. Qed.

Lemma world_drop_first σ s h hs :
  world_ok (with_session σ s (h :: hs)) -> exists σ', drop_hold σ h = Some σ'.
Proof. intros Hw. by apply (world_drop_hold σ _ _ [] h hs) in Hw. Qed.

(** Holds name existing nodes. *)
Lemma world_hold_node σ s h hs :
  world_ok (with_session σ s (h :: hs)) -> exists n, nodes σ !! hnode h = Some n.
Proof. intros Hw. pose proof (world_holds _ Hw) as [? _]%Forall_cons. done. Qed.

Lemma steps_resolve_local rsv σ s hs object σ' s' res :
  resolve_local rsv σ s object = (σ', s', res) -> steps σ s hs σ' s' hs.
Proof.
  unfold resolve_local. destruct (NodeOwner.resolve _ _ _ _) as [[σ1 own1] res1] eqn:E.
  intros [= <- <- <-]. apply rtc_once. by eapply step_resolve.
Qed.

Lemma resolve_Err σ t handle st σ' e : ReferenceTable.resolve σ t handle st = (σ', Err e) -> σ' = σ.
Proof.
  unfold ReferenceTable.resolve. destruct (t !! handle) as [ref|]; [|by intros [= <- _]].
  destruct (_ && _); [by intros [= <- _]|]. destruct (ReferenceTable.target ref); [|done].
  unfold hold. by destruct (bounded_succ _); intros [= <- _].
Qed.

Lemma hold_Err σ r k σ' e : hold σ r k = (σ', Err e) -> σ' = σ.
Proof. unfold hold. by destruct (bounded_succ _); intros [= <- _]. Qed.

Lemma steps_retain σ s hs tg st start σ' t' res :
  target_ok σ tg -> 0 <= start <= u32_max -> retain_from σ (srefs s) tg st start = (σ', t', res) ->
  steps σ s hs σ' (set_srefs s t') hs.
Proof. intros. apply steps_table. by eapply op_retain. Qed.

Lemma start_ok : 0 <= 1 <= u32_max /\ 0 <= 0 <= u32_max.
Proof. unfold u32_max. lia. Qed.

Lemma steps_retain_transferred σ s hs node st σ' s' res :
  is_Some (nodes σ !! node) -> retain_transferred σ s node st = (σ', s', res) -> steps σ s hs σ' s' hs.
Proof.
  intros Hn. unfold retain_transferred, ReferenceTable.retain.
  destruct (retain_from _ _ _ _ _) as [[σ1 t1] res1] eqn:E. intros [= <- <- <-].
  exact (steps_retain _ _ _ (Local node) st 1 _ _ _ Hn (proj1 start_ok) E).
Qed.

Lemma steps_retain_remote σ s hs node st σ' s' res :
  retain_remote σ s node st = (σ', s', res) -> steps σ s hs σ' s' hs.
Proof.
  unfold retain_remote, ReferenceTable.retain_remote.
  destruct (retain_from _ _ _ _ _) as [[σ1 t1] res1] eqn:E. intros [= <- <- <-].
  exact (steps_retain _ _ _ (Remote node) st 1 _ _ _ I (proj1 start_ok) E).
Qed.

Lemma set_srefs_id s : set_srefs s (srefs s) = s.
Proof. by destruct s. Qed.

Lemma steps_execute σ s hs input σ' s' res :
  execute σ s input = (σ', s', res) -> steps σ s hs σ' s' hs.
Proof.
  unfold execute. destruct (Command.decode input) as [[c n]|] eqn:Ed; [|intros [= <- <- <-]; apply rtc_refl].
  assert (Ht : forall σ1 t1 r1, dispatch σ (srefs s) input = (σ1, t1, r1) ->
                 steps σ s hs σ1 (set_srefs s t1) hs).
  { intros. apply steps_table. by eapply op_command. }
  assert (Ha : forall σ1 r1, ack_dispatch σ (sowner s) input = (σ1, r1) -> steps σ s hs σ1 s hs).
  { intros σ1 r1. unfold ack_dispatch. rewrite Ed.
    destruct (Command.kind c); try (intros [= <- <-]; apply rtc_refl).
    all: destruct (NodeOwner.acknowledge _ _ _ _ _) as [σ2 r2] eqn:E; intros [= <- <-].
    all: apply steps_owner; by eapply op_acknowledge. }
  destruct (dispatch _ _ _) as [[σ1 t1] r1], (ack_dispatch _ _ _) as [σ2 r2].
  destruct (Command.kind c); intros [= <- <- <-]; try apply rtc_refl; eauto.
Qed.

Lemma steps_update_zero σ s hs manager st incr σ' t' res :
  match manager with Some node => is_Some (nodes σ !! node) | None => True end ->
  update_zero σ (srefs s) manager st incr = (σ', t', res) -> steps σ s hs σ' (set_srefs s t') hs.
Proof.
  intros Hm.
  assert (Hr : forall res', (σ, srefs s, res') = (σ', t', res) -> steps σ s hs σ' (set_srefs s t') hs).
  { intros res' [= <- <- _]. rewrite set_srefs_id. apply rtc_refl. }
  assert (Hi : forall σ1 t1 r1, increment σ (srefs s) 0 st = (σ1, t1, r1) ->
                 steps σ s hs σ1 (set_srefs s t1) hs).
  { intros. apply steps_table. by eapply op_increment. }
  assert (Hd : forall σ1 t1 r1, decrement σ (srefs s) 0 st = (σ1, t1, r1) ->
                 steps σ s hs σ1 (set_srefs s t1) hs).
  { intros. apply steps_table. by eapply op_decrement. }
  unfold update_zero. destruct incr, manager as [m|].
  1: { exact (steps_retain _ _ _ (Local m) st 0 _ _ _ Hm (proj2 start_ok)). }
  all: destruct (counts _ _); [|by apply Hr]; destruct (_ && _); [by apply Hr|].
  1: destruct (increment _ _ _ _) as [[σ1 t1] r1].
  2,3: destruct (decrement _ _ _ _) as [[σ1 t1] r1].
  all: intros [= <- <- _]; eauto.
Qed.

Lemma steps_context_reference σ s hs input manager σ' s' res :
  op_ok σ (OpContextReference input manager) ->
  execute_context_reference σ s input manager = (σ', s', res) -> steps σ s hs σ' s' hs.
Proof.
  intros Hm. unfold execute_context_reference.
  destruct (Command.decode input) as [[c n]|]; [|intros [= <- <- <-]; apply rtc_refl].
  destruct (Command.kind c); try (intros [= <- <- <-]; apply rtc_refl).
  all: destruct (negb _); [intros [= <- <- <-]; apply rtc_refl|].
  all: destruct (update_zero _ _ _ _ _) as [[σ1 t1] r1] eqn:E; intros [= <- <- <-].
  all: by eapply steps_update_zero.
Qed.

Lemma steps_context_manager rsv σ s hs object σ' s' res :
  world_ok (with_session σ s hs) -> create_context_manager_refs rsv σ s object = (σ', s', res) ->
  steps σ s hs σ' s' (manager_holds res ++ hs).
Proof.
  intros Hw. unfold create_context_manager_refs.
  destruct (resolve_local rsv σ s object) as [[σ1 s1] [r|e]] eqn:E1;
    pose proof (steps_resolve_local _ _ _ hs _ _ _ _ E1) as H1; [|by intros [= <- <- <-]].
  destruct (acquire_context_manager_refs _ _ _) as [σ2 [c|e]] eqn:E2; intros [= <- <- <-]; simpl.
  - pose proof (steps_ok _ _ _ _ Hw H1) as Hw1.
    destruct (nodes σ1 !! r) as [n|] eqn:Hr; [|].
    + eapply rtc_r; [exact H1|]. by eapply step_context_manager.
    + exfalso. revert E1. unfold resolve_local.
      destruct (NodeOwner.resolve rsv σ (sowner s) object) as [[σ3 own3] res3] eqn:E3.
      intros [= <- <- ->]. pose proof (world_owners _ Hw) as Ho. simpl in Ho.
      apply Forall_app in Ho as [_ [Ho _]%Forall_cons].
      destruct (fields object) as [w f p k| | | |] eqn:Ef.
      all: try (unfold NodeOwner.resolve in E3; rewrite Ef in E3; discriminate E3).
      destruct (resolve_found _ _ _ _ _ _ _ _ _ _ _ Ho Ef E3) as (_ & n & Hn & _). congruence.
  - replace σ2 with σ1; [done|]. revert E2. unfold acquire_context_manager_refs.
    repeat case_match; by intros [= <- _].
Qed.

Lemma resolve_remote_same σ t handle st σ' node :
  ReferenceTable.resolve σ t handle st = (σ', Ok (RRemote node)) -> σ' = σ.
Proof.
  unfold ReferenceTable.resolve. destruct (_ !! _) as [ref|]; [|done]. destruct (_ && _); [done|].
  destruct (ReferenceTable.target ref); [|by intros [= <- _]]. destruct (hold _ _ _) as [? []]; done.
Qed.

(** Taking a hold and giving it back. *)
Lemma run_drop σ s hs h : world_ok (with_session σ s (h :: hs)) ->
  exists σ', drop_hold σ h = Some σ' /\ steps σ s (h :: hs) σ' s hs.
Proof. intros Hw. destruct (world_drop_first _ _ _ _ Hw) as [σ' E]. eauto using steps_drop. Qed.

Lemma run_route σ s hs request :
  world_ok (with_session σ s hs) ->
  exists σ' res, resolve_transaction_route σ s request = Some (σ', res) /\
                 steps σ s hs σ' s (target_holds res ++ hs).
Proof.
  intros Hw. unfold resolve_transaction_route.
  destruct (TransactionRequest.target request) as [handle|]; [|eexists _, _; split; [done|apply rtc_refl]].
  destruct (ReferenceTable.resolve _ _ _ _) as [σ1 [[h|node]|e]] eqn:E1.
  - pose proof (steps_lookup _ _ hs _ _ _ _ E1) as H1. pose proof (steps_ok _ _ _ _ Hw H1) as Hw1.
    destruct (run_drop _ _ _ _ Hw1) as (σ2 & E2 & H2).
    assert (H12 : steps σ s hs σ2 s hs) by (by etransitivity).
    cbv zeta. rewrite E2. cbn [mbind option_bind].
    destruct (negb _); [eexists _, _; split; [done|exact H12]|].
    destruct (owns _ _ _); [eexists _, _; split; [done|exact H12]|].
    destruct (world_hold_node _ _ _ _ Hw1) as [n Hn].
    destruct (hold σ1 (hnode h) HStrong) as [σ3 [h3|e]] eqn:E3.
    + eexists _, _. split; [done|]. etransitivity; [exact H1|]. by eapply steps_hold.
    + pose proof (hold_Err _ _ _ _ _ E3) as ->. rewrite E2. cbn [mbind option_bind].
      eexists _, _. split; [done|exact H12].
  - pose proof (resolve_remote_same _ _ _ _ _ _ E1) as ->. eexists _, _. split; [done|apply rtc_refl].
  - pose proof (resolve_Err _ _ _ _ _ _ E1) as ->.
    destruct e; eexists _, _; (split; [done|apply rtc_refl]).
Qed.

Lemma run_resolve_object rsv σ s hs object :
  world_ok (with_session σ s hs) ->
  exists σ' s' res, resolve_transaction_object rsv σ s object = Some (σ', s', res) /\
                    steps σ s hs σ' s' hs.
Proof.
  intros Hw. unfold resolve_transaction_object, ReferenceTable.lookup.
  destruct (fields object) as [w f p c|w f h c| | |]; try (eexists _, _, _; split; [done|apply rtc_refl]).
  - destruct (resolve_local rsv σ s object) as [[σ1 s1] r1] eqn:E.
    eexists _, _, _. split; [done|]. by eapply steps_resolve_local.
  - destruct (ReferenceTable.resolve _ _ _ _) as [σ1 [[h1|node]|e]] eqn:E1.
    + pose proof (steps_lookup _ _ hs _ _ _ _ E1) as H1. pose proof (steps_ok _ _ _ _ Hw H1) as Hw1.
      destruct (run_drop _ _ _ _ Hw1) as (σ2 & E2 & H2). rewrite E2. cbn [mbind option_bind].
      eexists _, _, _. split; [done|]. by etransitivity.
    + pose proof (resolve_remote_same _ _ _ _ _ _ E1) as ->. eexists _, _, _. split; [done|apply rtc_refl].
    + pose proof (resolve_Err _ _ _ _ _ _ E1) as ->. eexists _, _, _. split; [done|apply rtc_refl].
Qed.

Lemma steps_install σ s hs resolved σ' s' res :
  is_Some (nodes σ !! rnode resolved) -> install_transaction_object σ s resolved = (σ', s', res) ->
  steps σ s hs σ' s' hs.
Proof.
  intros Hn. unfold install_transaction_object. destruct (owns_node _ _ _); [intros [= <- <- _]; apply rtc_refl|].
  destruct (retain_transferred _ _ _ _) as [[σ1 s1] r1] eqn:E.
  destruct r1 as [[[h b] a]|]; intros [= <- <- _]; by eapply steps_retain_transferred.
Qed.

Lemma steps_install_remote σ s hs receiver object σ' s' res :
  install_remote_object σ s receiver object = (σ', s', res) -> steps σ s hs σ' s' hs.
Proof.
  unfold install_remote_object.
  destruct (_ =? _); [case_match; intros [= <- <- _]; apply rtc_refl|].
  destruct (retain_remote _ _ _ _) as [[σ1 s1] r1] eqn:E.
  destruct r1 as [[[h b] a]|]; intros [= <- <- _]; by eapply steps_retain_remote.
Qed.

Lemma run_remote_object rsv σ s hs object :
  world_ok (with_session σ s hs) ->
  exists σ' s' res, resolve_remote_object rsv σ s object = Some (σ', s', res) /\
                    steps σ s hs σ' s' hs.
Proof.
  intros Hw. unfold resolve_remote_object.
  destruct (fields object) as [w f p c|w f h c| | |]; try (eexists _, _, _; split; [done|apply rtc_refl]).
  - destruct (resolve_local rsv σ s object) as [[σ1 s1] [r1|e]] eqn:E;
      (eexists _, _, _; split; [done|]; by eapply steps_resolve_local).
  - destruct (ReferenceTable.resolve _ _ _ _) as [σ1 [[h1|node]|e]] eqn:E1.
    + pose proof (steps_lookup _ _ hs _ _ _ _ E1) as H1. pose proof (steps_ok _ _ _ _ Hw H1) as Hw1.
      destruct (run_drop _ _ _ _ Hw1) as (σ2 & E2 & H2). rewrite E2. cbn [mbind option_bind].
      eexists _, _, _. split; [done|]. by etransitivity.
    + pose proof (resolve_remote_same _ _ _ _ _ _ E1) as ->. eexists _, _, _. split; [done|apply rtc_refl].
    + pose proof (resolve_Err _ _ _ _ _ _ E1) as ->. eexists _, _, _. split; [done|apply rtc_refl].
Qed.

Lemma run_remote_loop rsv hs objects : forall σ s i,
  world_ok (with_session σ s hs) ->
  exists σ' s' res, resolve_remote_loop rsv σ s i objects = Some (σ', s', res) /\
                    steps σ s hs σ' s' hs.
Proof.
  induction objects as [|object objects IH]; intros σ s i Hw; cbn [resolve_remote_loop].
  { eexists _, _, _. split; [done|apply rtc_refl]. }
  destruct (run_remote_object (below i rsv) σ s hs object Hw) as (σ1 & s1 & [entry|e] & E1 & H1);
    rewrite E1; cbn [mbind option_bind]; [|by eauto].
  destruct (IH σ1 s1 (S i) (steps_ok _ _ _ _ Hw H1)) as (σ2 & s2 & rest & E2 & H2). rewrite E2.
  eexists _, _, _. split; [done|]. by etransitivity.
Qed.

Lemma run_remote_objects rsv σ s hs data offsets :
  world_ok (with_session σ s hs) ->
  exists σ' s' res, resolve_remote_objects rsv σ s data offsets = Some (σ', s', res) /\
                    steps σ s hs σ' s' hs.
Proof.
  intros Hw. unfold resolve_remote_objects.
  destruct (validate _ _ _); [|eexists _, _, _; split; [done|apply rtc_refl]].
  destruct (negb _); [eexists _, _, _; split; [done|apply rtc_refl]|]. by apply run_remote_loop.
Qed.

(** Dropping a session releases its references and its nodes' owner. *)
Lemma run_drop_session σ s hs :
  world_ok (with_session σ s hs) ->
  exists σ', drop_session σ s = Some σ' /\
    rtc step (with_session σ s hs)
      {| wstore := σ'; wowners := os1 ++ os2; wtables := ts1 ++ ts2; wholds := hs |}.
Proof.
  intros Hw. pose proof (step_drop_owner σ os1 (sowner s) os2 (ts1 ++ srefs s :: ts2) hs) as H1.
  pose proof (world_step_ok _ _ H1 Hw) as Hw1. destruct (world_table _ _ _ _ _ _ Hw1) as [Ht Ha].
  destruct (drop_table_step _ _ (world_store _ Hw1) Ht Ha) as (σ' & E & _). exists σ'. split; [done|].
  eapply rtc_l; [exact H1|]. apply rtc_once. by apply step_drop_table.
Qed.

Lemma run_refines σ s hs op :
  world_ok (with_session σ s hs) -> op_ok σ op ->
  exists σ' s' hs', run σ s op = Some (σ', s', hs') /\ steps σ s hs σ' s' (hs' ++ hs).
Proof.
  intros Hw Hop. destruct op; cbn [run].
  - destruct (resolve_local _ _ _ _) as [[??]?] eqn:E. eauto 6 using steps_resolve_local.
  - destruct (retain_transferred _ _ _ _) as [[??]?] eqn:E. eauto 6 using steps_retain_transferred.
  - destruct (retain_remote _ _ _ _) as [[??]?] eqn:E. eauto 6 using steps_retain_remote.
  - unfold retain_remote_context_manager, ReferenceTable.retain_remote_context_manager.
    destruct (retain_from _ _ _ _ _) as [[σ1 t1] r1] eqn:E. eexists _, _, _. split; [done|].
    exact (steps_retain _ _ _ (Remote node) st 0 _ _ _ I (proj2 start_ok) E).
  - destruct (execute _ _ _) as [[??]?] eqn:E. eauto 6 using steps_execute.
  - destruct (execute_context_reference _ _ _ _) as [[??]?] eqn:E.
    eauto 6 using steps_context_reference.
  - destruct (create_context_manager_refs _ _ _ _) as [[??]?] eqn:E.
    eauto 6 using steps_context_manager.
  - destruct (run_route σ s hs request Hw) as (σ' & res & -> & H). simpl. eauto 6.
  - destruct (read_node_work _ _ _) as [[??]?] eqn:E. eexists _, _, _. split; [done|].
    apply steps_owner. by eapply op_read.
  - eexists _, _, _. split; [done|]. apply steps_owner. by eapply op_attach.
  - eexists _, _, _. split; [done|]. apply steps_owner. eapply op_bind. apply surjective_pairing.
  - destruct (run_resolve_object rsv σ s hs object Hw) as (? & ? & ? & -> & H). simpl. eauto 6.
  - destruct (install_transaction_object _ _ _) as [[??]?] eqn:E. eauto 6 using steps_install.
  - unfold rollback_transaction_object. destruct (decrement _ _ _ _) as [[σ1 t1] r1] eqn:E.
    eexists _, _, _. split; [done|]. apply steps_table. by eapply op_decrement.
  - destruct (run_remote_objects rsv σ s hs data offsets Hw) as (? & ? & ? & -> & H). simpl. eauto 6.
  - destruct (install_remote_object _ _ _ _) as [[??]?] eqn:E. eauto 6 using steps_install_remote.
Qed.
End embedding.

(** *** Object words *)

Lemma node_object_eq st flags p c :
  node_object st flags p c =
    u32_le (tag (binder_kind st)) ++ u32_le flags ++ u64_le p ++ u64_le c.
Proof.
  unfold node_object. change (zeroed 24) with (zeroed 4 ++ zeroed 20).
  rewrite copy_at_next by (wire_length || (rewrite ?length_u32_le; vm_compute; lia)).
  rewrite length_u32_le, (copy_at_def 0). simpl (take 0 _). rewrite length_u32_le, <- (app_assoc (zeroed 4)), drop_app_length' by done. simpl.
  rewrite (app_assoc (u32_le _)). rewrite copy_at_next by (wire_length || (rewrite length_u64_le; simpl; lia)).
  rewrite length_u64_le. simpl.
  rewrite copy_at_next by (wire_length || (rewrite length_u64_le; simpl; lia)).
  rewrite length_u64_le. simpl. by rewrite <- !app_assoc, app_nil_r.
Qed.

Lemma handle_object_eq st flags handle :
  handle_object st flags handle =
    u32_le (tag (handle_kind st)) ++ u32_le flags ++ u32_le handle ++ zeroed 12.
Proof.
  unfold handle_object. change (zeroed 24) with (zeroed 4 ++ zeroed 20).
  rewrite copy_at_next by (wire_length || (rewrite ?length_u32_le; vm_compute; lia)).
  rewrite length_u32_le, (copy_at_def 0). simpl (take 0 _). rewrite length_u32_le, <- (app_assoc (zeroed 4)), drop_app_length' by done. simpl.
  rewrite (app_assoc (u32_le _)). rewrite copy_at_next by (wire_length || (rewrite length_u32_le; simpl; lia)).
  rewrite length_u32_le. simpl. by rewrite <- !app_assoc.
Qed.

Lemma tag_range k : u32_range (tag k).
Proof. destruct k; vm_compute; split; discriminate. Qed.

(** A rewritten object is a complete object of its kind with the given fields. *)
Lemma node_object_fields st flags p c o :
  u32_range flags -> u64_range p -> u64_range c ->
  let bs := node_object st flags p c in
  u32_at bs 0 = tag (binder_kind st) /\ len bs = 24 /\
  fields {| kind := binder_kind st; offset := o; Objects.obytes := bs |} =
    FNode (bool_decide (st = Weak)) flags p c.
Proof.
  intros Hf Hp Hc bs. unfold bs. rewrite node_object_eq. pose proof (tag_range (binder_kind st)).
  split; [by read_fields|]. split; [unfold len; wire_length|].
  unfold fields. cbn [kind Objects.obytes].
  assert (u32_at (u32_le (tag (binder_kind st)) ++ u32_le flags ++ u64_le p ++ u64_le c) 4 = flags)
    as -> by by read_fields.
  assert (u64_at (u32_le (tag (binder_kind st)) ++ u32_le flags ++ u64_le p ++ u64_le c) 8 = p)
    as -> by by read_fields.
  assert (u64_at (u32_le (tag (binder_kind st)) ++ u32_le flags ++ u64_le p ++ u64_le c) 16 = c)
    as -> by by read_fields.
  by destruct st.
Qed.

Lemma handle_object_fields st flags handle o :
  u32_range flags -> u32_range handle ->
  let bs := handle_object st flags handle in
  u32_at bs 0 = tag (handle_kind st) /\ len bs = 24 /\
  fields {| kind := handle_kind st; offset := o; Objects.obytes := bs |} =
    FHandle (bool_decide (st = Weak)) flags handle 0.
Proof.
  intros Hf Hh bs. unfold bs. rewrite handle_object_eq. pose proof (tag_range (handle_kind st)).
  split; [by read_fields|]. split; [unfold len; wire_length|].
  unfold fields. cbn [kind Objects.obytes].
  set (L := u32_le (tag (handle_kind st)) ++ u32_le flags ++ u32_le handle ++ zeroed 12).
  assert (u32_at L 4 = flags) as -> by (unfold L; by read_fields).
  assert (u32_at L 8 = handle) as -> by (unfold L; by read_fields).
  assert (u64_at L 16 = 0) as ->.
  { unfold L. change (zeroed 12) with (zeroed 4 ++ u64_le 0). by read_fields. }
  by destruct st.
Qed.

(** *** Translation *)

(** A rewritten object, as the receiver finds it in its buffer. *)
Definition as_object (k : Objects.Kind) (w : Rewrite) : Object :=
  {| kind := k; offset := woffset w; Objects.obytes := wbytes w |}.

Lemma strength_weak st : strength (bool_decide (st = Weak)) = st.
Proof. by destruct st. Qed.

Lemma kind_of_tag_tag k t : t = tag k -> kind_of_tag t = Some k.
Proof. intros ->. by apply kind_of_tag_Some. Qed.

(** A handle the table counts resolves to its node, and leaves no hold behind. *)
Lemma resolve_handle_found rsv σ s object weak flags h c e r n :
  fields object = FHandle weak flags h c -> srefs s !! h = Some e ->
  ReferenceTable.target e = Local r -> get_count (counts_of e) (strength weak) <> 0 ->
  nodes σ !! r = Some n -> 0 <= temporary (lifecycle n) < i32_max ->
  exists σ', resolve_transaction_object rsv σ s object =
    Some (σ', s, Ok {| rnode := r; rstrength := strength weak; rflags := flags;
                       roffset := offset object |}).
Proof.
  intros Hf He Htg Hst Hn Htmp. unfold resolve_transaction_object, ReferenceTable.lookup, ReferenceTable.resolve.
  rewrite Hf, He, Htg.
  assert (bool_decide (strength weak = Strong) && (strong (counts_of e) =? 0) = false) as ->.
  { destruct weak; simpl in *; [done|]. by apply Z.eqb_neq. }
  unfold hold. rewrite (lookup_total_correct _ _ _ Hn).
  rewrite (proj2 (bounded_succ_Some _ (temporary (lifecycle n) + 1))) by (simpl; lia). simpl.
  unfold drop_hold. simpl.
  set (σ1 := schedule _ _ _).
  assert (exists n1, nodes σ1 !! r = Some n1 /\ temporary (lifecycle n1) = temporary (lifecycle n) + 1)
    as (n1 & Hn1 & E1).
  { pose proof (lookup_update_node σ r n (set_local_count (lifecycle n) HTemporary
      (temporary (lifecycle n) + 1)) r Hn) as E. rewrite decide_True in E by done.
    destruct (nodes σ1 !! r) as [n1|] eqn:En1; unfold σ1 in En1; rewrite En1 in E; [|done].
    exists n1. split; [done|]. injection E as ->. done. }
  rewrite (lookup_total_correct _ _ _ Hn1), E1.
  rewrite (proj2 (checked_sub_Some _ 1 (temporary (lifecycle n)))) by lia. simpl. eauto.
Qed.

Lemma resolve_owned rsv σ s object weak flags r n :
  table_ok σ (sowner s) -> nodes σ !! r = Some n -> nowner n = state (sowner s) ->
  fields object = FNode weak flags (pointer n) (cookie n) ->
  resolve_local rsv σ s object = (σ, s, Ok r).
Proof.
  intros Ht Hn Ho Hf. unfold resolve_local, NodeOwner.resolve. rewrite Hf.
  assert (onodes (sowner s) !! pointer n = Some r) as -> by (apply Ht; eauto).
  rewrite (lookup_total_correct _ _ _ Hn), Z.eqb_refl. simpl. by destruct s.
Qed.

Lemma retain_transferred_inv σ s r st σ' s' h before after :
  retain_transferred σ s r st = (σ', s', Ok (h, before, after)) ->
  exists t', retain_from σ (srefs s) (Local r) st 1 = (σ', t', Ok (h, before, after)) /\
             s' = set_srefs s t'.
Proof.
  unfold retain_transferred, ReferenceTable.retain.
  destruct (retain_from _ _ _ _ _) as [[σ1 t1] r1] eqn:E. intros [= -> <- ->]. eauto.
Qed.

Lemma retain_remote_inv σ s node st σ' s' h before after :
  retain_remote σ s node st = (σ', s', Ok (h, before, after)) ->
  exists t', retain_from σ (srefs s) (Remote node) st 1 = (σ', t', Ok (h, before, after)) /\
             s' = set_srefs s t'.
Proof.
  unfold retain_remote, ReferenceTable.retain_remote.
  destruct (retain_from _ _ _ _ _) as [[σ1 t1] r1] eqn:E. intros [= -> <- ->]. eauto.
Qed.

(** A retained handle is in range and counts at least the new reference. *)
Lemma retained_count σ t tg st σ' t' h before after :
  store_ok σ -> handles_ok σ t -> target_ok σ tg ->
  retain_from σ t tg st 1 = (σ', t', Ok (h, before, after)) ->
  handles_ok σ' t' /\ u32_range h /\ get_count after st <> 0.
Proof.
  intros Hσ Ht Htg E.
  pose proof (retain_step _ _ _ _ _ _ _ _ Hσ Ht Htg (proj1 start_ok) E) as (_ & _ & Ht' & _).
  destruct (retain_entry _ _ _ _ _ _ _ _ _ _ (proj1 start_ok) E) as (He & _ & Hc & Hold).
  split; [done|]. split; [by apply (handles_range _ _ Ht' _ _ He)|].
  specialize (Hc st). rewrite decide_True in Hc by done.
  assert (0 <= get_count before st); [|lia].
  destruct Hold as [Hb|(-> & _)]; [|by destruct st].
  destruct (handles_counts _ _ Ht _ _ Hb) as (H1 & H2 & _). unfold count_ok in *.
  destruct st; simpl in *; lia.
Qed.

(** The state of a node a table operation leaves alone. *)
Lemma retained_node σ t tg st σ' t' res r n :
  store_ok σ -> handles_ok σ t -> target_ok σ tg -> nodes σ !! r = Some n ->
  retain_from σ t tg st 1 = (σ', t', res) ->
  exists n', nodes σ' !! r = Some n' /\ temporary (lifecycle n') = temporary (lifecycle n).
Proof.
  intros Hσ Ht Htg Hn E.
  pose proof (retain_step _ _ _ _ _ _ _ _ Hσ Ht Htg (proj1 start_ok) E) as (F & _ & _ & Hs).
  destruct (frame_node _ _ _ _ F Hn) as (n' & Hn' & _). exists n'. split; [done|].
  destruct (Hs r n n' Hn Hn') as (_ & _ & Hk). apply (Hk HTemporary).
Qed.

(** *** Targets *)

Lemma hold_owner_alive σ r n k σ' h :
  store_ok σ -> nodes σ !! r = Some n -> hold σ r k = (σ', Ok h) ->
  owner_alive σ' r = owner_alive σ r /\ forall own, owns σ' own r = owns σ own r.
Proof.
  intros Hσ Hn. unfold hold, owner_alive, owns. rewrite (lookup_total_correct _ _ _ Hn).
  destruct (bounded_succ _) as [v|]; intros [= <- _].
  destruct (store_nodes _ _ Hσ r n Hn) as (_ & o & Ho & _).
  assert (nodes (schedule (set_lifecycle σ r (set_local_count (lifecycle n) k v)) (nowner n)
    (pointer n)) !! r = Some {| nowner := nowner n; local_id := local_id n; pointer := pointer n;
      cookie := cookie n; initial_flags := initial_flags n;
      lifecycle := set_local_count (lifecycle n) k v |}) as E.
  { rewrite nodes_schedule. simpl. rewrite (lookup_total_correct _ _ _ Hn). apply lookup_insert_eq. }
  rewrite (lookup_total_correct _ _ _ E). simpl. split; [|done].
  assert (owners (schedule (set_lifecycle σ r (set_local_count (lifecycle n) k v)) (nowner n)
    (pointer n)) !! nowner n = Some (scheduled (pointer n) o)) as Eo.
  { rewrite (owners_schedule _ _ _ o) by done. apply lookup_insert_eq. }
  rewrite (lookup_total_correct _ _ _ Eo), (lookup_total_correct _ _ _ Ho). apply alive_scheduled.
Qed.

(** What each answer of [resolve_transaction_route] says about the state it was asked in. *)
Definition route_spec (σ : Store) (s : Session) (request : Request)
    (res : result ResolvedTransactionTarget TargetError) : Prop :=
  match TransactionRequest.target request with
  | TReply => res = Err ReplyStackRequired
  | THandle handle =>
      match srefs s !! handle with
      | None => res = Err (if handle =? 0 then ContextManagerRequired else TReference UnknownHandle)
      | Some e =>
          if strong (counts_of e) =? 0 then res = Err (TReference StrongRequired)
          else
            match ReferenceTable.target e with
            | Remote node => res = Ok (TRemote node)
            | Local r =>
                let l := lifecycle (nodes σ !!! r) in
                if temporary l =? i32_max then res = Err (TReference Overflow)
                else if negb (owner_alive σ r) then res = Err DeadTarget
                else if owns_node σ s r then res = Err SelfTransaction
                else if local_strong l =? i32_max then res = Err (HoldFailed EOVERFLOW)
                else res = Ok (TLocal {| tstrong := {| hnode := r; hkind := HStrong |};
                                         ttemporary := {| hnode := r; hkind := HTemporary |} |})
            end
      end
  end.

Lemma hold_cases σ r n k :
  store_ok σ -> nodes σ !! r = Some n ->
  if local_count (lifecycle n) k =? i32_max then hold σ r k = (σ, Err EOVERFLOW)
  else exists σ', hold σ r k = (σ', Ok {| hnode := r; hkind := k |}).
Proof.
  intros Hσ Hn. pose proof (local_count_ok _ k (lifecycle_of _ _ _ _ Hσ Hn)) as Hc. unfold count_ok in Hc.
  unfold hold. rewrite (lookup_total_correct _ _ _ Hn). destruct (bounded_succ _) as [v|] eqn:E.
  - apply bounded_succ_Some in E as [_ ?]. rewrite (proj2 (Z.eqb_neq _ _)) by lia. eauto.
  - destruct (Z.eqb_spec (local_count (lifecycle n) k) i32_max) as [|Hne]; [done|].
    rewrite (proj2 (bounded_succ_Some _ (local_count (lifecycle n) k + 1))) in E by lia. done.
Qed.

Lemma route_exact os1 os2 ts1 ts2 σ s hs request σ' res :
  world_ok (with_session os1 os2 ts1 ts2 σ s hs) ->
  resolve_transaction_route σ s request = Some (σ', res) -> route_spec σ s request res.
Proof.
  intros Hw. unfold resolve_transaction_route, route_spec.
  destruct (TransactionRequest.target request) as [handle|]; [|by intros [= <- <-]].
  unfold ReferenceTable.resolve at 1. destruct (srefs s !! handle) as [e|] eqn:Ee; [|by intros [= <- <-]].
  destruct (strong (counts_of e) =? 0); simpl; [by intros [= <- <-]|].
  pose proof (world_table _ _ _ _ _ _ Hw) as [Hh _].
  destruct (ReferenceTable.target e) as [r|node] eqn:Et; [|by intros [= <- <-]].
  pose proof (handles_target _ _ Hh _ _ Ee) as Htg. rewrite Et in Htg. destruct Htg as [n Hn].
  rewrite (lookup_total_correct _ _ _ Hn). pose proof (world_store _ Hw) as Hσ. simpl in Hσ.
  pose proof (hold_cases σ r n HTemporary Hσ Hn) as H1. simpl in H1.
  destruct (_ =? i32_max); [rewrite H1; by intros [= <- <-]|].
  destruct H1 as [σ1 H1]. rewrite H1. simpl.
  destruct (hold_owner_alive _ _ _ _ _ _ Hσ Hn H1) as [Ha Ho]. rewrite Ha, Ho.
  destruct (hold_step _ _ _ _ _ _ Hσ Hn H1) as (_ & F & Hσ1 & Hsh).
  destruct (frame_node _ _ _ _ F Hn) as (n1 & Hn1 & _).
  assert (local_strong (lifecycle n1) = local_strong (lifecycle n)) as El.
  { destruct (Hsh r n n1 Hn Hn1) as (_ & _ & Hk). specialize (Hk HStrong). simpl in Hk.
    unfold is_hold in Hk. simpl in Hk. rewrite andb_false_r in Hk. simpl in Hk. lia. }
  destruct (drop_hold σ1 _) as [σ2|] eqn:E2; simpl.
  - destruct (negb _); [by intros [= <- <-]|]. unfold owns_node.
    destruct (owns σ (sowner s) r); [by intros [= <- <-]|].
    pose proof (hold_cases σ1 r n1 HStrong Hσ1 Hn1) as H2. simpl in H2. rewrite El in H2.
    destruct (_ =? i32_max); [rewrite H2, E2; by intros [= <- <-]|].
    destruct H2 as [σ3 H2]. rewrite H2. by intros [= <- <-].
  - destruct (negb _); [done|]. unfold owns_node. destruct (owns σ (sowner s) r); [done|].
    pose proof (hold_cases σ1 r n1 HStrong Hσ1 Hn1) as H2. simpl in H2. rewrite El in H2.
    destruct (_ =? i32_max); [rewrite H2, E2; done|].
    destruct H2 as [σ3 H2]. rewrite H2. by intros [= <- <-].
Qed.

(** ** Properties *)

(** C22: every operation of a session is a run of the transitions of [World], so everything
    that holds in all reachable worlds holds around sessions: commands, object translation,
    target resolution and context-manager references keep each node's demand counters exact.
    In particular no operation panics, whatever its arguments, and dropping the session
    releases its references and its nodes without panicking. *)
Theorem sessions_refine_world os1 os2 ts1 ts2 σ s hs op
    (H : reachable (with_session os1 os2 ts1 ts2 σ s hs)) (Hop : op_ok σ op) :
  (exists σ' s' hs', run σ s op = Some (σ', s', hs') /\
     reachable (with_session os1 os2 ts1 ts2 σ' s' (hs' ++ hs))) /\
  (exists σ', drop_session σ s = Some σ' /\
     reachable {| wstore := σ'; wowners := os1 ++ os2; wtables := ts1 ++ ts2; wholds := hs |}).
Proof.
  pose proof (world_reachable_ok _ H) as Hw. split.
  - destruct (run_refines _ _ _ _ _ _ _ _ Hw Hop) as (σ' & s' & hs' & E & Hr).
    exists σ', s', hs'. split; [done|]. unfold reachable in *. by etransitivity.
  - destruct (run_drop_session _ _ _ _ _ _ _ Hw) as (σ' & E & Hr).
    exists σ'. split; [done|]. unfold reachable in *. by etransitivity.
Qed.

(** Translating an object keeps its meaning.  Installing a resolved object in the
    receiver writes a complete 24-byte object: the receiver's own node as the binder it
    published, anything else as a handle with a reference to undo.  If the receiver sends
    that object on, it resolves to the same node with the same strength, flags and offset. *)
Theorem translation_keeps_identity rsv σ s resolved n σ' s' rewrite rollback
    (Hσ : store_ok σ) (Ht : table_ok σ (sowner s)) (Hh : handles_ok σ (srefs s))
    (Hn : nodes σ !! rnode resolved = Some n) (Hflags : u32_range (rflags resolved))
    (Hp : u64_range (pointer n)) (Hc : u64_range (cookie n))
    (Htmp : temporary (lifecycle n) < i32_max)
    (H : install_transaction_object σ s resolved = (σ', s', Ok (rewrite, rollback))) :
  exists k σ'',
    kind_of_tag (u32_at (wbytes rewrite) 0) = Some k /\ len (wbytes rewrite) = size k /\
    k = (if owns_node σ s (rnode resolved) then binder_kind else handle_kind) (rstrength resolved) /\
    (rollback = None <-> owns_node σ s (rnode resolved) = true) /\
    resolve_transaction_object rsv σ' s' (as_object k rewrite) = Some (σ'', s', Ok resolved).
Proof.
  destruct resolved as [r st flags off]. simpl in *. revert H. unfold install_transaction_object. simpl.
  destruct (owns_node σ s r) eqn:Eo.
  - intros [= <- <- <- <-]. rewrite (lookup_total_correct _ _ _ Hn). exists (binder_kind st), σ. simpl.
    destruct (node_object_fields st flags (pointer n) (cookie n) off Hflags Hp Hc) as (T & L & F).
    split_and!; [by apply kind_of_tag_tag|by destruct st|done|done|].
    unfold resolve_transaction_object, as_object. simpl. rewrite F.
    unfold owns_node, owns in Eo. apply bool_decide_eq_true in Eo.
    rewrite (lookup_total_correct _ _ _ Hn) in Eo.
    rewrite (resolve_owned rsv σ s _ _ _ r n Ht Hn (eq_sym Eo) F). by rewrite strength_weak.
  - destruct (retain_transferred σ s r st) as [[σ1 s1] [[[h b] a]|]] eqn:Er; intros [= <- <- <- <-].
    apply retain_transferred_inv in Er as (t' & Er & ->). simpl.
    assert (Htg : target_ok σ (Local r)) by (by exists n).
    destruct (retained_count _ _ _ _ _ _ _ _ _ Hσ Hh Htg Er) as (Hh' & Hr & Hcnt).
    destruct (retain_entry _ _ _ _ _ _ _ _ _ _ (proj1 start_ok) Er) as (He & _).
    destruct (retained_node _ _ _ _ _ _ _ _ _ Hσ Hh Htg Hn Er) as (n1 & Hn1 & E1).
    destruct (handle_object_fields st flags h off Hflags Hr) as (T & L & F).
    pose proof (local_count_ok _ HTemporary (lifecycle_of _ _ _ _ Hσ Hn)) as [Hpos _]. simpl in Hpos.
    edestruct (resolve_handle_found rsv σ1 (set_srefs s t') (as_object (handle_kind st)
      {| woffset := off; wbytes := handle_object st flags h |}) _ _ _ _ _ r n1 F He eq_refl)
      as [σ2 E2]; [by rewrite strength_weak|done|lia|].
    exists (handle_kind st), σ2. split_and!; [by apply kind_of_tag_tag|by destruct st|done|done|].
    rewrite E2. by rewrite strength_weak.
Qed.

(** Undoing an installed object restores the receiver.  When a delivery fails, rolling
    back each installed handle succeeds, gives the receiver its previous handle table, and
    leaves every node's demand counters where they were; so for nodes of this device as for
    nodes of the routing authority. *)
Theorem install_rollback σ s resolved receiver object
    (Hσ : store_ok σ) (Hh : handles_ok σ (srefs s)) (Ha : accounted σ (srefs s))
    (Hn : is_Some (nodes σ !! rnode resolved)) :
  (forall σ1 s1 rewrite rollback,
     install_transaction_object σ s resolved = (σ1, s1, Ok (rewrite, Some rollback)) ->
     exists σ2, rollback_transaction_object σ1 s1 rollback = (σ2, s, Ok tt) /\
                shifts σ σ2 (fun _ => 0) (fun _ => 0)) /\
  (forall σ1 s1 rewrite rollback,
     install_remote_object σ s receiver object = (σ1, s1, Ok (rewrite, Some rollback)) ->
     exists σ2, rollback_transaction_object σ1 s1 rollback = (σ2, s, Ok tt) /\
                shifts σ σ2 (fun _ => 0) (fun _ => 0)).
Proof.
  split; intros σ1 s1 rewrite rollback.
  - unfold install_transaction_object. destruct (owns_node _ _ _); [done|].
    destruct (retain_transferred _ _ _ _) as [[σ2 s2] [[[h b] a]|]] eqn:E; intros [= <- <- <- <-].
    apply retain_transferred_inv in E as (t' & E & ->).
    destruct (retain_undo _ _ _ _ _ _ _ _ _ _ Hσ Hh Ha (Hn : target_ok σ (Local _)) (proj1 start_ok) E) as (σ3 & Ed & Hs).
    unfold rollback_transaction_object. simpl. rewrite Ed. exists σ3. split; [by destruct s|done].
  - unfold install_remote_object. destruct (_ =? _); [by case_match|].
    destruct (retain_remote _ _ _ _) as [[σ2 s2] [[[h b] a]|]] eqn:E; intros [= <- <- <- <-].
    apply retain_remote_inv in E as (t' & E & ->).
    destruct (retain_undo _ _ _ _ _ _ _ _ _ _ Hσ Hh Ha (I : target_ok σ (Remote _)) (proj1 start_ok) E) as (σ3 & Ed & Hs).
    unfold rollback_transaction_object. simpl. rewrite Ed. exists σ3. split; [by destruct s|done].
Qed.

(** choosing a transaction's target is exact.  The answer is the first condition that
    applies, in the order reply, unknown handle, weak handle, node of the authority, dead
    owner, own node; a local target is returned with one strong and one temporary hold.  No
    other counter of any node moves: every refusal gives its temporary hold back. *)
Theorem target_resolution os1 os2 ts1 ts2 σ s hs request
    (H : reachable (with_session os1 os2 ts1 ts2 σ s hs)) :
  exists σ' res,
    resolve_transaction_route σ s request = Some (σ', res) /\ route_spec σ s request res /\
    forall r n, nodes σ !! r = Some n -> exists n', nodes σ' !! r = Some n' /\
      remote_tables (lifecycle n') = remote_tables (lifecycle n) /\
      strong_tables (lifecycle n') = strong_tables (lifecycle n) /\
      forall k, local_count (lifecycle n') k =
                local_count (lifecycle n) k + count_holds r k (target_holds res).
Proof.
  pose proof (world_reachable_ok _ H) as Hw.
  destruct (run_route os1 os2 ts1 ts2 σ s hs request Hw) as (σ' & res & E & Hs).
  exists σ', res. split; [done|]. split; [by eapply route_exact|].
  pose proof (steps_ok _ _ _ _ _ _ _ _ Hw Hs) as Hw'. intros r n Hn.
  destruct (steps_nodes _ _ Hs Hw r) as [n' Hn']; [by exists n|]. exists n'. split; [done|].
  destruct (world_balanced _ Hw r n Hn) as (H1 & H2 & H3).
  destruct (world_balanced _ Hw' r n' Hn') as (H1' & H2' & H3'). simpl in *.
  split_and!; [congruence..|]. intros k. rewrite H3, H3'. unfold count_holds. rewrite zsum_app. lia.
Qed.

(** *** A publisher and a receiver

    One session has published a node; the other holds nothing yet. *)
Definition example_publisher : Store * Session :=
  let '(σ, own) := example_resolved in (σ, {| sowner := own; srefs := ∅ |}).
Definition example_sessions : Store * Session * Session :=
  let '(σ, publisher) := example_publisher in
  let '(σ, receiver) := new_session σ in (σ, publisher, receiver).

Definition example_store : Store := example_sessions.1.1.
Definition example_sender : Session := example_sessions.1.2.
Definition example_receiver : Session := example_sessions.2.

Lemma example_sessions_reachable :
  reachable (with_session [sowner example_sender] [] [srefs example_sender] []
               example_store example_receiver []).
Proof.
  unfold example_store, example_sender, example_receiver, example_sessions, example_publisher,
    example_resolved, new_session.
  destruct (new empty_store) as [σ0 own0] eqn:E0.
  destruct (NodeOwner.resolve reserve_ok σ0 own0 example_object) as [[σ1 own1] res1] eqn:E1.
  destruct (new σ1) as [σ2 own2] eqn:E2. cbn [fst snd]. unfold reachable.
  apply (rtc_l _ _ _ _ (step_new_owner _ _ _ _ _ _ E0)).
  apply (rtc_l _ _ _ _ (step_resolve _ [] _ [] _ _ _ _ _ _ _ E1)).
  apply (rtc_l _ _ _ _ (step_new_table _ _ _ _)).
  apply (rtc_l _ _ _ _ (step_new_owner _ _ _ _ _ _ E2)).
  apply (rtc_l _ _ _ _ (step_new_table _ _ _ _)). apply rtc_refl.
Qed.

Definition example_transfer : Resolved :=
  {| rnode := 1%positive; rstrength := Strong; rflags := 256; roffset := 0 |}.

Lemma sessions_refine_world_witness :
  exists σ' s' hs', run example_store example_receiver (OpInstall example_transfer) = Some (σ', s', hs') /\
    hs' = [] /\ srefs s' !! 1 = Some {| target := Local 1%positive;
                                       counts_of := {| strong := 1; weak := 0 |} |}.
Proof.
  destruct (sessions_refine_world _ _ _ _ _ _ _ (OpInstall example_transfer)
    example_sessions_reachable) as [(σ' & s' & hs' & E & _) _].
  - simpl. eexists. vm_compute. reflexivity.
  - exists σ', s', hs'. split; [exact E|]. vm_compute in E. injection E as <- <- <-.
    split; vm_compute; reflexivity.
Defined.

Lemma translation_keeps_identity_witness :
  exists k σ'', kind_of_tag (u32_at (handle_object Strong 256 1) 0) = Some k /\ k = Handle /\
    resolve_transaction_object reserve_ok
      (install_transaction_object example_store example_receiver example_transfer).1.1
      (install_transaction_object example_store example_receiver example_transfer).1.2
      (as_object k {| woffset := 0; wbytes := handle_object Strong 256 1 |}) =
    Some (σ'', (install_transaction_object example_store example_receiver example_transfer).1.2,
          Ok example_transfer).
Proof.
  pose proof (world_reachable_ok _ example_sessions_reachable) as Hw.
  pose proof (world_table _ _ _ _ _ _ Hw) as [Hh _].
  pose proof (world_owners _ Hw) as Ho. simpl in Ho. apply Forall_cons in Ho as [_ [Ho _]%Forall_cons].
  edestruct (translation_keeps_identity reserve_ok example_store example_receiver example_transfer)
    as (k & σ'' & H1 & _ & H2 & _ & H3); [apply (world_store _ Hw)|exact Ho|exact Hh| | | | | | |].
  - vm_compute. reflexivity.
  - vm_compute. split; discriminate.
  - vm_compute. split; discriminate.
  - vm_compute. split; discriminate.
  - vm_compute. reflexivity.
  - rewrite (surjective_pairing (install_transaction_object _ _ _)),
      (surjective_pairing (install_transaction_object _ _ _).1). vm_compute. reflexivity.
  - exists k, σ''. split; [exact H1|]. split; [rewrite H2; vm_compute; reflexivity|]. exact H3.
Defined.

Lemma install_rollback_witness :
  exists σ2, rollback_transaction_object
    (install_transaction_object example_store example_receiver example_transfer).1.1
    (install_transaction_object example_store example_receiver example_transfer).1.2
    {| bhandle := 1; bstrength := Strong |} = (σ2, example_receiver, Ok tt).
Proof.
  pose proof (world_reachable_ok _ example_sessions_reachable) as Hw.
  pose proof (world_table _ _ _ _ _ _ Hw) as [Hh Ha].
  edestruct (install_rollback example_store example_receiver example_transfer 1
    {| moffset := 0; mnode := {| owner := 1; local := 1 |}; mstrength := Strong; mflags := 0 |}
    (world_store _ Hw) Hh Ha) as [H _].
  - eexists. vm_compute. reflexivity.
  - edestruct H as (σ2 & E & _); [|exists σ2; exact E].
    rewrite (surjective_pairing (install_transaction_object _ _ _)),
      (surjective_pairing (install_transaction_object _ _ _).1). vm_compute. reflexivity.
Defined.

Lemma target_resolution_witness :
  exists σ', resolve_transaction_route example_store example_receiver
    {| TransactionRequest.target := THandle 0; code := 1; flags := 0;
       rdata := {| address := 0; rsize := 0 |}; roffsets := {| address := 0; rsize := 0 |};
       rextra := 0 |} = Some (σ', Err ContextManagerRequired).
Proof.
  destruct (target_resolution _ _ _ _ _ _ _
    {| TransactionRequest.target := THandle 0; code := 1; flags := 0;
       rdata := {| address := 0; rsize := 0 |}; roffsets := {| address := 0; rsize := 0 |};
       rextra := 0 |} example_sessions_reachable) as (σ' & res & E & Hs & _).
  exists σ'. rewrite E. vm_compute in Hs. by rewrite Hs.
Defined.
