(* ===== verification/DeathWork.v ===== *)
(** * Death-notification work of a process ([death_work.rs]) *)
From S2P Require Import Prelude.

(** ** Definitions *)

Definition BR_DEAD_BINDER : Z := 0x8008720f.
Definition BR_CLEAR_DEATH_NOTIFICATION_DONE : Z := 0x80087210.

Inductive Work : Type := Dead (cookie : Z) | ClearDone (cookie : Z).

#[export] Instance Work_eq_dec : EqDecision Work.
Proof. solve_decision. Defined.

Record Queue : Type := { pending : list Work; awaiting_dead_done : gset Z }.

Definition default_queue : Queue := {| pending := []; awaiting_dead_done := ∅ |}.

Inductive Error : Type := DuplicateCookie | UnknownCookie | OutOfMemory.

(** Reservations at [[0]] (queue) and [[1]] (set). *)
Definition enqueue_dead (rsv : Reserve) (q : Queue) (cookie : Z) : Queue * result unit Error :=
  if bool_decide (cookie ∈ awaiting_dead_done q) || bool_decide (Dead cookie ∈ pending q)
  then (q, Err DuplicateCookie)
  else if negb (rsv [0%nat]) then (q, Err OutOfMemory)
  else if negb (rsv [1%nat]) then (q, Err OutOfMemory)
  else ({| pending := pending q ++ [Dead cookie];
           awaiting_dead_done := awaiting_dead_done q |}, Ok tt).

Definition enqueue_clear_done (rsv : Reserve) (q : Queue) (cookie : Z)
    : Queue * result unit Error :=
  if negb (rsv [0%nat]) then (q, Err OutOfMemory)
  else ({| pending := pending q ++ [ClearDone cookie];
           awaiting_dead_done := awaiting_dead_done q |}, Ok tt).

Definition acknowledge_dead (q : Queue) (cookie : Z) : Queue * result unit Error :=
  ({| pending := pending q; awaiting_dead_done := awaiting_dead_done q ∖ {[cookie]} |},
   ensure (bool_decide (cookie ∈ awaiting_dead_done q)) UnknownCookie).

(** The record of a unit of work. *)
Definition command_of (w : Work) : Z * Z :=
  match w with
  | Dead cookie => (BR_DEAD_BINDER, cookie)
  | ClearDone cookie => (BR_CLEAR_DEATH_NOTIFICATION_DONE, cookie)
  end.

(** [read]: [None] is the failure of its [debug_assert!], which only a build with debug
    assertions ([debug]) checks. *)
Definition read (debug : bool) (q : Queue) (output : bytes) : option (Queue * bytes * Z) :=
  if len output <? 12 then Some (q, output, 0)
  else
    match pending q with
    | [] => Some (q, output, 0)
    | work :: rest =>
        awaiting ←
          match work with
          | Dead cookie =>
              if debug && bool_decide (cookie ∈ awaiting_dead_done q) then None
              else Some ({[cookie]} ∪ awaiting_dead_done q)
          | ClearDone _ => Some (awaiting_dead_done q)
          end;
        let (command, cookie) := command_of work in
        let output := copy_at 0 (u32_le command) output in
        let output := copy_at 4 (u64_le cookie) output in
        Some ({| pending := rest; awaiting_dead_done := awaiting |}, output, 12)
    end.

(** ** Specification: what has happened to a queue *)

Inductive Event : Type := Enqueued (w : Work) | Delivered (w : Work) | Acknowledged (cookie : Z).

#[export] Instance Event_eq_dec : EqDecision Event.
Proof. solve_decision. Defined.

Inductive history (debug : bool) : list Event -> Queue -> Prop :=
| history_new : history debug [] default_queue
| history_dead es q rsv cookie q' :
    history debug es q -> enqueue_dead rsv q cookie = (q', Ok tt) ->
    history debug (es ++ [Enqueued (Dead cookie)]) q'
| history_clear es q rsv cookie q' :
    history debug es q -> enqueue_clear_done rsv q cookie = (q', Ok tt) ->
    history debug (es ++ [Enqueued (ClearDone cookie)]) q'
| history_read es q w rest output q' output' :
    history debug es q -> pending q = w :: rest ->
    read debug q output = Some (q', output', 12) ->
    history debug (es ++ [Delivered w]) q'
| history_acknowledge es q cookie q' :
    history debug es q -> acknowledge_dead q cookie = (q', Ok tt) ->
    history debug (es ++ [Acknowledged cookie]) q'.

Definition enqueued (es : list Event) : list Work :=
  omap (fun e => match e with Enqueued w => Some w | _ => None end) es.
Definition delivered (es : list Event) : list Work :=
  omap (fun e => match e with Delivered w => Some w | _ => None end) es.

Definition notices (cookie : Z) (es : list Event) : Z :=
  len (filter (fun e => e = Delivered (Dead cookie)) es).
Definition acknowledgements (cookie : Z) (es : list Event) : Z :=
  len (filter (fun e => e = Acknowledged cookie) es).

(** ** Lemmas *)

Definition queue_ok (q : Queue) : Prop :=
  (forall c, Dead c ∈ pending q -> c ∉ awaiting_dead_done q) /\
  (forall i j c, pending q !! i = Some (Dead c) -> pending q !! j = Some (Dead c) -> i = j).

Lemma enqueue_dead_Ok rsv q c q' :
  enqueue_dead rsv q c = (q', Ok tt) ->
  (c ∉ awaiting_dead_done q) /\ (Dead c ∉ pending q) /\
  q' = {| pending := pending q ++ [Dead c]; awaiting_dead_done := awaiting_dead_done q |}.
Proof.
  unfold enqueue_dead. case_bool_decide; [done|]. case_bool_decide; [done|]. simpl.
  destruct (rsv [0%nat]); [|done]. destruct (rsv [1%nat]); [|done]. simpl. by intros [= <-].
Qed.

Lemma queue_ok_push q w :
  queue_ok q -> (forall c, w = Dead c -> (c ∉ awaiting_dead_done q) /\ (Dead c ∉ pending q)) ->
  queue_ok {| pending := pending q ++ [w]; awaiting_dead_done := awaiting_dead_done q |}.
Proof.
  intros [H1 H2] Hw. split; simpl.
  - intros c [?|Hc%list_elem_of_singleton]%elem_of_app; [by apply H1|by apply Hw].
  - intros i j c Hi Hj. rewrite lookup_app_Some in Hi, Hj.
    destruct Hi as [Hi|[? Hi]], Hj as [Hj|[? Hj]]; [by eapply H2|..].
    + apply list_lookup_singleton_Some in Hj as [_ ->].
      by destruct (proj2 (Hw c eq_refl)); eapply list_elem_of_lookup_2.
    + apply list_lookup_singleton_Some in Hi as [_ ->].
      by destruct (proj2 (Hw c eq_refl)); eapply list_elem_of_lookup_2.
    + apply list_lookup_singleton_Some in Hi as [? _], Hj as [? _]. lia.
Qed.

(** Reading a non-empty queue delivers its head, and the assertion holds. *)
Lemma read_head debug q output w rest :
  queue_ok q -> pending q = w :: rest -> 12 <= len output ->
  read debug q output =
    Some ({| pending := rest;
             awaiting_dead_done := match w with
                                   | Dead c => {[c]} ∪ awaiting_dead_done q
                                   | ClearDone _ => awaiting_dead_done q
                                   end |},
          u32_le (command_of w).1 ++ u64_le (command_of w).2 ++ drop 12 output, 12).
Proof.
  intros [H1 _] Hp Hl. unfold read. destruct (Z.ltb_spec (len output) 12); [lia|]. rewrite Hp.
  assert (E : forall a b, copy_at 4 (u64_le b) (copy_at 0 (u32_le a) output) =
                          u32_le a ++ u64_le b ++ drop 12 output).
  { intros a b. unfold len in Hl. rewrite <- (app_nil_l output) at 1.
    rewrite copy_at_next by (autorewrite with wire; simpl; lia).
    rewrite copy_at_next by (autorewrite with wire; rewrite ?length_drop; autorewrite with wire; simpl; lia).
    rewrite drop_drop, <- app_assoc. by autorewrite with wire. }
  destruct w as [c|c]; simpl; rewrite E; [|done].
  rewrite bool_decide_false; [by rewrite andb_false_r|]. apply H1. rewrite Hp. by left.
Qed.

Lemma queue_ok_pop q w rest :
  queue_ok q -> pending q = w :: rest ->
  queue_ok {| pending := rest;
              awaiting_dead_done := match w with
                                    | Dead c => {[c]} ∪ awaiting_dead_done q
                                    | ClearDone _ => awaiting_dead_done q
                                    end |}.
Proof.
  intros [H1 H2] Hp. rewrite Hp in H1, H2. split; simpl.
  - intros c Hc. assert (c ∉ awaiting_dead_done q) by (apply H1; by right).
    destruct w as [c'|]; [|done]. rewrite elem_of_union, elem_of_singleton. intros [->|?]; [|done].
    apply list_elem_of_lookup in Hc as [i Hi]. by specialize (H2 0%nat (S i) c' eq_refl Hi).
  - intros i j c Hi Hj. by specialize (H2 (S i) (S j) c Hi Hj) as [= ?].
Qed.

Lemma history_ok debug es q : history debug es q -> queue_ok q.
Proof.
  induction 1 as [|es q rsv c q' _ IH E|es q rsv c q' _ IH E|es q w rest output q' output' _ IH Hp E
    |es q c q' _ IH E].
  - by split; intros *; rewrite ?lookup_nil, ?elem_of_nil.
  - apply enqueue_dead_Ok in E as (? & ? & ->). apply queue_ok_push; [done|]. by intros ? [= <-].
  - unfold enqueue_clear_done in E. destruct (rsv [0%nat]); [|done]. injection E as <-.
    by apply queue_ok_push.
  - destruct (Z.ltb_spec (len output) 12) as [Hs|].
    { unfold read in E. destruct (Z.ltb_spec (len output) 12); [done|lia]. }
    rewrite (read_head _ _ _ w rest) in E by done. injection E as <- _. by apply queue_ok_pop.
  - injection E as <- _. destruct IH as [H1 H2]. split; simpl; [|done]. intros c' Hc.
    specialize (H1 _ Hc). set_solver.
Qed.

(** The effect of a delivering read. *)
Lemma read_delivers debug q output w rest q' output' :
  queue_ok q -> pending q = w :: rest -> read debug q output = Some (q', output', 12) ->
  12 <= len output /\ pending q' = rest /\
  awaiting_dead_done q' = match w with
                          | Dead c => {[c]} ∪ awaiting_dead_done q
                          | ClearDone _ => awaiting_dead_done q
                          end.
Proof.
  intros Hq Hp E. destruct (Z.ltb_spec (len output) 12) as [Hs|].
  - unfold read in E. destruct (Z.ltb_spec (len output) 12); [done|lia].
  - rewrite (read_head _ _ _ w rest) in E by done. injection E as <- _. done.
Qed.

Lemma history_fifo debug es q : history debug es q -> enqueued es = delivered es ++ pending q.
Proof.
  unfold enqueued, delivered.
  induction 1 as [|es q rsv c q' _ IH E|es q rsv c q' _ IH E|es q w rest output q' output' H IH Hp E
    |es q c q' _ IH E]; [done|..]; rewrite !omap_app, IH; simpl; rewrite ?app_nil_r.
  - apply enqueue_dead_Ok in E as (_ & _ & ->). simpl. by rewrite app_assoc.
  - unfold enqueue_clear_done in E. destruct (rsv [0%nat]); [|done]. injection E as <-.
    simpl. by rewrite app_assoc.
  - apply (read_delivers _ _ _ w rest) in E as (_ & -> & _); [|by eapply history_ok|done].
    by rewrite Hp, <- app_assoc.
  - by injection E as <- _.
Qed.

Lemma history_notices debug es q c :
  history debug es q ->
  notices c es = acknowledgements c es + Z.b2z (bool_decide (c ∈ awaiting_dead_done q)).
Proof.
  unfold notices, acknowledgements.
  induction 1 as [|es q rsv c' q' _ IH E|es q rsv c' q' _ IH E
    |es q w rest output q' output' H IH Hp E|es q c' q' _ IH E].
  - by rewrite bool_decide_false by set_solver.
  - apply enqueue_dead_Ok in E as (_ & _ & ->). rewrite !filter_app, !len_app, IH.
    rewrite !(filter_cons_False _ (Enqueued _)) by done. unfold len. simpl. lia.
  - unfold enqueue_clear_done in E. destruct (rsv [0%nat]); [|done]. injection E as <-.
    rewrite !filter_app, !len_app, IH.
    rewrite !(filter_cons_False _ (Enqueued _)) by done. unfold len. simpl. lia.
  - pose proof (history_ok _ _ _ H) as Hq.
    apply (read_delivers _ _ _ w rest) in E as (_ & _ & ->); [|done..].
    rewrite !filter_app, !len_app, IH. rewrite (filter_cons_False (fun e => e = Acknowledged c) (Delivered w)) by done.
    destruct w as [c'|c']; [|rewrite filter_cons_False by done; unfold len; simpl; lia].
    assert (Hn : c' ∉ awaiting_dead_done q) by (apply Hq; rewrite Hp; by left).
    destruct (decide (c' = c)) as [->|].
    + rewrite filter_cons_True, bool_decide_false, bool_decide_true by set_solver. unfold len. simpl. lia.
    + rewrite filter_cons_False by congruence.
      rewrite (bool_decide_ext (c ∈ _ ∪ _) (c ∈ awaiting_dead_done q)) by set_solver. unfold len. simpl. lia.
  - unfold acknowledge_dead, ensure in E. injection E as <- E.
    destruct (bool_decide_reflect (c' ∈ awaiting_dead_done q)); [|done]. simpl.
    rewrite !filter_app, !len_app, IH. rewrite (filter_cons_False (fun e => e = Delivered (Dead c)) (Acknowledged c')) by done.
    destruct (decide (c' = c)) as [->|].
    + rewrite filter_cons_True, bool_decide_true, bool_decide_false by set_solver. unfold len. simpl. lia.
    + rewrite filter_cons_False by congruence.
      rewrite (bool_decide_ext (c ∈ _ ∖ _) (c ∈ awaiting_dead_done q)) by set_solver.
      unfold len. simpl. lia.
Qed.

Lemma read_total debug q output : queue_ok q -> exists r, read debug q output = Some r.
Proof.
  intros Hq. destruct (Z.ltb_spec (len output) 12).
  - unfold read. destruct (Z.ltb_spec (len output) 12); [eauto|lia].
  - destruct (pending q) as [|w rest] eqn:Hp.
    + unfold read. rewrite Hp. case_match; eauto.
    + rewrite (read_head debug q output w rest) by done. eauto.
Qed.

(** ** Properties *)

(** Death work is delivered first in, first out and nothing is lost or repeated: what
    was enqueued is what was delivered followed by what is pending.  Every death notice of a
    cookie but the last has been acknowledged, and the last one is awaited exactly while it is
    not.  A pending notice is never also awaited, so the debug assertion of [read] never
    fails, in any build. *)
Theorem death_queue_fifo debug es q (H : history debug es q) :
  enqueued es = delivered es ++ pending q /\
  (forall c, notices c es =
             acknowledgements c es + Z.b2z (bool_decide (c ∈ awaiting_dead_done q))) /\
  (forall c, Dead c ∈ pending q -> c ∉ awaiting_dead_done q) /\
  (forall output, exists r, read debug q output = Some r).
Proof.
  pose proof (history_ok _ _ _ H) as Hq. split_and!.
  - by eapply history_fifo.
  - intros c. by eapply history_notices.
  - apply Hq.
  - intros output. by apply read_total.
Qed.

Lemma death_queue_fifo_witness :
  exists q, history true [Enqueued (Dead 7); Delivered (Dead 7); Acknowledged 7] q /\
    enqueued [Enqueued (Dead 7); Delivered (Dead 7); Acknowledged 7] =
      delivered [Enqueued (Dead 7); Delivered (Dead 7); Acknowledged 7] ++ pending q.
Proof.
  set (q1 := {| pending := [Dead 7]; awaiting_dead_done := ∅ |}).
  set (q2 := {| pending := []; awaiting_dead_done := {[7]} ∪ ∅ |}).
  exists (acknowledge_dead q2 7).1.
  assert (Hh : history true [Enqueued (Dead 7); Delivered (Dead 7); Acknowledged 7]
                 (acknowledge_dead q2 7).1).
  { apply (history_acknowledge true [Enqueued (Dead 7); Delivered (Dead 7)] q2 7);
      [|vm_compute; reflexivity].
    apply (history_read true [Enqueued (Dead 7)] q1 (Dead 7) [] (zeroed 12) q2
             (u32_le BR_DEAD_BINDER ++ u64_le 7)); [|reflexivity|vm_compute; reflexivity].
    apply (history_dead true [] default_queue reserve_ok 7 q1); [constructor|].
    vm_compute. reflexivity. }
  split; [exact Hh|]. exact (proj1 (death_queue_fifo true _ _ Hh)).
Defined.
