(* ===== verification/ReceiveArena.v ===== *)
(** * Receive memory ([mapping.rs], [receive_arena.rs])

    A process receives transactions in one mapping.  The two views of the mapping show the
    same pages, so the model keeps the bytes once, with the client view's address.  The arena
    hands out regions of it, best fit first, and merges the regions it gets back. *)
From S2P Require Import Prelude TransactionLayout.

(** ** The mapping ([mapping.rs]) *)

Record ReceiveMapping : Type := { client_address : Z; pages : bytes }.

(** [ReceiveMapping::new]: [mapped] is the outcome of the system calls that create the
    backing object and map it, with the address of the client view; new pages are zero. *)
Definition mapping_new (mapped : result Z Errno) (length : Z) : result ReceiveMapping Errno :=
  if (length =? 0) || (isize_max <? length) then Err EINVAL
  else
    let? address := mapped in
    Ok {| client_address := address; pages := zeroed (Z.to_nat length) |}.

(** The check both writers make: [offset.checked_add(n).filter(|end| *end <= length)]. *)
Definition in_mapping (m : ReceiveMapping) (offset n : Z) : bool :=
  match checked_add usize_max offset n with
  | Some end_ => end_ <=? len (pages m)
  | None => false
  end.

Definition mapping_write (m : ReceiveMapping) (offset : Z) (data : bytes)
    : ReceiveMapping * result unit Errno :=
  if negb (in_mapping m offset (len data)) then (m, Err EINVAL)
  else ({| client_address := client_address m;
           pages := copy_at (Z.to_nat offset) data (pages m) |}, Ok tt).

Definition mapping_clear (m : ReceiveMapping) (offset length : Z)
    : ReceiveMapping * result unit Errno :=
  if negb (in_mapping m offset length) then (m, Err EINVAL)
  else ({| client_address := client_address m;
           pages := copy_at (Z.to_nat offset) (zeroed (Z.to_nat length)) (pages m) |}, Ok tt).

(** ** The arena ([receive_arena.rs]) *)

Record ReceiveArena : Type :=
  { mapping : ReceiveMapping; free : gmap Z Z; allocated : gmap Z Z }.

Definition new (mapped : result Z Errno) (capacity : Z) : result ReceiveArena Errno :=
  if (capacity =? 0) || negb (capacity mod 8 =? 0) then Err EINVAL
  else
    let? mapping := mapping_new mapped capacity in
    Ok {| mapping := mapping; free := {[ 0 := capacity ]}; allocated := ∅ |}.

(** The keys of [min_by_key]: size first, then offset. *)
Definition tighter (a b : Z * Z) : bool :=
  (a.2 <? b.2) || ((a.2 =? b.2) && (a.1 <? b.1)).

(** [filter(|(_, size)| size >= length).min_by_key(..)]: the first minimal entry. *)
Fixpoint best_fit (length : Z) (entries : list (Z * Z)) : option (Z * Z) :=
  match entries with
  | [] => None
  | e :: entries =>
      let rest := best_fit length entries in
      if e.2 <? length then rest
      else match rest with
           | None => Some e
           | Some b => if tighter b e then Some b else Some e
           end
  end.

Definition allocate (a : ReceiveArena) (length : Z) : ReceiveArena * result Z Errno :=
  match align8 (Z.max length 1) with
  | None => (a, Err EINVAL)
  | Some length =>
      match best_fit length (in_order (free a)) with
      | None => (a, Err ENOSPC)
      | Some (offset, available) =>
          let free := delete offset (free a) in
          let free := if length <? available
                      then <[offset + length := available - length]> free else free in
          ({| mapping := mapping a; free := free;
              allocated := <[offset := length]> (allocated a) |},
           Ok (client_address (mapping a) + offset))
      end
  end.

Definition reserve_transaction (a : ReceiveArena) (layout : TransactionLayout)
    : ReceiveArena * result Z Errno :=
  allocate a (total layout).

(** The live allocation that starts at a client address. *)
Definition live (a : ReceiveArena) (address : Z) : result (Z * Z) Errno :=
  let? start := ok_or (checked_sub address (client_address (mapping a))) EINVAL in
  let? length := ok_or (allocated a !! start) EINVAL in
  Ok (start, length).

Definition with_mapping (a : ReceiveArena) (m : ReceiveMapping) : ReceiveArena :=
  {| mapping := m; free := free a; allocated := allocated a |}.

Definition clear (a : ReceiveArena) (address : Z) : ReceiveArena * result unit Errno :=
  match live a address with
  | Err e => (a, Err e)
  | Ok (start, length) =>
      let '(m, res) := mapping_clear (mapping a) start length in (with_mapping a m, res)
  end.

Definition write (a : ReceiveArena) (address offset : Z) (data : bytes)
    : ReceiveArena * result unit Errno :=
  match live a address with
  | Err e => (a, Err e)
  | Ok (start, length) =>
      if match checked_add usize_max offset (len data) with
         | None => true
         | Some end_ => length <? end_
         end
      then (a, Err EINVAL)
      else
        let '(m, res) := mapping_write (mapping a) (start + offset) data in
        (with_mapping a m, res)
  end.

(** [&self.mapping.bytes()[start..start + length]]: [None] is the panic of an index out of
    bounds. *)
Definition arena_bytes (a : ReceiveArena) (address : Z) : option (result bytes Errno) :=
  match live a address with
  | Err e => Some (Err e)
  | Ok (start, length) => Ok <$> get_range (pages (mapping a)) start (start + length)
  end.

(** [self.free.range(..offset).next_back()]. *)
Definition previous_free (a : gmap Z Z) (offset : Z) : option (Z * Z) :=
  last (filter (fun e => e.1 < offset) (in_order a)).

(** The two merges of [release]: with the region that ends at [offset], and with the one that
    starts at [offset + length]. *)
Definition absorb_previous (free : gmap Z Z) (offset length : Z) : gmap Z Z * Z * Z :=
  match previous_free free offset with
  | Some (previous, size) =>
      if previous + size =? offset then (delete previous free, previous, length + size)
      else (free, offset, length)
  | None => (free, offset, length)
  end.

Definition absorb_next (free : gmap Z Z) (offset length : Z) : gmap Z Z * Z :=
  match free !! (offset + length) with
  | Some size => (delete (offset + length) free, length + size)
  | None => (free, length)
  end.

Definition release (a : ReceiveArena) (address : Z) : ReceiveArena * result unit Errno :=
  match live a address with
  | Err e => (a, Err e)
  | Ok (offset, length) =>
      let allocated := delete offset (allocated a) in
      let '(free, offset, length) := absorb_previous (free a) offset length in
      let '(free, length) := absorb_next free offset length in
      ({| mapping := mapping a; free := <[offset := length]> free; allocated := allocated |},
       Ok tt)
  end.

(** ** Specification *)

(** The entries of [m] tile [[0, cap)]: they do not overlap and leave no gap. *)
Record tiling (cap : Z) (m : gmap Z Z) : Prop := {
  tile_bounds o l :
    m !! o = Some l -> 0 <= o /\ 0 < l /\ o + l <= cap /\ o mod 8 = 0 /\ l mod 8 = 0;
  tile_disjoint o l o' l' :
    m !! o = Some l -> m !! o' = Some l' -> o < o' -> o + l <= o';
  tile_cover x : 0 <= x < cap -> exists o l, m !! o = Some l /\ o <= x < o + l }.

Record arena_ok (a : ReceiveArena) : Prop := {
  arena_apart : free a ##ₘ allocated a;
  arena_tiles : tiling (len (pages (mapping a))) (free a ∪ allocated a);
  arena_coalesced o l : free a !! o = Some l -> free a !! (o + l) = None;
  arena_size : len (pages (mapping a)) <= isize_max;
  arena_address :
    0 <= client_address (mapping a) /\
    client_address (mapping a) + len (pages (mapping a)) <= usize_max }.

(** ** Lemmas *)

Section tilings.
Context (cap : Z) (m : gmap Z Z) (Hm : tiling cap m).

(** Splitting a tile. *)
Lemma tiling_split o l av :
  m !! o = Some av -> 0 < l < av -> l mod 8 = 0 ->
  tiling cap (<[o + l := av - l]> (<[o := l]> m)).
Proof.
  intros Ho Hl Hmod. destruct (tile_bounds _ _ Hm _ _ Ho) as (? & ? & ? & ? & ?).
  assert (Hlook : forall o' l', <[o + l := av - l]> (<[o := l]> m) !! o' = Some l' ->
    o' = o + l /\ l' = av - l \/ o' = o /\ l' = l \/ o' <> o /\ m !! o' = Some l').
  { intros o' l'. rewrite !lookup_insert_Some. naive_solver. }
  assert (Hsep : forall o' l', o' <> o -> m !! o' = Some l' -> o' + l' <= o \/ o + av <= o').
  { intros o' l' Hne Ho'. destruct (Z_lt_le_dec o' o).
    - left. by eapply (tile_disjoint _ _ Hm).
    - right. eapply (tile_disjoint _ _ Hm); [done..|lia]. }
  split.
  - intros o' l' [[-> ->]|[[-> ->]|[? Ho']]]%Hlook; [split_and!; mod_lia|split_and!; (done || lia)|].
    by apply (tile_bounds _ _ Hm).
  - intros o1 l1 o2 l2 L1%Hlook L2%Hlook Hlt.
    destruct L1 as [[-> ->]|[[-> ->]|[Hn1 L1]]], L2 as [[-> ->]|[[-> ->]|[Hn2 L2]]]; try lia.
    + destruct (Hsep _ _ Hn2 L2); [|lia]. pose proof (tile_bounds _ _ Hm _ _ L2). lia.
    + destruct (Hsep _ _ Hn2 L2); [|lia]. pose proof (tile_bounds _ _ Hm _ _ L2). lia.
    + destruct (Hsep _ _ Hn1 L1); lia.
    + destruct (Hsep _ _ Hn1 L1); lia.
    + by eapply (tile_disjoint _ _ Hm).
  - intros x Hx. destruct (tile_cover _ _ Hm x Hx) as (o' & l' & Ho' & Hin).
    destruct (decide (o' = o)) as [->|].
    + rewrite Ho in Ho'. injection Ho' as <-. destruct (Z_lt_le_dec x (o + l)).
      * exists o, l. rewrite lookup_insert_ne by lia. rewrite lookup_insert_eq. split; [done|lia].
      * exists (o + l), (av - l). rewrite lookup_insert_eq. split; [done|lia].
    + exists o', l'. split; [|done]. rewrite !lookup_insert_ne; [done|done|].
      intros <-. destruct (Hsep _ _ ltac:(done) Ho'); lia.
Qed.

(** Merging two adjacent tiles. *)
Lemma tiling_merge o l l' :
  m !! o = Some l -> m !! (o + l) = Some l' ->
  tiling cap (<[o := l + l']> (delete (o + l) m)).
Proof.
  intros Ho Ho2. destruct (tile_bounds _ _ Hm _ _ Ho) as (? & ? & ? & ? & ?).
  destruct (tile_bounds _ _ Hm _ _ Ho2) as (? & ? & ? & ? & ?).
  assert (Hlook : forall p k, <[o := l + l']> (delete (o + l) m) !! p = Some k ->
    p = o /\ k = l + l' \/ p <> o /\ p <> o + l /\ m !! p = Some k).
  { intros p k. rewrite lookup_insert_Some, lookup_delete_Some. naive_solver. }
  split.
  - intros p k [[-> ->]|(? & ? & Hp)]%Hlook; [split_and!; mod_lia|]. by apply (tile_bounds _ _ Hm).
  - intros p1 k1 p2 k2 L1%Hlook L2%Hlook Hlt.
    destruct L1 as [[-> ->]|(Hn1 & Hn1' & L1)], L2 as [[-> ->]|(Hn2 & Hn2' & L2)]; try lia.
    + pose proof (tile_disjoint _ _ Hm _ _ _ _ Ho L2 Hlt).
      pose proof (tile_disjoint _ _ Hm _ _ _ _ Ho2 L2 ltac:(lia)). lia.
    + by eapply (tile_disjoint _ _ Hm).
    + by eapply (tile_disjoint _ _ Hm).
  - intros x Hx. destruct (tile_cover _ _ Hm x Hx) as (p & k & Hp & Hin).
    destruct (decide (p = o)) as [->|].
    { rewrite Ho in Hp. injection Hp as <-. exists o, (l + l'). rewrite lookup_insert_eq.
      split; [done|lia]. }
    destruct (decide (p = o + l)) as [->|].
    { rewrite Ho2 in Hp. injection Hp as <-. exists o, (l + l'). rewrite lookup_insert_eq.
      split; [done|lia]. }
    exists p, k. split; [|done]. rewrite lookup_insert_ne, lookup_delete_ne by done. done.
Qed.

(** Two tiles that end at the same place are the same. *)
Lemma tiling_end o l o' l' :
  m !! o = Some l -> m !! o' = Some l' -> o + l = o' + l' -> o = o'.
Proof.
  intros Ho Ho' E.
  pose proof (tile_bounds _ _ Hm _ _ Ho). pose proof (tile_bounds _ _ Hm _ _ Ho').
  destruct (Z.lt_trichotomy o o') as [H1|[|H1]]; [|done|].
  - pose proof (tile_disjoint _ _ Hm _ _ _ _ Ho Ho' H1). lia.
  - pose proof (tile_disjoint _ _ Hm _ _ _ _ Ho' Ho H1). lia.
Qed.
End tilings.

(** *** Best fit *)

Lemma best_fit_None length entries :
  best_fit length entries = None -> forall e, e ∈ entries -> e.2 < length.
Proof.
  induction entries as [|e entries IH]; simpl; [intros _ e He; by apply elem_of_nil in He|].
  destruct (Z.ltb_spec e.2 length); [|by repeat case_match].
  intros H0 e' [->|He]%elem_of_cons; [done|by apply IH].
Qed.

Lemma best_fit_Some length entries o av :
  best_fit length entries = Some (o, av) ->
  (o, av) ∈ entries /\ length <= av /\
  forall e, e ∈ entries -> length <= e.2 -> tighter e (o, av) = false.
Proof.
  induction entries as [|[o' l'] entries IH] in o, av |- *; simpl; [done|].
  destruct (Z.ltb_spec l' length) as [Hs|Hs].
  - intros (Hin & ? & Hmin)%IH. split_and!; [by right|done|].
    intros e [->|He]%elem_of_cons ?; [simpl in *; lia|by apply Hmin].
  - destruct (best_fit length entries) as [[ob lb]|] eqn:E.
    + destruct (IH ob lb eq_refl) as (Hin & ? & Hmin). destruct (tighter (ob, lb) (o', l')) eqn:Et.
      * intros [= <- <-]. split_and!; [by right|done|].
        intros e [->|He]%elem_of_cons ?; [|by apply Hmin].
        unfold tighter in *. simpl in *. lia.
      * intros [= <- <-]. split_and!; [by left|done|].
        intros e [->|He]%elem_of_cons Hle; [unfold tighter; simpl; lia|].
        specialize (Hmin e He Hle). unfold tighter in *. simpl in *. lia.
    + intros [= <- <-]. split_and!; [by left|done|].
      intros e [->|He]%elem_of_cons Hle; [unfold tighter; simpl; lia|]. exfalso.
      pose proof (best_fit_None _ _ E e He). lia.
Qed.

(** *** The region before an offset *)

Lemma last_below (L : list (Z * Z)) offset :
  StronglySorted Z.lt L.*1 ->
  match last (filter (fun e => e.1 < offset) L) with
  | Some e => e ∈ L /\ e.1 < offset /\ forall e', e' ∈ L -> e'.1 < offset -> e'.1 <= e.1
  | None => forall e', e' ∈ L -> offset <= e'.1
  end.
Proof.
  induction L as [|a L IH]; cbn [fmap list_fmap]; intros Hs.
  { simpl. intros e' He. by apply elem_of_nil in He. }
  apply StronglySorted_inv in Hs as [Hs Ha]. specialize (IH Hs).
  rewrite Forall_forall in Ha.
  assert (Hlt : forall e', e' ∈ L -> a.1 < e'.1).
  { intros e' He. apply Ha. by apply list_elem_of_fmap_2. }
  destruct (decide (a.1 < offset)) as [H|H].
  - rewrite filter_cons_True by done.
    destruct (filter (fun e => e.1 < offset) L) as [|b fl] eqn:Ef.
    + simpl in *. split_and!; [by left|done|].
      intros e' [->|He]%elem_of_cons ?; [lia|]. specialize (IH e' He). lia.
    + rewrite last_cons_cons. destruct (last (b :: fl)) as [e|] eqn:El.
      * destruct IH as (He & ? & Hmax). split_and!; [by right|done|].
        intros e' [->|He']%elem_of_cons ?; [|by apply Hmax]. specialize (Hlt _ He). lia.
      * by apply last_None in El.
  - rewrite filter_cons_False by done. destruct (last _) as [e|].
    + destruct IH as (He & ? & Hmax). specialize (Hlt _ He). lia.
    + intros e' [->|He]%elem_of_cons; [lia|]. by apply IH.
Qed.

Lemma previous_free_spec (f : gmap Z Z) offset :
  match previous_free f offset with
  | Some (p, s) =>
      f !! p = Some s /\ p < offset /\ forall q k, f !! q = Some k -> q < offset -> q <= p
  | None => forall q k, f !! q = Some k -> offset <= q
  end.
Proof.
  unfold previous_free. pose proof (last_below (in_order f) offset (in_order_keys f)) as H.
  destruct (last _) as [[p s]|].
  - destruct H as (Hin & ? & Hmax). rewrite in_order_lookup in Hin. split_and!; [done..|].
    intros q k Hq ?. apply (Hmax (q, k)); [by apply in_order_lookup|done].
  - intros q k Hq. apply (H (q, k)). by apply in_order_lookup.
Qed.

Lemma tiling_eq cap (m m' : gmap Z Z) : (forall q, m !! q = m' !! q) -> tiling cap m' -> tiling cap m.
Proof. intros E. by rewrite (map_eq m m' E). Qed.

(** *** Giving a region back

    [f] with the region at [offset] added tiles the space together with the allocations
    [al]. *)
Section giving_back.
Context (cap : Z) (al : gmap Z Z).

Definition spare (f : gmap Z Z) (offset length : Z) : Prop :=
  f !! offset = None /\ (<[offset := length]> f) ##ₘ al /\
  tiling cap (<[offset := length]> f ∪ al).

Lemma spare_pos f offset length : spare f offset length -> 0 < length.
Proof.
  intros (_ & _ & H). apply (tile_bounds _ _ H offset). apply lookup_union_Some_l, lookup_insert_eq.
Qed.

Lemma spare_lookup f offset length q k :
  spare f offset length -> f !! q = Some k -> (<[offset := length]> f ∪ al) !! q = Some k.
Proof. intros (Hn & _) Hq. apply lookup_union_Some_l. rewrite lookup_insert_ne by congruence. done. Qed.

Lemma spare_merge_previous f offset length p s :
  spare f offset length -> f !! p = Some s -> p + s = offset ->
  spare (delete p f) p (length + s).
Proof.
  intros (Hn & Hd & Ht) Hp Hs.
  assert (Hne : p <> offset) by congruence.
  assert (Ep : (<[offset := length]> f ∪ al) !! p = Some s).
  { apply lookup_union_Some_l. by rewrite lookup_insert_ne. }
  assert (Eo : (<[offset := length]> f ∪ al) !! (p + s) = Some length).
  { rewrite Hs. apply lookup_union_Some_l, lookup_insert_eq. }
  pose proof (tiling_merge _ _ Ht _ _ _ Ep Eo) as Hm. rewrite Hs in Hm.
  rewrite map_disjoint_spec in Hd. split; [apply lookup_delete_eq|]. split.
  - apply map_disjoint_spec. intros q x y. rewrite insert_delete_eq, lookup_insert_Some.
    intros [[<- _]|[_ Hq]] Hal; eapply Hd; [|done| |done]; rewrite lookup_insert_ne; try done; congruence.
  - eapply tiling_eq; [|exact Hm]. intros q. rewrite insert_delete_eq.
    destruct (decide (q = p)) as [->|].
    + rewrite lookup_insert_eq, lookup_union, lookup_insert_eq. rewrite (Z.add_comm s).
      by destruct (al !! p).
    + rewrite lookup_insert_ne, lookup_union, lookup_insert_ne by done.
      destruct (decide (q = offset)) as [->|].
      * rewrite lookup_delete_eq, Hn. destruct (al !! offset) eqn:E; [|done].
        by destruct (Hd offset length z); [apply lookup_insert_eq|].
      * by rewrite lookup_delete_ne, lookup_union, lookup_insert_ne by done.
Qed.

Lemma spare_merge_next f offset length s :
  spare f offset length -> f !! (offset + length) = Some s ->
  spare (delete (offset + length) f) offset (length + s).
Proof.
  intros Hsp Hs. pose proof (spare_pos _ _ _ Hsp) as Hpos. destruct Hsp as (Hn & Hd & Ht).
  assert (Hne : offset <> offset + length) by lia.
  assert (Eo : (<[offset := length]> f ∪ al) !! offset = Some length).
  { apply lookup_union_Some_l, lookup_insert_eq. }
  assert (En : (<[offset := length]> f ∪ al) !! (offset + length) = Some s).
  { apply lookup_union_Some_l. by rewrite lookup_insert_ne. }
  pose proof (tiling_merge _ _ Ht _ _ _ Eo En) as Hm.
  rewrite map_disjoint_spec in Hd. split; [by rewrite lookup_delete_ne|]. split.
  - apply map_disjoint_spec. intros q x y. rewrite lookup_insert_Some, lookup_delete_Some.
    intros [[<- _]|(? & ? & Hq)] Hal; eapply Hd; [|done| |done];
      [by rewrite lookup_insert_eq|by rewrite lookup_insert_ne].
  - eapply tiling_eq; [|exact Hm]. intros q. destruct (decide (q = offset)) as [->|].
    + rewrite lookup_insert_eq, lookup_union, lookup_insert_eq. by destruct (al !! offset).
    + rewrite lookup_insert_ne, lookup_union, lookup_insert_ne by done.
      destruct (decide (q = offset + length)) as [->|].
      * rewrite !lookup_delete_eq. destruct (al !! (offset + length)) as [y|] eqn:E; [|done].
        by destruct (Hd (offset + length) s y); [rewrite lookup_insert_ne|].
      * by rewrite !lookup_delete_ne, lookup_union, lookup_insert_ne by done.
Qed.
End giving_back.

Definition coalesced (f : gmap Z Z) : Prop := forall o l, f !! o = Some l -> f !! (o + l) = None.

(** No region of [f] ends where the given one starts. *)
Definition detached (f : gmap Z Z) (offset : Z) : Prop :=
  forall o l, f !! o = Some l -> o + l <> offset.

Lemma coalesced_delete f p : coalesced f -> coalesced (delete p f).
Proof.
  intros H o l. rewrite lookup_delete_Some. intros [_ Ho]. apply lookup_delete_None. right. eauto.
Qed.

(** The merge of [release] with the region before. *)
Lemma merge_previous cap al f offset length :
  spare cap al f offset length -> coalesced f ->
  let '(f', offset', length') := absorb_previous f offset length in
  spare cap al f' offset' length' /\ coalesced f' /\ detached f' offset'.
Proof.
  intros Hsp Hc. unfold absorb_previous. pose proof (previous_free_spec f offset) as Hp.
  assert (Hl : forall q k, f !! q = Some k -> 0 < k).
  { intros q k Hq. apply (tile_bounds _ _ (proj2 (proj2 Hsp)) q). by eapply spare_lookup. }
  destruct (previous_free f offset) as [[p s]|].
  - destruct Hp as (Hp & Hlt & Hmax). destruct (Z.eqb_spec (p + s) offset) as [E|E].
    + split_and!; [by eapply spare_merge_previous|by apply coalesced_delete|].
      intros o l [_ Ho]%lookup_delete_Some Eo. specialize (Hc _ _ Ho). congruence.
    + split_and!; [done..|]. intros o l Ho Eo. specialize (Hl _ _ Ho).
      assert (o <= p) by (eapply Hmax; [done|lia]).
      destruct (decide (o = p)) as [->|]; [congruence|].
      pose proof (tile_disjoint _ _ (proj2 (proj2 Hsp)) o l p s (spare_lookup _ _ _ _ _ _ _ Hsp Ho)
        (spare_lookup _ _ _ _ _ _ _ Hsp Hp)). lia.
  - split_and!; [done..|]. intros o l Ho Eo. specialize (Hp _ _ Ho). specialize (Hl _ _ Ho). lia.
Qed.

(** The merge of [release] with the region after, and the final insertion. *)
Lemma merge_next cap al f offset length :
  spare cap al f offset length -> coalesced f -> detached f offset ->
  let '(f', length') := absorb_next f offset length in
  spare cap al f' offset length' /\ coalesced (<[offset := length']> f').
Proof.
  intros Hsp Hc Hd.
  assert (Hfin : forall f' length', spare cap al f' offset length' -> coalesced f' ->
    detached f' offset -> f' !! (offset + length') = None -> coalesced (<[offset := length']> f')).
  { intros f' length' Hsp' Hc' Hd' Hn o l. pose proof (spare_pos _ _ _ _ _ Hsp').
    rewrite lookup_insert_Some. intros [[<- <-]|[Hne Ho]].
    - rewrite lookup_insert_ne by lia. done.
    - rewrite lookup_insert_ne by (by apply not_eq_sym, Hd'). eauto. }
  unfold absorb_next. destruct (f !! (offset + length)) as [s|] eqn:E; [|eauto].
  pose proof (spare_merge_next _ _ _ _ _ _ Hsp E) as Hsp'. split; [done|].
  apply Hfin; [done|by apply coalesced_delete| |].
  - intros o l [_ Ho]%lookup_delete_Some. by apply Hd.
  - apply lookup_delete_None. right. rewrite Z.add_assoc. by apply Hc.
Qed.

(** *** Operations *)

(** The arena after [length] bytes of the free region [(o, av)] are handed out. *)
Definition taken (a : ReceiveArena) (o av length : Z) : ReceiveArena :=
  {| mapping := mapping a;
     free := if length <? av then <[o + length := av - length]> (delete o (free a))
             else delete o (free a);
     allocated := <[o := length]> (allocated a) |}.

Lemma allocate_Ok a length a' address :
  allocate a length = (a', Ok address) ->
  exists o av l,
    align8 (Z.max length 1) = Some l /\ best_fit l (in_order (free a)) = Some (o, av) /\
    free a !! o = Some av /\ l <= av /\
    address = client_address (mapping a) + o /\ a' = taken a o av l.
Proof.
  unfold allocate. destruct (align8 _) as [l|] eqn:El; [|done].
  destruct (best_fit _ _) as [[o av]|] eqn:Eb; intros [= <- <-].
  exists o, av, l. pose proof Eb as (Hin & ? & _)%best_fit_Some.
  rewrite in_order_lookup in Hin. by split_and!.
Qed.

Lemma aligned_length length l :
  align8 (Z.max length 1) = Some l -> 0 < l /\ l mod 8 = 0 /\ Z.max length 1 <= l.
Proof. intros (? & ? & ?)%align8_Some; lia. Qed.

(** Nothing else starts inside a region. *)
Lemma arena_inside a o av x :
  arena_ok a -> free a !! o = Some av -> o < x < o + av ->
  free a !! x = None /\ allocated a !! x = None.
Proof.
  intros Ha Ho Hx.
  assert (Em : (free a ∪ allocated a) !! o = Some av) by (by apply lookup_union_Some_l).
  assert (Hn : (free a ∪ allocated a) !! x = None).
  { destruct ((free a ∪ allocated a) !! x) as [k|] eqn:E; [|done].
    pose proof (tile_disjoint _ _ (arena_tiles _ Ha) _ _ _ _ Em E ltac:(lia)). lia. }
  by apply lookup_union_None in Hn.
Qed.

Lemma taken_ok a o av l :
  arena_ok a -> free a !! o = Some av -> 0 < l <= av -> l mod 8 = 0 -> arena_ok (taken a o av l).
Proof.
  intros Ha Ho Hl Hmod. pose proof Ha as [Hd Ht Hc Hsz Haddr].
  assert (Hal : allocated a !! o = None) by (by eapply map_disjoint_Some_l).
  pose proof (fun x => arena_inside a o av x Ha Ho) as Hin.
  assert (Em : (free a ∪ allocated a) !! o = Some av) by (by apply lookup_union_Some_l).
  unfold taken. destruct (Z.ltb_spec l av).
  - destruct (Hin (o + l) ltac:(lia)) as [Hf1 Hf2]. split; simpl; try done.
    + rewrite map_disjoint_insert_l, map_disjoint_insert_r. split.
      { by rewrite lookup_insert_ne by lia. }
      split; [apply lookup_delete_eq|]. by apply map_disjoint_delete_l.
    + eapply tiling_eq; [|apply (tiling_split _ _ Ht o l av); (done || lia)]. intros q.
      rewrite lookup_union. destruct (decide (q = o + l)) as [->|].
      { rewrite !lookup_insert_eq, lookup_insert_ne, Hf2 by lia. done. }
      rewrite !(lookup_insert_ne _ (o + l)) by done. destruct (decide (q = o)) as [->|].
      { rewrite lookup_delete_eq, !lookup_insert_eq. done. }
      by rewrite lookup_delete_ne, !lookup_insert_ne, lookup_union by done.
    + intros q k. rewrite lookup_insert_Some, lookup_delete_Some.
      intros [[<- <-]|(Hq1 & Hq2 & Hq)].
      * replace (o + l + (av - l)) with (o + av) by lia.
        rewrite lookup_insert_ne by lia. apply lookup_delete_None. right. by apply Hc.
      * assert (q + k <> o + l) as Hne.
        { intros E. assert (Eq : (free a ∪ allocated a) !! q = Some k) by (by apply lookup_union_Some_l).
          pose proof (tile_bounds _ _ Ht _ _ Eq).
          destruct (Z_lt_le_dec q o).
          - pose proof (tile_disjoint _ _ Ht _ _ _ _ Eq Em ltac:(lia)). lia.
          - pose proof (tile_disjoint _ _ Ht _ _ _ _ Em Eq ltac:(lia)). lia. }
        rewrite lookup_insert_ne by (by apply not_eq_sym). apply lookup_delete_None. right. by apply Hc.
  - assert (l = av) as -> by lia. split; simpl; try done.
    + rewrite map_disjoint_insert_r. split; [apply lookup_delete_eq|]. by apply map_disjoint_delete_l.
    + eapply tiling_eq; [|exact Ht]. intros q. rewrite !lookup_union.
      destruct (decide (q = o)) as [->|].
      * by rewrite lookup_delete_eq, lookup_insert_eq, Ho, Hal.
      * by rewrite lookup_delete_ne, lookup_insert_ne by done.
    + by apply coalesced_delete.
Qed.

Lemma allocate_ok a length a' res :
  arena_ok a -> allocate a length = (a', res) -> arena_ok a'.
Proof.
  intros Ha E. destruct res as [address|e].
  - apply allocate_Ok in E as (o & av & l & El & _ & Ho & ? & _ & ->).
    apply aligned_length in El as (? & ? & _). by apply taken_ok.
  - unfold allocate in E. destruct (align8 _); [|by injection E as <- _].
    destruct (best_fit _ _) as [[]|]; [done|by injection E as <- _].
Qed.

Lemma live_Ok a address start length :
  live a address = Ok (start, length) <->
  client_address (mapping a) <= address /\ start = address - client_address (mapping a) /\
  allocated a !! start = Some length.
Proof.
  unfold live. destruct (checked_sub _ _) eqn:E; simpl.
  - apply checked_sub_Some in E as [-> ?]. destruct (allocated a !! _) eqn:El; simpl;
      (split; [intros [= <- <-]; done|intros (_ & -> & ?); congruence]) ||
      (split; [done|intros (_ & -> & ?); congruence]).
  - apply checked_sub_None in E. split; [done|lia].
Qed.

Lemma release_ok a address a' res :
  arena_ok a -> release a address = (a', res) -> arena_ok a'.
Proof.
  intros Ha. unfold release. destruct (live a address) as [[offset length]|] eqn:El;
    [|by intros [= <- _]].
  apply live_Ok in El as (_ & _ & Hal). destruct Ha as [Hd Ht Hc Hsz Haddr].
  set (al := delete offset (allocated a)). set (cap := len (pages (mapping a))) in *.
  assert (Hf : free a !! offset = None) by (by eapply map_disjoint_Some_r).
  assert (Hsp : spare cap al (free a) offset length).
  { split; [done|]. split.
    - rewrite map_disjoint_insert_l. split; [apply lookup_delete_eq|]. by apply map_disjoint_delete_r.
    - eapply tiling_eq; [|exact Ht]. intros q. unfold al. rewrite !lookup_union.
      destruct (decide (q = offset)) as [->|].
      + by rewrite lookup_insert_eq, lookup_delete_eq, Hf, Hal.
      + by rewrite lookup_insert_ne, lookup_delete_ne by done. }
  pose proof (merge_previous cap al (free a) offset length Hsp Hc) as H.
  destruct (absorb_previous _ _ _) as [[f1 offset1] length1].
  destruct H as (Hsp1 & Hc1 & Hd1).
  pose proof (merge_next cap al f1 offset1 length1 Hsp1 Hc1 Hd1) as H.
  destruct (absorb_next _ _ _) as [f2 length2]. destruct H as [(_ & Hd2 & Ht2) Hc2].
  intros [= <- _]. by split.
Qed.

Lemma live_range a address start length :
  arena_ok a -> live a address = Ok (start, length) ->
  0 <= start /\ 0 < length /\ start + length <= len (pages (mapping a)) /\
  start mod 8 = 0 /\ length mod 8 = 0.
Proof.
  intros Ha (_ & _ & Hal)%live_Ok. apply (tile_bounds _ _ (arena_tiles _ Ha)).
  apply lookup_union_Some_r; [apply Ha|done].
Qed.

Lemma with_mapping_ok a m :
  arena_ok a -> client_address m = client_address (mapping a) ->
  length (pages m) = length (pages (mapping a)) -> arena_ok (with_mapping a m).
Proof. intros [????[]] E El. split; simpl; unfold len in *; rewrite ?E, ?El; done. Qed.

Lemma in_mapping_true m offset n : 
  offset + n <= len (pages m) -> len (pages m) <= isize_max -> in_mapping m offset n = true.
Proof.
  intros ??. unfold in_mapping. rewrite (proj2 (checked_add_Some _ _ _ (offset + n))).
  - by apply Z.leb_le.
  - split; [done|]. unfold isize_max, usize_max, u64_max in *. lia.
Qed.

(** A write into a live allocation, in full. *)
Lemma write_exact a address offset data start length :
  arena_ok a -> live a address = Ok (start, length) -> 0 <= offset ->
  write a address offset data =
    if length <? offset + len data then (a, Err EINVAL)
    else (with_mapping a {| client_address := client_address (mapping a);
            pages := copy_at (Z.to_nat (start + offset)) data (pages (mapping a)) |}, Ok tt).
Proof.
  intros Ha El Hoff. destruct (live_range _ _ _ _ Ha El) as (? & ? & Hcap & _).
  unfold write. rewrite El. pose proof (arena_size _ Ha). pose proof (len_nonneg data).
  destruct (checked_add _ _ _) as [e|] eqn:E.
  - apply checked_add_Some in E as [-> _]. destruct (Z.ltb_spec length (offset + len data)); [done|].
    unfold mapping_write. rewrite in_mapping_true by lia. done.
  - apply checked_add_None in E. unfold usize_max, u64_max, isize_max in *.
    destruct (Z.ltb_spec length (offset + len data)); [done|lia].
Qed.

Lemma write_ok a address offset data a' res :
  arena_ok a -> 0 <= offset -> write a address offset data = (a', res) -> arena_ok a'.
Proof.
  intros Ha Hoff. destruct (live a address) as [[start length]|] eqn:El.
  - destruct (live_range _ _ _ _ Ha El) as (? & ? & Hcap & _).
    rewrite (write_exact _ _ _ _ _ _ Ha El Hoff).
    destruct (Z.ltb_spec length (offset + len data)); intros [= <- _]; [done|].
    apply with_mapping_ok; [done..|]. simpl. apply length_copy_at. unfold len in *. lia.
  - unfold write. rewrite El. by intros [= <- _].
Qed.

Lemma clear_ok a address a' res : arena_ok a -> clear a address = (a', res) -> arena_ok a'.
Proof.
  intros Ha. unfold clear. destruct (live a address) as [[start length]|] eqn:El; [|by intros [= <- _]].
  destruct (live_range _ _ _ _ Ha El) as (? & ? & Hcap & _). unfold mapping_clear.
  rewrite in_mapping_true by (done || apply Ha). intros [= <- _].
  apply with_mapping_ok; [done..|]. simpl. apply length_copy_at. unfold zeroed, len in *.
  rewrite length_replicate. lia.
Qed.

Lemma new_arena_ok mapped capacity a :
  (forall address, mapped = Ok address -> 0 <= address /\ address + capacity <= usize_max) ->
  0 <= capacity -> new mapped capacity = Ok a -> arena_ok a.
Proof.
  intros Hmap Hcap. unfold new, mapping_new.
  destruct (Z.eqb_spec capacity 0); [done|]. destruct (Z.eqb_spec (capacity mod 8) 0); [|done]. simpl.
  destruct (Z.ltb_spec isize_max capacity); [done|]. simpl.
  destruct mapped as [address|]; [|done]. intros [= <-]. specialize (Hmap address eq_refl).
  assert (El : len (zeroed (Z.to_nat capacity)) = capacity).
  { unfold len, zeroed. rewrite length_replicate. lia. }
  split; simpl; rewrite ?El; try done.
  - apply map_disjoint_empty_r.
  - rewrite map_union_empty. split.
    + intros o l [<- <-]%lookup_singleton_Some. split_and!; (lia || done).
    + intros o l o' l' [<- <-]%lookup_singleton_Some [<- <-]%lookup_singleton_Some. lia.
    + intros x Hx. exists 0, capacity. rewrite lookup_singleton_eq. split; [done|lia].
  - intros o l [<- <-]%lookup_singleton_Some. apply lookup_singleton_ne. lia.
Qed.

(** *** Reachable arenas *)

Inductive arena_step : ReceiveArena -> ReceiveArena -> Prop :=
| step_allocate a length a' res : allocate a length = (a', res) -> arena_step a a'
| step_release a address a' res : release a address = (a', res) -> arena_step a a'
| step_write a address offset data a' res :
    0 <= offset -> write a address offset data = (a', res) -> arena_step a a'
| step_clear a address a' res : clear a address = (a', res) -> arena_step a a'.

(** [mapped] is documented behaviour of the system calls: a mapping lies in the address
    space. *)
Definition arena_reachable (a : ReceiveArena) : Prop :=
  exists mapped capacity a0,
    (forall address, mapped = Ok address -> 0 <= address /\ address + capacity <= usize_max) /\
    0 <= capacity /\ new mapped capacity = Ok a0 /\ rtc arena_step a0 a.

Lemma arena_reachable_ok a : arena_reachable a -> arena_ok a.
Proof.
  intros (mapped & capacity & a0 & Hm & Hc & Hn & Hr). apply new_arena_ok in Hn; [|done..].
  induction Hr as [|a0 a1 a2 Hs _ IH]; [done|]. apply IH. clear IH.
  destruct Hs; eauto using allocate_ok, release_ok, write_ok, clear_ok.
Qed.

Lemma arena_bytes_live a address start length :
  arena_ok a -> live a address = Ok (start, length) ->
  arena_bytes a address =
    Some (Ok (slice (pages (mapping a)) (Z.to_nat start) (Z.to_nat (start + length)))).
Proof.
  intros Ha El. destruct (live_range _ _ _ _ Ha El) as (? & ? & Hcap & _).
  unfold arena_bytes. rewrite El. unfold len in *.
  pose proof (get_range_slice (pages (mapping a)) (Z.to_nat start) (Z.to_nat (start + length))
    ltac:(lia) ltac:(lia)) as E. rewrite !Z2Nat.id in E by lia. by rewrite E.
Qed.

Lemma absorb_previous_detached f offset length :
  detached f offset -> absorb_previous f offset length = (f, offset, length).
Proof.
  intros Hd. unfold absorb_previous. pose proof (previous_free_spec f offset) as Hp.
  destruct (previous_free f offset) as [[p s]|]; [|done]. destruct Hp as (Hp & _).
  destruct (Z.eqb_spec (p + s) offset); [|done]. by destruct (Hd p s).
Qed.

(** Giving back what was just taken. *)
Lemma absorb_taken a o av l :
  arena_ok a -> free a !! o = Some av -> 0 < l <= av ->
  absorb_previous (free (taken a o av l)) o l = (free (taken a o av l), o, l) /\
  exists f, absorb_next (free (taken a o av l)) o l = (f, av) /\ <[o := av]> f = free a.
Proof.
  intros Ha Ho Hl. pose proof (arena_coalesced _ Ha) as Hc. split.
  - apply absorb_previous_detached. intros p s Hp E.
    assert (Hold : free a !! p = Some s \/ p = o + l).
    { revert Hp. unfold taken. simpl. case_match; [rewrite lookup_insert_Some|];
        rewrite lookup_delete_Some; naive_solver. }
    destruct Hold as [Hp'| ->].
    + specialize (Hc _ _ Hp'). congruence.
    + assert (0 < s); [|lia]. revert Hp. unfold taken. simpl. destruct (Z.ltb_spec l av).
      * rewrite lookup_insert_eq. intros [= <-]. lia.
      * assert (l = av) as -> by lia. rewrite lookup_delete_Some, (Hc _ _ Ho). naive_solver.
  - unfold taken, absorb_next. simpl. destruct (Z.ltb_spec l av).
    + rewrite lookup_insert_eq. eexists. split; [f_equal; lia|].
      assert (Hn : free a !! (o + l) = None) by (eapply (arena_inside a o av); [done..|lia]).
      rewrite delete_insert_id by (rewrite lookup_delete_None; auto).
      rewrite insert_delete_eq. by apply insert_id.
    + assert (l = av) as -> by lia. rewrite lookup_delete_ne by lia. rewrite (Hc _ _ Ho).
      eexists. split; [done|]. rewrite insert_delete_eq. by apply insert_id.
Qed.

Lemma live_distinct a x y s l s' l' :
  arena_ok a -> live a x = Ok (s, l) -> live a y = Ok (s', l') -> x <> y ->
  s + l <= s' \/ s' + l' <= s.
Proof.
  intros Ha (Hx & Es & Hs)%live_Ok (Hy & Es' & Hs')%live_Ok Hne.
  assert (Em : forall o k, allocated a !! o = Some k -> (free a ∪ allocated a) !! o = Some k).
  { intros o k Ho. apply lookup_union_Some_r; [apply Ha|done]. }
  destruct (Z_lt_le_dec s s') as [Hlt|Hge].
  - left. apply (tile_disjoint _ _ (arena_tiles _ Ha) _ _ _ _ (Em _ _ Hs) (Em _ _ Hs') Hlt).
  - right. apply (tile_disjoint _ _ (arena_tiles _ Ha) _ _ _ _ (Em _ _ Hs') (Em _ _ Hs)). lia.
Qed.

(** ** Properties *)

(** C15: in every reachable arena the live allocations are pairwise disjoint, non-empty,
    eight-byte aligned ranges of the client mapping whose addresses do not overflow, they
    never overlap free space, every byte of the mapping is in exactly one free or allocated
    region, adjacent free regions have been merged, and reading a live allocation never
    leaves the mapping. *)
Theorem arena_regions a (H : arena_reachable a) :
  (forall x y s l s' l', live a x = Ok (s, l) -> live a y = Ok (s', l') -> x <> y ->
     s + l <= s' \/ s' + l' <= s) /\
  (forall x s l, live a x = Ok (s, l) ->
     0 <= s /\ 0 < l /\ s mod 8 = 0 /\ l mod 8 = 0 /\ s + l <= len (pages (mapping a)) /\
     client_address (mapping a) + s + l <= usize_max /\
     exists bs, arena_bytes a x = Some (Ok bs) /\ len bs = l) /\
  tiling (len (pages (mapping a))) (free a ∪ allocated a) /\ free a ##ₘ allocated a /\
  (forall o l, free a !! o = Some l -> free a !! (o + l) = None).
Proof.
  apply arena_reachable_ok in H. split_and!; [| |apply H..].
  - intros. by eapply live_distinct.
  - intros x s l Hl. pose proof (live_range _ _ _ _ H Hl) as (? & ? & ? & ? & ?).
    pose proof (arena_address _ H) as [_ ?]. split_and!; try done; try lia.
    eexists. split; [by apply arena_bytes_live|]. unfold len in *. rewrite length_slice; lia.
Qed.

(** Allocation is best fit.  A successful allocation takes, from the free region with the
    least size and then the least offset among those that are large enough, its first
    [length] bytes rounded up to eight (at least eight), and changes nothing else; a failed
    one changes nothing, and fails only because the rounded size overflows or no free region
    is large enough. *)
Theorem allocate_best_fit a length a' res (Hl : u64_range length)
    (Halloc : allocate a length = (a', res)) :
  match res with
  | Ok address =>
      exists o av, free a !! o = Some av /\ round_up8 (Z.max length 1) <= av /\
        (forall o' av', free a !! o' = Some av' -> round_up8 (Z.max length 1) <= av' ->
           av < av' \/ av = av' /\ o <= o') /\
        address = client_address (mapping a) + o /\
        a' = taken a o av (round_up8 (Z.max length 1))
  | Err e =>
      a' = a /\
      (e = EINVAL /\ usize_max < round_up8 (Z.max length 1) \/
       e = ENOSPC /\ forall o av, free a !! o = Some av -> av < round_up8 (Z.max length 1))
  end.
Proof.
  destruct Hl as [? ?]. unfold allocate in Halloc. rewrite align8_round_up in Halloc by lia.
  destruct (Z.leb_spec (round_up8 (Z.max length 1)) usize_max);
    [|injection Halloc as <- <-; auto].
  destruct (best_fit _ _) as [[o av]|] eqn:Eb; injection Halloc as <- <-.
  - apply best_fit_Some in Eb as (Hin & ? & Hmin). rewrite in_order_lookup in Hin.
    exists o, av. split_and!; try done. intros o' av' Ho' Hle.
    specialize (Hmin (o', av') ltac:(by apply in_order_lookup) Hle). unfold tighter in Hmin.
    simpl in Hmin. lia.
  - split; [done|]. right. split; [done|]. intros o av Ho.
    apply (best_fit_None _ _ Eb (o, av)). by apply in_order_lookup.
Qed.

(** Releasing what was just allocated restores the arena exactly: the free list, with its
    regions merged again, the allocations and the memory. *)
Theorem allocate_release a length a' address (H : arena_reachable a)
    (Halloc : allocate a length = (a', Ok address)) :
  release a' address = (a, Ok tt).
Proof.
  apply arena_reachable_ok in H.
  apply allocate_Ok in Halloc as (o & av & l & El & _ & Ho & Hle & -> & ->).
  apply aligned_length in El as (? & _ & _).
  destruct (absorb_taken a o av l H Ho ltac:(lia)) as (Ep & f & En & Ef).
  assert (Hal : allocated a !! o = None) by (eapply map_disjoint_Some_l; [apply H|done]).
  assert (Elive : live (taken a o av l) (client_address (mapping a) + o) = Ok (o, l)).
  { pose proof (tile_bounds _ _ (arena_tiles _ H) o av (lookup_union_Some_l _ _ _ _ Ho)).
    apply live_Ok. simpl. rewrite lookup_insert_eq. split_and!; [lia..|done]. }
  unfold release. rewrite Elive, Ep, En, Ef. simpl. rewrite delete_insert_id by done.
  by destruct a.
Qed.

(** A write stays inside its allocation.  It succeeds exactly when the data fits, then
    the allocation's bytes are the old ones with the data at [offset] and every other live
    allocation reads as before; if it fails nothing changes. *)
Theorem write_isolated a address offset data s l a' res
    (H : arena_reachable a) (Hlive : live a address = Ok (s, l)) (Hoff : 0 <= offset)
    (Hwrite : write a address offset data = (a', res)) :
  (res = Ok tt <-> offset + len data <= l) /\
  (res <> Ok tt -> a' = a /\ res = Err EINVAL) /\
  (res = Ok tt -> exists old,
     arena_bytes a address = Some (Ok old) /\
     arena_bytes a' address = Some (Ok (copy_at (Z.to_nat offset) data old)) /\
     forall other s' l', live a other = Ok (s', l') -> other <> address ->
       arena_bytes a' other = arena_bytes a other).
Proof.
  apply arena_reachable_ok in H. pose proof (write_ok _ _ _ _ _ _ H Hoff Hwrite) as Ha'.
  rewrite (write_exact _ _ _ _ _ _ H Hlive Hoff) in Hwrite.
  destruct (live_range _ _ _ _ H Hlive) as (? & ? & ? & _).
  destruct (Z.ltb_spec l (offset + len data)); injection Hwrite as <- <-.
  { split_and!; [split; [done|lia]|done|done]. }
  pose proof (len_nonneg data). unfold len in *. split_and!; [done|done|]. intros _. eexists.
  split; [by apply arena_bytes_live|]. split.
  - rewrite (arena_bytes_live _ _ s l Ha') by done. simpl.
    rewrite Z2Nat.inj_add, slice_copy_inside by lia. done.
  - intros other s' l' Ho Hne. rewrite (arena_bytes_live _ _ s' l' Ha') by done.
    rewrite (arena_bytes_live _ _ s' l' H) by done. simpl.
    destruct (live_range _ _ _ _ H Ho) as (? & ? & ? & _). unfold len in *.
    pose proof (live_distinct _ _ _ _ _ _ _ H Ho Hlive Hne).
    rewrite slice_copy_outside by lia. done.
Qed.

(** An arena of 64 bytes at address 4096, with one allocation of 13 bytes. *)
Definition example_new : ReceiveArena :=
  {| mapping := {| client_address := 4096; pages := zeroed 64 |}; free := {[ 0 := 64 ]};
     allocated := ∅ |}.
Definition example_arena : ReceiveArena := (allocate example_new 13).1.

Lemma example_new_reachable : arena_reachable example_new.
Proof.
  exists (Ok 4096), 64, example_new. split_and!; [|lia|vm_compute; reflexivity|apply rtc_refl].
  intros address [= <-]. unfold usize_max, u64_max. lia.
Qed.

Lemma example_arena_reachable : arena_reachable example_arena.
Proof.
  destruct example_new_reachable as (mapped & c & a0 & ? & ? & ? & Hr).
  exists mapped, c, a0. split_and!; try done. eapply rtc_r; [done|].
  eapply (step_allocate _ 13). apply surjective_pairing.
Qed.

Lemma arena_regions_witness :
  exists bs, arena_bytes example_arena 4096 = Some (Ok bs) /\ len bs = 16.
Proof.
  apply (proj1 (proj2 (arena_regions example_arena example_arena_reachable)) 4096 0 16).
  vm_compute. reflexivity.
Defined.

Lemma allocate_best_fit_witness :
  exists o av, free example_new !! o = Some av /\ 16 <= av /\
    (allocate example_new 13).2 = Ok (4096 + o).
Proof.
  destruct (allocate_best_fit example_new 13 example_arena (Ok 4096))
    as (o & av & ? & ? & _ & E & _).
  - unfold u64_range, u64_max. lia.
  - vm_compute. reflexivity.
  - exists o, av. split_and!; [done|done|].
    change (4096 + o) with (client_address (mapping example_new) + o). rewrite <- E.
    vm_compute. reflexivity.
Defined.

Lemma allocate_release_witness : release example_arena 4096 = (example_new, Ok tt).
Proof.
  apply (allocate_release example_new 13 example_arena 4096 example_new_reachable).
  vm_compute. reflexivity.
Defined.

Lemma write_isolated_witness :
  exists old, arena_bytes example_arena 4096 = Some (Ok old) /\
    arena_bytes (write example_arena 4096 8 [Byte.x01; Byte.x02]).1 4096 =
      Some (Ok (copy_at 8 [Byte.x01; Byte.x02] old)).
Proof.
  destruct (write_isolated example_arena 4096 8 [Byte.x01; Byte.x02] 0 16
    (write example_arena 4096 8 [Byte.x01; Byte.x02]).1
    (write example_arena 4096 8 [Byte.x01; Byte.x02]).2 example_arena_reachable) as (_ & _ & H).
  - vm_compute. reflexivity.
  - lia.
  - apply surjective_pairing.
  - destruct H as (old & ? & ? & _); [vm_compute; reflexivity|]. exists old. split; done.
Defined.
