(* ===== verification/Thread.v ===== *)
(** * Binder threads ([thread.rs], [thread/transactions.rs])

    The looper state, the transaction stacks and the thread-local return work of one calling
    thread.  The thread's work signal is shared, so the operations that notify it take and
    return the store of signals.  [debug] tells builds with debug assertions from builds
    without; a failed assertion is a panic.  Reservations only ensure capacity; the
    assertions that compare a length with a capacity are not modelled. *)
From S2P Require Import Prelude Command AuthorityProtocol WorkSignal NodeOwner.

(** ** Types *)

Definition BR_TRANSACTION_COMPLETE : Z := 0x7206.
Definition BR_DEAD_REPLY : Z := 0x7205.
Definition BR_FAILED_REPLY : Z := 0x7211.

Inductive CallId : Type := Local (serial : Z) | Remote (token : CallToken).

Inductive OutgoingCall : Type :=
| OPending (s : Z) | ORejected (s : Z) | OActive (c : CallId).

Inductive IncomingCall : Type :=
| IActive (c : CallId) | ICallerDead (c : CallId) | IPendingReply (s : Z) (c : CallId).

Inductive LocalWork : Type :=
| TransactionComplete (c : option CallId)
| DeadReplyWork (c : CallId)
| ReservedTerminal (c : CallId)
| PendingRemote (s : Z)
| RejectedRemote (s : Z) (synchronous : bool) (reason : TransactionFailure)
| PendingRemoteReply (s : Z).

#[export] Instance CallId_eq_dec : EqDecision CallId.
Proof. solve_decision. Defined.
#[export] Instance OutgoingCall_eq_dec : EqDecision OutgoingCall.
Proof. solve_decision. Defined.
#[export] Instance IncomingCall_eq_dec : EqDecision IncomingCall.
Proof. solve_decision. Defined.
#[export] Instance LocalWork_eq_dec : EqDecision LocalWork.
Proof. solve_decision. Defined.

Inductive Looper : Type := LNone | LRegistered | LEntered | LExited.

Record Thread : Type :=
  { looper : Looper; id : Z; outgoing : list OutgoingCall; incoming : list IncomingCall;
    local_work : list LocalWork; next_remote_submission : Z; work_signal : option SignalRef }.

Inductive Error : Type :=
| Framing (e : Command.DecodeError)
| NotLooperCommand (k : Command.Kind)
| InvalidTransition (from : Looper) (command : Command.Kind)
| UnrequestedRegistration | NotEligibleForRead | OutOfMemory | InvalidReplyStack
| InvalidOutgoingReply | SubmissionIdsExhausted.

Abbreviation Signals := (gmap positive State).

Definition set_looper (t : Thread) (l : Looper) : Thread :=
  {| looper := l; id := id t; outgoing := outgoing t; incoming := incoming t;
     local_work := local_work t; next_remote_submission := next_remote_submission t;
     work_signal := work_signal t |}.
Definition set_outgoing (t : Thread) (o : list OutgoingCall) : Thread :=
  {| looper := looper t; id := id t; outgoing := o; incoming := incoming t;
     local_work := local_work t; next_remote_submission := next_remote_submission t;
     work_signal := work_signal t |}.
Definition set_incoming (t : Thread) (i : list IncomingCall) : Thread :=
  {| looper := looper t; id := id t; outgoing := outgoing t; incoming := i;
     local_work := local_work t; next_remote_submission := next_remote_submission t;
     work_signal := work_signal t |}.
Definition set_work (t : Thread) (w : list LocalWork) : Thread :=
  {| looper := looper t; id := id t; outgoing := outgoing t; incoming := incoming t;
     local_work := w; next_remote_submission := next_remote_submission t;
     work_signal := work_signal t |}.
Definition set_next (t : Thread) (n : Z) : Thread :=
  {| looper := looper t; id := id t; outgoing := outgoing t; incoming := incoming t;
     local_work := local_work t; next_remote_submission := n; work_signal := work_signal t |}.

(** [if let Some(signal) = &self.work_signal { signal.notify() }]. *)
Definition wake (t : Thread) (Σ : Signals) : Signals :=
  match work_signal t with Some s => alter notify s Σ | None => Σ end.

(** ** Looper ([thread.rs]) *)

Definition new (id : Z) : option Thread :=
  if negb (id =? 0) then
    Some {| looper := LNone; id := id; outgoing := []; incoming := []; local_work := [];
            next_remote_submission := 0; work_signal := None |}
  else None.

Definition new_with_signal (thread_id : Z) (s : SignalRef) : option Thread :=
  t ← new thread_id;
  Some {| looper := looper t; id := id t; outgoing := outgoing t; incoming := incoming t;
          local_work := local_work t; next_remote_submission := next_remote_submission t;
          work_signal := Some s |}.

Definition execute_looper (t : Thread) (input : bytes) : Thread * result Z Error :=
  match Command.decode input with
  | Err e => (t, Err (Framing e))
  | Ok (command, n) =>
      match looper t, Command.kind command with
      | LNone, RegisterLooper => (set_looper t LRegistered, Ok n)
      | LNone, EnterLooper => (set_looper t LEntered, Ok n)
      | LRegistered, ExitLooper | LEntered, ExitLooper => (set_looper t LExited, Ok n)
      | from, (RegisterLooper | EnterLooper | ExitLooper) as kind =>
          (t, Err (InvalidTransition from kind))
      | _, kind => (t, Err (NotLooperCommand kind))
      end
  end.

Definition ensure_read_eligible (t : Thread) : result unit Error :=
  match looper t with
  | LRegistered | LEntered => Ok tt
  | LNone | LExited =>
      if bool_decide (outgoing t = []) && bool_decide (local_work t = [])
      then Err NotEligibleForRead else Ok tt
  end.

Definition is_looper (t : Thread) : bool :=
  match looper t with LRegistered | LEntered => true | _ => false end.

Definition can_wait_for_process_work (t : Thread) : bool :=
  is_looper t && bool_decide (outgoing t = []) && bool_decide (incoming t = []) &&
  bool_decide (local_work t = []).

(** ** Transactions ([thread/transactions.rs]) *)

Definition last_outgoing (t : Thread) : option CallId :=
  match last (outgoing t) with Some (OActive call) => Some call | _ => None end.

(** [Vec::pop]. *)
Definition pop {A} (l : list A) : list A := take (length l - 1) l.

(** [reserve_submission] borrows the thread, so nothing happens to it until the reservation
    is committed or dropped.  Reservations at [[0]] and [[1]]. *)
Definition reserve_submission (rsv : Reserve) (synchronous : bool) : result bool Error :=
  let? _ := ensure (rsv [0%nat]) OutOfMemory in
  let? _ := if synchronous then ensure (rsv [1%nat]) OutOfMemory else Ok tt in
  Ok synchronous.

(** [SubmissionReservation::commit]; [None] is the failure of its debug assertion. *)
Definition commit_submission (debug synchronous : bool) (t : Thread) (Σ : Signals)
    (call : option CallId) : option (Thread * Signals) :=
  if debug && negb (Bool.eqb synchronous (bool_decide (is_Some call))) then None
  else
    match call with
    | Some call =>
        let t := set_outgoing t (outgoing t ++ [OActive call]) in
        let t := set_work t (local_work t ++ [ReservedTerminal call]) in
        let t := set_work t (local_work t ++ [ReservedTerminal call]) in
        Some (t, Σ)
    | None =>
        let t := set_work t (local_work t ++ [TransactionComplete None]) in
        Some (t, wake t Σ)
    end.

Definition reserve_incoming (rsv : Reserve) : result unit Error := ensure (rsv [0%nat]) OutOfMemory.

Definition accept_incoming (t : Thread) (call : CallId) : Thread :=
  set_incoming t (incoming t ++ [IActive call]).

Definition current_incoming (t : Thread) : result CallId Error :=
  ok_or (entry ← last (incoming t);
         match entry with
         | IActive call | ICallerDead call => Some call
         | IPendingReply _ _ => None
         end) InvalidReplyStack.

Definition finish_incoming (t : Thread) (call : CallId) : Thread * result unit Error :=
  if negb (bool_decide (last (incoming t) = Some (IActive call))) then (t, Err InvalidReplyStack)
  else (set_incoming t (pop (incoming t)), Ok tt).

Definition incoming_call (e : IncomingCall) : CallId :=
  match e with IActive c | ICallerDead c | IPendingReply _ c => c end.

(** [rposition]: the last index that satisfies a test. *)
Definition rposition {A} (P : A -> Prop) `{forall x, Decision (P x)} (l : list A) : option nat :=
  (fun p => (length l - 1 - p.1)%nat) <$> list_find P (reverse l).

Definition cancel_incoming (t : Thread) (call : CallId) : Thread * bool :=
  match rposition (fun e => incoming_call e = call) (incoming t) with
  | None => (t, false)
  | Some position =>
      match incoming t !! position with
      | Some (IActive (Remote _)) =>
          (set_incoming t (<[position := ICallerDead call]> (incoming t)), true)
      | Some (ICallerDead _) => (t, false)
      | Some (IPendingReply _ _) => (t, true)
      | Some (IActive (Local _)) => (t, false)
      | None => (t, false)
      end
  end.

Definition finish_outgoing (t : Thread) (call : CallId) : Thread * result unit Error :=
  if negb (bool_decide (last_outgoing t = Some call)) then (t, Err InvalidOutgoingReply)
  else
    let t := set_outgoing t (pop (outgoing t)) in
    (set_work t (filter (fun w => w <> ReservedTerminal call) (local_work t)), Ok tt).

Definition validate_outgoing (t : Thread) (call : CallId) : result unit Error :=
  ensure (bool_decide (last_outgoing t = Some call)) InvalidOutgoingReply.

(** The work [read_local_work] may select. *)
Definition visible (t : Thread) (w : LocalWork) : bool :=
  match w with
  | TransactionComplete None => true
  | TransactionComplete (Some call) => bool_decide (last_outgoing t = Some call)
  | DeadReplyWork call => bool_decide (last_outgoing t = Some call)
  | RejectedRemote s synchronous _ =>
      negb synchronous || bool_decide (last (outgoing t) = Some (ORejected s))
  | ReservedTerminal _ | PendingRemote _ | PendingRemoteReply _ => false
  end.

(** The command of a selected unit of work; [None] is a panic, of a debug assertion or of
    [unreachable!].  The [pop] of the [RejectedRemote] arm is an argument of [debug_assert_eq!],
    so only a debug build evaluates it. *)
Definition deliver (debug : bool) (t : Thread) (work : LocalWork) : option (Thread * Z) :=
  match work with
  | TransactionComplete _ => Some (t, BR_TRANSACTION_COMPLETE)
  | DeadReplyWork call =>
      let t := set_outgoing t (pop (outgoing t)) in
      if debug && bool_decide (last_outgoing t = Some call) then None else Some (t, BR_DEAD_REPLY)
  | RejectedRemote s synchronous reason =>
      let command :=
        match reason with DeadReply => BR_DEAD_REPLY | FailedReply => BR_FAILED_REPLY end in
      if synchronous && debug then
        if bool_decide (last (outgoing t) = Some (ORejected s))
        then Some (set_outgoing t (pop (outgoing t)), command)
        else None
      else Some (t, command)
  | ReservedTerminal _ | PendingRemote _ | PendingRemoteReply _ => None
  end.

Definition read_local_work (debug : bool) (t : Thread) (output : bytes)
    : option (Thread * bytes * Z) :=
  if bool_decide (local_work t = []) || (len output <? 4) then Some (t, output, 0)
  else
    match list_find (fun w => visible t w = true) (local_work t) with
    | None => Some (t, output, 0)
    | Some (position, work) =>
        '(t, command) ← deliver debug (set_work t (delete position (local_work t))) work;
        Some (t, copy_at 0 (u32_le command) output, 4)
    end.

Definition has_outgoing (t : Thread) : bool := negb (bool_decide (outgoing t = [])).

Definition count_work (w : LocalWork) (l : list LocalWork) : nat :=
  length (filter (fun x => x = w) l).

(** The loop of [enqueue_dead_reply]. *)
Fixpoint convert_terminals (call : CallId) (found : nat) (work : list LocalWork) : list LocalWork :=
  match work with
  | [] => []
  | w :: work =>
      if bool_decide (w = ReservedTerminal call) then
        (if (found =? 0)%nat then TransactionComplete (Some call) else DeadReplyWork call)
          :: convert_terminals call (S found) work
      else w :: convert_terminals call found work
  end.

(** The assertion [found == 2] repeats the count checked before the loop. *)
Definition enqueue_dead_reply (t : Thread) (Σ : Signals) (call : CallId)
    : Thread * Signals * result unit Error :=
  if negb (bool_decide (OActive call ∈ outgoing t)) then (t, Σ, Err InvalidOutgoingReply)
  else if negb (count_work (ReservedTerminal call) (local_work t) =? 2)%nat
  then (t, Σ, Err InvalidOutgoingReply)
  else
    let t := set_work t (convert_terminals call 0 (local_work t)) in
    (t, wake t Σ, Ok tt).

(** The calls [fail_remote_authority] completes. *)
Definition remote_calls (o : list OutgoingCall) : list CallId :=
  omap (fun e => match e with OActive (Remote c) => Some (Remote c) | _ => None end) o.

Fixpoint enqueue_dead_replies (t : Thread) (Σ : Signals) (calls : list CallId)
    : Thread * Signals * result unit Error :=
  match calls with
  | [] => (t, Σ, Ok tt)
  | call :: calls =>
      match enqueue_dead_reply t Σ call with
      | (t, Σ, Err e) => (t, Σ, Err e)
      | (t, Σ, Ok _) => enqueue_dead_replies t Σ calls
      end
  end.

Definition fail_remote_authority (t : Thread) (Σ : Signals) : Thread * Signals * result unit Error :=
  enqueue_dead_replies t Σ (remote_calls (outgoing t)).

Definition begin_remote_submission (rsv : Reserve) (t : Thread) (synchronous : bool)
    : Thread * result Z Error :=
  match checked_add u64_max (next_remote_submission t) 1 with
  | None => (t, Err SubmissionIdsExhausted)
  | Some serial =>
      if negb (rsv [0%nat]) then (t, Err OutOfMemory)
      else if synchronous && negb (rsv [1%nat]) then (t, Err OutOfMemory)
      else
        let t := set_next t serial in
        let t :=
          if synchronous then
            let t := set_outgoing t (outgoing t ++ [OPending serial]) in
            set_work t (local_work t ++ [PendingRemote serial])
          else t in
        (set_work t (local_work t ++ [PendingRemote serial]), Ok serial)
  end.

(** The indices of a unit of work. *)
Fixpoint positions (w : LocalWork) (index : nat) (work : list LocalWork) : list nat :=
  match work with
  | [] => []
  | x :: work =>
      if bool_decide (x = w) then index :: positions w (S index) work
      else positions w (S index) work
  end.

Definition commit_remote_submission (t : Thread) (Σ : Signals) (token : Z)
    (call : option CallToken) : Thread * Signals * result unit Error :=
  match positions (PendingRemote token) 0 (local_work t), call with
  | [p0; p1], Some call =>
      match list_find (fun e => e = OPending token) (outgoing t) with
      | None => (t, Σ, Err InvalidOutgoingReply)
      | Some (i, _) =>
          let call := Remote call in
          let t := set_outgoing t (<[i := OActive call]> (outgoing t)) in
          let t := set_work t (<[p0 := ReservedTerminal call]> (local_work t)) in
          let t := set_work t (<[p1 := ReservedTerminal call]> (local_work t)) in
          (t, Σ, Ok tt)
      end
  | [p0], None =>
      if bool_decide (OPending token ∈ outgoing t) then (t, Σ, Err InvalidOutgoingReply)
      else
        let t := set_work t (<[p0 := TransactionComplete None]> (local_work t)) in
        (t, wake t Σ, Ok tt)
  | _, _ => (t, Σ, Err InvalidOutgoingReply)
  end.

Definition abort_remote_submission (t : Thread) (token : Z) : Thread * result unit Error :=
  let before := length (local_work t) in
  let t := set_work t (filter (fun w => w <> PendingRemote token) (local_work t)) in
  let removed_work := (before - length (local_work t))%nat in
  let found := list_find (fun e => e = OPending token) (outgoing t) in
  let t := match found with
           | Some (i, _) => set_outgoing t (delete i (outgoing t))
           | None => t
           end in
  match removed_work, found with
  | 1%nat, None | 2%nat, Some _ => (t, Ok tt)
  | _, _ => (t, Err InvalidOutgoingReply)
  end.

Definition reject_remote_submission (t : Thread) (Σ : Signals) (token : Z)
    (reason : TransactionFailure) : Thread * Signals * result unit Error :=
  match positions (PendingRemote token) 0 (local_work t),
        list_find (fun e => e = OPending token) (outgoing t) with
  | [p0], None =>
      let t := set_work t (<[p0 := RejectedRemote token false reason]> (local_work t)) in
      (t, wake t Σ, Ok tt)
  | [p0; p1], Some (i, _) =>
      let t := set_work t (<[p0 := RejectedRemote token true reason]> (local_work t)) in
      let t := set_work t (delete p1 (local_work t)) in
      let t := set_outgoing t (<[i := ORejected token]> (outgoing t)) in
      (t, wake t Σ, Ok tt)
  | _, _ => (t, Σ, Err InvalidOutgoingReply)
  end.

Definition begin_remote_reply (rsv : Reserve) (t : Thread)
    : Thread * result (option (Z * CallToken)) Error :=
  match last (incoming t) with
  | Some (IActive (Remote call)) | Some (ICallerDead (Remote call)) =>
      match checked_add u64_max (next_remote_submission t) 1 with
      | None => (t, Err SubmissionIdsExhausted)
      | Some serial =>
          if negb (rsv [0%nat]) then (t, Err OutOfMemory)
          else
            let t := set_next t serial in
            let t := set_incoming t
              (pop (incoming t) ++ [IPendingReply serial (Remote call)]) in
            let t := set_work t (local_work t ++ [PendingRemoteReply serial]) in
            (t, Ok (Some (serial, call)))
      end
  | Some (IActive (Local _)) => (t, Ok None)
  | Some (ICallerDead (Local _)) | Some (IPendingReply _ _) | None => (t, Err InvalidReplyStack)
  end.

Definition commit_remote_reply (t : Thread) (Σ : Signals) (submission : Z) (call : CallToken)
    : Thread * Signals * result unit Error :=
  if negb (bool_decide (last (incoming t) = Some (IPendingReply submission (Remote call))))
  then (t, Σ, Err InvalidReplyStack)
  else
    match list_find (fun w => w = PendingRemoteReply submission) (local_work t) with
    | None => (t, Σ, Err InvalidReplyStack)
    | Some (position, _) =>
        let t := set_incoming t (pop (incoming t)) in
        let t := set_work t (<[position := TransactionComplete None]> (local_work t)) in
        (t, wake t Σ, Ok tt)
    end.

Definition abort_remote_reply (t : Thread) (submission : Z) (call : CallToken)
    : Thread * result unit Error :=
  if negb (bool_decide (last (incoming t) = Some (IPendingReply submission (Remote call))))
  then (t, Err InvalidReplyStack)
  else
    let before := length (local_work t) in
    let t := set_work t (filter (fun w => w <> PendingRemoteReply submission) (local_work t)) in
    if negb (before - length (local_work t) =? 1)%nat then (t, Err InvalidReplyStack)
    else (set_incoming t (pop (incoming t) ++ [IActive (Remote call)]), Ok tt).

(** ** Specification: the life of a call and of a submission *)

Definition of_call (c : CallId) (w : LocalWork) : bool :=
  match w with
  | TransactionComplete (Some c') | DeadReplyWork c' | ReservedTerminal c' => bool_decide (c' = c)
  | _ => false
  end.
Definition of_submission (s : Z) (w : LocalWork) : bool :=
  match w with
  | PendingRemote s' | RejectedRemote s' _ _ | PendingRemoteReply s' => bool_decide (s' = s)
  | _ => false
  end.
Definition call_entry (c : CallId) (e : OutgoingCall) : bool :=
  match e with OActive c' => bool_decide (c' = c) | _ => false end.
Definition submission_entry (s : Z) (e : OutgoingCall) : bool :=
  match e with OPending s' | ORejected s' => bool_decide (s' = s) | OActive _ => false end.
Definition reply_entry (s : Z) (e : IncomingCall) : bool :=
  match e with IPendingReply s' _ => bool_decide (s' = s) | _ => false end.

(** What a thread remembers of a call: its stack entry and its return work, in order.  The last
    two are the work that remains when a reply is taken for a call already declared dead. *)
Inductive call_status (c : CallId) : list OutgoingCall -> list LocalWork -> Prop :=
| call_unknown : call_status c [] []
| call_waiting : call_status c [OActive c] [ReservedTerminal c; ReservedTerminal c]
| call_dead : call_status c [OActive c] [TransactionComplete (Some c); DeadReplyWork c]
| call_dying : call_status c [OActive c] [DeadReplyWork c]
| call_answered_dead : call_status c [] [TransactionComplete (Some c); DeadReplyWork c]
| call_answered_dying : call_status c [] [DeadReplyWork c].

(** The same of a submission to the authority.  [sub_stuck] is the entry that a build without
    debug assertions leaves on the stack. *)
Inductive sub_status (debug : bool) (s : Z)
    : list OutgoingCall -> list LocalWork -> list IncomingCall -> Prop :=
| sub_unknown : sub_status debug s [] [] []
| sub_pending_sync : sub_status debug s [OPending s] [PendingRemote s; PendingRemote s] []
| sub_pending_async : sub_status debug s [] [PendingRemote s] []
| sub_rejected_sync r : sub_status debug s [ORejected s] [RejectedRemote s true r] []
| sub_rejected_async r : sub_status debug s [] [RejectedRemote s false r] []
| sub_reply c : sub_status debug s [] [PendingRemoteReply s] [IPendingReply s c]
| sub_stuck : debug = false -> sub_status debug s [ORejected s] [] [].

Definition keep {A} (P : A -> bool) (l : list A) : list A := filter (fun x => P x = true) l.

Record thread_ok (debug : bool) (t : Thread) : Prop := {
  thread_calls c :
    call_status c (keep (call_entry c) (outgoing t)) (keep (of_call c) (local_work t));
  thread_subs s :
    sub_status debug s (keep (submission_entry s) (outgoing t))
      (keep (of_submission s) (local_work t)) (keep (reply_entry s) (incoming t));
  thread_serials s :
    ~ 0 < s <= next_remote_submission t ->
    keep (submission_entry s) (outgoing t) = [] /\ keep (of_submission s) (local_work t) = [] /\
    keep (reply_entry s) (incoming t) = [];
  thread_next : 0 <= next_remote_submission t }.

(** ** Lemmas *)

Section keep.
Context {A : Type} (P : A -> bool).

Lemma keep_nil : keep P [] = [].
Proof. done. Qed.
Lemma keep_app l k : keep P (l ++ k) = keep P l ++ keep P k.
Proof. apply filter_app. Qed.
Lemma keep_cons x l : keep P (x :: l) = if P x then x :: keep P l else keep P l.
Proof. unfold keep. by destruct (P x) eqn:E; [apply filter_cons_True|apply filter_cons_False; rewrite E]. Qed.
Lemma keep_filter (Q : A -> Prop) `{forall x, Decision (Q x)} l :
  keep P (filter Q l) = filter Q (keep P l).
Proof. unfold keep. rewrite !list_filter_filter. apply list_filter_iff. naive_solver. Qed.
Lemma keep_In x l : x ∈ keep P l <-> P x = true /\ x ∈ l.
Proof. unfold keep. by rewrite list_elem_of_filter. Qed.
Lemma keep_absent l : (forall x, x ∈ l -> P x = false) -> keep P l = [].
Proof.
  intros H. induction l as [|x l IH]; [done|]. rewrite keep_cons, H by left.
  apply IH. intros y Hy. apply H. by right.
Qed.
End keep.

Create Rewrite HintDb stacks.
#[export] Hint Rewrite @keep_nil @keep_app @keep_cons : stacks.

Lemma insert_middle {A} (l1 l2 : list A) x y :
  <[length l1 := y]> (l1 ++ x :: l2) = l1 ++ y :: l2.
Proof. rewrite <- (Nat.add_0_r (length l1)). by rewrite insert_app_r. Qed.

Lemma delete_middle' {A} (l1 l2 : list A) x : delete (length l1) (l1 ++ x :: l2) = l1 ++ l2.
Proof. apply delete_middle. Qed.

Lemma list_find_split {A} (P : A -> Prop) `{forall x, Decision (P x)} l i x :
  list_find P l = Some (i, x) ->
  exists l1 l2, l = l1 ++ x :: l2 /\ i = length l1 /\ P x /\ forall y, y ∈ l1 -> ~ P y.
Proof.
  intros (Hi & HP & Hmin)%list_find_Some. exists (take i l), (drop (S i) l).
  split; [symmetry; by apply take_drop_middle|].
  pose proof (lookup_lt_Some _ _ _ Hi). rewrite length_take. split; [lia|]. split; [done|].
  intros y (j & Hj)%list_elem_of_lookup. rewrite lookup_take_Some in Hj. destruct Hj. by eapply Hmin.
Qed.

Lemma positions_shift w k l : positions w k l = (fun p => (k + p)%nat) <$> positions w 0 l.
Proof.
  induction l as [|x l IH] in k |- *; [done|]. simpl. rewrite (IH (S k)), (IH 1%nat).
  case_bool_decide; cbn [fmap list_fmap]; rewrite <- list_fmap_compose; [f_equal; [lia|]|];
    apply list_fmap_ext; intros; simpl; lia.
Qed.

Lemma positions_nil w l : positions w 0 l = [] -> w ∉ l.
Proof.
  induction l as [|x l IH]; simpl; [intros _; apply not_elem_of_nil|].
  rewrite positions_shift. case_bool_decide; [done|].
  intros H0%fmap_nil_inv. rewrite not_elem_of_cons. split; [by apply not_eq_sym|by apply IH].
Qed.

Lemma positions_cons w l p ps :
  positions w 0 l = p :: ps ->
  exists l1 l2, l = l1 ++ w :: l2 /\ p = length l1 /\ (w ∉ l1) /\
    ps = (fun q => (S (length l1) + q)%nat) <$> positions w 0 l2.
Proof.
  induction l as [|x l IH] in p, ps |- *; simpl; [done|].
  rewrite positions_shift. case_bool_decide as E.
  - intros [= <- <-]. subst. exists [], l. split_and!; [done..|apply not_elem_of_nil|done].
  - destruct (positions w 0 l) as [|p' ps'] eqn:Ep; [done|]. intros [= <- <-].
    destruct (IH p' ps' eq_refl) as (l1 & l2 & -> & -> & Hn & ->). exists (x :: l1), l2.
    split_and!; [done..| |].
    + rewrite not_elem_of_cons. split; [by apply not_eq_sym|done].
    + rewrite <- list_fmap_compose. apply list_fmap_ext. intros; simpl; lia.
Qed.

Lemma positions_one w l p :
  positions w 0 l = [p] ->
  exists l1 l2, l = l1 ++ w :: l2 /\ p = length l1 /\ (w ∉ l1) /\ (w ∉ l2).
Proof.
  intros (l1 & l2 & -> & -> & ? & E)%positions_cons. exists l1, l2. split_and!; try done.
  symmetry in E. apply fmap_nil_inv in E. by apply positions_nil.
Qed.

Lemma positions_two w l p q :
  positions w 0 l = [p; q] ->
  exists l1 l2 l3, l = l1 ++ w :: l2 ++ w :: l3 /\ p = length l1 /\
    q = length (l1 ++ w :: l2) /\ (w ∉ l1) /\ (w ∉ l2) /\ (w ∉ l3).
Proof.
  intros (l1 & k & -> & -> & ? & E)%positions_cons.
  destruct (positions w 0 k) as [|p' [|]] eqn:Ek; try done.
  apply positions_one in Ek as (l2 & l3 & -> & -> & ? & ?). injection E as ->.
  exists l1, l2, l3. split_and!; try done. rewrite length_app. simpl. lia.
Qed.

(** Computes the projections of explicit stacks, splitting on which key is meant. *)
Ltac stacks :=
  rewrite ?keep_filter; autorewrite with stacks; cbn [call_entry of_call submission_entry of_submission reply_entry];
  repeat case_bool_decide; subst; rewrite ?app_nil_r; try done.

Lemma last_split {A} (l : list A) x : last l = Some x -> l = pop l ++ [x].
Proof.
  intros (l' & ->)%last_Some. unfold pop. rewrite length_app. simpl.
  replace (length l' + 1 - 1)%nat with (length l') by lia. by rewrite take_app_length.
Qed.

Lemma lookup_split {A} (l : list A) i x :
  l !! i = Some x -> exists l1 l2, l = l1 ++ x :: l2 /\ i = length l1.
Proof.
  intros Hi. exists (take i l), (drop (S i) l). split; [symmetry; by apply take_drop_middle|].
  pose proof (lookup_lt_Some _ _ _ Hi). rewrite length_take. lia.
Qed.

(** A thread with the same projections is as well formed. *)
Lemma thread_ok_same debug t t' :
  thread_ok debug t ->
  (forall c, keep (call_entry c) (outgoing t') = keep (call_entry c) (outgoing t)) ->
  (forall c, keep (of_call c) (local_work t') = keep (of_call c) (local_work t)) ->
  (forall s, keep (submission_entry s) (outgoing t') = keep (submission_entry s) (outgoing t)) ->
  (forall s, keep (of_submission s) (local_work t') = keep (of_submission s) (local_work t)) ->
  (forall s, keep (reply_entry s) (incoming t') = keep (reply_entry s) (incoming t)) ->
  next_remote_submission t' = next_remote_submission t ->
  thread_ok debug t'.
Proof.
  intros [Hc Hs Hr Hn] E1 E2 E3 E4 E5 E6. split.
  - intros c. rewrite E1, E2. apply Hc.
  - intros s. rewrite E3, E4, E5. apply Hs.
  - intros s. rewrite E3, E4, E5, E6. apply Hr.
  - by rewrite E6.
Qed.

Definition fresh_call (t : Thread) (c : CallId) : Prop :=
  keep (call_entry c) (outgoing t) = [] /\ keep (of_call c) (local_work t) = [].

Lemma commit_submission_ok debug t Σ call t' Σ' :
  thread_ok debug t -> from_option (fresh_call t) True call ->
  commit_submission debug (bool_decide (is_Some call)) t Σ call = Some (t', Σ') ->
  thread_ok debug t'.
Proof.
  intros Ht Hf. unfold commit_submission. rewrite Bool.eqb_reflx, andb_false_r.
  destruct call as [c0|]; intros [= <- <-].
  - destruct Hf as [Ho Hw]. pose proof Ht as [Hc Hs Hr Hn]. split; simpl.
    + intros c. specialize (Hc c). revert Hc. stacks; rewrite ?Ho, ?Hw; constructor.
    + intros s. specialize (Hs s). revert Hs. stacks.
    + intros s Hs'. specialize (Hr s Hs'). revert Hr. stacks.
    + done.
  - apply (thread_ok_same _ t); try done; simpl; intros; stacks.
Qed.

Lemma accept_incoming_ok debug t call : thread_ok debug t -> thread_ok debug (accept_incoming t call).
Proof. intros Ht. apply (thread_ok_same _ t); try done; simpl; intros; stacks. Qed.

Lemma finish_incoming_ok debug t call t' res :
  thread_ok debug t -> finish_incoming t call = (t', res) -> thread_ok debug t'.
Proof.
  intros Ht. unfold finish_incoming. case_bool_decide as E; intros [= <- <-]; [|done].
  apply last_split in E. apply (thread_ok_same _ t); try done. simpl. intros s.
  rewrite E at 2. stacks.
Qed.

Lemma cancel_incoming_ok debug t call t' b :
  thread_ok debug t -> cancel_incoming t call = (t', b) -> thread_ok debug t'.
Proof.
  intros Ht. unfold cancel_incoming. destruct (rposition _ _) as [i|]; [|by intros [= <- _]].
  destruct (incoming t !! i) as [[[]|[]|]|] eqn:Ei; intros [= <- _]; try done.
  apply lookup_split in Ei as (l1 & l2 & Ei & ->). apply (thread_ok_same _ t); try done. simpl.
  intros s. rewrite Ei, insert_middle. stacks.
Qed.

Lemma set_looper_ok debug t l : thread_ok debug t -> thread_ok debug (set_looper t l).
Proof. intros Ht. by apply (thread_ok_same _ t). Qed.

Lemma execute_looper_ok debug t input t' res :
  thread_ok debug t -> execute_looper t input = (t', res) -> thread_ok debug t'.
Proof.
  intros Ht. unfold execute_looper. destruct (Command.decode input) as [[c n]|]; [|by intros [= <- _]].
  destruct (looper t), (Command.kind c); intros [= <- _]; auto using set_looper_ok.
Qed.

Lemma begin_remote_submission_ok debug rsv t synchronous t' res :
  thread_ok debug t -> begin_remote_submission rsv t synchronous = (t', res) -> thread_ok debug t'.
Proof.
  intros Ht. unfold begin_remote_submission.
  destruct (checked_add _ _ _) as [serial|] eqn:E; [|by intros [= <- _]].
  apply checked_add_Some in E as [-> _]. pose proof Ht as [Hc Hs Hr Hn].
  destruct (Hr (next_remote_submission t + 1) ltac:(lia)) as (E1 & E2 & E3).
  destruct (rsv [0%nat]); [|by intros [= <- _]].
  destruct synchronous; simpl; [destruct (rsv [1%nat]); [|by intros [= <- _]]|];
    intros [= <- _]; split; simpl; try lia.
  - intros c. specialize (Hc c). revert Hc. stacks.
  - intros s. specialize (Hs s). revert Hs. stacks. rewrite E1, E2, E3. constructor.
  - intros s Hs'. specialize (Hr s ltac:(lia)). revert Hr. stacks. lia.
  - intros c. specialize (Hc c). revert Hc. stacks.
  - intros s. specialize (Hs s). revert Hs. stacks. rewrite E1, E2, E3. constructor.
  - intros s Hs'. specialize (Hr s ltac:(lia)). revert Hr. stacks. lia.
Qed.

(** Case analysis on what is known of a key, where the stacks are cut into pieces. *)
Ltac split_pieces :=
  repeat match goal with
         | H : ?l ++ _ = _ |- _ => is_var l; destruct l; simplify_eq/=
         | H : _ = ?l ++ _ |- _ => is_var l; destruct l; simplify_eq/=
         end.
Ltac by_cases H :=
  revert H; rewrite <- ?app_assoc;
  repeat match goal with |- context [keep ?P ?l] => generalize (keep P l); intros ? end;
  let H := fresh in
  intros H; first [destruct H as (? & ? & ?) | inversion H; clear H]; simplify_eq/=; split_pieces;
  rewrite ?filter_cons, ?filter_nil; repeat case_decide; simplify_eq/=;
  try constructor; try done.
(** The invariant of a thread whose stacks are rewritten as pieces by [rw], and
    whose pieces satisfy [fact]. *)
Ltac by_projection_with Ht rw fact :=
  let Hc := fresh "Hc" in let Hs := fresh "Hs" in let Hr := fresh "Hr" in
  let Hn := fresh "Hn" in let k := fresh "k" in let Hk := fresh "Hk" in
  pose proof Ht as [Hc Hs Hr Hn]; split; simpl;
  [ intros k; specialize (Hc k); revert Hc; rw; stacks; fact; intros Hc; by_cases Hc
  | intros k; specialize (Hs k); revert Hs; rw; stacks; fact; intros Hs; by_cases Hs
  | intros k Hk; specialize (Hr k ltac:(lia)); revert Hr; rw; stacks; fact; intros Hr;
    by_cases Hr; try lia
  | lia ].
Ltac by_projection Ht rw := by_projection_with Ht rw ltac:(idtac).

Lemma finish_outgoing_ok debug t call t' res :
  thread_ok debug t -> finish_outgoing t call = (t', res) -> thread_ok debug t'.
Proof.
  intros Ht. unfold finish_outgoing. case_bool_decide as E; simpl; intros [= <- _]; [|done].
  unfold last_outgoing in E. destruct (last (outgoing t)) as [[| |c0]|] eqn:El; simplify_eq.
  apply last_split in El. by_projection Ht ltac:(rewrite El at 1).
Qed.

Lemma visible_call t c w :
  of_call c w = true -> visible t w = true -> last_outgoing t = Some c.
Proof. destruct w as [[]| | | | |]; simpl; intros; repeat case_bool_decide; congruence. Qed.

Lemma last_outgoing_split t c :
  last_outgoing t = Some c -> outgoing t = pop (outgoing t) ++ [OActive c].
Proof.
  unfold last_outgoing. destruct (last (outgoing t)) as [[| |c0]|] eqn:El; intros; simplify_eq.
  by apply last_split.
Qed.

(** The work that precedes the selected unit is invisible, so the notices of a dead call are read
    in order. *)
Lemma read_local_work_ok debug t output :
  thread_ok debug t ->
  exists t' output' n, read_local_work debug t output = Some (t', output', n) /\ thread_ok debug t'.
Proof.
  intros Ht. unfold read_local_work. destruct (_ || _); [by eauto|].
  destruct (list_find _ _) as [[i w]|] eqn:E; [|by eauto].
  apply list_find_split in E as (l1 & l2 & E & -> & Hv & Hl1). rewrite E, delete_middle'.
  destruct w as [[c|]|c| | | |]; simpl in Hv |- *; try done.
  - eexists _, _, _. split; [done|]. apply bool_decide_eq_true in Hv.
    pose proof (last_outgoing_split _ _ Hv) as Ho. by_projection Ht ltac:(rewrite Ho, E).
  - eexists _, _, _. split; [done|]. by_projection Ht ltac:(rewrite E).
  - apply bool_decide_eq_true in Hv. pose proof (last_outgoing_split _ _ Hv) as Ho.
    assert (Hk : keep (of_call c) l1 = []).
    { pose proof (thread_calls _ _ Ht c) as Hc. rewrite E in Hc. revert Hc. stacks.
      destruct (keep (of_call c) l1) as [|x k] eqn:Ek; [done|].
      destruct (proj1 (keep_In (of_call c) x l1)) as [Hx Hin]; [rewrite Ek; left|].
      inversion 1; split_pieces; destruct (Hl1 _ Hin); simpl; by apply bool_decide_true. }
    rewrite (bool_decide_false (last_outgoing _ = Some c)).
    + rewrite andb_false_r. eexists _, _, _. split; [done|].
      by_projection_with Ht ltac:(rewrite Ho, E at 1) ltac:(rewrite ?Hk).
    + intros Hl%last_outgoing_split. simpl in Hl. pose proof (thread_calls _ _ Ht c) as Hc.
      rewrite Ho, Hl in Hc. revert Hc. stacks. intros Hc. by_cases Hc.
  - destruct synchronous; simpl in *.
    + apply bool_decide_eq_true in Hv. pose proof (last_split _ _ Hv) as Ho.
      destruct debug.
      * rewrite (bool_decide_true _ Hv). eexists _, _, _. split; [done|].
        by_projection Ht ltac:(rewrite Ho, E at 1).
      * eexists _, _, _. split; [done|]. by_projection Ht ltac:(rewrite Ho, E).
    + eexists _, _, _. split; [done|]. by_projection Ht ltac:(rewrite E).
Qed.

Lemma positions_count w l : length (positions w 0 l) = count_work w l.
Proof.
  unfold count_work. induction l as [|x l IH]; simpl; [done|].
  rewrite positions_shift, filter_cons. case_bool_decide; case_decide; try done; simpl;
    by rewrite length_fmap, IH.
Qed.

Lemma convert_absent c n l : ReservedTerminal c ∉ l -> convert_terminals c n l = l.
Proof.
  induction l as [|x l IH] in n |- *; [done|]. rewrite not_elem_of_cons. intros [? ?]. simpl.
  rewrite bool_decide_false by congruence. by rewrite IH.
Qed.

Lemma convert_skip c n l k :
  ReservedTerminal c ∉ l -> convert_terminals c n (l ++ k) = l ++ convert_terminals c n k.
Proof.
  induction l as [|x l IH] in n |- *; [done|]. rewrite not_elem_of_cons. intros [? ?]. simpl.
  rewrite bool_decide_false by congruence. by rewrite IH.
Qed.

(** The two reserved units of a call become its two notices, in place. *)
Lemma convert_exact c l1 l2 l3 :
  ReservedTerminal c ∉ l1 -> ReservedTerminal c ∉ l2 -> ReservedTerminal c ∉ l3 ->
  convert_terminals c 0 (l1 ++ ReservedTerminal c :: l2 ++ ReservedTerminal c :: l3) =
  l1 ++ TransactionComplete (Some c) :: l2 ++ DeadReplyWork c :: l3.
Proof.
  intros ???. rewrite convert_skip by done. simpl. rewrite bool_decide_true by done. simpl.
  rewrite convert_skip by done. simpl. rewrite bool_decide_true by done. simpl.
  by rewrite convert_absent.
Qed.

Lemma enqueue_dead_reply_ok debug t Σ call t' Σ' res :
  thread_ok debug t -> enqueue_dead_reply t Σ call = (t', Σ', res) -> thread_ok debug t'.
Proof.
  intros Ht. unfold enqueue_dead_reply. case_bool_decide; simpl; [|by intros [= <- _ _]].
  destruct (count_work _ _ =? 2)%nat eqn:En; simpl; [|by intros [= <- _ _]].
  intros [= <- _ _]. apply Nat.eqb_eq in En. rewrite <- positions_count in En.
  destruct (positions _ _ _) as [|p [|q [|]]] eqn:Ep; try done.
  apply positions_two in Ep as (l1 & l2 & l3 & E & _ & _ & ? & ? & ?).
  rewrite E, convert_exact by done. by_projection Ht ltac:(rewrite E).
Qed.

Lemma enqueue_dead_replies_ok debug t Σ calls t' Σ' res :
  thread_ok debug t -> enqueue_dead_replies t Σ calls = (t', Σ', res) -> thread_ok debug t'.
Proof.
  induction calls as [|c calls IH] in t, Σ |- *; simpl; intros Ht; [by intros [= <- _ _]|].
  destruct (enqueue_dead_reply t Σ c) as [[t1 Σ1] r] eqn:E. apply enqueue_dead_reply_ok with debug _ _ _ _ _ _ in E; [|done].
  destruct r; [by apply IH|by intros [= <- _ _]].
Qed.

Lemma insert_second {A} (l1 l2 l3 : list A) x y z w :
  <[length (l1 ++ x :: l2) := z]> (l1 ++ y :: l2 ++ w :: l3) = l1 ++ y :: l2 ++ z :: l3.
Proof.
  replace (length (l1 ++ x :: l2)) with (length (l1 ++ y :: l2)) by (rewrite !length_app; done).
  by rewrite !app_comm_cons, !app_assoc, insert_middle.
Qed.

Lemma delete_second {A} (l1 l2 l3 : list A) x y w :
  delete (length (l1 ++ x :: l2)) (l1 ++ y :: l2 ++ w :: l3) = l1 ++ y :: l2 ++ l3.
Proof.
  replace (length (l1 ++ x :: l2)) with (length (l1 ++ y :: l2)) by (rewrite !length_app; done).
  by rewrite !app_comm_cons, !app_assoc, delete_middle'.
Qed.

(** Rewrites the projections that are known to be empty. *)
Ltac known_pieces :=
  repeat match goal with
         | H : keep _ _ = [] |- _ => rewrite ?H; clear H
         | H : [] = keep _ _ |- _ => rewrite <- ?H; clear H
         end.

(** Splits a known projection of a stack over its pieces. *)
Ltac pieces H :=
  revert H; stacks; intros H;
  repeat match type of H with _ ++ _ = [] => apply app_eq_nil in H; destruct H as [? H] end.

Lemma keep_member {A} (P : A -> bool) x l : keep P l = [x] -> x ∈ l.
Proof. intros E. apply (keep_In P). rewrite E. left. Qed.

(** What is known of a submission whose pending work is found. *)
Lemma pending_one debug t s l1 l2 :
  thread_ok debug t -> local_work t = l1 ++ PendingRemote s :: l2 ->
  PendingRemote s ∉ l1 -> PendingRemote s ∉ l2 ->
  keep (submission_entry s) (outgoing t) = [] /\ keep (of_submission s) l1 = [] /\
  keep (of_submission s) l2 = [] /\ keep (reply_entry s) (incoming t) = [].
Proof.
  intros Ht E H1 H2. pose proof (thread_subs _ _ Ht s) as Hs. rewrite E in Hs. revert Hs. stacks.
  pose proof (keep_member (of_submission s) (PendingRemote s) l1) as M1.
  pose proof (keep_member (of_submission s) (PendingRemote s) l2) as M2. clear E. revert M1 M2.
  repeat match goal with |- context [keep ?P ?l] => generalize (keep P l); intros ? end.
  intros M1 M2. inversion 1; split_pieces; naive_solver.
Qed.

Lemma pending_two debug t s l1 l2 l3 :
  thread_ok debug t -> local_work t = l1 ++ PendingRemote s :: l2 ++ PendingRemote s :: l3 ->
  keep (submission_entry s) (outgoing t) = [OPending s] /\ keep (of_submission s) l1 = [] /\
  keep (of_submission s) l2 = [] /\ keep (of_submission s) l3 = [] /\
  keep (reply_entry s) (incoming t) = [].
Proof.
  intros Ht E. pose proof (thread_subs _ _ Ht s) as Hs. rewrite E in Hs. revert Hs. stacks.
  clear E. repeat match goal with |- context [keep ?P ?l] => generalize (keep P l); intros ? end.
  inversion 1; split_pieces; done.
Qed.

Lemma pending_asynchronous debug t s l1 l2 :
  thread_ok debug t -> local_work t = l1 ++ PendingRemote s :: l2 ->
  keep (submission_entry s) (outgoing t) <> [OPending s] ->
  keep (submission_entry s) (outgoing t) = [] /\ keep (of_submission s) l1 = [] /\
  keep (of_submission s) l2 = [] /\ keep (reply_entry s) (incoming t) = [].
Proof.
  intros Ht E. pose proof (thread_subs _ _ Ht s) as Hs. rewrite E in Hs. revert Hs. stacks.
  clear E. repeat match goal with |- context [keep ?P ?l] => generalize (keep P l); intros ? end.
  inversion 1; split_pieces; done.
Qed.

Lemma entry_pieces s o1 o2 :
  keep (submission_entry s) (o1 ++ OPending s :: o2) = [OPending s] ->
  keep (submission_entry s) o1 = [] /\ keep (submission_entry s) o2 = [].
Proof. stacks. intros K. by_cases K. Qed.

Lemma filter_absent {A} `{EqDecision A} (w : A) (l : list A) : w ∉ l -> filter (fun x => x <> w) l = l.
Proof.
  induction l as [|x l IH]; [done|]. rewrite not_elem_of_cons. intros [? ?].
  rewrite filter_cons_True by congruence. by rewrite IH.
Qed.

Lemma commit_remote_submission_ok debug t Σ token call t' Σ' res :
  thread_ok debug t -> from_option (fun c => fresh_call t (Remote c)) True call ->
  commit_remote_submission t Σ token call = (t', Σ', res) -> thread_ok debug t'.
Proof.
  intros Ht Hf. unfold commit_remote_submission.
  destruct (positions _ _ _) as [|p [|q [|]]] eqn:Ep, call as [c|]; try by intros [= <- _ _].
  - apply positions_one in Ep as (l1 & l2 & E & -> & ? & ?).
    destruct (pending_one _ _ _ _ _ Ht E) as (K1 & K2 & K3 & K4); [done..|].
    case_bool_decide as Ho; [by intros [= <- _ _]|]. intros [= <- _ _].
    rewrite E, insert_middle.
    by_projection_with Ht ltac:(rewrite E) ltac:(rewrite ?K1, ?K2, ?K3, ?K4).
  - apply positions_two in Ep as (l1 & l2 & l3 & E & -> & -> & _ & _ & _).
    destruct (pending_two _ _ _ _ _ _ Ht E) as (K1 & K2 & K3 & K4 & K5).
    destruct (list_find _ _) as [[i x]|] eqn:Ef; [|by intros [= <- _ _]]. intros [= <- _ _].
    apply list_find_split in Ef as (o1 & o2 & Eo & -> & -> & _). simpl. destruct Hf as [Hf1 Hf2].
    rewrite E, Eo, !insert_middle, insert_second. rewrite Eo in Hf1, K1. rewrite E in Hf2.
    pieces Hf1. pieces Hf2. 
    destruct (entry_pieces _ _ _ K1).
    by_projection_with Ht ltac:(rewrite E, Eo) known_pieces.
Qed.

Lemma abort_remote_submission_ok debug t token t' res :
  thread_ok debug t -> abort_remote_submission t token = (t', res) -> thread_ok debug t'.
Proof.
  intros Ht. unfold abort_remote_submission. simpl.
  destruct (list_find _ _) as [[i x]|] eqn:Ef; intros H.
  - assert (t' = set_outgoing (set_work t (filter (fun w => w <> PendingRemote token) (local_work t)))
        (delete i (outgoing t))) as ->.
    { destruct (_ - _)%nat as [|[|[]]]; by simplify_eq. }
    apply list_find_split in Ef as (o1 & o2 & Eo & -> & -> & _). rewrite Eo, delete_middle'.
    by_projection Ht ltac:(rewrite Eo).
  - assert (t' = set_work t (filter (fun w => w <> PendingRemote token) (local_work t))) as ->.
    { destruct (_ - _)%nat as [|[|[]]]; by simplify_eq. }
    assert (keep (submission_entry token) (outgoing t) <> [OPending token]) as Hn.
    { intros Hk%keep_member. apply list_find_None in Ef. rewrite Forall_forall in Ef. by eapply Ef. }
    destruct (decide (PendingRemote token ∈ local_work t)) as [(l1 & l2 & E)%list_elem_of_split|Hw].
    + destruct (pending_asynchronous _ _ _ _ _ Ht E Hn) as (K1 & K2 & K3 & K4).
      by_projection_with Ht ltac:(rewrite E) known_pieces.
    + apply (thread_ok_same _ t); try done; intros; simpl; by rewrite filter_absent.
Qed.

Lemma reject_remote_submission_ok debug t Σ token reason t' Σ' res :
  thread_ok debug t -> reject_remote_submission t Σ token reason = (t', Σ', res) ->
  thread_ok debug t'.
Proof.
  intros Ht. unfold reject_remote_submission.
  destruct (positions _ _ _) as [|p [|q [|]]] eqn:Ep, (list_find (fun e => e = OPending token) (outgoing t)) as [[i x]|] eqn:Ef; try by intros [= <- _ _].
  all: intros [= <- _ _].
  - apply positions_one in Ep as (l1 & l2 & E & -> & ? & ?).
    destruct (pending_one _ _ _ _ _ Ht E) as (K1 & K2 & K3 & K4); [done..|].
    rewrite E, insert_middle. by_projection_with Ht ltac:(rewrite E) known_pieces.
  - apply positions_two in Ep as (l1 & l2 & l3 & E & -> & -> & _ & _ & _). simpl.
    destruct (pending_two _ _ _ _ _ _ Ht E) as (K1 & K2 & K3 & K4 & K5).
    apply list_find_split in Ef as (o1 & o2 & Eo & -> & -> & _).
    rewrite E, Eo, !insert_middle, delete_second. rewrite Eo in K1.
    destruct (entry_pieces _ _ _ K1).
    by_projection_with Ht ltac:(rewrite E, Eo) known_pieces.
Qed.

Lemma begin_remote_reply_ok debug rsv t t' res :
  thread_ok debug t -> begin_remote_reply rsv t = (t', res) -> thread_ok debug t'.
Proof.
  intros Ht. unfold begin_remote_reply.
  destruct (last (incoming t)) as [[[]|[]|]|] eqn:El; try by intros [= <- _].
  all: destruct (checked_add _ _ _) as [serial|] eqn:E; [|by intros [= <- _]].
  all: apply checked_add_Some in E as [-> _]; destruct (rsv _); intros [= <- _]; try done.
  all: pose proof (thread_next _ _ Ht); apply last_split in El.
  all: destruct (thread_serials _ _ Ht (next_remote_submission t + 1)) as (E1 & E2 & E3); [lia|].
  all: rewrite El in E3; pieces E3.
  all: by_projection_with Ht ltac:(try rewrite El at 1) known_pieces.
Qed.

Lemma commit_remote_reply_ok debug t Σ s call t' Σ' res :
  thread_ok debug t -> commit_remote_reply t Σ s call = (t', Σ', res) -> thread_ok debug t'.
Proof.
  intros Ht. unfold commit_remote_reply. case_bool_decide as El; [|by intros [= <- _ _]].
  apply last_split in El. simpl. destruct (list_find _ _) as [[i x]|] eqn:Ef; intros [= <- _ _]; [|done].
  apply list_find_split in Ef as (l1 & l2 & E & -> & -> & _). rewrite E, insert_middle.
  by_projection Ht ltac:(rewrite E; try rewrite El at 1).
Qed.

Lemma filter_once {A} `{EqDecision A} (w : A) (l1 l2 : list A) :
  w ∉ l1 -> w ∉ l2 -> filter (fun x => x <> w) (l1 ++ w :: l2) = l1 ++ l2.
Proof. intros. rewrite filter_app, filter_cons_False by auto. by rewrite !filter_absent. Qed.

Lemma keep_empty {A} (P : A -> bool) x l : keep P l = [] -> P x = true -> x ∉ l.
Proof. intros E Hx Hin. assert (x ∈ keep P l) as H by by apply keep_In. rewrite E in H. by apply not_elem_of_nil in H. Qed.

(** An entry that waits for its reply to be accepted has one unit of work. *)
Lemma reply_pending debug t s c :
  thread_ok debug t -> IPendingReply s c ∈ incoming t ->
  exists l1 l2, local_work t = l1 ++ PendingRemoteReply s :: l2 /\
    (PendingRemoteReply s ∉ l1) /\ (PendingRemoteReply s ∉ l2).
Proof.
  intros Ht Hin. pose proof (thread_subs _ _ Ht s) as Hs.
  assert (keep (of_submission s) (local_work t) = [PendingRemoteReply s]) as E.
  { assert (IPendingReply s c ∈ keep (reply_entry s) (incoming t)) as Hk.
    { apply keep_In. split; [by apply bool_decide_true|done]. }
    inversion Hs as [E1 E2 E3|E1 E2 E3|E1 E2 E3|? E1 E2 E3|? E1 E2 E3|? E1 E2 E3|? E1 E2 E3];
      rewrite <- E3 in Hk; try by apply not_elem_of_nil in Hk. done. }
  pose proof (keep_member _ _ _ E) as (l1 & l2 & Ew)%list_elem_of_split. exists l1, l2.
  split; [done|]. rewrite Ew in E. revert E. stacks. intros E.
  destruct (keep _ l1) as [|? [|]] eqn:E1, (keep _ l2) as [|] eqn:E2; simplify_eq/=.
  split; eapply keep_empty; try done; by apply bool_decide_true.
Qed.

Lemma abort_remote_reply_exact debug t s call :
  thread_ok debug t -> last (incoming t) = Some (IPendingReply s (Remote call)) ->
  exists l1 l2, local_work t = l1 ++ PendingRemoteReply s :: l2 /\
    (PendingRemoteReply s ∉ l1) /\ (PendingRemoteReply s ∉ l2) /\
    abort_remote_reply t s call =
      (set_incoming (set_work t (l1 ++ l2)) (pop (incoming t) ++ [IActive (Remote call)]), Ok tt).
Proof.
  intros Ht El. destruct (reply_pending debug t s (Remote call)) as (l1 & l2 & E & H1 & H2); [done| |].
  { apply last_split in El. rewrite El. apply elem_of_app. right. by left. }
  exists l1, l2. split_and!; try done. unfold abort_remote_reply. rewrite bool_decide_true by done. simpl.
  rewrite E, filter_once, !length_app by done. simpl.
  replace (_ - _)%nat with 1%nat by lia. done.
Qed.

Lemma abort_remote_reply_ok debug t s call t' res :
  thread_ok debug t -> abort_remote_reply t s call = (t', res) -> thread_ok debug t'.
Proof.
  intros Ht. destruct (decide (last (incoming t) = Some (IPendingReply s (Remote call)))) as [El|].
  - destruct (abort_remote_reply_exact _ _ _ _ Ht El) as (l1 & l2 & E & _ & _ & ->). intros [= <- _].
    apply last_split in El. by_projection Ht ltac:(rewrite E; try rewrite El at 1).
  - unfold abort_remote_reply. rewrite bool_decide_false by done. by intros [= <- _].
Qed.

(** ** Reachable threads *)

(** The operations on a thread.  A call is committed with an identity that the thread does not
    hold: identities are allocated once. *)
Inductive thread_step (debug : bool) (t : Thread) : Thread -> Prop :=
| step_execute_looper input t' res : execute_looper t input = (t', res) -> thread_step debug t t'
| step_commit_submission Σ call t' Σ' :
    from_option (fresh_call t) True call ->
    commit_submission debug (bool_decide (is_Some call)) t Σ call = Some (t', Σ') ->
    thread_step debug t t'
| step_accept_incoming call : thread_step debug t (accept_incoming t call)
| step_finish_incoming call t' res : finish_incoming t call = (t', res) -> thread_step debug t t'
| step_cancel_incoming call t' b : cancel_incoming t call = (t', b) -> thread_step debug t t'
| step_finish_outgoing call t' res : finish_outgoing t call = (t', res) -> thread_step debug t t'
| step_read_local_work output t' output' n :
    read_local_work debug t output = Some (t', output', n) -> thread_step debug t t'
| step_enqueue_dead_reply Σ call t' Σ' res :
    enqueue_dead_reply t Σ call = (t', Σ', res) -> thread_step debug t t'
| step_fail_remote_authority Σ t' Σ' res :
    fail_remote_authority t Σ = (t', Σ', res) -> thread_step debug t t'
| step_begin_remote_submission rsv synchronous t' res :
    begin_remote_submission rsv t synchronous = (t', res) -> thread_step debug t t'
| step_commit_remote_submission Σ token call t' Σ' res :
    from_option (fun c => fresh_call t (Remote c)) True call ->
    commit_remote_submission t Σ token call = (t', Σ', res) -> thread_step debug t t'
| step_abort_remote_submission token t' res :
    abort_remote_submission t token = (t', res) -> thread_step debug t t'
| step_reject_remote_submission Σ token reason t' Σ' res :
    reject_remote_submission t Σ token reason = (t', Σ', res) -> thread_step debug t t'
| step_begin_remote_reply rsv t' res :
    begin_remote_reply rsv t = (t', res) -> thread_step debug t t'
| step_commit_remote_reply Σ s call t' Σ' res :
    commit_remote_reply t Σ s call = (t', Σ', res) -> thread_step debug t t'
| step_abort_remote_reply s call t' res :
    abort_remote_reply t s call = (t', res) -> thread_step debug t t'.

Definition thread_reachable (debug : bool) (t : Thread) : Prop :=
  exists tid signal t0, new_with_signal tid signal = Some t0 /\ rtc (thread_step debug) t0 t.

Lemma new_thread_ok debug tid signal t : new_with_signal tid signal = Some t -> thread_ok debug t.
Proof.
  unfold new_with_signal, new. destruct (tid =? 0); simpl; [done|]. intros [= <-].
  split; simpl; intros; [constructor..|done|lia].
Qed.

Lemma thread_step_ok debug t t' : thread_ok debug t -> thread_step debug t t' -> thread_ok debug t'.
Proof.
  intros Ht. destruct 1.
  - by eapply execute_looper_ok.
  - by eapply commit_submission_ok.
  - by apply accept_incoming_ok.
  - by eapply finish_incoming_ok.
  - by eapply cancel_incoming_ok.
  - by eapply finish_outgoing_ok.
  - destruct (read_local_work_ok debug t output Ht) as (? & ? & ? & E' & ?). by simplify_eq.
  - by eapply enqueue_dead_reply_ok.
  - by eapply enqueue_dead_replies_ok.
  - by eapply begin_remote_submission_ok.
  - by eapply commit_remote_submission_ok.
  - by eapply abort_remote_submission_ok.
  - by eapply reject_remote_submission_ok.
  - by eapply begin_remote_reply_ok.
  - by eapply commit_remote_reply_ok.
  - by eapply abort_remote_reply_ok.
Qed.

Lemma thread_reachable_ok debug t : thread_reachable debug t -> thread_ok debug t.
Proof.
  intros (tid & signal & t0 & Hn & Hsteps). apply (new_thread_ok debug) in Hn.
  induction Hsteps; eauto using thread_step_ok.
Qed.

(** C10: In every state a thread can reach, whatever the order of the operations on it, each
    outgoing call is in one of the stages of its life: unknown; waiting, with one stack entry and
    two reserved units of return work; declared dead, with the two notices in their order; or
    dying, with its completion already read.  Each submission to the authority is likewise
    pending, rejected or a pending reply, with the stack entries and units of work that stage
    has and no others.  Reading return work there never fails an assertion, in a debug or a
    release build. *)
Theorem thread_invariant debug t :
  thread_reachable debug t ->
  thread_ok debug t /\
  forall output, exists t' output' n,
    read_local_work debug t output = Some (t', output', n) /\ thread_ok debug t'.
Proof.
  intros Ht%thread_reachable_ok. split; [done|]. intros output. by apply read_local_work_ok.
Qed.

(** A thread with a signal, as [Connection::thread] makes it, for the witnesses. *)
Definition sample_thread : Thread :=
  {| looper := LNone; id := 7; outgoing := []; incoming := []; local_work := [];
     next_remote_submission := 0; work_signal := Some 1%positive |}.

Lemma sample_reachable debug t : rtc (thread_step debug) sample_thread t -> thread_reachable debug t.
Proof. by exists 7, 1%positive, sample_thread. Defined.

Lemma thread_invariant_witness :
  exists t, thread_reachable true t /\ outgoing t = [OActive (Remote 3)] /\ thread_ok true t.
Proof.
  assert (exists t, rtc (thread_step true) sample_thread t /\ outgoing t = [OActive (Remote 3)])
    as (t & Ht & Ho).
  { eexists. split.
    - eapply rtc_l; [by eapply (step_begin_remote_submission _ _ (fun _ => true) true)|].
      eapply rtc_l; [by eapply (step_commit_remote_submission _ _ ∅ 1 (Some 3))|]. apply rtc_refl.
    - done. }
  exists t. pose proof (sample_reachable _ _ Ht) as Hr. split_and!; [done..|].
  apply (thread_invariant true t Hr).
Defined.

Lemma list_find_skip {A} (P : A -> Prop) `{forall x, Decision (P x)} l1 x l2 :
  (forall y, y ∈ l1 -> ~ P y) -> P x -> list_find P (l1 ++ x :: l2) = Some (length l1, x).
Proof.
  intros Hl Hx. apply list_find_Some. split_and!; [by rewrite list_lookup_middle|done|].
  intros j y Hj Hlt. apply Hl. rewrite lookup_app_l in Hj by done. by eapply list_elem_of_lookup_2.
Qed.

(** Reading selects the first visible unit. *)
Lemma read_first_visible debug t l1 w l2 output :
  local_work t = l1 ++ w :: l2 -> (forall y, y ∈ l1 -> visible t y = false) -> visible t w = true ->
  4 <= len output ->
  read_local_work debug t output =
    ('(t, command) ← deliver debug (set_work t (l1 ++ l2)) w;
     Some (t, copy_at 0 (u32_le command) output, 4)).
Proof.
  intros E Hl Hw Ho. unfold read_local_work. rewrite bool_decide_false; [|rewrite E; by destruct l1].
  rewrite (proj2 (Z.ltb_ge _ _)) by done. simpl.
  rewrite E, list_find_skip, delete_middle'; [done| |done].
  intros y Hy. by rewrite Hl.
Qed.

Lemma last_outgoing_snoc t o c : outgoing t = o ++ [OActive c] -> last_outgoing t = Some c.
Proof. intros E. unfold last_outgoing. by rewrite E, last_snoc. Qed.

Lemma read_nothing debug t output :
  (forall w, w ∈ local_work t -> visible t w = false) ->
  read_local_work debug t output = Some (t, output, 0).
Proof.
  intros Hv. unfold read_local_work. destruct (_ || _); [done|].
  rewrite (proj2 (list_find_None _ _)); [done|]. apply Forall_forall. intros w Hw. by rewrite Hv.
Qed.

(** A waiting call has two reserved units of work and no other. *)
Lemma waiting_split debug t c :
  thread_ok debug t -> ReservedTerminal c ∈ local_work t ->
  exists l1 l2 l3, local_work t = l1 ++ ReservedTerminal c :: l2 ++ ReservedTerminal c :: l3 /\
    keep (of_call c) l1 = [] /\ keep (of_call c) l2 = [] /\ keep (of_call c) l3 = [] /\
    keep (call_entry c) (outgoing t) = [OActive c].
Proof.
  intros Ht (l1 & k & E & Hn)%list_elem_of_split_l. pose proof (thread_calls _ _ Ht c) as Hc.
  pose proof (keep_member (of_call c) (ReservedTerminal c) l1) as Hm.
  rewrite E in Hc. revert Hm Hc. stacks. intros Hm Hc.
  assert (keep (of_call c) l1 = [] /\ keep (of_call c) k = [ReservedTerminal c] /\
          keep (call_entry c) (outgoing t) = [OActive c]) as (E1 & E2 & E3).
  { clear E. revert Hc Hm.
    repeat match goal with |- context [keep ?P ?l] => generalize (keep P l); intros ? end.
    inversion 1; split_pieces; naive_solver. }
  pose proof (keep_member _ _ _ E2) as (l2 & l3 & ->)%list_elem_of_split. revert E2. stacks. intros E2.
  exists l1, l2, l3. split_and!; try done; revert E2; generalize (keep (of_call c) l2); intros k2 E2;
    by split_pieces.
Qed.

Lemma waiting_absent {l c} : keep (of_call c) l = [] -> ReservedTerminal c ∉ l.
Proof. intros E. eapply keep_empty; [done|]. by apply bool_decide_true. Qed.

Lemma filter_none {A} `{EqDecision A} (w : A) (l : list A) : w ∉ l -> filter (fun x => x = w) l = [].
Proof.
  induction l as [|x l IH]; [done|]. rewrite not_elem_of_cons. intros [? ?].
  rewrite filter_cons_False by congruence. by apply IH.
Qed.

(** Declaring a waiting call dead succeeds, and replaces its reserved work in place. *)
Lemma enqueue_dead_reply_waiting debug t Σ c :
  thread_ok debug t -> ReservedTerminal c ∈ local_work t ->
  exists l1 l2 l3, local_work t = l1 ++ ReservedTerminal c :: l2 ++ ReservedTerminal c :: l3 /\
    keep (of_call c) l1 = [] /\ keep (of_call c) l2 = [] /\ keep (of_call c) l3 = [] /\
    enqueue_dead_reply t Σ c =
      (set_work t (l1 ++ TransactionComplete (Some c) :: l2 ++ DeadReplyWork c :: l3), wake t Σ, Ok tt).
Proof.
  intros Ht Hin. destruct (waiting_split _ _ _ Ht Hin) as (l1 & l2 & l3 & E & E1 & E2 & E3 & E4).
  exists l1, l2, l3. split_and!; try done. unfold enqueue_dead_reply.
  rewrite bool_decide_true by by eapply keep_member.
  assert (count_work (ReservedTerminal c) (local_work t) = 2%nat) as ->.
  { unfold count_work. rewrite E, filter_app, filter_cons_True, filter_app, filter_cons_True by done.
    by rewrite !filter_none by by apply waiting_absent. }
  simpl. rewrite E, convert_exact by by apply waiting_absent. done.
Qed.

(** A waiting call that is declared dead on a thread with nothing else to report is reported
    by exactly two reads, BR_TRANSACTION_COMPLETE first and BR_DEAD_REPLY second.  They leave the
    thread as it was before the call, with the call off the stack and its reserved work gone. *)
Theorem dead_reply_order debug t Σ c output1 output2 :
  thread_reachable debug t -> last_outgoing t = Some c -> ReservedTerminal c ∈ local_work t ->
  (forall w, w ∈ local_work t -> visible t w = false) -> 4 <= len output1 -> 4 <= len output2 ->
  exists t1 t2 t3,
    enqueue_dead_reply t Σ c = (t1, wake t Σ, Ok tt) /\
    read_local_work debug t1 output1 =
      Some (t2, copy_at 0 (u32_le BR_TRANSACTION_COMPLETE) output1, 4) /\
    read_local_work debug t2 output2 = Some (t3, copy_at 0 (u32_le BR_DEAD_REPLY) output2, 4) /\
    t3 = set_outgoing
           (set_work t (filter (fun w => w <> ReservedTerminal c) (local_work t)))
           (pop (outgoing t)).
Proof.
  intros Ht%thread_reachable_ok Hl Hin Hv Ho1 Ho2.
  destruct (enqueue_dead_reply_waiting _ _ Σ _ Ht Hin) as (l1 & l2 & l3 & E & E1 & E2 & E3 & ->).
  assert (forall w k, w ∈ k -> k = l1 \/ k = l2 -> visible t w = false) as Hk.
  { intros w k Hw Hk. apply Hv. rewrite E. set_solver. }
  set (t1 := set_work t _). exists t1, (set_work t1 (l1 ++ l2 ++ DeadReplyWork c :: l3)).
  eexists. split; [done|]. split; [|split].
  - rewrite (read_first_visible _ t1 l1 (TransactionComplete (Some c)) (l2 ++ DeadReplyWork c :: l3));
      [done..| |by apply bool_decide_true|done]. intros y Hy. eapply Hk; [done|by left].
  - rewrite (read_first_visible _ _ (l1 ++ l2) (DeadReplyWork c) l3); simpl;
      [|by rewrite <- app_assoc| |by apply bool_decide_true|done].
    + rewrite bool_decide_false; [rewrite andb_false_r; done|].
      intros Hl2%last_outgoing_split. simpl in Hl2. pose proof (thread_calls _ _ Ht c) as Hc.
      rewrite (last_outgoing_split _ _ Hl), Hl2 in Hc. revert Hc. stacks. intros Hc.
      clear E Hk. by_cases Hc.
    + intros y [Hy|Hy]%elem_of_app; (eapply Hk; [done|by auto]).
  - unfold set_outgoing, set_work; simpl. f_equal.
    rewrite E, filter_app, filter_cons_False, filter_app, filter_cons_False by auto.
    rewrite !filter_absent by by apply waiting_absent. by rewrite app_assoc.
Qed.

Definition waiting_thread : Thread :=
  {| looper := LNone; id := 7; outgoing := [OActive (Remote 3)]; incoming := [];
     local_work := [ReservedTerminal (Remote 3); ReservedTerminal (Remote 3)];
     next_remote_submission := 1; work_signal := Some 1%positive |}.

Lemma waiting_thread_reachable debug : thread_reachable debug waiting_thread.
Proof.
  apply sample_reachable.
  eapply rtc_l; [by eapply (step_begin_remote_submission _ _ (fun _ => true) true)|].
  eapply rtc_l; [by eapply (step_commit_remote_submission _ _ ∅ 1 (Some 3))|]. apply rtc_refl.
Defined.

Lemma dead_reply_order_witness :
  exists t1 t2 t3,
    enqueue_dead_reply waiting_thread ∅ (Remote 3) = (t1, ∅, Ok tt) /\
    read_local_work false t1 (replicate 4 Byte.x00) = Some (t2, [Byte.x06; Byte.x72; Byte.x00; Byte.x00], 4) /\
    read_local_work false t2 (replicate 4 Byte.x00) = Some (t3, [Byte.x05; Byte.x72; Byte.x00; Byte.x00], 4) /\
    outgoing t3 = [] /\ local_work t3 = [].
Proof.
  destruct (dead_reply_order false waiting_thread ∅ (Remote 3) (replicate 4 Byte.x00) (replicate 4 Byte.x00)
              (waiting_thread_reachable false)) as (t1 & t2 & t3 & H1 & H2 & H3 & H4).
  - done.
  - by left.
  - intros w [->|[->|[]%not_elem_of_nil]%elem_of_cons]%elem_of_cons; done.
  - done.
  - done.
  - exists t1, t2, t3. subst t3. split_and!; [done|done|done|done|done].
Defined.

Lemma enqueue_dead_replies_waiting debug t Σ calls :
  thread_ok debug t -> NoDup calls -> (forall c, c ∈ calls -> ReservedTerminal c ∈ local_work t) ->
  exists t' Σ', enqueue_dead_replies t Σ calls = (t', Σ', Ok tt) /\
    outgoing t' = outgoing t /\ incoming t' = incoming t /\
    (forall c, c ∈ calls ->
       keep (of_call c) (local_work t') = [TransactionComplete (Some c); DeadReplyWork c]) /\
    forall c, c ∉ calls -> keep (of_call c) (local_work t') = keep (of_call c) (local_work t).
Proof.
  induction calls as [|c calls IH] in t, Σ |- *; intros Ht Hnd Hw.
  { exists t, Σ. split_and!; try done. by intros c []%not_elem_of_nil. }
  apply NoDup_cons in Hnd as [Hc Hnd].
  destruct (enqueue_dead_reply_waiting _ _ Σ c Ht) as (l1 & l2 & l3 & E & E1 & E2 & E3 & He);
    [apply Hw; by left|].
  pose proof (enqueue_dead_reply_ok _ _ _ _ _ _ _ Ht He) as Ht1. simpl. rewrite He.
  set (t1 := set_work t _) in *.
  assert (forall c', c' <> c -> keep (of_call c') (local_work t1) = keep (of_call c') (local_work t))
    as Hother by (intros c' ?; simpl; rewrite E; stacks).
  destruct (IH t1 (wake t Σ) Ht1 Hnd) as (t' & Σ' & -> & Eo & Ei & Hin & Hout).
  { intros c' Hc'. assert (c' <> c) by by intros ->. apply (keep_In (of_call c')).
    rewrite Hother by done. apply keep_In. split; [by apply bool_decide_true|]. apply Hw. by right. }
  exists t', Σ'. split_and!; try done.
  - intros c' [->|?]%elem_of_cons; [|by apply Hin]. rewrite Hout by done. simpl. stacks.
    by rewrite E1, E2, E3.
  - intros c' [? ?]%not_elem_of_cons. rewrite Hout by done. by apply Hother.
Qed.

Lemma remote_calls_elem o c : Remote c ∈ remote_calls o <-> OActive (Remote c) ∈ o.
Proof.
  unfold remote_calls. rewrite list_elem_of_omap. split.
  - intros ([| |[]] & Hin & ?); by simplify_eq.
  - intros. by exists (OActive (Remote c)).
Qed.

Lemma remote_calls_remote o c : c ∈ remote_calls o -> exists r, c = Remote r.
Proof. intros ([| |[]] & Hin & ?)%list_elem_of_omap; simplify_eq; by eexists. Qed.

Lemma remote_calls_nodup debug t : thread_ok debug t -> NoDup (remote_calls (outgoing t)).
Proof.
  intros Ht. assert (forall c, (length (keep (call_entry c) (outgoing t)) <= 1)%nat) as Hk.
  { intros c. destruct (thread_calls _ _ Ht c); simpl; lia. }
  revert Hk. generalize (outgoing t). induction l as [|e o IH]; [constructor|]. intros Hk.
  assert (NoDup (remote_calls o)) as Ho.
  { apply IH. intros c. specialize (Hk c). rewrite keep_cons in Hk. destruct (call_entry c e); simpl in Hk; lia. }
  destruct e as [| |[|c]]; try done. simpl. apply NoDup_cons. split; [|done].
  rewrite remote_calls_elem. intros Hin. specialize (Hk (Remote c)). rewrite keep_cons in Hk. simpl in Hk.
  rewrite bool_decide_true in Hk by done.
  destruct (keep (call_entry (Remote c)) o) eqn:E; [|simpl in Hk; lia].
  eapply keep_empty in E; [by apply E|]. by apply bool_decide_true.
Qed.

(** When the routing authority is lost and no active call has been declared dead yet,
    every call to another process is completed: each ends with its two notices in order, no other
    call changes, the stack is untouched and the result is success. *)
Theorem fail_remote_authority_completes debug t Σ :
  thread_reachable debug t ->
  (forall c, OActive (Remote c) ∈ outgoing t -> ReservedTerminal (Remote c) ∈ local_work t) ->
  exists t' Σ', fail_remote_authority t Σ = (t', Σ', Ok tt) /\
    outgoing t' = outgoing t /\ incoming t' = incoming t /\
    (forall c, OActive (Remote c) ∈ outgoing t ->
       keep (of_call (Remote c)) (local_work t') =
         [TransactionComplete (Some (Remote c)); DeadReplyWork (Remote c)]) /\
    forall c, OActive c ∉ outgoing t \/ (exists l, c = Local l) ->
       keep (of_call c) (local_work t') = keep (of_call c) (local_work t).
Proof.
  intros Ht%thread_reachable_ok Hw.
  destruct (enqueue_dead_replies_waiting debug t Σ (remote_calls (outgoing t)) Ht)
    as (t' & Σ' & E & Eo & Ei & Hin & Hout).
  - by eapply remote_calls_nodup.
  - intros c Hc. destruct (remote_calls_remote _ _ Hc) as [r ->]. by apply Hw, remote_calls_elem.
  - exists t', Σ'. split_and!; try done.
    + intros c Hc. by apply Hin, remote_calls_elem.
    + intros c Hc. apply Hout. intros Hr. destruct (remote_calls_remote _ _ Hr) as [r ->].
      apply remote_calls_elem in Hr. destruct Hc as [Hc|[? Hc]]; by try discriminate Hc.
Qed.

Lemma fail_remote_authority_completes_witness :
  exists t' Σ', fail_remote_authority waiting_thread ∅ = (t', Σ', Ok tt) /\
    keep (of_call (Remote 3)) (local_work t') =
      [TransactionComplete (Some (Remote 3)); DeadReplyWork (Remote 3)].
Proof.
  destruct (fail_remote_authority_completes false waiting_thread ∅ (waiting_thread_reachable false))
    as (t' & Σ' & H1 & _ & _ & H4 & _).
  - intros c [[= ->]|[]%not_elem_of_nil]%elem_of_cons. by left.
  - exists t', Σ'. split; [exact H1|]. apply H4. by left.
Defined.

Definition stranded_thread : Thread :=
  {| looper := LNone; id := 7; outgoing := [OActive (Remote 3); OActive (Remote 4)];
     incoming := [];
     local_work := [TransactionComplete (Some (Remote 3)); DeadReplyWork (Remote 3);
                    ReservedTerminal (Remote 4); ReservedTerminal (Remote 4)];
     next_remote_submission := 2; work_signal := Some 1%positive |}.

(** C21: When one of the calls has already been declared dead, losing the authority does not
    complete the calls after it: a thread can be reached with two calls to other processes, the
    outer one declared dead, on which the operation fails and leaves the inner call, the one the
    thread waits for, with its reserved work and nothing to read. *)
Theorem fail_remote_authority_stops debug :
  exists t Σ, thread_reachable debug t /\
    outgoing t = [OActive (Remote 3); OActive (Remote 4)] /\
    exists t', fail_remote_authority t Σ = (t', Σ, Err InvalidOutgoingReply) /\
      last_outgoing t' = Some (Remote 4) /\
      keep (of_call (Remote 4)) (local_work t') =
        [ReservedTerminal (Remote 4); ReservedTerminal (Remote 4)] /\
      forall output, read_local_work debug t' output = Some (t', output, 0).
Proof.
  exists stranded_thread, ∅. split; [|split; [done|]].
  - apply sample_reachable.
    eapply rtc_l; [by eapply (step_begin_remote_submission _ _ (fun _ => true) true)|].
    eapply rtc_l; [by eapply (step_commit_remote_submission _ _ ∅ 1 (Some 3))|].
    eapply rtc_l; [by eapply (step_begin_remote_submission _ _ (fun _ => true) true)|].
    eapply rtc_l; [by eapply (step_commit_remote_submission _ _ ∅ 2 (Some 4))|].
    eapply rtc_l; [by eapply (step_enqueue_dead_reply _ _ ∅ (Remote 3))|]. apply rtc_refl.
  - exists stranded_thread. split_and!; [done..|]. intros output. apply read_nothing.
    apply Forall_forall. repeat (apply List.Forall_cons; [done|]). done.
Qed.

(** The stacks of a thread whose submission has begun. *)
Definition begun (t : Thread) (synchronous : bool) : Thread :=
  let token := next_remote_submission t + 1 in
  if synchronous then
    set_work (set_outgoing (set_next t token) (outgoing t ++ [OPending token]))
      (local_work t ++ [PendingRemote token; PendingRemote token])
  else set_work (set_next t token) (local_work t ++ [PendingRemote token]).

Lemma begin_remote_submission_Ok rsv t synchronous t' token :
  begin_remote_submission rsv t synchronous = (t', Ok token) ->
  token = next_remote_submission t + 1 /\ t' = begun t synchronous.
Proof.
  unfold begin_remote_submission, begun.
  destruct (checked_add _ _ _) as [serial|] eqn:E; [|done]. apply checked_add_Some in E as [-> _].
  destruct (rsv [0%nat]), synchronous; simpl; try done; [destruct (rsv [1%nat]); [|done]|];
    intros [= <- <-]; split; try done.
  unfold set_work, set_outgoing, set_next; simpl. by rewrite <- app_assoc.
Qed.

(** The identity of a new submission occurs nowhere. *)
Lemma token_fresh debug t :
  thread_ok debug t ->
  (OPending (next_remote_submission t + 1) ∉ outgoing t) /\
  (PendingRemote (next_remote_submission t + 1) ∉ local_work t).
Proof.
  intros Ht. pose proof (thread_next _ _ Ht).
  destruct (thread_serials _ _ Ht (next_remote_submission t + 1)) as (E1 & E2 & _); [lia|].
  split; eapply keep_empty; try done; by apply bool_decide_true.
Qed.

Lemma positions_skip w k l n : w ∉ l -> positions w n (l ++ k) = positions w (length l + n) k.
Proof.
  induction l as [|x l IH] in n |- *; [done|]. rewrite not_elem_of_cons. intros [? ?]. simpl.
  rewrite bool_decide_false by congruence. rewrite IH by done. f_equal. lia.
Qed.

Lemma list_find_last {A} `{EqDecision A} (x : A) l :
  x ∉ l -> list_find (fun y => y = x) (l ++ [x]) = Some (length l, x).
Proof. intros Hx. apply list_find_skip; [|done]. by intros y Hy ->. Qed.

Lemma list_find_absent {A} `{EqDecision A} (x : A) l :
  x ∉ l -> list_find (fun y => y = x) l = None.
Proof. intros Hx. apply list_find_None, Forall_forall. by intros y Hy ->. Qed.

Lemma pop_snoc {A} (l : list A) x : pop (l ++ [x]) = l.
Proof.
  unfold pop. rewrite length_app. simpl. rewrite Nat.add_sub. apply take_app_length.
Qed.

Lemma abort_begun debug t synchronous :
  thread_ok debug t ->
  abort_remote_submission (begun t synchronous) (next_remote_submission t + 1) =
    (set_next t (next_remote_submission t + 1), Ok tt).
Proof.
  intros [Ho Hw]%token_fresh. unfold abort_remote_submission, begun. destruct synchronous; simpl.
  - rewrite list_find_last, filter_app, filter_absent by done.
    rewrite !filter_cons_False, filter_nil, app_nil_r, !length_app by auto. simpl.
    replace (_ - _)%nat with 2%nat by lia. rewrite delete_middle', app_nil_r. by destruct t.
  - rewrite list_find_absent, filter_app, filter_absent by done.
    rewrite !filter_cons_False, filter_nil, app_nil_r, !length_app by auto. simpl.
    replace (_ - _)%nat with 1%nat by lia. by destruct t.
Qed.

Lemma insert_last {A} (l : list A) x y z w :
  <[length (l ++ [x]) := z]> (l ++ [y; w]) = l ++ [y; z].
Proof. apply (insert_second l [] []). Qed.

Lemma delete_last {A} (l : list A) x y w : delete (length (l ++ [x])) (l ++ [y; w]) = l ++ [y].
Proof. apply (delete_second l [] []). Qed.

Lemma begun_positions debug t :
  thread_ok debug t ->
  let token := next_remote_submission t + 1 in
  positions (PendingRemote token) 0 (local_work t ++ [PendingRemote token; PendingRemote token]) =
    [length (local_work t); length (local_work t ++ [PendingRemote token])] /\
  positions (PendingRemote token) 0 (local_work t ++ [PendingRemote token]) =
    [length (local_work t)].
Proof.
  intros [_ Hw]%token_fresh. simpl. rewrite !positions_skip by done. simpl.
  rewrite bool_decide_true, length_app by done. simpl. split; repeat f_equal; lia.
Qed.

(** A submission to the authority that was begun can be undone or completed.  Aborting it
    gives back the thread as it was, but for the serial number.  Committing a synchronous one
    with a new call and taking its reply also gives that thread back; committing an asynchronous
    one leaves just its completion to read.  A commit of the other kind is refused. *)
Theorem remote_submission_roundtrip debug rsv t synchronous t1 token Σ c :
  thread_reachable debug t -> fresh_call t (Remote c) ->
  begin_remote_submission rsv t synchronous = (t1, Ok token) ->
  abort_remote_submission t1 token = (set_next t token, Ok tt) /\
  (if synchronous then
     (exists t2, commit_remote_submission t1 Σ token (Some c) = (t2, Σ, Ok tt) /\
        finish_outgoing t2 (Remote c) = (set_next t token, Ok tt)) /\
     commit_remote_submission t1 Σ token None = (t1, Σ, Err InvalidOutgoingReply)
   else
     commit_remote_submission t1 Σ token None =
       (set_work (set_next t token) (local_work t ++ [TransactionComplete None]), wake t Σ, Ok tt) /\
     commit_remote_submission t1 Σ token (Some c) = (t1, Σ, Err InvalidOutgoingReply)).
Proof.
  intros Ht%thread_reachable_ok [_ Hf] [-> ->]%begin_remote_submission_Ok.
  split; [by eapply abort_begun|].
  destruct (token_fresh _ _ Ht) as [Ho Hw]. destruct (begun_positions _ _ Ht) as [Ep1 Ep2].
  unfold commit_remote_submission, begun. destruct synchronous; simpl.
  - rewrite Ep1, list_find_last by done. split; [|done]. eexists. split; [done|].
    rewrite insert_middle, (insert_middle (local_work t)), insert_last. unfold finish_outgoing.
    rewrite bool_decide_true by by apply last_outgoing_snoc with (outgoing t). simpl.
    rewrite pop_snoc, filter_app, filter_absent by by apply waiting_absent.
    rewrite !filter_cons_False, filter_nil, app_nil_r by auto. by destruct t.
  - rewrite Ep2, bool_decide_false, insert_middle by done. by split.
Qed.

Lemma remote_submission_roundtrip_witness :
  abort_remote_submission (begun waiting_thread true) 2 = (set_next waiting_thread 2, Ok tt).
Proof.
  apply (remote_submission_roundtrip true (fun _ => true) waiting_thread true _ 2 ∅ 4
           (waiting_thread_reachable true)); by vm_compute.
Defined.

(** C20: Rejecting a synchronous submission leaves one unit of work, which the thread reads as the
    terminal error and nothing else.  In a build with debug assertions the thread is then as
    before the submission.  In a release build the rejected entry stays on its stack of calls:
    the [pop] that removes it is written inside [debug_assert_eq!]. *)
Theorem rejected_submission_read debug rsv t t1 token Σ reason output :
  thread_reachable debug t -> begin_remote_submission rsv t true = (t1, Ok token) ->
  (forall w, w ∈ local_work t ->
     visible (set_outgoing t (outgoing t ++ [ORejected token])) w = false) ->
  4 <= len output ->
  exists t2, reject_remote_submission t1 Σ token reason = (t2, wake t Σ, Ok tt) /\
    read_local_work debug t2 output =
      Some (if debug then set_next t token
            else set_outgoing (set_next t token) (outgoing t ++ [ORejected token]),
            copy_at 0 (u32_le match reason with
                              | DeadReply => BR_DEAD_REPLY
                              | FailedReply => BR_FAILED_REPLY
                              end) output, 4).
Proof.
  intros Ht%thread_reachable_ok [-> ->]%begin_remote_submission_Ok Hv Hout.
  destruct (token_fresh _ _ Ht) as [Ho Hw]. destruct (begun_positions _ _ Ht) as [Ep1 _].
  unfold reject_remote_submission, begun. simpl. rewrite Ep1, list_find_last by done.
  eexists. split; [done|]. rewrite !insert_middle. simpl.
  rewrite delete_last.
  rewrite (read_first_visible _ _ (local_work t)
    (RejectedRemote (next_remote_submission t + 1) true reason) []);
    [|done|done|simpl; by rewrite last_snoc, bool_decide_true|done].
  destruct debug; simpl; [rewrite last_snoc, bool_decide_true by done; simpl|];
    by rewrite ?pop_snoc, app_nil_r; destruct t, reason.
Qed.

Lemma rejected_submission_read_witness :
  exists t2, reject_remote_submission (begun waiting_thread true) ∅ 2 FailedReply = (t2, ∅, Ok tt) /\
    read_local_work false t2 (replicate 4 Byte.x00) =
      Some (set_outgoing (set_next waiting_thread 2) [OActive (Remote 3); ORejected 2],
            [Byte.x11; Byte.x72; Byte.x00; Byte.x00], 4).
Proof.
  destruct (rejected_submission_read false (fun _ => true) waiting_thread (begun waiting_thread true)
    2 ∅ FailedReply (replicate 4 Byte.x00) (waiting_thread_reachable false)) as (t2 & H1 & H2).
  - by vm_compute.
  - intros w [->|[->|[]%not_elem_of_nil]%elem_of_cons]%elem_of_cons; done.
  - done.
  - exists t2. split; [exact H1|]. rewrite H2. by vm_compute.
Defined.

Lemma list_find_last_reply t s :
  PendingRemoteReply s ∉ local_work t ->
  list_find (fun w => w = PendingRemoteReply s) (local_work t ++ [PendingRemoteReply s]) =
    Some (length (local_work t), PendingRemoteReply s).
Proof. apply list_find_last. Qed.

(** A reply to another process that was begun replaces the entry of its call and is kept when
    the caller dies.  Committing it takes the call off the stack and leaves one completion to
    read; aborting it makes the call the current one again and leaves no work behind. *)
Theorem remote_reply_exact debug rsv t t1 s call Σ :
  thread_reachable debug t -> begin_remote_reply rsv t = (t1, Ok (Some (s, call))) ->
  cancel_incoming t1 (Remote call) = (t1, true) /\
  current_incoming t1 = Err InvalidReplyStack /\
  commit_remote_reply t1 Σ s call =
    (set_work (set_incoming (set_next t s) (pop (incoming t)))
       (local_work t ++ [TransactionComplete None]), wake t Σ, Ok tt) /\
  abort_remote_reply t1 s call =
    (set_incoming (set_next t s) (pop (incoming t) ++ [IActive (Remote call)]), Ok tt).
Proof.
  intros Ht%thread_reachable_ok. unfold begin_remote_reply.
  assert (PendingRemoteReply (next_remote_submission t + 1) ∉ local_work t) as Hw.
  { pose proof (thread_next _ _ Ht).
    destruct (thread_serials _ _ Ht (next_remote_submission t + 1)) as (_ & E & _); [lia|].
    eapply keep_empty; [done|]. by apply bool_decide_true. }
  destruct (last (incoming t)) as [[[]|[]|]|] eqn:El; try done.
  all: destruct (checked_add _ _ _) as [serial|] eqn:E; [|done].
  all: apply checked_add_Some in E as [-> _]; destruct (rsv _); simpl; [|done].
  all: intros [= <- <- <-]; split_and!.
  all: try (unfold cancel_incoming, rposition; simpl; rewrite reverse_snoc; simpl;
    rewrite decide_True by done; simpl; rewrite length_app; simpl;
    replace (_ - _)%nat with (length (pop (incoming t))) by lia; by rewrite list_lookup_middle).
  all: try (unfold current_incoming; simpl; by rewrite last_snoc).
  all: try (unfold commit_remote_reply; simpl; rewrite last_snoc, bool_decide_true by done; simpl;
    rewrite list_find_last_reply by done; simpl; by rewrite insert_middle, pop_snoc).
  all: unfold abort_remote_reply; simpl; rewrite last_snoc, bool_decide_true by done; simpl.
  all: rewrite filter_once by (done || apply not_elem_of_nil); rewrite !length_app, pop_snoc; simpl.
  all: replace (_ - _)%nat with 1%nat by lia; simpl; rewrite app_nil_r; by destruct t.
Qed.

Lemma remote_reply_exact_witness :
  let t1 := begin_remote_reply (fun _ => true) (accept_incoming sample_thread (Remote 9)) in
  abort_remote_reply t1.1 1 9 = (set_incoming (set_next sample_thread 1) [IActive (Remote 9)], Ok tt).
Proof.
  apply (remote_reply_exact true (fun _ => true) (accept_incoming sample_thread (Remote 9)) _ 1 9 ∅).
  - apply sample_reachable. eapply rtc_l; [apply step_accept_incoming|apply rtc_refl].
  - by vm_compute.
Defined.

(** The looper commands a thread accepts from a sequence of buffers, in order. *)
Fixpoint accepted_loopers (t : Thread) (inputs : list bytes) : list Command.Kind :=
  match inputs with
  | [] => []
  | input :: inputs =>
      match execute_looper t input, Command.decode input with
      | (t', Ok _), Ok (c, _) => Command.kind c :: accepted_loopers t' inputs
      | (t', _), _ => accepted_loopers t' inputs
      end
  end.

Definition looper_prefixes (l : Looper) : list (list Command.Kind) :=
  match l with
  | LNone => [[]; [RegisterLooper]; [EnterLooper]; [RegisterLooper; ExitLooper];
              [EnterLooper; ExitLooper]]
  | LRegistered | LEntered => [[]; [ExitLooper]]
  | LExited => [[]]
  end.

Lemma accepted_loopers_prefix t inputs : accepted_loopers t inputs ∈ looper_prefixes (looper t).
Proof.
  induction inputs as [|input inputs IH] in t |- *; simpl; [destruct (looper t); left|].
  unfold execute_looper. destruct (Command.decode input) as [[c n]|]; [|apply IH].
  destruct (looper t) eqn:El, (Command.kind c) eqn:Ek; try (rewrite <- El; apply IH).
  all: match goal with
       | |- context [accepted_loopers ?t' ?l] =>
           specialize (IH t'); revert IH; generalize (accepted_loopers t' l)
       end; intros k; simpl; set_solver.
Qed.

(** Whatever a thread is sent, the looper commands it accepts are at most one registration,
    as a pool thread or as the main one, followed by at most one exit; every other looper command
    is refused and changes nothing.  A thread that has left never becomes a looper again. *)
Theorem looper_lifecycle tid signal t inputs :
  new_with_signal tid signal = Some t ->
  accepted_loopers t inputs ∈
    [[]; [RegisterLooper]; [EnterLooper]; [RegisterLooper; ExitLooper]; [EnterLooper; ExitLooper]] /\
  (forall t' input t'' e, execute_looper t' input = (t'', Err e) -> t'' = t').
Proof.
  intros Hn. pose proof (accepted_loopers_prefix t inputs) as Hp. split.
  - revert Hn Hp. unfold new_with_signal, new. destruct (tid =? 0); simpl; [done|]. by intros [= <-].
  - intros t' input t'' e. unfold execute_looper.
    destruct (Command.decode input) as [[c n]|]; [|by intros [= <- _]].
    by destruct (looper t'), (Command.kind c); intros [= <- _].
Qed.

Lemma looper_lifecycle_witness :
  accepted_loopers sample_thread
    [u32_le 0x630b; u32_le 0x630c; u32_le 0x630d; u32_le 0x630b] = [RegisterLooper; ExitLooper].
Proof.
  pose proof (looper_lifecycle 7 1%positive sample_thread
    [u32_le 0x630b; u32_le 0x630c; u32_le 0x630d; u32_le 0x630b] eq_refl) as [H _].
  by vm_compute in H |- *.
Defined.
