(* ===== verification/RoutingAuthority.v ===== *)
(** * The profile-wide routing authority ([routing_authority/])

    The one object of a profile that knows every Binder connection: it authenticates
    connections, publishes nodes, owns the context manager, pairs synchronous calls with their
    replies and tells the survivors when a connection closes.  Each operation holds the state
    lock throughout, so it is one transition; a transition never panics, so the lock is never
    poisoned.  The order in which a [HashMap] is iterated is the class [Iteration]. *)
From S2P Require Import Prelude AuthorityProtocol.

(** ** Types ([types.rs], [state.rs]) *)

Record PeerIdentity : Type := { pid : Z; android_uid : Z; incarnation : Z * Z }.

Definition verified (pid android_uid : Z) (incarnation : Z * Z) : option PeerIdentity :=
  if negb (pid =? 0) && (pid <=? i32_max)
  then Some {| pid := pid; android_uid := android_uid; incarnation := incarnation |}
  else None.

(** [authority] is the address of the authority's identity, compared with [Arc::ptr_eq]. *)
Record Session : Type := { authority : positive; connection : ConnectionToken }.

Record Outbound : Type := { destination : ConnectionToken; message : Message }.
Record RouteOutcome : Type := { acknowledgement : Message; delivery : Outbound }.

Inductive Error : Type :=
| ForeignAuthority | UnknownConnection | DeadTarget | UnknownNode | UnknownCall | WrongReplier
| ContextManagerBusy | ContextManagerSecurity | ContextManagerWrongUid | InvalidThread
| ConnectionIdsExhausted | CallIdsExhausted | DeathAlreadyRequested | UnknownDeath | OutOfMemory
| Poisoned.

Record ConnectionState : Type := { peer : PeerIdentity; nodes : gset LocalNodeToken }.

Record CallRoute : Type :=
  { sender : ConnectionToken; caller_thread : Z; target : NodeToken }.

Record State : Type :=
  { next_connection : Z; next_call : Z;
    connections : gmap Z ConnectionState;
    calls : gmap Z CallRoute;
    deaths : gmap (Z * NodeToken) Z;
    context_manager : option NodeToken;
    context_manager_uid : option Z }.

Record RoutingAuthority : Type := { identity : positive; state : State }.

Definition default_state : State :=
  {| next_connection := 0; next_call := 0; connections := ∅; calls := ∅; deaths := ∅;
     context_manager := None; context_manager_uid := None |}.

#[export] Instance PeerIdentity_eq_dec : EqDecision PeerIdentity.
Proof. solve_decision. Defined.
#[export] Instance Outbound_eq_dec : EqDecision Outbound.
Proof. solve_decision. Defined.
#[export] Instance CallRoute_eq_dec : EqDecision CallRoute.
Proof. solve_decision. Defined.

Definition set_state (a : RoutingAuthority) (s : State) : RoutingAuthority :=
  {| identity := identity a; state := s |}.
Definition set_connections (s : State) (c : gmap Z ConnectionState) : State :=
  {| next_connection := next_connection s; next_call := next_call s; connections := c;
     calls := calls s; deaths := deaths s; context_manager := context_manager s;
     context_manager_uid := context_manager_uid s |}.
Definition set_calls (s : State) (c : gmap Z CallRoute) : State :=
  {| next_connection := next_connection s; next_call := next_call s;
     connections := connections s; calls := c; deaths := deaths s;
     context_manager := context_manager s; context_manager_uid := context_manager_uid s |}.
Definition set_deaths (s : State) (d : gmap (Z * NodeToken) Z) : State :=
  {| next_connection := next_connection s; next_call := next_call s;
     connections := connections s; calls := calls s; deaths := d;
     context_manager := context_manager s; context_manager_uid := context_manager_uid s |}.
Definition set_manager (s : State) (n : option NodeToken) : State :=
  {| next_connection := next_connection s; next_call := next_call s;
     connections := connections s; calls := calls s; deaths := deaths s;
     context_manager := n; context_manager_uid := context_manager_uid s |}.
Definition set_manager_uid (s : State) (u : option Z) : State :=
  {| next_connection := next_connection s; next_call := next_call s;
     connections := connections s; calls := calls s; deaths := deaths s;
     context_manager := context_manager s; context_manager_uid := u |}.
Definition set_next_connection (s : State) (n : Z) : State :=
  {| next_connection := n; next_call := next_call s;
     connections := connections s; calls := calls s; deaths := deaths s;
     context_manager := context_manager s; context_manager_uid := context_manager_uid s |}.
Definition set_next_call (s : State) (n : Z) : State :=
  {| next_connection := next_connection s; next_call := n;
     connections := connections s; calls := calls s; deaths := deaths s;
     context_manager := context_manager s; context_manager_uid := context_manager_uid s |}.

(** ** Operations ([state.rs]) *)

Definition check (a : RoutingAuthority) (session : Session) : result unit Error :=
  ensure (bool_decide (identity a = authority session)) ForeignAuthority.

Definition find_connection (a : RoutingAuthority) (session : Session) : result ConnectionState Error :=
  let? _ := check a session in
  ok_or (connections (state a) !! connection session) UnknownConnection.

(** [pid as i32]. *)
Definition as_i32 (v : Z) : Z := let w := v `mod` 2 ^ 32 in if w <=? i32_max then w else w - 2 ^ 32.

(** [connections.try_reserve] at [[0]]; [from_nonzero(serial).unwrap()] of a successor. *)
Definition open_authenticated (rsv : Reserve) (a : RoutingAuthority) (p : PeerIdentity)
    : RoutingAuthority * result (Session * Message) Error :=
  let s := state a in
  match checked_add u64_max (next_connection s) 1 with
  | None => (a, Err ConnectionIdsExhausted)
  | Some serial =>
      if negb (rsv [0%nat]) then (a, Err OutOfMemory)
      else
        let s := set_connections s (<[serial := {| peer := p; nodes := ∅ |}]> (connections s)) in
        let s := set_next_connection s serial in
        (set_state a s,
         Ok ({| authority := identity a; connection := serial |},
             ConnectionOpened serial (android_uid p)))
  end.

Definition peer_of (a : RoutingAuthority) (session : Session) : result PeerIdentity Error :=
  let? c := find_connection a session in Ok (peer c).

(** The insertion of a node in its connection, with [nodes.try_reserve] at [[0]]. *)
Definition insert_node (rsv : Reserve) (s : State) (session : Session) (local : LocalNodeToken)
    : State * result unit Error :=
  match connections s !! connection session with
  | None => (s, Err UnknownConnection)
  | Some c =>
      if bool_decide (local ∈ nodes c) then (s, Ok tt)
      else if negb (rsv [0%nat]) then (s, Err OutOfMemory)
      else
        (set_connections s
           (<[connection session := {| peer := peer c; nodes := {[ local ]} ∪ nodes c |}]>
              (connections s)), Ok tt)
  end.

Definition publish_node (rsv : Reserve) (a : RoutingAuthority) (session : Session)
    (local : LocalNodeToken) : RoutingAuthority * result Message Error :=
  match check a session with
  | Err e => (a, Err e)
  | Ok _ =>
      match insert_node rsv (state a) session local with
      | (s, Err e) => (set_state a s, Err e)
      | (s, Ok _) =>
          (set_state a s,
           Ok (NodePublished {| owner := connection session; AuthorityProtocol.local := local |}))
      end
  end.

Definition set_context_manager (rsv : Reserve) (a : RoutingAuthority) (session : Session)
    (local : LocalNodeToken) : RoutingAuthority * result Message Error :=
  match check a session with
  | Err e => (a, Err e)
  | Ok _ =>
      let s := state a in
      if bool_decide (is_Some (context_manager s)) then (a, Err ContextManagerBusy)
      else
        match connections s !! connection session with
        | None => (a, Err UnknownConnection)
        | Some c =>
            let uid := android_uid (peer c) in
            if negb (uid =? 0) && negb (uid =? 1000) then (a, Err ContextManagerSecurity)
            else if from_option (fun o => negb (o =? uid)) false (context_manager_uid s)
            then (a, Err ContextManagerWrongUid)
            else
              let s := set_manager_uid s (Some uid) in
              match insert_node rsv s session local with
              | (s, Err e) => (set_state a s, Err e)
              | (s, Ok _) =>
                  let node := {| owner := connection session; AuthorityProtocol.local := local |} in
                  (set_state a (set_manager s (Some node)), Ok (ContextManagerSet node))
              end
        end
  end.

Definition get_context_manager (a : RoutingAuthority) (session : Session) : result Message Error :=
  let? _ := find_connection a session in Ok (ContextManagerFound (context_manager (state a))).

(** The checks of [route_transaction] before a call is allocated, and the sender's identity. *)
Definition accept_route (a : RoutingAuthority) (from : Session) (to : NodeToken) (thread : Z)
    : result PeerIdentity Error :=
  let? _ := ensure (negb (thread =? 0)) InvalidThread in
  let? c := find_connection a from in
  let? t := ok_or (connections (state a) !! owner to) DeadTarget in
  let? _ := ensure (bool_decide (local to ∈ nodes t)) UnknownNode in
  Ok (peer c).

(** A synchronous transaction allocates a call, with [calls.try_reserve] at [[0]]. *)
Definition allocate_call (rsv : Reserve) (s : State) (route : CallRoute) (flags : Z)
    : State * result (option CallToken) Error :=
  if Z.land flags 1 =? 0 then
    match checked_add u64_max (next_call s) 1 with
    | None => (s, Err CallIdsExhausted)
    | Some serial =>
        if negb (rsv [0%nat]) then (s, Err OutOfMemory)
        else
          let s := set_calls s (<[serial := route]> (calls s)) in
          (set_next_call s serial, Ok (Some serial))
    end
  else (s, Ok None).

Definition route_transaction (rsv : Reserve) (a : RoutingAuthority) (from : Session)
    (to : NodeToken) (thread : Z) (transfer : TransferToken) (code flags : Z)
    : RoutingAuthority * result RouteOutcome Error :=
  match accept_route a from to thread with
  | Err e => (a, Err e)
  | Ok sender_peer =>
      let route := {| sender := connection from; caller_thread := thread; target := to |} in
      match allocate_call rsv (state a) route flags with
      | (s, Err e) => (set_state a s, Err e)
      | (s, Ok call) =>
          (set_state a s,
           Ok {| acknowledgement := RouteAccepted call;
                 delivery :=
                   {| destination := owner to;
                      message :=
                        DeliverTransaction call (connection from)
                          (if Z.land flags 1 =? 0 then as_i32 (pid sender_peer) else 0)
                          (android_uid sender_peer) (local to) thread transfer code flags |} |})
      end
  end.

Definition complete_reply (a : RoutingAuthority) (replier : Session) (call : CallToken)
    (transfer : TransferToken) (code flags : Z)
    : RoutingAuthority * result (option Outbound) Error :=
  match find_connection a replier with
  | Err e => (a, Err e)
  | Ok c =>
      match calls (state a) !! call with
      | None => (a, Err UnknownCall)
      | Some route =>
          if negb (owner (target route) =? connection replier) then (a, Err WrongReplier)
          else
            let s := set_calls (state a) (delete call (calls (state a))) in
            if negb (bool_decide (is_Some (connections s !! sender route)))
            then (set_state a s, Ok None)
            else
              (set_state a s,
               Ok (Some
                 {| destination := sender route;
                    message :=
                      DeliverReply call (connection replier) (as_i32 (pid (peer c)))
                        (android_uid (peer c)) (caller_thread route) transfer code flags |}))
      end
  end.

(** [deaths.try_reserve] at [[0]]. *)
Definition request_death (rsv : Reserve) (a : RoutingAuthority) (subscriber : Session)
    (to : NodeToken) (cookie : Z) : RoutingAuthority * result Message Error :=
  let s := state a in
  match
    let? _ := find_connection a subscriber in
    let? t := ok_or (connections s !! owner to) UnknownConnection in
    let? _ := ensure (bool_decide (local to ∈ nodes t)) UnknownNode in
    let? _ := ensure (bool_decide (deaths s !! (connection subscriber, to) = None))
                DeathAlreadyRequested in
    ensure (rsv [0%nat]) OutOfMemory
  with
  | Err e => (a, Err e)
  | Ok _ =>
      (set_state a (set_deaths s (<[(connection subscriber, to) := cookie]> (deaths s))),
       Ok DeathRequested)
  end.

Definition clear_death (a : RoutingAuthority) (subscriber : Session) (to : NodeToken) (cookie : Z)
    : RoutingAuthority * result Message Error :=
  let s := state a in
  match find_connection a subscriber with
  | Err e => (a, Err e)
  | Ok _ =>
      if bool_decide (deaths s !! (connection subscriber, to) = Some cookie)
      then (set_state a (set_deaths s (delete (connection subscriber, to) (deaths s))),
            Ok DeathCleared)
      else (a, Err UnknownDeath)
  end.

(** ** Closing a connection *)

Definition connected (s : State) (c : ConnectionToken) : bool :=
  bool_decide (is_Some (connections s !! c)).

(** The calls a closing connection takes part in. *)
Definition involves (c : ConnectionToken) (route : CallRoute) : bool :=
  (sender route =? c) || (owner (target route) =? c).

(** The two conditions of the loop of [close]: the target of a live caller dies, and the caller
    of a live target dies. *)
Definition target_dies (s : State) (c : ConnectionToken) (route : CallRoute) : bool :=
  (owner (target route) =? c) && negb (sender route =? c) && connected s (sender route).
Definition caller_dies (s : State) (c : ConnectionToken) (route : CallRoute) : bool :=
  (sender route =? c) && negb (owner (target route) =? c) && connected s (owner (target route)).

(** One turn of the loop over the calls; [None] is the panic of [unwrap]. *)
Definition close_call (c : ConnectionToken) (s : State) (notifications : list Outbound)
    (call : CallToken) : option (State * list Outbound) :=
  route ← calls s !! call;
  Some
    (if target_dies s c route then
       (set_calls s (delete call (calls s)),
        notifications ++
          [{| destination := sender route; message := TargetDead call (caller_thread route) |}])
     else if caller_dies s c route then
       (s, notifications ++
             [{| destination := owner (target route); message := CallerDead call |}])
     else (set_calls s (delete call (calls s)), notifications)).

Fixpoint close_calls (c : ConnectionToken) (s : State) (notifications : list Outbound)
    (call_ids : list CallToken) : option (State * list Outbound) :=
  match call_ids with
  | [] => Some (s, notifications)
  | call :: call_ids =>
      '(s, notifications) ← close_call c s notifications call;
      close_calls c s notifications call_ids
  end.

(** The condition of the loop over the death registrations. *)
Definition node_dies (s : State) (c : ConnectionToken) (key : Z * NodeToken) : bool :=
  (owner key.2 =? c) && negb (key.1 =? c) && connected s key.1.

Section close.
Context {IC : Iteration Z CallRoute} {ID : Iteration (Z * NodeToken) Z}.

(** [call_ids.try_reserve] at [[0]] and [notifications.try_reserve] at [[1]]; the counts computed
    before only size the reservations. *)
Definition close (rsv : Reserve) (a : RoutingAuthority) (session : Session)
    : option (RoutingAuthority * result (list Outbound) Error) :=
  let s := state a in
  let c := connection session in
  match
    let? _ := find_connection a session in
    let? _ := ensure (rsv [0%nat]) OutOfMemory in
    ensure (rsv [1%nat]) OutOfMemory
  with
  | Err e => Some (a, Err e)
  | Ok _ =>
      let call_ids := omap (fun p => if involves c p.2 then Some p.1 else None) (iter (calls s)) in
      '(s, notifications) ← close_calls c s [] call_ids;
      let notifications := notifications ++
        omap (fun p => if node_dies s c p.1
                       then Some {| destination := p.1.1; message := NodeDead p.2 |} else None)
          (iter (deaths s)) in
      let s := set_deaths s (filter (fun p => p.1.1 <> c) (deaths s)) in
      let s := set_connections s (delete c (connections s)) in
      let s := if bool_decide (owner <$> context_manager s = Some c) then set_manager s None else s in
      Some (set_state a s, Ok notifications)
  end.
End close.

(** ** Specification of closing *)

Definition call_notice (s : State) (c : ConnectionToken) (p : Z * CallRoute) : option Outbound :=
  if target_dies s c p.2 then
    Some {| destination := sender p.2; message := TargetDead p.1 (caller_thread p.2) |}
  else if caller_dies s c p.2 then
    Some {| destination := owner (target p.2); message := CallerDead p.1 |}
  else None.

Definition death_notice (s : State) (c : ConnectionToken) (p : (Z * NodeToken) * Z) : option Outbound :=
  if node_dies s c p.1 then Some {| destination := p.1.1; message := NodeDead p.2 |} else None.

Definition close_notices (s : State) (c : ConnectionToken) : list Outbound :=
  omap (call_notice s c) (map_to_list (calls s)) ++ omap (death_notice s c) (map_to_list (deaths s)).

Definition after_close (s : State) (c : ConnectionToken) : State :=
  {| next_connection := next_connection s; next_call := next_call s;
     connections := delete c (connections s);
     calls := filter (fun p => involves c p.2 = false \/ caller_dies s c p.2 = true) (calls s);
     deaths := filter (fun p => p.1.1 <> c) (deaths s);
     context_manager :=
       if bool_decide (owner <$> context_manager s = Some c) then None else context_manager s;
     context_manager_uid := context_manager_uid s |}.

(** ** Lemmas *)

Lemma set_calls_set s m m' : set_calls (set_calls s m) m' = set_calls s m'.
Proof. done. Qed.

Lemma set_calls_id s : set_calls s (calls s) = s.
Proof. by destruct s. Qed.

(** The calls left by the loop of [close]. *)
Definition surviving (s : State) (c : ConnectionToken) (ids : list CallToken) : gmap Z CallRoute :=
  filter (fun p => p.1 ∉ ids \/ caller_dies s c p.2 = true) (calls s).

Lemma surviving_drop s c i r ids :
  calls s !! i = Some r -> caller_dies s c r = false ->
  surviving (set_calls s (delete i (calls s))) c ids = surviving s c (i :: ids).
Proof.
  intros Hi Hr. apply map_eq. intros k. apply option_eq. intros r'. unfold surviving; simpl.
  rewrite !map_lookup_filter_Some. simpl. rewrite lookup_delete_Some, not_elem_of_cons.
  change (caller_dies (set_calls s _) c r') with (caller_dies s c r').
  destruct (decide (k = i)) as [->|]; [|naive_solver]. split; [naive_solver|].
  rewrite Hi. intros [[= <-] [[? _]|?]]; congruence.
Qed.

Lemma surviving_keep s c i r ids :
  calls s !! i = Some r -> caller_dies s c r = true -> surviving s c ids = surviving s c (i :: ids).
Proof.
  intros Hi Hr. apply map_eq. intros k. apply option_eq. intros r'. unfold surviving.
  rewrite !map_lookup_filter_Some. simpl. rewrite not_elem_of_cons.
  destruct (decide (k = i)) as [->|]; [|naive_solver]. rewrite Hi. naive_solver.
Qed.

Lemma target_not_caller s c r : target_dies s c r = true -> caller_dies s c r = false.
Proof. unfold target_dies, caller_dies. destruct (owner _ =? c), (sender r =? c); done. Qed.

Lemma close_calls_exact c s ps notes :
  NoDup ps.*1 -> (forall i r, (i, r) ∈ ps -> calls s !! i = Some r) ->
  close_calls c s notes ps.*1 =
    Some (set_calls s (surviving s c ps.*1), notes ++ omap (call_notice s c) ps).
Proof.
  induction ps as [|[i r] ps IH] in s, notes |- *; simpl; intros Hnd Hl.
  { rewrite app_nil_r. unfold surviving. rewrite map_filter_id; [by rewrite set_calls_id|].
    intros. left. apply not_elem_of_nil. }
  apply NoDup_cons in Hnd as [Hi Hnd]. pose proof (Hl i r ltac:(left)) as Hr.
  unfold close_call. rewrite Hr. simpl.
  assert (forall j r', (j, r') ∈ ps -> j <> i) as Hne.
  { intros j r' Hj ->. apply Hi. by apply (list_elem_of_fmap_2 fst) in Hj. }
  assert (forall j r', (j, r') ∈ ps -> calls (set_calls s (delete i (calls s))) !! j = Some r') as Hl'.
  { intros j r' Hj. simpl. rewrite lookup_delete_ne by (symmetry; by eapply Hne). apply Hl. by right. }
  unfold call_notice at 1; simpl. destruct (target_dies s c r) eqn:Et; [|destruct (caller_dies s c r) eqn:Ec].
  - simpl. rewrite IH, (surviving_drop _ _ _ _ _ Hr (target_not_caller _ _ _ Et)) by done.
    by rewrite <- app_assoc.
  - simpl. rewrite IH, (surviving_keep _ _ _ _ _ Hr Ec) by (try done; intros; apply Hl; by right).
    by rewrite <- app_assoc.
  - simpl. by rewrite IH, (surviving_drop _ _ _ _ _ Hr Ec) by done.
Qed.

Lemma NoDup_fst_filter {A B} (P : A * B -> Prop) `{forall x, Decision (P x)} (l : list (A * B)) :
  NoDup l.*1 -> NoDup (filter P l).*1.
Proof.
  induction l as [|p l IH]; [done|]. rewrite fmap_cons, NoDup_cons, filter_cons. intros [Hp Hl].
  case_decide; [|by apply IH]. rewrite fmap_cons, NoDup_cons. split; [|by apply IH].
  intros (q & E & [_ Hq]%list_elem_of_filter)%list_elem_of_fmap. apply Hp. rewrite E.
  by apply list_elem_of_fmap_2.
Qed.

Section close_spec.
Context {IC : Iteration Z CallRoute} {ID : Iteration (Z * NodeToken) Z}.

Lemma involved_calls (s : State) c :
  omap (fun p => if involves c p.2 then Some p.1 else None) (iter (calls s)) =
  (filter (fun p => involves c p.2 = true) (iter (calls s))).*1.
Proof.
  induction (iter (calls s)) as [|p l IH]; [done|]. rewrite filter_cons. simpl.
  destruct (involves c p.2) eqn:E.
  - rewrite decide_True by done. simpl. f_equal. apply IH.
  - rewrite decide_False by done. apply IH.
Qed.

Lemma iter_elem (m : gmap Z CallRoute) i r : (i, r) ∈ iter m <-> m !! i = Some r.
Proof. rewrite iter_perm. apply elem_of_map_to_list. Qed.

Lemma notices_involved s c (l : list (Z * CallRoute)) :
  omap (call_notice s c) (filter (fun p => involves c p.2 = true) l) = omap (call_notice s c) l.
Proof.
  induction l as [|p l IH]; [done|]. rewrite filter_cons. simpl.
  destruct (involves c p.2) eqn:E.
  - rewrite decide_True by done. simpl. destruct (call_notice s c p); [f_equal|]; apply IH.
  - rewrite decide_False by done. unfold call_notice at 2, target_dies, caller_dies.
    apply orb_false_iff in E as [-> ->]. apply IH.
Qed.

Lemma surviving_involved (s : State) c :
  surviving s c (filter (fun p => involves c p.2 = true) (iter (calls s))).*1 =
  filter (fun p => involves c p.2 = false \/ caller_dies s c p.2 = true) (calls s).
Proof.
  apply map_filter_ext. intros i r Hi. simpl.
  assert (i ∈ (filter (fun p => involves c p.2 = true) (iter (calls s))).*1 <-> involves c r = true) as Hin.
  { rewrite list_elem_of_fmap. setoid_rewrite list_elem_of_filter. split.
    - intros ([i' r'] & -> & Hv & Hl%iter_elem). simpl in *. by simplify_eq.
    - intros Hv. exists (i, r). by rewrite iter_elem. }
  rewrite Hin. destruct (involves c r); naive_solver.
Qed.

Lemma find_connection_Ok a session cs :
  find_connection a session = Ok cs <->
  authority session = identity a /\ connections (state a) !! connection session = Some cs.
Proof.
  unfold find_connection, check, ensure, ok_or. case_bool_decide; simpl; [|naive_solver].
  destruct (_ !! _); naive_solver.
Qed.

Lemma close_Ok (rsv : Reserve) a session cs :
  find_connection a session = Ok cs -> rsv [0%nat] = true -> rsv [1%nat] = true ->
  exists notes, notes ≡ₚ close_notices (state a) (connection session) /\
    close rsv a session =
      Some (set_state a (after_close (state a) (connection session)), Ok notes).
Proof.
  intros Ef Hr0 Hr1. unfold close. rewrite Ef, Hr0, Hr1. simpl.
  rewrite involved_calls, close_calls_exact.
  - eexists. split; [|simpl; f_equal; f_equal; unfold after_close].
    + simpl. rewrite notices_involved. unfold close_notices. f_equiv.
      * apply omap_Permutation, iter_perm.
      * apply (omap_Permutation (death_notice (state a) (connection session))), iter_perm.
    + rewrite surviving_involved. destruct (state a); simpl. by case_bool_decide.
  - apply NoDup_fst_filter. rewrite iter_perm. apply NoDup_fst_map_to_list.
  - intros i r [_ Hl]%list_elem_of_filter. by apply iter_elem.
Qed.

Lemma close_cases (rsv : Reserve) a session a' res :
  close rsv a session = Some (a', res) ->
  (exists cs notes, find_connection a session = Ok cs /\ res = Ok notes /\
     notes ≡ₚ close_notices (state a) (connection session) /\
     a' = set_state a (after_close (state a) (connection session))) \/
  (exists e, res = Err e /\ a' = a).
Proof.
  intros E. destruct (find_connection a session) as [cs|e] eqn:Ef.
  - destruct (rsv [0%nat]) eqn:E0; [destruct (rsv [1%nat]) eqn:E1|].
    + destruct (close_Ok rsv a session cs Ef E0 E1) as (notes & Hp & Hc). left.
      exists cs, notes. rewrite E in Hc. naive_solver.
    + right. revert E. unfold close. rewrite Ef, E0, E1. simpl. naive_solver.
    + right. revert E. unfold close. rewrite Ef, E0. simpl. naive_solver.
  - right. revert E. unfold close. rewrite Ef. simpl. naive_solver.
Qed.

Lemma close_total (rsv : Reserve) a session : exists a' res, close rsv a session = Some (a', res).
Proof.
  destruct (find_connection a session) as [cs|e] eqn:Ef.
  - destruct (rsv [0%nat]) eqn:E0; [destruct (rsv [1%nat]) eqn:E1|].
    + destruct (close_Ok rsv a session cs Ef E0 E1) as (notes & _ & Hc). eauto.
    + unfold close. rewrite Ef, E0, E1. simpl. eauto.
    + unfold close. rewrite Ef, E0. simpl. eauto.
  - unfold close. rewrite Ef. simpl. eauto.
Qed.
End close_spec.

(** ** Runs of the authority

    What the connected processes ask of the authority, and what can be observed: identities
    admitted, calls accepted and messages sent. *)

Inductive Request : Type :=
| ROpen (p : PeerIdentity)
| RPublish (session : Session) (l : LocalNodeToken)
| RSetManager (session : Session) (l : LocalNodeToken)
| RRoute (session : Session) (to : NodeToken) (thread : Z) (transfer : TransferToken) (code flags : Z)
| RReply (session : Session) (call : CallToken) (transfer : TransferToken) (code flags : Z)
| RRequestDeath (session : Session) (to : NodeToken) (cookie : Z)
| RClearDeath (session : Session) (to : NodeToken) (cookie : Z)
| RClose (session : Session).

Inductive Event : Type :=
| Opened (c : ConnectionToken) (p : PeerIdentity)
| Accepted (call : CallToken) (r : CallRoute)
| Sent (o : Outbound).

Section runs.
Context {IC : Iteration Z CallRoute} {ID : Iteration (Z * NodeToken) Z}.

Definition handle (rsv : Reserve) (a : RoutingAuthority) (req : Request)
    : option (RoutingAuthority * list Event) :=
  match req with
  | ROpen p =>
      let '(a, r) := open_authenticated rsv a p in
      Some (a, match r with Ok (session, _) => [Opened (connection session) p] | Err _ => [] end)
  | RPublish session l => Some ((publish_node rsv a session l).1, [])
  | RSetManager session l => Some ((set_context_manager rsv a session l).1, [])
  | RRoute session to thread transfer code flags =>
      let '(a, r) := route_transaction rsv a session to thread transfer code flags in
      Some (a,
        match r with
        | Ok o =>
            match acknowledgement o with
            | RouteAccepted (Some call) =>
                [Accepted call
                   {| sender := connection session; caller_thread := thread; target := to |}]
            | _ => []
            end ++ [Sent (delivery o)]
        | Err _ => []
        end)
  | RReply session call transfer code flags =>
      let '(a, r) := complete_reply a session call transfer code flags in
      Some (a, match r with Ok (Some o) => [Sent o] | _ => [] end)
  | RRequestDeath session to cookie => Some ((request_death rsv a session to cookie).1, [])
  | RClearDeath session to cookie => Some ((clear_death a session to cookie).1, [])
  | RClose session =>
      '(a, r) ← close rsv a session;
      Some (a, match r with Ok notes => Sent <$> notes | Err _ => [] end)
  end.

Fixpoint run (a : RoutingAuthority) (reqs : list (Reserve * Request))
    : option (RoutingAuthority * list Event) :=
  match reqs with
  | [] => Some (a, [])
  | (rsv, req) :: reqs =>
      '(a, evs) ← handle rsv a req;
      '(a, evs') ← run a reqs;
      Some (a, evs ++ evs')
  end.
End runs.

(** The elementary changes of state the requests are made of, with what they show. *)
Inductive effect (s : State) : State -> list Event -> Prop :=
| eff_open p :
    effect s
      (set_next_connection
         (set_connections s (<[next_connection s + 1 := {| peer := p; nodes := ∅ |}]> (connections s)))
         (next_connection s + 1)) [Opened (next_connection s + 1) p]
| eff_node c cs l :
    connections s !! c = Some cs ->
    effect s
      (set_connections s (<[c := {| peer := peer cs; nodes := {[ l ]} ∪ nodes cs |}]> (connections s))) []
| eff_uid u :
    u = 0 \/ u = 1000 -> from_option (fun o => o = u) True (context_manager_uid s) ->
    context_manager s = None ->
    effect s (set_manager_uid s (Some u)) []
| eff_manager n cs :
    context_manager s = None -> connections s !! owner n = Some cs -> local n ∈ nodes cs ->
    context_manager_uid s = Some (android_uid (peer cs)) ->
    effect s (set_manager s (Some n)) []
| eff_call r ss ts :
    caller_thread r <> 0 -> connections s !! sender r = Some ss ->
    connections s !! owner (target r) = Some ts -> local (target r) ∈ nodes ts ->
    effect s (set_next_call (set_calls s (<[next_call s + 1 := r]> (calls s))) (next_call s + 1))
      [Accepted (next_call s + 1) r]
| eff_deliver call c cs dest l thread transfer code flags :
    connections s !! c = Some cs ->
    effect s s [Sent {| destination := dest; message :=
      DeliverTransaction call c (if Z.land flags 1 =? 0 then as_i32 (pid (peer cs)) else 0)
        (android_uid (peer cs)) l thread transfer code flags |}]
| eff_reply call r cs transfer code flags :
    calls s !! call = Some r -> connections s !! owner (target r) = Some cs ->
    is_Some (connections s !! sender r) ->
    effect s (set_calls s (delete call (calls s)))
      [Sent {| destination := sender r; message :=
         DeliverReply call (owner (target r)) (as_i32 (pid (peer cs))) (android_uid (peer cs))
           (caller_thread r) transfer code flags |}]
| eff_late_reply call r :
    calls s !! call = Some r -> connections s !! sender r = None ->
    effect s (set_calls s (delete call (calls s))) []
| eff_request_death c to cs ts cookie :
    connections s !! c = Some cs -> connections s !! owner to = Some ts ->
    deaths s !! (c, to) = None ->
    effect s (set_deaths s (<[(c, to) := cookie]> (deaths s))) []
| eff_clear_death c to :
    effect s (set_deaths s (delete (c, to) (deaths s))) []
| eff_close c cs notes :
    connections s !! c = Some cs -> notes ≡ₚ close_notices s c ->
    effect s (after_close s c) (Sent <$> notes).

Inductive effects (s : State) : State -> list Event -> Prop :=
| effects_nil : effects s s []
| effects_cons s1 s2 e es : effect s s1 e -> effects s1 s2 es -> effects s s2 (e ++ es).

Lemma effects_one s s' es : effect s s' es -> effects s s' es.
Proof. intros H. rewrite <- (app_nil_r es). eapply effects_cons; [done|constructor]. Qed.

Lemma effects_app s1 s2 s3 e1 e2 : effects s1 s2 e1 -> effects s2 s3 e2 -> effects s1 s3 (e1 ++ e2).
Proof.
  induction 1 as [|s s1' s2' e es He Hes IH]; [done|]. intros H3. rewrite <- app_assoc.
  eapply effects_cons; eauto.
Qed.

Lemma insert_node_effects rsv s session l s' res :
  insert_node rsv s session l = (s', res) ->
  effects s s' [] /\
  (forall u, res = Ok u -> exists cs, connections s' !! connection session = Some cs /\ l ∈ nodes cs /\
     (peer <$> connections s !! connection session) = Some (peer cs)) /\
  context_manager s' = context_manager s /\ context_manager_uid s' = context_manager_uid s.
Proof.
  unfold insert_node. destruct (connections s !! connection session) as [cs|] eqn:E.
  - case_bool_decide; [|destruct (rsv _); simpl]; intros [= <- <-].
    + split; [constructor|]. split; [|done]. intros _ _. exists cs. by rewrite E.
    + split; [by apply effects_one, eff_node|]. split; [|done]. intros _ _. simpl.
      rewrite lookup_insert_eq. eexists. split; [done|]. simpl. split; [set_solver|done].
    + split; [constructor|]. done.
  - intros [= <- <-]. split; [constructor|]. done.
Qed.

Lemma publish_node_effects rsv a session l a' res :
  publish_node rsv a session l = (a', res) -> effects (state a) (state a') [].
Proof.
  unfold publish_node. destruct (check a session); [|intros [= <- _]; constructor].
  destruct (insert_node _ _ _ _) as [s []] eqn:E; apply insert_node_effects in E as (? & _);
    by intros [= <- _].
Qed.

Lemma set_context_manager_effects rsv a session l a' res :
  set_context_manager rsv a session l = (a', res) -> effects (state a) (state a') [].
Proof.
  unfold set_context_manager. destruct (check a session); [|intros [= <- _]; constructor].
  case_bool_decide as Hm; [intros [= <- _]; constructor|].
  destruct (connections _ !! _) as [cs|] eqn:Ec; [|intros [= <- _]; constructor].
  destruct (negb _ && negb _) eqn:Eu; [intros [= <- _]; constructor|].
  destruct (from_option _ _ _) eqn:Es; [intros [= <- _]; constructor|].
  apply eq_None_not_Some in Hm.
  assert (effects (state a) (set_manager_uid (state a) (Some (android_uid (peer cs)))) []) as He.
  { apply effects_one, eff_uid; [lia| |done]. revert Es. destruct (context_manager_uid _); simpl; lia. }
  destruct (insert_node _ _ _ _) as [s []] eqn:E; apply insert_node_effects in E as (Hi & Hn & Em & Eu');
    intros [= <- _]; simpl; [|by apply (effects_app _ _ _ [] [] He)].
  apply (effects_app _ _ _ [] [] He), (effects_app _ _ _ [] [] Hi).
  destruct (Hn _ eq_refl) as (cs' & Hcs & Hl & Hp). simpl in *. rewrite Ec in Hp. simpl in Hp.
  apply effects_one. eapply eff_manager; simpl; [by rewrite Em|done|done|]. rewrite Eu'. congruence.
Qed.

Lemma accept_route_Ok a from to thread p :
  accept_route a from to thread = Ok p ->
  thread <> 0 /\ exists cs ts, connections (state a) !! connection from = Some cs /\ p = peer cs /\
    connections (state a) !! owner to = Some ts /\ local to ∈ nodes ts.
Proof.
  unfold accept_route, ensure. destruct (thread =? 0) eqn:Et; simpl; [done|].
  destruct (find_connection a from) as [cs|] eqn:Ef; simpl; [|done].
  apply find_connection_Ok in Ef as [_ Ef]. unfold ok_or.
  destruct (connections _ !! owner to) as [ts|] eqn:Eo; simpl; [|done].
  case_bool_decide; simpl; [|done]. intros [= <-]. split; [lia|]. naive_solver.
Qed.

Lemma route_transaction_effects rsv a session to thread transfer code flags a' res :
  route_transaction rsv a session to thread transfer code flags = (a', res) ->
  effects (state a) (state a')
    match res with
    | Ok o =>
        match acknowledgement o with
        | RouteAccepted (Some call) =>
            [Accepted call {| sender := connection session; caller_thread := thread; target := to |}]
        | _ => []
        end ++ [Sent (delivery o)]
    | Err _ => []
    end.
Proof.
  unfold route_transaction. destruct (accept_route _ _ _ _) as [p|] eqn:Ea;
    [|intros [= <- <-]; constructor].
  apply accept_route_Ok in Ea as (Ht & cs & ts & Ec & -> & Eo & Hl). unfold allocate_call.
  destruct (Z.land flags 1 =? 0) eqn:Ef.
  - destruct (checked_add _ _ _) as [serial|] eqn:E; [|intros [= <- <-]; constructor].
    apply checked_add_Some in E as [-> _]. destruct (rsv _); simpl; intros [= <- <-]; [|constructor].
    simpl. eapply (effects_cons _ _ _ [_] [_]); [by eapply eff_call|].
    apply effects_one. match goal with |- effect ?s _ _ => pose proof (eff_deliver s
      (Some (next_call (state a) + 1)) (connection session) cs (owner to) (local to) thread
      transfer code flags Ec) as Hd end. by rewrite Ef in Hd.
  - intros [= <- <-]. simpl. apply effects_one.
    pose proof (eff_deliver (state a) None (connection session) cs (owner to) (local to) thread
      transfer code flags Ec) as Hd. by rewrite Ef in Hd.
Qed.

Lemma complete_reply_effects a session call transfer code flags a' res :
  complete_reply a session call transfer code flags = (a', res) ->
  effects (state a) (state a') match res with Ok (Some o) => [Sent o] | _ => [] end.
Proof.
  unfold complete_reply. destruct (find_connection a session) as [cs|] eqn:Ef;
    [|intros [= <- <-]; constructor].
  apply find_connection_Ok in Ef as [_ Ef].
  destruct (calls _ !! call) as [r|] eqn:Er; [|intros [= <- <-]; constructor].
  destruct (owner (target r) =? connection session) eqn:Eo; simpl; [|intros [= <- <-]; constructor].
  apply Z.eqb_eq in Eo. rewrite <- Eo in *. case_bool_decide as Hs; simpl; intros [= <- <-]; simpl.
  - apply effects_one. by eapply eff_reply.
  - apply effects_one. eapply eff_late_reply; [done|]. by apply eq_None_not_Some.
Qed.

Lemma request_death_effects rsv a session to cookie a' res :
  request_death rsv a session to cookie = (a', res) -> effects (state a) (state a') [].
Proof.
  unfold request_death. destruct (find_connection a session) as [cs|] eqn:Ef; simpl;
    [|intros [= <- <-]; constructor].
  apply find_connection_Ok in Ef as [_ Ef]. unfold ok_or, ensure.
  destruct (connections _ !! owner to) as [ts|] eqn:Eo; simpl; [|intros [= <- <-]; constructor].
  case_bool_decide; simpl; [|intros [= <- <-]; constructor].
  case_bool_decide; simpl; [|intros [= <- <-]; constructor].
  destruct (rsv _); intros [= <- <-]; [|constructor]. apply effects_one. by eapply eff_request_death.
Qed.

Lemma clear_death_effects a session to cookie a' res :
  clear_death a session to cookie = (a', res) -> effects (state a) (state a') [].
Proof.
  unfold clear_death. destruct (find_connection a session); [|intros [= <- <-]; constructor].
  case_bool_decide; intros [= <- <-]; [|constructor]. apply effects_one, eff_clear_death.
Qed.

Lemma open_effects rsv a p a' res :
  open_authenticated rsv a p = (a', res) ->
  effects (state a) (state a')
    match res with Ok (session, _) => [Opened (connection session) p] | Err _ => [] end.
Proof.
  unfold open_authenticated. destruct (checked_add _ _ _) as [serial|] eqn:E;
    [|intros [= <- <-]; constructor].
  apply checked_add_Some in E as [-> _]. destruct (rsv _); simpl; intros [= <- <-]; [|constructor].
  apply effects_one, eff_open.
Qed.

Section handle.
Context {IC : Iteration Z CallRoute} {ID : Iteration (Z * NodeToken) Z}.

(** A request is handled without a panic and amounts to elementary effects. *)
Lemma handle_effects (rsv : Reserve) a req :
  exists a' evs, handle rsv a req = Some (a', evs) /\ effects (state a) (state a') evs.
Proof.
  destruct req; simpl.
  - destruct (open_authenticated _ _ _) eqn:E. eauto using open_effects.
  - destruct (publish_node _ _ _ _) eqn:E. eauto using publish_node_effects.
  - destruct (set_context_manager _ _ _ _) eqn:E. eauto using set_context_manager_effects.
  - destruct (route_transaction _ _ _ _ _ _ _ _) eqn:E. eauto using route_transaction_effects.
  - destruct (complete_reply _ _ _ _ _ _) eqn:E. eauto using complete_reply_effects.
  - destruct (request_death _ _ _ _ _) eqn:E. eauto using request_death_effects.
  - destruct (clear_death _ _ _ _) eqn:E. eauto using clear_death_effects.
  - destruct (close_total rsv a session) as (a' & r & E). rewrite E. simpl.
    eexists _, _. split; [done|].
    apply close_cases in E as [(cs & notes & Hf & -> & Hp & ->)|(e & -> & ->)]; [|constructor].
    apply effects_one. apply find_connection_Ok in Hf as [_ Hf]. by eapply eff_close.
Qed.

Lemma run_effects a reqs :
  exists a' evs, run a reqs = Some (a', evs) /\ effects (state a) (state a') evs.
Proof.
  induction reqs as [|[rsv req] reqs IH] in a |- *; simpl; [eexists _, _; split; [done|constructor]|].
  destruct (handle_effects rsv a req) as (a1 & e1 & -> & H1). simpl.
  destruct (IH a1) as (a2 & e2 & -> & H2). simpl. eexists _, _. split; [done|]. by eapply effects_app.
Qed.
End handle.

(** ** Invariant of the state *)

Record authority_ok (s : State) : Prop := {
  ok_next_connection : 0 <= next_connection s;
  ok_next_call : 0 <= next_call s;
  ok_connections c : is_Some (connections s !! c) -> 0 < c <= next_connection s;
  ok_calls k r : calls s !! k = Some r ->
    0 < k <= next_call s /\ caller_thread r <> 0 /\ 0 < sender r <= next_connection s /\
    exists cs, connections s !! owner (target r) = Some cs /\ local (target r) ∈ nodes cs;
  ok_deaths c n k : deaths s !! (c, n) = Some k ->
    is_Some (connections s !! c) /\ 0 < owner n <= next_connection s;
  ok_manager n : context_manager s = Some n ->
    exists cs, connections s !! owner n = Some cs /\ local n ∈ nodes cs /\
      context_manager_uid s = Some (android_uid (peer cs));
  ok_uid u : context_manager_uid s = Some u -> u = 0 \/ u = 1000 }.

Lemma default_ok : authority_ok default_state.
Proof.
  split; simpl; try done; intros; by simplify_map_eq.
Qed.

(** A change of the connections that keeps the old ones with their nodes and identity. *)
Lemma grow_ok s m n :
  authority_ok s -> next_connection s <= n ->
  (forall c cs, connections s !! c = Some cs ->
     exists cs', m !! c = Some cs' /\ peer cs' = peer cs /\ nodes cs ⊆ nodes cs') ->
  (forall c, is_Some (m !! c) -> 0 < c <= n) ->
  authority_ok (set_next_connection (set_connections s m) n).
Proof.
  intros Hs Hn Hgrow Hm. pose proof (ok_next_connection _ Hs). split; simpl.
  - lia.
  - apply Hs.
  - done.
  - intros k r Hk. destruct (ok_calls _ Hs _ _ Hk) as (? & ? & ? & cs & Hc & Hl).
    destruct (Hgrow _ _ Hc) as (cs' & ? & _ & ?). split_and!; [lia|lia|done|lia|lia|]. exists cs'. set_solver.
  - intros c nd k Hk. destruct (ok_deaths _ Hs _ _ _ Hk) as [[cs Hc] ?].
    destruct (Hgrow _ _ Hc) as (cs' & ? & _). split; [done|lia].
  - intros nd Hnd. destruct (ok_manager _ Hs _ Hnd) as (cs & Hc & Hl & Hu).
    destruct (Hgrow _ _ Hc) as (cs' & ? & Hp & ?). exists cs'. rewrite Hp. set_solver.
  - apply Hs.
Qed.

Lemma shrink_calls_ok s m :
  authority_ok s -> m ⊆ calls s -> authority_ok (set_calls s m).
Proof.
  intros Hs Hm. split; simpl; try apply Hs.
  intros k r Hk. apply (ok_calls _ Hs). by eapply lookup_weaken.
Qed.

Lemma after_close_ok s c : authority_ok s -> authority_ok (after_close s c).
Proof.
  intros Hs. split; simpl; try apply Hs.
  - intros k [cs [_ Hk]%lookup_delete_Some]. by apply (ok_connections _ Hs).
  - intros k r [Hk Hr]%map_lookup_filter_Some. simpl in Hr.
    destruct (ok_calls _ Hs _ _ Hk) as (? & ? & ? & cs & Hc & Hl).
    split_and!; [lia|lia|done|lia|lia|]. exists cs. split; [|done]. rewrite lookup_delete_ne; [done|]. intros ->.
    unfold involves, caller_dies in Hr. rewrite Z.eqb_refl, orb_true_r in Hr.
    destruct Hr as [|Hr]; [done|]. by rewrite andb_false_r in Hr.
  - intros c' n k [Hk Hc]%map_lookup_filter_Some. simpl in Hc.
    destruct (ok_deaths _ Hs _ _ _ Hk) as [? ?]. by rewrite lookup_delete_ne.
  - intros n. case_bool_decide as Ho; [done|]. intros Hn.
    destruct (ok_manager _ Hs _ Hn) as (cs & Hc & ? & ?). exists cs. split; [|done].
    rewrite lookup_delete_ne; [done|]. intros ->. by rewrite Hn in Ho.
Qed.

Lemma effect_ok s s' es : authority_ok s -> effect s s' es -> authority_ok s'.
Proof.
  intros Hs He. pose proof (ok_next_connection _ Hs) as Hnc. pose proof (ok_next_call _ Hs).
  destruct He as [p|c cs l Hc|u Hu Ho Hm|n cs Hm Hc Hl Hu|r ss ts Ht Hss Hts Hl| |call r cs ? ? ? Hr| |c to cs ts ck Hc Hts Hd|c to|];
    try done.
  - apply grow_ok; [done|lia| |].
    + intros c cs Hc. exists cs. rewrite lookup_insert_ne; [set_solver|].
      pose proof (ok_connections _ Hs c ltac:(by eexists)). lia.
    + intros c. rewrite lookup_insert. case_decide; [lia|]. intros Hc.
      pose proof (ok_connections _ Hs c Hc). lia.
  - replace (set_connections s _) with
      (set_next_connection (set_connections s (<[c := {| peer := peer cs; nodes := {[ l ]} ∪ nodes cs |}]> (connections s))) (next_connection s)) by by destruct s.
    apply grow_ok; [done|lia| |].
    + intros c' cs' Hc'. destruct (decide (c = c')) as [<-|]; [|exists cs'; rewrite lookup_insert_ne by done; set_solver].
      rewrite lookup_insert_eq. simplify_eq. eexists. split; [done|]. set_solver.
    + intros c'. rewrite lookup_insert. case_decide as E; [intros _; subst|]; apply (ok_connections _ Hs); by eexists.
  - split; simpl; try apply Hs; [congruence|]. by intros ? [= <-].
  - split; simpl; try apply Hs. intros ? [= <-]. by exists cs.
  - split; simpl; try apply Hs; [lia|]. intros k r'. rewrite lookup_insert. case_decide as E.
    + intros [= <-]. pose proof (ok_connections _ Hs (sender r) ltac:(by eexists)).
      split_and!; [lia|lia|done|lia|lia|]. by exists ts.
    + intros Hk. destruct (ok_calls _ Hs _ _ Hk) as (? & ?). split; [lia|done].
  - apply shrink_calls_ok; [done|]. apply delete_subseteq.
  - apply shrink_calls_ok; [done|]. apply delete_subseteq.
  - split; simpl; try apply Hs. intros c' n k. rewrite lookup_insert. case_decide as E.
    + intros _. simplify_eq. split; [by eexists|]. apply (ok_connections _ Hs). by eexists.
    + apply (ok_deaths _ Hs).
  - split; simpl; try apply Hs. intros c' n k [_ Hk]%lookup_delete_Some. by apply (ok_deaths _ Hs) in Hk.
  - by apply after_close_ok.
Qed.

(** ** History of a call *)

Definition accepted (c : CallToken) (e : Event) : option CallRoute :=
  match e with Accepted k r => if k =? c then Some r else None | _ => None end.

(** The messages that end a call for its caller. *)
Definition terminal (c : CallToken) (e : Event) : option Outbound :=
  match e with
  | Sent o =>
      match message o with
      | DeliverReply k _ _ _ _ _ _ _ | TargetDead k _ => if k =? c then Some o else None
      | _ => None
      end
  | _ => None
  end.

(** A terminal message goes to the caller's connection and names its thread. *)
Definition answers (r : CallRoute) (o : Outbound) : Prop :=
  destination o = sender r /\
  match message o with
  | DeliverReply _ _ _ _ thread _ _ _ | TargetDead _ thread => thread = caller_thread r
  | _ => False
  end.

Inductive call_history (s : State) (c : CallToken) : list CallRoute -> list Outbound -> Prop :=
| call_unused : calls s !! c = None -> ~ 0 < c <= next_call s -> call_history s c [] []
| call_pending r : calls s !! c = Some r -> call_history s c [r] []
| call_answered r o :
    calls s !! c = None -> 0 < c <= next_call s -> answers r o -> call_history s c [r] [o]
| call_orphaned r :
    calls s !! c = None -> 0 < c <= next_call s ->
    connections s !! sender r = None -> sender r <= next_connection s -> call_history s c [r] [].

Lemma omap_none {A B} (f : A -> option B) (l : list A) :
  (forall x, x ∈ l -> f x = None) -> omap f l = [].
Proof.
  induction l as [|x l IH]; [done|]. intros Hf. simpl. rewrite (Hf x) by left. apply IH.
  intros y Hy. apply Hf. by right.
Qed.

Lemma omap_omap {A B C} (g : B -> option C) (f : A -> option B) (l : list A) :
  omap g (omap f l) = omap (fun x => f x ≫= g) l.
Proof.
  induction l as [|x l IH]; [done|]. simpl. destruct (f x) as [y|]; simpl; [|apply IH].
  destruct (g y); [f_equal|]; apply IH.
Qed.

Lemma omap_fmap {A B C} (g : B -> option C) (f : A -> B) (l : list A) :
  omap g (f <$> l) = omap (fun x => g (f x)) l.
Proof.
  induction l as [|x l IH]; [done|]. simpl. destruct (g (f x)); [f_equal|]; apply IH.
Qed.

(** A function of the entries of a map that is defined on one key only. *)
Lemma omap_key {V B} (m : gmap Z V) (f : Z * V -> option B) k :
  (forall i x, i <> k -> f (i, x) = None) ->
  omap f (map_to_list m) ≡ₚ option_list (m !! k ≫= fun x => f (k, x)).
Proof.
  intros Hf. destruct (m !! k) as [x|] eqn:E.
  - rewrite <- (insert_delete_id m k x E) at 1.
    rewrite map_to_list_insert by apply lookup_delete_eq. simpl.
    rewrite (omap_none f (map_to_list (delete k m))).
    + destruct (f (k, x)); done.
    + intros [i y] [Hi _]%elem_of_map_to_list%lookup_delete_Some. by apply Hf.
  - simpl. rewrite omap_none; [done|]. intros [i y] Hi%elem_of_map_to_list. apply Hf. intros ->. congruence.
Qed.

Lemma perm_option {A} (l : list A) o : l ≡ₚ option_list o -> l = option_list o.
Proof. destruct o; [apply Permutation_singleton_r|apply Permutation_nil_r]. Qed.

Lemma close_terminals s c k notes :
  notes ≡ₚ close_notices s c ->
  omap (terminal k) (Sent <$> notes) =
    option_list (r ← calls s !! k;
                 if target_dies s c r
                 then Some {| destination := sender r; message := TargetDead k (caller_thread r) |}
                 else None).
Proof.
  intros Hp. apply perm_option. rewrite omap_fmap, Hp. unfold close_notices.
  rewrite omap_app, !omap_omap, (omap_none _ (map_to_list (deaths s))), app_nil_r.
  - rewrite (omap_key _ _ k).
    + destruct (calls s !! k) as [r|]; [|done]. simpl. unfold call_notice. simpl.
      destruct (target_dies s c r); simpl; [by rewrite Z.eqb_refl|]. by destruct (caller_dies s c r).
    + intros i r Hi. unfold call_notice. simpl.
      destruct (target_dies s c r); simpl; [by rewrite (proj2 (Z.eqb_neq _ _))|].
      by destruct (caller_dies s c r).
  - intros [key ck] _. unfold death_notice. by destruct (node_dies s c _).
Qed.

Lemma close_accepted k notes : omap (accepted k) (Sent <$> notes) = [].
Proof. rewrite omap_fmap. by apply omap_none. Qed.

Lemma target_involves s c r : target_dies s c r = true -> involves c r = true.
Proof. unfold target_dies, involves. destruct (owner _ =? c), (sender r =? c); done. Qed.

Lemma involved_orphan s c r :
  involves c r = true -> target_dies s c r = false -> caller_dies s c r = false ->
  is_Some (connections s !! owner (target r)) ->
  delete c (connections s) !! sender r = None.
Proof.
  unfold involves, target_dies, caller_dies, connected. rewrite lookup_delete_None.
  destruct (Z.eqb_spec (sender r) c), (Z.eqb_spec (owner (target r)) c); simpl; try done; try (by left).
  intros _ Hs%bool_decide_eq_false _ _. right. by apply eq_None_not_Some.
Qed.

(** A history that the new state does not advance. *)
Ltac by_history :=
  destruct 1; [apply call_unused|apply call_pending|apply call_answered|apply call_orphaned];
  simpl; try done; try lia.

Lemma call_history_effect s s' es k A T :
  authority_ok s -> effect s s' es -> call_history s k A T ->
  call_history s' k (A ++ omap (accepted k) es) (T ++ omap (terminal k) es).
Proof.
  intros Hs He. pose proof (ok_next_connection _ Hs). pose proof (ok_next_call _ Hs).
  destruct He as [p|c cs l Hc| | |r ss ts Ht Hss Hts Hl| |call r cs ? ? ? Hr Ho Hsd|call r Hr Hsd| | |c cs notes Hc Hp];
    try (rewrite close_accepted, (close_terminals _ _ _ _ Hp)); simpl; rewrite ?app_nil_r.
  - by_history. by rewrite lookup_insert_ne by lia.
  - by_history. rewrite lookup_insert_ne; [done|]. congruence.
  - by_history.
  - by_history.
  - destruct (Z.eqb_spec (next_call s + 1) k) as [<-|Hne]; simpl.
    + destruct 1 as [|r' Hr'|r' o|r']; try lia.
      * apply call_pending. simpl. by rewrite lookup_insert_eq.
      * pose proof (ok_calls _ Hs _ _ Hr'). lia.
    + rewrite ?app_nil_r. by_history; rewrite lookup_insert_ne by done; done.
  - by_history.
  - rewrite ?app_nil_r. destruct (Z.eqb_spec call k) as [->|Hne]; simpl.
    + destruct 1 as [|r' Hr'|r' o|r']; try congruence. simplify_eq.
      apply call_answered; simpl; [apply lookup_delete_eq|by apply (ok_calls _ Hs _ _ Hr)|done].
    + rewrite ?app_nil_r. by_history; by rewrite lookup_delete_ne.
  - destruct (decide (call = k)) as [->|Hne].
    + destruct 1 as [|r' Hr'|r' o|r']; try congruence. simplify_eq.
      destruct (ok_calls _ Hs _ _ Hr) as (? & _ & ? & _).
      apply call_orphaned; simpl; [apply lookup_delete_eq|done|done|lia].
    + by_history; by rewrite lookup_delete_ne.
  - by_history.
  - by_history.
  - destruct 1 as [Hn Hf|r Hr|r o Hn Hf Ha|r Hn Hf Hd Hle].
    + rewrite Hn. simpl. apply call_unused; simpl; [|done]. apply map_lookup_filter_None. by left.
    + rewrite Hr. simpl. destruct (ok_calls _ Hs _ _ Hr) as (? & _ & ? & ts & Hts & _).
      destruct (target_dies s c r) eqn:Et; [|destruct (involves c r) eqn:Ei; [destruct (caller_dies s c r) eqn:Ed|]].
      * apply call_answered; simpl; [|done|done]. apply map_lookup_filter_None. right. simpl.
        intros r1 Hr1. simplify_eq. rewrite (target_not_caller _ _ _ Et), (target_involves _ _ _ Et).
        naive_solver.
      * apply call_pending. simpl. apply map_lookup_filter_Some. naive_solver.
      * apply call_orphaned; simpl; [|done| |lia].
        -- apply map_lookup_filter_None. right. simpl. intros r' Hr'. simplify_eq. rewrite Ei, Ed. naive_solver.
        -- by eapply involved_orphan.
      * apply call_pending. simpl. apply map_lookup_filter_Some. naive_solver.
    + rewrite Hn. simpl. apply call_answered; simpl; [|done|done]. apply map_lookup_filter_None. by left.
    + rewrite Hn. simpl. apply call_orphaned; simpl; [|done| |done].
      * apply map_lookup_filter_None. by left.
      * apply lookup_delete_None. by right.
Qed.

(** ** Identities *)

Definition opened (c : ConnectionToken) (e : Event) : option PeerIdentity :=
  match e with Opened k p => if k =? c then Some p else None | _ => None end.

Inductive connection_history (s : State) (c : ConnectionToken) : list PeerIdentity -> Prop :=
| connection_unused : ~ 0 < c <= next_connection s -> connection_history s c []
| connection_open cs : connections s !! c = Some cs -> connection_history s c [peer cs]
| connection_closed p :
    connections s !! c = None -> 0 < c <= next_connection s -> connection_history s c [p].

(** The sender a message names is a connection that was opened once, and the credentials in the
    message are those it was opened with; a one-way transaction hides the process id. *)
Definition authentic (evs : list Event) (o : Outbound) : Prop :=
  match message o with
  | DeliverTransaction _ c spid euid _ _ _ _ flags =>
      exists p, omap (opened c) evs = [p] /\ euid = android_uid p /\
        spid = if Z.land flags 1 =? 0 then as_i32 (pid p) else 0
  | DeliverReply _ c spid euid _ _ _ _ =>
      exists p, omap (opened c) evs = [p] /\ euid = android_uid p /\ spid = as_i32 (pid p)
  | _ => True
  end.

Lemma close_opened k notes : omap (opened k) (Sent <$> notes) = [].
Proof. rewrite omap_fmap. by apply omap_none. Qed.

Lemma connection_history_effect s s' es k L :
  authority_ok s -> effect s s' es -> connection_history s k L ->
  connection_history s' k (L ++ omap (opened k) es).
Proof.
  intros Hs He. pose proof (ok_next_connection _ Hs).
  destruct He as [p|c cs l Hc| | | | | | | | |c cs notes Hc Hp]; rewrite ?close_opened; simpl;
    rewrite ?app_nil_r; try by destruct 1; econstructor.
  - destruct (Z.eqb_spec (next_connection s + 1) k) as [<-|Hne]; simpl.
    + destruct 1 as [|cs Hcs|]; [|pose proof (ok_connections _ Hs _ (ex_intro _ _ Hcs)); lia|lia].
      apply (connection_open _ _ {| peer := p; nodes := ∅ |}). simpl. by rewrite lookup_insert_eq.
    + rewrite ?app_nil_r. destruct 1 as [|cs Hcs|]; [apply connection_unused|apply connection_open|
        apply connection_closed]; simpl; rewrite ?lookup_insert_ne by done; try done; lia.
  - destruct (decide (c = k)) as [->|Hne].
    + destruct 1 as [Hf|cs' Hcs'|]; [|simplify_eq|congruence].
      * pose proof (ok_connections _ Hs _ (ex_intro _ _ Hc)). lia.
      * apply (connection_open _ _ {| peer := peer cs; nodes := {[ l ]} ∪ nodes cs |}). simpl.
        by rewrite lookup_insert_eq.
    + destruct 1; [apply connection_unused|apply connection_open|apply connection_closed]; simpl;
        by rewrite ?lookup_insert_ne.
  - destruct 1 as [|cs' Hcs'|]; [by apply connection_unused| |].
    + destruct (decide (c = k)) as [->|Hne].
      * apply connection_closed; simpl; [apply lookup_delete_eq|].
        apply (ok_connections _ Hs). by eexists.
      * apply connection_open. simpl. by rewrite lookup_delete_ne.
    + apply connection_closed; simpl; [|done]. apply lookup_delete_None. by right.
Qed.

(** What holds of the events of a run and the state it ends in. *)
Record run_ok (s : State) (evs : list Event) : Prop := {
  run_state : authority_ok s;
  run_calls c : call_history s c (omap (accepted c) evs) (omap (terminal c) evs);
  run_connections c : connection_history s c (omap (opened c) evs);
  run_authentic o : Sent o ∈ evs -> authentic evs o }.

Lemma opened_once s evs es c p :
  connection_history s c (omap (opened c) (evs ++ es)) -> omap (opened c) evs = [p] ->
  omap (opened c) (evs ++ es) = [p].
Proof.
  rewrite omap_app. intros Hh E. rewrite E in *. simpl in *.
  destruct (omap (opened c) es); [done|]. inversion Hh.
Qed.

Lemma opened_connection s evs c cs :
  connection_history s c (omap (opened c) evs) -> authority_ok s -> connections s !! c = Some cs ->
  omap (opened c) evs = [peer cs].
Proof.
  intros Hh Hs Hc. inversion Hh as [Hf|cs' Hc'|]; simplify_eq; [|done].
  pose proof (ok_connections _ Hs _ (ex_intro _ _ Hc)). lia.
Qed.

Lemma effect_sent s s' es o evs :
  authority_ok s -> (forall c, connection_history s c (omap (opened c) evs)) -> effect s s' es -> Sent o ∈ es -> authentic evs o.
Proof.
  intros Hs Hh He Ho.
  destruct He as [p| | | | |call c cs dest l thread transfer code flags Hc|call r cs tr code flags Hr Hc Hsd| | | |c cs notes Hc Hp];
    try (by apply not_elem_of_nil in Ho); try (apply list_elem_of_singleton in Ho; simplify_eq).
  - exists (peer cs). split; [by eapply opened_connection|done].
  - exists (peer cs). split; [by eapply opened_connection|done].
  - apply list_elem_of_fmap in Ho as (o' & [= <-] & Ho). rewrite Hp in Ho. unfold close_notices in Ho.
    apply elem_of_app in Ho as [Ho|Ho]; apply list_elem_of_omap in Ho as (x & _ & Hx).
    + unfold call_notice in Hx. destruct (target_dies _ _ _); simplify_eq; [done|].
      by destruct (caller_dies _ _ _); simplify_eq.
    + unfold death_notice in Hx. by destruct (node_dies _ _ _); simplify_eq.
Qed.

Lemma authentic_app s evs es o :
  (forall c, connection_history s c (omap (opened c) (evs ++ es))) -> authentic evs o -> authentic (evs ++ es) o.
Proof.
  intros Hh. unfold authentic. destruct (message o); try done;
    intros (p & E & ?); exists p; split; try done; by eapply opened_once.
Qed.

Lemma effect_run_ok s s' evs es : run_ok s evs -> effect s s' es -> run_ok s' (evs ++ es).
Proof.
  intros [Hs Hc Hn Ha] He.
  assert (forall c, connection_history s' c (omap (opened c) (evs ++ es))) as Hn'.
  { intros c. rewrite omap_app. by eapply connection_history_effect. }
  split; [by eapply effect_ok| |done|].
  - intros c. rewrite !omap_app. by eapply call_history_effect.
  - intros o [Ho|Ho]%elem_of_app; eapply authentic_app; try done; [by apply Ha|].
    by eapply effect_sent.
Qed.

Lemma effects_run_ok s s' evs es : run_ok s evs -> effects s s' es -> run_ok s' (evs ++ es).
Proof.
  intros Hr He. induction He as [|s s1 s2 e es He Hes IH] in evs, Hr |- *; [by rewrite app_nil_r|].
  rewrite app_assoc. apply IH. by eapply effect_run_ok.
Qed.

Lemma default_run_ok : run_ok default_state [].
Proof.
  split; [apply default_ok| | |].
  - intros c. apply call_unused; [done|]. simpl. lia.
  - intros c. apply connection_unused. simpl. lia.
  - by intros o []%not_elem_of_nil.
Qed.

(** ** Properties *)

Definition new_authority (identity : positive) : RoutingAuthority :=
  {| identity := identity; state := default_state |}.

Section properties.
Context {IC : Iteration Z CallRoute} {ID : Iteration (Z * NodeToken) Z}.

Lemma run_run_ok id reqs :
  exists a evs, run (new_authority id) reqs = Some (a, evs) /\ run_ok (state a) evs.
Proof.
  destruct (run_effects (new_authority id) reqs) as (a & evs & E & He). exists a, evs. split; [done|].
  by apply (effects_run_ok default_state _ [] evs default_run_ok).
Qed.

(** C5: Whatever is asked of the authority, in whatever order and with whatever allocation
    failures, each synchronous call is accepted at most once under its token and is then in
    exactly one of three conditions: still pending with its route; answered by exactly one reply
    or death notice, which went to the connection and thread that made the call; or unanswered
    because the connection that made it is gone. *)
Theorem authority_answers_once id reqs :
  exists a evs, run (new_authority id) reqs = Some (a, evs) /\
    forall call, call_history (state a) call (omap (accepted call) evs) (omap (terminal call) evs).
Proof.
  destruct (run_run_ok id reqs) as (a & evs & E & Hr). exists a, evs. split; [done|]. apply Hr.
Qed.

(** C19: Every message the authority sends on behalf of a process carries the credentials with
    which that process's connection was opened, and no connection token is ever opened twice. *)
Theorem authority_authentic id reqs :
  exists a evs, run (new_authority id) reqs = Some (a, evs) /\
    (forall o, Sent o ∈ evs -> authentic evs o) /\
    forall c, connection_history (state a) c (omap (opened c) evs).
Proof.
  destruct (run_run_ok id reqs) as (a & evs & E & Hr). exists a, evs. split_and!; [done|apply Hr..].
Qed.

Lemma effects_uid s s' es u :
  effects s s' es -> context_manager_uid s = Some u -> context_manager_uid s' = Some u.
Proof.
  induction 1 as [|s s1 s2 e es He Hes IH]; [done|]. intros Hu. apply IH.
  destruct He as [| |u' ? Ho| | | | | | | |]; try done. simpl. rewrite Hu in Ho. simpl in Ho. by subst.
Qed.

(** In every state the authority reaches, tokens are within the serials issued, a pending
    call targets a node that its live owner published and names a thread, a death registration
    belongs to a live subscriber, and the context manager is a published node of a live
    connection whose user is root or system and is the recorded one.  Once recorded, the user
    that may own the context manager never changes. *)
Theorem authority_invariant id reqs reqs' :
  exists a evs a' evs', run (new_authority id) reqs = Some (a, evs) /\
    run a reqs' = Some (a', evs') /\ authority_ok (state a) /\
    forall u, context_manager_uid (state a) = Some u -> context_manager_uid (state a') = Some u.
Proof.
  destruct (run_run_ok id reqs) as (a & evs & E & Hr).
  destruct (run_effects a reqs') as (a' & evs' & E' & He). exists a, evs, a', evs'.
  split_and!; [done|done|apply Hr|]. intros u. by apply (effects_uid _ _ _ _ He).
Qed.

(** Closing a live connection tells the survivors exactly what they have lost, whatever the
    order of the hash tables: each other caller waiting for the closing process learns that its
    target died, each other process serving a call of it learns that the caller died, and each
    other subscriber to one of its nodes gets its cookie.  The calls it was to answer are gone,
    those it made stay for one late reply, and its registrations, connection and context manager
    are removed.  A refused close changes nothing. *)
Theorem authority_close_exact (rsv : Reserve) a session :
  match find_connection a session with
  | Ok _ =>
      if rsv [0%nat] && rsv [1%nat] then
        exists notes, notes ≡ₚ close_notices (state a) (connection session) /\
          close rsv a session =
            Some (set_state a (after_close (state a) (connection session)), Ok notes)
      else close rsv a session = Some (a, Err OutOfMemory)
  | Err e => close rsv a session = Some (a, Err e)
  end.
Proof.
  destruct (find_connection a session) as [cs|e] eqn:Ef.
  - destruct (rsv [0%nat]) eqn:E0; [destruct (rsv [1%nat]) eqn:E1|]; simpl.
    + by eapply close_Ok.
    + unfold close. by rewrite Ef, E0, E1.
    + unfold close. by rewrite Ef, E0.
  - unfold close. by rewrite Ef.
Qed.
End properties.

(** A process publishes a node, another calls it, and the first closes. *)
Definition sample_requests : list (Reserve * Request) :=
  let p := {| pid := 10; android_uid := 1000; incarnation := (0, 0) |} in
  let s1 := {| authority := 1; connection := 1 |} in
  let s2 := {| authority := 1; connection := 2 |} in
  let n := {| owner := 1; local := 5 |} in
  (fun r => (fun _ => true, r)) <$>
    [ROpen p; ROpen p; RPublish s1 5; RRoute s2 n 77 3 0 0; RClose s1].

Lemma authority_answers_once_witness :
  exists a evs, run (new_authority 1) sample_requests = Some (a, evs) /\
    omap (terminal 1) evs = [{| destination := 2; message := TargetDead 1 77 |}] /\
    call_history (state a) 1 (omap (accepted 1) evs) (omap (terminal 1) evs).
Proof.
  destruct (authority_answers_once 1 sample_requests) as (a & evs & E & H). exists a, evs.
  split; [done|]. split; [|apply H]. vm_compute in E. by simplify_eq.
Defined.
