(* ===== verification/DescriptorManifest.v ===== *)
(** * The descriptor manifest ([descriptor_manifest.rs])

    One bounded, eight-byte aligned record per file descriptor of a transfer image: the offset of
    its object, its ordinal and up to 256 bytes of attributes the transport does not interpret. *)
From S2P Require Import Prelude TransactionLayout.

Definition MAX_ATTRIBUTES_BYTES : Z := 256.
Definition ENTRY_HEADER_BYTES : Z := 24.

Inductive Error : Type := TooLarge | Truncated | Reserved | Overflow.

(** [DescriptorAttributes]: a boxed slice, bounded by its constructor. *)
Abbreviation DescriptorAttributes := bytes (only parsing).

Definition attributes_new (bs : bytes) : result DescriptorAttributes Error :=
  if MAX_ATTRIBUTES_BYTES <? len bs then Err TooLarge else Ok bs.

(** The descriptor is the number of an open file. *)
Record DescriptorBundle : Type :=
  { boffset : Z; bordinal : Z; descriptor : Z; attributes : DescriptorAttributes }.

Definition encoded_len (attributes_len : Z) : result Z Error :=
  if MAX_ATTRIBUTES_BYTES <? attributes_len then Err TooLarge
  else
    let? unaligned := ok_or (checked_add usize_max ENTRY_HEADER_BYTES attributes_len) Overflow in
    ok_or (align8 unaligned) Overflow.

Definition encode (destination : bytes) (offset ordinal : Z) (attributes : DescriptorAttributes)
    : bytes * result Z Error :=
  match encoded_len (len attributes) with
  | Err e => (destination, Err e)
  | Ok n =>
      if len destination <? n then (destination, Err Truncated)
      else
        let d := copy_at 0 (zeroed (Z.to_nat n)) destination in
        let d := copy_at 0 (u64_le offset) d in
        let d := copy_at 8 (u64_le ordinal) d in
        let d := copy_at 16 (u32_le (len attributes)) d in
        let d := copy_at 24 attributes d in
        (d, Ok n)
  end.

Record Decoded : Type :=
  { doffset : Z; dordinal : Z; dattributes : bytes; dlen : Z }.

(** [bytes.iter().any(|byte| *byte != 0)], negated. *)
Definition all_zero (l : bytes) : bool := forallb (fun b => bool_decide (b = Byte.x00)) l.

Definition decode (source : bytes) : result Decoded Error :=
  if len source <? ENTRY_HEADER_BYTES then Err Truncated
  else
    let offset := u64_at source 0 in
    let ordinal := u64_at source 8 in
    if negb (all_zero (slice source 20 24)) then Err Reserved
    else
      let attributes_len := u32_at source 16 in
      let? n := encoded_len attributes_len in
      if (len source <? n) ||
         negb (all_zero (slice source (Z.to_nat (ENTRY_HEADER_BYTES + attributes_len)) (Z.to_nat n)))
      then Err Truncated
      else
        Ok {| doffset := offset; dordinal := ordinal;
              dattributes :=
                slice source 24 (Z.to_nat (ENTRY_HEADER_BYTES + attributes_len));
              dlen := n |}.

(** ** Specification *)

(** The record of an entry: its header, the attributes and zeroes up to a multiple of eight. *)
Definition entry_len (attributes : bytes) : Z := round_up8 (24 + len attributes).
Definition entry (offset ordinal : Z) (attributes : bytes) : bytes :=
  u64_le offset ++ u64_le ordinal ++ u32_le (len attributes) ++ zeroed 4 ++ attributes ++
  zeroed (Z.to_nat (entry_len attributes - (24 + len attributes))).

(** ** Lemmas *)

Lemma encoded_len_spec n :
  0 <= n ->
  encoded_len n = if 256 <? n then Err TooLarge else Ok (round_up8 (24 + n)).
Proof.
  intros Hn. unfold encoded_len, MAX_ATTRIBUTES_BYTES, ENTRY_HEADER_BYTES.
  destruct (Z.ltb_spec 256 n); [done|].
  rewrite (proj2 (checked_add_Some usize_max 24 n (24 + n))); [|unfold usize_max, u64_max; lia]. simpl.
  pose proof (round_up8_bounds (24 + n)). rewrite align8_round_up by lia.
  rewrite (proj2 (Z.leb_le _ _)); [done|]. unfold usize_max, u64_max. lia.
Qed.

Lemma length_entry off ord attrs : len (entry off ord attrs) = entry_len attrs.
Proof.
  unfold entry, entry_len. rewrite !len_app. unfold len, zeroed.
  rewrite !length_u64_le, length_u32_le, !length_replicate.
  pose proof (round_up8_bounds (24 + Z.of_nat (length attrs))). lia.
Qed.

Lemma all_zero_spec l : all_zero l = true <-> l = zeroed (length l).
Proof.
  unfold zeroed. induction l as [|b l IH]; [done|]. simpl. rewrite andb_true_iff, bool_decide_eq_true, IH.
  split; [by intros [-> <-]|]. intros [= -> ?]. done.
Qed.

Lemma zeroed_app m n : zeroed (m + n) = zeroed m ++ zeroed n.
Proof. apply replicate_add. Qed.

Lemma length_zeroed n : length (zeroed n) = n.
Proof. apply length_replicate. Qed.

Lemma drop_zeroed m n : drop m (zeroed n) = zeroed (n - m).
Proof. apply drop_replicate. Qed.

Lemma encode_entry destination offset ordinal attrs :
  len attrs <= 256 -> entry_len attrs <= len destination ->
  encode destination offset ordinal attrs =
    (entry offset ordinal attrs ++ drop (Z.to_nat (entry_len attrs)) destination, Ok (entry_len attrs)).
Proof.
  intros Ha Hd. unfold encode. rewrite encoded_len_spec by apply len_nonneg.
  rewrite (proj2 (Z.ltb_ge _ _)) by done. fold (entry_len attrs).
  rewrite (proj2 (Z.ltb_ge _ _)) by done.
  assert (24 + len attrs <= entry_len attrs) as Hl by apply round_up8_bounds.
  set (n := Z.to_nat (entry_len attrs)). set (k := length attrs).
  assert (24 + k <= n /\ n <= length destination)%nat as [Hk Hn] by (unfold len in *; lia).
  f_equal. rewrite (copy_at_def 0 (zeroed n)). simpl. rewrite length_zeroed.
  replace n with (20 + 4 + (k + (n - (24 + k))))%nat at 1 by lia. rewrite !zeroed_app, <- !app_assoc.
  rewrite <- (app_nil_l (zeroed 20 ++ _)).
  rewrite copy_at_next; [|done|rewrite length_app, length_zeroed, length_u64_le; lia].
  rewrite copy_at_next; [|wire_length|rewrite length_drop, length_app, length_zeroed, !length_u64_le; lia].
  rewrite copy_at_next; [|wire_length|rewrite !length_drop, length_app, length_zeroed, !length_u64_le, length_u32_le; lia].
  rewrite !drop_drop, !length_u64_le, length_u32_le. simpl (_ + _)%nat.
  rewrite (drop_app_length' (zeroed 20)) by done.
  rewrite (app_assoc _ (zeroed 4)). rewrite copy_at_next; [| |rewrite length_app, length_zeroed; lia].
  - rewrite drop_app_length' by by rewrite length_zeroed. unfold entry. rewrite <- !app_assoc. simpl.
    repeat f_equal. unfold n, k, len. lia.
  - rewrite !length_app, !length_u64_le, length_u32_le. done.
Qed.

Lemma u32_zero_slice (source : bytes) : all_zero (slice source 20 24) = true ->
  (24 <= length source)%nat -> slice source 20 24 = zeroed 4.
Proof. intros H%all_zero_spec Hl. rewrite H, length_slice; [done|lia]. Qed.

(** A record that decodes is the record of what was decoded. *)
Lemma decode_entry source d :
  decode source = Ok d ->
  u64_range (doffset d) /\ u64_range (dordinal d) /\ len (dattributes d) <= 256 /\
  dlen d = entry_len (dattributes d) /\
  source = entry (doffset d) (dordinal d) (dattributes d) ++ drop (Z.to_nat (dlen d)) source.
Proof.
  unfold decode, ENTRY_HEADER_BYTES. destruct (Z.ltb_spec (len source) 24) as [|Hl]; [done|].
  assert (24 <= length source)%nat as Hl' by (unfold len in Hl; lia).
  destruct (all_zero (slice source 20 24)) eqn:Ez; simpl; [|done].
  apply u32_zero_slice in Ez; [|done]. pose proof (u32_at_range source 16 ltac:(lia)) as Hr.
  unfold u32_range in Hr. rewrite encoded_len_spec by lia.
  destruct (Z.ltb_spec 256 (u32_at source 16)) as [|Ha]; [done|]. simpl.
  set (k := u32_at source 16) in *. pose proof (round_up8_bounds (24 + k)) as [Hb _].
  destruct (Z.ltb_spec (len source) (round_up8 (24 + k))) as [|Hn]; [done|]. simpl.
  destruct (all_zero (slice source (Z.to_nat (24 + k)) _)) eqn:Ep; simpl; [|done]. intros [= <-]. simpl.
  set (n := Z.to_nat (round_up8 (24 + k))) in *.
  assert (n <= length source)%nat as Hn' by (unfold len in Hn; lia).
  assert (len (slice source 24 (Z.to_nat (24 + k))) = k) as Hk.
  { unfold len. rewrite length_slice by (unfold len in Hn; lia). lia. }
  apply all_zero_spec in Ep. rewrite length_slice in Ep by done.
  split_and!; [apply u64_at_range; lia..|lia| |].
  - unfold entry_len. by rewrite Hk.
  - unfold entry, entry_len. rewrite Hk, (u64_le_at source 0), (u64_le_at source 8) by lia.
    replace (u32_le k) with (slice source 16 20) by (symmetry; apply (u32_le_at source 16); lia).
    rewrite <- Ez. replace (zeroed (Z.to_nat _)) with (slice source (Z.to_nat (24 + k)) n)
      by (rewrite Ep; f_equal; lia).
    rewrite !app_assoc. change (0 + 8)%nat with 8%nat. rewrite !slice_glue by lia.
    symmetry. apply slice_prefix.
Qed.

(** The middle of a buffer in three parts. *)
Lemma slice_mid {A} (p mid r : list A) a b :
  length p = a -> length (p ++ mid) = b -> slice (p ++ mid ++ r) a b = mid.
Proof.
  intros <- <-. rewrite length_app. rewrite <- (Nat.add_0_r (length p)) at 1. rewrite slice_app_r.
  by apply slice_here.
Qed.

Lemma entry_decodes off ord attrs rest :
  u64_range off -> u64_range ord -> len attrs <= 256 ->
  decode (entry off ord attrs ++ rest) =
    Ok {| doffset := off; dordinal := ord; dattributes := attrs; dlen := entry_len attrs |}.
Proof.
  intros Ho Hd Ha. pose proof (len_nonneg attrs) as Hp. pose proof (len_nonneg rest).
  assert (24 + len attrs <= entry_len attrs) as Hl by apply round_up8_bounds.
  assert (len (entry off ord attrs ++ rest) = entry_len attrs + len rest) as Hs
    by (rewrite len_app, length_entry; lia).
  assert (u32_range (len attrs)) by (unfold u32_range, u32_max; lia).
  set (pad := zeroed (Z.to_nat (entry_len attrs - (24 + len attrs)))).
  set (h := u64_le off ++ u64_le ord ++ u32_le (len attrs)).
  assert (length h = 20%nat) as Hh by (unfold h; wire_length).
  assert (entry off ord attrs ++ rest = h ++ zeroed 4 ++ attrs ++ pad ++ rest) as E
    by (unfold entry, h; by rewrite <- !app_assoc).
  assert (entry off ord attrs ++ rest =
          u64_le off ++ u64_le ord ++ u32_le (len attrs) ++ zeroed 4 ++ attrs ++ pad ++ rest) as E'
    by (unfold entry; by rewrite <- !app_assoc).
  set (L := entry off ord attrs ++ rest) in *.
  assert (u64_at L 0 = off /\ u64_at L 8 = ord /\ u32_at L 16 = len attrs) as (F1 & F2 & F3)
    by (rewrite E'; by read_fields).
  assert (slice L 20 24 = zeroed 4) as F4 by (rewrite E; apply slice_mid; rewrite ?length_app, Hh; done).
  assert (slice L 24 (Z.to_nat (24 + len attrs)) = attrs) as F5.
  { rewrite E, (app_assoc h). apply slice_mid; rewrite !length_app, Hh; simpl; unfold len; lia. }
  assert (slice L (Z.to_nat (24 + len attrs)) (Z.to_nat (entry_len attrs)) = pad) as F6.
  { rewrite E, (app_assoc h), (app_assoc (h ++ _)).
    apply slice_mid; rewrite !length_app, Hh; unfold pad; rewrite ?length_zeroed; unfold len in *; lia. }
  unfold decode, ENTRY_HEADER_BYTES. rewrite (proj2 (Z.ltb_ge _ _)), F1, F2, F3, F4, F5 by lia.
  change (all_zero (zeroed 4)) with true. cbn [negb].
  rewrite encoded_len_spec, (proj2 (Z.ltb_ge 256 _)) by done. fold (entry_len attrs).
  rewrite F6, (proj2 (Z.ltb_ge _ _)) by lia. cbn [orb].
  rewrite (proj2 (all_zero_spec pad)); [done|]. unfold pad. by rewrite length_zeroed.
Qed.

(** The manifest codec is exact.  An entry with at most 256 bytes of attributes is written
    into any buffer that holds it as the packed record, eight-byte aligned and zero padded, and
    the rest of the buffer keeps its contents; otherwise nothing is written.  Reading gives an
    entry back precisely from a buffer that starts with its record, so reserved or padding bytes
    that are not zero, a short buffer and oversized attributes are all refused. *)
Theorem descriptor_manifest_exact destination offset ordinal attrs source d :
  encode destination offset ordinal attrs =
    (if len attrs <=? 256 then
       if entry_len attrs <=? len destination then
         (entry offset ordinal attrs ++ drop (Z.to_nat (entry_len attrs)) destination,
          Ok (entry_len attrs))
       else (destination, Err Truncated)
     else (destination, Err TooLarge)) /\
  (decode source = Ok d <->
   u64_range (doffset d) /\ u64_range (dordinal d) /\ len (dattributes d) <= 256 /\
   dlen d = entry_len (dattributes d) /\
   exists rest, source = entry (doffset d) (dordinal d) (dattributes d) ++ rest).
Proof.
  split; [|split].
  - destruct (Z.leb_spec (len attrs) 256).
    + destruct (Z.leb_spec (entry_len attrs) (len destination)); [by apply encode_entry|].
      unfold encode. rewrite encoded_len_spec by apply len_nonneg.
      rewrite (proj2 (Z.ltb_ge 256 _)) by done. fold (entry_len attrs).
      by rewrite (proj2 (Z.ltb_lt _ _)).
    + unfold encode. rewrite encoded_len_spec by apply len_nonneg. by rewrite (proj2 (Z.ltb_lt 256 _)).
  - intros (? & ? & ? & ? & ?)%decode_entry. split_and!; try done. by eexists.
  - intros (? & ? & ? & E & rest & ->). rewrite entry_decodes by done. rewrite <- E. by destruct d.
Qed.
