(* ===== verification/TransferImage.v ===== *)
(** * Transfer images ([transfer_image.rs])

    A transaction for another process travels as one shared-memory object: a header, the manifest
    of its Binder nodes, a record per file descriptor, and the sections of the transaction.  The
    sender writes the object once and passes on a read-only descriptor; the receiver maps and
    validates it.

    The system calls are not part of the sources: their answers are arguments.  A [Carrier] is what
    the kernel answers about a received descriptor, a [Kernel] what it answers to a sender. *)
From S2P Require Import Prelude AuthorityProtocol Objects TransactionLayout TransactionSnapshot.
From S2P Require Import NodeWork ReferenceTable Session DescriptorManifest.

(** ** Definitions *)

(** [b"DABTX003"]. *)
Definition MAGIC : bytes :=
  [Byte.x44; Byte.x41; Byte.x42; Byte.x54; Byte.x58; Byte.x30; Byte.x30; Byte.x33].
Definition VERSION : Z := 4.
Definition HEADER_BYTES : Z := 56.
Definition MANIFEST_OBJECT_BYTES : Z := 32.
Definition MAX_TRANSFER_BYTES : Z := 64 * 1024 * 1024.

Inductive Error : Type :=
| Io (e : Errno)
| InvalidFormat
| TObjects (e : Objects.Error)
| TRemoteObjects (e : RemoteError)
| UnsupportedDescriptorAttributes
| OutOfMemoryIo.

(** [TransferFd]: a descriptor is its number. *)
Record TransferFd : Type :=
  { toffset : Z; tordinal : Z; tattributes : bytes; tdescriptor : Z }.

(** [TransferImage]; the view is the mapped bytes. *)
Record TransferImage : Type :=
  { idescriptor : Z; iview : bytes; ilayout : TransactionLayout; payload_offset : Z;
    iobjects : list ManifestObject; ifiles : list TransferFd }.

(** [&slice[range]] of a range in bounds. *)
Definition range_of (bs : bytes) (r : Range) : bytes :=
  slice bs (Z.to_nat (start r)) (Z.to_nat (stop r)).

(** [TransferImage::payload], [data], [offsets] and [extra]. *)
Definition payload (i : TransferImage) : bytes :=
  slice (iview i) (Z.to_nat (payload_offset i)) (Z.to_nat (payload_offset i + total (ilayout i))).
Definition idata (i : TransferImage) : bytes := range_of (payload i) (data (ilayout i)).
Definition ioffsets (i : TransferImage) : bytes := range_of (payload i) (offsets (ilayout i)).
Definition iextra (i : TransferImage) : bytes := range_of (payload i) (extra (ilayout i)).

#[export] Instance TransferImage_payload : TransactionPayload TransferImage :=
  { payload_data := idata; payload_offsets := ioffsets; payload_layout := ilayout }.

(** The offsets of the descriptor objects, [expected] in both checks. *)
Definition fd_offsets (objects : list Object) : list Z :=
  offset <$> filter (fun o => kind o = Fd) objects.

(** [validate_files] on the [(offset, ordinal)] pairs of the bundles; index [i] is the
    enumeration. *)
Fixpoint files_match (i : Z) (expected : list Z) (files : list (Z * Z)) : bool :=
  match expected, files with
  | e :: expected, (o, ord) :: files =>
      (e =? o) && (ord =? i) && files_match (i + 1) expected files
  | _, _ => true
  end.

Definition validate_files (objects : list Object) (files : list DescriptorBundle) : result unit Error :=
  let expected := fd_offsets objects in
  ensure ((length expected =? length files)%nat &&
          files_match 0 expected ((fun f => (boffset f, bordinal f)) <$> files)) InvalidFormat.

Definition validate_imported_files (objects : list Object) (files : list TransferFd)
    : result unit Error :=
  let expected := fd_offsets objects in
  ensure ((length expected =? length files)%nat &&
          files_match 0 expected ((fun f => (toffset f, tordinal f)) <$> files)) InvalidFormat.

(** *** Writing *)

(** The header array. *)
Definition image_header (data_len offsets_len extra_len objects_len files_len : Z) : bytes :=
  let h := copy_at 0 MAGIC (zeroed 56) in
  let h := copy_at 8 (u32_le VERSION) h in
  let h := copy_at 12 (u32_le HEADER_BYTES) h in
  let h := copy_at 16 (u64_le data_len) h in
  let h := copy_at 24 (u64_le offsets_len) h in
  let h := copy_at 32 (u64_le extra_len) h in
  let h := copy_at 40 (u64_le objects_len) h in
  copy_at 48 (u64_le files_len) h.

Definition strength_byte (s : Strength) : byte :=
  match s with Strong => Byte.x00 | Weak => Byte.x01 end.

(** One manifest entry, written in place at [cursor]. *)
Definition write_object (cursor : nat) (o : ManifestObject) (bs : bytes) : bytes :=
  let bs := copy_at cursor (u64_le (moffset o)) bs in
  let bs := copy_at (cursor + 8) (u64_le (owner (mnode o))) bs in
  let bs := copy_at (cursor + 16) (u64_le (local (mnode o))) bs in
  let bs := copy_at (cursor + 24) (u32_le (mflags o)) bs in
  copy_at (cursor + 28) [strength_byte (mstrength o)] bs.

Fixpoint write_objects (cursor : nat) (objects : list ManifestObject) (bs : bytes) : nat * bytes :=
  match objects with
  | [] => (cursor, bs)
  | o :: objects => write_objects (cursor + 32) objects (write_object cursor o bs)
  end.

(** The descriptor records, each encoded into [&mut bytes[cursor..]]. *)
Fixpoint write_files (cursor : nat) (files : list DescriptorBundle) (bs : bytes)
    : result (nat * bytes) Error :=
  match files with
  | [] => Ok (cursor, bs)
  | f :: files =>
      match encode (drop cursor bs) (boffset f) (bordinal f) (attributes f) with
      | (_, Err _) => Err InvalidFormat
      | (rest, Ok encoded) =>
          write_files (cursor + Z.to_nat encoded) files (take cursor bs ++ rest)
      end
  end.

(** The sections, in [&mut bytes[cursor..]]. *)
Definition write_payload (cursor : nat) (l : TransactionLayout) (d o e bs : bytes) : bytes :=
  let bs := copy_at (cursor + Z.to_nat (start (data l))) d bs in
  let bs := copy_at (cursor + Z.to_nat (start (offsets l))) o bs in
  copy_at (cursor + Z.to_nat (start (extra l))) e bs.

(** The bytes of the mapped object. *)
Definition write_image (snapshot : TransactionSnapshot) (ext : bytes) (objects : list ManifestObject)
    (files : list DescriptorBundle) (size : Z) : result bytes Error :=
  let header := image_header (len (sdata snapshot)) (len (soffsets snapshot)) (len ext)
                  (len objects) (len files) in
  let bs := copy_at 0 header (zeroed (Z.to_nat size)) in
  let '(cursor, bs) := write_objects 56 objects bs in
  let? (cursor, bs) := write_files cursor files bs in
  Ok (write_payload cursor (slayout snapshot) (sdata snapshot) (soffsets snapshot) ext bs).

(** The [try_fold] over the descriptor records. *)
Fixpoint file_manifest_bytes (acc : Z) (files : list DescriptorBundle) : result Z Error :=
  match files with
  | [] => Ok acc
  | f :: files =>
      let? n := map_err (fun _ => InvalidFormat) (encoded_len (len (attributes f))) in
      let? acc := ok_or (checked_add usize_max acc n) InvalidFormat in
      file_manifest_bytes acc files
  end.

Definition image_size (payload_bytes : Z) (objects : list ManifestObject)
    (files : list DescriptorBundle) : result Z Error :=
  let? manifest_bytes :=
    ok_or (checked_mul usize_max (len objects) MANIFEST_OBJECT_BYTES) InvalidFormat in
  let? file_bytes := file_manifest_bytes 0 files in
  ok_or (t ← checked_add usize_max HEADER_BYTES manifest_bytes;
         t ← checked_add usize_max t file_bytes;
         t ← checked_add usize_max t payload_bytes;
         if t <=? MAX_TRANSFER_BYTES then Some t else None) InvalidFormat.

(** *** The backing object *)

(** The answers of the system calls of one iteration of [immutable_backing]'s loop; [reopen]
    gives the read-only descriptor. *)
Record Attempt : Type :=
  { entropy : result unit Errno; create : result unit Errno; truncate : result unit Errno;
    reopen : result Z Errno; unlink : result unit Errno }.

(** [None] is a loop that finds its random names taken for ever; a finite list of attempts
    that are all taken does not return either. *)
Fixpoint immutable_backing (attempts : list Attempt) : option (result Z Errno) :=
  match attempts with
  | [] => None
  | a :: attempts =>
      match entropy a with
      | Err e => Some (Err e)
      | Ok _ =>
          match create a with
          | Err e => if bool_decide (e = EEXIST) then immutable_backing attempts else Some (Err e)
          | Ok _ =>
              match truncate a with
              | Err e => Some (Err e)
              | Ok _ =>
                  match reopen a with
                  | Err e => Some (Err e)
                  | Ok readonly =>
                      match unlink a with Err e => Some (Err e) | Ok _ => Some (Ok readonly) end
                  end
              end
          end
      end
  end.

(** What the kernel answers about a descriptor: its flags, its [st_size] at the two times it is
    asked, and the mapping of that many bytes ([Ok None] is a mapping at address zero). *)
Record Carrier : Type :=
  { getfl : result Z Errno; stat_size : result Z Errno; stat_again : result Z Errno;
    mapped : Z -> result (option bytes) Errno }.

Definition O_ACCMODE : Z := 3.
Definition O_RDONLY : Z := 0.

(** [descriptor_length]: [usize::try_from(st_size)]. *)
Definition descriptor_length (st_size : result Z Errno) : result Z Errno :=
  let? n := st_size in if n <? 0 then Err EOVERFLOW else Ok n.

Definition validate_carrier (c : Carrier) : result unit Error :=
  let? flags := map_err Io (getfl c) in
  if negb (Z.land flags O_ACCMODE =? O_RDONLY) then Err InvalidFormat
  else
    let? n := map_err Io (descriptor_length (stat_size c)) in
    ensure ((HEADER_BYTES <=? n) && (n <=? MAX_TRANSFER_BYTES)) InvalidFormat.

(** *** Reading *)

(** The descriptor records, from [offset] on; [ordinal] counts up. *)
Fixpoint read_files (bs : bytes) (count : nat) (ordinal position : Z)
    : result (list (Z * Z * bytes) * Z) Error :=
  match count with
  | O => Ok ([], position)
  | S count =>
      let? source := ok_or (get_range bs position (len bs)) InvalidFormat in
      let? d := map_err (fun _ => InvalidFormat) (decode source) in
      if negb (dordinal d =? ordinal) then Err InvalidFormat
      else
        let? attrs := map_err (fun _ => InvalidFormat) (attributes_new (dattributes d)) in
        let? position := ok_or (checked_add usize_max position (dlen d)) InvalidFormat in
        let? (rest, stop) := read_files bs count (ordinal + 1) position in
        Ok ((doffset d, dordinal d, attrs) :: rest, stop)
  end.

(** One manifest entry. *)
Definition read_object (entry : bytes) : result ManifestObject Error :=
  if negb (all_zero (slice entry 29 32)) then Err InvalidFormat
  else
    let? o := ok_or (from_nonzero (u64_at entry 8)) InvalidFormat in
    let? l := ok_or (from_nonzero (u64_at entry 16)) InvalidFormat in
    let? s :=
      match from_le (slice entry 28 29) with
      | 0 => Ok Strong | 1 => Ok Weak | _ => Err InvalidFormat
      end in
    Ok {| moffset := u64_at entry 0; mnode := {| owner := o; local := l |};
          mstrength := s; mflags := u32_at entry 24 |}.

Fixpoint read_objects (bs : bytes) (count : nat) (position : nat) : result (list ManifestObject) Error :=
  match count with
  | O => Ok []
  | S count =>
      let? o := read_object (slice bs position (position + 32)) in
      let? rest := read_objects bs count (position + 32) in
      Ok (o :: rest)
  end.

(** [files.into_iter().enumerate()] paired with the decoded records. *)
Definition import_files (decoded : list (Z * Z * bytes)) (files : list Z) : list TransferFd :=
  zip_with (fun '(o, ord, attrs) fd =>
    {| toffset := o; tordinal := ord; tattributes := attrs; tdescriptor := fd |}) decoded files.

(** The part of [import_with_fds] after the mapping, on at least a header of bytes. *)
Definition parse_image (rsv : Reserve) (descriptor : Z) (bs : bytes) (files : list Z)
    : result TransferImage Error :=
  if negb (bool_decide (slice bs 0 8 = MAGIC)) || negb (u32_at bs 8 =? VERSION) ||
     negb (u32_at bs 12 =? HEADER_BYTES)
  then Err InvalidFormat
  else
    let object_count := u64_at bs 40 in
    let file_count := u64_at bs 48 in
    if negb (file_count =? len files) then Err InvalidFormat
    else
      let? manifest_bytes :=
        ok_or (checked_mul usize_max object_count MANIFEST_OBJECT_BYTES) InvalidFormat in
      let? first := ok_or (checked_add usize_max HEADER_BYTES manifest_bytes) InvalidFormat in
      if len bs <? first then Err InvalidFormat
      else
        let? _ := ensure (rsv [0%nat]) InvalidFormat in
        let? (decoded, position) := read_files bs (length files) 0 first in
        let? layout :=
          ok_or (TransactionLayout.new (u64_at bs 16) (u64_at bs 24) (u64_at bs 32)) InvalidFormat in
        let? logical_length := ok_or (checked_add usize_max position (total layout)) InvalidFormat in
        if (len bs <? logical_length) ||
           negb (all_zero (slice bs (Z.to_nat logical_length) (length bs)))
        then Err InvalidFormat
        else
          let body := slice bs (Z.to_nat position) (Z.to_nat logical_length) in
          let? parsed :=
            map_err TObjects (validate (below 1 rsv) (range_of body (data layout))
                                (range_of body (offsets layout))) in
          let? _ := ensure (rsv [2%nat]) InvalidFormat in
          let? manifest := read_objects bs (Z.to_nat object_count) 56 in
          let? _ := map_err TRemoteObjects (validate_manifest parsed manifest) in
          let? _ := ensure (rsv [3%nat]) InvalidFormat in
          let imported := import_files decoded files in
          let? _ := validate_imported_files parsed imported in
          Ok {| idescriptor := descriptor; iview := bs; ilayout := layout;
                payload_offset := position; iobjects := manifest; ifiles := imported |}.

(** [None] is the panic of the header reads on a mapping shorter than the header. *)
Definition import_with_fds (rsv : Reserve) (c : Carrier) (descriptor : Z) (files : list Z)
    : option (result TransferImage Error) :=
  match validate_carrier c with
  | Err e => Some (Err e)
  | Ok _ =>
      match descriptor_length (stat_again c) with
      | Err e => Some (Err (Io e))
      | Ok n =>
          match mapped c n with
          | Err e => Some (Err (Io e))
          | Ok None => Some (Err InvalidFormat)
          | Ok (Some bs) =>
              if len bs <? HEADER_BYTES then None
              else Some (parse_image rsv descriptor bs files)
          end
      end
  end.

(** *** Capturing *)

(** What the kernel answers to a sender: the attempts to create the object, the writable
    mapping of a size, and what it will answer about the read-only descriptor of the object
    whose first bytes are these. *)
Record Kernel : Type :=
  { attempts : list Attempt; map_writable : Z -> result unit Errno; carrier_of : bytes -> Carrier }.

(** [None]: [immutable_backing] does not return, or the import panics. *)
Definition capture_with_objects_and_descriptors (rsv : Reserve) (k : Kernel)
    (snapshot : TransactionSnapshot) (ext : bytes) (objects : list ManifestObject)
    (files : list DescriptorBundle) : option (result TransferImage Error) :=
  if negb (len ext =? range_len (extra (slayout snapshot))) then Some (Err InvalidFormat)
  else
    match
      (let? parsed := map_err TObjects (TransactionSnapshot.objects (below 0 rsv) snapshot) in
       let? _ := map_err TRemoteObjects (validate_manifest parsed objects) in
       let? _ := validate_files parsed files in
       image_size (total (slayout snapshot)) objects files)
    with
    | Err e => Some (Err e)
    | Ok size =>
        match immutable_backing (attempts k) with
        | None => None
        | Some (Err e) => Some (Err (Io e))
        | Some (Ok readonly) =>
            match map_writable k size with
            | Err e => Some (Err (Io e))
            | Ok _ =>
                match write_image snapshot ext objects files size with
                | Err e => Some (Err e)
                | Ok bs => import_with_fds (below 1 rsv) (carrier_of k bs) readonly (descriptor <$> files)
                end
            end
        end
    end.

(** [capture_with_objects_and_fds]: ordinals from the enumeration, no attributes. *)
Definition plain_bundles (files : list (Z * Z)) : list DescriptorBundle :=
  imap (fun i '(o, fd) =>
    {| boffset := o; bordinal := Z.of_nat i; descriptor := fd; attributes := [] |}) files.
Definition capture_with_objects_and_fds rsv k snapshot ext objects (files : list (Z * Z)) :=
  capture_with_objects_and_descriptors rsv k snapshot ext objects (plain_bundles files).

(** *** Giving the descriptors away *)

Definition into_transport_descriptors (reserved : bool) (i : TransferImage) : result (list Z) Error :=
  let? _ := ensure reserved OutOfMemoryIo in
  Ok (idescriptor i :: (tdescriptor <$> ifiles i)).

Definition bundle_of (f : TransferFd) : DescriptorBundle :=
  {| boffset := toffset f; bordinal := tordinal f; descriptor := tdescriptor f;
     attributes := tattributes f |}.

Definition take_descriptors (i : TransferImage) : TransferImage * list DescriptorBundle :=
  ({| idescriptor := idescriptor i; iview := iview i; ilayout := ilayout i;
      payload_offset := payload_offset i; iobjects := iobjects i; ifiles := [] |},
   bundle_of <$> ifiles i).

Definition take_files (i : TransferImage) : TransferImage * result (list (Z * Z)) Error :=
  if existsb (fun f => negb (bool_decide (tattributes f = []))) (ifiles i)
  then (i, Err UnsupportedDescriptorAttributes)
  else
    let '(i, bundles) := take_descriptors i in
    (i, Ok ((fun b => (boffset b, descriptor b)) <$> bundles)).

(** ** Specification *)

Definition header (data_len offsets_len extra_len objects_len files_len : Z) : bytes :=
  MAGIC ++ u32_le VERSION ++ u32_le HEADER_BYTES ++ u64_le data_len ++ u64_le offsets_len ++
  u64_le extra_len ++ u64_le objects_len ++ u64_le files_len.

Definition manifest_record (o : ManifestObject) : bytes :=
  u64_le (moffset o) ++ u64_le (owner (mnode o)) ++ u64_le (local (mnode o)) ++
  u32_le (mflags o) ++ [strength_byte (mstrength o)] ++ zeroed 3.

Definition manifest (objects : list ManifestObject) : bytes := concat (manifest_record <$> objects).

Definition file_record (f : DescriptorBundle) : bytes := entry (boffset f) (bordinal f) (attributes f).
Definition file_records (files : list DescriptorBundle) : bytes := concat (file_record <$> files).

(** The values of the Rust types. *)
Definition manifest_ok (o : ManifestObject) : Prop :=
  u64_range (moffset o) /\ node_token_ok (mnode o) /\ u32_range (mflags o).
Definition bundle_ok (f : DescriptorBundle) : Prop :=
  u64_range (boffset f) /\ u64_range (bordinal f) /\ len (attributes f) <= MAX_ATTRIBUTES_BYTES.

(** ** Lemmas *)

Lemma image_header_eq d o e n f : image_header d o e n f = header d o e n f.
Proof.
  unfold image_header, header. change (zeroed 56) with ([] ++ zeroed 56).
  rewrite copy_at_next by (done || (vm_compute; lia)). change (length MAGIC) with 8%nat.
  rewrite drop_zeroed. simpl (56 - 8)%nat. rewrite app_nil_l.
  do 2 (rewrite copy_at_next by (wire_length || (rewrite length_u32_le, length_zeroed; lia));
        rewrite length_u32_le, drop_zeroed; cbn [Nat.sub]).
  do 5 (rewrite copy_at_next by (wire_length || (rewrite length_u64_le, length_zeroed; lia));
        rewrite length_u64_le, drop_zeroed; cbn [Nat.sub]).
  by rewrite <- !app_assoc, app_nil_r.
Qed.

Lemma length_header d o e n f : length (header d o e n f) = 56%nat.
Proof. unfold header. wire_length. Qed.

Lemma length_manifest_record o : length (manifest_record o) = 32%nat.
Proof. unfold manifest_record. wire_length. Qed.

Lemma manifest_cons o objects : manifest (o :: objects) = manifest_record o ++ manifest objects.
Proof. done. Qed.

Lemma length_manifest objects : length (manifest objects) = (32 * length objects)%nat.
Proof.
  induction objects as [|o objects IH]; [done|]. rewrite manifest_cons, length_app, length_manifest_record, IH. simpl. lia.
Qed.

Lemma write_object_eq pre o n :
  write_object (length pre) o (pre ++ zeroed (32 + n)) = (pre ++ manifest_record o) ++ zeroed n.
Proof.
  unfold write_object, manifest_record.
  rewrite (copy_at_next pre) by (done || (rewrite length_u64_le, length_zeroed; lia)).
  rewrite length_u64_le, drop_zeroed.
  do 2 (rewrite copy_at_next by ((rewrite !length_app, ?length_u64_le; lia) ||
                                 (rewrite length_u64_le, length_zeroed; lia));
        rewrite length_u64_le, drop_zeroed).
  rewrite copy_at_next by ((rewrite !length_app, ?length_u64_le; lia) ||
                           (rewrite length_u32_le, length_zeroed; lia)).
  rewrite length_u32_le, drop_zeroed.
  rewrite copy_at_next by ((rewrite !length_app, ?length_u64_le, ?length_u32_le; lia) ||
                           (rewrite length_zeroed; simpl; lia)).
  simpl (length [_]). rewrite drop_zeroed.
  replace (32 + n - 8 - 8 - 8 - 4 - 1)%nat with (3 + n)%nat by lia.
  by rewrite zeroed_app, <- !app_assoc.
Qed.

Lemma write_objects_eq objects : forall pre n,
  write_objects (length pre) objects (pre ++ zeroed (32 * length objects + n)) =
    (length (pre ++ manifest objects), (pre ++ manifest objects) ++ zeroed n).
Proof.
  induction objects as [|o objects IH]; intros pre n.
  { simpl. unfold manifest. simpl. by rewrite app_nil_r. }
  cbn [write_objects length].
  replace (32 * S (length objects) + n)%nat with (32 + (32 * length objects + n))%nat by lia.
  rewrite write_object_eq. replace (length pre + 32)%nat with (length (pre ++ manifest_record o))
    by (rewrite length_app, length_manifest_record; lia).
  rewrite IH, manifest_cons. by rewrite <- !app_assoc.
Qed.

Lemma write_files_eq files : forall pre n,
  Forall bundle_ok files ->
  write_files (length pre) files (pre ++ zeroed (length (file_records files) + n)) =
    Ok (length (pre ++ file_records files), (pre ++ file_records files) ++ zeroed n).
Proof.
  induction files as [|f files IH]; intros pre n HF.
  { simpl. unfold file_records. simpl. by rewrite app_nil_r. }
  apply Forall_cons in HF as [(_ & _ & Ha) HF]. cbn [write_files].
  assert (E : file_records (f :: files) = file_record f ++ file_records files) by done.
  assert (El : Z.to_nat (entry_len (attributes f)) = length (file_record f))
    by (unfold file_record; rewrite <- (length_entry (boffset f) (bordinal f)); unfold len; lia).
  rewrite E, drop_app_length, length_app.
  rewrite encode_entry; [|done|].
  - fold (file_record f). rewrite El, take_app_length, drop_zeroed.
    replace (length (file_record f) + length (file_records files) + n - length (file_record f))%nat
      with (length (file_records files) + n)%nat by lia.
    rewrite app_assoc.
    replace (length pre + length (file_record f))%nat with (length (pre ++ file_record f))
      by (by rewrite length_app). rewrite IH by done. by rewrite <- !app_assoc.
  - unfold len. rewrite length_zeroed. unfold len in El. lia.
Qed.

(** *** The sections *)

Lemma copy_at_app_r {A} (pre src out : list A) k :
  copy_at (length pre + k) src (pre ++ out) = pre ++ copy_at k src out.
Proof.
  rewrite !copy_at_def, take_app_add, <- app_assoc. do 2 f_equal.
  rewrite <- Nat.add_assoc. by rewrite drop_app_add.
Qed.

(** Sections written into a zeroed buffer of the layout's size are read back. *)
Lemma write_payload_sections pre l d o e :
  layout_ok (len d) (len o) (len e) l ->
  exists body, write_payload (length pre) l d o e (pre ++ zeroed (Z.to_nat (total l))) = pre ++ body /\
    len body = total l /\ range_of body (data l) = d /\ range_of body (offsets l) = o /\
    range_of body (extra l) = e.
Proof.
  destruct l as [[ds de] [os oe] [es ee] t]. unfold layout_ok, range_len, write_payload, range_of. simpl.
  intros (Hd & Ho & He & H0 & H1 & H2 & H3 & _ & _ & _ & H4).
  rewrite !copy_at_app_r. eexists. split; [done|]. unfold len in *.
  set (b0 := zeroed (Z.to_nat t)). assert (L0 : length b0 = Z.to_nat t) by apply length_zeroed.
  set (b1 := copy_at (Z.to_nat ds) d b0).
  assert (L1 : length b1 = Z.to_nat t) by (unfold b1; rewrite length_copy_at; lia).
  set (b2 := copy_at (Z.to_nat os) o b1).
  assert (L2 : length b2 = Z.to_nat t) by (unfold b2; rewrite length_copy_at; lia).
  split_and!.
  - rewrite length_copy_at by lia. lia.
  - rewrite slice_copy_outside by lia. unfold b2. rewrite slice_copy_outside by lia.
    unfold b1. replace (Z.to_nat de) with (Z.to_nat ds + length d)%nat by lia. apply slice_copy_at. lia.
  - rewrite slice_copy_outside by lia. unfold b2.
    replace (Z.to_nat oe) with (Z.to_nat os + length o)%nat by lia. apply slice_copy_at. lia.
  - replace (Z.to_nat ee) with (Z.to_nat es + length e)%nat by lia. apply slice_copy_at. lia.
Qed.

(** *** Reading records *)

Lemma from_nonzero_token v : token_ok v -> from_nonzero v = Some v.
Proof. unfold token_ok, from_nonzero. intros. case_match eqn:E; [|done]. apply Z.eqb_eq in E. lia. Qed.

Lemma read_object_record o : manifest_ok o -> read_object (manifest_record o) = Ok o.
Proof.
  destruct o as [off [ow lo] st fl]. intros (Ho & (Hw & Hl) & Hf). simpl in *.
  assert (u64_range ow /\ u64_range lo) as [? ?] by (unfold token_ok, u64_range in *; lia).
  unfold read_object, manifest_record. simpl (mnode _). simpl (moffset _). simpl (mflags _).
  simpl (mstrength _). simpl (owner _). simpl (local _).
  set (h := u64_le off ++ u64_le ow ++ u64_le lo ++ u32_le fl).
  assert (Lh : length h = 28%nat) by (unfold h; wire_length).
  set (R := u64_le off ++ _).
  assert (ER : R = h ++ [strength_byte st] ++ zeroed 3) by (unfold R, h; by rewrite <- !app_assoc).
  assert (slice R 29 32 = zeroed 3) as ->.
  { rewrite ER, app_assoc. rewrite <- (app_nil_r (zeroed 3)) at 1. apply slice_mid;
      rewrite !length_app, ?Lh; done. }
  assert (slice R 28 29 = [strength_byte st]) as ->.
  { rewrite ER. apply slice_mid; rewrite ?length_app, ?Lh; done. }
  assert (u64_at R 8 = ow) as -> by (unfold R; by read_fields).
  assert (u64_at R 16 = lo) as -> by (unfold R; by read_fields).
  assert (u64_at R 0 = off) as -> by (unfold R; by read_fields).
  assert (u32_at R 24 = fl) as -> by (unfold R; by read_fields).
  rewrite !from_nonzero_token by done. by destruct st.
Qed.

Lemma read_objects_records objects : forall pre rest,
  Forall manifest_ok objects ->
  read_objects (pre ++ manifest objects ++ rest) (length objects) (length pre) = Ok objects.
Proof.
  induction objects as [|o objects IH]; intros pre rest HF; [done|].
  apply Forall_cons in HF as [Ho HF]. cbn [read_objects length]. rewrite manifest_cons, <- app_assoc.
  rewrite (slice_mid pre (manifest_record o)) by (rewrite ?length_app, ?length_manifest_record; done).
  rewrite read_object_record by done. rewrite app_assoc.
  replace (length pre + 32)%nat with (length (pre ++ manifest_record o))
    by (rewrite length_app, length_manifest_record; done).
  by rewrite IH.
Qed.

(** What the receiver decodes of a record. *)
Definition decoded_of (f : DescriptorBundle) : Z * Z * bytes := (boffset f, bordinal f, attributes f).

Definition numbered (i : Z) (files : list DescriptorBundle) : Prop :=
  forall k f, files !! k = Some f -> bordinal f = i + Z.of_nat k.

Lemma read_files_records files : forall pre rest i,
  Forall bundle_ok files -> numbered i files -> len (pre ++ file_records files ++ rest) <= usize_max ->
  read_files (pre ++ file_records files ++ rest) (length files) i (len pre) =
    Ok (decoded_of <$> files, len (pre ++ file_records files)).
Proof.
  induction files as [|f files IH]; intros pre rest i HF Hn Hl.
  { cbn [read_files length fmap list_fmap]. by rewrite app_nil_r. }
  apply Forall_cons in HF as [(Ho & Hd & Ha) HF]. cbn [read_files length].
  assert (E : file_records (f :: files) = file_record f ++ file_records files) by done.
  rewrite E, <- app_assoc in *.
  assert (get_range (pre ++ file_record f ++ file_records files ++ rest) (len pre)
    (len (pre ++ file_record f ++ file_records files ++ rest)) =
    Some (file_record f ++ file_records files ++ rest)) as ->.
  { apply get_range_Some. rewrite (len_app pre). pose proof (len_nonneg pre).
    pose proof (len_nonneg (file_record f ++ file_records files ++ rest)). split_and!; try lia.
    unfold len. rewrite Nat2Z.id, drop_app_length, take_ge by lia. done. }
  simpl. unfold file_record at 1. rewrite entry_decodes by done. simpl.
  rewrite (Hn 0%nat f eq_refl), Z.add_0_r, Z.eqb_refl. simpl.
  unfold attributes_new. rewrite (proj2 (Z.ltb_ge _ _)) by done. simpl.
  assert (Hlen : entry_len (attributes f) = len (file_record f))
    by (unfold file_record; by rewrite length_entry).
  rewrite Hlen, (proj2 (checked_add_Some _ _ _ (len (pre ++ file_record f)))).
  2:{ rewrite !len_app in *. split; [done|]. pose proof (len_nonneg (file_records files)).
      pose proof (len_nonneg rest). lia. }
  simpl. rewrite app_assoc. rewrite (IH (pre ++ file_record f) rest (i + 1)).
  - simpl. unfold decoded_of at 2. rewrite (Hn 0%nat f eq_refl), Z.add_0_r. by rewrite <- app_assoc.
  - done.
  - intros k f' Hk. rewrite (Hn (S k) f') by done. lia.
  - by rewrite <- app_assoc.
Qed.

(** *** Whole images *)

Lemma files_match_numbered expected files : forall i,
  length expected = length files ->
  files_match i expected ((fun f => (boffset f, bordinal f)) <$> files) = true -> numbered i files.
Proof.
  induction expected as [|e expected IH] in files |- *; intros i Hl Hm.
  { destruct files; [|done]. by intros [|k]. }
  destruct files as [|f files]; [done|]. simpl in Hm. apply andb_true_iff in Hm as [Hm1 Hm].
  apply andb_true_iff in Hm1 as [_ Ho]. apply Z.eqb_eq in Ho.
  intros [|k] f' Hk; [injection Hk as <-; lia|]. simpl in Hk. injection Hl as Hl.
  rewrite (IH files (i + 1) Hl Hm k f' Hk). lia.
Qed.

Lemma import_files_fields (g : TransferFd -> Z * Z) files :
  (forall o ord a fd, g {| toffset := o; tordinal := ord; tattributes := a; tdescriptor := fd |} = (o, ord)) ->
  g <$> import_files (decoded_of <$> files) (descriptor <$> files) =
    (fun f => (boffset f, bordinal f)) <$> files.
Proof.
  intros Hg. unfold import_files. induction files as [|f files IH]; [done|].
  rewrite !fmap_cons. cbn [zip_with]. rewrite fmap_cons, IH. f_equal. apply Hg.
Qed.

Lemma import_files_bundles files :
  bundle_of <$> import_files (decoded_of <$> files) (descriptor <$> files) = files.
Proof.
  unfold import_files. induction files as [|f files IH]; [done|].
  rewrite !fmap_cons. cbn [zip_with]. rewrite fmap_cons, IH. by destruct f.
Qed.

Lemma length_import_files files :
  length (import_files (decoded_of <$> files) (descriptor <$> files)) = length files.
Proof. unfold import_files. rewrite length_zip_with, !length_fmap. lia. Qed.

(** A validated set of bundles validates again at the receiver. *)
Lemma validate_imported objects files :
  validate_files objects files = Ok tt ->
  validate_imported_files objects (import_files (decoded_of <$> files) (descriptor <$> files)) = Ok tt.
Proof.
  unfold validate_files, validate_imported_files. rewrite length_import_files.
  by rewrite (import_files_fields (fun f => (toffset f, tordinal f))).
Qed.

Lemma validate_files_numbered objects files : validate_files objects files = Ok tt -> numbered 0 files.
Proof.
  unfold validate_files. destruct (_ && _) eqn:E; [|done]. intros _.
  apply andb_true_iff in E as [E%Nat.eqb_eq Hm]. by eapply files_match_numbered.
Qed.

Section parse.
Context (d o e : bytes) (objects : list ManifestObject) (files : list DescriptorBundle).
Context (l : TransactionLayout) (parsed : list Object) (body : bytes) (pad : nat) (fd : Z).

Definition head : bytes := header (len d) (len o) (len e) (len objects) (len files).
Definition image : bytes := head ++ manifest objects ++ file_records files ++ body ++ zeroed pad.

Hypothesis Hl : TransactionLayout.new (len d) (len o) (len e) = Some l.
Hypothesis Hbody : len body = total l.
Hypothesis Hdata : range_of body (data l) = d.
Hypothesis Hoffsets : range_of body (offsets l) = o.
Hypothesis Hsize : len image <= MAX_TRANSFER_BYTES.
Hypothesis Hlens : u64_range (len d) /\ u64_range (len o) /\ u64_range (len e).
Hypothesis Hobjects : Forall manifest_ok objects.
Hypothesis Hfiles : Forall bundle_ok files.
Hypothesis Hvalid : validate reserve_ok d o = Ok parsed.
Hypothesis Hmanifest : validate_manifest parsed objects = Ok tt.
Hypothesis Hnumbered : validate_files parsed files = Ok tt.

Lemma length_head : length head = 56%nat.
Proof. apply length_header. Qed.

Lemma image_length :
  len image = 56 + 32 * len objects + len (file_records files) + total l + Z.of_nat pad.
Proof.
  unfold image. rewrite !len_app, Hbody. unfold len. rewrite length_head, length_manifest, length_zeroed. lia.
Qed.

Lemma count_ranges : u64_range (len objects) /\ u64_range (len files).
Proof.
  pose proof image_length. pose proof (len_nonneg objects). pose proof (len_nonneg files).
  pose proof (len_nonneg (file_records files)). pose proof (len_nonneg body).
  unfold MAX_TRANSFER_BYTES, u64_range, u64_max in *. split; [lia|]. split; [lia|].
  assert (len files <= len (file_records files)); [|lia].
  clear. induction files as [|f fs IH]; [done|].
  assert (file_records (f :: fs) = file_record f ++ file_records fs) as -> by done.
  rewrite len_app. unfold file_record at 1. rewrite length_entry. unfold entry_len.
  pose proof (round_up8_bounds (24 + len (attributes f))). pose proof (len_nonneg (attributes f)).
  unfold len in *. simpl. lia.
Qed.

(** The fields of the header. *)
Lemma image_fields :
  slice image 0 8 = MAGIC /\ u32_at image 8 = VERSION /\ u32_at image 12 = HEADER_BYTES /\
  u64_at image 16 = len d /\ u64_at image 24 = len o /\ u64_at image 32 = len e /\
  u64_at image 40 = len objects /\ u64_at image 48 = len files.
Proof.
  destruct Hlens as (? & ? & ?), count_ranges as [? ?].
  assert (u32_range VERSION /\ u32_range HEADER_BYTES) as [? ?]
    by (unfold u32_range, u32_max, VERSION, HEADER_BYTES; lia).
  unfold image, head, header. rewrite <- !app_assoc.
  split; [by apply slice_here|].
  assert (Hskip : forall (r : bytes) k, u32_at (MAGIC ++ r) (8 + k) = u32_at r k /\
                                        u64_at (MAGIC ++ r) (8 + k) = u64_at r k).
  { intros r k. split; [by apply (u32_at_skip MAGIC 8)|by apply (u64_at_skip MAGIC 8)]. }
  rewrite (proj1 (Hskip _ 0%nat)), (proj1 (Hskip _ 4%nat)), (proj2 (Hskip _ 8%nat)),
    (proj2 (Hskip _ 16%nat)), (proj2 (Hskip _ 24%nat)), (proj2 (Hskip _ 32%nat)), (proj2 (Hskip _ 40%nat)).
  split_and!; by read_fields.
Qed.

(** The body is where the header says. *)
Lemma image_body :
  let position := len (head ++ manifest objects ++ file_records files) in
  slice image (Z.to_nat position) (Z.to_nat (position + total l)) = body /\
  slice image (Z.to_nat (position + total l)) (length image) = zeroed pad.
Proof.
  intros position. unfold image.
  replace (head ++ manifest objects ++ file_records files ++ body ++ zeroed pad) with
    ((head ++ manifest objects ++ file_records files) ++ body ++ zeroed pad) by by rewrite <- !app_assoc.
  unfold position, len in *. split.
  - apply slice_mid; rewrite ?length_app; rewrite ?length_app in *; lia.
  - rewrite app_assoc. eassert (H := slice_mid _ (zeroed pad) [] _ _). rewrite app_nil_r in H.
    apply H; rewrite ?length_app in *; lia.
Qed.

Lemma parse_image_written :
  parse_image reserve_ok fd image (descriptor <$> files) =
    Ok {| idescriptor := fd; iview := image; ilayout := l;
          payload_offset := len (head ++ manifest objects ++ file_records files);
          iobjects := objects; ifiles := import_files (decoded_of <$> files) (descriptor <$> files) |}.
Proof.
  destruct image_fields as (F1 & F2 & F3 & F4 & F5 & F6 & F7 & F8), image_body as [B1 B2].
  pose proof image_length as Hi. pose proof (len_nonneg objects). pose proof (len_nonneg body).
  pose proof (len_nonneg (file_records files)).
  assert (Hfirst : len (head ++ manifest objects) = 56 + 32 * len objects)
    by (rewrite len_app; unfold len; rewrite length_head, length_manifest; lia).
  unfold parse_image. rewrite F1, F2, F3, F4, F5, F6, F7, F8. rewrite bool_decide_true by done.
  rewrite !Z.eqb_refl. cbn [negb orb]. unfold len at 1 2. rewrite length_fmap, Z.eqb_refl. cbn [negb].
  unfold MAX_TRANSFER_BYTES in Hsize. unfold usize_max, u64_max.
  rewrite (proj2 (checked_mul_Some _ _ _ (len objects * 32))) by (unfold MANIFEST_OBJECT_BYTES; lia).
  cbn [ok_or]. rewrite (proj2 (checked_add_Some _ _ _ (56 + len objects * 32))) by (unfold HEADER_BYTES; lia).
  cbn [ok_or]. rewrite (proj2 (Z.ltb_ge _ _)) by lia. cbn [ensure].
  replace (56 + len objects * 32) with (len (head ++ manifest objects)) by lia.
  unfold image at 1. rewrite (app_assoc head), (read_files_records files (head ++ manifest objects)
    (body ++ zeroed pad) 0); [|done|by eapply validate_files_numbered|].
  2:{ rewrite <- app_assoc. fold image. unfold usize_max, u64_max. lia. }
  cbn [ok_or]. rewrite Hl. cbn [ok_or]. rewrite <- (app_assoc head).
  set (position := len (head ++ manifest objects ++ file_records files)) in *.
  assert (Hpos : position + total l + Z.of_nat pad = len image).
  { unfold position. rewrite (app_assoc head), len_app, Hfirst. lia. }
  rewrite (proj2 (checked_add_Some _ _ _ (position + total l))) by lia. cbn [ok_or].
  rewrite (proj2 (Z.ltb_ge _ _)), B2 by lia.
  rewrite (proj2 (all_zero_spec (zeroed pad))) by (by rewrite length_zeroed). cbn [negb orb].
  rewrite B1, Hdata, Hoffsets. change (below 1 reserve_ok) with reserve_ok.
  rewrite Hvalid. cbn [map_err ensure].
  replace (Z.to_nat (len objects)) with (length objects) by (unfold len; lia).
  unfold image at 1. rewrite <- length_head, read_objects_records by done.
  rewrite Hmanifest. cbn [map_err ensure]. by rewrite (validate_imported _ _ Hnumbered).
Qed.
End parse.

(** *** Capturing *)

Lemma encoded_len_record f :
  bundle_ok f -> encoded_len (len (attributes f)) = Ok (len (file_record f)).
Proof.
  intros (_ & _ & Ha). rewrite encoded_len_spec by apply len_nonneg.
  unfold MAX_ATTRIBUTES_BYTES in Ha. rewrite (proj2 (Z.ltb_ge _ _)) by done.
  unfold file_record. by rewrite length_entry.
Qed.

Lemma file_manifest_bytes_eq files : forall acc,
  Forall bundle_ok files -> 0 <= acc -> acc + len (file_records files) <= usize_max ->
  file_manifest_bytes acc files = Ok (acc + len (file_records files)).
Proof.
  induction files as [|f files IH]; intros acc HF Ha Hm.
  { simpl. by rewrite Z.add_0_r. }
  apply Forall_cons in HF as [Hf HF]. cbn [file_manifest_bytes].
  assert (E : file_records (f :: files) = file_record f ++ file_records files) by done.
  rewrite E, len_app in *. rewrite encoded_len_record by done. simpl.
  pose proof (len_nonneg (file_record f)). pose proof (len_nonneg (file_records files)).
  rewrite (proj2 (checked_add_Some _ _ _ (acc + len (file_record f)))) by lia. simpl.
  rewrite IH by (done || lia). f_equal. lia.
Qed.

Definition image_bytes (payload : Z) (objects : list ManifestObject) (files : list DescriptorBundle) : Z :=
  56 + 32 * len objects + len (file_records files) + payload.

Lemma image_size_eq payload objects files :
  Forall bundle_ok files -> 0 <= payload -> image_bytes payload objects files <= MAX_TRANSFER_BYTES ->
  image_size payload objects files = Ok (image_bytes payload objects files).
Proof.
  unfold image_bytes. intros HF Hp Hm. pose proof (len_nonneg objects).
  pose proof (len_nonneg (file_records files)). pose proof Hm as Hm'.
  unfold MAX_TRANSFER_BYTES in Hm'. unfold image_size.
  rewrite (proj2 (checked_mul_Some _ _ _ (len objects * 32)))
    by (unfold MANIFEST_OBJECT_BYTES, usize_max, u64_max; lia). simpl.
  rewrite file_manifest_bytes_eq by (done || lia || (unfold usize_max, u64_max; lia)). simpl.
  rewrite Z.add_0_l.
  rewrite (proj2 (checked_add_Some _ _ _ (56 + len objects * 32)))
    by (unfold HEADER_BYTES, usize_max, u64_max; lia). simpl.
  rewrite (proj2 (checked_add_Some _ _ _ (56 + len objects * 32 + len (file_records files))))
    by (unfold usize_max, u64_max; lia). simpl.
  rewrite (proj2 (checked_add_Some _ _ _
    (56 + len objects * 32 + len (file_records files) + payload))) by (unfold usize_max, u64_max; lia).
  cbn [mbind option_bind]. rewrite (proj2 (Z.leb_le _ _)) by lia. simpl. apply f_equal. lia.
Qed.

Lemma write_image_eq snapshot ext objects files :
  layout_ok (len (sdata snapshot)) (len (soffsets snapshot)) (len ext) (slayout snapshot) ->
  Forall bundle_ok files ->
  exists body,
    write_image snapshot ext objects files (image_bytes (total (slayout snapshot)) objects files) =
      Ok (head (sdata snapshot) (soffsets snapshot) ext objects files ++ manifest objects ++
          file_records files ++ body) /\
    len body = total (slayout snapshot) /\
    range_of body (data (slayout snapshot)) = sdata snapshot /\
    range_of body (offsets (slayout snapshot)) = soffsets snapshot /\
    range_of body (extra (slayout snapshot)) = ext.
Proof.
  intros Hl HF. set (l := slayout snapshot) in *.
  assert (Ht : 8 <= total l) by apply Hl.
  unfold write_image. rewrite image_header_eq. fold (head (sdata snapshot) (soffsets snapshot) ext objects files).
  set (h := head _ _ _ _ _). assert (Lh : length h = 56%nat) by apply length_head.
  replace (Z.to_nat (image_bytes (total l) objects files)) with
    (56 + (32 * length objects + (length (file_records files) + Z.to_nat (total l))))%nat
    by (unfold image_bytes, len; lia).
  rewrite zeroed_app, copy_at_def, Lh. simpl (take 0 _). rewrite app_nil_l.
  rewrite drop_app_length' by by rewrite length_zeroed.
  pose proof (write_objects_eq objects h (length (file_records files) + Z.to_nat (total l))) as Hw.
  rewrite Lh in Hw. rewrite Hw, write_files_eq by done.
  rewrite <- !app_assoc.
  destruct (write_payload_sections (h ++ manifest objects ++ file_records files) l _ _ _ Hl)
    as (body & E & H1 & H2 & H3 & H4).
  exists body. split_and!; [|done..]. f_equal. fold l.
  rewrite <- !app_assoc in E. by rewrite <- E.
Qed.

(** ** The kernel

    Documented behaviour of shared memory: a created object is rounded up to pages of zeroes,
    keeps its size, and a read-only descriptor of it shows the bytes last written. *)
Definition rounded (page n : Z) : Z := page * ((n + page - 1) / page).

Definition free_attempt (fd : Z) (a : Attempt) : Prop :=
  entropy a = Ok tt /\ create a = Ok tt /\ truncate a = Ok tt /\ reopen a = Ok fd /\ unlink a = Ok tt.
Definition taken_attempt (a : Attempt) : Prop := entropy a = Ok tt /\ create a = Err EEXIST.

Record kernel_ok (k : Kernel) (page fd : Z) : Prop := {
  kernel_page : 0 < page;
  kernel_pages : MAX_TRANSFER_BYTES mod page = 0;
  kernel_attempts : exists taken a rest,
    attempts k = taken ++ a :: rest /\ Forall taken_attempt taken /\ free_attempt fd a;
  kernel_map n : map_writable k n = Ok tt;
  kernel_flags bs : exists flags, getfl (carrier_of k bs) = Ok flags /\ Z.land flags O_ACCMODE = O_RDONLY;
  kernel_size bs : stat_size (carrier_of k bs) = Ok (rounded page (len bs)) /\
                   stat_again (carrier_of k bs) = Ok (rounded page (len bs));
  kernel_bytes bs : mapped (carrier_of k bs) (rounded page (len bs)) =
                    Ok (Some (bs ++ zeroed (Z.to_nat (rounded page (len bs) - len bs)))) }.

Lemma rounded_bounds page n :
  0 < page -> MAX_TRANSFER_BYTES mod page = 0 -> 0 <= n <= MAX_TRANSFER_BYTES ->
  n <= rounded page n <= MAX_TRANSFER_BYTES.
Proof.
  intros Hp Hm Hn. unfold rounded. apply Z.mod_divide in Hm as [q Hq]; [|lia]. split.
  - pose proof (Z.mod_pos_bound (n + page - 1) page Hp). pose proof (Z.div_mod (n + page - 1) page). lia.
  - rewrite Hq. rewrite Z.mul_comm. apply Z.mul_le_mono_nonneg_r; [lia|].
    rewrite Hq in Hn. apply Z.lt_succ_r. apply Z.div_lt_upper_bound; [lia|]. nia.
Qed.

(** The loop returns as soon as a random name is free. *)
Lemma immutable_backing_free taken a rest fd :
  Forall taken_attempt taken -> free_attempt fd a ->
  immutable_backing (taken ++ a :: rest) = Some (Ok fd).
Proof.
  intros HF (E1 & E2 & E3 & E4 & E5). induction HF as [|t taken [T1 T2] _ IH]; simpl.
  - by rewrite E1, E2, E3, E4, E5.
  - rewrite T1, T2. by rewrite bool_decide_true.
Qed.

(** *** Importing *)

Lemma read_object_ok entry o : length entry = 32%nat -> read_object entry = Ok o -> manifest_ok o.
Proof.
  intros Hl. unfold read_object. destruct (all_zero _); [|done]. simpl.
  pose proof (u64_at_range entry 8 ltac:(lia)). pose proof (u64_at_range entry 16 ltac:(lia)).
  unfold from_nonzero. destruct (Z.eqb_spec (u64_at entry 8) 0); [done|]. simpl.
  destruct (Z.eqb_spec (u64_at entry 16) 0); [done|]. simpl.
  intros H'.
  assert (exists s, o = {| moffset := u64_at entry 0;
    mnode := {| owner := u64_at entry 8; local := u64_at entry 16 |}; mstrength := s;
    mflags := u32_at entry 24 |}) as [s ->].
  { destruct (from_le _) as [|[]|]; try discriminate H'; injection H' as <-; eauto. }
  unfold manifest_ok, node_token_ok, token_ok. simpl. unfold u64_range in *.
  split; [apply u64_at_range; lia|]. split; [lia|]. apply u32_at_range. lia.
Qed.

Lemma read_objects_ok bs count : forall position objects,
  (position + 32 * count <= length bs)%nat -> read_objects bs count position = Ok objects ->
  Forall manifest_ok objects.
Proof.
  induction count as [|count IH]; simpl; intros position objects Hl; [by intros [= <-]|].
  destruct (read_object _) as [o|] eqn:Eo; [|done].
  apply read_object_ok in Eo; [|rewrite length_slice; lia].
  destruct (read_objects _ _ _) as [rest|] eqn:Er; [|done]. intros [= <-].
  constructor; [done|]. eapply IH; [|done]. lia.
Qed.

Lemma read_files_ok bs count : forall ordinal position decoded stop,
  0 <= position -> read_files bs count ordinal position = Ok (decoded, stop) ->
  length decoded = count /\ position <= stop.
Proof.
  induction count as [|count IH]; intros ordinal position decoded stop Hp; cbn [read_files].
  { intros [= <- <-]. done. }
  destruct (get_range _ _ _) as [source|] eqn:Eg; [|done]. simpl.
  destruct (decode source) as [d|] eqn:Ed; [|done]. simpl.
  apply decode_entry in Ed as (_ & _ & _ & Hl & _).
  destruct (negb _); [done|]. destruct (attributes_new _); [|done]. simpl.
  destruct (checked_add _ _ _) as [p|] eqn:Ep; [|done]. simpl.
  apply checked_add_Some in Ep as [-> Hm].
  assert (0 <= dlen d).
  { rewrite Hl. unfold entry_len. pose proof (round_up8_bounds (24 + len (dattributes d))).
    pose proof (len_nonneg (dattributes d)). lia. }
  destruct (read_files _ _ _ _) as [[rest s]|] eqn:Er; [|done]. intros [= <- <-].
  apply IH in Er as [? ?]; simpl; lia.
Qed.

Lemma import_files_descriptors decoded files :
  length decoded = length files -> tdescriptor <$> import_files decoded files = files.
Proof.
  unfold import_files. revert files. induction decoded as [|[[o ord] a] decoded IH]; intros [|f files] Hl; try done.
  simpl. f_equal. apply IH. by injection Hl.
Qed.

Lemma len_range_of body r : 0 <= start r <= stop r -> stop r <= len body -> len (range_of body r) = range_len r.
Proof. intros. unfold range_of, range_len, len in *. rewrite length_slice by lia. lia. Qed.

(** What an accepted image is: sections of its layout, whose objects are well formed, named by
    the manifest and the descriptors one by one. *)
Definition image_ok (files : list Z) (i : TransferImage) : Prop :=
  layout_ok (len (idata i)) (len (ioffsets i)) (len (iextra i)) (ilayout i) /\
  Forall manifest_ok (iobjects i) /\ tdescriptor <$> ifiles i = files /\
  exists parsed, validate reserve_ok (idata i) (ioffsets i) = Ok parsed /\
    validate_manifest parsed (iobjects i) = Ok tt /\ validate_imported_files parsed (ifiles i) = Ok tt.

Lemma parse_image_sound rsv fd bs files i :
  HEADER_BYTES <= len bs -> parse_image rsv fd bs files = Ok i -> image_ok files i.
Proof.
  unfold HEADER_BYTES. intros Hb. assert (Hb' : (56 <= length bs)%nat) by (unfold len in Hb; lia).
  unfold parse_image. destruct (_ || _ || _); [done|]. destruct (negb _); [done|].
  destruct (checked_mul _ _ _) as [mb|] eqn:Em; [|done]. simpl. apply checked_mul_Some in Em as [-> Hm].
  destruct (checked_add _ _ _) as [first|] eqn:Ef; [|done]. simpl. apply checked_add_Some in Ef as [-> Hf].
  destruct (Z.ltb_spec (len bs) (HEADER_BYTES + u64_at bs 40 * MANIFEST_OBJECT_BYTES)) as [|Hfirst]; [done|].
  pose proof (u64_at_range bs 40 ltac:(lia)) as Hc. unfold u64_range, HEADER_BYTES, MANIFEST_OBJECT_BYTES in *.
  destruct (rsv [0%nat]); [|done]. simpl.
  destruct (read_files _ _ _ _) as [[decoded position]|] eqn:Er; [|done].
  assert (Hd : length decoded = length files /\ 0 <= position).
  { apply read_files_ok in Er as [? ?]; lia. }
  destruct (TransactionLayout.new _ _ _) as [l|] eqn:El; [|done]. simpl.
  apply new_layout_ok in El; [|apply u64_at_range; lia..].
  destruct (checked_add _ _ _) as [logical|] eqn:Elog; [|done]. simpl. apply checked_add_Some in Elog as [-> _].
  destruct (Z.ltb_spec (len bs) (position + total l)) as [|Hlog]; [done|]. simpl.
  destruct (all_zero _); [|done]. simpl.
  destruct (validate _ _ _) as [parsed|] eqn:Ev; [|done]. simpl. apply validate_again in Ev.
  destruct (rsv [2%nat]); [|done]. simpl.
  destruct (read_objects _ _ _) as [objs|] eqn:Eo; [|done].
  apply read_objects_ok in Eo; [|unfold len in *; lia].
  destruct (validate_manifest parsed objs) as [[]|] eqn:Emf; [|done]. simpl.
  destruct (rsv [3%nat]); [|done]. simpl.
  destruct (validate_imported_files _ _) as [[]|] eqn:Ei; [|done]. intros [= <-].
  pose proof El as (H1 & H2 & H3 & H4 & H5 & H6 & H7 & _ & _ & _ & H8).
  unfold image_ok, idata, ioffsets, iextra, payload. simpl.
  set (body := slice bs (Z.to_nat position) (Z.to_nat (position + total l))) in *.
  pose proof (u64_at_range bs 16 ltac:(lia)). pose proof (u64_at_range bs 24 ltac:(lia)).
  pose proof (u64_at_range bs 32 ltac:(lia)). unfold u64_range, range_len in *.
  assert (Lb : len body = total l) by (unfold body, len in *; rewrite length_slice; lia).
  rewrite !len_range_of by lia. unfold range_len.
  split; [by rewrite H1, H2, H3|]. split; [done|]. split; [apply import_files_descriptors, Hd|].
  by exists parsed.
Qed.

(** What the code relies on when it asks about a received descriptor twice: the size of the
    object does not change, and a mapping has the size that was asked for. *)
Definition carrier_stable (c : Carrier) : Prop :=
  stat_again c = stat_size c /\ forall n bs, mapped c n = Ok (Some bs) -> len bs = n.

Lemma import_shared k page fd (bs : bytes) fds :
  kernel_ok k page fd -> 56 <= len bs <= MAX_TRANSFER_BYTES ->
  let pad := Z.to_nat (rounded page (len bs) - len bs) in
  len (bs ++ zeroed pad) <= MAX_TRANSFER_BYTES /\
  import_with_fds reserve_ok (carrier_of k bs) fd fds =
    Some (parse_image reserve_ok fd (bs ++ zeroed pad) fds).
Proof.
  intros [Kp Kq _ _ Kg Ks Kb] Hs pad.
  destruct (rounded_bounds page (len bs) Kp Kq ltac:(lia)) as [R1 R2].
  assert (Hl : len (bs ++ zeroed pad) = rounded page (len bs)).
  { rewrite len_app. unfold len at 2. rewrite length_zeroed. unfold pad. lia. }
  split; [lia|]. unfold import_with_fds, validate_carrier, HEADER_BYTES.
  destruct (Kg bs) as (fl & -> & E), (Ks bs) as [-> ->]. cbn [map_err].
  rewrite E, Z.eqb_refl. cbn [negb]. unfold descriptor_length.
  rewrite (proj2 (Z.ltb_ge _ _)) by lia. cbn [map_err].
  rewrite !(proj2 (Z.leb_le _ _)) by lia. cbn [andb ensure]. rewrite Kb. fold pad.
  by rewrite (proj2 (Z.ltb_ge _ _)) by lia.
Qed.

(** The sections of an image that was parsed from written bytes. *)
Lemma written_sections d o e objects files l body pad fd fds :
  len body = total l ->
  let i := {| idescriptor := fd; iview := image d o e objects files body pad; ilayout := l;
              payload_offset := len (head d o e objects files ++ manifest objects ++ file_records files);
              iobjects := objects; ifiles := fds |} in
  payload i = body.
Proof. intros Hb. unfold payload. simpl. by apply image_body. Qed.

Lemma layout_ranges (d o e : bytes) l :
  layout_ok (len d) (len o) (len e) l -> total l <= MAX_TRANSFER_BYTES ->
  u64_range (len d) /\ u64_range (len o) /\ u64_range (len e).
Proof.
  intros (H1 & H2 & H3 & H4 & H5 & H6 & H7 & _) Ht. unfold range_len in *.
  pose proof (len_nonneg d). pose proof (len_nonneg o). pose proof (len_nonneg e).
  unfold MAX_TRANSFER_BYTES, u64_range, u64_max in *. lia.
Qed.

(** ** Properties *)

(** A transaction survives the transfer.  Capturing a snapshot with its extra bytes, the
    manifest of its nodes and one attributed descriptor per descriptor object succeeds whenever
    the image fits the transfer limit, however many random names were taken before, and the
    image that the receiver imports from the page-rounded object has the sender's data, offset
    table, extra bytes, layout, node manifest and descriptors with their attributes. *)
Theorem transfer_roundtrip k page fd rsv0 d o ext snapshot objects files parsed
    (Hk : kernel_ok k page fd)
    (Hcapture : TransactionSnapshot.capture rsv0 d o (len ext) = Ok snapshot)
    (Hvalid : validate reserve_ok d o = Ok parsed)
    (Hobjects : Forall manifest_ok objects) (Hfiles : Forall bundle_ok files)
    (Hmanifest : validate_manifest parsed objects = Ok tt)
    (Hordered : validate_files parsed files = Ok tt)
    (Hsize : image_bytes (total (slayout snapshot)) objects files <= MAX_TRANSFER_BYTES) :
  exists image,
    capture_with_objects_and_descriptors reserve_ok k snapshot ext objects files = Some (Ok image) /\
    idescriptor image = fd /\ idata image = d /\ ioffsets image = o /\ iextra image = ext /\
    ilayout image = slayout snapshot /\ iobjects image = objects /\ (take_descriptors image).2 = files.
Proof.
  apply capture_Ok in Hcapture as (<- & <- & Hext & Hl & _).
  pose proof (new_layout_ok _ _ _ _ (len_nonneg _) (len_nonneg _) (len_nonneg _) Hl) as Hlay.
  pose proof Hlay as (_ & _ & L3 & _ & _ & _ & _ & _ & _ & _ & L4 & _).
  destruct (write_image_eq snapshot ext objects files Hlay Hfiles) as (body & Hw & Hb & H1 & H2 & H3).
  set (l := slayout snapshot) in *. set (bs := head _ _ _ _ _ ++ _) in Hw.
  destruct (kernel_attempts _ _ _ Hk) as (taken & a & rest & Ka & Kt & Kf).
  pose proof (len_nonneg objects). pose proof (len_nonneg (file_records files)).
  assert (Hbs : len bs = image_bytes (total l) objects files).
  { unfold bs, image_bytes. rewrite !len_app, Hb. unfold len.
    rewrite length_head, length_manifest. lia. }
  assert (Ht : 56 <= len bs /\ total l <= MAX_TRANSFER_BYTES) by (unfold image_bytes in *; lia).
  destruct (import_shared k page fd bs (descriptor <$> files) Hk ltac:(lia)) as [Hmax Himp].
  set (pad := Z.to_nat _) in *.
  assert (Eimg : bs ++ zeroed pad = image (sdata snapshot) (soffsets snapshot) ext objects files body pad).
  { unfold bs, image. by rewrite <- !app_assoc. }
  rewrite Eimg in Hmax, Himp.
  rewrite (parse_image_written _ _ _ _ _ l parsed body pad fd Hl Hb H1 H2 Hmax
    (layout_ranges _ _ _ _ Hlay (proj2 Ht)) Hobjects Hfiles Hvalid Hmanifest Hordered) in Himp.
  eexists. split.
  - unfold capture_with_objects_and_descriptors. fold l. rewrite L3, Z.eqb_refl. cbn [negb].
    unfold TransactionSnapshot.objects. simpl payload_data. simpl payload_offsets.
    change (below 0 reserve_ok) with reserve_ok. rewrite Hvalid. cbn [map_err].
    rewrite Hmanifest. cbn [map_err]. rewrite Hordered, image_size_eq by (done || lia).
    rewrite Ka, (immutable_backing_free _ _ _ fd), (kernel_map _ _ _ Hk), Hw by done. exact Himp.
  - unfold idata, ioffsets, iextra. rewrite written_sections by done. simpl.
    split_and!; try done. apply import_files_bundles.
Qed.

(** Importing is safe on any bytes.  Whatever a peer put into the shared object and however
    many descriptors it sent along, importing does not panic; and an image it accepts is as good
    as a captured one: its sections fill a valid layout, its objects are well formed, and each
    node object has its manifest entry and each descriptor object its descriptor, in order. *)
Theorem import_sound rsv c fd files (Hc : carrier_stable c) :
  exists res, import_with_fds rsv c fd files = Some res /\
    forall i, res = Ok i -> idescriptor i = fd /\ image_ok files i.
Proof.
  destruct Hc as [Hs Hm]. unfold import_with_fds.
  destruct (validate_carrier c) as [[]|e] eqn:Ev; [|by exists (Err e)].
  rewrite Hs. revert Ev. unfold validate_carrier. destruct (getfl c); [|done]. simpl.
  destruct (negb _); [done|].
  destruct (descriptor_length (stat_size c)) as [n|e] eqn:En; [|done]. simpl.
  destruct (Z.leb_spec HEADER_BYTES n); [|done]. simpl. intros _.
  destruct (mapped c n) as [[bs|]|e] eqn:Eb; [|by exists (Err InvalidFormat)|by exists (Err (Io e))].
  apply Hm in Eb. rewrite (proj2 (Z.ltb_ge _ _)) by lia. eexists. split; [done|].
  intros i E. split; [|eapply parse_image_sound; [|done]; lia]. revert E. unfold parse_image.
  repeat (case_match; try done). by intros [= <-].
Qed.

(** *** A transaction with one node and one descriptor *)

Definition example_data : bytes :=
  u32_le (tag Binder) ++ u32_le 256 ++ u64_le 4660 ++ u64_le 8738 ++
  u32_le (tag Fd) ++ u32_le 0 ++ u64_le 77 ++ u64_le 0.
Definition example_offsets : bytes := u64_le 0 ++ u64_le 24.
Definition example_extra : bytes := u64_le 81985529216486895.
Definition example_manifest : list ManifestObject :=
  [{| moffset := 0; mnode := {| owner := 5; local := 6 |}; mstrength := Strong; mflags := 256 |}].
Definition example_files : list DescriptorBundle :=
  [{| boffset := 24; bordinal := 0; descriptor := 9;
      attributes := [Byte.x12; Byte.x34; Byte.xa5] |}].

Definition example_snapshot : TransactionSnapshot :=
  {| sdata := example_data; soffsets := example_offsets;
     slayout := {| data := {| start := 0; stop := 48 |}; offsets := {| start := 48; stop := 64 |};
                   extra := {| start := 64; stop := 72 |}; total := 72 |} |}.
Definition example_objects : list Object :=
  [{| kind := Binder; offset := 0; Objects.obytes := slice example_data 0 24 |};
   {| kind := Fd; offset := 24; Objects.obytes := slice example_data 24 48 |}].

(** The first random name is taken, the second is free; pages have 16 KiB. *)
Definition example_kernel : Kernel :=
  {| attempts :=
       [{| entropy := Ok tt; create := Err EEXIST; truncate := Err EINVAL; reopen := Err ENOENT;
           unlink := Err ENOENT |};
        {| entropy := Ok tt; create := Ok tt; truncate := Ok tt; reopen := Ok 12; unlink := Ok tt |}];
     map_writable := fun _ => Ok tt;
     carrier_of := fun bs =>
       {| getfl := Ok 0; stat_size := Ok (rounded 16384 (len bs));
          stat_again := Ok (rounded 16384 (len bs));
          mapped := fun n => Ok (Some (bs ++ zeroed (Z.to_nat (n - len bs)))) |} |}.

Lemma example_kernel_ok : kernel_ok example_kernel 16384 12.
Proof.
  split; try done.
  - exists [{| entropy := Ok tt; create := Err EEXIST; truncate := Err EINVAL; reopen := Err ENOENT;
               unlink := Err ENOENT |}]. eexists _, []. split; [done|].
    split; [by repeat constructor|]. by repeat constructor.
  - intros bs. by exists 0.
Qed.

Lemma transfer_roundtrip_witness :
  exists image,
    capture_with_objects_and_descriptors reserve_ok example_kernel example_snapshot example_extra
      example_manifest example_files = Some (Ok image) /\
    idata image = example_data /\ iobjects image = example_manifest.
Proof.
  destruct (transfer_roundtrip example_kernel 16384 12 reserve_ok example_data example_offsets
    example_extra example_snapshot example_manifest example_files example_objects)
    as (image & E & _ & H1 & _ & _ & _ & H2 & _).
  - exact example_kernel_ok.
  - vm_compute. reflexivity.
  - vm_compute. reflexivity.
  - repeat constructor; vm_compute; try discriminate.
  - repeat constructor; vm_compute; try discriminate.
  - vm_compute. reflexivity.
  - vm_compute. reflexivity.
  - vm_compute. discriminate.
  - exists image. split; [exact E|]. split; [exact H1|exact H2].
Defined.

(** A descriptor that was opened for writing. *)
Definition example_carrier : Carrier :=
  {| getfl := Ok 2; stat_size := Ok 64; stat_again := Ok 64;
     mapped := fun n => Ok (if n <? 0 then None else Some (zeroed (Z.to_nat n))) |}.

Lemma import_sound_witness :
  exists res, import_with_fds reserve_ok example_carrier 3 [] = Some res /\ res = Err InvalidFormat.
Proof.
  destruct (import_sound reserve_ok example_carrier 3 []) as (res & E & _).
  - split; [reflexivity|]. intros n bs. simpl. destruct (Z.ltb_spec n 0); [discriminate|].
    intros [= <-]. unfold len. rewrite length_zeroed. lia.
  - exists res. split; [exact E|]. vm_compute in E. injection E as <-. reflexivity.
Defined.
