(* ===== verification/ScatterGather.v ===== *)
(** * Scatter-gather capture ([scatter_gather.rs])

    The buffers that the buffer objects of a transaction point at are laid out in the extra
    section and copied from the sender.  The sender's memory is the argument
    [copy_from_sender]: call [i] reads into a slice, which keeps its length. *)
From S2P Require Import Prelude Objects TransactionLayout TransactionSnapshot.

Inductive Error (E : Type) : Type :=
| GObjects (e : Objects.Error) | Size | GOutOfMemory | Copy (e : E).
Arguments GObjects {E} e.
Arguments Size {E}.
Arguments GOutOfMemory {E}.
Arguments Copy {E} e.

Record Buffer : Type :=
  { object_index : nat; object_offset : Z; destination : Range; bbytes : bytes }.

Record ScatterGather : Type := { snapshot : TransactionSnapshot; buffers : list Buffer }.

(** The planning loop: a buffer per buffer object, at the cursor, which stays in the extra
    section and advances by the aligned length.  Iteration [index] reserves at [[index]]. *)
Fixpoint plan_buffers {E} (rsv : Reserve) (extra_end : Z) (index : nat) (cursor : Z)
    (objects : list Object) : result (list Buffer) (Error E) :=
  match objects with
  | [] => Ok []
  | object :: objects =>
      match fields object with
      | FBuffer _ _ length _ _ =>
          let? stop := ok_or (checked_add usize_max cursor length) Size in
          let? aligned := ok_or (align8 length) Size in
          let? next := ok_or (checked_add usize_max cursor aligned) Size in
          let? _ := ensure (next <=? extra_end) Size in
          let? _ := ensure (rsv [index]) GOutOfMemory in
          let? rest := plan_buffers rsv extra_end (S index) next objects in
          Ok ({| object_index := index; object_offset := offset object;
                 destination := {| start := cursor; stop := stop |}; bbytes := [] |} :: rest)
      | _ => plan_buffers rsv extra_end (S index) cursor objects
      end
  end.

Section capture.
Context {E : Type} (copy_from_sender : nat -> Z -> bytes -> result bytes E).

(** The address of the buffer object at an index; [None] is the panic of [unreachable!] or of
    the index. *)
Definition buffer_pointer (objects : list Object) (index : nat) : option Z :=
  object ← objects !! index;
  match fields object with FBuffer _ pointer _ _ _ => Some pointer | _ => None end.

(** The copying loop; [calls] counts the reads so far.  Each buffer reserves at [[calls]] of its
    own site. *)
Fixpoint fill_buffers (rsv : Reserve) (objects : list Object) (calls : nat) (buffers : list Buffer)
    : option (result (list Buffer) (Error E)) :=
  match buffers with
  | [] => Some (Ok [])
  | b :: rest =>
      let length := range_len (destination b) in
      if negb (rsv [object_index b]) then Some (Err GOutOfMemory)
      else
        let fresh := zeroed (Z.to_nat length) in
        filled ←
          (if negb (length =? 0) then
             pointer ← buffer_pointer objects (object_index b);
             Some (map_err Copy (copy_from_sender calls pointer fresh))
           else Some (Ok fresh));
        match filled with
        | Err e => Some (Err e)
        | Ok bs =>
            let calls := if negb (length =? 0) then S calls else calls in
            r ← fill_buffers rsv objects calls rest;
            Some (result_map
                    (cons {| object_index := object_index b; object_offset := object_offset b;
                             destination := destination b; bbytes := bs |}) r)
        end
  end.

(** Reservations of [objects] at [[0; _]], of the plan at [[1; _]] and of the copies at [[2; _]]. *)
Definition capture_with (rsv : Reserve) (s : TransactionSnapshot)
    : option (result ScatterGather (Error E)) :=
  match map_err GObjects (objects (below 0 rsv) s) with
  | Err e => Some (Err e)
  | Ok objs =>
      let extra := extra (slayout s) in
      match plan_buffers (below 1 rsv) (stop extra) 0 (start extra) objs with
      | Err e => Some (Err e)
      | Ok plan =>
          r ← fill_buffers (below 2 rsv) objs 0 plan;
          Some (result_map (fun bs => {| snapshot := s; buffers := bs |}) r)
      end
  end.
End capture.

(** ** Specification *)

(** The buffers of the buffer objects from [index] on, laid out from [cursor] and before [limit]:
    in order, at multiples of eight, each of the length its object says. *)
Fixpoint laid_out (limit : Z) (index : nat) (cursor : Z) (objs : list Object) (bs : list Buffer) : Prop :=
  match objs with
  | [] => bs = []
  | o :: objs =>
      match fields o with
      | FBuffer _ _ n _ _ =>
          exists b rest, bs = b :: rest /\ object_index b = index /\ object_offset b = offset o /\
            destination b = {| start := cursor; stop := cursor + n |} /\ 0 <= n /\
            cursor + round_up8 n <= limit /\
            laid_out limit (S index) (cursor + round_up8 n) objs rest
      | _ => laid_out limit (S index) cursor objs bs
      end
  end.

(** Each buffer holds as many bytes as its range. *)
Definition filled (b : Buffer) : Prop := len (bbytes b) = range_len (destination b).

(** ** Lemmas *)

Lemma object_at_length data o : object_at data o -> len (obytes o) = size (kind o).
Proof. intros (_ & _ & _ & H & _). apply length_get_range in H. lia. Qed.

Lemma buffer_fields data o f p n pa po :
  object_at data o -> fields o = FBuffer f p n pa po ->
  kind o = Objects.Buffer /\ u32_range f /\ u64_range p /\ u64_range n /\ u64_range pa /\ u64_range po.
Proof.
  intros Ho. pose proof (object_at_length _ _ Ho) as Hl. unfold fields.
  destruct (kind o) eqn:Ek; try done. intros [= <- <- <- <- <-]. simpl in Hl. unfold len in Hl.
  split; [done|]. split_and!; (apply u32_at_range || apply u64_at_range); lia.
Qed.

Lemma plan_buffers_laid_out {E} rsv data limit index cursor objs bs :
  Forall (object_at data) objs ->
  @plan_buffers E rsv limit index cursor objs = Ok bs -> laid_out limit index cursor objs bs.
Proof.
  intros Hobjs. induction Hobjs as [|o objs Ho Hobjs IH] in index, cursor, bs |- *; simpl;
    [by intros [= <-]|].
  destruct (fields o) as [| | |f p n pa po|] eqn:Ef; try apply IH.
  destruct (buffer_fields _ _ _ _ _ _ _ Ho Ef) as (_ & _ & _ & [Hn _] & _).
  destruct (checked_add _ _ _) as [stop|] eqn:E1; simpl; [|done]. apply checked_add_Some in E1 as [-> _].
  destruct (align8 n) as [aligned|] eqn:E2; simpl; [|done]. rewrite align8_round_up in E2 by done.
  destruct (round_up8 n <=? usize_max); [|done]. injection E2 as <-.
  destruct (checked_add _ _ _) as [next|] eqn:E3; simpl; [|done]. apply checked_add_Some in E3 as [-> _].
  unfold ensure. destruct (Z.leb_spec (cursor + round_up8 n) limit); simpl; [|done].
  destruct (rsv _); simpl; [|done].
  destruct (plan_buffers _ _ _ _ _) as [rest|] eqn:Er; simpl; [|done]. intros [= <-].
  eexists _, rest. split_and!; try done. by apply IH.
Qed.

(** The objects of planned buffers are buffer objects. *)
Lemma laid_out_objects limit index cursor objs bs b :
  laid_out limit index cursor objs bs -> b ∈ bs ->
  exists i o f p n pa po, object_index b = (index + i)%nat /\ objs !! i = Some o /\
    fields o = FBuffer f p n pa po /\ object_offset b = offset o /\
    cursor <= start (destination b) /\ stop (destination b) = start (destination b) + n /\
    0 <= n /\ start (destination b) + round_up8 n <= limit.
Proof.
  induction objs as [|o objs IH] in index, cursor, bs |- *; simpl; intros Hl Hb.
  { subst. by apply not_elem_of_nil in Hb. }
  assert (forall cursor' bs', cursor <= cursor' -> laid_out limit (S index) cursor' objs bs' -> b ∈ bs' ->
    exists i o' f p n pa po, object_index b = (index + i)%nat /\ (o :: objs) !! i = Some o' /\
      fields o' = FBuffer f p n pa po /\ object_offset b = offset o' /\
      cursor <= start (destination b) /\ stop (destination b) = start (destination b) + n /\
      0 <= n /\ start (destination b) + round_up8 n <= limit) as Hrest.
  { intros cursor' bs' Hle Hl' Hb'. destruct (IH _ _ _ Hl' Hb') as (i & o' & f & p & n & pa & po & ? & ? & ? & ? & ? & ?).
    exists (S i), o', f, p, n, pa, po. split_and!; try done; lia. }
  destruct (fields o) as [| | |f p n pa po|] eqn:Ef; try by eapply Hrest.
  destruct Hl as (b' & rest & -> & Hi & Hof & Hd & Hn & Hlim & Hl').
  apply elem_of_cons in Hb as [->|Hb].
  - exists 0%nat, o, f, p, n, pa, po. rewrite Hd. simpl. split_and!; try done; lia.
  - eapply Hrest; [|done..]. pose proof (round_up8_bounds n). lia.
Qed.

(** Equal but for the bytes. *)
Definition same_place (b b' : Buffer) : Prop :=
  object_index b = object_index b' /\ object_offset b = object_offset b' /\
  destination b = destination b'.

Lemma laid_out_same limit index cursor objs bs bs' :
  Forall2 same_place bs bs' -> laid_out limit index cursor objs bs ->
  laid_out limit index cursor objs bs'.
Proof.
  induction objs as [|o objs IH] in index, cursor, bs, bs' |- *; simpl; intros Hs Hl.
  { subst. by inversion Hs. }
  destruct (fields o); try by eapply IH.
  destruct Hl as (b & rest & -> & Hi & Ho & Hd & ? & ? & Hl).
  inversion Hs as [|? b' ? rest' (? & ? & ?) Hrest]; subst.
  exists b', rest'. split_and!; try congruence. by eapply IH.
Qed.

Section fill.
Context {E : Type} (copy_from_sender : nat -> Z -> bytes -> result bytes E).
Hypothesis copy_keeps_length : forall i p buf bs,
  copy_from_sender i p buf = Ok bs -> length bs = length buf.

(** Filling never panics on a plan, and keeps the plan. *)
Lemma fill_buffers_same rsv objs calls bs :
  (forall b, b ∈ bs -> 0 <= range_len (destination b)) ->
  (forall b, b ∈ bs -> is_Some (buffer_pointer objs (object_index b))) ->
  exists r, fill_buffers copy_from_sender rsv objs calls bs = Some r /\
    forall bs', r = Ok bs' -> Forall2 same_place bs bs' /\ Forall filled bs'.
Proof.
  induction bs as [|b bs IH] in calls |- *; intros Hn Hp; simpl.
  { eexists. split; [done|]. intros ? [= <-]. by split; constructor. }
  destruct (rsv _); simpl; [|eexists; split; [done|]; done].
  destruct (Hp b ltac:(left)) as [p Hb]. pose proof (Hn b ltac:(left)) as Hlen.
  assert (exists fr, (if negb (range_len (destination b) =? 0)
      then pointer ← buffer_pointer objs (object_index b);
           Some (map_err Copy (copy_from_sender calls pointer (zeroed (Z.to_nat (range_len (destination b))))))
      else Some (Ok (zeroed (Z.to_nat (range_len (destination b)))))) = Some fr /\
      forall fb, fr = Ok fb -> len fb = range_len (destination b)) as (fr & -> & Hfr).
  { destruct (negb _); [|eexists; split; [done|]; intros ? [= <-]; unfold len, zeroed; rewrite length_replicate; lia].
    rewrite Hb. simpl. eexists. split; [done|]. intros fb.
    destruct (copy_from_sender _ _ _) as [fb'|] eqn:Ec; simpl; [|done]. intros [= <-].
    apply copy_keeps_length in Ec. unfold len. rewrite Ec. unfold zeroed. rewrite length_replicate. lia. }
  simpl. destruct fr as [fb|]; [|eexists; split; [done|]; done].
  destruct (IH (if negb (range_len (destination b) =? 0) then S calls else calls)) as (r & -> & Hr).
  { intros b' ?. apply Hn. by right. }
  { intros b' ?. apply Hp. by right. }
  simpl. eexists. split; [done|]. intros bs'. destruct r as [rest|]; simpl; [|done]. intros [= <-].
  destruct (Hr _ eq_refl). split; constructor; try done. by apply Hfr.
Qed.

Lemma range_len_nonneg limit index cursor objs bs b :
  laid_out limit index cursor objs bs -> b ∈ bs -> 0 <= range_len (destination b).
Proof.
  intros Hl Hb. destruct (laid_out_objects _ _ _ _ _ _ Hl Hb) as (? & ? & ? & ? & n & ? & ? & ? & ? & ? & ? & ? & Hs & ? & ?).
  unfold range_len. lia.
Qed.

Lemma capture_with_sound rsv s :
  exists r, capture_with copy_from_sender rsv s = Some r /\
    forall sg, r = Ok sg ->
      snapshot sg = s /\ exists objs, validate (below 0 rsv) (sdata s) (soffsets s) = Ok objs /\
        laid_out (stop (extra (slayout s))) 0 (start (extra (slayout s))) objs (buffers sg) /\
        Forall filled (buffers sg).
Proof.
  unfold capture_with, objects. simpl. destruct (validate _ _ _) as [objs|] eqn:Ev; simpl;
    [|eexists; split; [done|]; done].
  destruct (plan_buffers _ _ _ _ _) as [plan|] eqn:Ep; [|eexists; split; [done|]; done].
  pose proof (proj1 (validate_Ok _ _ _ _) Ev) as Hv.
  assert (Forall (object_at (sdata s)) objs) as Hobjs by apply Hv.
  apply (plan_buffers_laid_out _ (sdata s)) in Ep; [|done].
  destruct (fill_buffers_same (below 2 rsv) objs 0 plan) as (r & -> & Hr).
  - intros b Hb. by eapply range_len_nonneg.
  - intros b Hb. destruct (laid_out_objects _ _ _ _ _ _ Ep Hb) as (i & o & f & p & n & pa & po & -> & Ho & Hf & _).
    unfold buffer_pointer. simpl. rewrite Ho. simpl. by rewrite Hf.
  - simpl. eexists. split; [done|]. intros sg. destruct r as [bs|]; simpl; [|done]. intros [= <-].
    destruct (Hr _ eq_refl). simpl. split; [done|]. exists objs. split_and!; try done.
    by eapply laid_out_same.
Qed.
End fill.
