(* ===== verification/PointerFixups.v ===== *)
(** * Pointer fixups ([pointer_fixups.rs], [pointer_fixups/order.rs])

    The plan of the pointers and descriptor numbers that delivery writes into the receiver's
    buffer: the pointer of each buffer object, the pointers that buffers hold to their children,
    and the elements of descriptor arrays.  [usize::try_from] of a [u64] is the identity on the
    64-bit targets; [None] is a panic. *)
From S2P Require Import Prelude Objects TransactionLayout TransactionSnapshot ScatterGather.

Inductive Error : Type :=
| FObjects (e : Objects.Error) | Parent | Order | Bounds | Alignment | FOutOfMemory.

Record PointerWrite : Type := { wdestination : Z; pointee : Z }.
Record FdSlot : Type := { slot_object : nat; sdestination : Z; sender_fd : Z }.
Record PointerFixups : Type :=
  { capture : ScatterGather; writes : list PointerWrite; fd_slots : list FdSlot }.

(** The loop of [order::validate]: from [cursor] up to [parent] along the parents of the buffer
    objects; [fuel] bounds the turns and [None] is a panic or exhausted fuel. *)
Fixpoint climb (fuel : nat) (objects : list Object) (cursor : nat) (minimum : Z) (parent : Z)
    : option (result Z Error) :=
  match fuel with
  | O => None
  | S fuel =>
      if Z.of_nat cursor =? parent then Some (Ok minimum)
      else
        object ← objects !! cursor;
        match fields object with
        | FBuffer flags _ _ next parent_offset =>
            if Z.land flags 1 =? 0 then Some (Err Order)
            else
              match checked_add u64_max parent_offset 8 with
              | None => Some (Err Bounds)
              | Some minimum =>
                  if Z.of_nat cursor <=? next then Some (Err Parent)
                  else climb fuel objects (Z.to_nat next) minimum parent
              end
        | _ => Some (Err Order)
        end
  end.

(** [order::validate]; the cursor decreases, so the turns are at most the first one plus one. *)
Definition order_validate (objects : list Object) (last : option nat) (minimum parent offset : Z)
    : option (result unit Error) :=
  match last with
  | None => Some (Err Order)
  | Some cursor =>
      object ← objects !! cursor;
      if Objects.offset object =? 0 then Some (Err Order)
      else
        r ← climb (S cursor) objects cursor minimum parent;
        Some (let? minimum := r in if offset <? minimum then Err Order else Ok tt)
  end.

(** The running state of the loop of [plan]. *)
Record Plan : Type :=
  { pwrites : list PointerWrite; pslots : list FdSlot; last : option nat; last_minimum : Z }.

Definition find_buffer (buffers : list Buffer) (index : Z) : option Buffer :=
  snd <$> list_find (fun b => Z.of_nat (object_index b) = index) buffers.

(** The slots of a non-empty descriptor array. *)
Definition array_slots (rsv : Reserve) (objects : list Object) (index : nat) (parent_buffer : Buffer)
    (count parent parent_offset : Z) : option (result (list FdSlot) Error) :=
  if usize_max / 4 <=? count then Some (Err Bounds)
  else
    match checked_add usize_max parent_offset (count * 4) with
    | None => Some (Err Bounds)
    | Some stop =>
        match get_range (bbytes parent_buffer) parent_offset stop with
        | None => Some (Err Bounds)
        | Some bs =>
            match checked_add usize_max (start (destination parent_buffer)) parent_offset with
            | None => Some (Err Bounds)
            | Some destination =>
                object ← objects !! Z.to_nat parent;
                match fields object with
                | FBuffer _ pointer _ _ _ =>
                    match checked_add u64_max pointer parent_offset with
                    | None => Some (Err Bounds)
                    | Some sender_address =>
                        if negb (destination mod 4 =? 0) || negb (sender_address mod 4 =? 0)
                        then Some (Err Alignment)
                        else if negb (rsv [0%nat]) then Some (Err FOutOfMemory)
                        else Some (Ok
                          ((fun n : nat =>
                              {| slot_object := index;
                                 sdestination := destination + Z.of_nat n * 4;
                                 sender_fd := u32_at bs (n * 4) |}) <$> seq 0 (Z.to_nat count)))
                    end
                | _ => Some (Err Parent)
                end
            end
        end
    end.

(** One descriptor array. *)
Definition plan_array (rsv : Reserve) (objects : list Object) (buffers : list Buffer) (index : nat)
    (st : Plan) (count parent parent_offset : Z) : option (result Plan Error) :=
  if Z.of_nat index <=? parent then Some (Err Parent)
  else
    match find_buffer buffers parent with
    | None => Some (Err Parent)
    | Some parent_buffer =>
        valid ← order_validate objects (last st) (last_minimum st) parent parent_offset;
        match valid with
        | Err e => Some (Err e)
        | Ok _ =>
            slots ← (if negb (count =? 0)
                     then array_slots rsv objects index parent_buffer count parent parent_offset
                     else Some (Ok []));
            Some (let? slots := slots in
                  let? size := ok_or (checked_mul u64_max count 4) Bounds in
                  let? minimum := ok_or (checked_add u64_max parent_offset size) Bounds in
                  Ok {| pwrites := pwrites st; pslots := pslots st ++ slots;
                        last := Some (Z.to_nat parent); last_minimum := minimum |})
        end
    end.

(** The pointer that the parent of a buffer holds to it. *)
Definition plan_parent (rsv : Reserve) (objects : list Object) (buffers : list Buffer) (index : nat)
    (st : Plan) (buffer : Buffer) (parent parent_offset : Z)
    : option (result (list PointerWrite) Error) :=
  if Z.of_nat index <=? parent then Some (Err Parent)
  else
    match find_buffer buffers parent with
    | None => Some (Err Parent)
    | Some parent_buffer =>
        if from_option (fun stop => len (bbytes parent_buffer) <? stop) true
             (checked_add usize_max parent_offset 8)
        then Some (Err Bounds)
        else
          valid ← order_validate objects (last st) (last_minimum st) parent parent_offset;
          Some (let? _ := valid in
                let? _ := ensure (rsv [0%nat]) FOutOfMemory in
                let? destination :=
                  ok_or (checked_add usize_max (start (destination parent_buffer)) parent_offset)
                    Bounds in
                Ok [{| wdestination := destination; pointee := start (ScatterGather.destination buffer) |}])
    end.

(** One buffer object. *)
Definition plan_buffer (rsv : Reserve) (objects : list Object) (buffers : list Buffer) (index : nat)
    (st : Plan) (flags parent parent_offset : Z) : option (result Plan Error) :=
  match find_buffer buffers (Z.of_nat index) with
  | None => Some (Err Parent)
  | Some buffer =>
      to_child ← (if negb (Z.land flags 1 =? 0)
                  then plan_parent rsv objects buffers index st buffer parent parent_offset
                  else Some (Ok []));
      Some (let? to_child := to_child in
            let? _ := ensure (rsv [1%nat]) FOutOfMemory in
            let? own := ok_or (checked_add usize_max (object_offset buffer) 8) Bounds in
            Ok {| pwrites := pwrites st ++ to_child ++
                    [{| wdestination := own; pointee := start (destination buffer) |}];
                  pslots := pslots st; last := Some index; last_minimum := 0 |})
  end.

Fixpoint plan_loop (rsv : Reserve) (objects : list Object) (buffers : list Buffer) (index : nat)
    (st : Plan) (rest : list Object) : option (result Plan Error) :=
  match rest with
  | [] => Some (Ok st)
  | object :: rest =>
      r ← match fields object with
          | FFdArray count parent parent_offset =>
              plan_array (below index rsv) objects buffers index st count parent parent_offset
          | FBuffer flags _ _ parent parent_offset =>
              plan_buffer (below index rsv) objects buffers index st flags parent parent_offset
          | _ => Some (Ok st)
          end;
      match r with
      | Err e => Some (Err e)
      | Ok st => plan_loop rsv objects buffers (S index) st rest
      end
  end.

(** Reservations of [objects] at [[0; _]] and of object [i] at [[1; i; _]]. *)
Definition plan (rsv : Reserve) (capture : ScatterGather) : option (result PointerFixups Error) :=
  match map_err FObjects (objects (below 0 rsv) (snapshot capture)) with
  | Err e => Some (Err e)
  | Ok objs =>
      r ← plan_loop (below 1 rsv) objs (buffers capture) 0
            {| pwrites := []; pslots := []; last := None; last_minimum := 0 |} objs;
      Some (let? st := r in
            Ok {| capture := capture; writes := pwrites st; fd_slots := pslots st |})
  end.

(** ** Specification *)

(** [reaches objs c minimum p m]: climbing from object [c], with [minimum] as its lower bound,
    meets object [p], where fixups may start at [m]. *)
Inductive reaches (objs : list Object) : nat -> Z -> nat -> Z -> Prop :=
| reach_here c minimum : reaches objs c minimum c minimum
| reach_up c minimum p m o flags pointer length next parent_offset :
    c <> p -> objs !! c = Some o -> fields o = FBuffer flags pointer length (Z.of_nat next) parent_offset ->
    Z.land flags 1 <> 0 -> parent_offset + 8 <= u64_max -> (next < c)%nat ->
    reaches objs next (parent_offset + 8) p m ->
    reaches objs c minimum p m.

(** A byte range: its start and its width. *)
Definition region : Type := Z * Z.
Definition apart (a b : region) : Prop := a.1 + a.2 <= b.1 \/ b.1 + b.2 <= a.1.
Definition disjoint_all (l : list region) : Prop := ForallOrdPairs apart l.

(** What a plan writes: eight bytes per pointer and four per descriptor. *)
Definition write_regions (ws : list PointerWrite) : list region := (fun w => (wdestination w, 8)) <$> ws.
Definition slot_regions (ss : list FdSlot) : list region := (fun s => (sdestination s, 4)) <$> ss.
Definition regions (f : PointerFixups) : list region :=
  write_regions (writes f) ++ slot_regions (fd_slots f).

(** ** Lemmas *)

Lemma climb_le fuel objs c minimum p m :
  climb fuel objs c minimum p = Some (Ok m) -> p <= Z.of_nat c.
Proof.
  induction fuel as [|fuel IH] in c, minimum |- *; simpl; [done|].
  destruct (Z.eqb_spec (Z.of_nat c) p); [lia|]. destruct (objs !! c) as [o|]; simpl; [|done].
  destruct (fields o); try done. destruct (_ =? 0); [done|].
  destruct (checked_add _ _ _); [|done]. destruct (Z.leb_spec (Z.of_nat c) parent); [done|].
  intros Hle%IH. lia.
Qed.

(** The parents of objects are read from 64-bit fields. *)
Definition parents_ok (objs : list Object) : Prop :=
  Forall (fun o => match fields o with FBuffer _ _ _ parent _ => 0 <= parent | _ => True end) objs.

Lemma climb_total objs c minimum p :
  parents_ok objs -> (c < length objs)%nat ->
  exists r, climb (S c) objs c minimum p = Some r.
Proof.
  intros Hp Hc. assert (forall fuel, (c < fuel)%nat -> exists r, climb fuel objs c minimum p = Some r) as H;
    [|apply H; lia].
  revert minimum Hc. induction c as [c IH] using lt_wf_ind. intros minimum Hc fuel Hf. destruct fuel as [|fuel]; [lia|]. simpl.
  destruct (_ =? p); [by eauto|]. destruct (lookup_lt_is_Some_2 objs c Hc) as [o Ho]. rewrite Ho. simpl.
  assert (match fields o with FBuffer _ _ _ parent _ => 0 <= parent | _ => True end) as Hpo
    by (unfold parents_ok in Hp; rewrite Forall_forall in Hp; apply Hp; by eapply list_elem_of_lookup_2).
  destruct (fields o) as [| | |flags ? ? parent po|]; eauto. destruct (_ =? 0); [by eauto|].
  destruct (checked_add _ _ _); [|by eauto]. destruct (Z.leb_spec (Z.of_nat c) parent); [by eauto|].
  apply IH; lia.
Qed.

Lemma climb_reaches fuel objs c minimum p m :
  parents_ok objs -> 0 <= p ->
  climb fuel objs c minimum p = Some (Ok m) -> reaches objs c minimum (Z.to_nat p) m.
Proof.
  intros Hp Hp0. induction fuel as [|fuel IH] in c, minimum |- *; simpl; [done|].
  destruct (Z.eqb_spec (Z.of_nat c) p) as [<-|Hne]; [intros [= <-]; rewrite Nat2Z.id; constructor|].
  destruct (objs !! c) as [o|] eqn:Ho; simpl; [|done].
  assert (match fields o with FBuffer _ _ _ parent _ => 0 <= parent | _ => True end) as Hpo
    by (unfold parents_ok in Hp; rewrite Forall_forall in Hp; apply Hp; by eapply list_elem_of_lookup_2).
  destruct (fields o) as [| | |flags ? ? parent po|] eqn:Ef; try done.
  destruct (Z.eqb_spec (Z.land flags 1) 0); [done|].
  destruct (checked_add _ _ _) as [mn|] eqn:Ec; [|done]. apply checked_add_Some in Ec as [-> ?].
  destruct (Z.leb_spec (Z.of_nat c) parent); [done|]. intros Hr%IH.
  eapply reach_up; try done; [lia|by rewrite Z2Nat.id|lia].
Qed.

Lemma reaches_climb objs c minimum p m :
  reaches objs c minimum p m -> forall fuel, (c < fuel)%nat ->
  climb fuel objs c minimum (Z.of_nat p) = Some (Ok m).
Proof.
  induction 1 as [c mn|c mn p m o flags ptr n next po Hne Ho Hf Hfl Hpo Hlt Hr IH]; intros fuel Hfuel;
    (destruct fuel as [|fuel]; [lia|]); simpl.
  - by rewrite Z.eqb_refl.
  - rewrite (proj2 (Z.eqb_neq _ _)) by lia. rewrite Ho. simpl. rewrite Hf.
    rewrite (proj2 (Z.eqb_neq _ _)) by done. rewrite (proj2 (checked_add_Some _ _ _ (po + 8))) by done.
    rewrite (proj2 (Z.leb_gt _ _)) by lia. rewrite Nat2Z.id. apply IH. lia.
Qed.

Lemma reaches_le objs c minimum p m : reaches objs c minimum p m -> (p <= c)%nat.
Proof. induction 1; lia. Qed.

Lemma reaches_fun objs c mn p m m' : reaches objs c mn p m -> reaches objs c mn p m' -> m = m'.
Proof.
  intros H1 H2. apply reaches_climb with (fuel := S c) in H1; [|lia].
  apply reaches_climb with (fuel := S c) in H2; [|lia]. congruence.
Qed.

(** Climbing further: what lies above [p] is seen the same from below it. *)
Lemma reaches_through objs c mn p m mn' q m' :
  reaches objs c mn p m -> reaches objs p mn' q m' -> q <> p -> reaches objs c mn q m'.
Proof.
  intros H Hq Hne. pose proof (reaches_le _ _ _ _ _ Hq) as Hle.
  induction H as [c mn|c mn p m o flags ptr n next po Hcp Ho Hf Hfl Hpo Hlt Hr IH].
  - inversion Hq; subst; [done|]. by eapply reach_up.
  - pose proof (reaches_le _ _ _ _ _ Hr). eapply reach_up; try done; [lia|]. by apply IH.
Qed.

Lemma order_validate_spec objs last minimum p offset :
  parents_ok objs -> 0 <= p -> (forall l, last = Some l -> (l < length objs)%nat) ->
  exists r, order_validate objs last minimum p offset = Some r /\
    (r = Ok tt <->
     exists l o m, last = Some l /\ objs !! l = Some o /\ Objects.offset o <> 0 /\
       reaches objs l minimum (Z.to_nat p) m /\ m <= offset).
Proof.
  intros Hp Hp0 Hl. unfold order_validate.
  destruct last as [l|]; [|eexists; split; [done|]; split; [done|naive_solver]].
  destruct (lookup_lt_is_Some_2 objs l (Hl l eq_refl)) as [o Ho]. rewrite Ho. cbn [mbind option_bind].
  destruct (Z.eqb_spec (Objects.offset o) 0); [eexists; split; [done|]; split; [done|naive_solver]|].
  destruct (climb_total objs l minimum p Hp (Hl l eq_refl)) as [r Hr]. rewrite Hr. cbn [mbind option_bind].
  eexists. split; [done|]. destruct r as [m|e]; cbn.
  - destruct (Z.ltb_spec offset m); (split; [try done|]).
    + intros (l' & o' & m' & [= <-] & _ & _ & Hr' & Hle).
      pose proof (climb_reaches _ _ _ _ _ _ Hp Hp0 Hr) as Hr1.
      rewrite (reaches_fun _ _ _ _ _ _ Hr' Hr1) in Hle. lia.
    + intros _. exists l, o, m. split_and!; try done. by eapply climb_reaches.
    + done.
  - split; [done|]. intros (l' & o' & m' & [= <-] & _ & _ & Hr' & _).
    apply reaches_climb with (fuel := S l) in Hr'; [|lia]. rewrite Z2Nat.id in Hr' by done. congruence.
Qed.

(** *** Regions *)

Lemma apart_sym a b : apart a b -> apart b a.
Proof. unfold apart. tauto. Qed.

Lemma disjoint_all_app l k :
  disjoint_all (l ++ k) <->
  disjoint_all l /\ disjoint_all k /\ forall a b, a ∈ l -> b ∈ k -> apart a b.
Proof.
  unfold disjoint_all. induction l as [|x l IH]; simpl.
  - split; [intros; split_and!; try done; [constructor|by intros ? ? []%not_elem_of_nil]|tauto].
  - split.
    + inversion 1 as [|? ? Hx Hr]; subst. apply IH in Hr as (? & ? & Hc).
      apply Forall_app in Hx as [? Hk]. rewrite Forall_forall in Hk. split_and!; [by constructor|done|].
      intros a b [->|?]%elem_of_cons ?; [by apply Hk|by apply Hc].
    + intros (Hl & ? & Hc). inversion Hl; subst. constructor.
      * apply Forall_app. split; [done|]. apply Forall_forall. intros y ?. apply Hc; [by left|done].
      * apply IH. split_and!; try done. intros a b ??. apply Hc; [by right|done].
Qed.

(** Consecutive elements of one width do not overlap. *)
Lemma array_disjoint d n k :
  0 <= d -> disjoint_all ((fun i : nat => (d + Z.of_nat i * 4, 4)) <$> seq n k).
Proof.
  intros Hd. unfold disjoint_all. induction k as [|k IH] in n |- *; simpl; constructor; [|apply IH].
  apply Forall_forall. intros y (i & -> & Hi)%list_elem_of_fmap. apply elem_of_seq in Hi.
  left. simpl. lia.
Qed.

Lemma write_regions_app a b : write_regions (a ++ b) = write_regions a ++ write_regions b.
Proof. apply fmap_app. Qed.
Lemma slot_regions_app a b : slot_regions (a ++ b) = slot_regions a ++ slot_regions b.
Proof. apply fmap_app. Qed.

(** Adding regions that are apart from each other and from all there are. *)
Lemma disjoint_grow l1 l2 k1 k2 :
  disjoint_all (l1 ++ l2) -> disjoint_all (k1 ++ k2) ->
  (forall a b, a ∈ l1 ++ l2 -> b ∈ k1 ++ k2 -> apart a b) ->
  disjoint_all ((l1 ++ k1) ++ (l2 ++ k2)).
Proof.
  intros Hl Hk Hc. apply disjoint_all_app in Hl as (? & ? & ?). apply disjoint_all_app in Hk as (? & ? & ?).
  rewrite !disjoint_all_app. setoid_rewrite elem_of_app in Hc. setoid_rewrite elem_of_app.
  split_and!; try done; [by eauto|by eauto|].
  intros a b [?|?] [?|?]; eauto using apart_sym.
Qed.

Lemma find_buffer_Some bs p b :
  find_buffer bs p = Some b -> b ∈ bs /\ Z.of_nat (object_index b) = p.
Proof.
  unfold find_buffer. destruct (list_find _ bs) as [[i b']|] eqn:E; simpl; [|done]. intros [= <-].
  apply list_find_Some in E as (Hi & ? & _). split; [by eapply list_elem_of_lookup_2|done].
Qed.

(** [b] precedes [b'] in the objects and in the receive buffer. *)
Definition precedes (b b' : Buffer) : Prop :=
  (object_index b < object_index b')%nat /\ stop (destination b) <= start (destination b').

Lemma laid_out_sorted limit index cursor objs bs :
  laid_out limit index cursor objs bs -> StronglySorted precedes bs.
Proof.
  induction objs as [|o objs IH] in index, cursor, bs |- *; simpl; [intros ->; constructor|].
  destruct (fields o) as [| | |f p n pa po|]; try apply IH.
  intros (b & rest & -> & Hi & _ & Hd & Hn & _ & Hl). constructor; [by eapply IH|].
  apply Forall_forall. intros b' Hb'.
  destruct (laid_out_objects _ _ _ _ _ _ Hl Hb') as (i & ? & ? & ? & ? & ? & ? & Hi' & _ & _ & _ & Hc & _).
  pose proof (round_up8_bounds n). unfold precedes. rewrite Hd, Hi'. simpl. lia.
Qed.

Lemma sorted_lookup {A} (R : A -> A -> Prop) l i j x y :
  StronglySorted R l -> l !! i = Some x -> l !! j = Some y -> (i < j)%nat -> R x y.
Proof.
  intros Hs. induction Hs as [|z l Hl IH Hz] in i, j |- *; [done|]. destruct j as [|j]; [lia|].
  rewrite Forall_forall in Hz. destruct i as [|i]; simpl.
  - intros [= <-] Hy _. apply Hz. by eapply list_elem_of_lookup_2.
  - intros. eapply IH; [done|done|lia].
Qed.

Section plan_ok.
Context (data : bytes) (limit base : Z) (objs : list Object) (bs : list Buffer).
Hypothesis Hobjs : Forall (object_at data) objs.
Hypothesis Hsorted : StronglySorted before objs.
Hypothesis Hlaid : laid_out limit 0 base objs bs.
Hypothesis Hfilled : Forall filled bs.
Hypothesis Hbase : len data <= base.

Lemma object_ok i o : objs !! i = Some o -> object_at data o.
Proof. intros H%list_elem_of_lookup_2. rewrite Forall_forall in Hobjs. by apply Hobjs. Qed.

Lemma parents_are_ok : parents_ok objs.
Proof.
  unfold parents_ok. rewrite Forall_forall in *. intros o Ho.
  destruct (fields o) as [| | |f p n pa po|] eqn:Ef; try done.
  destruct (buffer_fields _ _ _ _ _ _ _ (Hobjs o Ho) Ef) as (_ & _ & _ & _ & [? _] & _). done.
Qed.

Lemma object_in_data i o : objs !! i = Some o -> kind o = Objects.Buffer ->
  0 <= offset o /\ offset o + 16 <= len data.
Proof.
  intros (? & _ & _ & Hg & _)%object_ok Hk. apply get_range_Some in Hg as (? & ? & _).
  rewrite Hk in *. simpl in *. lia.
Qed.

Lemma found_buffer p b :
  find_buffer bs p = Some b ->
  exists o f ptr pa po, Z.of_nat (object_index b) = p /\ objs !! object_index b = Some o /\
    fields o = FBuffer f ptr (len (bbytes b)) pa po /\ object_offset b = offset o /\
    kind o = Objects.Buffer /\ base <= start (destination b) /\
    stop (destination b) = start (destination b) + len (bbytes b) /\
    stop (destination b) <= limit.
Proof.
  intros [Hb Hp]%find_buffer_Some.
  destruct (laid_out_objects _ _ _ _ _ _ Hlaid Hb) as (i & o & f & ptr & n & pa & po & Hi & Ho & Hf & Hof & Hs & He & Hn & Hlim).
  pose proof (round_up8_bounds n). rewrite Forall_forall in Hfilled. pose proof (Hfilled _ Hb) as Hfb.
  unfold filled, range_len in Hfb. assert (n = len (bbytes b)) as -> by lia.
  simpl in Hi. subst i. destruct (buffer_fields _ _ _ _ _ _ _ (object_ok _ _ Ho) Hf) as [? _].
  exists o, f, ptr, pa, po. split_and!; try done; lia.
Qed.

Lemma found_apart p p' b b' :
  find_buffer bs p = Some b -> find_buffer bs p' = Some b' -> p <> p' ->
  stop (destination b) <= start (destination b') \/ stop (destination b') <= start (destination b).
Proof.
  intros [Hb Hp]%find_buffer_Some [Hb' Hp']%find_buffer_Some Hne.
  destruct (sorted_pair _ _ _ _ (laid_out_sorted _ _ _ _ _ Hlaid) Hb Hb') as [->|[[_ ?]|[_ ?]]]; [lia|tauto..].
Qed.

(** Where a planned write may be: the pointer field of a buffer object, or inside a buffer. *)
Definition placed (index : nat) (r : region) : Prop :=
  0 < r.2 /\
  ((exists i o, (i < index)%nat /\ objs !! i = Some o /\ kind o = Objects.Buffer /\
      r = (offset o + 8, 8)) \/
   (exists p b, (p < index)%nat /\ find_buffer bs (Z.of_nat p) = Some b /\
      start (destination b) <= r.1 /\ r.1 + r.2 <= stop (destination b))).

Definition plan_regions (st : Plan) : list region :=
  write_regions (pwrites st) ++ slot_regions (pslots st).

Definition slot_ok (s : FdSlot) : Prop :=
  sdestination s mod 4 = 0 /\
  exists b, b ∈ bs /\ start (destination b) <= sdestination s /\
    sdestination s + 4 <= stop (destination b) /\
    sender_fd s = u32_at (bbytes b) (Z.to_nat (sdestination s - start (destination b))).

Record plan_ok (index : nat) (st : Plan) : Prop := {
  po_placed r : r ∈ plan_regions st -> placed index r;
  po_disjoint : disjoint_all (plan_regions st);
  po_last l : last st = Some l -> (l < index)%nat;
  po_chain l p m b r :
    last st = Some l -> reaches objs l (last_minimum st) p m ->
    find_buffer bs (Z.of_nat p) = Some b -> r ∈ plan_regions st ->
    start (destination b) <= r.1 < stop (destination b) -> r.1 + r.2 <= start (destination b) + m;
  po_pointees w : w ∈ pwrites st -> exists b, b ∈ bs /\ pointee w = start (destination b);
  po_slots s : s ∈ pslots st -> slot_ok s }.

(** A new write in a buffer at or after the minimum is apart from all earlier ones. *)
Lemma new_inside index st l p m b o k r :
  plan_ok index st -> last st = Some l -> reaches objs l (last_minimum st) p m -> m <= o ->
  0 <= o -> find_buffer bs (Z.of_nat p) = Some b -> start (destination b) + o <= k.1 ->
  k.1 + k.2 <= stop (destination b) -> r ∈ plan_regions st -> apart r k.
Proof.
  intros Hst Hl Hr Hm Ho Hb Hk1 Hk2 Hin. destruct (found_buffer _ _ Hb) as (? & ? & ? & ? & ? & _ & _ & _ & _ & _ & Hs & _).
  destruct (po_placed _ _ Hst _ Hin) as [Hw [(i & oi & Hi & Hoi & Hki & ->)|(p' & b' & Hp' & Hb' & Hr1 & Hr2)]].
  - left. simpl. destruct (object_in_data _ _ Hoi Hki). lia.
  - destruct (decide (p' = p)) as [->|Hne].
    + rewrite Hb in Hb'. simplify_eq. left. pose proof (po_chain _ _ Hst _ _ _ _ _ Hl Hr Hb Hin). lia.
    + destruct (found_apart _ _ _ _ Hb Hb' ltac:(lia)); [right|left]; lia.
Qed.

Lemma new_own index st o r :
  plan_ok index st -> objs !! index = Some o -> kind o = Objects.Buffer ->
  r ∈ plan_regions st -> apart r (offset o + 8, 8).
Proof.
  intros Hst Ho Hk Hin. destruct (object_in_data _ _ Ho Hk).
  destruct (po_placed _ _ Hst _ Hin) as [Hw [(i & oi & Hi & Hoi & Hki & ->)|(p' & b' & Hp' & Hb' & Hr1 & Hr2)]].
  - left. simpl. pose proof (sorted_lookup _ _ _ _ _ _ Hsorted Hoi Ho Hi) as Hb.
    unfold before in Hb. rewrite Hki in Hb. simpl in Hb. lia.
  - right. simpl. destruct (found_buffer _ _ Hb') as (? & ? & ? & ? & ? & _ & _ & _ & _ & _ & Hs & _). lia.
Qed.

Lemma placed_mono index index' r : (index <= index')%nat -> placed index r -> placed index' r.
Proof.
  intros Hle [Hw [(i & o & ? & ?)|(p & b & ? & ?)]]; (split; [done|]); [left; exists i, o|right; exists p, b];
    split; try done; lia.
Qed.

Lemma plan_ok_skip index st : plan_ok index st -> plan_ok (S index) st.
Proof.
  intros Hst. split; try apply Hst.
  - intros r Hr. eapply placed_mono; [|by eapply po_placed]. lia.
  - intros l Hl. pose proof (po_last _ _ Hst l Hl). lia.
Qed.

(** Extending the plan with writes, slots and a new end of the chain. *)
Definition extend (st : Plan) (ws : list PointerWrite) (ss : list FdSlot) (l : nat) (m : Z) : Plan :=
  {| pwrites := pwrites st ++ ws; pslots := pslots st ++ ss; last := Some l; last_minimum := m |}.

Lemma plan_ok_extend index st ws ss l m :
  plan_ok index st -> (l <= index)%nat ->
  disjoint_all (write_regions ws ++ slot_regions ss) ->
  (forall k, k ∈ write_regions ws ++ slot_regions ss ->
     placed (S index) k /\ forall r, r ∈ plan_regions st -> apart r k) ->
  (forall p m' b r, reaches objs l m p m' -> find_buffer bs (Z.of_nat p) = Some b ->
     r ∈ plan_regions st \/ r ∈ write_regions ws ++ slot_regions ss ->
     start (destination b) <= r.1 < stop (destination b) -> r.1 + r.2 <= start (destination b) + m') ->
  (forall w, w ∈ ws -> exists b, b ∈ bs /\ pointee w = start (destination b)) ->
  (forall s, s ∈ ss -> slot_ok s) ->
  plan_ok (S index) (extend st ws ss l m).
Proof.
  intros Hst Hl Hd Hnew Hchain Hw Hs.
  assert (forall r, r ∈ plan_regions (extend st ws ss l m) <->
            r ∈ plan_regions st \/ r ∈ write_regions ws ++ slot_regions ss) as Hin.
  { intros r. unfold plan_regions, extend; simpl. rewrite write_regions_app, slot_regions_app, !elem_of_app. tauto. }
  split.
  - intros r [Hr|Hr]%Hin; [|by apply Hnew]. eapply placed_mono; [|by eapply po_placed]. lia.
  - unfold plan_regions, extend; simpl. rewrite write_regions_app, slot_regions_app.
    apply disjoint_grow; [apply Hst|done|]. intros a b Ha Hb. by apply (Hnew b Hb).
  - simpl. intros ? [= <-]. lia.
  - simpl. intros ? p m' b r [= <-] Hr Hb Hi%Hin Hrange. by eapply Hchain.
  - simpl. intros w [?|?]%elem_of_app; [by apply (po_pointees _ _ Hst)|by apply Hw].
  - simpl. intros s [?|?]%elem_of_app; [by apply (po_slots _ _ Hst)|by apply Hs].
Qed.

(** The end of the chain moves to [p], where the new writes are below [m]. *)
Lemma chain_moves index st l p m0 o m b k p' m' b' r :
  plan_ok index st -> last st = Some l -> reaches objs l (last_minimum st) p m0 -> m0 <= o -> o <= m ->
  find_buffer bs (Z.of_nat p) = Some b ->
  reaches objs p m p' m' -> find_buffer bs (Z.of_nat p') = Some b' ->
  (r ∈ plan_regions st \/
   (r = k /\ 0 < k.2 /\ start (destination b) <= k.1 /\ k.1 + k.2 <= stop (destination b) /\
    k.1 + k.2 <= start (destination b) + m)) ->
  start (destination b') <= r.1 < stop (destination b') -> r.1 + r.2 <= start (destination b') + m'.
Proof.
  intros Hst Hl Hr Hm0 Hm Hb Hr' Hb' Hin Hrange. destruct (decide (p' = p)) as [->|Hne].
  - rewrite Hb in Hb'. simplify_eq. rewrite (reaches_fun _ _ _ _ _ _ Hr' (reach_here _ _ _)).
    destruct Hin as [Hin|(-> & ? & ? & ? & ?)]; [|lia].
    pose proof (po_chain _ _ Hst _ _ _ _ _ Hl Hr Hb Hin Hrange). lia.
  - destruct Hin as [Hin|(-> & ? & ? & ? & ?)].
    + eapply (po_chain _ _ Hst); try done. by eapply reaches_through.
    + destruct (found_apart _ _ _ _ Hb Hb' ltac:(lia)); lia.
Qed.

Lemma array_slots_spec rsv index b count p po :
  find_buffer bs (Z.of_nat p) = Some b -> 0 < count -> 0 <= po ->
  exists r, array_slots rsv objs index b count (Z.of_nat p) po = Some r /\
    forall slots, r = Ok slots ->
      po + count * 4 <= len (bbytes b) /\ (start (destination b) + po) mod 4 = 0 /\
      slots = (fun n : nat =>
        {| slot_object := index; sdestination := start (destination b) + po + Z.of_nat n * 4;
           sender_fd := u32_at (slice (bbytes b) (Z.to_nat po) (Z.to_nat (po + count * 4))) (n * 4) |})
        <$> seq 0 (Z.to_nat count).
Proof.
  intros Hb Hc Hpo. destruct (found_buffer _ _ Hb) as (o & f & ptr & pa & po' & Hi & Ho & Hf & _).
  assert (object_index b = p) as <- by lia. unfold array_slots. rewrite Nat2Z.id, Ho.
  destruct (_ <=? count); [eexists; split; [done|]; done|].
  destruct (checked_add usize_max po _) as [stop|] eqn:E1; [|eexists; split; [done|]; done].
  apply checked_add_Some in E1 as [-> _].
  destruct (get_range _ _ _) as [bytes|] eqn:Eg; [|eexists; split; [done|]; done].
  destruct (checked_add usize_max (start _) _) as [d|] eqn:E2; [|eexists; split; [done|]; done].
  apply checked_add_Some in E2 as [-> _]. cbn [mbind option_bind]. rewrite Hf.
  destruct (checked_add u64_max _ _) as [sa|]; [|eexists; split; [done|]; done].
  destruct (Z.eqb_spec ((start (destination b) + po) mod 4) 0); simpl;
    [|eexists; split; [done|]; done].
  destruct (negb _); [eexists; split; [done|]; done|].
  destruct (rsv _); simpl; (eexists; split; [done|]); [|done]. intros slots [= <-].
  pose proof (proj1 (get_range_Some _ _ _ _) Eg) as (? & Hle & ->). split_and!; [done|done|].
  apply list_fmap_ext. intros i n _. by rewrite slice_def, Z2Nat.inj_sub by lia.
Qed.

(** The slot regions of an array. *)
Lemma array_regions index d (count : nat) (fd : nat -> Z) :
  slot_regions ((fun n : nat => {| slot_object := index; sdestination := d + Z.of_nat n * 4;
                                   sender_fd := fd n |}) <$> seq 0 count) =
  (fun n : nat => (d + Z.of_nat n * 4, 4)) <$> seq 0 count.
Proof. unfold slot_regions. by rewrite <- list_fmap_compose. Qed.

Lemma u32_at_slice (l : bytes) a b k :
  (a + k + 4 <= b)%nat -> (b <= length l)%nat -> u32_at (slice l a b) k = u32_at l (a + k).
Proof.
  intros Hk Hb. change (from_le (slice (slice l a b) k (k + 4)) = from_le (slice l (a + k) (a + k + 4))).
  f_equal. rewrite !slice_def, skipn_firstn_comm, take_take, drop_drop. f_equal; lia.
Qed.

(** The slots of an array lie in its parent buffer, one after the other. *)
Lemma array_slots_ok rsv index b count p po :
  find_buffer bs (Z.of_nat p) = Some b -> 0 <= count -> 0 <= po ->
  exists r, (if negb (count =? 0) then array_slots rsv objs index b count (Z.of_nat p) po
             else Some (Ok [])) = Some r /\
    forall slots, r = Ok slots ->
      disjoint_all (slot_regions slots) /\
      (forall k, k ∈ slot_regions slots -> k.2 = 4 /\ start (destination b) + po <= k.1 /\
         k.1 + 4 <= stop (destination b) /\ k.1 + 4 <= start (destination b) + po + count * 4) /\
      (forall s, s ∈ slots -> slot_ok s).
Proof.
  intros Hb Hc Hpo. destruct (Z.eqb_spec count 0) as [Hz|Hz]; simpl.
  - eexists. split; [done|]. intros ? [= <-]. split; [constructor|].
    split; by intros ? []%not_elem_of_nil.
  - destruct (array_slots_spec rsv index b count p po Hb ltac:(lia) Hpo) as (r & -> & Hs).
    eexists. split; [done|]. intros slots Hok. destruct (Hs slots Hok) as (Hle & Hal & ->).
    destruct (found_buffer _ _ Hb) as (? & ? & ? & ? & ? & _ & _ & _ & _ & _ & Hbase' & Hstop & _).
    pose proof (len_nonneg data). split_and!.
    + rewrite array_regions. apply array_disjoint. lia.
    + rewrite array_regions. intros k (n & -> & Hn%elem_of_seq)%list_elem_of_fmap. simpl. lia.
    + intros s (n & -> & Hn%elem_of_seq)%list_elem_of_fmap. split; [simpl; mod_lia|].
      exists b. simpl. split_and!; [by apply find_buffer_Some in Hb as [? _]|lia|lia|].
      rewrite u32_at_slice by (unfold len in Hle; lia). f_equal. lia.
Qed.

Lemma plan_array_ok rsv index st count parent po :
  plan_ok index st -> (index < length objs)%nat -> 0 <= count -> 0 <= parent -> 0 <= po ->
  exists r, plan_array rsv objs bs index st count parent po = Some r /\
    forall st', r = Ok st' -> plan_ok (S index) st'.
Proof.
  intros Hst Hindex Hc Hp Hpo. unfold plan_array.
  destruct (Z.leb_spec (Z.of_nat index) parent) as [|Hlt]; [eexists; split; [done|]; done|].
  destruct (find_buffer bs parent) as [b|] eqn:Hb; [|eexists; split; [done|]; done].
  destruct (order_validate_spec objs (last st) (last_minimum st) parent po parents_are_ok Hp) as (v & -> & Hv).
  { intros l Hl. pose proof (po_last _ _ Hst l Hl). lia. }
  cbn [mbind option_bind]. destruct v as [[]|e]; [|eexists; split; [done|]; done].
  destruct (proj1 Hv eq_refl) as (l & o & m & Hl & Ho & _ & Hr & Hm). clear Hv.
  rewrite <- (Z2Nat.id parent) in Hb |- * by done. set (p := Z.to_nat parent) in *. rewrite Nat2Z.id.
  destruct (array_slots_ok rsv index b count p po Hb Hc Hpo) as (r & -> & Hslots).
  cbn [mbind option_bind]. eexists. split; [done|]. intros st'. destruct r as [slots|]; simpl; [|done].
  destruct (checked_mul _ _ _) as [sz|] eqn:E1; simpl; [|done]. apply checked_mul_Some in E1 as [-> _].
  destruct (checked_add _ _ _) as [mn|] eqn:E2; simpl; [|done]. apply checked_add_Some in E2 as [-> _].
  intros [= <-]. destruct (Hslots _ eq_refl) as (Hd & Hk & Hso).
  pose proof (plan_ok_extend index st [] slots p (po + count * 4)) as Hext.
  unfold extend in Hext. rewrite app_nil_r in Hext. apply Hext; simpl; try done; [lia| | |].
  - intros k Hin. destruct (Hk k Hin) as (Hw & H1 & H2 & H3). split.
    + split; [lia|]. right. exists p, b. split_and!; [lia|done|lia|lia].
    + intros r Hr'. eapply (new_inside index st l p m b po); try done; lia.
  - intros p' m' b' r Hr' Hb' Hin Hrange.
    eapply (chain_moves index st l p m po (po + count * 4) b r p' m' b'); try done; [lia|].
    destruct Hin as [?|Hin]; [by left|]. destruct (Hk r Hin) as (? & ? & ? & ?). right. split_and!; try done; lia.
  - by intros w []%not_elem_of_nil.
Qed.

Lemma plan_parent_ok rsv index st buffer parent po :
  plan_ok index st -> (index < length objs)%nat -> 0 <= parent -> 0 <= po ->
  exists r, plan_parent rsv objs bs index st buffer parent po = Some r /\
    forall ws, r = Ok ws ->
      exists l p m b, last st = Some l /\ Z.of_nat p = parent /\ (p < index)%nat /\
        reaches objs l (last_minimum st) p m /\ m <= po /\ find_buffer bs (Z.of_nat p) = Some b /\
        po + 8 <= len (bbytes b) /\
        ws = [{| wdestination := start (destination b) + po;
                 pointee := start (destination buffer) |}].
Proof.
  intros Hst Hindex Hp Hpo. unfold plan_parent.
  destruct (Z.leb_spec (Z.of_nat index) parent) as [|Hlt]; [eexists; split; [done|]; done|].
  destruct (find_buffer bs parent) as [b|] eqn:Hb; [|eexists; split; [done|]; done].
  destruct (checked_add usize_max po 8) as [stop|] eqn:E1; cbn [from_option]; [|eexists; split; [done|]; done].
  apply checked_add_Some in E1 as [-> _].
  destruct (Z.ltb_spec (len (bbytes b)) (po + 8)); [eexists; split; [done|]; done|].
  destruct (order_validate_spec objs (last st) (last_minimum st) parent po parents_are_ok Hp) as (v & -> & Hv).
  { intros l Hl. pose proof (po_last _ _ Hst l Hl). lia. }
  cbn [mbind option_bind]. eexists. split; [done|]. intros ws. destruct v as [[]|]; simpl; [|done].
  destruct (rsv _); simpl; [|done].
  destruct (checked_add _ _ _) as [d|] eqn:E2; simpl; [|done]. apply checked_add_Some in E2 as [-> _].
  intros [= <-]. destruct (proj1 Hv eq_refl) as (l & o & m & Hl & Ho & _ & Hr & Hm).
  exists l, (Z.to_nat parent), m, b. rewrite Z2Nat.id by done. split_and!; try done. lia.
Qed.

(** No write is in the buffer of an object that is not planned yet. *)
Lemma later_buffer_empty index st b r :
  plan_ok index st -> find_buffer bs (Z.of_nat index) = Some b -> r ∈ plan_regions st ->
  ~ start (destination b) <= r.1 < stop (destination b).
Proof.
  intros Hst Hb Hin. destruct (found_buffer _ _ Hb) as (? & ? & ? & ? & ? & _ & _ & _ & _ & _ & Hs & _).
  destruct (po_placed _ _ Hst _ Hin) as [Hw [(i & oi & Hi & Hoi & Hki & ->)|(p' & b' & Hp' & Hb' & Hr1 & Hr2)]].
  - destruct (object_in_data _ _ Hoi Hki). simpl. lia.
  - destruct (found_apart _ _ _ _ Hb Hb' ltac:(lia)); lia.
Qed.

Lemma reaches_inv c mn p m o flags ptr n parent po :
  reaches objs c mn p m -> objs !! c = Some o -> fields o = FBuffer flags ptr n parent po ->
  (p = c /\ m = mn) \/
  (Z.land flags 1 <> 0 /\ exists next, parent = Z.of_nat next /\ reaches objs next (po + 8) p m).
Proof.
  intros Hr Ho Hf. inversion Hr as [|? ? ? ? o' ? ? ? next ? ? Ho' Hf']; simplify_eq;
    [by left|].
  rewrite Hf in Hf'. simplify_eq. right. split; [done|]. by exists next.
Qed.

(** The pointer field of an object is in no buffer. *)
Lemma own_outside i o p b :
  objs !! i = Some o -> kind o = Objects.Buffer -> find_buffer bs p = Some b ->
  ~ start (destination b) <= offset o + 8 < stop (destination b).
Proof.
  intros Ho Hk (? & ? & ? & ? & ? & _ & _ & _ & _ & _ & ? & _)%found_buffer.
  destruct (object_in_data _ _ Ho Hk). lia.
Qed.

Definition own_write (o : Object) (b : Buffer) : PointerWrite :=
  {| wdestination := offset o + 8; pointee := start (destination b) |}.

Lemma own_placed index o :
  objs !! index = Some o -> kind o = Objects.Buffer -> placed (S index) (offset o + 8, 8).
Proof. intros Ho Hk. split; [simpl; lia|]. left. exists index, o. split_and!; try done. lia. Qed.

(** A buffer object without a parent. *)
Lemma plan_ok_root index st o b flags ptr n parent po :
  plan_ok index st -> objs !! index = Some o -> fields o = FBuffer flags ptr n parent po ->
  kind o = Objects.Buffer -> find_buffer bs (Z.of_nat index) = Some b -> Z.land flags 1 = 0 ->
  plan_ok (S index) (extend st [own_write o b] [] index 0).
Proof.
  intros Hst Ho Hf Hk Hb Hz. apply plan_ok_extend; simpl; try done.
  - repeat constructor.
  - intros k ->%list_elem_of_singleton. split; [by apply own_placed|intros r Hr; by eapply new_own].
  - intros p m b' r Hr Hb' Hin Hrange.
    destruct (reaches_inv _ _ _ _ _ _ _ _ _ _ Hr Ho Hf) as [[-> ->]|[? _]]; [|done].
    rewrite Hb in Hb'. simplify_eq.
    destruct Hin as [Hin| ->%list_elem_of_singleton];
      [by destruct (later_buffer_empty _ _ _ _ Hst Hb Hin)|by destruct (own_outside _ _ _ _ Ho Hk Hb)].
  - intros w ->%list_elem_of_singleton. exists b. by apply find_buffer_Some in Hb as [? _].
  - by intros s []%not_elem_of_nil.
Qed.

(** A buffer object whose parent points to it. *)
Lemma plan_ok_child index st o b flags ptr n parent po l p m bp :
  plan_ok index st -> objs !! index = Some o -> fields o = FBuffer flags ptr n parent po ->
  kind o = Objects.Buffer -> find_buffer bs (Z.of_nat index) = Some b -> 0 <= po ->
  last st = Some l -> Z.of_nat p = parent -> (p < index)%nat ->
  reaches objs l (last_minimum st) p m -> m <= po -> find_buffer bs (Z.of_nat p) = Some bp ->
  po + 8 <= len (bbytes bp) ->
  plan_ok (S index)
    (extend st [{| wdestination := start (destination bp) + po; pointee := start (destination b) |};
                own_write o b] [] index 0).
Proof.
  intros Hst Ho Hf Hk Hb Hpo Hl Hp Hlt Hreach Hm Hbp Hfit.
  destruct (found_buffer _ _ Hbp) as (? & ? & ? & ? & ? & _ & _ & _ & _ & _ & Hbps & Hstop & _).
  destruct (object_in_data _ _ Ho Hk) as [Hd0 Hd1]. set (w := (start (destination bp) + po, 8)).
  apply plan_ok_extend; simpl; try done.
  - constructor; [constructor; [right; simpl; lia|constructor]|repeat constructor].
  - intros k [->| ->%list_elem_of_singleton]%elem_of_cons; simpl.
    + split; [|intros r Hin; eapply (new_inside index st l p m bp po w); try done; simpl; lia].
      split; [simpl; lia|]. right. exists p, bp. simpl. split_and!; try done; lia.
    + split; [by apply own_placed|intros r Hin; by eapply new_own].
  - intros p' m' b' r Hr' Hb' Hin Hrange.
    destruct (reaches_inv _ _ _ _ _ _ _ _ _ _ Hr' Ho Hf) as [[-> ->]|[_ (next & Hnext & Hup)]].
    + rewrite Hb in Hb'. simplify_eq. destruct Hin as [Hin|[->| ->%list_elem_of_singleton]%elem_of_cons];
        [by destruct (later_buffer_empty _ _ _ _ Hst Hb Hin)| |by destruct (own_outside _ _ _ _ Ho Hk Hb)].
      simpl in Hrange. destruct (found_apart _ _ _ _ Hb Hbp ltac:(lia)); lia.
    + assert (next = p) as -> by lia.
      destruct Hin as [Hin|[->| ->%list_elem_of_singleton]%elem_of_cons];
        [| |by destruct (own_outside _ _ _ _ Ho Hk Hb')].
      * eapply (chain_moves index st l p m po (po + 8) bp r p' m' b'); try done; [lia|by left].
      * eapply (chain_moves index st l p m po (po + 8) bp w p' m' b'); try done; [lia|].
        right. simpl. split_and!; try done; lia.
  - apply find_buffer_Some in Hb as [? _]. intros w' [->| ->%list_elem_of_singleton]%elem_of_cons; by exists b.
  - by intros s []%not_elem_of_nil.
Qed.

Lemma plan_buffer_ok rsv index st o flags ptr n parent po :
  plan_ok index st -> objs !! index = Some o -> fields o = FBuffer flags ptr n parent po ->
  exists r, plan_buffer rsv objs bs index st flags parent po = Some r /\
    forall st', r = Ok st' -> plan_ok (S index) st'.
Proof.
  intros Hst Ho Hf. pose proof (lookup_lt_Some _ _ _ Ho) as Hindex.
  destruct (buffer_fields _ _ _ _ _ _ _ (object_ok _ _ Ho) Hf) as (Hk & _ & _ & _ & [Hpa _] & [Hpo _]).
  unfold plan_buffer. destruct (find_buffer bs (Z.of_nat index)) as [b|] eqn:Hb; [|eexists; split; [done|]; done].
  destruct (found_buffer _ _ Hb) as (o' & ? & ? & ? & ? & Hi & Ho' & _ & Hoff & _).
  assert (o' = o) as -> by (replace (object_index b) with index in Ho' by lia; congruence).
  destruct (Z.eqb_spec (Z.land flags 1) 0) as [Hz|Hz]; simpl.
  - eexists. split; [done|]. intros st'. destruct (rsv _); simpl; [|done].
    destruct (checked_add _ _ _) as [d|] eqn:E; simpl; [|done]. apply checked_add_Some in E as [-> _].
    intros [= <-]. rewrite Hoff. pose proof (plan_ok_root _ _ _ _ _ _ _ _ _ Hst Ho Hf Hk Hb Hz) as Hext.
    unfold extend in Hext. by rewrite app_nil_r in Hext.
  - destruct (plan_parent_ok rsv index st b parent po Hst Hindex Hpa Hpo) as (r & -> & Hr).
    cbn [mbind option_bind]. eexists. split; [done|]. intros st'.
    destruct r as [ws|]; simpl; [|done]. destruct (rsv _); simpl; [|done].
    destruct (checked_add _ _ _) as [d|] eqn:E; simpl; [|done]. apply checked_add_Some in E as [-> _].
    intros [= <-]. rewrite Hoff.
    destruct (Hr _ eq_refl) as (l & p & m & bp & Hl & Hp & Hlt & Hreach & Hm & Hbp & Hfit & ->).
    pose proof (plan_ok_child _ _ _ _ _ _ _ _ _ _ _ _ _ Hst Ho Hf Hk Hb Hpo Hl Hp Hlt Hreach Hm Hbp Hfit) as Hext.
    unfold extend in Hext. by rewrite app_nil_r in Hext.
Qed.

Lemma array_fields i o count parent po :
  objs !! i = Some o -> fields o = FFdArray count parent po -> 0 <= count /\ 0 <= parent /\ 0 <= po.
Proof.
  intros Ho%object_ok. pose proof (object_at_length _ _ Ho) as Hl. unfold fields.
  destruct (kind o) eqn:Ek; try done. intros [= <- <- <-]. simpl in Hl. unfold len in Hl.
  split_and!; apply u64_at_range; lia.
Qed.

Lemma plan_loop_ok rsv index st rest :
  plan_ok index st -> drop index objs = rest ->
  exists r, plan_loop rsv objs bs index st rest = Some r /\
    forall st', r = Ok st' -> exists n, plan_ok n st'.
Proof.
  induction rest as [|o rest IH] in index, st |- *; intros Hst Hd; simpl.
  { eexists. split; [done|]. intros ? [= <-]. by exists index. }
  assert (objs !! index = Some o) as Ho.
  { rewrite <- (Nat.add_0_r index), <- lookup_drop, Hd. done. }
  assert (drop (S index) objs = rest) as Hd' by (rewrite <- Nat.add_1_r, <- drop_drop, Hd; done).
  assert (exists r, match fields o with
      | FFdArray count parent po => plan_array (below index rsv) objs bs index st count parent po
      | FBuffer flags _ _ parent po => plan_buffer (below index rsv) objs bs index st flags parent po
      | _ => Some (Ok st)
      end = Some r /\ forall st', r = Ok st' -> plan_ok (S index) st') as (r & Hr & Hok).
  { destruct (fields o) as [| | |flags ptr n parent po|count parent po] eqn:Ef;
      try (eexists; split; [done|]; intros ? [= <-]; by apply plan_ok_skip).
    - by eapply plan_buffer_ok.
    - destruct (array_fields _ _ _ _ _ Ho Ef) as (? & ? & ?). pose proof (lookup_lt_Some _ _ _ Ho).
      by apply plan_array_ok. }
  destruct (fields o); simpl in Hr |- *; rewrite ?Hr; simplify_eq; cbn [mbind option_bind];
    (destruct r as [st1|] || idtac); try (eexists; split; [done|]; done); eauto.
Qed.
End plan_ok.

(** ** Properties *)

(** Validation of a fixup's order always ends without a panic, whatever the parents of the
    objects are, and accepts exactly a fixup into an object that climbing from the last one
    meets, at or after the end of what that object already holds. *)
Theorem fixup_order_exact objs last minimum parent offset :
  parents_ok objs -> 0 <= parent -> (forall l, last = Some l -> (l < length objs)%nat) ->
  exists r, order_validate objs last minimum parent offset = Some r /\
    (r = Ok tt <->
     exists l o m, last = Some l /\ objs !! l = Some o /\ Objects.offset o <> 0 /\
       reaches objs l minimum (Z.to_nat parent) m /\ m <= offset).
Proof. apply order_validate_spec. Qed.

Lemma snapshot_sections rsv data offsets extra_size s :
  TransactionSnapshot.capture rsv data offsets extra_size = Ok s -> 0 <= extra_size ->
  len (sdata s) <= start (extra (slayout s)) /\ stop (extra (slayout s)) <= total (slayout s).
Proof.
  intros (-> & _ & _ & Hn & _)%capture_Ok He.
  apply new_layout_ok in Hn as (H1 & H2 & H3 & ? & ? & ? & ? & _); [|apply len_nonneg..|done].
  pose proof (len_nonneg offsets). unfold range_len in *. lia.
Qed.

Lemma range_of_extra rsv data offsets extra_size s :
  TransactionSnapshot.capture rsv data offsets extra_size = Ok s -> 0 <= extra_size ->
  start (extra (slayout s)) <= stop (extra (slayout s)) <= total (slayout s).
Proof.
  intros (_ & _ & _ & Hn & _)%capture_Ok He.
  apply new_layout_ok in Hn as (_ & _ & H3 & _ & _ & _ & H7 & _); [|apply len_nonneg..|done].
  unfold range_len in *. lia.
Qed.

Lemma validate_fun rsv rsv' data offsets objs objs' :
  validate rsv data offsets = Ok objs -> validate rsv' data offsets = Ok objs' -> objs = objs'.
Proof. intros H%validate_again H'%validate_again. congruence. Qed.

Lemma empty_plan_ok objs bs : plan_ok objs bs 0 {| pwrites := []; pslots := []; last := None; last_minimum := 0 |}.
Proof.
  split; try done; simpl; try (by intros ? []%not_elem_of_nil). constructor.
Qed.

(** What an accepted plan of a captured transaction satisfies. *)
Lemma plan_sound {E} (copy : nat -> Z -> bytes -> result bytes E) rsv0 rsv1 rsv2
    data offsets extra_size s sg :
  (forall i p buf bs, copy i p buf = Ok bs -> length bs = length buf) -> 0 <= extra_size ->
  TransactionSnapshot.capture rsv0 data offsets extra_size = Ok s ->
  capture_with copy rsv1 s = Some (Ok sg) ->
  exists r, plan rsv2 sg = Some r /\
    forall f, r = Ok f ->
      disjoint_all (regions f) /\
      Forall (fun r => 0 <= r.1 /\ r.1 + r.2 <= total (slayout s)) (regions f) /\
      Forall (fun w => exists b, b ∈ buffers sg /\ pointee w = start (destination b)) (writes f) /\
      Forall (slot_ok (buffers sg)) (fd_slots f).
Proof.
  intros Hcopy He Hs Hsg. destruct (snapshot_sections _ _ _ _ _ Hs He) as [Hbase Htotal].
  destruct (capture_with_sound copy Hcopy rsv1 s) as (r1 & Hr1 & Hsound). rewrite Hsg in Hr1.
  simplify_eq. destruct (Hsound _ eq_refl) as (<- & objs & Hv & Hlaid & Hfill).
  unfold plan, objects. simpl. destruct (validate (below 0 rsv2) _ _) as [objs'|] eqn:Hv2; simpl;
    [|eexists; split; [done|]; done].
  rewrite (validate_fun _ _ _ _ _ _ Hv2 Hv) in *. apply validate_Ok in Hv as (_ & Hobjs & Hsorted & _).
  destruct (plan_loop_ok _ _ _ _ _ Hobjs Hsorted Hlaid Hfill Hbase (below 1 rsv2) 0 _ objs
              (empty_plan_ok _ _) (drop_0 _)) as (r & -> & Hr).
  simpl. eexists. split; [done|]. intros f. destruct r as [st|]; simpl; [|done]. intros [= <-].
  destruct (Hr _ eq_refl) as [n Hok]. unfold regions. simpl. split_and!.
  - apply Hok.
  - apply Forall_forall. intros k Hk. destruct (po_placed _ _ _ _ Hok k Hk) as [Hw [(i & o & _ & Ho & Hko & ->)|(p & b & _ & Hb & ? & ?)]].
    + destruct (object_in_data _ _ Hobjs _ _ Ho Hko). simpl. pose proof (len_nonneg (sdata (snapshot sg))).
      destruct (range_of_extra _ _ _ _ _ Hs He). lia.
    + destruct (found_buffer _ _ _ _ _ Hobjs Hlaid Hfill _ _ Hb) as (? & ? & ? & ? & ? & _ & _ & _ & _ & _ & ? & ? & ?).
      pose proof (len_nonneg (sdata (snapshot sg))). lia.
  - apply Forall_forall. apply Hok.
  - apply Forall_forall. apply Hok.
Qed.

(** C6: Planning the fixups of a captured transaction always ends without a panic.  An accepted
    plan writes every pointer and every descriptor number inside the receiver's transaction
    buffer, and no two of these writes overlap, however the sender nested its buffers and
    arrays.  Each pointer is to the start of a captured buffer, and each descriptor slot is
    aligned and holds the number found at that place of the captured bytes. *)
Theorem fixups_disjoint {E} (copy : nat -> Z -> bytes -> result bytes E) rsv0 rsv1 rsv2
    data offsets extra_size s sg :
  (forall i p buf bs, copy i p buf = Ok bs -> length bs = length buf) -> 0 <= extra_size ->
  TransactionSnapshot.capture rsv0 data offsets extra_size = Ok s ->
  capture_with copy rsv1 s = Some (Ok sg) ->
  exists r, plan rsv2 sg = Some r /\
    forall f, r = Ok f ->
      disjoint_all (regions f) /\
      Forall (fun r => 0 <= r.1 /\ r.1 + r.2 <= total (slayout s)) (regions f) /\
      Forall (fun w => exists b, b ∈ buffers sg /\ pointee w = start (destination b)) (writes f) /\
      Forall (slot_ok (buffers sg)) (fd_slots f).
Proof. apply plan_sound. Qed.

(** A parent buffer of sixteen bytes whose first word points to a child of eight. *)
Definition nested_data : bytes :=
  zeroed 8 ++
  (u32_le (tag Objects.Buffer) ++ u32_le 0 ++ u64_le 4096 ++ u64_le 16 ++ u64_le 0 ++ u64_le 0) ++
  (u32_le (tag Objects.Buffer) ++ u32_le 1 ++ u64_le 8192 ++ u64_le 8 ++ u64_le 0 ++ u64_le 0).
Definition nested_offsets : bytes := u64_le 8 ++ u64_le 48.
Definition nested_copy (i : nat) (p : Z) (buf : bytes) : result bytes unit := Ok buf.

Lemma fixups_disjoint_witness :
  exists s sg f,
    TransactionSnapshot.capture reserve_ok nested_data nested_offsets 24 = Ok s /\
    capture_with nested_copy reserve_ok s = Some (Ok sg) /\ plan reserve_ok sg = Some (Ok f) /\
    regions f = [(16, 8); (104, 8); (56, 8)] /\ disjoint_all (regions f).
Proof.
  eexists _, _, _. split; [vm_compute; reflexivity|]. split; [vm_compute; reflexivity|].
  split; [vm_compute; reflexivity|]. split; [reflexivity|].
  edestruct (fixups_disjoint nested_copy reserve_ok reserve_ok reserve_ok nested_data nested_offsets 24)
    as (r & Hr & Hok); [by intros ? ? ? ? [= <-]|done|vm_compute; reflexivity|vm_compute; reflexivity|].
  vm_compute in Hr. simplify_eq. by destruct (Hok _ eq_refl) as [H _].
Defined.

Definition nested_objects : list Object :=
  match validate reserve_ok nested_data nested_offsets with Ok l => l | Err _ => [] end.

Lemma fixup_order_exact_witness :
  order_validate nested_objects (Some 0%nat) 0 0 8 = Some (Ok tt) /\
  reaches nested_objects 0 0 0 0.
Proof.
  assert (parents_ok nested_objects) as Hp by (vm_compute; repeat constructor; discriminate).
  destruct (fixup_order_exact nested_objects (Some 0%nat) 0 0 8 Hp ltac:(lia)) as (r & Hr & Hiff).
  - intros l [= <-]. vm_compute. lia.
  - vm_compute in Hr. simplify_eq. split; [vm_compute; reflexivity|].
    destruct (proj1 Hiff eq_refl) as (l & o & m & [= <-] & _ & _ & Hreach & _). constructor.
Defined.
