(* ===== verification/PreparedTransaction.v ===== *)
(** * Private preparation of received transactions ([prepared_transaction.rs],
      [prepared_transaction/fd_installation.rs], [owned_transaction.rs], [planned_fds.rs],
      [transaction_fds.rs], [installed_fds.rs])

    A transaction is staged in a fresh allocation of the receive arena: its sections, the buffers
    it points at, relocated pointers, rewritten objects and installed descriptors.  Until it is
    published the allocation belongs to the preparation, whose [Drop] releases it; [None] is the
    panic of that [Drop]. *)
From S2P Require Import Prelude Objects TransactionLayout TransactionSnapshot ReceiveArena.
From S2P Require Import ScatterGather PointerFixups NodeOwner ReferenceTable Session.

(** ** Preparation *)

(** [Drop for PreparedTransaction], before publication. *)
Definition drop_prepared (a : ReceiveArena) (address : Z) : option ReceiveArena :=
  match release a address with (a, Ok _) => Some a | (_, Err _) => None end.

(** The [?] of a function that owns the allocation: an error drops it. *)
Definition or_release {A B} (address : Z) (r : ReceiveArena * result A Errno)
    (k : ReceiveArena -> A -> option (ReceiveArena * result B Errno))
    : option (ReceiveArena * result B Errno) :=
  match r with
  | (a, Ok v) => k a v
  | (a, Err e) => a ← drop_prepared a address; Some (a, Err e)
  end.

(** [PreparedTransaction::new]: the address of the allocation. *)
Definition prepare `{TransactionPayload T} (a : ReceiveArena) (p : T)
    : option (ReceiveArena * result Z Errno) :=
  let l := payload_layout p in
  match reserve_transaction a l with
  | (a, Err e) => Some (a, Err e)
  | (a, Ok address) =>
      or_release address (clear a address) (fun a _ =>
      or_release address (write a address (start (data l)) (payload_data p)) (fun a _ =>
      or_release address (write a address (start (offsets l)) (payload_offsets p)) (fun a _ =>
      Some (a, Ok address))))
  end.

(** Consecutive writes into the allocation. *)
Fixpoint write_all (a : ReceiveArena) (address : Z) (ws : list (Z * bytes))
    : option (ReceiveArena * result Z Errno) :=
  match ws with
  | [] => Some (a, Ok address)
  | (o, bs) :: ws => or_release address (write a address o bs) (fun a _ => write_all a address ws)
  end.

(** [?] on a preparation: its own failure has already released. *)
Definition prepared_then {B} (r : option (ReceiveArena * result Z Errno))
    (k : ReceiveArena -> Z -> option (ReceiveArena * result B Errno))
    : option (ReceiveArena * result B Errno) :=
  '(a, res) ← r;
  match res with Ok address => k a address | Err e => Some (a, Err e) end.

Definition buffer_writes (c : ScatterGather) : list (Z * bytes) :=
  (fun b => (start (destination b), bbytes b)) <$> buffers c.

Definition with_scatter_gather (a : ReceiveArena) (c : ScatterGather)
    : option (ReceiveArena * result Z Errno) :=
  prepared_then (prepare a (snapshot c)) (fun a address => write_all a address (buffer_writes c)).

(** The loop of [with_pointer_fixups]. *)
Fixpoint write_pointers (a : ReceiveArena) (address : Z) (ws : list PointerWrite)
    : option (ReceiveArena * result Z Errno) :=
  match ws with
  | [] => Some (a, Ok address)
  | w :: ws =>
      or_release address (a, ok_or (checked_add usize_max address (pointee w)) EOVERFLOW)
        (fun a pointer =>
      or_release address (write a address (wdestination w) (u64_le pointer)) (fun a _ =>
      write_pointers a address ws))
  end.

Definition with_pointer_fixups (a : ReceiveArena) (plan : PointerFixups)
    : option (ReceiveArena * result Z Errno) :=
  prepared_then (with_scatter_gather a (PointerFixups.capture plan)) (fun a address =>
  write_pointers a address (writes plan)).

(** [rewrite_data]: bounded by the data section. *)
Definition rewrite_data (a : ReceiveArena) (address : Z) (l : TransactionLayout) (offset : Z) (bs : bytes)
    : ReceiveArena * result unit Errno :=
  match checked_add usize_max offset (len bs) with
  | None => (a, Err EINVAL)
  | Some end_ =>
      if range_len (data l) <? end_ then (a, Err EINVAL)
      else write a address (start (data l) + offset) bs
  end.

Fixpoint rewrite_all (a : ReceiveArena) (address : Z) (l : TransactionLayout) (rewrites : list Rewrite)
    : option (ReceiveArena * result Z Errno) :=
  match rewrites with
  | [] => Some (a, Ok address)
  | r :: rewrites =>
      or_release address (rewrite_data a address l (woffset r) (wbytes r)) (fun a _ =>
      rewrite_all a address l rewrites)
  end.

(** ** Descriptors *)

Inductive Origin : Type := DirectObject | Array.

(** [planned_fds::Reference] and [DirectFdReference]: a file is the number of an open file. *)
Record FdReference : Type := { fdestination : Z; forigin : Origin; ffile : Z }.

(** [transaction_fds::Error]. *)
Inductive FdError : Type :=
| DObjects (e : Objects.Error) | NotAccepted | ScatterGatherRequired | DOutOfMemory | Acquire (e : Errno).

(** [direct] of [PlannedFds::acquire]. *)
Definition direct_fd (o : Object) : option Z := match fields o with FFd fd _ => Some fd | _ => None end.

Section acquire.
(** [lookup i fd] is the answer to call [i] of the lookup in the sender. *)
Context (lookup : nat -> Z -> result Z Errno).

(** The slots of one object: [peek] and [next] take them while they are its own. *)
Fixpoint acquire_slots (calls : nat) (index : nat) (slots : list FdSlot)
    : result (list FdReference * list FdSlot) FdError :=
  match slots with
  | slot :: rest =>
      if (slot_object slot =? index)%nat then
        let? file := map_err Acquire (lookup calls (sender_fd slot)) in
        let? (refs, slots) := acquire_slots (S calls) index rest in
        Ok ({| fdestination := sdestination slot; forigin := Array; ffile := file |} :: refs, slots)
      else Ok ([], slots)
  | [] => Ok ([], [])
  end.

(** The loop over the objects. *)
Fixpoint acquire_loop (calls : nat) (index : nat) (objects : list Object) (slots : list FdSlot)
    : result (list FdReference) FdError :=
  match objects with
  | [] => Ok []
  | object :: objects =>
      let? direct :=
        match direct_fd object with
        | Some fd =>
            let? file := map_err Acquire (lookup calls fd) in
            Ok [{| fdestination := offset object + 8; forigin := DirectObject; ffile := file |}]
        | None => Ok []
        end in
      let calls := (calls + length direct)%nat in
      let? (arrays, slots) := acquire_slots calls index slots in
      let? rest := acquire_loop (calls + length arrays) (S index) objects slots in
      Ok (direct ++ arrays ++ rest)
  end.

(** [PlannedFds::acquire]. *)
Definition acquire_planned (rsv : Reserve) (plan : PointerFixups) (accepts_fds : bool)
    : result (list FdReference) FdError :=
  let? objects := map_err DObjects (TransactionSnapshot.objects (below 0 rsv)
                                      (snapshot (PointerFixups.capture plan))) in
  let? count := ok_or (checked_add usize_max (len (omap direct_fd objects)) (len (fd_slots plan)))
                  DOutOfMemory in
  if negb (count =? 0) && negb accepts_fds then Err NotAccepted
  else
    let? _ := ensure (rsv [1%nat]) DOutOfMemory in
    acquire_loop 0 0 objects (fd_slots plan).

(** The counting loop of [DirectFdReferences::acquire]. *)
Fixpoint count_direct (objects : list Object) : result nat FdError :=
  match objects with
  | [] => Ok 0%nat
  | object :: objects =>
      match fields object with
      | FFd _ _ => let? n := count_direct objects in Ok (S n)
      | FFdArray _ _ _ => Err ScatterGatherRequired
      | _ => count_direct objects
      end
  end.

Fixpoint acquire_direct_loop (calls : nat) (objects : list Object) : result (list FdReference) FdError :=
  match objects with
  | [] => Ok []
  | object :: objects =>
      match direct_fd object with
      | Some fd =>
          let? file := map_err Acquire (lookup calls fd) in
          let? rest := acquire_direct_loop (S calls) objects in
          Ok ({| fdestination := offset object; forigin := DirectObject; ffile := file |} :: rest)
      | None => acquire_direct_loop calls objects
      end
  end.

(** [DirectFdReferences::acquire]. *)
Definition acquire_direct (rsv : Reserve) (s : TransactionSnapshot) (accepts_fds : bool)
    : result (list FdReference) FdError :=
  let? objects := map_err DObjects (TransactionSnapshot.objects (below 0 rsv) s) in
  let? count := count_direct objects in
  if negb (count =? 0)%nat && negb accepts_fds then Err NotAccepted
  else
    let? _ := ensure (rsv [1%nat]) DOutOfMemory in
    acquire_direct_loop 0 objects.
End acquire.

(** ** Installation in the current process ([fd_installation.rs]) *)

Inductive InstallError : Type := IErrno (e : Errno) | IOther.

Section install.
(** [duplicate i file] is the answer to call [i] of [try_clone_to_owned]. *)
Context (duplicate : nat -> Z -> result Z Errno).

(** The loop of [prepare_with]; a failure drops the preparation, then the files. *)
Fixpoint install_files (a : ReceiveArena) (address : Z) (calls : nat) (refs : list FdReference)
    : option (ReceiveArena * result (list Z) Errno) :=
  match refs with
  | [] => Some (a, Ok [])
  | r :: refs =>
      or_release address (a, duplicate calls (ffile r)) (fun a file =>
      or_release address (write a address (fdestination r) (u32_le file)) (fun a _ =>
      '(a, rest) ← install_files a address (S calls) refs;
      Some (a, result_map (cons file) rest)))
  end.

(** [LocalInstallation::prepare_with]: the address and the installed descriptors. *)
Definition prepare_with (reserved : bool) (a : ReceiveArena) (plan : PointerFixups)
    (refs : list FdReference) : option (ReceiveArena * result (Z * list Z) InstallError) :=
  '(a, res) ← with_pointer_fixups a plan;
  match res with
  | Err e => Some (a, Err (IErrno e))
  | Ok address =>
      if negb reserved then a ← drop_prepared a address; Some (a, Err IOther)
      else
        '(a, files) ← install_files a address 0 refs;
        Some (a, map_err IErrno (result_map (fun files => (address, files)) files))
  end.
End install.

(** ** Published allocations ([owned_transaction.rs]) *)

(** An installed descriptor is its number; its [Drop] closes it. *)
Record OwnedTransaction : Type :=
  { oaddress : option Z; olayout : TransactionLayout; ofiles : list Z }.

(** A poisoned lock needs a panic while the arena is locked; [Poisoned] is never produced. *)
Inductive OwnedError : Type := Poisoned | Arena (e : Errno).

(** [prepare_rewritten_with_fds]: the transaction, and the descriptors closed because it failed. *)
Definition prepare_rewritten_with_fds `{TransactionPayload T} (a : ReceiveArena) (p : T)
    (rewrites : list Rewrite) (files : list Z)
    : option (ReceiveArena * result OwnedTransaction OwnedError * list Z) :=
  '(a, res) ← prepared_then (prepare a p) (fun a address =>
                rewrite_all a address (payload_layout p) rewrites);
  Some (match res with
        | Ok address =>
            (a, Ok {| oaddress := Some address; olayout := payload_layout p; ofiles := files |}, [])
        | Err e => (a, Err (Arena e), files)
        end).

(** [buffer_address] and [offsets_address]; [None] is the panic of the first. *)
Definition buffer_address (t : OwnedTransaction) : option Z := oaddress t.
Definition offsets_address (t : OwnedTransaction) : option Z :=
  address ← buffer_address t; Some (address + start (offsets (olayout t))).

Definition release_inner (a : ReceiveArena) (t : OwnedTransaction)
    : ReceiveArena * OwnedTransaction * result unit OwnedError :=
  match oaddress t with
  | None => (a, t, Ok tt)
  | Some address =>
      let t := {| oaddress := None; olayout := olayout t; ofiles := ofiles t |} in
      let '(a, res) := ReceiveArena.release a address in
      (a, t, map_err Arena res)
  end.

(** [Drop for OwnedTransaction], then of its files; [None] is the abort. *)
Definition drop_owned (a : ReceiveArena) (t : OwnedTransaction) : option (ReceiveArena * list Z) :=
  match release_inner a t with
  | (a, t, Ok _) => Some (a, ofiles t)
  | (_, _, Err _) => None
  end.

(** [OwnedTransaction::release]: the value is dropped at its end. *)
Definition release_owned (a : ReceiveArena) (t : OwnedTransaction)
    : option (ReceiveArena * result unit OwnedError * list Z) :=
  let '(a, t, res) := release_inner a t in
  '(a, closed) ← drop_owned a t;
  Some (a, res, closed).

(** ** Specification *)

(** The bytes of a live allocation. *)
Definition contents (a : ReceiveArena) (address : Z) : bytes :=
  match arena_bytes a address with Some (Ok bs) => bs | _ => [] end.

(** Only the contents of the mapping may differ. *)
Definition same_regions (a a' : ReceiveArena) : Prop :=
  free a' = free a /\ allocated a' = allocated a /\
  client_address (mapping a') = client_address (mapping a).

(** Other allocations keep their bytes. *)
Definition isolated (a a' : ReceiveArena) (address : Z) : Prop :=
  forall x s l, x <> address -> live a x = Ok (s, l) -> contents a' x = contents a x.

Definition apply_writes (ws : list (Z * bytes)) (bs : bytes) : bytes :=
  foldl (fun bs w => copy_at (Z.to_nat w.1) w.2 bs) bs ws.

(** The size of the allocation of a layout. *)
Definition allocation_size (l : TransactionLayout) : Z := round_up8 (Z.max (total l) 1).

(** The sections of a payload in a cleared allocation. *)
Definition staged `{TransactionPayload T} (p : T) : bytes :=
  apply_writes [(start (data (payload_layout p)), payload_data p);
                (start (offsets (payload_layout p)), payload_offsets p)]
    (zeroed (Z.to_nat (allocation_size (payload_layout p)))).

(** A payload whose sections are those of its layout, in order. *)
Record payload_fits `{TransactionPayload T} (p : T) : Prop := {
  pf_start : start (data (payload_layout p)) = 0;
  pf_data : stop (data (payload_layout p)) = len (payload_data p);
  pf_order : stop (data (payload_layout p)) <= start (offsets (payload_layout p));
  pf_offsets : start (offsets (payload_layout p)) + len (payload_offsets p) <= total (payload_layout p);
  pf_total : total (payload_layout p) <= usize_max }.

Definition rewrite_writes (rewrites : list Rewrite) : list (Z * bytes) :=
  (fun r => (woffset r, wbytes r)) <$> rewrites.

Definition pointer_writes (address : Z) (ws : list PointerWrite) : list (Z * bytes) :=
  (fun w => (wdestination w, u64_le (address + pointee w))) <$> ws.

(** A rewrite inside [n] bytes of data. *)
Definition inside_data (n : Z) (r : Rewrite) : bool := woffset r + len (wbytes r) <=? n.

(** ** Lemmas *)

Lemma same_regions_live a a' x : same_regions a a' -> live a' x = live a x.
Proof. intros (_ & E & Ec). unfold live. by rewrite E, Ec. Qed.

Lemma same_regions_trans a b c : same_regions a b -> same_regions b c -> same_regions a c.
Proof. intros (?&?&?) (?&?&?). split_and!; congruence. Qed.

Lemma isolated_trans a b c x :
  same_regions a b -> isolated a b x -> isolated b c x -> isolated a c x.
Proof.
  intros S H1 H2 y s l Hy Hl. rewrite (H2 y s l Hy); [by eapply H1|]. by rewrite (same_regions_live _ _ _ S).
Qed.

Lemma region_live a x s l :
  arena_ok a -> live a x = Ok (s, l) ->
  contents a x = slice (pages (mapping a)) (Z.to_nat s) (Z.to_nat (s + l)) /\ len (contents a x) = l.
Proof.
  intros Ha Hl. unfold contents. rewrite (arena_bytes_live _ _ _ _ Ha Hl). split; [done|].
  destruct (live_range _ _ _ _ Ha Hl) as (? & ? & ? & _). unfold len in *. rewrite length_slice; lia.
Qed.

(** Changing the bytes of one region. *)
Lemma put_region a address s l o d :
  arena_ok a -> live a address = Ok (s, l) -> 0 <= o -> o + len d <= l ->
  let a' := with_mapping a {| client_address := client_address (mapping a);
              pages := copy_at (Z.to_nat (s + o)) d (pages (mapping a)) |} in
  arena_ok a' /\ same_regions a a' /\ isolated a a' address /\
  contents a' address = copy_at (Z.to_nat o) d (contents a address).
Proof.
  intros Ha Hl Ho Hd a'. destruct (live_range _ _ _ _ Ha Hl) as (? & ? & Hcap & _).
  pose proof (len_nonneg d). unfold len in *.
  assert (Ha' : arena_ok a').
  { apply with_mapping_ok; [done..|]. simpl. apply length_copy_at. lia. }
  assert (S : same_regions a a') by done. split_and!; [done|done| |].
  - intros x s' l' Hx Hl'. pose proof (live_distinct _ _ _ _ _ _ _ Ha Hl Hl' (not_eq_sym Hx)) as Hd'.
    destruct (live_range _ _ _ _ Ha Hl') as (? & ? & ? & _). unfold len in *.
    rewrite (proj1 (region_live a x s' l' Ha Hl')).
    rewrite (proj1 (region_live a' x s' l' Ha' ltac:(by rewrite (same_regions_live a a' x S)))).
    simpl. apply slice_copy_outside; lia.
  - rewrite (proj1 (region_live a address s l Ha Hl)).
    rewrite (proj1 (region_live a' address s l Ha' ltac:(by rewrite (same_regions_live a a' _ S)))).
    simpl. rewrite Z2Nat.inj_add by lia. apply slice_copy_inside; lia.
Qed.

Lemma write_region a address s l o d :
  arena_ok a -> live a address = Ok (s, l) -> 0 <= o -> o + len d <= l ->
  exists a', write a address o d = (a', Ok tt) /\ arena_ok a' /\ same_regions a a' /\
    isolated a a' address /\ contents a' address = copy_at (Z.to_nat o) d (contents a address).
Proof.
  intros Ha Hl Ho Hd. rewrite (write_exact _ _ _ _ _ _ Ha Hl Ho).
  rewrite (proj2 (Z.ltb_ge _ _)) by done. eexists. split; [done|]. by apply (put_region a address s l o d).
Qed.

Lemma write_refused a address s l o d :
  arena_ok a -> live a address = Ok (s, l) -> 0 <= o -> l < o + len d -> write a address o d = (a, Err EINVAL).
Proof.
  intros Ha Hl Ho Hd. rewrite (write_exact _ _ _ _ _ _ Ha Hl Ho). by rewrite (proj2 (Z.ltb_lt _ _)).
Qed.

Lemma clear_region a address s l :
  arena_ok a -> live a address = Ok (s, l) ->
  exists a', clear a address = (a', Ok tt) /\ arena_ok a' /\ same_regions a a' /\
    isolated a a' address /\ contents a' address = zeroed (Z.to_nat l).
Proof.
  intros Ha Hl. destruct (live_range _ _ _ _ Ha Hl) as (? & ? & Hcap & _). unfold clear, mapping_clear.
  rewrite Hl, in_mapping_true by (done || apply Ha). simpl.
  assert (Hz : len (zeroed (Z.to_nat l)) = l) by (unfold len, zeroed; rewrite length_replicate; lia).
  destruct (put_region a address s l 0 (zeroed (Z.to_nat l)) Ha Hl ltac:(lia) ltac:(lia))
    as (? & ? & ? & E). rewrite Z.add_0_r in *.
  eexists. split; [done|]. split_and!; try done. rewrite E.
  pose proof (region_live _ _ _ _ Ha Hl) as [_ Hlen]. unfold len in Hlen, Hz.
  rewrite copy_at_def. simpl. rewrite drop_ge by lia. apply app_nil_r.
Qed.

(** *** A staged allocation *)

(** Every live allocation of [a] is live in [a'] with the same bytes. *)
Definition preserved (a a' : ReceiveArena) : Prop :=
  forall x s l, live a x = Ok (s, l) -> live a' x = Ok (s, l) /\ contents a' x = contents a x.

(** [a'] is [a] with [n] bytes at [address] taken and only those bytes changed. *)
Definition staging (a a' : ReceiveArena) (address n : Z) : Prop :=
  arena_ok a' /\
  exists o av, free a !! o = Some av /\ 0 < n <= av /\ n mod 8 = 0 /\
    address = client_address (mapping a) + o /\
    same_regions (taken a o av n) a' /\ isolated (taken a o av n) a' address.

Lemma preserved_trans a b c : preserved a b -> preserved b c -> preserved a c.
Proof. intros H1 H2 x s l Hx. destruct (H1 x s l Hx) as [H <-]. by apply H2. Qed.

Lemma free_not_live a o av x s l :
  arena_ok a -> free a !! o = Some av -> live a x = Ok (s, l) ->
  x <> client_address (mapping a) + o.
Proof.
  intros Ha Ho (_ & Es & Hs)%live_Ok ->. replace s with o in Hs by lia.
  by destruct (map_disjoint_spec (free a) (allocated a)) as [Hd _]; eapply Hd; [apply Ha|..].
Qed.

Lemma taken_live a o av n x s l :
  arena_ok a -> free a !! o = Some av -> live a x = Ok (s, l) -> live (taken a o av n) x = Ok (s, l).
Proof.
  intros Ha Ho Hx. pose proof (free_not_live _ _ _ _ _ _ Ha Ho Hx).
  apply live_Ok in Hx as (? & -> & ?). apply live_Ok. simpl.
  rewrite lookup_insert_ne by lia. done.
Qed.

Lemma taken_own a o av n :
  arena_ok a -> free a !! o = Some av -> live (taken a o av n) (client_address (mapping a) + o) = Ok (o, n).
Proof.
  intros Ha Ho.
  pose proof (tile_bounds _ _ (arena_tiles _ Ha) o av (lookup_union_Some_l _ _ _ _ Ho)).
  apply live_Ok. simpl. rewrite lookup_insert_eq. split_and!; [lia..|done].
Qed.

Lemma region_same_pages a a' x s l :
  arena_ok a -> arena_ok a' -> mapping a' = mapping a ->
  live a x = Ok (s, l) -> live a' x = Ok (s, l) -> contents a' x = contents a x.
Proof.
  intros Ha Ha' Em Hx Hx'.
  by rewrite (proj1 (region_live _ _ _ _ Ha Hx)), (proj1 (region_live _ _ _ _ Ha' Hx')), Em.
Qed.

Lemma staging_live a a' address n :
  arena_ok a -> staging a a' address n -> exists s, live a' address = Ok (s, n).
Proof.
  intros Ha (_ & o & av & Ho & _ & _ & -> & S & _). exists o.
  rewrite (same_regions_live _ _ _ S). by apply taken_own.
Qed.

Lemma staging_live_inv a a' address n x s l :
  staging a a' address n -> live a' x = Ok (s, l) -> x = address \/ live a x = Ok (s, l).
Proof.
  intros (_ & o & av & _ & _ & _ & -> & S & _). rewrite (same_regions_live _ _ _ S).
  intros (? & -> & Hx)%live_Ok. simpl in *. apply lookup_insert_Some in Hx as [[? _]|[_ Hx]]; [left; lia|].
  right. by apply live_Ok.
Qed.

Lemma staging_fresh a a' address n s l :
  arena_ok a -> staging a a' address n -> live a address <> Ok (s, l).
Proof.
  intros Ha (_ & o & av & Ho & _ & _ & -> & _) Hx. by eapply free_not_live.
Qed.

Lemma staging_preserved a a' address n : arena_ok a -> staging a a' address n -> preserved a a'.
Proof.
  intros Ha (_ & o & av & Ho & Hn & Hm & -> & S & I) x s l Hx.
  pose proof (taken_live a o av n x s l Ha Ho Hx) as Ht. split.
  { by rewrite (same_regions_live _ _ _ S). }
  rewrite (I x s l (free_not_live _ _ _ _ _ _ Ha Ho Hx) Ht).
  by apply (region_same_pages a (taken a o av n) x s l Ha (taken_ok _ _ _ _ Ha Ho Hn Hm)).
Qed.

(** A change inside the staged region keeps it staged. *)
Lemma staging_step a a' a'' address n :
  arena_ok a'' -> staging a a' address n -> same_regions a' a'' -> isolated a' a'' address ->
  staging a a'' address n.
Proof.
  intros Ha'' (_ & o & av & Ho & Hn & Hm & E & S & I) S' I'. split; [done|].
  exists o, av. split_and!; try done; try lia; [by eapply same_regions_trans|by eapply isolated_trans].
Qed.

Lemma staging_reserve a n a' address :
  arena_ok a -> allocate a n = (a', Ok address) -> 0 <= n ->
  staging a a' address (round_up8 (Z.max n 1)) /\ mapping a' = mapping a.
Proof.
  intros Ha E Hn. pose proof (allocate_ok _ _ _ _ Ha E) as Ha'.
  apply allocate_Ok in E as (o & av & l & El & _ & Ho & Hle & -> & ->).
  pose proof El as (? & ? & _)%aligned_length. rewrite align8_round_up in El by lia.
  case_match; [|done]. injection El as <-. split; [|done]. split; [done|].
  exists o, av. split_and!; try done; lia.
Qed.

(** Dropping the preparation restores the regions; memory changed only in free space. *)
Lemma staging_drop a a' address n :
  arena_ok a -> staging a a' address n ->
  exists b, drop_prepared a' address = Some b /\ arena_ok b /\ same_regions a b /\ preserved a b.
Proof.
  intros Ha St. pose proof (staging_preserved _ _ _ _ Ha St) as P.
  destruct St as (Ha' & o & av & Ho & Hn & Hm & -> & S & I).
  destruct (absorb_taken a o av n Ha Ho Hn) as (Ep & f & En & Ef).
  assert (Hal : allocated a !! o = None) by (eapply map_disjoint_Some_l; [apply Ha|done]).
  pose proof (taken_own a o av n Ha Ho) as El. rewrite <- (same_regions_live _ _ _ S) in El.
  destruct S as (Sf & Sa & Sc). unfold drop_prepared.
  destruct (release a' (client_address (mapping a) + o)) as [b r] eqn:Er.
  pose proof (release_ok _ _ _ _ Ha' Er) as Hb. unfold release in Er.
  rewrite El, Sf, Sa, Ep, En, Ef in Er. simpl in Er. rewrite delete_insert_id in Er by done.
  injection Er as Er <-. assert (Sb : same_regions a b) by (by subst b).
  exists b. split_and!; try done. intros x s l Hx. destruct (P x s l Hx) as [Hx' <-].
  pose proof Hx as Hxb. rewrite <- (same_regions_live _ _ _ Sb) in Hxb. split; [done|].
  apply (region_same_pages a' b x s l); try done. by subst b.
Qed.

Lemma staging_write a a' address n o d :
  arena_ok a -> staging a a' address n -> 0 <= o -> o + len d <= n ->
  exists a'', write a' address o d = (a'', Ok tt) /\ staging a a'' address n /\
    contents a'' address = copy_at (Z.to_nat o) d (contents a' address).
Proof.
  intros Ha St Ho Hd. destruct (staging_live _ _ _ _ Ha St) as [s Hl].
  destruct (write_region a' address s n o d (proj1 St) Hl Ho Hd) as (a'' & E & ? & ? & ? & Er).
  exists a''. split_and!; try done. by eapply staging_step.
Qed.

Lemma staging_clear a a' address n :
  arena_ok a -> staging a a' address n ->
  exists a'', clear a' address = (a'', Ok tt) /\ staging a a'' address n /\
    contents a'' address = zeroed (Z.to_nat n).
Proof.
  intros Ha St. destruct (staging_live _ _ _ _ Ha St) as [s Hl].
  destruct (clear_region a' address s n (proj1 St) Hl) as (a'' & E & ? & ? & ? & Er).
  exists a''. split_and!; try done. by eapply staging_step.
Qed.

(** Consecutive writes that fit. *)
Lemma write_all_staged a address n ws : arena_ok a ->
  forall a', staging a a' address n -> Forall (fun w => 0 <= w.1 /\ w.1 + len w.2 <= n) ws ->
  exists a'', write_all a' address ws = Some (a'', Ok address) /\ staging a a'' address n /\
    contents a'' address = apply_writes ws (contents a' address).
Proof.
  intros Ha. induction ws as [|[o d] ws IH]; intros a' St Hws; simpl.
  { exists a'. by split_and!. }
  inversion Hws as [|? ? [??] Hws']; subst.
  destruct (staging_write a a' address n o d Ha St) as (a1 & E & St1 & Er1); [done..|].
  rewrite E. simpl. destruct (IH a1 St1 Hws') as (a2 & E2 & St2 & Er2).
  exists a2. split_and!; try done. by rewrite Er2, Er1.
Qed.

Section payload.
Context `{TransactionPayload T} (p : T) (Hp : payload_fits p).

Lemma allocation_covers : total (payload_layout p) <= allocation_size (payload_layout p).
Proof. unfold allocation_size. pose proof (round_up8_bounds (Z.max (total (payload_layout p)) 1)). lia. Qed.

Lemma total_nonneg : 0 <= total (payload_layout p).
Proof.
  destruct Hp as [E1 E2 ? ? ?]. pose proof (len_nonneg (payload_data p)).
  pose proof (len_nonneg (payload_offsets p)). lia.
Qed.

Lemma sections_fit :
  Forall (fun w : Z * bytes => 0 <= w.1 /\ w.1 + len w.2 <= allocation_size (payload_layout p))
    [(start (data (payload_layout p)), payload_data p);
     (start (offsets (payload_layout p)), payload_offsets p)].
Proof.
  pose proof allocation_covers. pose proof total_nonneg. destruct Hp as [E1 E2 ? ? ?].
  pose proof (len_nonneg (payload_data p)). pose proof (len_nonneg (payload_offsets p)).
  repeat constructor; simpl; lia.
Qed.

(** [prepare] fails only to reserve, and then changes nothing. *)
Lemma prepare_spec a : arena_ok a ->
  exists a' res, prepare a p = Some (a', res) /\
  match res with
  | Ok address => staging a a' address (allocation_size (payload_layout p)) /\ contents a' address = staged p
  | Err e => a' = a /\ allocate a (total (payload_layout p)) = (a, Err e)
  end.
Proof.
  intros Ha. unfold prepare, reserve_transaction.
  destruct (allocate a (total (payload_layout p))) as [a0 [address|e]] eqn:E.
  - destruct (staging_reserve a _ a0 address Ha E total_nonneg) as [St _].
    change (round_up8 _) with (allocation_size (payload_layout p)) in St.
    destruct (staging_clear a a0 address _ Ha St) as (a1 & -> & St1 & E1). simpl.
    destruct (write_all_staged a address _ _ Ha a1 St1 sections_fit) as (a2 & E2 & St2 & Ec2).
    simpl in E2. exists a2, (Ok address). split; [|by rewrite Ec2, E1].
    by destruct (write a1 address _ _) as [b [[]|]].
  - exists a, (Err e). assert (a0 = a) as ->; [|done].
    unfold allocate in E. destruct (align8 _); [|by injection E]. by destruct (best_fit _ _) as [[]|]; injection E.
Qed.

(** [rewrite_all] applies every rewrite, or releases at the first one outside the data. *)
Lemma rewrite_all_staged a address n rewrites : arena_ok a -> n = allocation_size (payload_layout p) ->
  forall a', staging a a' address n -> Forall (fun r => 0 <= woffset r) rewrites ->
  exists a'' res, rewrite_all a' address (payload_layout p) rewrites = Some (a'', res) /\
  match res with
  | Ok x => x = address /\ staging a a'' address n /\
      forallb (inside_data (len (payload_data p))) rewrites = true /\
      contents a'' address = apply_writes (rewrite_writes rewrites) (contents a' address)
  | Err e => e = EINVAL /\ forallb (inside_data (len (payload_data p))) rewrites = false /\
      arena_ok a'' /\ same_regions a a'' /\ preserved a a''
  end.
Proof.
  intros Ha En. induction rewrites as [|r rewrites IH]; intros a' St Hrs; simpl.
  { exists a', (Ok address). by split_and!. }
  inversion Hrs as [|? ? Hr Hrs']; subst. unfold rewrite_data, inside_data at 1 3.
  pose proof allocation_covers. destruct Hp as [Es Ed ? ? ?].
  pose proof (len_nonneg (wbytes r)). pose proof (len_nonneg (payload_offsets p)).
  assert (Hlen : range_len (data (payload_layout p)) = len (payload_data p)) by (unfold range_len; lia).
  assert (Hdrop : exists a'' res, or_release address (a', Err EINVAL : result unit Errno)
            (fun a _ => rewrite_all a address (payload_layout p) rewrites) = Some (a'', res) /\
          res = Err EINVAL /\ arena_ok a'' /\ same_regions a a'' /\ preserved a a'').
  { simpl. destruct (staging_drop a a' address _ Ha St) as (b & -> & ? & ? & ?). simpl. eauto 10. }
  destruct Hdrop as (b & res & Eb & -> & Hb).
  destruct (Z.leb_spec (woffset r + len (wbytes r)) (len (payload_data p))) as [Hin|Hout]; simpl.
  - rewrite (proj2 (checked_add_Some _ _ _ _)) by (split; [done|lia]).
    rewrite Hlen, (proj2 (Z.ltb_ge _ _)) by lia. rewrite Es, Z.add_0_l.
    destruct (staging_write a a' address _ (woffset r) (wbytes r) Ha St Hr ltac:(lia))
      as (a1 & -> & St1 & E1). simpl.
    destruct (IH a1 St1 Hrs') as (a2 & res & E2 & Hres). exists a2, res. split; [done|].
    destruct res; [|done]. by rewrite <- E1.
  - exists b, (Err EINVAL). split; [|by split_and!; try apply Hb].
    destruct (checked_add _ _ _) as [e|] eqn:Ec; [|done].
    apply checked_add_Some in Ec as [-> _]. by rewrite Hlen, (proj2 (Z.ltb_lt _ _)).
Qed.
End payload.

(** *** Disjoint writes *)

Definition fits (n : nat) (w : Z * bytes) : Prop := 0 <= w.1 /\ w.1 + len w.2 <= Z.of_nat n.
Definition write_region_of (w : Z * bytes) : PointerFixups.region := (w.1, len w.2).
Definition outside (i : Z) (w : Z * bytes) : Prop := i < w.1 \/ w.1 + len w.2 <= i.

Lemma length_apply_writes ws : forall bs, Forall (fits (length bs)) ws ->
  length (apply_writes ws bs) = length bs.
Proof.
  induction ws as [|w ws IH]; [done|]. intros bs H. inversion H as [|? ? [??] Hws]; subst. simpl.
  assert (El : length (copy_at (Z.to_nat w.1) w.2 bs) = length bs).
  { apply length_copy_at. unfold len in *. lia. }
  rewrite IH; [done|by rewrite El].
Qed.

(** A byte outside every write is unchanged. *)
Lemma apply_writes_outside ws (i : nat) : forall bs, Forall (fits (length bs)) ws ->
  Forall (outside (Z.of_nat i)) ws -> apply_writes ws bs !! i = bs !! i.
Proof.
  induction ws as [|w ws IH]; [done|]. intros bs H Ho.
  inversion H as [|? ? [??] Hws]; subst. inversion Ho as [|? ? Hi Hos]; subst. simpl.
  unfold len, outside in *.
  assert (El : length (copy_at (Z.to_nat w.1) w.2 bs) = length bs) by (apply length_copy_at; lia).
  rewrite IH by (by rewrite ?El). rewrite lookup_copy_at by lia. unfold len in Hi.
  repeat case_match; try done; rewrite ?Nat.ltb_lt, ?Nat.ltb_ge in *; lia.
Qed.

Lemma slice_eq {A} (l k : list A) a b :
  (forall i, (a <= i < b)%nat -> l !! i = k !! i) -> slice l a b = slice k a b.
Proof.
  intros H. apply list_eq. intros i. rewrite !lookup_slice. case_match eqn:E; [|done].
  apply Nat.ltb_lt in E. apply H. lia.
Qed.

(** A range outside every write is unchanged. *)
Lemma apply_writes_apart ws bs s e : Forall (fits (length bs)) ws -> 0 <= s <= e ->
  Forall (fun w => apart (s, e - s) (write_region_of w)) ws ->
  slice (apply_writes ws bs) (Z.to_nat s) (Z.to_nat e) = slice bs (Z.to_nat s) (Z.to_nat e).
Proof.
  intros H Hs Ho. apply slice_eq. intros i Hi. apply apply_writes_outside; [done|].
  eapply Forall_impl; [exact Ho|]. intros w. unfold apart, outside, write_region_of. simpl. lia.
Qed.

(** Pairwise disjoint writes are all there at the end. *)
Lemma apply_writes_read ws : forall bs w, Forall (fits (length bs)) ws ->
  disjoint_all (write_region_of <$> ws) -> w ∈ ws ->
  slice (apply_writes ws bs) (Z.to_nat w.1) (Z.to_nat (w.1 + len w.2)) = w.2.
Proof.
  induction ws as [|v ws IH]; intros bs w H Hd; [by intros []%not_elem_of_nil|].
  inversion H as [|? ? [? Hv] Hws]; subst. inversion Hd as [|? ? Hvw Hd']; subst. simpl.
  assert (El : length (copy_at (Z.to_nat v.1) v.2 bs) = length bs).
  { apply length_copy_at. unfold len in *. lia. }
  intros [-> | Hw]%elem_of_cons; [|apply IH; try done; by rewrite El].
  pose proof (len_nonneg v.2). rewrite apply_writes_apart; [|by rewrite El|lia|].
  - unfold len in *. rewrite Z2Nat.inj_add, Nat2Z.id by lia. apply slice_copy_at. lia.
  - apply (Forall_fmap write_region_of) in Hvw. eapply Forall_impl; [exact Hvw|]. intros w0. unfold compose.
    replace (v.1 + len v.2 - v.1) with (len v.2) by lia. done.
Qed.

(** ** Captured buffers and relocated pointers *)

Lemma snapshot_fits rsv d o extra_size s :
  0 <= extra_size -> TransactionSnapshot.capture rsv d o extra_size = Ok s -> payload_fits s.
Proof.
  intros He (Ed & Eo & _ & Hn & _)%capture_Ok. subst d o.
  apply new_layout_ok in Hn as (H1 & H2 & H3 & H4 & H5 & H6 & H7 & _ & _ & _ & H8);
    [|apply len_nonneg..|done].
  unfold range_len in *. split; simpl; lia.
Qed.

(** The staged bytes with the captured buffers in their places. *)
Definition gathered (c : ScatterGather) : bytes := apply_writes (buffer_writes c) (staged (snapshot c)).

Lemma length_staged `{TransactionPayload T} (p : T) : payload_fits p ->
  length (staged p) = Z.to_nat (allocation_size (payload_layout p)).
Proof.
  intros Hp. unfold staged. rewrite length_apply_writes; unfold zeroed; rewrite length_replicate; [done|].
  pose proof (sections_fit p Hp) as Hf. pose proof (allocation_covers p). pose proof (total_nonneg p Hp).
  eapply Forall_impl; [exact Hf|]. intros w. unfold fits. lia.
Qed.

Section captured.
Context {E} (copy : nat -> Z -> bytes -> result bytes E) (rsv0 rsv1 rsv2 : Reserve).
Context (d o : bytes) (extra_size : Z) (s : TransactionSnapshot) (c : ScatterGather).
Hypothesis copy_length : forall i p buf bs, copy i p buf = Ok bs -> length bs = length buf.
Hypothesis extra_nonneg : 0 <= extra_size.
Hypothesis captured : TransactionSnapshot.capture rsv0 d o extra_size = Ok s.
Hypothesis gathering : capture_with copy rsv1 s = Some (Ok c).

Lemma captured_snapshot : snapshot c = s.
Proof.
  destruct (capture_with_sound copy copy_length rsv1 s) as (r & Hr & Hs).
  rewrite gathering in Hr. simplify_eq. by destruct (Hs _ eq_refl).
Qed.

(** The buffers lie in the extra section, in order. *)
Lemma captured_buffers :
  Forall (fun b => 0 <= start (destination b) /\ stop (offsets (slayout s)) <= start (destination b) /\
                   start (destination b) + len (bbytes b) <= total (slayout s) /\
                   stop (destination b) = start (destination b) + len (bbytes b)) (buffers c) /\
  StronglySorted precedes (buffers c).
Proof.
  destruct (capture_with_sound copy copy_length rsv1 s) as (r & Hr & Hs).
  rewrite gathering in Hr. simplify_eq. destruct (Hs _ eq_refl) as (_ & objs & _ & Hl & Hf).
  split; [|by eapply laid_out_sorted]. rewrite Forall_forall in *. intros b Hb.
  pose proof (Hf b Hb) as Hfb. unfold filled, range_len in Hfb.
  destruct (laid_out_objects _ _ _ _ _ _ Hl Hb) as (? & ? & ? & ? & n & ? & ? & _ & _ & _ & _ & Hc & Hst & ? & Hlim).
  pose proof (round_up8_bounds n). pose proof captured as (_ & _ & _ & Hn & _)%capture_Ok.
  apply new_layout_ok in Hn as (H1 & H2 & _ & H4 & H5 & H6 & H7 & _); [|apply len_nonneg..|done].
  pose proof (len_nonneg d). pose proof (len_nonneg o). unfold range_len in *. lia.
Qed.

(** The sections and the buffers, as writes into the cleared allocation. *)
Definition all_writes : list (Z * bytes) :=
  [(start (data (slayout s)), sdata s); (start (offsets (slayout s)), soffsets s)] ++ buffer_writes c.

Lemma gathered_eq :
  gathered c = apply_writes all_writes (zeroed (Z.to_nat (allocation_size (slayout s)))).
Proof.
  unfold gathered, staged, apply_writes, all_writes. rewrite captured_snapshot. simpl. done.
Qed.

Lemma all_writes_fit : Forall (fits (Z.to_nat (allocation_size (slayout s)))) all_writes.
Proof.
  pose proof (snapshot_fits _ _ _ _ _ extra_nonneg captured) as Hp.
  pose proof (allocation_covers s) as Hc. pose proof (total_nonneg s Hp). simpl in *.
  apply Forall_app. split.
  - eapply Forall_impl; [exact (sections_fit s Hp)|]. intros w. unfold fits. simpl. lia.
  - apply Forall_fmap. eapply Forall_impl; [apply captured_buffers|]. intros b (? & Hb & ? & _).
    unfold fits, compose. simpl. lia.
Qed.

Lemma all_writes_disjoint : disjoint_all (write_region_of <$> all_writes).
Proof.
  pose proof (snapshot_fits _ _ _ _ _ extra_nonneg captured) as [E1 E2 ? ? ?]. simpl in *.
  destruct captured_buffers as [Hb Hs]. pose proof captured as (_ & Eo & _ & Hn & _)%capture_Ok.
  apply new_layout_ok in Hn as (_ & H2 & _ & _ & H5 & _); [|apply len_nonneg..|done].
  pose proof (len_nonneg o). subst o. unfold range_len in *.
  assert (Hbs : forall w, (w.1 + len w.2 <= stop (offsets (slayout s))) ->
    Forall (apart (write_region_of w)) (write_region_of <$> buffer_writes c)).
  { intros w Hw. apply Forall_fmap, Forall_fmap. eapply Forall_impl; [exact Hb|].
    intros b (_ & ? & _). unfold compose, apart. simpl. lia. }
  unfold all_writes. simpl. constructor; [constructor|constructor].
  - unfold apart. simpl. lia.
  - apply (Hbs (start (data (slayout s)), sdata s)). simpl. lia.
  - apply (Hbs (start (offsets (slayout s)), soffsets s)). simpl. lia.
  - unfold buffer_writes. clear Hbs. induction Hs as [|b bs Hs IH Hall]; simpl; [constructor|].
    inversion Hb as [|? ? (_ & _ & _ & Hst) Hb']; subst. constructor; [|by apply IH].
    apply Forall_fmap, Forall_fmap. eapply Forall_impl; [exact Hall|].
    intros b' [_ Hp]. unfold compose, apart. simpl. lia.
Qed.

(** Every section and every captured buffer is in the gathered bytes. *)
Lemma gathered_read w : w ∈ all_writes ->
  slice (gathered c) (Z.to_nat w.1) (Z.to_nat (w.1 + len w.2)) = w.2.
Proof.
  intros Hw. rewrite gathered_eq. apply apply_writes_read; [|apply all_writes_disjoint|done].
  unfold zeroed. rewrite length_replicate. apply all_writes_fit.
Qed.

Lemma length_gathered : length (gathered c) = Z.to_nat (allocation_size (slayout s)).
Proof.
  rewrite gathered_eq, length_apply_writes; unfold zeroed; rewrite length_replicate; [done|apply all_writes_fit].
Qed.

Lemma with_scatter_gather_spec a : arena_ok a ->
  exists a' res, with_scatter_gather a c = Some (a', res) /\
  match res with
  | Ok address => staging a a' address (allocation_size (slayout s)) /\ contents a' address = gathered c
  | Err e => a' = a /\ allocate a (total (slayout s)) = (a, Err e)
  end.
Proof.
  intros Ha. unfold with_scatter_gather. rewrite captured_snapshot.
  pose proof (snapshot_fits _ _ _ _ _ extra_nonneg captured) as Hp.
  destruct (prepare_spec s Hp a Ha) as (a1 & [address|e] & -> & Hres); simpl; [|by eexists _, (Err e)].
  destruct Hres as [St Ec]. simpl in St.
  pose proof all_writes_fit as [_ Hf]%Forall_app.
  pose proof (allocation_covers s) as Hc. pose proof (total_nonneg s Hp). simpl in *.
  destruct (write_all_staged a address _ (buffer_writes c) Ha a1 St) as (a2 & E2 & St2 & Ec2).
  { eapply Forall_impl; [exact Hf|]. intros w. unfold fits. lia. }
  exists a2, (Ok address). split_and!; [done..|]. unfold gathered. by rewrite Ec2, Ec, captured_snapshot.
Qed.
End captured.

(** Relocating is writing the pointers: none overflows. *)
Lemma write_pointers_eq address ws : 0 <= address -> forall a,
  Forall (fun w => 0 <= pointee w /\ address + pointee w <= usize_max) ws ->
  write_pointers a address ws = write_all a address (pointer_writes address ws).
Proof.
  intros Hz. induction ws as [|w ws IH]; [done|]. intros a H. inversion H as [|? ? [??] Hws]; subst. simpl.
  rewrite (proj2 (checked_add_Some _ _ _ _)) by (split; [done|lia]). simpl.
  destruct (write a address _ _) as [a1 [[]|]]; simpl; [by apply IH|done].
Qed.

Lemma pointer_writes_regions address ws : write_region_of <$> pointer_writes address ws = write_regions ws.
Proof. unfold pointer_writes, write_regions. rewrite <- list_fmap_compose. by apply list_fmap_ext. Qed.

Lemma staging_address a a' address n :
  arena_ok a -> staging a a' address n -> 0 <= address /\ address + n <= usize_max.
Proof.
  intros Ha (_ & o & av & Ho & Hn & _ & -> & _). pose proof (arena_address _ Ha) as [??].
  pose proof (tile_bounds _ _ (arena_tiles _ Ha) o av (lookup_union_Some_l _ _ _ _ Ho)). lia.
Qed.

(** Pointer writes that fit, on a staged allocation. *)
Lemma write_pointers_staged a a' address n ws :
  arena_ok a -> staging a a' address n -> length (contents a' address) = Z.to_nat n ->
  disjoint_all (write_regions ws) ->
  Forall (fun w => 0 <= wdestination w /\ wdestination w + 8 <= n) ws ->
  Forall (fun w => 0 <= pointee w <= n) ws ->
  exists a'', write_pointers a' address ws = Some (a'', Ok address) /\ staging a a'' address n /\
    (forall w, w ∈ ws ->
       slice (contents a'' address) (Z.to_nat (wdestination w)) (Z.to_nat (wdestination w + 8))
         = u64_le (address + pointee w)) /\
    (forall i : nat, Forall (fun w => Z.of_nat i < wdestination w \/ wdestination w + 8 <= Z.of_nat i) ws ->
       contents a'' address !! i = contents a' address !! i).
Proof.
  intros Ha St Hl Hd Hw Hp. destruct (staging_address _ _ _ _ Ha St) as [??].
  rewrite write_pointers_eq by (done || (eapply Forall_impl; [exact Hp|]; simpl; intros; lia)).
  destruct (write_all_staged a address n (pointer_writes address ws) Ha a' St) as (a2 & E2 & St2 & Ec2).
  { apply Forall_fmap. eapply Forall_impl; [exact Hw|]. intros w ?. unfold compose. simpl. done. }
  assert (Hf : Forall (fits (length (contents a' address))) (pointer_writes address ws)).
  { rewrite Hl. apply Forall_fmap. eapply Forall_impl; [exact Hw|]. intros w ?.
    unfold compose, fits, len in *. simpl in *. rewrite length_u64_le. lia. }
  exists a2. split_and!; [done..| |].
  - intros w Hin. rewrite Ec2.
    apply (apply_writes_read _ _ (wdestination w, u64_le (address + pointee w)) Hf).
    + by rewrite pointer_writes_regions.
    + by apply (list_elem_of_fmap_2 (fun w => (wdestination w, u64_le (address + pointee w)))).
  - intros i Hi. rewrite Ec2. apply apply_writes_outside; [done|].
    apply Forall_fmap. eapply Forall_impl; [exact Hi|]. intros w ?. done.
Qed.

Lemma plan_capture rsv c f : plan rsv c = Some (Ok f) -> PointerFixups.capture f = c.
Proof.
  unfold plan. destruct (objects _ _); [|done]. simpl. destruct (plan_loop _ _ _ _ _ _) as [[]|]; [|done..].
  simpl. by intros [= <-].
Qed.

Lemma prepare_rewritten_spec `{TransactionPayload T} (p : T) a rewrites files :
  arena_ok a -> payload_fits p -> Forall (fun r => 0 <= woffset r) rewrites ->
  exists a' res closed, prepare_rewritten_with_fds a p rewrites files = Some (a', res, closed) /\
    match res with
    | Ok t =>
        closed = [] /\ forallb (inside_data (len (payload_data p))) rewrites = true /\
        exists address, staging a a' address (allocation_size (payload_layout p)) /\
          t = {| oaddress := Some address; olayout := payload_layout p; ofiles := files |} /\
          contents a' address = apply_writes (rewrite_writes rewrites) (staged p)
    | Err (Arena e) =>
        closed = files /\ arena_ok a' /\ preserved a a' /\ same_regions a a' /\
        (allocate a (total (payload_layout p)) = (a, Err e) \/
         e = EINVAL /\ forallb (inside_data (len (payload_data p))) rewrites = false)
    | Err Poisoned => False
    end.
Proof.
  intros Ha Hp Hr. unfold prepare_rewritten_with_fds.
  destruct (prepare_spec p Hp a Ha) as (a1 & [address|e] & -> & Hres); simpl.
  - destruct Hres as [St Ec].
    destruct (rewrite_all_staged p Hp a address _ rewrites Ha eq_refl a1 St Hr)
      as (a2 & [x|e] & -> & H2); simpl.
    + destruct H2 as (-> & St2 & Hin & Ec2). eexists a2, _, _. split; [done|]. split_and!; try done.
      exists address. split_and!; try done. by rewrite Ec2, Ec.
    + destruct H2 as (-> & Hout & Ha2 & S & P). eexists a2, _, _. split; [done|]. split_and!; try done. by right.
  - destruct Hres as [-> E]. eexists a, _, _. split; [done|]. split_and!; try done. by left.
Qed.

(** ** Properties *)

(** A prepared transaction holds exactly what was sent.  Preparing never panics.  When it
    succeeds, the transaction has a fresh allocation that holds the data and the offsets, with
    zeros around them, and then the rewrites, all inside the data; it keeps the descriptors.
    When it fails, no allocation remains, every descriptor is closed, and the arena had no room
    or a rewrite reached outside the data.  Every allocation that was live keeps its bytes. *)
Theorem prepare_rewritten_exact `{TransactionPayload T} (p : T) a rewrites files :
  arena_reachable a -> payload_fits p -> Forall (fun r => 0 <= woffset r) rewrites ->
  exists a' res closed, prepare_rewritten_with_fds a p rewrites files = Some (a', res, closed) /\
    arena_ok a' /\ preserved a a' /\
    match res with
    | Ok t =>
        closed = [] /\ ofiles t = files /\ olayout t = payload_layout p /\
        forallb (inside_data (len (payload_data p))) rewrites = true /\
        exists address s, oaddress t = Some address /\
          (forall s l, live a address <> Ok (s, l)) /\
          live a' address = Ok (s, allocation_size (payload_layout p)) /\
          contents a' address = apply_writes (rewrite_writes rewrites) (staged p)
    | Err (Arena e) =>
        closed = files /\ same_regions a a' /\
        (allocate a (total (payload_layout p)) = (a, Err e) \/
         e = EINVAL /\ forallb (inside_data (len (payload_data p))) rewrites = false)
    | Err Poisoned => False
    end.
Proof.
  intros Ha%arena_reachable_ok Hp Hr.
  destruct (prepare_rewritten_spec p a rewrites files Ha Hp Hr) as (a' & [t|[|e]] & closed & E & H2);
    [|done|].
  - destruct H2 as (-> & Hin & address & St & -> & Ec). eexists a', _, _. split; [exact E|].
    split; [apply St|]. split; [by eapply staging_preserved|]. split_and!; try done.
    destruct (staging_live _ _ _ _ Ha St) as [s Hl]. exists address, s. split_and!; try done.
    intros s' l'. by eapply staging_fresh.
  - destruct H2 as (-> & ? & ? & ? & ?). by exists a', (Err (Arena e)), files.
Qed.

(** C13: Relocated pointers point at the receiver's copies.  For a captured and planned
    transaction, preparing with pointer fixups never panics; it fails only for lack of room,
    and then changes nothing.  Otherwise, in a fresh allocation, every planned word holds the
    receiver's address of the start of a captured buffer, which lies inside the allocation;
    every other byte is that of the gathered transaction, in which the data, the offsets and
    every captured buffer are at their places; and every other allocation keeps its bytes. *)
Theorem relocation_exact {E} (copy : nat -> Z -> bytes -> result bytes E) rsv0 rsv1 rsv2
    d o extra_size s c f a :
  (forall i p buf bs, copy i p buf = Ok bs -> length bs = length buf) -> 0 <= extra_size ->
  TransactionSnapshot.capture rsv0 d o extra_size = Ok s ->
  capture_with copy rsv1 s = Some (Ok c) -> plan rsv2 c = Some (Ok f) -> arena_reachable a ->
  exists a' res, with_pointer_fixups a f = Some (a', res) /\ preserved a a' /\
  match res with
  | Err e => a' = a /\ allocate a (total (slayout s)) = (a, Err e)
  | Ok address =>
      staging a a' address (allocation_size (slayout s)) /\
      (forall w, w ∈ writes f ->
         slice (contents a' address) (Z.to_nat (wdestination w)) (Z.to_nat (wdestination w + 8))
           = u64_le (address + pointee w) /\
         exists b, b ∈ buffers c /\ pointee w = start (destination b) /\
           pointee w + len (bbytes b) <= allocation_size (slayout s)) /\
      (forall i : nat, Forall (fun w => Z.of_nat i < wdestination w \/ wdestination w + 8 <= Z.of_nat i) (writes f) ->
         contents a' address !! i = gathered c !! i) /\
      (forall b, b ∈ buffers c ->
         slice (gathered c) (Z.to_nat (start (destination b)))
           (Z.to_nat (start (destination b) + len (bbytes b))) = bbytes b) /\
      slice (gathered c) 0 (length d) = d /\
      slice (gathered c) (Z.to_nat (start (offsets (slayout s))))
        (Z.to_nat (start (offsets (slayout s)) + len o)) = o
  end.
Proof.
  intros Hcopy He Hs Hc Hf Ha%arena_reachable_ok.
  destruct (plan_sound copy rsv0 rsv1 rsv2 d o extra_size s c Hcopy He Hs Hc) as (r & Hr & Hplan).
  rewrite Hf in Hr. injection Hr as <-. destruct (Hplan f eq_refl) as (Hd & Hin & Hptr & _).
  unfold regions in Hd, Hin. apply disjoint_all_app in Hd as (Hd & _ & _).
  apply Forall_app in Hin as [Hin _]. apply Forall_fmap in Hin. rewrite Forall_forall in Hptr.
  destruct (captured_buffers copy _ _ _ _ _ _ _ Hcopy He Hs Hc) as [Hb _]. rewrite Forall_forall in Hb.
  pose proof (snapshot_fits _ _ _ _ _ He Hs) as Hp. pose proof (allocation_covers s) as Hcov.
  pose proof (capture_Ok _ _ _ _ _ Hs) as (Ed & Eo & _). simpl in *.
  pose proof (gathered_read copy _ _ _ _ _ _ _ Hcopy He Hs Hc) as Hread.
  unfold with_pointer_fixups. rewrite (plan_capture _ _ _ Hf).
  destruct (with_scatter_gather_spec copy _ _ _ _ _ _ _ Hcopy He Hs Hc a Ha)
    as (a1 & [address|e] & -> & Hres); simpl; [|by destruct Hres as [-> ?]; eexists a, (Err e)].
  destruct Hres as [St Ec].
  assert (Hps : forall w, w ∈ writes f -> exists b, b ∈ buffers c /\ pointee w = start (destination b) /\
    0 <= pointee w /\ pointee w + len (bbytes b) <= allocation_size (slayout s)).
  { intros w Hw. destruct (Hptr w Hw) as (b & Hbc & Eb). exists b. destruct (Hb b Hbc) as (? & _ & ? & _).
    split_and!; [done..|lia|lia]. }
  destruct (write_pointers_staged a a1 address _ (writes f) Ha St) as (a2 & E2 & St2 & Hw & Hout).
  { rewrite Ec. by eapply length_gathered. }
  { done. }
  { eapply Forall_impl; [exact Hin|]. intros w. unfold compose. simpl. lia. }
  { apply Forall_forall. intros w Hw. destruct (Hps w Hw) as (b & _ & _ & ? & ?).
    pose proof (len_nonneg (bbytes b)). lia. }
  exists a2, (Ok address). split; [done|]. split; [by eapply staging_preserved|].
  split_and!; [done| | | | |].
  - intros w Hin'. split; [by apply Hw|]. destruct (Hps w Hin') as (b & ? & ? & _ & ?). eauto.
  - intros i Hi. rewrite Hout by done. by rewrite Ec.
  - intros b Hbc. apply (Hread (start (destination b), bbytes b)). apply elem_of_app. right.
    by apply (list_elem_of_fmap_2 (fun b => (start (destination b), bbytes b))).
  - destruct Hp as [E0 _ _ _ _]. simpl in E0.
    specialize (Hread (start (data (slayout s)), sdata s) ltac:(left)). simpl in Hread.
    rewrite E0, Z.add_0_l, Ed in Hread. unfold len in Hread. by rewrite Nat2Z.id in Hread.
  - specialize (Hread (start (offsets (slayout s)), soffsets s) ltac:(right; left)).
    simpl in Hread. by rewrite Eo in Hread.
Qed.

(** ** Witnesses *)

(** Two data words, the second of which is rewritten. *)
Definition sample_payload : TransactionSnapshot :=
  {| sdata := zeroed 4 ++ [Byte.x01; Byte.x02]; soffsets := [];
     slayout := {| data := {| start := 0; stop := 6 |}; offsets := {| start := 8; stop := 8 |};
                   extra := {| start := 8; stop := 8 |}; total := 8 |} |}.
Definition sample_rewrite : Rewrite := {| woffset := 4; wbytes := [Byte.x03] |}.

Lemma prepare_rewritten_exact_witness :
  exists a' t, prepare_rewritten_with_fds example_arena sample_payload [sample_rewrite] [5] = Some (a', Ok t, []) /\
    ofiles t = [5] /\ exists address, oaddress t = Some address /\
    contents a' address = zeroed 4 ++ [Byte.x03; Byte.x02] ++ zeroed 2.
Proof.
  destruct (prepare_rewritten_exact sample_payload example_arena [sample_rewrite] [5])
    as (a' & res & closed & E & _ & _ & Hres).
  - exact example_arena_reachable.
  - split; vm_compute; congruence.
  - repeat constructor. done.
  - assert (exists t, res = Ok t) as [t ->].
    { destruct res as [t|e]; [by exists t|]. exfalso. vm_compute in E. congruence. }
    destruct Hres as (-> & Hf & _ & _ & address & s & Ha & _ & _ & Hc).
    exists a', t. split; [done|]. split; [done|]. exists address. split; [done|].
    rewrite Hc. vm_compute. reflexivity.
Defined.

(** An arena of 256 bytes. *)
Definition wide_arena : ReceiveArena :=
  {| mapping := {| client_address := 4096; pages := zeroed 256 |}; free := {[ 0 := 256 ]};
     allocated := ∅ |}.

Lemma wide_arena_reachable : arena_reachable wide_arena.
Proof.
  exists (Ok 4096), 256, wide_arena. split_and!; [|lia|vm_compute; reflexivity|apply rtc_refl].
  intros address [= <-]. unfold usize_max, u64_max. lia.
Qed.

Lemma relocation_exact_witness :
  exists s c f, TransactionSnapshot.capture reserve_ok nested_data nested_offsets 24 = Ok s /\
    capture_with nested_copy reserve_ok s = Some (Ok c) /\ plan reserve_ok c = Some (Ok f) /\
    exists a', with_pointer_fixups wide_arena f = Some (a', Ok 4096) /\
    slice (contents a' 4096) 16 24 = u64_le (4096 + 104).
Proof.
  eexists _, _, _. split; [vm_compute; reflexivity|]. split; [vm_compute; reflexivity|].
  split; [vm_compute; reflexivity|].
  edestruct (relocation_exact nested_copy reserve_ok reserve_ok reserve_ok nested_data nested_offsets 24)
    as (a' & res & E & _ & Hres);
    [by intros ? ? ? ? [= <-]|done|vm_compute; reflexivity|vm_compute; reflexivity|
     vm_compute; reflexivity|exact wide_arena_reachable|].
  pose proof E as E'. vm_compute in E'. injection E' as _ <-.
  exists a'. split; [exact E|]. destruct Hres as (_ & Hw & _).
  exact (proj1 (Hw {| wdestination := 16; pointee := 104 |} ltac:(left))).
Defined.
