(* ===== verification/TransactionQueue.v ===== *)
(** * The receive queue of a process ([transaction_queue.rs])

    Incoming transactions wait in order until an eligible thread reads them; a delivered
    allocation belongs to the process until its address is freed.  The arena is shared by the
    queue and by its transactions, whose [Drop] releases into it: each operation returns the
    queue, its result and the descriptors closed on the way; [None] is a panic or an abort. *)
From S2P Require Import Prelude TransactionLayout TransactionSnapshot TransactionWire ReceiveArena.
From S2P Require Import NodeOwner ReferenceTable Session Thread RoutingAuthority PreparedTransaction.

Record Route : Type :=
  { rcall : option CallId; target_thread : option Z; deferred_completion : bool }.
Record Header : Type :=
  { hreply : bool; htarget_pointer : Z; htarget_cookie : Z; hcode : Z; hflags : Z;
    hsender_pid : Z; hsender_euid : Z }.
Record Pending : Type := { allocation : OwnedTransaction; header : Header; route : Route }.
Record Delivery : Type :=
  { dbytes : Z; dcall : option CallId; dreply : bool; completion : bool }.
Record Next : Type := { ncall : option CallId; nreply : bool }.
Record Queue : Type :=
  { qarena : ReceiveArena; pending : list Pending; delivered : gmap Z OwnedTransaction }.

Inductive Error : Type := Allocation (e : OwnedError) | UnknownBuffer | DuplicateBuffer | OutOfMemory.

(** [Route::default]. *)
Definition default_route : Route :=
  {| rcall := None; target_thread := None; deferred_completion := false |}.

Definition new (mapped : result Z Errno) (capacity : Z) : result Queue Errno :=
  let? a := ReceiveArena.new mapped capacity in
  Ok {| qarena := a; pending := []; delivered := ∅ |}.

Definition with_qarena (q : Queue) (a : ReceiveArena) : Queue :=
  {| qarena := a; pending := pending q; delivered := delivered q |}.

(** [reserved] is the outcome of [try_reserve]. *)
Definition enqueue_routed_with_fds `{TransactionPayload T} (reserved : bool) (q : Queue) (p : T)
    (header : Header) (rewrites : list Rewrite) (route : Route) (files : list Z)
    : option (Queue * result Z Error * list Z) :=
  '(a, res, closed) ← prepare_rewritten_with_fds (qarena q) p rewrites files;
  match res with
  | Err e => Some (with_qarena q a, Err (Allocation e), closed)
  | Ok allocation =>
      address ← buffer_address allocation;
      if negb reserved then
        '(a, dropped) ← drop_owned a allocation;
        Some (with_qarena q a, Err OutOfMemory, closed ++ dropped)
      else
        Some ({| qarena := a;
                 pending := pending q ++ [{| allocation := allocation; header := header; route := route |}];
                 delivered := delivered q |}, Ok address, closed)
  end.

Definition enqueue_routed `{TransactionPayload T} (reserved : bool) (q : Queue) (p : T)
    (header : Header) (rewrites : list Rewrite) (route : Route) :=
  enqueue_routed_with_fds reserved q p header rewrites route [].
Definition enqueue_rewritten `{TransactionPayload T} (reserved : bool) (q : Queue) (p : T)
    (header : Header) (rewrites : list Rewrite) :=
  enqueue_routed reserved q p header rewrites default_route.
Definition enqueue `{TransactionPayload T} (reserved : bool) (q : Queue) (p : T) (header : Header) :=
  enqueue_rewritten reserved q p header [].

Definition deliverable (thread_id : Z) (accept_async : bool) (p : Pending) : bool :=
  match target_thread (route p) with
  | Some id => id =? thread_id
  | None => accept_async || hreply (header p) || (Z.land (hflags (header p)) 1 =? 0)
  end.

(** [position] on the pending work. *)
Definition position (f : Pending -> bool) (q : Queue) : option (nat * Pending) :=
  list_find (fun p => Is_true (f p)) (pending q).

Definition next_route (q : Queue) (thread_id : Z) (accept_async : bool) : option Next :=
  '(_, p) ← position (deliverable thread_id accept_async) q;
  Some {| ncall := rcall (route p); nreply := hreply (header p) |}.

Definition metadata (p : Pending) (address offsets_address : Z) : Metadata :=
  {| target_pointer := htarget_pointer (header p); target_cookie := htarget_cookie (header p);
     code := hcode (header p); flags := hflags (header p); sender_pid := hsender_pid (header p);
     sender_euid := hsender_euid (header p);
     data_size := range_len (data (olayout (allocation p)));
     offsets_size := range_len (TransactionLayout.offsets (olayout (allocation p)));
     buffer := address; TransactionWire.offsets := offsets_address |}.

(** [route.deferred_completion = false]. *)
Definition completed (p : Pending) : Pending :=
  {| allocation := allocation p; header := header p;
     route := {| rcall := rcall (route p); target_thread := target_thread (route p);
                 deferred_completion := false |} |}.

(** The queue, the output slice, the result and the closed descriptors. *)
Definition read_for_thread (reserved : bool) (q : Queue) (thread_id : Z) (accept_async : bool)
    (output : bytes) : option (Queue * bytes * result (option Delivery) Error * list Z) :=
  match position (deliverable thread_id accept_async) q with
  | None => Some (q, output, Ok None, [])
  | Some (i, p) =>
      if deferred_completion (route p) then
        if (length output <? 4)%nat then Some (q, output, Ok None, [])
        else
          Some ({| qarena := qarena q; pending := <[i := completed p]> (pending q); delivered := delivered q |},
                copy_at 0 (u32_le BR_TRANSACTION_COMPLETE) output,
                Ok (Some {| dbytes := 4; dcall := rcall (route p); dreply := true; completion := true |}), [])
      else if (length output <? RECORD_SIZE)%nat then Some (q, output, Ok None, [])
      else if negb reserved then Some (q, output, Err OutOfMemory, [])
      else
        let rest := delete i (pending q) in
        address ← buffer_address (allocation p);
        offsets ← offsets_address (allocation p);
        let '(output, encoded) := encode_transaction output (hreply (header p)) (metadata p address offsets) in
        encoded ← encoded;
        let q' a := {| qarena := a; pending := rest; delivered := <[address := allocation p]> (delivered q) |} in
        match delivered q !! address with
        | Some old =>
            '(a, closed) ← drop_owned (qarena q) old;
            Some (q' a, output, Err DuplicateBuffer, closed)
        | None =>
            Some (q' (qarena q), output,
                  Ok (Some {| dbytes := encoded; dcall := rcall (route p);
                              dreply := hreply (header p); completion := false |}), [])
        end
  end.

(** [Queue::read]: the number of bytes, in [output]. *)
Definition read (reserved : bool) (q : Queue) (output : bytes)
    : option (Queue * bytes * result Z Error * list Z) :=
  '(q, output, res, closed) ← read_for_thread reserved q 0 true output;
  Some (q, output, result_map (fun d : option Delivery => default 0 (dbytes <$> d)) res, closed).

Definition free (q : Queue) (address : Z) : option (Queue * result unit Error * list Z) :=
  match delivered q !! address with
  | None => Some (q, Err UnknownBuffer, [])
  | Some allocation =>
      '(a, res, closed) ← release_owned (qarena q) allocation;
      Some ({| qarena := a; pending := pending q; delivered := delete address (delivered q) |},
            map_err Allocation res, closed)
  end.

Definition is_call (c : CallId) (p : Pending) : bool :=
  negb (hreply (header p)) && bool_decide (rcall (route p) = Some c).

Definition cancel_pending_call (q : Queue) (c : CallId) : option (Queue * bool * list Z) :=
  match position (is_call c) q with
  | None => Some (q, false, [])
  | Some (i, p) =>
      '(a, closed) ← drop_owned (qarena q) (allocation p);
      Some ({| qarena := a; pending := delete i (pending q); delivered := delivered q |}, true, closed)
  end.

Definition has_pending (q : Queue) : bool := negb (bool_decide (pending q = [])).
Definition has_untargeted (q : Queue) : bool :=
  existsb (fun p => bool_decide (target_thread (route p) = None)) (pending q).

(** Dropping transactions one after another. *)
Fixpoint drop_all (a : ReceiveArena) (ts : list OwnedTransaction) : option (ReceiveArena * list Z) :=
  match ts with
  | [] => Some (a, [])
  | t :: ts =>
      '(a, closed) ← drop_owned a t;
      '(a, rest) ← drop_all a ts;
      Some (a, closed ++ rest)
  end.

(** The drop of a [Queue]: the pending work, then the delivered in the order of the map. *)
Definition drop_queue `{!Iteration Z OwnedTransaction} (q : Queue) : option (ReceiveArena * list Z) :=
  drop_all (qarena q) ((allocation <$> pending q) ++ (iter (delivered q)).*2).

(** ** Specification *)

(** The transactions of a queue. *)
Definition owned (q : Queue) : list OwnedTransaction :=
  (allocation <$> pending q) ++ (map_to_list (delivered q)).*2.

(** The descriptors of transactions. *)
Definition all_files (ts : list OwnedTransaction) : list Z := ts ≫= ofiles.

(** [t] owns a live allocation of its size that holds its image. *)
Definition owns (a : ReceiveArena) (images : gmap Z bytes) (t : OwnedTransaction) : Prop :=
  exists x s, oaddress t = Some x /\ live a x = Ok (s, allocation_size (olayout t)) /\
    images !! x = Some (contents a x).

(** The allocations of [a] are exactly those of [ts], one each. *)
Record holds (a : ReceiveArena) (images : gmap Z bytes) (ts : list OwnedTransaction) : Prop := {
  holds_arena : arena_ok a;
  holds_distinct : NoDup (oaddress <$> ts);
  holds_each : Forall (owns a images) ts;
  holds_all : forall x s l, live a x = Ok (s, l) -> Some x ∈ oaddress <$> ts }.

(** A queue, with the image of each address, and the descriptors handed to it and closed. *)
Record Trace : Type :=
  { queue : Queue; images : gmap Z bytes; handed : list Z; closed : list Z }.

Record trace_ok (g : Trace) : Prop := {
  trace_holds : holds (qarena (queue g)) (images g) (owned (queue g));
  trace_keys : map_Forall (fun x t => oaddress t = Some x) (delivered (queue g));
  trace_files : handed g ≡ₚ closed g ++ all_files (owned (queue g)) }.

(** The image of a transaction: its sections, zeros around them, and its rewrites. *)
Definition image `{TransactionPayload T} (p : T) (rewrites : list Rewrite) : bytes :=
  apply_writes (rewrite_writes rewrites) (staged p).

(** Every operation that changes a queue. *)
Inductive trace_step : Trace -> Trace -> Prop :=
| step_enqueue T (P : TransactionPayload T) g reserved (p : T) h rewrites r files q res out :
    payload_fits p -> Forall (fun r => 0 <= woffset r) rewrites ->
    enqueue_routed_with_fds reserved (queue g) p h rewrites r files = Some (q, res, out) ->
    trace_step g {| queue := q;
                    images := match res with Ok x => <[x := image p rewrites]> (images g) | Err _ => images g end;
                    handed := files ++ handed g; closed := out ++ closed g |}
| step_read g reserved thread_id accept_async output q output' res out :
    read_for_thread reserved (queue g) thread_id accept_async output = Some (q, output', res, out) ->
    trace_step g {| queue := q; images := images g; handed := handed g; closed := out ++ closed g |}
| step_free g address q res out :
    free (queue g) address = Some (q, res, out) ->
    trace_step g {| queue := q; images := images g; handed := handed g; closed := out ++ closed g |}
| step_cancel g c q res out :
    cancel_pending_call (queue g) c = Some (q, res, out) ->
    trace_step g {| queue := q; images := images g; handed := handed g; closed := out ++ closed g |}.

(** The mapping lies in the address space, as for [arena_reachable]. *)
Definition trace_reachable (g : Trace) : Prop :=
  exists mapped capacity q,
    (forall address, mapped = Ok address -> 0 <= address /\ address + capacity <= usize_max) /\
    0 <= capacity /\ new mapped capacity = Ok q /\
    rtc trace_step {| queue := q; images := ∅; handed := []; closed := [] |} g.

(** ** Lemmas *)

#[export] Instance holds_Proper a im : Proper ((≡ₚ) ==> iff) (holds a im).
Proof.
  assert (H : forall ts ts', ts ≡ₚ ts' -> holds a im ts -> holds a im ts').
  { intros ts ts' E [? Hd He Ha]. split; [done| | |].
    - by rewrite <- E.
    - by rewrite <- E.
    - intros x s l Hx. rewrite <- E. by eapply Ha. }
  intros ts ts' E. split; by apply H.
Qed.

#[export] Instance all_files_Proper : Proper ((≡ₚ) ==> (≡ₚ)) all_files.
Proof. intros ts ts' E. unfold all_files. by rewrite E. Qed.

(** Releasing a live allocation always succeeds and touches no other. *)
Lemma release_live a x s l :
  arena_ok a -> live a x = Ok (s, l) ->
  exists a', release a x = (a', Ok tt) /\ arena_ok a' /\
    (forall y s' l', live a' y = Ok (s', l') <-> y <> x /\ live a y = Ok (s', l')) /\
    (forall y s' l', live a' y = Ok (s', l') -> contents a' y = contents a y).
Proof.
  intros Ha Hl. destruct (release a x) as [a' r] eqn:Er. pose proof (release_ok _ _ _ _ Ha Er) as Ha'.
  unfold release in Er. rewrite Hl in Er.
  destruct (absorb_previous _ _ _) as [[f o] n]. destruct (absorb_next _ _ _) as [f' n'].
  injection Er as Ea <-. exists a'. split_and!; try done.
  - intros y s' l'. apply live_Ok in Hl as (? & -> & Hs). rewrite !live_Ok. subst a'. simpl.
    rewrite lookup_delete_Some. split; [|intros (? & ? & -> & ?); split_and!; try done; lia].
    intros (? & -> & ? & ?). split_and!; try done. intros ->. done.
  - intros y s' l' Hy. assert (live a y = Ok (s', l')) as Hy'.
    { apply live_Ok in Hy as (? & -> & Hy). apply live_Ok. subst a'. simpl in *.
      apply lookup_delete_Some in Hy as [_ ?]. done. }
    apply (region_same_pages a a' y s' l'); try done. by subst a'.
Qed.

Lemma owns_frame a a' im t :
  owns a im t -> (forall x s l, oaddress t = Some x -> live a x = Ok (s, l) ->
     live a' x = Ok (s, l) /\ contents a' x = contents a x) -> owns a' im t.
Proof.
  intros (x & s & Hx & Hl & Hi) H. destruct (H x s _ Hx Hl) as [? Ec]. exists x, s. by rewrite Ec.
Qed.

(** Dropping an owned transaction never aborts. *)
Lemma drop_owned_holds a im t ts :
  holds a im (t :: ts) ->
  exists a', release_inner a t =
      (a', {| oaddress := None; olayout := olayout t; ofiles := ofiles t |}, Ok tt) /\
    drop_owned a t = Some (a', ofiles t) /\ holds a' im ts.
Proof.
  intros [Ha [Hn Hd]%NoDup_cons [(x & s & Hx & Hl & Hi) He]%Forall_cons Hall].
  destruct (release_live a x s _ Ha Hl) as (a' & Er & Ha' & Hlive & Hc).
  assert (Ei : release_inner a t =
    (a', {| oaddress := None; olayout := olayout t; ofiles := ofiles t |}, Ok tt)).
  { unfold release_inner. by rewrite Hx, Er. }
  exists a'. split; [done|]. split; [unfold drop_owned; by rewrite Ei|]. split; [done|done| |].
  - rewrite Forall_forall in *. intros u Hu. apply (owns_frame a a' im u (He u Hu)).
    intros y s' l' Hy Hy'. assert (y <> x).
    { intros ->. apply Hn. rewrite Hx, <- Hy. by apply list_elem_of_fmap_2. }
    assert (live a' y = Ok (s', l')) by (by apply Hlive). split; [done|]. by eapply Hc.
  - intros y s' l' [Hne Hy]%Hlive. specialize (Hall y s' l' Hy). simpl in Hall.
    apply elem_of_cons in Hall as [E|]; [|done]. rewrite Hx in E. by injection E.
Qed.

Lemma release_owned_holds a im t ts :
  holds a im (t :: ts) ->
  exists a', release_owned a t = Some (a', Ok tt, ofiles t) /\ holds a' im ts.
Proof.
  intros H. destruct (drop_owned_holds _ _ _ _ H) as (a' & E & _ & ?). exists a'. split; [|done].
  unfold release_owned. by rewrite E.
Qed.

Lemma drop_all_holds ts : forall a im, holds a im ts ->
  exists a', drop_all a ts = Some (a', all_files ts) /\ holds a' im [].
Proof.
  induction ts as [|t ts IH]; intros a im H; [by exists a|]. simpl.
  destruct (drop_owned_holds _ _ _ _ H) as (a1 & _ & -> & H1). simpl.
  destruct (IH a1 im H1) as (a2 & -> & H2). by exists a2.
Qed.

(** A staged allocation becomes one more transaction. *)
Lemma holds_add a a' im ts address n t bs :
  holds a im ts -> staging a a' address n -> oaddress t = Some address ->
  n = allocation_size (olayout t) -> contents a' address = bs ->
  holds a' (<[address := bs]> im) (t :: ts).
Proof.
  intros [Ha Hd He Hall] St Ht -> Hbs.
  assert (Hfresh : forall u, u ∈ ts -> oaddress u <> Some address).
  { intros u Hu E. rewrite Forall_forall in He. destruct (He u Hu) as (x & s & Hx & Hl & _).
    rewrite Hx in E. injection E as ->. by eapply staging_fresh. }
  split; [apply St| | |].
  - apply NoDup_cons. split; [|done]. rewrite Ht. intros (u & Eu & Hu)%list_elem_of_fmap.
    by apply (Hfresh u Hu).
  - apply Forall_cons. split.
    + destruct (staging_live _ _ _ _ Ha St) as [s Hl]. exists address, s.
      rewrite lookup_insert_eq, Hbs. by split_and!.
    + rewrite Forall_forall in *. intros u Hu. destruct (He u Hu) as (x & s & Hx & Hl & Hi).
      destruct (staging_preserved _ _ _ _ Ha St x s _ Hl) as [? Ec]. exists x, s.
      rewrite lookup_insert_ne by (intros <-; by apply (Hfresh u Hu)). by rewrite Ec.
  - intros x s l Hx. destruct (staging_live_inv _ _ _ _ _ _ _ St Hx) as [-> | Hx'].
    + simpl. rewrite Ht. by left.
    + right. by eapply Hall.
Qed.

(** A failed preparation. *)
Lemma holds_same a a' im ts :
  arena_ok a' -> same_regions a a' -> preserved a a' -> holds a im ts -> holds a' im ts.
Proof.
  intros Ha' S P [Ha Hd He Hall]. split; [done|done| |].
  - eapply Forall_impl; [exact He|]. intros t Ht. apply (owns_frame a a' im t Ht). intros; by apply P.
  - intros x s l. rewrite (same_regions_live _ _ _ S). apply Hall.
Qed.

Lemma owned_enqueued q a p :
  owned {| qarena := a; pending := pending q ++ [p]; delivered := delivered q |} ≡ₚ allocation p :: owned q.
Proof.
  unfold owned. simpl. rewrite fmap_app, <- app_assoc. simpl. by rewrite Permutation_middle.
Qed.

Lemma delete_perm {A B} (f : A -> B) (l : list A) i x :
  l !! i = Some x -> f <$> l ≡ₚ f x :: (f <$> delete i l).
Proof. intros H. rewrite <- fmap_cons. apply fmap_Permutation. by apply delete_Permutation. Qed.

Lemma owned_removed q a i p :
  pending q !! i = Some p ->
  owned q ≡ₚ allocation p :: owned {| qarena := a; pending := delete i (pending q); delivered := delivered q |}.
Proof. intros H. unfold owned. simpl. by rewrite (delete_perm allocation _ _ _ H). Qed.

Lemma owned_freed q a x t :
  delivered q !! x = Some t ->
  owned q ≡ₚ t :: owned {| qarena := a; pending := pending q; delivered := delete x (delivered q) |}.
Proof.
  intros H. unfold owned. simpl. rewrite <- (map_to_list_delete _ _ _ H). simpl.
  by rewrite <- Permutation_middle.
Qed.

Lemma owned_delivered q a i p x :
  pending q !! i = Some p -> delivered q !! x = None ->
  owned {| qarena := a; pending := delete i (pending q); delivered := <[x := allocation p]> (delivered q) |}
    ≡ₚ owned q.
Proof.
  intros H Hx. unfold owned. simpl. rewrite map_to_list_insert by done. simpl.
  rewrite (delete_perm allocation _ _ _ H). by rewrite <- Permutation_middle.
Qed.

Lemma owned_completed q a i p :
  pending q !! i = Some p ->
  owned {| qarena := a; pending := <[i := completed p]> (pending q); delivered := delivered q |} = owned q.
Proof.
  intros H. unfold owned. simpl. rewrite list_fmap_insert, list_insert_id; [done|].
  by rewrite list_lookup_fmap, H.
Qed.

Lemma position_Some f q i p : position f q = Some (i, p) -> pending q !! i = Some p /\ f p = true.
Proof. intros (? & ? & _)%list_find_Some. split; [done|]. by apply Is_true_true. Qed.

Lemma deliverable_spec thread_id accept_async p :
  deliverable thread_id accept_async p = true ->
  target_thread (route p) = Some thread_id \/
  target_thread (route p) = None /\
  (accept_async = true \/ hreply (header p) = true \/ Z.land (hflags (header p)) 1 = 0).
Proof.
  unfold deliverable. destruct (target_thread (route p)); [intros ->%Z.eqb_eq; by left|].
  rewrite !orb_true_iff, Z.eqb_eq. intros [[]|]; auto 6.
Qed.

(** The address of pending work is not that of a delivered transaction. *)
Lemma pending_undelivered g i p :
  trace_ok g -> pending (queue g) !! i = Some p ->
  exists x, oaddress (allocation p) = Some x /\ delivered (queue g) !! x = None.
Proof.
  intros [[_ Hd He _] Hk _] Hi. unfold owned in *.
  assert (Hp : allocation p ∈ allocation <$> pending (queue g)).
  { apply list_elem_of_fmap_2. by eapply list_elem_of_lookup_2. }
  rewrite Forall_app in He. destruct He as [He _]. rewrite Forall_forall in He.
  destruct (He _ Hp) as (x & s & Hx & _). exists x. split; [done|].
  destruct (delivered (queue g) !! x) as [t|] eqn:Et; [|done]. exfalso.
  rewrite fmap_app in Hd. apply NoDup_app in Hd as (_ & Hd & _). apply (Hd (Some x)).
  - rewrite <- Hx. by apply list_elem_of_fmap_2.
  - rewrite <- (Hk x t Et). apply list_elem_of_fmap_2.
    apply (list_elem_of_fmap_2 snd _ (x, t)). by apply elem_of_map_to_list.
Qed.

Lemma new_trace_ok mapped capacity q :
  (forall address, mapped = Ok address -> 0 <= address /\ address + capacity <= usize_max) ->
  0 <= capacity -> new mapped capacity = Ok q ->
  trace_ok {| queue := q; images := ∅; handed := []; closed := [] |}.
Proof.
  intros Hm Hc. unfold new. destruct (ReceiveArena.new mapped capacity) as [a|] eqn:E; [|done].
  intros [= <-]. pose proof (new_arena_ok _ _ _ Hm Hc E) as Ha.
  assert (Hal : allocated a = ∅).
  { unfold ReceiveArena.new in E. destruct (_ || _); [done|]. destruct (mapping_new _ _); [|done]. by injection E as <-. }
  split; simpl; [|apply map_Forall_empty|done]. unfold owned. simpl. rewrite map_to_list_empty.
  split; [done|constructor|constructor|]. intros x s l (_ & _ & H)%live_Ok. by rewrite Hal, lookup_empty in H.
Qed.

(** *** Operations preserve the invariant and never panic *)

(** Dropping a transaction just prepared. *)
Lemma drop_owned_staging a a' address n t :
  arena_ok a -> staging a a' address n -> oaddress t = Some address ->
  exists b, drop_owned a' t = Some (b, ofiles t) /\ arena_ok b /\ same_regions a b /\ preserved a b.
Proof.
  intros Ha St Ht. destruct (staging_drop _ _ _ _ Ha St) as (b & E & ?). exists b. split; [|done].
  unfold drop_prepared in E. unfold drop_owned, release_inner. rewrite Ht.
  destruct (release a' address) as [a2 [[]|]]; [|done]. simpl. by injection E as ->.
Qed.

(** Exactly one transaction is added, or none. *)
Definition enqueued (q q' : Queue) (l : TransactionLayout) (h : Header) (r : Route) (files : list Z)
    (res : result Z Error) (out : list Z) : Prop :=
  match res with
  | Ok x =>
      out = [] /\
      q' = {| qarena := qarena q';
              pending := pending q ++ [{| allocation := {| oaddress := Some x; olayout := l; ofiles := files |};
                                          header := h; route := r |}];
              delivered := delivered q |}
  | Err _ => out = files /\ q' = with_qarena q (qarena q')
  end.

Lemma enqueue_trace `{TransactionPayload T} g reserved (p : T) h rewrites r files :
  trace_ok g -> payload_fits p -> Forall (fun r => 0 <= woffset r) rewrites ->
  exists q res out, enqueue_routed_with_fds reserved (queue g) p h rewrites r files = Some (q, res, out) /\
    enqueued (queue g) q (payload_layout p) h r files res out /\
    trace_ok {| queue := q;
                images := match res with Ok x => <[x := image p rewrites]> (images g) | Err _ => images g end;
                handed := files ++ handed g; closed := out ++ closed g |}.
Proof.
  intros [Hh Hk Hf] Hp Hr. unfold enqueue_routed_with_fds.
  destruct (prepare_rewritten_spec p (qarena (queue g)) rewrites files (holds_arena _ _ _ Hh) Hp Hr)
    as (a & [t|[|e]] & out & -> & Hres); [|done|].
  - destruct Hres as (-> & _ & address & St & -> & Ec). simpl.
    set (t := {| oaddress := Some address; olayout := payload_layout p; ofiles := files |}).
    destruct reserved; simpl.
    + eexists _, _, _. split; [done|]. split; [done|]. split; simpl; [rewrite owned_enqueued|done|].
      * by eapply (holds_add _ _ _ _ _ _ t).
      * rewrite owned_enqueued. unfold all_files. simpl. rewrite Hf. unfold all_files. solve_Permutation.
    + destruct (drop_owned_staging _ _ _ _ t (holds_arena _ _ _ Hh) St eq_refl) as (b & -> & ? & ? & ?).
      simpl. eexists _, _, _. split; [done|]. split; [done|]. split; simpl; [by eapply holds_same|done|].
      by rewrite Hf, app_assoc.
  - destruct Hres as (-> & ? & ? & ? & _). simpl. eexists _, _, _. split; [done|]. split; [done|].
    split; simpl; [by eapply holds_same|done|]. by rewrite Hf, app_assoc.
Qed.

Lemma read_trace g reserved thread_id accept_async output :
  trace_ok g ->
  exists q output' res, read_for_thread reserved (queue g) thread_id accept_async output = Some (q, output', res, []) /\
    res <> Err DuplicateBuffer /\
    trace_ok {| queue := q; images := images g; handed := handed g; closed := closed g |}.
Proof.
  intros Hg. assert (trace_ok {| queue := queue g; images := images g; handed := handed g; closed := closed g |})
    as Hsame by (by destruct g).
  unfold read_for_thread. destruct (position _ _) as [[i p]|] eqn:Ep; [|by eexists _, _, _].
  apply position_Some in Ep as [Hi _]. destruct Hg as [Hh Hk Hf] eqn:Eg. clear Eg.
  destruct (deferred_completion (route p)).
  { destruct (_ <? _)%nat; eexists _, _, _; (split; [done|]); [done|]. split; [done|].
    split; simpl; rewrite ?(owned_completed _ _ _ _ Hi); done. }
  destruct (Nat.ltb_spec (length output) RECORD_SIZE) as [|Hlen]; [by eexists _, _, _|].
  destruct reserved; simpl; [|by eexists _, _, _].
  destruct (pending_undelivered g i p) as (x & Hx & Hu); [done|done|].
  unfold offsets_address, buffer_address. rewrite Hx. simpl. rewrite encode_transaction_packed.
  rewrite (proj2 (Nat.ltb_ge _ _)) by done. simpl. rewrite Hu.
  eexists _, _, _. split; [done|]. split; [done|]. split; simpl.
  - by rewrite owned_delivered.
  - by apply map_Forall_insert_2.
  - by rewrite owned_delivered.
Qed.

Lemma free_trace g address :
  trace_ok g ->
  exists q res out, free (queue g) address = Some (q, res, out) /\
    res = match delivered (queue g) !! address with Some _ => Ok tt | None => Err UnknownBuffer end /\
    trace_ok {| queue := q; images := images g; handed := handed g; closed := out ++ closed g |}.
Proof.
  intros [Hh Hk Hf]. unfold free. destruct (delivered (queue g) !! address) as [t|] eqn:Et.
  - pose proof (owned_freed (queue g) (qarena (queue g)) address t Et) as Ep.
    rewrite Ep in Hh, Hf. destruct (release_owned_holds _ _ _ _ Hh) as (a & -> & Hh').
    simpl. eexists _, _, _. split; [done|]. split; [done|].
    split; simpl; [done|by apply map_Forall_delete|]. rewrite Hf. unfold all_files. simpl.
    solve_Permutation.
  - eexists _, _, _. split; [done|]. split; [done|]. by split.
Qed.

Lemma cancel_trace g c :
  trace_ok g ->
  exists q res out, cancel_pending_call (queue g) c = Some (q, res, out) /\
    trace_ok {| queue := q; images := images g; handed := handed g; closed := out ++ closed g |}.
Proof.
  intros [Hh Hk Hf]. unfold cancel_pending_call.
  destruct (position _ _) as [[i p]|] eqn:Ep; [|by eexists _, _, _].
  apply position_Some in Ep as [Hi _].
  pose proof (owned_removed (queue g) (qarena (queue g)) i p Hi) as Eq.
  rewrite Eq in Hh, Hf. destruct (drop_owned_holds _ _ _ _ Hh) as (a & _ & -> & Hh').
  simpl. eexists _, _, _. split; [done|]. split; simpl; [done|done|]. rewrite Hf. unfold all_files. simpl.
  solve_Permutation.
Qed.

Lemma trace_reachable_ok g : trace_reachable g -> trace_ok g.
Proof.
  intros (mapped & capacity & q & Hm & Hc & Hn & Hr). pose proof (new_trace_ok _ _ _ Hm Hc Hn) as H0.
  clear Hn. induction Hr as [|g0 g1 g2 Hs _ IH]; [done|]. apply IH. clear IH.
  destruct Hs as [T P g reserved p h rewrites r files q0 res out Hp Hw E|g reserved th ac output q0 o' res out E
                 |g address q0 res out E|g c q0 res out E].
  - destruct (enqueue_trace g reserved p h rewrites r files H0 Hp Hw) as (? & ? & ? & E' & _ & ?).
    rewrite E in E'. by simplify_eq.
  - destruct (read_trace g reserved th ac output H0) as (? & ? & ? & E' & _ & ?).
    rewrite E in E'. by simplify_eq.
  - destruct (free_trace g address H0) as (? & ? & ? & E' & _ & ?). rewrite E in E'. by simplify_eq.
  - destruct (cancel_trace g c H0) as (? & ? & ? & E' & ?). rewrite E in E'. by simplify_eq.
Qed.

Lemma drop_queue_trace `{!Iteration Z OwnedTransaction} g :
  trace_ok g ->
  exists a files, drop_queue (queue g) = Some (a, files) /\ handed g ≡ₚ closed g ++ files /\
    forall x s l, live a x <> Ok (s, l).
Proof.
  intros [Hh _ Hf]. unfold drop_queue.
  assert (Ep : owned (queue g) ≡ₚ (allocation <$> pending (queue g)) ++ (iter (delivered (queue g))).*2).
  { unfold owned. by rewrite iter_perm. }
  rewrite Ep in Hh, Hf. destruct (drop_all_holds _ _ _ Hh) as (a & E & [_ _ _ Ha]).
  exists a, (all_files ((allocation <$> pending (queue g)) ++ (iter (delivered (queue g))).*2)).
  split_and!; [done|done|]. intros x s l Hx. specialize (Ha x s l Hx). by apply not_elem_of_nil in Ha.
Qed.

(** The delivered allocation of a trace is freed. *)
Lemma free_delivered g x t :
  trace_ok g -> delivered (queue g) !! x = Some t ->
  exists q, free (queue g) x = Some (q, Ok tt, ofiles t) /\ (forall s l, live (qarena q) x <> Ok (s, l)) /\
    delivered q = delete x (delivered (queue g)).
Proof.
  intros [Hh Hk _] Ht. unfold free. rewrite Ht.
  pose proof (owned_freed (queue g) (qarena (queue g)) x t Ht) as Ep. rewrite Ep in Hh.
  pose proof (holds_distinct _ _ _ Hh) as [Hn _]%NoDup_cons.
  destruct (release_owned_holds _ _ _ _ Hh) as (a & -> & [_ _ _ Ha]). simpl.
  eexists. split; [done|]. split; [|done]. simpl. intros s l Hl. apply Hn.
  rewrite (Hk x t Ht). by eapply Ha.
Qed.

(** ** Properties *)

(** C12: The receive arena and the queue always agree.  In every reachable state the live
    allocations of the arena are exactly those of the pending and delivered transactions, one
    each, of the size of its layout, and each still holds the image it was sent with; the
    delivered map is keyed by address; and every descriptor ever handed over is either owned
    by one transaction or has been closed, exactly once.  No enqueue, read, free or
    cancellation panics or aborts, and dropping the queue, in any order of the map, releases
    every allocation and closes every descriptor left. *)
Theorem queue_invariant `{!Iteration Z OwnedTransaction} g :
  trace_reachable g ->
  Forall (owns (qarena (queue g)) (images g)) (owned (queue g)) /\
  NoDup (oaddress <$> owned (queue g)) /\
  (forall x s l, live (qarena (queue g)) x = Ok (s, l) -> Some x ∈ oaddress <$> owned (queue g)) /\
  map_Forall (fun x t => oaddress t = Some x) (delivered (queue g)) /\
  handed g ≡ₚ closed g ++ all_files (owned (queue g)) /\
  (forall T (P : TransactionPayload T) reserved (p : T) h rewrites r files, payload_fits p ->
     Forall (fun r => 0 <= woffset r) rewrites ->
     is_Some (enqueue_routed_with_fds reserved (queue g) p h rewrites r files)) /\
  (forall reserved thread_id accept_async output,
     is_Some (read_for_thread reserved (queue g) thread_id accept_async output)) /\
  (forall address, is_Some (free (queue g) address)) /\
  (forall c, is_Some (cancel_pending_call (queue g) c)) /\
  exists a files, drop_queue (queue g) = Some (a, files) /\ handed g ≡ₚ closed g ++ files /\
    forall x s l, live a x <> Ok (s, l).
Proof.
  intros Hg%trace_reachable_ok. pose proof Hg as [[_ ? ? ?] ? ?]. split_and!; try done.
  - intros * Hs Hr. destruct (enqueue_trace g reserved p h rewrites r files Hg Hs Hr) as (? & ? & ? & -> & _).
    by eexists.
  - intros. destruct (read_trace g reserved thread_id accept_async output Hg) as (? & ? & ? & -> & _). by eexists.
  - intros. destruct (free_trace g address Hg) as (? & ? & ? & -> & _). by eexists.
  - intros. destruct (cancel_trace g c Hg) as (? & ? & ? & -> & _). by eexists.
  - by apply drop_queue_trace.
Qed.

(** A read takes the first work its thread may take, whole or not at all: work targeted at
    the thread, or untargeted work that is not asynchronous unless the thread accepts that.
    An output too short for the record leaves the queue and the output as they were; a
    deferred completion is published first and keeps the work queued.
    Otherwise the packed record names a buffer that holds exactly the image that was sent, at
    an address not delivered before, and freeing that address succeeds, closes its descriptors
    and ends the allocation. *)
Theorem read_for_thread_exact g reserved thread_id accept_async output :
  trace_reachable g ->
  exists q output' res,
    read_for_thread reserved (queue g) thread_id accept_async output = Some (q, output', res, []) /\
    match position (deliverable thread_id accept_async) (queue g) with
    | None => q = queue g /\ output' = output /\ res = Ok None
    | Some (i, p) =>
        pending (queue g) !! i = Some p /\
        (target_thread (route p) = Some thread_id \/
         target_thread (route p) = None /\
         (accept_async = true \/ hreply (header p) = true \/ Z.land (hflags (header p)) 1 = 0)) /\
        (forall j p', pending (queue g) !! j = Some p' -> (j < i)%nat -> deliverable thread_id accept_async p' = false) /\
        if (length output <? if deferred_completion (route p) then 4 else RECORD_SIZE)%nat
        then q = queue g /\ output' = output /\ res = Ok None
        else if deferred_completion (route p) then
          q = {| qarena := qarena (queue g); pending := <[i := completed p]> (pending (queue g));
                 delivered := delivered (queue g) |} /\
          output' = u32_le BR_TRANSACTION_COMPLETE ++ drop 4 output /\
          res = Ok (Some {| dbytes := 4; dcall := rcall (route p); dreply := true; completion := true |})
        else if reserved then
          exists x, oaddress (allocation p) = Some x /\ delivered (queue g) !! x = None /\
            q = {| qarena := qarena (queue g); pending := delete i (pending (queue g));
                   delivered := <[x := allocation p]> (delivered (queue g)) |} /\
            output' = record (hreply (header p))
                        (metadata p x (x + start (TransactionLayout.offsets (olayout (allocation p)))))
                      ++ drop RECORD_SIZE output /\
            res = Ok (Some {| dbytes := 68; dcall := rcall (route p); dreply := hreply (header p);
                              completion := false |}) /\
            images g !! x = Some (contents (qarena q) x) /\
            exists q', free q x = Some (q', Ok tt, ofiles (allocation p)) /\
              (forall s l, live (qarena q') x <> Ok (s, l)) /\ delivered q' = delivered (queue g)
        else q = queue g /\ output' = output /\ res = Err OutOfMemory
    end.
Proof.
  intros Hg%trace_reachable_ok.
  destruct (read_trace g reserved thread_id accept_async output Hg) as (q & output' & res & Er & _ & Hq).
  exists q, output', res. split; [done|]. revert Er. unfold read_for_thread.
  destruct (position _ _) as [[i p]|] eqn:Ep; [|by intros [= <- <- <-]].
  pose proof Ep as (_ & _ & Hfirst)%list_find_Some. apply position_Some in Ep as [Hi Hdel]. intros Er.
  split_and!; [done|by apply deliverable_spec| |].
  { intros j p' Hj Hji. specialize (Hfirst j p' Hj Hji). by destruct (deliverable _ _ p'). }
  destruct (deferred_completion (route p)).
  { destruct (Nat.ltb_spec (length output) 4) as [|Hl]; injection Er as <- <- <-; [done|].
    split_and!; [done| |done]. by rewrite copy_at_def. }
  destruct (length output <? RECORD_SIZE)%nat eqn:El; [by injection Er as <- <- <-|].
  destruct reserved; simpl in Er; [|by injection Er as <- <- <-].
  destruct (pending_undelivered g i p Hg Hi) as (x & Hx & Hu). exists x.
  unfold offsets_address, buffer_address in Er. rewrite Hx in Er. simpl in Er.
  rewrite encode_transaction_packed, El in Er. simpl in Er. rewrite Hu in Er. injection Er as <- <- <-.
  split_and!; try done.
  - destruct Hg as [[_ _ He _] _ _]. rewrite Forall_forall in He.
    destruct (He (allocation p)) as (y & s & Hy & _ & Hi'); [|by simplify_eq].
    apply elem_of_app. left. apply list_elem_of_fmap_2. by eapply list_elem_of_lookup_2.
  - destruct (free_delivered _ x (allocation p) Hq) as (q' & Ef & Hl & Hd); [by simpl; rewrite lookup_insert_eq|].
    exists q'. split_and!; try done. rewrite Hd. simpl. by apply delete_insert_id.
Qed.

(** ** Witnesses *)

Definition sample_header : Header :=
  {| hreply := false; htarget_pointer := 17; htarget_cookie := 34; hcode := 7; hflags := 0;
     hsender_pid := 9; hsender_euid := 10 |}.
Definition sample_queue : Queue := {| qarena := example_new; pending := []; delivered := ∅ |}.
Definition sample_trace : Trace :=
  {| queue := default sample_queue ((fun r => r.1.1) <$>
       enqueue_routed_with_fds true sample_queue sample_payload sample_header [sample_rewrite] default_route [5]);
     images := {[ 4096 := image sample_payload [sample_rewrite] ]}; handed := [5]; closed := [] |}.

Lemma sample_trace_reachable : trace_reachable sample_trace.
Proof.
  exists (Ok 4096), 64, sample_queue. split_and!; [|lia|vm_compute; reflexivity|].
  { intros address [= <-]. unfold usize_max, u64_max. lia. }
  apply rtc_once.
  refine (step_enqueue _ _ {| queue := sample_queue; images := ∅; handed := []; closed := [] |}
    true sample_payload sample_header [sample_rewrite] default_route [5] (queue sample_trace) (Ok 4096) [] _ _ _).
  - split; vm_compute; congruence.
  - by repeat constructor.
  - vm_compute. reflexivity.
Qed.

Lemma queue_invariant_witness :
  exists a files, drop_queue (queue sample_trace) = Some (a, files) /\ [5] ≡ₚ files.
Proof.
  destruct (queue_invariant sample_trace sample_trace_reachable)
    as (_ & _ & _ & _ & _ & _ & _ & _ & _ & a & files & E & Hf & _).
  exists a, files. split; [exact E|exact Hf].
Defined.

Lemma read_for_thread_exact_witness :
  exists q output, read_for_thread true (queue sample_trace) 3 true (zeroed 70) =
      Some (q, output, Ok (Some {| dbytes := 68; dcall := None; dreply := false; completion := false |}), []) /\
    length output = 70%nat /\
    contents (qarena q) 4096 = zeroed 4 ++ [Byte.x03; Byte.x02] ++ zeroed 2 /\
    exists q', free q 4096 = Some (q', Ok tt, [5]).
Proof.
  destruct (read_for_thread_exact sample_trace true 3 true (zeroed 70) sample_trace_reachable)
    as (q & output & res & E & _ & _ & _ & x & Hx & _ & _ & Ho & -> & Hi & q' & Hf & _).
  vm_compute in Hx. injection Hx as <-. exists q, output. split; [exact E|]. split.
  - rewrite Ho. vm_compute. reflexivity.
  - split; [|by exists q']. vm_compute in Hi. injection Hi as Hi. symmetry. exact Hi.
Defined.
