(* ===== verification/Connection.v ===== *)
(** * Connections ([connection.rs], [connection/*.rs], [remote_transaction.rs], [installed_fds.rs])

    A connection is one open of the device: its session, its threads, its death work, its worker
    pool and its receive queue, each behind a mutex of its own, and a work signal shared with
    its nodes and threads.  Nodes and signals live in the store.  An operation that publishes a
    transaction holds the session's mutex throughout. *)
From S2P Require Import Prelude RoutingAuthority TransactionQueue DeathWork.
From S2P Require Import Command AuthorityProtocol Objects TransactionSnapshot TransactionRequest.
From S2P Require Import NodeWork WorkSignal NodeOwner ReferenceTable Session Thread.
From S2P Require Import ReceiveArena TransferImage PreparedTransaction World.

(** ** Worker pool ([connection/pool.rs]) *)

Definition BR_SPAWN_LOOPER : Z := 0x720d.

Record Pool : Type :=
  { max_threads : option Z; requested_thread : bool; admitted_threads : Z; idle_waiters : gset Z }.

Definition default_pool : Pool :=
  {| max_threads := None; requested_thread := false; admitted_threads := 0; idle_waiters := ∅ |}.

Definition set_max_threads (p : Pool) (maximum : Z) : Pool :=
  {| max_threads := Some maximum; requested_thread := requested_thread p;
     admitted_threads := admitted_threads p; idle_waiters := idle_waiters p |}.

Definition begin_register (p : Pool) : result unit Thread.Error :=
  ensure (requested_thread p) UnrequestedRegistration.

(** [None] is the failure of the debug assertion. *)
Definition finish_register (debug : bool) (p : Pool) : option Pool :=
  if debug && negb (requested_thread p) then None
  else Some {| max_threads := max_threads p; requested_thread := false;
               admitted_threads := Z.min (admitted_threads p + 1) u32_max; idle_waiters := idle_waiters p |}.

Definition enter_wait (p : Pool) (thread_id : Z) : Pool * bool :=
  ({| max_threads := max_threads p; requested_thread := requested_thread p;
      admitted_threads := admitted_threads p; idle_waiters := {[thread_id]} ∪ idle_waiters p |},
   negb (bool_decide (thread_id ∈ idle_waiters p))).

Definition leave_wait (p : Pool) (thread_id : Z) : Pool :=
  {| max_threads := max_threads p; requested_thread := requested_thread p;
     admitted_threads := admitted_threads p; idle_waiters := idle_waiters p ∖ {[thread_id]} |}.

Definition reserve_spawn (p : Pool) : Pool * bool :=
  match max_threads p with
  | None => (p, false)
  | Some maximum =>
      if requested_thread p || negb (bool_decide (idle_waiters p = ∅)) || (maximum <=? admitted_threads p)
      then (p, false)
      else ({| max_threads := max_threads p; requested_thread := true;
               admitted_threads := admitted_threads p; idle_waiters := idle_waiters p |}, true)
  end.

(** ** Connections ([connection.rs]) *)

(** Locks are never poisoned without a panic, so [Poisoned] is never produced. *)
Inductive Error : Type :=
| Closed | Poisoned | WrongOwner | AlreadyRegistered | CCommand (e : Session.Error)
| CThread (e : Thread.Error) | ContextNode (e : ManagerError) | Io (e : Errno)
| MappingAlreadyInstalled | MappingNotInstalled | CQueue (e : TransactionQueue.Error)
| ObjectTransfer (e : ObjectError) | CReference (e : ReferenceTable.Error) | UnknownRemoteCall
| COutOfMemory | CDeath (e : DeathWork.Error).

Record Connection : Type :=
  { csession : option Session; cthreads : gmap Z Thread; csignal : SignalRef;
    cdeath : DeathWork.Queue; cpool : Pool; ctransactions : option TransactionQueue.Queue }.

Definition set_csession (c : Connection) (s : option Session) : Connection :=
  {| csession := s; cthreads := cthreads c; csignal := csignal c; cdeath := cdeath c;
     cpool := cpool c; ctransactions := ctransactions c |}.
Definition set_cthreads (c : Connection) (ts : gmap Z Thread) : Connection :=
  {| csession := csession c; cthreads := ts; csignal := csignal c; cdeath := cdeath c;
     cpool := cpool c; ctransactions := ctransactions c |}.
Definition set_cdeath (c : Connection) (d : DeathWork.Queue) : Connection :=
  {| csession := csession c; cthreads := cthreads c; csignal := csignal c; cdeath := d;
     cpool := cpool c; ctransactions := ctransactions c |}.
Definition set_cpool (c : Connection) (p : Pool) : Connection :=
  {| csession := csession c; cthreads := cthreads c; csignal := csignal c; cdeath := cdeath c;
     cpool := p; ctransactions := ctransactions c |}.
Definition set_ctransactions (c : Connection) (q : option TransactionQueue.Queue) : Connection :=
  {| csession := csession c; cthreads := cthreads c; csignal := csignal c; cdeath := cdeath c;
     cpool := cpool c; ctransactions := q |}.

(** [Connection::new]. *)
Definition new_connection (σ : Store) (s : Session) : Store * Connection :=
  let r := fresh (dom (signals σ)) in
  let σ := set_signals σ (<[r := default_signal]> (signals σ)) in
  (attach_work_signal σ (sowner s) r,
   {| csession := Some s; cthreads := ∅; csignal := r; cdeath := DeathWork.default_queue;
      cpool := default_pool; ctransactions := None |}).

(** [guard.as_mut().ok_or(Error::Closed)?] and an operation of the session. *)
Definition in_session {A} (σ : Store) (c : Connection)
    (k : Session -> Store * Session * result A Error) : Store * Connection * result A Error :=
  match csession c with
  | None => (σ, c, Err Closed)
  | Some s => let '(σ, s, res) := k s in (σ, set_csession c (Some s), res)
  end.

Definition ensure_open (c : Connection) : result unit Error :=
  result_map (fun _ => tt) (ok_or (csession c) Closed).

Definition hold_local_node (σ : Store) (c : Connection) (local : LocalNodeToken) (k : HoldKind)
    : Store * Connection * result LocalHold Error :=
  in_session σ c (fun s =>
    match lookup_local_node s local with
    | Err _ => (σ, s, Err WrongOwner)
    | Ok node => let '(σ, res) := hold σ node k in (σ, s, map_err Io res)
    end).

Definition connection_bind_routing_id (σ : Store) (c : Connection) (id : ConnectionId)
    : Store * Connection * result unit Error :=
  in_session σ c (fun s =>
    let '(σ, res) := bind_routing_id σ (sowner s) id in
    (σ, s, map_err (fun _ => AlreadyRegistered) res)).

Definition connection_context_reference (σ : Store) (c : Connection) (input : bytes)
    (manager : option NodeRef) : Store * Connection * result Session.Outcome Error :=
  in_session σ c (fun s =>
    let '(σ, s, res) := execute_context_reference σ s input manager in
    (σ, s, map_err CCommand (result_map ContextReference res))).

Definition connection_remote_node (c : Connection) (handle : Z) : result NodeToken Error :=
  let? s := ok_or (csession c) Closed in map_err CReference (remote_node_for_handle s handle).

Definition connection_context_manager_refs (rsv : Reserve) (σ : Store) (c : Connection) (object : Object)
    : Store * Connection * result ContextManagerRefs Error :=
  in_session σ c (fun s =>
    let '(σ, s, res) := create_context_manager_refs rsv σ s object in (σ, s, map_err ContextNode res)).

Definition connection_execute (σ : Store) (c : Connection) (input : bytes)
    : Store * Connection * result Session.Outcome Error :=
  in_session σ c (fun s =>
    let '(σ, s, res) := Session.execute σ s input in (σ, s, map_err CCommand res)).

Definition connection_read_node_work (σ : Store) (c : Connection) (output : bytes)
    : Store * bytes * result Z Error :=
  match csession c with
  | None => (σ, output, Err Closed)
  | Some s => let '(σ, output, res) := read_node_work σ s output in (σ, output, map_err Io res)
  end.

Definition enqueue_dead_binder (rsv : Reserve) (σ : Store) (c : Connection) (cookie : Z)
    : Store * Connection * result unit Error :=
  match DeathWork.enqueue_dead rsv (cdeath c) cookie with
  | (d, Err e) => (σ, set_cdeath c d, Err (CDeath e))
  | (d, Ok _) => (signal_notify σ (csignal c), set_cdeath c d, Ok tt)
  end.

Definition enqueue_clear_death_done (rsv : Reserve) (σ : Store) (c : Connection) (cookie : Z)
    : Store * Connection * result unit Error :=
  match DeathWork.enqueue_clear_done rsv (cdeath c) cookie with
  | (d, Err e) => (σ, set_cdeath c d, Err (CDeath e))
  | (d, Ok _) => (signal_notify σ (csignal c), set_cdeath c d, Ok tt)
  end.

Definition acknowledge_dead_binder (c : Connection) (cookie : Z) : Connection * result unit Error :=
  let '(d, res) := DeathWork.acknowledge_dead (cdeath c) cookie in (set_cdeath c d, map_err CDeath res).

Definition read_death_work (debug : bool) (c : Connection) (output : bytes)
    : option (Connection * bytes * Z) :=
  '(d, output, n) ← DeathWork.read debug (cdeath c) output;
  Some (set_cdeath c d, output, n).

(** [bind_target]: a refused target drops its references. *)
Definition bind_target (σ : Store) (c : Connection) (refs : TargetReferences)
    : option (Store * result TargetReferences Error) :=
  match csession c with
  | None => σ ← drop_target σ refs; Some (σ, Err Closed)
  | Some s =>
      if negb (owns_node σ s (hnode (ttemporary refs)))
      then σ ← drop_target σ refs; Some (σ, Err WrongOwner)
      else Some (σ, Ok refs)
  end.

(** [TargetConnection::commit]. *)
Definition commit {T} (c : Connection) (publish : result T Errno) : result (result T Errno) Error :=
  let? _ := ok_or (csession c) Closed in Ok publish.

(** [disconnect]: the closed descriptors; [None] is a panic of the drops. *)
Definition disconnect `{!Iteration Z OwnedTransaction} (σ : Store) (c : Connection)
    : option (Store * Connection * list Z) :=
  let σ := set_signals σ (alter close (csignal c) (signals σ)) in
  σ ← match csession c with Some s => drop_session σ s | None => Some σ end;
  closed ← match ctransactions c with
           | Some q => '(_, closed) ← TransactionQueue.drop_queue q; Some closed
           | None => Some []
           end;
  Some (σ, set_ctransactions (set_cthreads (set_csession c None) ∅) None, closed).

(** ** Pool operations of a connection ([connection/pool.rs]) *)

Definition connection_set_max_threads (c : Connection) (maximum : Z) : Connection :=
  set_cpool c (set_max_threads (cpool c) maximum).

(** [None] is the failure of a debug assertion. *)
Definition execute_looper_command (debug : bool) (c : Connection) (t : Thread) (input : bytes)
    : option (Connection * Thread * result Z Error) :=
  match Command.decode input with
  | Err e => Some (c, t, Err (CThread (Framing e)))
  | Ok (command, _) =>
      match (if bool_decide (Command.kind command = RegisterLooper)
             then begin_register (cpool c) else Ok tt) with
      | Err e => Some (c, t, Err (CThread e))
      | Ok _ =>
          match execute_looper t input with
          | (t, Err e) => Some (c, t, Err (CThread e))
          | (t, Ok n) =>
              p ← (if bool_decide (Command.kind command = RegisterLooper)
                   then finish_register debug (cpool c) else Some (cpool c));
              let p := if bool_decide (Command.kind command = ExitLooper)
                       then leave_wait p (Thread.id t) else p in
              Some (set_cpool c p, t, Ok n)
          end
      end
  end.

Definition enter_idle_wait (c : Connection) (t : Thread) : Connection * bool :=
  if negb (can_wait_for_process_work t) then (c, false)
  else let '(p, entered) := enter_wait (cpool c) (Thread.id t) in (set_cpool c p, entered).

Definition leave_idle_wait (c : Connection) (thread_id : Z) : Connection :=
  set_cpool c (leave_wait (cpool c) thread_id).

Definition has_untargeted_transaction (c : Connection) : bool :=
  match ctransactions c with Some q => TransactionQueue.has_untargeted q | None => false end.

Definition read_spawn_request (c : Connection) (t : Thread) (output : bytes) : Connection * bytes * Z :=
  if (length output <? 4)%nat || negb (is_looper t) || negb (has_untargeted_transaction c)
  then (c, output, 0)
  else
    match reserve_spawn (cpool c) with
    | (p, false) => (set_cpool c p, output, 0)
    | (p, true) => (set_cpool c p, copy_at 0 (u32_le BR_SPAWN_LOOPER) output, 4)
    end.

(** ** Threads ([connection/threads.rs]) *)

(** The loop of [fail_remote_authority], in the order of the map. *)
Fixpoint fail_threads (σ : Store) (threads : gmap Z Thread) (order : list (Z * Thread))
    : Store * gmap Z Thread * result unit Error :=
  match order with
  | [] => (σ, threads, Ok tt)
  | (id, t) :: order =>
      match fail_remote_authority t (signals σ) with
      | (t, Σ, Err e) => (set_signals σ Σ, <[id := t]> threads, Err (CThread e))
      | (t, Σ, Ok _) => fail_threads (set_signals σ Σ) (<[id := t]> threads) order
      end
  end.

Definition connection_fail_remote_authority `{!Iteration Z Thread} (σ : Store) (c : Connection)
    : Store * Connection * result unit Error :=
  let '(σ, threads, res) := fail_threads σ (cthreads c) (iter (cthreads c)) in
  (σ, set_cthreads c threads, res).

(** [Connection::thread]: the thread of [id], which a first use creates. *)
Definition thread (c : Connection) (id : Z) : option (Connection * result Thread Error) :=
  if id =? 0 then Some (c, Err (Io EINVAL))
  else
    match cthreads c !! id with
    | Some t => Some (c, Ok t)
    | None =>
        t ← new_with_signal id (csignal c);
        Some (set_cthreads c (<[id := t]> (cthreads c)), Ok t)
    end.

Definition existing_thread (c : Connection) (id : Z) : option Thread := cthreads c !! id.

(** ** Idle registrations ([connection/work_wait.rs]) *)

(** [ThreadWorkWait::new]: the registered thread. *)
Definition work_wait_new (c : Connection) (thread_id : Z)
    : option (Connection * result (option Z) Error) :=
  '(c, res) ← thread c thread_id;
  Some (match res with
        | Err e => (c, Err e)
        | Ok t => let '(c, entered) := enter_idle_wait c t in
                  (c, Ok (if entered then Some thread_id else None))
        end).

(** [ThreadWorkWait::release], run by [finish] and by [Drop]. *)
Definition work_wait_release (c : Connection) (registered : option Z) : Connection * option Z :=
  match registered with
  | Some thread_id => (leave_idle_wait c thread_id, None)
  | None => (c, None)
  end.

(** ** Transactions ([connection/transactions.rs]) *)

(** [installed_fds::InstalledFd] and its [rewrite]. *)
Record InstalledFd : Type := { ioffset : Z; iobject : bytes; inumber : Z }.
Definition file_rewrite (f : InstalledFd) : Rewrite := {| woffset := ioffset f; wbytes := iobject f |}.

(** [remote_transaction.rs]. *)
Record RemoteTransaction : Type :=
  { tcall : option CallToken; tsender : ConnectionToken; tsender_pid : Z; tsender_euid : Z;
    ttarget : LocalNodeToken; tcode : Z; tflags : Z }.
Record RemoteReply : Type :=
  { pcall : CallToken; psource : ConnectionToken; psender_pid : Z; psender_euid : Z;
    ptarget_thread : Z; pcode : Z; pflags : Z }.

Definition connection_resolve_remote_objects (rsv : Reserve) (σ : Store) (c : Connection)
    (payload : TransactionSnapshot) : option (Store * Connection * result (list OutboundObject) Error) :=
  match csession c with
  | None => Some (σ, c, Err Closed)
  | Some s =>
      '(σ, s, res) ← resolve_remote_objects rsv σ s (payload_data payload) (payload_offsets payload);
      Some (σ, set_csession c (Some s), map_err (fun e => ObjectTransfer (XRemote e)) res)
  end.

(** [mapped] is the kernel's answer to the request for the mapping. *)
Definition install_receive_mapping (mapped : result Z Errno) (c : Connection) (capacity : Z)
    : Connection * result Z Error :=
  match ensure_open c with
  | Err e => (c, Err e)
  | Ok _ =>
      match TransactionQueue.new mapped capacity with
      | Err e => (c, Err (Io e))
      | Ok q =>
          match ctransactions c with
          | Some _ => (c, Err MappingAlreadyInstalled)
          | None => (set_ctransactions c (Some q), Ok (client_address (mapping (TransactionQueue.qarena q))))
          end
      end
  end.

(** The error codes of a target. *)
Definition target_errno (e : TargetError) : Error :=
  Io match e with
     | Session.ContextManagerRequired | ReplyStackRequired | SelfTransaction | RemoteTarget => EINVAL
     | TReference _ | DeadTarget => ESRCH
     | HoldFailed code => code
     end.

Definition connection_transaction_target (σ : Store) (c : Connection) (request : Request)
    : option (Store * result TargetReferences Error) :=
  match csession c with
  | None => Some (σ, Err Closed)
  | Some s =>
      '(σ, res) ← resolve_transaction_target σ s request;
      Some (σ, map_err target_errno res)
  end.

Definition install_remote_reference (σ : Store) (c : Connection) (node : NodeToken) (st : Strength)
    (context_manager : bool) : Store * Connection * result Z Error :=
  in_session σ c (fun s =>
    let '(σ, s, res) := if context_manager then retain_remote_context_manager σ s node st
                        else retain_remote σ s node st in
    (σ, s, map_err CReference (result_map (fun '(handle, _, _) => handle) res))).

(** A local target is only tested for; its references are dropped. *)
Definition resolve_remote_transaction_target (σ : Store) (c : Connection) (request : Request)
    : option (Store * result (option NodeToken) Error) :=
  match csession c with
  | None => Some (σ, Err Closed)
  | Some s =>
      '(σ, res) ← resolve_transaction_route σ s request;
      match res with
      | Ok (TRemote node) => Some (σ, Ok (Some node))
      | Ok (TLocal refs) => σ ← drop_target σ refs; Some (σ, Ok None)
      | Err e => Some (σ, Err (target_errno e))
      end
  end.

Definition next_transaction_route (c : Connection) (thread_id : Z) (accept_async : bool)
    : option TransactionQueue.Next :=
  q ← ctransactions c; TransactionQueue.next_route q thread_id accept_async.

Definition read_transaction_for_thread (reserved : bool) (c : Connection) (thread_id : Z)
    (accept_async : bool) (output : bytes)
    : option (Connection * bytes * result (option TransactionQueue.Delivery) Error * list Z) :=
  match ctransactions c with
  | None => Some (c, output, Ok None, [])
  | Some q =>
      '(q, output, res, closed) ← TransactionQueue.read_for_thread reserved q thread_id accept_async output;
      Some (set_ctransactions c (Some q), output, map_err CQueue res, closed)
  end.

Definition free_transaction_buffer (c : Connection) (address : Z)
    : option (Connection * result unit Error * list Z) :=
  match ctransactions c with
  | None => Some (c, Err MappingNotInstalled, [])
  | Some q =>
      '(q, res, closed) ← TransactionQueue.free q address;
      Some (set_ctransactions c (Some q), map_err CQueue res, closed)
  end.

(** The loop of [cancel_remote_incoming] over the threads. *)
Fixpoint cancel_threads (threads : gmap Z Thread) (order : list (Z * Thread)) (call : CallId)
    : gmap Z Thread * bool :=
  match order with
  | [] => (threads, false)
  | (id, t) :: order =>
      let '(t, found) := cancel_incoming t call in
      if found : bool then (<[id := t]> threads, true) else cancel_threads threads order call
  end.

Definition cancel_remote_incoming `{!Iteration Z Thread} (c : Connection) (call : CallToken)
    : option (Connection * result unit Error * list Z) :=
  let call := Thread.Remote call in
  match ctransactions c with
  | None => Some (c, Err MappingNotInstalled, [])
  | Some q =>
      '(q, found, closed) ← TransactionQueue.cancel_pending_call q call;
      let c := set_ctransactions c (Some q) in
      if found : bool then Some (c, Ok tt, closed)
      else
        let '(threads, found) := cancel_threads (cthreads c) (iter (cthreads c)) call in
        Some (set_cthreads c threads, if found : bool then Ok tt else Err UnknownRemoteCall, closed)
  end.

(** [rollback_objects]: the last installed is the first undone. *)
Fixpoint rollback_loop (σ : Store) (s : Session) (rollbacks : list Rollback)
    : Store * Session * result unit Error :=
  match rollbacks with
  | [] => (σ, s, Ok tt)
  | rollback :: rollbacks =>
      match rollback_transaction_object σ s rollback with
      | (σ, s, Err e) => (σ, s, Err (ObjectTransfer e))
      | (σ, s, Ok _) => rollback_loop σ s rollbacks
      end
  end.

Definition rollback_objects (σ : Store) (s : Session) (rollbacks : list Rollback)
    : Store * Session * result unit Error := rollback_loop σ s (reverse rollbacks).

(** The installation loops: the rewrites and rollbacks so far, and the error that ended it. *)
Fixpoint install_all {A E} (install : Store -> Session -> A -> Store * Session * result (Rewrite * option Rollback) E)
    (σ : Store) (s : Session) (objects : list A)
    : Store * Session * list Rewrite * list Rollback * result unit E :=
  match objects with
  | [] => (σ, s, [], [], Ok tt)
  | object :: objects =>
      match install σ s object with
      | (σ, s, Err e) => (σ, s, [], [], Err e)
      | (σ, s, Ok (rewrite, rollback)) =>
          let '(σ, s, rewrites, rollbacks, res) := install_all install σ s objects in
          (σ, s, rewrite :: rewrites, option_list rollback ++ rollbacks, res)
      end
  end.

(** The end of a failed publication: [rollback_objects(..)?; Err(error)]. *)
Definition rolled_back (σ : Store) (c : Connection) (s : Session) (rollbacks : list Rollback) (e : Error)
    : Store * Connection * result Z Error :=
  let '(σ, s, res) := rollback_objects σ s rollbacks in
  (σ, set_csession c (Some s), let? _ := res in Err e).

(** The part shared by [enqueue_remote_transaction] and [enqueue_remote_reply]: from the
    reservations on.  The files of a delivery that fails are closed. *)
Definition enqueue_remote (rsv : Reserve) (σ : Store) (c : Connection) (s : Session)
    (payload : TransferImage) (receiver : ConnectionToken) (header : TransactionQueue.Header)
    (route : TransactionQueue.Route) (files : list InstalledFd)
    : option (Store * Connection * result Z Error * list Z) :=
  let numbers := inumber <$> files in
  if negb (rsv [1%nat] && rsv [2%nat] && rsv [3%nat]) then Some (σ, c, Err COutOfMemory, numbers)
  else
    let '(σ, s, rewrites, rollbacks, res) :=
      install_all (fun σ s o => install_remote_object σ s receiver o) σ s (iobjects payload) in
    match res with
    | Err e => Some (rolled_back σ c s rollbacks (ObjectTransfer (XRemote e)), numbers)
    | Ok _ =>
        match ctransactions c with
        | None => Some (σ, set_csession c (Some s), Err MappingNotInstalled, numbers)
        | Some q =>
            '(q, res, closed) ←
              TransactionQueue.enqueue_routed_with_fds (rsv [4%nat]) q payload header
                ((file_rewrite <$> files) ++ rewrites) route numbers;
            let c := set_ctransactions c (Some q) in
            match res with
            | Ok address =>
                Some (signal_notify σ (csignal c), set_csession c (Some s), Ok address, closed)
            | Err e => Some (rolled_back σ c s rollbacks (CQueue e), closed)
            end
        end
    end.

(** [validate_delivery_objects] on the objects of the image. *)
Definition delivery_objects (rsv : Reserve) (payload : TransferImage) : result unit Error :=
  let? objects := map_err (fun e => ObjectTransfer (XObjects e)) (objects (below 0 rsv) payload) in
  map_err (fun e => ObjectTransfer (XRemote e)) (validate_delivery_objects objects).

Definition enqueue_remote_transaction (rsv : Reserve) (σ : Store) (c : Connection)
    (payload : TransferImage) (receiver : ConnectionToken) (remote : RemoteTransaction)
    (files : list InstalledFd) : option (Store * Connection * result Z Error * list Z) :=
  let fail e := Some (σ, c, Err e, inumber <$> files) in
  match delivery_objects rsv payload with
  | Err e => fail e
  | Ok _ =>
      match csession c with
      | None => fail Closed
      | Some s =>
          match lookup_local_node s (ttarget remote) with
          | Err _ => fail WrongOwner
          | Ok node =>
              let n := nodes σ !!! node in
              enqueue_remote rsv σ c s payload receiver
                {| TransactionQueue.hreply := false; TransactionQueue.htarget_pointer := pointer n;
                   TransactionQueue.htarget_cookie := cookie n; TransactionQueue.hcode := tcode remote;
                   TransactionQueue.hflags := tflags remote;
                   TransactionQueue.hsender_pid := tsender_pid remote;
                   TransactionQueue.hsender_euid := tsender_euid remote |}
                {| TransactionQueue.rcall := Thread.Remote <$> tcall remote;
                   TransactionQueue.target_thread := None;
                   TransactionQueue.deferred_completion := false |} files
          end
      end
  end.

Definition enqueue_remote_reply (rsv : Reserve) (σ : Store) (c : Connection)
    (payload : TransferImage) (receiver : ConnectionToken) (remote : RemoteReply)
    (files : list InstalledFd) : option (Store * Connection * result Z Error * list Z) :=
  let fail e := Some (σ, c, Err e, inumber <$> files) in
  match delivery_objects rsv payload with
  | Err e => fail e
  | Ok _ =>
      match csession c with
      | None => fail Closed
      | Some s =>
          enqueue_remote rsv σ c s payload receiver
            {| TransactionQueue.hreply := true; TransactionQueue.htarget_pointer := 0;
               TransactionQueue.htarget_cookie := 0; TransactionQueue.hcode := pcode remote;
               TransactionQueue.hflags := pflags remote;
               TransactionQueue.hsender_pid := psender_pid remote;
               TransactionQueue.hsender_euid := psender_euid remote |}
            {| TransactionQueue.rcall := Some (Thread.Remote (pcall remote));
               TransactionQueue.target_thread := Some (ptarget_thread remote);
               TransactionQueue.deferred_completion := true |} files
      end
  end.

(** The loop that resolves the sender's objects. *)
Fixpoint resolve_all (rsv : Reserve) (σ : Store) (s : Session) (i : nat) (objects : list Object)
    : option (Store * Session * result (list Resolved) Error) :=
  match objects with
  | [] => Some (σ, s, Ok [])
  | object :: objects =>
      '(σ, s, res) ← resolve_transaction_object (below i rsv) σ s object;
      match res with
      | Err e => Some (σ, s, Err (ObjectTransfer e))
      | Ok r =>
          '(σ, s, rest) ← resolve_all rsv σ s (S i) objects;
          Some (σ, s, result_map (cons r) rest)
      end
  end.

(** The part of [enqueue_translated_from] on the target. *)
Definition publish_translated (rsv : Reserve) (σ : Store) (c : Connection) (snapshot : TransactionSnapshot)
    (resolved : list Resolved) (header : TransactionQueue.Header) (route : TransactionQueue.Route)
    : option (Store * Connection * result Z Error) :=
  match csession c with
  | None => Some (σ, c, Err Closed)
  | Some s =>
      if negb (rsv [3%nat] && rsv [4%nat]) then Some (σ, c, Err COutOfMemory)
      else
        match ctransactions c with
        | None => Some (σ, c, Err MappingNotInstalled)
        | Some q =>
            let '(σ, s, rewrites, rollbacks, res) := install_all install_transaction_object σ s resolved in
            match res with
            | Err e => Some (rolled_back σ c s rollbacks (ObjectTransfer e))
            | Ok _ =>
                '(q, res, _) ← TransactionQueue.enqueue_routed (rsv [5%nat]) q snapshot header rewrites route;
                let c := set_ctransactions c (Some q) in
                match res with
                | Ok address => Some (signal_notify σ (csignal c), set_csession c (Some s), Ok address)
                | Err e => Some (rolled_back σ c s rollbacks (CQueue e))
                end
            end
        end
  end.

(** [enqueue_translated_from]: the store, the sender, the target and the result. *)
Definition enqueue_translated_from (rsv : Reserve) (σ : Store) (same : bool) (sender target : Connection)
    (snapshot : TransactionSnapshot) (header : TransactionQueue.Header) (route : TransactionQueue.Route)
    : option (Store * Connection * Connection * result Z Error) :=
  let fail σ sender e := Some (σ, sender, target, Err e) in
  if same then fail σ sender WrongOwner
  else
    match objects (below 0 rsv) snapshot with
    | Err e => fail σ sender (ObjectTransfer (XObjects e))
    | Ok objects =>
        match validate_supported objects with
        | Err e => fail σ sender (ObjectTransfer e)
        | Ok _ =>
            if negb (rsv [1%nat]) then fail σ sender COutOfMemory
            else
              match csession sender with
              | None => fail σ sender Closed
              | Some s =>
                  '(σ, s, res) ← resolve_all (below 2 rsv) σ s 0 objects;
                  let sender := set_csession sender (Some s) in
                  match res with
                  | Err e => fail σ sender e
                  | Ok resolved =>
                      '(σ, target, res) ← publish_translated rsv σ target snapshot resolved header route;
                      Some (σ, sender, target, res)
                  end
              end
        end
    end.

(** [TargetConnection::enqueue_transaction]. *)
Definition enqueue_transaction (reserved : bool) (σ : Store) (c : Connection)
    (snapshot : TransactionSnapshot) (header : TransactionQueue.Header)
    : option (Store * Connection * result Z Error) :=
  match csession c with
  | None => Some (σ, c, Err Closed)
  | Some _ =>
      match ctransactions c with
      | None => Some (σ, c, Err MappingNotInstalled)
      | Some q =>
          '(q, res, _) ← TransactionQueue.enqueue reserved q snapshot header;
          let c := set_ctransactions c (Some q) in
          Some (match res with
                | Err e => (σ, c, Err (CQueue e))
                | Ok address => (signal_notify σ (csignal c), c, Ok address)
                end)
      end
  end.

(** ** Specification *)

(** What the operations of a session rely on. *)
Definition session_ok (σ : Store) (s : Session) : Prop :=
  store_ok σ /\ handles_ok σ (srefs s) /\ accounted σ (srefs s).

(** A change of the session's handle table. *)
Definition session_step (σ : Store) (s : Session) (σ' : Store) (s' : Session) : Prop :=
  sowner s' = sowner s /\ table_step σ (srefs s) σ' (srefs s').

(** [install] either changes nothing or retains one handle, which can be given back later, in
    any state in which the session still has that handle table. *)
Definition undoable {A E} (install : Store -> Session -> A -> Store * Session * result (Rewrite * option Rollback) E)
    (ok : Store -> A -> Prop) : Prop :=
  forall σ s a, session_ok σ s -> ok σ a ->
    match install σ s a with
    | (σ1, s1, Err _) | (σ1, s1, Ok (_, None)) => σ1 = σ /\ s1 = s
    | (σ1, s1, Ok (_, Some b)) =>
        session_step σ s σ1 s1 /\
        forall σ', session_ok σ' s1 ->
          exists σ2, rollback_transaction_object σ' s1 b = (σ2, s, Ok tt) /\ session_step σ' s1 σ2 s
    end.

(** ** Lemmas *)

Lemma session_step_ok σ s σ' s' : session_ok σ s -> session_step σ s σ' s' -> session_ok σ' s'.
Proof.
  intros (Hσ & Hh & Ha) (_ & Hs). pose proof (accounted_step _ _ _ _ Ha Hs) as Ha'.
  destruct Hs as (_ & ? & ? & _). by split_and!.
Qed.

Lemma session_step_refl σ s : session_ok σ s -> session_step σ s σ s.
Proof. intros (? & ? & _). split; [done|]. by apply table_step_refl. Qed.

Lemma session_step_trans σ1 s1 σ2 s2 σ3 s3 :
  session_step σ1 s1 σ2 s2 -> session_step σ2 s2 σ3 s3 -> session_step σ1 s1 σ3 s3.
Proof. intros [E H] [E' H']. split; [congruence|]. by eapply table_step_trans. Qed.

Lemma session_step_frame σ s σ' s' : session_step σ s σ' s' -> frame σ σ'.
Proof. by intros (_ & ? & _). Qed.

(** A failed [retain_from] changes nothing. *)
Lemma retain_Err σ t tg st start σ' t' e :
  store_ok σ -> handles_ok σ t -> target_ok σ tg ->
  retain_from σ t tg st start = (σ', t', Err e) -> σ' = σ /\ t' = t.
Proof.
  intros Hσ Ht Htg. unfold retain_from. destruct (list_find _ _) as [[i [h r]]|] eqn:Ef.
  - unfold increment. destruct (t !! h) as [ref|] eqn:Eh; [|by intros [= <- <- _]].
    destruct (bounded_succ _); [|by intros [= <- <- _]].
    destruct (update_target _ _ _ _) as [σ1 [[]|]] eqn:Eu; [done|]. intros [= <- <- _].
    apply update_target_step in Eu as ->; [done|done|by eapply handles_target].
  - destruct (free_handle _ _); [|by intros [= <- <- _]].
    destruct (update_target _ _ _ _) as [σ1 [[]|]] eqn:Eu; [done|]. intros [= <- <- _].
    by apply update_target_step in Eu as ->.
Qed.

(** The table after a successful decrement does not depend on the store. *)
Lemma decrement_table σ σ' t h st σ1 σ2 t1 t2 r1 r2 :
  decrement σ t h st = (σ1, t1, Ok r1) -> decrement σ' t h st = (σ2, t2, Ok r2) -> t1 = t2.
Proof.
  unfold decrement. destruct (t !! h) as [ref|]; [|done]. destruct (checked_sub _ _); [|done].
  destruct (update_target σ _ _ _) as [? [|]]; [|done].
  destruct (update_target σ' _ _ _) as [? [|]]; [|done]. by intros [= _ <- _] [= _ <- _].
Qed.

(** A retained handle can be given back in any later state with the same table. *)
Lemma retain_back σ s tg st σ1 t1 h before after :
  session_ok σ s -> target_ok σ tg ->
  retain_from σ (srefs s) tg st 1 = (σ1, t1, Ok (h, before, after)) ->
  session_step σ s σ1 (set_srefs s t1) /\
  forall σ', session_ok σ' (set_srefs s t1) ->
    exists σ2, rollback_transaction_object σ' (set_srefs s t1) {| bhandle := h; bstrength := st |}
                 = (σ2, s, Ok tt) /\ session_step σ' (set_srefs s t1) σ2 s.
Proof.
  intros (Hσ & Hh & Ha) Htg E.
  pose proof (retain_step _ _ _ _ _ _ _ _ Hσ Hh Htg (proj1 start_ok) E) as Hs.
  split; [done|]. intros σ' (Hσ' & Hh' & Ha'). simpl in *.
  destruct (retain_undo _ _ _ _ _ _ _ _ _ _ Hσ Hh Ha Htg (proj1 start_ok) E) as (σ3 & Ed & _).
  destruct (retained_count _ _ _ _ _ _ _ _ _ Hσ Hh Htg E) as (_ & _ & Hc).
  destruct (retain_entry _ _ _ _ _ _ _ _ _ _ (proj1 start_ok) E) as (He & _).
  destruct (decrement_Ok σ' t1 h st _ Hh' Ha' He) as (σ2 & t2 & Ed2); simpl.
  { destruct (handles_counts _ _ Hh' _ _ He) as (H1 & H2 & _). unfold count_ok in *. simpl in *.
    destruct st; simpl in *; lia. }
  pose proof (decrement_table _ _ _ _ _ _ _ _ _ _ _ Ed Ed2) as <-.
  exists σ2. unfold rollback_transaction_object. simpl. rewrite Ed2. simpl. split; [by destruct s|].
  split; [done|]. by eapply decrement_step.
Qed.

Lemma undoable_transaction_object :
  undoable install_transaction_object (fun σ r => is_Some (nodes σ !! rnode r)).
Proof.
  intros σ s a Hs Hn. unfold install_transaction_object. destruct (owns_node _ _ _); [done|].
  unfold retain_transferred, ReferenceTable.retain.
  destruct (retain_from _ _ _ _ _) as [[σ1 t1] [[[h b] af]|e]] eqn:E.
  - exact (retain_back _ _ (ReferenceTable.Local _) _ _ _ _ _ _ Hs Hn E).
  - destruct Hs as (Hσ & Hh & _). destruct (retain_Err _ _ (ReferenceTable.Local _) _ _ _ _ _ Hσ Hh Hn E) as [-> ->].
    by destruct s.
Qed.

Lemma undoable_remote_object receiver :
  undoable (fun σ s o => install_remote_object σ s receiver o) (fun _ _ => True).
Proof.
  intros σ s a Hs _. unfold install_remote_object. destruct (_ =? _); [by destruct (lookup_local_node _ _)|].
  unfold retain_remote, ReferenceTable.retain_remote.
  destruct (retain_from _ _ _ _ _) as [[σ1 t1] [[[h b] af]|e]] eqn:E.
  - exact (retain_back _ _ (ReferenceTable.Remote _) _ _ _ _ _ _ Hs I E).
  - destruct Hs as (Hσ & Hh & _).
    destruct (retain_Err _ _ (ReferenceTable.Remote _) _ _ _ _ _ Hσ Hh I E) as [-> ->].
    by destruct s.
Qed.

Lemma rollback_loop_app σ s l k :
  rollback_loop σ s (l ++ k) =
    match rollback_loop σ s l with
    | (σ, s, Ok _) => rollback_loop σ s k
    | (σ, s, Err e) => (σ, s, Err e)
    end.
Proof.
  induction l as [|b l IH] in σ, s |- *; simpl; [done|].
  destruct (rollback_transaction_object σ s b) as [[σ1 s1] [[]|]]; [apply IH|done].
Qed.

(** Undoing everything that was installed gives the session back. *)
Lemma install_all_undo {A E} (install : Store -> Session -> A -> _ * _ * result _ E) ok objects :
  undoable install ok -> (forall σ σ' a, frame σ σ' -> ok σ a -> ok σ' a) ->
  forall σ s σ1 s1 rewrites rollbacks res, session_ok σ s -> Forall (ok σ) objects ->
  install_all install σ s objects = (σ1, s1, rewrites, rollbacks, res) ->
  session_step σ s σ1 s1 /\
  forall σ', session_ok σ' s1 ->
    exists σ2, rollback_objects σ' s1 rollbacks = (σ2, s, Ok tt) /\ session_step σ' s1 σ2 s.
Proof.
  intros Hu Hf. induction objects as [|a objects IH]; intros σ s σ1 s1 rewrites rollbacks res Hs Hok; simpl.
  { intros [= <- <- <- <- <-]. split; [by apply session_step_refl|]. intros σ' Hs'. exists σ'.
    split; [done|by apply session_step_refl]. }
  inversion Hok as [|? ? Ha Hok']; subst. pose proof (Hu σ s a Hs Ha) as Hi.
  destruct (install σ s a) as [[σ2 s2] [[w [b|]]|e]].
  - destruct Hi as [Hst Hback]. destruct (install_all install σ2 s2 objects) as [[[[σ3 s3] ws] bs] r] eqn:Er.
    intros [= <- <- <- <- <-].
    destruct (IH σ2 s2 σ3 s3 ws bs r) as [Hst' Hback'].
    + by eapply session_step_ok.
    + eapply Forall_impl; [exact Hok'|]. intros x. apply Hf. by eapply session_step_frame.
    + done.
    + split; [by eapply session_step_trans|]. intros σ' Hs'.
      destruct (Hback' σ' Hs') as (σ4 & E4 & Hst4). unfold rollback_objects in *. simpl.
      rewrite reverse_cons, rollback_loop_app, E4.
      destruct (Hback σ4) as (σ5 & E5 & Hst5); [by eapply session_step_ok|].
      exists σ5. simpl. rewrite E5. split; [done|]. by eapply session_step_trans.
  - destruct Hi as [-> ->]. destruct (install_all install σ s objects) as [[[[σ3 s3] ws] bs] r] eqn:Er.
    intros [= <- <- <- <- <-]. by apply (IH σ s _ _ ws bs r).
  - destruct Hi as [-> ->]. intros [= <- <- <- <- <-]. split; [by apply session_step_refl|].
    intros σ' Hs'. exists σ'. split; [done|by apply session_step_refl].
Qed.

(** *** Remote deliveries *)

Lemma install_all_offsets {A E} (install : Store -> Session -> A -> _ * _ * result _ E) (off : A -> Z) objects :
  (forall σ s a σ1 s1 w b, install σ s a = (σ1, s1, Ok (w, b)) -> woffset w = off a) ->
  forall σ s σ1 s1 rewrites rollbacks,
  install_all install σ s objects = (σ1, s1, rewrites, rollbacks, Ok tt) -> woffset <$> rewrites = off <$> objects.
Proof.
  intros Hi. induction objects as [|a objects IH]; intros σ s σ1 s1 rewrites rollbacks; simpl.
  { by intros [= <- <- <- <-]. }
  destruct (install σ s a) as [[σ2 s2] [[w b]|e]] eqn:Ea; [|done].
  destruct (install_all install σ2 s2 objects) as [[[[σ3 s3] ws] bs] r] eqn:Er. intros [= <- <- <- <- ->].
  simpl. f_equal; [by eapply Hi|by eapply IH].
Qed.

Lemma remote_object_offset receiver σ s o σ1 s1 w b :
  install_remote_object σ s receiver o = (σ1, s1, Ok (w, b)) -> woffset w = moffset o.
Proof.
  unfold install_remote_object. destruct (_ =? _).
  - destruct (lookup_local_node _ _); [|done]. by intros [= _ _ <- _].
  - destruct (retain_remote _ _ _ _) as [[? ?] [[[??]?]|]]; [|done]. by intros [= _ _ <- _].
Qed.

(** What a delivery to connection [c] does: it publishes one transaction with header and route
    as [P] says, or it changes neither the session, nor a counter, nor the queue. *)
Definition delivery (σ : Store) (c : Connection) (s : Session) (q : TransactionQueue.Queue)
    (payload : TransferImage) (files : list InstalledFd)
    (P : TransactionQueue.Header -> TransactionQueue.Route -> Prop)
    (run : option (Store * Connection * result Z Error * list Z)) : Prop :=
  exists σ' c' res closed q',
    run = Some (σ', c', res, closed) /\ ctransactions c' = Some q' /\
    match res with
    | Ok x =>
        closed = [] /\ (exists σ1, signals σ' = alter notify (csignal c) (signals σ1)) /\
        exists s' rewrites h r, csession c' = Some s' /\ P h r /\
          woffset <$> rewrites = moffset <$> iobjects payload /\
          q' = {| TransactionQueue.qarena := TransactionQueue.qarena q';
                  TransactionQueue.pending := TransactionQueue.pending q ++
                    [{| TransactionQueue.allocation := {| oaddress := Some x; olayout := payload_layout payload;
                                                          ofiles := inumber <$> files |};
                        TransactionQueue.header := h; TransactionQueue.route := r |}];
                  TransactionQueue.delivered := TransactionQueue.delivered q |} /\
          contents (TransactionQueue.qarena q') x =
            TransactionQueue.image payload ((file_rewrite <$> files) ++ rewrites)
    | Err _ =>
        closed = inumber <$> files /\ csession c' = Some s /\ shifts σ σ' (fun _ => 0) (fun _ => 0) /\
        q' = TransactionQueue.with_qarena q (TransactionQueue.qarena q')
    end.

Lemma session_step_back σ s σ' : session_step σ s σ' s -> shifts σ σ' (fun _ => 0) (fun _ => 0).
Proof. intros (_ & _ & _ & _ & H). eapply shifts_ext; [exact H|..]; intros; simpl; lia. Qed.

Section delivery.
Context (rsv : Reserve) (σ : Store) (c : Connection) (s : Session) (payload : TransferImage).
Context (receiver : ConnectionToken) (files : list InstalledFd) (g : TransactionQueue.Trace).
Hypothesis open : csession c = Some s.
Hypothesis session : session_ok σ s.
Hypothesis mapped : ctransactions c = Some (TransactionQueue.queue g).
Hypothesis trace : TransactionQueue.trace_ok g.
Hypothesis fits : payload_fits payload.
Hypothesis objects_nonneg : Forall (fun o => 0 <= moffset o) (iobjects payload).
Hypothesis files_nonneg : Forall (fun f => 0 <= ioffset f) files.

Lemma delivery_refused P e :
  delivery σ c s (TransactionQueue.queue g) payload files P (Some (σ, c, Err e, inumber <$> files)).
Proof.
  eexists _, _, _, _, _. split; [done|]. split; [done|]. split_and!; try done; [apply shifts_refl|].
  by destruct (TransactionQueue.queue g).
Qed.

Lemma delivery_rolled_back P σ1 c' s1 rollbacks q' e :
  session_step σ s σ1 s1 -> ctransactions c' = Some q' ->
  (forall σ', session_ok σ' s1 ->
     exists σ2, rollback_objects σ' s1 rollbacks = (σ2, s, Ok tt) /\ session_step σ' s1 σ2 s) ->
  q' = TransactionQueue.with_qarena (TransactionQueue.queue g) (TransactionQueue.qarena q') ->
  delivery σ c s (TransactionQueue.queue g) payload files P
    (Some (rolled_back σ1 c' s1 rollbacks e, inumber <$> files)).
Proof.
  intros Hst Hq Hback Eq. destruct (Hback σ1) as (σ2 & E2 & Hst2); [by eapply session_step_ok|].
  unfold rolled_back. rewrite E2. eexists _, _, _, _, q'. split; [done|]. split; [done|].
  split_and!; try done. eapply session_step_back. by eapply session_step_trans.
Qed.

Lemma enqueue_remote_spec (P : TransactionQueue.Header -> TransactionQueue.Route -> Prop) h r : P h r ->
  delivery σ c s (TransactionQueue.queue g) payload files P
    (enqueue_remote rsv σ c s payload receiver h r files).
Proof.
  intros HP. unfold enqueue_remote. destruct (negb _); [apply delivery_refused|].
  destruct (install_all _ _ _ _) as [[[[σ1 s1] rewrites] rollbacks] res] eqn:Ei.
  destruct (install_all_undo _ _ _ (undoable_remote_object receiver) ltac:(done) _ _ _ _ _ _ _ session
              ltac:(by apply Forall_forall) Ei) as [Hst Hback].
  destruct res as [[]|e];
    [|apply (delivery_rolled_back _ _ c _ _ (TransactionQueue.queue g)); try done; by destruct (TransactionQueue.queue g)].
  pose proof (install_all_offsets _ moffset _ (remote_object_offset receiver) _ _ _ _ _ _ Ei) as Ho.
  rewrite mapped. simpl.
  destruct (TransactionQueue.enqueue_trace g (rsv [4%nat]) payload h ((file_rewrite <$> files) ++ rewrites) r
              (inumber <$> files) trace fits) as (q & res & out & -> & Hq & Ht).
  { apply Forall_app. split; [by apply Forall_fmap|].
    assert (Hz : Forall (fun z => 0 <= z) (woffset <$> rewrites)) by (rewrite Ho; by apply Forall_fmap).
    by apply (Forall_fmap woffset) in Hz. }
  simpl. destruct res as [x|e]; destruct Hq as [-> Hq].
  - eexists _, _, _, _, q. split; [done|]. split; [done|]. split; [done|]. split; [by exists σ1|].
    exists s1, rewrites, h, r. split_and!; try done.
    destruct Ht as [[_ _ He _] _ _]. rewrite Forall_forall in He. simpl in He.
    destruct (He {| oaddress := Some x; olayout := payload_layout payload; ofiles := inumber <$> files |})
      as (y & l & [= <-] & _ & Hi).
    + rewrite Hq. unfold TransactionQueue.owned. simpl. rewrite fmap_app, <- app_assoc. simpl. set_solver.
    + rewrite lookup_insert_eq in Hi. by injection Hi.
  - by eapply delivery_rolled_back.
Qed.
End delivery.

(** *** Pool histories *)

Inductive PoolEvent : Type := Maximum (m : Z) | Spawn | Register | Enter (id : Z) | Leave (id : Z).

(** The events of a pool, oldest first; a registration is [begin_register], then
    [finish_register]. *)
Inductive pool_history (debug : bool) : list PoolEvent -> Pool -> Prop :=
| pool_new : pool_history debug [] default_pool
| pool_maximum es p m :
    pool_history debug es p -> u32_range m -> pool_history debug (es ++ [Maximum m]) (set_max_threads p m)
| pool_spawn es p p' :
    pool_history debug es p -> reserve_spawn p = (p', true) -> pool_history debug (es ++ [Spawn]) p'
| pool_register es p p' :
    pool_history debug es p -> begin_register p = Ok tt -> finish_register debug p = Some p' ->
    pool_history debug (es ++ [Register]) p'
| pool_enter es p id entered p' :
    pool_history debug es p -> enter_wait p id = (p', entered) -> pool_history debug (es ++ [Enter id]) p'
| pool_leave es p id :
    pool_history debug es p -> pool_history debug (es ++ [Leave id]) (leave_wait p id).

Definition spawns (es : list PoolEvent) : Z :=
  zsum (fun e => match e with Spawn => 1 | _ => 0 end) es.
Definition registrations (es : list PoolEvent) : Z :=
  zsum (fun e => match e with Register => 1 | _ => 0 end) es.
(** The largest maximum so far. *)
Definition largest (es : list PoolEvent) : Z :=
  foldl (fun m e => match e with Maximum m' => Z.max m m' | _ => m end) 0 es.
(** The threads that entered and did not leave. *)
Definition waiting (es : list PoolEvent) : gset Z :=
  foldl (fun w e => match e with Enter id => {[id]} ∪ w | Leave id => w ∖ {[id]} | _ => w end) ∅ es.

Record pool_ok (es : list PoolEvent) (p : Pool) : Prop := {
  pool_requests : spawns es = registrations es + Z.b2z (requested_thread p);
  pool_admitted : admitted_threads p = registrations es;
  pool_bound : admitted_threads p + Z.b2z (requested_thread p) <= largest es;
  pool_range : 0 <= admitted_threads p /\ largest es <= u32_max;
  pool_max m : max_threads p = Some m -> 0 <= m <= largest es;
  pool_waiting : idle_waiters p = waiting es }.

Lemma pool_history_ok debug es p : pool_history debug es p -> pool_ok es p.
Proof.
  induction 1 as [|es p m _ [H1 H2 H3 H4 H5 H6] Hm|es p p' _ [H1 H2 H3 H4 H5 H6] E
                 |es p p' _ [H1 H2 H3 H4 H5 H6] Hb E|es p id entered p' _ [H1 H2 H3 H4 H5 H6] E
                 |es p id _ [H1 H2 H3 H4 H5 H6]].
  - by split.
  - unfold u32_range in Hm. split; unfold spawns, registrations, largest, waiting in *;
      rewrite ?zsum_app, ?foldl_app; simpl; try lia; [|done]. intros m' [= <-]. lia.
  - unfold reserve_spawn in E. destruct (max_threads p) as [m|] eqn:Em; [|done].
    destruct (requested_thread p) eqn:Er; [done|]. destruct (negb _); [done|]. simpl in E.
    destruct (Z.leb_spec m (admitted_threads p)) as [|Hlt]; [done|]. injection E as <-.
    specialize (H5 m eq_refl).
    split; unfold spawns, registrations, largest, waiting in *; rewrite ?zsum_app, ?foldl_app; simpl in *;
      try lia; [|done]. intros m' [= <-]. lia.
  - unfold begin_register, ensure in Hb. destruct (requested_thread p) eqn:Er; [|done].
    unfold finish_register in E. rewrite Er, andb_false_r in E. injection E as <-. simpl in *.
    split; unfold spawns, registrations, largest, waiting in *; rewrite ?zsum_app, ?foldl_app; simpl in *;
      try lia; done.
  - injection E as <- _. split; unfold spawns, registrations, largest, waiting in *;
      rewrite ?zsum_app, ?foldl_app; simpl in *; try lia; [done|]. by rewrite H6.
  - split; unfold spawns, registrations, largest, waiting in *; rewrite ?zsum_app, ?foldl_app; simpl in *;
      try lia; [done|]. by rewrite H6.
Qed.

(** *** Disconnection *)

(** A closed signal stays closed. *)
Definition signal_closed (σ : Store) (r : SignalRef) : Prop :=
  exists st, signals σ !! r = Some st /\ WorkSignal.closed st = true.

Lemma schedule_closed σ o p r : signal_closed σ r -> signal_closed (schedule σ o p) r.
Proof.
  intros (st & Hr & Hc). unfold schedule. destruct (_ && _); [|by exists st].
  destruct (osignal _) as [s|]; [|by exists st]. unfold signal_closed. simpl.
  destruct (decide (s = r)) as [-> |].
  - exists (notify st). by rewrite lookup_alter_eq, Hr.
  - exists st. by rewrite lookup_alter_ne.
Qed.

Lemma update_target_closed σ t before after σ' res r :
  update_target σ t before after = (σ', res) -> signal_closed σ r -> signal_closed σ' r.
Proof.
  destruct t as [node|]; simpl; [|by intros [= <- _]]. unfold update_remote.
  destruct (transition _ _ _); [|by intros [= <- _]]. destruct (transition _ _ _); [|by intros [= <- _]].
  intros [= <- _] Hc. apply schedule_closed. by destruct Hc as (st & ?); exists st.
Qed.

Lemma drop_entries_closed l r : forall σ σ',
  drop_entries σ l = Some σ' -> signal_closed σ r -> signal_closed σ' r.
Proof.
  induction l as [|e l IH]; intros σ σ'; simpl; [by intros [= <-]|].
  destruct (update_target _ _ _ _) as [σ1 [[]|]] eqn:E; [|done]. intros H Hc.
  eapply IH; [done|]. by eapply update_target_closed.
Qed.

(** ** Properties *)

(** C14: A delivery from the routing authority is all or nothing.  On an open connection with a
    receive mapping, delivering a transaction or a reply never panics.  Either one transaction
    is added at the end of the queue, with the header and route of the delivery and a buffer
    that holds the image with every descriptor and every translated object in place, and the
    readers are notified; or the handle table is exactly as before, no counter of any node has
    moved, the queue keeps its transactions, and every descriptor of the delivery is closed. *)
Theorem remote_delivery_atomic os1 os2 ts1 ts2 hs rsv σ c s payload receiver files g remote reply
    (Hw : reachable (with_session os1 os2 ts1 ts2 σ s hs)) (Hg : TransactionQueue.trace_reachable g)
    (Hopen : csession c = Some s) (Hmapped : ctransactions c = Some (TransactionQueue.queue g))
    (Hfits : payload_fits payload) (Hobjects : Forall (fun o => 0 <= moffset o) (iobjects payload))
    (Hfiles : Forall (fun f => 0 <= ioffset f) files) :
  delivery σ c s (TransactionQueue.queue g) payload files
    (fun h r => exists node, lookup_local_node s (ttarget remote) = Ok node /\
       h = {| TransactionQueue.hreply := false;
              TransactionQueue.htarget_pointer := pointer (nodes σ !!! node);
              TransactionQueue.htarget_cookie := cookie (nodes σ !!! node);
              TransactionQueue.hcode := tcode remote; TransactionQueue.hflags := tflags remote;
              TransactionQueue.hsender_pid := tsender_pid remote;
              TransactionQueue.hsender_euid := tsender_euid remote |} /\
       r = {| TransactionQueue.rcall := Thread.Remote <$> tcall remote;
              TransactionQueue.target_thread := None; TransactionQueue.deferred_completion := false |})
    (enqueue_remote_transaction rsv σ c payload receiver remote files) /\
  delivery σ c s (TransactionQueue.queue g) payload files
    (fun h r =>
       h = {| TransactionQueue.hreply := true; TransactionQueue.htarget_pointer := 0;
              TransactionQueue.htarget_cookie := 0; TransactionQueue.hcode := pcode reply;
              TransactionQueue.hflags := pflags reply; TransactionQueue.hsender_pid := psender_pid reply;
              TransactionQueue.hsender_euid := psender_euid reply |} /\
       r = {| TransactionQueue.rcall := Some (Thread.Remote (pcall reply));
              TransactionQueue.target_thread := Some (ptarget_thread reply);
              TransactionQueue.deferred_completion := true |})
    (enqueue_remote_reply rsv σ c payload receiver reply files).
Proof.
  apply world_reachable_ok in Hw. destruct (world_table _ _ _ _ _ _ Hw) as [Hh Ha].
  pose proof (conj (world_store _ Hw) (conj Hh Ha) : session_ok σ s) as Hs.
  apply TransactionQueue.trace_reachable_ok in Hg.
  unfold enqueue_remote_transaction, enqueue_remote_reply. rewrite Hopen.
  split; (destruct (delivery_objects rsv payload); [|by apply delivery_refused]).
  - destruct (lookup_local_node s (ttarget remote)) as [node|] eqn:En; [|by apply delivery_refused].
    apply enqueue_remote_spec; try done. eauto.
  - by apply enqueue_remote_spec.
Qed.

(** The worker pool asks for one thread at a time and never for too many.  Every
    registration answers exactly one spawn request, at most one request is unanswered, and the
    admitted threads together with it never exceed the largest maximum that was set, so the
    count never saturates.  A request is only made while no thread waits idle, and a thread
    that registers unasked is refused. *)
Theorem pool_admission debug es p (H : pool_history debug es p) :
  spawns es = registrations es + Z.b2z (requested_thread p) /\
  admitted_threads p = registrations es /\
  admitted_threads p + Z.b2z (requested_thread p) <= largest es /\
  idle_waiters p = waiting es /\
  (begin_register p = Ok tt <-> spawns es = registrations es + 1) /\
  (begin_register p = Ok tt -> is_Some (finish_register debug p)) /\
  forall p', reserve_spawn p = (p', true) ->
    waiting es = ∅ /\ spawns es = registrations es /\ registrations es < largest es.
Proof.
  apply pool_history_ok in H as [H1 H2 H3 H4 H5 H6]. split_and!; try done.
  - unfold begin_register, ensure. destruct (requested_thread p); simpl in *; (split; [|done || lia]); [lia|done].
  - unfold begin_register, ensure, finish_register. destruct (requested_thread p); [|done].
    intros _. rewrite andb_false_r. by eexists.
  - intros p'. unfold reserve_spawn. destruct (max_threads p) as [m|]; [|done].
    destruct (requested_thread p); [done|]. case_bool_decide as Ei; [|done]. simpl.
    destruct (Z.leb_spec m (admitted_threads p)) as [|Hlt]; [done|]. intros _.
    specialize (H5 m eq_refl). simpl in *. split_and!; [congruence|lia|lia].
Qed.

(** Disconnecting releases everything the connection owns and never panics.  The session is
    gone, so are its threads and its queue; every descriptor handed to the queue has been
    closed exactly once; whoever waits on the signal finds it closed; and the remaining
    world, without the session's nodes and handles, still counts every reference. *)
Theorem disconnect_releases `{!Iteration Z OwnedTransaction} os1 os2 ts1 ts2 hs σ c s g state
    (Hw : reachable (with_session os1 os2 ts1 ts2 σ s hs)) (Hg : TransactionQueue.trace_reachable g)
    (Hopen : csession c = Some s) (Hmapped : ctransactions c = Some (TransactionQueue.queue g))
    (Hsignal : signals σ !! csignal c = Some state) :
  exists σ' c' closed,
    disconnect σ c = Some (σ', c', closed) /\
    csession c' = None /\ cthreads c' = ∅ /\ ctransactions c' = None /\
    TransactionQueue.handed g ≡ₚ TransactionQueue.closed g ++ closed /\
    signal_closed σ' (csignal c) /\
    reachable {| wstore := σ'; wowners := os1 ++ os2; wtables := ts1 ++ ts2; wholds := hs |}.
Proof.
  apply TransactionQueue.trace_reachable_ok in Hg.
  pose proof (rtc_r _ _ _ Hw (step_signals _ _ _ _ (alter close (csignal c) (signals σ)))) as Hw1.
  destruct (run_drop_session os1 os2 ts1 ts2 _ s hs (world_reachable_ok _ Hw1)) as (σ' & E & Hsteps).
  destruct (TransactionQueue.drop_queue_trace g Hg) as (a & files & Eq & Hf & _).
  simpl in E. unfold disconnect. rewrite Hopen, Hmapped, E. simpl. rewrite Eq. simpl.
  eexists _, _, _. split; [done|]. split_and!; try done; [|unfold reachable; by etransitivity].
  apply (drop_entries_closed _ _ _ _ E). exists (close state). simpl. by rewrite lookup_alter_eq, Hsignal.
Qed.

(** C23: A delivery to a connection without a receive mapping leaks.  It fails with
    [MappingNotInstalled], but only after its objects were installed and without rolling them
    back: the process keeps a counted handle for a node it was never told about. *)
Theorem unmapped_delivery_leaks rsv σ c s payload receiver remote files node o h
    (Hopen : csession c = Some s) (Hmapped : ctransactions c = None)
    (Hvalid : delivery_objects rsv payload = Ok tt)
    (Htarget : lookup_local_node s (ttarget remote) = Ok node)
    (Hrsv : rsv [1%nat] && rsv [2%nat] && rsv [3%nat] = true)
    (Hone : iobjects payload = [o]) (Hremote : owner (mnode o) <> receiver)
    (Hnew : forall h e, srefs s !! h = Some e -> ReferenceTable.target e <> ReferenceTable.Remote (mnode o))
    (Hfree : free_handle (in_order (srefs s)).*1 1 = Ok h) :
  srefs s !! h = None /\
  enqueue_remote_transaction rsv σ c payload receiver remote files =
    Some (σ,
          set_csession c (Some (set_srefs s
            (<[h := {| ReferenceTable.target := ReferenceTable.Remote (mnode o);
                       counts_of := set_count default_counts (mstrength o) 1 |}]> (srefs s)))),
          Err MappingNotInstalled, inumber <$> files).
Proof.
  split; [by apply (free_handle_fresh _ _ _ (proj1 start_ok) Hfree)|].
  unfold enqueue_remote_transaction, enqueue_remote. rewrite Hvalid, Hopen, Htarget, Hrsv, Hone. simpl.
  unfold install_remote_object. rewrite (proj2 (Z.eqb_neq _ _) Hremote).
  unfold retain_remote, ReferenceTable.retain_remote, retain_from.
  assert (list_find (fun e : Z * Reference =>
    same_target (ReferenceTable.target e.2) (ReferenceTable.Remote (mnode o)) = true) (in_order (srefs s)) = None) as ->.
  { apply list_find_None, Forall_forall. intros [h' e] He%in_order_lookup E%same_target_spec. by eapply Hnew. }
  rewrite Hfree. simpl. by rewrite Hmapped.
Qed.

(** ** Witnesses *)

(** A process with one node, an image that carries one node of another process, and the
    metadata of a delivery. *)
Definition example_open (q : option TransactionQueue.Queue) : Store * Connection :=
  let '(σ, c) := new_connection example_publisher.1 example_publisher.2 in (σ, set_ctransactions c q).

Definition delivered_image : TransferImage :=
  {| idescriptor := 3; iview := handle_object Strong 0 5 ++ u64_le 0;
     ilayout := {| TransactionLayout.data := {| TransactionLayout.start := 0; TransactionLayout.stop := 24 |};
                   TransactionLayout.offsets := {| TransactionLayout.start := 24; TransactionLayout.stop := 32 |};
                   TransactionLayout.extra := {| TransactionLayout.start := 32; TransactionLayout.stop := 32 |};
                   TransactionLayout.total := 32 |};
     payload_offset := 0;
     iobjects := [{| moffset := 0; mnode := {| owner := 7; local := 1 |}; mstrength := Strong; mflags := 0 |}];
     ifiles := [] |}.

Definition sample_remote : RemoteTransaction :=
  {| tcall := None; tsender := 7; tsender_pid := 10; tsender_euid := 1000; ttarget := 1; tcode := 3; tflags := 1 |}.
Definition sample_reply : RemoteReply :=
  {| pcall := 4; psource := 7; psender_pid := 10; psender_euid := 1000; ptarget_thread := 2; pcode := 3; pflags := 0 |}.

Lemma unmapped_delivery_leaks_witness :
  exists c', enqueue_remote_transaction reserve_ok (example_open None).1 (example_open None).2
      delivered_image 9 sample_remote [] = Some ((example_open None).1, c', Err MappingNotInstalled, []) /\
    (s ← csession c'; srefs s !! 1) =
      Some {| ReferenceTable.target := ReferenceTable.Remote {| owner := 7; local := 1 |};
              counts_of := {| strong := 1; weak := 0 |} |}.
Proof.
  edestruct (unmapped_delivery_leaks reserve_ok (example_open None).1 (example_open None).2
    example_publisher.2 delivered_image 9 sample_remote [] 1%positive) as [_ E];
    [reflexivity|reflexivity|vm_compute; reflexivity|vm_compute; reflexivity|reflexivity|reflexivity|
     discriminate| |vm_compute; reflexivity|].
  - intros h e He. vm_compute in He. discriminate.
  - eexists. split; [exact E|]. vm_compute. reflexivity.
Defined.

Lemma pool_admission_witness :
  exists p p', pool_history true [Maximum 2; Enter 5; Leave 5] p /\ reserve_spawn p = (p', true) /\
    spawns [Maximum 2; Enter 5; Leave 5] = 0.
Proof.
  assert (H : pool_history true [Maximum 2; Enter 5; Leave 5]
                (leave_wait (enter_wait (set_max_threads default_pool 2) 5).1 5)).
  { apply (pool_leave _ [Maximum 2; Enter 5]). eapply (pool_enter _ [Maximum 2]); [|apply surjective_pairing].
    apply (pool_maximum _ []); [constructor|]. unfold u32_range, u32_max. lia. }
  eexists _, _. split; [exact H|]. split; [vm_compute; reflexivity|].
  destruct (pool_admission true _ _ H) as (E & _). exact E.
Defined.

Lemma example_publisher_reachable :
  reachable (with_session [] [] [] [] example_publisher.1 example_publisher.2 []).
Proof.
  unfold example_publisher, example_resolved.
  destruct (NodeOwner.new empty_store) as [σ0 own0] eqn:E0.
  destruct (NodeOwner.resolve reserve_ok σ0 own0 example_object) as [[σ1 own1] res1] eqn:E1. cbn [fst snd].
  apply (rtc_l _ _ _ _ (step_new_owner _ _ _ _ _ _ E0)).
  apply (rtc_l _ _ _ _ (step_resolve _ [] _ [] _ _ _ _ _ _ _ E1)).
  apply (rtc_l _ _ _ _ (step_new_table _ _ _ _)). apply rtc_refl.
Qed.

(** The process of the example, connected and with a receive mapping of 64 bytes. *)
Definition example_mapped : Store * Connection := example_open (Some TransactionQueue.sample_queue).

Lemma example_mapped_reachable :
  reachable (with_session [] [] [] [] example_mapped.1 example_publisher.2 []).
Proof.
  eapply rtc_r; [eapply rtc_r; [exact example_publisher_reachable|
    apply (step_signals _ _ _ _ (signals example_mapped.1))]|].
  eapply (step_owner_op _ _ _ _ (sowner example_publisher.2)); [left|].
  eapply (op_attach _ _ _ (csignal example_mapped.2)). vm_compute. reflexivity.
Qed.

Lemma sample_queue_reachable :
  TransactionQueue.trace_reachable
    {| TransactionQueue.queue := TransactionQueue.sample_queue; TransactionQueue.images := ∅;
       TransactionQueue.handed := []; TransactionQueue.closed := [] |}.
Proof.
  exists (Ok 4096), 64, TransactionQueue.sample_queue. split_and!; [|lia|vm_compute; reflexivity|apply rtc_refl].
  intros address [= <-]. unfold usize_max, u64_max. lia.
Qed.

Lemma remote_delivery_atomic_witness :
  exists σ' c' q', enqueue_remote_transaction reserve_ok example_mapped.1 example_mapped.2 delivered_image 9
      sample_remote [] = Some (σ', c', Ok 4096, []) /\ ctransactions c' = Some q' /\
    contents (TransactionQueue.qarena q') 4096 = handle_object Strong 0 1 ++ u64_le 0.
Proof.
  destruct (remote_delivery_atomic _ _ _ _ _ reserve_ok example_mapped.1 example_mapped.2 example_publisher.2
    delivered_image 9 [] _ sample_remote sample_reply example_mapped_reachable sample_queue_reachable)
    as [(σ' & c' & res & closed & q' & E & Hq & _) _].
  - reflexivity.
  - reflexivity.
  - split; vm_compute; congruence.
  - repeat constructor. vm_compute. discriminate.
  - constructor.
  - exists σ', c', q'. vm_compute in E. injection E as <- <- <- <-. split; [vm_compute; reflexivity|].
    split; [exact Hq|]. vm_compute in Hq. injection Hq as <-. vm_compute. reflexivity.
Defined.

Lemma disconnect_releases_witness :
  exists σ' c', disconnect example_mapped.1 example_mapped.2 = Some (σ', c', []) /\
    csession c' = None /\ signal_closed σ' (csignal example_mapped.2).
Proof.
  destruct (disconnect_releases _ _ _ _ _ example_mapped.1 example_mapped.2 example_publisher.2 _ default_signal
    example_mapped_reachable sample_queue_reachable) as (σ' & c' & closed & E & H1 & _ & _ & Hc & Hs & _).
  - reflexivity.
  - reflexivity.
  - vm_compute. reflexivity.
  - exists σ', c'. split; [|by split]. rewrite E. apply Permutation_nil_l in Hc. simpl in Hc. by rewrite Hc.
Defined.
