(* ===== verification/Registry.v ===== *)
(** * The registry of connections ([connection_registry.rs], [connection_registry/*.rs],
      [security.rs])

    The registry owns every open connection, the context manager and the table of local calls.
    It routes transactions and replies between connections and closes connections.  The
    thread that issues commands is locked by its caller, so it is an argument next to the registry. *)
From S2P Require Import Prelude RoutingAuthority TransactionQueue DeathWork TransactionWire.
From S2P Require Import Command AuthorityProtocol Objects TransactionSnapshot TransactionRequest.
From S2P Require Import NodeWork WorkSignal NodeOwner ReferenceTable Session Thread.
From S2P Require Import ReceiveArena TransferImage PreparedTransaction World Connection.

(** ** State *)

(** [Arc<()>] identities are compared by address. *)
Record Key : Type := { kregistry : positive; kid : ConnectionId }.

#[export] Instance CallId_countable : Countable CallId.
Proof.
  refine (inj_countable' (fun c => match c with Thread.Local s => inl s | Thread.Remote t => inr t end)
            (fun c => match c with inl s => Thread.Local s | inr t => Thread.Remote t end) _).
  by intros [].
Defined.

(** [authority.rs]. *)
Record CallRoute : Type := { rsender : ConnectionId; rthread : Z; rtarget : NodeId }.
Record CallTable : Type := { call_next : Z; call_routes : gmap CallId CallRoute }.

(** [context_manager.rs]; a reservation is its number. *)
Record Manager : Type := { mkey : Key; mreferences : ContextManagerRefs }.
Record ContextState : Type :=
  { uid : option Z; manager : option Manager; pending_manager : option (Z * Manager);
    next_reservation : Z }.

Record Registry : Type :=
  { identity : positive; next : Z; entries : gmap ConnectionId Connection; context : ContextState;
    calls : CallTable }.

(** [Registry::default]. *)
Definition default_registry (identity : positive) : Registry :=
  {| identity := identity; next := 0; entries := ∅;
     context := {| uid := None; manager := None; pending_manager := None; next_reservation := 0 |};
     calls := {| call_next := 0; call_routes := ∅ |} |}.

Inductive Error : Type :=
| ContextSelfAcquire | ForeignRegistry | UnknownConnection | Exhausted | GOutOfMemory
| GConnection (e : Connection.Error).

Definition set_entries (R : Registry) (es : gmap ConnectionId Connection) : Registry :=
  {| identity := identity R; next := next R; entries := es; context := context R; calls := calls R |}.
Definition set_context (R : Registry) (x : ContextState) : Registry :=
  {| identity := identity R; next := next R; entries := entries R; context := x; calls := calls R |}.
Definition set_calls (R : Registry) (x : CallTable) : Registry :=
  {| identity := identity R; next := next R; entries := entries R; context := context R; calls := x |}.
Definition set_entry (R : Registry) (id : ConnectionId) (c : Connection) : Registry :=
  set_entries R (<[id := c]> (entries R)).

(** ** Lookup and registration ([lifecycle.rs]) *)

Definition check (R : Registry) (key : Key) : result unit Error :=
  ensure (bool_decide (identity R = kregistry key)) ForeignRegistry.

Definition lookup_id (R : Registry) (id : ConnectionId) : result Connection Error :=
  ok_or (entries R !! id) UnknownConnection.

Definition lookup (R : Registry) (key : Key) : result Connection Error :=
  let? _ := check R key in lookup_id R (kid key).

(** [register]: an owner that is refused disconnects. *)
Definition register `{!Iteration Z OwnedTransaction} (reserved : bool) (σ : Store) (R : Registry) (c : Connection)
    : option (Store * Registry * result Key Error * list Z) :=
  let refuse σ c e := '(σ, _, closed) ← disconnect σ c; Some (σ, R, Err e, closed) in
  match id_next (next R) with
  | None => refuse σ c Exhausted
  | Some (id, serial) =>
      if negb reserved then refuse σ c GOutOfMemory
      else
        match connection_bind_routing_id σ c id with
        | (σ, c, Err e) => refuse σ c (GConnection e)
        | (σ, c, Ok _) =>
            Some (σ, {| identity := identity R; next := serial; entries := <[id := c]> (entries R);
                        context := context R; calls := calls R |},
                  Ok {| kregistry := identity R; kid := id |}, [])
        end
  end.

(** An operation of the connection of a key. *)
Definition at_key {A} (σ : Store) (R : Registry) (key : Key)
    (k : Connection -> Store * Connection * result A Connection.Error)
    : Store * Registry * result A Error :=
  match lookup R key with
  | Err e => (σ, R, Err e)
  | Ok c => let '(σ, c, res) := k c in (σ, set_entry R (kid key) c, map_err GConnection res)
  end.

(** ** Local calls ([authority.rs]) *)

Inductive RoutingError : Type :=
| NotContextRequest | RRegistry (e : Error) | RConnection (e : Connection.Error) | MissingManager
| SelfConnection | RNode (e : TargetError).

Inductive SubmitError : Type :=
| SRegistry (e : Error) | SContext (e : RoutingError) | ReplyRequiresThreadStack
| Snapshot (e : Objects.Error) | STarget (e : Connection.Error) | CallIdsExhausted | SOutOfMemory
| UnknownCall.

Definition register_call (reserved : bool) (t : CallTable) (route : CallRoute)
    : CallTable * result CallId SubmitError :=
  match checked_add u64_max (call_next t) 1 with
  | None => (t, Err CallIdsExhausted)
  | Some serial =>
      if negb reserved then (t, Err SOutOfMemory)
      else ({| call_next := serial; call_routes := <[Thread.Local serial := route]> (call_routes t) |},
            Ok (Thread.Local serial))
  end.

Definition remove_call (t : CallTable) (call : CallId) : CallTable :=
  {| call_next := call_next t; call_routes := delete call (call_routes t) |}.

(** [take_target]: the calls to a connection, in the order of the map. *)
Definition take_target `{!Iteration CallId CallRoute} (t : CallTable) (target : ConnectionId)
    : CallTable * list (CallId * CallRoute) :=
  let taken := filter (fun e => (rtarget e.2).1 = target) (iter (call_routes t)) in
  (foldl (fun t e => remove_call t e.1) t taken, taken).

(** ** Targets *)

(** [Node::owner_connection] of a target. *)
Definition owner_connection (σ : Store) (r : NodeRef) : option ConnectionId := fst <$> routing_id σ r.

(** [TargetReferences::node]. *)
Definition target_node (refs : TargetReferences) : NodeRef := hnode (ttemporary refs).

(** [TargetConnection]: the connection is named by its identity in the registry. *)
Record TargetConnection : Type := { tconnection : ConnectionId; treferences : TargetReferences }.

(** [bind_target] of the connection found by a lookup; a target that is not bound is dropped. *)
Definition bind_at (σ : Store) (id : ConnectionId) (c : result Connection Error) (refs : TargetReferences)
    : option (Store * result TargetConnection Error) :=
  match c with
  | Err e => σ ← drop_target σ refs; Some (σ, Err e)
  | Ok c =>
      '(σ, res) ← bind_target σ c refs;
      Some (σ, map_err GConnection
                 (result_map (fun refs => {| tconnection := id; treferences := refs |}) res))
  end.

Definition bind_resolved_target (σ : Store) (R : Registry) (refs : TargetReferences)
    : option (Store * result TargetConnection Error) :=
  match owner_connection σ (target_node refs) with
  | None => σ ← drop_target σ refs; Some (σ, Err UnknownConnection)
  | Some id => bind_at σ id (lookup_id R id) refs
  end.

Definition key_for_target (σ : Store) (R : Registry) (target : TargetConnection) : result Key Error :=
  let? id := ok_or (owner_connection σ (target_node (treferences target))) UnknownConnection in
  let key := {| kregistry := identity R; kid := id |} in
  let? _ := lookup R key in
  Ok key.

(** [request.target() == Target::Handle(0)]. *)
Definition is_context (request : Request) : bool :=
  match TransactionRequest.target request with THandle handle => handle =? 0 | TReply => false end.
Definition is_reply (request : Request) : bool :=
  match TransactionRequest.target request with THandle _ => false | TReply => true end.

(** [context_manager/routing.rs]. *)
Definition resolve_context_target (σ : Store) (R : Registry) (sender : Key) (request : Request)
    : option (Store * result TargetConnection RoutingError) :=
  if negb (is_context request) then Some (σ, Err NotContextRequest)
  else
    match (let? c := map_err RRegistry (lookup R sender) in map_err RConnection (ensure_open c)) with
    | Err e => Some (σ, Err e)
    | Ok _ =>
        match manager (context R) with
        | None => Some (σ, Err MissingManager)
        | Some m =>
            if kid (mkey m) =? kid sender then Some (σ, Err SelfConnection)
            else
              '(σ, res) ← for_context_node σ (hnode (cstrong (mreferences m)));
              match res with
              | Err e => Some (σ, Err (RNode e))
              | Ok refs =>
                  '(σ, res) ← bind_at σ (kid (mkey m)) (lookup R (mkey m)) refs;
                  Some (σ, map_err RRegistry res)
              end
        end
    end.

(** ** Transactions and replies ([connection_registry.rs]) *)

(** The target of a transaction. *)
Definition resolve_target (σ : Store) (R : Registry) (sender : Key) (c : Connection) (request : Request)
    : option (Store * result TargetConnection SubmitError) :=
  if is_context request then
    '(σ, res) ← resolve_context_target σ R sender request;
    Some (σ, map_err SContext res)
  else
    '(σ, res) ← connection_transaction_target σ c request;
    match res with
    | Err e => Some (σ, Err (STarget e))
    | Ok refs => '(σ, res) ← bind_resolved_target σ R refs; Some (σ, map_err SRegistry res)
    end.

(** The call of a synchronous transaction; [None] for a one-way transaction. *)
Definition open_call (reserved : bool) (σ : Store) (R : Registry) (sender : Key) (thread_id : Z)
    (synchronous : bool) (target : TargetConnection) : Registry * result (option CallId) SubmitError :=
  if negb synchronous then (R, Ok None)
  else
    match routing_id σ (target_node (treferences target)) with
    | None => (R, Err (SRegistry UnknownConnection))
    | Some id =>
        let '(t, res) := register_call reserved (calls R)
                           {| rsender := kid sender; rthread := thread_id; rtarget := id |} in
        (set_calls R t, result_map Some res)
    end.

(** Publication: the connections of the sender and of the target after it. *)
Definition enqueue_between (rsv : Reserve) (σ : Store) (R : Registry) (sender target : ConnectionId)
    (snapshot : TransactionSnapshot) (header : TransactionQueue.Header) (route : TransactionQueue.Route)
    : option (Store * Registry * result Z Connection.Error) :=
  match entries R !! sender, entries R !! target with
  | Some from, Some to =>
      '(σ, from, to, res) ←
        enqueue_translated_from rsv σ (sender =? target) from to snapshot header route;
      Some (σ, if sender =? target then R else set_entry (set_entry R sender from) target to, res)
  | _, _ => None
  end.

(** [Registry::submit_transaction].  [synchronous] is the flag of the reservation, which holds
    the thread [t]; the holds of the target are dropped at the end. *)
Definition submit_transaction (debug : bool) (rsv : Reserve) (σ : Store) (R : Registry) (sender : Key)
    (request : Request) (snapshot : TransactionSnapshot) (sender_pid sender_euid : Z)
    (t : Thread) (synchronous : bool)
    : option (Store * Registry * Thread * result Z SubmitError) :=
  let fail σ R e := Some (σ, R, t, Err e) in
  if is_reply request then fail σ R ReplyRequiresThreadStack
  else
    match (let? _ := map_err Snapshot (objects (below 0 rsv) snapshot) in map_err SRegistry (lookup R sender)) with
    | Err e => fail σ R e
    | Ok c =>
        '(σ, res) ← resolve_target σ R sender c request;
        match res with
        | Err e => fail σ R e
        | Ok target =>
            let drop σ := drop_target σ (treferences target) in
            match key_for_target σ R target with
            | Err e => σ ← drop σ; fail σ R (SRegistry e)
            | Ok _ =>
                match open_call (rsv [1%nat]) σ R sender (Thread.id t) (Z.land (flags request) 1 =? 0) target with
                | (R, Err e) => σ ← drop σ; fail σ R e
                | (R, Ok call) =>
                    let n := nodes σ !!! target_node (treferences target) in
                    '(σ, R, res) ← enqueue_between (below 2 rsv) σ R (kid sender) (tconnection target) snapshot
                        {| TransactionQueue.hreply := false; TransactionQueue.htarget_pointer := pointer n;
                           TransactionQueue.htarget_cookie := cookie n; TransactionQueue.hcode := code request;
                           TransactionQueue.hflags := flags request; TransactionQueue.hsender_pid := sender_pid;
                           TransactionQueue.hsender_euid := sender_euid |}
                        {| TransactionQueue.rcall := call; TransactionQueue.target_thread := None;
                           TransactionQueue.deferred_completion := false |};
                    match res with
                    | Ok address =>
                        '(t, Σ) ← commit_submission debug synchronous t (signals σ) call;
                        σ ← drop (set_signals σ Σ);
                        Some (σ, R, t, Ok address)
                    | Err e =>
                        let R := match call with Some call => set_calls R (remove_call (calls R) call) | None => R end in
                        σ ← drop σ;
                        fail σ R (STarget e)
                    end
                end
            end
        end
    end.

(** [Registry::submit_reply]. *)
Definition submit_reply (debug : bool) (rsv : Reserve) (σ : Store) (R : Registry) (replier : Key)
    (call : CallId) (request : Request) (snapshot : TransactionSnapshot) (sender_pid sender_euid : Z)
    (t : Thread) (synchronous : bool)
    : option (Store * Registry * Thread * result Z SubmitError) :=
  let fail e := Some (σ, R, t, Err e) in
  if negb (is_reply request) then fail ReplyRequiresThreadStack
  else
    match call_routes (calls R) !! call with
    | None => fail UnknownCall
    | Some route =>
        match lookup R replier with
        | Err e => fail (SRegistry e)
        | Ok _ =>
            let answered R := set_calls R (remove_call (calls R) call) in
            match lookup_id R (rsender route) with
            | Err _ =>
                '(t, Σ) ← commit_submission debug synchronous t (signals σ) None;
                Some (set_signals σ Σ, answered R, t, Ok 0)
            | Ok _ =>
                '(σ, R, res) ← enqueue_between rsv σ R (kid replier) (rsender route) snapshot
                    {| TransactionQueue.hreply := true; TransactionQueue.htarget_pointer := 0;
                       TransactionQueue.htarget_cookie := 0; TransactionQueue.hcode := code request;
                       TransactionQueue.hflags := flags request; TransactionQueue.hsender_pid := sender_pid;
                       TransactionQueue.hsender_euid := sender_euid |}
                    {| TransactionQueue.rcall := Some call;
                       TransactionQueue.target_thread := Some (rthread route);
                       TransactionQueue.deferred_completion := true |};
                match res with
                | Ok address =>
                    '(t, Σ) ← commit_submission debug synchronous t (signals σ) None;
                    Some (set_signals σ Σ, answered R, t, Ok address)
                | Err e => Some (σ, R, t, Err (STarget e))
                end
            end
        end
    end.

(** ** Commands ([connection_registry.rs], [context_manager/reference_commands.rs]) *)

Definition registry_context_reference (σ : Store) (R : Registry) (key : Key) (input : bytes) (k : Command.Kind)
    : Store * Registry * result Session.Outcome Error :=
  match lookup R key with
  | Err e => (σ, R, Err e)
  | Ok _ =>
      if negb (bool_decide (k = Command.Increfs) || bool_decide (k = Command.Acquire))
      then at_key σ R key (fun c => connection_context_reference σ c input None)
      else
        match manager (context R) with
        | Some m =>
            if kid (mkey m) =? kid key then (σ, R, Err ContextSelfAcquire)
            else at_key σ R key (fun c =>
                   connection_context_reference σ c input (Some (hnode (cstrong (mreferences m)))))
        | None => at_key σ R key (fun c => connection_context_reference σ c input None)
        end
  end.

Definition is_update (k : Command.Kind) : bool :=
  match k with Command.Increfs | Command.Acquire | Command.Release | Command.Decrefs => true | _ => false end.

Definition registry_execute (σ : Store) (R : Registry) (key : Key) (input : bytes)
    : Store * Registry * result Session.Outcome Error :=
  match Command.decode input with
  | Err e => (σ, R, Err (GConnection (CCommand (EFraming e))))
  | Ok (decoded, _) =>
      if is_update (Command.kind decoded) && (u32_at (Command.payload decoded) 0 =? 0)
      then registry_context_reference σ R key input (Command.kind decoded)
      else at_key σ R key (fun c => connection_execute σ c input)
  end.

(** ** The context manager ([context_manager.rs]) *)

Module ContextManager.
Inductive Error : Type :=
| CRegistry (e : Registry.Error) | Busy | Security (code : Z) | WrongUid
| CNode (e : Connection.Error) | ReservationExhausted | NoPendingReservation.
End ContextManager.

Definition set_manager (x : ContextState) (m : option Manager) : ContextState :=
  {| uid := uid x; manager := m; pending_manager := pending_manager x;
     next_reservation := next_reservation x |}.
Definition set_pending_manager (x : ContextState) (p : option (Z * Manager)) : ContextState :=
  {| uid := uid x; manager := manager x; pending_manager := p;
     next_reservation := next_reservation x |}.

(** [begin_context_manager]; references without a reservation are dropped. *)
Definition begin_context_manager (rsv : Reserve) (σ : Store) (R : Registry) (key : Key) (object : Object)
    (authorize : Key -> result Z Z)
    : option (Store * Registry * result (Z * LocalNodeToken) ContextManager.Error) :=
  match lookup R key with
  | Err e => Some (σ, R, Err (ContextManager.CRegistry e))
  | Ok c =>
      let x := context R in
      if bool_decide (is_Some (manager x)) || bool_decide (is_Some (pending_manager x))
      then Some (σ, R, Err ContextManager.Busy)
      else
        match authorize key with
        | Err e => Some (σ, R, Err (ContextManager.Security e))
        | Ok u =>
            if match uid x with Some previous => negb (previous =? u) | None => false end
            then Some (σ, R, Err ContextManager.WrongUid)
            else
              let x := {| uid := Some u; manager := manager x; pending_manager := pending_manager x;
                          next_reservation := next_reservation x |} in
              let '(σ, c, res) := connection_context_manager_refs rsv σ c object in
              let R := set_entry (set_context R x) (kid key) c in
              match res with
              | Err e => Some (σ, R, Err (ContextManager.CNode e))
              | Ok refs =>
                  let local := local_token σ (hnode (cstrong refs)) in
                  match checked_add u64_max (next_reservation x) 1 with
                  | None =>
                      σ ← drop_context_manager_refs σ refs;
                      Some (σ, R, Err ContextManager.ReservationExhausted)
                  | Some reservation =>
                      Some (σ, set_context R
                                 {| uid := uid x; manager := manager x;
                                    pending_manager := Some (reservation, {| mkey := key; mreferences := refs |});
                                    next_reservation := reservation |},
                            Ok (reservation, local))
                  end
              end
        end
  end.

(** The pending manager with a reservation of a connection. *)
Definition matching (x : ContextState) (key : Key) (reservation : Z) : option Manager :=
  '(n, m) ← pending_manager x;
  if (n =? reservation) && (kid (mkey m) =? kid key) then Some m else None.

(** The manager of a connection that closes. *)
Definition managed (key : Key) (m : Manager) : option Manager :=
  if kid (mkey m) =? kid key then Some m else None.

Definition drop_manager (σ : Store) (m : option Manager) : option Store :=
  match m with Some m => drop_context_manager_refs σ (mreferences m) | None => Some σ end.

(** The manager that is replaced is dropped. *)
Definition commit_context_manager (σ : Store) (R : Registry) (key : Key) (reservation : Z)
    : option (Store * Registry * result unit ContextManager.Error) :=
  match check R key with
  | Err e => Some (σ, R, Err (ContextManager.CRegistry e))
  | Ok _ =>
      match matching (context R) key reservation with
      | None => Some (σ, R, Err ContextManager.NoPendingReservation)
      | Some m =>
          σ ← drop_manager σ (manager (context R));
          Some (σ, set_context R (set_manager (set_pending_manager (context R) None) (Some m)), Ok tt)
      end
  end.

Definition abort_context_manager (σ : Store) (R : Registry) (key : Key) (reservation : Z)
    : option (Store * Registry) :=
  match matching (context R) key reservation with
  | None => Some (σ, R)
  | Some m =>
      σ ← drop_context_manager_refs σ (mreferences m);
      Some (σ, set_context R (set_pending_manager (context R) None))
  end.

(** [register_context_manager]. *)
Definition register_context_manager (rsv : Reserve) (σ : Store) (R : Registry) (key : Key) (object : Object)
    (authorize : Key -> result Z Z)
    : option (Store * Registry * result unit ContextManager.Error) :=
  '(σ, R, res) ← begin_context_manager rsv σ R key object authorize;
  match res with
  | Err e => Some (σ, R, Err e)
  | Ok (reservation, _) => commit_context_manager σ R key reservation
  end.

Definition clear_context_manager (σ : Store) (R : Registry) (key : Key) : option (Store * Registry) :=
  let x := context R in
  let removed : option Manager := m ← manager x; managed key m in
  let pending : option Manager := p ← pending_manager x; managed key p.2 in
  σ ← drop_manager σ removed;
  σ ← drop_manager σ pending;
  Some (σ, set_context R
             (set_pending_manager
                (set_manager x (if bool_decide (is_Some removed) then None else manager x))
                (if bool_decide (is_Some pending) then None else pending_manager x))).

(** ** Teardown ([lifecycle.rs]) *)

(** The loop of [close] over the calls to the closed connection. *)
Fixpoint notify_callers (σ : Store) (R : Registry) (dead : list (CallId * CallRoute))
    : Store * Registry * result unit Error :=
  match dead with
  | [] => (σ, R, Ok tt)
  | (call, route) :: dead =>
      match entries R !! rsender route with
      | None => notify_callers σ R dead
      | Some caller =>
          match existing_thread caller (rthread route) with
          | None => notify_callers σ R dead
          | Some t =>
              match enqueue_dead_reply t (signals σ) call with
              | (_, _, Err _) => (σ, R, Err (GConnection (Io EINVAL)))
              | (t, Σ, Ok _) =>
                  notify_callers (set_signals σ Σ)
                    (set_entry R (rsender route)
                       (set_cthreads caller (<[rthread route := t]> (cthreads caller)))) dead
              end
          end
      end
  end.

(** [close]; with the descriptors the dropped transactions close. *)
Definition close `{!Iteration Z OwnedTransaction, !Iteration CallId CallRoute}
    (σ : Store) (R : Registry) (key : Key) : option (Store * Registry * result unit Error * list Z) :=
  match check R key with
  | Err e => Some (σ, R, Err e, [])
  | Ok _ =>
      match entries R !! kid key with
      | None => Some (σ, R, Err UnknownConnection, [])
      | Some owner =>
          let R := set_entries R (delete (kid key) (entries R)) in
          let '(t, dead) := take_target (calls R) (kid key) in
          let R := set_calls R t in
          '(σ, _, closed) ← disconnect σ owner;
          match notify_callers σ R dead with
          | (σ, R, Err e) => Some (σ, R, Err e, closed)
          | (σ, R, Ok _) =>
              '(σ, R) ← clear_context_manager σ R key;
              Some (σ, R, Ok tt, closed)
          end
      end
  end.

(** ** The policy ([security.rs]) *)

Definition EPERM : Z := 1.
(** [AndroidSystemPolicy::authorize] of an effective user id. *)
Definition authorize (euid : Z) : result unit Z := ensure ((euid =? 0) || (euid =? 1000)) EPERM.

(** ** Process I/O ([process_io.rs]) and remote deliveries ([remote_delivery.rs])

    [at_key_opt] is [at_key] for the operations that can fail an assertion or close
    descriptors. *)
Definition at_key_opt {A} (σ : Store) (R : Registry) (key : Key)
    (k : Connection -> option (Store * Connection * result A Connection.Error * list Z))
    : option (Store * Registry * result A Error * list Z) :=
  match lookup R key with
  | Err e => Some (σ, R, Err e, [])
  | Ok c =>
      '(σ, c, res, closed) ← k c;
      Some (σ, set_entry R (kid key) c, map_err GConnection res, closed)
  end.

Definition registry_hold_local_node (σ : Store) (R : Registry) (key : Key) (local : LocalNodeToken) (k : HoldKind)
    : Store * Registry * result LocalHold Error :=
  at_key σ R key (fun c => hold_local_node σ c local k).

Definition registry_fail_remote_authority `{!Iteration Z Thread} (σ : Store) (R : Registry) (key : Key)
    : Store * Registry * result unit Error :=
  at_key σ R key (connection_fail_remote_authority σ).

Definition registry_enqueue_dead_binder (rsv : Reserve) (σ : Store) (R : Registry) (key : Key) (cookie : Z)
    : Store * Registry * result unit Error :=
  at_key σ R key (fun c => enqueue_dead_binder rsv σ c cookie).

Definition registry_enqueue_clear_death_done (rsv : Reserve) (σ : Store) (R : Registry) (key : Key) (cookie : Z)
    : Store * Registry * result unit Error :=
  at_key σ R key (fun c => enqueue_clear_death_done rsv σ c cookie).

Definition registry_acknowledge_dead_binder (σ : Store) (R : Registry) (key : Key) (cookie : Z)
    : Store * Registry * result unit Error :=
  at_key σ R key (fun c => let '(c, res) := acknowledge_dead_binder c cookie in (σ, c, res)).

Definition registry_set_max_threads (σ : Store) (R : Registry) (key : Key) (maximum : Z)
    : Store * Registry * result unit Error :=
  at_key σ R key (fun c => (σ, connection_set_max_threads c maximum, Ok tt)).

Definition registry_thread (σ : Store) (R : Registry) (key : Key) (thread_id : Z)
    : option (Store * Registry * result Thread Error * list Z) :=
  at_key_opt σ R key (fun c => '(c, res) ← thread c thread_id; Some (σ, c, res, [])).

Definition prepare_thread_work_wait (σ : Store) (R : Registry) (key : Key) (thread_id : Z)
    : option (Store * Registry * result (option Z) Error * list Z) :=
  at_key_opt σ R key (fun c => '(c, res) ← work_wait_new c thread_id; Some (σ, c, res, [])).

Definition registry_execute_looper_command (debug : bool) (R : Registry) (key : Key) (t : Thread)
    (input : bytes) : option (Registry * Thread * result Z Error) :=
  match lookup R key with
  | Err e => Some (R, t, Err e)
  | Ok c =>
      '(c, t, res) ← execute_looper_command debug c t input;
      Some (set_entry R (kid key) c, t, map_err GConnection res)
  end.

Definition registry_read_spawn_request (R : Registry) (key : Key) (t : Thread) (output : bytes)
    : Registry * bytes * result Z Error :=
  match lookup R key with
  | Err e => (R, output, Err e)
  | Ok c =>
      let '(c, output, n) := read_spawn_request c t output in (set_entry R (kid key) c, output, Ok n)
  end.

Definition registry_read_node_work (σ : Store) (R : Registry) (key : Key) (output : bytes)
    : Store * bytes * result Z Error :=
  match lookup R key with
  | Err e => (σ, output, Err e)
  | Ok c =>
      let '(σ, output, res) := connection_read_node_work σ c output in
      (σ, output, map_err GConnection res)
  end.

Definition registry_read_death_work (debug : bool) (R : Registry) (key : Key) (output : bytes)
    : option (Registry * bytes * result Z Error) :=
  match lookup R key with
  | Err e => Some (R, output, Err e)
  | Ok c =>
      '(c, output, n) ← read_death_work debug c output;
      Some (set_entry R (kid key) c, output, Ok n)
  end.

Definition registry_free_transaction_buffer (σ : Store) (R : Registry) (key : Key) (address : Z)
    : option (Store * Registry * result unit Error * list Z) :=
  at_key_opt σ R key (fun c => '(c, res, closed) ← free_transaction_buffer c address; Some (σ, c, res, closed)).

Definition registry_install_receive_mapping (mapped : result Z Errno) (σ : Store) (R : Registry) (key : Key)
    (capacity : Z) : Store * Registry * result Z Error :=
  at_key σ R key (fun c => let '(c, res) := install_receive_mapping mapped c capacity in (σ, c, res)).

Inductive DeliveryError : Type := DRegistry (e : Error) | DThread (e : Thread.Error).

(** The check before a delivery that carries a call. *)
Definition prepare_delivery (rsv : Reserve) (t : Thread) (next : option TransactionQueue.Next)
    : result unit Thread.Error :=
  match next with
  | Some {| TransactionQueue.ncall := Some call; TransactionQueue.nreply := true |} => validate_outgoing t call
  | Some {| TransactionQueue.ncall := Some _; TransactionQueue.nreply := false |} => reserve_incoming rsv
  | _ => Ok tt
  end.

(** The call stacks after a delivery. *)
Definition finish_delivery (t : Thread) (delivery : option TransactionQueue.Delivery)
    : Thread * result Z Thread.Error :=
  match delivery with
  | None => (t, Ok 0)
  | Some d =>
      match TransactionQueue.dcall d with
      | None => (t, Ok (TransactionQueue.dbytes d))
      | Some call =>
          if TransactionQueue.dreply d then
            if TransactionQueue.completion d then (t, Ok (TransactionQueue.dbytes d))
            else let '(t, res) := finish_outgoing t call in
                 (t, result_map (fun _ => TransactionQueue.dbytes d) res)
          else (accept_incoming t call, Ok (TransactionQueue.dbytes d))
      end
  end.

(** [deliver_transaction].  Reservations at [[0]] and [[1]]. *)
Definition deliver_transaction (rsv : Reserve) (R : Registry) (key : Key) (t : Thread) (output : bytes)
    : option (Registry * Thread * bytes * result Z DeliveryError * list Z) :=
  match lookup R key with
  | Err e => Some (R, t, output, Err (DRegistry e), [])
  | Ok c =>
      let accept_async := can_wait_for_process_work t in
      match prepare_delivery rsv t (next_transaction_route c (Thread.id t) accept_async) with
      | Err e => Some (R, t, output, Err (DThread e), [])
      | Ok _ =>
          '(c, output, res, closed) ←
            read_transaction_for_thread (rsv [1%nat]) c (Thread.id t) accept_async output;
          let R := set_entry R (kid key) c in
          match res with
          | Err e => Some (R, t, output, Err (DRegistry (GConnection e)), closed)
          | Ok delivery =>
              let '(t, res) := finish_delivery t delivery in
              Some (R, t, output, map_err DThread res, closed)
          end
      end
  end.

Definition registry_resolve_remote_objects (rsv : Reserve) (σ : Store) (R : Registry) (key : Key)
    (payload : TransactionSnapshot) : option (Store * Registry * result (list OutboundObject) Error * list Z) :=
  at_key_opt σ R key (fun c =>
    '(σ, c, res) ← connection_resolve_remote_objects rsv σ c payload; Some (σ, c, res, [])).

Definition registry_install_remote_reference (σ : Store) (R : Registry) (key : Key) (node : NodeToken)
    (st : Strength) (context_manager : bool) : Store * Registry * result Z Error :=
  at_key σ R key (fun c => install_remote_reference σ c node st context_manager).

Definition registry_resolve_remote_transaction_target (σ : Store) (R : Registry) (key : Key) (request : Request)
    : option (Store * Registry * result (option NodeToken) Error * list Z) :=
  at_key_opt σ R key (fun c =>
    '(σ, res) ← resolve_remote_transaction_target σ c request; Some (σ, c, res, [])).

(** Installed descriptors of a delivery to no connection are closed. *)
Definition registry_enqueue_remote_transaction (rsv : Reserve) (σ : Store) (R : Registry) (key : Key)
    (payload : TransferImage) (receiver : ConnectionToken) (remote : RemoteTransaction)
    (files : list InstalledFd) : option (Store * Registry * result Z Error * list Z) :=
  match lookup R key with
  | Err e => Some (σ, R, Err e, inumber <$> files)
  | Ok _ => at_key_opt σ R key (fun c => enqueue_remote_transaction rsv σ c payload receiver remote files)
  end.

Definition registry_enqueue_remote_reply (rsv : Reserve) (σ : Store) (R : Registry) (key : Key)
    (payload : TransferImage) (receiver : ConnectionToken) (remote : RemoteReply)
    (files : list InstalledFd) : option (Store * Registry * result Z Error * list Z) :=
  match lookup R key with
  | Err e => Some (σ, R, Err e, inumber <$> files)
  | Ok _ => at_key_opt σ R key (fun c => enqueue_remote_reply rsv σ c payload receiver remote files)
  end.

Definition registry_cancel_remote_incoming `{!Iteration Z Thread} (σ : Store) (R : Registry) (key : Key)
    (call : CallToken) : option (Store * Registry * result unit Error * list Z) :=
  at_key_opt σ R key (fun c => '(c, res, closed) ← cancel_remote_incoming c call; Some (σ, c, res, closed)).
