(* ===== verification/WriteRead.v ===== *)
(** * One [BINDER_WRITE_READ] ([write_read.rs])

    The command stream of one request: the write records one after the other, each on the
    remaining bytes, then one read.  Only completely executed records are consumed, and a
    failing record ends the request before the read. *)
From S2P Require Import Prelude RoutingAuthority TransactionQueue DeathWork TransactionWire.
From S2P Require Import Command AuthorityProtocol Objects TransactionSnapshot TransactionRequest.
From S2P Require Import NodeWork WorkSignal NodeOwner ReferenceTable Session Thread.
From S2P Require Import ReceiveArena TransferImage PreparedTransaction World Connection Registry.

Record Consumed : Type := { cwrite : Z; cread : Z }.

Inductive Cause (E : Type) : Type :=
| CFraming (e : Command.DecodeError) | CConnection (e : Registry.Error) | CauseThread (e : Thread.Error)
| CTransactionRequest (e : TransactionRequest.Error) | CTransactionCapture (e : E)
| CTransactionSubmit (e : SubmitError).
#[global] Arguments CFraming {E} e.
#[global] Arguments CConnection {E} e.
#[global] Arguments CauseThread {E} e.
#[global] Arguments CTransactionRequest {E} e.
#[global] Arguments CTransactionCapture {E} e.
#[global] Arguments CTransactionSubmit {E} e.

(** The trait [TransactionSource], over the source's own state and its error. *)
Class TransactionSource (T E : Type) : Type :=
  capture_source : Reserve -> T -> Request -> T * result TransactionSnapshot E.

Record SenderIdentity : Type := { spid : Z; seuid : Z }.

(** What a request reads and writes: the shared nodes and signals, the registry, the locked
    thread, the source, and the descriptors closed so far. *)
Record Machine (T : Type) : Type :=
  { mstore : Store; mregistry : Registry; mthread : Thread; msource : T; mclosed : list Z }.
#[global] Arguments Build_Machine {T} mstore mregistry mthread msource mclosed.
#[global] Arguments mstore {T} m.
#[global] Arguments mregistry {T} m.
#[global] Arguments mthread {T} m.
#[global] Arguments msource {T} m.
#[global] Arguments mclosed {T} m.

Section write_read.
Context {T E : Type} `{!TransactionSource T E}.
Implicit Types (m : Machine T).

Definition with_registry m (σ : Store) (R : Registry) : Machine T :=
  Build_Machine σ R (mthread m) (msource m) (mclosed m).
Definition with_thread m (t : Thread) : Machine T :=
  Build_Machine (mstore m) (mregistry m) t (msource m) (mclosed m).
Definition with_source m (s : T) : Machine T :=
  Build_Machine (mstore m) (mregistry m) (mthread m) s (mclosed m).
Definition with_closed m (fds : list Z) : Machine T :=
  Build_Machine (mstore m) (mregistry m) (mthread m) (msource m) (mclosed m ++ fds).

Definition is_looper_command (k : Command.Kind) : bool :=
  match k with RegisterLooper | EnterLooper | ExitLooper => true | _ => false end.
Definition is_transaction (k : Command.Kind) : bool :=
  match k with Transaction | TransactionSg | Reply | ReplySg => true | _ => false end.

(** [BC_REGISTER_LOOPER], [BC_ENTER_LOOPER] and [BC_EXIT_LOOPER]. *)
Definition looper_record (debug : bool) (key : Key) m (remaining : bytes)
    : option (Machine T * result Z (Cause E)) :=
  '(R, t, res) ← registry_execute_looper_command debug (mregistry m) key (mthread m) remaining;
  Some (with_thread (with_registry m (mstore m) R) t,
        map_err (fun cause => match cause with
                              | GConnection (CThread cause) => CauseThread cause
                              | cause => CConnection cause
                              end) res).

(** A reply goes to the caller of the thread's current incoming call. *)
Definition reply_record (debug : bool) (rsv : Reserve) (key : Key) m (sender : SenderIdentity)
    (request : Request) (snapshot : TransactionSnapshot) (n : Z)
    : option (Machine T * result Z (Cause E)) :=
  match (let? call := current_incoming (mthread m) in
         let? synchronous := reserve_submission (below 0 rsv) false in Ok (call, synchronous)) with
  | Err e => Some (m, Err (CauseThread e))
  | Ok (call, synchronous) =>
      '(σ, R, t, res) ← submit_reply debug (below 1 rsv) (mstore m) (mregistry m) key call request snapshot
                          (spid sender) (seuid sender) (mthread m) synchronous;
      let m := with_registry m σ R in
      match res with
      | Err e => Some (with_thread m t, Err (CTransactionSubmit e))
      | Ok _ =>
          let '(t, res) := finish_incoming t call in
          Some (with_thread m t, map_err CauseThread (result_map (fun _ => n) res))
      end
  end.

Definition submit_record (debug : bool) (rsv : Reserve) (key : Key) m (sender : SenderIdentity)
    (request : Request) (snapshot : TransactionSnapshot) (n : Z)
    : option (Machine T * result Z (Cause E)) :=
  match reserve_submission (below 0 rsv) (Z.land (flags request) 1 =? 0) with
  | Err e => Some (m, Err (CauseThread e))
  | Ok synchronous =>
      '(σ, R, t, res) ← submit_transaction debug (below 1 rsv) (mstore m) (mregistry m) key request snapshot
                          (spid sender) (seuid sender) (mthread m) synchronous;
      Some (with_thread (with_registry m σ R) t,
            map_err CTransactionSubmit (result_map (fun _ => n) res))
  end.

Definition transaction_record (debug : bool) (rsv : Reserve) (key : Key) m (sender : SenderIdentity)
    (remaining : bytes) : option (Machine T * result Z (Cause E)) :=
  match TransactionRequest.decode remaining with
  | Err e => Some (m, Err (CTransactionRequest e))
  | Ok (request, n) =>
      match capture_source (below 2 rsv) (msource m) request with
      | (s, Err e) => Some (with_source m s, Err (CTransactionCapture e))
      | (s, Ok snapshot) =>
          let m := with_source m s in
          if is_reply request then reply_record debug rsv key m sender request snapshot n
          else submit_record debug rsv key m sender request snapshot n
      end
  end.

(** [usize::try_from] of a 64-bit address succeeds. *)
Definition free_record (key : Key) m (command : Command.Command) : option (Machine T * result Z (Cause E)) :=
  '(σ, R, res, fds) ← registry_free_transaction_buffer (mstore m) (mregistry m) key
                        (u64_at (Command.payload command) 0);
  Some (with_closed (with_registry m σ R) fds,
        map_err CConnection (result_map (fun _ => 4 + len (Command.payload command)) res)).

(** The body of the loop over the write buffer: the bytes of the record. *)
Definition execute_record (debug : bool) (rsv : Reserve) (key : Key) m (sender : SenderIdentity)
    (remaining : bytes) : option (Machine T * result Z (Cause E)) :=
  match Command.decode remaining with
  | Err e => Some (m, Err (CFraming e))
  | Ok (command, _) =>
      let k := Command.kind command in
      if is_looper_command k then looper_record debug key m remaining
      else if is_transaction k then transaction_record debug rsv key m sender remaining
      else if bool_decide (k = FreeBuffer) then free_record key m command
      else
        let '(σ, R, res) := registry_execute (mstore m) (mregistry m) key remaining in
        Some (with_registry m σ R, map_err CConnection (result_map outcome_bytes res))
  end.

(** The loop, with one unit of fuel for a record; the record at index [i] reserves under [[i]]. *)
Fixpoint write_loop (fuel : nat) (debug : bool) (rsv : Reserve) (key : Key) m (sender : SenderIdentity)
    (write : bytes) (i : nat) (consumed : Z) : option (Machine T * Z * result unit (Cause E)) :=
  if negb (consumed <? len write) then Some (m, consumed, Ok tt)
  else
    match fuel with
    | O => None
    | S fuel =>
        '(m, res) ← execute_record debug (below i rsv) key m sender (drop (Z.to_nat consumed) write);
        match res with
        | Err e => Some (m, consumed, Err e)
        | Ok n => write_loop fuel debug rsv key m sender write (S i) (consumed + n)
        end
    end.

(** The read: the first of the sources that has work. *)
Definition read_phase (debug : bool) (rsv : Reserve) (key : Key) m (read : bytes)
    : option (Machine T * bytes * result Z (Cause E)) :=
  match ensure_read_eligible (mthread m) with
  | Err e => Some (m, read, Err (CauseThread e))
  | Ok _ =>
      let '(R, read, res) := registry_read_spawn_request (mregistry m) key (mthread m) read in
      let m := with_registry m (mstore m) R in
      match res with
      | Err e => Some (m, read, Err (CConnection e))
      | Ok n =>
          if negb (n =? 0) then Some (m, read, Ok n)
          else
            let '(σ, read, res) := registry_read_node_work (mstore m) (mregistry m) key read in
            let m := with_registry m σ (mregistry m) in
            match res with
            | Err e => Some (m, read, Err (CConnection e))
            | Ok n =>
                if negb (n =? 0) then Some (m, read, Ok n)
                else
                  '(t, read, n) ← read_local_work debug (mthread m) read;
                  let m := with_thread m t in
                  if negb (n =? 0) then Some (m, read, Ok n)
                  else
                    '(R, read, res) ← registry_read_death_work debug (mregistry m) key read;
                    let m := with_registry m (mstore m) R in
                    match res with
                    | Err e => Some (m, read, Err (CConnection e))
                    | Ok n =>
                        if negb (n =? 0) then Some (m, read, Ok n)
                        else
                          '(R, t, read, res, fds) ← deliver_transaction rsv (mregistry m) key (mthread m) read;
                          Some (with_closed (with_thread (with_registry m (mstore m) R) t) fds, read,
                                map_err (fun cause => match cause with
                                                      | DRegistry e => CConnection e
                                                      | DThread e => CauseThread e
                                                      end) res)
                    end
            end
      end
  end.

(** [Registry::write_read]: the read buffer and the consumption, with the cause of a failure. *)
Definition write_read (debug : bool) (rsv : Reserve) (key : Key) m (write read : bytes)
    (sender : SenderIdentity) : option (Machine T * bytes * Consumed * option (Cause E)) :=
  '(m, consumed, res) ← write_loop (length write) debug (below 0 rsv) key m sender write 0 0;
  let written n := {| cwrite := consumed; cread := n |} in
  match res with
  | Err e => Some (m, read, written 0, Some e)
  | Ok _ =>
      if bool_decide (read = []) then Some (m, read, written 0, None)
      else
        '(m, read, res) ← read_phase debug (below 1 rsv) key m read;
        match res with
        | Err e => Some (m, read, written 0, Some e)
        | Ok n => Some (m, read, written n, None)
        end
  end.
End write_read.

(** ** Specification *)

Section specification.
Context {T E : Type} `{!TransactionSource T E}.
Context (debug : bool) (rsv : Reserve) (key : Key) (sender : SenderIdentity).
Implicit Types (m : Machine T) (w : bytes).

(** The records at the start of [w] complete: their sizes and the state they leave. *)
Inductive executes : nat -> Machine T -> bytes -> list Z -> Machine T -> Prop :=
| executes_nil i m w : executes i m w [] m
| executes_cons i m w n m1 ns m2 :
    w <> [] -> execute_record debug (below i rsv) key m sender w = Some (m1, Ok n) ->
    executes (S i) m1 (drop (Z.to_nat n) w) ns m2 -> executes i m w (n :: ns) m2.

End specification.

(** [ns] are the sizes of the frames at the start of [w]. *)
Fixpoint frames (w : bytes) (ns : list Z) : Prop :=
  match ns with
  | [] => True
  | n :: ns => (exists c, Command.decode w = Ok (c, n)) /\ frames (drop (Z.to_nat n) w) ns
  end.

Definition total (ns : list Z) : Z := foldr Z.add 0 ns.

(** The reservations after the first [k] records. *)
Definition later (k : nat) (rsv : Reserve) : Reserve :=
  fun site => match site with
              | 0%nat :: i :: site => rsv (0%nat :: (i + k)%nat :: site)
              | site => rsv site
              end.

(** ** Lemmas *)

Lemma frame_size w c n : Command.decode w = Ok (c, n) ->
  n = 4 + len (Command.payload c) /\ 4 <= n <= len w.
Proof.
  intros (Hn & Hl & rest & ->)%command_decode_inv. unfold len. rewrite !length_app, length_u32_le. lia.
Qed.

Lemma frame_app w c n x : Command.decode w = Ok (c, n) -> Command.decode (w ++ x) = Ok (c, n).
Proof.
  intros (Hn & Hl & rest & ->)%command_decode_inv. rewrite <- !app_assoc, decode_framed by done.
  destruct c; simpl in *. congruence.
Qed.

(** The size of an executed command. *)
Lemma looper_size debug c t w c' t' n :
  execute_looper_command debug c t w = Some (c', t', Ok n) -> exists d, Command.decode w = Ok (d, n).
Proof.
  unfold execute_looper_command, execute_looper. intros H.
  destruct (Command.decode w) as [[d k]|] eqn:Ew; [|done]. exists d.
  destruct (if bool_decide _ then begin_register _ else _) as [[]|]; [|done].
  destruct (looper t), (Command.kind d); try done;
    simpl in H; repeat (destruct (finish_register _ _) as [?|]; [simpl in H|done]); congruence.
Qed.

Lemma session_size σ s w σ' s' o :
  Session.execute σ s w = (σ', s', Ok o) -> exists c, Command.decode w = Ok (c, outcome_bytes o).
Proof.
  unfold Session.execute, dispatch, ack_dispatch. intros H.
  destruct (Command.decode w) as [[c n]|] eqn:Ew; [|done]. exists c.
  destruct (Command.kind c) eqn:Ek; try done;
    first [destruct (_ =? 0); [done|]; destruct (update_handle _ _ _ _ _) as [[??] ?]
          |destruct (acknowledge _ _ _ _ _)]; simpl in H; by simplify_eq.
Qed.

Lemma context_size σ s w manager σ' s' o :
  Session.execute_context_reference σ s w manager = (σ', s', Ok o) ->
  exists c, Command.decode w = Ok (c, cbytes o).
Proof.
  unfold Session.execute_context_reference. intros H.
  destruct (Command.decode w) as [[c n]|] eqn:Ew; [|done]. exists c.
  destruct (Command.kind c) eqn:Ek; try done; (destruct (negb _); [done|]);
    destruct (update_zero _ _ _ _ _) as [[??] ?]; simpl in H; by simplify_eq.
Qed.

Lemma at_key_Ok {A} σ R key (k : Connection -> Store * Connection * result A Connection.Error) σ' R' a :
  at_key σ R key k = (σ', R', Ok a) -> exists c σ1 c', k c = (σ1, c', Ok a).
Proof.
  unfold at_key. intros H. destruct (lookup R key) as [c|]; [|done].
  destruct (k c) as [[σ1 c'] res] eqn:E. destruct res; simplify_eq/=. eauto.
Qed.

Lemma registry_size σ R key w σ' R' o :
  registry_execute σ R key w = (σ', R', Ok o) -> exists c, Command.decode w = Ok (c, outcome_bytes o).
Proof.
  assert (Hctx : forall c manager σ1 c',
    connection_context_reference σ c w manager = (σ1, c', Ok o) ->
    exists d, Command.decode w = Ok (d, outcome_bytes o)).
  { unfold connection_context_reference, in_session. intros c manager σ1 c' H.
    destruct (csession c); [|done].
    destruct (execute_context_reference _ _ _ _) as [[??] [?|]] eqn:E; simplify_eq/=.
    by apply context_size in E. }
  unfold registry_execute, registry_context_reference. intros H.
  destruct (Command.decode w) as [[c n]|] eqn:Ew; [|done].
  destruct (_ && _).
  - destruct (lookup R key); [|done]. destruct (negb _).
    { apply at_key_Ok in H as (? & ? & ? & H). by apply Hctx in H. }
    destruct (manager (context R)) as [mg|].
    + destruct (_ =? _); [done|]. apply at_key_Ok in H as (? & ? & ? & H). by apply Hctx in H.
    + apply at_key_Ok in H as (? & ? & ? & H). by apply Hctx in H.
  - apply at_key_Ok in H as (c0 & σ1 & c1 & H). revert H. unfold connection_execute, in_session.
    destruct (csession c0); [|done].
    destruct (Session.execute _ _ _) as [[??] [?|]] eqn:E; intros; simplify_eq/=.
    apply session_size in E. by rewrite Ew in E.
Qed.

Section lemmas.
Context {T E : Type} `{!TransactionSource T E}.
Context (debug : bool) (key : Key) (sender : SenderIdentity).
Implicit Types (m : Machine T) (w : bytes).

Local Abbreviation record rsv m w := (execute_record (E := E) debug rsv key m sender w).
Local Abbreviation loop := (fun fuel rsv m w => write_loop (E := E) fuel debug rsv key m sender w).

(** A record consumes its frame. *)
Lemma record_frame rsv m w m' n :
  record rsv m w = Some (m', Ok n) -> exists c, Command.decode w = Ok (c, n).
Proof.
  unfold execute_record. intros H.
  destruct (Command.decode w) as [[c k]|] eqn:Ew; [|done]. exists c.
  destruct (is_looper_command _).
  { revert H. unfold looper_record, registry_execute_looper_command.
    destruct (lookup _ _) as [cn|]; [|done]. simpl.
    destruct (execute_looper_command _ _ _ _) as [[[??] [?|]]|] eqn:El; simpl; intros; simplify_eq/=.
    apply looper_size in El as [? El]. congruence. }
  destruct (is_transaction _).
  { revert H. unfold transaction_record.
    destruct (TransactionRequest.decode w) as [[r b]|] eqn:Er; [|done].
    apply decode_command in Er as (? & Er & _). simplify_eq.
    destruct (capture_source _ _ _) as [? [?|]]; [|done]. unfold reply_record, submit_record. destruct (is_reply r).
    - destruct (current_incoming _); [|done]. simpl. destruct (reserve_submission _ _); [|done]. simpl.
      destruct (submit_reply _ _ _ _ _ _ _ _ _ _ _ _) as [[[[??]?] [?|]]|]; [|done..]. simpl.
      destruct (finish_incoming _ _) as [? [?|]]; simpl; congruence.
    - destruct (reserve_submission _ _); [|done].
      destruct (submit_transaction _ _ _ _ _ _ _ _ _ _ _) as [[[[??]?] [?|]]|]; simpl; congruence. }
  destruct (bool_decide _).
  { apply frame_size in Ew as [-> _]. revert H. unfold free_record.
    destruct (registry_free_transaction_buffer _ _ _ _) as [[[[??] [?|]] ?]|]; simpl; congruence. }
  destruct (registry_execute _ _ _ _) as [[??] [?|]] eqn:Ex; simplify_eq/=.
  apply registry_size in Ex as [? Ex]. congruence.
Qed.

(** A record depends only on its frame. *)
Lemma record_decode rsv m w w' :
  Command.decode w = Command.decode w' -> record rsv m w = record rsv m w'.
Proof.
  intros Hw. unfold execute_record, looper_record, registry_execute_looper_command,
    execute_looper_command, execute_looper, transaction_record, TransactionRequest.decode,
    registry_execute, registry_context_reference, at_key, connection_context_reference,
    Session.execute_context_reference, connection_execute, Session.execute, in_session, dispatch,
    ack_dispatch.
  by rewrite Hw.
Qed.

Lemma record_app rsv m w x m' n : record rsv m w = Some (m', Ok n) -> record rsv m (w ++ x) = Some (m', Ok n).
Proof.
  intros H. pose proof (record_frame _ _ _ _ _ H) as [c Hc]. rewrite <- H. apply record_decode.
  by rewrite (frame_app _ _ _ _ Hc), Hc.
Qed.

Lemma executes_frames rsv i m w ns m' : executes (E := E) debug rsv key sender i m w ns m' ->
  frames w ns /\ 4 * len ns <= total ns <= len w.
Proof.
  induction 1 as [|i m w n m1 ns m2 Hw Hr _ [IHf IHt]]; [unfold len; simpl; lia|].
  apply record_frame in Hr as [c Hc]. pose proof (frame_size _ _ _ Hc) as [_ Hn]. simpl. split; [eauto|].
  unfold len in *. rewrite length_drop in IHt. simpl. lia.
Qed.

Lemma write_loop_spec rsv w fuel : forall i m consumed,
  0 <= consumed <= len w -> len w - consumed <= Z.of_nat fuel ->
  match loop fuel rsv m w i consumed with
  | Some (m', c, res) => exists ns m1,
      executes (E := E) debug rsv key sender i m (drop (Z.to_nat consumed) w) ns m1 /\
      c = consumed + total ns /\
      match res with
      | Ok _ => c = len w /\ m' = m1
      | Err e => c < len w /\ record (below (i + length ns) rsv) m1 (drop (Z.to_nat c) w) = Some (m', Err e)
      end
  | None => exists ns m1,
      executes (E := E) debug rsv key sender i m (drop (Z.to_nat consumed) w) ns m1 /\
      consumed + total ns < len w /\
      record (below (i + length ns) rsv) m1 (drop (Z.to_nat (consumed + total ns)) w) = None
  end.
Proof.
  induction fuel as [|fuel IH]; intros i m consumed Hc Hf; simpl;
    (destruct (Z.ltb_spec consumed (len w)) as [Hlt|]; simpl;
     [|exists [], m; simpl; rewrite Z.add_0_r; split_and!; [apply executes_nil|lia..|done]]); [lia|].
  destruct (record (below i rsv) m (drop (Z.to_nat consumed) w)) as [[m1 [n|e]]|] eqn:Er; simpl.
  - pose proof (record_frame _ _ _ _ _ Er) as [c Hd]. pose proof (frame_size _ _ _ Hd) as [_ Hn].
    assert (Hl : len (drop (Z.to_nat consumed) w) = len w - consumed)
      by (unfold len in *; rewrite length_drop; lia).
    assert (drop (Z.to_nat consumed) w <> []) by (intros Hnil; rewrite Hnil in Hl; unfold len in *; simpl in *; lia).
    assert (Hd' : drop (Z.to_nat n) (drop (Z.to_nat consumed) w) = drop (Z.to_nat (consumed + n)) w)
      by (rewrite drop_drop; f_equal; lia).
    specialize (IH (S i) m1 (consumed + n) ltac:(lia) ltac:(lia)). rewrite <- Hd' in IH.
    destruct (write_loop fuel debug rsv key m1 sender w (S i) (consumed + n)) as [[[m' c'] res]|] eqn:El;
      destruct IH as (ns & m2 & Hx & IH); exists (n :: ns), m2; simpl; rewrite Z.add_assoc;
      rewrite Nat.add_succ_r in *; by (split; [econstructor|]).
  - exists [], m. simpl. rewrite Z.add_0_r, Nat.add_0_r. split; [apply executes_nil|]. done.
  - exists [], m. simpl. rewrite Z.add_0_r, Nat.add_0_r. split; [apply executes_nil|]. done.
Qed.
End lemmas.

(** ** What a read publishes *)

(** [n] bytes were published at the start of [output]; the rest is unchanged. *)
Definition published (output output' : bytes) (n : Z) : Prop :=
  0 <= n <= len output /\ len output' = len output /\
  drop (Z.to_nat n) output' = drop (Z.to_nat n) output.

Lemma published_none output : published output output 0.
Proof. unfold published, len. split_and!; [lia..|done]. Qed.

Lemma published_nothing output output' : published output output' 0 -> output' = output.
Proof. by intros (_ & _ & H). Qed.

Lemma published_prefix output (record : bytes) n :
  len record = n -> n <= len output -> published output (record ++ drop (Z.to_nat n) output) n.
Proof.
  unfold published, len. intros <- H. rewrite length_app, length_drop, Nat2Z.id, drop_app_length. split_and!; [lia..|done].
Qed.

Lemma published_word output (w : Z) :
  4 <= len output -> published output (copy_at 0 (u32_le w) output) 4.
Proof.
  intros H. rewrite copy_at_def, length_u32_le. simpl take. rewrite app_nil_l.
  apply (published_prefix _ _ 4); [unfold len; by rewrite length_u32_le|done].
Qed.

Lemma spawn_published c t output c' output' n :
  read_spawn_request c t output = (c', output', n) -> published output output' n.
Proof.
  unfold read_spawn_request. destruct (Nat.ltb_spec (length output) 4) as [|Hl]; simpl.
  { intros. simplify_eq. apply published_none. }
  destruct (_ || _); [intros; simplify_eq; apply published_none|].
  destruct (reserve_spawn _) as [p []]; intros; simplify_eq.
  - apply published_word. unfold len. lia.
  - apply published_none.
Qed.

Lemma local_published debug t output t' output' n :
  read_local_work debug t output = Some (t', output', n) -> published output output' n.
Proof.
  unfold read_local_work. destruct (bool_decide _); simpl.
  { intros. simplify_eq. apply published_none. }
  destruct (Z.ltb_spec (len output) 4) as [|Hl]; [intros; simplify_eq; apply published_none|].
  destruct (list_find _ _) as [[i w]|]; [|intros; simplify_eq; apply published_none].
  destruct (deliver _ _ _) as [[t1 command]|]; simpl; [|done]. intros; simplify_eq. by apply published_word.
Qed.

Lemma death_published debug c output c' output' n :
  read_death_work debug c output = Some (c', output', n) -> published output output' n.
Proof.
  unfold read_death_work, DeathWork.read. destruct (Z.ltb_spec (len output) 12) as [|Hl]; simpl.
  { intros. simplify_eq. apply published_none. }
  destruct (DeathWork.pending _) as [|w rest]; simpl; [intros; simplify_eq; apply published_none|].
  destruct (match w with DeathWork.Dead _ => _ | _ => _ end) as [aw|]; simpl; [|done].
  destruct (DeathWork.command_of w) as [command cookie]. intros; simplify_eq/=.
  unfold len in *. rewrite (copy_at_def 0), length_u32_le. simpl take. rewrite app_nil_l.
  rewrite (copy_at_next _ _ _ 4) by (rewrite ?length_drop, ?length_u32_le, ?length_u64_le; lia).
  rewrite length_u64_le, drop_drop.
  apply (published_prefix _ _ 12); [|done]. unfold len. by rewrite length_app, length_u32_le, length_u64_le.
Qed.

Lemma encode_published p c ns output output' n :
  encode p c ns output = (output', Ok n) -> published output output' n.
Proof.
  unfold encode. destruct (checked_mul _ _ _) as [size|] eqn:Es; [|done].
  apply checked_mul_Some in Es as [-> _].
  destruct (Z.ltb_spec (len output) (len ns * 20)) as [|Hl]; [done|]. intros; simplify_eq.
  pose proof (encode_records_app p c ns [] output ltac:(unfold len in *; lia)) as He. cbn [length app] in He. rewrite He.
  assert (Hr : len (node_records p c ns) = len ns * 20).
  { clear. unfold node_records. induction ns as [|x ns IH]; [done|].
    unfold len in *. rewrite bind_cons, length_app, length_node_record. simpl. lia. }
  replace (20 * length ns)%nat with (Z.to_nat (len ns * 20)) by (unfold len; lia).
  by apply published_prefix.
Qed.

Lemma notifications_published σ own p output σ' output' n :
  read_node_notifications σ own p output = (σ', output', Ok n) -> published output output' n.
Proof.
  unfold read_node_notifications, publish_notifications.
  destruct (onodes _ !! p) as [r|]; [|done].
  destruct (negb _).
  - destruct (encode _ _ _ _) as [out1 [k|]] eqn:Ee; [|done]. intros; simplify_eq. by eapply encode_published.
  - intros; simplify_eq. apply published_none.
Qed.

Lemma node_published σ c output σ' output' n :
  connection_read_node_work σ c output = (σ', output', Ok n) -> published output output' n.
Proof.
  unfold connection_read_node_work, read_node_work, read_pending_node_work.
  destruct (csession c) as [s|]; [|done].
  generalize (length (order (owners σ !!! state (sowner s)))) as budget. intros budget.
  enough (Hl : forall σ output σ' output' n,
    read_pending_loop budget σ (sowner s) output = (σ', output', Ok n) -> published output output' n).
  { destruct (read_pending_loop _ _ _ _) as [[??] [?|]] eqn:El; intros; simplify_eq/=; eauto. }
  clear. induction budget as [|budget IH]; intros σ output σ' output' n; simpl.
  { intros. simplify_eq. apply published_none. }
  destruct (order _) as [|p rest]; [intros; simplify_eq; apply published_none|].
  destruct (read_node_notifications _ _ _ _) as [[σ1 out1] [written|]] eqn:En; [|done].
  apply notifications_published in En.
  destruct (Z.eqb_spec written 0) as [->|]; [|intros; by simplify_eq].
  apply published_nothing in En as ->. apply IH.
Qed.

Lemma transaction_published reserved c id accept_async output c' output' d closed :
  read_transaction_for_thread reserved c id accept_async output = Some (c', output', Ok d, closed) ->
  published output output' (default 0 (TransactionQueue.dbytes <$> d)).
Proof.
  unfold read_transaction_for_thread, TransactionQueue.read_for_thread.
  destruct (ctransactions c) as [q|]; [|intros; simplify_eq/=; apply published_none].
  destruct (TransactionQueue.position _ _) as [[i p]|]; [|intros; simplify_eq/=; apply published_none].
  destruct (TransactionQueue.deferred_completion _).
  { destruct (Nat.ltb_spec (length output) 4); intros; simplify_eq/=; [apply published_none|].
    apply published_word. unfold len. lia. }
  destruct (Nat.ltb_spec (length output) RECORD_SIZE) as [|Hl]; [intros; simplify_eq/=; apply published_none|].
  destruct (negb reserved); [done|].
  destruct (buffer_address _) as [a|]; [|done]. simpl. destruct (offsets_address _) as [o|]; [|done]. simpl.
  rewrite encode_transaction_packed. destruct (Nat.ltb_spec (length output) RECORD_SIZE); [lia|]. simpl.
  destruct (TransactionQueue.delivered _ !! a) as [old|].
  { destruct (drop_owned _ _) as [[??]|]; done. }
  intros; simplify_eq/=. unfold RECORD_SIZE in *. apply (published_prefix _ _ 68); [|unfold len; lia].
  unfold record, len. by autorewrite with wire.
Qed.

Lemma delivery_published rsv R key t output R' t' output' n closed :
  deliver_transaction rsv R key t output = Some (R', t', output', Ok n, closed) -> published output output' n.
Proof.
  unfold deliver_transaction. destruct (lookup R key) as [c|]; [|done].
  destruct (prepare_delivery _ _ _); [|done].
  destruct (read_transaction_for_thread _ _ _ _ _) as [[[[c1 out1] [d|]] fds]|] eqn:Er; [|done..]. simpl.
  apply transaction_published in Er. unfold finish_delivery.
  destruct d as [d|]; [|intros; by simplify_eq/=].
  destruct (TransactionQueue.dcall d) as [call|]; [|intros; by simplify_eq/=].
  destruct (TransactionQueue.dreply d); [|intros; by simplify_eq/=].
  destruct (TransactionQueue.completion d); [intros; by simplify_eq/=|].
  destruct (finish_outgoing t call) as [? [?|]]; intros; by simplify_eq/=.
Qed.

(** A successful read publishes a prefix of the read buffer.  The reported number of
    bytes fits the buffer, the bytes after it are unchanged, and a read that reports nothing
    left the whole buffer unchanged, whichever sources of work were asked. *)
Lemma read_publishes_prefix {T E : Type} `{!TransactionSource T E} debug rsv key (m : Machine T) read m' read' n
    (H : read_phase (E := E) debug rsv key m read = Some (m', read', Ok n)) : published read read' n.
Proof.
  revert H. unfold read_phase, registry_read_spawn_request, registry_read_node_work, registry_read_death_work.
  destruct (ensure_read_eligible _) as [[]|]; [|done].
  destruct (lookup (mregistry m) key) as [c|] eqn:Ec; [|done].
  destruct (read_spawn_request _ _ _) as [[c1 r1] n1] eqn:E1. apply spawn_published in E1.
  destruct (Z.eqb_spec n1 0) as [->|]; simpl; [|intros; by simplify_eq].
  apply published_nothing in E1 as ->.
  destruct (lookup (set_entry _ _ _) key) as [c2|]; [|done].
  destruct (connection_read_node_work _ _ _) as [[σ2 r2] [n2|]] eqn:E2; [|done]. apply node_published in E2. simpl.
  destruct (Z.eqb_spec n2 0) as [->|]; simpl; [|intros; by simplify_eq]. apply published_nothing in E2 as ->.
  destruct (read_local_work _ _ _) as [[[t3 r3] n3]|] eqn:E3; [|done]. apply local_published in E3. simpl.
  destruct (Z.eqb_spec n3 0) as [->|]; simpl; [|intros; by simplify_eq]. apply published_nothing in E3 as ->.
  destruct (read_death_work _ _ _) as [[[c5 r5] n5]|] eqn:E5; [|done]. apply death_published in E5. simpl.
  destruct (Z.eqb_spec n5 0) as [->|]; simpl; [|intros; by simplify_eq]. apply published_nothing in E5 as ->.
  destruct (deliver_transaction _ _ _ _ _) as [[[[[R6 t6] r6] [n6|]] fds]|] eqn:E6; simpl; intros; simplify_eq.
  by apply delivery_published in E6.
Qed.

Lemma write_read_published {T E : Type} `{!TransactionSource T E} debug rsv key (m : Machine T) write read sender
    m' read' consumed cause :
  write_read (E := E) debug rsv key m write read sender = Some (m', read', consumed, cause) ->
  0 <= cwrite consumed <= len write /\
  (cread consumed = 0 \/ published read read' (cread consumed)) /\ (cause <> None -> cread consumed = 0).
Proof.
  unfold write_read.
  pose proof (write_loop_spec (E := E) debug key sender (below 0 rsv) write (length write) 0 m 0
    ltac:(unfold len; lia) ltac:(unfold len; lia)) as Hl. cbv beta in Hl.
  destruct (write_loop _ _ _ _ _ _ _ _ _) as [[[m1 c] res]|]; simpl; [|done].
  destruct Hl as (ns & m2 & Hx & -> & Hc). rewrite drop_0 in Hx. pose proof (executes_frames _ _ _ _ _ _ _ _ _ Hx) as [_ Ht].
  assert (0 <= total ns <= len write) by (unfold len in *; lia).
  destruct res; [|intros; simplify_eq/=; by auto].
  destruct (bool_decide _); [intros; simplify_eq/=; by auto|].
  destruct (read_phase _ _ _ _ _) as [[[m3 r3] [n|e]]|] eqn:Er; simpl; intros; simplify_eq/=; [|by auto].
  apply read_publishes_prefix in Er. split_and!; [lia..|by right|done].
Qed.

Section streams.
Context {T E : Type} `{!TransactionSource T E}.
Context (debug : bool) (key : Key) (sender : SenderIdentity).
Implicit Types (m : Machine T) (w : bytes).

Local Abbreviation loop := (fun fuel rsv m w => write_loop (E := E) fuel debug rsv key m sender w).

Lemma executes_app rsv i m w x ns m' :
  executes (E := E) debug rsv key sender i m w ns m' ->
  executes (E := E) debug rsv key sender i m (w ++ x) ns m'.
Proof.
  induction 1 as [|i m w n m1 ns m2 Hw Hr _ IH]; [constructor|].
  pose proof (record_frame _ _ _ _ _ _ _ _ Hr) as [c Hc]. pose proof (frame_size _ _ _ Hc) as [_ Hn].
  econstructor; [by destruct w|by apply record_app|].
  rewrite drop_app_le by (unfold len in *; lia). done.
Qed.

Lemma loop_executes rsv w i m v ns m' fuel c :
  executes (E := E) debug rsv key sender i m v ns m' -> v = drop (Z.to_nat c) w -> 0 <= c ->
  loop (length ns + fuel)%nat rsv m w i c = loop fuel rsv m' w (i + length ns)%nat (c + total ns).
Proof.
  intros H. revert c. induction H as [i m v|i m v n m1 ns m2 Hv Hr Hx IH]; intros c -> Hc; simpl.
  { by rewrite Nat.add_0_r, Z.add_0_r. }
  destruct (Z.ltb_spec c (len w)) as [Hlt|Hge]; simpl.
  2:{ destruct Hv. apply drop_ge. unfold len in *. lia. }
  pose proof (record_frame _ _ _ _ _ _ _ _ Hr) as [d Hd]. pose proof (frame_size _ _ _ Hd) as [_ Hn].
  rewrite Hr. simpl. rewrite (IH (c + n)); [|by rewrite drop_drop, Z2Nat.inj_add by lia|lia].
  by rewrite Z.add_assoc, Nat.add_succ_r.
Qed.

Lemma loop_fuel rsv w fuel : forall fuel' i m c,
  0 <= c -> len w - c <= Z.of_nat fuel -> len w - c <= Z.of_nat fuel' ->
  loop fuel rsv m w i c = loop fuel' rsv m w i c.
Proof.
  induction fuel as [|fuel IH]; intros [|fuel'] i m c Hc H H'; simpl; [done|..];
    (destruct (Z.ltb_spec c (len w)) as [Hlt|Hge]; simpl; [|done]); [lia|lia|].
  destruct (execute_record _ _ _ _ _ _) as [[m1 [n|e]]|] eqn:Er; simpl; [|done..].
  pose proof (record_frame _ _ _ _ _ _ _ _ Er) as [d Hd]. pose proof (frame_size _ _ _ Hd) as [_ Hn].
  apply IH; lia.
Qed.

Lemma loop_shift rsv k w1 w2 fuel : forall i m c, 0 <= c ->
  loop fuel (below 0 rsv) m (w1 ++ w2) (i + k)%nat (len w1 + c) =
    (fun '(m', c', res) => (m', len w1 + c', res)) <$> loop fuel (below 0 (later k rsv)) m w2 i c.
Proof.
  assert (Hlt : forall c, (len w1 + c <? len (w1 ++ w2)) = (c <? len w2)).
  { intros c. unfold len. rewrite length_app.
    destruct (Z.ltb_spec c (Z.of_nat (length w2))); [apply Z.ltb_lt|apply Z.ltb_ge]; lia. }
  induction fuel as [|fuel IH]; intros i m c Hc; simpl; rewrite Hlt;
    (destruct (c <? len w2) eqn:Ec; simpl; [|done]); [done|].
  replace (drop (Z.to_nat (len w1 + c)) (w1 ++ w2)) with (drop (Z.to_nat c) w2).
  2:{ rewrite drop_app_ge by (unfold len; lia). f_equal. unfold len. lia. }
  change (below (i + k) (below 0 rsv)) with (below i (below 0 (later k rsv))).
  destruct (execute_record _ _ _ _ _ _) as [[m1 [n|e]]|] eqn:Er; simpl; [|done..].
  pose proof (record_frame _ _ _ _ _ _ _ _ Er) as [d Hd]. pose proof (frame_size _ _ _ Hd) as [_ Hn].
  rewrite <- Z.add_assoc. apply (IH (S i)). lia.
Qed.
End streams.

(** ** Properties *)

(** C24: the consumption contract.  [cwrite] counts exactly the records that completed, one
    after the other from the start of the buffer, and each of them is one frame.  A failing
    record is not counted and ends the request before the read, with the state that record
    left; else the whole buffer is consumed and the read, if there is a read buffer, ran once
    after the last record.  The loop itself never fails. *)
Theorem write_read_contract {T E : Type} `{!TransactionSource T E} debug rsv key (m : Machine T) write read sender :
  match write_read (E := E) debug rsv key m write read sender with
  | Some (m', read', consumed, cause) => exists ns m1,
      executes (E := E) debug (below 0 rsv) key sender 0 m write ns m1 /\ frames write ns /\
      cwrite consumed = total ns /\
      ((cwrite consumed < len write /\
        exists e, cause = Some e /\ cread consumed = 0 /\ read' = read /\
          execute_record debug (below (length ns) (below 0 rsv)) key m1 sender
            (drop (Z.to_nat (total ns)) write) = Some (m', Err e)) \/
       (cwrite consumed = len write /\ read = [] /\ read' = [] /\ m' = m1 /\ cread consumed = 0 /\ cause = None) \/
       (cwrite consumed = len write /\ read <> [] /\
        exists res, read_phase (E := E) debug (below 1 rsv) key m1 read = Some (m', read', res) /\
          match res with
          | Ok n => cread consumed = n /\ cause = None
          | Err e => cread consumed = 0 /\ cause = Some e
          end))
  | None => exists ns m1,
      executes (E := E) debug (below 0 rsv) key sender 0 m write ns m1 /\
      ((total ns < len write /\
        execute_record (E := E) debug (below (length ns) (below 0 rsv)) key m1 sender
          (drop (Z.to_nat (total ns)) write) = None) \/
       (total ns = len write /\ read_phase (E := E) debug (below 1 rsv) key m1 read = None))
  end.
Proof.
  unfold write_read.
  pose proof (write_loop_spec (E := E) debug key sender (below 0 rsv) write (length write) 0 m 0
    ltac:(unfold len; lia) ltac:(unfold len; lia)) as Hl.
  cbv beta in Hl. destruct (write_loop _ _ _ _ _ _ _ _ _) as [[[m1 c] [u|e]]|]; simpl.
  - destruct Hl as (ns & m2 & Hx & -> & Hc & ->). rewrite drop_0 in Hx.
    pose proof (executes_frames _ _ _ _ _ _ _ _ _ Hx) as [Hf _].
    destruct (bool_decide_reflect (read = [])) as [->|Hr]; simpl.
    { exists ns, m2. split_and!; try done. right; left. by split_and!. }
    destruct (read_phase _ _ _ _ _) as [[[m3 read'] [n|e]]|] eqn:Er; simpl.
    + exists ns, m2. split_and!; try done. right; right. split_and!; [done..|]. by exists (Ok n).
    + exists ns, m2. split_and!; try done. right; right. split_and!; [done..|]. by exists (Err e).
    + exists ns, m2. split; [done|]. by right.
  - destruct Hl as (ns & m2 & Hx & -> & Hc & Hr). rewrite drop_0 in Hx.
    pose proof (executes_frames _ _ _ _ _ _ _ _ _ Hx) as [Hf _].
    exists ns, m2. split_and!; try done. left. split; [done|]. eauto.
  - destruct Hl as (ns & m2 & Hx & Hc & Hr). rewrite drop_0 in Hx. exists ns, m2. split; [done|]. by left.
Qed.

(** Requests can be resumed at the reported boundary.  Once the records of [w1] completed,
    a request that carries [w1] and [w2] has the effects, the read and the failure of a request
    that carries [w2] alone from the state [w1] left; only the count starts after [w1]. *)
Theorem write_read_streams {T E : Type} `{!TransactionSource T E} debug rsv key sender
    (m : Machine T) w1 w2 read ns m1
    (Hx : executes (E := E) debug (below 0 rsv) key sender 0 m w1 ns m1) (Ht : total ns = len w1) :
  write_read (E := E) debug rsv key m (w1 ++ w2) read sender =
    (fun '(m', read', consumed, cause) =>
       (m', read', {| cwrite := len w1 + cwrite consumed; cread := cread consumed |}, cause)) <$>
      write_read (E := E) debug (later (length ns) rsv) key m1 w2 read sender.
Proof.
  unfold write_read.
  pose proof (executes_frames _ _ _ _ _ _ _ _ _ Hx) as [_ Hns].
  assert (Hle : len ns <= len w1) by (unfold len in *; lia).
  apply (executes_app _ _ _ _ _ _ _ w2) in Hx.
  pose proof (loop_executes _ _ _ _ (w1 ++ w2) _ _ _ _ _ (length w1 + length w2 - length ns)%nat 0 Hx
    ltac:(by rewrite drop_0) ltac:(lia)) as Hl. simpl in Hl. rewrite Ht in Hl.
  rewrite length_app.
  replace (length ns + (length w1 + length w2 - length ns))%nat with (length w1 + length w2)%nat in Hl
    by (unfold len in *; lia).
  rewrite Hl. replace (len w1) with (len w1 + 0) at 1 by lia.
  rewrite (loop_shift debug key sender rsv (length ns) w1 w2 _ 0 m1 0) by lia.
  rewrite (loop_fuel debug key sender _ w2 _ (length w2)) by (unfold len in *; lia).
  cbv beta. change (below 1 (later (length ns) rsv)) with (below 1 rsv).
  clear. destruct (write_loop (length w2) _ _ _ _ _ _ _ _) as [[[m2 c] [u|e]]|]; simpl; [|done..].
  destruct (bool_decide _); simpl; [done|].
  destruct (read_phase _ _ _ _ _) as [[[m3 read'] [n|e]]|]; done.
Qed.

(** A thread of connection 1 enters and leaves the looper in one request. *)
#[export] Instance no_transactions : TransactionSource unit unit := fun _ s _ => (s, Err tt).

Definition sample_machine : Machine unit :=
  let '(σ, s) := new_session empty_store in
  let '(σ, c) := new_connection σ s in
  let '(σ, R) :=
    match register true σ (default_registry 1) c with
    | Some (σ, R, _, _) => (σ, R)
    | None => (σ, default_registry 1)
    end in
  Build_Machine σ R
    {| looper := LNone; id := 7; outgoing := []; incoming := []; local_work := [];
       next_remote_submission := 0; work_signal := None |} tt [].
Definition sample_key : Key := {| kregistry := 1; kid := 1 |}.
Definition sample_sender : SenderIdentity := {| spid := 10; seuid := 1000 |}.
Definition enter_record : bytes := u32_le (Command.word EnterLooper).
Definition exit_record : bytes := u32_le (Command.word ExitLooper).
Definition entered_machine : Machine unit :=
  match execute_record (E := unit) true reserve_ok sample_key sample_machine sample_sender enter_record with
  | Some (m, _) => m
  | None => sample_machine
  end.

Lemma write_read_streams_witness :
  exists m read, write_read (E := unit) true reserve_ok sample_key sample_machine (enter_record ++ exit_record) [] sample_sender =
      Some (m, read, {| cwrite := 8; cread := 0 |}, None) /\
    write_read (E := unit) true (later 1 reserve_ok) sample_key entered_machine exit_record [] sample_sender =
      Some (m, read, {| cwrite := 4; cread := 0 |}, None).
Proof.
  destruct (write_read (E := unit) true (later 1 reserve_ok) sample_key entered_machine exit_record [] sample_sender)
    as [[[[m read] consumed] cause]|] eqn:E; [|by vm_compute in E].
  exists m, read. rewrite (write_read_streams (E := unit) true reserve_ok sample_key sample_sender sample_machine
    enter_record exit_record [] [4] entered_machine).
  - simpl. rewrite E. simpl. vm_compute in E. by simplify_eq.
  - eapply executes_cons; [by vm_compute| |apply executes_nil]. by vm_compute.
  - done.
Defined.
