(* ===== verification/Ioctl.v ===== *)
(** * The [binder_write_read] header ([ioctl.rs])

    The buffers of a request live in the client's memory, which is only reached through the
    copies of [ClientMemory].  The header announces two ranges; the device writes back only the
    two consumption fields. *)
From S2P Require Import Prelude RoutingAuthority TransactionQueue DeathWork TransactionWire.
From S2P Require Import Command AuthorityProtocol Objects TransactionSnapshot TransactionRequest.
From S2P Require Import NodeWork WorkSignal NodeOwner ReferenceTable Session Thread.
From S2P Require Import ReceiveArena TransferImage PreparedTransaction World Connection Registry WriteRead.

Definition WRITE_READ_SIZE : nat := 48.

Record Range : Type := { address : Z; size : Z }.
Record Request : Type := { write : Range; read : Range }.

Inductive HeaderError : Type := Size | RangeOverflow | ConsumedOutOfRange.

Inductive CaptureError (E : Type) : Type :=
| SizeOverflow | XOutOfMemory | XClientMemory (e : E) | XRequest (e : TransactionRequest.Error).
#[global] Arguments SizeOverflow {E}.
#[global] Arguments XOutOfMemory {E}.
#[global] Arguments XClientMemory {E} e.
#[global] Arguments XRequest {E} e.

Inductive Error (E : Type) : Type :=
| Header (e : HeaderError) | IOutOfMemory | IClientMemory (e : E)
| IDevice (consumed : Consumed) (cause : Cause (CaptureError E)).
#[global] Arguments Header {E} e.
#[global] Arguments IOutOfMemory {E}.
#[global] Arguments IClientMemory {E} e.
#[global] Arguments IDevice {E} consumed cause.

(** The trait [ClientMemory]; a copy fills the destination slice. *)
Class ClientMemory (M E : Type) : Type := {
  copy_from : M -> Z -> nat -> M * result bytes E;
  check_write : M -> Z -> Z -> M * result unit E;
  copy_to : M -> Z -> bytes -> M * result unit E;
  copy_from_length m a n m' bs : copy_from m a n = (m', Ok bs) -> length bs = n }.

Section ioctl.
Context {M E : Type} `{!ClientMemory M E}.

(** A copy that is skipped for an empty destination. *)
Definition fetch (m : M) (a : Z) (n : Z) : M * result bytes E :=
  if n =? 0 then (m, Ok []) else copy_from m a (Z.to_nat n).

(** [capture_transaction].  Reservations at [[0]] and [[1]], and of the snapshot below [2]. *)
Definition capture_transaction (rsv : Reserve) (m : M) (request : TransactionRequest.Request)
    : M * result TransactionSnapshot (CaptureError E) :=
  if negb (rsv [0%nat] && rsv [1%nat]) then (m, Err XOutOfMemory)
  else
    match fetch m (TransactionRequest.address (rdata request)) (rsize (rdata request)) with
    | (m, Err e) => (m, Err (XClientMemory e))
    | (m, Ok data) =>
        match fetch m (TransactionRequest.address (roffsets request)) (rsize (roffsets request)) with
        | (m, Err e) => (m, Err (XClientMemory e))
        | (m, Ok offsets) => (m, map_err XRequest (capture_copied (below 2 rsv) request data offsets))
        end
    end.

#[export] Instance client_memory_source : TransactionSource M (CaptureError E) := capture_transaction.

Definition range (address wire_size : Z) : result Range HeaderError :=
  if negb (wire_size =? 0) && negb (bool_decide (is_Some (checked_add u64_max address wire_size)))
  then Err RangeOverflow
  else Ok {| address := address; size := wire_size |}.

Definition decode (header : bytes) : result Request HeaderError :=
  let? _ := ensure (length header =? WRITE_READ_SIZE)%nat Size in
  let? write := range (u64_at header 16) (u64_at header 0) in
  let? read := range (u64_at header 40) (u64_at header 24) in
  Ok {| write := write; read := read |}.

Definition encode_consumed (request : Request) (header : bytes) (consumed : Consumed)
    : bytes * result unit HeaderError :=
  if negb (length header =? WRITE_READ_SIZE)%nat then (header, Err Size)
  else if (size (write request) <? cwrite consumed) || (size (read request) <? cread consumed)
  then (header, Err ConsumedOutOfRange)
  else
    let header := copy_at 8 (u64_le (cwrite consumed)) header in
    let header := copy_at 32 (u64_le (cread consumed)) header in
    (header, Ok tt).

(** The two copies before the device runs: the write buffer, and that the read buffer is writable. *)
Definition prepare_buffers (m : M) (request : Request) : M * result bytes E :=
  match fetch m (address (write request)) (size (write request)) with
  | (m, Err e) => (m, Err e)
  | (m, Ok written) =>
      if size (read request) =? 0 then (m, Ok written)
      else
        let '(m, res) := check_write m (address (read request)) (size (read request)) in
        (m, result_map (fun _ => written) res)
  end.

(** The copy-out and the header after the device ran. *)
Definition finish (m : M) (request : Request) (header read' : bytes) (consumed : Consumed)
    : M * bytes * result unit (Error E) :=
  let '(m, res) :=
    if cread consumed =? 0 then (m, Ok tt)
    else copy_to m (address (read request)) (take (Z.to_nat (cread consumed)) read') in
  match res with
  | Err e => (m, header, Err (IClientMemory e))
  | Ok _ => let '(header, res) := encode_consumed request header consumed in (m, header, map_err Header res)
  end.

(** [execute]: the machine, whose source is the memory, and the header.  Reservations at [[0]]
    and [[1]], and of the device below [2]. *)
Definition execute (debug : bool) (rsv : Reserve) (key : Key) (m : Machine M) (header : bytes)
    (sender : SenderIdentity) : option (Machine M * bytes * result unit (Error E)) :=
  let fail header m e := Some (m, header, Err e) in
  match decode header with
  | Err e => fail header m (Header e)
  | Ok request =>
      match encode_consumed request header {| cwrite := 0; cread := 0 |} with
      | (header, Err e) => fail header m (Header e)
      | (header, Ok _) =>
          if negb (rsv [0%nat] && rsv [1%nat]) then fail header m IOutOfMemory
          else
            match prepare_buffers (msource m) request with
            | (mem, Err e) => fail header (with_source m mem) (IClientMemory e)
            | (mem, Ok written) =>
                '(m, read', consumed, cause) ←
                  write_read (E := CaptureError E) debug (below 2 rsv) key (with_source m mem) written
                    (zeroed (Z.to_nat (size (read request)))) sender;
                let '(mem, header, res) := finish (msource m) request header read' consumed in
                Some (with_source m mem, header,
                      let? _ := res in
                      match cause with None => Ok tt | Some cause => Err (IDevice consumed cause) end)
            end
      end
  end.
End ioctl.

(** ** Specification *)

(** [header'] is [header] with the consumption fields [w] and [r]. *)
Definition consumed_fields (header header' : bytes) (w r : Z) : Prop :=
  length header' = length header /\
  slice header' 8 16 = u64_le w /\ slice header' 32 40 = u64_le r /\
  slice header' 0 8 = slice header 0 8 /\ slice header' 16 32 = slice header 16 32 /\
  slice header' 40 48 = slice header 40 48.

(** ** Lemmas *)

Section lemmas.
Context {M E : Type} `{!ClientMemory M E}.

Lemma fetch_length m a n m' bs : 0 <= n -> fetch (E := E) m a n = (m', Ok bs) -> len bs = n.
Proof.
  intros Hn. unfold fetch, len. destruct (Z.eqb_spec n 0) as [->|]; [intros; by simplify_eq|].
  intros ->%copy_from_length. lia.
Qed.

Lemma encode_consumed_fields request header w r :
  length header = WRITE_READ_SIZE -> w <= size (write request) -> r <= size (read request) ->
  exists header', encode_consumed request header {| cwrite := w; cread := r |} = (header', Ok tt) /\
    consumed_fields header header' w r.
Proof.
  intros Hl Hw Hr. unfold encode_consumed. rewrite Hl. simpl.
  destruct (Z.ltb_spec (size (write request)) w); [lia|]. destruct (Z.ltb_spec (size (read request)) r); [lia|].
  simpl. eexists. split; [done|]. unfold consumed_fields, WRITE_READ_SIZE in *.
  set (h := copy_at 8 (u64_le w) header).
  assert (Hh : length h = 48%nat) by (unfold h; rewrite length_copy_at; rewrite ?length_u64_le; lia).
  assert (Hout : forall a b, (b <= 8 \/ 16 <= a)%nat -> (b <= 32 \/ 40 <= a)%nat ->
    slice (copy_at 32 (u64_le r) h) a b = slice header a b).
  { intros a b H1 H2. rewrite slice_copy_outside by (rewrite length_u64_le; lia).
    apply slice_copy_outside; rewrite length_u64_le; lia. }
  pose proof (slice_copy_at 8 (u64_le w) header) as H8. pose proof (slice_copy_at 32 (u64_le r) h) as H32.
  rewrite length_u64_le in H8, H32. split_and!.
  - rewrite length_copy_at; rewrite ?length_u64_le; lia.
  - rewrite slice_copy_outside by (rewrite length_u64_le; lia). apply H8. lia.
  - apply H32. lia.
  - apply Hout; lia.
  - apply Hout; lia.
  - apply Hout; lia.
Qed.

Lemma consumed_fields_trans h1 h2 h3 w r w' r' :
  consumed_fields h1 h2 w r -> consumed_fields h2 h3 w' r' -> consumed_fields h1 h3 w' r'.
Proof.
  intros (? & ? & ? & E1 & E2 & E3) (? & ? & ? & E4 & E5 & E6).
  split_and!; try congruence.
Qed.

Lemma decode_Ok header request :
  decode header = Ok request ->
  length header = WRITE_READ_SIZE /\ 0 <= size (write request) /\ 0 <= size (read request).
Proof.
  unfold decode, ensure, range. destruct (Nat.eqb_spec (length header) WRITE_READ_SIZE) as [Hl|]; [|done].
  simpl. destruct (_ && _); [done|]. simpl. destruct (_ && _); [done|]. simpl. intros; simplify_eq/=.
  unfold WRITE_READ_SIZE in *.
  pose proof (u64_at_range header 0 ltac:(lia)). pose proof (u64_at_range header 24 ltac:(lia)).
  unfold u64_range in *. lia.
Qed.

Lemma prepare_length m request m' bs :
  0 <= size (write request) -> prepare_buffers (E := E) m request = (m', Ok bs) -> len bs = size (write request).
Proof.
  intros Hw. unfold prepare_buffers. destruct (fetch _ _ _) as [m1 [written|]] eqn:Ef; [|done].
  apply fetch_length in Ef; [|done]. destruct (_ =? 0); [intros; by simplify_eq|].
  destruct (check_write _ _ _) as [? [?|]]; intros; by simplify_eq/=.
Qed.
Lemma encode_consumed_length request header consumed header' res :
  encode_consumed request header consumed = (header', res) -> length header' = length header.
Proof.
  unfold encode_consumed. destruct (Nat.eqb_spec (length header) WRITE_READ_SIZE) as [Hl|]; simpl; [|by intros [= <- _]].
  unfold WRITE_READ_SIZE in Hl. destruct (_ || _); [by intros [= <- _]|]. intros [= <- _].
  rewrite length_copy_at; rewrite length_copy_at; rewrite ?length_u64_le; lia.
Qed.

(** The header keeps its size. *)
Lemma execute_length debug rsv key (m : Machine M) header sender m' header' res :
  execute (E := E) debug rsv key m header sender = Some (m', header', res) -> length header' = length header.
Proof.
  unfold execute. destruct (decode header) as [request|]; [|by intros [= _ <- _]].
  destruct (encode_consumed _ _ _) as [h1 [[]|]] eqn:E1; apply encode_consumed_length in E1; [|by intros [= _ <- _]].
  destruct (negb _); [by intros [= _ <- _]|]. destruct (prepare_buffers _ _) as [mem [w|]]; [|by intros [= _ <- _]].
  destruct (write_read _ _ _ _ _ _ _) as [[[[m1 r1] c1] cause]|]; [|done]. simpl. unfold finish.
  destruct (if cread c1 =? 0 then _ else _) as [mem1 [[]|]]; [|by intros [= _ <- _]].
  destruct (encode_consumed request h1 c1) as [h2 r2] eqn:E2. apply encode_consumed_length in E2.
  intros [= _ <- _]. congruence.
Qed.
End lemmas.

(** ** Properties *)

(** The header contract of [BINDER_WRITE_READ].  A malformed header is refused with
    nothing done and nothing written.  Otherwise only the two consumption fields change.  When
    a buffer cannot be allocated, copied in, or written, they are zero and nothing ran.  Once
    the device ran they hold exactly what it consumed, also when a record or the read failed,
    and the published bytes were copied out first; the encoding never fails.  When that
    copy-out faults, both fields stay zero although the records were executed. *)
Theorem ioctl_header_contract {M E : Type} `{!ClientMemory M E} debug rsv key (m : Machine M) header sender :
  match execute (E := E) debug rsv key m header sender with
  | None => exists written m1 read', write_read (E := CaptureError E) debug (below 2 rsv) key m1 written read' sender = None
  | Some (m', header', res) =>
      match decode header with
      | Err e => m' = m /\ header' = header /\ res = Err (Header e)
      | Ok request =>
          (mstore m' = mstore m /\ mregistry m' = mregistry m /\ mthread m' = mthread m /\ mclosed m' = mclosed m /\
           consumed_fields header header' 0 0 /\ (res = Err IOutOfMemory \/ exists e, res = Err (IClientMemory e))) \/
          exists mem written m1 read' consumed cause mem',
            len written = size (write request) /\
            write_read (E := CaptureError E) debug (below 2 rsv) key (with_source m mem) written
              (zeroed (Z.to_nat (size (read request)))) sender = Some (m1, read', consumed, cause) /\
            m' = with_source m1 mem' /\
            ((consumed_fields header header' (cwrite consumed) (cread consumed) /\
              res = match cause with None => Ok tt | Some e => Err (IDevice consumed e) end /\
              (cread consumed = 0 /\ mem' = msource m1 \/
               copy_to (msource m1) (address (read request)) (take (Z.to_nat (cread consumed)) read') = (mem', Ok tt)))
             \/ (consumed_fields header header' 0 0 /\
                 exists e, res = Err (IClientMemory e) /\
                   copy_to (msource m1) (address (read request)) (take (Z.to_nat (cread consumed)) read') = (mem', Err e)))
      end
  end.
Proof.
  unfold execute. destruct (decode header) as [request|e] eqn:Ed; [|done].
  pose proof (decode_Ok _ _ Ed) as (Hl & Hw & Hr).
  destruct (encode_consumed_fields request header 0 0 Hl Hw Hr) as (h1 & -> & H1).
  assert (Hl1 : length h1 = WRITE_READ_SIZE) by (destruct H1 as [-> _]; done).
  destruct (negb _); [left; by split_and!; auto|].
  destruct (prepare_buffers _ _) as [mem [written|e]] eqn:Ep; [|left; simpl; split_and!; eauto].
  apply prepare_length in Ep; [|done].
  destruct (write_read _ _ _ _ _ _ _) as [[[[m1 read'] consumed] cause]|] eqn:Ew; [|by eexists written, (with_source m mem), _].
  pose proof (write_read_published _ _ _ _ _ _ _ _ _ _ _ Ew) as (Hcw & Hcr & _).
  assert (Hcr' : cread consumed <= size (read request)).
  { destruct Hcr as [-> | [Hp _]]; [done|]. unfold len, zeroed in Hp. rewrite length_replicate in Hp. lia. }
  destruct consumed as [w r]. simpl in *.
  destruct (encode_consumed_fields request h1 w r Hl1 ltac:(lia) Hcr') as (h2 & E2 & H2).
  pose proof (consumed_fields_trans _ _ _ _ _ _ _ H1 H2) as H12.
  unfold finish. simpl. destruct (Z.eqb_spec r 0) as [->|Hr0].
  - rewrite E2. simpl. right. eexists mem, written, m1, read', _, cause, _. split_and!; [done|done|done|].
    left. split_and!; [done|done|by left].
  - destruct (copy_to _ _ _) as [mem' [[]|e]] eqn:Ec; [rewrite E2|]; simpl; right;
      eexists mem, written, m1, read', _, cause, mem'; (split_and!; [done|done|done|]).
    + left. split_and!; [done|done|by right].
    + right. eauto.
Qed.
