(* ===== verification/Device.v ===== *)
(** * The device ([device.rs], [device/*.rs])

    What a process holds after opening the device: its key of the registry and its identity.
    Every operation first checks that the connection was not closed, and one that needs a
    [Thread] finds or creates it in the connection and locks it for the whole operation. *)
From S2P Require Import Prelude RoutingAuthority TransactionQueue DeathWork TransactionWire ScatterGather.
From S2P Require Import Command AuthorityProtocol Objects TransactionLayout TransactionSnapshot TransactionRequest.
From S2P Require Import NodeWork WorkSignal NodeOwner ReferenceTable Session Thread.
From S2P Require Import ReceiveArena TransferImage PreparedTransaction World Connection Registry WriteRead Ioctl.

Definition PROTOCOL_VERSION : Z := 8.
Definition BINDER_WRITE_READ : Z := 0xc0306201.
Definition BINDER_SET_MAX_THREADS : Z := 0x40046205.
Definition BINDER_VERSION : Z := 0xc0046209.
Definition BINDER_SET_CONTEXT_MGR : Z := 0x40046207.
Definition BINDER_SET_CONTEXT_MGR_EXT : Z := 0x4018620d.

Record ProcessIdentity : Type := { pid : Z; euid : Z }.

(** [ProcessIdentity::new]. *)
Definition process_identity (pid euid : Z) : option ProcessIdentity :=
  if 0 <? pid then Some {| pid := pid; euid := euid |} else None.

(** [ContextManagerPolicy], and [AndroidSystemPolicy] as one. *)
Definition Policy : Type := ProcessIdentity -> result unit Z.
Definition android_system_policy : Policy := fun identity => authorize (euid identity).

Record OpenConnection : Type :=
  { okey : option Key; oidentity : ProcessIdentity; opolicy : Policy }.

Inductive Error (E : Type) : Type :=
| DClosed | DRegistry (e : Registry.Error) | DContextManager (e : ContextManager.Error)
| DThread (e : Thread.Error) | InvalidArgument | UnsupportedRequest (request : Z) | DIoctl (e : Ioctl.Error E).
#[global] Arguments DClosed {E}.
#[global] Arguments DRegistry {E} e.
#[global] Arguments DContextManager {E} e.
#[global] Arguments DThread {E} e.
#[global] Arguments InvalidArgument {E}.
#[global] Arguments UnsupportedRequest {E} request.
#[global] Arguments DIoctl {E} e.

(** [self.key.as_ref().ok_or(Error::Closed)?]. *)
Definition with_key {A E} (σ : Store) (R : Registry) (o : OpenConnection)
    (k : Key -> option (Store * Registry * result A (Error E) * list Z))
    : option (Store * Registry * result A (Error E) * list Z) :=
  match okey o with None => Some (σ, R, Err DClosed, []) | Some key => k key end.

(** An operation of the registry that neither panics nor closes descriptors. *)
Definition plain {A E} (r : Store * Registry * result A Registry.Error)
    : option (Store * Registry * result A (Error E) * list Z) :=
  let '(σ, R, res) := r in Some (σ, R, map_err DRegistry res, []).
Definition lifted {A E} (r : option (Store * Registry * result A Registry.Error * list Z))
    : option (Store * Registry * result A (Error E) * list Z) :=
  '(σ, R, res, closed) ← r; Some (σ, R, map_err DRegistry res, closed).

(** [Device::open]. *)
Definition open `{!Iteration Z OwnedTransaction} (reserved : bool) (σ : Store) (R : Registry)
    (identity : ProcessIdentity) (policy : Policy)
    : option (Store * Registry * result OpenConnection Registry.Error * list Z) :=
  let '(σ, s) := new_session σ in
  let '(σ, c) := new_connection σ s in
  '(σ, R, res, closed) ← register reserved σ R c;
  Some (σ, R, result_map (fun key => {| okey := Some key; oidentity := identity; opolicy := policy |}) res, closed).

(** [OpenConnection::close]; [None] is also the failure of [expect]. *)
Definition close_device `{!Iteration Z OwnedTransaction, !Iteration CallId CallRoute} (σ : Store) (R : Registry)
    (o : OpenConnection) : option (Store * Registry * result unit Registry.Error * list Z) :=
  key ← okey o; Registry.close σ R key.

(** [Drop for OpenConnection]. *)
Definition drop_connection `{!Iteration Z OwnedTransaction, !Iteration CallId CallRoute} (σ : Store) (R : Registry)
    (o : OpenConnection) : option (Store * Registry * list Z) :=
  match okey o with
  | None => Some (σ, R, [])
  | Some key => '(σ, R, _, closed) ← Registry.close σ R key; Some (σ, R, closed)
  end.

(** [work_generation]: the generation of the connection's signal. *)
Definition work_generation {E} (σ : Store) (R : Registry) (o : OpenConnection) : result Z (Error E) :=
  let? key := ok_or (okey o) DClosed in
  let? c := map_err DRegistry (lookup R key) in
  Ok (WorkSignal.snapshot (signals σ !!! csignal c)).

(** ** Waiting *)

(** What happens while a thread sleeps: the others change the state, and the wait ends. *)
Definition Sleep : Type := Store -> Registry -> Store * Registry * WaitOutcome.

(** [finish] of the registration, on the connection it pinned; a connection that was closed
    meanwhile is no longer in the registry. *)
Definition finish_wait (R : Registry) (key : Key) (registered : option Z) : Registry :=
  match entries R !! kid key with
  | None => R
  | Some c => set_entry R (kid key) (work_wait_release c registered).1
  end.

Definition wait_for_work_thread {E} (sleep : Sleep) (σ : Store) (R : Registry) (o : OpenConnection) (thread_id : Z)
    : option (Store * Registry * result WaitOutcome (Error E) * list Z) :=
  with_key σ R o (fun key =>
    '(σ, R, res, _) ← prepare_thread_work_wait σ R key thread_id;
    match res with
    | Err e => Some (σ, R, Err (DRegistry e), [])
    | Ok registered =>
        let '(σ, R, waited) := sleep σ R in
        Some (σ, finish_wait R key registered, Ok waited, [])
    end).

(** ** Control requests *)

Definition context_manager_object (flags : Z) : bytes :=
  copy_at 4 (u32_le flags) (copy_at 0 (u32_le (tag Binder)) (zeroed 24)).

(** [policy.authorize(identity)?; Ok(identity.euid())]. *)
Definition authorized (o : OpenConnection) (_ : Key) : result Z Z :=
  let? _ := opolicy o (oidentity o) in Ok (euid (oidentity o)).

Definition device_begin_context_manager {E} (rsv : Reserve) (σ : Store) (R : Registry) (o : OpenConnection)
    (object : Object) : option (Store * Registry * result (Z * LocalNodeToken) (Error E) * list Z) :=
  with_key σ R o (fun key =>
    '(σ, R, res) ← begin_context_manager rsv σ R key object (authorized o);
    Some (σ, R, map_err DContextManager res, [])).

(** The object at index zero; [None] is the panic of [expect] or of the index. *)
Definition first_object {A} (objects : result (list Object) Objects.Error) (invalid : option A)
    (k : Object -> option A) : option A :=
  match objects with Err _ => invalid | Ok objects => object ← objects !! 0%nat; k object end.

(** Reservations of the validation at [[0; _]] and of the device at [[1; _]]. *)
Definition begin_context_manager_control {E} (rsv : Reserve) (σ : Store) (R : Registry) (o : OpenConnection)
    (request : Z) (argument : bytes)
    : option (Store * Registry * result (Z * LocalNodeToken) (Error E) * list Z) :=
  let validate_at data := Objects.validate (below 0 rsv) data (u64_le 0) in
  if (request =? BINDER_SET_CONTEXT_MGR) && (len argument =? 4) then
    first_object (validate_at (context_manager_object 0)) None
      (device_begin_context_manager (below 1 rsv) σ R o)
  else if (request =? BINDER_SET_CONTEXT_MGR_EXT) && (len argument =? 24) then
    first_object (validate_at argument) (Some (σ, R, Err InvalidArgument, []))
      (device_begin_context_manager (below 1 rsv) σ R o)
  else Some (σ, R, Err InvalidArgument, []).

Definition device_commit_context_manager {E} (σ : Store) (R : Registry) (o : OpenConnection) (reservation : Z)
    : option (Store * Registry * result unit (Error E) * list Z) :=
  with_key σ R o (fun key =>
    '(σ, R, res) ← commit_context_manager σ R key reservation;
    Some (σ, R, map_err DContextManager res, [])).

Definition device_abort_context_manager (σ : Store) (R : Registry) (o : OpenConnection) (reservation : Z)
    : option (Store * Registry) :=
  match okey o with None => Some (σ, R) | Some key => abort_context_manager σ R key reservation end.

Definition set_context_manager {E} (rsv : Reserve) (σ : Store) (R : Registry) (o : OpenConnection)
    (request : Z) (argument : bytes) : option (Store * Registry * result unit (Error E) * list Z) :=
  '(σ, R, res, closed) ← begin_context_manager_control rsv σ R o request argument;
  match res with
  | Err e => Some (σ, R, Err e, closed)
  | Ok (reservation, _) => device_commit_context_manager σ R o reservation
  end.

(** [execute_control], with the argument, which [BINDER_VERSION] writes. *)
Definition execute_control {E} (rsv : Reserve) (σ : Store) (R : Registry) (o : OpenConnection)
    (request : Z) (argument : bytes) : option (Store * Registry * bytes * result unit (Error E)) :=
  let keep r := '(σ, R, res, _) ← r; Some (σ, R, argument, res) in
  let invalid := Some (σ, R, argument, Err InvalidArgument) in
  match okey o with
  | None => Some (σ, R, argument, Err DClosed)
  | Some key =>
      if request =? BINDER_VERSION then
        if len argument =? 4 then Some (σ, R, u32_le PROTOCOL_VERSION, Ok tt) else invalid
      else if request =? BINDER_SET_MAX_THREADS then
        if len argument =? 4 then keep (plain (registry_set_max_threads σ R key (u32_at argument 0)))
        else invalid
      else if request =? BINDER_SET_CONTEXT_MGR then
        if len argument =? 4 then keep (set_context_manager rsv σ R o request argument) else invalid
      else if request =? BINDER_SET_CONTEXT_MGR_EXT then
        if len argument =? 24 then keep (set_context_manager rsv σ R o request argument) else invalid
      else Some (σ, R, argument, Err (UnsupportedRequest request))
  end.

(** ** Requests of a thread *)

(** The lock of a thread, an operation of it, and its store back. *)
Definition with_thread_lock {A E} (σ : Store) (R : Registry) (o : OpenConnection) (thread_id : Z)
    (k : Store -> Registry -> Key -> Thread -> option (Store * Registry * Thread * result A (Error E) * list Z))
    : option (Store * Registry * result A (Error E) * list Z) :=
  with_key σ R o (fun key =>
    '(σ, R, res, _) ← registry_thread σ R key thread_id;
    match res with
    | Err e => Some (σ, R, Err (DRegistry e), [])
    | Ok t =>
        '(σ, R, t, res, closed) ← k σ R key t;
        Some (σ, match entries R !! kid key with
                 | Some c => set_entry R (kid key) (set_cthreads c (<[thread_id := t]> (cthreads c)))
                 | None => R
                 end, res, closed)
    end).

Section write_read.
Context {M E : Type} `{!ClientMemory M E}.

(** [execute_write_read_once]: the memory and the header after it. *)
Definition execute_write_read_once (debug : bool) (rsv : Reserve) (σ : Store) (R : Registry) (o : OpenConnection)
    (thread_id : Z) (header : bytes) (memory : M)
    : option (Store * Registry * bytes * M * result unit (Error E) * list Z) :=
  if thread_id =? 0 then Some (σ, R, header, memory, Err InvalidArgument, [])
  else
    '(σ, R, res, closed) ←
      with_thread_lock σ R o thread_id (fun σ R key t =>
        '(m, header, res) ←
          Ioctl.execute (E := E) debug rsv key (Build_Machine σ R t memory []) header
            {| spid := pid (oidentity o); seuid := euid (oidentity o) |};
        Some (mstore m, mregistry m, mthread m, Ok (header, msource m, map_err DIoctl res), mclosed m));
    match res with
    | Err e => Some (σ, R, header, memory, Err e, closed)
    | Ok (header, memory, res) => Some (σ, R, header, memory, res, closed)
    end.

Definition execute_write_read := execute_write_read_once.

Definition consumed_read (header : bytes) : Z := u64_at header 32.

Inductive WriteReadStatus : Type := Completed | SClosed | STimedOut.

(** The read-only header of a retry. *)
Definition read_only_header (request : Ioctl.Request) : bytes :=
  copy_at 40 (u64_le (Ioctl.address (Ioctl.read request)))
    (copy_at 24 (u64_le (Ioctl.size (Ioctl.read request))) (zeroed WRITE_READ_SIZE)).

(** The loop of [execute_write_read_blocking], one sleep of the list for each round; [None] when
    they run out.  Round [i] reserves under [[i]]. *)
Fixpoint blocking_loop (debug : bool) (rsv : Reserve) (i : nat) (σ : Store) (R : Registry) (o : OpenConnection)
    (thread_id : Z) (request : Ioctl.Request) (header : bytes) (memory : M) (sleeps : list Sleep)
    : option (Store * Registry * bytes * M * result WriteReadStatus (Error E) * list Z) :=
  match sleeps with
  | [] => None
  | sleep :: sleeps =>
      '(σ, R, res, closed) ← wait_for_work_thread (E := E) sleep σ R o thread_id;
      match res with
      | Err e => Some (σ, R, header, memory, Err e, closed)
      | Ok WorkSignal.Closed => Some (σ, R, header, memory, Ok SClosed, closed)
      | Ok TimedOut => Some (σ, R, header, memory, Ok STimedOut, closed)
      | Ok Changed =>
          match work_generation (E := E) σ R o with
          | Err e => Some (σ, R, header, memory, Err e, closed)
          | Ok _ =>
              '(σ, R, read_only, memory, res, closed') ←
                execute_write_read_once debug (below i rsv) σ R o thread_id (read_only_header request) memory;
              let header := copy_at 32 (slice read_only 32 40) header in
              match res with
              | Err e => Some (σ, R, header, memory, Err e, closed ++ closed')
              | Ok _ =>
                  if negb (consumed_read read_only =? 0)
                  then Some (σ, R, header, memory, Ok Completed, closed ++ closed')
                  else
                    '(σ, R, header, memory, res, closed'') ←
                      blocking_loop debug rsv (S i) σ R o thread_id request header memory sleeps;
                    Some (σ, R, header, memory, res, closed ++ closed' ++ closed'')
              end
          end
      end
  end.

(** [execute_write_read_blocking]; [deadline] says whether the deadline can be represented. *)
Definition execute_write_read_blocking (debug deadline : bool) (rsv : Reserve) (σ : Store) (R : Registry)
    (o : OpenConnection) (thread_id : Z) (header : bytes) (memory : M) (sleeps : list Sleep)
    : option (Store * Registry * bytes * M * result WriteReadStatus (Error E) * list Z) :=
  let fail e := Some (σ, R, header, memory, Err e, []) in
  if negb deadline then fail InvalidArgument
  else
    match Ioctl.decode header with
    | Err e => fail (DIoctl (Header e))
    | Ok request =>
        match work_generation (E := E) σ R o with
        | Err e => fail e
        | Ok _ =>
            '(σ, R, header, memory, res, closed) ←
              execute_write_read_once debug (below 0 rsv) σ R o thread_id header memory;
            match res with
            | Err e => Some (σ, R, header, memory, Err e, closed)
            | Ok _ =>
                if (Ioctl.size (Ioctl.read request) =? 0) || negb (consumed_read header =? 0)
                then Some (σ, R, header, memory, Ok Completed, closed)
                else
                  '(σ, R, header, memory, res, closed') ←
                    blocking_loop debug rsv 1 σ R o thread_id request header memory sleeps;
                  Some (σ, R, header, memory, res, closed ++ closed')
            end
        end
    end.
End write_read.

(** ** Remote submissions, replies and deliveries ([device/remote_*.rs]) *)

(** An operation of the locked thread on itself and the signals. *)
Definition on_thread {A E} (σ : Store) (R : Registry) (o : OpenConnection) (thread_id : Z)
    (k : Thread -> Signals -> Thread * Signals * result A Thread.Error)
    : option (Store * Registry * result A (Error E) * list Z) :=
  with_thread_lock σ R o thread_id (fun σ R _ t =>
    let '(t, Σ, res) := k t (signals σ) in Some (set_signals σ Σ, R, t, map_err DThread res, [])).

Section remote.
Context {E : Type} (σ : Store) (R : Registry) (o : OpenConnection).

Definition device_begin_remote_submission (rsv : Reserve) (thread_id : Z) (synchronous : bool) :=
  on_thread (E := E) σ R o thread_id (fun t Σ =>
    let '(t, res) := begin_remote_submission rsv t synchronous in (t, Σ, res)).

Definition device_commit_remote_submission (thread_id submission : Z) (call : option CallToken) :=
  on_thread (E := E) σ R o thread_id (fun t Σ => commit_remote_submission t Σ submission call).

Definition device_abort_remote_submission (thread_id submission : Z) :=
  on_thread (E := E) σ R o thread_id (fun t Σ =>
    let '(t, res) := abort_remote_submission t submission in (t, Σ, res)).

Definition device_reject_remote_submission (thread_id submission : Z) (reason : TransactionFailure) :=
  on_thread (E := E) σ R o thread_id (fun t Σ => reject_remote_submission t Σ submission reason).

Definition device_begin_remote_reply (rsv : Reserve) (thread_id : Z) :=
  on_thread (E := E) σ R o thread_id (fun t Σ =>
    let '(t, res) := begin_remote_reply rsv t in (t, Σ, res)).

Definition device_commit_remote_reply (thread_id submission : Z) (call : CallToken) :=
  on_thread (E := E) σ R o thread_id (fun t Σ => commit_remote_reply t Σ submission call).

Definition device_abort_remote_reply (thread_id submission : Z) (call : CallToken) :=
  on_thread (E := E) σ R o thread_id (fun t Σ =>
    let '(t, res) := abort_remote_reply t submission call in (t, Σ, res)).

Definition deliver_remote_target_dead (thread_id : Z) (call : CallToken) :=
  on_thread (E := E) σ R o thread_id (fun t Σ => enqueue_dead_reply t Σ (Thread.Remote call)).

Definition device_fail_remote_authority `{!Iteration Z Thread}
    : option (Store * Registry * result unit (Error E) * list Z) :=
  with_key σ R o (fun key => plain (registry_fail_remote_authority σ R key)).

Definition deliver_remote_caller_dead `{!Iteration Z Thread} (call : CallToken)
    : option (Store * Registry * result unit (Error E) * list Z) :=
  with_key σ R o (fun key => lifted (registry_cancel_remote_incoming σ R key call)).

(** Installed descriptors of a closed connection are closed. *)
Definition deliver_remote_transaction_with_fds (rsv : Reserve) (payload : TransferImage) (receiver : ConnectionToken)
    (remote : RemoteTransaction) (files : list InstalledFd)
    : option (Store * Registry * result Z (Error E) * list Z) :=
  match okey o with
  | None => Some (σ, R, Err DClosed, inumber <$> files)
  | Some key => lifted (registry_enqueue_remote_transaction rsv σ R key payload receiver remote files)
  end.

Definition deliver_remote_transaction rsv payload receiver remote :=
  deliver_remote_transaction_with_fds rsv payload receiver remote [].

Definition deliver_remote_reply_with_fds (rsv : Reserve) (payload : TransferImage) (receiver : ConnectionToken)
    (remote : RemoteReply) (files : list InstalledFd)
    : option (Store * Registry * result Z (Error E) * list Z) :=
  match okey o with
  | None => Some (σ, R, Err DClosed, inumber <$> files)
  | Some key => lifted (registry_enqueue_remote_reply rsv σ R key payload receiver remote files)
  end.

Definition deliver_remote_reply rsv payload receiver remote :=
  deliver_remote_reply_with_fds rsv payload receiver remote [].

(** [remote_references.rs]. *)
Definition device_remote_node_for_handle (handle : Z) : result NodeToken (Error E) :=
  let? key := ok_or (okey o) DClosed in
  let? c := map_err DRegistry (lookup R key) in
  map_err (fun e => DRegistry (GConnection e)) (connection_remote_node c handle).

Definition enqueue_remote_dead_binder (rsv : Reserve) (cookie : Z)
    : option (Store * Registry * result unit (Error E) * list Z) :=
  with_key σ R o (fun key => plain (registry_enqueue_dead_binder rsv σ R key cookie)).

Definition device_enqueue_clear_death_done (rsv : Reserve) (cookie : Z)
    : option (Store * Registry * result unit (Error E) * list Z) :=
  with_key σ R o (fun key => plain (registry_enqueue_clear_death_done rsv σ R key cookie)).

Definition device_acknowledge_dead_binder (cookie : Z)
    : option (Store * Registry * result unit (Error E) * list Z) :=
  with_key σ R o (fun key => plain (registry_acknowledge_dead_binder σ R key cookie)).

Definition hold_exported_node (local : LocalNodeToken) (st : Strength)
    : option (Store * Registry * result LocalHold (Error E) * list Z) :=
  with_key σ R o (fun key =>
    plain (registry_hold_local_node σ R key local (match st with Strong => HStrong | Weak => HWeak end))).

Definition device_resolve_remote_objects (rsv : Reserve) (payload : TransactionSnapshot)
    : option (Store * Registry * result (list OutboundObject) (Error E) * list Z) :=
  with_key σ R o (fun key => lifted (registry_resolve_remote_objects rsv σ R key payload)).

Definition device_install_remote_reference (node : NodeToken) (st : Strength)
    : option (Store * Registry * result Z (Error E) * list Z) :=
  with_key σ R o (fun key => plain (registry_install_remote_reference σ R key node st false)).

Definition install_remote_context_manager (node : NodeToken) (st : Strength)
    : option (Store * Registry * result Z (Error E) * list Z) :=
  with_key σ R o (fun key => plain (registry_install_remote_reference σ R key node st true)).

Definition device_resolve_remote_transaction_target (request : TransactionRequest.Request)
    : option (Store * Registry * result (option NodeToken) (Error E) * list Z) :=
  with_key σ R o (fun key => lifted (registry_resolve_remote_transaction_target σ R key request)).

Definition map_receive (mapped : result Z Errno) (capacity : Z)
    : option (Store * Registry * result Z (Error E) * list Z) :=
  with_key σ R o (fun key => plain (registry_install_receive_mapping mapped σ R key capacity)).
End remote.

(** ** Captured commands ([device/remote_command.rs]) *)

Record RemoteCommand : Type :=
  { rtarget : NodeToken; rsnapshot : TransactionSnapshot; rextra_bytes : bytes;
    robjects : list OutboundObject; rcode : Z; rflags : Z; rbytes : Z }.
Record RemoteReplyCommand : Type :=
  { pcall : CallToken; psubmission : Z; psnapshot : TransactionSnapshot; pextra : bytes;
    pobjects : list OutboundObject; pcode : Z; pflags : Z; pbytes : Z }.

Inductive RemoteCommandError (E : Type) : Type :=
| RClosed | RFraming (e : TransactionRequest.Error) | RDevice (e : Error Empty_set)
| RCapture (e : CaptureError E) | RScatterGather (e : ScatterGather.Error E) | ROutOfMemory
| ReplyTargetRequired.
#[global] Arguments RClosed {E}.
#[global] Arguments RFraming {E} e.
#[global] Arguments RDevice {E} e.
#[global] Arguments RCapture {E} e.
#[global] Arguments RScatterGather {E} e.
#[global] Arguments ROutOfMemory {E}.
#[global] Arguments ReplyTargetRequired {E}.

(** The loop that lays the gathered buffers out in the extra section; [None] is the panic of a
    slice out of range. *)
Fixpoint place_buffers (base : Z) (buffers : list ScatterGather.Buffer) (extra : bytes) : option bytes :=
  match buffers with
  | [] => Some extra
  | b :: buffers =>
      let start := TransactionLayout.start (destination b) - base in
      if (start <? 0) || (len extra <? start + len (bbytes b)) then None
      else place_buffers base buffers (copy_at (Z.to_nat start) (bbytes b) extra)
  end.

Section capture.
Context {M E : Type} `{!ClientMemory M E}.
(** What the memory answers to the reads of the gathered buffers, by their number. *)
Context (reads : nat -> Z -> bytes -> result bytes E).

(** [capture_payload].  Reservations of its calls at [[0; _]] and [[1; _]], of [extra] at [[2]]. *)
Definition capture_payload (rsv : Reserve) (memory : M) (request : TransactionRequest.Request)
    : option (M * result (TransactionSnapshot * bytes) (RemoteCommandError E)) :=
  match capture_transaction (below 0 rsv) memory request with
  | (memory, Err e) => Some (memory, Err (RCapture e))
  | (memory, Ok snapshot) =>
      res ← capture_with reads (below 1 rsv) snapshot;
      match res with
      | Err e => Some (memory, Err (RScatterGather e))
      | Ok capture =>
          if negb (rsv [2%nat]) then Some (memory, Err ROutOfMemory)
          else
            let section := extra (slayout snapshot) in
            extra ← place_buffers (start section) (buffers capture) (zeroed (Z.to_nat (range_len section)));
            Some (memory, Ok (snapshot, extra))
      end
  end.

(** [capture_remote_command]: the state, the memory and the command.  Reservations of the payload
    at [[0; _]] and of the objects at [[1; _]]. *)
Definition capture_remote_command (rsv : Reserve) (σ : Store) (R : Registry) (o : OpenConnection)
    (input : bytes) (memory : M)
    : option (Store * Registry * M * result (option RemoteCommand) (RemoteCommandError E)) :=
  match okey o with
  | None => Some (σ, R, memory, Err RClosed)
  | Some _ =>
      match TransactionRequest.decode input with
      | Err e => Some (σ, R, memory, Err (RFraming e))
      | Ok (request, n) =>
          '(σ, R, res, _) ← device_resolve_remote_transaction_target (E := Empty_set) σ R o request;
          match res with
          | Err e => Some (σ, R, memory, Err (RDevice e))
          | Ok None => Some (σ, R, memory, Ok None)
          | Ok (Some target) =>
              '(memory, res) ← capture_payload (below 0 rsv) memory request;
              match res with
              | Err e => Some (σ, R, memory, Err e)
              | Ok (snapshot, extra) =>
                  '(σ, R, res, _) ← device_resolve_remote_objects (E := Empty_set) σ R o (below 1 rsv) snapshot;
                  Some (σ, R, memory,
                        map_err RDevice
                          (result_map (fun objects =>
                             Some {| rtarget := target; rsnapshot := snapshot; rextra_bytes := extra;
                                     robjects := objects; rcode := code request; rflags := flags request;
                                     rbytes := n |}) res))
              end
          end
      end
  end.

(** The abort of a reply whose capture failed; its own result is ignored. *)
Definition abandon_reply (σ : Store) (R : Registry) (o : OpenConnection) (memory : M) (thread_id submission : Z)
    (call : CallToken) (e : RemoteCommandError E)
    : option (Store * Registry * M * result (option RemoteReplyCommand) (RemoteCommandError E)) :=
  '(σ, R, _, _) ← device_abort_remote_reply (E := Empty_set) σ R o thread_id submission call;
  Some (σ, R, memory, Err e).

(** [capture_remote_reply_command].  Reservations of the thread at [[2; _]]. *)
Definition capture_remote_reply_command (rsv : Reserve) (σ : Store) (R : Registry) (o : OpenConnection)
    (thread_id : Z) (input : bytes) (memory : M)
    : option (Store * Registry * M * result (option RemoteReplyCommand) (RemoteCommandError E)) :=
  match TransactionRequest.decode input with
  | Err e => Some (σ, R, memory, Err (RFraming e))
  | Ok (request, n) =>
      if negb (is_reply request) then Some (σ, R, memory, Err ReplyTargetRequired)
      else
        '(σ, R, res, _) ← device_begin_remote_reply (E := Empty_set) σ R o (below 2 rsv) thread_id;
        match res with
        | Err e => Some (σ, R, memory, Err (RDevice e))
        | Ok None => Some (σ, R, memory, Ok None)
        | Ok (Some (submission, call)) =>
            '(memory, res) ← capture_payload (below 0 rsv) memory request;
            match res with
            | Err e => abandon_reply σ R o memory thread_id submission call e
            | Ok (snapshot, extra) =>
                '(σ, R, res, _) ← device_resolve_remote_objects (E := Empty_set) σ R o (below 1 rsv) snapshot;
                match res with
                | Err e => abandon_reply σ R o memory thread_id submission call (RDevice e)
                | Ok objects =>
                    Some (σ, R, memory,
                          Ok (Some {| pcall := call; psubmission := submission; psnapshot := snapshot;
                                      pextra := extra; pobjects := objects; pcode := code request;
                                      pflags := flags request; pbytes := n |}))
                end
            end
        end
  end.
End capture.

(** ** Lemmas *)

(** The ranges of a decoded header fit 64 bits and do not wrap. *)
Lemma decoded_ranges header request :
  Ioctl.decode header = Ok request ->
  u64_range (Ioctl.address (Ioctl.read request)) /\ u64_range (Ioctl.size (Ioctl.read request)) /\
  Ioctl.range (Ioctl.address (Ioctl.read request)) (Ioctl.size (Ioctl.read request)) = Ok (Ioctl.read request).
Proof.
  unfold Ioctl.decode, ensure. destruct (Nat.eqb_spec (length header) WRITE_READ_SIZE) as [Hl|]; [|done]. simpl.
  destruct (Ioctl.range (u64_at header 16) _) as [w|]; [|done]. simpl.
  destruct (Ioctl.range (u64_at header 40) _) as [r|] eqn:Er; [|done]. simpl. intros [= <-]. simpl.
  unfold WRITE_READ_SIZE in Hl. pose proof (u64_at_range header 24 ltac:(lia)). pose proof (u64_at_range header 40 ltac:(lia)).
  revert Er. unfold Ioctl.range. destruct (_ && _) eqn:Eb; [done|]. intros [= <-]. simpl. by rewrite Eb.
Qed.

Lemma read_only_header_decodes header request :
  Ioctl.decode header = Ok request ->
  Ioctl.decode (read_only_header request) =
    Ok {| Ioctl.write := {| Ioctl.address := 0; Ioctl.size := 0 |}; Ioctl.read := Ioctl.read request |}.
Proof.
  intros (Ha & Hs & Hr)%decoded_ranges. unfold read_only_header. set (a := u64_le _). set (n := u64_le _).
  assert (La : length a = 8%nat) by apply length_u64_le. assert (Ln : length n = 8%nat) by apply length_u64_le.
  set (h := copy_at 40 a (copy_at 24 n (zeroed WRITE_READ_SIZE))).
  assert (L0 : length (zeroed WRITE_READ_SIZE) = 48%nat) by done.
  assert (L1 : length (copy_at 24 n (zeroed WRITE_READ_SIZE)) = 48%nat) by (rewrite length_copy_at; lia).
  assert (Lh : length h = 48%nat) by (unfold h; rewrite length_copy_at; lia).
  assert (Hout : forall i j, (j <= 24 \/ 32 <= i)%nat -> (j <= 40)%nat -> slice h i j = slice (zeroed WRITE_READ_SIZE) i j).
  { intros i j H1 H2. unfold h. rewrite slice_copy_outside by lia. apply slice_copy_outside; lia. }
  assert (E24 : u64_at h 24 = Ioctl.size (Ioctl.read request)).
  { apply u64_at_field; [|done]. unfold h. rewrite slice_copy_outside by lia.
    pose proof (slice_copy_at 24 n (zeroed WRITE_READ_SIZE) ltac:(lia)) as E. by rewrite Ln in E. }
  assert (E40 : u64_at h 40 = Ioctl.address (Ioctl.read request)).
  { apply u64_at_field; [|done]. pose proof (slice_copy_at 40 a (copy_at 24 n (zeroed WRITE_READ_SIZE)) ltac:(lia)) as E.
    by rewrite La in E. }
  assert (E0 : u64_at h 0 = 0 /\ u64_at h 16 = 0).
  { split; apply u64_at_field; try done; rewrite Hout by lia; by vm_compute. }
  destruct E0 as [E0 E16]. unfold Ioctl.decode. rewrite Lh, E0, E16, E24, E40. simpl. by rewrite Hr.
Qed.

Lemma length_read_only_header request : length (read_only_header request) = WRITE_READ_SIZE.
Proof.
  unfold read_only_header, WRITE_READ_SIZE, zeroed.
  rewrite length_copy_at; rewrite length_copy_at; rewrite ?length_u64_le, ?length_replicate; lia.
Qed.

(** A header that differs from another at most in the read consumption. *)
Definition read_field (header header' : bytes) : Prop :=
  length header' = length header /\ slice header' 0 32 = slice header 0 32 /\ slice header' 40 48 = slice header 40 48.

Lemma read_field_copy header header' bs :
  length header = WRITE_READ_SIZE -> length bs = 8%nat -> read_field (copy_at 32 bs header) header' -> read_field header header'.
Proof.
  unfold WRITE_READ_SIZE. intros Hl Hb (E1 & E2 & E3). unfold read_field.
  rewrite length_copy_at in E1 by lia. rewrite slice_copy_outside in E2 by lia. rewrite slice_copy_outside in E3 by lia. done.
Qed.

Section blocking.
Context {M E : Type} `{!ClientMemory M E}.

(** Executing a request keeps the size of its header. *)
Lemma once_length debug rsv σ R o tid header (memory : M) σ' R' header' memory' res closed :
  execute_write_read_once (E := E) debug rsv σ R o tid header memory = Some (σ', R', header', memory', res, closed) ->
  length header' = length header.
Proof.
  unfold execute_write_read_once. destruct (tid =? 0); [by intros [= _ _ <- _ _ _]|].
  unfold with_thread_lock, with_key. destruct (okey o) as [key|]; simpl; [|by intros [= _ _ <- _ _ _]].
  destruct (registry_thread _ _ _ _) as [[[[σ1 R1] [t|e]] c1]|]; simpl; [|by intros [= _ _ <- _ _ _]|done].
  destruct (Ioctl.execute _ _ _ _ _ _) as [[[m2 h2] r2]|] eqn:E2; simpl; [|done].
  apply execute_length in E2. by intros [= _ _ <- _ _ _].
Qed.

Lemma blocking_loop_read_field debug rsv o tid request sleeps : forall i σ R header (memory : M) σ' R' header' memory' res closed,
  length header = WRITE_READ_SIZE ->
  blocking_loop (E := E) debug rsv i σ R o tid request header memory sleeps = Some (σ', R', header', memory', res, closed) ->
  read_field header header'.
Proof.
  induction sleeps as [|sleep sleeps IH]; intros i σ R header memory σ' R' header' memory' res closed Hl; simpl; [done|].
  destruct (wait_for_work_thread _ _ _ _ _) as [[[[σ1 R1] [waited|e]] c1]|]; simpl; [|by intros [= _ _ <- _ _ _]|done].
  destruct waited; try by intros [= _ _ <- _ _ _].
  destruct (work_generation _ _ _); [|by intros [= _ _ <- _ _ _]].
  destruct (execute_write_read_once _ _ _ _ _ _ _ _) as [[[[[[σ2 R2] h2] m2] r2] c2]|] eqn:E2; simpl; [|done].
  apply once_length in E2.
  assert (Hb : length (slice h2 32 40) = 8%nat).
  { rewrite length_slice; [lia|]. rewrite E2, length_read_only_header. unfold WRITE_READ_SIZE. lia. }
  destruct r2; [|intros [= _ _ <- _ _ _]; by eapply read_field_copy].
  destruct (negb _); [intros [= _ _ <- _ _ _]; by eapply read_field_copy|].
  destruct (blocking_loop _ _ _ _ _ _ _ _ _ _ _) as [[[[[[σ3 R3] h3] m3] r3] c3]|] eqn:E3; simpl; [|done].
  intros [= _ _ <- _ _ _]. eapply read_field_copy; [done..|]. eapply IH; [|exact E3].
  rewrite length_copy_at; unfold WRITE_READ_SIZE in *; lia.
Qed.
End blocking.

(** *** Validation of one object *)

Lemma validate_one rsv data :
  Objects.validate rsv data (u64_le 0) =
    let? object := validate_entry data 0 (u64_le 0) in
    if rsv [0%nat] then Ok [object] else Err Objects.OutOfMemory.
Proof.
  unfold Objects.validate. rewrite length_u64_le. simpl. change (chunks8 (u64_le 0)) with [u64_le 0].
  simpl. destruct (validate_entry _ _ _); [|done]. simpl. by destruct (rsv [0%nat]).
Qed.

(** The validator finds the object of [BINDER_SET_CONTEXT_MGR], unless it runs out of memory. *)
Lemma internal_object_valid rsv :
  exists object, Objects.validate rsv (context_manager_object 0) (u64_le 0) =
    if rsv [0%nat] then Ok [object] else Err Objects.OutOfMemory.
Proof. rewrite validate_one. eexists. by vm_compute. Qed.

Lemma one_object rsv data objects :
  Objects.validate rsv data (u64_le 0) = Ok objects -> exists object, objects !! 0%nat = Some object.
Proof.
  rewrite validate_one. destruct (validate_entry _ _ _) as [object|]; [|done]. simpl.
  destruct (rsv [0%nat]); [|done]. intros [= <-]. by exists object.
Qed.

(** ** Properties *)

(** A blocking request writes once.  Unless the connection is closed, the request runs once
    with its own header; what follows only retries the read, with headers that announce no
    write and the same read range, and changes nothing but the read consumption of the
    caller's header. *)
Theorem blocking_writes_once {M E : Type} `{!ClientMemory M E} debug rsv σ R o tid header (memory : M) sleeps request
    σ' R' header' memory' res closed
    (Hd : Ioctl.decode header = Ok request)
    (Hx : execute_write_read_blocking (E := E) debug true rsv σ R o tid header memory sleeps =
            Some (σ', R', header', memory', res, closed)) :
  Ioctl.decode (read_only_header request) =
    Ok {| Ioctl.write := {| Ioctl.address := 0; Ioctl.size := 0 |}; Ioctl.read := Ioctl.read request |} /\
  ((exists e, work_generation (E := E) σ R o = Err e /\ res = Err e /\ σ' = σ /\ R' = R /\ header' = header /\ memory' = memory) \/
   exists σ1 R1 header1 memory1 res1 closed1,
     execute_write_read_once (E := E) debug (below 0 rsv) σ R o tid header memory =
       Some (σ1, R1, header1, memory1, res1, closed1) /\ read_field header1 header').
Proof.
  split; [by eapply read_only_header_decodes|]. revert Hx. unfold execute_write_read_blocking. simpl. rewrite Hd.
  destruct (work_generation _ _ _) as [g|e] eqn:Eg; [|intros [= <- <- <- <- <- _]; left; by eauto 8].
  destruct (execute_write_read_once _ _ _ _ _ _ _ _) as [[[[[[σ1 R1] h1] m1] r1] c1]|] eqn:E1; simpl; [|done].
  intros Hx. right. eexists _, _, _, _, _, _. split; [done|]. apply once_length in E1.
  assert (Hl : length h1 = WRITE_READ_SIZE) by (rewrite E1; by apply decode_Ok in Hd as (? & _)).
  destruct r1; [|by simplify_eq]. destruct (_ || _); [by simplify_eq|].
  destruct (blocking_loop _ _ _ _ _ _ _ _ _ _ _) as [[[[[[σ3 R3] h3] m3] r3] c3]|] eqn:E3; simpl in Hx; [|done].
  simplify_eq. by eapply blocking_loop_read_field.
Qed.

(** C25: registering a context manager panics when memory runs out.  The validator of the
    object built for [BINDER_SET_CONTEXT_MGR] makes one reservation; when it is refused, the
    request panics, while [BINDER_SET_CONTEXT_MGR_EXT] reports a refused reservation as an
    invalid argument. *)
Theorem context_manager_out_of_memory_panics {E : Type} rsv σ R o argument (H : below 0 rsv [0%nat] = false) :
  (len argument = 4 -> begin_context_manager_control (E := E) rsv σ R o BINDER_SET_CONTEXT_MGR argument = None) /\
  (len argument = 24 -> begin_context_manager_control (E := E) rsv σ R o BINDER_SET_CONTEXT_MGR_EXT argument =
     Some (σ, R, Err InvalidArgument, [])).
Proof.
  split; intros Hl; unfold begin_context_manager_control; rewrite Hl; simpl.
  - destruct (internal_object_valid (below 0 rsv)) as [object ->]. by rewrite H.
  - rewrite validate_one, H. by destruct (validate_entry _ _ _).
Qed.

(** ** Witnesses *)

(** A client memory of one block at address zero. *)
#[export, program] Instance block_memory : ClientMemory bytes unit := {|
  copy_from m a n :=
    (m, if (0 <=? a) && (a + Z.of_nat n <=? len m) then Ok (slice m (Z.to_nat a) (Z.to_nat a + n)) else Err tt);
  check_write m a n := (m, ensure ((0 <=? a) && (a + n <=? len m)) tt);
  copy_to m a bs := if (0 <=? a) && (a + len bs <=? len m) then (copy_at (Z.to_nat a) bs m, Ok tt) else (m, Err tt) |}.
Next Obligation.
  intros m a n m' bs. simpl. destruct (_ && _) eqn:E; [|done]. intros [= _ <-].
  apply andb_prop in E as [E1%Z.leb_le E2%Z.leb_le]. unfold len in E2. rewrite length_slice; lia.
Qed.

Definition sample_open : OpenConnection :=
  {| okey := Some sample_key; oidentity := {| pid := 10; euid := 1000 |}; opolicy := android_system_policy |}.

(** A request that enters the looper and waits for eight bytes of work, in vain. *)
Definition blocking_header : bytes := u64_le 4 ++ zeroed 16 ++ u64_le 8 ++ zeroed 8 ++ u64_le 4.
Definition blocking_memory : bytes := enter_record ++ zeroed 12.
Definition time_out : Sleep := fun σ R => (σ, R, TimedOut).

Lemma blocking_writes_once_witness :
  exists σ' R' header' memory' closed request,
    Ioctl.decode blocking_header = Ok request /\
    execute_write_read_blocking (E := unit) true true reserve_ok (mstore sample_machine) (mregistry sample_machine)
      sample_open 7 blocking_header blocking_memory [time_out] = Some (σ', R', header', memory', Ok STimedOut, closed) /\
    u64_at header' 8 = 4 /\
    Ioctl.decode (read_only_header request) =
      Ok {| Ioctl.write := {| Ioctl.address := 0; Ioctl.size := 0 |}; Ioctl.read := Ioctl.read request |}.
Proof.
  destruct (Ioctl.decode blocking_header) as [request|] eqn:Ed; [|by vm_compute in Ed].
  destruct (execute_write_read_blocking (E := unit) true true reserve_ok (mstore sample_machine) (mregistry sample_machine)
    sample_open 7 blocking_header blocking_memory [time_out]) as [[[[[[σ' R'] h'] m'] res] closed]|] eqn:Ex; [|by vm_compute in Ex].
  destruct (blocking_writes_once (E := unit) true reserve_ok _ _ sample_open 7 blocking_header blocking_memory [time_out]
    request σ' R' h' m' res closed Ed Ex) as [Hr _].
  exists σ', R', h', m', closed, request. split; [done|]. vm_compute in Ex. simplify_eq. split_and!; [done|by vm_compute|done].
Defined.

Lemma context_manager_out_of_memory_panics_witness :
  begin_context_manager_control (E := unit) (fun _ => false) empty_store (default_registry 1) sample_open
    BINDER_SET_CONTEXT_MGR (zeroed 4) = None.
Proof. by apply (context_manager_out_of_memory_panics (E := unit) (fun _ => false) _ _ sample_open (zeroed 4)). Defined.
