(* ===== verification/DeviceInvariant.v ===== *)
(** * The whole device

    The state of a device is its registry with the shared nodes, signals and the holds handed
    out.  The invariant joins those of the parts: the world of owners, handle tables and holds,
    each connection's queues, and the call table with the call stacks of every thread.  No
    operation of the device panics in a state it can reach, in a debug or a release build. *)
From S2P Require Import Prelude RoutingAuthority TransactionQueue DeathWork TransactionWire ScatterGather.
From S2P Require Import Command AuthorityProtocol Objects TransactionLayout TransactionSnapshot TransactionRequest.
From S2P Require Import NodeWork WorkSignal NodeOwner ReferenceTable Session Thread.
From S2P Require Import ReceiveArena TransferImage PreparedTransaction World Connection Registry WriteRead Ioctl Device.

(** ** The world of a registry *)

Definition sessions (es : gmap ConnectionId Connection) : list Session :=
  omap (fun e => csession e.2) (map_to_list es).

Definition refs_holds (m : option Manager) : list LocalHold :=
  match m with Some m => [cstrong (mreferences m); cweak (mreferences m)] | None => [] end.

(** The holds of the context manager and of the pending one. *)
Definition context_holds (x : ContextState) : list LocalHold :=
  refs_holds (manager x) ++ refs_holds (snd <$> pending_manager x).

Definition world_of (σ : Store) (ss : list Session) (hs : list LocalHold) : World :=
  {| wstore := σ; wowners := sowner <$> ss; wtables := srefs <$> ss; wholds := hs |}.

Definition world_fine (σ : Store) (ss : list Session) (hs : list LocalHold) : Prop :=
  world_ok (world_of σ ss hs).

Lemma zsum_perm {A} (f : A -> Z) l k : l ≡ₚ k -> zsum f l = zsum f k.
Proof. induction 1; simpl; lia. Qed.

#[export] Instance world_fine_Proper σ : Proper ((≡ₚ) ==> (≡ₚ) ==> iff) (world_fine σ).
Proof.
  assert (H : forall ss ss' hs hs', ss ≡ₚ ss' -> hs ≡ₚ hs' -> world_fine σ ss hs -> world_fine σ ss' hs').
  { intros ss ss' hs hs' Es Eh [H1 H2 H3 H4 H5 H6]. unfold world_fine, world_of in *. simpl in *.
    assert (Eo : sowner <$> ss ≡ₚ sowner <$> ss') by (by apply fmap_Permutation).
    assert (Et : srefs <$> ss ≡ₚ srefs <$> ss') by (by apply fmap_Permutation).
    split; simpl; [done|by rewrite <- Eo|by rewrite <- (fmap_Permutation state _ _ Eo)|by rewrite <- Et|by rewrite <- Eh|].
    intros r n Hn. destruct (H6 r n Hn) as (B1 & B2 & B3). unfold balanced, count_holds in *.
    split_and!.
    - rewrite B1. apply zsum_perm. by rewrite Es.
    - rewrite B2. apply zsum_perm. by rewrite Es.
    - intros k. rewrite B3. by apply zsum_perm. }
  intros ss ss' Es hs hs' Eh. split; [by apply H|]. apply H; by symmetry.
Qed.

(** A session among the others is one of [with_session]. *)
Lemma world_session σ s ss hs :
  world_fine σ (s :: ss) hs <-> world_ok (with_session [] (sowner <$> ss) [] (srefs <$> ss) σ s hs).
Proof. done. Qed.

Lemma world_steps σ s ss hs σ' s' hs' :
  world_fine σ (s :: ss) hs ->
  rtc step (with_session [] (sowner <$> ss) [] (srefs <$> ss) σ s hs)
    (with_session [] (sowner <$> ss) [] (srefs <$> ss) σ' s' hs') ->
  world_fine σ' (s' :: ss) hs'.
Proof. intros H Hs. exact (steps_ok [] _ [] _ _ _ _ _ H Hs). Qed.

(** The operations of a session never panic, and keep the world. *)
Lemma world_run σ s ss hs op :
  world_fine σ (s :: ss) hs -> op_ok σ op ->
  exists σ' s' hs', Session.run σ s op = Some (σ', s', hs') /\ world_fine σ' (s' :: ss) (hs' ++ hs).
Proof.
  intros H Ho. destruct (run_refines _ _ _ _ _ _ _ op (proj1 (world_session σ s ss hs) H) Ho)
    as (σ' & s' & hs' & E & Hs). exists σ', s', hs'. split; [done|]. by eapply world_steps.
Qed.

Lemma world_signals σ ss hs Σ : world_fine σ ss hs -> world_fine (set_signals σ Σ) ss hs.
Proof. intros H. eapply world_step_ok; [|exact H]. apply step_signals. Qed.

Lemma world_drop σ ss h hs :
  world_fine σ ss (h :: hs) -> exists σ', drop_hold σ h = Some σ' /\ world_fine σ' ss hs.
Proof.
  intros H. destruct (world_drop_hold σ _ _ [] h hs H) as [σ' E].
  exists σ'. split; [done|]. eapply world_step_ok; [|exact H]. by apply (step_drop_hold _ _ _ [] h hs).
Qed.

Lemma world_hold_exists σ ss h hs : world_fine σ ss (h :: hs) -> is_Some (nodes σ !! hnode h).
Proof. intros H. by pose proof (world_holds _ H) as [? _]%Forall_cons. Qed.

(** *** The sessions of the entries *)

Lemma sessions_insert es id c :
  sessions (<[id := c]> es) ≡ₚ option_list (csession c) ++ sessions (delete id es).
Proof.
  unfold sessions. rewrite <- insert_delete_eq, map_to_list_insert by apply lookup_delete_eq. simpl.
  by destruct (csession c).
Qed.

Lemma sessions_lookup es id c :
  es !! id = Some c -> sessions es ≡ₚ option_list (csession c) ++ sessions (delete id es).
Proof. intros H. rewrite <- (insert_id es id c H) at 1. apply sessions_insert. Qed.

Lemma sessions_same es id c c' :
  es !! id = Some c -> csession c' = csession c -> sessions (<[id := c']> es) ≡ₚ sessions es.
Proof. intros H E. by rewrite sessions_insert, (sessions_lookup _ _ _ H), E. Qed.

Lemma sessions_focus es id c s :
  es !! id = Some c -> csession c = Some s -> sessions es ≡ₚ s :: sessions (delete id es).
Proof. intros H E. by rewrite (sessions_lookup _ _ _ H), E. Qed.

Lemma sessions_replace es id c s :
  csession c = Some s -> sessions (<[id := c]> es) ≡ₚ s :: sessions (delete id es).
Proof. intros E. by rewrite sessions_insert, E. Qed.

(** ** Threads and calls *)

(** The thread [tid] of connection [id]; the locked thread stands for the entry it was taken
    from. *)
Definition thread_at (es : gmap ConnectionId Connection) (lock : option (ConnectionId * Thread))
    (id : ConnectionId) (tid : Z) : option Thread :=
  c ← es !! id;
  match lock with
  | Some (lid, t) => if bool_decide (lid = id /\ Thread.id t = tid) then Some t else cthreads c !! tid
  | None => cthreads c !! tid
  end.

(** What a thread remembers of a call. *)
Definition memory (t : Thread) (c : CallId) : list OutgoingCall * list LocalWork :=
  (keep (call_entry c) (outgoing t), keep (of_call c) (local_work t)).
Definition absent : list OutgoingCall * list LocalWork := ([], []).
Definition awaiting (c : CallId) : list OutgoingCall * list LocalWork :=
  ([OActive c], [ReservedTerminal c; ReservedTerminal c]).

Record calls_ok (es : gmap ConnectionId Connection) (lock : option (ConnectionId * Thread))
    (t : CallTable) (last : Z) : Prop := {
  (** Calls and connections are numbered from one. *)
  calls_serials call route : call_routes t !! call = Some route ->
    (exists s, call = Thread.Local s /\ s <= call_next t) /\ rsender route <= last;
  calls_next : 0 <= call_next t <= u64_max;
  calls_ids id : is_Some (es !! id) -> id <= last;
  (** The caller of a registered call waits for it. *)
  calls_waiting call route : call_routes t !! call = Some route -> is_Some (es !! rsender route) ->
    exists th, thread_at es lock (rsender route) (rthread route) = Some th /\ memory th call = awaiting call;
  (** No thread knows the numbers not yet given. *)
  calls_unknown id tid th s : thread_at es lock id tid = Some th -> call_next t < s ->
    memory th (Thread.Local s) = absent;
  (** A queued reply answers a call that is no longer registered. *)
  calls_answered id c q p s : es !! id = Some c -> ctransactions c = Some q -> p ∈ TransactionQueue.pending q ->
    TransactionQueue.hreply (TransactionQueue.header p) = true ->
    TransactionQueue.rcall (TransactionQueue.route p) = Some (Thread.Local s) ->
    s <= call_next t /\ call_routes t !! Thread.Local s = None }.

Definition thread_fine (debug : bool) (tid : Z) (t : Thread) : Prop :=
  Thread.id t = tid /\ tid <> 0 /\ thread_ok debug t.

Definition queue_fine (q : TransactionQueue.Queue) : Prop :=
  exists g, TransactionQueue.queue g = q /\ trace_ok g.

Record connection_ok (c : Connection) : Prop := {
  connection_queue q : ctransactions c = Some q -> queue_fine q;
  connection_death : DeathWork.queue_ok (cdeath c) }.

(** ** The invariant *)

Record system_ok (debug : bool) (σ : Store) (R : Registry) (lock : option (ConnectionId * Thread))
    (hs : list LocalHold) : Prop := {
  system_world : world_fine σ (sessions (entries R)) (context_holds (context R) ++ hs);
  system_connections : map_Forall (fun _ => connection_ok) (entries R);
  system_threads id tid t : thread_at (entries R) lock id tid = Some t -> thread_fine debug tid t;
  system_calls : calls_ok (entries R) lock (calls R) (next R) }.

(** ** What the operations of a thread do to its calls *)

(** The local calls are remembered as before. *)
Definition same_local (t t' : Thread) : Prop :=
  Thread.id t' = Thread.id t /\ forall s, memory t' (Thread.Local s) = memory t (Thread.Local s).

Lemma same_local_refl t : same_local t t.
Proof. done. Qed.

Lemma same_local_trans t1 t2 t3 : same_local t1 t2 -> same_local t2 t3 -> same_local t1 t3.
Proof. intros [E H] [E' H']. split; [congruence|]. intros s. by rewrite H'. Qed.

(** The projections of stacks cut into pieces agree. *)
Ltac same_pieces := unfold memory; simpl; f_equal; stacks.
Ltac by_same := split; [done|intros ?; same_pieces].

Lemma execute_looper_same t input t' res : execute_looper t input = (t', res) -> same_local t t'.
Proof.
  unfold execute_looper. destruct (Command.decode input) as [[c n]|]; [|by intros [= <- _]].
  destruct (looper t), (Command.kind c); by intros [= <- _].
Qed.

Lemma accept_incoming_same t call : same_local t (accept_incoming t call).
Proof. by_same. Qed.

Lemma finish_incoming_same t call t' res : finish_incoming t call = (t', res) -> same_local t t'.
Proof. unfold finish_incoming. case_bool_decide; by intros [= <- _]. Qed.

Lemma cancel_incoming_same t call t' b : cancel_incoming t call = (t', b) -> same_local t t'.
Proof.
  unfold cancel_incoming. destruct (rposition _ _) as [i|]; [|by intros [= <- _]].
  destruct (incoming t !! i) as [[[]|[]|]|]; by intros [= <- _].
Qed.

(** A committed call is awaited, and every other call is remembered as before. *)
Lemma commit_submission_memory debug sync t Σ call t' Σ' :
  commit_submission debug sync t Σ call = Some (t', Σ') ->
  Thread.id t' = Thread.id t /\ (forall c, Some c <> call -> memory t' c = memory t c) /\
  forall c, call = Some c -> memory t c = absent -> memory t' c = awaiting c.
Proof.
  unfold commit_submission. destruct (_ && _); [done|]. destruct call as [c0|]; intros [= <- <-].
  - split; [done|]. split.
    + intros c Hc. same_pieces.
    + intros c [= ->] [= E1 E2]. unfold memory, awaiting. simpl. f_equal; stacks; rewrite ?E1, ?E2; done.
  - split; [done|]. split; [|done]. intros c _. same_pieces.
Qed.

Lemma finish_outgoing_memory t call t' res :
  finish_outgoing t call = (t', res) -> Thread.id t' = Thread.id t /\ forall c, c <> call -> memory t' c = memory t c.
Proof.
  unfold finish_outgoing. case_bool_decide as E; simpl; intros [= <- _]; [|done]. split; [done|].
  intros c Hc. apply last_outgoing_split in E. unfold memory. simpl. f_equal.
  - rewrite E at 2. stacks.
  - rewrite keep_filter. apply filter_absent. intros [Hw _]%keep_In.
    simpl in Hw. by apply bool_decide_eq_true in Hw.
Qed.

Lemma enqueue_dead_reply_memory t Σ call t' Σ' res :
  enqueue_dead_reply t Σ call = (t', Σ', res) ->
  Thread.id t' = Thread.id t /\ forall c, c <> call -> memory t' c = memory t c.
Proof.
  unfold enqueue_dead_reply. destruct (negb _); [by intros [= <- _ _]|].
  destruct (count_work _ _ =? 2)%nat eqn:En; simpl; [|by intros [= <- _ _]].
  intros [= <- _ _]. split; [done|]. intros c Hc. apply Nat.eqb_eq in En. rewrite <- positions_count in En.
  destruct (positions _ _ _) as [|p [|q [|]]] eqn:Ep; try done.
  apply positions_two in Ep as (l1 & l2 & l3 & E & _ & _ & ? & ? & ?).
  unfold memory. simpl. rewrite E, convert_exact by done. f_equal. stacks.
Qed.

(** The caller of an awaited call can be told that it died. *)
Lemma enqueue_dead_reply_awaiting t Σ c :
  memory t c = awaiting c -> exists t' Σ', enqueue_dead_reply t Σ c = (t', Σ', Ok tt).
Proof.
  intros [= E1 E2]. unfold enqueue_dead_reply. rewrite bool_decide_true by (by eapply keep_member).
  assert (count_work (ReservedTerminal c) (local_work t) = 2%nat) as ->; [|by eauto].
  unfold count_work. transitivity (length (filter (fun w => w = ReservedTerminal c) (keep (of_call c) (local_work t)))).
  - f_equal. unfold keep. rewrite list_filter_filter. apply list_filter_iff. intros w. split; [|by intros []].
    intros ->. split; [done|]. simpl. by apply bool_decide_true.
  - rewrite E2, !filter_cons, filter_nil. by rewrite !decide_True.
Qed.

Lemma enqueue_dead_replies_same t Σ calls t' Σ' res :
  Forall (fun c => forall s, c <> Thread.Local s) calls ->
  enqueue_dead_replies t Σ calls = (t', Σ', res) -> same_local t t'.
Proof.
  induction calls as [|c calls IH] in t, Σ |- *; simpl; [by intros _ [= <- _ _]|].
  intros [Hc Hcs]%Forall_cons. destruct (enqueue_dead_reply t Σ c) as [[t1 Σ1] r] eqn:E.
  apply enqueue_dead_reply_memory in E as [Hi E].
  assert (same_local t t1) by (split; [done|]; intros s; apply E; apply not_eq_sym, Hc).
  destruct r; [|by intros [= <- _ _]]. intros H'. eapply same_local_trans; [done|]. by eapply IH.
Qed.

Lemma fail_remote_authority_same t Σ t' Σ' res : fail_remote_authority t Σ = (t', Σ', res) -> same_local t t'.
Proof.
  apply enqueue_dead_replies_same. apply Forall_forall. intros c (e & _ & He)%list_elem_of_omap.
  destruct e as [| |[]]; by simplify_eq.
Qed.

(** Reading return work disturbs no call that is unknown or awaited. *)
Lemma read_local_work_memory debug t output t' output' n :
  read_local_work debug t output = Some (t', output', n) ->
  Thread.id t' = Thread.id t /\
  forall c, memory t c = absent \/ memory t c = awaiting c -> memory t' c = memory t c.
Proof.
  unfold read_local_work. destruct (_ || _); [by intros [= <- _ _]|].
  destruct (list_find _ _) as [[i w]|] eqn:E; [|by intros [= <- _ _]].
  apply list_find_split in E as (l1 & l2 & E & -> & Hv & Hl1). rewrite E, delete_middle'.
  assert (Hw : forall c, memory t c = absent \/ memory t c = awaiting c -> of_call c w = true -> w = ReservedTerminal c).
  { intros c Hc Ho. assert (w ∈ keep (of_call c) (local_work t)) as Hin.
    { apply keep_In. split; [done|]. rewrite E. apply elem_of_app. right. left. }
    destruct Hc as [[= _ E2]|[= _ E2]]; rewrite E2 in Hin; [by apply not_elem_of_nil in Hin|].
    apply elem_of_cons in Hin as [|Hin]; [done|]. apply elem_of_cons in Hin as [|Hin]; [done|].
    by apply not_elem_of_nil in Hin. }
  intros H. assert (Hmem : forall o, Thread.id t' = Thread.id t /\ local_work t' = l1 ++ l2 /\ outgoing t' = o ->
    (forall c, memory t c = absent \/ memory t c = awaiting c -> keep (call_entry c) o = keep (call_entry c) (outgoing t)) ->
    (forall c, memory t c = absent \/ memory t c = awaiting c -> of_call c w = false) ->
    Thread.id t' = Thread.id t /\
    forall c, memory t c = absent \/ memory t c = awaiting c -> memory t' c = memory t c).
  { intros o (Ei & Ew & Eo) Ho Hf. split; [done|]. intros c Hc. unfold memory. rewrite Ew, Eo, Ho, E by done.
    f_equal. rewrite !keep_app, keep_cons, Hf by done. done. }
  destruct w as [[c0|]|c0| | | |]; simpl in Hv, H; try done.
  - simplify_eq. apply (Hmem (outgoing t)); [done..|]. intros c Hc. destruct (of_call c _) eqn:Ec; [|done].
    by specialize (Hw c Hc Ec).
  - simplify_eq. by apply (Hmem (outgoing t)).
  - apply bool_decide_eq_true in Hv. pose proof (last_outgoing_split _ _ Hv) as Ho.
    destruct (_ && _); [done|]. simpl in H. simplify_eq. apply (Hmem (pop (outgoing t))); [done| |].
    + intros c Hc. rewrite Ho at 2. stacks. exfalso. specialize (Hw c Hc). simpl in Hw.
      rewrite bool_decide_true in Hw by done. by specialize (Hw eq_refl).
    + intros c Hc. destruct (of_call c _) eqn:Ec; [|done]. by specialize (Hw c Hc Ec).
  - destruct (_ && debug) eqn:Esd; simpl in H.
    + destruct synchronous; [|done]. simpl in Hv. apply bool_decide_eq_true in Hv. rewrite bool_decide_true in H by done.
      simpl in H. simplify_eq. apply (Hmem (pop (outgoing t))); [done| |done].
      intros c _. rewrite (last_split _ _ Hv) at 2. stacks.
    + simplify_eq. by apply (Hmem (outgoing t)).
Qed.

(** The operations for remote calls leave the local ones alone. *)
Lemma begin_remote_submission_same rsv t sync t' res :
  begin_remote_submission rsv t sync = (t', res) -> same_local t t'.
Proof.
  unfold begin_remote_submission. destruct (checked_add _ _ _); [|by intros [= <- _]].
  destruct (rsv [0%nat]); [|by intros [= <- _]].
  destruct sync; simpl; [destruct (rsv [1%nat]); [|by intros [= <- _]]|]; intros [= <- _]; by_same.
Qed.

Lemma commit_remote_submission_same t Σ token call t' Σ' res :
  commit_remote_submission t Σ token call = (t', Σ', res) -> same_local t t'.
Proof.
  unfold commit_remote_submission.
  destruct (positions _ _ _) as [|p [|q [|]]] eqn:Ep, call as [c|]; try by intros [= <- _ _].
  - apply positions_one in Ep as (l1 & l2 & E & -> & _). case_bool_decide; [by intros [= <- _ _]|].
    intros [= <- _ _]. split; [done|]. intros s. unfold memory. simpl. rewrite E, insert_middle. f_equal. stacks.
  - apply positions_two in Ep as (l1 & l2 & l3 & E & -> & -> & _).
    destruct (list_find _ _) as [[i x]|] eqn:Ef; [|by intros [= <- _ _]]. intros [= <- _ _].
    apply list_find_split in Ef as (o1 & o2 & Eo & -> & -> & _). split; [done|]. intros s. unfold memory. simpl.
    rewrite E, Eo, !insert_middle, insert_second. f_equal; stacks.
Qed.

Lemma memory_filter t (P : LocalWork -> Prop) `{forall w, Decision (P w)} s :
  (forall w, of_call (Thread.Local s) w = true -> P w) ->
  keep (of_call (Thread.Local s)) (filter P (local_work t)) = keep (of_call (Thread.Local s)) (local_work t).
Proof.
  intros HP. rewrite keep_filter. induction (local_work t) as [|w l IH]; [done|]. rewrite !keep_cons.
  destruct (of_call (Thread.Local s) w) eqn:E; [|done]. rewrite filter_cons_True by eauto. by rewrite IH.
Qed.

Lemma abort_remote_submission_same t token t' res : abort_remote_submission t token = (t', res) -> same_local t t'.
Proof.
  unfold abort_remote_submission. simpl. destruct (list_find _ _) as [[i x]|] eqn:Ef; intros H.
  - assert (t' = set_outgoing (set_work t (filter (fun w => w <> PendingRemote token) (local_work t)))
        (delete i (outgoing t))) as -> by (destruct (_ - _)%nat as [|[|[]]]; by simplify_eq).
    apply list_find_split in Ef as (o1 & o2 & Eo & -> & -> & _). split; [done|]. intros s. unfold memory. simpl.
    rewrite Eo, delete_middle', memory_filter by (by intros w Hw ->). f_equal. stacks.
  - assert (t' = set_work t (filter (fun w => w <> PendingRemote token) (local_work t))) as ->
      by (destruct (_ - _)%nat as [|[|[]]]; by simplify_eq).
    split; [done|]. intros s. unfold memory. simpl. by rewrite memory_filter by (by intros w Hw ->).
Qed.

Lemma reject_remote_submission_same t Σ token reason t' Σ' res :
  reject_remote_submission t Σ token reason = (t', Σ', res) -> same_local t t'.
Proof.
  unfold reject_remote_submission.
  destruct (positions _ _ _) as [|p [|q [|]]] eqn:Ep, (list_find (fun e => e = OPending token) (outgoing t)) as [[i x]|] eqn:Ef;
    intros [= <- _ _]; try done.
  - apply positions_one in Ep as (l1 & l2 & E & -> & _). split; [done|]. intros s. unfold memory. simpl.
    rewrite E, insert_middle. f_equal. stacks.
  - apply positions_two in Ep as (l1 & l2 & l3 & E & -> & -> & _).
    apply list_find_split in Ef as (o1 & o2 & Eo & -> & -> & _). split; [done|]. intros s. unfold memory. simpl.
    rewrite E, Eo, !insert_middle, delete_second. f_equal; stacks.
Qed.

Lemma begin_remote_reply_same rsv t t' res : begin_remote_reply rsv t = (t', res) -> same_local t t'.
Proof.
  unfold begin_remote_reply. destruct (last (incoming t)) as [[[]|[]|]|]; try by intros [= <- _].
  all: destruct (checked_add _ _ _); [|by intros [= <- _]].
  all: destruct (rsv _); intros [= <- _]; [by_same|done].
Qed.

Lemma commit_remote_reply_same t Σ s call t' Σ' res :
  commit_remote_reply t Σ s call = (t', Σ', res) -> same_local t t'.
Proof.
  unfold commit_remote_reply. destruct (negb _); [by intros [= <- _ _]|].
  destruct (list_find _ _) as [[i x]|] eqn:Ef; intros [= <- _ _]; [|done].
  apply list_find_split in Ef as (l1 & l2 & E & -> & -> & _). split; [done|]. intros c. unfold memory. simpl.
  rewrite E, insert_middle. f_equal. stacks.
Qed.

Lemma abort_remote_reply_same t s call t' res : abort_remote_reply t s call = (t', res) -> same_local t t'.
Proof.
  unfold abort_remote_reply. destruct (negb _); [by intros [= <- _]|].
  assert (H : same_local t (set_work t (filter (fun w => w <> PendingRemoteReply s) (local_work t)))).
  { split; [done|]. intros c. unfold memory. simpl. by rewrite memory_filter by (by intros w Hw ->). }
  destruct (negb _); intros [= <- _]; [done|]. eapply same_local_trans; [exact H|]. done.
Qed.

(** ** What keeps the call table *)

(** A connection that lost no thread, and queued no reply. *)
Definition no_new_reply (c c' : Connection) : Prop :=
  forall q' p, ctransactions c' = Some q' -> p ∈ TransactionQueue.pending q' ->
    TransactionQueue.hreply (TransactionQueue.header p) = true ->
    exists q p', ctransactions c = Some q /\ p' ∈ TransactionQueue.pending q /\
      TransactionQueue.header p' = TransactionQueue.header p /\
      TransactionQueue.rcall (TransactionQueue.route p') = TransactionQueue.rcall (TransactionQueue.route p).

Lemma no_new_reply_same c c' : ctransactions c' = ctransactions c -> no_new_reply c c'.
Proof. intros E q p Hq Hp Hr. rewrite E in Hq. eauto 6. Qed.

Lemma thread_at_update es lock id c c' :
  es !! id = Some c -> cthreads c' = cthreads c ->
  forall i tid, thread_at (<[id := c']> es) lock i tid = thread_at es lock i tid.
Proof.
  intros Hc E i tid. unfold thread_at. destruct (decide (i = id)) as [->|].
  - rewrite lookup_insert_eq, Hc. simpl. by rewrite E.
  - by rewrite lookup_insert_ne by done.
Qed.

Lemma calls_ok_update es lock t last id c c' :
  calls_ok es lock t last -> es !! id = Some c -> cthreads c' = cthreads c -> no_new_reply c c' ->
  calls_ok (<[id := c']> es) lock t last.
Proof.
  intros [H1 H2 H3 H4 H5 H6] Hc Ht Hr. pose proof (thread_at_update es lock id c c' Hc Ht) as Ha.
  assert (Hd : forall i, is_Some (<[id := c']> es !! i) -> is_Some (es !! i)).
  { intros i. destruct (decide (i = id)) as [->|]; [by rewrite Hc|]. by rewrite lookup_insert_ne. }
  split; try done.
  - eauto.
  - intros call route Hcall Hs. rewrite Ha. eauto.
  - intros i tid th s. rewrite Ha. eauto.
  - intros i c1 q p s Hi Hq Hp Hrep Hcall. destruct (decide (i = id)) as [->|].
    + rewrite lookup_insert_eq in Hi. simplify_eq.
      destruct (Hr q p Hq Hp Hrep) as (q0 & p0 & Hq0 & Hp0 & Eh & Er). eapply (H6 id c q0 p0); try done; congruence.
    + rewrite lookup_insert_ne in Hi by done. eauto.
Qed.

(** ** One connection changes *)

Lemma lookup_Ok R key c : lookup R key = Ok c -> entries R !! kid key = Some c.
Proof.
  unfold lookup, lookup_id. destruct (check R key); [|done]. simpl.
  destruct (entries R !! kid key); [by intros [= ->]|done].
Qed.

(** The sessions but those of connection [id]. *)
Definition others (R : Registry) (id : ConnectionId) : list Session := sessions (delete id (entries R)).

Lemma system_focus debug σ R lock hs id c :
  system_ok debug σ R lock hs -> entries R !! id = Some c ->
  world_fine σ (option_list (csession c) ++ others R id) (context_holds (context R) ++ hs).
Proof. intros H Hc. pose proof (system_world _ _ _ _ _ H) as Hw. by rewrite (sessions_lookup _ _ _ Hc) in Hw. Qed.

Lemma system_update debug σ R lock hs id c c' σ' hs' :
  system_ok debug σ R lock hs -> entries R !! id = Some c ->
  world_fine σ' (option_list (csession c') ++ others R id) (context_holds (context R) ++ hs') ->
  connection_ok c' -> cthreads c' = cthreads c -> no_new_reply c c' ->
  system_ok debug σ' (set_entry R id c') lock hs'.
Proof.
  intros [_ Hcs Ht Hcalls] Hc Hw Hc' Et Hr. split; simpl.
  - by rewrite sessions_insert.
  - by apply map_Forall_insert_2.
  - intros i tid t. rewrite (thread_at_update _ _ _ _ _ Hc Et). apply Ht.
  - by eapply calls_ok_update.
Qed.

Lemma system_connection debug σ R lock hs id c :
  system_ok debug σ R lock hs -> entries R !! id = Some c -> connection_ok c.
Proof. intros H Hc. exact (system_connections _ _ _ _ _ H id c Hc). Qed.

(** An operation on the session only. *)
Definition session_only (c c' : Connection) : Prop :=
  cthreads c' = cthreads c /\ ctransactions c' = ctransactions c /\ cdeath c' = cdeath c.

Lemma session_only_ok c c' : connection_ok c -> session_only c c' -> connection_ok c'.
Proof. intros [H1 H2] (E1 & E2 & E3). split; rewrite ?E2, ?E3; done. Qed.

Lemma system_session debug σ R lock hs id c c' σ' hs' :
  system_ok debug σ R lock hs -> entries R !! id = Some c -> session_only c c' ->
  world_fine σ' (option_list (csession c') ++ others R id) (context_holds (context R) ++ hs') ->
  system_ok debug σ' (set_entry R id c') lock hs'.
Proof.
  intros H Hc Hs Hw. pose proof Hs as (E1 & E2 & _). eapply system_update; try done.
  - eapply session_only_ok; [|done]. by eapply system_connection.
  - by apply no_new_reply_same.
Qed.

Lemma set_entry_id R id c : entries R !! id = Some c -> set_entry R id c = R.
Proof. intros H. destruct R. unfold set_entry, set_entries. simpl in *. by rewrite insert_id. Qed.

(** Signals may change at any time. *)
Lemma system_signals debug σ R lock hs Σ :
  system_ok debug σ R lock hs -> system_ok debug (set_signals σ Σ) R lock hs.
Proof. intros [Hw ???]. split; try done. by apply world_signals. Qed.

(** [in_session] of an operation that keeps every world. *)
Lemma in_session_world {A} (out : result A Connection.Error -> list LocalHold) σ c op ss hs :
  (forall e, out (Err e) = []) ->
  world_fine σ (option_list (csession c) ++ ss) hs ->
  (forall s, csession c = Some s -> world_fine σ (s :: ss) hs ->
     let '(σ', s', res) := op s in world_fine σ' (s' :: ss) (out res ++ hs)) ->
  let '(σ', c', res) := in_session σ c op in
  session_only c c' /\ world_fine σ' (option_list (csession c') ++ ss) (out res ++ hs).
Proof.
  intros Hout Hw Hop. unfold in_session. destruct (csession c) as [s|] eqn:Es.
  - specialize (Hop s eq_refl Hw). destruct (op s) as [[σ' s'] res]. done.
  - rewrite Hout, Es. done.
Qed.

Lemma at_key_ok {A} debug (out : result A Registry.Error -> list LocalHold) σ R lock hs key k σ' R' res :
  (forall e, out (Err e) = []) -> system_ok debug σ R lock hs ->
  (forall c, entries R !! kid key = Some c ->
     world_fine σ (option_list (csession c) ++ others R (kid key)) (context_holds (context R) ++ hs) ->
     let '(σ', c', res) := k c in session_only c c' /\
     world_fine σ' (option_list (csession c') ++ others R (kid key))
       (out (map_err GConnection res) ++ context_holds (context R) ++ hs)) ->
  at_key σ R key k = (σ', R', res) -> system_ok debug σ' R' lock (out res ++ hs).
Proof.
  intros Hout H Hk. unfold at_key. destruct (lookup R key) as [c|e] eqn:El.
  - apply lookup_Ok in El. specialize (Hk c El (system_focus _ _ _ _ _ _ _ H El)).
    destruct (k c) as [[σ1 c1] r1]. destruct Hk as [Hs Hw]. intros [= <- <- <-].
    eapply system_session; try done.
    by rewrite app_assoc, (Permutation_app_comm (context_holds _)), <- app_assoc.
  - intros [= <- <- <-]. by rewrite Hout.
Qed.

Definition no_holds {A E} (_ : result A E) : list LocalHold := [].

(** An operation of the session that hands out no holds. *)
Lemma run_world σ s ss hs op σ' s' :
  world_fine σ (s :: ss) hs -> op_ok σ op -> Session.run σ s op = Some (σ', s', []) -> world_fine σ' (s' :: ss) hs.
Proof.
  intros Hw Ho E. destruct (world_run _ _ _ _ op Hw Ho) as (? & ? & ? & E' & ?). rewrite E in E'. by simplify_eq.
Qed.

(** ** Operations of one session *)

Section session_operations.
Context (debug : bool) (σ : Store) (R : Registry) (lock : option (ConnectionId * Thread)) (hs : list LocalHold).
Hypothesis Hok : system_ok debug σ R lock hs.

(** The node of the context manager exists. *)
Lemma manager_node m : manager (context R) = Some m -> is_Some (nodes σ !! hnode (cstrong (mreferences m))).
Proof.
  intros Hm. pose proof (system_world _ _ _ _ _ Hok) as Hw. unfold context_holds in Hw. rewrite Hm in Hw.
  by apply world_hold_exists in Hw.
Qed.

Lemma session_command (op : Session -> Store * Session * result Session.Outcome Session.Error)
    (o : Session.Op) key σ' R' res :
  op_ok σ o ->
  (forall s, let '(σ1, s1, _) := op s in Session.run σ s o = Some (σ1, s1, [])) ->
  at_key σ R key (fun c => in_session σ c (fun s =>
    let '(σ, s, res) := op s in (σ, s, map_err CCommand res))) = (σ', R', res) ->
  system_ok debug σ' R' lock hs.
Proof.
  intros Ho Hrun. apply (at_key_ok debug no_holds _ _ _ hs); [done..|]. intros c _ Hw.
  apply (in_session_world no_holds); [done..|]. intros s _ Hs. specialize (Hrun s).
  destruct (op s) as [[σ1 s1] r1]. by eapply run_world.
Qed.

Lemma context_command key input manager σ' R' res :
  (forall node, manager = Some node -> is_Some (nodes σ !! node)) ->
  at_key σ R key (fun c => connection_context_reference σ c input manager) = (σ', R', res) ->
  system_ok debug σ' R' lock hs.
Proof.
  intros Hm. unfold connection_context_reference. apply (at_key_ok debug no_holds _ _ _ hs); [done..|].
  intros c _ Hw. apply (in_session_world no_holds); [done..|]. intros s _ Hs.
  destruct (execute_context_reference σ s input manager) as [[σ1 s1] r1] eqn:E.
  apply (run_world _ _ _ _ (OpContextReference input manager) _ _ Hs); [by destruct manager; [apply Hm|]|].
  simpl. by rewrite E.
Qed.

Lemma registry_execute_ok key input σ' R' res :
  registry_execute σ R key input = (σ', R', res) -> system_ok debug σ' R' lock hs.
Proof.
  unfold registry_execute, registry_context_reference.
  destruct (Command.decode input) as [[c n]|]; [|by intros [= <- <- _]].
  destruct (_ && _).
  - destruct (lookup R key); [|by intros [= <- <- _]].
    destruct (negb _); [by apply context_command|].
    destruct (manager (context R)) as [m|] eqn:Em; [|by apply context_command].
    destruct (_ =? _); [by intros [= <- <- _]|]. apply context_command. intros node [= <-].
    by apply manager_node.
  - apply (session_command (fun s => Session.execute σ s input) (OpExecute input)); [done|].
    intros s. simpl. by destruct (Session.execute σ s input) as [[??]?].
Qed.

Lemma registry_read_node_work_ok key output σ' output' res :
  registry_read_node_work σ R key output = (σ', output', res) -> system_ok debug σ' R lock hs.
Proof.
  unfold registry_read_node_work. destruct (lookup R key) as [c|] eqn:El; [|by intros [= <- _ _]].
  apply lookup_Ok in El. unfold connection_read_node_work. destruct (csession c) as [s|] eqn:Es; [|by intros [= <- _ _]].
  destruct (read_node_work σ s output) as [[σ1 o1] r1] eqn:E. intros [= <- _ _].
  rewrite <- (set_entry_id R (kid key) c El). eapply system_session; [done..|]. pose proof (system_focus _ _ _ _ _ _ _ Hok El) as Hw.
  rewrite Es in *. apply (run_world _ _ _ _ (OpReadWork output) _ _ Hw); [done|]. simpl. by rewrite E.
Qed.

Lemma install_remote_reference_ok key node st cm σ' R' res :
  registry_install_remote_reference σ R key node st cm = (σ', R', res) -> system_ok debug σ' R' lock hs.
Proof.
  unfold registry_install_remote_reference, install_remote_reference.
  apply (at_key_ok debug no_holds _ _ _ hs); [done..|]. intros c _ Hw.
  apply (in_session_world no_holds); [done..|]. intros s _ Hs. destruct cm.
  - destruct (retain_remote_context_manager σ s node st) as [[σ1 s1] r1] eqn:E.
    apply (run_world _ _ _ _ (OpRetainManager node st) _ _ Hs); [done|]. simpl. by rewrite E.
  - destruct (retain_remote σ s node st) as [[σ1 s1] r1] eqn:E.
    apply (run_world _ _ _ _ (OpRetainRemote node st) _ _ Hs); [done|]. simpl. by rewrite E.
Qed.

(** The hold a caller gets. *)
Definition granted {E} (res : result LocalHold E) : list LocalHold :=
  match res with Ok h => [h] | Err _ => [] end.

Lemma hold_local_node_ok key local k σ' R' res :
  registry_hold_local_node σ R key local k = (σ', R', res) -> system_ok debug σ' R' lock (granted res ++ hs).
Proof.
  unfold registry_hold_local_node, hold_local_node. apply (at_key_ok debug granted); [done..|]. intros c _ Hw.
  assert (Hg : forall A B (r : result LocalHold A) (f : A -> B), granted (map_err f r) = granted r) by (by intros ?? []).
  match goal with |- context [in_session σ c ?op] =>
    pose proof (in_session_world granted σ c op _ _ ltac:(done) Hw) as Hin;
    destruct (in_session σ c op) as [[σ1 c1] r1] end.
  rewrite Hg. apply Hin. intros s _ Hs. destruct (lookup_local_node s local) as [r|] eqn:El; [|done].
  destruct (hold σ r k) as [σ2 [h|e]] eqn:Eh; [|by rewrite (hold_Err _ _ _ _ _ Eh)].
  pose proof (world_owners _ Hs) as [Ht _]%Forall_cons.
  assert (is_Some (nodes σ !! r)) as [n Hn].
  { revert El. unfold lookup_local_node, lookup_local. destruct (_ =? 0); [done|].
    destruct (nodes_by_local _ !! local) as [r'|] eqn:En; [|done]. intros [= ->].
    apply (table_local _ _ Ht) in En as (n & Hn & _). by exists n. }
  eapply world_steps; [exact Hs|]. simpl. by eapply steps_hold.
Qed.
End session_operations.

(** ** Operations that leave the sessions alone *)

Lemma system_quiet debug σ R lock hs id c c' Σ :
  system_ok debug σ R lock hs -> entries R !! id = Some c ->
  csession c' = csession c -> cthreads c' = cthreads c -> connection_ok c' -> no_new_reply c c' ->
  system_ok debug (set_signals σ Σ) (set_entry R id c') lock hs.
Proof.
  intros H Hc Es Et Hc' Hr. eapply system_update; try done. rewrite Es.
  apply world_signals. by eapply system_focus.
Qed.

Lemma set_signals_id σ : set_signals σ (signals σ) = σ.
Proof. by destruct σ. Qed.

Lemma system_silent debug σ R lock hs id c c' :
  system_ok debug σ R lock hs -> entries R !! id = Some c ->
  csession c' = csession c -> cthreads c' = cthreads c -> connection_ok c' -> no_new_reply c c' ->
  system_ok debug σ (set_entry R id c') lock hs.
Proof. intros. rewrite <- (set_signals_id σ). by eapply system_quiet. Qed.

(** The death queue alone. *)
Lemma death_ok c d : connection_ok c -> DeathWork.queue_ok d -> connection_ok (set_cdeath c d).
Proof. by intros [H1 H2] Hd. Qed.

Lemma enqueue_dead_ok rsv q cookie q' res :
  DeathWork.queue_ok q -> DeathWork.enqueue_dead rsv q cookie = (q', res) -> DeathWork.queue_ok q'.
Proof.
  intros Hq E. destruct res as [[]|e].
  - apply enqueue_dead_Ok in E as (? & ? & ->). apply queue_ok_push; [done|]. by intros ? [= <-].
  - revert E. unfold DeathWork.enqueue_dead. destruct (_ || _); [by intros [= <- _]|].
    destruct (negb _); [by intros [= <- _]|]. destruct (negb _); by intros [= <- _].
Qed.

Lemma enqueue_clear_ok rsv q cookie q' res :
  DeathWork.queue_ok q -> DeathWork.enqueue_clear_done rsv q cookie = (q', res) -> DeathWork.queue_ok q'.
Proof.
  intros Hq. unfold DeathWork.enqueue_clear_done. destruct (negb _); intros [= <- _]; [done|]. by apply queue_ok_push.
Qed.

Lemma acknowledge_dead_ok q cookie q' res :
  DeathWork.queue_ok q -> DeathWork.acknowledge_dead q cookie = (q', res) -> DeathWork.queue_ok q'.
Proof.
  intros [H1 H2] [= <- _]. split; simpl; [|done]. intros c Hc. specialize (H1 _ Hc). set_solver.
Qed.

Lemma death_read_ok debug q output :
  DeathWork.queue_ok q ->
  exists q' output' n, DeathWork.read debug q output = Some (q', output', n) /\ DeathWork.queue_ok q'.
Proof.
  intros Hq. destruct (Z.ltb_spec (len output) 12) as [Hl|Hl].
  - exists q, output, 0. split; [|done]. unfold DeathWork.read. by rewrite (proj2 (Z.ltb_lt _ _)).
  - destruct (DeathWork.pending q) as [|w rest] eqn:Ep.
    + exists q, output, 0. split; [|done]. unfold DeathWork.read. rewrite Ep. by rewrite (proj2 (Z.ltb_ge _ _)).
    + rewrite (read_head debug q output w rest) by done. eexists _, _, _. split; [done|]. by apply queue_ok_pop.
Qed.

Section quiet_operations.
Context (debug : bool) (σ : Store) (R : Registry) (lock : option (ConnectionId * Thread)) (hs : list LocalHold).
Hypothesis Hok : system_ok debug σ R lock hs.

Lemma at_key_quiet {A} key (k : Connection -> Store * Connection * result A Connection.Error) σ' R' res :
  (forall c, entries R !! kid key = Some c -> connection_ok c ->
     exists Σ c' r, k c = (set_signals σ Σ, c', r) /\ csession c' = csession c /\ cthreads c' = cthreads c /\
       connection_ok c' /\ no_new_reply c c') ->
  at_key σ R key k = (σ', R', res) -> system_ok debug σ' R' lock hs.
Proof.
  intros Hk. unfold at_key. destruct (lookup R key) as [c|] eqn:El; [|by intros [= <- <- _]].
  apply lookup_Ok in El. destruct (Hk c El) as (Σ & c' & r & -> & ? & ? & ? & ?); [by eapply system_connection|].
  intros [= <- <- _]. by eapply system_quiet.
Qed.

Lemma registry_enqueue_dead_binder_ok rsv key cookie σ' R' res :
  registry_enqueue_dead_binder rsv σ R key cookie = (σ', R', res) -> system_ok debug σ' R' lock hs.
Proof.
  apply at_key_quiet. intros c _ Hc. unfold enqueue_dead_binder.
  destruct (DeathWork.enqueue_dead _ _ _) as [d r] eqn:E. apply enqueue_dead_ok in E; [|by apply Hc].
  destruct r; [eexists _, _, _|eexists (signals σ), _, _; rewrite set_signals_id]; (split_and!; [done..|by apply death_ok|by apply no_new_reply_same]).
Qed.

Lemma registry_enqueue_clear_death_done_ok rsv key cookie σ' R' res :
  registry_enqueue_clear_death_done rsv σ R key cookie = (σ', R', res) -> system_ok debug σ' R' lock hs.
Proof.
  apply at_key_quiet. intros c _ Hc. unfold enqueue_clear_death_done.
  destruct (DeathWork.enqueue_clear_done _ _ _) as [d r] eqn:E. apply enqueue_clear_ok in E; [|by apply Hc].
  destruct r; [eexists _, _, _|eexists (signals σ), _, _; rewrite set_signals_id]; (split_and!; [done..|by apply death_ok|by apply no_new_reply_same]).
Qed.

Lemma registry_acknowledge_dead_binder_ok key cookie σ' R' res :
  registry_acknowledge_dead_binder σ R key cookie = (σ', R', res) -> system_ok debug σ' R' lock hs.
Proof.
  apply at_key_quiet. intros c _ Hc. unfold acknowledge_dead_binder.
  destruct (DeathWork.acknowledge_dead _ _) as [d r] eqn:E. apply acknowledge_dead_ok in E; [|by apply Hc].
  eexists (signals σ), _, _. rewrite set_signals_id. split_and!; [done..|by apply death_ok|by apply no_new_reply_same].
Qed.

Lemma registry_set_max_threads_ok key maximum σ' R' res :
  registry_set_max_threads σ R key maximum = (σ', R', res) -> system_ok debug σ' R' lock hs.
Proof.
  apply at_key_quiet. intros c _ [H1 H2]. eexists (signals σ), _, _. rewrite set_signals_id.
  split_and!; [done..|by apply no_new_reply_same].
Qed.

Lemma registry_read_death_work_ok key output :
  exists R' output' res, registry_read_death_work debug R key output = Some (R', output', res) /\
    system_ok debug σ R' lock hs.
Proof.
  unfold registry_read_death_work. destruct (lookup R key) as [c|] eqn:El; [|by eauto 6].
  apply lookup_Ok in El. pose proof (system_connection _ _ _ _ _ _ _ Hok El) as Hc. unfold read_death_work.
  destruct (death_read_ok debug (cdeath c) output) as (d & o & n & -> & Hd); [by apply Hc|]. simpl.
  eexists _, _, _. split; [done|]. eapply system_silent; [done..|by apply death_ok|by apply no_new_reply_same].
Qed.

Lemma registry_read_spawn_request_ok key t output R' output' res :
  registry_read_spawn_request R key t output = (R', output', res) -> system_ok debug σ R' lock hs.
Proof.
  unfold registry_read_spawn_request. destruct (lookup R key) as [c|] eqn:El; [|by intros [= <- _ _]].
  apply lookup_Ok in El. pose proof (system_connection _ _ _ _ _ _ _ Hok El) as [H1 H2]. unfold read_spawn_request.
  destruct (_ || _); [intros [= <- _ _]; by rewrite set_entry_id|].
  destruct (reserve_spawn _) as [p []]; intros [= <- _ _];
    (eapply system_silent; [done..|by split|by apply no_new_reply_same]).
Qed.

(** A fresh mapping lies in the address space. *)
Lemma registry_install_receive_mapping_ok mapped key capacity σ' R' res :
  (forall address, mapped = Ok address -> 0 <= address /\ address + capacity <= usize_max) -> 0 <= capacity ->
  registry_install_receive_mapping mapped σ R key capacity = (σ', R', res) -> system_ok debug σ' R' lock hs.
Proof.
  intros Hm Hcap. apply at_key_quiet. intros c _ Hc. unfold install_receive_mapping.
  assert (Hsame : forall A (r : result A Connection.Error), exists Σ c' r', (σ, c, r) = (set_signals σ Σ, c', r') /\
    csession c' = csession c /\ cthreads c' = cthreads c /\ connection_ok c' /\ no_new_reply c c').
  { intros A r. exists (signals σ), c, r. rewrite set_signals_id. split_and!; [done..|by apply no_new_reply_same]. }
  destruct (ensure_open c); [|done]. destruct (TransactionQueue.new mapped capacity) as [q|] eqn:Eq; [|done].
  destruct (ctransactions c); [done|].
  eexists (signals σ), _, _. rewrite set_signals_id. split_and!; try done.
  - split; [|by apply Hc]. simpl. intros q' [= <-]. eexists. split; [|by eapply new_trace_ok]. done.
  - intros q' p [= <-] Hp. exfalso. revert Eq Hp. unfold TransactionQueue.new.
    destruct (ReceiveArena.new _ _); [|done]. intros [= <-] Hp. by apply not_elem_of_nil in Hp.
Qed.
End quiet_operations.

(** ** Threads *)

(** [t'] still waits for the registered calls of [t], and knows no number that [t] did not. *)
Definition keeps (calls : CallTable) (t t' : Thread) : Prop :=
  Thread.id t' = Thread.id t /\
  forall s, (call_next calls < s -> memory t (Thread.Local s) = absent -> memory t' (Thread.Local s) = absent) /\
    (is_Some (call_routes calls !! Thread.Local s) -> memory t (Thread.Local s) = awaiting (Thread.Local s) ->
     memory t' (Thread.Local s) = awaiting (Thread.Local s)).

Lemma same_local_keeps calls t t' : same_local t t' -> keeps calls t t'.
Proof. intros [E H]. split; [done|]. intros s. by rewrite H. Qed.

Lemma keeps_trans calls t1 t2 t3 : keeps calls t1 t2 -> keeps calls t2 t3 -> keeps calls t1 t3.
Proof. intros [E H] [E' H']. split; [congruence|]. intros s. destruct (H s), (H' s). split; eauto. Qed.

(** The thread of every connection may be replaced by one that keeps its calls. *)
Lemma calls_ok_threads es lock es' lock' t last :
  calls_ok es lock t last ->
  (forall id c', es' !! id = Some c' -> exists c, es !! id = Some c /\ ctransactions c' = ctransactions c) ->
  (forall id, is_Some (es !! id) -> is_Some (es' !! id)) ->
  (forall id tid th', thread_at es' lock' id tid = Some th' ->
     (exists th, thread_at es lock id tid = Some th /\ keeps t th th') \/ forall s, memory th' (Thread.Local s) = absent) ->
  (forall id tid th, thread_at es lock id tid = Some th ->
     exists th', thread_at es' lock' id tid = Some th' /\ keeps t th th') ->
  calls_ok es' lock' t last.
Proof.
  intros [H1 H2 H3 H4 H5 H6] He He' Hback Hfwd. split; try done.
  - intros id [c' Hc']. destruct (He id c' Hc') as (c & Hc & _). eauto.
  - intros call route Hr [c' Hc']. destruct (He _ _ Hc') as (c & Hc & _).
    destruct (H4 _ _ Hr (ex_intro _ c Hc)) as (th & Ht & Hm). destruct (Hfwd _ _ _ Ht) as (th' & Ht' & _ & Hk).
    exists th'. split; [done|]. destruct (H1 _ _ Hr) as [(s & -> & _) _]. apply Hk; eauto.
  - intros id tid th' s Ht' Hs. destruct (Hback _ _ _ Ht') as [(th & Ht & _ & Hk)|Hk]; [|done].
    apply Hk; eauto.
  - intros id c' q p s Hc' Hq. destruct (He id c' Hc') as (c & Hc & E). rewrite E in Hq. eauto.
Qed.

Lemma keeps_refl calls t : keeps calls t t.
Proof. by apply same_local_keeps. Qed.

(** The locked thread changes. *)
Lemma system_step debug σ R id t t' hs :
  system_ok debug σ R (Some (id, t)) hs -> (thread_ok debug t -> thread_ok debug t') -> keeps (calls R) t t' ->
  system_ok debug σ R (Some (id, t')) hs.
Proof.
  intros [Hw Hc Ht Hcalls] Ht' Hk. pose proof Hk as [Ei _].
  assert (Ha : forall i tid th', thread_at (entries R) (Some (id, t')) i tid = Some th' ->
    exists th, thread_at (entries R) (Some (id, t)) i tid = Some th /\ keeps (calls R) th th' /\
      (thread_ok debug th -> thread_ok debug th')).
  { intros i tid th'. unfold thread_at. destruct (entries R !! i) as [c|]; [|done]. simpl. rewrite Ei.
    case_bool_decide; intros; simplify_eq; eauto using keeps_refl. }
  split; try done.
  - intros i tid th' Hth'. destruct (Ha _ _ _ Hth') as (th & Hth & [E _] & Hf). destruct (Ht _ _ _ Hth) as (? & ? & ?).
    unfold thread_fine. split_and!; [congruence|done|auto].
  - eapply (calls_ok_threads _ _ _ _ _ _ Hcalls); [by eauto|done| |].
    + intros i tid th' Hth'. destruct (Ha _ _ _ Hth') as (th & Hth & ? & _). eauto.
    + intros i tid th. unfold thread_at. destruct (entries R !! i) as [c|]; [|done]. simpl. rewrite Ei.
      case_bool_decide; intros; simplify_eq; eauto using keeps_refl.
Qed.

Lemma system_thread debug σ R id t t' hs :
  system_ok debug σ R (Some (id, t)) hs -> thread_ok debug t' -> keeps (calls R) t t' ->
  system_ok debug σ R (Some (id, t')) hs.
Proof. intros. by eapply system_step. Qed.

(** The threads of one connection change, none of them locked. *)
Lemma system_cthreads debug σ R hs id c ts :
  system_ok debug σ R None hs -> entries R !! id = Some c ->
  (forall tid t', ts !! tid = Some t' -> thread_fine debug tid t' /\
     match cthreads c !! tid with Some t => keeps (calls R) t t' | None => forall s, memory t' (Thread.Local s) = absent end) ->
  (forall tid, is_Some (cthreads c !! tid) -> is_Some (ts !! tid)) ->
  system_ok debug σ (set_entry R id (set_cthreads c ts)) None hs.
Proof.
  intros [Hw Hc Ht Hcalls] Hid Hts Hdom. split; simpl.
  - by rewrite (sessions_same _ _ c).
  - apply map_Forall_insert_2; [|done]. specialize (Hc _ _ Hid) as [? ?]. by split.
  - intros i tid t. unfold thread_at. destruct (decide (i = id)) as [->|]; [|rewrite lookup_insert_ne by done; apply (Ht i)].
    rewrite lookup_insert_eq. simpl. intros Hx. by apply Hts.
  - eapply (calls_ok_threads _ _ _ _ _ _ Hcalls).
    + intros i c'. destruct (decide (i = id)) as [->|]; [|rewrite lookup_insert_ne by done; eauto].
      rewrite lookup_insert_eq. intros [= <-]. eauto.
    + intros i. destruct (decide (i = id)) as [->|]; [rewrite lookup_insert_eq; eauto|by rewrite lookup_insert_ne].
    + intros i tid t'. unfold thread_at. destruct (decide (i = id)) as [->|].
      * rewrite lookup_insert_eq, Hid. simpl. intros Hx. destruct (Hts _ _ Hx) as [_ Hm].
        destruct (cthreads c !! tid); eauto.
      * rewrite lookup_insert_ne by done. eauto using keeps_refl.
    + intros i tid t. unfold thread_at. destruct (decide (i = id)) as [->|].
      * rewrite lookup_insert_eq, Hid. simpl. intros Hx. destruct (Hdom tid) as [t' Hx']; [by eauto|].
        exists t'. split; [done|]. destruct (Hts _ _ Hx') as [_ Hm]. by rewrite Hx in Hm.
      * rewrite lookup_insert_ne by done. eauto using keeps_refl.
Qed.

(** Locking a thread, and storing it back. *)
Lemma system_lock debug σ R hs id c tid t :
  system_ok debug σ R None hs -> entries R !! id = Some c -> cthreads c !! tid = Some t ->
  system_ok debug σ R (Some (id, t)) hs.
Proof.
  intros [Hw Hc Ht Hcalls] Hid Htid.
  assert (Htt : thread_fine debug tid t) by (apply (Ht id); unfold thread_at; by rewrite Hid). destruct Htt as (Ei & _).
  assert (Ha : forall i j, thread_at (entries R) (Some (id, t)) i j = thread_at (entries R) None i j).
  { intros i j. unfold thread_at. destruct (entries R !! i) as [c'|] eqn:Ei'; [|done]. simpl.
    case_bool_decide as E; [|done]. destruct E as [-> <-]. by simplify_eq. }
  split; try done.
  - intros i j th. rewrite Ha. apply Ht.
  - destruct Hcalls as [H1 H2 H3 H4 H5 H6]. split; try done.
    + intros call route. rewrite Ha. eauto.
    + intros i j th s. rewrite Ha. eauto.
Qed.

Lemma system_unlock debug σ R hs id c t :
  system_ok debug σ R (Some (id, t)) hs -> entries R !! id = Some c ->
  system_ok debug σ (set_entry R id (set_cthreads c (<[Thread.id t := t]> (cthreads c)))) None hs.
Proof.
  intros [Hw Hc Ht Hcalls] Hid.
  assert (Ha : forall i j, thread_at (<[id := set_cthreads c (<[Thread.id t := t]> (cthreads c))]> (entries R)) None i j =
    thread_at (entries R) (Some (id, t)) i j).
  { intros i j. unfold thread_at. destruct (decide (i = id)) as [->|].
    - rewrite lookup_insert_eq, Hid. simpl. case_bool_decide as E.
      + destruct E as [_ <-]. by rewrite lookup_insert_eq.
      + rewrite lookup_insert_ne; [done|]. intros Hj. by apply E.
    - rewrite lookup_insert_ne by done. destruct (entries R !! i); [|done]. simpl. by rewrite bool_decide_false by naive_solver. }
  split; simpl.
  - by rewrite (sessions_same _ _ c).
  - apply map_Forall_insert_2; [|done]. specialize (Hc _ _ Hid) as [? ?]. by split.
  - intros i j th. rewrite Ha. apply Ht.
  - destruct Hcalls as [H1 H2 H3 H4 H5 H6].
    assert (Hd : forall i, is_Some (<[id := set_cthreads c (<[Thread.id t := t]> (cthreads c))]> (entries R) !! i) -> is_Some (entries R !! i)).
    { intros i. destruct (decide (i = id)) as [->|]; [by rewrite Hid|]. by rewrite lookup_insert_ne. }
    split; try done.
    + eauto.
    + intros call route Hr Hs. rewrite Ha. eauto.
    + intros i j th s. rewrite Ha. eauto.
    + intros i c' q p s Hi. destruct (decide (i = id)) as [->|].
      * rewrite lookup_insert_eq in Hi. simplify_eq. simpl. eauto.
      * rewrite lookup_insert_ne in Hi by done. eauto.
Qed.
