(* ===== verification/DeviceOperations.v ===== *)
(** * The operations of a device keep its invariant

    Each operation of the registry that runs in a state with the invariant of [DeviceInvariant]
    returns, and leaves a state with the invariant. *)
From S2P Require Import Prelude RoutingAuthority TransactionQueue DeathWork TransactionWire ScatterGather.
From S2P Require Import Command AuthorityProtocol Objects TransactionLayout TransactionSnapshot TransactionRequest.
From S2P Require Import NodeWork WorkSignal NodeOwner ReferenceTable Session Thread.
From S2P Require Import ReceiveArena TransferImage PreparedTransaction World Connection Registry WriteRead Ioctl Device.
From S2P Require Import DeviceInvariant.


(** Each thread of [ts] is that of [orig], or follows it by [P]. *)
Definition evolved (P : Thread -> Thread -> Prop) (orig ts : gmap Z Thread) : Prop :=
  forall tid, match orig !! tid, ts !! tid with
              | Some t, Some t' => t' = t \/ P t t'
              | None, None => True
              | _, _ => False
              end.

Lemma evolved_refl P orig : evolved P orig orig.
Proof. intros tid. destruct (orig !! tid); auto. Qed.

Lemma evolved_insert P orig ts tid t t' :
  evolved P orig ts -> orig !! tid = Some t -> P t t' -> evolved P orig (<[tid := t']> ts).
Proof.
  intros H Ht HP i. destruct (decide (i = tid)) as [->|].
  - rewrite Ht, lookup_insert_eq. auto.
  - rewrite lookup_insert_ne by done. apply H.
Qed.

(** A step of a thread that disturbs no local call. *)
Definition local_step (debug : bool) (t t' : Thread) : Prop :=
  (thread_ok debug t -> thread_ok debug t') /\ same_local t t'.

Lemma system_evolved debug σ R hs id c ts :
  system_ok debug σ R None hs -> entries R !! id = Some c -> evolved (local_step debug) (cthreads c) ts ->
  system_ok debug σ (set_entry R id (set_cthreads c ts)) None hs.
Proof.
  intros H Hc He. eapply system_cthreads; try done.
  - intros tid t' Ht'. specialize (He tid). rewrite Ht' in He. destruct (cthreads c !! tid) as [t|] eqn:Et; [|done].
    assert (thread_fine debug tid t) as (E1 & E2 & E3).
    { apply (system_threads _ _ _ _ _ H id). unfold thread_at. by rewrite Hc. }
    destruct He as [-> | [Hf Hs]]; [split; [done|apply keeps_refl]|].
    split; [|by apply same_local_keeps]. destruct Hs as [E _]. unfold thread_fine. split_and!; [congruence|done|auto].
  - intros tid [t Ht]. specialize (He tid). rewrite Ht in He. destruct (ts !! tid); [eauto|done].
Qed.

Lemma iter_lookup `{!Iteration Z Thread} (ts : gmap Z Thread) tid t : (tid, t) ∈ iter ts -> ts !! tid = Some t.
Proof. rewrite iter_perm. apply elem_of_map_to_list. Qed.

Lemma fail_threads_evolved debug orig order : forall σ ts σ' ts' res,
  (forall tid t, (tid, t) ∈ order -> orig !! tid = Some t) -> evolved (local_step debug) orig ts ->
  fail_threads σ ts order = (σ', ts', res) ->
  evolved (local_step debug) orig ts' /\ exists Σ, σ' = set_signals σ Σ.
Proof.
  induction order as [|[tid t] order IH]; intros σ ts σ' ts' res Ho He; simpl.
  { intros [= <- <- _]. split; [done|]. exists (signals σ). by rewrite set_signals_id. }
  destruct (fail_remote_authority t (signals σ)) as [[t1 Σ] r] eqn:E.
  assert (Hs : local_step debug t t1).
  { split; [intros; by eapply enqueue_dead_replies_ok|by eapply fail_remote_authority_same]. }
  assert (evolved (local_step debug) orig (<[tid := t1]> ts)).
  { eapply evolved_insert; [done| |done]. apply Ho. left. }
  destruct r; [|by intros [= <- <- _]; eauto]. intros Hf.
  destruct (IH (set_signals σ Σ) (<[tid := t1]> ts) σ' ts' res) as [? [Σ' ->]]; try done; [|by eauto].
  intros ???. apply Ho. by right.
Qed.

Lemma cancel_threads_evolved debug orig order call : forall ts ts' b,
  (forall tid t, (tid, t) ∈ order -> orig !! tid = Some t) -> evolved (local_step debug) orig ts ->
  cancel_threads ts order call = (ts', b) -> evolved (local_step debug) orig ts'.
Proof.
  induction order as [|[tid t] order IH]; intros ts ts' b Ho He; simpl; [by intros [= <- _]|].
  destruct (cancel_incoming t call) as [t1 found] eqn:E.
  assert (Hs : local_step debug t t1).
  { split; [intros; by eapply cancel_incoming_ok|by eapply cancel_incoming_same]. }
  destruct found; [intros [= <- _]; eapply evolved_insert; [done| |done]; apply Ho; left|].
  apply IH; [|done]. intros ???. apply Ho. by right.
Qed.

Section thread_operations.
Context (debug : bool) (σ : Store) (R : Registry) (hs : list LocalHold).
Hypothesis Hok : system_ok debug σ R None hs.

Lemma registry_fail_remote_authority_ok `{!Iteration Z Thread} key σ' R' res :
  registry_fail_remote_authority σ R key = (σ', R', res) -> system_ok debug σ' R' None hs.
Proof.
  unfold registry_fail_remote_authority, at_key. destruct (lookup R key) as [c|] eqn:El; [|by intros [= <- <- _]].
  apply lookup_Ok in El. unfold connection_fail_remote_authority.
  destruct (fail_threads _ _ _) as [[σ1 ts] r] eqn:E. intros [= <- <- _].
  eapply (fail_threads_evolved debug (cthreads c)) in E as [He [Σ ->]];
    [|by apply iter_lookup|apply evolved_refl].
  apply system_signals. by apply system_evolved.
Qed.

(** The thread of a request, created by its first use. *)
Lemma registry_thread_ok key tid :
  exists R' res, registry_thread σ R key tid = Some (σ, R', res, []) /\ system_ok debug σ R' None hs /\
    forall t, res = Ok t ->
      (exists c, entries R' !! kid key = Some c /\ cthreads c !! tid = Some t) /\
      (thread_at (entries R) None (kid key) tid = Some t \/ outgoing t = [] /\ local_work t = []).
Proof.
  unfold registry_thread, at_key_opt. destruct (lookup R key) as [c|] eqn:El; [|eexists _, _; by split_and!].
  apply lookup_Ok in El. unfold thread. destruct (Z.eqb_spec tid 0) as [->|Hz].
  { simpl. rewrite (set_entry_id _ _ _ El). eexists _, _. by split_and!. }
  destruct (cthreads c !! tid) as [t|] eqn:Et.
  { simpl. rewrite (set_entry_id _ _ _ El). eexists _, _. split_and!; [done..|]. intros t' [= ->].
    split; [by eauto|]. left. unfold thread_at. by rewrite El. }
  destruct (new_with_signal tid (csignal c)) as [t|] eqn:En.
  2:{ unfold new_with_signal, Thread.new in En. rewrite (proj2 (Z.eqb_neq _ _) Hz) in En. done. }
  simpl. eexists _, _. split; [done|]. split.
  - eapply system_cthreads; try done.
    + intros i t'. destruct (decide (i = tid)) as [->|]; [|rewrite lookup_insert_ne by done].
      * rewrite lookup_insert_eq, Et. intros [= <-]. pose proof (new_thread_ok debug _ _ _ En) as Ho.
        revert En. unfold new_with_signal, Thread.new. rewrite (proj2 (Z.eqb_neq _ _) Hz). simpl. intros [= <-].
        done.
      * intros Ht'. rewrite Ht'. split; [|apply keeps_refl]. apply (system_threads _ _ _ _ _ Hok (kid key)).
        unfold thread_at. by rewrite El.
    + intros i [t' Ht']. destruct (decide (i = tid)) as [->|]; [rewrite lookup_insert_eq|rewrite lookup_insert_ne by done]; eauto.
  - intros t' [= <-]. split; [|right].
    + eexists. simpl. rewrite lookup_insert_eq. split; [done|]. simpl. by rewrite lookup_insert_eq.
    + revert En. unfold new_with_signal, Thread.new. rewrite (proj2 (Z.eqb_neq _ _) Hz). simpl. by intros [= <-].
Qed.

Lemma finish_wait_ok key registered : system_ok debug σ (finish_wait R key registered) None hs.
Proof.
  unfold finish_wait. destruct (entries R !! kid key) as [c|] eqn:Ec; [|done].
  pose proof (system_connection _ _ _ _ _ _ _ Hok Ec) as [H1 H2].
  destruct registered; (eapply system_silent; [done..|by split|by apply no_new_reply_same]).
Qed.
End thread_operations.

Lemma prepare_thread_work_wait_ok debug σ R hs key tid :
  system_ok debug σ R None hs ->
  exists R' res, prepare_thread_work_wait σ R key tid = Some (σ, R', res, []) /\ system_ok debug σ R' None hs.
Proof.
  intros Hok. destruct (registry_thread_ok debug σ R hs Hok key tid) as (R1 & r & E & H1 & Ht).
  revert E. unfold prepare_thread_work_wait, registry_thread, at_key_opt, work_wait_new.
  destruct (lookup R key) as [c|] eqn:El; [|eauto]. destruct (thread c tid) as [[c1 [t|e]]|]; simpl; [| |done].
  - intros [= <- <-]. destruct (enter_idle_wait c1 t) as [c2 b] eqn:Ee.
    eexists _, _. split; [done|].
    replace (set_entry R (kid key) c2) with (set_entry (set_entry R (kid key) c1) (kid key) c2)
      by (unfold set_entry, set_entries; simpl; by rewrite insert_insert_eq).
    pose proof (system_connection _ _ _ _ _ (kid key) c1 H1 ltac:(simpl; apply lookup_insert_eq)) as [H2 H3].
    revert Ee. unfold enter_idle_wait. intros Ee.
    assert (csession c2 = csession c1 /\ cthreads c2 = cthreads c1 /\ ctransactions c2 = ctransactions c1 /\ cdeath c2 = cdeath c1) as (Q1 & Q2 & Q3 & Q4).
    { destruct (negb _); by simplify_eq/=. }
    eapply (system_silent _ _ _ _ _ _ c1); [done|simpl; apply lookup_insert_eq|done..| |by apply no_new_reply_same].
    split; [by rewrite Q3|by rewrite Q4].
  - intros [= <- <-]. eexists _, _. by split.
Qed.

(** ** Transaction queues *)

Lemma queue_ok_set c q : connection_ok c -> queue_fine q -> connection_ok (set_ctransactions c (Some q)).
Proof. intros [H1 H2] Hq. split; [|done]. simpl. by intros q' [= <-]. Qed.

(** Pending work that came from [q]. *)
Definition from_queue (q q' : TransactionQueue.Queue) : Prop :=
  forall p, p ∈ TransactionQueue.pending q' -> exists p', p' ∈ TransactionQueue.pending q /\
    TransactionQueue.header p' = TransactionQueue.header p /\
    TransactionQueue.rcall (TransactionQueue.route p') = TransactionQueue.rcall (TransactionQueue.route p).

Lemma from_queue_reply c q q' :
  ctransactions c = Some q -> from_queue q q' -> no_new_reply c (set_ctransactions c (Some q')).
Proof. intros Hq H q1 p [= <-] Hp _. destruct (H p Hp) as (p' & ? & ? & ?). eauto 6. Qed.

Lemma from_queue_same q q' : TransactionQueue.pending q' = TransactionQueue.pending q -> from_queue q q'.
Proof. intros E p Hp. rewrite E in Hp. eauto. Qed.

Lemma from_queue_delete q q' i :
  TransactionQueue.pending q' = delete i (TransactionQueue.pending q) -> from_queue q q'.
Proof.
  intros E p Hp. rewrite E in Hp. exists p. split_and!; try done.
  eapply elem_of_submseteq; [exact Hp|]. apply sublist_submseteq, sublist_delete.
Qed.

Lemma free_fine q address :
  queue_fine q -> exists q' res closed, TransactionQueue.free q address = Some (q', res, closed) /\
    queue_fine q' /\ from_queue q q'.
Proof.
  intros (g & <- & Hg). destruct (free_trace g address Hg) as (q' & res & out & E & _ & Hg').
  eexists _, _, _. split; [done|]. split; [by eexists; split; [|exact Hg']|]. apply from_queue_same.
  revert E. unfold TransactionQueue.free. destruct (_ !! _); [|by intros [= <- _ _]].
  destruct (release_owned _ _) as [[[??]?]|]; [|done]. simpl. by intros [= <- _ _].
Qed.

Lemma cancel_fine q call :
  queue_fine q -> exists q' b closed, TransactionQueue.cancel_pending_call q call = Some (q', b, closed) /\
    queue_fine q' /\ from_queue q q'.
Proof.
  intros (g & <- & Hg). destruct (cancel_trace g call Hg) as (q' & b & out & E & Hg').
  eexists _, _, _. split; [done|]. split; [by eexists; split; [|exact Hg']|].
  revert E. unfold TransactionQueue.cancel_pending_call.
  destruct (TransactionQueue.position _ _) as [[i p]|]; [|by intros [= <- _ _]; apply from_queue_same].
  destruct (drop_owned _ _) as [[??]|]; [|done]. simpl. intros [= <- _ _]. by eapply from_queue_delete.
Qed.

(** What a read delivers was pending. *)
Lemma read_fine reserved q tid accept_async output :
  queue_fine q ->
  exists q' output' res, TransactionQueue.read_for_thread reserved q tid accept_async output = Some (q', output', res, []) /\
    queue_fine q' /\ from_queue q q' /\
    forall d, res = Ok (Some d) -> exists p, p ∈ TransactionQueue.pending q /\
      TransactionQueue.dcall d = TransactionQueue.rcall (TransactionQueue.route p) /\
      (TransactionQueue.completion d = false ->
       TransactionQueue.dreply d = TransactionQueue.hreply (TransactionQueue.header p)).
Proof.
  intros (g & <- & Hg). destruct (read_trace g reserved tid accept_async output Hg) as (q' & o' & res & E & _ & Hg').
  eexists _, _, _. split; [done|]. split; [by eexists; split; [|exact Hg']|]. clear Hg'.
  revert E. unfold TransactionQueue.read_for_thread.
  destruct (TransactionQueue.position _ _) as [[i p]|] eqn:Ep;
    [|intros [= <- _ <-]; split; [by apply from_queue_same|done]].
  apply position_Some in Ep as [Hi _]. pose proof (list_elem_of_lookup_2 _ _ _ Hi) as Hin.
  destruct (TransactionQueue.deferred_completion _).
  { destruct (_ <? _)%nat; intros [= <- _ <-]; (split; [|try done]); [by apply from_queue_same| |].
    - intros p' (j & Hj)%list_elem_of_lookup. simpl in Hj. destruct (decide (j = i)) as [->|].
      + rewrite list_lookup_insert_eq in Hj by (by eapply lookup_lt_Some). simplify_eq. eauto.
      + rewrite list_lookup_insert_ne in Hj by done. exists p'. split_and!; try done. by eapply list_elem_of_lookup_2.
    - intros d [= <-]. exists p. by split_and!. }
  destruct (_ <? _)%nat; [intros [= <- _ <-]; split; [by apply from_queue_same|done]|].
  destruct (negb reserved); [intros [= <- _ <-]; split; [by apply from_queue_same|done]|].
  destruct (buffer_address _); [|done]. simpl. destruct (offsets_address _); [|done]. simpl.
  destruct (encode_transaction _ _ _) as [o [n|]]; [|done]. simpl. destruct (TransactionQueue.delivered _ !! _).
  { destruct (drop_owned _ _) as [[??]|]; [|done]. simpl. intros [= <- _ <-]. split; [by eapply from_queue_delete|done]. }
  intros [= <- _ <-]. split; [by eapply from_queue_delete|]. intros d [= <-]. exists p. by split_and!.
Qed.

Lemma registry_cancel_remote_incoming_ok `{!Iteration Z Thread} debug σ R hs key call :
  system_ok debug σ R None hs ->
  exists R' res closed, registry_cancel_remote_incoming σ R key call = Some (σ, R', res, closed) /\
    system_ok debug σ R' None hs.
Proof.
  intros Hok. unfold registry_cancel_remote_incoming, at_key_opt.
  destruct (lookup R key) as [c|] eqn:El; [|by eauto 6]. apply lookup_Ok in El.
  pose proof (system_connection _ _ _ _ _ _ _ Hok El) as Hc. unfold cancel_remote_incoming.
  destruct (ctransactions c) as [q|] eqn:Eq; [|simpl; rewrite (set_entry_id _ _ _ El); by eauto 6].
  destruct (cancel_fine q (Thread.Remote call)) as (q' & b & closed & -> & Hq' & Hf); [by apply Hc|]. simpl.
  assert (H1 : system_ok debug σ (set_entry R (kid key) (set_ctransactions c (Some q'))) None hs).
  { eapply system_silent; [done..|by apply queue_ok_set|by eapply from_queue_reply]. }
  destruct b; [simpl; by eauto 6|].
  destruct (cancel_threads _ _ _) as [ts found] eqn:Ec. simpl.
  eapply (cancel_threads_evolved debug (cthreads c)) in Ec; [|by apply iter_lookup|apply evolved_refl].
  eexists _, _, _. split; [done|].
  eapply (system_evolved _ _ _ _ (kid key) _ ts) in H1; [|simpl; apply lookup_insert_eq|done].
  revert H1. unfold set_entry, set_entries. simpl. by rewrite insert_insert_eq.
Qed.

Section locked.
Context (debug : bool) (σ : Store) (R : Registry) (key : Key) (t : Thread) (hs : list LocalHold).
Hypothesis Hok : system_ok debug σ R (Some (kid key, t)) hs.

(** The locked thread is well formed while its connection is open. *)
Lemma locked_thread c : entries R !! kid key = Some c -> thread_ok debug t.
Proof.
  intros Hc. assert (thread_fine debug (Thread.id t) t) as (_ & _ & ?); [|done].
  apply (system_threads _ _ _ _ _ Hok (kid key)). unfold thread_at. rewrite Hc. simpl. by rewrite bool_decide_true.
Qed.

Lemma registry_free_transaction_buffer_ok address :
  exists R' res closed, registry_free_transaction_buffer σ R key address = Some (σ, R', res, closed) /\
    system_ok debug σ R' (Some (kid key, t)) hs.
Proof.
  unfold registry_free_transaction_buffer, at_key_opt.
  destruct (lookup R key) as [c|] eqn:El; [|by eauto 6]. apply lookup_Ok in El.
  pose proof (system_connection _ _ _ _ _ _ _ Hok El) as Hc. unfold free_transaction_buffer.
  destruct (ctransactions c) as [q|] eqn:Eq; [|simpl; rewrite (set_entry_id _ _ _ El); by eauto 6].
  destruct (free_fine q address) as (q' & res & closed & -> & Hq' & Hf); [by apply Hc|]. simpl.
  eexists _, _, _. split; [done|]. eapply system_silent; [done..|by apply queue_ok_set|by eapply from_queue_reply].
Qed.

Lemma registry_execute_looper_command_ok input :
  exists R' t' res, registry_execute_looper_command debug R key t input = Some (R', t', res) /\
    system_ok debug σ R' (Some (kid key, t')) hs /\ Thread.id t' = Thread.id t.
Proof.
  unfold registry_execute_looper_command. destruct (lookup R key) as [c|] eqn:El; [|by eauto 7].
  apply lookup_Ok in El. pose proof (system_connection _ _ _ _ _ _ _ Hok El) as [Hc1 Hc2].
  unfold execute_looper_command.
  destruct (Command.decode input) as [[d n]|]; [|simpl; rewrite (set_entry_id _ _ _ El); by eauto 7].
  destruct (if bool_decide _ then begin_register _ else _) as [[]|] eqn:Eb;
    [|simpl; rewrite (set_entry_id _ _ _ El); by eauto 7].
  destruct (execute_looper t input) as [t' r] eqn:Ex.
  assert (H1 : system_ok debug σ R (Some (kid key, t')) hs).
  { eapply system_thread; [done| |].
    - eapply execute_looper_ok; [by eapply locked_thread|done].
    - by eapply same_local_keeps, execute_looper_same. }
  assert (Ei : Thread.id t' = Thread.id t) by (by apply execute_looper_same in Ex as [? _]).
  destruct r; [|simpl; rewrite (set_entry_id _ _ _ El); by eauto 7].
  assert (exists p, (if bool_decide (Command.kind d = RegisterLooper) then finish_register debug (cpool c) else Some (cpool c)) = Some p)
    as [p ->].
  { case_bool_decide; [|by eauto]. unfold begin_register, ensure in Eb. unfold finish_register.
    destruct (requested_thread (cpool c)); [|done]. rewrite andb_false_r. eauto. }
  simpl. eexists _, _, _. split; [done|]. split; [|done]. eapply system_silent; [done..|by split|by apply no_new_reply_same].
Qed.

Lemma read_local_work_keeps output :
  (exists c, entries R !! kid key = Some c) ->
  exists t' output' n, read_local_work debug t output = Some (t', output', n) /\
    system_ok debug σ R (Some (kid key, t')) hs /\ Thread.id t' = Thread.id t.
Proof.
  intros [c Hc]. destruct (read_local_work_ok debug t output) as (t' & o' & n & E & Ht'); [by eapply locked_thread|].
  exists t', o', n. split; [done|]. apply read_local_work_memory in E as [Ei Hm].
  split; [|done]. eapply system_thread; [done..|]. split; [done|]. intros s. split; intros _ Hs; rewrite Hm; auto.
Qed.

Lemma finish_outgoing_keeps calls call t' res :
  (forall s, call = Thread.Local s -> s <= call_next calls /\ call_routes calls !! call = None) ->
  finish_outgoing t call = (t', res) -> keeps calls t t'.
Proof.
  intros Hc [Ei Hm]%finish_outgoing_memory. split; [done|]. intros s.
  destruct (decide (Thread.Local s = call)) as [<-|]; [|by rewrite Hm].
  destruct (Hc s eq_refl) as [? Hn]. split; [lia|]. rewrite Hn. by intros [].
Qed.

Lemma deliver_transaction_ok rsv output :
  exists R' t' output' res closed, deliver_transaction rsv R key t output = Some (R', t', output', res, closed) /\
    system_ok debug σ R' (Some (kid key, t')) hs /\ Thread.id t' = Thread.id t.
Proof.
  unfold deliver_transaction. destruct (lookup R key) as [c|] eqn:El; [|by eauto 10]. apply lookup_Ok in El.
  pose proof (system_connection _ _ _ _ _ _ _ Hok El) as Hc.
  destruct (prepare_delivery _ _ _); [|by eauto 10]. unfold read_transaction_for_thread.
  destruct (ctransactions c) as [q|] eqn:Eq; [|simpl; rewrite (set_entry_id _ _ _ El); by eauto 10].
  destruct (read_fine (rsv [1%nat]) q (Thread.id t) (can_wait_for_process_work t) output)
    as (q' & o' & res & -> & Hq' & Hf & Hd); [by apply Hc|]. simpl.
  assert (H1 : system_ok debug σ (set_entry R (kid key) (set_ctransactions c (Some q'))) (Some (kid key, t)) hs).
  { eapply system_silent; [done..|by apply queue_ok_set|by eapply from_queue_reply]. }
  destruct res as [d|e]; simpl; [|by eauto 10]. unfold finish_delivery.
  destruct d as [d|]; [|by eauto 10]. destruct (TransactionQueue.dcall d) as [call|] eqn:Ecall; [|by eauto 10].
  destruct (TransactionQueue.dreply d) eqn:Er.
  - destruct (TransactionQueue.completion d) eqn:Ecm; [by eauto 10|].
    destruct (finish_outgoing t call) as [t' r] eqn:Ef. eexists _, _, _, _, _. split; [done|].
    split; [|by apply finish_outgoing_memory in Ef as [? _]].
    eapply system_thread; [exact H1|eapply finish_outgoing_ok; [by eapply locked_thread|done]|].
    eapply finish_outgoing_keeps; [|exact Ef]. intros s ->. destruct (Hd d eq_refl) as (p & Hp & Hc1 & Hc2).
    eapply (calls_answered _ _ _ _ (system_calls _ _ _ _ _ Hok) _ c q p s); try done; [|congruence].
    rewrite <- Hc2 by done. done.
  - eexists _, _, _, _, _. split; [done|]. split; [|done]. eapply system_thread; [exact H1|apply accept_incoming_ok; by eapply locked_thread|].
    apply same_local_keeps, accept_incoming_same.
Qed.
End locked.

(** ** Transactions *)

(** A change of the world that loses no node. *)
Definition world_moves (σ : Store) (σ' : Store) (ss' : list Session) (hs' : list LocalHold) : Prop :=
  world_fine σ' ss' hs' /\ forall r, is_Some (nodes σ !! r) -> is_Some (nodes σ' !! r).

Lemma world_moves_steps σ s ss hs σ' s' hs' :
  world_fine σ (s :: ss) hs ->
  rtc step (with_session [] (sowner <$> ss) [] (srefs <$> ss) σ s hs)
    (with_session [] (sowner <$> ss) [] (srefs <$> ss) σ' s' hs') ->
  world_moves σ σ' (s' :: ss) hs'.
Proof.
  intros H Hs. split; [by eapply world_steps|]. apply world_session in H.
  exact (steps_nodes _ _ Hs H).
Qed.

Lemma world_moves_trans σ σ1 ss1 hs1 σ2 ss2 hs2 :
  world_moves σ σ1 ss1 hs1 -> world_moves σ1 σ2 ss2 hs2 -> world_moves σ σ2 ss2 hs2.
Proof. intros [_ H] [? H']. split; eauto. Qed.

Lemma objects_nonneg `{TransactionPayload T} rsv (p : T) objs :
  TransactionSnapshot.objects rsv p = Ok objs -> Forall (fun o => 0 <= offset o) objs.
Proof. intros (_ & Hat & _)%validate_Ok. eapply Forall_impl; [exact Hat|]. by intros o [? _]. Qed.

(** A resolved object names a node that exists. *)
Lemma resolve_object_moves rsv σ s ss hs object :
  world_fine σ (s :: ss) hs ->
  exists σ' s' res, resolve_transaction_object rsv σ s object = Some (σ', s', res) /\
    world_moves σ σ' (s' :: ss) hs /\
    forall r, res = Ok r -> is_Some (nodes σ' !! rnode r) /\ roffset r = offset object.
Proof.
  intros Hw. destruct (run_resolve_object [] (sowner <$> ss) [] (srefs <$> ss) rsv σ s hs object (proj1 (world_session _ _ _ _) Hw))
    as (σ' & s' & res & E & Hs). pose proof (world_moves_steps _ _ _ _ _ _ _ Hw Hs) as Hm.
  exists σ', s', res. split_and!; [done|done|]. intros r ->. revert E.
  unfold resolve_transaction_object. destruct (fields object) as [w f p c|w f h c| | |] eqn:Ef; try done.
  - unfold resolve_local. destruct (NodeOwner.resolve _ _ _ _) as [[σ1 own1] [node|e]] eqn:En; [|done].
    intros [= <- <- <-]. pose proof (world_owners _ Hw) as [Ht _]%Forall_cons.
    destruct (resolve_found _ _ _ _ _ _ _ _ _ _ _ Ht Ef En) as (_ & n & Hn & _). simpl. eauto.
  - unfold ReferenceTable.lookup. destruct (ReferenceTable.resolve _ _ _ _) as [σ1 [[hd|node]|e]] eqn:Er; try done.
    destruct (drop_hold σ1 hd) as [σ2|] eqn:Ed; [|done]. intros [= <- <- <-]. simpl. split; [|done].
    pose proof (steps_lookup [] (sowner <$> ss) [] (srefs <$> ss) σ s hs h (strength w) σ1 hd Er) as Hl.
    pose proof (world_moves_steps _ _ _ _ _ _ _ Hw Hl) as [Hw1 _].
    pose proof (world_hold_exists _ _ _ _ Hw1) as Hn.
    pose proof (steps_drop [] (sowner <$> ss) [] (srefs <$> ss) σ1 s hs hd σ2 Ed) as Hd.
    by apply (world_moves_steps _ _ _ _ _ _ _ Hw1 Hd).
Qed.

Lemma resolve_all_moves rsv objects ss hs : forall σ s i,
  world_fine σ (s :: ss) hs -> Forall (fun o => 0 <= offset o) objects ->
  exists σ' s' res, resolve_all rsv σ s i objects = Some (σ', s', res) /\ world_moves σ σ' (s' :: ss) hs /\
    forall rs, res = Ok rs -> Forall (fun r => is_Some (nodes σ' !! rnode r) /\ 0 <= roffset r) rs.
Proof.
  induction objects as [|o objects IH]; intros σ s i Hw Ho; simpl.
  { eexists _, _, _. split; [done|]. split; [by split|]. by intros rs [= <-]. }
  apply Forall_cons in Ho as [Ho Hos].
  destruct (resolve_object_moves (below i rsv) σ s ss hs o Hw) as (σ1 & s1 & [r|e] & -> & Hm1 & Hr); simpl.
  - destruct (IH σ1 s1 (S i) (proj1 Hm1) Hos) as (σ2 & s2 & res & -> & Hm2 & Hrs). simpl.
    eexists _, _, _. split; [done|]. split; [by eapply world_moves_trans|].
    destruct res as [rs|]; [|done]. intros rs' [= <-]. destruct (Hr r eq_refl) as [Hn E].
    apply Forall_cons. split; [|by apply Hrs]. split; [by apply Hm2|lia].
  - eexists _, _, _. split; [done|]. by split.
Qed.

Lemma install_all_moves {A E} (install : Store -> Session -> A -> Store * Session * result (Rewrite * option Rollback) E)
    (ok : Store -> A -> Prop) ss hs objects :
  (forall σ s a σ' s' r, world_fine σ (s :: ss) hs -> ok σ a -> install σ s a = (σ', s', r) ->
     world_moves σ σ' (s' :: ss) hs) ->
  (forall σ σ' a, (forall r, is_Some (nodes σ !! r) -> is_Some (nodes σ' !! r)) -> ok σ a -> ok σ' a) ->
  forall σ s σ' s' rewrites rollbacks res, world_fine σ (s :: ss) hs -> Forall (ok σ) objects ->
  install_all install σ s objects = (σ', s', rewrites, rollbacks, res) -> world_moves σ σ' (s' :: ss) hs.
Proof.
  intros Hi Hk. induction objects as [|a objects IH]; intros σ s σ' s' rewrites rollbacks res Hw Ho; simpl.
  { intros [= <- <- _ _ _]. by split. }
  apply Forall_cons in Ho as [Ho Hos]. destruct (install σ s a) as [[σ1 s1] r] eqn:Ea.
  pose proof (Hi _ _ _ _ _ _ Hw Ho Ea) as Hm. destruct r as [[w b]|e]; [|by intros [= <- <- _ _ _]].
  destruct (install_all install σ1 s1 objects) as [[[[σ2 s2] ws] bs] r2] eqn:Er. intros [= <- <- _ _ _].
  eapply world_moves_trans; [exact Hm|]. eapply IH; [apply Hm| |done].
  eapply Forall_impl; [exact Hos|]. intros x. apply Hk. apply Hm.
Qed.

Lemma rollback_loop_moves rollbacks ss hs : forall σ s σ' s' res,
  world_fine σ (s :: ss) hs -> rollback_loop σ s rollbacks = (σ', s', res) -> world_moves σ σ' (s' :: ss) hs.
Proof.
  induction rollbacks as [|b rollbacks IH]; intros σ s σ' s' res Hw; simpl; [intros [= <- <- _]; by split|].
  destruct (rollback_transaction_object σ s b) as [[σ1 s1] r] eqn:E.
  assert (Hm : world_moves σ σ1 (s1 :: ss) hs).
  { destruct (run_refines _ _ _ _ _ _ _ (OpRollback b) (proj1 (world_session _ _ _ _) Hw) I) as (? & ? & ? & Er & Hs).
    simpl in Er. rewrite E in Er. simplify_eq. by eapply world_moves_steps. }
  destruct r; [|by intros [= <- <- _]]. intros Hl. eapply world_moves_trans; [exact Hm|]. eapply IH; [apply Hm|done].
Qed.

Lemma rolled_back_fine σ c s rollbacks e ss hs σ' c' res :
  world_fine σ (s :: ss) hs -> rolled_back σ c s rollbacks e = (σ', c', res) ->
  exists s', c' = set_csession c (Some s') /\ world_fine σ' (s' :: ss) hs /\ (forall x, res <> Ok x).
Proof.
  intros Hw. unfold rolled_back, rollback_objects. destruct (rollback_loop _ _ _) as [[σ1 s1] r] eqn:E.
  intros [= <- <- <-]. exists s1. split; [done|]. split; [by eapply rollback_loop_moves in E as [? _]|].
  by destruct r.
Qed.

Lemma install_transaction_moves ss hs σ s a σ' s' r :
  world_fine σ (s :: ss) hs -> is_Some (nodes σ !! rnode a) -> install_transaction_object σ s a = (σ', s', r) ->
  world_moves σ σ' (s' :: ss) hs.
Proof. intros Hw Hn E. eapply world_moves_steps; [exact Hw|]. by eapply steps_install. Qed.

Lemma install_remote_moves receiver ss hs σ s o σ' s' r :
  world_fine σ (s :: ss) hs -> install_remote_object σ s receiver o = (σ', s', r) -> world_moves σ σ' (s' :: ss) hs.
Proof. intros Hw E. eapply world_moves_steps; [exact Hw|]. by eapply steps_install_remote. Qed.

Lemma transaction_object_offset σ s r σ1 s1 w b :
  install_transaction_object σ s r = (σ1, s1, Ok (w, b)) -> woffset w = roffset r.
Proof.
  unfold install_transaction_object. destruct (owns_node _ _ _); [by intros [= _ _ <- _]|].
  destruct (retain_transferred _ _ _ _) as [[? ?] [[[??]?]|]]; [|done]. by intros [= _ _ <- _].
Qed.

(** What publishing one transaction with a header and a route does to a connection. *)
Record publication (c c' : Connection) (h : TransactionQueue.Header) (r : TransactionQueue.Route)
    (res : result Z Connection.Error) : Prop := {
  publication_ok : connection_ok c -> connection_ok c';
  publication_threads : cthreads c' = cthreads c;
  publication_queue :
    match ctransactions c' with
    | None => ctransactions c = None /\ forall x, res <> Ok x
    | Some q' => exists q, ctransactions c = Some q /\
        match res with
        | Ok _ => exists a, TransactionQueue.pending q' = TransactionQueue.pending q ++
                    [{| TransactionQueue.allocation := a; TransactionQueue.header := h; TransactionQueue.route := r |}]
        | Err _ => TransactionQueue.pending q' = TransactionQueue.pending q
        end
    end }.

Lemma publication_refused c c' h r res :
  cthreads c' = cthreads c -> ctransactions c' = ctransactions c -> cdeath c' = cdeath c -> (forall x, res <> Ok x) ->
  publication c c' h r res.
Proof.
  intros E1 E2 E3 Hr. split; [|done|].
  - intros [H1 H2]. split; rewrite ?E2, ?E3; done.
  - rewrite E2. destruct (ctransactions c) as [q|]; [|done]. exists q. split; [done|]. destruct res as [x|]; [by destruct (Hr x)|done].
Qed.

Lemma publication_enqueued `{TransactionPayload T} c q q' (p : T) h r files res out c' :
  ctransactions c = Some q -> ctransactions c' = Some q' -> cthreads c' = cthreads c -> cdeath c' = cdeath c ->
  TransactionQueue.enqueued q q' (payload_layout p) h r files res out -> queue_fine q' ->
  publication c c' h r (map_err CQueue res).
Proof.
  intros Hq Hq' Et Ed He Hf. split; [|done|].
  - intros [_ H2]. split; [|by rewrite Ed]. by intros ? [= <-]%(eq_trans (eq_sym Hq')).
  - rewrite Hq'. exists q. split; [done|]. destruct res; destruct He as [_ ->]; simpl; eauto.
Qed.

Lemma enqueue_fine `{TransactionPayload T} c q reserved (p : T) h rewrites r files :
  connection_ok c -> ctransactions c = Some q -> payload_fits p -> Forall (fun r => 0 <= woffset r) rewrites ->
  exists q' res out, TransactionQueue.enqueue_routed_with_fds reserved q p h rewrites r files = Some (q', res, out) /\
    forall c', ctransactions c' = Some q' -> cthreads c' = cthreads c -> cdeath c' = cdeath c ->
      publication c c' h r (map_err CQueue res).
Proof.
  intros Hc Hq Hp Hr. destruct (connection_queue _ Hc q Hq) as (g & <- & Hg).
  destruct (TransactionQueue.enqueue_trace g reserved p h rewrites r files Hg Hp Hr) as (q' & res & out & E & He & Hg').
  exists q', res, out. split; [done|]. intros c' Hq' Et Ed.
  eapply publication_enqueued; try done. by eexists; split; [|exact Hg'].
Qed.

Lemma publication_error c c' h r e e' : publication c c' h r (Err e) -> publication c c' h r (Err e').
Proof.
  intros [H1 H2 H3]. split; try done. destruct (ctransactions c'); [|by destruct H3]. done.
Qed.

Lemma rolled_back_published σ c c1 s rollbacks e h r ss hs :
  world_fine σ (s :: ss) hs ->
  (forall c2, ctransactions c2 = ctransactions c1 -> cthreads c2 = cthreads c1 -> cdeath c2 = cdeath c1 ->
     publication c c2 h r (Err e)) ->
  exists σ' c' res, rolled_back σ c1 s rollbacks e = (σ', c', res) /\
    world_fine σ' (option_list (csession c') ++ ss) hs /\ publication c c' h r res.
Proof.
  intros Hw Hpub. destruct (rolled_back σ c1 s rollbacks e) as [[σ2 c2] r2] eqn:Eb.
  eapply rolled_back_fine in Eb as (s2 & -> & Hw2 & Hn); [|exact Hw]. eexists _, _, _. split; [done|].
  split; [done|]. destruct r2 as [x|e2]; [by destruct (Hn x)|]. eapply publication_error. by apply Hpub.
Qed.

Lemma offsets_nonneg (rewrites : list Rewrite) : Forall (fun z => 0 <= z) (woffset <$> rewrites) ->
  Forall (fun r => 0 <= woffset r) rewrites.
Proof. intros H. by apply (Forall_fmap woffset) in H. Qed.

Lemma publish_translated_fine rsv σ c snapshot resolved h r ss hs :
  world_fine σ (option_list (csession c) ++ ss) hs -> connection_ok c -> payload_fits snapshot ->
  Forall (fun r => is_Some (nodes σ !! rnode r) /\ 0 <= roffset r) resolved ->
  exists σ' c' res, publish_translated rsv σ c snapshot resolved h r = Some (σ', c', res) /\
    world_fine σ' (option_list (csession c') ++ ss) hs /\ publication c c' h r res.
Proof.
  intros Hw Hc Hp Hr. unfold publish_translated. destruct (csession c) as [s|] eqn:Es.
  2:{ eexists _, _, _. split; [done|]. split; [by rewrite Es|]. by apply publication_refused. }
  destruct (negb _). { eexists _, _, _. split; [done|]. split; [by rewrite Es|]. by apply publication_refused. }
  destruct (ctransactions c) as [q|] eqn:Eq.
  2:{ eexists _, _, _. split; [done|]. split; [by rewrite Es|]. by apply publication_refused. }
  destruct (install_all _ _ _ _) as [[[[σ1 s1] rewrites] rollbacks] res] eqn:Ei.
  assert (Hm : world_moves σ σ1 (s1 :: ss) hs).
  { eapply (install_all_moves _ (fun σ r => is_Some (nodes σ !! rnode r))); [| |exact Hw| |exact Ei].
    - intros *. apply install_transaction_moves.
    - by intros ??? Hk; apply Hk.
    - eapply Forall_impl; [exact Hr|]. by intros ? []. }
  destruct res as [[]|e].
  2:{ destruct (rolled_back_published σ1 c c s1 rollbacks (ObjectTransfer e) h r ss hs) as (? & ? & ? & -> & ?);
        [apply Hm|intros c2 E1 E2 E3; by apply publication_refused|by eauto]. }
  unfold TransactionQueue.enqueue_routed.
  destruct (enqueue_fine c q (rsv [5%nat]) snapshot h rewrites r [] Hc Eq Hp) as (q' & res & out & -> & Hpub).
  { apply offsets_nonneg. rewrite (install_all_offsets _ roffset _ transaction_object_offset _ _ _ _ _ _ Ei).
    apply Forall_fmap. eapply Forall_impl; [exact Hr|]. by intros ? []. }
  simpl. destruct res as [x|e]; simpl in Hpub.
  - eexists _, _, _. split; [done|]. split; [apply world_signals, Hm|]. by apply Hpub.
  - destruct (rolled_back_published σ1 c (set_ctransactions c (Some q')) s1 rollbacks (CQueue e) h r ss hs)
      as (? & ? & ? & -> & ?); [apply Hm|intros c2 E1 E2 E3; by apply Hpub|by eauto].
Qed.

Lemma enqueue_remote_fine rsv σ c s payload receiver h r files ss hs :
  csession c = Some s -> world_fine σ (s :: ss) hs -> connection_ok c -> payload_fits payload ->
  Forall (fun o => 0 <= moffset o) (iobjects payload) -> Forall (fun f => 0 <= ioffset f) files ->
  exists σ' c' res closed, enqueue_remote rsv σ c s payload receiver h r files = Some (σ', c', res, closed) /\
    world_fine σ' (option_list (csession c') ++ ss) hs /\ publication c c' h r res.
Proof.
  intros Es Hw Hc Hp Ho Hf. unfold enqueue_remote.
  destruct (negb _). { eexists _, _, _, _. split; [done|]. split; [by rewrite Es|]. by apply publication_refused. }
  destruct (install_all _ _ _ _) as [[[[σ1 s1] rewrites] rollbacks] res] eqn:Ei.
  assert (Hm : world_moves σ σ1 (s1 :: ss) hs).
  { eapply (install_all_moves _ (fun _ _ => True)); [| |exact Hw| |exact Ei]; [|done|by apply Forall_forall].
    intros * ??. by eapply install_remote_moves. }
  destruct res as [[]|e].
  2:{ destruct (rolled_back_published σ1 c c s1 rollbacks (ObjectTransfer (XRemote e)) h r ss hs) as (? & ? & ? & -> & ?);
        [apply Hm|intros c2 E1 E2 E3; by apply publication_refused|by eauto 6]. }
  destruct (ctransactions c) as [q|] eqn:Eq.
  2:{ eexists _, _, _, _. split; [done|]. split; [apply Hm|]. by apply publication_refused. }
  destruct (enqueue_fine c q (rsv [4%nat]) payload h ((file_rewrite <$> files) ++ rewrites) r (inumber <$> files) Hc Eq Hp)
    as (q' & res & out & -> & Hpub).
  { apply Forall_app. split; [by apply Forall_fmap|]. apply offsets_nonneg.
    rewrite (install_all_offsets _ moffset _ (remote_object_offset receiver) _ _ _ _ _ _ Ei). by apply Forall_fmap. }
  simpl. destruct res as [x|e]; simpl in Hpub.
  - eexists _, _, _, _. split; [done|]. split; [apply world_signals, Hm|]. by apply Hpub.
  - destruct (rolled_back_published σ1 c (set_ctransactions c (Some q')) s1 rollbacks (CQueue e) h r ss hs)
      as (? & ? & ? & -> & ?); [apply Hm|intros c2 E1 E2 E3; by apply Hpub|by eauto 6].
Qed.

(** A new reply answers a call that is no longer registered. *)
Definition reply_fine (t : CallTable) (h : TransactionQueue.Header) (r : TransactionQueue.Route) : Prop :=
  TransactionQueue.hreply h = true -> forall s, TransactionQueue.rcall r = Some (Thread.Local s) ->
  s <= call_next t /\ call_routes t !! Thread.Local s = None.

Lemma calls_ok_publication es lock t last id c c' h r res :
  calls_ok es lock t last -> es !! id = Some c -> publication c c' h r res ->
  (forall x, res = Ok x -> reply_fine t h r) -> calls_ok (<[id := c']> es) lock t last.
Proof.
  intros Hcalls Hc [_ Ht Hq] Hr. pose proof Hcalls as [H1 H2 H3 H4 H5 H6].
  pose proof (thread_at_update es lock id c c' Hc Ht) as Ha.
  assert (Hd : forall i, is_Some (<[id := c']> es !! i) -> is_Some (es !! i)).
  { intros i. destruct (decide (i = id)) as [->|]; [by rewrite Hc|]. by rewrite lookup_insert_ne. }
  split; try done.
  - eauto.
  - intros call route Hcall Hs. rewrite Ha. eauto.
  - intros i tid th s. rewrite Ha. eauto.
  - intros i c1 q p s Hi Eq Hp Hrep Hcall. destruct (decide (i = id)) as [->|].
    2:{ rewrite lookup_insert_ne in Hi by done. eauto. }
    rewrite lookup_insert_eq in Hi. simplify_eq. rewrite Eq in Hq. destruct Hq as (q0 & Eq0 & Hq).
    destruct res as [x|e]; [|rewrite Hq in Hp; by eauto]. destruct Hq as [a Hq]. rewrite Hq in Hp.
    apply elem_of_app in Hp as [Hp|Hp%list_elem_of_singleton]; [by eauto|]. subst p. by apply (Hr x eq_refl).
Qed.

Lemma system_publication debug σ R lock hs id c c' σ' h r res :
  system_ok debug σ R lock hs -> entries R !! id = Some c ->
  world_fine σ' (option_list (csession c') ++ others R id) (context_holds (context R) ++ hs) ->
  publication c c' h r res -> (forall x, res = Ok x -> reply_fine (calls R) h r) ->
  system_ok debug σ' (set_entry R id c') lock hs.
Proof.
  intros H Hc Hw Hp Hr. pose proof H as [_ Hcs Ht Hcalls]. split; simpl.
  - by rewrite sessions_insert.
  - apply map_Forall_insert_2; [|done]. apply Hp. exact (Hcs _ _ Hc).
  - intros i tid t. rewrite (thread_at_update _ _ _ _ _ Hc); [apply Ht|]. by destruct Hp.
  - by eapply calls_ok_publication.
Qed.

(** A decoded image and the descriptors installed for it. *)
Record delivery_fits (payload : TransferImage) (files : list InstalledFd) : Prop := {
  delivery_payload : payload_fits payload;
  delivery_objects_nonneg : Forall (fun o => 0 <= moffset o) (iobjects payload);
  delivery_files_nonneg : Forall (fun f => 0 <= ioffset f) files }.

Section remote_operations.
Context (debug : bool) (σ : Store) (R : Registry) (lock : option (ConnectionId * Thread)) (hs : list LocalHold).
Hypothesis Hok : system_ok debug σ R lock hs.

Lemma remote_publication key (k : Connection -> option (Store * Connection * result Z Connection.Error * list Z)) :
  (forall c ss hs, world_fine σ (option_list (csession c) ++ ss) hs -> connection_ok c ->
     exists h r σ' c' res closed, k c = Some (σ', c', res, closed) /\ reply_fine (calls R) h r /\
       world_fine σ' (option_list (csession c') ++ ss) hs /\ publication c c' h r res) ->
  exists σ' R' res closed, at_key_opt σ R key k = Some (σ', R', res, closed) /\ system_ok debug σ' R' lock hs.
Proof.
  intros Hk. unfold at_key_opt. destruct (lookup R key) as [c|] eqn:El; [|by eauto 8]. apply lookup_Ok in El.
  destruct (Hk c _ _ (system_focus _ _ _ _ _ _ _ Hok El) (system_connection _ _ _ _ _ _ _ Hok El))
    as (h & r & σ' & c' & res & closed & -> & Hr & Hw & Hp). simpl. eexists _, _, _, _. split; [done|].
  by eapply system_publication.
Qed.

Lemma unchanged_publication c e ss hs' closed :
  world_fine σ (option_list (csession c) ++ ss) hs' ->
  exists h r σ' c' res closed', Some (σ, c, Err e, closed) = Some (σ', c', res, closed' : list Z) /\
    reply_fine (calls R) h r /\ world_fine σ' (option_list (csession c') ++ ss) hs' /\ publication c c' h r res.
Proof.
  intros Hw. exists (TransactionQueue.Build_Header false 0 0 0 0 0 0), (TransactionQueue.Build_Route None None false).
  eexists _, _, _, _. split; [done|]. split; [by intros ?|]. split; [done|]. by apply publication_refused.
Qed.

Lemma registry_enqueue_remote_reply_ok rsv key payload receiver remote files :
  delivery_fits payload files ->
  exists σ' R' res closed, registry_enqueue_remote_reply rsv σ R key payload receiver remote files = Some (σ', R', res, closed) /\
    system_ok debug σ' R' lock hs.
Proof.
  intros Hd. unfold registry_enqueue_remote_reply. destruct (lookup R key) as [c0|] eqn:El; [|by eauto 8].
  apply remote_publication. intros c ss hs' Hw Hc. unfold enqueue_remote_reply.
  destruct (delivery_objects rsv payload); [|by apply unchanged_publication].
  destruct (csession c) as [s|] eqn:Es; [|apply unchanged_publication; by rewrite Es].
  destruct Hd as [Hp Ho Hf]. eexists _, _.
  edestruct (enqueue_remote_fine rsv σ c s) as (? & ? & ? & ? & -> & ? & ?); [exact Es|exact Hw|exact Hc|exact Hp|exact Ho|exact Hf|]. eexists _, _, _, _.
  split; [done|]. split; [|done]. by intros _ ? [= ?].
Qed.

Lemma registry_enqueue_remote_transaction_ok rsv key payload receiver remote files :
  delivery_fits payload files ->
  exists σ' R' res closed, registry_enqueue_remote_transaction rsv σ R key payload receiver remote files = Some (σ', R', res, closed) /\
    system_ok debug σ' R' lock hs.
Proof.
  intros Hd. unfold registry_enqueue_remote_transaction. destruct (lookup R key) as [c0|] eqn:El; [|by eauto 8].
  apply remote_publication. intros c ss hs' Hw Hc. unfold enqueue_remote_transaction.
  destruct (delivery_objects rsv payload); [|by apply unchanged_publication].
  destruct (csession c) as [s|] eqn:Es; [|apply unchanged_publication; by rewrite Es].
  destruct (lookup_local_node s _); [|apply unchanged_publication; by rewrite Es].
  destruct Hd as [Hp Ho Hf]. eexists _, _.
  edestruct (enqueue_remote_fine rsv σ c s) as (? & ? & ? & ? & -> & ? & ?); [exact Es|exact Hw|exact Hc|exact Hp|exact Ho|exact Hf|]. eexists _, _, _, _.
  split; [done|]. split; [|done]. by intros ?.
Qed.
End remote_operations.
