(* ===== verification/DeviceRouting.v ===== *)
(** * Routing between connections keeps the invariant

    Transactions and replies between two connections, the context manager, and the opening and
    closing of connections: each returns, and leaves a state with the invariant of
    [DeviceInvariant]. *)
From S2P Require Import Prelude RoutingAuthority TransactionQueue DeathWork TransactionWire ScatterGather.
From S2P Require Import Command AuthorityProtocol Objects TransactionLayout TransactionSnapshot TransactionRequest.
From S2P Require Import NodeWork WorkSignal NodeOwner ReferenceTable Session Thread.
From S2P Require Import ReceiveArena TransferImage PreparedTransaction World Connection Registry WriteRead Ioctl Device.
From S2P Require Import DeviceInvariant DeviceOperations.

(** ** Between two connections *)

(** What a transaction between two connections does to the registry. *)
Lemma enqueue_between_calls rsv σ R a b snapshot h r t :
  enqueue_between rsv σ (set_calls R t) a b snapshot h r =
    '(σ, R, res) ← enqueue_between rsv σ R a b snapshot h r; Some (σ, set_calls R t, res).
Proof.
  unfold enqueue_between. simpl. destruct (entries R !! a); [|done]. destruct (entries R !! b); [|done].
  destruct (enqueue_translated_from _ _ _ _ _ _ _ _) as [[[[??]?]?]|]; [|done]. simpl. by destruct (a =? b).
Qed.

Section between.
Context (debug : bool) (σ : Store) (R : Registry) (lock : option (ConnectionId * Thread)) (hs : list LocalHold).
Hypothesis Hok : system_ok debug σ R lock hs.

Lemma enqueue_between_fine rsv a b snapshot h r :
  is_Some (entries R !! a) -> is_Some (entries R !! b) -> payload_fits snapshot ->
  exists σ' R' res, enqueue_between rsv σ R a b snapshot h r = Some (σ', R', res) /\
    calls R' = calls R /\ (forall i, is_Some (entries R !! i) -> is_Some (entries R' !! i)) /\
    ((forall x, res = Ok x -> reply_fine (calls R) h r) -> system_ok debug σ' R' lock hs).
Proof.
  intros [c Hc] [d Hd] Hp. unfold enqueue_between. rewrite Hc, Hd.
  assert (Hnone : forall e : Connection.Error, exists σ' R' res,
    Some (σ, if a =? b then R else set_entry (set_entry R a c) b d, Err e) = Some (σ', R', res : result Z Connection.Error) /\
    calls R' = calls R /\ (forall i, is_Some (entries R !! i) -> is_Some (entries R' !! i)) /\
    ((forall x, res = Ok x -> reply_fine (calls R) h r) -> system_ok debug σ' R' lock hs)).
  { intros e. rewrite (set_entry_id R a c Hc), (set_entry_id R b d Hd), Tauto.if_same. eauto 12. }
  unfold enqueue_translated_from. destruct (Z.eqb_spec a b) as [|Hab]; [apply Hnone|].
  destruct (objects _ snapshot) as [objs|] eqn:Eo; [|apply Hnone].
  destruct (validate_supported objs); [|apply Hnone]. destruct (negb _); [apply Hnone|].
  destruct (csession c) as [s|] eqn:Es; [|apply Hnone]. clear Hnone.
  pose proof (system_focus _ _ _ _ _ _ _ Hok Hc) as Hw. rewrite Es in Hw.
  destruct (resolve_all_moves (below 2 rsv) objs _ _ σ s 0 Hw (objects_nonneg _ _ _ Eo))
    as (σ1 & s1 & res & -> & Hm & Hrs). simpl.
  assert (H1 : system_ok debug σ1 (set_entry R a (set_csession c (Some s1))) lock hs).
  { eapply system_session; [done..|]. apply Hm. }
  assert (Hdom : forall i, is_Some (entries R !! i) -> is_Some (<[a := set_csession c (Some s1)]> (entries R) !! i)).
  { intros i. rewrite !lookup_insert_is_Some. by destruct (decide (a = i)); auto. }
  assert (Hd1 : entries (set_entry R a (set_csession c (Some s1))) !! b = Some d) by (simpl; by rewrite lookup_insert_ne).
  destruct res as [resolved|e].
  2:{ simpl. rewrite (set_entry_id _ b d Hd1). eexists _, _, _. split; [done|]. done. }
  pose proof (system_focus _ _ _ _ _ _ _ H1 Hd1) as Hw1.
  destruct (publish_translated_fine rsv σ1 d snapshot resolved h r _ _ Hw1
    (system_connection _ _ _ _ _ _ _ H1 Hd1) Hp (Hrs _ eq_refl)) as (σ2 & d' & res & -> & Hw2 & Hpub). simpl.
  eexists _, _, _. split; [done|]. split; [done|]. split.
  { intros i Hi. simpl. rewrite lookup_insert_is_Some. destruct (decide (b = i)); auto. }
  intros Hr. eapply system_publication; [exact H1|exact Hd1|exact Hw2|exact Hpub|exact Hr].
Qed.
End between.

(** ** Targets *)

(** The store and the holds may change without the registry. *)
Lemma system_store debug σ R lock hs σ' hs' :
  system_ok debug σ R lock hs -> world_fine σ' (sessions (entries R)) (context_holds (context R) ++ hs') ->
  system_ok debug σ' R lock hs'.
Proof. by intros [? ? ? ?] Hw. Qed.

Lemma system_hold debug σ R lock hs r k σ' h :
  system_ok debug σ R lock hs -> is_Some (nodes σ !! r) -> hold σ r k = (σ', Ok h) ->
  system_ok debug σ' R lock (h :: hs).
Proof.
  intros H [n Hn] E. eapply system_store; [exact H|]. pose proof (system_world _ _ _ _ _ H) as Hw.
  rewrite <- Permutation_middle. eapply world_step_ok; [|exact Hw]. by eapply step_hold.
Qed.

Lemma system_drop debug σ R lock hs h :
  system_ok debug σ R lock (h :: hs) -> exists σ', drop_hold σ h = Some σ' /\ system_ok debug σ' R lock hs.
Proof.
  intros H. pose proof (system_world _ _ _ _ _ H) as Hw. rewrite <- Permutation_middle in Hw.
  apply world_drop in Hw as (σ' & E & Hw). exists σ'. split; [done|]. by eapply system_store.
Qed.

(** The holds of a target. *)
Definition held (refs : TargetReferences) : list LocalHold := [tstrong refs; ttemporary refs].
Definition held_by {E} (res : result TargetReferences E) : list LocalHold :=
  match res with Ok refs => held refs | Err _ => [] end.

Lemma system_drop_target debug σ R lock hs refs :
  system_ok debug σ R lock (held refs ++ hs) -> exists σ', drop_target σ refs = Some σ' /\ system_ok debug σ' R lock hs.
Proof.
  intros H. unfold drop_target. destruct (system_drop _ _ _ _ _ _ H) as (σ1 & -> & H1). simpl.
  exact (system_drop _ _ _ _ _ _ H1).
Qed.

(** A bound target names an open connection. *)
Definition bound_holds {E} (res : result TargetConnection E) : list LocalHold :=
  match res with Ok tc => held (treferences tc) | Err _ => [] end.
Definition open_target {E} (R : Registry) (res : result TargetConnection E) : Prop :=
  forall tc, res = Ok tc -> is_Some (entries R !! tconnection tc).

Ltac by_refused := eexists _, _; split; [done|]; split; [assumption|done].

Section targets.
Context (debug : bool) (R : Registry) (lock : option (ConnectionId * Thread)) (hs : list LocalHold).

Lemma route_ok σ id c s request :
  system_ok debug σ R lock hs -> entries R !! id = Some c -> csession c = Some s ->
  exists σ' res, resolve_transaction_route σ s request = Some (σ', res) /\ system_ok debug σ' R lock (target_holds res ++ hs).
Proof.
  intros Hok Hc Hs. pose proof (system_focus _ _ _ _ _ _ _ Hok Hc) as Hw. rewrite Hs in Hw.
  destruct (run_route [] (sowner <$> others R id) [] (srefs <$> others R id) σ s _ request
    (proj1 (world_session _ _ _ _) Hw)) as (σ' & res & E & Hst).
  exists σ', res. split; [done|]. eapply system_store; [exact Hok|]. eapply world_steps in Hst; [|exact Hw].
  rewrite (sessions_focus _ _ _ _ Hc Hs). by rewrite app_assoc, (Permutation_app_comm (context_holds _)), <- app_assoc.
Qed.

Lemma connection_target_ok σ id c request :
  system_ok debug σ R lock hs -> entries R !! id = Some c ->
  exists σ' res, connection_transaction_target σ c request = Some (σ', res) /\
    system_ok debug σ' R lock (held_by res ++ hs).
Proof.
  intros Hok Hc. unfold connection_transaction_target, resolve_transaction_target.
  destruct (csession c) as [s|] eqn:Es; [|by eauto].
  destruct (route_ok σ id c s request) as (σ' & res & -> & H'); [done..|]. simpl. eexists _, _. split; [done|].
  by destruct res as [[]|].
Qed.

Lemma resolve_remote_target_ok σ key request :
  system_ok debug σ R lock hs ->
  exists σ' R' res closed, registry_resolve_remote_transaction_target σ R key request = Some (σ', R', res, closed) /\
    system_ok debug σ' R' lock hs.
Proof.
  intros Hok. unfold registry_resolve_remote_transaction_target, at_key_opt.
  destruct (lookup R key) as [c|] eqn:El; [|by eauto 8]. apply lookup_Ok in El.
  unfold resolve_remote_transaction_target.
  destruct (csession c) as [s|] eqn:Es; [|simpl; rewrite (set_entry_id _ _ _ El); by eauto 8].
  destruct (route_ok σ _ c s request Hok El Es) as (σ' & res & -> & H'). simpl.
  destruct res as [[refs|node]|e]; [|simpl; rewrite (set_entry_id _ _ _ El); by eauto 8..].
  destruct (system_drop_target _ _ _ _ _ _ H') as (σ2 & -> & H2). simpl. rewrite (set_entry_id _ _ _ El). by eauto 8.
Qed.

Lemma context_node_ok σ node :
  system_ok debug σ R lock hs -> is_Some (nodes σ !! node) ->
  exists σ' res, for_context_node σ node = Some (σ', res) /\ system_ok debug σ' R lock (held_by res ++ hs).
Proof.
  intros Hok Hn. unfold for_context_node. destruct (negb _); [by eauto|].
  destruct (hold σ node HTemporary) as [σ1 [t|e]] eqn:E1; [|apply hold_Err in E1 as ->; by eauto].
  pose proof (system_hold _ _ _ _ _ _ _ _ _ Hok Hn E1) as H1.
  assert (is_Some (nodes σ1 !! node)) as Hn1.
  { pose proof (system_world _ _ _ _ _ H1) as Hw. rewrite <- Permutation_middle in Hw.
    apply world_hold_exists in Hw. destruct Hn as [n Hn].
    destruct (hold_step _ _ _ _ _ _ (world_store _ (system_world _ _ _ _ _ Hok)) Hn E1) as (-> & _). done. }
  destruct (hold σ1 node HStrong) as [σ2 [s|e]] eqn:E2.
  - pose proof (system_hold _ _ _ _ _ _ _ _ _ H1 Hn1 E2). eexists _, _. by split.
  - apply hold_Err in E2 as ->. destruct (system_drop _ _ _ _ _ _ H1) as (σ3 & -> & H3). simpl. by eauto.
Qed.

Lemma bind_at_ok σ id c refs :
  system_ok debug σ R lock (held refs ++ hs) -> (forall x, c = Ok x -> is_Some (entries R !! id)) ->
  exists σ' res, bind_at σ id c refs = Some (σ', res) /\ system_ok debug σ' R lock (bound_holds res ++ hs) /\
    open_target R res.
Proof.
  intros Hok Hid. unfold bind_at, bind_target. destruct (system_drop_target _ _ _ _ _ _ Hok) as (σ' & Ed & H').
  destruct c as [c|e]; [|rewrite Ed; simpl; by_refused]. specialize (Hid _ eq_refl).
  destruct (csession c) as [s|]; [|rewrite Ed; simpl; by_refused].
  destruct (negb _); [rewrite Ed; simpl; by_refused|]. simpl. eexists _, _. split; [done|]. split; [done|]. by intros tc [= <-].
Qed.
End targets.

Section resolved_targets.
Context (debug : bool) (R : Registry) (lock : option (ConnectionId * Thread)) (hs : list LocalHold) (σ : Store).
Hypothesis Hok : system_ok debug σ R lock hs.

Lemma resolve_context_target_ok sender request :
  exists σ' res, resolve_context_target σ R sender request = Some (σ', res) /\
    system_ok debug σ' R lock (bound_holds res ++ hs) /\ open_target R res.
Proof.
  unfold resolve_context_target. destruct (negb _); [by_refused|].
  destruct (let? c := _ in _) as [?|?]; [|by_refused].
  destruct (manager (context R)) as [m|] eqn:Em; [|by_refused]. destruct (_ =? _); [by_refused|].
  destruct (context_node_ok _ _ _ _ _ (hnode (cstrong (mreferences m))) Hok) as (σ1 & res & -> & H1).
  { by eapply manager_node. }
  simpl. destruct res as [refs|e]; simpl; [|by_refused].
  destruct (bind_at_ok debug R lock hs σ1 (kid (mkey m)) (lookup R (mkey m)) refs) as (σ2 & res & -> & H2 & Ho); [done| |].
  { intros x Hx%lookup_Ok. eauto. }
  simpl. eexists _, _. split; [done|]. destruct res; [|by split]. split; [done|]. intros ? [= <-]. by apply Ho.
Qed.

Lemma resolve_target_ok sender c request :
  entries R !! kid sender = Some c ->
  exists σ' res, resolve_target σ R sender c request = Some (σ', res) /\
    system_ok debug σ' R lock (bound_holds res ++ hs) /\ open_target R res.
Proof.
  intros Hc. unfold resolve_target. destruct (is_context request).
  - destruct (resolve_context_target_ok sender request) as (σ1 & res & -> & H1 & Ho). simpl.
    eexists _, _. split; [done|]. destruct res; [|by split]. split; [done|]. intros ? [= <-]. by apply Ho.
  - destruct (connection_target_ok _ _ _ _ _ _ _ request Hok Hc) as (σ1 & res & -> & H1). simpl.
    destruct res as [refs|e]; [|by_refused]. unfold bind_resolved_target.
    destruct (owner_connection σ1 (target_node refs)) as [id|].
    + destruct (bind_at_ok debug R lock hs σ1 id (lookup_id R id) refs) as (σ2 & res & -> & H2 & Ho); [done| |].
      { intros x. unfold lookup_id. destruct (entries R !! id); [by eauto|done]. }
      simpl. eexists _, _. split; [done|]. destruct res; [|by split]. split; [done|]. intros ? [= <-]. by apply Ho.
    + destruct (system_drop_target _ _ _ _ _ _ H1) as (σ2 & -> & H2). simpl. by_refused.
Qed.

Lemma registry_resolve_remote_objects_ok rsv key payload :
  exists σ' R' res closed, registry_resolve_remote_objects rsv σ R key payload = Some (σ', R', res, closed) /\
    system_ok debug σ' R' lock hs.
Proof.
  unfold registry_resolve_remote_objects, at_key_opt. destruct (lookup R key) as [c|] eqn:El; [|by eauto 8].
  apply lookup_Ok in El. unfold connection_resolve_remote_objects.
  destruct (csession c) as [s|] eqn:Es; [|simpl; rewrite (set_entry_id _ _ _ El); by eauto 8].
  pose proof (system_focus _ _ _ _ _ _ _ Hok El) as Hw. rewrite Es in Hw.
  destruct (run_remote_objects [] (sowner <$> others R (kid key)) [] (srefs <$> others R (kid key)) rsv σ s _
    (payload_data payload) (payload_offsets payload) (proj1 (world_session _ _ _ _) Hw)) as (σ1 & s1 & res & -> & Hst).
  simpl. eexists _, _, _, _. split; [done|]. eapply system_session; [done..|]. by eapply world_steps in Hst.
Qed.
End resolved_targets.

(** ** Calls *)

(** The table may forget a call and skip numbers. *)
Lemma calls_ok_forget es lock t t' last :
  calls_ok es lock t last -> call_next t <= call_next t' <= u64_max -> call_routes t' ⊆ call_routes t ->
  calls_ok es lock t' last.
Proof.
  intros [H1 H2 H3 H4 H5 H6] Hn Hr.
  assert (Hsub : forall call route, call_routes t' !! call = Some route -> call_routes t !! call = Some route).
  { intros call route E. by eapply lookup_weaken. }
  split; try done.
  - intros call route Hc%Hsub. destruct (H1 _ _ Hc) as [(s & -> & ?) ?]. split; [|done]. exists s. split; [done|lia].
  - lia.
  - eauto.
  - intros id tid th s Ht Hs. eapply H5; [done|lia].
  - intros id c q p s Hc Hq Hp Hh Hcall. destruct (H6 _ _ _ _ _ Hc Hq Hp Hh Hcall) as [? Hnone]. split; [lia|].
    destruct (call_routes t' !! Thread.Local s) as [route|] eqn:E; [|done]. apply Hsub in E. congruence.
Qed.

Lemma system_forget debug σ R lock hs t :
  system_ok debug σ R lock hs -> call_next (calls R) <= call_next t <= u64_max -> call_routes t ⊆ call_routes (calls R) ->
  system_ok debug σ (set_calls R t) lock hs.
Proof. intros [? ? ? ?] ? ?. split; try done. by eapply calls_ok_forget. Qed.

Lemma system_remove debug σ R lock hs call :
  system_ok debug σ R lock hs -> system_ok debug σ (set_calls R (remove_call (calls R) call)) lock hs.
Proof.
  intros H. apply system_forget; [done| |apply delete_subseteq]. simpl.
  pose proof (calls_next _ _ _ _ (system_calls _ _ _ _ _ H)). lia.
Qed.

(** The registered call of a locked thread that now waits for it. *)
Lemma thread_at_locked es id t i tid th :
  thread_at es (Some (id, t)) i tid = Some th ->
  i = id /\ tid = Thread.id t /\ th = t \/ forall t', Thread.id t' = Thread.id t -> thread_at es (Some (id, t')) i tid = Some th.
Proof.
  unfold thread_at. destruct (es !! i); [|done]. simpl. case_bool_decide as E.
  - intros [= <-]. left. by destruct E as [-> <-].
  - intros H. right. intros t' Et. rewrite Et. by rewrite bool_decide_false.
Qed.

Lemma thread_at_own es id t : is_Some (es !! id) -> thread_at es (Some (id, t)) id (Thread.id t) = Some t.
Proof. intros [c Hc]. unfold thread_at. rewrite Hc. simpl. by rewrite bool_decide_true. Qed.

Definition awaits (t t' : Thread) (call : option CallId) : Prop :=
  Thread.id t' = Thread.id t /\ (forall c, Some c <> call -> memory t' c = memory t c) /\
  forall c, call = Some c -> memory t c = absent -> memory t' c = awaiting c.

Lemma calls_ok_register es id t t' ct ct' call reserved target last :
  calls_ok es (Some (id, t)) ct last -> is_Some (es !! id) ->
  register_call reserved ct {| Registry.rsender := id; Registry.rthread := Thread.id t; Registry.rtarget := target |} = (ct', Ok call) ->
  awaits t t' (Some call) -> calls_ok es (Some (id, t')) ct' last.
Proof.
  intros [H1 H2 H3 H4 H5 H6] Hid Hr (Ei & Hm & Hw). revert Hr. unfold register_call, checked_add.
  destruct (_ <=? _) eqn:En; [|done]. destruct (negb reserved); [done|]. intros [= <- <-]. apply Z.leb_le in En.
  assert (Hnew : call_routes ct !! Thread.Local (call_next ct + 1) = None).
  { destruct (call_routes ct !! _) as [route|] eqn:E; [|done]. destruct (H1 _ _ E) as [(s & [= <-] & ?) _]. lia. }
  assert (Hback : forall i tid th, thread_at es (Some (id, t')) i tid = Some th ->
    exists th0, thread_at es (Some (id, t)) i tid = Some th0 /\
      forall c, c <> Thread.Local (call_next ct + 1) -> memory th c = memory th0 c).
  { intros i tid th [(-> & -> & ->)|Hth]%thread_at_locked; [|by eauto using eq_sym]. exists t. rewrite Ei.
    split; [by apply thread_at_own|]. intros c Hc. apply Hm. congruence. }
  split; simpl.
  - intros c route. destruct (decide (c = Thread.Local (call_next ct + 1))) as [->|].
    + rewrite lookup_insert_eq. intros [= <-]. simpl. split; [by eexists|]. by apply H3.
    + rewrite lookup_insert_ne by done. intros [(s & -> & ?) ?]%H1. split; [|done]. exists s. split; [done|lia].
  - lia.
  - done.
  - intros c route. destruct (decide (c = Thread.Local (call_next ct + 1))) as [->|].
    + rewrite lookup_insert_eq. intros [= <-] _. simpl. exists t'. split; [rewrite <- Ei; by apply thread_at_own|].
      apply Hw; [done|]. eapply (H5 id (Thread.id t)); [by apply thread_at_own|lia].
    + rewrite lookup_insert_ne by done. intros Hc Hs. destruct (H4 _ _ Hc Hs) as (th & Hth & Hmem).
      apply thread_at_locked in Hth as [(Es & Et & ->)|Hth]; [|by eauto].
      exists t'. rewrite Es, Et, <- Ei. split; [by apply thread_at_own|]. rewrite Hm; [done|congruence].
  - intros i tid th s Hth Hs. destruct (Hback _ _ _ Hth) as (th0 & Hth0 & Hmem). rewrite Hmem.
    + eapply H5; [done|lia].
    + intros [= ->]. lia.
  - intros i c q p s Hc Hq Hp Hh Hcall. destruct (H6 _ _ _ _ _ Hc Hq Hp Hh Hcall). split; [lia|].
    rewrite lookup_insert_ne; [done|]. intros [= ?]. lia.
Qed.

Lemma absent_fresh t c : memory t c = absent -> fresh_call t c.
Proof. by intros [= ? ?]. Qed.

(** The locked thread and the call table change together. *)
Lemma system_awaits debug σ R id t t' hs ct :
  system_ok debug σ R (Some (id, t)) hs -> is_Some (entries R !! id) -> Thread.id t' = Thread.id t -> thread_ok debug t' ->
  calls_ok (entries R) (Some (id, t')) ct (next R) -> system_ok debug σ (set_calls R ct) (Some (id, t')) hs.
Proof.
  intros [? ? Ht ?] Hid Ei Ht' Hc. split; try done. simpl. intros i tid th [(-> & -> & ->)|Hth]%thread_at_locked.
  - destruct (Ht _ _ _ (thread_at_own _ _ t Hid)) as (? & ? & _). rewrite Ei. by split_and!.
  - apply (Ht i). by apply Hth.
Qed.

Section submissions.
Context (debug : bool) (σ : Store) (R : Registry) (id : ConnectionId) (t : Thread) (hs : list LocalHold).
Hypothesis Hok : system_ok debug σ R (Some (id, t)) hs.
Hypothesis Hid : is_Some (entries R !! id).

Lemma own_thread : thread_ok debug t.
Proof. by destruct (system_threads _ _ _ _ _ Hok _ _ _ (thread_at_own _ _ t Hid)) as (_ & _ & ?). Qed.

Lemma own_unknown s : call_next (calls R) < s -> memory t (Thread.Local s) = absent.
Proof. eapply calls_unknown; [apply (system_calls _ _ _ _ _ Hok)|by apply thread_at_own]. Qed.

(** A one-way submission is committed. *)
Lemma system_one_way Σ :
  exists t' Σ', commit_submission debug false t Σ None = Some (t', Σ') /\ system_ok debug σ R (Some (id, t')) hs /\
    Thread.id t' = Thread.id t.
Proof.
  assert (exists t' Σ', commit_submission debug false t Σ None = Some (t', Σ')) as (t' & Σ' & E).
  { unfold commit_submission. rewrite andb_false_r. by eauto. }
  exists t', Σ'. split; [done|]. split; [|by apply commit_submission_memory in E as (? & _)].
  eapply system_thread; [exact Hok| |].
  - eapply (commit_submission_ok _ _ _ None); [apply own_thread|done|exact E].
  - apply commit_submission_memory in E as (Ei & Hm & _). apply same_local_keeps. split; [done|]. intros s. by apply Hm.
Qed.

(** A synchronous submission is committed with its registered call. *)
Lemma system_call Σ reserved target ct call :
  register_call reserved (calls R) {| Registry.rsender := id; Registry.rthread := Thread.id t; Registry.rtarget := target |}
    = (ct, Ok call) ->
  exists t' Σ', commit_submission debug true t Σ (Some call) = Some (t', Σ') /\
    system_ok debug σ (set_calls R ct) (Some (id, t')) hs /\ Thread.id t' = Thread.id t.
Proof.
  intros Hr. assert (exists t' Σ', commit_submission debug true t Σ (Some call) = Some (t', Σ')) as (t' & Σ' & E).
  { unfold commit_submission. rewrite andb_false_r. by eauto. }
  exists t', Σ'. split; [done|]. pose proof (commit_submission_memory _ _ _ _ _ _ _ E) as Hm.
  split; [|apply Hm]. eapply system_awaits; [exact Hok|done|apply Hm| |].
  - eapply (commit_submission_ok _ _ _ (Some call)); [apply own_thread| |exact E]. apply absent_fresh.
    revert Hr. unfold register_call, checked_add. destruct (_ <=? _) eqn:En; [|done]. destruct (negb reserved); [done|].
    intros [= _ <-]. apply own_unknown. lia.
  - eapply calls_ok_register; [apply (system_calls _ _ _ _ _ Hok)|done|exact Hr|exact Hm].
Qed.

(** A registered call that is not committed is forgotten; its number is used up. *)
Lemma system_refuse lock hs' σ' reserved route ct res :
  system_ok debug σ' R lock hs' -> register_call reserved (calls R) route = (ct, res) ->
  match res with
  | Ok call => system_ok debug σ' (set_calls R (remove_call ct call)) lock hs'
  | Err _ => ct = calls R
  end.
Proof.
  intros H. unfold register_call, checked_add. destruct (_ <=? _) eqn:En; [|by intros [= <- <-]].
  destruct (negb reserved); [by intros [= <- <-]|]. intros [= <- <-]. apply Z.leb_le in En. apply system_forget; [done|simpl; lia|].
  simpl. rewrite delete_insert_eq. apply delete_subseteq.
Qed.
End submissions.

(** ** Submissions *)

Lemma call_flags (reserved : bool) σ R sender tid synchronous target R' (call : option CallId) :
  open_call reserved σ R sender tid synchronous target = (R', Ok call) ->
  match call with
  | None => synchronous = false /\ R' = R
  | Some c => synchronous = true /\ exists x ct, R' = set_calls R ct /\
      register_call reserved (calls R) {| Registry.rsender := kid sender; Registry.rthread := tid; Registry.rtarget := x |} = (ct, Ok c)
  end.
Proof.
  unfold open_call. destruct synchronous; simpl; [|by intros [= <- <-]].
  destruct (routing_id _ _) as [x|]; [|done]. destruct (register_call _ _ _) as [ct [c|]] eqn:E'; [|done].
  intros [= <- <-]. by eauto.
Qed.

Lemma open_call_Err reserved σ R sender tid synchronous target R' e :
  open_call reserved σ R sender tid synchronous target = (R', Err e) -> R' = R.
Proof.
  unfold open_call. destruct synchronous; simpl; [|done]. destruct (routing_id _ _) as [x|]; [|by intros [= <- _]].
  unfold register_call. destruct (checked_add _ _ _); [|intros [= <- _]; by destruct R].
  destruct (negb reserved); [intros [= <- _]; by destruct R|done].
Qed.

Section submit.
Context (debug : bool) (σ : Store) (R : Registry) (key : Key) (t : Thread) (hs : list LocalHold).
Hypothesis Hok : system_ok debug σ R (Some (kid key, t)) hs.

Lemma submit_transaction_ok rsv request snapshot pid euid :
  payload_fits snapshot ->
  exists σ' R' t' res,
    submit_transaction debug rsv σ R key request snapshot pid euid t (Z.land (flags request) 1 =? 0) = Some (σ', R', t', res) /\
    system_ok debug σ' R' (Some (kid key, t')) hs /\ Thread.id t' = Thread.id t.
Proof.
  intros Hp. unfold submit_transaction. destruct (is_reply request); [by eauto 9|].
  destruct (map_err Snapshot _) as [?|]; simpl; [|by eauto 9].
  destruct (lookup R key) as [c|] eqn:El; simpl; [|by eauto 9]. apply lookup_Ok in El.
  destruct (resolve_target_ok _ _ _ _ _ Hok key c request El) as (σ1 & res & -> & H1 & Ho). simpl.
  destruct res as [target|e]; [|by eauto 9]. specialize (Ho _ eq_refl). simpl in H1.
  destruct (system_drop_target _ _ _ _ _ _ H1) as (σd & Ed & Hd).
  destruct (key_for_target _ _ _); [|rewrite Ed; simpl; by eauto 9].
  destruct (open_call _ _ _ _ _ _ _) as [R1 [call|e]] eqn:Ec;
    [|apply open_call_Err in Ec as ->; rewrite Ed; simpl; by eauto 9].
  match goal with |- context [enqueue_between ?rsv ?σ R1 ?a ?b ?sn ?h ?r] =>
    destruct (enqueue_between_fine _ _ _ _ _ H1 rsv a b sn h r) as (σ2 & R2 & res & E2 & Ecalls & Hdom & H2);
      [by eauto|done|done|] end.
  specialize (H2 ltac:(by intros x _ ?)).
  assert (Hk : is_Some (entries R2 !! kid key)) by (by eauto).
  apply call_flags in Ec. destruct call as [call|].
  - destruct Ec as (-> & x & ct & -> & Hr). rewrite enqueue_between_calls, E2. simpl. rewrite <- Ecalls in Hr.
    destruct res as [address|e].
    + destruct (system_call _ _ _ _ _ _ H2 Hk (signals σ2) _ _ _ _ Hr) as (t' & Σ' & -> & H3 & Ei).
      simpl. destruct (system_drop_target _ _ _ _ _ _ (system_signals _ _ _ _ _ Σ' H3)) as (σ4 & -> & H4). simpl. by eauto 9.
    + destruct (system_drop_target _ _ _ _ _ _ H2) as (σ4 & -> & H4). simpl.
      pose proof (system_refuse _ _ _ _ _ _ _ _ _ H4 Hr) as H5. simpl in H5. by eauto 9.
  - destruct Ec as [-> ->]. rewrite E2. simpl. destruct res as [address|e].
    + destruct (system_one_way _ _ _ _ _ _ H2 Hk (signals σ2)) as (t' & Σ' & -> & H3 & Ei).
      simpl. destruct (system_drop_target _ _ _ _ _ _ (system_signals _ _ _ _ _ Σ' H3)) as (σ4 & -> & H4). simpl. by eauto 9.
    + destruct (system_drop_target _ _ _ _ _ _ H2) as (σ4 & -> & H4). simpl. by eauto 9.
Qed.

Lemma submit_reply_ok rsv call request snapshot pid euid :
  payload_fits snapshot ->
  exists σ' R' t' res,
    submit_reply debug rsv σ R key call request snapshot pid euid t false = Some (σ', R', t', res) /\
    system_ok debug σ' R' (Some (kid key, t')) hs /\ Thread.id t' = Thread.id t.
Proof.
  intros Hp. unfold submit_reply. destruct (negb _); [by eauto 9|].
  destruct (call_routes (calls R) !! call) as [route|] eqn:Ecall; [|by eauto 9].
  destruct (lookup R key) as [c|] eqn:El; [|by eauto 9]. apply lookup_Ok in El.
  pose proof (system_remove _ _ _ _ _ call Hok) as Hrem.
  destruct (lookup_id R (rsender route)) as [d|] eqn:Ed.
  2:{ destruct (system_one_way _ _ _ _ _ _ Hrem (ex_intro _ _ El) (signals σ)) as (t' & Σ' & -> & H3 & Ei). simpl.
      eexists _, _, _, _. split; [done|]. split; [by apply system_signals|done]. }
  assert (Hd : is_Some (entries R !! rsender route)) by (revert Ed; unfold lookup_id; intros; destruct (entries R !! rsender route); [by eexists|done]).
  match goal with |- context [enqueue_between ?rsv ?σ R ?a ?b ?sn ?h ?r] =>
    destruct (enqueue_between_fine _ _ _ _ _ Hok rsv a b sn h r) as (σ2 & R2 & res & E2 & Ecalls & Hdom & H2);
      [by eauto|done|done|];
    destruct (enqueue_between_fine _ _ _ _ _ Hrem rsv a b sn h r) as (σ3 & R3 & res3 & E3 & _ & _ & H3);
      [by eauto|done|done|]; rewrite enqueue_between_calls, E2 in E3 end.
  simpl in E3. simplify_eq. rewrite E2. simpl. destruct res3 as [address|e].
  - destruct (calls_serials _ _ _ _ (system_calls _ _ _ _ _ Hok) _ _ Ecall) as [(s & -> & Hs) _].
    specialize (H3 ltac:(intros x _ _ s' [= <-]; simpl; by rewrite lookup_delete_eq)).
    destruct (system_one_way _ _ _ _ _ _ H3 ltac:(simpl; eauto) (signals σ3)) as (t' & Σ' & -> & H4 & Ei). simpl.
    eexists _, _, _, _. split; [done|]. split; [|done]. rewrite Ecalls. by apply system_signals.
  - specialize (H2 ltac:(done)). by eauto 9.
Qed.
End submit.

(** ** The context manager *)

Lemma system_context debug σ R lock hs x σ' hs' :
  system_ok debug σ R lock hs -> world_fine σ' (sessions (entries R)) (context_holds x ++ hs') ->
  system_ok debug σ' (set_context R x) lock hs'.
Proof. by intros [? ? ? ?] Hw. Qed.

(** Dropping the holds of a manager. *)
Lemma world_drop_manager σ ss m hs :
  world_fine σ ss (refs_holds m ++ hs) -> exists σ', drop_manager σ m = Some σ' /\ world_fine σ' ss hs.
Proof.
  destruct m as [m|]; simpl; [|by eauto]. intros Hw. unfold drop_context_manager_refs.
  apply world_drop in Hw as (σ1 & -> & Hw). simpl. by apply world_drop in Hw.
Qed.

Definition created {E} (res : result ContextManagerRefs E) : list LocalHold :=
  match res with Ok c => [cstrong c; cweak c] | Err _ => [] end.

Section context_manager.
Context (debug : bool) (σ : Store) (R : Registry) (lock : option (ConnectionId * Thread)) (hs : list LocalHold).
Hypothesis Hok : system_ok debug σ R lock hs.

Lemma manager_refs_ok rsv id c object σ' c' res :
  entries R !! id = Some c -> connection_context_manager_refs rsv σ c object = (σ', c', res) ->
  system_ok debug σ' (set_entry R id c') lock (created res ++ hs).
Proof.
  intros Hc E. pose proof (system_focus _ _ _ _ _ _ _ Hok Hc) as Hw.
  pose proof (in_session_world created σ c (fun s =>
    let '(σ, s, res) := create_context_manager_refs rsv σ s object in (σ, s, map_err ContextNode res)) _ _ ltac:(done) Hw) as Hin.
  unfold connection_context_manager_refs in E. rewrite E in Hin. destruct Hin as [Hs Hw'].
  - intros s _ Hws. destruct (create_context_manager_refs rsv σ s object) as [[σ1 s1] r1] eqn:Ec.
    destruct (world_run _ _ _ _ (OpContextManager rsv object) Hws I) as (? & ? & ? & Er & Hw1). simpl in Er.
    rewrite Ec in Er. simplify_eq. by destruct r1.
  - eapply system_session; try done. by rewrite app_assoc, (Permutation_app_comm (context_holds _)), <- app_assoc.
Qed.

Lemma begin_context_manager_ok rsv key object authorize :
  exists σ' R' res, begin_context_manager rsv σ R key object authorize = Some (σ', R', res) /\
    system_ok debug σ' R' lock hs.
Proof.
  unfold begin_context_manager. destruct (lookup R key) as [c|] eqn:El; [|by eauto 6]. apply lookup_Ok in El.
  destruct (_ || _) eqn:Eb; [by eauto 6|]. destruct (authorize key) as [u|]; [|by eauto 6].
  destruct (match uid (context R) with Some _ => _ | None => _ end); [by eauto 6|].
  apply orb_false_elim in Eb as [Em%bool_decide_eq_false Ep%bool_decide_eq_false].
  apply eq_None_not_Some in Em. apply eq_None_not_Some in Ep.
  destruct (connection_context_manager_refs _ _ _ _) as [[σ1 c1] res] eqn:Er.
  assert (H1 : system_ok debug σ1 (set_entry R (kid key) c1) lock (created res ++ hs)) by (by eapply manager_refs_ok).
  pose proof (system_world _ _ _ _ _ H1) as Hw. unfold context_holds in Hw. simpl in Hw. rewrite Em, Ep in Hw. simpl in Hw.
  destruct res as [refs|e]; simpl in *.
  - destruct (checked_add _ _ _) as [n|].
    + eexists _, _, _. split; [done|]. eapply (system_context _ _ _ _ _ _ _ hs H1). unfold context_holds. simpl. by rewrite Em.
    + destruct (world_drop_manager σ1 _ (Some {| mkey := key; mreferences := refs |}) hs Hw) as (σ2 & Ed & Hw2).
      simpl in Ed. rewrite Ed. simpl. eexists _, _, _. split; [done|].
      eapply (system_context _ _ _ _ _ _ _ hs H1).
      unfold context_holds. simpl. by rewrite Em, Ep.
  - eexists _, _, _. split; [done|]. eapply (system_context _ _ _ _ _ _ _ hs H1). unfold context_holds. simpl. by rewrite Em, Ep.
Qed.

Lemma matching_pending key reservation m :
  matching (context R) key reservation = Some m -> exists n, pending_manager (context R) = Some (n, m).
Proof.
  unfold matching. destruct (pending_manager (context R)) as [[n m']|]; [|done]. simpl.
  destruct (_ && _); [|done]. intros [= ->]. by eauto.
Qed.

Lemma commit_context_manager_ok key reservation :
  exists σ' R' res, commit_context_manager σ R key reservation = Some (σ', R', res) /\ system_ok debug σ' R' lock hs.
Proof.
  unfold commit_context_manager. destruct (check R key); [|by eauto 6].
  destruct (matching _ _ _) as [m|] eqn:Em; [|by eauto 6]. apply matching_pending in Em as [n Ep].
  pose proof (system_world _ _ _ _ _ Hok) as Hw. unfold context_holds in Hw. rewrite Ep, <- app_assoc in Hw. simpl in Hw.
  apply world_drop_manager in Hw as (σ' & -> & Hw'). simpl. eexists _, _, _. split; [done|].
  by eapply system_context.
Qed.

Lemma abort_context_manager_ok key reservation :
  exists σ' R', abort_context_manager σ R key reservation = Some (σ', R') /\ system_ok debug σ' R' lock hs.
Proof.
  unfold abort_context_manager. destruct (matching _ _ _) as [m|] eqn:Em; [|by eauto 6].
  apply matching_pending in Em as [n Ep]. pose proof (system_world _ _ _ _ _ Hok) as Hw.
  unfold context_holds in Hw. rewrite Ep in Hw. simpl in Hw.
  rewrite (Permutation_app_comm (refs_holds _)), <- app_assoc in Hw.
  apply (world_drop_manager _ _ (Some m)) in Hw as (σ' & Ed & Hw'). simpl in Ed. rewrite Ed. simpl. eexists _, _. split; [done|].
  eapply system_context; [done|]. unfold context_holds. simpl. by rewrite app_nil_r.
Qed.

Lemma clear_context_manager_ok key :
  exists σ' R', clear_context_manager σ R key = Some (σ', R') /\ system_ok debug σ' R' lock hs.
Proof.
  unfold clear_context_manager. set (x := context R).
  set (removed := m ← manager x; managed key m). set (pend := p ← pending_manager x; managed key p.2).
  set (left := if bool_decide (is_Some removed) then None else manager x).
  set (left' := if bool_decide (is_Some pend) then None else pending_manager x).
  assert (E1 : refs_holds (manager x) ≡ₚ refs_holds removed ++ refs_holds left).
  { unfold left, removed, managed. destruct (manager x) as [m|]; [|done]. simpl. by destruct (_ =? _). }
  assert (E2 : refs_holds (snd <$> pending_manager x) ≡ₚ refs_holds pend ++ refs_holds (snd <$> left')).
  { unfold left', pend, managed. destruct (pending_manager x) as [[n m]|]; [|done]. simpl. by destruct (_ =? _). }
  pose proof (system_world _ _ _ _ _ Hok) as Hw. fold x in Hw. unfold context_holds in Hw.
  assert (Hperm : (refs_holds (manager x) ++ refs_holds (snd <$> pending_manager x)) ++ hs ≡ₚ
    refs_holds removed ++ refs_holds pend ++ (refs_holds left ++ refs_holds (snd <$> left')) ++ hs).
  { rewrite E1, E2. solve_Permutation. }
  rewrite Hperm in Hw. apply world_drop_manager in Hw as (σ1 & -> & Hw). simpl.
  apply world_drop_manager in Hw as (σ2 & -> & Hw). simpl. eexists _, _. split; [done|]. by eapply system_context.
Qed.
End context_manager.

(** ** Opening a connection *)

Lemma world_open σ ss hs σ1 s σ2 c :
  world_fine σ ss hs -> new_session σ = (σ1, s) -> new_connection σ1 s = (σ2, c) ->
  csession c = Some s /\ world_fine σ2 (s :: ss) hs.
Proof.
  intros Hw. unfold new_session, new_connection. destruct (NodeOwner.new σ) as [σ0 own] eqn:En. intros [= <- <-] [= <- <-].
  split; [done|]. simpl.
  assert (Hs : world_fine σ0 ({| sowner := own; srefs := ∅ |} :: ss) hs).
  { rewrite Permutation_cons_append. unfold world_fine, world_of. rewrite !fmap_app. simpl.
    eapply world_step_ok; [apply step_new_table|]. eapply world_step_ok; [by apply step_new_owner|exact Hw]. }
  set (r := fresh (dom (signals σ0))).
  eapply (run_world _ _ _ _ (OpAttach r) _ _ (world_signals _ _ _ (<[r := default_signal]> (signals σ0)) Hs)); done.
Qed.

Lemma disconnect_fine `{!Iteration Z OwnedTransaction} σ c ss hs :
  world_fine σ (option_list (csession c) ++ ss) hs -> connection_ok c ->
  exists σ' c' closed, disconnect σ c = Some (σ', c', closed) /\ world_fine σ' ss hs.
Proof.
  intros Hw [Hq _]. unfold disconnect.
  apply (world_signals _ _ _ (alter WorkSignal.close (csignal c) (signals σ))) in Hw.
  set (σ1 := set_signals _ _) in *.
  assert (exists σ2, match csession c with Some s => drop_session σ1 s | None => Some σ1 end = Some σ2 /\ world_fine σ2 ss hs)
    as (σ2 & -> & Hw2).
  { destruct (csession c) as [s|]; [|by eauto]. simpl in Hw.
    destruct (run_drop_session [] (sowner <$> ss) [] (srefs <$> ss) σ1 s hs (proj1 (world_session _ _ _ _) Hw)) as (σ2 & E & Hst).
    exists σ2. split; [done|]. exact (steps_ok [] _ [] _ _ _ _ _ Hw Hst). }
  simpl. destruct (ctransactions c) as [q|]; simpl; [|by eauto 6]. destruct (Hq q eq_refl) as (g & <- & Hg).
  destruct (TransactionQueue.drop_queue_trace g Hg) as (a & files & -> & _). simpl. by eauto 6.
Qed.

Lemma new_connection_ok σ s σ' c : new_connection σ s = (σ', c) -> connection_ok c.
Proof. intros [= _ <-]. split; [done|]. by split; [intros ? ?%not_elem_of_nil|]. Qed.

(** A new connection has no threads and no transactions. *)
Lemma system_insert debug σ R hs σ' c :
  system_ok debug σ R None hs -> next R + 1 <= u64_max -> connection_ok c -> cthreads c = ∅ -> ctransactions c = None ->
  world_fine σ' (option_list (csession c) ++ sessions (entries R)) (context_holds (context R) ++ hs) ->
  system_ok debug σ' {| identity := identity R; next := next R + 1; entries := <[next R + 1 := c]> (entries R);
                        context := context R; calls := calls R |} None hs.
Proof.
  intros [_ Hcs Ht Hcalls] Hmax Hc Et Eq Hw.
  assert (Hnew : entries R !! (next R + 1) = None).
  { apply eq_None_not_Some. intros H%(calls_ids _ _ _ _ Hcalls). lia. }
  assert (Ha : forall i tid th, thread_at (<[next R + 1 := c]> (entries R)) None i tid = Some th ->
    thread_at (entries R) None i tid = Some th).
  { intros i tid th. unfold thread_at. destruct (decide (i = next R + 1)) as [->|]; [|by rewrite lookup_insert_ne].
    rewrite lookup_insert_eq. simpl. by rewrite Et, lookup_empty. }
  split; simpl.
  - by rewrite sessions_insert, delete_id.
  - by apply map_Forall_insert_2.
  - intros i tid th Hth%Ha. by apply (Ht i).
  - destruct Hcalls as [H1 H2 H3 H4 H5 H6]. split; try done.
    + intros call route Hr. destruct (H1 _ _ Hr). split; [done|lia].
    + intros i. rewrite lookup_insert_is_Some. intros [<-|[_ Hi%H3]]; lia.
    + intros call route Hr Hs. destruct (H1 _ _ Hr) as [_ ?].
      unfold thread_at in *. rewrite lookup_insert_ne in * by lia. eauto.
    + eauto.
    + intros i c1 q p s. destruct (decide (i = next R + 1)) as [->|]; [|rewrite lookup_insert_ne by done; eauto].
      rewrite lookup_insert_eq. intros [= <-]. by rewrite Eq.
Qed.

Lemma register_ok `{!Iteration Z OwnedTransaction} debug σ R hs reserved σ1 s σ2 c :
  system_ok debug σ R None hs -> new_session σ = (σ1, s) -> new_connection σ1 s = (σ2, c) ->
  exists σ' R' res closed, register reserved σ2 R c = Some (σ', R', res, closed) /\ system_ok debug σ' R' None hs.
Proof.
  intros Hok En Ec. destruct (world_open _ _ _ _ _ _ _ (system_world _ _ _ _ _ Hok) En Ec) as [Es Hw].
  pose proof (new_connection_ok _ _ _ _ Ec) as Hc.
  assert (Hrefuse : forall σ3 c3 e, world_fine σ3 (option_list (csession c3) ++ sessions (entries R)) (context_holds (context R) ++ hs) ->
    connection_ok c3 -> exists σ' R' res closed,
    ('(σ, _, closed) ← disconnect σ3 c3; Some (σ, R, Err e, closed)) = Some (σ', R', res : result Key Registry.Error, closed) /\
    system_ok debug σ' R' None hs).
  { intros σ3 c3 e Hw3 Hc3. destruct (disconnect_fine _ _ _ _ Hw3 Hc3) as (σ4 & c4 & closed & -> & Hw4). simpl.
    eexists _, _, _, _. split; [done|]. by eapply system_store. }
  assert (Hw' : world_fine σ2 (option_list (csession c) ++ sessions (entries R)) (context_holds (context R) ++ hs)) by (by rewrite Es).
  unfold register, id_next, checked_add. destruct (_ <=? _) eqn:Em; simpl; [|by apply Hrefuse]. apply Z.leb_le in Em.
  destruct (negb reserved); [by apply Hrefuse|].
  destruct (connection_bind_routing_id σ2 c (next R + 1)) as [[σ3 c3] res] eqn:Eb.
  assert (H3 : session_only c c3 /\ world_fine σ3 (option_list (csession c3) ++ sessions (entries R)) (context_holds (context R) ++ hs)).
  { revert Eb. unfold connection_bind_routing_id, in_session. rewrite Es.
    destruct (bind_routing_id σ2 (sowner s) (next R + 1)) as [σ4 r] eqn:Er. intros [= <- <- _]. split; [done|]. simpl.
    eapply (run_world _ _ _ _ (OpBind (next R + 1)) _ _ Hw); [done|]. simpl. by rewrite Er. }
  destruct H3 as [Hs Hw3]. pose proof (session_only_ok _ _ Hc Hs) as Hc3. destruct res as [[]|e]; [|by apply Hrefuse].
  destruct Hs as (E1 & E2 & _). injection Ec as _ <-. eexists _, _, _, _. split; [done|]. by eapply system_insert.
Qed.

(** ** Closing a connection *)

(** A call whose caller is to be told that its target died. *)
Definition notifiable (R : Registry) (e : CallId * CallRoute) : Prop :=
  (exists s, e.1 = Thread.Local s /\ s <= call_next (calls R)) /\ call_routes (calls R) !! e.1 = None /\
  forall c, entries R !! rsender e.2 = Some c ->
    exists th, cthreads c !! rthread e.2 = Some th /\ memory th e.1 = awaiting e.1.

Lemma dead_reply_keeps debug ct t Σ call t' Σ' res :
  (exists s, call = Thread.Local s /\ s <= call_next ct) -> call_routes ct !! call = None ->
  enqueue_dead_reply t Σ call = (t', Σ', res) -> thread_ok debug t -> thread_ok debug t' /\ keeps ct t t'.
Proof.
  intros (s & -> & Hs) Hn E Ht. split; [by eapply enqueue_dead_reply_ok|]. apply enqueue_dead_reply_memory in E as [Ei Hm].
  split; [done|]. intros s'. destruct (decide (s' = s)) as [->|]; [|by rewrite Hm by congruence].
  split; [lia|]. rewrite Hn. by intros [].
Qed.

(** What a caller remembers of a call whose target died: [BR_TRANSACTION_COMPLETE] and
    [BR_DEAD_REPLY] wait for it. *)
Definition told (c : CallId) : list OutgoingCall * list LocalWork :=
  ([OActive c], [TransactionComplete (Some c); DeadReplyWork c]).

Lemma enqueue_dead_reply_told t Σ c t' Σ' res :
  memory t c = awaiting c -> enqueue_dead_reply t Σ c = (t', Σ', res) -> memory t' c = told c.
Proof.
  intros Hm E. pose proof (enqueue_dead_reply_awaiting t Σ c Hm) as (t1 & Σ1 & E1). rewrite E in E1. simplify_eq.
  injection Hm as Ho Hw. revert E. unfold enqueue_dead_reply. destruct (negb _); [done|].
  destruct (count_work _ _ =? 2)%nat eqn:En; simpl; [|done]. intros [= <- _]. apply Nat.eqb_eq in En.
  rewrite <- positions_count in En. destruct (positions _ _ _) as [|p [|q [|]]] eqn:Ep; try done.
  apply positions_two in Ep as (l1 & l2 & l3 & El & _ & _ & Hn1 & Hn2 & Hn3).
  unfold memory, told. simpl. rewrite El, convert_exact by done. f_equal; [done|].
  rewrite El in Hw. revert Hw. stacks. intros Hw. pose proof (f_equal length Hw) as Hl.
  rewrite !length_app in Hl. simpl in Hl. rewrite length_app in Hl. simpl in Hl.
  destruct (keep _ l1), (keep _ l2), (keep _ l3); simpl in Hl; [done|lia..].
Qed.

(** Telling one caller leaves the others to be told. *)
Lemma notifiable_after R call route c th t' dead :
  entries R !! rsender route = Some c -> cthreads c !! rthread route = Some th ->
  (forall x, x <> call -> memory t' x = memory th x) -> call ∉ dead.*1 -> Forall (notifiable R) dead ->
  Forall (notifiable (set_entry R (rsender route) (set_cthreads c (<[rthread route := t']> (cthreads c))))) dead.
Proof.
  intros Ec Eth Hmem Hnot Hd. rewrite Forall_forall in Hd |- *. intros [x r] Hin.
  destruct (Hd _ Hin) as (? & ? & Hw'). split_and!; [done..|]. simpl in *.
  intros d. destruct (decide (rsender r = rsender route)) as [Er|]; [|rewrite lookup_insert_ne by done; apply Hw'].
  rewrite Er, lookup_insert_eq. intros [= <-]. rewrite Er in Hw'. destruct (Hw' _ Ec) as (th1 & Eth1 & Hm1). simpl.
  destruct (decide (rthread r = rthread route)) as [Et|]; [|rewrite lookup_insert_ne by done; by eauto].
  rewrite Et, lookup_insert_eq. rewrite Et, Eth in Eth1. simplify_eq. eexists. split; [done|]. rewrite Hmem; [done|].
  intros ->. apply Hnot. by apply (list_elem_of_fmap_2 fst _ (call, r)).
Qed.

Lemma notify_callers_ok debug hs dead : forall σ R,
  system_ok debug σ R None hs -> NoDup dead.*1 -> Forall (notifiable R) dead ->
  exists σ' R', notify_callers σ R dead = (σ', R', Ok tt) /\ system_ok debug σ' R' None hs.
Proof.
  induction dead as [|[call route] dead IH]; intros σ R Hok Hnd Hd; simpl; [by eauto|].
  apply NoDup_cons in Hnd as [Hnot Hnd]. apply Forall_cons in Hd as [(Hs & Hn & Hw) Hd]. simpl in *.
  destruct (entries R !! rsender route) as [c|] eqn:Ec; [|by apply IH].
  unfold existing_thread. destruct (Hw _ eq_refl) as (th & Eth & Hm). rewrite Eth.
  destruct (enqueue_dead_reply_awaiting th (signals σ) call Hm) as (t' & Σ' & E). rewrite E.
  assert (thread_fine debug (rthread route) th) as (Ei & Hz & Hth).
  { apply (system_threads _ _ _ _ _ Hok (rsender route)). unfold thread_at. by rewrite Ec. }
  destruct (dead_reply_keeps debug (calls R) _ _ _ _ _ _ Hs Hn E Hth) as [Ht' Hk].
  apply IH; [|done|].
  - apply system_signals. eapply system_cthreads; [done..| |].
    + intros tid t0. destruct (decide (tid = rthread route)) as [->|].
      * rewrite lookup_insert_eq, Eth. intros [= <-]. split; [|done]. destruct Hk as [? _]. unfold thread_fine. split_and!; [congruence|done..].
      * rewrite lookup_insert_ne by done. intros Ht0. rewrite Ht0. split; [|apply keeps_refl].
        apply (system_threads _ _ _ _ _ Hok (rsender route)). unfold thread_at. by rewrite Ec.
    + intros tid. rewrite lookup_insert_is_Some. destruct (decide (rthread route = tid)); auto.
  - eapply notifiable_after; [done..| |done|done]. by apply enqueue_dead_reply_memory in E as [_ ?].
Qed.

(** Every caller is told, and no other call is touched. *)
Lemma notify_callers_told dead : forall σ R σ' R',
  NoDup dead.*1 -> Forall (notifiable R) dead -> notify_callers σ R dead = (σ', R', Ok tt) ->
  calls R' = calls R /\
  (forall id tid th, thread_at (entries R) None id tid = Some th ->
     exists th', thread_at (entries R') None id tid = Some th' /\ forall c, c ∉ dead.*1 -> memory th' c = memory th c) /\
  (forall call route, (call, route) ∈ dead -> is_Some (entries R !! rsender route) ->
     exists th', thread_at (entries R') None (rsender route) (rthread route) = Some th' /\ memory th' call = told call).
Proof.
  induction dead as [|[call route] dead IH]; intros σ R σ' R' Hnd Hd; simpl.
  { intros [= _ <-]. split_and!; [done|by eauto|]. by intros ? ? ?%not_elem_of_nil. }
  apply NoDup_cons in Hnd as [Hnot Hnd]. apply Forall_cons in Hd as [(Hs & Hn & Hw) Hd]. simpl in *.
  destruct (entries R !! rsender route) as [c|] eqn:Ec.
  2:{ intros H. destruct (IH _ _ _ _ Hnd Hd H) as (E1 & H2 & H3). split_and!; [done| |].
      - intros id tid th Hth. destruct (H2 _ _ _ Hth) as (th' & ? & Hk). exists th'. split; [done|]. intros x Hx. apply Hk. set_solver.
      - intros x r [Hx|Hx]%elem_of_cons Hr; [|by eauto]. simplify_eq. rewrite Ec in Hr. by destruct Hr. }
  unfold existing_thread. destruct (Hw _ eq_refl) as (th & Eth & Hm). rewrite Eth.
  destruct (enqueue_dead_reply th (signals σ) call) as [[t' Σ'] [[]|]] eqn:E; [|done]. intros H.
  set (c' := set_cthreads c (<[rthread route := t']> (cthreads c))) in *.
  pose proof (enqueue_dead_reply_told _ _ _ _ _ _ Hm E) as Ht. apply enqueue_dead_reply_memory in E as [_ Hmem].
  assert (Hat : forall id tid th0, thread_at (entries R) None id tid = Some th0 ->
    exists th1, thread_at (entries (set_entry R (rsender route) c')) None id tid = Some th1 /\
      forall x, x <> call -> memory th1 x = memory th0 x).
  { intros id tid th0. unfold thread_at. simpl. destruct (decide (id = rsender route)) as [->|]; [|rewrite lookup_insert_ne by done; by eauto].
    rewrite lookup_insert_eq, Ec. simpl. destruct (decide (tid = rthread route)) as [->|]; [|rewrite lookup_insert_ne by done; by eauto].
    rewrite lookup_insert_eq, Eth. intros [= <-]. by eauto. }
  assert (Hd' : Forall (notifiable (set_entry R (rsender route) c')) dead) by (by eapply notifiable_after).
  destruct (IH _ _ _ _ Hnd Hd' H) as (E1 & H2 & H3). split_and!; [done| |].
  - intros id tid th0 Hth0. destruct (Hat _ _ _ Hth0) as (th1 & Hth1 & Hk1). destruct (H2 _ _ _ Hth1) as (th2 & Hth2 & Hk2).
    exists th2. split; [done|]. intros x [Hx Hxs]%not_elem_of_cons. rewrite Hk2, Hk1; done.
  - intros x r [Hx|Hx]%elem_of_cons Hr.
    + simplify_eq. assert (Hth1 : thread_at (entries (set_entry R (rsender route) c')) None (rsender route) (rthread route) = Some t').
      { unfold thread_at. simpl. rewrite lookup_insert_eq. simpl. by rewrite lookup_insert_eq. }
      destruct (H2 _ _ _ Hth1) as (th2 & Hth2 & Hk2). exists th2. split; [done|]. by rewrite Hk2.
    + apply (H3 x r Hx). simpl. rewrite lookup_insert_is_Some. destruct (decide (rsender route = rsender r)); auto.
Qed.

(** The calls to a connection leave the table. *)
Lemma foldl_remove dead : forall t,
  call_next (foldl (fun t e => remove_call t e.1) t dead) = call_next t /\
  forall call route, call_routes (foldl (fun t (e : CallId * CallRoute) => remove_call t e.1) t dead) !! call = Some route <->
    (call ∉ dead.*1) /\ call_routes t !! call = Some route.
Proof.
  induction dead as [|[c r] dead IH]; intros t; simpl.
  { split; [done|]. intros call route. pose proof (not_elem_of_nil call). naive_solver. }
  destruct (IH (remove_call t c)) as [-> H]. split; [done|]. intros call route. rewrite H. simpl.
  rewrite lookup_delete_Some, not_elem_of_cons. naive_solver.
Qed.

Lemma take_target_spec `{!Iteration CallId CallRoute} t target t' dead :
  take_target t target = (t', dead) ->
  NoDup dead.*1 /\ call_next t' = call_next t /\ call_routes t' ⊆ call_routes t /\
  (forall call route, (call, route) ∈ dead <-> call_routes t !! call = Some route /\ (Registry.rtarget route).1 = target) /\
  (forall call route, (call, route) ∈ dead -> call_routes t' !! call = None).
Proof.
  unfold take_target. intros [= <- <-]. set (l := filter _ _).
  assert (Hl : forall call route, (call, route) ∈ l <-> call_routes t !! call = Some route /\ (Registry.rtarget route).1 = target).
  { intros. unfold l. rewrite list_elem_of_filter, iter_perm, elem_of_map_to_list. simpl. naive_solver. }
  destruct (foldl_remove l t) as [En Hr]. split_and!; [|done| |done|].
  - apply NoDup_fst_filter. rewrite iter_perm. apply NoDup_fst_map_to_list.
  - apply map_subseteq_spec. intros call route. rewrite Hr. by intros [_ ?].
  - intros call route Hin. destruct (call_routes (foldl _ _ _) !! call) as [r'|] eqn:E; [|done].
    apply Hr in E as [E _]. destruct E. by apply (list_elem_of_fmap_2 fst _ (call, route)).
Qed.

Lemma system_delete debug σ R hs id c σ' :
  system_ok debug σ R None hs -> entries R !! id = Some c -> world_fine σ' (others R id) (context_holds (context R) ++ hs) ->
  system_ok debug σ' (set_entries R (delete id (entries R))) None hs.
Proof.
  intros [_ Hcs Ht Hcalls] Hc Hw.
  assert (Hsub : forall i x, delete id (entries R) !! i = Some x -> entries R !! i = Some x).
  { intros i x. rewrite lookup_delete_Some. by intros []. }
  assert (Ha : forall i tid th, thread_at (delete id (entries R)) None i tid = Some th -> thread_at (entries R) None i tid = Some th).
  { intros i tid th. unfold thread_at. destruct (delete id (entries R) !! i) as [x|] eqn:E; [|done]. by rewrite (Hsub _ _ E). }
  split; simpl; [done|by apply map_Forall_delete| |].
  - intros i tid th Hth%Ha. by apply (Ht i).
  - destruct Hcalls as [H1 H2 H3 H4 H5 H6]. split; try done.
    + intros i [x Hx]. apply H3. eauto.
    + intros call route Hr [x Hx]. destruct (H4 _ _ Hr (ex_intro _ _ (Hsub _ _ Hx))) as (th & Hth & Hm). exists th. split; [|done].
      revert Hth. unfold thread_at. by rewrite (Hsub _ _ Hx), Hx.
    + eauto.
    + eauto.
Qed.

Lemma clear_context_manager_same σ R key σ' R' :
  clear_context_manager σ R key = Some (σ', R') -> entries R' = entries R /\ calls R' = calls R.
Proof.
  unfold clear_context_manager. destruct (drop_manager σ _) as [σ1|]; [|done]. simpl.
  destruct (drop_manager σ1 _) as [σ2|]; [|done]. simpl. by intros [= _ <-].
Qed.

Lemma close_tells `{!Iteration Z OwnedTransaction, !Iteration CallId CallRoute} debug σ R hs key c :
  system_ok debug σ R None hs -> check R key = Ok tt -> entries R !! kid key = Some c ->
  exists σ' R' closed, Registry.close σ R key = Some (σ', R', Ok tt, closed) /\ system_ok debug σ' R' None hs /\
    forall call route, call_routes (calls R) !! call = Some route -> (Registry.rtarget route).1 = kid key ->
      call_routes (calls R') !! call = None /\
      (rsender route <> kid key -> is_Some (entries R !! rsender route) ->
       exists th, thread_at (entries R') None (rsender route) (rthread route) = Some th /\ memory th call = told call).
Proof.
  intros Hok Hkey Ec. unfold Registry.close. rewrite Hkey, Ec.
  destruct (take_target _ _) as [t dead] eqn:Et. simpl in Et. apply take_target_spec in Et as (Hnd & En & Hsub & Hdead & Hnone).
  destruct (disconnect_fine σ c _ _ (system_focus _ _ _ _ _ _ _ Hok Ec) (system_connection _ _ _ _ _ _ _ Hok Ec))
    as (σ1 & c1 & closed & -> & Hw1). simpl.
  pose proof (system_delete _ _ _ _ _ _ _ Hok Ec Hw1) as H1.
  eapply (system_forget _ _ _ _ _ t) in H1; [|simpl; pose proof (calls_next _ _ _ _ (system_calls _ _ _ _ _ Hok)); lia|done].
  assert (Hnote : Forall (notifiable (set_calls (set_entries R (delete (kid key) (entries R))) t)) dead).
  { apply Forall_forall. intros [call route] Hin. pose proof (Hnone _ _ Hin). apply Hdead in Hin as [Hr _].
    pose proof (system_calls _ _ _ _ _ Hok) as [G1 G2 G3 G4 G5 G6]. destruct (G1 _ _ Hr) as [(s & -> & ?) _].
    split; [exists s; split; [done|simpl; lia]|]. split; [done|]. simpl. intros d Hd. apply lookup_delete_Some in Hd as [_ Hd].
    destruct (G4 _ _ Hr (ex_intro _ _ Hd)) as (th & Hth & Hm). exists th. split; [|done]. revert Hth. unfold thread_at. by rewrite Hd. }
  destruct (notify_callers_ok debug hs dead _ _ H1 Hnd Hnote) as (σ2 & R2 & E2 & H2).
  destruct (notify_callers_told _ _ _ _ _ Hnd Hnote E2) as (Ecalls & _ & Htold). rewrite E2.
  destruct (clear_context_manager_ok _ _ _ _ _ H2 key) as (σ3 & R3 & E3 & H3). rewrite E3. simpl.
  apply clear_context_manager_same in E3 as [Ee3 Ec3]. eexists _, _, _. split; [done|]. split; [done|].
  intros call route Hr Hk. assert (Hin : (call, route) ∈ dead) by (by apply Hdead). rewrite Ec3, Ecalls, Ee3.
  split; [by eapply Hnone|]. intros Hne Hs. apply Htold; [done|]. simpl. by rewrite lookup_delete_ne.
Qed.

Lemma close_ok `{!Iteration Z OwnedTransaction, !Iteration CallId CallRoute} debug σ R hs key :
  system_ok debug σ R None hs ->
  exists σ' R' res closed, Registry.close σ R key = Some (σ', R', res, closed) /\ system_ok debug σ' R' None hs.
Proof.
  intros Hok. destruct (check R key) as [[]|e] eqn:Ek; [|unfold Registry.close; rewrite Ek; by eauto 8].
  destruct (entries R !! kid key) as [c|] eqn:Ec; [|unfold Registry.close; rewrite Ek, Ec; by eauto 8].
  destruct (close_tells debug σ R hs key c Hok Ek Ec) as (? & ? & ? & -> & ? & _). by eauto 8.
Qed.
