(* ===== verification/DeviceRequests.v ===== *)
(** * Requests of a process keep the invariant

    The command stream of [BINDER_WRITE_READ], its header, the control requests and the
    operations for remote peers, run by a process on its open connection: each returns, and
    leaves a state with the invariant of [DeviceInvariant]. *)
From S2P Require Import Prelude RoutingAuthority TransactionQueue DeathWork TransactionWire ScatterGather.
From S2P Require Import Command AuthorityProtocol Objects TransactionLayout TransactionSnapshot TransactionRequest.
From S2P Require Import NodeWork WorkSignal NodeOwner ReferenceTable Session Thread.
From S2P Require Import ReceiveArena TransferImage PreparedTransaction World Connection Registry WriteRead Ioctl Device.
From S2P Require Import DeviceInvariant DeviceOperations DeviceRouting.

(** ** One request of a locked thread *)

Section machine.
Context {T E : Type} `{!TransactionSource T E}.
Context (debug : bool) (key : Key) (tid : Z) (hs : list LocalHold) (sender : SenderIdentity).

Definition machine_ok (m : Machine T) : Prop :=
  system_ok debug (mstore m) (mregistry m) (Some (kid key, mthread m)) hs /\ Thread.id (mthread m) = tid.

(** The snapshots of a source are captured from a decoded request. *)
Hypothesis source_fits : forall rsv s input request n s' snapshot,
  TransactionRequest.decode input = Ok (request, n) -> capture_source rsv s request = (s', Ok snapshot) ->
  payload_fits snapshot.

Lemma looper_record_ok m remaining :
  machine_ok m -> exists m' res, looper_record (E := E) debug key m remaining = Some (m', res) /\ machine_ok m'.
Proof.
  intros [Hok Ei]. unfold looper_record.
  destruct (registry_execute_looper_command_ok _ _ _ _ _ _ Hok remaining) as (R' & t' & res & -> & H' & Ei'). simpl.
  eexists _, _. split; [done|]. split; [done|]. simpl. congruence.
Qed.

Lemma transaction_record_ok rsv m remaining :
  machine_ok m -> exists m' res, transaction_record (E := E) debug rsv key m sender remaining = Some (m', res) /\ machine_ok m'.
Proof.
  intros [Hok Ei]. unfold transaction_record. destruct (TransactionRequest.decode remaining) as [[request n]|] eqn:Ed.
  2:{ eexists _, _. by split. }
  destruct (capture_source _ _ _) as [s [snapshot|e]] eqn:Ec; [|by eexists _, _].
  pose proof (source_fits _ _ _ _ _ _ _ Ed Ec) as Hp. unfold reply_record, submit_record. destruct (is_reply request).
  - destruct (current_incoming _) as [call|]; [|by eexists _, _]. simpl. unfold reserve_submission, ensure.
    destruct (below 0 rsv [0%nat]); simpl; [|by eexists _, _].
    destruct (submit_reply_ok _ _ _ _ _ _ Hok (below 1 rsv) call request snapshot (spid sender) (seuid sender) Hp)
      as (σ1 & R1 & t1 & res & -> & H1 & E1). simpl.
    destruct res as [a|e]; [|eexists _, _; split; [done|]; split; [done|simpl; congruence]].
    destruct (finish_incoming t1 call) as [t2 r2] eqn:Ef. eexists _, _. split; [done|]. simpl.
    pose proof (finish_incoming_same _ _ _ _ Ef) as Hs. split; [|simpl; destruct Hs; congruence].
    eapply system_step; [exact H1| |by apply same_local_keeps]. intros Ht1. by eapply finish_incoming_ok.
  - unfold reserve_submission, ensure. destruct (below 0 rsv [0%nat]); simpl; [|by eexists _, _].
    assert (Hsub : exists σ1 R1 t1 res, submit_transaction debug (below 1 rsv) (mstore m) (mregistry m) key request snapshot
       (spid sender) (seuid sender) (mthread m) (Z.land (flags request) 1 =? 0) = Some (σ1, R1, t1, res) /\
       system_ok debug σ1 R1 (Some (kid key, t1)) hs /\ Thread.id t1 = Thread.id (mthread m)) by (by apply submit_transaction_ok).
    destruct Hsub as (σ1 & R1 & t1 & res & Es & H1 & E1).
    destruct (Z.land (flags request) 1 =? 0); [destruct (below 0 rsv [1%nat]); simpl; [|by eexists _, _]|simpl].
    all: rewrite Es; simpl; eexists _, _; split; [done|]; split; [done|simpl; congruence].
Qed.

Lemma execute_record_ok rsv m remaining :
  machine_ok m -> exists m' res, execute_record (E := E) debug rsv key m sender remaining = Some (m', res) /\ machine_ok m'.
Proof.
  intros Hm. pose proof Hm as [Hok Ei]. unfold execute_record. destruct (Command.decode remaining) as [[c n]|]; [|by eauto].
  destruct (is_looper_command _); [by apply looper_record_ok|].
  destruct (is_transaction _); [by apply transaction_record_ok|]. destruct (bool_decide _).
  - unfold free_record. edestruct (registry_free_transaction_buffer_ok debug _ _ key _ hs Hok) as (R' & res & closed & -> & H').
    simpl. eexists _, _. split; [done|]. by split.
  - destruct (registry_execute _ _ _ _) as [[σ1 R1] res] eqn:Ex. eexists _, _. split; [done|].
    split; [|done]. by eapply registry_execute_ok.
Qed.

Lemma executes_ok rsv i m w ns m' : executes (E := E) debug rsv key sender i m w ns m' -> machine_ok m -> machine_ok m'.
Proof.
  induction 1 as [|i m w n m1 ns m2 Hw Hr _ IH]; [done|]. intros Hm. apply IH.
  destruct (execute_record_ok (below i rsv) m w Hm) as (? & ? & E' & ?). rewrite Hr in E'. by simplify_eq.
Qed.

Lemma write_loop_ok rsv m w :
  machine_ok m -> exists m' c res, write_loop (E := E) (length w) debug rsv key m sender w 0 0 = Some (m', c, res) /\ machine_ok m'.
Proof.
  intros Hm. pose proof (write_loop_spec (E := E) debug key sender rsv w (length w) 0 m 0 ltac:(unfold len; lia) ltac:(unfold len; lia)) as Hs.
  cbv beta in Hs.
  destruct (write_loop _ _ _ _ _ _ _ _ _) as [[[m' c] res]|].
  - eexists _, _, _. split; [done|]. destruct Hs as (ns & m1 & Hx & _ & Hres). pose proof (executes_ok _ _ _ _ _ _ Hx Hm) as Hm1.
    destruct res as [[]|e]; [by destruct Hres as [_ ->]|]. destruct Hres as [_ Hr].
    destruct (execute_record_ok (below (0 + length ns) rsv) m1 (drop (Z.to_nat c) w) Hm1) as (? & ? & E' & ?).
    rewrite Hr in E'. by simplify_eq.
  - destruct Hs as (ns & m1 & Hx & _ & Hr). pose proof (executes_ok _ _ _ _ _ _ Hx Hm) as Hm1.
    destruct (execute_record_ok (below (0 + length ns) rsv) m1 (drop (Z.to_nat (0 + total ns)) w) Hm1) as (? & ? & E' & ?).
    by rewrite Hr in E'.
Qed.

Lemma read_phase_ok rsv m output :
  machine_ok m -> exists m' output' res, read_phase (E := E) debug rsv key m output = Some (m', output', res) /\ machine_ok m'.
Proof.
  intros Hm. pose proof Hm as [Hok Ei]. unfold read_phase. destruct (ensure_read_eligible _); [|by eauto].
  destruct (registry_read_spawn_request _ _ _ _) as [[R1 o1] r1] eqn:E1.
  pose proof (registry_read_spawn_request_ok _ _ _ _ _ Hok _ _ _ _ _ _ E1) as H1.
  destruct r1 as [n1|]; [|by eexists _, _, _].
  assert (Hc1 : exists c, entries R1 !! kid key = Some c).
  { revert E1. unfold registry_read_spawn_request. destruct (lookup _ _); [|done]. destruct (read_spawn_request _ _ _) as [[??]?].
    intros [= <- _ _]. simpl. rewrite lookup_insert_eq. eauto. }
  destruct (negb _); [by eexists _, _, _|]. simpl.
  destruct (registry_read_node_work _ _ _ _) as [[σ2 o2] r2] eqn:E2.
  pose proof (registry_read_node_work_ok _ _ _ _ _ H1 _ _ _ _ _ E2) as H2.
  destruct r2 as [n2|]; [|by eexists _, _, _]. destruct (negb _); [by eexists _, _, _|]. simpl.
  destruct (read_local_work_keeps _ _ _ _ _ _ H2 o2 Hc1) as (t3 & o3 & n3 & -> & H3 & Ei3). simpl.
  destruct (negb _); [eexists _, _, _; split; [done|]; split; [done|simpl; congruence]|].
  destruct (registry_read_death_work_ok _ _ _ _ _ H3 key o3) as (R4 & o4 & r4 & -> & H4). simpl.
  destruct r4 as [n4|]; [|eexists _, _, _; split; [done|]; split; [done|simpl; congruence]].
  destruct (negb _); [eexists _, _, _; split; [done|]; split; [done|simpl; congruence]|].
  destruct (deliver_transaction_ok _ _ _ _ _ _ H4 rsv o4) as (R5 & t5 & o5 & r5 & closed & -> & H5 & Ei5). simpl.
  eexists _, _, _. split; [done|]. split; [done|simpl; congruence].
Qed.

Lemma write_read_ok rsv m write read :
  machine_ok m -> exists m' read' consumed cause,
    write_read (E := E) debug rsv key m write read sender = Some (m', read', consumed, cause) /\ machine_ok m'.
Proof.
  intros Hm. unfold write_read. destruct (write_loop_ok (below 0 rsv) m write Hm) as (m1 & c & res & -> & H1). simpl.
  destruct res as [[]|]; [|by eexists _, _, _, _]. case_bool_decide; [by eexists _, _, _, _|].
  destruct (read_phase_ok (below 1 rsv) m1 read H1) as (m2 & o2 & r2 & -> & H2). simpl. destruct r2; by eexists _, _, _, _.
Qed.
End machine.

Lemma client_memory_fits {M E : Type} `{!ClientMemory M E} rsv (s : M) input request n s' snapshot :
  TransactionRequest.decode input = Ok (request, n) -> capture_source (E := CaptureError E) rsv s request = (s', Ok snapshot) ->
  payload_fits snapshot.
Proof.
  intros Hd%decode_extra_range. unfold capture_source, client_memory_source, capture_transaction.
  destruct (negb _); [done|]. destruct (fetch _ _ _) as [m1 [d|]]; [|done]. destruct (fetch _ _ _) as [m2 [o|]]; [|done].
  unfold capture_copied. destruct (_ || _); [done|].
  destruct (capture _ _ _ _) as [x|] eqn:Ec; [|done]. intros [= _ <-]. eapply snapshot_fits; [|exact Ec]. apply Hd.
Qed.

Lemma ioctl_ok {M E : Type} `{!ClientMemory M E} debug key tid hs sender rsv (m : Machine M) header :
  machine_ok debug key tid hs m ->
  exists m' header' res, Ioctl.execute (E := E) debug rsv key m header sender = Some (m', header', res) /\
    machine_ok debug key tid hs m'.
Proof.
  intros Hm. unfold Ioctl.execute. destruct (Ioctl.decode header) as [request|]; [|by eauto].
  destruct (encode_consumed _ _ _) as [h1 [[]|]]; [|by eauto]. destruct (negb _); [by eauto|].
  destruct (prepare_buffers _ _) as [mem [written|]]; [|by eexists _, _, _].
  edestruct (write_read_ok debug key tid hs sender (E := CaptureError E)) as (m1 & r1 & c1 & cause & -> & H1).
  { intros *. apply client_memory_fits. }
  { by apply Hm. }
  simpl. destruct (finish _ _ _ _ _) as [[??]?]. by eexists _, _, _.
Qed.

(** ** Operations of an open connection *)

(** An operation returns, and keeps the invariant. *)
Definition returns {A} (debug : bool) (hs : list LocalHold) (r : option (Store * Registry * A * list Z)) : Prop :=
  exists σ R a closed, r = Some (σ, R, a, closed) /\ system_ok debug σ R None hs.

Section operations.
Context (debug : bool) (σ : Store) (R : Registry) (hs : list LocalHold).
Hypothesis Hok : system_ok debug σ R None hs.

Lemma with_key_ok {A E} o (k : Key -> option (Store * Registry * result A (Device.Error E) * list Z)) :
  (forall key, okey o = Some key -> returns debug hs (k key)) -> returns debug hs (with_key σ R o k).
Proof. intros Hk. unfold with_key. destruct (okey o); [by apply Hk|]. by eexists _, _, _, _. Qed.

Lemma plain_ok {A E} (r : Store * Registry * result A Registry.Error) :
  (forall σ' R' res, r = (σ', R', res) -> system_ok debug σ' R' None hs) -> returns debug hs (plain (E := E) r).
Proof. intros Hr. unfold plain. destruct r as [[σ' R'] res]. eexists _, _, _, _. split; [done|]. by eapply Hr. Qed.

Lemma lifted_ok {A E} (r : option (Store * Registry * result A Registry.Error * list Z)) :
  returns debug hs r -> returns debug hs (lifted (E := E) r).
Proof. intros (σ' & R' & a & closed & -> & H). unfold lifted. simpl. by eexists _, _, _, _. Qed.

(** Storing back the locked thread, also when its connection is gone. *)
Lemma system_store_back σ' R' id t :
  system_ok debug σ' R' (Some (id, t)) hs ->
  system_ok debug σ' match entries R' !! id with
                     | Some c => set_entry R' id (set_cthreads c (<[Thread.id t := t]> (cthreads c)))
                     | None => R'
                     end None hs.
Proof.
  intros H. destruct (entries R' !! id) as [c|] eqn:Ec; [by eapply system_unlock|].
  assert (Ha : forall i tid, thread_at (entries R') None i tid = thread_at (entries R') (Some (id, t)) i tid).
  { intros i tid. unfold thread_at. destruct (entries R' !! i) eqn:Ei; [|done]. simpl.
    rewrite bool_decide_false; [done|]. intros [-> _]. congruence. }
  destruct H as [? ? Ht Hc]. split; try done.
  - intros i tid th. rewrite Ha. apply Ht.
  - destruct Hc as [H1 H2 H3 H4 H5 H6]. split; try done.
    + intros call route. rewrite Ha. eauto.
    + intros i tid th s. rewrite Ha. eauto.
Qed.

(** What is known of the thread an operation locks. *)
Definition own_calls (key : Key) (tid : Z) (t : Thread) : Prop :=
  thread_at (entries R) None (kid key) tid = Some t \/ outgoing t = [] /\ local_work t = [].

Lemma with_thread_lock_ok {A E} o tid
    (k : Store -> Registry -> Key -> Thread -> option (Store * Registry * Thread * result A (Device.Error E) * list Z)) :
  (forall σ' R' key t, okey o = Some key -> system_ok debug σ' R' (Some (kid key, t)) hs -> Thread.id t = tid ->
     own_calls key tid t ->
     exists σ'' R'' t' res closed, k σ' R' key t = Some (σ'', R'', t', res, closed) /\
       system_ok debug σ'' R'' (Some (kid key, t')) hs /\ Thread.id t' = tid) ->
  returns debug hs (with_thread_lock σ R o tid k).
Proof.
  intros Hk. unfold with_thread_lock. apply with_key_ok. intros key Ek.
  destruct (registry_thread_ok _ _ _ _ Hok key tid) as (R1 & res & -> & H1 & Ht). simpl.
  destruct res as [t|e]; [|by eexists _, _, _, _]. destruct (Ht _ eq_refl) as ((c & Hc & Htid) & Hown).
  assert (Ei : Thread.id t = tid).
  { assert (thread_fine debug tid t) as [? _]; [|done]. apply (system_threads _ _ _ _ _ H1 (kid key)). unfold thread_at. by rewrite Hc. }
  destruct (Hk σ R1 key t Ek (system_lock _ _ _ _ _ _ _ _ H1 Hc Htid) Ei Hown) as (σ2 & R2 & t2 & res & closed & -> & H2 & Ei2).
  simpl. eexists _, _, _, _. split; [done|]. rewrite <- Ei2. by apply system_store_back.
Qed.

Lemma on_thread_ok {A E} o tid (k : Thread -> Signals -> Thread * Signals * result A Thread.Error) :
  (forall key t Σ t' Σ' res, okey o = Some key -> own_calls key tid t -> k t Σ = (t', Σ', res) ->
     (thread_ok debug t -> thread_ok debug t') /\ same_local t t') ->
  returns debug hs (on_thread (E := E) σ R o tid k).
Proof.
  intros Hk. unfold on_thread. apply with_thread_lock_ok. intros σ' R' key t Ek Hl Ei Hown.
  destruct (k t (signals σ')) as [[t' Σ'] res] eqn:E'. destruct (Hk _ _ _ _ _ _ Ek Hown E') as [Ht Hs].
  eexists _, _, _, _, _. split; [done|]. split; [|destruct Hs; congruence].
  apply system_signals. eapply system_step; [done..|]. by apply same_local_keeps.
Qed.

Lemma execute_write_read_ok {M E : Type} `{!ClientMemory M E} rsv o tid header (memory : M) :
  exists σ' R' header' memory' res closed,
    execute_write_read_once (E := E) debug rsv σ R o tid header memory = Some (σ', R', header', memory', res, closed) /\
    system_ok debug σ' R' None hs.
Proof.
  unfold execute_write_read_once. destruct (tid =? 0); [by eauto 9|].
  match goal with |- context [with_thread_lock σ R o tid ?k] =>
    assert (Hr : returns debug hs (with_thread_lock σ R o tid k)) end.
  { apply with_thread_lock_ok. intros σ' R' key t Ek Hl Ei Hown.
    destruct (ioctl_ok (E := E) debug key tid hs {| spid := pid (oidentity o); seuid := euid (oidentity o) |} rsv
      (Build_Machine σ' R' t memory []) header) as (m' & h' & res & -> & H' & Ei'); [by split|]. simpl. by eauto 9. }
  destruct Hr as (σ' & R' & a & closed & -> & H'). simpl. destruct a as [[[h' m'] r']|e]; by eauto 9.
Qed.
End operations.

(** ** Remote submissions and replies *)

Section thread_operations.
Context {E : Type} (debug : bool) (σ : Store) (R : Registry) (hs : list LocalHold) (o : OpenConnection) (tid : Z).
Hypothesis Hok : system_ok debug σ R None hs.

Lemma begin_submission_ok rsv synchronous : returns debug hs (device_begin_remote_submission (E := E) σ R o rsv tid synchronous).
Proof.
  apply on_thread_ok; [done|]. intros key t Σ t' Σ' res _ _.
  destruct (begin_remote_submission rsv t synchronous) as [t1 r1] eqn:Eb. intros [= <- _ _].
  eauto using begin_remote_submission_ok, begin_remote_submission_same.
Qed.

(** The authority numbers a call only once. *)
Definition new_call (call : option CallToken) : Prop :=
  forall key t c, okey o = Some key -> thread_at (entries R) None (kid key) tid = Some t -> call = Some c ->
    fresh_call t (Thread.Remote c).

Lemma commit_submission_returns submission call :
  new_call call -> returns debug hs (device_commit_remote_submission (E := E) σ R o tid submission call).
Proof.
  intros Hc. apply on_thread_ok; [done|]. intros key t Σ t' Σ' res Ek Hown Et.
  split; [|by eapply commit_remote_submission_same]. intros Ht. eapply commit_remote_submission_ok; [done| |exact Et].
  destruct call as [c|]; [|done]. simpl. destruct Hown as [Ha|[E1 E2]]; [by eapply Hc|].
  unfold fresh_call. by rewrite E1, E2.
Qed.

Lemma abort_submission_ok submission : returns debug hs (device_abort_remote_submission (E := E) σ R o tid submission).
Proof.
  apply on_thread_ok; [done|]. intros key t Σ t' Σ' res _ _.
  destruct (abort_remote_submission t submission) as [t1 r1] eqn:Eb. intros [= <- _ _].
  eauto using abort_remote_submission_ok, abort_remote_submission_same.
Qed.

Lemma reject_submission_ok submission reason :
  returns debug hs (device_reject_remote_submission (E := E) σ R o tid submission reason).
Proof.
  apply on_thread_ok; [done|]. intros key t Σ t' Σ' res _ _ Er.
  eauto using reject_remote_submission_ok, reject_remote_submission_same.
Qed.

Lemma begin_reply_ok rsv : returns debug hs (device_begin_remote_reply (E := E) σ R o rsv tid).
Proof.
  apply on_thread_ok; [done|]. intros key t Σ t' Σ' res _ _.
  destruct (begin_remote_reply rsv t) as [t1 r1] eqn:Eb. intros [= <- _ _].
  eauto using begin_remote_reply_ok, begin_remote_reply_same.
Qed.

Lemma commit_reply_ok submission call : returns debug hs (device_commit_remote_reply (E := E) σ R o tid submission call).
Proof.
  apply on_thread_ok; [done|]. intros key t Σ t' Σ' res _ _ Er.
  eauto using commit_remote_reply_ok, commit_remote_reply_same.
Qed.

Lemma abort_reply_ok submission call : returns debug hs (device_abort_remote_reply (E := E) σ R o tid submission call).
Proof.
  apply on_thread_ok; [done|]. intros key t Σ t' Σ' res _ _.
  destruct (abort_remote_reply t submission call) as [t1 r1] eqn:Eb. intros [= <- _ _].
  eauto using abort_remote_reply_ok, abort_remote_reply_same.
Qed.

Lemma target_dead_ok call : returns debug hs (deliver_remote_target_dead (E := E) σ R o tid call).
Proof.
  apply on_thread_ok; [done|]. intros key t Σ t' Σ' res _ _ Er.
  split; [intros; by eapply enqueue_dead_reply_ok|]. apply enqueue_dead_reply_memory in Er as [Ei Hm].
  split; [done|]. intros s. by apply Hm.
Qed.
End thread_operations.

(** ** Captured commands *)

(** The reads of the gathered buffers fill their destinations. *)
Definition reads_fill {E} (reads : nat -> Z -> bytes -> result bytes E) : Prop :=
  forall i a destination bs, reads i a destination = Ok bs -> length bs = length destination.

Lemma place_buffers_ok base bs : forall extra,
  Forall (fun b => base <= start (destination b) /\ start (destination b) + len (bbytes b) <= base + len extra) bs ->
  exists extra', place_buffers base bs extra = Some extra'.
Proof.
  induction bs as [|b bs IH]; intros extra Hb; simpl; [by eauto|]. apply Forall_cons in Hb as [[H1 H2] Hb].
  destruct (Z.ltb_spec (start (destination b) - base) 0); [lia|].
  destruct (Z.ltb_spec (len extra) (start (destination b) - base + len (bbytes b))); [lia|]. simpl. apply IH.
  assert (Hl : len (copy_at (Z.to_nat (start (destination b) - base)) (bbytes b) extra) = len extra).
  { unfold len in *. rewrite length_copy_at; lia. }
  by rewrite Hl.
Qed.

Section captures.
Context {M E : Type} `{!ClientMemory M E}.
Context (reads : nat -> Z -> bytes -> result bytes E) (Hreads : reads_fill reads).

Lemma capture_payload_ok rsv (memory : M) input request n :
  TransactionRequest.decode input = Ok (request, n) ->
  exists memory' res, capture_payload reads rsv memory request = Some (memory', res).
Proof.
  intros Hd. unfold capture_payload. destruct (capture_transaction _ _ _) as [m1 [s|e]] eqn:Ec; [|by eauto].
  destruct (capture_with_sound reads Hreads (below 1 rsv) s) as (r & -> & Hr). simpl.
  destruct r as [sg|e]; [|by eauto]. destruct (negb _); [by eauto|]. destruct (Hr _ eq_refl) as (_ & objs & _ & Hl & Hf).
  edestruct place_buffers_ok as [extra' ->]; [|simpl; by eauto].
  rewrite Forall_forall in Hf |- *. intros b Hb. specialize (Hf b Hb). unfold filled in Hf.
  destruct (laid_out_objects _ _ _ _ _ _ Hl Hb) as (i & ob & f & p & k & pa & po & _ & _ & _ & _ & Hs & He & Hk & Hlim).
  pose proof (round_up8_bounds k). unfold len at 2, zeroed. rewrite length_replicate. unfold range_len in *. lia.
Qed.

Section command.
Context (debug : bool) (σ : Store) (R : Registry) (hs : list LocalHold) (o : OpenConnection).
Hypothesis Hok : system_ok debug σ R None hs.

Lemma resolve_objects_ok rsv σ' R' payload :
  system_ok debug σ' R' None hs -> returns debug hs (device_resolve_remote_objects (E := Empty_set) σ' R' o rsv payload).
Proof.
  intros H. unfold device_resolve_remote_objects. apply with_key_ok; [done|]. intros key _. apply lifted_ok.
  by apply registry_resolve_remote_objects_ok.
Qed.

Lemma capture_command_ok rsv input (memory : M) :
  exists σ' R' memory' res, capture_remote_command reads rsv σ R o input memory = Some (σ', R', memory', res) /\
    system_ok debug σ' R' None hs.
Proof.
  unfold capture_remote_command. destruct (okey o) eqn:Ek; [|by eauto 6].
  destruct (TransactionRequest.decode input) as [[request n]|] eqn:Ed; [|by eauto 6].
  assert (Ht : returns debug hs (device_resolve_remote_transaction_target (E := Empty_set) σ R o request)).
  { apply with_key_ok; [done|]. intros key _. apply lifted_ok. by apply resolve_remote_target_ok. }
  destruct Ht as (σ1 & R1 & res & cl & -> & H1). simpl. destruct res as [[target|]|]; [|by eauto 6..].
  destruct (capture_payload_ok (below 0 rsv) memory _ _ _ Ed) as (m2 & res & ->). simpl.
  destruct res as [[s x]|]; [|by eauto 6].
  destruct (resolve_objects_ok (below 1 rsv) _ _ s H1) as (σ3 & R3 & res & cl3 & -> & H3). simpl. by eauto 6.
Qed.

Lemma abandon_reply_ok σ' R' (memory : M) tid submission call e :
  system_ok debug σ' R' None hs ->
  exists σ2 R2 memory2 res, abandon_reply (E := E) σ' R' o memory tid submission call e = Some (σ2, R2, memory2, res) /\
    system_ok debug σ2 R2 None hs.
Proof.
  intros H. unfold abandon_reply.
  destruct (abort_reply_ok (E := Empty_set) debug σ' R' hs o tid H submission call) as (? & ? & ? & ? & -> & ?). simpl. by eauto 6.
Qed.

Lemma capture_reply_command_ok rsv tid input (memory : M) :
  exists σ' R' memory' res, capture_remote_reply_command reads rsv σ R o tid input memory = Some (σ', R', memory', res) /\
    system_ok debug σ' R' None hs.
Proof.
  unfold capture_remote_reply_command. destruct (TransactionRequest.decode input) as [[request n]|] eqn:Ed; [|by eauto 6].
  destruct (negb _); [by eauto 6|].
  destruct (begin_reply_ok (E := Empty_set) debug σ R hs o tid Hok (below 2 rsv)) as (σ1 & R1 & res & cl & -> & H1). simpl.
  destruct res as [[[submission call]|]|]; [|by eauto 6..].
  destruct (capture_payload_ok (below 0 rsv) memory _ _ _ Ed) as (m2 & res & ->). simpl.
  destruct res as [[s x]|]; [|by apply abandon_reply_ok].
  destruct (resolve_objects_ok (below 1 rsv) _ _ s H1) as (σ3 & R3 & res & cl3 & -> & H3). simpl.
  destruct res as [objects|]; [by eauto 6|by apply abandon_reply_ok].
Qed.
End command.
End captures.

(** ** Control requests *)

Section control.
Context {E : Type} (debug : bool) (σ : Store) (R : Registry) (hs : list LocalHold) (o : OpenConnection).
Hypothesis Hok : system_ok debug σ R None hs.

Lemma device_begin_ok rsv object : returns debug hs (device_begin_context_manager (E := E) rsv σ R o object).
Proof.
  apply with_key_ok; [done|]. intros key _.
  destruct (begin_context_manager_ok _ _ _ _ _ Hok rsv key object (authorized o)) as (? & ? & ? & -> & ?). simpl.
  by eexists _, _, _, _.
Qed.

Lemma device_commit_ok reservation : returns debug hs (device_commit_context_manager (E := E) σ R o reservation).
Proof.
  apply with_key_ok; [done|]. intros key _.
  destruct (commit_context_manager_ok _ _ _ _ _ Hok key reservation) as (? & ? & ? & -> & ?). simpl. by eexists _, _, _, _.
Qed.

Lemma device_abort_ok reservation :
  exists σ' R', device_abort_context_manager σ R o reservation = Some (σ', R') /\ system_ok debug σ' R' None hs.
Proof. unfold device_abort_context_manager. destruct (okey o); [by apply abort_context_manager_ok|by eauto]. Qed.

(** The reservation the validator makes for the object of [BINDER_SET_CONTEXT_MGR]. *)
Definition object_reserved (rsv : Reserve) (request : Z) : Prop :=
  request = BINDER_SET_CONTEXT_MGR -> below 0 rsv [0%nat] = true.

Lemma begin_control_ok rsv request argument :
  object_reserved rsv request -> returns debug hs (begin_context_manager_control (E := E) rsv σ R o request argument).
Proof.
  intros Hr. unfold begin_context_manager_control.
  destruct (Z.eqb_spec request BINDER_SET_CONTEXT_MGR) as [->|]; [destruct (len argument =? 4)|]; simpl.
  - destruct (internal_object_valid (below 0 rsv)) as [ob ->]. rewrite (Hr eq_refl). simpl. apply device_begin_ok.
  - by eexists _, _, _, _.
  - destruct (_ && _); [|by eexists _, _, _, _].
    destruct (Objects.validate _ _ _) as [objects|] eqn:Ev; [|by eexists _, _, _, _].
    apply one_object in Ev as [ob Eo]. simpl. rewrite Eo. simpl. apply device_begin_ok.
Qed.
End control.

Section set_manager.
Context {E : Type} (debug : bool) (σ : Store) (R : Registry) (hs : list LocalHold) (o : OpenConnection).
Hypothesis Hok : system_ok debug σ R None hs.

Lemma set_context_manager_ok rsv request argument :
  object_reserved rsv request -> returns debug hs (set_context_manager (E := E) rsv σ R o request argument).
Proof.
  intros Hr. unfold set_context_manager.
  destruct (begin_control_ok (E := E) debug σ R hs o Hok rsv request argument Hr) as (σ1 & R1 & res & cl & -> & H1). simpl.
  destruct res as [[reservation local]|]; [by apply device_commit_ok|by eexists _, _, _, _].
Qed.

Lemma execute_control_ok rsv request argument :
  object_reserved rsv request ->
  exists σ' R' argument' res, execute_control (E := E) rsv σ R o request argument = Some (σ', R', argument', res) /\
    system_ok debug σ' R' None hs.
Proof.
  intros Hr. unfold execute_control. destruct (okey o) as [key|]; [|by eauto 6].
  pose proof (set_context_manager_ok rsv request argument Hr) as (σ1 & R1 & res & cl & Es & H1).
  destruct (request =? BINDER_VERSION); [destruct (len argument =? 4); by eauto 6|].
  destruct (request =? BINDER_SET_MAX_THREADS).
  { destruct (len argument =? 4); [|by eauto 6]. unfold plain.
    destruct (registry_set_max_threads _ _ _ _) as [[σ2 R2] r2] eqn:E2. simpl.
    pose proof (registry_set_max_threads_ok _ _ _ _ _ Hok _ _ _ _ _ E2). by eauto 6. }
  destruct (request =? BINDER_SET_CONTEXT_MGR); [destruct (len argument =? 4); [rewrite Es; simpl|]; by eauto 6|].
  destruct (request =? BINDER_SET_CONTEXT_MGR_EXT); [destruct (len argument =? 24); [rewrite Es; simpl|]; by eauto 6|].
  by eauto 6.
Qed.
End set_manager.
