(* ===== verification/System.v ===== *)
(** * The whole device

    The device as a transition system: any operation of any connection, in any order, with any
    answers of the allocator, the client memory and the kernel.  No operation panics in a state
    the device can reach, in a debug or a release build. *)
From S2P Require Import Prelude RoutingAuthority TransactionQueue DeathWork TransactionWire ScatterGather.
From S2P Require Import Command AuthorityProtocol Objects TransactionLayout TransactionSnapshot TransactionRequest.
From S2P Require Import NodeWork WorkSignal NodeOwner ReferenceTable Session Thread.
From S2P Require Import ReceiveArena TransferImage PreparedTransaction World Connection Registry WriteRead Ioctl Device.
From S2P Require Import DeviceInvariant DeviceOperations DeviceRouting DeviceRequests.

(** ** The transition system *)

(** The shared state, and the holds handed out to exporters of nodes. *)
Record State : Type := { dstore : Store; dregistry : Registry; dholds : list LocalHold }.

Definition initial (identity : positive) : State :=
  {| dstore := empty_store; dregistry := default_registry identity; dholds := [] |}.

Section system.
Context {M E : Type} `{!ClientMemory M E}.
Context `{!Iteration Z OwnedTransaction, !Iteration CallId CallRoute, !Iteration Z Thread}.

Inductive Operation : Type :=
| DoOpen (reserved : bool) (identity : ProcessIdentity) (policy : Policy)
| DoClose (o : OpenConnection)
| DoDrop (o : OpenConnection)
| DoControl (rsv : Reserve) (o : OpenConnection) (request : Z) (argument : bytes)
| DoBeginManager (rsv : Reserve) (o : OpenConnection) (request : Z) (argument : bytes)
| DoCommitManager (o : OpenConnection) (reservation : Z)
| DoAbortManager (o : OpenConnection) (reservation : Z)
| DoWriteRead (rsv : Reserve) (o : OpenConnection) (thread_id : Z) (header : bytes) (memory : M)
| DoWait (key : Key) (thread_id : Z)
| DoWake (key : Key) (registered : option Z)
| DoMapReceive (o : OpenConnection) (mapped : result Z Errno) (capacity : Z)
| DoBeginSubmission (rsv : Reserve) (o : OpenConnection) (thread_id : Z) (synchronous : bool)
| DoCommitSubmission (o : OpenConnection) (thread_id submission : Z) (call : option CallToken)
| DoAbortSubmission (o : OpenConnection) (thread_id submission : Z)
| DoRejectSubmission (o : OpenConnection) (thread_id submission : Z) (reason : TransactionFailure)
| DoBeginReply (rsv : Reserve) (o : OpenConnection) (thread_id : Z)
| DoCommitReply (o : OpenConnection) (thread_id submission : Z) (call : CallToken)
| DoAbortReply (o : OpenConnection) (thread_id submission : Z) (call : CallToken)
| DoTargetDead (o : OpenConnection) (thread_id : Z) (call : CallToken)
| DoFailAuthority (o : OpenConnection)
| DoCallerDead (o : OpenConnection) (call : CallToken)
| DoDeliverTransaction (rsv : Reserve) (o : OpenConnection) (payload : TransferImage) (receiver : ConnectionToken)
    (remote : RemoteTransaction) (files : list InstalledFd)
| DoDeliverReply (rsv : Reserve) (o : OpenConnection) (payload : TransferImage) (receiver : ConnectionToken)
    (remote : RemoteReply) (files : list InstalledFd)
| DoDeadBinder (rsv : Reserve) (o : OpenConnection) (cookie : Z)
| DoClearDone (rsv : Reserve) (o : OpenConnection) (cookie : Z)
| DoAcknowledge (o : OpenConnection) (cookie : Z)
| DoHold (o : OpenConnection) (local : LocalNodeToken) (st : Strength)
| DoRelease (i : nat)
| DoInstallReference (o : OpenConnection) (node : NodeToken) (st : Strength) (context_manager : bool)
| DoCapture (rsv : Reserve) (o : OpenConnection) (input : bytes) (memory : M) (reads : nat -> Z -> bytes -> result bytes E)
| DoCaptureReply (rsv : Reserve) (o : OpenConnection) (thread_id : Z) (input : bytes) (memory : M)
    (reads : nat -> Z -> bytes -> result bytes E).

(** The state after an operation; its result goes to the caller. *)
Definition after {A} (hs : list LocalHold) (r : option (Store * Registry * A * list Z)) : option State :=
  '(σ, R, _, _) ← r; Some {| dstore := σ; dregistry := R; dholds := hs |}.

Definition captured {A} (hs : list LocalHold) (r : option (Store * Registry * M * A)) : option State :=
  '(σ, R, _, _) ← r; Some {| dstore := σ; dregistry := R; dholds := hs |}.

Definition run_operation (debug : bool) (d : State) (op : Operation) : option State :=
  let σ := dstore d in
  let R := dregistry d in
  let hs := dholds d in
  match op with
  | DoOpen reserved identity policy => after hs (open reserved σ R identity policy)
  | DoClose o => after hs (close_device σ R o)
  | DoDrop o => '(σ, R, _) ← drop_connection σ R o; Some {| dstore := σ; dregistry := R; dholds := hs |}
  | DoControl rsv o request argument =>
      '(σ, R, _, _) ← execute_control (E := E) rsv σ R o request argument;
      Some {| dstore := σ; dregistry := R; dholds := hs |}
  | DoBeginManager rsv o request argument =>
      after hs (begin_context_manager_control (E := E) rsv σ R o request argument)
  | DoCommitManager o reservation => after hs (device_commit_context_manager (E := E) σ R o reservation)
  | DoAbortManager o reservation =>
      '(σ, R) ← device_abort_context_manager σ R o reservation;
      Some {| dstore := σ; dregistry := R; dholds := hs |}
  | DoWriteRead rsv o thread_id header memory =>
      '(σ, R, _, _, _, _) ← execute_write_read (E := E) debug rsv σ R o thread_id header memory;
      Some {| dstore := σ; dregistry := R; dholds := hs |}
  | DoWait key thread_id => after hs (prepare_thread_work_wait σ R key thread_id)
  | DoWake key registered => Some {| dstore := σ; dregistry := finish_wait R key registered; dholds := hs |}
  | DoMapReceive o mapped capacity => after hs (map_receive (E := E) σ R o mapped capacity)
  | DoBeginSubmission rsv o thread_id synchronous =>
      after hs (device_begin_remote_submission (E := E) σ R o rsv thread_id synchronous)
  | DoCommitSubmission o thread_id submission call =>
      after hs (device_commit_remote_submission (E := E) σ R o thread_id submission call)
  | DoAbortSubmission o thread_id submission =>
      after hs (device_abort_remote_submission (E := E) σ R o thread_id submission)
  | DoRejectSubmission o thread_id submission reason =>
      after hs (device_reject_remote_submission (E := E) σ R o thread_id submission reason)
  | DoBeginReply rsv o thread_id => after hs (device_begin_remote_reply (E := E) σ R o rsv thread_id)
  | DoCommitReply o thread_id submission call =>
      after hs (device_commit_remote_reply (E := E) σ R o thread_id submission call)
  | DoAbortReply o thread_id submission call =>
      after hs (device_abort_remote_reply (E := E) σ R o thread_id submission call)
  | DoTargetDead o thread_id call => after hs (deliver_remote_target_dead (E := E) σ R o thread_id call)
  | DoFailAuthority o => after hs (device_fail_remote_authority (E := E) σ R o)
  | DoCallerDead o call => after hs (deliver_remote_caller_dead (E := E) σ R o call)
  | DoDeliverTransaction rsv o payload receiver remote files =>
      after hs (deliver_remote_transaction_with_fds (E := E) σ R o rsv payload receiver remote files)
  | DoDeliverReply rsv o payload receiver remote files =>
      after hs (deliver_remote_reply_with_fds (E := E) σ R o rsv payload receiver remote files)
  | DoDeadBinder rsv o cookie => after hs (enqueue_remote_dead_binder (E := E) σ R o rsv cookie)
  | DoClearDone rsv o cookie => after hs (device_enqueue_clear_death_done (E := E) σ R o rsv cookie)
  | DoAcknowledge o cookie => after hs (device_acknowledge_dead_binder (E := E) σ R o cookie)
  | DoHold o local st =>
      '(σ, R, res, _) ← hold_exported_node (E := E) σ R o local st;
      Some {| dstore := σ; dregistry := R; dholds := granted res ++ hs |}
  | DoRelease i =>
      h ← hs !! i;
      σ ← drop_hold σ h;
      Some {| dstore := σ; dregistry := R; dholds := delete i hs |}
  | DoInstallReference o node st false => after hs (device_install_remote_reference (E := E) σ R o node st)
  | DoInstallReference o node st true => after hs (install_remote_context_manager (E := E) σ R o node st)
  | DoCapture rsv o input memory reads => captured hs (capture_remote_command reads rsv σ R o input memory)
  | DoCaptureReply rsv o thread_id input memory reads =>
      captured hs (capture_remote_reply_command reads rsv σ R o thread_id input memory)
  end.

(** What the device may rely on: a connection is closed once and a hold released once, the
    kernel maps inside the address space, decoded images fit their layouts, the authority
    numbers a call once, client reads fill their destinations, and one small reservation that
    the code does not check succeeds. *)
Definition permitted (d : State) (op : Operation) : Prop :=
  match op with
  | DoClose o => is_Some (okey o)
  | DoControl rsv _ request _ | DoBeginManager rsv _ request _ => object_reserved rsv request
  | DoMapReceive _ mapped capacity =>
      0 <= capacity /\ forall address, mapped = Ok address -> 0 <= address /\ address + capacity <= usize_max
  | DoCommitSubmission o thread_id _ call => new_call (dregistry d) o thread_id call
  | DoDeliverTransaction _ _ payload _ _ files | DoDeliverReply _ _ payload _ _ files => delivery_fits payload files
  | DoRelease i => is_Some (dholds d !! i)
  | DoCapture _ _ _ _ reads | DoCaptureReply _ _ _ _ _ reads => reads_fill reads
  | _ => True
  end.

(** The states the device can reach. *)
Inductive reaches (debug : bool) : State -> Prop :=
| reaches_initial identity : reaches debug (initial identity)
| reaches_step d op d' :
    reaches debug d -> permitted d op -> run_operation debug d op = Some d' -> reaches debug d'.
End system.

(** ** Lemmas *)

Create HintDb device.

Section system_lemmas.
Context {M E : Type} `{!ClientMemory M E}.
Context `{!Iteration Z OwnedTransaction, !Iteration CallId CallRoute, !Iteration Z Thread}.

Definition state_ok (debug : bool) (d : State) : Prop := system_ok debug (dstore d) (dregistry d) None (dholds d).

Lemma initial_ok debug identity : state_ok debug (initial identity).
Proof.
  split; simpl; [apply empty_world_ok|done| |].
  - intros id tid t. unfold thread_at. by rewrite lookup_empty.
  - split; simpl; try done; intros *; unfold thread_at; rewrite ?lookup_empty; try done; by intros [].
Qed.

Lemma after_ok {A} debug hs (r : option (Store * Registry * A * list Z)) :
  returns debug hs r -> exists d', after hs r = Some d' /\ state_ok debug d'.
Proof. intros (σ & R & a & closed & -> & H). unfold after. simpl. eexists. by split. Qed.

Lemma hold_operation_ok debug d o local st :
  state_ok debug d ->
  exists d', run_operation (E := E) (M := M) debug d (DoHold o local st) = Some d' /\ state_ok debug d'.
Proof.
  intros H. unfold run_operation, hold_exported_node, with_key, plain. destruct (okey o) as [key|]; simpl; [|by eexists].
  destruct (registry_hold_local_node _ _ _ _ _) as [[σ1 R1] res] eqn:Eh. simpl. eexists. split; [done|].
  pose proof (hold_local_node_ok _ _ _ _ _ H _ _ _ _ _ _ Eh) as H1. unfold state_ok. simpl.
  by destruct res.
Qed.

Lemma release_operation_ok debug d i :
  state_ok debug d -> is_Some (dholds d !! i) ->
  exists d', run_operation (E := E) (M := M) debug d (DoRelease i) = Some d' /\ state_ok debug d'.
Proof.
  intros H [h Hi]. unfold run_operation. rewrite Hi. simpl.
  assert (Hp : system_ok debug (dstore d) (dregistry d) None (h :: delete i (dholds d))).
  { eapply system_store; [exact H|]. pose proof (system_world _ _ _ _ _ H) as Hw.
    by rewrite (delete_Permutation _ _ _ Hi) in Hw. }
  apply system_drop in Hp as (σ' & -> & H'). simpl. eexists. by split.
Qed.

(** An operation of the registry behind the check of the key. *)
Lemma keyed_ok {A B} debug d o (k : Key -> Store * Registry * result A Registry.Error) :
  state_ok debug d ->
  (forall key σ' R' res, k key = (σ', R', res) -> system_ok debug σ' R' None (dholds d)) ->
  returns debug (dholds d) (with_key (E := B) (dstore d) (dregistry d) o (fun key => plain (k key))).
Proof. intros H Hk. apply with_key_ok; [done|]. intros key _. apply plain_ok. intros *. apply Hk. Qed.

Lemma open_ok debug d reserved identity policy :
  state_ok debug d -> returns debug (dholds d) (open reserved (dstore d) (dregistry d) identity policy).
Proof.
  intros H. unfold open. destruct (new_session (dstore d)) as [σ1 s] eqn:E1. destruct (new_connection σ1 s) as [σ2 c] eqn:E2.
  destruct (register_ok debug _ _ _ reserved _ _ _ _ H E1 E2) as (? & ? & ? & ? & -> & ?). simpl. by eexists _, _, _, _.
Qed.

Lemma close_returns debug d key :
  state_ok debug d -> returns debug (dholds d) (Registry.close (dstore d) (dregistry d) key).
Proof. intros H. destruct (close_ok debug _ _ _ key H) as (? & ? & ? & ? & -> & ?). by eexists _, _, _, _. Qed.

Lemma caller_dead_ok debug d o call :
  state_ok debug d -> returns debug (dholds d) (deliver_remote_caller_dead (E := E) (dstore d) (dregistry d) o call).
Proof.
  intros H. apply with_key_ok; [done|]. intros key _. apply lifted_ok.
  destruct (registry_cancel_remote_incoming_ok debug _ _ _ key call H) as (? & ? & ? & -> & ?). by eexists _, _, _, _.
Qed.

Lemma deliver_transaction_returns debug d rsv o payload receiver remote files :
  state_ok debug d -> delivery_fits payload files ->
  returns debug (dholds d) (deliver_remote_transaction_with_fds (E := E) (dstore d) (dregistry d) o rsv payload receiver remote files).
Proof.
  intros H Hf. unfold deliver_remote_transaction_with_fds. destruct (okey o); [|by eexists _, _, _, _].
  apply lifted_ok. by apply registry_enqueue_remote_transaction_ok.
Qed.

Lemma deliver_reply_returns debug d rsv o payload receiver remote files :
  state_ok debug d -> delivery_fits payload files ->
  returns debug (dholds d) (deliver_remote_reply_with_fds (E := E) (dstore d) (dregistry d) o rsv payload receiver remote files).
Proof.
  intros H Hf. unfold deliver_remote_reply_with_fds. destruct (okey o); [|by eexists _, _, _, _].
  apply lifted_ok. by apply registry_enqueue_remote_reply_ok.
Qed.

Lemma wait_ok debug d key thread_id :
  state_ok debug d -> returns debug (dholds d) (prepare_thread_work_wait (dstore d) (dregistry d) key thread_id).
Proof.
  intros H. destruct (prepare_thread_work_wait_ok debug _ _ _ key thread_id H) as (? & ? & -> & ?). by eexists _, _, _, _.
Qed.

Hint Resolve open_ok begin_control_ok device_commit_ok wait_ok begin_submission_ok commit_submission_returns abort_submission_ok
  reject_submission_ok begin_reply_ok commit_reply_ok abort_reply_ok target_dead_ok caller_dead_ok
  deliver_transaction_returns deliver_reply_returns : device.
Hint Resolve registry_fail_remote_authority_ok registry_enqueue_dead_binder_ok registry_enqueue_clear_death_done_ok
  registry_acknowledge_dead_binder_ok install_remote_reference_ok : device.

Lemma operation_ok debug d op :
  state_ok debug d -> permitted d op ->
  exists d', run_operation (E := E) (M := M) debug d op = Some d' /\ state_ok debug d'.
Proof.
  intros H Hp. destruct op; unfold run_operation; simpl in Hp.
  all: try (apply after_ok; solve [auto with device|apply keyed_ok; eauto with device]).
  - apply after_ok. unfold close_device. destruct Hp as [key ->]. by apply close_returns.
  - unfold drop_connection. destruct (okey o) as [key|]; [|simpl; by eexists].
    destruct (close_returns debug d key H) as (? & ? & ? & ? & -> & ?). simpl. by eexists.
  - destruct (execute_control_ok (E := E) debug _ _ _ o H rsv request argument Hp) as (? & ? & ? & ? & -> & ?). simpl. by eexists.
  - destruct (device_abort_ok debug _ _ _ o H reservation) as (? & ? & -> & ?). simpl. by eexists.
  - unfold execute_write_read.
    destruct (execute_write_read_ok (E := E) debug _ _ _ H rsv o thread_id header memory) as (? & ? & ? & ? & ? & ? & -> & ?).
    simpl. by eexists.
  - eexists. split; [done|]. by apply finish_wait_ok.
  - destruct Hp as [Hc Hm]. apply after_ok, keyed_ok; [done|]. intros * Em. by eapply registry_install_receive_mapping_ok in Em.
  - by apply hold_operation_ok.
  - by apply release_operation_ok.
  - destruct context_manager; apply after_ok, keyed_ok; eauto with device.
  - destruct (capture_command_ok reads Hp debug _ _ _ o H rsv input memory) as (? & ? & ? & ? & -> & ?). simpl. by eexists.
  - destruct (capture_reply_command_ok reads Hp debug _ _ _ o H rsv thread_id input memory) as (? & ? & ? & ? & -> & ?).
    simpl. by eexists.
Qed.

Lemma reaches_ok debug d : reaches (M := M) (E := E) debug d -> state_ok debug d.
Proof.
  induction 1 as [|d op d' _ IH Hp Hr]; [apply initial_ok|].
  destruct (operation_ok debug d op IH Hp) as (d1 & E1 & H1). by simplify_eq.
Qed.
End system_lemmas.

(** ** Properties *)

Section properties.
Context {M E : Type} `{!ClientMemory M E}.
Context `{!Iteration Z OwnedTransaction, !Iteration CallId CallRoute, !Iteration Z Thread}.


(** C3: the counters of every node of the device are exact.  In every state the device can
    reach, the demand counters of a node are the numbers of the handle tables of open
    connections that name it, and its local counters are the holds of the context manager and
    of the exporters, so no reference leaks over any sequence of operations, failed ones
    included. *)
Theorem device_references_exact debug d r n
    (H : reaches (M := M) (E := E) debug d) (Hn : nodes (dstore d) !! r = Some n) :
  let tables := srefs <$> sessions (entries (dregistry d)) in
  remote_tables (lifecycle n) = zsum (map_count (refers r)) tables /\
  strong_tables (lifecycle n) = zsum (map_count (refers_strongly r)) tables /\
  forall k, local_count (lifecycle n) k =
    count_holds r k (context_holds (context (dregistry d)) ++ dholds d).
Proof. exact (world_balanced _ (system_world _ _ _ _ _ (reaches_ok _ _ H)) r n Hn). Qed.


(** C7: closing a connection tells every caller.  In every reachable state, closing an open
    connection succeeds; each call to it leaves the call table, and its calling thread, if its
    connection is still open, gets [BR_TRANSACTION_COMPLETE] and [BR_DEAD_REPLY] in place of
    the two reserved records. *)
Theorem close_tells_callers debug d o key
    (H : reaches (M := M) (E := E) debug d) (Hk : okey o = Some key)
    (Hi : identity (dregistry d) = kregistry key) (Hc : is_Some (entries (dregistry d) !! kid key)) :
  exists σ' R' closed, close_device (dstore d) (dregistry d) o = Some (σ', R', Ok tt, closed) /\
    forall call route, call_routes (calls (dregistry d)) !! call = Some route ->
      (Registry.rtarget route).1 = kid key ->
      call_routes (calls R') !! call = None /\
      (rsender route <> kid key -> is_Some (entries (dregistry d) !! rsender route) ->
       exists th, thread_at (entries R') None (rsender route) (rthread route) = Some th /\ memory th call = told call).
Proof.
  destruct Hc as [c Hc]. assert (Ek : check (dregistry d) key = Ok tt).
  { unfold check, ensure. by rewrite bool_decide_true. }
  destruct (close_tells debug _ _ _ key c (reaches_ok _ _ H) Ek Hc) as (σ' & R' & closed & E' & _ & Ht).
  exists σ', R', closed. unfold close_device. rewrite Hk. by split.
Qed.
End properties.

(** ** A sample run

    Connection 1 becomes the context manager and maps its receive area; connection 2 sends it
    a synchronous transaction. *)

Definition sample_connection (id euid : Z) : OpenConnection :=
  {| okey := Some {| kregistry := 1; kid := id |}; oidentity := {| pid := 10 * id; euid := euid |};
     opolicy := android_system_policy |}.

Definition sample_write : bytes := u32_le (Command.word Command.Transaction) ++ zeroed 64.
Definition sample_header : bytes := u64_le 68 ++ zeroed 40.

Definition sample_operations : list (Operation (M := bytes) (E := unit)) :=
  [DoOpen true {| pid := 10; euid := 1000 |} android_system_policy;
   DoOpen true {| pid := 20; euid := 10000 |} android_system_policy;
   DoControl reserve_ok (sample_connection 1 1000) BINDER_SET_CONTEXT_MGR (zeroed 4);
   DoMapReceive (sample_connection 1 1000) (Ok 65536) 4096;
   DoWriteRead reserve_ok (sample_connection 2 10000) 7 sample_header sample_write].

Fixpoint run_operations (debug : bool) (d : State) (ops : list (Operation (M := bytes) (E := unit))) : option State :=
  match ops with [] => Some d | op :: ops => d' ← run_operation debug d op; run_operations debug d' ops end.

Definition sample_state : State := default (initial 1) (run_operations true (initial 1) sample_operations).

Lemma run_operations_reaches debug ops : forall d d',
  reaches (M := bytes) (E := unit) debug d -> Forall (fun op => forall d, permitted d op) ops ->
  run_operations debug d ops = Some d' -> reaches (M := bytes) (E := unit) debug d'.
Proof.
  induction ops as [|op ops IH]; simpl; intros d d' Hd Hp; [by intros [= <-]|]. apply Forall_cons in Hp as [Hop Hops].
  destruct (run_operation debug d op) as [d1|] eqn:E; [|done]. simpl. apply IH; [|done]. by eapply reaches_step.
Qed.

Lemma sample_reaches : reaches (M := bytes) (E := unit) true sample_state.
Proof.
  apply (run_operations_reaches true sample_operations (initial 1)); [apply reaches_initial| |].
  - repeat (apply Forall_cons_2; [try done|]); [|apply Forall_nil_2].
    intros d. split; [lia|]. intros address [= <-]. unfold usize_max, u64_max. lia.
  - unfold sample_state. destruct (run_operations true (initial 1) sample_operations) eqn:E; [done|]. exfalso. revert E. by vm_compute.
Defined.


Lemma device_references_exact_witness :
  exists n, nodes (dstore sample_state) !! 1%positive = Some n /\ remote_tables (lifecycle n) = 0 /\
    local_count (lifecycle n) HStrong = 1.
Proof.
  assert (is_Some (nodes (dstore sample_state) !! 1%positive)) as [n Hn] by (vm_compute; by eexists).
  exists n. destruct (device_references_exact true sample_state 1%positive n sample_reaches Hn) as (-> & _ & Hk).
  split; [done|]. rewrite (Hk HStrong). split; by vm_compute.
Defined.

Definition sample_route : CallRoute := {| Registry.rsender := 2; Registry.rthread := 7; Registry.rtarget := (1, 1) |}.


Lemma close_tells_callers_witness :
  exists σ' R' closed th,
    close_device (dstore sample_state) (dregistry sample_state) (sample_connection 1 1000) = Some (σ', R', Ok tt, closed) /\
    thread_at (entries R') None 2 7 = Some th /\ memory th (Thread.Local 1) = told (Thread.Local 1).
Proof.
  destruct (close_tells_callers true sample_state (sample_connection 1 1000) {| kregistry := 1; kid := 1 |} sample_reaches)
    as (σ' & R' & closed & E & H); [done|by vm_compute|vm_compute; by eexists|].
  destruct (H (Thread.Local 1) sample_route) as [_ [th [H1 H2]]]; [by vm_compute|done|done|vm_compute; by eexists|].
  exists σ', R', closed, th. by split_and!.
Defined.
