(* ===== verification/ElfBase.v ===== *)
(** * Foundations of the ELF loader ([crates/darwin-art-elf-loader/src/lib.rs])

    Errors, constants, program headers and the checked reads of the loader's crate root, with the
    fixed-width operations its instruction and relocation code uses. *)
From coqutil Require Import Byte.
From stdpp Require Export strings.

From S2P Require Import Prelude.

#[global] Open Scope Z_scope.

(** Sequencing of operations that can panic ([None]) and fail ([Some (Err _)]). *)
Notation "'let!' x := c 'in' k" :=
  (match c with
   | Some (Ok x) => k
   | Some (Err e) => Some (Err e)
   | None => None
   end) (at level 10, x pattern, c at level 200, k at level 200) : rust_scope.

(** ** Fixed-width operations *)

Definition i64_range (z : Z) : Prop := - 2 ^ 63 <= z <= isize_max.

(** [x as u64], [x as u32] and [x as i64]. *)
Definition as_u64 (z : Z) : Z := z mod 2 ^ 64.
Definition as_u32 (z : Z) : Z := z mod 2 ^ 32.
Definition as_i64 (z : Z) : Z :=
  let z := as_u64 z in if z <=? isize_max then z else z - 2 ^ 64.

(** [value << shift] on a [u64] or a [u32]. *)
Definition shl64 (value shift : Z) : Z := as_u64 (Z.shiftl value shift).
Definition shl32 (value shift : Z) : Z := as_u32 (Z.shiftl value shift).

(** [!value] on a [u64]. *)
Definition not64 (value : Z) : Z := u64_max - value.

(** [i64::checked_add], [u64::checked_add_signed] and [usize::try_from] of a signed value. *)
Definition checked_add_i64 (a b : Z) : option Z :=
  if (- 2 ^ 63 <=? a + b) && (a + b <=? isize_max) then Some (a + b) else None.
Definition try_u64 (z : Z) : option Z :=
  if (0 <=? z) && (z <=? u64_max) then Some z else None.
Definition checked_add_signed (a b : Z) : option Z := try_u64 (a + b).

(** [is_power_of_two] of a [u64]. *)
Definition is_power_of_two (z : Z) : bool := (0 <? z) && (Z.land z (z - 1) =? 0).

(** [Option::is_some]. *)
Definition present {A} (o : option A) : bool := match o with Some _ => true | None => false end.

Abbreviation byte_value := byte.unsigned.

(** ** Errors *)

Inductive Capability : Type :=
| HostArchitecture | DirectSyscall | DirectThreadPointer | CapTls | CapRelro | LazyBinding | RelRelocations
| RelrRelocations | UnsupportedRelocation (relocation_type symbol : Z) | DynamicInitializer | Finalizers
| PreinitArray | TextRelocations | Rpath | UnknownDynamicTag (tag : Z) | MissingSysvHash | SymbolicLookup
| VersionDefinitions | AbsoluteSymbolDefinition | DynamicFlags (tag value : Z).

(** The [String]s of an error are the bytes they hold. *)
Inductive ResolveError : Type :=
| UnknownSoname (soname : bytes)
| VersionMismatch (soname symbol requested : bytes)
| Rejected (message : bytes).

Inductive LoadError : Type :=
| Format (what : string) | Bounds (what : string) | Capable (c : Capability) | Protection (what : string)
| Integrity (what : string) | Resolver (symbol : bytes) (source : ResolveError)
| UnresolvedSymbol (symbol : bytes) (soname version : option bytes)
| SymbolNotFound (name : bytes) | InvalidSymbol (name : bytes)
| InitializersAlreadyRun | InitializersNotRun | TlsInUse (active_threads : Z)
| System (operation : string) (code : Z).

(** ** Checked reads *)

Definition checked_slice (bs : bytes) (offset size : Z) (what : string) : result bytes LoadError :=
  let? end_ := ok_or (checked_add usize_max offset size) (Bounds what) in
  ok_or (get_range bs offset end_) (Bounds what).

(** [usize] is as wide as [u64]. *)
Definition to_usize (value : Z) (what : string) : result Z LoadError := Ok value.

Definition difference_to_usize (value base : Z) : result Z LoadError :=
  let? difference := ok_or (checked_sub value base) (Bounds "address below image base") in
  to_usize difference "address difference".

Definition checked_signed_add (base addend : Z) (what : string) : result Z LoadError :=
  ok_or (try_u64 (base + addend)) (Bounds what).

Definition read_u16 (bs : bytes) (offset : Z) : result Z LoadError :=
  let? data := checked_slice bs offset 2 "u16 read" in Ok (from_le data).
Definition read_u32 (bs : bytes) (offset : Z) : result Z LoadError :=
  let? data := checked_slice bs offset 4 "u32 read" in Ok (from_le data).
Definition read_u64 (bs : bytes) (offset : Z) : result Z LoadError :=
  let? data := checked_slice bs offset 8 "u64 read" in Ok (from_le data).
Definition read_i64 (bs : bytes) (offset : Z) : result Z LoadError :=
  result_map as_i64 (read_u64 bs offset).

(** ** Constants and program headers *)

Definition EI_NIDENT : Z := 16.
Definition ELF64_EHDR_SIZE : Z := 64.
Definition ELF64_PHDR_SIZE : Z := 56.
Definition ELF64_DYN_SIZE : Z := 16.
Definition ELF64_RELA_SIZE : Z := 24.
Definition ELF64_SYM_SIZE : Z := 24.

Definition ET_DYN : Z := 3.
Definition EM_AARCH64 : Z := 183.
Definition EV_CURRENT : Z := 1.

Definition PT_LOAD : Z := 1.
Definition PT_DYNAMIC : Z := 2.
Definition PT_TLS : Z := 7.
Definition PT_GNU_RELRO : Z := 0x6474e552.
Definition PF_X : Z := 1.
Definition PF_W : Z := 2.
Definition PF_R : Z := 4.

Definition PROT_NONE : Z := 0.
Definition PROT_READ : Z := 1.
Definition PROT_WRITE : Z := 2.
Definition PROT_EXEC : Z := 4.
Definition MAX_IMAGE_SIZE : Z := 1024 * 1024 * 1024.
Definition MAX_TLS_SIZE : Z := 64 * 1024 * 1024.
Definition MAX_TLS_ALIGNMENT : Z := 1024 * 1024.

Record ProgramHeader : Type := {
  kind : Z; pflags : Z; offset : Z; virtual_address : Z; file_size : Z; memory_size : Z; alignment : Z }.

(** [flags & flag != 0] and the like. *)
Definition has (flags flag : Z) : bool := negb (Z.land flags flag =? 0).

Definition elf_flags_to_protection (flags : Z) : Z :=
  let protection := PROT_NONE in
  let protection := if has flags PF_R then Z.lor protection PROT_READ else protection in
  let protection := if has flags PF_W then Z.lor protection PROT_WRITE else protection in
  if has flags PF_X then Z.lor protection PROT_EXEC else protection.

(** ** Lemmas *)

Lemma lor_low a b n : 0 <= n -> 0 <= a < 2 ^ n -> Z.lor a (Z.shiftl b n) = a + b * 2 ^ n.
Proof.
  intros Hn Ha. rewrite <- Z.shiftl_mul_pow2 by done. symmetry. apply Z.add_nocarry_lor.
  apply Z.bits_inj'. intros i Hi. rewrite Z.land_spec, Z.bits_0.
  destruct (decide (i < n)).
  - by rewrite Z.shiftl_spec_low, andb_false_r by lia.
  - replace (Z.testbit a i) with false; [done|]. symmetry.
    rewrite <- (Z.mod_small a (2 ^ n)) by lia. apply Z.mod_pow2_bits_high. lia.
Qed.

Lemma as_i64_range z : i64_range (as_i64 z).
Proof.
  unfold as_i64, as_u64, i64_range, isize_max. pose proof (Z.mod_pos_bound z (2 ^ 64) eq_refl).
  destruct (Z.leb_spec (z mod 2 ^ 64) (2 ^ 63 - 1)); lia.
Qed.

Lemma as_i64_id z : i64_range z -> as_i64 (as_u64 z) = z.
Proof.
  unfold as_i64, as_u64, i64_range, isize_max. intros Hz. rewrite Zmod_mod.
  destruct (decide (0 <= z)).
  - rewrite Z.mod_small by lia. destruct (Z.leb_spec z (2 ^ 63 - 1)); lia.
  - replace (z mod 2 ^ 64) with (z + 2 ^ 64); [destruct (Z.leb_spec (z + 2 ^ 64) (2 ^ 63 - 1)); lia|].
    apply Z.mod_unique with (-1); lia.
Qed.

Lemma try_u64_Some z v : try_u64 z = Some v <-> v = z /\ 0 <= z <= u64_max.
Proof.
  unfold try_u64. destruct (Z.leb_spec 0 z), (Z.leb_spec z u64_max); simpl; iff_lia.
Qed.

Lemma try_u64_in z : 0 <= z <= u64_max -> try_u64 z = Some z.
Proof. intros. by apply try_u64_Some. Qed.

Lemma checked_add_i64_Some a b c : checked_add_i64 a b = Some c <-> c = a + b /\ i64_range (a + b).
Proof.
  unfold checked_add_i64, i64_range.
  destruct (Z.leb_spec (- 2 ^ 63) (a + b)), (Z.leb_spec (a + b) isize_max); simpl; iff_lia.
Qed.

(** The bits of a byte that LEB128 uses. *)
Lemma byte_payload b : Z.land (byte_value b) 0x7f = byte_value b mod 128.
Proof. by destruct b. Qed.

Lemma byte_more b : (Z.land (byte_value b) 0x80 =? 0) = (byte_value b <? 128).
Proof. by destruct b. Qed.

Lemma byte_sign b : (Z.land (byte_value b) 0x40 =? 0) = (byte_value b mod 128 <? 64).
Proof. by destruct b. Qed.

Lemma byte_value_of_Z z : 0 <= z < 256 -> byte_value (byte.of_Z z) = z.
Proof. intros. rewrite byte.unsigned_of_Z. unfold byte.wrap. apply Z.mod_small. lia. Qed.

(** ** Outcomes

    [returns c P]: the operation does not panic, and a successful result satisfies [P]. *)
Definition returns {A E} (c : option (result A E)) (P : A -> Prop) : Prop :=
  exists r, c = Some r /\ forall a, r = Ok a -> P a.

Section returns.
Context {A B E : Type}.
Implicit Types (c : option (result A E)) (P Q : A -> Prop).

Lemma returns_ok (a : A) P : P a -> returns (E := E) (Some (Ok a)) P.
Proof. intros. eexists. split; [done|]. by intros ? [= <-]. Qed.

Lemma returns_err (e : E) P : returns (Some (Err e)) P.
Proof. by eexists. Qed.

Lemma returns_some (r : result A E) P : (forall a, r = Ok a -> P a) -> returns (Some r) P.
Proof. by eexists. Qed.

Lemma returns_weaken c P Q : returns c P -> (forall a, P a -> Q a) -> returns c Q.
Proof. intros (r & -> & H) HPQ. eexists. split; [done|]. intros a Ha. eauto. Qed.

Lemma returns_bind c (k : A -> option (result B E)) P (Q : B -> Prop) :
  returns c P -> (forall a, P a -> returns (k a) Q) ->
  returns (match c with Some (Ok a) => k a | Some (Err e) => Some (Err e) | None => None end) Q.
Proof.
  intros (r & -> & H) Hk. destruct r as [a|e]; [by apply Hk, H|by eexists].
Qed.

Lemma returns_Ok c P a : returns c P -> c = Some (Ok a) -> P a.
Proof. intros (r & -> & H) [= ->]. by apply H. Qed.

Lemma returns_not_None c P : returns c P -> c <> None.
Proof. by intros (r & -> & _). Qed.
End returns.


(** Splits the [?] operators of the equation [H] that a computation succeeds. *)
Ltac ok_inv H :=
  repeat lazymatch type of H with
         | match ?c with Ok _ => _ | Err _ => _ end = Ok _ =>
             let E := fresh "E" in destruct c eqn:E; [|discriminate H]; cbn beta iota in H
         | match ?c with pair _ _ => _ end = Ok _ => destruct c; cbn beta iota in H
         end.

(** ** Lemmas: masks *)

Lemma land_ones_low a k : 0 <= k -> Z.land a (2 ^ k - 1) = a mod 2 ^ k.
Proof. intros. rewrite <- Z.land_ones by done. f_equal. rewrite Z.ones_equiv. lia. Qed.

(** [a & !(2 ^ k - 1)] on 64 bits rounds down. *)
Lemma land_not64 a k : u64_range a -> 0 <= k <= 64 -> Z.land a (not64 (2 ^ k - 1)) = a - a mod 2 ^ k.
Proof.
  intros Ha Hk. unfold u64_range, u64_max in Ha.
  assert (Z.land a (not64 (2 ^ k - 1)) = Z.ldiff a (Z.ones k)) as ->.
  { replace (not64 (2 ^ k - 1)) with (Z.ldiff (Z.ones 64) (Z.ones k)).
    - rewrite !Z.ldiff_land, Z.land_assoc. f_equal. rewrite Z.land_ones by lia. apply Z.mod_small. lia.
    - rewrite <- Z.sub_nocarry_ldiff; [rewrite !Z.ones_equiv; unfold not64, u64_max; lia|].
      pose proof (Z.pow_pos_nonneg 2 k). apply Z.ldiff_ones_r_low; rewrite Z.ones_equiv; [lia|].
      destruct (decide (k = 0)) as [->|]; [done|]. rewrite Z.log2_pred_pow2 by lia. lia. }
  rewrite Z.ldiff_ones_r, Z.shiftr_div_pow2, Z.shiftl_mul_pow2 by lia.
  pose proof (Z.div_mod a (2 ^ k)). lia.
Qed.

Lemma land_bit a n : 0 <= n -> Z.land a (2 ^ n) = Z.b2z (Z.testbit a n) * 2 ^ n.
Proof.
  intros Hn. apply Z.bits_inj'. intros i Hi. rewrite Z.land_spec, Z.pow2_bits_eqb by done.
  destruct (Z.eqb_spec n i) as [<-|].
  - rewrite andb_true_r. destruct (Z.testbit a n); [|by rewrite Z.bits_0].
    change (Z.b2z true) with 1. by rewrite Z.mul_1_l, Z.pow2_bits_true.
  - rewrite andb_false_r. destruct (Z.testbit a n); [|by rewrite Z.bits_0].
    change (Z.b2z true) with 1. by rewrite Z.mul_1_l, Z.pow2_bits_false by lia.
Qed.

Lemma has_bit a n : 0 <= n -> has a (2 ^ n) = Z.testbit a n.
Proof.
  intros Hn. unfold has. rewrite land_bit by done. pose proof (Z.pow_pos_nonneg 2 n).
  destruct (Z.testbit a n); simpl Z.b2z; [|done]. destruct (Z.eqb_spec (1 * 2 ^ n) 0); [lia|done].
Qed.

(** The top bit of an [n + 1]-bit number is its sign. *)
Lemma has_top a n : 0 <= n -> 0 <= a < 2 ^ (n + 1) -> has a (2 ^ n) = (2 ^ n <=? a).
Proof.
  intros Hn Ha. rewrite has_bit by done. rewrite Z.pow_add_r, Z.pow_1_r in Ha by lia.
  pose proof (Z.testbit_spec' a n Hn) as E. pose proof (Z.pow_pos_nonneg 2 n).
  destruct (Z.leb_spec (2 ^ n) a).
  - assert (a / 2 ^ n = 1) as Hd by (symmetry; apply Z.div_unique with (a - 2 ^ n); lia).
    rewrite Hd in E. by destruct (Z.testbit a n).
  - rewrite (Z.div_small a (2 ^ n)) in E by lia. by destruct (Z.testbit a n).
Qed.

(** [&] on the low and the high bits separately. *)
Lemma land_split a b c d n :
  0 <= n -> 0 <= a < 2 ^ n -> 0 <= c < 2 ^ n ->
  Z.land (a + b * 2 ^ n) (c + d * 2 ^ n) = Z.land a c + Z.land b d * 2 ^ n.
Proof.
  intros Hn Ha Hc. rewrite <- !lor_low by done. rewrite <- lor_low; [|done|].
  2: { replace (Z.land a c) with (Z.land a c mod 2 ^ n); [apply Z.mod_pos_bound; lia|].
       rewrite <- Z.land_ones, <- Z.land_assoc, Z.land_ones, (Z.mod_small c) by lia. done. }
  apply Z.bits_inj'. intros i Hi. rewrite !Z.land_spec, !Z.lor_spec, Z.land_spec.
  destruct (decide (i < n)).
  - by rewrite !Z.shiftl_spec_low, !orb_false_r by lia.
  - rewrite !Z.shiftl_spec_high, Z.land_spec by lia.
    assert (forall x, 0 <= x < 2 ^ n -> Z.testbit x i = false) as Hx.
    { intros x Hx. rewrite <- (Z.mod_small x (2 ^ n)) by lia. apply Z.mod_pow2_bits_high. lia. }
    by rewrite (Hx a Ha), (Hx c Hc).
Qed.

(** ** Lemmas: powers of two and checked reads *)

Lemma is_power_of_two_spec z : is_power_of_two z = true -> 0 < z /\ z = 2 ^ Z.log2 z.
Proof.
  unfold is_power_of_two. intros [Hz%Z.ltb_lt Hl%Z.eqb_eq]%andb_prop. split; [done|].
  pose proof (Z.log2_spec z Hz) as [Hlo Hhi]. set (n := Z.log2 z) in *.
  assert (0 <= n) by apply Z.log2_nonneg. destruct (decide (z = 2 ^ n)) as [|Hne]; [done|]. exfalso.
  assert (Z.testbit (Z.land z (z - 1)) n = true) as Hbit; [|by rewrite Hl, Z.bits_0 in Hbit].
  rewrite Z.land_spec. unfold n. rewrite Z.bit_log2 by done.
  replace (Z.log2 z) with (Z.log2 (z - 1)); [by rewrite Z.bit_log2 by lia|].
  apply Z.log2_unique; fold n; lia.
Qed.

Lemma checked_slice_Ok bs offset size what r :
  0 <= offset -> 0 <= size ->
  checked_slice bs offset size what = Ok r <->
  offset + size <= len bs /\ offset + size <= usize_max /\
  r = take (Z.to_nat size) (drop (Z.to_nat offset) bs).
Proof.
  intros Ho Hs. unfold checked_slice. destruct (checked_add usize_max offset size) as [e|] eqn:E; simpl.
  - apply checked_add_Some in E as [-> ?]. destruct (get_range bs offset (offset + size)) eqn:G; simpl.
    + apply get_range_Some in G as (? & ? & ->). replace (offset + size - offset) with size by lia.
      split; [intros [= <-]; done|by intros (_ & _ & ->)].
    + split; [done|]. intros (? & ? & ->). exfalso. revert G. apply not_eq_None_Some.
      eexists. apply get_range_Some. split_and!; [lia..|done].
  - apply checked_add_None in E. split; [done|lia].
Qed.

Lemma checked_slice_length bs at_ n what r : checked_slice bs at_ n what = Ok r -> len r = n.
Proof.
  unfold checked_slice. destruct (checked_add _ _ _) as [e|] eqn:A; [|done]. apply checked_add_Some in A as [-> _].
  simpl. destruct (get_range _ _ _) as [r'|] eqn:G; [|done]. intros [= <-]. apply length_get_range in G. lia.
Qed.

(** A read returns a value of its width. *)
Lemma read_u16_range bs at_ v : read_u16 bs at_ = Ok v -> u16_range v.
Proof.
  unfold read_u16. destruct (checked_slice bs at_ 2 _) as [r|] eqn:E; [|done]. intros [= <-].
  apply checked_slice_length in E. pose proof (from_le_range r 2). unfold len, u16_range, u16_max in *. lia.
Qed.

Lemma read_u32_range bs at_ v : read_u32 bs at_ = Ok v -> u32_range v.
Proof.
  unfold read_u32. destruct (checked_slice bs at_ 4 _) as [r|] eqn:E; [|done]. intros [= <-].
  apply checked_slice_length in E. pose proof (from_le_range r 4). unfold len, u32_range, u32_max in *. lia.
Qed.

Lemma read_u64_range bs at_ v : read_u64 bs at_ = Ok v -> u64_range v.
Proof.
  unfold read_u64. destruct (checked_slice bs at_ 8 _) as [r|] eqn:E; [|done]. intros [= <-].
  apply checked_slice_length in E. pose proof (from_le_range r 8). unfold len, u64_range, u64_max in *. lia.
Qed.
