(* ===== verification/PackedRelocations.v ===== *)
(** * Android packed relocations ([packed_relocations.rs])

    The signed LEB128 reader, the decoder of the APS2 delta stream, and the encoder of the source's
    tests.  The reader's state is the list of the bytes it has not read. *)
From coqutil Require Import Byte Word.LittleEndianList.
From S2P Require Import Prelude ElfBase.

(** ** The reader *)

(** The loop of [Sleb128::next], with the iterations left; [None] is [unreachable!()]. *)
Fixpoint sleb_loop (n : nat) (value shift : Z) (rest : bytes) : option (result (Z * bytes) string) :=
  match n, rest with
  | O, _ => None
  | S n, [] => Some (Err "truncated signed LEB128")
  | S n, b :: rest =>
      let payload := Z.land (byte_value b) 0x7f in
      if (shift =? 63) && negb (Z.land payload (not64 1) =? 0) then Some (Err "signed LEB128 overflow")
      else
        let value := Z.lor value (shl64 payload shift) in
        let shift := shift + 7 in
        if Z.land (byte_value b) 0x80 =? 0 then
          let value :=
            if (shift <? 64) && negb (Z.land (byte_value b) 0x40 =? 0)
            then Z.lor value (shl64 u64_max shift) else value in
          Some (Ok (as_i64 value, rest))
        else if (n =? 0)%nat then Some (Err "signed LEB128 exceeds 10 bytes")
        else sleb_loop n value shift rest
  end.

Definition sleb_next (rest : bytes) : option (result (Z * bytes) string) := sleb_loop 10 0 0 rest.

Definition next_nonnegative (rest : bytes) (error : string) : option (result (Z * bytes) string) :=
  let! (v, rest) := sleb_next rest in
  Some (if 0 <=? v then Ok (v, rest) else Err error).

(** [sleb] of the tests: the encoder, with fuel for its ten iterations. *)
Fixpoint sleb_bytes (fuel : nat) (value : Z) : bytes :=
  match fuel with
  | O => []
  | S fuel =>
      let b := Z.land value 0x7f in
      let next := Z.shiftr value 7 in
      let done := ((next =? 0) && (Z.land b 0x40 =? 0)) || ((next =? -1) && negb (Z.land b 0x40 =? 0)) in
      byte.of_Z (Z.lor b (if done then 0 else 0x80)) :: if done then [] else sleb_bytes fuel next
  end.

Definition sleb (value : Z) : bytes := sleb_bytes 10 value.

(** ** The decoder *)

Definition APS2_MAGIC : bytes := [Byte.x41; Byte.x50; Byte.x53; Byte.x32].
Definition GROUPED_BY_INFO : Z := 1.
Definition GROUPED_BY_OFFSET_DELTA : Z := 2.
Definition GROUPED_BY_ADDEND : Z := 4.
Definition GROUP_HAS_ADDEND : Z := 8.
Definition KNOWN_GROUP_FLAGS : Z :=
  Z.lor (Z.lor (Z.lor GROUPED_BY_INFO GROUPED_BY_OFFSET_DELTA) GROUPED_BY_ADDEND) GROUP_HAS_ADDEND.

Record PackedRela : Type := { roffset : Z; rinfo : Z; raddend : Z }.

(** The running values of the decoder: offset, info and addend. *)
Record Running : Type := { cur_offset : Z; cur_info : Z; cur_addend : Z }.

(** One relocation of a group. *)
Definition decode_one (flags grouped_offset_delta : Z) (st : Running) (rest : bytes)
    : option (result (PackedRela * Running * bytes) string) :=
  let! (delta, rest) :=
    if has flags GROUPED_BY_OFFSET_DELTA then Some (Ok (grouped_offset_delta, rest)) else sleb_next rest in
  match checked_add_signed (cur_offset st) delta with
  | None => Some (Err "relocation offset underflow or overflow")
  | Some offset =>
      let! (info, rest) :=
        if has flags GROUPED_BY_INFO then Some (Ok (cur_info st, rest))
        else next_nonnegative rest "negative relocation info" in
      let has_addend := has flags GROUP_HAS_ADDEND in
      let! (addend, rest) :=
        if has_addend && negb (has flags GROUPED_BY_ADDEND) then
          let! (delta, rest) := sleb_next rest in
          match checked_add_i64 (cur_addend st) delta with
          | Some addend => Some (Ok (addend, rest))
          | None => Some (Err "relocation addend overflow")
          end
        else Some (Ok (cur_addend st, rest)) in
      Some (Ok ({| roffset := offset; rinfo := info; raddend := if has_addend then addend else 0 |},
                {| cur_offset := offset; cur_info := info; cur_addend := addend |}, rest))
  end.

(** The relocations of a group. *)
Fixpoint decode_members (size : nat) (flags grouped_offset_delta : Z) (st : Running) (rest : bytes)
    : option (result (list PackedRela * Running * bytes) string) :=
  match size with
  | O => Some (Ok ([], st, rest))
  | S size =>
      let! (r, st, rest) := decode_one flags grouped_offset_delta st rest in
      let! (rs, st, rest) := decode_members size flags grouped_offset_delta st rest in
      Some (Ok (r :: rs, st, rest))
  end.

(** The body of the loop over the groups, with [left] relocations to come. *)
Definition decode_group (left : Z) (st : Running) (rest : bytes)
    : option (result (list PackedRela * Running * bytes) string) :=
  let! (group_size, rest) := next_nonnegative rest "negative relocation group size" in
  if (group_size =? 0) || (left <? group_size) then Some (Err "invalid relocation group size")
  else
    let! (flags, rest) := next_nonnegative rest "negative relocation group flags" in
    if negb (Z.land flags (not64 KNOWN_GROUP_FLAGS) =? 0)
       || has flags GROUPED_BY_ADDEND && negb (has flags GROUP_HAS_ADDEND)
    then Some (Err "invalid relocation group flags")
    else
      let! (delta, rest) :=
        if has flags GROUPED_BY_OFFSET_DELTA then sleb_next rest else Some (Ok (0, rest)) in
      let! (info, rest) :=
        if has flags GROUPED_BY_INFO then next_nonnegative rest "negative grouped relocation info"
        else Some (Ok (cur_info st, rest)) in
      let has_addend := has flags GROUP_HAS_ADDEND in
      let! (addend, rest) :=
        if has_addend && has flags GROUPED_BY_ADDEND then
          let! (delta, rest) := sleb_next rest in
          match checked_add_i64 (cur_addend st) delta with
          | Some addend => Some (Ok (addend, rest))
          | None => Some (Err "grouped relocation addend overflow")
          end
        else Some (Ok (if has_addend then cur_addend st else 0, rest)) in
      decode_members (Z.to_nat group_size) flags delta
        {| cur_offset := cur_offset st; cur_info := info; cur_addend := addend |} rest.

(** The loop over the groups; every group takes a byte, so the bytes bound its iterations. *)
Fixpoint decode_groups (fuel : nat) (left : Z) (st : Running) (rest : bytes)
    : option (result (list PackedRela * bytes) string) :=
  if left =? 0 then Some (Ok ([], rest))
  else
    match fuel with
    | O => None
    | S fuel =>
        let! (rs, st, rest) := decode_group left st rest in
        let! (rs', rest) := decode_groups fuel (left - len rs) st rest in
        Some (Ok (rs ++ rs', rest))
    end.

(** A [PackedRela] is 24 bytes wide; [Vec::with_capacity] panics beyond [isize::MAX] bytes. *)
Definition PACKED_RELA_BYTES : Z := 24.
Definition with_capacity (capacity width : Z) : option unit :=
  if capacity * width <=? isize_max then Some tt else None.

Definition decode_aps2_rela (bs : bytes) : option (result (list PackedRela) string) :=
  if negb (bool_decide (take 4 bs = APS2_MAGIC)) then Some (Err "Android packed RELA lacks APS2 magic")
  else
    let! (capacity, rest) := next_nonnegative (drop 4 bs) "negative packed relocation count" in
    _ ← with_capacity capacity PACKED_RELA_BYTES;
    let! (offset, rest) := next_nonnegative rest "negative initial relocation offset" in
    let! (rs, rest) :=
      decode_groups (S (length rest)) capacity {| cur_offset := offset; cur_info := 0; cur_addend := 0 |} rest in
    Some (if bool_decide (rest = []) then Ok rs else Err "trailing bytes in Android packed RELA").

(** ** Lemmas: the reader *)

Lemma sleb_bytes_S fuel v :
  sleb_bytes (S fuel) v =
    if (-64 <=? v) && (v <? 64) then [byte.of_Z (v mod 128)]
    else byte.of_Z (v mod 128 + 128) :: sleb_bytes fuel (v / 128).
Proof.
  cbn [sleb_bytes]. change (Z.land v 0x7f) with (Z.land v (Z.ones 7)). rewrite Z.land_ones by lia.
  rewrite Z.shiftr_div_pow2 by lia. change (2 ^ 7) with 128.
  assert ((Z.land (v mod 128) 0x40 =? 0) = (v mod 128 <? 64)) as ->.
  { pose proof (Z.mod_pos_bound v 128 eq_refl).
    rewrite <- (byte_value_of_Z (v mod 128)), byte_sign by lia.
    by rewrite byte_value_of_Z, Zmod_mod by lia. }
  assert (Z.lor (v mod 128) 0x80 = v mod 128 + 128) as Hor.
  { apply (lor_low (v mod 128) 1 7); [lia|]. by apply Z.mod_pos_bound. }
  assert ((v / 128 =? 0) && (v mod 128 <? 64) || (v / 128 =? -1) && negb (v mod 128 <? 64) =
          (-64 <=? v) && (v <? 64)) as ->.
  { destruct (Z.eqb_spec (v / 128) 0), (Z.eqb_spec (v / 128) (-1)), (Z.ltb_spec (v mod 128) 64),
      (Z.leb_spec (-64) v), (Z.ltb_spec v 64); simpl; try done; exfalso; mod_lia. }
  case_match; [by rewrite Z.lor_0_r|by rewrite Hor].
Qed.

(** One iteration of the reader. *)
Lemma sleb_loop_S n value shift b rest :
  sleb_loop (S n) value shift (b :: rest) =
    if (shift =? 63) && negb (Z.land (byte_value b mod 128) (not64 1) =? 0) then Some (Err "signed LEB128 overflow"%string)
    else
      let value := Z.lor value (shl64 (byte_value b mod 128) shift) in
      if byte_value b <? 128 then
        Some (Ok (as_i64 (if (shift + 7 <? 64) && negb (byte_value b mod 128 <? 64)
                          then Z.lor value (shl64 u64_max (shift + 7)) else value), rest))
      else if (n =? 0)%nat then Some (Err "signed LEB128 exceeds 10 bytes"%string)
      else sleb_loop n value (shift + 7) rest.
Proof. cbn [sleb_loop]. by rewrite byte_payload, byte_more, byte_sign. Qed.

#[local] Arguments sleb_loop : simpl never.
#[local] Arguments sleb_bytes : simpl never.

(** The reader returns a 64-bit number and takes one to ten bytes. *)
Lemma sleb_loop_returns n value shift rest :
  (0 < n)%nat ->
  exists r, sleb_loop n value shift rest = Some r /\
    forall v rest', r = Ok (v, rest') ->
      i64_range v /\ exists pre, rest = pre ++ rest' /\ (0 < length pre <= n)%nat.
Proof.
  revert value shift rest. induction n as [|n IH]; intros value shift rest Hn; [lia|].
  destruct rest as [|b rest]; [by eexists|]. rewrite sleb_loop_S. cbv zeta.
  case_match; [by eexists|]. case_match.
  { eexists. split; [done|]. intros ?? [= <- <-]. split; [apply as_i64_range|].
    exists [b]. simpl. split; [done|lia]. }
  destruct (Nat.eqb_spec n 0); [by eexists|].
  destruct (IH (Z.lor value (shl64 (byte_value b mod 128) shift)) (shift + 7) rest) as (r & -> & Hr); [lia|].
  eexists. split; [done|]. intros v rest' ->. destruct (Hr _ _ eq_refl) as (? & pre & -> & ?).
  split; [done|]. exists (b :: pre). simpl. split; [done|lia].
Qed.

(** ** Lemmas: reading what the encoder wrote *)

Lemma shl64_payload p k : 0 <= p < 128 -> 0 <= k -> 7 * k + 7 <= 63 -> shl64 p (7 * k) = Z.shiftl p (7 * k).
Proof.
  intros Hp Hk Hs. unfold shl64, as_u64. rewrite Z.shiftl_mul_pow2 by lia. apply Z.mod_small.
  pose proof (Z.pow_le_mono_r 2 (7 * k + 7) 63). rewrite Z.pow_add_r in * by lia.
  change (2 ^ 7) with 128 in *. split; [|]; nia.
Qed.

Lemma shl64_ones n : 0 <= n <= 64 -> shl64 u64_max n = Z.shiftl (2 ^ (64 - n) - 1) n.
Proof.
  intros Hn. unfold shl64, as_u64. rewrite !Z.shiftl_mul_pow2 by lia.
  assert (2 ^ (64 - n) * 2 ^ n = 2 ^ 64) as E by (rewrite <- Z.pow_add_r by lia; f_equal; lia).
  pose proof (Z.pow_pos_nonneg 2 n). pose proof (Z.pow_pos_nonneg 2 (64 - n)).
  symmetry. apply Z.mod_unique with (2 ^ n - 1); unfold u64_max; nia.
Qed.

(** The seven bits at [7 * k]. *)
Lemma mod_next V k : 0 <= k -> V mod 2 ^ (7 * k) + (V / 2 ^ (7 * k)) mod 128 * 2 ^ (7 * k) = V mod 2 ^ (7 * (k + 1)).
Proof.
  intros. replace (7 * (k + 1)) with (7 * k + 7) by lia. rewrite Z.pow_add_r by lia.
  change (2 ^ 7) with 128. rewrite Z.rem_mul_r; lia.
Qed.

Lemma sleb_step V k value :
  0 <= k <= 8 -> value = V mod 2 ^ (7 * k) ->
  Z.lor value (shl64 ((V / 2 ^ (7 * k)) mod 128) (7 * k)) = V mod 2 ^ (7 * (k + 1)).
Proof.
  intros Hk ->. rewrite shl64_payload by (try apply Z.mod_pos_bound; lia).
  rewrite lor_low by (try apply Z.mod_pos_bound; lia). by apply mod_next; lia.
Qed.

(** The last byte of a number of at most nine bytes, with its sign. *)
Lemma sleb_last V k :
  0 <= k <= 8 -> - 64 <= V / 2 ^ (7 * k) < 64 ->
  let X := V mod 2 ^ (7 * (k + 1)) in
  as_i64 (if (7 * k + 7 <? 64) && negb ((V / 2 ^ (7 * k)) mod 128 <? 64)
          then Z.lor X (shl64 u64_max (7 * k + 7)) else X) = V /\ - 2 ^ 62 <= V.
Proof.
  intros Hk Hv X. assert (X = V mod 2 ^ (7 * k) + (V / 2 ^ (7 * k)) mod 128 * 2 ^ (7 * k)) as HX
    by (symmetry; apply mod_next; lia).
  pose proof (Z.mod_pos_bound V (2 ^ (7 * (k + 1)))). fold X in H.
  assert (2 ^ (7 * (k + 1)) = 128 * 2 ^ (7 * k)) as E.
  { replace (7 * (k + 1)) with (7 + 7 * k) by lia. rewrite Z.pow_add_r by lia. done. }
  assert (0 < 2 ^ (7 * k) <= 2 ^ 56) by (split; [lia|apply Z.pow_le_mono_r; lia]).
  pose proof (Z.div_mod V (2 ^ (7 * k))). pose proof (Z.mod_pos_bound V (2 ^ (7 * k))).
  assert (- 64 * 2 ^ (7 * k) <= V < 64 * 2 ^ (7 * k)) by nia.
  assert (- 2 ^ 62 <= V < 2 ^ 62) by (change (2 ^ 62) with (64 * 2 ^ 56); nia).
  split; [|lia].
  transitivity (as_i64 (as_u64 V)); [|apply as_i64_id; unfold i64_range, isize_max; lia].
  assert ((7 * k + 7 <? 64) = true) as -> by (apply Z.ltb_lt; lia).
  destruct (decide (0 <= V / 2 ^ (7 * k))).
  - rewrite (Z.mod_small (V / 2 ^ (7 * k)) 128) in HX |- * by lia. destruct (Z.ltb_spec (V / 2 ^ (7 * k)) 64); [|lia]. simpl.
    f_equal. unfold as_u64. rewrite Z.mod_small; nia.
  - assert ((V / 2 ^ (7 * k)) mod 128 = V / 2 ^ (7 * k) + 128) as Hm.
    { symmetry. apply Z.mod_unique with (-1); lia. }
    rewrite Hm in HX |- *. destruct (Z.ltb_spec (V / 2 ^ (7 * k) + 128) 64); [lia|]. simpl.
    rewrite shl64_ones, lor_low by (try replace (7 * k + 7) with (7 * (k + 1)) by lia; lia).
    replace (7 * k + 7) with (7 * (k + 1)) by lia.
    rewrite Z.mul_sub_distr_r, <- Z.pow_add_r, Z.mul_1_l by lia.
    replace (64 - 7 * (k + 1) + 7 * (k + 1)) with 64 by lia.
    f_equal. unfold as_u64. apply Z.mod_unique with (-1); nia.
Qed.

Lemma sleb_loop_encoded V rest n k :
  i64_range V -> 0 <= k -> Z.of_nat n = 10 - k -> (0 < n)%nat ->
  k = 0 \/ ~ - 64 <= V / 2 ^ (7 * (k - 1)) < 64 ->
  sleb_loop n (V mod 2 ^ (7 * k)) (7 * k) (sleb_bytes n (V / 2 ^ (7 * k)) ++ rest) =
    Some (if - 2 ^ 62 <=? V then Ok (V, rest) else Err "signed LEB128 overflow"%string).
Proof.
  intros HV. revert k. induction n as [|n IH]; intros k Hk Hn Hpos Hlong; [lia|]. rewrite sleb_bytes_S.
  pose proof (Z.mod_pos_bound (V / 2 ^ (7 * k)) 128 eq_refl) as Hm.
  destruct (decide (k = 9)) as [->|].
  { assert (n = 0%nat) as -> by lia. change (7 * 9) with 63. change (7 * (9 - 1)) with 56 in Hlong.
    unfold i64_range, isize_max in HV.
    assert (V / 2 ^ 63 = -1 /\ V < - 2 ^ 62 \/ V / 2 ^ 63 = 0 /\ 0 <= V) as [[E ?]|[E ?]] by mod_lia; rewrite E.
    - simpl. rewrite sleb_loop_S. destruct (Z.leb_spec (- 2 ^ 62) V); [lia|done].
    - simpl. rewrite sleb_loop_S. simpl. destruct (Z.leb_spec (- 2 ^ 62) V); [|lia].
      change (shl64 _ 63) with 0. rewrite Z.lor_0_r, Z.mod_small by lia.
      unfold as_i64, as_u64, isize_max. rewrite Z.mod_small by lia.
      destruct (Z.leb_spec V (2 ^ 63 - 1)); [done|lia]. }
  destruct (Z.leb_spec (-64) (V / 2 ^ (7 * k))), (Z.ltb_spec (V / 2 ^ (7 * k)) 64); simpl app;
    rewrite sleb_loop_S, byte_value_of_Z by lia;
    (replace (7 * k =? 63) with false by (symmetry; apply Z.eqb_neq; lia)); simpl andb; cbv iota.
  { rewrite !Zmod_mod, sleb_step by (done || lia).
    destruct (Z.ltb_spec ((V / 2 ^ (7 * k)) mod 128) 128); [|lia].
    cbv zeta. destruct (sleb_last V k) as [-> ?]; [lia..|]. destruct (Z.leb_spec (- 2 ^ 62) V); [done|lia]. }
  all: replace ((V / 2 ^ (7 * k)) mod 128 + 128) with ((V / 2 ^ (7 * k)) mod 128 + 1 * 128) by lia;
    rewrite Z.mod_add, Zmod_mod, sleb_step by (done || lia); cbv zeta;
    (destruct (Z.ltb_spec ((V / 2 ^ (7 * k)) mod 128 + 1 * 128) 128); [lia|]);
    (destruct (Nat.eqb_spec n 0); [lia|]);
    replace (7 * k + 7) with (7 * (k + 1)) by lia;
    (replace (V / 2 ^ (7 * k) / 128) with (V / 2 ^ (7 * (k + 1)));
      [apply IH; [lia..|]; right; by replace (k + 1 - 1) with k by lia; lia|]);
    rewrite Z.div_div by lia; f_equal; replace (7 * (k + 1)) with (7 * k + 7) by lia;
    rewrite Z.pow_add_r by lia; done.
Qed.

(** C31: the reader decodes what the encoder of the source writes for every 64-bit number from
    [- 2 ^ 62] up, and leaves the bytes behind it; it rejects the ten-byte encodings of the
    numbers below, which are 64-bit numbers too. *)
Theorem sleb128_exact V rest :
  i64_range V ->
  sleb_next (sleb V ++ rest) =
    Some (if - 2 ^ 62 <=? V then Ok (V, rest) else Err "signed LEB128 overflow"%string).
Proof.
  intros HV. pose proof (sleb_loop_encoded V rest 10 0 HV) as H. change (7 * 0) with 0 in H.
  rewrite Z.pow_0_r, Z.mod_1_r, Z.div_1_r in H. apply H; lia.
Qed.

(** At the smallest number, which the reader rejects, and at one it reads. *)
Lemma sleb128_exact_witness :
  sleb_next (sleb (- 2 ^ 63) ++ []) = Some (Err "signed LEB128 overflow"%string) /\
  sleb_next (sleb (-300) ++ []) = Some (Ok (-300, [])).
Proof. split; [exact (sleb128_exact (- 2 ^ 63) [] ltac:(done))|exact (sleb128_exact (-300) [] ltac:(done))]. Defined.

(** ** Lemmas: the decoder returns *)

Definition rela_ok (r : PackedRela) : Prop :=
  u64_range (roffset r) /\ 0 <= rinfo r <= isize_max /\ i64_range (raddend r).
Definition running_ok (st : Running) : Prop :=
  u64_range (cur_offset st) /\ 0 <= cur_info st <= isize_max /\ i64_range (cur_addend st).

Lemma sleb_next_returns rest :
  returns (sleb_next rest) (fun r => i64_range r.1 /\ (length r.2 < length rest)%nat).
Proof.
  destruct (sleb_loop_returns 10 0 0 rest) as (r & Hr & H); [lia|]. exists r. split; [done|].
  intros [v rest'] ->. destruct (H _ _ eq_refl) as (? & pre & -> & ?). simpl.
  rewrite length_app. split; [done|lia].
Qed.

Lemma next_nonnegative_returns rest error :
  returns (next_nonnegative rest error) (fun r => 0 <= r.1 <= isize_max /\ (length r.2 < length rest)%nat).
Proof.
  eapply returns_bind; [apply sleb_next_returns|]. intros [v rest'] [Hv ?]. simpl in *.
  unfold i64_range in Hv. destruct (Z.leb_spec 0 v); [apply returns_ok; simpl; lia|apply returns_err].
Qed.

(** The next number of the stream. *)
Ltac read_number := first [apply next_nonnegative_returns | apply sleb_next_returns].

Lemma decode_one_returns flags delta st rest :
  running_ok st -> i64_range delta ->
  returns (decode_one flags delta st rest)
    (fun r => rela_ok r.1.1 /\ running_ok r.1.2 /\ (length r.2 <= length rest)%nat).
Proof.
  intros (Ho & Hi & Ha) Hd. unfold decode_one.
  eapply (returns_bind _ _ (fun r => i64_range r.1 /\ (length r.2 <= length rest)%nat)).
  { case_match; [by apply returns_ok|]. eapply returns_weaken; [read_number|]. intros ? [? ?]. split; [done|lia]. }
  intros [d r1] [Hd' ?]. simpl in *. case_match eqn:E; [|apply returns_err].
  apply try_u64_Some in E as [-> ?].
  eapply (returns_bind _ _ (fun r => 0 <= r.1 <= isize_max /\ (length r.2 <= length rest)%nat)).
  { case_match; [by apply returns_ok|]. eapply returns_weaken; [read_number|]. intros ? [? ?]. split; [done|lia]. }
  intros [i r2] [Hi' ?]. simpl in *.
  eapply (returns_bind _ _ (fun r => i64_range r.1 /\ (length r.2 <= length rest)%nat)).
  { case_match; [|by apply returns_ok]. eapply returns_bind; [read_number|]. intros [a r3] [? ?].
    case_match eqn:E; [|apply returns_err]. apply checked_add_i64_Some in E as [-> ?].
    apply returns_ok. simpl in *. split; [done|lia]. }
  intros [a r3] [Ha' ?]. simpl in *. apply returns_ok. simpl. split_and!; try done; try lia.
  by case_match.
Qed.

Lemma decode_members_returns size flags delta st rest :
  running_ok st -> i64_range delta ->
  returns (decode_members size flags delta st rest)
    (fun r => (length r.1.1 = size /\ Forall rela_ok r.1.1) /\ running_ok r.1.2 /\ (length r.2 <= length rest)%nat).
Proof.
  intros Hst Hd. revert st rest Hst. induction size as [|size IH]; intros st rest Hst; simpl.
  { by apply returns_ok. }
  eapply returns_bind; [by apply decode_one_returns|]. intros [[r st'] rest'] (Hr & Hst' & ?). simpl in *.
  eapply returns_bind; [by apply IH|]. intros [[rs st''] rest''] ((Hl & Hrs) & ? & ?). simpl in *.
  apply returns_ok. simpl. split_and!; [lia|by constructor|done|lia].
Qed.

Lemma decode_group_returns left st rest :
  running_ok st ->
  returns (decode_group left st rest)
    (fun r => (0 < len r.1.1 <= left /\ Forall rela_ok r.1.1) /\ running_ok r.1.2 /\ (length r.2 < length rest)%nat).
Proof.
  intros (Ho & Hi & Ha). unfold decode_group. eapply returns_bind; [read_number|].
  intros [size r1] [Hsize ?]. simpl in *.
  destruct (Z.eqb_spec size 0), (Z.ltb_spec left size); simpl; try apply returns_err.
  eapply returns_bind; [read_number|]. intros [flags r2] [? ?]. simpl in *. case_match; [apply returns_err|].
  eapply (returns_bind _ _ (fun r => i64_range r.1 /\ (length r.2 < length rest)%nat)).
  { case_match; [|by apply returns_ok; simpl; split; [done|lia]].
    eapply returns_weaken; [read_number|]. intros ? [? ?]. split; [done|lia]. }
  intros [d r3] [? ?]. simpl in *.
  eapply (returns_bind _ _ (fun r => 0 <= r.1 <= isize_max /\ (length r.2 < length rest)%nat)).
  { case_match; [|by apply returns_ok; simpl]. eapply returns_weaken; [read_number|]. intros ? [? ?]. split; [done|lia]. }
  intros [i r4] [? ?]. simpl in *.
  eapply (returns_bind _ _ (fun r => i64_range r.1 /\ (length r.2 < length rest)%nat)).
  { case_match; [|by apply returns_ok; simpl; split; [case_match|lia]].
    eapply returns_bind; [read_number|]. intros [a r5] [? ?].
    case_match eqn:E; [|apply returns_err]. apply checked_add_i64_Some in E as [-> ?].
    apply returns_ok. simpl in *. split; [done|lia]. }
  intros [a r5] [? ?]. simpl in *. eapply returns_weaken; [by apply decode_members_returns|].
  intros [[rs st'] rest'] ((Hl & ?) & ? & ?). simpl in *. split_and!; try done; unfold len; lia.
Qed.

Lemma decode_groups_returns fuel left st rest :
  running_ok st -> 0 <= left -> (length rest < fuel)%nat ->
  returns (decode_groups fuel left st rest) (fun r => len r.1 = left /\ Forall rela_ok r.1).
Proof.
  revert left st rest. induction fuel as [|fuel IH]; intros left st rest Hst Hleft Hfuel; [lia|]. simpl.
  destruct (Z.eqb_spec left 0) as [->|]; [by apply returns_ok|].
  eapply returns_bind; [by apply decode_group_returns|].
  intros [[rs st'] rest'] ((? & ?) & ? & ?). simpl in *.
  eapply returns_bind; [apply IH; [done|lia..]|]. intros [rs' rest''] [? ?]. simpl in *.
  apply returns_ok. simpl. rewrite len_app. split; [lia|by apply Forall_app].
Qed.

(** C30: the decoder panics exactly when the count at the head of the table is too large for a
    vector, and on every other input it returns; a decoded table has as many relocations as its
    head says, with fields in the ranges of their types. *)
Theorem aps2_returns bs :
  (decode_aps2_rela bs = None <->
    take 4 bs = APS2_MAGIC /\
    exists count rest, sleb_next (drop 4 bs) = Some (Ok (count, rest)) /\ isize_max < count * PACKED_RELA_BYTES) /\
  forall rs, decode_aps2_rela bs = Some (Ok rs) ->
    Forall rela_ok rs /\ exists rest, sleb_next (drop 4 bs) = Some (Ok (len rs, rest)).
Proof.
  unfold decode_aps2_rela. case_bool_decide as Hmagic; simpl; [|split; [naive_solver|done]].
  destruct (sleb_next_returns (drop 4 bs)) as (r & Hr & Hv). unfold next_nonnegative at 1. rewrite Hr.
  unfold next_nonnegative at 2. rewrite Hr.
  destruct r as [[count rest]|e]; [|split; [naive_solver|done]]. specialize (Hv _ eq_refl) as [Hc _].
  simpl in Hc. destruct (Z.leb_spec 0 count); [|split; [|done]].
  2: { split; [done|]. intros (_ & c & rest' & [= <- <-] & ?). unfold PACKED_RELA_BYTES, isize_max in *. lia. }
  unfold with_capacity. destruct (Z.leb_spec (count * PACKED_RELA_BYTES) isize_max); simpl.
  2: { split; [|done]. split; [|done]. intros _. split; [done|]. by exists count, rest. }
  assert (returns (let! (offset, rest0) := next_nonnegative rest "negative initial relocation offset" in
    let! (rs, rest1) := decode_groups (S (length rest0)) count
                          {| cur_offset := offset; cur_info := 0; cur_addend := 0 |} rest0 in
    Some (if bool_decide (rest1 = []) then Ok rs else Err "trailing bytes in Android packed RELA"%string))
    (fun rs => len rs = count /\ Forall rela_ok rs)) as HR.
  { eapply returns_bind; [read_number|]. intros [o rest0] [Ho _]. cbn [fst] in Ho.
    eapply returns_bind; [apply decode_groups_returns; [|lia..]|].
    { split_and!; simpl; try done; unfold u64_range, u64_max, isize_max in *; simpl; lia. }
    intros [rs rest1] [? ?]. case_bool_decide; [by apply returns_ok|apply returns_err]. }
  split.
  - split; [intros Hnone; by apply (returns_not_None _ _ HR) in Hnone|]. intros (_ & c & rest' & [= <- <-] & ?). lia.
  - intros rs Hrs. destruct (returns_Ok _ _ _ HR Hrs) as [<- ?]. split; [done|]. by exists rest.
Qed.

(** At a table whose count no vector can hold. *)
Lemma aps2_returns_witness : decode_aps2_rela (APS2_MAGIC ++ sleb (2 ^ 62)) = None.
Proof. by apply aps2_returns; split; [|eexists (2 ^ 62), []]. Defined.

(** ** The format, independently of the decoder

    A table is a sequence of groups; a group shares what its flags say. *)

Inductive Addends : Type := NoAddend | SharedAddend (delta : Z) | OwnAddends.
Record Member : Type := { mdelta : Z; minfo : Z; maddend : Z }.
Record Group : Type := {
  gdelta : option Z; ginfo : option Z; gaddends : Addends; gmembers : list Member }.

Definition group_flags (g : Group) : Z :=
  (if present (ginfo g) then GROUPED_BY_INFO else 0) + (if present (gdelta g) then GROUPED_BY_OFFSET_DELTA else 0) +
  match gaddends g with
  | NoAddend => 0
  | SharedAddend _ => GROUP_HAS_ADDEND + GROUPED_BY_ADDEND
  | OwnAddends => GROUP_HAS_ADDEND
  end.

Definition encode_member (g : Group) (m : Member) : bytes :=
  (if present (gdelta g) then [] else sleb (mdelta m)) ++ (if present (ginfo g) then [] else sleb (minfo m)) ++
  match gaddends g with OwnAddends => sleb (maddend m) | _ => [] end.

Definition encode_group (g : Group) : bytes :=
  sleb (len (gmembers g)) ++ sleb (group_flags g) ++
  match gdelta g with Some d => sleb d | None => [] end ++
  match ginfo g with Some i => sleb i | None => [] end ++
  match gaddends g with SharedAddend d => sleb d | _ => [] end ++
  flat_map (encode_member g) (gmembers g).

Definition encode_table (offset : Z) (gs : list Group) : bytes :=
  APS2_MAGIC ++ sleb (len (flat_map gmembers gs)) ++ sleb offset ++ flat_map encode_group gs.

(** What a table means: offsets and addends accumulate, an info holds until the next one. *)
Definition group_start (g : Group) (st : Running) : Running :=
  {| cur_offset := cur_offset st; cur_info := default (cur_info st) (ginfo g);
     cur_addend := match gaddends g with
                   | NoAddend => 0 | SharedAddend d => cur_addend st + d | OwnAddends => cur_addend st end |}.

Definition member_step (g : Group) (st : Running) (m : Member) : Running :=
  {| cur_offset := cur_offset st + default (mdelta m) (gdelta g);
     cur_info := match ginfo g with Some _ => cur_info st | None => minfo m end;
     cur_addend := match gaddends g with OwnAddends => cur_addend st + maddend m | _ => cur_addend st end |}.

Definition relocation (g : Group) (st : Running) : PackedRela :=
  {| roffset := cur_offset st; rinfo := cur_info st;
     raddend := match gaddends g with NoAddend => 0 | _ => cur_addend st end |}.

Fixpoint expand_members (g : Group) (st : Running) (ms : list Member) : list PackedRela * Running :=
  match ms with
  | [] => ([], st)
  | m :: ms =>
      let st := member_step g st m in
      let '(rs, st') := expand_members g st ms in
      (relocation g st :: rs, st')
  end.

Fixpoint expand_groups (st : Running) (gs : list Group) : list PackedRela :=
  match gs with
  | [] => []
  | g :: gs =>
      let '(rs, st) := expand_members g (group_start g st) (gmembers g) in
      rs ++ expand_groups st gs
  end.

Definition start_of (offset : Z) : Running := {| cur_offset := offset; cur_info := 0; cur_addend := 0 |}.

(** Tables that can be written: numbers the reader accepts, non-empty groups, and running values
    that stay in the ranges of their types. *)
Definition encodable (z : Z) : Prop := - 2 ^ 62 <= z <= isize_max.

Fixpoint members_fit (g : Group) (st : Running) (ms : list Member) : Prop :=
  match ms with
  | [] => True
  | m :: ms =>
      encodable (mdelta m) /\ 0 <= minfo m <= isize_max /\ encodable (maddend m) /\
      running_ok (member_step g st m) /\ members_fit g (member_step g st m) ms
  end.

Definition shared_fit (g : Group) : Prop :=
  encodable (default 0 (gdelta g)) /\ 0 <= default 0 (ginfo g) <= isize_max /\
  match gaddends g with SharedAddend d => encodable d | _ => True end.

Fixpoint groups_fit (st : Running) (gs : list Group) : Prop :=
  match gs with
  | [] => True
  | g :: gs =>
      gmembers g <> [] /\ shared_fit g /\ running_ok (group_start g st) /\
      members_fit g (group_start g st) (gmembers g) /\
      groups_fit (expand_members g (group_start g st) (gmembers g)).2 gs
  end.

Lemma sleb_length V : (0 < length (sleb V))%nat.
Proof. unfold sleb. rewrite sleb_bytes_S. case_match; simpl; lia. Qed.

#[local] Opaque sleb.
#[local] Arguments sleb_next : simpl never.
#[local] Arguments next_nonnegative : simpl never.

Lemma sleb_next_encoded V rest : encodable V -> sleb_next (sleb V ++ rest) = Some (Ok (V, rest)).
Proof.
  intros HV. pose proof (sleb_loop_encoded V rest 10 0) as H. change (7 * 0) with 0 in H.
  rewrite Z.pow_0_r, Z.mod_1_r, Z.div_1_r in H. unfold encodable, i64_range in *.
  etransitivity; [apply H; lia|]. destruct (Z.leb_spec (- 2 ^ 62) V); [done|lia].
Qed.

Lemma next_nonnegative_encoded V rest error :
  0 <= V <= isize_max -> next_nonnegative (sleb V ++ rest) error = Some (Ok (V, rest)).
Proof.
  intros. unfold next_nonnegative. rewrite sleb_next_encoded by (unfold encodable; lia).
  destruct (Z.leb_spec 0 V); [done|lia].
Qed.

(** The flags of a group say what it shares. *)
Lemma group_flags_has g :
  has (group_flags g) GROUPED_BY_INFO = present (ginfo g) /\
  has (group_flags g) GROUPED_BY_OFFSET_DELTA = present (gdelta g) /\
  has (group_flags g) GROUP_HAS_ADDEND = match gaddends g with NoAddend => false | _ => true end /\
  has (group_flags g) GROUPED_BY_ADDEND = match gaddends g with SharedAddend _ => true | _ => false end.
Proof. unfold group_flags. by destruct (ginfo g), (gdelta g), (gaddends g). Qed.

Lemma group_flags_known g :
  0 <= group_flags g <= isize_max /\ Z.land (group_flags g) (not64 KNOWN_GROUP_FLAGS) = 0.
Proof. unfold group_flags. by destruct (ginfo g), (gdelta g), (gaddends g). Qed.

Lemma decode_one_encoded g st m rest :
  encodable (mdelta m) -> 0 <= minfo m <= isize_max -> encodable (maddend m) ->
  running_ok (member_step g st m) ->
  decode_one (group_flags g) (default 0 (gdelta g)) st (encode_member g m ++ rest) =
    Some (Ok (relocation g (member_step g st m), member_step g st m, rest)).
Proof.
  intros Hd Hi Ha (Ho & _ & Hadd). simpl in *. unfold decode_one, encode_member.
  destruct (group_flags_has g) as (-> & -> & -> & ->). unfold relocation, member_step. simpl.
  unfold checked_add_signed.
  destruct (gdelta g) as [d|] eqn:Ed, (ginfo g) as [i|] eqn:Ei, (gaddends g) eqn:Ea; simpl in *;
    rewrite <- ?app_assoc; rewrite ?sleb_next_encoded by done; rewrite try_u64_in by done;
    rewrite ?next_nonnegative_encoded, ?sleb_next_encoded by done; simpl;
    try (unfold checked_add_i64; destruct (Z.leb_spec (- 2 ^ 63) (cur_addend st + maddend m)),
           (Z.leb_spec (cur_addend st + maddend m) isize_max); simpl; unfold i64_range in *; try lia);
    done.
Qed.

Lemma decode_members_encoded g st ms rest :
  members_fit g st ms ->
  decode_members (length ms) (group_flags g) (default 0 (gdelta g)) st (flat_map (encode_member g) ms ++ rest) =
    Some (Ok ((expand_members g st ms).1, (expand_members g st ms).2, rest)).
Proof.
  revert st. induction ms as [|m ms IH]; intros st; simpl; [done|]. intros (? & ? & ? & ? & Hms).
  rewrite <- app_assoc, decode_one_encoded by done. rewrite IH by done. by destruct expand_members.
Qed.

Lemma decode_group_encoded g st rest left :
  gmembers g <> [] -> len (gmembers g) <= left <= isize_max -> shared_fit g ->
  running_ok (group_start g st) -> members_fit g (group_start g st) (gmembers g) ->
  decode_group left st (encode_group g ++ rest) =
    Some (Ok ((expand_members g (group_start g st) (gmembers g)).1,
              (expand_members g (group_start g st) (gmembers g)).2, rest)).
Proof.
  intros Hne Hleft (Hd & Hi & Ha) (_ & _ & Hadd) Hms. unfold decode_group, encode_group.
  destruct (group_flags_known g) as [Hf Hk]. pose proof (len_nonneg (gmembers g)).
  rewrite <- !app_assoc, next_nonnegative_encoded by lia.
  destruct (Z.eqb_spec (len (gmembers g)) 0) as [E|_].
  { destruct (gmembers g); [done|]. unfold len in E. simpl in E. lia. }
  destruct (Z.ltb_spec left (len (gmembers g))); [lia|]. simpl orb. cbv iota.
  rewrite next_nonnegative_encoded, Hk by done. destruct (group_flags_has g) as (-> & -> & -> & ->).
  assert (Z.to_nat (len (gmembers g)) = length (gmembers g)) as -> by (unfold len; lia).
  pose proof (decode_members_encoded g (group_start g st) (gmembers g) rest Hms) as <-.
  unfold group_start. simpl in Hadd.
  destruct (gdelta g) as [d|], (ginfo g) as [i|], (gaddends g) as [|a|]; simpl in *;
    rewrite ?sleb_next_encoded by done; rewrite ?next_nonnegative_encoded by done;
    rewrite ?sleb_next_encoded by done; simpl;
    try (unfold checked_add_i64; destruct (Z.leb_spec (- 2 ^ 63) (cur_addend st + a)),
           (Z.leb_spec (cur_addend st + a) isize_max); simpl; unfold i64_range in *; try lia);
    done.
Qed.

Lemma expand_members_length g st ms : length (expand_members g st ms).1 = length ms.
Proof.
  revert st. induction ms as [|m ms IH]; intros st; simpl; [done|].
  specialize (IH (member_step g st m)). destruct expand_members. simpl in *. lia.
Qed.

Lemma decode_groups_encoded fuel gs st rest left :
  groups_fit st gs -> left = len (flat_map gmembers gs) -> left <= isize_max -> (length gs <= fuel)%nat ->
  decode_groups fuel left st (flat_map encode_group gs ++ rest) = Some (Ok (expand_groups st gs, rest)).
Proof.
  revert fuel st left. induction gs as [|g gs IH]; intros fuel st left; simpl.
  { intros _ -> _ _. by destruct fuel. }
  intros (Hne & Hs & Hst & Hms & Hgs) -> Hleft Hfuel. destruct fuel as [|fuel]; [lia|].
  rewrite len_app in *. pose proof (len_nonneg (flat_map gmembers gs)).
  cbn [decode_groups]. destruct (Z.eqb_spec (len (gmembers g) + len (flat_map gmembers gs)) 0) as [E|_].
  { destruct (gmembers g); [done|]. unfold len in *. simpl in *. lia. }
  rewrite <- app_assoc, decode_group_encoded by (done || lia).
  pose proof (expand_members_length g (group_start g st) (gmembers g)).
  rewrite (IH fuel); [by destruct expand_members|done|unfold len in *; lia..].
Qed.

(** The decoder reads back every table of the format: a table of groups that share offsets,
    infos and addends as their flags say decodes to the relocations the groups mean. *)
Theorem aps2_roundtrip offset gs :
  0 <= offset <= isize_max -> groups_fit (start_of offset) gs ->
  len (flat_map gmembers gs) * PACKED_RELA_BYTES <= isize_max ->
  decode_aps2_rela (encode_table offset gs) = Some (Ok (expand_groups (start_of offset) gs)).
Proof.
  intros Ho Hgs Hcap. unfold decode_aps2_rela, encode_table. pose proof (len_nonneg (flat_map gmembers gs)).
  rewrite take_app_le by done. rewrite bool_decide_true by done. simpl negb. cbv iota.
  change (drop 4 (APS2_MAGIC ++ ?x)) with x.
  rewrite next_nonnegative_encoded by (unfold PACKED_RELA_BYTES in Hcap; lia).
  unfold with_capacity. destruct (Z.leb_spec (len (flat_map gmembers gs) * PACKED_RELA_BYTES) isize_max); [|lia].
  cbn [mbind option_bind]. rewrite next_nonnegative_encoded by done.
  pose proof (decode_groups_encoded (S (length (flat_map encode_group gs))) gs (start_of offset) []
    (len (flat_map gmembers gs))) as Hdec. rewrite app_nil_r in Hdec. unfold start_of in Hdec at 2.
  rewrite Hdec; [by rewrite bool_decide_true|done..|unfold PACKED_RELA_BYTES in Hcap; lia|].
  clear. induction gs as [|g gs IH]; simpl; [lia|]. rewrite length_app. unfold encode_group at 1.
  rewrite !length_app. pose proof (sleb_length (len (gmembers g))). lia.
Qed.

(** A table with one group that shares everything and one that shares nothing. *)
Definition sample_groups : list Group :=
  [{| gdelta := Some 8; ginfo := Some 1027; gaddends := SharedAddend 4;
      gmembers := replicate 2 {| mdelta := 0; minfo := 0; maddend := 0 |} |};
   {| gdelta := None; ginfo := None; gaddends := OwnAddends;
      gmembers := [{| mdelta := -4; minfo := 257; maddend := -7 |}] |}].

(** At the sample table. *)
Lemma aps2_roundtrip_witness :
  decode_aps2_rela (encode_table 0 sample_groups) =
    Some (Ok [{| roffset := 8; rinfo := 1027; raddend := 4 |}; {| roffset := 16; rinfo := 1027; raddend := 4 |};
              {| roffset := 12; rinfo := 257; raddend := -3 |}]).
Proof. apply (aps2_roundtrip 0 sample_groups); vm_compute; intuition discriminate. Defined.
