(* ===== verification/ElfRewrite.v ===== *)
(** * Rewriting of guest instructions ([direct_tls.rs], [direct_syscall.rs])

    The loader replaces reads of Android's thread pointer by the address of a guard page, and
    Linux system calls by branches to veneers.  [code] is the slice the source rewrites and
    [address] its address; an index is always below the number of whole instructions, so that the
    slices [read_instruction] and [write_instruction] take are in range. *)
From S2P Require Import Prelude ElfBase.

Definition read_instruction (code : bytes) (index : nat) : Z := u32_at code (index * 4).
Definition write_instruction (code : bytes) (index : nat) (instruction : Z) : bytes :=
  copy_at (index * 4) (u32_le instruction) code.
Definition instruction_count (code : bytes) : nat := length code / 4.

(** ** Thread pointer reads ([direct_tls.rs]) *)
Module DirectTls.

Definition MRS_TPIDR_EL0 : Z := 0xd53bd040.
Definition MRS_REGISTER_MASK : Z := 0xffffffe0.
Definition ADRP : Z := 0x90000000.
Definition LDR_X_UNSIGNED_IMMEDIATE : Z := 0xf9400000.
Definition LDR_X_UNSIGNED_IMMEDIATE_MASK : Z := 0xffc00000.
Definition BLR : Z := 0xd63f0000.
Definition BLR_REGISTER_MASK : Z := 0xfffffc1f.
Definition ADD_X_IMMEDIATE : Z := 0x91000000.
Definition ADD_X_IMMEDIATE_MASK : Z := 0xffc00000.
Definition ADRP_X0 : Z := 0x90000000.
Definition ADRP_REGISTER_MASK : Z := 0x9f00001f.
Definition ANDROID_TLS_SLOT_STACK_GUARD_OFFSET : Z := 0x28.
Definition MAX_STACK_GUARD_DISTANCE_IN_INSTRUCTIONS : nat := 64.
Definition MAX_TLSDESC_RESULT_DISTANCE_IN_INSTRUCTIONS : nat := 64.

Record StackGuardRewrite : Type := { instruction_index : nat; original : Z }.

(** The indices [a..b]. *)
Definition indices (a b : nat) : list nat := seq a (b - a).

Definition is_stack_guard_load (instruction thread_register : Z) : bool :=
  (Z.land instruction LDR_X_UNSIGNED_IMMEDIATE_MASK =? LDR_X_UNSIGNED_IMMEDIATE) &&
  (Z.land (Z.shiftr instruction 5) 0x1f =? thread_register) &&
  (Z.land (Z.shiftr instruction 10) 0xfff * 8 =? ANDROID_TLS_SLOT_STACK_GUARD_OFFSET).

Definition is_local_tlsdesc_call (code : bytes) (call_index : nat) : bool :=
  if (call_index <? 3)%nat || negb (Z.land (read_instruction code call_index) BLR_REGISTER_MASK =? BLR) then false
  else
    let page := read_instruction code (call_index - 3) in
    let descriptor_load := read_instruction code (call_index - 2) in
    let descriptor_address := read_instruction code (call_index - 1) in
    (Z.land page ADRP_REGISTER_MASK =? ADRP_X0) &&
    (Z.land descriptor_load LDR_X_UNSIGNED_IMMEDIATE_MASK =? LDR_X_UNSIGNED_IMMEDIATE) &&
    (Z.land descriptor_load 0x1f =? 1) &&
    (Z.land (Z.shiftr descriptor_load 5) 0x1f =? 0) &&
    (Z.land descriptor_address ADD_X_IMMEDIATE_MASK =? ADD_X_IMMEDIATE) &&
    (Z.land descriptor_address 0x1f =? 0) &&
    (Z.land (Z.shiftr descriptor_address 5) 0x1f =? 0).

Definition is_preread_local_tlsdesc_result (code : bytes) (index : nat) : bool :=
  let call_search_end :=
    Nat.min (index + (MAX_TLSDESC_RESULT_DISTANCE_IN_INSTRUCTIONS + 1)) (instruction_count code) in
  existsb (is_local_tlsdesc_call code) (indices (index + 1) call_search_end).

Definition is_local_tlsdesc_result (code : bytes) (index : nat) : bool :=
  if (instruction_count code <=? index + 1)%nat then false
  else if is_preread_local_tlsdesc_result code index then true
  else if (index <? 4)%nat then false
  else
    let search_start := Nat.max (index - MAX_TLSDESC_RESULT_DISTANCE_IN_INSTRUCTIONS) 3 in
    existsb (is_local_tlsdesc_call code) (reverse (indices search_start index)).

Definition is_thread_read (instruction : Z) : bool :=
  Z.land instruction MRS_REGISTER_MASK =? MRS_TPIDR_EL0.

(** The guard load that follows a read of the thread pointer. *)
Definition guard_load (code : bytes) (index : nat) : option nat :=
  let thread_register := Z.land (read_instruction code index) 0x1f in
  let search_end := Nat.min (index + (MAX_STACK_GUARD_DISTANCE_IN_INSTRUCTIONS + 1)) (instruction_count code) in
  snd <$> list_find (fun i => is_stack_guard_load (read_instruction code i) thread_register = true)
                    (indices (index + 1) search_end).

(** The first loop: the reads to rewrite and the number of reads it cannot classify. *)
Fixpoint classify (code : bytes) (todo : list nat) (rewrites : list nat) (unclassified : Z) : list nat * Z :=
  match todo with
  | [] => (rewrites, unclassified)
  | i :: todo =>
      if negb (is_thread_read (read_instruction code i)) then classify code todo rewrites unclassified
      else
        match guard_load code i with
        | Some _ => classify code todo (rewrites ++ [i]) unclassified
        | None =>
            if is_local_tlsdesc_result code i then classify code todo (rewrites ++ [i]) unclassified
            else classify code todo rewrites (unclassified + 1)
        end
  end.

(** The page of an address: [address & !0xfff]. *)
Definition page_of (address : Z) : Z := Z.land address (not64 0xfff).

(** [ADRP Xregister, page] for an instruction at [instruction_address]. *)
Definition encode_adrp (instruction_address stack_guard_address thread_register : Z) : result Z LoadError :=
  let page_delta := Z.shiftr (page_of stack_guard_address - page_of instruction_address) 12 in
  if negb ((- 2 ^ 20 <=? page_delta) && (page_delta <? 2 ^ 20)) then Err (Bounds "stack-guard ADRP range")
  else
    let immediate := Z.land (as_u64 page_delta) 0x1fffff in
    Ok (Z.lor (Z.lor (Z.lor ADRP (shl32 (Z.land immediate 0x3) 29))
                     (shl32 (Z.land (Z.shiftr immediate 2) 0x7ffff) 5)) thread_register).

(** The second loop. *)
Fixpoint apply_rewrites (code : bytes) (address stack_guard_address : Z) (rewrites : list nat)
    : bytes * result (list StackGuardRewrite) LoadError :=
  match rewrites with
  | [] => (code, Ok [])
  | i :: rewrites =>
      let original_mrs := read_instruction code i in
      match encode_adrp (address + Z.of_nat i * 4) stack_guard_address (Z.land original_mrs 0x1f) with
      | Err e => (code, Err e)
      | Ok adrp =>
          let '(code, res) :=
            apply_rewrites (write_instruction code i adrp) address stack_guard_address rewrites in
          (code, result_map (cons {| instruction_index := i; original := original_mrs |}) res)
      end
  end.

Definition rewrite_android_stack_guard_tls (code : bytes) (address stack_guard_address : Z)
    : bytes * result (list StackGuardRewrite) LoadError :=
  if negb (Z.land stack_guard_address 0xfff =? ANDROID_TLS_SLOT_STACK_GUARD_OFFSET)
  then (code, Err (Bounds "stack-guard page offset"))
  else
    let '(rewrites, unclassified) := classify code (seq 0 (instruction_count code)) [] 0 in
    if negb (unclassified =? 0) then (code, Err (Capable DirectThreadPointer))
    else apply_rewrites code address stack_guard_address rewrites.
End DirectTls.

(** The page an [ADRP] instruction names, as
    [LoadedElf::refresh_boringssl_integrity_after_rewrite] decodes it. *)
Definition adrp_page (instruction instruction_address : Z) : Z :=
  let immediate := Z.lor (Z.land (Z.shiftr instruction 29) 0x3)
                         (Z.shiftl (Z.land (Z.shiftr instruction 5) 0x7ffff) 2) in
  let signed_pages := if has immediate (Z.shiftl 1 20) then immediate - 2 ^ 21 else immediate in
  DirectTls.page_of instruction_address + Z.shiftl signed_pages 12.

(** ** System calls ([direct_syscall.rs]) *)
Module DirectSyscall.

Definition LINUX_SVC_ZERO : Z := 0xd4000001.
Definition B : Z := 0x14000000.
Definition B_MIN_BYTES : Z := - 2 ^ 27.
Definition B_MAX_BYTES : Z := 2 ^ 27 - 4.
Definition DIRECT_SYSCALL_VENEER_BYTES : Z := 512.

Record DirectSyscallRewrite : Type := {
  instruction_index : nat; original : Z; veneer_offset : Z; return_address : Z }.

(** [chunks_exact(4)] of the code, as words. *)
Definition words (code : bytes) : list Z := read_instruction code <$> seq 0 (instruction_count code).

Definition contains_linux_svc (code : bytes) : bool := existsb (Z.eqb LINUX_SVC_ZERO) (words code).
Definition count_linux_svc (code : bytes) : Z := len (filter (fun w => w = LINUX_SVC_ZERO) (words code)).

Definition veneer_page_count (svc_count page_size : Z) : result Z LoadError :=
  if (page_size =? 0) || negb (is_power_of_two page_size) then Err (Bounds "direct-syscall page size")
  else
    let? bs := ok_or (checked_mul usize_max svc_count DIRECT_SYSCALL_VENEER_BYTES)
                     (Bounds "direct-syscall veneer size overflow") in
    let? bs := ok_or (checked_add usize_max bs (page_size - 1)) (Bounds "direct-syscall veneer pages overflow") in
    Ok (bs / page_size).

Definition check_branch (from to : Z) : result unit LoadError :=
  let delta := to - from in
  if negb (Z.land delta 3 =? 0) || negb ((B_MIN_BYTES <=? delta) && (delta <=? B_MAX_BYTES))
  then Err (Capable DirectSyscall) else Ok tt.

Definition branch_immediate (from to : Z) : result Z LoadError :=
  let? _ := check_branch from to in
  Ok (Z.land (as_u32 (as_u64 (Z.shiftr (to - from) 2))) 0x3ffffff).

Definition cond_branch_imm (delta : Z) : result Z LoadError :=
  if negb (Z.land delta 3 =? 0) || negb ((- 2 ^ 20 <=? delta) && (delta <=? 2 ^ 20 - 4))
  then Err (Bounds "direct-syscall conditional branch")
  else Ok (shl32 (Z.land (as_u32 (as_u64 (Z.shiftr delta 2))) 0x7ffff) 5).

(** The checks of one site, before its rewrite: the address of its veneer and the immediate. *)
Definition plan_site (instruction_address veneer_base cursor capacity : Z) : result Z LoadError :=
  let? veneer_address := ok_or (checked_add usize_max veneer_base cursor)
                               (Bounds "direct-syscall veneer address overflow") in
  let? return_address := ok_or (checked_add usize_max instruction_address 4)
                               (Bounds "direct-syscall return address overflow") in
  let? _ := check_branch instruction_address veneer_address in
  let? _ := check_branch veneer_address return_address in
  let fits := match checked_add usize_max cursor DIRECT_SYSCALL_VENEER_BYTES with
              | Some end_ => end_ <=? capacity
              | None => false
              end in
  if negb fits then Err (Bounds "direct-syscall veneer page capacity")
  else branch_immediate instruction_address veneer_address.

(** The loop of [rewrite_linux_svc], with the cursor it leaves. *)
Fixpoint rewrite_loop (code : bytes) (address veneer_base cursor capacity : Z) (todo : list nat)
    : bytes * Z * result (list DirectSyscallRewrite) LoadError :=
  match todo with
  | [] => (code, cursor, Ok [])
  | i :: todo =>
      if negb (read_instruction code i =? LINUX_SVC_ZERO)
      then rewrite_loop code address veneer_base cursor capacity todo
      else
        let instruction_address := address + Z.of_nat i * 4 in
        match plan_site instruction_address veneer_base cursor capacity with
        | Err e => (code, cursor, Err e)
        | Ok immediate =>
            let '(code, cursor', res) :=
              rewrite_loop (write_instruction code i (Z.lor B immediate)) address veneer_base
                (cursor + DIRECT_SYSCALL_VENEER_BYTES) capacity todo in
            (code, cursor',
             result_map (cons {| instruction_index := i; original := LINUX_SVC_ZERO;
                                 veneer_offset := cursor; return_address := instruction_address + 4 |}) res)
        end
  end.

Definition rewrite_linux_svc (code : bytes) (address veneer_base cursor capacity : Z)
    : bytes * Z * result (list DirectSyscallRewrite) LoadError :=
  rewrite_loop code address veneer_base cursor capacity (seq 0 (instruction_count code)).

(** *** The veneer *)

Definition mov_x (destination source : Z) : Z :=
  Z.lor (Z.lor 0xaa0003e0 (shl32 source 16)) destination.

Definition load_immediate_x16 (value : Z) : list Z :=
  [Z.lor 0xd2800010 (shl32 (Z.land value 0xffff) 5);
   Z.lor 0xf2a00010 (shl32 (Z.land (Z.shiftr value 16) 0xffff) 5);
   Z.lor 0xf2c00010 (shl32 (Z.land (Z.shiftr value 32) 0xffff) 5);
   Z.lor 0xf2e00010 (shl32 (Z.land (Z.shiftr value 48) 0xffff) 5)].

(** A pair of registers, or one, at an offset from the stack pointer. *)
Definition pair_at (opcode first second offset width : Z) : Z :=
  Z.lor (Z.lor (Z.lor (Z.lor opcode (shl32 (offset / width) 15)) (shl32 second 10)) (shl32 31 5)) first.
Definition one_at (opcode register offset width : Z) : Z :=
  Z.lor (Z.lor (Z.lor opcode (shl32 (offset / width) 10)) (shl32 31 5)) register.

Definition stp_x (first second offset : Z) : Z := pair_at 0xa9000000 first second offset 8.
Definition ldp_x (first second offset : Z) : Z := pair_at 0xa9400000 first second offset 8.
Definition str_x (register offset : Z) : Z := one_at 0xf9000000 register offset 8.
Definition ldr_x (register offset : Z) : Z := one_at 0xf9400000 register offset 8.
Definition str_w (register offset : Z) : Z := one_at 0xb9000000 register offset 4.
Definition ldr_w (register offset : Z) : Z := one_at 0xb9400000 register offset 4.
Definition ldr_w_reg (destination base : Z) : Z := Z.lor (Z.lor 0xb9400000 (shl32 base 5)) destination.
Definition str_w_reg (source base : Z) : Z := Z.lor (Z.lor 0xb9000000 (shl32 base 5)) source.
Definition stp_q (first second offset : Z) : Z := pair_at 0xad000000 first second offset 16.
Definition ldp_q (first second offset : Z) : Z := pair_at 0xad400000 first second offset 16.

(** [(first..=last).step_by(2)]. *)
Definition step_by_2 (first last : Z) : list Z := (fun i => first + 2 * i) <$> seqZ 0 ((last - first) / 2 + 1).

(** The veneer up to the call of [syscall] and the comparison of its result. *)
Definition veneer_call (syscall_target errno_target : Z) : list Z :=
  [0xd11003ff] ++
  ((fun register => stp_x register (register + 1) (register / 2 * 16)) <$> step_by_2 0 28) ++
  [str_x 30 240] ++
  [0xd53b4209; str_x 9 248; 0xd53b4429; str_x 9 256; 0xd53b4409; str_x 9 264] ++
  ((fun register => stp_q register (register + 1) (272 + register / 2 * 32)) <$> step_by_2 0 30) ++
  load_immediate_x16 errno_target ++ [0xd63f0200; 0xb9400009; str_w 9 784; str_x 0 792] ++
  ((fun register => ldr_x register (register * 8)) <$> seqZ 0 9) ++
  [mov_x 6 5; mov_x 5 4; mov_x 4 3; mov_x 3 2; mov_x 2 1; mov_x 1 0; mov_x 0 8] ++
  load_immediate_x16 syscall_target ++ [0xd63f0200; 0xb100041f].

(** The conversion of [-1] to the negated error number. *)
Definition veneer_negate : list Z := [ldr_x 10 792; ldr_w_reg 9 10; 0xcb0903e0].

(** The restore of [errno] and of the registers. *)
Definition veneer_restore : list Z :=
  [ldr_x 10 792; ldr_w 11 784; str_w_reg 11 10] ++
  ((fun register => ldp_q register (register + 1) (272 + register / 2 * 32)) <$> step_by_2 0 30) ++
  [ldr_x 9 248; 0xd51b4209; ldr_x 9 256; 0xd51b4429; ldr_x 9 264; 0xd51b4409] ++
  ((fun register => ldp_x register (register + 1) (register / 2 * 16 + 8)) <$> step_by_2 1 28) ++
  [ldr_x 29 232; ldr_x 30 240; 0x911003ff].

(** [write_veneer]: the instructions it writes at [destination]. *)
Definition write_veneer (destination syscall_target errno_target return_address : Z)
    : result (list Z) LoadError :=
  if (destination =? 0) || negb (Z.land destination 3 =? 0) || (syscall_target =? 0) || (errno_target =? 0)
  then Err (Bounds "direct-syscall veneer address")
  else
    let before := veneer_call syscall_target errno_target in
    let branch_instruction := len before in
    let errno_restore := branch_instruction + 1 + len veneer_negate in
    let? condition := cond_branch_imm ((errno_restore - branch_instruction) * 4) in
    let instructions := before ++ [Z.lor 0x54000001 condition] ++ veneer_negate ++ veneer_restore in
    let? immediate := branch_immediate (destination + len instructions * 4) return_address in
    let instructions := instructions ++ [Z.lor B immediate] in
    if DIRECT_SYSCALL_VENEER_BYTES <? len instructions * 4
    then Err (Bounds "direct-syscall veneer instruction budget")
    else Ok instructions.
End DirectSyscall.

(** The instructions put back, as [refresh_boringssl_integrity_after_rewrite] does with the
    recorded rewrites before it checks the hash of the original code. *)
Definition restore (code : bytes) (rewrites : list (nat * Z)) : bytes :=
  foldl (fun code r => write_instruction code r.1 r.2) code rewrites.

(** ** Lemmas: reading and writing instructions *)

Lemma instruction_fits code i : (i < instruction_count code)%nat -> (i * 4 + 4 <= length code)%nat.
Proof. unfold instruction_count. intros. pose proof (Nat.div_mod_eq (length code) 4). lia. Qed.

Lemma write_instruction_length code i w :
  (i < instruction_count code)%nat -> length (write_instruction code i w) = length code.
Proof. intros ?%instruction_fits. apply length_copy_at. rewrite length_u32_le. lia. Qed.

Lemma write_instruction_count code i w :
  (i < instruction_count code)%nat -> instruction_count (write_instruction code i w) = instruction_count code.
Proof. intros. unfold instruction_count. by rewrite write_instruction_length. Qed.

Lemma read_instruction_range code i : (i < instruction_count code)%nat -> 0 <= read_instruction code i < 2 ^ 32.
Proof.
  intros ?%instruction_fits. pose proof (u32_at_range code (i * 4) ltac:(lia)).
  unfold read_instruction, u32_range, u32_max in *. lia.
Qed.

Lemma read_write code i j w :
  (i < instruction_count code)%nat -> (j < instruction_count code)%nat -> 0 <= w < 2 ^ 32 ->
  read_instruction (write_instruction code i w) j = if decide (i = j) then w else read_instruction code j.
Proof.
  intros Hi%instruction_fits Hj%instruction_fits Hw.
  unfold read_instruction, write_instruction. destruct (decide (i = j)) as [<-|].
  - apply u32_at_field; [|unfold u32_range, u32_max; lia].
    pose proof (slice_copy_at (i * 4) (u32_le w) code) as E. rewrite length_u32_le in E. apply E. lia.
  - apply u32_at_field; [|apply u32_at_range; lia].
    rewrite slice_copy_outside by (rewrite length_u32_le; lia). symmetry. apply u32_le_at. lia.
Qed.

(** The bytes behind the last whole instruction. *)
Lemma drop_write code i w n :
  (i < instruction_count code)%nat -> (instruction_count code <= n)%nat ->
  drop (n * 4) (write_instruction code i w) = drop (n * 4) code.
Proof.
  intros Hi Hn. pose proof (instruction_fits _ _ Hi). apply drop_copy_at; [rewrite length_u32_le|]; lia.
Qed.

(** Code is determined by its instructions and the bytes behind them. *)
Lemma take_instructions code n :
  (n <= instruction_count code)%nat ->
  take (n * 4) code = flat_map (fun i => u32_le (read_instruction code i)) (seq 0 n).
Proof.
  induction n as [|n IH]; intros Hn; [done|]. rewrite seq_S, flat_map_app. simpl. rewrite app_nil_r.
  rewrite <- IH by lia. pose proof (instruction_fits code n ltac:(lia)).
  unfold read_instruction. rewrite u32_le_at by lia.
  pose proof (slice_glue code 0 (n * 4) (n * 4 + 4)) as G. rewrite (slice_def _ 0 (n * 4)), (slice_def _ 0 (n * 4 + 4)) in G.
  rewrite !Nat.sub_0_r, !drop_0 in G. rewrite G by lia. f_equal. lia.
Qed.

Lemma code_ext c1 c2 :
  length c1 = length c2 ->
  (forall i, (i < instruction_count c1)%nat -> read_instruction c1 i = read_instruction c2 i) ->
  drop (instruction_count c1 * 4) c1 = drop (instruction_count c1 * 4) c2 -> c1 = c2.
Proof.
  intros Hl Hr Hd. assert (instruction_count c2 = instruction_count c1) as E by (unfold instruction_count; by rewrite Hl).
  rewrite <- (take_drop (instruction_count c1 * 4) c1), <- (take_drop (instruction_count c1 * 4) c2), Hd. f_equal.
  rewrite !take_instructions by lia.
  assert (forall n, (n <= instruction_count c1)%nat ->
    flat_map (fun i => u32_le (read_instruction c1 i)) (seq 0 n) = flat_map (fun i => u32_le (read_instruction c2 i)) (seq 0 n)) as Hn.
  { induction n as [|n IH]; intros; [done|]. rewrite seq_S, !flat_map_app, IH by lia. simpl. by rewrite Hr by lia. }
  by apply Hn.
Qed.

(** [restore] writes each recorded instruction at its index. *)
Lemma restore_spec code rs :
  Forall (fun r => (r.1 < instruction_count code)%nat /\ 0 <= r.2 < 2 ^ 32) rs -> NoDup rs.*1 ->
  length (restore code rs) = length code /\
  drop (instruction_count code * 4) (restore code rs) = drop (instruction_count code * 4) code /\
  forall j, (j < instruction_count code)%nat ->
    (forall w, (j, w) ∈ rs -> read_instruction (restore code rs) j = w) /\
    (j ∉ rs.*1 -> read_instruction (restore code rs) j = read_instruction code j).
Proof.
  revert code. induction rs as [|[i w] rs IH]; intros code Hrs Hnd; simpl in *.
  { split_and!; [done..|]. intros j Hj. split; [|done]. intros w Hw. by apply elem_of_nil in Hw. }
  apply Forall_cons in Hrs as [[Hi Hw] Hrs]. apply NoDup_cons in Hnd as [Hni Hnd]. simpl in *.
  destruct (IH (write_instruction code i w)) as (Hl & Hd & Hj); [|done|].
  { eapply Forall_impl; [done|]. intros r ?. by rewrite write_instruction_count. }
  rewrite write_instruction_length, write_instruction_count, drop_write in * by (done || lia).
  split_and!; [done..|]. intros j Hlt. destruct (Hj j Hlt) as [Hin Hout]. split.
  - intros w' [[= <- <-]|Hw']%elem_of_cons; [|by apply Hin].
    rewrite Hout by done. rewrite read_write by done. by rewrite decide_True.
  - rewrite not_elem_of_cons. intros [Hne Hn]. rewrite Hout by done. rewrite read_write by done.
    by rewrite decide_False.
Qed.

(** Rewrites of some instructions are undone by putting the original ones back. *)
Lemma restore_original code code' ws :
  length code' = length code ->
  drop (instruction_count code * 4) code' = drop (instruction_count code * 4) code ->
  (forall j, (j < instruction_count code)%nat -> j ∉ ws -> read_instruction code' j = read_instruction code j) ->
  Forall (fun i => (i < instruction_count code)%nat) ws -> NoDup ws ->
  restore code' ((fun i => (i, read_instruction code i)) <$> ws) = code.
Proof.
  intros Hl Hd Hj Hws Hnd. set (rs := _ <$> ws).
  assert (rs.*1 = ws) as E1 by (subst rs; rewrite <- list_fmap_compose; apply list_fmap_id).
  assert (instruction_count code' = instruction_count code) as Ec by (unfold instruction_count; by rewrite Hl).
  destruct (restore_spec code' rs) as (Hl' & Hd' & Hr).
  { apply Forall_forall. intros [i w] (j & [= -> ->] & Hi)%list_elem_of_fmap. simpl. rewrite Ec.
    rewrite Forall_forall in Hws. split; [by apply Hws|]. by apply read_instruction_range, Hws. }
  { by rewrite E1. }
  assert (instruction_count (restore code' rs) = instruction_count code) as Ec'
    by (unfold instruction_count; by rewrite Hl', Hl).
  rewrite Ec in *. apply code_ext; rewrite ?Ec'; [by rewrite Hl'| |by rewrite Hd'].
  intros i Hi. destruct (Hr i Hi) as [Hin Hout]. destruct (decide (i ∈ ws)).
  - apply Hin. apply list_elem_of_fmap. by exists i.
  - rewrite Hout by by rewrite E1. by apply Hj.
Qed.

(** ** Thread pointer reads *)
Section direct_tls.
Import DirectTls.

Lemma page_of_spec a : u64_range a -> page_of a = a - a mod 2 ^ 12.
Proof. intros. by apply (land_not64 a 12). Qed.

(** The fields of an encoded [ADRP]. *)
Lemma adrp_word lo hi reg :
  0 <= lo < 4 -> 0 <= hi < 2 ^ 19 -> 0 <= reg < 2 ^ 5 ->
  Z.lor (Z.lor (Z.lor ADRP (shl32 lo 29)) (shl32 hi 5)) reg = 2 ^ 31 + lo * 2 ^ 29 + 2 ^ 28 + hi * 2 ^ 5 + reg.
Proof.
  intros Hlo Hhi Hreg. assert (shl32 hi 5 = hi * 2 ^ 5) as ->.
  { unfold shl32, as_u32. rewrite Z.shiftl_mul_pow2 by lia. apply Z.mod_small. lia. }
  assert (exists k, Z.lor ADRP (shl32 lo 29) = Z.shiftl k 28 /\ k * 2 ^ 28 = 2 ^ 31 + lo * 2 ^ 29 + 2 ^ 28) as (k & -> & E).
  { exists (8 + lo * 2 + 1). split; [|lia].
    assert (lo = 0 \/ lo = 1 \/ lo = 2 \/ lo = 3) as [-> | [-> | [-> | ->]]] by lia; done. }
  rewrite (Z.lor_comm (Z.shiftl k 28)), lor_low, E by lia.
  replace (hi * 2 ^ 5 + (2 ^ 31 + lo * 2 ^ 29 + 2 ^ 28)) with
    ((2 ^ 26 + lo * 2 ^ 24 + 2 ^ 23 + hi) * 2 ^ 5) by lia.
  rewrite <- Z.shiftl_mul_pow2, Z.lor_comm, lor_low by lia. lia.
Qed.

(** [ADRP Xregister, page]: what the loader writes for a read of the thread pointer. *)
Definition is_adrp_to (instruction instruction_address page register : Z) : Prop :=
  0 <= instruction < 2 ^ 32 /\ Z.land instruction ADRP_REGISTER_MASK = ADRP + register /\
  adrp_page instruction instruction_address = page.

Lemma encode_adrp_spec ia guard reg w :
  u64_range ia -> u64_range guard -> 0 <= reg < 32 ->
  encode_adrp ia guard reg = Ok w -> is_adrp_to w ia (page_of guard) reg.
Proof.
  intros Hia Hg Hreg. unfold encode_adrp. rewrite !page_of_spec by done. cbv zeta.
  set (d := Z.shiftr _ 12). destruct (Z.leb_spec (- 2 ^ 20) d), (Z.ltb_spec d (2 ^ 20)); simpl; try done.
  assert (Z.land (as_u64 d) 0x1fffff = d mod 2 ^ 21) as ->.
  { change 0x1fffff with (2 ^ 21 - 1). rewrite land_ones_low by lia. unfold as_u64. mod_lia. }
  set (imm := d mod 2 ^ 21). assert (0 <= imm < 2 ^ 21) by (apply Z.mod_pos_bound; lia).
  change 0x3 with (2 ^ 2 - 1). change 0x7ffff with (2 ^ 19 - 1).
  rewrite !land_ones_low, Z.shiftr_div_pow2 by lia.
  assert (0 <= imm / 2 ^ 2 < 2 ^ 19) by mod_lia. rewrite (Z.mod_small (imm / 2 ^ 2)) by lia.
  pose proof (Z.mod_pos_bound imm (2 ^ 2) eq_refl). rewrite adrp_word by lia. intros [= <-].
  set (w := _ + reg). assert (0 <= w < 2 ^ 32) by (subst w; lia). split; [done|].
  assert (Z.land (Z.shiftr w 29) 0x3 = imm mod 2 ^ 2) as E1.
  { change 0x3 with (2 ^ 2 - 1). rewrite land_ones_low, Z.shiftr_div_pow2 by lia. subst w. mod_lia. }
  assert (Z.land (Z.shiftr w 5) 0x7ffff = imm / 2 ^ 2) as E2.
  { change 0x7ffff with (2 ^ 19 - 1). rewrite land_ones_low, Z.shiftr_div_pow2 by lia. subst w. mod_lia. }
  split.
  - replace w with ((reg + (imm / 2 ^ 2) * 2 ^ 5) + (144 + imm mod 2 ^ 2 * 32) * 2 ^ 24) by (subst w; lia).
    change ADRP_REGISTER_MASK with ((0x1f + 0 * 2 ^ 5) + 0x9f * 2 ^ 24). rewrite !land_split by lia.
    rewrite Z.land_0_r. change 0x1f with (2 ^ 5 - 1). rewrite land_ones_low, Z.mod_small by lia.
    assert (Z.land (144 + imm mod 2 ^ 2 * 32) 0x9f = 0x90) as ->; [|unfold ADRP; lia].
    assert (imm mod 2 ^ 2 = 0 \/ imm mod 2 ^ 2 = 1 \/ imm mod 2 ^ 2 = 2 \/ imm mod 2 ^ 2 = 3)
      as [-> | [-> | [-> | ->]]] by lia; done.
  - unfold adrp_page. rewrite E1, E2, page_of_spec by done. change (Z.shiftl 1 20) with (2 ^ 20).
    rewrite lor_low by lia. replace (imm mod 2 ^ 2 + imm / 2 ^ 2 * 2 ^ 2) with imm by mod_lia.
    rewrite has_top, Z.shiftl_mul_pow2 by lia.
    assert ((if 2 ^ 20 <=? imm then imm - 2 ^ 21 else imm) = d) as ->.
    { subst imm. destruct (Z.leb_spec (2 ^ 20) (d mod 2 ^ 21)); mod_lia. }
    subst d. rewrite Z.shiftr_div_pow2 by lia. mod_lia.
Qed.

(** A read of the thread pointer that the source accepts. *)
Definition validated (code : bytes) (i : nat) : bool :=
  match guard_load code i with Some _ => true | None => is_local_tlsdesc_result code i end.

Definition thread_reads (code : bytes) (todo : list nat) : list nat :=
  filter (fun i => is_thread_read (read_instruction code i) = true) todo.

(** Either every read is validated and all are rewritten, or some read stays unclassified. *)
Lemma classify_spec code todo rewrites n :
  let res := classify code todo rewrites n in
  n <= res.2 /\
  (res.2 = n <-> Forall (fun i => validated code i = true) (thread_reads code todo)) /\
  (res.2 = n -> res.1 = rewrites ++ thread_reads code todo).
Proof.
  revert rewrites n. unfold thread_reads. induction todo as [|i todo IH]; intros rewrites n; simpl.
  { split_and!; [lia|done|by rewrite app_nil_r]. }
  rewrite filter_cons. destruct (is_thread_read (read_instruction code i)) eqn:Er; cbn [negb].
  2: { rewrite decide_False by done. apply IH. }
  rewrite decide_True by done.
  destruct (guard_load code i) eqn:Eg; [|destruct (is_local_tlsdesc_result code i) eqn:El].
  1,2: destruct (IH (rewrites ++ [i]) n) as (? & Hiff & Heq); split_and!; [done| |].
  1,3: rewrite Forall_cons, Hiff; unfold validated at 2; rewrite Eg, ?El; tauto.
  1,2: intros ->%Heq; by rewrite <- app_assoc.
  destruct (IH rewrites (n + 1)) as (? & _ & _). split_and!; [lia| |lia].
  rewrite Forall_cons. unfold validated at 1. rewrite Eg, El. split; [lia|by intros [? _]].
Qed.

Lemma register_range w : 0 <= Z.land w 0x1f < 32.
Proof. change 0x1f with (2 ^ 5 - 1). rewrite land_ones_low by lia. by apply Z.mod_pos_bound. Qed.

Lemma apply_rewrites_spec code address guard rewrites code' applied :
  Forall (fun i => (i < instruction_count code)%nat) rewrites -> NoDup rewrites ->
  Forall (fun i => u64_range (address + Z.of_nat i * 4)) rewrites -> u64_range guard ->
  apply_rewrites code address guard rewrites = (code', Ok applied) ->
  length code' = length code /\
  drop (instruction_count code * 4) code' = drop (instruction_count code * 4) code /\
  applied = (fun i => {| instruction_index := i; original := read_instruction code i |}) <$> rewrites /\
  forall j, (j < instruction_count code)%nat ->
    (j ∈ rewrites -> is_adrp_to (read_instruction code' j) (address + Z.of_nat j * 4) (page_of guard)
                                (Z.land (read_instruction code j) 0x1f)) /\
    (j ∉ rewrites -> read_instruction code' j = read_instruction code j).
Proof.
  revert code code' applied. induction rewrites as [|i rewrites IH]; intros code code' applied; simpl.
  { intros _ _ _ _ [= <- <-]. split_and!; [done..|]. intros j _. by rewrite elem_of_nil. }
  intros [Hi Hlt]%Forall_cons [Hni Hnd]%NoDup_cons [Ha Has]%Forall_cons Hg.
  destruct (encode_adrp _ _ _) as [w|e] eqn:Ew; [|done]. apply encode_adrp_spec in Ew; [|done..|apply register_range].
  destruct (apply_rewrites (write_instruction code i w) address guard rewrites) as [c [rs|e]] eqn:Er; [|done].
  simpl. intros [= <- <-]. pose proof Ew as [Hw _].
  apply IH in Er as (Hl & Hd & -> & Hj); [|by rewrite write_instruction_count|done..].
  rewrite write_instruction_length, write_instruction_count, drop_write in * by (done || lia).
  split_and!; [done..| |].
  - f_equal. apply list_fmap_ext. intros k j Hk. f_equal. rewrite read_write; [|done| |done].
    + rewrite decide_False; [done|]. intros ->. by apply list_elem_of_lookup_2 in Hk.
    + rewrite Forall_forall in Hlt. apply Hlt. by eapply list_elem_of_lookup_2.
  - intros j Hlt'. destruct (Hj j Hlt') as [Hin Hout]. rewrite elem_of_cons, read_write in * by done.
    destruct (decide (i = j)) as [<-|]; split.
    + intros _. by rewrite Hout.
    + tauto.
    + intros [->|?]; [done|]. by apply Hin.
    + intros Hn. apply Hout. tauto.
Qed.

(** Whatever its outcome, the rewrite keeps the length of the code. *)
Lemma apply_rewrites_length code address guard rewrites :
  Forall (fun i => (i < instruction_count code)%nat) rewrites ->
  length (apply_rewrites code address guard rewrites).1 = length code.
Proof.
  revert code. induction rewrites as [|i rewrites IH]; intros code Hf; [done|]. apply Forall_cons in Hf as [Hi Hf]. simpl.
  destruct (encode_adrp _ _ _) as [adrp|]; [|done]. pose proof (IH (write_instruction code i adrp)) as H.
  destruct (apply_rewrites (write_instruction _ _ _) _ _ _) as [code' res]. simpl in *.
  rewrite H; [by apply write_instruction_length|]. by rewrite write_instruction_count.
Qed.

Lemma classify_range code todo rewrites n :
  Forall (fun i => (i < instruction_count code)%nat) todo -> Forall (fun i => (i < instruction_count code)%nat) rewrites ->
  Forall (fun i => (i < instruction_count code)%nat) (classify code todo rewrites n).1.
Proof.
  revert rewrites n. induction todo as [|i todo IH]; intros rewrites n Ht Hr; simpl; [done|].
  apply Forall_cons in Ht as [Hi Ht]. assert (Forall (fun i => (i < instruction_count code)%nat) (rewrites ++ [i])) by (apply Forall_app; auto).
  repeat case_match; by apply IH.
Qed.

Lemma guard_rewrite_length code address guard : length (rewrite_android_stack_guard_tls code address guard).1 = length code.
Proof.
  unfold rewrite_android_stack_guard_tls. destruct (negb _); [done|].
  pose proof (classify_range code (seq 0 (instruction_count code)) [] 0) as H. destruct (classify _ _ _ _) as [rewrites n].
  destruct (negb _); [done|]. apply apply_rewrites_length, H; [|constructor]. apply Forall_forall. intros i [_ ?]%elem_of_seq. lia.
Qed.

(** When the stack-guard rewrite succeeds, every read of the thread pointer had one of the
    validated shapes and has become an [ADRP] into the same register that names the page of the
    loader's guard, which the unchanged load at offset [0x28] then reads; every other
    instruction and the bytes behind the last instruction are unchanged; and putting the
    recorded instructions back gives the original code. *)
Theorem stack_guard_rewrite_exact code address guard code' applied :
  0 <= address -> address + len code <= u64_max -> u64_range guard ->
  rewrite_android_stack_guard_tls code address guard = (code', Ok applied) ->
  guard = page_of guard + ANDROID_TLS_SLOT_STACK_GUARD_OFFSET /\
  length code' = length code /\
  (forall i, (i < instruction_count code)%nat ->
    if is_thread_read (read_instruction code i) then
      validated code i = true /\
      is_adrp_to (read_instruction code' i) (address + Z.of_nat i * 4) (page_of guard)
                 (Z.land (read_instruction code i) 0x1f)
    else read_instruction code' i = read_instruction code i) /\
  restore code' ((fun r => (DirectTls.instruction_index r, DirectTls.original r)) <$> applied) = code.
Proof.
  intros Ha Hlen Hg. unfold rewrite_android_stack_guard_tls.
  destruct (Z.eqb_spec (Z.land guard 0xfff) ANDROID_TLS_SLOT_STACK_GUARD_OFFSET) as [Eg|]; simpl; [|done].
  pose proof (classify_spec code (seq 0 (instruction_count code)) [] 0) as (_ & Hall & Hrw).
  destruct (classify code _ [] 0) as [rewrites n]. simpl in *. destruct (Z.eqb_spec n 0) as [->|]; simpl; [|done].
  specialize (Hrw eq_refl) as ->. destruct Hall as [Hall _]. specialize (Hall eq_refl). intros Happ.
  assert (forall i, i ∈ thread_reads code (seq 0 (instruction_count code)) <->
    is_thread_read (read_instruction code i) = true /\ (i < instruction_count code)%nat) as Hin.
  { intros i. unfold thread_reads. rewrite list_elem_of_filter, elem_of_seq. naive_solver lia. }
  assert (forall i, (i < instruction_count code)%nat -> u64_range (address + Z.of_nat i * 4)) as Hrange.
  { intros i ?%instruction_fits. unfold u64_range, len in *. lia. }
  apply apply_rewrites_spec in Happ as (Hl & Hd & -> & Hj); [|apply Forall_forall; naive_solver|
    apply NoDup_filter, NoDup_seq|apply Forall_forall; naive_solver|done].
  split_and!; [|done| |].
  - rewrite page_of_spec by done. change 0xfff with (2 ^ 12 - 1) in Eg. rewrite land_ones_low in Eg by lia. lia.
  - intros i Hi. destruct (Hj i Hi) as [Hyes Hno]. destruct (is_thread_read (read_instruction code i)) eqn:Er.
    + split; [|by apply Hyes, Hin]. rewrite Forall_forall in Hall. by apply Hall, Hin.
    + apply Hno. rewrite Hin. intros [? _]. congruence.
  - rewrite <- list_fmap_compose. unfold compose. simpl. apply restore_original; [done..| |apply Forall_forall; naive_solver|
      apply NoDup_filter, NoDup_seq]. intros j ? ?. by apply Hj.
Qed.

(** A prologue that reads the guard twice its distance allows, as the source's tests have it. *)
Definition sample_guard_code : bytes :=
  u32_le (Z.lor MRS_TPIDR_EL0 19) ++ u32_le 0xaa0003f4 ++ u32_le (LDR_X_UNSIGNED_IMMEDIATE + 5 * 2 ^ 10 + 19 * 2 ^ 5 + 8).

(** At the sample: the read becomes [ADRP X19] and the original comes back. *)
Lemma stack_guard_rewrite_exact_witness :
  let code' := (rewrite_android_stack_guard_tls sample_guard_code 0x10000 0x20028).1 in
  adrp_page (read_instruction code' 0) 0x10000 = 0x20000 /\
  restore code' [(0%nat, Z.lor MRS_TPIDR_EL0 19)] = sample_guard_code.
Proof.
  destruct (stack_guard_rewrite_exact sample_guard_code 0x10000 0x20028
    (rewrite_android_stack_guard_tls sample_guard_code 0x10000 0x20028).1
    [{| DirectTls.instruction_index := 0; DirectTls.original := Z.lor MRS_TPIDR_EL0 19 |}])
    as (_ & _ & H & Hr); [done..|by vm_compute|].
  split; [|exact Hr]. specialize (H 0%nat ltac:(by vm_compute; lia)).
  exact (proj2 (proj2 (proj2 H))).
Defined.
End direct_tls.

(** ** System calls *)
Section direct_syscall.
Import DirectSyscall.

(** [B target] at an address, by the architecture's definition of the instruction. *)
Definition sign_extend (n v : Z) : Z := if has v (2 ^ (n - 1)) then v - 2 ^ n else v.
Definition is_branch_to (instruction instruction_address target : Z) : Prop :=
  0 <= instruction < 2 ^ 32 /\ Z.shiftr instruction 26 = 5 /\
  instruction_address + sign_extend 26 (Z.land instruction 0x3ffffff) * 4 = target.

Lemma check_branch_Ok from to :
  check_branch from to = Ok tt <-> (to - from) mod 4 = 0 /\ - 2 ^ 27 <= to - from <= 2 ^ 27 - 4.
Proof.
  unfold check_branch, B_MIN_BYTES, B_MAX_BYTES. change 3 with (2 ^ 2 - 1). rewrite land_ones_low by lia.
  change (2 ^ 2) with 4. destruct (Z.eqb_spec ((to - from) mod 4) 0), (Z.leb_spec (- 2 ^ 27) (to - from)),
    (Z.leb_spec (to - from) (2 ^ 27 - 4)); simpl; split; (done || lia || (intros; lia)).
Qed.

Lemma branch_immediate_spec from to imm :
  branch_immediate from to = Ok imm -> is_branch_to (Z.lor B imm) from to.
Proof.
  unfold branch_immediate. destruct (check_branch from to) as [[]|e] eqn:E; [|done].
  apply check_branch_Ok in E as [Hm Hb]. intros [= <-].
  rewrite Z.shiftr_div_pow2 by lia. change 0x3ffffff with (2 ^ 26 - 1). rewrite land_ones_low by lia.
  set (d := (to - from) / 2 ^ 2). assert (to - from = d * 4) by (subst d; mod_lia).
  assert (as_u32 (as_u64 d) mod 2 ^ 26 = d mod 2 ^ 26) as -> by (unfold as_u32, as_u64; mod_lia).
  pose proof (Z.mod_pos_bound d (2 ^ 26) eq_refl). change B with (Z.shiftl 5 26).
  rewrite Z.lor_comm, lor_low by lia. split_and!; [lia..| |].
  - rewrite Z.shiftr_div_pow2, Z.div_add, Z.div_small by lia. done.
  - unfold sign_extend. change (26 - 1) with 25. change 0x3ffffff with (2 ^ 26 - 1).
    rewrite land_ones_low, Z.mod_add, Zmod_mod by lia. rewrite has_top by (change (25 + 1) with 26; lia).
    destruct (Z.leb_spec (2 ^ 25) (d mod 2 ^ 26)); mod_lia.
Qed.

Lemma plan_site_Ok ia base cursor capacity imm :
  0 <= base -> 0 <= cursor ->
  plan_site ia base cursor capacity = Ok imm ->
  is_branch_to (Z.lor B imm) ia (base + cursor) /\ cursor + DIRECT_SYSCALL_VENEER_BYTES <= capacity /\
  check_branch (base + cursor) (ia + 4) = Ok tt.
Proof.
  intros Hb Hc. unfold plan_site.
  destruct (checked_add usize_max base cursor) as [va|] eqn:E; simpl; [|done]. apply checked_add_Some in E as [-> _].
  destruct (checked_add usize_max ia 4) as [ra|] eqn:E; simpl; [|done]. apply checked_add_Some in E as [-> _].
  destruct (check_branch ia (base + cursor)) as [[]|]; [|done].
  destruct (check_branch (base + cursor) (ia + 4)) as [[]|] eqn:E2; [|done].
  destruct (checked_add usize_max cursor DIRECT_SYSCALL_VENEER_BYTES) as [end_|] eqn:E; simpl; [|done].
  apply checked_add_Some in E as [-> _]. destruct (Z.leb_spec (cursor + DIRECT_SYSCALL_VENEER_BYTES) capacity); [|done].
  simpl. intros H'. split_and!; [by apply branch_immediate_spec|done|done].
Qed.

Definition svc_sites (code : bytes) (todo : list nat) : list nat :=
  filter (fun i => read_instruction code i = LINUX_SVC_ZERO) todo.

(** The rewrites of sites in order, with consecutive veneers. *)
Fixpoint site_rewrites (address cursor : Z) (sites : list nat) : list DirectSyscallRewrite :=
  match sites with
  | [] => []
  | i :: sites =>
      {| instruction_index := i; original := LINUX_SVC_ZERO; veneer_offset := cursor;
         return_address := address + Z.of_nat i * 4 + 4 |} ::
      site_rewrites address (cursor + DIRECT_SYSCALL_VENEER_BYTES) sites
  end.

Lemma svc_sites_write code todo i w :
  i ∉ todo -> (i < instruction_count code)%nat -> Forall (fun j => (j < instruction_count code)%nat) todo ->
  0 <= w < 2 ^ 32 -> svc_sites (write_instruction code i w) todo = svc_sites code todo.
Proof.
  intros Hni Hi Htodo Hw. unfold svc_sites. induction todo as [|j todo IH]; [done|].
  apply not_elem_of_cons in Hni as [? ?]. apply Forall_cons in Htodo as [? ?].
  rewrite !filter_cons, IH, read_write by done. by rewrite (decide_False (P := i = j)).
Qed.

Lemma rewrite_loop_spec code address base cursor capacity todo code' cursor' rs :
  Forall (fun i => (i < instruction_count code)%nat) todo -> NoDup todo -> 0 <= base -> 0 <= cursor ->
  rewrite_loop code address base cursor capacity todo = (code', cursor', Ok rs) ->
  let sites := svc_sites code todo in
  length code' = length code /\
  drop (instruction_count code * 4) code' = drop (instruction_count code * 4) code /\
  rs = site_rewrites address cursor sites /\
  cursor' = cursor + len sites * DIRECT_SYSCALL_VENEER_BYTES /\ (sites = [] \/ cursor' <= capacity) /\
  (forall j, (j < instruction_count code)%nat -> j ∉ sites -> read_instruction code' j = read_instruction code j) /\
  Forall (fun r => is_branch_to (read_instruction code' (instruction_index r))
                     (address + Z.of_nat (instruction_index r) * 4) (base + veneer_offset r) /\
                   check_branch (base + veneer_offset r) (return_address r) = Ok tt) rs.
Proof.
  revert code cursor code' cursor' rs. induction todo as [|i todo IH]; intros code cursor code' cursor' rs; simpl.
  { intros _ _ _ _ [= <- <- <-]. unfold svc_sites. simpl. rewrite Z.mul_0_l, Z.add_0_r.
    split_and!; auto; try done. }
  intros [Hi Hlt]%Forall_cons [Hni Hnd]%NoDup_cons Hb Hc. unfold svc_sites. rewrite filter_cons.
  destruct (Z.eqb_spec (read_instruction code i) LINUX_SVC_ZERO) as [Es|Es]; cbn [negb];
    [rewrite decide_True by done|rewrite decide_False by done; by apply IH].
  destruct (plan_site _ _ _ _) as [imm|e] eqn:Ep; [|done].
  apply plan_site_Ok in Ep as (Hbr & Hcap & Hret); [|done..]. pose proof Hbr as [Hw _].
  destruct (rewrite_loop (write_instruction code i (Z.lor B imm)) address base
    (cursor + DIRECT_SYSCALL_VENEER_BYTES) capacity todo) as [[c cu] [rs'|e]] eqn:Er; [|done].
  simpl. intros [= <- <- <-]. apply IH in Er as (Hl & Hd & -> & -> & Hcu & Hj & Hrs);
    [|by rewrite write_instruction_count|done|done|unfold DIRECT_SYSCALL_VENEER_BYTES; lia].
  rewrite svc_sites_write in * by done. fold (svc_sites code todo).
  rewrite write_instruction_length, write_instruction_count, drop_write in * by (done || lia).
  assert (i ∉ svc_sites code todo) as Hni' by (unfold svc_sites; rewrite list_elem_of_filter; tauto).
  change (len (i :: ?l)) with (Z.of_nat (S (length l))). unfold len, DIRECT_SYSCALL_VENEER_BYTES in *.
  split_and!; [done..|lia| | |].
  - right. destruct Hcu as [Hcu|Hcu]; [rewrite Hcu; simpl; lia|lia].
  - intros j Hjlt [Hne Hn]%not_elem_of_cons. rewrite Hj, read_write by done. by rewrite decide_False.
  - constructor; [|done]. simpl. split; [|done]. rewrite Hj, read_write by done. by rewrite decide_True.
Qed.

Lemma site_rewrites_indices address cursor sites :
  instruction_index <$> site_rewrites address cursor sites = sites.
Proof. revert cursor. induction sites as [|i sites IH]; intros cursor; simpl; [done|by rewrite IH]. Qed.

Lemma site_rewrites_lookup address cursor sites k r :
  site_rewrites address cursor sites !! k = Some r ->
  original r = LINUX_SVC_ZERO /\ veneer_offset r = cursor + Z.of_nat k * DIRECT_SYSCALL_VENEER_BYTES /\
  return_address r = address + Z.of_nat (instruction_index r) * 4 + 4.
Proof.
  revert cursor k. induction sites as [|i sites IH]; intros cursor [|k]; simpl; try done.
  - intros [= <-]. simpl. split_and!; [done|lia|done].
  - intros (? & -> & ?)%IH. split_and!; [done|lia|done].
Qed.

Lemma svc_sites_words code : len (svc_sites code (seq 0 (instruction_count code))) = count_linux_svc code.
Proof.
  unfold svc_sites, count_linux_svc, words. generalize (seq 0 (instruction_count code)). intros todo.
  induction todo as [|i todo IH]; [done|]. rewrite fmap_cons, !filter_cons. unfold len in *.
  repeat case_decide; simpl; lia.
Qed.

Lemma contains_linux_svc_false code :
  contains_linux_svc code = false <->
  forall i, (i < instruction_count code)%nat -> read_instruction code i <> LINUX_SVC_ZERO.
Proof.
  unfold contains_linux_svc, words. rewrite <- not_true_iff_false, existsb_exists. split.
  - intros Hn i Hi E. apply Hn. exists (read_instruction code i). rewrite E. split; [|by rewrite Z.eqb_refl].
    apply list_elem_of_In, list_elem_of_fmap. exists i. rewrite elem_of_seq. split; [done|lia].
  - intros H (w & Hw & E%Z.eqb_eq). subst w. apply list_elem_of_In, list_elem_of_fmap in Hw as (i & Hi & [_ Hlt]%elem_of_seq).
    by apply (H i).
Qed.

Lemma branch_not_svc w a t : is_branch_to w a t -> w <> LINUX_SVC_ZERO.
Proof. intros (_ & H & _) ->. done. Qed.

(** Whatever its outcome, the rewrite keeps the length of the code; when it succeeds no [SVC #0]
    is left. *)
Lemma rewrite_loop_length code address base cursor capacity todo :
  Forall (fun i => (i < instruction_count code)%nat) todo ->
  length (rewrite_loop code address base cursor capacity todo).1.1 = length code.
Proof.
  revert code cursor. induction todo as [|i todo IH]; intros code cursor Hf; [done|]. apply Forall_cons in Hf as [Hi Hf]. simpl.
  destruct (negb _); [by apply IH|]. destruct (plan_site _ _ _ _) as [imm|]; [|done].
  pose proof (IH (write_instruction code i (Z.lor B imm)) (cursor + DIRECT_SYSCALL_VENEER_BYTES)) as H.
  destruct (rewrite_loop (write_instruction _ _ _) _ _ _ _ _) as [[code' c'] res]. simpl in *.
  rewrite H; [by apply write_instruction_length|]. by rewrite write_instruction_count.
Qed.

Lemma svc_rewrite_length code address base cursor capacity :
  length (rewrite_linux_svc code address base cursor capacity).1.1 = length code.
Proof. apply rewrite_loop_length, Forall_forall. intros i [_ ?]%elem_of_seq. lia. Qed.

Lemma svc_rewrite_clean code address base cursor capacity code' cursor' rs :
  0 <= base -> 0 <= cursor ->
  rewrite_linux_svc code address base cursor capacity = (code', cursor', Ok rs) ->
  cursor <= cursor' /\ contains_linux_svc code' = false.
Proof.
  intros Hb Hc Hrw. apply rewrite_loop_spec in Hrw as (Hl & _ & -> & -> & _ & Hj & Hbr); [|apply Forall_forall|apply NoDup_seq|done..].
  2: { intros i [_ ?]%elem_of_seq. lia. }
  set (sites := svc_sites code (seq 0 (instruction_count code))) in *.
  split; [pose proof (len_nonneg sites); unfold DIRECT_SYSCALL_VENEER_BYTES; lia|].
  rewrite Forall_forall in Hbr. apply contains_linux_svc_false. unfold instruction_count. rewrite Hl. fold (instruction_count code).
  intros i Hi. destruct (decide (i ∈ sites)) as [Hs|Hs].
  - rewrite <- (site_rewrites_indices address cursor sites) in Hs. apply list_elem_of_fmap in Hs as (r & -> & Hr).
    by destruct (Hbr r Hr) as [?%branch_not_svc _].
  - rewrite Hj by done. intros E. apply Hs. unfold sites, svc_sites. rewrite list_elem_of_filter, elem_of_seq. split; [done|lia].
Qed.

(** C29: when the system-call rewrite succeeds, no [SVC #0] is left; each one, in order, has become
    a branch to its own 512-byte slot of the veneer area, from which the instruction behind it is
    in reach; the cursor stands behind the last slot, within the area; nothing else changed; and
    putting the recorded instructions back gives the original code. *)
Theorem svc_rewrite_exact code address base cursor capacity code' cursor' rs :
  0 <= base -> 0 <= cursor ->
  rewrite_linux_svc code address base cursor capacity = (code', cursor', Ok rs) ->
  length code' = length code /\ contains_linux_svc code' = false /\
  len rs = count_linux_svc code /\
  cursor' = cursor + count_linux_svc code * DIRECT_SYSCALL_VENEER_BYTES /\ (rs = [] \/ cursor' <= capacity) /\
  (forall k r, rs !! k = Some r ->
    read_instruction code (instruction_index r) = LINUX_SVC_ZERO /\
    veneer_offset r = cursor + Z.of_nat k * DIRECT_SYSCALL_VENEER_BYTES /\
    is_branch_to (read_instruction code' (instruction_index r))
      (address + Z.of_nat (instruction_index r) * 4) (base + veneer_offset r) /\
    return_address r = address + Z.of_nat (instruction_index r) * 4 + 4 /\
    check_branch (base + veneer_offset r) (return_address r) = Ok tt) /\
  (forall i, (i < instruction_count code)%nat -> read_instruction code i <> LINUX_SVC_ZERO ->
    read_instruction code' i = read_instruction code i) /\
  restore code' ((fun r => (instruction_index r, original r)) <$> rs) = code.
Proof.
  intros Hb Hc Hrw. pose proof (svc_rewrite_clean _ _ _ _ _ _ _ _ Hb Hc Hrw) as [_ Hclean].
  set (sites := svc_sites code (seq 0 (instruction_count code))).
  assert (forall i, i ∈ sites <-> read_instruction code i = LINUX_SVC_ZERO /\ (i < instruction_count code)%nat) as Hin.
  { intros i. unfold sites, svc_sites. rewrite list_elem_of_filter, elem_of_seq. intuition lia. }
  assert (NoDup sites) as Hnd by apply NoDup_filter, NoDup_seq.
  apply rewrite_loop_spec in Hrw as (Hl & Hd & -> & -> & Hcap & Hj & Hbr); [|apply Forall_forall|apply NoDup_seq|done..].
  2: { intros i [_ ?]%elem_of_seq. lia. }
  fold sites in Hcap, Hj, Hbr |- *. rewrite <- svc_sites_words. fold sites.
  pose proof (site_rewrites_indices address cursor sites) as Hidx.
  rewrite Forall_forall in Hbr. split_and!; [done|done| |done| | | |].
  - unfold len. rewrite <- Hidx at 2. by rewrite length_fmap.
  - destruct Hcap as [Hn|?]; [left; by rewrite Hn|by right].
  - intros k r Hk. pose proof (site_rewrites_lookup _ _ _ _ _ Hk) as (_ & Ho & Hr).
    apply list_elem_of_lookup_2 in Hk. destruct (Hbr r Hk) as [? ?]. split_and!; try done.
    apply Hin. rewrite <- Hidx. apply list_elem_of_fmap. by exists r.
  - intros i Hi Hne. apply Hj; [done|]. rewrite Hin. tauto.
  - assert ((fun r => (instruction_index r, original r)) <$> site_rewrites address cursor sites =
            (fun i => (i, read_instruction code i)) <$> sites) as ->.
    { rewrite <- Hidx at 2. rewrite <- list_fmap_compose. apply list_fmap_ext. intros k r Hk. unfold compose.
      pose proof (site_rewrites_lookup _ _ _ _ _ Hk) as (-> & _ & _). f_equal. symmetry.
      apply Hin. rewrite <- Hidx. apply list_elem_of_fmap. exists r. split; [done|]. by eapply list_elem_of_lookup_2. }
    apply restore_original; [done..| |done]. apply Forall_forall. intros i Hi%Hin. tauto.
Qed.

Definition sample_svc_code : bytes := u32_le LINUX_SVC_ZERO ++ u32_le 0xd503201f ++ u32_le LINUX_SVC_ZERO.

(** At code with two system calls. *)
Lemma svc_rewrite_exact_witness :
  let code' := (rewrite_linux_svc sample_svc_code 0x10000 0x20000 0 16384).1.1 in
  contains_linux_svc code' = false /\
  restore code' [(0%nat, LINUX_SVC_ZERO); (2%nat, LINUX_SVC_ZERO)] = sample_svc_code.
Proof.
  destruct (svc_rewrite_exact sample_svc_code 0x10000 0x20000 0 16384
    (rewrite_linux_svc sample_svc_code 0x10000 0x20000 0 16384).1.1 1024
    (site_rewrites 0x10000 0 [0%nat; 2%nat])) as (_ & H & _ & _ & _ & _ & _ & Hr); [done..|by vm_compute|].
  split; [exact H|exact Hr].
Defined.
End direct_syscall.
