(* ===== verification/ElfPlan.v ===== *)
(** * The load plan of an image ([parser.rs])

    Validation of the ELF header and the program headers, and the plan the loader follows: the
    reservation, where the image lies in it, and the protection of each host page.  The page size
    of the host is an argument, the answer of [getpagesize]. *)
From S2P Require Import Prelude ElfBase ElfRewrite.

(** ** Segments *)

Definition segment_end (h : ProgramHeader) : option Z :=
  checked_add u64_max (virtual_address h) (memory_size h).

Definition validate_load (bs : bytes) (load : ProgramHeader) : result unit LoadError :=
  if memory_size load =? 0 then Err (Format "zero-sized PT_LOAD")
  else if memory_size load <? file_size load then Err (Format "PT_LOAD p_filesz exceeds p_memsz")
  else if negb (Z.land (pflags load) (u32_max - (PF_R + PF_W + PF_X)) =? 0) then Err (Format "unknown PT_LOAD flags")
  else if has (pflags load) PF_W && has (pflags load) PF_X then Err (Protection "PT_LOAD requests W+X")
  else if (1 <? alignment load) &&
          (negb (is_power_of_two (alignment load)) ||
           negb (offset load mod alignment load =? virtual_address load mod alignment load))
  then Err (Format "invalid PT_LOAD alignment")
  else
    let? offset := to_usize (offset load) "PT_LOAD file offset" in
    let? size := to_usize (file_size load) "PT_LOAD file size" in
    let? _ := checked_slice bs offset size "PT_LOAD file range" in
    let? _ := ok_or (segment_end load) (Bounds "PT_LOAD virtual range overflow") in
    Ok tt.

(** The first load that contains a range up to [end_]. *)
Definition containing_load (loads : list ProgramHeader) (start end_ : Z) : option ProgramHeader :=
  snd <$> list_find (fun load =>
    (virtual_address load <=? start) &&
    match segment_end load with Some load_end => end_ <=? load_end | None => false end = true) loads.

(** [collect::<Option<Vec<_>>>()] of the ends, and their maximum. *)
Definition maximum_end (loads : list ProgramHeader) : option Z :=
  ends ← mapM segment_end loads; Some (foldr Z.max 0 ends).

Definition validate_tls_segment (bs : bytes) (tls : ProgramHeader) (loads : list ProgramHeader)
    : result unit LoadError :=
  if (memory_size tls =? 0) || (memory_size tls <? file_size tls) then Err (Format "invalid PT_TLS size")
  else if MAX_TLS_SIZE <? memory_size tls then Err (Bounds "PT_TLS memory size cap")
  else if negb (pflags tls =? PF_R) then Err (Format "PT_TLS must be read-only metadata")
  else if (alignment tls =? 0) || negb (is_power_of_two (alignment tls)) || (MAX_TLS_ALIGNMENT <? alignment tls)
          || negb (offset tls mod alignment tls =? virtual_address tls mod alignment tls)
  then Err (Format "invalid PT_TLS alignment")
  else
    let? file_offset := to_usize (offset tls) "PT_TLS file offset" in
    let? size := to_usize (file_size tls) "PT_TLS file size" in
    let? _ := checked_slice bs file_offset size "PT_TLS file range" in
    let? memory_end := ok_or (segment_end tls) (Bounds "PT_TLS memory range overflow") in
    let? file_end := ok_or (checked_add u64_max (virtual_address tls) (file_size tls))
                           (Bounds "PT_TLS file range overflow") in
    if file_size tls =? 0 then
      match loads with
      | [] => Err (Bounds "PT_TLS without PT_LOAD")
      | first :: _ =>
          let? image_end := ok_or (maximum_end loads) (Bounds "PT_LOAD range overflow") in
          if (virtual_address tls <? virtual_address first) || (image_end <? memory_end)
          then Err (Bounds "zero-fill PT_TLS is outside image reservation") else Ok tt
      end
    else
      match containing_load loads (virtual_address tls) memory_end with
      | None => Err (Bounds "PT_TLS is not inside PT_LOAD")
      | Some load =>
          let? file_delta := ok_or (checked_sub (offset tls) (offset load)) (Bounds "PT_TLS file mapping") in
          let? virtual_delta := ok_or (checked_sub (virtual_address tls) (virtual_address load))
                                      (Bounds "PT_TLS virtual mapping") in
          if negb (file_delta =? virtual_delta) ||
             (saturating_add u64_max (virtual_address load) (file_size load) <? file_end)
          then Err (Format "PT_TLS file/virtual mapping mismatch") else Ok tt
      end.

Definition validate_dynamic_segment (bs : bytes) (dynamic : ProgramHeader) (loads : list ProgramHeader)
    : result unit LoadError :=
  if (file_size dynamic =? 0) || (memory_size dynamic <? file_size dynamic)
     || negb (file_size dynamic mod ELF64_DYN_SIZE =? 0)
  then Err (Format "invalid PT_DYNAMIC size")
  else
    let? file_offset := to_usize (offset dynamic) "PT_DYNAMIC offset" in
    let? size := to_usize (file_size dynamic) "PT_DYNAMIC size" in
    let? _ := checked_slice bs file_offset size "PT_DYNAMIC file range" in
    let? end_ := ok_or (segment_end dynamic) (Bounds "PT_DYNAMIC range overflow") in
    match containing_load loads (virtual_address dynamic) end_ with
    | None => Err (Bounds "PT_DYNAMIC is not inside PT_LOAD")
    | Some load =>
        let? file_delta := ok_or (checked_sub (offset dynamic) (offset load)) (Bounds "PT_DYNAMIC file mapping") in
        let? virtual_delta := ok_or (checked_sub (virtual_address dynamic) (virtual_address load))
                                    (Bounds "PT_DYNAMIC virtual mapping") in
        let inside := match checked_add u64_max file_delta (file_size dynamic) with
                      | Some value => value <=? file_size load
                      | None => false
                      end in
        if negb (file_delta =? virtual_delta) || negb inside
        then Err (Format "PT_DYNAMIC file/virtual mapping mismatch") else Ok tt
    end.

(** ** The program header table *)

(** What the loop over the table collects. *)
Record Scan : Type := {
  sloads : list ProgramHeader; sdynamic : option ProgramHeader; srelro : option ProgramHeader;
  stls : option ProgramHeader; previous_rw_index : option Z; rw_headers_adjacent : bool }.

Definition empty_scan : Scan :=
  {| sloads := []; sdynamic := None; srelro := None; stls := None;
     previous_rw_index := None; rw_headers_adjacent := true |}.

Definition read_header (bs : bytes) (at_ : Z) : result ProgramHeader LoadError :=
  let? kind := read_u32 bs at_ in
  let? flags := read_u32 bs (at_ + 4) in
  let? offset := read_u64 bs (at_ + 8) in
  let? virtual_address := read_u64 bs (at_ + 16) in
  let? file_size := read_u64 bs (at_ + 32) in
  let? memory_size := read_u64 bs (at_ + 40) in
  let? alignment := read_u64 bs (at_ + 48) in
  Ok {| kind := kind; pflags := flags; offset := offset; virtual_address := virtual_address;
        file_size := file_size; memory_size := memory_size; alignment := alignment |}.

(** The body of the loop. *)
Definition scan_header (bs : bytes) (metadata_only : bool) (index : Z) (s : Scan) (header : ProgramHeader)
    : result Scan LoadError :=
  if kind header =? PT_LOAD then
    let? _ := validate_load bs header in
    let rw := Z.land (pflags header) (Z.lor PF_R PF_W) =? Z.lor PF_R PF_W in
    let apart := match previous_rw_index s with Some previous => negb (previous + 1 =? index) | None => false end in
    Ok {| sloads := sloads s ++ [header]; sdynamic := sdynamic s; srelro := srelro s; stls := stls s;
          previous_rw_index := if rw then Some index else previous_rw_index s;
          rw_headers_adjacent := rw_headers_adjacent s && negb (rw && apart) |}
  else if kind header =? PT_DYNAMIC then
    if present (sdynamic s) then Err (Format "multiple PT_DYNAMIC segments")
    else Ok {| sloads := sloads s; sdynamic := Some header; srelro := srelro s; stls := stls s;
               previous_rw_index := previous_rw_index s; rw_headers_adjacent := rw_headers_adjacent s |}
  else if kind header =? PT_TLS then
    if present (stls s) then Err (Format "multiple PT_TLS segments")
    else Ok {| sloads := sloads s; sdynamic := sdynamic s; srelro := srelro s; stls := Some header;
               previous_rw_index := previous_rw_index s; rw_headers_adjacent := rw_headers_adjacent s |}
  else if (kind header =? PT_GNU_RELRO) && negb metadata_only then
    if present (srelro s) then Err (Format "multiple PT_GNU_RELRO segments")
    else Ok {| sloads := sloads s; sdynamic := sdynamic s; srelro := Some header; stls := stls s;
               previous_rw_index := previous_rw_index s; rw_headers_adjacent := rw_headers_adjacent s |}
  else Ok s.

Fixpoint scan_headers (bs : bytes) (metadata_only : bool) (program_offset index : Z) (count : nat) (s : Scan)
    : result Scan LoadError :=
  match count with
  | O => Ok s
  | S count =>
      let? header := read_header bs (program_offset + index * ELF64_PHDR_SIZE) in
      let? s := scan_header bs metadata_only index s header in
      scan_headers bs metadata_only program_offset (index + 1) count s
  end.

Definition EI_MAG : bytes := [Byte.x7f; Byte.x45; Byte.x4c; Byte.x46].

(** The header of the file: the offset and the length of the program header table. *)
Definition parse_file_header (bs : bytes) : result (Z * Z) LoadError :=
  if (len bs <? ELF64_EHDR_SIZE) || (len bs <? EI_NIDENT) then Err (Format "truncated ELF header")
  else if negb (bool_decide (take 4 bs = EI_MAG)) then Err (Format "bad magic")
  else if negb (bool_decide (slice bs 4 7 = [Byte.x02; Byte.x01; Byte.x01]))
  then Err (Format "requires ELF64 little-endian v1")
  else
    let? type := read_u16 bs 16 in
    if negb (type =? ET_DYN) then Err (Format "requires ET_DYN") else
    let? machine := read_u16 bs 18 in
    if negb (machine =? EM_AARCH64) then Err (Format "requires EM_AARCH64") else
    let? version := read_u32 bs 20 in
    if negb (version =? EV_CURRENT) then Err (Format "bad ELF version") else
    let? header_size := read_u16 bs 52 in
    let? entry_size := read_u16 bs 54 in
    if negb (header_size =? ELF64_EHDR_SIZE) || negb (entry_size =? ELF64_PHDR_SIZE)
    then Err (Format "unexpected ELF/program header size") else
    let? raw := read_u64 bs 32 in
    let? program_offset := to_usize raw "program header offset" in
    let? program_count := read_u16 bs 56 in
    if program_count =? 0 then Err (Format "no program headers") else
    let? table_size := ok_or (checked_mul usize_max program_count ELF64_PHDR_SIZE)
                             (Bounds "program header table overflow") in
    let? _ := checked_slice bs program_offset table_size "program header table" in
    Ok (program_offset, program_count).

(** [sort_by_key] on the addresses. *)
Definition address_le (a b : ProgramHeader) : Prop := virtual_address a <= virtual_address b.
#[export] Instance address_le_dec : RelDecision address_le.
Proof. intros a b. unfold address_le. apply _. Defined.

(** The check of neighbours, [windows(2)]. *)
Fixpoint check_windows (loads : list ProgramHeader) : result unit LoadError :=
  match loads with
  | a :: (b :: _) as rest =>
      let? previous_end := ok_or (segment_end a) (Bounds "PT_LOAD end overflow") in
      if virtual_address b <? previous_end then Err (Format "overlapping PT_LOAD memory ranges")
      else check_windows rest
  | _ => Ok tt
  end.

(** ** The pages *)

(** [a & !(page_size - 1)]. *)
Definition page_floor (page_size a : Z) : Z := Z.land a (not64 (page_size - 1)).

(** [a.checked_add(page_mask)? & !page_mask]. *)
Definition page_ceil (page_size a : Z) : option Z :=
  page_floor page_size <$> checked_add u64_max a (page_size - 1).

(** The host pages of a segment, from the lowest page of the image. *)
Definition page_span (page_size minimum : Z) (load : ProgramHeader) : result (Z * Z) LoadError :=
  let? start := difference_to_usize (page_floor page_size (virtual_address load)) minimum in
  let? end_address := ok_or (e ← segment_end load; page_ceil page_size e) (Bounds "PT_LOAD page span overflow") in
  let? end_ := difference_to_usize end_address minimum in
  Ok (start / page_size, end_ / page_size).

Definition writable_executable (protection : Z) : bool :=
  has protection PROT_WRITE && has protection PROT_EXEC.

(** The loop over the loads: the protection of each page, and whether a page is both writable
    and executable. *)
Fixpoint plan_pages (page_size minimum : Z) (loads : list ProgramHeader) (pages : list Z) (overlap : bool)
    : result (list Z * bool) LoadError :=
  match loads with
  | [] => Ok (pages, overlap)
  | load :: loads =>
      let? (start, end_) := page_span page_size minimum load in
      let protection := elf_flags_to_protection (pflags load) in
      let? selected := ok_or (get_range pages start end_) (Bounds "PT_LOAD page plan") in
      let updated := (fun page => Z.lor page protection) <$> selected in
      plan_pages page_size minimum loads (copy_at (Z.to_nat start) updated pages)
        (overlap || existsb writable_executable updated)
  end.

(** [relro_covered_by_load_pages]; loads that start on the same page may come in any order. *)
Fixpoint cover_loop (covered_end required_end : Z) (ranges : list (Z * Z)) : bool :=
  match ranges with
  | [] => false
  | (start, end_) :: ranges =>
      if end_ <=? covered_end then cover_loop covered_end required_end ranges
      else if covered_end <? start then false
      else
        let covered_end := Z.max covered_end end_ in
        if required_end <=? covered_end then true else cover_loop covered_end required_end ranges
  end.

Definition load_range (page_size : Z) (load : ProgramHeader) : option (Z * Z) :=
  end_ ← (e ← segment_end load; page_ceil page_size e);
  Some (page_floor page_size (virtual_address load), end_).

Definition relro_covered_by_load_pages (loads : list ProgramHeader) (relro_start relro_end page_size : Z)
    : result bool LoadError :=
  let required_start := page_floor page_size relro_start in
  let? required_end := ok_or (page_ceil page_size relro_end) (Bounds "PT_GNU_RELRO page rounding overflow") in
  let? ranges := ok_or (mapM (load_range page_size) loads) (Bounds "PT_LOAD page span overflow") in
  Ok (cover_loop required_start required_end (merge_sort key_le ranges)).

(** ** The 4 KiB layout on 16 KiB pages *)

Definition ANDROID_COMPAT_PAGE_SIZE : Z := 4096.

(** The first writable load, when all loads before it are read-only and none after it is
    anything else than read-write. *)
Fixpoint first_rw_load (loads : list ProgramHeader) (first_rw : option ProgramHeader)
    : option (option ProgramHeader) :=
  match loads with
  | [] => Some first_rw
  | load :: loads =>
      if negb (present first_rw) && ((pflags load =? PF_R) || (pflags load =? Z.lor PF_R PF_X))
      then first_rw_load loads first_rw
      else if pflags load =? Z.lor PF_R PF_W
      then first_rw_load loads (Some (default load first_rw))
      else None
  end.

Definition rx_rw_compat_boundary (loads : list ProgramHeader) (relro : option ProgramHeader) (host_page_size : Z)
    : result (option Z) LoadError :=
  if negb (host_page_size =? 16 * 1024) || forallb (fun load => host_page_size <=? alignment load) loads
  then Ok None
  else
    match first_rw_load loads None with
    | None | Some None => Ok None
    | Some (Some first_rw) =>
        match relro with
        | None => Ok (Some (page_floor ANDROID_COMPAT_PAGE_SIZE (virtual_address first_rw)))
        | Some relro =>
            if negb (virtual_address relro =? virtual_address first_rw) then Ok None
            else
              let load_start := page_floor ANDROID_COMPAT_PAGE_SIZE (virtual_address first_rw) in
              let? load_end := ok_or (e ← segment_end first_rw; page_ceil ANDROID_COMPAT_PAGE_SIZE e)
                                     (Bounds "compat RW segment end overflow") in
              let relro_start := page_floor ANDROID_COMPAT_PAGE_SIZE (virtual_address relro) in
              let? relro_end := ok_or (e ← segment_end relro; page_ceil ANDROID_COMPAT_PAGE_SIZE e)
                                      (Bounds "compat RELRO end overflow") in
              if negb (relro_start =? load_start) || (load_end <? relro_end) then Ok None
              else Ok (Some relro_end)
        end
    end.

(** The shifted layout: the offset of the image, the reservation, the boundary, the pages. *)
Definition compat_plan (loads : list ProgramHeader) (relro : option ProgramHeader) (adjacent : bool)
    (page_size minimum image_size : Z) : result (Z * Z * Z * list Z) LoadError :=
  if negb adjacent then Err (Protection "Android 16 compat requires adjacent RW program headers")
  else
    let? found := rx_rw_compat_boundary loads relro page_size in
    let? boundary := ok_or found (Protection
      "host page permission overlap is not eligible for Android 16 RX|RW compat") in
    let? boundary_from_minimum := difference_to_usize boundary minimum in
    let boundary_modulo := boundary_from_minimum mod page_size in
    let image_offset := if boundary_modulo =? 0 then 0 else page_size - boundary_modulo in
    let? shifted_boundary := ok_or (checked_add usize_max image_offset boundary_from_minimum)
                                   (Bounds "compat permission boundary overflow") in
    if negb (shifted_boundary mod page_size =? 0)
    then Err (Bounds "compat permission boundary is not host-page aligned")
    else
      let? reservation_size := ok_or (size ← checked_add usize_max image_offset image_size;
                                      page_ceil page_size size)
                                     (Bounds "compat reservation size overflow") in
      let pages := Z.to_nat (reservation_size / page_size) in
      let executable := Z.to_nat (shifted_boundary / page_size) in
      Ok (image_offset, reservation_size, boundary,
          replicate (Nat.min executable pages) (Z.lor PROT_READ PROT_EXEC) ++
          replicate (pages - executable) (Z.lor PROT_READ PROT_WRITE)).

(** ** The plan *)

Record ParsedImage : Type := {
  loads : list ProgramHeader; dynamic : ProgramHeader; tls : option ProgramHeader;
  minimum_page : Z; image_size : Z; reservation_size : Z; image_offset : Z; compat_layout : bool;
  stack_guard_offset : Z; direct_syscall_shim_offset : Z; direct_syscall_shim_size : Z;
  page_size : Z; page_protections : list Z }.

(** [getpagesize], kept when it is a power of two. *)
Definition checked_page_size (host_page_size : Z) : result Z LoadError :=
  if (0 <=? host_page_size) && is_power_of_two host_page_size then Ok host_page_size
  else Err (System "getpagesize" 0).

Definition minimum_alignment (loads : list ProgramHeader) (page_size : Z) : Z :=
  foldr Z.min page_size (filter (fun a => 1 < a) (alignment <$> loads)).

(** The [SVC #0] instructions of the executable loads. *)
Fixpoint count_direct_syscalls (bs : bytes) (loads : list ProgramHeader) (total : Z) : result Z LoadError :=
  match loads with
  | [] => Ok total
  | load :: loads =>
      if negb (has (pflags load) PF_X) then count_direct_syscalls bs loads total
      else
        let? file_offset := to_usize (offset load) "direct-syscall load offset" in
        let? size := to_usize (file_size load) "direct-syscall load size" in
        let? code := checked_slice bs file_offset size "direct-syscall load range" in
        let? total := ok_or (checked_add usize_max total (DirectSyscall.count_linux_svc code))
                            (Bounds "direct-syscall count overflow") in
        count_direct_syscalls bs loads total
  end.

(** The checks and the page update of [PT_GNU_RELRO]; a shifted layout keeps its pages. *)
Definition protect_relro (relro : ProgramHeader) (loads : list ProgramHeader) (page_size minimum : Z)
    (compat : bool) (pages : list Z) : result (list Z) LoadError :=
  if negb (pflags relro =? PF_R) || (memory_size relro =? 0) || (memory_size relro <? file_size relro)
  then Err (Format "invalid PT_GNU_RELRO segment")
  else
    let? relro_end := ok_or (segment_end relro) (Bounds "PT_GNU_RELRO end overflow") in
    let? covered := relro_covered_by_load_pages loads (virtual_address relro) relro_end page_size in
    if negb covered && negb compat then Err (Format "PT_GNU_RELRO outside PT_LOAD")
    else if compat then Ok pages
    else
      let? start := difference_to_usize (page_floor page_size (virtual_address relro)) minimum in
      let? end_address := ok_or (page_ceil page_size relro_end) (Bounds "PT_GNU_RELRO page rounding overflow") in
      let? end_ := difference_to_usize end_address minimum in
      let? selected := ok_or (get_range pages (start / page_size) (end_ / page_size))
                             (Bounds "PT_GNU_RELRO page plan") in
      if bool_decide (selected = []) || existsb (fun p => negb (has p PROT_READ) || has p PROT_EXEC) selected
      then Err (Protection "PT_GNU_RELRO does not cover readable non-executable pages")
      else
        Ok (copy_at (Z.to_nat (start / page_size))
              ((fun p => Z.land p (Z.lnot PROT_WRITE)) <$> selected) pages).

(** The range of the image: its lowest page and its size in whole pages. *)
Definition image_range (loads : list ProgramHeader) (page_size : Z) : result (Z * Z) LoadError :=
  match loads with
  | [] => Err (Format "no PT_LOAD segments")
  | first :: _ =>
      let minimum := page_floor page_size (virtual_address first) in
      let? maximum_unaligned := ok_or (maximum_end loads) (Bounds "PT_LOAD maximum overflow") in
      let? maximum := ok_or (page_ceil page_size maximum_unaligned) (Bounds "image page rounding overflow") in
      let? size := difference_to_usize maximum minimum in
      if (size =? 0) || (MAX_IMAGE_SIZE <? size) then Err (Bounds "image reservation size")
      else Ok (minimum, size)
  end.

(** The segments of the file, sorted, with the checks that need no page size. *)
Definition parse_segments (bs : bytes) (metadata_only : bool) : result (Scan * list ProgramHeader * ProgramHeader) LoadError :=
  let? (program_offset, program_count) := parse_file_header bs in
  let? s := scan_headers bs metadata_only program_offset 0 (Z.to_nat program_count) empty_scan in
  if bool_decide (sloads s = []) then Err (Format "no PT_LOAD segments")
  else
    let loads := merge_sort address_le (sloads s) in
    let? _ := check_windows loads in
    let? _ := match stls s with Some header => validate_tls_segment bs header loads | None => Ok tt end in
    let? dynamic := ok_or (sdynamic s) (Format "missing PT_DYNAMIC") in
    let? _ := validate_dynamic_segment bs dynamic loads in
    Ok (s, loads, dynamic).

(** Whether the 4 KiB layout applies: the effective request, and its two refusals. *)
Definition effective_compat (appcompat_16kb : option bool) (page_size alignment : Z) : bool :=
  bool_decide (appcompat_16kb = Some true) && (page_size =? 16 * 1024) && (alignment =? ANDROID_COMPAT_PAGE_SIZE).

Definition compat_requested (appcompat_16kb : option bool) (effective overlap : bool) : bool :=
  match appcompat_16kb with
  | Some true => effective
  | Some false => false
  | None => overlap
  end.

Definition parse_image_with_policy_and_appcompat (host_page_size : Z) (bs : bytes) (metadata_only : bool)
    (appcompat_16kb : option bool) : result ParsedImage LoadError :=
  let? (s, loads, dynamic) := parse_segments bs metadata_only in
  let? page_size := checked_page_size host_page_size in
  let alignment := minimum_alignment loads page_size in
  let effective := effective_compat appcompat_16kb page_size alignment in
  if present appcompat_16kb && (16 * 1024 <=? page_size) && (alignment <? page_size) && negb effective
  then Err (Protection "program alignment is smaller than system page size without effective 16KiB app compat")
  else
    let? (minimum, image_size) := image_range loads page_size in
    let? (pages, overlap) :=
      plan_pages page_size minimum loads (replicate (Z.to_nat (image_size / page_size)) PROT_NONE) false in
    if present appcompat_16kb && overlap && negb effective
    then Err (Protection "host page permission overlap requires effective 16KiB app compat")
    else
      let? svc_count := count_direct_syscalls bs loads 0 in
      let? direct_syscall_pages := DirectSyscall.veneer_page_count svc_count page_size in
      let? (image_offset, reserved, boundary, pages) :=
        if compat_requested appcompat_16kb effective overlap then
          let? (image_offset, reserved, boundary, pages) :=
            compat_plan loads (srelro s) (rw_headers_adjacent s) page_size minimum image_size in
          Ok (image_offset, reserved, Some boundary, pages)
        else Ok (0, image_size, None, pages) in
      let? shim_offset := ok_or (checked_add usize_max reserved page_size)
                                (Bounds "direct-syscall shim offset overflow") in
      let? shim_size := ok_or (checked_mul usize_max page_size (Z.max direct_syscall_pages 1))
                              (Bounds "direct-syscall page reservation overflow") in
      let? extra := ok_or (checked_add usize_max page_size shim_size)
                          (Bounds "compatibility page reservation size overflow") in
      let? total := ok_or (checked_add usize_max reserved extra)
                          (Bounds "compatibility page reservation size overflow") in
      let pages := pages ++ [PROT_READ] ++
                   replicate (Z.to_nat (Z.max direct_syscall_pages 1)) (Z.lor PROT_READ PROT_EXEC) in
      let? pages := match srelro s with
                    | Some relro => protect_relro relro loads page_size minimum (present boundary) pages
                    | None => Ok pages
                    end in
      Ok {| loads := loads; dynamic := dynamic; tls := stls s; minimum_page := minimum; image_size := image_size;
            reservation_size := total; image_offset := image_offset; compat_layout := present boundary;
            stack_guard_offset := reserved; direct_syscall_shim_offset := shim_offset;
            direct_syscall_shim_size := shim_size; page_size := page_size; page_protections := pages |}.

Definition parse_image (host_page_size : Z) (bs : bytes) : result ParsedImage LoadError :=
  parse_image_with_policy_and_appcompat host_page_size bs false None.

(** ** Lemmas: segments *)

Definition header_ok (h : ProgramHeader) : Prop :=
  u32_range (kind h) /\ u32_range (pflags h) /\ u64_range (offset h) /\ u64_range (virtual_address h) /\
  u64_range (file_size h) /\ u64_range (memory_size h) /\ u64_range (alignment h).

(** What [validate_load] establishes. *)
Record load_ok (bs : bytes) (l : ProgramHeader) : Prop := {
  load_header : header_ok l;
  load_memory : 0 < memory_size l;
  load_file : file_size l <= memory_size l;
  load_flags : 0 <= pflags l < 8;
  load_wx : has (pflags l) PF_W && has (pflags l) PF_X = false;
  load_in_file : offset l + file_size l <= len bs;
  load_in_memory : virtual_address l + memory_size l <= u64_max }.

Lemma read_header_ok bs at_ h : read_header bs at_ = Ok h -> header_ok h.
Proof.
  unfold read_header. intros H. ok_inv H. simplify_eq.
  repeat match goal with
         | E : read_u32 _ _ = Ok _ |- _ => apply read_u32_range in E
         | E : read_u64 _ _ = Ok _ |- _ => apply read_u64_range in E
         end.
  done.
Qed.

Lemma flags_small f : u32_range f -> Z.land f (u32_max - 7) = 0 -> 0 <= f < 8.
Proof.
  intros Hf E. unfold u32_range, u32_max in *. pose proof (Z.div_mod f 8). pose proof (Z.mod_pos_bound f 8 eq_refl).
  replace f with (f mod 8 + f / 8 * 2 ^ 3) in E by lia.
  change (2 ^ 32 - 1 - 7) with (0 + (2 ^ 29 - 1) * 2 ^ 3) in E. rewrite land_split in E by lia.
  rewrite Z.land_0_r, land_ones_low, Z.mod_small in E by (try split; mod_lia). mod_lia.
Qed.

Lemma segment_end_Some h e :
  segment_end h = Some e <-> e = virtual_address h + memory_size h /\ virtual_address h + memory_size h <= u64_max.
Proof. apply checked_add_Some. Qed.

Lemma validate_load_ok bs l : header_ok l -> validate_load bs l = Ok tt -> load_ok bs l.
Proof.
  intros Hh H. pose proof Hh as (_ & Hf & Ho & Hv & Hfs & Hms & _).
  unfold validate_load, to_usize in H. unfold u64_range in *.
  destruct (Z.eqb_spec (memory_size l) 0); [done|]. destruct (Z.ltb_spec (memory_size l) (file_size l)); [done|].
  destruct (Z.eqb_spec (Z.land (pflags l) (u32_max - (PF_R + PF_W + PF_X))) 0) as [Efl|]; [simpl in H|done].
  destruct (has (pflags l) PF_W && has (pflags l) PF_X) eqn:Ewx; [done|]. case_match; [done|].
  destruct (checked_slice bs (offset l) (file_size l) _) as [r|] eqn:Es; [|done].
  apply checked_slice_Ok in Es as (? & ? & _); [|lia..].
  destruct (segment_end l) as [e|] eqn:Ee; [|done]. apply segment_end_Some in Ee as [_ ?].
  constructor; try done; try lia. by apply flags_small.
Qed.

Definition scan_ok (bs : bytes) (s : Scan) : Prop :=
  Forall (load_ok bs) (sloads s) /\ (forall h, sdynamic s = Some h -> header_ok h) /\
  (forall h, srelro s = Some h -> header_ok h) /\ (forall h, stls s = Some h -> header_ok h).

Lemma scan_header_ok bs metadata_only index s h s' :
  scan_ok bs s -> header_ok h -> scan_header bs metadata_only index s h = Ok s' -> scan_ok bs s'.
Proof.
  intros (Hl & Hd & Hr & Ht) Hh. unfold scan_header.
  destruct (kind h =? PT_LOAD).
  { destruct (validate_load bs h) as [[]|] eqn:E; [|done]. apply validate_load_ok in E; [|done]. intros [= <-].
    split_and!; try done. apply Forall_app. by split; [|constructor]. }
  destruct (kind h =? PT_DYNAMIC); [case_match; [done|]; intros [= <-]; split_and!; try done; naive_solver|].
  destruct (kind h =? PT_TLS); [case_match; [done|]; intros [= <-]; split_and!; try done; naive_solver|].
  destruct ((kind h =? PT_GNU_RELRO) && negb metadata_only);
    [case_match; [done|]; intros [= <-]; split_and!; try done; naive_solver|].
  by intros [= <-].
Qed.

Lemma scan_headers_ok bs metadata_only at_ index n s s' :
  scan_ok bs s -> scan_headers bs metadata_only at_ index n s = Ok s' -> scan_ok bs s'.
Proof.
  revert index s. induction n as [|n IH]; intros index s Hs; simpl; [by intros [= <-]|].
  destruct (read_header _ _) as [h|] eqn:Eh; [|done]. apply read_header_ok in Eh.
  destruct (scan_header _ _ _ _ _) as [s1|] eqn:E1; [|done]. apply IH. by eapply scan_header_ok.
Qed.

(** One load lies wholly below another. *)
Definition before (a b : ProgramHeader) : Prop := virtual_address a + memory_size a <= virtual_address b.

Lemma check_windows_sorted bs loads :
  Forall (load_ok bs) loads -> check_windows loads = Ok tt -> StronglySorted before loads.
Proof.
  induction loads as [|a loads IH]; intros Hl Hw; [constructor|].
  apply Forall_cons in Hl as [Ha Hl]. destruct loads as [|b loads]; [by repeat constructor|]. cbn [check_windows] in Hw.
  destruct (segment_end a) as [e|] eqn:E; simpl in Hw; [|done]. apply segment_end_Some in E as [-> _].
  destruct (Z.ltb_spec (virtual_address b) (virtual_address a + memory_size a)); [done|].
  specialize (IH Hl Hw). constructor; [done|]. apply StronglySorted_inv in IH as [_ Hb].
  apply Forall_cons in Hl as [[] _]. constructor; [done|]. eapply Forall_impl; [exact Hb|]. unfold before. intros; lia.
Qed.

Lemma parse_segments_ok bs metadata_only s loads dynamic :
  parse_segments bs metadata_only = Ok (s, loads, dynamic) ->
  scan_ok bs s /\ Forall (load_ok bs) loads /\ loads <> [] /\ StronglySorted before loads.
Proof.
  unfold parse_segments. destruct (parse_file_header bs) as [[at_ n]|]; [|done].
  destruct (scan_headers _ _ _ _ _ _) as [s'|] eqn:Es; [|done].
  apply scan_headers_ok in Es; [|by repeat split; simpl]. case_bool_decide as Hne; [done|]. intros H. ok_inv H. simplify_eq.
  assert (Forall (load_ok bs) (merge_sort address_le (sloads s))) as Hl.
  { rewrite merge_sort_Permutation. apply Es. }
  split_and!; [done|done| |repeat match goal with x : unit |- _ => destruct x end; by eapply check_windows_sorted].
  intros Enil. apply Hne. apply Permutation_nil. rewrite <- Enil. apply merge_sort_Permutation.
Qed.

(** ** Lemmas: pages *)

(** The pages a host can have: [getpagesize] is a positive [c_int]. *)
Definition page_ok (ps : Z) : Prop := exists k, 0 <= k <= 30 /\ ps = 2 ^ k.

Lemma checked_page_size_ok host ps : i32_range host -> checked_page_size host = Ok ps -> page_ok ps.
Proof.
  intros Hh. unfold checked_page_size. destruct (Z.leb_spec 0 host); [|done]. simpl.
  destruct (is_power_of_two host) eqn:E; [|done]. intros [= <-].
  apply is_power_of_two_spec in E as [Hpos E]. exists (Z.log2 host). split; [|done].
  split; [apply Z.log2_nonneg|]. unfold i32_range, i32_max in Hh.
  assert (Z.log2 host < 31); [|lia]. apply Z.log2_lt_pow2; lia.
Qed.

Lemma page_ok_bound ps : page_ok ps -> 1 <= ps <= 2 ^ 30.
Proof.
  intros (k & ? & ->). pose proof (Z.pow_pos_nonneg 2 k). pose proof (Z.pow_le_mono_r 2 k 30). lia.
Qed.

Lemma page_floor_spec ps a : page_ok ps -> u64_range a -> page_floor ps a = a - a mod ps.
Proof. intros (k & ? & ->) Ha. apply land_not64; [done|lia]. Qed.

Lemma page_floor_bound ps a :
  page_ok ps -> u64_range a -> page_floor ps a <= a < page_floor ps a + ps /\ page_floor ps a mod ps = 0 /\ 0 <= page_floor ps a.
Proof.
  intros Hp Ha. pose proof (page_ok_bound ps Hp). rewrite page_floor_spec by done.
  pose proof (Z.mod_pos_bound a ps ltac:(lia)). unfold u64_range in Ha.
  split_and!; [lia..| |].
  - rewrite Zminus_mod_idemp_r, Z.sub_diag. done.
  - pose proof (Z.mod_le a ps). lia.
Qed.

Lemma page_ceil_Some ps a c :
  page_ok ps -> 0 <= a -> page_ceil ps a = Some c -> a <= c < a + ps /\ c mod ps = 0 /\ c <= u64_max.
Proof.
  intros Hp Ha. pose proof (page_ok_bound ps Hp). unfold page_ceil.
  destruct (checked_add u64_max a (ps - 1)) as [v|] eqn:E; simpl; [|done]. apply checked_add_Some in E as [-> Hv].
  intros [= <-]. destruct (page_floor_bound ps (a + (ps - 1)) Hp) as (? & ? & ?); [unfold u64_range; lia|].
  split_and!; [lia..|done|lia].
Qed.

(** Between two multiples of the page size. *)
Lemma page_index_le ps a b : 0 < ps -> a mod ps = 0 -> b mod ps = 0 -> a <= b -> a / ps <= b / ps.
Proof. intros. apply Z.div_le_mono; lia. Qed.

Lemma get_range_update {A} (l sel : list A) a b (f : A -> A) :
  get_range l a b = Some sel ->
  length (copy_at (Z.to_nat a) (f <$> sel) l) = length l /\
  forall k, copy_at (Z.to_nat a) (f <$> sel) l !! k =
            if decide (a <= Z.of_nat k < b) then f <$> l !! k else l !! k.
Proof.
  intros G. pose proof (length_get_range _ _ _ _ G) as Hlen. apply get_range_Some in G as (? & ? & ->).
  unfold len in *.
  assert (Z.to_nat a + length (f <$> take (Z.to_nat (b - a)) (drop (Z.to_nat a) l)) <= length l)%nat
    by (rewrite length_fmap; lia).
  split; [by apply length_copy_at|]. intros k. rewrite lookup_copy_at by done. rewrite length_fmap.
  destruct (Nat.ltb_spec k (Z.to_nat a)), (Nat.ltb_spec k (Z.to_nat a + length (take (Z.to_nat (b - a)) (drop (Z.to_nat a) l)))),
    (decide (a <= Z.of_nat k < b)); try lia; try done.
  rewrite list_lookup_fmap, lookup_take_lt, lookup_drop by lia. by replace (Z.to_nat a + (k - Z.to_nat a))%nat with k by lia.
Qed.

(** ** Lemmas: the range of the image *)

Lemma foldr_max_le l x : x ∈ l -> x <= foldr Z.max 0 l.
Proof. induction 1; simpl; lia. Qed.

Lemma maximum_end_le bs loads m l :
  Forall (load_ok bs) loads -> maximum_end loads = Some m -> l ∈ loads -> virtual_address l + memory_size l <= m.
Proof.
  intros Hl. unfold maximum_end. destruct (mapM segment_end loads) as [ends|] eqn:E; simpl; [|done].
  intros [= <-] Hin. apply foldr_max_le. apply mapM_Some in E.
  apply list_elem_of_lookup in Hin as [i Hi]. eapply Forall2_lookup_l in E as (e & He & Es); [|done].
  apply segment_end_Some in Es as [<- _]. by eapply list_elem_of_lookup_2.
Qed.

Lemma sorted_first bs first loads l :
  Forall (load_ok bs) (first :: loads) -> StronglySorted before (first :: loads) -> l ∈ first :: loads ->
  virtual_address first <= virtual_address l.
Proof.
  intros [[] _]%Forall_cons [_ Hf]%StronglySorted_inv [->|Hin]%elem_of_cons; [done|].
  rewrite Forall_forall in Hf. specialize (Hf _ Hin). unfold before in Hf. lia.
Qed.

(** The image covers its loads with whole pages. *)
Definition image_ok (ps minimum size : Z) (loads : list ProgramHeader) : Prop :=
  0 <= minimum /\ minimum mod ps = 0 /\ 0 < size <= MAX_IMAGE_SIZE /\ size mod ps = 0 /\ minimum + size <= u64_max /\
  forall l, l ∈ loads -> minimum <= virtual_address l /\ virtual_address l + memory_size l <= minimum + size.

Lemma image_range_ok bs loads ps minimum size :
  page_ok ps -> Forall (load_ok bs) loads -> StronglySorted before loads ->
  image_range loads ps = Ok (minimum, size) -> image_ok ps minimum size loads.
Proof.
  intros Hp Hl Hs. pose proof (page_ok_bound ps Hp). unfold image_range. destruct loads as [|first loads]; [done|].
  destruct (maximum_end (first :: loads)) as [m|] eqn:Em; simpl; [|done].
  destruct (page_ceil ps m) as [c|] eqn:Ec; simpl; [|done].
  pose proof Hl as [Hf _]%Forall_cons. pose proof Hf as [(_ & _ & _ & Hv & _ & Hms & _) ? _ _ _ _ _].
  destruct (page_floor_bound ps (virtual_address first) Hp Hv) as (Hfl & Hfm & Hf0).
  pose proof (maximum_end_le _ _ _ first Hl Em ltac:(by constructor)) as Hm. unfold u64_range in *.
  destruct (page_ceil_Some ps m c Hp ltac:(lia) Ec) as (Hc & Hcm & ?).
  unfold difference_to_usize, to_usize. destruct (checked_sub c _) as [d|] eqn:Ed; simpl; [|done].
  apply checked_sub_Some in Ed as [-> ?].
  destruct (Z.eqb_spec (c - page_floor ps (virtual_address first)) 0),
    (Z.ltb_spec MAX_IMAGE_SIZE (c - page_floor ps (virtual_address first))); simpl; try done.
  intros [= <- <-]. split_and!; [lia|done|lia|lia| |lia|].
  - rewrite Zminus_mod, Hcm, Hfm. done.
  - intros l Hin. pose proof (sorted_first _ _ _ _ Hl Hs Hin). pose proof (maximum_end_le _ _ _ _ Hl Em Hin). lia.
Qed.

(** ** Lemmas: the protections of the pages *)

(** The host page with index [k] shares an address with a load. *)
Definition touches (ps minimum : Z) (l : ProgramHeader) (k : nat) : Prop :=
  virtual_address l < minimum + (Z.of_nat k + 1) * ps /\ minimum + Z.of_nat k * ps < virtual_address l + memory_size l.
#[export] Instance touches_dec ps minimum l k : Decision (touches ps minimum l k).
Proof. unfold touches. apply _. Defined.

(** Page indices of rounded addresses. *)
Lemma index_le ps m va fa qa k :
  0 < ps -> fa - m = qa * ps -> fa <= va < fa + ps -> (qa <= k <-> va < m + (k + 1) * ps).
Proof.
  intros Hp E Hf. split.
  - intros Hk. pose proof (Z.mul_le_mono_nonneg_r qa k ps). lia.
  - intros Hva. destruct (Z.le_gt_cases qa k) as [|Hgt]; [done|].
    pose proof (Z.mul_le_mono_nonneg_r (k + 1) qa ps). lia.
Qed.

Lemma index_lt ps m e c qc k :
  0 < ps -> c - m = qc * ps -> e <= c < e + ps -> (k < qc <-> m + k * ps < e).
Proof.
  intros Hp E Hc. split.
  - intros Hk. pose proof (Z.mul_le_mono_nonneg_r (k + 1) qc ps). lia.
  - intros He. destruct (Z.le_gt_cases qc k) as [Hle|]; [|done].
    pose proof (Z.mul_le_mono_nonneg_r qc k ps). lia.
Qed.

Lemma page_span_ok bs ps minimum size l a b :
  page_ok ps -> load_ok bs l -> 0 <= minimum -> minimum mod ps = 0 -> size mod ps = 0 ->
  minimum <= virtual_address l -> virtual_address l + memory_size l <= minimum + size ->
  page_span ps minimum l = Ok (a, b) ->
  0 <= a < b /\ b <= size / ps /\ forall k, a <= Z.of_nat k < b <-> touches ps minimum l k.
Proof.
  intros Hp [(_ & _ & _ & Hv & _ & Hms & _) ? _ _ _ _ ?] Hm Hmm Hsm Hlo Hhi. pose proof (page_ok_bound ps Hp).
  unfold page_span. destruct (page_floor_bound ps (virtual_address l) Hp Hv) as (Hfl & Hfm & Hf0).
  unfold difference_to_usize, to_usize. destruct (checked_sub (page_floor ps _) minimum) as [da|] eqn:Ea; simpl; [|done].
  apply checked_sub_Some in Ea as [-> ?]. destruct (segment_end l) as [e|] eqn:Ee; simpl; [|done].
  apply segment_end_Some in Ee as [-> _]. destruct (page_ceil ps _) as [c|] eqn:Ec; simpl; [|done].
  unfold u64_range in *. destruct (page_ceil_Some ps (virtual_address l + memory_size l) c Hp ltac:(lia) Ec) as (Hc & Hcm & _).
  destruct (checked_sub c minimum) as [db|] eqn:Eb; simpl; [|done]. apply checked_sub_Some in Eb as [-> ?].
  intros [= <- <-]. set (fa := page_floor ps (virtual_address l)) in *.
  assert ((fa - minimum) mod ps = 0) as Ham by (rewrite Zminus_mod, Hfm, Hmm; done).
  assert ((c - minimum) mod ps = 0) as Hbm by (rewrite Zminus_mod, Hcm, Hmm; done).
  apply Z.mod_divide in Ham as [qa Ea]; [|lia]. apply Z.mod_divide in Hbm as [qc Ec']; [|lia].
  apply Z.mod_divide in Hsm as [qs Es]; [|lia]. rewrite Ea, Ec', Es, !Z.div_mul by lia.
  assert (forall k, qa <= k < qc <-> virtual_address l < minimum + (k + 1) * ps /\
                                     minimum + k * ps < virtual_address l + memory_size l) as Ht.
  { intros k. by rewrite <- (index_le ps minimum _ fa qa), <- (index_lt ps minimum _ c qc) by (done || lia). }
  split_and!.
  - destruct (Z.le_gt_cases 0 qa) as [|Hneg]; [done|]. pose proof (Z.mul_lt_mono_pos_r ps qa 0). lia.
  - destruct (Z.le_gt_cases qc qa) as [Hle|]; [|done]. pose proof (Z.mul_le_mono_nonneg_r qc qa ps). lia.
  - destruct (Z.le_gt_cases qc qs) as [|Hgt]; [done|]. pose proof (Z.mul_le_mono_nonneg_r (qs + 1) qc ps). lia.
  - intros k. unfold touches. apply Ht.
Qed.

(** The protection of a page, from the loads that touch it. *)
Definition page_protection (ps minimum : Z) (loads : list ProgramHeader) (k : nat) (p : Z) : Z :=
  foldl (fun p l => if decide (touches ps minimum l k) then Z.lor p (elf_flags_to_protection (pflags l)) else p) p loads.

Lemma plan_pages_exact bs ps minimum size loads pages o pages' o' :
  page_ok ps -> Forall (load_ok bs) loads -> image_ok ps minimum size loads ->
  plan_pages ps minimum loads pages o = Ok (pages', o') ->
  length pages' = length pages /\
  (forall k p, pages !! k = Some p -> pages' !! k = Some (page_protection ps minimum loads k p)) /\
  (o' = false -> o = false /\ (Forall (fun p => writable_executable p = false) pages ->
                              Forall (fun p => writable_executable p = false) pages')).
Proof.
  intros Hp. revert pages o. induction loads as [|l loads IH]; intros pages o Hl Hi; simpl.
  { intros [= <- <-]. by split_and!. }
  apply Forall_cons in Hl as [Hl Hls]. destruct Hi as (? & ? & ? & ? & ? & Hin).
  destruct (page_span ps minimum l) as [[a b]|] eqn:Es; [|done].
  apply (page_span_ok bs ps minimum size) in Es as (? & ? & Ht); try done; try by apply Hin; constructor.
  destruct (get_range pages a b) as [sel|] eqn:G; simpl; [|done]. intros Hplan.
  destruct (get_range_update pages sel a b (fun page => Z.lor page (elf_flags_to_protection (pflags l))) G) as [Hlen Hk].
  set (pages1 := copy_at _ _ pages) in *. apply IH in Hplan as (Hlen' & Hpages & Hwx); [|done|].
  2: { split_and!; try done; try lia. intros l' Hl'. apply Hin. by constructor. }
  split_and!; [lia| |].
  - intros k p Hkp. rewrite (Hpages k (if decide (a <= Z.of_nat k < b) then Z.lor p (elf_flags_to_protection (pflags l)) else p)).
    + do 2 f_equal. destruct (decide (a <= Z.of_nat k < b)) as [Hab|Hab]; rewrite Ht in Hab;
        [by rewrite decide_True|by rewrite decide_False].
    + rewrite Hk, Hkp. by case_decide.
  - intros Ho. destruct (Hwx Ho) as [[-> He]%orb_false_iff Hpages']. split; [done|]. intros Hold. apply Hpages'.
    subst pages1. rewrite copy_at_def. apply Forall_app. split; [by apply Forall_take|].
    apply Forall_app. split; [|by apply Forall_drop]. apply Forall_forall. intros p Hin'.
    rewrite <- not_true_iff_false in He |- *. intros Hp'. apply He. apply existsb_exists.
    exists p. split; [by apply list_elem_of_In|done].
Qed.

(** ** Lemmas: the other parts of the plan *)

Lemma count_direct_syscalls_mono bs loads total n :
  count_direct_syscalls bs loads total = Ok n -> total <= n.
Proof.
  revert total. induction loads as [|l loads IH]; intros total; simpl; [intros [= <-]; done|].
  case_match; [by apply IH|]. unfold to_usize. destruct (checked_slice _ _ _ _) as [code|]; [|done].
  destruct (checked_add _ _ _) as [t|] eqn:Et; simpl; [|done]. apply checked_add_Some in Et as [-> ?].
  intros H'%IH. unfold DirectSyscall.count_linux_svc in H'.
  pose proof (len_nonneg (filter (fun w => w = DirectSyscall.LINUX_SVC_ZERO) (DirectSyscall.words code))). lia.
Qed.

(** The veneer pages hold a veneer for each counted instruction. *)
Lemma veneer_page_count_ok c ps n :
  page_ok ps -> 0 <= c -> DirectSyscall.veneer_page_count c ps = Ok n ->
  0 <= n /\ c * DirectSyscall.DIRECT_SYSCALL_VENEER_BYTES <= n * ps.
Proof.
  intros Hp Hc. pose proof (page_ok_bound ps Hp). unfold DirectSyscall.veneer_page_count. case_match; [done|].
  unfold DirectSyscall.DIRECT_SYSCALL_VENEER_BYTES.
  destruct (checked_mul _ _ _) as [b|] eqn:Eb; simpl; [|done]. apply checked_mul_Some in Eb as [-> _].
  destruct (checked_add _ _ _) as [t|] eqn:Et; simpl; [|done]. apply checked_add_Some in Et as [-> _].
  intros [= <-]. split; [apply Z.div_pos; lia|].
  pose proof (Z.div_mod (c * 512 + (ps - 1)) ps ltac:(lia)). pose proof (Z.mod_pos_bound (c * 512 + (ps - 1)) ps ltac:(lia)).
  lia.
Qed.

Lemma protect_relro_ok relro loads ps minimum compat pages pages' :
  protect_relro relro loads ps minimum compat pages = Ok pages' ->
  length pages' = length pages /\
  (Forall (fun p => writable_executable p = false) pages -> Forall (fun p => writable_executable p = false) pages') /\
  forall k p, pages !! k = Some p -> pages' !! k = Some p \/ pages' !! k = Some (Z.land p (Z.lnot PROT_WRITE)).
Proof.
  unfold protect_relro. case_match; [done|]. intros H'.
  destruct (ok_or (segment_end relro) _) as [e|]; [|done]. destruct (relro_covered_by_load_pages _ _ _ _) as [covered|]; [|done].
  case_match; [done|]. destruct compat; [simplify_eq; by split_and!; auto|].
  destruct (difference_to_usize _ _) as [a|]; [|done]. destruct (ok_or (page_ceil ps e) _) as [ea|]; [|done].
  destruct (difference_to_usize _ _) as [b|]; [|done].
  destruct (get_range pages _ _) as [sel|] eqn:G; simpl in H'; [|done]. case_match; [done|]. simplify_eq.
  destruct (get_range_update pages sel _ _ (fun p => Z.land p (Z.lnot PROT_WRITE)) G) as [Hlen Hk]. split_and!; [done| |].
  - rewrite !Forall_lookup. intros Hwx k p. rewrite Hk. case_decide; [|apply Hwx].
    destruct (pages !! k) as [p0|] eqn:E0; simpl; [|done]. intros [= <-]. specialize (Hwx _ _ E0).
    unfold writable_executable, has in *. change PROT_WRITE with 2 in *.
    replace (Z.land (Z.land p0 (Z.lnot 2)) 2) with 0; [done|].
    rewrite <- Z.land_assoc, (Z.land_comm (Z.lnot 2)), Z.land_lnot_diag, Z.land_0_r. done.
  - intros k p Hp. rewrite Hk, Hp. case_decide; auto.
Qed.

Definition no_wx (pages : list Z) : Prop := Forall (fun p => writable_executable p = false) pages.

Lemma compat_plan_ok loads relro adjacent ps minimum size off res boundary pages :
  page_ok ps -> 0 <= size -> compat_plan loads relro adjacent ps minimum size = Ok (off, res, boundary, pages) ->
  0 <= off /\ off + size <= res /\ res mod ps = 0 /\ len pages * ps = res /\ no_wx pages.
Proof.
  intros Hp Hs. pose proof (page_ok_bound ps Hp). unfold compat_plan. destruct adjacent; [simpl|done].
  destruct (rx_rw_compat_boundary _ _ _) as [found|]; [|done]. destruct found as [b|]; simpl; [|done].
  destruct (difference_to_usize _ _) as [d|]; [|done]. cbv zeta.
  set (off' := if d mod ps =? 0 then 0 else ps - d mod ps).
  assert (0 <= off') by (subst off'; pose proof (Z.mod_pos_bound d ps ltac:(lia)); case_match; lia).
  destruct (checked_add usize_max off' d) as [sb|]; simpl; [|done]. case_match; [done|].
  destruct (checked_add usize_max off' size) as [total|] eqn:Et; simpl; [|done]. apply checked_add_Some in Et as [-> _].
  destruct (page_ceil ps _) as [c|] eqn:Ec; simpl; [|done].
  destruct (page_ceil_Some ps (off' + size) c Hp ltac:(lia) Ec) as (Hc & Hcm & _). intros [= <- <- <- <-].
  assert (c = c / ps * ps) as Hcq by (rewrite Z.mul_comm; apply Z.div_exact; [lia|done]).
  assert (0 <= c / ps) by (apply Z.div_pos; lia).
  split_and!; [done|lia|done| |].
  - unfold len. rewrite length_app, !length_replicate.
    replace (Z.to_nat (sb / ps) `min` Z.to_nat (c / ps) + (Z.to_nat (c / ps) - Z.to_nat (sb / ps)))%nat
      with (Z.to_nat (c / ps)) by lia. rewrite Z2Nat.id; lia.
  - apply Forall_app. split; by apply Forall_replicate.
Qed.

(** What a parsed plan satisfies. *)
Record plan_ok (bs : bytes) (plan : ParsedImage) : Prop := {
  plan_page : page_ok (page_size plan);
  plan_loads : Forall (load_ok bs) (loads plan);
  plan_sorted : StronglySorted before (loads plan);
  plan_image : image_ok (page_size plan) (minimum_page plan) (image_size plan) (loads plan);
  plan_offset : 0 <= image_offset plan;
  plan_inside : image_offset plan + image_size plan <= stack_guard_offset plan;
  plan_guard : stack_guard_offset plan mod page_size plan = 0;
  plan_shim : direct_syscall_shim_offset plan = stack_guard_offset plan + page_size plan;
  plan_end : direct_syscall_shim_offset plan + direct_syscall_shim_size plan = reservation_size plan;
  plan_reservation : reservation_size plan <= usize_max;
  plan_pages_length : len (page_protections plan) * page_size plan = reservation_size plan;
  plan_wx : no_wx (page_protections plan);
  plan_veneers : exists n, count_direct_syscalls bs (loads plan) 0 = Ok n /\
                   n * DirectSyscall.DIRECT_SYSCALL_VENEER_BYTES <= direct_syscall_shim_size plan;
  plan_plain : compat_layout plan = false ->
    image_offset plan = 0 /\ stack_guard_offset plan = image_size plan /\
    forall k, Z.of_nat k < image_size plan / page_size plan ->
      let p := page_protection (page_size plan) (minimum_page plan) (loads plan) k PROT_NONE in
      page_protections plan !! k = Some p \/ page_protections plan !! k = Some (Z.land p (Z.lnot PROT_WRITE)) }.

(** The layout of the image part, whichever it is. *)
Lemma image_part_ok appcompat effective overlap (s : Scan) (loads : list ProgramHeader) ps minimum size pages off res boundary pages' :
  page_ok ps -> 0 <= size -> size mod ps = 0 -> len pages * ps = size ->
  (overlap = false -> no_wx pages) ->
  (present appcompat && overlap && negb effective = false) ->
  (appcompat = Some false -> effective = false) ->
  (if compat_requested appcompat effective overlap then
     let? (image_offset, reserved, boundary, pages) :=
       compat_plan loads (srelro s) (rw_headers_adjacent s) ps minimum size in
     Ok (image_offset, reserved, Some boundary, pages)
   else Ok (0, size, None, pages)) = Ok (off, res, boundary, pages') ->
  0 <= off /\ off + size <= res /\ res mod ps = 0 /\ len pages' * ps = res /\ no_wx pages' /\
  (boundary = None -> off = 0 /\ res = size /\ pages' = pages).
Proof.
  intros Hp Hs Hm Hlen Hwx Hov Heff. destruct (compat_requested appcompat effective overlap) eqn:Ereq.
  - destruct (compat_plan _ _ _ _ _ _) as [[[[o r] b] pg]|] eqn:E; [|done]. intros [= <- <- <- <-].
    apply compat_plan_ok in E as (? & ? & ? & ? & ?); [|done..]. by split_and!.
  - intros [= <- <- <- <-]. split_and!; try done; try lia. apply Hwx.
    destruct appcompat as [[]|], effective, overlap; simpl in *; try done. by specialize (Heff eq_refl).
Qed.

Lemma parse_image_ok host bs metadata_only appcompat plan :
  i32_range host -> parse_image_with_policy_and_appcompat host bs metadata_only appcompat = Ok plan -> plan_ok bs plan.
Proof.
  intros Hhost. unfold parse_image_with_policy_and_appcompat.
  destruct (parse_segments bs metadata_only) as [[[s ls] dyn]|] eqn:Eseg; [|done].
  apply parse_segments_ok in Eseg as (_ & Hl & _ & Hsorted).
  destruct (checked_page_size host) as [ps|] eqn:Eps; [|done]. apply checked_page_size_ok in Eps as Hp; [|done].
  pose proof (page_ok_bound ps Hp). case_match; [done|].
  destruct (image_range ls ps) as [[minimum size]|] eqn:Eim; [|done].
  eapply image_range_ok in Eim as Himage; [|done..]. pose proof Himage as (? & ? & ? & Hsm & ? & _).
  destruct (plan_pages _ _ _ _ _) as [[pages overlap]|] eqn:Epl; [|done].
  eapply plan_pages_exact in Epl as (Hlen & Hexact & Hwx); [|done..]. rewrite length_replicate in Hlen.
  assert (size = size / ps * ps) as Hsq by (rewrite Z.mul_comm; apply Z.div_exact; [lia|done]).
  assert (0 <= size / ps) by (apply Z.div_pos; lia).
  destruct (present appcompat && overlap && negb _) eqn:Eov; [done|].
  destruct (count_direct_syscalls bs ls 0) as [n|] eqn:En; [|done]. apply count_direct_syscalls_mono in En as Hn.
  destruct (DirectSyscall.veneer_page_count n ps) as [vp|] eqn:Ev; [|done]. apply veneer_page_count_ok in Ev as [? ?]; [|done..].
  set (part := if compat_requested _ _ _ then _ else _). destruct part as [[[[off res] boundary] pages1]|] eqn:Epart; [|done].
  apply image_part_ok in Epart as (? & ? & Hrm & Hlen1 & Hwx1 & Hplain); try done; try lia.
  2: { unfold len. rewrite Hlen, Z2Nat.id by lia. lia. }
  2: { intros Ho. apply Hwx; [done|]. by apply Forall_replicate. }
  2: { intros ->. done. }
  destruct (checked_add usize_max res ps) as [so|] eqn:Eso; simpl; [|done]. apply checked_add_Some in Eso as [-> _].
  destruct (checked_mul usize_max ps _) as [ss|] eqn:Ess; simpl; [|done]. apply checked_mul_Some in Ess as [-> _].
  destruct (checked_add usize_max ps _) as [ex|] eqn:Eex; simpl; [|done]. apply checked_add_Some in Eex as [-> _].
  destruct (checked_add usize_max res _) as [tot|] eqn:Etot; simpl; [|done]. apply checked_add_Some in Etot as [-> ?].
  set (pages2 := pages1 ++ _).
  assert (no_wx pages2) as Hwx2.
  { apply Forall_app. split; [done|]. constructor; [done|]. by apply Forall_replicate. }
  assert (len pages2 * ps = res + (ps + ps * Z.max vp 1)) as Hlen2.
  { assert (len pages2 = len pages1 + 1 + Z.max vp 1) as ->; [|lia].
    unfold pages2, len. rewrite length_app. simpl length. rewrite length_replicate. lia. }
  set (final := match srelro s with Some _ => _ | None => _ end). destruct final as [pages3|] eqn:Efin; [|done].
  assert (length pages3 = length pages2 /\ no_wx pages3 /\
    forall k p, pages2 !! k = Some p -> pages3 !! k = Some p \/ pages3 !! k = Some (Z.land p (Z.lnot PROT_WRITE)))
    as (Hlen3 & Hwx3 & Hk3).
  { destruct (srelro s); subst final; [|simplify_eq; by split_and!; auto].
    apply protect_relro_ok in Efin as (? & Hw & ?). split_and!; [done|by apply Hw|done]. }
  intros [= <-]. constructor; simpl; try done; try lia.
  - unfold len in *. by rewrite Hlen3.
  - exists n. split; [done|]. lia.
  - intros Hb. destruct boundary; [done|]. destruct (Hplain eq_refl) as (-> & -> & ->). split_and!; [done..|].
    intros k Hk. apply Hk3. unfold pages2. rewrite lookup_app_l by (rewrite Hlen; lia). apply Hexact.
    apply lookup_replicate. split; [done|lia].
Qed.

(** C26: no plan has a page that is both writable and executable, whatever the file, the page size
    of the host and the compatibility policy. *)
Theorem plan_write_xor_execute host bs metadata_only appcompat plan :
  i32_range host -> parse_image_with_policy_and_appcompat host bs metadata_only appcompat = Ok plan ->
  Forall (fun p => has p PROT_WRITE && has p PROT_EXEC = false) (page_protections plan).
Proof. intros Hh H. by apply parse_image_ok in H as []. Qed.

(** C27: the layout of a plan.  The loads are disjoint, in the order of their addresses, backed by
    the file, and inside the image; the image, the guard page and the veneers follow each other in
    the reservation; every host page of the reservation has one protection; there is room for a
    veneer for every system call of the executable loads; and in the plain layout the protection
    of a page of the image is the union of the protections of the loads that touch it, without
    the write permission where the file asks for read-only relocations. *)
Theorem plan_layout host bs metadata_only appcompat plan :
  i32_range host -> parse_image_with_policy_and_appcompat host bs metadata_only appcompat = Ok plan ->
  StronglySorted before (loads plan) /\
  (forall l, l ∈ loads plan ->
    file_size l <= memory_size l /\ offset l + file_size l <= len bs /\
    minimum_page plan <= virtual_address l /\ virtual_address l + memory_size l <= minimum_page plan + image_size plan) /\
  image_offset plan + image_size plan <= stack_guard_offset plan /\
  stack_guard_offset plan mod page_size plan = 0 /\
  direct_syscall_shim_offset plan = stack_guard_offset plan + page_size plan /\
  direct_syscall_shim_offset plan + direct_syscall_shim_size plan = reservation_size plan /\
  len (page_protections plan) * page_size plan = reservation_size plan /\
  (exists n, count_direct_syscalls bs (loads plan) 0 = Ok n /\
     n * DirectSyscall.DIRECT_SYSCALL_VENEER_BYTES <= direct_syscall_shim_size plan) /\
  (compat_layout plan = false -> forall k, Z.of_nat k < image_size plan / page_size plan ->
     let p := page_protection (page_size plan) (minimum_page plan) (loads plan) k PROT_NONE in
     page_protections plan !! k = Some p \/ page_protections plan !! k = Some (Z.land p (Z.lnot PROT_WRITE))).
Proof.
  intros Hh H. apply parse_image_ok in H as [_ Hl Hs Hi _ ? ? ? ? _ ? _ ? Hp]; [|done].
  split_and!; try done; [|by intros (_ & _ & ?)%Hp]. intros l Hin. rewrite Forall_forall in Hl.
  destruct (Hl l Hin) as [_ ? ? _ _ ? _]. destruct Hi as (_ & _ & _ & _ & _ & Hi). destruct (Hi l Hin). by split_and!.
Qed.

(** ** A file

    The image of the source's tests of the 4 KiB layout: code, and data on the same host page. *)

Definition put (bs : bytes) (fields : list (nat * bytes)) : bytes :=
  foldl (fun bs f => copy_at f.1 f.2 bs) bs fields.

Definition elf_header (count : Z) : list (nat * bytes) :=
  [(0%nat, EI_MAG ++ [Byte.x02; Byte.x01; Byte.x01]); (16%nat, u16_le ET_DYN); (18%nat, u16_le EM_AARCH64);
   (20%nat, u32_le EV_CURRENT); (32%nat, u64_le 64); (52%nat, u16_le 64); (54%nat, u16_le 56); (56%nat, u16_le count)].

Definition elf_segment (index : nat) (kind flags file_offset address file_size memory_size alignment : Z)
    : list (nat * bytes) :=
  let at_ := (64 + 56 * index)%nat in
  [(at_, u32_le kind); (at_ + 4, u32_le flags)%nat; (at_ + 8, u64_le file_offset)%nat; (at_ + 16, u64_le address)%nat;
   (at_ + 32, u64_le file_size)%nat; (at_ + 40, u64_le memory_size)%nat; (at_ + 48, u64_le alignment)%nat].

Definition compat_elf : bytes :=
  put (zeroed 0x2300)
    (elf_header 3 ++
     elf_segment 0 PT_LOAD (PF_R + PF_X) 0 0 0x1800 0x1800 4096 ++
     elf_segment 1 PT_LOAD (PF_R + PF_W) 0x2123 0x2123 0x100 0x200 4096 ++
     elf_segment 2 PT_DYNAMIC (PF_R + PF_W) 0x2140 0x2140 96 96 8).

(** At the image on a host with 16 KiB pages, where the plan shifts the image. *)
Lemma plan_write_xor_execute_witness :
  exists plan, parse_image 16384 compat_elf = Ok plan /\ compat_layout plan = true /\ image_offset plan = 0x2000 /\
    Forall (fun p => has p PROT_WRITE && has p PROT_EXEC = false) (page_protections plan).
Proof.
  eexists. split; [vm_compute; reflexivity|]. split; [done|]. split; [done|].
  apply (plan_write_xor_execute 16384 compat_elf false None); [done|]. vm_compute. reflexivity.
Defined.

(** At the image on a host with 4 KiB pages, where the plan is plain. *)
Lemma plan_layout_witness :
  exists plan, parse_image 4096 compat_elf = Ok plan /\ compat_layout plan = false /\
    direct_syscall_shim_offset plan + direct_syscall_shim_size plan = reservation_size plan.
Proof.
  eexists. split; [vm_compute; reflexivity|]. split; [done|].
  apply (plan_layout 4096 compat_elf false None); [done|]. vm_compute. reflexivity.
Defined.
