(* ===== verification/ElfSegments.v ===== *)
(** * Segment loading ([segment_loading.rs], [mapping.rs])

    The reservation of an image is its bytes and the protection the kernel holds for each of its
    host pages.  A copy into a page that is not writable is a fault, the [None] of the copying
    operations; the answers of [mprotect] are a parameter, the error it reports for a call. *)
From S2P Require Import Prelude ElfBase ElfRewrite ElfPlan.
From coqutil Require Import Byte.

Record Reservation : Type := { memory : bytes; protections : list Z }.

(** [Mapping::reserve], when the kernel grants it. *)
Definition reserve (page_size : Z) (length : Z) : Reservation :=
  {| memory := zeroed (Z.to_nat length); protections := replicate (Z.to_nat (length / page_size)) PROT_NONE |}.

(** The effect of [mprotect] on the host pages. *)
Definition set_pages (page_size offset length protection : Z) (pages : list Z) : list Z :=
  imap (fun k p => let at_ := Z.of_nat k * page_size in
                   if (offset <=? at_) && (at_ <? offset + length) then protection else p) pages.

Definition protect (mprotect : Z -> Z -> Z -> option Z) (page_size : Z) (r : Reservation) (offset length protection : Z)
    : result Reservation LoadError :=
  let? end_ := ok_or (checked_add usize_max offset length) (Bounds "mprotect overflow") in
  if len (memory r) <? end_ then Err (Bounds "mprotect outside reservation")
  else match mprotect offset length protection with
       | Some code => Err (System "mprotect(staging)" code)
       | None => Ok {| memory := memory r;
                       protections := set_pages page_size offset length protection (protections r) |}
       end.

(** [ptr::copy_nonoverlapping] and [ptr::write_bytes] into the reservation. *)
Definition writable_span (page_size : Z) (pages : list Z) (start end_ : Z) : bool :=
  forallb (fun k => match pages !! k with Some p => has p PROT_WRITE | None => false end)
    (seq (Z.to_nat (start / page_size)) (Z.to_nat ((end_ - 1) / page_size - start / page_size + 1))).

Definition write_bytes (page_size : Z) (r : Reservation) (start : Z) (data : bytes) : option Reservation :=
  match data with
  | [] => Some r
  | _ =>
      let end_ := start + len data in
      if (0 <=? start) && (end_ <=? len (memory r)) && writable_span page_size (protections r) start end_
      then Some {| memory := copy_at (Z.to_nat start) data (memory r); protections := protections r |}
      else None
  end.

Definition COMPAT_PAGE_SIZE : Z := 4096.

(** The first loop of [populate]: the pages that hold something become writable. *)
Fixpoint stage_pages (mprotect : Z -> Z -> Z -> option Z) (page_size index : Z) (planned : list Z) (r : Reservation)
    : result Reservation LoadError :=
  match planned with
  | [] => Ok r
  | protection :: planned =>
      let? r := if protection =? PROT_NONE then Ok r
                else protect mprotect page_size r (index * page_size) page_size (Z.lor PROT_READ PROT_WRITE) in
      stage_pages mprotect page_size (index + 1) planned r
  end.

(** The checks of the second loop of [populate]: where the load goes, where its copy starts and how
    long the copy is. *)
Definition load_span (plan : ParsedImage) (length : Z) (load : ProgramHeader) : result (Z * Z * Z) LoadError :=
  let? distance := difference_to_usize (virtual_address load) (minimum_page plan) in
  let? destination := ok_or (checked_add usize_max (image_offset plan) distance)
                        (Bounds "PT_LOAD shifted destination overflow") in
  let prefix := if compat_layout plan then offset load mod COMPAT_PAGE_SIZE else 0 in
  if compat_layout plan && negb (destination mod COMPAT_PAGE_SIZE =? prefix)
  then Err (Format "compat PT_LOAD offset/address incongruence") else
  let? start := ok_or (checked_sub destination prefix) (Bounds "compat PT_LOAD prefix outside reservation") in
  let? copy_size := ok_or (checked_add usize_max prefix (file_size load)) (Bounds "PT_LOAD copy size overflow") in
  let? end_ := ok_or (checked_add usize_max destination (memory_size load)) (Bounds "PT_LOAD memory end overflow") in
  if (memory_size load <? file_size load) || (length <? end_) || (end_ <? start)
  then Err (Bounds "PT_LOAD copy outside reservation") else
  let? _ :=
    if start <? end_ then
      let? pages := ok_or (get_range (page_protections plan) (start / page_size plan) ((end_ - 1) / page_size plan + 1))
                      (Bounds "PT_LOAD copy outside page plan") in
      if existsb (Z.eqb PROT_NONE) pages then Err (Protection "PT_LOAD copy touches unmapped page") else Ok tt
    else Ok tt in
  Ok (destination, start, copy_size).

(** The body of the second loop of [populate]. *)
Definition copy_load (plan : ParsedImage) (bs : bytes) (load : ProgramHeader) (r : Reservation)
    : option (result Reservation LoadError) :=
  let! (destination, start, copy_size) := Some (load_span plan (len (memory r)) load) in
  let! source := Some (checked_slice bs (offset load - (destination - start)) copy_size "PT_LOAD file range") in
  match write_bytes (page_size plan) r start source with
  | None => None
  | Some r =>
      match write_bytes (page_size plan) r (destination + file_size load)
              (zeroed (Z.to_nat (memory_size load - file_size load))) with
      | None => None
      | Some r => Some (Ok r)
      end
  end.

Fixpoint copy_loads (plan : ParsedImage) (bs : bytes) (loads : list ProgramHeader) (r : Reservation)
    : option (result Reservation LoadError) :=
  match loads with
  | [] => Some (Ok r)
  | load :: loads => let! r := copy_load plan bs load r in copy_loads plan bs loads r
  end.

Definition populate (mprotect : Z -> Z -> Z -> option Z) (r : Reservation) (plan : ParsedImage) (bs : bytes)
    : option (result Reservation LoadError) :=
  let! r := Some (stage_pages mprotect (page_size plan) 0 (page_protections plan) r) in
  copy_loads plan bs (loads plan) r.

(** ** Lemmas: pages *)

Lemma set_pages_one ps (index : nat) protection pages k :
  0 < ps -> set_pages ps (Z.of_nat index * ps) ps protection pages !! k =
            if decide (k = index) then (fun _ => protection) <$> pages !! k else pages !! k.
Proof.
  intros Hp. unfold set_pages. rewrite list_lookup_imap. destruct (pages !! k) as [p|] eqn:E; simpl; [|by case_decide].
  destruct (decide (k = index)) as [->|Hne].
  - by rewrite Z.leb_refl, (proj2 (Z.ltb_lt _ _)) by lia.
  - destruct (Z.leb_spec (Z.of_nat index * ps) (Z.of_nat k * ps)), (Z.ltb_spec (Z.of_nat k * ps) (Z.of_nat index * ps + ps));
      simpl; try done. nia.
Qed.

Lemma length_set_pages ps offset length protection pages :
  List.length (set_pages ps offset length protection pages) = List.length pages.
Proof. apply length_imap. Qed.

(** The pages after the first loop. *)
Lemma stage_pages_ok mprotect ps (index : nat) planned r r' :
  0 < ps -> stage_pages mprotect ps (Z.of_nat index) planned r = Ok r' ->
  memory r' = memory r /\ length (protections r') = length (protections r) /\
  forall k, protections r' !! k =
    match planned !! (k - index)%nat with
    | Some p => if decide (index <= k)%nat then if p =? PROT_NONE then protections r !! k
                else (fun _ => Z.lor PROT_READ PROT_WRITE) <$> protections r !! k else protections r !! k
    | None => protections r !! k
    end.
Proof.
  intros Hp. revert index r. induction planned as [|p planned IH]; intros index r; simpl.
  { intros [= <-]. done. }
  destruct (if p =? PROT_NONE then Ok r else protect _ _ _ _ _ _) as [r1|] eqn:E1; [|done].
  replace (Z.of_nat index + 1) with (Z.of_nat (S index)) by lia. intros (Hm & Hlen & Hk)%IH.
  assert (memory r1 = memory r /\ length (protections r1) = length (protections r) /\
    forall k, protections r1 !! k = if decide (k = index) then if p =? PROT_NONE then protections r !! k
                else (fun _ => Z.lor PROT_READ PROT_WRITE) <$> protections r !! k else protections r !! k) as (Hm1 & Hlen1 & Hk1).
  { destruct (p =? PROT_NONE); [injection E1 as <-; split_and!; try done; intros; by case_decide|]. revert E1. unfold protect.
    destruct (checked_add _ _ _); simpl; [|done]. case_match; [done|]. destruct (mprotect _ _ _); [done|].
    intros [= <-]. simpl. split_and!; [done|apply length_set_pages|]. intros k. by apply set_pages_one. }
  split_and!; [congruence|congruence|]. intros k. rewrite Hk, Hk1. destruct (decide (k = index)) as [->|Hne].
  - rewrite Nat.sub_diag. simpl. rewrite decide_True by lia. destruct (planned !! _); [|done]. by rewrite decide_False by lia.
  - destruct (decide (index <= k)%nat).
    + replace (k - index)%nat with (S (k - S index))%nat by lia. simpl. destruct (planned !! _); [|done]. by rewrite decide_True by lia.
    + replace (k - S index)%nat with 0%nat by lia. replace (k - index)%nat with 0%nat by lia. simpl.
      destruct (planned !! 0%nat); [|done]. by rewrite decide_False by lia.
Qed.

(** A write to writable pages. *)
Lemma write_bytes_ok ps r start data :
  0 < ps -> 0 <= start -> start + len data <= len (memory r) ->
  (forall k, start / ps <= Z.of_nat k <= (start + len data - 1) / ps -> data <> [] ->
     exists p, protections r !! k = Some p /\ has p PROT_WRITE = true) ->
  exists r', write_bytes ps r start data = Some r' /\ protections r' = protections r /\
    length (memory r') = length (memory r) /\
    forall i, memory r' !! i = if decide (start <= Z.of_nat i < start + len data)
                               then data !! Z.to_nat (Z.of_nat i - start) else memory r !! i.
Proof.
  intros Hp Hs He Hw. destruct data as [|b data].
  { exists r. split_and!; try done. intros i. rewrite decide_False; [done|]. unfold len. simpl. lia. }
  set (d := b :: data) in *. assert (0 < len d) by (unfold len; simpl; lia).
  pose proof (Z.div_pos start ps Hs Hp). unfold write_bytes. fold d.
  rewrite (proj2 (Z.leb_le _ _) Hs), (proj2 (Z.leb_le _ _) He).
  assert (writable_span ps (protections r) start (start + len d) = true) as ->.
  { apply forallb_forall. intros k Hk%in_seq. destruct (Hw k) as (p & -> & Hpw); [lia|done|done]. }
  unfold len in He. eexists. split; [done|]. split; [done|]. simpl.
  assert (Z.to_nat start + length d <= length (memory r))%nat by lia.
  split; [by apply length_copy_at|]. intros i. rewrite lookup_copy_at by done. unfold len in *.
  destruct (Nat.ltb_spec i (Z.to_nat start)), (Nat.ltb_spec i (Z.to_nat start + length d)),
    (decide (start <= Z.of_nat i < start + Z.of_nat (length d))); try lia; try done. f_equal. lia.
Qed.

(** ** Lemmas: one load *)

Definition destination (plan : ParsedImage) (l : ProgramHeader) : Z :=
  image_offset plan + (virtual_address l - minimum_page plan).

(** The bytes before the load that its copy brings along. *)
Definition prefix (plan : ParsedImage) (l : ProgramHeader) : Z :=
  if compat_layout plan then offset l mod COMPAT_PAGE_SIZE else 0.

(** What the reservation holds at an address of a load: the bytes of the file, and zeros. *)
Definition load_byte (plan : ParsedImage) (bs : bytes) (l : ProgramHeader) (i : nat) : option byte :=
  if decide (Z.of_nat i < destination plan l + file_size l)
  then bs !! Z.to_nat (offset l + (Z.of_nat i - destination plan l)) else Some Byte.x00.

(** The pages of the plan are writable. *)
Definition staged (plan : ParsedImage) (r : Reservation) : Prop :=
  forall k p, page_protections plan !! k = Some p -> p <> PROT_NONE -> protections r !! k = Some (Z.lor PROT_READ PROT_WRITE).

Definition in_copy (plan : ParsedImage) (l : ProgramHeader) (i : nat) : Prop :=
  destination plan l - prefix plan l <= Z.of_nat i < destination plan l + memory_size l.
#[export] Instance in_copy_dec plan l i : Decision (in_copy plan l i).
Proof. unfold in_copy. apply _. Defined.

Lemma zeroed_lookup n i : (i < n)%nat -> zeroed n !! i = Some Byte.x00.
Proof. intros. unfold zeroed. by apply lookup_replicate_2. Qed.

Lemma page_between ps a b k lo hi : 0 < ps -> lo <= a -> b <= hi -> a / ps <= k <= b / ps -> lo / ps <= k <= hi / ps.
Proof. intros. pose proof (Z.div_le_mono lo a ps). pose proof (Z.div_le_mono b hi ps). lia. Qed.

(** The writable pages of a range the plan maps. *)
Lemma planned_writable plan r a b sel k :
  staged plan r -> 0 <= a -> get_range (page_protections plan) a (b + 1) = Some sel -> existsb (Z.eqb PROT_NONE) sel = false ->
  a <= Z.of_nat k <= b -> exists p, protections r !! k = Some p /\ has p PROT_WRITE = true.
Proof.
  intros Hst Ha (_ & Hb & ->)%get_range_Some He Hk. unfold len in Hb.
  destruct (lookup_lt_is_Some_2 (page_protections plan) k) as [p Hp]; [lia|].
  exists (Z.lor PROT_READ PROT_WRITE). split; [|done]. apply (Hst k p); [done|]. intros ->.
  rewrite <- not_true_iff_false in He. apply He, existsb_exists. exists PROT_NONE. split; [|done].
  apply list_elem_of_In, list_elem_of_lookup. exists (k - Z.to_nat a)%nat.
  rewrite lookup_take_lt, lookup_drop by lia. by replace (Z.to_nat a + (k - Z.to_nat a))%nat with k by lia.
Qed.

(** The pages a load covers with its prefix are in the plan. *)
Definition mapped (plan : ParsedImage) (l : ProgramHeader) : Prop :=
  forall r k, staged plan r ->
    (destination plan l - prefix plan l) / page_size plan <= Z.of_nat k <= (destination plan l + memory_size l - 1) / page_size plan ->
    exists p, protections r !! k = Some p /\ has p PROT_WRITE = true.

Lemma prefix_bound plan l : u64_range (offset l) -> 0 <= prefix plan l <= offset l.
Proof.
  unfold prefix, u64_range. destruct (compat_layout plan); [|lia]. intros.
  pose proof (Z.mod_pos_bound (offset l) COMPAT_PAGE_SIZE ltac:(done)).
  pose proof (Z.mod_le (offset l) COMPAT_PAGE_SIZE). unfold COMPAT_PAGE_SIZE in *. lia.
Qed.

Lemma load_span_ok plan n l D start size :
  0 < page_size plan -> header_ok l -> 0 < memory_size l -> load_span plan n l = Ok (D, start, size) ->
  D = destination plan l /\ start = D - prefix plan l /\ 0 <= start /\ size = prefix plan l + file_size l /\
  file_size l <= memory_size l /\ D + memory_size l <= n /\ mapped plan l.
Proof.
  intros Hp (_ & _ & Hof & Hv & Hf & Hms & _) Hm. unfold load_span, difference_to_usize, to_usize.
  destruct (checked_sub (virtual_address l) _) as [d|] eqn:Ed; simpl; [|done]. apply checked_sub_Some in Ed as [-> ?].
  destruct (checked_add usize_max _ _) as [dest|] eqn:Edest; simpl; [|done]. apply checked_add_Some in Edest as [-> ?].
  fold (destination plan l). fold (prefix plan l). pose proof (prefix_bound plan l Hof).
  destruct (compat_layout plan && _); [done|].
  destruct (checked_sub (destination plan l) _) as [s|] eqn:Es; simpl; [|done]. apply checked_sub_Some in Es as [-> ?].
  destruct (checked_add usize_max (prefix plan l) _) as [z|] eqn:Ez; simpl; [|done]. apply checked_add_Some in Ez as [-> ?].
  destruct (checked_add usize_max _ (memory_size l)) as [e|] eqn:Ee; simpl; [|done]. apply checked_add_Some in Ee as [-> ?].
  destruct (Z.ltb_spec (memory_size l) (file_size l)), (Z.ltb_spec n (destination plan l + memory_size l)),
    (Z.ltb_spec (destination plan l + memory_size l) (destination plan l - prefix plan l)); simpl; try done.
  rewrite (proj2 (Z.ltb_lt (destination plan l - _) _)) by lia.
  destruct (get_range _ _ _) as [sel|] eqn:G; simpl; [|done]. destruct (existsb _ sel) eqn:Ex; [done|].
  intros [= <- <- <-]. split_and!; try done; try lia. intros r k Hst Hk.
  pose proof (Z.div_pos (destination plan l - prefix plan l) (page_size plan)).
  eapply (planned_writable plan r _ _ sel k); [done| |done|done|done]. lia.
Qed.

Lemma lookup_source (bs : bytes) from n i :
  0 <= from -> (i < Z.to_nat n)%nat -> take (Z.to_nat n) (drop (Z.to_nat from) bs) !! i = bs !! Z.to_nat (from + Z.of_nat i).
Proof. intros. rewrite lookup_take_lt, lookup_drop by done. f_equal. lia. Qed.

Lemma copy_load_ok plan bs l r :
  0 < page_size plan -> load_ok bs l -> staged plan r ->
  returns (copy_load plan bs l r) (fun r' =>
    staged plan r' /\ length (memory r') = length (memory r) /\ protections r' = protections r /\
    forall i, memory r' !! i = if decide (in_copy plan l i) then load_byte plan bs l i else memory r !! i).
Proof.
  intros Hp [Hh Hm _ _ _ _ _] Hst. unfold copy_load.
  destruct (load_span plan _ l) as [[[D start] size]|] eqn:Esp; [|apply returns_err].
  apply load_span_ok in Esp as (-> & -> & ? & -> & ? & Hend & Hmap); [|done..].
  destruct Hh as (_ & _ & Hof & _ & Hf & _). pose proof (prefix_bound plan l Hof). unfold u64_range in *.
  replace (destination plan l - (destination plan l - prefix plan l)) with (prefix plan l) by lia.
  destruct (checked_slice bs _ _ _) as [src|] eqn:Esl; [|apply returns_err].
  pose proof (checked_slice_length _ _ _ _ _ Esl) as Hsl. apply checked_slice_Ok in Esl as (_ & _ & Hsrc); [|lia..].
  set (D := destination plan l) in *. set (P := prefix plan l) in *.
  destruct (write_bytes_ok (page_size plan) r (D - P) src) as (r1 & -> & Hp1 & Hl1 & Hm1); [done|lia|lia| |].
  { intros k Hk _. apply Hmap; [done|]. eapply page_between; [done| | |exact Hk]; lia. }
  assert (staged plan r1) as Hst1 by (intros k p; rewrite Hp1; apply Hst).
  set (zs := zeroed (Z.to_nat (memory_size l - file_size l))).
  assert (len zs = memory_size l - file_size l) as Hz by (unfold zs, len, zeroed; rewrite length_replicate; lia).
  destruct (write_bytes_ok (page_size plan) r1 (D + file_size l) zs) as (r2 & -> & Hp2 & Hl2 & Hm2); [done|lia| | |].
  { unfold len in *. rewrite Hl1. lia. }
  { intros k Hk _. apply Hmap; [done|]. eapply page_between; [done| | |exact Hk]; lia. }
  apply returns_ok. split_and!; [intros k p; rewrite Hp2, Hp1; apply Hst|congruence|congruence|].
  intros i. rewrite Hm2, Hm1, Hz, Hsl. unfold in_copy, load_byte. fold D P.
  destruct (decide (D + file_size l <= Z.of_nat i < D + file_size l + (memory_size l - file_size l))),
    (decide (D - P <= Z.of_nat i < D - P + (P + file_size l))),
    (decide (D - P <= Z.of_nat i < D + memory_size l)); try lia; try done.
  - rewrite decide_False by lia. apply zeroed_lookup. lia.
  - rewrite decide_True by lia. rewrite Hsrc, lookup_source by lia. f_equal. lia.
Qed.

(** ** Loading an image *)

(** The copy of a load does not reach into the loads before it.  In the plain layout there is no
    prefix, and the loads of a plan are disjoint. *)
Definition apart (plan : ParsedImage) (a b : ProgramHeader) : Prop :=
  virtual_address a + memory_size a <= virtual_address b - prefix plan b.

Lemma copy_loads_ok plan bs ls r :
  0 < page_size plan -> Forall (load_ok bs) ls -> StronglySorted (apart plan) ls -> staged plan r ->
  returns (copy_loads plan bs ls r) (fun r' =>
    length (memory r') = length (memory r) /\ protections r' = protections r /\
    (forall i, (forall l, l ∈ ls -> ~ in_copy plan l i) -> memory r' !! i = memory r !! i) /\
    forall i l, l ∈ ls -> destination plan l <= Z.of_nat i < destination plan l + memory_size l ->
      memory r' !! i = load_byte plan bs l i).
Proof.
  intros Hp. revert r. induction ls as [|l ls IH]; intros r Hl Hs Hst; simpl.
  { apply returns_ok. split_and!; try done. intros ? ? []%not_elem_of_nil. }
  apply Forall_cons in Hl as [Hl Hls]. apply StronglySorted_inv in Hs as [Hs Hap].
  eapply returns_bind; [by apply copy_load_ok|]. intros r1 (Hst1 & Hlen1 & Hp1 & Hm1).
  eapply returns_weaken; [by apply IH|]. intros r' (Hlen & Hpr & Hout & Hin).
  split_and!; [congruence|congruence| |].
  - intros i Hi. rewrite Hout, Hm1 by (intros; apply Hi; by constructor). rewrite decide_False; [done|]. apply Hi. by constructor.
  - intros i l' [->|Hl']%elem_of_cons Hi; [|by apply Hin]. rewrite Hout.
    + rewrite Hm1, decide_True; [done|]. unfold in_copy. destruct Hl as [(_ & _ & Hof & _) _ _ _ _ _ _].
      pose proof (prefix_bound plan l Hof). lia.
    + intros l' Hl' Hc. rewrite Forall_forall in Hap. specialize (Hap l' Hl').
      unfold apart, in_copy, destination in *. lia.
Qed.

Lemma populate_ok bs plan mprotect r :
  plan_ok bs plan -> StronglySorted (apart plan) (loads plan) -> length (protections r) = length (page_protections plan) ->
  returns (populate mprotect r plan bs) (fun r' =>
    length (memory r') = length (memory r) /\
    (forall k p, page_protections plan !! k = Some p -> p <> PROT_NONE -> protections r' !! k = Some (Z.lor PROT_READ PROT_WRITE)) /\
    (forall i, (forall l, l ∈ loads plan -> ~ in_copy plan l i) -> memory r' !! i = memory r !! i) /\
    forall i l, l ∈ loads plan -> destination plan l <= Z.of_nat i < destination plan l + memory_size l ->
      memory r' !! i = load_byte plan bs l i).
Proof.
  intros [Hp Hl _ _ _ _ _ _ _ _ _ _ _ _] Hs Hlen. pose proof (page_ok_bound _ Hp). unfold populate.
  destruct (stage_pages mprotect _ _ _ r) as [r1|] eqn:E1; [|apply returns_err].
  apply (stage_pages_ok mprotect (page_size plan) 0) in E1 as (Hm1 & Hlen1 & Hk1); [|lia]. assert (staged plan r1) as Hst.
  { intros k p Hk Hne. rewrite Hk1, Nat.sub_0_r, Hk, decide_True by lia. rewrite (proj2 (Z.eqb_neq _ _) Hne).
    destruct (lookup_lt_is_Some_2 (protections r) k) as [q ->]; [|done]. rewrite Hlen. by apply lookup_lt_is_Some_1. }
  eapply returns_weaken; [apply copy_loads_ok; try done; lia|]. intros r' (? & Hpr & Hout & Hin).
  split_and!; [congruence| |intros i Hi; rewrite <- Hm1; by apply Hout|done].
  intros k p. rewrite Hpr. apply Hst.
Qed.

Lemma sorted_weaken {A} (R S : A -> A -> Prop) l : (forall a b, R a b -> S a b) -> StronglySorted R l -> StronglySorted S l.
Proof. intros HRS. induction 1; constructor; [done|]. eapply Forall_impl; [done|]. auto. Qed.

Lemma plain_apart bs plan : plan_ok bs plan -> compat_layout plan = false -> StronglySorted (apart plan) (loads plan).
Proof.
  intros [_ _ Hs _ _ _ _ _ _ _ _ _ _ _] Hc. eapply sorted_weaken; [|exact Hs]. intros a b.
  unfold before, apart, prefix. rewrite Hc. lia.
Qed.

(** *** When the kernel grants the pages *)

Lemma stage_pages_total mprotect ps (index : nat) planned r :
  0 < ps -> (forall o n p, mprotect o n p = None) -> (Z.of_nat index + len planned) * ps <= len (memory r) ->
  len (memory r) <= usize_max -> exists r', stage_pages mprotect ps (Z.of_nat index) planned r = Ok r'.
Proof.
  intros Hp Hk. revert index r. induction planned as [|p planned IH]; intros index r Hlen Hu; simpl; [by eexists|].
  assert (len (p :: planned) = 1 + len planned) as Hc by (unfold len; simpl; lia). rewrite Hc in Hlen. assert ((Z.of_nat index + 1) * ps <= len (memory r)) by (pose proof (len_nonneg planned); nia).
  replace (Z.of_nat index + 1) with (Z.of_nat (S index)) by lia. destruct (p =? PROT_NONE).
  { apply IH; [|done]. replace (Z.of_nat (S index) + len planned) with (Z.of_nat index + (1 + len planned)) by lia. done. }
  unfold protect, checked_add. rewrite (proj2 (Z.leb_le (Z.of_nat index * ps + ps) usize_max)) by lia. simpl.
  rewrite (proj2 (Z.ltb_ge _ _)) by lia. rewrite Hk. apply IH; simpl; [|done].
  replace (Z.of_nat (S index) + len planned) with (Z.of_nat index + (1 + len planned)) by lia. done.
Qed.

Lemma has_lor a b f : has a f = true -> has (Z.lor b a) f = true.
Proof.
  unfold has. rewrite Z.land_lor_distr_l, !negb_true_iff, !Z.eqb_neq. intros Ha [_ E]%Z.lor_eq_0_iff. done.
Qed.

Lemma has_lor_l a b f : has b f = true -> has (Z.lor b a) f = true.
Proof. rewrite Z.lor_comm. apply has_lor. Qed.

Lemma readable_protection l : has (pflags l) PF_R = true -> has (elf_flags_to_protection (pflags l)) PROT_READ = true.
Proof. unfold elf_flags_to_protection. intros ->. by destruct (has _ PF_W), (has _ PF_X). Qed.

(** A page that a readable load touches is readable. *)
Lemma page_protection_read ps minimum ls k p :
  has p PROT_READ = true \/ (exists l, l ∈ ls /\ touches ps minimum l k /\ has (pflags l) PF_R = true) ->
  has (page_protection ps minimum ls k p) PROT_READ = true.
Proof.
  unfold page_protection. revert p. induction ls as [|l ls IH]; intros p; simpl.
  { intros [?|(? & []%not_elem_of_nil & _)]; done. }
  intros [Hp|(l' & [->|Hin]%elem_of_cons & Ht & Hr)]; apply IH.
  - left. case_decide; [|done]. by apply has_lor_l.
  - left. rewrite decide_True by done. by apply has_lor, readable_protection.
  - right. by exists l'.
Qed.

Lemma read_not_none p : has p PROT_READ = true -> p <> PROT_NONE /\ Z.land p (Z.lnot PROT_WRITE) <> PROT_NONE.
Proof.
  unfold has, PROT_READ, PROT_WRITE, PROT_NONE. rewrite negb_true_iff, Z.eqb_neq. intros Hp. split; [by intros ->|].
  intros E. apply Hp. replace 1 with (Z.land 1 (Z.lnot 2)) by done. by rewrite (Z.land_comm 1), Z.land_assoc, E.
Qed.

(** The pages of a readable load of a plain plan. *)
Lemma plain_pages bs plan l :
  plan_ok bs plan -> compat_layout plan = false -> l ∈ loads plan -> has (pflags l) PF_R = true ->
  let d := virtual_address l - minimum_page plan in
  exists sel, get_range (page_protections plan) (d / page_size plan) ((d + memory_size l - 1) / page_size plan + 1) = Some sel /\
    existsb (Z.eqb PROT_NONE) sel = false.
Proof.
  intros [Hp Hl _ Hi _ Hin1 _ Hsh Hend Hres Hlen _ (n & Hn%count_direct_syscalls_mono & Hv) Hplain] Hc Hin Hr d. destruct (Hplain Hc) as (Hoff & Hg & Hpages).
  pose proof (page_ok_bound _ Hp). destruct Hi as (_ & _ & ? & Hmod & _ & Hi). destruct (Hi l Hin) as [Hlo Hhi].
  rewrite Forall_forall in Hl. destruct (Hl l Hin) as [_ Hm _ _ _ _ _].
  set (ps := page_size plan) in *. set (e := d + memory_size l - 1).
  pose proof (Z.div_mod d ps ltac:(lia)). pose proof (Z.mod_pos_bound d ps ltac:(lia)).
  pose proof (Z.div_mod e ps ltac:(lia)). pose proof (Z.mod_pos_bound e ps ltac:(lia)).
  pose proof (Z.div_pos d ps ltac:(lia) ltac:(lia)). pose proof (Z.div_le_mono d e ps ltac:(lia) ltac:(lia)).
  assert (e / ps < image_size plan / ps) as Hlt.
  { apply Z.mod_divide in Hmod as [q Hq]; [|lia]. rewrite Hq, Z.div_mul by lia. apply Z.div_lt_upper_bound; lia. }
  assert (image_size plan / ps <= len (page_protections plan)) as Hle.
  { apply Z.div_le_upper_bound; [lia|]. unfold DirectSyscall.DIRECT_SYSCALL_VENEER_BYTES in Hv. lia. }
  eexists. split; [apply get_range_Some; split_and!; [lia..|reflexivity]|].
  apply not_true_iff_false. intros (p & Hp' & Heq)%existsb_exists. apply Z.eqb_eq in Heq as <-.
  apply list_elem_of_In, list_elem_of_lookup in Hp' as [j Hj]. apply lookup_take_Some in Hj as [Hj Hjlt].
  rewrite lookup_drop in Hj. set (k := (Z.to_nat (d / ps) + j)%nat) in *.
  destruct (read_not_none (page_protection ps (minimum_page plan) (loads plan) k PROT_NONE)) as [? ?].
  { apply page_protection_read. right. exists l. split_and!; [done| |done]. unfold touches. nia. }
  destruct (Hpages k) as [E|E]; [lia|congruence|congruence].
Qed.

Lemma checked_slice_total bs o n what :
  0 <= o -> 0 <= n -> o + n <= len bs -> len bs <= usize_max -> exists r, checked_slice bs o n what = Ok r.
Proof. intros. eexists. apply checked_slice_Ok; [done..|]. split_and!; [lia|lia|reflexivity]. Qed.

Lemma copy_load_total bs plan l r :
  plan_ok bs plan -> compat_layout plan = false -> l ∈ loads plan -> has (pflags l) PF_R = true ->
  len bs <= isize_max -> len (memory r) = reservation_size plan -> staged plan r -> exists r', copy_load plan bs l r = Some (Ok r').
Proof.
  intros Hplan Hc Hin Hr Hbs Hlen Hst. destruct (plain_pages bs plan l Hplan Hc Hin Hr) as (sel & G & Hex).
  destruct Hplan as [Hp Hl _ (? & _ & ? & _ & ? & Hi) _ ? _ ? ? ? _ _ (n & Hn%count_direct_syscalls_mono & Hv) Hplain].
  destruct (Hplain Hc) as (Hoff & Hg & _). pose proof (page_ok_bound _ Hp). destruct (Hi l Hin).
  rewrite Forall_forall in Hl. pose proof (Hl l Hin) as Hload. destruct (Hl l Hin) as [(_ & _ & Hof & _ & Hf & Hms & _) ? ? _ _ ? _].
  destruct (copy_load_ok plan bs l r ltac:(lia) Hload Hst) as ([r'|e] & E & _); [by exists r'|exfalso]. revert E.
  assert (isize_max <= usize_max) by done. unfold DirectSyscall.DIRECT_SYSCALL_VENEER_BYTES, u64_range in *.
  unfold copy_load, load_span, difference_to_usize, to_usize, checked_add, checked_sub. rewrite Hc, Hoff, Hlen.
  rewrite (proj2 (Z.leb_le (minimum_page plan) (virtual_address l))) by lia. cbn [ok_or andb negb].
  set (d := virtual_address l - minimum_page plan) in *. rewrite Z.add_0_l.
  rewrite (proj2 (Z.leb_le d usize_max)) by lia. cbn [ok_or]. rewrite (proj2 (Z.leb_le 0 d)) by lia. cbn [ok_or].
  rewrite Z.sub_0_r.
  rewrite (proj2 (Z.leb_le (0 + file_size l) usize_max)) by lia. cbn [ok_or].
  rewrite (proj2 (Z.leb_le (d + memory_size l) usize_max)) by lia. cbn [ok_or].
  rewrite (proj2 (Z.ltb_ge (memory_size l) (file_size l))), (proj2 (Z.ltb_ge (reservation_size plan) (d + memory_size l))),
    (proj2 (Z.ltb_ge (d + memory_size l) d)), (proj2 (Z.ltb_lt d (d + memory_size l))) by lia. cbn [orb].
  rewrite G. cbn [ok_or]. rewrite Hex, Z.sub_diag, Z.sub_0_r, Z.add_0_l.
  destruct (checked_slice_total bs (offset l) (file_size l) "PT_LOAD file range") as [src ->]; [lia..|].
  repeat (case_match; try done).
Qed.

Lemma copy_loads_total bs plan ls r :
  plan_ok bs plan -> compat_layout plan = false -> len bs <= isize_max -> (forall l, l ∈ ls -> l ∈ loads plan /\ has (pflags l) PF_R = true) ->
  len (memory r) = reservation_size plan -> staged plan r -> exists r', copy_loads plan bs ls r = Some (Ok r').
Proof.
  intros Hplan Hc Hbs. revert r. induction ls as [|l ls IH]; intros r Hls Hlen Hst; simpl; [by eexists|].
  destruct (Hls l) as [Hin Hr]; [by constructor|].
  destruct (copy_load_total bs plan l r) as [r1 E1]; try done. rewrite E1.
  pose proof Hplan as [Hp Hl _ _ _ _ _ _ _ _ _ _ _ _]. rewrite Forall_forall in Hl. pose proof (page_ok_bound _ Hp).
  pose proof (copy_load_ok plan bs l r ltac:(lia) (Hl l Hin) Hst) as Hok. apply (returns_Ok _ _ _ Hok) in E1 as (Hst1 & Hl1 & _).
  apply IH; [|unfold len in *; congruence|done]. intros l' Hl'. apply Hls. by constructor.
Qed.

Lemma reserved_pages bs plan : plan_ok bs plan -> length (protections (reserve (page_size plan) (reservation_size plan))) = length (page_protections plan).
Proof.
  intros [Hp _ _ _ _ _ _ _ _ _ Hlen _ _ _]. pose proof (page_ok_bound _ Hp). simpl.
  rewrite length_replicate, <- Hlen, Z.div_mul by lia. unfold len. lia.
Qed.

Lemma reserved_length plan : 0 <= reservation_size plan -> len (memory (reserve (page_size plan) (reservation_size plan))) = reservation_size plan.
Proof. intros. simpl. unfold len, zeroed. rewrite length_replicate. lia. Qed.


(** In the plain layout, with readable loads and a kernel that grants the protections, loading
    the segments succeeds. *)
Theorem populate_succeeds host bs metadata_only appcompat plan mprotect :
  i32_range host -> parse_image_with_policy_and_appcompat host bs metadata_only appcompat = Ok plan ->
  len bs <= isize_max -> compat_layout plan = false -> Forall (fun l => has (pflags l) PF_R = true) (loads plan) ->
  (forall o n p, mprotect o n p = None) ->
  exists r, populate mprotect (reserve (page_size plan) (reservation_size plan)) plan bs = Some (Ok r).
Proof.
  intros Hh H Hbs Hc Hr Hk. apply parse_image_ok in H as Hplan; [|done]. pose proof (reserved_pages bs plan Hplan) as Hpages.
  pose proof Hplan as [Hp _ _ _ _ _ _ _ _ Hres Hlen _ _ _]. pose proof (page_ok_bound _ Hp). pose proof (len_nonneg (page_protections plan)).
  assert (0 <= reservation_size plan) as Hpos by nia. pose proof (reserved_length plan Hpos) as Hm.
  set (r0 := reserve _ _) in *. unfold populate.
  destruct (stage_pages_total mprotect (page_size plan) 0 (page_protections plan) r0) as [r1 E1]; [lia|done| |lia|].
  { rewrite Hm, <- Hlen. simpl. lia. }
  change (stage_pages mprotect (page_size plan) 0 (page_protections plan) r0 = Ok r1) in E1. rewrite E1.
  apply (stage_pages_ok mprotect (page_size plan) 0) in E1 as (Hm1 & Hlen1 & Hk1); [|lia].
  apply (copy_loads_total bs); try done; [|by rewrite Hm1|].
  - intros l Hl. rewrite Forall_forall in Hr. auto.
  - intros k p Hkp Hne. rewrite Hk1, Nat.sub_0_r, Hkp, decide_True by lia. rewrite (proj2 (Z.eqb_neq _ _) Hne).
    destruct (lookup_lt_is_Some_2 (protections r0) k) as [q ->]; [|done]. rewrite Hpages. by apply lookup_lt_is_Some_1.
Qed.


(** At the same image on a host with 4 KiB pages. *)
Lemma populate_succeeds_witness :
  exists plan r, parse_image 4096 compat_elf = Ok plan /\
    populate (fun _ _ _ => None) (reserve (page_size plan) (reservation_size plan)) plan compat_elf = Some (Ok r).
Proof.
  eexists. destruct (populate_succeeds 4096 compat_elf false None _ (fun _ _ _ => None) ltac:(done) ltac:(vm_compute; reflexivity))
    as [r Hr]; [by vm_compute|done|by repeat constructor|done|]. exists r. split; [vm_compute; reflexivity|exact Hr].
Defined.
