(* ===== verification/ElfDynamic.v ===== *)
(** * The dynamic section ([parser.rs], [metadata.rs])

    The entries of the dynamic section, the capabilities the loader asks of them, and the
    inspection of a file's metadata without mapping it. *)
From S2P Require Import Prelude ElfBase ElfRewrite ElfPlan.
From coqutil Require Import Byte.

(** ** Tags *)

Definition DT_NULL : Z := 0.
Definition DT_NEEDED : Z := 1.
Definition DT_PLTRELSZ : Z := 2.
Definition DT_PLTGOT : Z := 3.
Definition DT_HASH : Z := 4.
Definition DT_STRTAB : Z := 5.
Definition DT_SYMTAB : Z := 6.
Definition DT_RELA : Z := 7.
Definition DT_RELASZ : Z := 8.
Definition DT_RELAENT : Z := 9.
Definition DT_STRSZ : Z := 10.
Definition DT_SYMENT : Z := 11.
Definition DT_INIT : Z := 12.
Definition DT_FINI : Z := 13.
Definition DT_SONAME : Z := 14.
Definition DT_RPATH : Z := 15.
Definition DT_SYMBOLIC : Z := 16.
Definition DT_REL : Z := 17.
Definition DT_RELSZ : Z := 18.
Definition DT_RELENT : Z := 19.
Definition DT_PLTREL : Z := 20.
Definition DT_DEBUG : Z := 21.
Definition DT_TEXTREL : Z := 22.
Definition DT_JMPREL : Z := 23.
Definition DT_BIND_NOW : Z := 24.
Definition DT_INIT_ARRAY : Z := 25.
Definition DT_FINI_ARRAY : Z := 26.
Definition DT_INIT_ARRAYSZ : Z := 27.
Definition DT_FINI_ARRAYSZ : Z := 28.
Definition DT_RUNPATH : Z := 29.
Definition DT_FLAGS : Z := 30.
Definition DT_PREINIT_ARRAY : Z := 32.
Definition DT_PREINIT_ARRAYSZ : Z := 33.
Definition DT_RELR : Z := 36.
Definition DT_RELRSZ : Z := 35.
Definition DT_RELRENT : Z := 37.
Definition DT_ANDROID_REL : Z := 0x6000000f.
Definition DT_ANDROID_RELSZ : Z := 0x60000010.
Definition DT_ANDROID_RELA : Z := 0x60000011.
Definition DT_ANDROID_RELASZ : Z := 0x60000012.
Definition DT_ANDROID_RELR : Z := 0x6fffe000.
Definition DT_ANDROID_RELRSZ : Z := 0x6fffe001.
Definition DT_ANDROID_RELRENT : Z := 0x6fffe003.
Definition DT_ANDROID_RELRCOUNT : Z := 0x6fffe005.
Definition DT_GNU_HASH : Z := 0x6ffffef5.
Definition DT_RELACOUNT : Z := 0x6ffffff9.
Definition DT_FLAGS_1 : Z := 0x6ffffffb.
Definition DT_VERSYM : Z := 0x6ffffff0.
Definition DT_VERDEF : Z := 0x6ffffffc.
Definition DT_VERDEFNUM : Z := 0x6ffffffd.
Definition DT_VERNEED : Z := 0x6ffffffe.
Definition DT_VERNEEDNUM : Z := 0x6fffffff.
Definition DT_AARCH64_BTI_PLT : Z := 0x70000001.

Definition DF_BIND_NOW : Z := 0x8.
Definition DF_SYMBOLIC : Z := 0x2.
Definition DF_1_NOW : Z := 0x1.
Definition DF_1_GLOBAL : Z := 0x2.

(** ** The parsed section

    The [Option<u64>] fields of [DynamicInfo], by name. *)
Inductive Slot : Type :=
| SonameOffset | RunpathOffset | Hash | GnuHash | StringTable | StringSize | SymbolTable | SymbolEntrySize
| Rela | RelaSize | RelaEntrySize | RelativeRelocationCount | AndroidRela | AndroidRelaSize
| Relr | RelrSize | RelrEntrySize | RelrCount | PltRela | PltRelaSize | PltRelocationKind
| Flags | Flags1 | Versym | Verneed | VerneedCount | Verdef | VerdefCount
| InitArray | InitArraySize | Fini | FiniArray | FiniArraySize | Aarch64BtiPlt.

#[export] Instance Slot_eq_dec : EqDecision Slot.
Proof. solve_decision. Defined.

Record DynamicInfo : Type := { needed_offsets : list Z; bind_now_tag : bool; field : Slot -> option Z }.

Definition default_info : DynamicInfo :=
  {| needed_offsets := []; bind_now_tag := false; field := fun _ => None |}.

Definition set_once (info : DynamicInfo) (slot : Slot) (value : Z) (duplicate : string) : result DynamicInfo LoadError :=
  match field info slot with
  | Some _ => Err (Format duplicate)
  | None => Ok {| needed_offsets := needed_offsets info; bind_now_tag := bind_now_tag info;
                  field := fun s => if decide (s = slot) then Some value else field info s |}
  end.

(** The tags that set a field, whatever the policy. *)
Definition tag_slots : list (Z * (Slot * string)) :=
  [(DT_SONAME, (SonameOffset, "duplicate DT_SONAME")); (DT_HASH, (Hash, "duplicate DT_HASH"));
   (DT_GNU_HASH, (GnuHash, "duplicate DT_GNU_HASH")); (DT_STRTAB, (StringTable, "duplicate DT_STRTAB"));
   (DT_STRSZ, (StringSize, "duplicate DT_STRSZ")); (DT_SYMTAB, (SymbolTable, "duplicate DT_SYMTAB"));
   (DT_SYMENT, (SymbolEntrySize, "duplicate DT_SYMENT")); (DT_RELA, (Rela, "duplicate DT_RELA"));
   (DT_RELASZ, (RelaSize, "duplicate DT_RELASZ")); (DT_RELAENT, (RelaEntrySize, "duplicate DT_RELAENT"));
   (DT_RELACOUNT, (RelativeRelocationCount, "duplicate DT_RELACOUNT"));
   (DT_ANDROID_RELA, (AndroidRela, "duplicate DT_ANDROID_RELA"));
   (DT_ANDROID_RELASZ, (AndroidRelaSize, "duplicate DT_ANDROID_RELASZ"));
   (DT_RELR, (Relr, "duplicate DT_RELR")); (DT_ANDROID_RELR, (Relr, "duplicate DT_RELR"));
   (DT_RELRSZ, (RelrSize, "duplicate DT_RELRSZ")); (DT_ANDROID_RELRSZ, (RelrSize, "duplicate DT_RELRSZ"));
   (DT_RELRENT, (RelrEntrySize, "duplicate DT_RELRENT")); (DT_ANDROID_RELRENT, (RelrEntrySize, "duplicate DT_RELRENT"));
   (DT_ANDROID_RELRCOUNT, (RelrCount, "duplicate DT_ANDROID_RELRCOUNT")); (DT_JMPREL, (PltRela, "duplicate DT_JMPREL"));
   (DT_PLTRELSZ, (PltRelaSize, "duplicate DT_PLTRELSZ")); (DT_PLTREL, (PltRelocationKind, "duplicate DT_PLTREL"));
   (DT_FLAGS, (Flags, "duplicate DT_FLAGS")); (DT_FLAGS_1, (Flags1, "duplicate DT_FLAGS_1"));
   (DT_VERSYM, (Versym, "duplicate DT_VERSYM")); (DT_VERNEED, (Verneed, "duplicate DT_VERNEED"));
   (DT_VERNEEDNUM, (VerneedCount, "duplicate DT_VERNEEDNUM")); (DT_VERDEF, (Verdef, "duplicate DT_VERDEF"));
   (DT_VERDEFNUM, (VerdefCount, "duplicate DT_VERDEFNUM")); (DT_INIT_ARRAY, (InitArray, "duplicate DT_INIT_ARRAY"));
   (DT_INIT_ARRAYSZ, (InitArraySize, "duplicate DT_INIT_ARRAYSZ")); (DT_FINI, (Fini, "duplicate DT_FINI"));
   (DT_FINI_ARRAY, (FiniArray, "duplicate DT_FINI_ARRAY")); (DT_FINI_ARRAYSZ, (FiniArraySize, "duplicate DT_FINI_ARRAYSZ"));
   (DT_AARCH64_BTI_PLT, (Aarch64BtiPlt, "duplicate DT_AARCH64_BTI_PLT"))]%string.

Definition tag_slot (tag : Z) : option (Slot * string) := snd <$> find (fun entry => entry.1 =? tag) tag_slots.

Definition one_of (tag : Z) (tags : list Z) : bool := existsb (Z.eqb tag) tags.

(** The arms of the [match] on a tag. *)
Definition dynamic_entry (metadata_only : bool) (info : DynamicInfo) (tag value : Z) : result DynamicInfo LoadError :=
  if tag =? DT_NEEDED then
    Ok {| needed_offsets := needed_offsets info ++ [value]; bind_now_tag := bind_now_tag info; field := field info |}
  else match tag_slot tag with
  | Some (slot, duplicate) => set_once info slot value duplicate
  | None =>
      if tag =? DT_BIND_NOW then
        Ok {| needed_offsets := needed_offsets info; bind_now_tag := true; field := field info |}
      else if one_of tag [DT_PLTGOT; DT_DEBUG] then Ok info
      else if one_of tag [DT_REL; DT_RELSZ; DT_RELENT; DT_ANDROID_REL; DT_ANDROID_RELSZ] then
        if negb (value =? 0) && negb metadata_only then Err (Capable RelRelocations) else Ok info
      else if tag =? DT_INIT then
        if negb (value =? 0) && negb metadata_only then Err (Capable DynamicInitializer) else Ok info
      else if one_of tag [DT_PREINIT_ARRAY; DT_PREINIT_ARRAYSZ] then
        if negb (value =? 0) && negb metadata_only then Err (Capable PreinitArray) else Ok info
      else if (tag =? DT_TEXTREL) && negb metadata_only then Err (Capable TextRelocations)
      else if (tag =? DT_RUNPATH) && metadata_only then set_once info RunpathOffset value "duplicate DT_RUNPATH"
      else if one_of tag [DT_RPATH; DT_RUNPATH] && negb metadata_only then Err (Capable Rpath)
      else if (tag =? DT_SYMBOLIC) && negb metadata_only then Err (Capable SymbolicLookup)
      else if metadata_only then Ok info
      else Err (Capable (UnknownDynamicTag tag))
  end.

(** [chunks_exact]. *)
Definition chunks_exact (size : nat) (data : bytes) : list bytes :=
  (fun i => slice data (i * size) (i * size + size)) <$> seq 0 (length data / size).

(** The loop over the entries, to the entry that ends them. *)
Fixpoint dynamic_entries (metadata_only : bool) (entries : list bytes) (info : DynamicInfo) : result DynamicInfo LoadError :=
  match entries with
  | [] => Err (Format "PT_DYNAMIC lacks DT_NULL")
  | entry :: entries =>
      let? tag := read_i64 entry 0 in
      let? value := read_u64 entry 8 in
      if tag =? DT_NULL then Ok info
      else let? info := dynamic_entry metadata_only info tag value in dynamic_entries metadata_only entries info
  end.

Definition parse_dynamic_with_policy (bs : bytes) (dynamic : ProgramHeader) (metadata_only : bool) : result DynamicInfo LoadError :=
  let? at_ := to_usize (offset dynamic) "PT_DYNAMIC offset" in
  let? size := to_usize (file_size dynamic) "PT_DYNAMIC size" in
  let? data := checked_slice bs at_ size "PT_DYNAMIC" in
  dynamic_entries metadata_only (chunks_exact (Z.to_nat ELF64_DYN_SIZE) data) default_info.

Definition parse_dynamic (bs : bytes) (dynamic : ProgramHeader) : result DynamicInfo LoadError :=
  parse_dynamic_with_policy bs dynamic false.

(** ** The capabilities *)

Definition or_zero (o : option Z) : Z := default 0 o.

Definition validate_plt (info : DynamicInfo) : result unit LoadError :=
  let plt_address := or_zero (field info PltRela) in
  let plt_size := or_zero (field info PltRelaSize) in
  if negb (Bool.eqb (plt_address =? 0) (plt_size =? 0)) then Err (Format "incomplete DT_JMPREL/DT_PLTRELSZ")
  else if negb (plt_size =? 0) then
    if negb (bool_decide (field info PltRelocationKind = Some DT_RELA)) then Err (Format "DT_PLTREL is not DT_RELA")
    else if bind_now_tag info || has (or_zero (field info Flags)) DF_BIND_NOW || has (or_zero (field info Flags1)) DF_1_NOW
    then Ok tt else Err (Capable LazyBinding)
  else if present (field info PltRelocationKind) && (negb (present (field info PltRela)) || negb (present (field info PltRelaSize)))
  then Err (Format "DT_PLTREL without DT_JMPREL")
  else Ok tt.

Definition validate_relr (info : DynamicInfo) : result unit LoadError :=
  let relr_address := or_zero (field info Relr) in
  let relr_size := or_zero (field info RelrSize) in
  if negb (Bool.eqb (relr_address =? 0) (relr_size =? 0)) then Err (Format "incomplete DT_RELR/DT_RELRSZ")
  else if negb (relr_size =? 0) && (negb (default 8 (field info RelrEntrySize) =? 8) || negb (relr_size mod 8 =? 0))
  then Err (Format "invalid DT_RELRENT/DT_RELRSZ")
  else match field info RelrCount with
       | Some count => if relr_size / 8 <? count then Err (Format "DT_ANDROID_RELRCOUNT exceeds DT_RELRSZ") else Ok tt
       | None => Ok tt
       end.

(** [flags & !allowed != 0]. *)
Definition exceeds (flags allowed : Z) : bool := negb (Z.land flags (not64 allowed) =? 0).

Definition validate_dynamic_capabilities (info : DynamicInfo) : result unit LoadError :=
  let? _ := match field info Aarch64BtiPlt with
            | Some value => if negb (value =? 0) then Err (Capable (DynamicFlags DT_AARCH64_BTI_PLT value)) else Ok tt
            | None => Ok tt
            end in
  if negb (present (field info Hash)) && negb (present (field info GnuHash)) then Err (Capable MissingSysvHash)
  else if negb (present (field info StringTable)) || negb (present (field info StringSize))
          || negb (present (field info SymbolTable)) || negb (present (field info SymbolEntrySize))
  then Err (Format "incomplete dynamic symbol metadata") else
  let? _ := match field info RelativeRelocationCount with
            | Some relative_count =>
                if or_zero (field info RelaSize) / ELF64_RELA_SIZE <? relative_count
                then Err (Format "DT_RELACOUNT exceeds DT_RELASZ") else Ok tt
            | None => Ok tt
            end in
  if negb (Bool.eqb (or_zero (field info AndroidRela) =? 0) (or_zero (field info AndroidRelaSize) =? 0))
  then Err (Format "incomplete DT_ANDROID_RELA/DT_ANDROID_RELASZ") else
  let? _ := validate_relr info in
  let? _ := validate_plt info in
  let? _ := match field info Flags with
            | Some flags => if exceeds flags (Z.lor DF_BIND_NOW DF_SYMBOLIC) then Err (Capable (DynamicFlags DT_FLAGS flags)) else Ok tt
            | None => Ok tt
            end in
  match field info Flags1 with
  | Some flags => if exceeds flags (Z.lor DF_1_NOW DF_1_GLOBAL) then Err (Capable (DynamicFlags DT_FLAGS_1 flags)) else Ok tt
  | None => Ok tt
  end.

(** ** Strings and metadata *)

(** The bytes before the first zero. *)
Definition terminated_dynamic_string (data : bytes) : result bytes LoadError :=
  match list_find (fun b => b = Byte.x00) data with
  | Some (end_, _) => Ok (take end_ data)
  | None => Err (Format "unterminated dynamic string")
  end.

(** [collect] into a [Result]: the first error, or all the values. *)
Fixpoint collect {A B E} (f : A -> result B E) (l : list A) : result (list B) E :=
  match l with
  | [] => Ok []
  | a :: l => let? b := f a in let? bs := collect f l in Ok (b :: bs)
  end.

(** [Option::map(..).transpose()?]. *)
Definition transpose {A B E} (f : A -> result B E) (o : option A) : result (option B) E :=
  match o with
  | Some a => let? b := f a in Ok (Some b)
  | None => Ok None
  end.

Definition empty_string (s : bytes) : bool := match s with [] => true | _ => false end.

(** The load that holds a range of readable bytes of the file. *)
Definition holds_file_range (address end_ : Z) (load : ProgramHeader) : bool :=
  has (pflags load) PF_R && (virtual_address load <=? address) &&
  match checked_add u64_max (virtual_address load) (file_size load) with
  | Some load_end => end_ <=? load_end
  | None => false
  end.

Module Metadata.

Record ElfMetadata : Type := {
  soname : option bytes; needed_libraries : list bytes; runpath : option bytes; flags_1 : Z }.

Definition dynamic_string_bytes (bs : bytes) (loads : list ProgramHeader) (dynamic : DynamicInfo) (offset_ : Z)
    : result bytes LoadError :=
  let? table := ok_or (field dynamic StringTable) (Format "missing DT_STRTAB") in
  let? size := ok_or (field dynamic StringSize) (Format "missing DT_STRSZ") in
  if size <=? offset_ then Err (Bounds "dynamic string offset") else
  let? address := ok_or (checked_add u64_max table offset_) (Bounds "dynamic string address overflow") in
  let remaining := size - offset_ in
  let? end_ := ok_or (checked_add u64_max address remaining) (Bounds "dynamic string range overflow") in
  let? load := ok_or (find (holds_file_range address end_) loads)
                 (Bounds "dynamic string table is not file-backed readable data") in
  let? distance := ok_or (checked_sub address (virtual_address load)) (Bounds "dynamic string file mapping") in
  let? file_offset := ok_or (checked_add u64_max (offset load) distance) (Bounds "dynamic string file offset overflow") in
  let? at_ := to_usize file_offset "dynamic string file offset" in
  let? n := to_usize remaining "dynamic string size" in
  let? data := checked_slice bs at_ n "dynamic string file range" in
  terminated_dynamic_string data.

Definition inspect_elf_metadata (host_page_size : Z) (bs : bytes) : result ElfMetadata LoadError :=
  let? parsed := parse_image_with_policy_and_appcompat host_page_size bs true None in
  let? info := parse_dynamic_with_policy bs (dynamic parsed) true in
  let string_at := dynamic_string_bytes bs (loads parsed) info in
  let? needed_libraries := collect string_at (needed_offsets info) in
  let? soname := transpose string_at (field info SonameOffset) in
  if existsb empty_string needed_libraries then Err (Format "empty DT_NEEDED string")
  else if match soname with Some s => empty_string s | None => false end then Err (Format "empty DT_SONAME string")
  else
    let? runpath := transpose string_at (field info RunpathOffset) in
    Ok {| soname := soname; needed_libraries := needed_libraries; runpath := runpath; flags_1 := or_zero (field info Flags1) |}.

End Metadata.

(** ** The section as a list of entries *)

Definition entry_of (b : bytes) : option (Z * Z) :=
  match read_i64 b 0, read_u64 b 8 with
  | Ok tag, Ok value => Some (tag, value)
  | _, _ => None
  end.

(** The field an entry sets. *)
Definition entry_slot (metadata_only : bool) (tag : Z) : option Slot :=
  match tag_slot tag with
  | Some (slot, _) => Some slot
  | None => if (tag =? DT_RUNPATH) && metadata_only then Some RunpathOffset else None
  end.

(** The values of the entries of a field, in the order of the section. *)
Definition values_of (metadata_only : bool) (slot : Slot) (entries : list (Z * Z)) : list Z :=
  snd <$> filter (fun e => entry_slot metadata_only e.1 = Some slot) entries.

(** The entries a loaded image may have. *)
Definition admitted (metadata_only : bool) (entry : Z * Z) : Prop :=
  metadata_only = true \/ is_Some (tag_slot entry.1) \/ entry.1 ∈ [DT_NEEDED; DT_BIND_NOW; DT_PLTGOT; DT_DEBUG] \/
  (entry.2 = 0 /\ entry.1 ∈ [DT_REL; DT_RELSZ; DT_RELENT; DT_ANDROID_REL; DT_ANDROID_RELSZ; DT_INIT; DT_PREINIT_ARRAY; DT_PREINIT_ARRAYSZ]).

(** What the section says. *)
Definition describes (metadata_only : bool) (entries : list (Z * Z)) (info : DynamicInfo) : Prop :=
  needed_offsets info = snd <$> filter (fun e => e.1 = DT_NEEDED) entries /\
  bind_now_tag info = bool_decide (DT_BIND_NOW ∈ entries.*1) /\
  forall slot, option_list (field info slot) = values_of metadata_only slot entries.

Lemma one_of_spec tag tags : one_of tag tags = true <-> tag ∈ tags.
Proof.
  unfold one_of. rewrite existsb_exists. setoid_rewrite Z.eqb_eq. setoid_rewrite <- list_elem_of_In.
  split; [by intros (x & ? & <-)|by exists tag].
Qed.

Lemma set_once_Ok info slot value duplicate info' :
  set_once info slot value duplicate = Ok info' <->
  field info slot = None /\ info' = {| needed_offsets := needed_offsets info; bind_now_tag := bind_now_tag info;
                                       field := fun s => if decide (s = slot) then Some value else field info s |}.
Proof. unfold set_once. destruct (field info slot); split; [done|by intros []|by intros [= <-]|by intros [_ ->]]. Qed.

(** The effect of an entry. *)
Definition entry_effect (metadata_only : bool) (tag value : Z) (info info' : DynamicInfo) : Prop :=
  admitted metadata_only (tag, value) /\
  needed_offsets info' = needed_offsets info ++ (if decide (tag = DT_NEEDED) then [value] else []) /\
  bind_now_tag info' = bind_now_tag info || bool_decide (tag = DT_BIND_NOW) /\
  match entry_slot metadata_only tag with
  | Some slot => field info slot = None /\ forall s, field info' s = if decide (s = slot) then Some value else field info s
  | None => field info' = field info
  end.

(** A tag that sets no field. *)
Lemma entry_effect_plain metadata_only tag value info :
  tag <> DT_NEEDED -> tag <> DT_BIND_NOW -> entry_slot metadata_only tag = None -> admitted metadata_only (tag, value) ->
  entry_effect metadata_only tag value info info.
Proof.
  intros Hn Hb Hs Ha. unfold entry_effect. rewrite Hs, decide_False, bool_decide_false, app_nil_r, orb_false_r by done. done.
Qed.

Lemma entry_effect_slot metadata_only tag value info info' slot duplicate :
  tag <> DT_NEEDED -> tag <> DT_BIND_NOW -> entry_slot metadata_only tag = Some slot -> admitted metadata_only (tag, value) ->
  set_once info slot value duplicate = Ok info' -> entry_effect metadata_only tag value info info'.
Proof.
  intros Hn Hb Hs Ha [Hf ->]%set_once_Ok. unfold entry_effect. simpl.
  rewrite Hs, decide_False, bool_decide_false, app_nil_r, orb_false_r by done. done.
Qed.

Lemma tag_slot_plain tag slot : tag_slot tag = Some slot -> tag <> DT_NEEDED /\ tag <> DT_BIND_NOW.
Proof. intros H. split; intros ->; by vm_compute in H. Qed.

Lemma dynamic_entry_effect metadata_only info tag value info' :
  dynamic_entry metadata_only info tag value = Ok info' -> entry_effect metadata_only tag value info info'.
Proof.
  unfold dynamic_entry. destruct (Z.eqb_spec tag DT_NEEDED) as [->|Hn].
  { intros [= <-]. unfold entry_effect. simpl. rewrite orb_false_r. split_and!; try done. right; right; left. set_solver. }
  destruct (tag_slot tag) as [[slot dup]|] eqn:Et.
  { intros H. destruct (tag_slot_plain _ _ Et). eapply entry_effect_slot; [done..| | |exact H].
    - unfold entry_slot. by rewrite Et.
    - right; left. simpl. by rewrite Et. }
  destruct (Z.eqb_spec tag DT_BIND_NOW) as [->|Hb].
  { intros [= <-]. unfold entry_effect. simpl. rewrite app_nil_r, orb_true_r. split_and!; try done. right; right; left. set_solver. }
  destruct metadata_only; cbn [negb]; rewrite ?andb_false_r, ?andb_true_r.
  { destruct (Z.eqb_spec tag DT_RUNPATH) as [->|Hr].
    - cbv [one_of existsb]. simpl. intros H. by eapply entry_effect_slot; [| |reflexivity|left|exact H].
    - intros H. assert (info' = info) as -> by (repeat case_match; congruence).
      apply entry_effect_plain; [done..| |by left]. unfold entry_slot. rewrite Et. by destruct (Z.eqb_spec tag DT_RUNPATH). }
  intros H. assert (info' = info) as -> by (repeat case_match; congruence). apply entry_effect_plain; [done..| |].
  { unfold entry_slot. rewrite Et. by rewrite andb_false_r. }
  unfold admitted. simpl. destruct (one_of tag [DT_PLTGOT; DT_DEBUG]) eqn:E1.
  { apply one_of_spec in E1. right; right; left. set_solver. }
  right; right; right. destruct (one_of tag [DT_REL; DT_RELSZ; DT_RELENT; DT_ANDROID_REL; DT_ANDROID_RELSZ]) eqn:E2.
  { apply one_of_spec in E2. destruct (Z.eqb_spec value 0); [|done]. split; [done|]. set_solver. }
  destruct (Z.eqb_spec tag DT_INIT) as [->|].
  { destruct (Z.eqb_spec value 0); [|done]. split; [done|]. set_solver. }
  destruct (one_of tag [DT_PREINIT_ARRAY; DT_PREINIT_ARRAYSZ]) eqn:E3.
  { apply one_of_spec in E3. destruct (Z.eqb_spec value 0); [|done]. split; [done|]. set_solver. }
  repeat case_match; done.
Qed.

Lemma dynamic_entry_total metadata_only info tag value :
  tag <> DT_NULL -> admitted metadata_only (tag, value) ->
  (forall slot, entry_slot metadata_only tag = Some slot -> field info slot = None) ->
  exists info', dynamic_entry metadata_only info tag value = Ok info'.
Proof.
  intros H0 Ha Hs. unfold dynamic_entry. destruct (Z.eqb_spec tag DT_NEEDED); [by eexists|].
  unfold entry_slot in Hs. destruct (tag_slot tag) as [[slot dup]|] eqn:Et.
  { unfold set_once. rewrite (Hs slot eq_refl). by eexists. }
  destruct (tag =? DT_BIND_NOW) eqn:Eb; [by eexists|].
  destruct metadata_only; simpl in *; rewrite ?andb_false_r, ?andb_true_r in *.
  { destruct (tag =? DT_RUNPATH) eqn:Er; [unfold set_once; rewrite (Hs _ eq_refl)|]; repeat case_match; eauto. }
  destruct Ha as [?|[[? ?]|[Hin|[E Hin]]]]; simpl in *; [done|congruence| |].
  - apply list_elem_of_In in Hin. simpl in Hin. apply Z.eqb_neq in Eb.
    destruct Hin as [<-|[<-|[<-|[<-|[]]]]]; try done; by eexists.
  - apply list_elem_of_In in Hin. simpl in Hin. subst value.
    destruct Hin as [<-|[<-|[<-|[<-|[<-|[<-|[<-|[<-|[]]]]]]]]]; by eexists.
Qed.

Lemma values_of_snoc metadata_only slot es tag value :
  values_of metadata_only slot (es ++ [(tag, value)]) =
  values_of metadata_only slot es ++ (if decide (entry_slot metadata_only tag = Some slot) then [value] else []).
Proof. unfold values_of. rewrite filter_app, fmap_app. f_equal. rewrite filter_cons, filter_nil. simpl. by case_decide. Qed.

Lemma describes_snoc metadata_only es info tag value info' :
  describes metadata_only es info -> entry_effect metadata_only tag value info info' ->
  describes metadata_only (es ++ [(tag, value)]) info'.
Proof.
  intros (Hn & Hb & Hf) (_ & Hn' & Hb' & Hf'). split_and!.
  - rewrite Hn', Hn, filter_app, fmap_app. f_equal. rewrite filter_cons, filter_nil. simpl. by case_decide.
  - rewrite Hb', Hb, fmap_app. simpl. rewrite <- bool_decide_or. apply bool_decide_ext.
    rewrite elem_of_app, list_elem_of_singleton. naive_solver.
  - intros slot. rewrite values_of_snoc, <- Hf. destruct (entry_slot metadata_only tag) as [s|].
    + destruct Hf' as [Hnone Hset]. rewrite Hset. destruct (decide (slot = s)) as [->|Hne].
      * by rewrite Hnone, decide_True.
      * rewrite decide_False by congruence. by rewrite app_nil_r.
    + rewrite Hf', decide_False by done. by rewrite app_nil_r.
Qed.

(** The entries before the one that ends the section. *)
Fixpoint before_null (chunks : list bytes) : option (list (Z * Z)) :=
  match chunks with
  | [] => None
  | b :: chunks =>
      match entry_of b with
      | Some (tag, value) => if tag =? DT_NULL then Some [] else cons (tag, value) <$> before_null chunks
      | None => None
      end
  end.

Lemma dynamic_entries_sound metadata_only chunks info0 info es0 :
  describes metadata_only es0 info0 -> dynamic_entries metadata_only chunks info0 = Ok info ->
  exists es, before_null chunks = Some es /\ Forall (admitted metadata_only) es /\ describes metadata_only (es0 ++ es) info.
Proof.
  revert info0 es0. induction chunks as [|b chunks IH]; intros info0 es0 Hd; simpl; [done|]. unfold entry_of.
  destruct (read_i64 b 0) as [tag|]; [|done]. destruct (read_u64 b 8) as [value|]; [|done].
  destruct (tag =? DT_NULL).
  { intros [= <-]. exists []. rewrite app_nil_r. done. }
  destruct (dynamic_entry metadata_only info0 tag value) as [info1|] eqn:E; [|done]. apply dynamic_entry_effect in E as He.
  intros (es & -> & Ha & Hd')%(IH _ (es0 ++ [(tag, value)])); [|by eapply describes_snoc].
  exists ((tag, value) :: es). split; [done|]. rewrite <- app_assoc in Hd'. split; [|done]. constructor; [|done]. apply He.
Qed.

Lemma dynamic_entries_complete metadata_only chunks info0 es0 es :
  describes metadata_only es0 info0 -> before_null chunks = Some es -> Forall (admitted metadata_only) es ->
  (forall slot, (length (values_of metadata_only slot (es0 ++ es)) <= 1)%nat) ->
  exists info, dynamic_entries metadata_only chunks info0 = Ok info.
Proof.
  revert info0 es0 es. induction chunks as [|b chunks IH]; intros info0 es0 es Hd; simpl; [done|]. unfold entry_of.
  destruct (read_i64 b 0) as [tag|]; [|done]. destruct (read_u64 b 8) as [value|]; [|done].
  destruct (Z.eqb_spec tag DT_NULL) as [|Hnull]; [by eexists|]. destruct (before_null chunks) as [es'|]; [|done].
  intros [= <-] [Ha Has]%Forall_cons Hone. change ((tag, value) :: es') with ([(tag, value)] ++ es') in Hone.
  rewrite app_assoc in Hone. destruct (dynamic_entry_total metadata_only info0 tag value Hnull Ha) as [info1 E].
  { intros slot Hs. specialize (Hone slot). unfold values_of in Hone. rewrite filter_app, fmap_app, length_app in Hone.
    fold (values_of metadata_only slot (es0 ++ [(tag, value)])) in Hone. rewrite values_of_snoc, decide_True, length_app in Hone by done.
    destruct Hd as (_ & _ & Hf). rewrite <- Hf in Hone. destruct (field info0 slot); [simpl in Hone; lia|done]. }
  rewrite E. apply dynamic_entry_effect in E. eapply IH; [by eapply describes_snoc|done|done|done].
Qed.

(** Reading the dynamic section is exact.  A parsed section ends with [DT_NULL], has only the
    entries the loader admits and no field twice, and the parsed fields are the values of the
    entries in the order of the section; and every such section parses. *)
Theorem dynamic_exact bs dynamic metadata_only :
  (forall info, parse_dynamic_with_policy bs dynamic metadata_only = Ok info ->
     exists data es, checked_slice bs (offset dynamic) (file_size dynamic) "PT_DYNAMIC" = Ok data /\
       before_null (chunks_exact (Z.to_nat ELF64_DYN_SIZE) data) = Some es /\ Forall (admitted metadata_only) es /\
       describes metadata_only es info) /\
  (forall data es, checked_slice bs (offset dynamic) (file_size dynamic) "PT_DYNAMIC" = Ok data ->
     before_null (chunks_exact (Z.to_nat ELF64_DYN_SIZE) data) = Some es -> Forall (admitted metadata_only) es ->
     (forall slot, (length (values_of metadata_only slot es) <= 1)%nat) ->
     exists info, parse_dynamic_with_policy bs dynamic metadata_only = Ok info).
Proof.
  unfold parse_dynamic_with_policy, to_usize. split.
  - intros info. destruct (checked_slice _ _ _ _) as [data|]; [|done]. intros (es & ? & ? & ?)%(dynamic_entries_sound _ _ _ _ []); [|done].
    by exists data, es.
  - intros data es -> Hn Ha Hone. by apply (dynamic_entries_complete _ _ _ [] es).
Qed.

(** *** Strings *)

Lemma terminated_string_Ok data s :
  terminated_dynamic_string data = Ok s <-> exists rest, data = s ++ Byte.x00 :: rest /\ Byte.x00 ∉ s.
Proof.
  unfold terminated_dynamic_string. destruct (list_find _ data) as [[i b]|] eqn:E.
  - apply list_find_Some in E as (Hi & -> & Hbefore).
    assert (Byte.x00 ∉ take i data) as Hnot.
    { intros (j & Hj)%list_elem_of_lookup. apply lookup_take_Some in Hj as [Hj Hlt]. exact (Hbefore j _ Hj Hlt eq_refl). }
    assert (data = take i data ++ Byte.x00 :: drop (S i) data) as Hdata by (symmetry; by apply take_drop_middle).
    split.
    + intros [= <-]. by exists (drop (S i) data).
    + intros (rest & -> & Hs). do 2 f_equal. destruct (Nat.lt_trichotomy i (length s)) as [Hlt|[->|Hgt]].
      * exfalso. rewrite lookup_app_l in Hi by done. apply Hs. by eapply list_elem_of_lookup_2.
      * by rewrite take_app_length.
      * exfalso. eapply (Hbefore (length s) Byte.x00); [|done|done]. by rewrite lookup_app_r, Nat.sub_diag.
  - apply list_find_None in E. split; [done|]. intros (rest & -> & _). apply Forall_app in E as [_ [E _]%Forall_cons]. done.
Qed.

(** A string of the file: bytes without a zero, followed by a zero, inside the file bytes of a
    readable load. *)
Definition string_of_file (bs : bytes) (loads : list ProgramHeader) (table size offset_ : Z) (s : bytes) : Prop :=
  exists l at_, l ∈ loads /\ has (pflags l) PF_R = true /\ (Byte.x00 ∉ s) /\
    at_ = offset l + (table + offset_ - virtual_address l) /\ offset l <= at_ /\ len s < size - offset_ /\
    at_ + len s < offset l + file_size l /\ offset l + file_size l <= len bs /\
    slice bs (Z.to_nat at_) (Z.to_nat at_ + length s) = s /\ bs !! (Z.to_nat at_ + length s)%nat = Some Byte.x00.

Lemma dynamic_string_ok bs loads info offset_ s :
  Forall (load_ok bs) loads -> 0 <= offset_ -> (forall t, field info StringTable = Some t -> 0 <= t) ->
  Metadata.dynamic_string_bytes bs loads info offset_ = Ok s ->
  exists table size, field info StringTable = Some table /\ field info StringSize = Some size /\
    string_of_file bs loads table size offset_ s.
Proof.
  intros Hl Ho Ht. unfold Metadata.dynamic_string_bytes, to_usize. destruct (field info StringTable) as [table|]; [|done].
  destruct (field info StringSize) as [size|]; [|done]. specialize (Ht table eq_refl). simpl. destruct (Z.leb_spec size offset_); [done|].
  destruct (checked_add u64_max table offset_) as [a|] eqn:Ea; simpl; [|done]. apply checked_add_Some in Ea as [-> ?].
  destruct (checked_add u64_max (table + offset_) _) as [e|] eqn:Ee; simpl; [|done]. apply checked_add_Some in Ee as [-> ?].
  destruct (find _ loads) as [l|] eqn:Ef; simpl; [|done]. apply find_some in Ef as [Hin%list_elem_of_In Hh].
  rewrite Forall_forall in Hl. destruct (Hl l Hin) as [(_ & _ & Hof & Hv & Hf & _) _ _ _ _ Hfile _]. unfold u64_range in *.
  unfold holds_file_range in Hh. apply andb_true_iff in Hh as [[Hr Hlo]%andb_true_iff Hhi]. apply Z.leb_le in Hlo.
  destruct (checked_add u64_max (virtual_address l) (file_size l)) as [le|] eqn:El; [|done]. apply checked_add_Some in El as [-> ?].
  apply Z.leb_le in Hhi. destruct (checked_sub _ _) as [d|] eqn:Ed; simpl; [|done]. apply checked_sub_Some in Ed as [-> ?].
  destruct (checked_add u64_max (offset l) _) as [at_|] eqn:Eat; simpl; [|done]. apply checked_add_Some in Eat as [-> ?].
  set (at_ := offset l + (table + offset_ - virtual_address l)) in *.
  destruct (checked_slice bs at_ _ _) as [data|] eqn:Es; [|done]. pose proof (checked_slice_length _ _ _ _ _ Es) as Hlen.
  apply checked_slice_Ok in Es as (? & _ & Hdata); [|lia..]. intros (rest & E & Hs)%terminated_string_Ok.
  exists table, size. split_and!; try done. exists l, at_. rewrite E, len_app in Hlen. assert (1 <= len (Byte.x00 :: rest)) by (unfold len; simpl; lia).
  assert (forall i x, data !! i = Some x -> bs !! (Z.to_nat at_ + i)%nat = Some x) as Hlook.
  { intros i x. rewrite Hdata. intros [Hi _]%lookup_take_Some. by rewrite lookup_drop in Hi. }
  split_and!; try done; try lia.
  - apply list_eq. intros i. rewrite lookup_slice. destruct (Nat.ltb_spec i (Z.to_nat at_ + length s - Z.to_nat at_)) as [Hi|Hi].
    + destruct (lookup_lt_is_Some_2 s i) as [x Hx]; [lia|]. rewrite Hx. apply Hlook. rewrite E. by apply lookup_app_l_Some.
    + symmetry. apply lookup_ge_None_2. lia.
  - apply Hlook. rewrite E, lookup_app_r, Nat.sub_diag by lia. done.
Qed.

Lemma collect_Ok {A B E} (f : A -> result B E) l r : collect f l = Ok r -> Forall2 (fun a b => f a = Ok b) l r.
Proof.
  revert r. induction l as [|a l IH]; intros r; simpl; [intros [= <-]; constructor|].
  destruct (f a) eqn:Ea; [|done]. destruct (collect f l); [|done]. intros [= <-]. constructor; auto.
Qed.

Lemma transpose_Ok {A B E} (f : A -> result B E) o r :
  transpose f o = Ok r -> match o, r with Some a, Some b => f a = Ok b | None, None => True | _, _ => False end.
Proof. destruct o as [a|]; simpl; [destruct (f a); [|done]|]; by intros [= <-]. Qed.

Definition names_string (bs : bytes) (loads : list ProgramHeader) (info : DynamicInfo) (offset_ : Z) (s : bytes) : Prop :=
  exists table size, field info StringTable = Some table /\ field info StringSize = Some size /\
    string_of_file bs loads table size offset_ s.

Lemma before_null_range chunks es : before_null chunks = Some es -> Forall (fun e => u64_range e.2) es.
Proof.
  revert es. induction chunks as [|b chunks IH]; intros es; simpl; [done|]. unfold entry_of.
  destruct (read_i64 b 0) as [tag|]; [|done]. destruct (read_u64 b 8) as [value|] eqn:E; [|done].
  destruct (tag =? DT_NULL); [intros [= <-]; constructor|]. destruct (before_null chunks); [|done].
  intros [= <-]. constructor; [by eapply read_u64_range|by apply IH].
Qed.

(** The fields and offsets of a parsed section are [u64]s. *)
Lemma parsed_range bs dynamic metadata_only info :
  parse_dynamic_with_policy bs dynamic metadata_only = Ok info ->
  Forall u64_range (needed_offsets info) /\ forall slot v, field info slot = Some v -> u64_range v.
Proof.
  unfold parse_dynamic_with_policy, to_usize. destruct (checked_slice _ _ _ _) as [data|]; [|done].
  intros (es & Hn & _ & Hneed & _ & Hf)%(dynamic_entries_sound _ _ _ _ []); [|done]. apply before_null_range in Hn.
  rewrite Forall_forall in Hn. split.
  - rewrite Hneed. apply Forall_forall. intros v (e & -> & [_ He]%list_elem_of_filter)%list_elem_of_fmap. by apply Hn.
  - intros slot v Hv. specialize (Hf slot). rewrite Hv in Hf. simpl in Hf.
    assert (v ∈ values_of metadata_only slot es) as (e & -> & [_ He]%list_elem_of_filter)%list_elem_of_fmap
      by (rewrite <- Hf; by constructor). by apply Hn.
Qed.

Lemma empty_string_spec s : empty_string s = false -> s <> [].
Proof. by destruct s. Qed.

(** Inspecting a file without mapping it reports strings of the file: every library it needs
    and its own name are not empty, and each string stands, followed by a zero, at the place the
    dynamic section gives, inside the file bytes of a readable load. *)
Theorem metadata_strings host bs m :
  i32_range host -> Metadata.inspect_elf_metadata host bs = Ok m ->
  exists plan info, parse_image_with_policy_and_appcompat host bs true None = Ok plan /\
    parse_dynamic_with_policy bs (dynamic plan) true = Ok info /\
    Forall2 (names_string bs (loads plan) info) (needed_offsets info) (Metadata.needed_libraries m) /\
    Forall (fun s => s <> []) (Metadata.needed_libraries m) /\
    (forall s, Metadata.soname m = Some s -> s <> []) /\
    option_Forall2 (names_string bs (loads plan) info) (field info SonameOffset) (Metadata.soname m) /\
    option_Forall2 (names_string bs (loads plan) info) (field info RunpathOffset) (Metadata.runpath m) /\
    Metadata.flags_1 m = or_zero (field info Flags1).
Proof.
  intros Hh. unfold Metadata.inspect_elf_metadata.
  destruct (parse_image_with_policy_and_appcompat _ _ _ _) as [plan|] eqn:Ep; [|done].
  destruct (parse_dynamic_with_policy _ _ _) as [info|] eqn:Ei; [|done].
  destruct (collect _ _) as [needed|] eqn:En; [|done]. destruct (transpose _ (field info SonameOffset)) as [so|] eqn:Es; [|done].
  destruct (existsb empty_string needed) eqn:Ee; [done|]. destruct (match so with Some s => empty_string s | None => false end) eqn:Eso; [done|].
  destruct (transpose _ (field info RunpathOffset)) as [rp|] eqn:Er; [|done]. intros [= <-].
  apply parse_image_ok in Ep as Hplan; [|done]. destruct Hplan as [_ Hl _ _ _ _ _ _ _ _ _ _ _ _].
  apply parsed_range in Ei as Hr. destruct Hr as [Hneed Hfield].
  assert (forall o s, u64_range o -> Metadata.dynamic_string_bytes bs (loads plan) info o = Ok s -> names_string bs (loads plan) info o s) as Hs.
  { intros o s [Ho _]. apply dynamic_string_ok; [done..|]. intros t Ht. by destruct (Hfield _ _ Ht). }
  apply collect_Ok in En. exists plan, info. split_and!; [done|done| | | | | |done]; simpl.
  - clear -En Hneed Hs. induction En; [constructor|]. apply Forall_cons in Hneed as [? ?]. constructor; auto.
  - apply Forall_forall. intros s Hin. apply empty_string_spec, not_true_iff_false. intros E.
    rewrite <- not_true_iff_false in Ee. apply Ee, existsb_exists. exists s. split; [by apply list_elem_of_In|done].
  - intros s ->. by apply empty_string_spec.
  - apply transpose_Ok in Es. destruct (field info SonameOffset) as [o|] eqn:Eo, so; try done; constructor. eapply Hs; [by eapply Hfield|done].
  - apply transpose_Ok in Er. destruct (field info RunpathOffset) as [o|] eqn:Eo, rp; try done; constructor. eapply Hs; [by eapply Hfield|done].
Qed.

(** ** A file *)

Definition dynamic_section (at_ : nat) (entries : list (Z * Z)) : list (nat * bytes) :=
  imap (fun i e => (at_ + i * 16, u64_le e.1 ++ u64_le e.2)%nat) entries.

(** The image of the source's tests of the metadata: one readable load with the dynamic section and
    a string. *)
Definition metadata_elf (runpath : bytes) : bytes :=
  put (zeroed 512)
    (elf_header 2 ++ elf_segment 0 PT_LOAD PF_R 0 0x1000 512 512 4096 ++ elf_segment 1 PT_DYNAMIC PF_R 176 0x10b0 64 64 8 ++
     dynamic_section 176 [(DT_STRTAB, 0x1100); (DT_STRSZ, len runpath); (DT_RUNPATH, 0); (DT_NULL, 0)] ++ [(256%nat, runpath)]).

(** At the image of the tests. *)
Lemma metadata_strings_witness :
  exists m, Metadata.inspect_elf_metadata 4096 (metadata_elf [Byte.x2f; Byte.x61; Byte.x00]) = Ok m /\
    Metadata.runpath m = Some [Byte.x2f; Byte.x61] /\ forall s, Metadata.soname m = Some s -> s <> [].
Proof.
  eexists. split; [vm_compute; reflexivity|]. split; [done|].
  destruct (metadata_strings 4096 (metadata_elf [Byte.x2f; Byte.x61; Byte.x00]) _ ltac:(done) ltac:(vm_compute; reflexivity))
    as (_ & _ & _ & _ & _ & _ & H & _). exact H.
Defined.
