(* ===== verification/ElfTls.v ===== *)
(** * Thread-local storage of loaded images ([tls.rs])

    Modules, their per-thread blocks, and the process-wide registry of TLS descriptors.  The
    modules are shared ([Arc]), so they live in a map by identifier; the blocks of all threads are
    one map from a thread and a module.  An abort of the process is [None].  The addresses the
    allocator returns are arguments. *)
From S2P Require Import Prelude ElfBase ElfRewrite ElfPlan.
From coqutil Require Import Byte.

Record TlsModule : Type := {
  tmemory_size : Z; talignment : Z; template : bytes; accepting : bool; active_threads : Z }.

Record TlsDescriptorContext : Type := {
  cmodule : Z; coffset : Z; descriptor_address : Z; thread_pointer_base : Z }.

(** [ThreadTlsAllocation]: its address and what it held when it was made. *)
Record Block : Type := { pointer : Z; initial : bytes }.

Record Tls : Type := {
  next_tls_module_id : Z; next_tls_descriptor_token : Z;
  modules : gmap Z TlsModule; registry : gmap Z TlsDescriptorContext; blocks : gmap (Z * Z) Block }.

Definition initial_tls : Tls :=
  {| next_tls_module_id := 1; next_tls_descriptor_token := 1; modules := ∅; registry := ∅; blocks := ∅ |}.

Definition set_module (t : Tls) (id : Z) (module : TlsModule) : Tls :=
  {| next_tls_module_id := next_tls_module_id t; next_tls_descriptor_token := next_tls_descriptor_token t;
     modules := <[id := module]> (modules t); registry := registry t; blocks := blocks t |}.
Definition set_blocks (t : Tls) (b : gmap (Z * Z) Block) : Tls :=
  {| next_tls_module_id := next_tls_module_id t; next_tls_descriptor_token := next_tls_descriptor_token t;
     modules := modules t; registry := registry t; blocks := b |}.
Definition set_registry (t : Tls) (r : gmap Z TlsDescriptorContext) : Tls :=
  {| next_tls_module_id := next_tls_module_id t; next_tls_descriptor_token := next_tls_descriptor_token t;
     modules := modules t; registry := r; blocks := blocks t |}.
Definition set_lifecycle (module : TlsModule) (accepting : bool) (active : Z) : TlsModule :=
  {| tmemory_size := tmemory_size module; talignment := talignment module; template := template module;
     accepting := accepting; active_threads := active |}.

(** [TlsModule::new]; the identifier counter stays at its end once exhausted. *)
Definition new_module (t : Tls) (header : ProgramHeader) (bs : bytes) : Tls * result Z LoadError :=
  match to_usize (memory_size header) "PT_TLS memory size", to_usize (alignment header) "PT_TLS alignment",
        checked_slice bs (offset header) (file_size header) "PT_TLS file range" with
  | Ok memory_size, Ok alignment, Ok template =>
      match checked_add u64_max (next_tls_module_id t) 1 with
      | None => (t, Err (Bounds "TLS module identifier exhausted"))
      | Some next =>
          let id := next_tls_module_id t in
          ({| next_tls_module_id := next; next_tls_descriptor_token := next_tls_descriptor_token t;
              modules := <[id := {| tmemory_size := memory_size; talignment := alignment; template := template;
                                    accepting := true; active_threads := 0 |}]> (modules t);
              registry := registry t; blocks := blocks t |}, Ok id)
      end
  | Err e, _, _ | _, Err e, _ | _, _, Err e => (t, Err e)
  end.

Definition seal_for_unload (t : Tls) (id : Z) : Tls * result unit LoadError :=
  match modules t !! id with
  | None => (t, Ok tt)
  | Some module =>
      (set_module t id (set_lifecycle module false (active_threads module)),
       if active_threads module =? 0 then Ok tt else Err (TlsInUse (active_threads module)))
  end.

(** [Layout::from_size_align], and the precondition of [alloc_zeroed]: the size is not zero. *)
Definition layout_ok (size alignment : Z) : bool :=
  is_power_of_two alignment && (size <=? isize_max - (alignment - 1)) && (0 <? size).

(** [ThreadTlsAllocation::new], with the address the allocator returns.  The template must fit the
    block it is copied to. *)
Definition allocate_block (t : Tls) (thread id : Z) (raw : option Z) : option (Tls * Block) :=
  module ← modules t !! id;
  if negb (accepting module) then None else
  active ← checked_add usize_max (active_threads module) 1;
  if negb (layout_ok (tmemory_size module) (talignment module)) then None else
  raw ← raw;
  if tmemory_size module <? len (template module) then None else
  let block := {| pointer := raw;
                  initial := copy_at 0 (template module) (zeroed (Z.to_nat (tmemory_size module))) |} in
  Some (set_blocks (set_module t id (set_lifecycle module true active)) (<[(thread, id) := block]> (blocks t)), block).

(** Dropping a [ThreadTlsAllocation]. *)
Definition drop_block (t : Tls) (thread id : Z) : option Tls :=
  module ← modules t !! id;
  active ← checked_sub (active_threads module) 1;
  Some (set_blocks (set_module t id (set_lifecycle module (accepting module) active)) (delete (thread, id) (blocks t))).

Definition release_current_thread_tls (t : Tls) (thread id : Z) : option Tls :=
  match blocks t !! (thread, id) with
  | Some _ => drop_block t thread id
  | None => Some t
  end.

(** The destructor of a thread's blocks. *)
Fixpoint release_blocks (t : Tls) (thread : Z) (ids : list Z) : option Tls :=
  match ids with
  | [] => Some t
  | id :: ids => t ← release_current_thread_tls t thread id; release_blocks t thread ids
  end.
Definition exit_thread (t : Tls) (thread : Z) : option Tls :=
  release_blocks t thread (snd <$> filter (fun k => k.1 = thread) (map_to_list (blocks t)).*1).

Definition register_tls_descriptor (t : Tls) (context : TlsDescriptorContext) : option (Tls * result Z LoadError) :=
  match checked_add u64_max (next_tls_descriptor_token t) 1 with
  | None => Some (t, Err (Bounds "TLS descriptor token exhausted"))
  | Some next =>
      let token := next_tls_descriptor_token t in
      match registry t !! token with
      | Some _ => None
      | None =>
          Some ({| next_tls_module_id := next_tls_module_id t; next_tls_descriptor_token := next; modules := modules t;
                   registry := <[token := context]> (registry t); blocks := blocks t |}, Ok token)
      end
  end.

Fixpoint unregister_tls_descriptors (t : Tls) (tokens : list Z) : option Tls :=
  match tokens with
  | [] => Some t
  | token :: tokens =>
      match registry t !! token with
      | None => None
      | Some _ => unregister_tls_descriptors (set_registry t (delete token (registry t))) tokens
      end
  end.

(** [darwin_art_tlsdesc_resolve_impl] on a thread. *)
Definition tlsdesc_resolve (t : Tls) (thread token address : Z) (raw : option Z) : option (Tls * Z) :=
  context ← registry t !! token;
  if negb (descriptor_address context =? address) then None else
  '(t, block) ← match blocks t !! (thread, cmodule context) with
                | Some block => Some (t, block)
                | None => allocate_block t thread (cmodule context) raw
                end;
  Some (t, as_i64 (pointer block + coffset context - thread_pointer_base context)).

(** [LoadedElf::refresh_tls_template] with the bytes of the loaded image. *)
Definition refresh_template (t : Tls) (id : Z) (bs : bytes) : Tls :=
  match modules t !! id with
  | None => t
  | Some module =>
      set_module t id {| tmemory_size := tmemory_size module; talignment := talignment module; template := bs;
                         accepting := accepting module; active_threads := active_threads module |}
  end.

(** The part of dropping a [LoadedElf] that ends its thread-local storage, before the unmapping. *)
Definition unload (t : Tls) (thread : Z) (tokens : list Z) (module : option Z) : option Tls :=
  t ← unregister_tls_descriptors t tokens;
  match module with
  | None => Some t
  | Some id =>
      t ← release_current_thread_tls t thread id;
      match seal_for_unload t id with
      | (t, Ok _) => Some t
      | (_, Err _) => None
      end
  end.

(** ** Runs *)

(** The steps of a process.  A module comes from a segment the parser validated; a descriptor names
    an offset inside the memory of a module ([apply_tlsdesc_relocation] checks it); the template of
    a module is refreshed with the file bytes of its segment. *)
Inductive step (t : Tls) : Tls -> Prop :=
| step_new header bs loads t' r :
    header_ok header -> validate_tls_segment bs header loads = Ok tt -> new_module t header bs = (t', r) -> step t t'
| step_register context module t' r :
    modules t !! cmodule context = Some module -> 0 <= coffset context < tmemory_size module ->
    register_tls_descriptor t context = Some (t', r) -> step t t'
| step_resolve thread token address raw t' v : tlsdesc_resolve t thread token address raw = Some (t', v) -> step t t'
| step_exit thread t' : exit_thread t thread = Some t' -> step t t'
| step_refresh id module bs :
    modules t !! id = Some module -> len bs <= tmemory_size module -> step t (refresh_template t id bs)
| step_unload thread tokens module t' : unload t thread tokens module = Some t' -> step t t'.

Definition reachable (t : Tls) : Prop := rtc step initial_tls t.

(** The threads that hold a block of a module. *)
Definition holders (t : Tls) (id : Z) : gset (Z * Z) := filter (fun k => k.2 = id) (dom (blocks t)).

Definition module_ok (m : TlsModule) : Prop :=
  layout_ok (tmemory_size m) (talignment m) = true /\ len (template m) <= tmemory_size m.

Record tls_ok (t : Tls) : Prop := {
  ok_modules : forall id m, modules t !! id = Some m ->
    id < next_tls_module_id t /\ module_ok m /\ active_threads m = Z.of_nat (size (holders t id));
  ok_registry : forall token c, registry t !! token = Some c ->
    token < next_tls_descriptor_token t /\ exists m, modules t !! cmodule c = Some m /\ 0 <= coffset c < tmemory_size m;
  ok_blocks : forall thread id b, blocks t !! (thread, id) = Some b ->
    exists m, modules t !! id = Some m /\ len (initial b) = tmemory_size m }.

Lemma tls_initial_ok : tls_ok initial_tls.
Proof. constructor; intros *; simpl; by rewrite lookup_empty. Qed.

(** *** Counting blocks *)

Lemma elem_of_holders t id k : k ∈ holders t id <-> k.2 = id /\ is_Some (blocks t !! k).
Proof. unfold holders. by rewrite elem_of_filter, elem_of_dom. Qed.

Lemma holders_insert t t' thread id b :
  blocks t' = <[(thread, id) := b]> (blocks t) -> blocks t !! (thread, id) = None ->
  forall j, Z.of_nat (size (holders t' j)) = Z.of_nat (size (holders t j)) + (if decide (j = id) then 1 else 0).
Proof.
  intros Hb Hn j. assert ((thread, id) ∉ holders t id) as Hnot by (rewrite elem_of_holders, Hn; intros [_ []%is_Some_None]).
  destruct (decide (j = id)) as [->|Hne].
  - assert (holders t' id = {[(thread, id)]} ∪ holders t id) as ->.
    { apply set_eq. intros k. rewrite elem_of_union, elem_of_singleton, !elem_of_holders, Hb, lookup_insert_is_Some'. naive_solver. }
    rewrite size_union, size_singleton by set_solver. lia.
  - assert (holders t' j = holders t j) as ->; [|lia]. apply set_eq. intros k. rewrite !elem_of_holders, Hb, lookup_insert_is_Some'.
    naive_solver.
Qed.

Lemma holders_delete t t' thread id b :
  blocks t' = delete (thread, id) (blocks t) -> blocks t !! (thread, id) = Some b ->
  forall j, Z.of_nat (size (holders t' j)) = Z.of_nat (size (holders t j)) - (if decide (j = id) then 1 else 0).
Proof.
  intros Hb Hs j. assert (blocks t = <[(thread, id) := b]> (blocks t')) as E by (by rewrite Hb, insert_delete_id).
  assert (blocks t' !! (thread, id) = None) as Hn by (by rewrite Hb, lookup_delete_eq).
  rewrite (holders_insert t' t thread id b E Hn j). lia.
Qed.

Lemma holders_same t t' id : blocks t' = blocks t -> holders t' id = holders t id.
Proof. intros E. unfold holders. by rewrite E. Qed.

(** *** The operations keep the invariant *)

(** A change of one module and of the blocks. *)
Lemma module_change t t' id m m' :
  tls_ok t -> modules t !! id = Some m -> modules t' = <[id := m']> (modules t) ->
  next_tls_module_id t' = next_tls_module_id t -> next_tls_descriptor_token t' = next_tls_descriptor_token t ->
  registry t' = registry t -> tmemory_size m' = tmemory_size m -> module_ok m' ->
  active_threads m' = Z.of_nat (size (holders t' id)) ->
  (forall j, j <> id -> Z.of_nat (size (holders t' j)) = Z.of_nat (size (holders t j))) ->
  (forall thread j b, blocks t' !! (thread, j) = Some b ->
     blocks t !! (thread, j) = Some b \/ (j = id /\ len (initial b) = tmemory_size m)) ->
  tls_ok t'.
Proof.
  intros [Hm Hr Hb] Hid Em En Et Er Hsize Hok Hactive Hother Hblocks.
  assert (forall j mj, modules t !! j = Some mj -> exists mj', modules t' !! j = Some mj' /\ tmemory_size mj' = tmemory_size mj) as Hkeep.
  { intros j mj Hj. rewrite Em. destruct (decide (j = id)) as [->|].
    - rewrite lookup_insert_eq. exists m'. split; [done|]. congruence.
    - rewrite lookup_insert_ne by done. by exists mj. }
  constructor.
  - intros j mj. rewrite Em, En. destruct (decide (j = id)) as [->|Hne].
    + rewrite lookup_insert_eq. intros [= <-]. destruct (Hm id m Hid) as (? & _ & _). done.
    + rewrite lookup_insert_ne by done. intros Hj. destruct (Hm j mj Hj) as (? & ? & ?). rewrite Hother by done. done.
  - intros token c. rewrite Er, Et. intros Hc. destruct (Hr token c Hc) as (? & mc & Hmc & ?). split; [done|].
    destruct (Hkeep _ _ Hmc) as (mc' & ? & E). exists mc'. by rewrite E.
  - intros thread j b Hbl. destruct (Hblocks thread j b Hbl) as [Hold|[-> Hlen]].
    + destruct (Hb thread j b Hold) as (mj & Hmj & ->). destruct (Hkeep _ _ Hmj) as (mj' & ? & <-). by exists mj'.
    + destruct (Hkeep _ _ Hid) as (mj' & ? & E). exists mj'. by rewrite E.
Qed.

Lemma allocate_block_ok t thread id raw t' b :
  tls_ok t -> blocks t !! (thread, id) = None -> allocate_block t thread id raw = Some (t', b) ->
  tls_ok t' /\ raw = Some (pointer b) /\ registry t' = registry t /\ blocks t' = <[(thread, id) := b]> (blocks t) /\
  exists m, modules t !! id = Some m /\ accepting m = true /\
    initial b = template m ++ zeroed (Z.to_nat (tmemory_size m) - length (template m)).
Proof.
  intros Hok Hn. unfold allocate_block. destruct (modules t !! id) as [m|] eqn:Em; simpl; [|done].
  destruct (accepting m) eqn:Ea; simpl; [|done].
  destruct (checked_add _ _ _) as [active|] eqn:Eadd; simpl; [|done]. apply checked_add_Some in Eadd as [-> _].
  destruct (layout_ok _ _) eqn:El; simpl; [|done]. destruct raw as [raw|]; simpl; [|done].
  destruct (Z.ltb_spec (tmemory_size m) (len (template m))); [done|]. intros [= <- <-].
  destruct (ok_modules t Hok id m Em) as (_ & Hm & Hact).
  assert (initial {| pointer := raw; initial := copy_at 0 (template m) (zeroed (Z.to_nat (tmemory_size m))) |} =
          template m ++ zeroed (Z.to_nat (tmemory_size m) - length (template m))) as Hinit.
  { simpl. rewrite copy_at_def, take_0. simpl. unfold zeroed. by rewrite drop_replicate. }
  split_and!; [|done..|by exists m].
  eapply (module_change t _ id m (set_lifecycle m true (active_threads m + 1))); try done.
  - erewrite (holders_insert t _ thread id); [|simpl; reflexivity|exact Hn]. rewrite decide_True by done. simpl. lia.
  - intros j Hj. erewrite (holders_insert t _ thread id); [|simpl; reflexivity|exact Hn]. rewrite decide_False by done. lia.
  - intros th j b. simpl. destruct (decide ((thread, id) = (th, j))) as [[= -> ->]|Hne].
    + rewrite lookup_insert_eq. intros [= <-]. right. split; [done|]. rewrite Hinit. unfold layout_ok in El. unfold len in *.
      rewrite length_app. unfold zeroed. rewrite length_replicate. lia.
    + rewrite lookup_insert_ne by done. by left.
Qed.

Lemma drop_block_ok t thread id b :
  tls_ok t -> blocks t !! (thread, id) = Some b ->
  exists t', drop_block t thread id = Some t' /\ tls_ok t' /\ blocks t' = delete (thread, id) (blocks t).
Proof.
  intros Hok Hb. destruct (ok_blocks t Hok thread id b Hb) as (m & Em & Hlen). destruct (ok_modules t Hok id m Em) as (_ & Hm & Hact).
  assert (1 <= size (holders t id))%nat as Hpos.
  { assert ((thread, id) ∈ holders t id) as Hin by (rewrite elem_of_holders, Hb; split; [done|by eexists]).
    destruct (size (holders t id)) eqn:E; [|lia]. apply size_empty_inv in E. by apply E, elem_of_empty in Hin. }
  unfold drop_block, checked_sub. rewrite Em. simpl. rewrite (proj2 (Z.leb_le 1 (active_threads m))) by lia. simpl.
  eexists. split_and!; [done| |done].
  eapply (module_change t _ id m (set_lifecycle m (accepting m) (active_threads m - 1))); try done.
  - erewrite (holders_delete t _ thread id b); [|simpl; reflexivity|exact Hb]. rewrite decide_True by done. simpl. lia.
  - intros j Hj. erewrite (holders_delete t _ thread id b); [|simpl; reflexivity|exact Hb]. rewrite decide_False by done. lia.
  - intros th j b'. simpl. intros [_ ?]%lookup_delete_Some. by left.
Qed.

Lemma tls_release_ok t thread id :
  tls_ok t -> exists t', release_current_thread_tls t thread id = Some t' /\ tls_ok t' /\ blocks t' = delete (thread, id) (blocks t).
Proof.
  intros Hok. unfold release_current_thread_tls. destruct (blocks t !! (thread, id)) as [b|] eqn:Eb; [by eapply drop_block_ok|].
  exists t. rewrite delete_id by done. done.
Qed.

Lemma release_blocks_ok t thread ids :
  tls_ok t -> exists t', release_blocks t thread ids = Some t' /\ tls_ok t' /\
    forall k, blocks t' !! k = if decide (k.1 = thread /\ k.2 ∈ ids) then None else blocks t !! k.
Proof.
  revert t. induction ids as [|id ids IH]; intros t Hok; simpl.
  { exists t. split_and!; try done. intros k. rewrite decide_False; [done|]. intros [_ []%not_elem_of_nil]. }
  destruct (tls_release_ok t thread id Hok) as (t1 & -> & Hok1 & Hb1). simpl. destruct (IH t1 Hok1) as (t' & -> & Hok' & Hb').
  exists t'. split_and!; try done. intros [th j]. rewrite Hb', Hb1. simpl.
  destruct (decide (th = thread /\ j ∈ ids)), (decide (th = thread /\ j ∈ id :: ids)) as [Hy|Hno]; try done; try (exfalso; set_solver).
  - destruct Hy as [-> Hy]. assert (j = id) as -> by set_solver. by rewrite lookup_delete_eq.
  - rewrite lookup_delete_ne; [done|]. intros [= -> ->]. set_solver.
Qed.

Lemma exit_thread_ok t thread :
  tls_ok t -> exists t', exit_thread t thread = Some t' /\ tls_ok t' /\
    forall k, blocks t' !! k = if decide (k.1 = thread) then None else blocks t !! k.
Proof.
  intros Hok. destruct (release_blocks_ok t thread (snd <$> filter (fun k => k.1 = thread) (map_to_list (blocks t)).*1) Hok)
    as (t' & E & Hok' & Hb). exists t'. split_and!; try done. intros [th id]. rewrite Hb. simpl.
  destruct (decide (th = thread)) as [->|Hne]; [|by rewrite decide_False by tauto]. case_decide as Hin; [done|].
  destruct (blocks t !! (thread, id)) as [b|] eqn:Eb; [|done]. exfalso. apply Hin. split; [done|].
  apply list_elem_of_fmap. exists (thread, id). split; [done|]. apply list_elem_of_filter. split; [done|].
  apply list_elem_of_fmap. exists ((thread, id), b). split; [done|]. by apply elem_of_map_to_list.
Qed.

Lemma seal_ok t id t' r :
  tls_ok t -> seal_for_unload t id = (t', r) ->
  tls_ok t' /\ blocks t' = blocks t /\ registry t' = registry t /\
  forall m, modules t !! id = Some m -> exists m', modules t' !! id = Some m' /\ accepting m' = false /\
    (r = Ok tt <-> holders t id = ∅).
Proof.
  intros Hok. unfold seal_for_unload. destruct (modules t !! id) as [m|] eqn:Em.
  2: { intros [= <- <-]. done. }
  intros [= <- <-]. destruct (ok_modules t Hok id m Em) as (_ & Hm & Hact). split_and!; [|done|done|].
  - eapply (module_change t _ id m (set_lifecycle m false (active_threads m))); try done. intros th j b ?. by left.
  - intros ? [= <-]. eexists. split_and!; [apply lookup_insert_eq|done|]. rewrite <- leibniz_equiv_iff, <- size_empty_iff.
    destruct (Z.eqb_spec (active_threads m) 0); split; try done; lia.
Qed.

Lemma registry_change t t' :
  tls_ok t -> modules t' = modules t -> blocks t' = blocks t -> next_tls_module_id t' = next_tls_module_id t ->
  (forall token c, registry t' !! token = Some c ->
     token < next_tls_descriptor_token t' /\ exists m, modules t !! cmodule c = Some m /\ 0 <= coffset c < tmemory_size m) ->
  tls_ok t'.
Proof.
  intros [Hm Hr Hb] Em Eb En Hreg. constructor; rewrite ?Em, ?Eb, ?En; [|done|done].
  intros id m Hid. rewrite (holders_same t t' id Eb). auto.
Qed.

Lemma tls_register_ok t context m t' r :
  tls_ok t -> modules t !! cmodule context = Some m -> 0 <= coffset context < tmemory_size m ->
  register_tls_descriptor t context = Some (t', r) -> tls_ok t'.
Proof.
  intros Hok Hm Ho. unfold register_tls_descriptor. destruct (checked_add _ _ _) as [next|] eqn:E; [|by intros [= <- _]].
  apply checked_add_Some in E as [-> _]. destruct (registry t !! _) eqn:Er; [done|]. intros [= <- _].
  apply (registry_change t); try done. simpl. intros token c. destruct (decide (token = next_tls_descriptor_token t)) as [->|Hne].
  - rewrite lookup_insert_eq. intros [= <-]. split; [lia|by exists m].
  - rewrite lookup_insert_ne by done. intros Hc. destruct (ok_registry t Hok token c Hc) as [? ?]. split; [lia|done].
Qed.

Lemma unregister_ok t tokens t' :
  tls_ok t -> unregister_tls_descriptors t tokens = Some t' ->
  tls_ok t' /\ modules t' = modules t /\ blocks t' = blocks t /\
  forall token, registry t' !! token = if decide (token ∈ tokens) then None else registry t !! token.
Proof.
  revert t. induction tokens as [|token tokens IH]; intros t Hok; simpl.
  { intros [= <-]. done. }
  destruct (registry t !! token) eqn:Er; [|done]. intros (Hok' & Hm & Hb & Hr)%IH.
  - split_and!; try done. intros k. rewrite Hr. simpl. destruct (decide (k = token)) as [->|Hne].
    + rewrite lookup_delete_eq. rewrite (decide_True (P := token ∈ token :: tokens)) by constructor. by case_decide.
    + rewrite lookup_delete_ne by done. destruct (decide (k ∈ tokens)), (decide (k ∈ token :: tokens)); try done; exfalso; set_solver.
  - apply (registry_change t); try done. simpl. intros k c [_ Hc]%lookup_delete_Some. by apply (ok_registry t Hok).
Qed.

Lemma tls_segment_layout bs header loads :
  header_ok header -> validate_tls_segment bs header loads = Ok tt ->
  layout_ok (memory_size header) (alignment header) = true /\ file_size header <= memory_size header.
Proof.
  intros (_ & _ & _ & _ & Hf & Hm & Hal). unfold validate_tls_segment, u64_range in *.
  destruct (Z.eqb_spec (memory_size header) 0), (Z.ltb_spec (memory_size header) (file_size header)); simpl; try done.
  destruct (Z.ltb_spec MAX_TLS_SIZE (memory_size header)); [done|]. destruct (negb (pflags header =? PF_R)); [done|].
  destruct (Z.eqb_spec (alignment header) 0); simpl; [done|]. destruct (is_power_of_two (alignment header)) eqn:Ep; simpl; [|done].
  destruct (Z.ltb_spec MAX_TLS_ALIGNMENT (alignment header)); simpl; [done|]. intros _. split; [|lia].
  unfold layout_ok, MAX_TLS_SIZE, MAX_TLS_ALIGNMENT in *. rewrite Ep.
  rewrite (proj2 (Z.leb_le _ _)) by (unfold isize_max; lia). simpl. apply Z.ltb_lt. lia.
Qed.

Lemma new_module_ok t header bs loads t' r :
  tls_ok t -> header_ok header -> validate_tls_segment bs header loads = Ok tt -> new_module t header bs = (t', r) -> tls_ok t'.
Proof.
  intros Hok Hh Hv. destruct (tls_segment_layout bs header loads Hh Hv) as [Hl Hf]. unfold new_module, to_usize.
  destruct (checked_slice bs _ _ _) as [tpl|] eqn:Es; [|by intros [= <- _]]. apply checked_slice_length in Es.
  destruct (checked_add _ _ _) as [next|] eqn:E; [|by intros [= <- _]]. apply checked_add_Some in E as [-> _]. intros [= <- _].
  set (id := next_tls_module_id t). assert (modules t !! id = None) as Hnew.
  { destruct (modules t !! id) as [m|] eqn:Em; [|done]. destruct (ok_modules t Hok id m Em) as (? & _). lia. }
  destruct Hok as [Hm Hr Hb]. constructor; simpl.
  - intros j m. destruct (decide (j = id)) as [->|Hne].
    + rewrite lookup_insert_eq. intros [= <-]. split_and!; [lia|split; simpl; [done|lia]|]. simpl.
      assert (holders t id = ∅) as E.
      { apply set_eq. intros [th j]. rewrite elem_of_holders. simpl. split; [|set_solver]. intros [-> [b Hbl]].
        destruct (Hb th id b Hbl) as (m & Hid & _). congruence. }
      unfold holders in *. simpl. by rewrite E, size_empty.
    + rewrite lookup_insert_ne by done. intros Hj. destruct (Hm j m Hj) as (? & ? & ?). split_and!; [lia|done|done].
  - intros token c Hc. destruct (Hr token c Hc) as (? & m & Hmc & ?). split; [done|]. exists m. split; [|done].
    rewrite lookup_insert_ne; [done|]. intros E. rewrite <- E, Hnew in Hmc. done.
  - intros th j b Hbl. destruct (Hb th j b Hbl) as (m & Hmj & ?). exists m. split; [|done].
    rewrite lookup_insert_ne; [done|]. intros E. rewrite <- E, Hnew in Hmj. done.
Qed.

Lemma refresh_ok t id m bs : tls_ok t -> modules t !! id = Some m -> len bs <= tmemory_size m -> tls_ok (refresh_template t id bs).
Proof.
  intros Hok Hm Hlen. unfold refresh_template. rewrite Hm. destruct (ok_modules t Hok id m Hm) as (_ & [Hl _] & Hact).
  eapply (module_change t _ id m); try done. intros th j b ?. by left.
Qed.

Lemma tls_resolve_ok t thread token address raw t' v :
  tls_ok t -> tlsdesc_resolve t thread token address raw = Some (t', v) ->
  tls_ok t' /\ registry t' = registry t /\ exists c b,
    registry t !! token = Some c /\ descriptor_address c = address /\ blocks t' !! (thread, cmodule c) = Some b /\
    v = as_i64 (pointer b + coffset c - thread_pointer_base c) /\
    match blocks t !! (thread, cmodule c) with
    | Some b' => t' = t /\ b' = b
    | None => raw = Some (pointer b) /\ blocks t' = <[(thread, cmodule c) := b]> (blocks t) /\
        exists m, modules t !! cmodule c = Some m /\ accepting m = true /\
          initial b = template m ++ zeroed (Z.to_nat (tmemory_size m) - length (template m))
    end.
Proof.
  intros Hok. unfold tlsdesc_resolve. destruct (registry t !! token) as [c|] eqn:Er; simpl; [|done].
  destruct (Z.eqb_spec (descriptor_address c) address) as [E|]; simpl; [|done].
  destruct (blocks t !! (thread, cmodule c)) as [b|] eqn:Eb; simpl.
  - intros [= <- <-]. split_and!; [done|done|]. exists c, b. by rewrite Eb.
  - destruct (allocate_block t thread (cmodule c) raw) as [[t1 b]|] eqn:Ea; simpl; [|done]. intros [= <- <-].
    apply allocate_block_ok in Ea as (Hok1 & Hraw & Hreg & Hbl & Hm); [|done..].
    split_and!; [done|done|]. exists c, b. rewrite Eb, Hbl, lookup_insert_eq. by split_and!.
Qed.

Lemma unload_ok t thread tokens module t' :
  tls_ok t -> unload t thread tokens module = Some t' ->
  tls_ok t' /\ forall id m, module = Some id -> modules t !! id = Some m ->
    holders t' id = ∅ /\ exists m', modules t' !! id = Some m' /\ accepting m' = false.
Proof.
  intros Hok. unfold unload. destruct (unregister_tls_descriptors t tokens) as [t1|] eqn:E1; simpl; [|done].
  apply unregister_ok in E1 as (Hok1 & Hm1 & Hb1 & _); [|done]. destruct module as [id|]; [|by intros [= <-]].
  destruct (tls_release_ok t1 thread id Hok1) as (t2 & E2 & Hok2 & Hb2). rewrite E2. simpl.
  destruct (seal_for_unload t2 id) as [t3 r] eqn:E3. apply seal_ok in E3 as (Hok3 & Hb3 & _ & Hseal); [|done].
  destruct r as [u|]; [|done]. intros [= <-]. split; [done|]. intros id' m [= <-] Hm.
  assert (exists m2, modules t2 !! id = Some m2) as [m2 Hm2].
  { revert E2. unfold release_current_thread_tls, drop_block. rewrite Hm1, Hm. destruct (blocks t1 !! _); simpl.
    - destruct (checked_sub _ _); simpl; [|done]. intros [= <-]. eexists. apply lookup_insert_eq.
    - intros [= <-]. rewrite Hm1. by exists m. }
  destruct (Hseal m2 Hm2) as (m' & Hm' & Hacc & Hiff). split; [|by exists m'].
  rewrite (holders_same t2 t3 id Hb3). destruct u. by apply Hiff.
Qed.

Lemma tls_step_ok t t' : tls_ok t -> step t t' -> tls_ok t'.
Proof.
  intros Hok []; [by eapply new_module_ok|by eapply tls_register_ok|by eapply tls_resolve_ok| |by eapply refresh_ok|by eapply unload_ok].
  destruct (exit_thread_ok t thread Hok) as (t2 & E & ? & _). congruence.
Qed.

Lemma tls_steps_ok t t' : rtc step t t' -> tls_ok t -> tls_ok t'.
Proof. induction 1; eauto using tls_step_ok. Qed.

Lemma tls_reachable_ok t : reachable t -> tls_ok t.
Proof. intros H. exact (tls_steps_ok _ _ H tls_initial_ok). Qed.

(** *** Sealed modules *)

Definition sealed (id : Z) (t : Tls) : Prop :=
  holders t id = ∅ /\ exists m, modules t !! id = Some m /\ accepting m = false.

Lemma sealed_no_block id t thread : sealed id t -> blocks t !! (thread, id) = None.
Proof.
  intros [Hh _]. destruct (blocks t !! (thread, id)) as [b|] eqn:E; [|done]. exfalso.
  assert ((thread, id) ∈ holders t id) as Hin by (rewrite elem_of_holders, E; split; [done|by eexists]). by rewrite Hh in Hin.
Qed.

Lemma sealed_resolve id t thread token address raw c :
  sealed id t -> registry t !! token = Some c -> cmodule c = id -> tlsdesc_resolve t thread token address raw = None.
Proof.
  intros Hs Hr Hc. unfold tlsdesc_resolve. rewrite Hr. simpl. case_match; [done|]. rewrite Hc, (sealed_no_block id t thread Hs).
  unfold allocate_block. destruct Hs as [_ (m & -> & Ha)]. simpl. by rewrite Ha.
Qed.

(** What a step leaves of a sealed module. *)
Definition keeps (t t' : Tls) : Prop :=
  forall id m, modules t !! id = Some m -> accepting m = false -> exists m', modules t' !! id = Some m' /\ accepting m' = false.

Lemma tls_keeps_refl t : keeps t t.
Proof. intros id m. eauto. Qed.

Lemma tls_keeps_trans t1 t2 t3 : keeps t1 t2 -> keeps t2 t3 -> keeps t1 t3.
Proof. intros H1 H2 id m Hm Ha. destruct (H1 id m Hm Ha) as (m2 & ? & ?). by eapply H2. Qed.

Lemma keeps_insert t t' id m m' :
  modules t !! id = Some m -> modules t' = <[id := m']> (modules t) -> (accepting m = false -> accepting m' = false) -> keeps t t'.
Proof.
  intros Hid E Ha j mj Hj Hacc. rewrite E. destruct (decide (j = id)) as [->|Hne].
  - rewrite lookup_insert_eq. exists m'. split; [done|]. apply Ha. congruence.
  - rewrite lookup_insert_ne by done. by exists mj.
Qed.

Lemma release_keeps t thread id t' : release_current_thread_tls t thread id = Some t' -> keeps t t'.
Proof.
  unfold release_current_thread_tls, drop_block. destruct (blocks t !! _); [|intros [= <-]; apply tls_keeps_refl].
  destruct (modules t !! id) as [m|] eqn:Em; simpl; [|done]. destruct (checked_sub _ _); simpl; [|done]. intros [= <-].
  by eapply keeps_insert.
Qed.

Lemma release_blocks_keeps t thread ids t' : release_blocks t thread ids = Some t' -> keeps t t'.
Proof.
  revert t. induction ids as [|id ids IH]; intros t; simpl; [intros [= <-]; apply tls_keeps_refl|].
  destruct (release_current_thread_tls t thread id) as [t1|] eqn:E; simpl; [|done]. intros H%IH.
  eapply tls_keeps_trans; [by eapply release_keeps|done].
Qed.

Lemma unload_keeps t thread tokens module t' :
  tls_ok t -> unload t thread tokens module = Some t' -> keeps t t' /\ forall k b, blocks t' !! k = Some b -> blocks t !! k = Some b.
Proof.
  intros Hok. unfold unload. destruct (unregister_tls_descriptors t tokens) as [t1|] eqn:E1; simpl; [|done].
  apply unregister_ok in E1 as (Hok1 & Hm1 & Hb1 & _); [|done].
  assert (keeps t t1) as K1 by (intros id m; rewrite Hm1; eauto).
  destruct module as [id|]; [|intros [= <-]; rewrite Hb1; done].
  destruct (tls_release_ok t1 thread id Hok1) as (t2 & E2 & Hok2 & Hb2). rewrite E2. simpl. apply release_keeps in E2 as K2.
  destruct (seal_for_unload t2 id) as [t3 r] eqn:E3. apply seal_ok in E3 as Hs; [|done]. destruct Hs as (_ & Hb3 & _).
  destruct r; [|done]. intros [= <-]. split.
  - eapply tls_keeps_trans; [exact K1|]. eapply tls_keeps_trans; [exact K2|]. revert E3. unfold seal_for_unload.
    destruct (modules t2 !! id) as [m|] eqn:Em; intros [= <- _]; [by eapply keeps_insert|apply tls_keeps_refl].
  - intros k b. rewrite Hb3, Hb2, Hb1. by intros [_ ?]%lookup_delete_Some.
Qed.

Lemma sealed_next id t t' :
  sealed id t -> keeps t t' -> (forall thread b, blocks t' !! (thread, id) = Some b -> is_Some (blocks t !! (thread, id))) -> sealed id t'.
Proof.
  intros Hs K Hb. split; [|by destruct Hs as [_ (m & Hm & Ha)]; eapply K]. apply set_eq. intros [th j].
  rewrite elem_of_holders. simpl. split; [|set_solver]. intros [-> [b Hbl]]. apply Hb in Hbl. rewrite (sealed_no_block id t th Hs) in Hbl.
  by destruct Hbl.
Qed.

Lemma resolve_keeps t thread token address raw t' v : tlsdesc_resolve t thread token address raw = Some (t', v) -> keeps t t'.
Proof.
  unfold tlsdesc_resolve. destruct (registry t !! token) as [c|]; simpl; [|done]. case_match; [done|].
  destruct (blocks t !! _); simpl; [intros [= <- _]; apply tls_keeps_refl|]. unfold allocate_block.
  destruct (modules t !! cmodule c) as [m|] eqn:Em; simpl; [|done]. destruct (accepting m) eqn:Ea; simpl; [|done].
  destruct (checked_add _ _ _); simpl; [|done]. destruct (layout_ok _ _); simpl; [|done]. destruct raw; simpl; [|done].
  case_match; simpl; [done|]. intros [= <- _]. eapply keeps_insert; [exact Em|done|]. congruence.
Qed.

Lemma step_sealed id t t' : tls_ok t -> sealed id t -> step t t' -> sealed id t'.
Proof.
  intros Hok Hs Hstep. apply (sealed_next id t t' Hs).
  - destruct Hstep as [header bs loads t' r _ _ E|context module t' r _ _ E|thread token address raw t' v E|thread t' E|j m bs Hj _|thread tokens module t' E].
    + intros j m Hj Ha. exists m. split; [|done]. revert E. unfold new_module, to_usize. destruct (checked_slice _ _ _ _); [|by intros [= <- _]].
      destruct (checked_add _ _ _); [|by intros [= <- _]]. intros [= <- _]. simpl. rewrite lookup_insert_ne; [done|].
      destruct (ok_modules t Hok j m Hj). lia.
    + revert E. unfold register_tls_descriptor. destruct (checked_add _ _ _); [|intros [= <- _]; apply tls_keeps_refl].
      destruct (registry t !! _); [done|]. intros [= <- _] j m. eauto.
    + by eapply resolve_keeps.
    + by eapply release_blocks_keeps.
    + unfold refresh_template. rewrite Hj. by eapply keeps_insert.
    + by eapply unload_keeps.
  - intros th b. destruct Hstep as [header bs loads t' r _ _ E|context module t' r _ _ E|thread token address raw t' v E|thread t' E|j m bs Hj _|thread tokens module t' E].
    + revert E. unfold new_module, to_usize. destruct (checked_slice _ _ _ _); [|by intros [= <- _]; eauto].
      destruct (checked_add _ _ _); intros [= <- _]; simpl; eauto.
    + revert E. unfold register_tls_descriptor. destruct (checked_add _ _ _); [|intros [= <- _]; eauto].
      destruct (registry t !! _); [done|]. intros [= <- _]. simpl. eauto.
    + apply tls_resolve_ok in E as (_ & _ & c & b' & Hc & _ & _ & _ & Hcase); [|done].
      destruct (blocks t !! (thread, cmodule c)); [destruct Hcase as [-> _]; eauto|]. destruct Hcase as (_ & -> & m & Hm & Ha & _).
      destruct (decide ((thread, cmodule c) = (th, id))) as [[= -> Hid]|Hne]; [|rewrite lookup_insert_ne by done; eauto].
      destruct Hs as [_ (m' & Hm' & Ha')]. congruence.
    + destruct (exit_thread_ok t thread Hok) as (t2 & E2 & _ & Hb). assert (t' = t2) as -> by congruence. rewrite Hb. simpl. case_decide; [done|eauto].
    + unfold refresh_template. rewrite Hj. eauto.
    + apply unload_keeps in E as [_ Hb]; [|done]. intros Hbl. apply Hb in Hbl. eauto.
Qed.

Lemma steps_sealed id t t' : rtc step t t' -> tls_ok t -> sealed id t -> sealed id t'.
Proof. induction 1; eauto using tls_step_ok, step_sealed. Qed.

(** ** What the storage promises *)

Lemma as_i64_offset base x : as_u64 (base + as_i64 (x - base)) = as_u64 x.
Proof.
  unfold as_i64, as_u64. pose proof (Z.div_mod (x - base) (2 ^ 64)) as E. set (q := (x - base) / 2 ^ 64) in *.
  assert ((x - base) mod 2 ^ 64 = x - base + - q * 2 ^ 64) as -> by lia. destruct (_ <=? isize_max).
  - replace (base + (x - base + - q * 2 ^ 64)) with (x + - q * 2 ^ 64) by lia. apply Z_mod_plus_full.
  - replace (base + (x - base + - q * 2 ^ 64 - 2 ^ 64)) with (x + (- q - 1) * 2 ^ 64) by lia. apply Z_mod_plus_full.
Qed.

(** C35: in every reachable state a module counts exactly the threads that hold a block of it,
    blocks are as large as their module, every registered descriptor points into the memory of its
    module, and neither a thread that ends nor the release of its block aborts the process. *)
Theorem tls_invariant t :
  reachable t ->
  (forall id m, modules t !! id = Some m -> active_threads m = Z.of_nat (size (holders t id))) /\
  (forall thread id b, blocks t !! (thread, id) = Some b -> exists m, modules t !! id = Some m /\ len (initial b) = tmemory_size m) /\
  (forall token c, registry t !! token = Some c -> exists m, modules t !! cmodule c = Some m /\ 0 <= coffset c < tmemory_size m) /\
  (forall thread, exists t', exit_thread t thread = Some t' /\
     forall k, blocks t' !! k = if decide (k.1 = thread) then None else blocks t !! k) /\
  (forall thread id, exists t', release_current_thread_tls t thread id = Some t').
Proof.
  intros H%tls_reachable_ok. split_and!.
  - intros id m Hm. by apply (ok_modules t H).
  - apply (ok_blocks t H).
  - intros token c Hc. by destruct (ok_registry t H token c Hc).
  - intros thread. destruct (exit_thread_ok t thread H) as (t' & ? & _ & ?). eauto.
  - intros thread id. destruct (tls_release_ok t thread id H) as (t' & ? & _). eauto.
Qed.

(** Resolving a descriptor.  The offset returned leads from the thread-pointer base to the
    descriptor's variable in the calling thread's own block of the module; the block of a first use
    is the template of the module followed by zeros, and later uses on the same thread give the same
    address and change nothing. *)
Theorem tls_resolve_exact t thread token address raw t' v :
  reachable t -> tlsdesc_resolve t thread token address raw = Some (t', v) ->
  exists c b, registry t !! token = Some c /\ blocks t' !! (thread, cmodule c) = Some b /\
    as_u64 (thread_pointer_base c + v) = as_u64 (pointer b + coffset c) /\ 0 <= coffset c < len (initial b) /\
    (forall k, k <> (thread, cmodule c) -> blocks t' !! k = blocks t !! k) /\
    (blocks t !! (thread, cmodule c) = None -> exists m, modules t !! cmodule c = Some m /\ raw = Some (pointer b) /\
       initial b = template m ++ zeroed (Z.to_nat (tmemory_size m) - length (template m))) /\
    (forall raw', tlsdesc_resolve t' thread token address raw' = Some (t', v)).
Proof.
  intros H%tls_reachable_ok E. apply tls_resolve_ok in E as (Hok' & Hreg & c & b & Hc & Ha & Hb & Hv & Hcase); [|done].
  exists c, b. destruct (ok_blocks t' Hok' thread (cmodule c) b Hb) as (m & Hm & Hlen).
  pose proof Hc as Hc'. rewrite <- Hreg in Hc'. destruct (ok_registry t' Hok' token c Hc') as (_ & m2 & Hm2 & Ho).
  assert (m2 = m) as -> by congruence. split_and!; [done|done| |lia|lia| | |].
  - subst v. apply as_i64_offset.
  - intros k Hk. destruct (blocks t !! (thread, cmodule c)); [by destruct Hcase as [-> _]|]. destruct Hcase as (_ & -> & _).
    by rewrite lookup_insert_ne.
  - intros Hn. rewrite Hn in Hcase. destruct Hcase as (? & _ & m' & ? & _ & ?). eauto.
  - intros raw'. unfold tlsdesc_resolve. rewrite Hreg, Hc. simpl. rewrite Ha, Z.eqb_refl. simpl. rewrite Hb. simpl. by rewrite Hv.
Qed.

(** C36: unloading is safe.  When dropping an image returns, no thread holds a block of its module,
    and in no later state does one: resolving a descriptor of the module aborts instead. *)
Theorem tls_unload_final t thread tokens id m t' t'' :
  reachable t -> modules t !! id = Some m -> unload t thread tokens (Some id) = Some t' -> rtc step t' t'' ->
  (forall thread', blocks t'' !! (thread', id) = None) /\
  (forall thread' token address raw c, registry t'' !! token = Some c -> cmodule c = id ->
     tlsdesc_resolve t'' thread' token address raw = None).
Proof.
  intros H%tls_reachable_ok Hm E Hsteps. apply unload_ok in E as (Hok' & Hs); [|done].
  assert (sealed id t'') as Hsealed by (eapply steps_sealed; [done..|by eapply Hs]). split.
  - intros thread'. by apply sealed_no_block.
  - intros thread' token address raw c Hc Hid. by eapply sealed_resolve.
Qed.

(** ** A module and its descriptor

    A segment of sixteen bytes, four of them from the file, and a descriptor of its ninth byte. *)
Definition sample_tls_load : ProgramHeader :=
  {| kind := PT_LOAD; pflags := PF_R; offset := 0; virtual_address := 0; file_size := 64; memory_size := 64; alignment := 4096 |}.
Definition sample_tls_header : ProgramHeader :=
  {| kind := PT_TLS; pflags := PF_R; offset := 0; virtual_address := 0; file_size := 4; memory_size := 16; alignment := 8 |}.
Definition sample_tls_module : Tls := (new_module initial_tls sample_tls_header (zeroed 64)).1.
Definition sample_tls_context : TlsDescriptorContext :=
  {| cmodule := 1; coffset := 8; descriptor_address := 4096; thread_pointer_base := 8192 |}.
Definition sample_tls : Tls :=
  match register_tls_descriptor sample_tls_module sample_tls_context with Some (t, _) => t | None => initial_tls end.

Lemma sample_tls_reachable : reachable sample_tls.
Proof.
  eapply rtc_l; [|apply rtc_once].
  - eapply (step_new _ sample_tls_header (zeroed 64) [sample_tls_load] sample_tls_module).
    + by vm_compute.
    + by vm_compute.
    + vm_compute. reflexivity.
  - eapply (step_register _ sample_tls_context); [vm_compute; reflexivity|done|]. vm_compute. reflexivity.
Qed.

(** At the sample. *)
Lemma tls_invariant_witness : exists t', exit_thread sample_tls 7 = Some t'.
Proof.
  destruct (tls_invariant sample_tls sample_tls_reachable) as (_ & _ & _ & H & _). destruct (H 7) as (t' & E & _). by exists t'.
Defined.

(** A thread that uses the variable for the first time. *)
Lemma tls_resolve_exact_witness :
  exists t' v, tlsdesc_resolve sample_tls 7 1 4096 (Some 65536) = Some (t', v) /\
    forall raw', tlsdesc_resolve t' 7 1 4096 raw' = Some (t', v).
Proof.
  do 2 eexists. split; [vm_compute; reflexivity|].
  destruct (tls_resolve_exact sample_tls 7 1 4096 (Some 65536) _ _ sample_tls_reachable ltac:(vm_compute; reflexivity))
    as (_ & _ & _ & _ & _ & _ & _ & _ & H). exact H.
Defined.

(** Unloading the module before any use. *)
Lemma tls_unload_final_witness :
  exists t', unload sample_tls 7 [1] (Some 1) = Some t' /\ forall thread', blocks t' !! (thread', 1) = None.
Proof.
  eexists. split; [vm_compute; reflexivity|].
  eapply (tls_unload_final sample_tls 7 [1] 1 _ _ _ sample_tls_reachable); [vm_compute; reflexivity|vm_compute; reflexivity|apply rtc_refl].
Defined.
