(* ===== verification/ElfImage.v ===== *)
(** * Loaded images: reading tables, symbols and versions ([lib.rs])

    A loaded image is the bytes of its mapping with the facts its plan and its dynamic section
    give.  A host pointer into the mapping is the offset [loaded_pointer] returns; its address is
    [mapping] plus the offset. *)
From S2P Require Import Prelude ElfBase ElfRewrite ElfPlan ElfDynamic.
From coqutil Require Import Byte.

(** ** Constants *)

Definition SHN_UNDEF : Z := 0.
Definition SHN_ABS : Z := 0xfff1.
Definition STB_GLOBAL : Z := 1.
Definition STB_WEAK : Z := 2.
Definition STT_NOTYPE : Z := 0.
Definition STT_OBJECT : Z := 1.
Definition STT_FUNC : Z := 2.
Definition STT_TLS : Z := 6.
Definition STV_DEFAULT : Z := 0.
Definition STV_PROTECTED : Z := 3.
Definition VER_NDX_LOCAL : Z := 0.
Definition VER_NDX_GLOBAL : Z := 1.
Definition VERSYM_HIDDEN : Z := 0x8000.
Definition VER_FLG_BASE : Z := 0x1.
Definition VER_FLG_WEAK : Z := 0x2.

(** ** The image *)

Record LoadedElf : Type := {
  mapping : Z; mapping_size : Z; base_page : Z; image_loads : list ProgramHeader; info : DynamicInfo;
  needed_names : list bytes; own_name : option bytes; image : bytes }.

Definition set_image (e : LoadedElf) (bs : bytes) : LoadedElf :=
  {| mapping := mapping e; mapping_size := mapping_size e; base_page := base_page e; image_loads := image_loads e;
     info := info e; needed_names := needed_names e; own_name := own_name e; image := bs |}.

(** A load covers a range, with a permission where one is asked for. *)
Definition load_covers (address end_ : Z) (required_flag : option Z) (load : ProgramHeader) : bool :=
  match checked_add u64_max (virtual_address load) (memory_size load) with
  | None => false
  | Some load_end =>
      (virtual_address load <=? address) && (end_ <=? load_end) &&
      match required_flag with Some flag => has (pflags load) flag | None => true end
  end.

Definition require_loaded_range (e : LoadedElf) (address size : Z) (required_flag : option Z) (what : string)
    : result unit LoadError :=
  let? end_ := ok_or (checked_add u64_max address size) (Bounds what) in
  if existsb (load_covers address end_ required_flag) (image_loads e) then Ok tt else Err (Bounds what).

(** The offset of a range in the mapping. *)
Definition loaded_pointer (e : LoadedElf) (address size : Z) : result Z LoadError :=
  let? offset_ := difference_to_usize address (base_page e) in
  let? end_ := ok_or (checked_add usize_max offset_ size) (Bounds "mapped pointer overflow") in
  if mapping_size e <? end_ then Err (Bounds "mapped pointer outside reservation") else Ok offset_.

Definition loaded_slice (e : LoadedElf) (address size : Z) : result bytes LoadError :=
  let? offset_ := loaded_pointer e address size in
  Ok (slice (image e) (Z.to_nat offset_) (Z.to_nat (offset_ + size))).

Definition read_loaded_u16 (e : LoadedElf) (address : Z) : result Z LoadError :=
  let? bs := loaded_slice e address 2 in read_u16 bs 0.
Definition read_loaded_u32 (e : LoadedElf) (address : Z) : result Z LoadError :=
  let? bs := loaded_slice e address 4 in read_u32 bs 0.
Definition read_loaded_u64 (e : LoadedElf) (address : Z) : result Z LoadError :=
  let? bs := loaded_slice e address 8 in read_u64 bs 0.
Definition read_loaded_i64 (e : LoadedElf) (address : Z) : result Z LoadError :=
  let? v := read_loaded_u64 e address in Ok (as_i64 v).

(** [host_span_to_virtual] and [require_host_executable]. *)
Definition host_span_to_virtual (e : LoadedElf) (start size : Z) (required_flag : option Z) (what : string)
    : result Z LoadError :=
  let? offset_ := ok_or (checked_sub start (mapping e)) (Bounds what) in
  let? address := ok_or (checked_add u64_max (base_page e) offset_) (Bounds what) in
  let? _ := require_loaded_range e address size required_flag what in
  Ok address.

Definition require_host_executable (e : LoadedElf) (pointer : Z) (what : string) : result unit LoadError :=
  let? offset_ := ok_or (checked_sub pointer (mapping e)) (Bounds "host pointer below mapping") in
  let? address := ok_or (checked_add u64_max (base_page e) offset_) (Bounds "host pointer translation overflow") in
  require_loaded_range e address 1 (Some PF_X) what.

(** ** Strings *)

(** [str::from_utf8]: whether bytes are the UTF-8 of a text. *)
Definition within (lo hi : Z) (b : byte) : bool := (lo <=? byte_value b) && (byte_value b <=? hi).
Definition continues : byte -> bool := within 0x80 0xbf.

Fixpoint utf8 (fuel : nat) (bs : bytes) : bool :=
  match fuel, bs with
  | _, [] => true
  | O, _ => false
  | S n, b :: bs =>
      if within 0 0x7f b then utf8 n bs
      else match bs with
      | [] => false
      | c :: bs =>
          if within 0xc2 0xdf b then continues c && utf8 n bs
          else match bs with
          | [] => false
          | d :: bs =>
              if within 0xe0 0xef b then
                (if within 0xe0 0xe0 b then within 0xa0 0xbf c
                 else if within 0xed 0xed b then within 0x80 0x9f c else continues c) && continues d && utf8 n bs
              else match bs with
              | [] => false
              | f :: bs =>
                  if within 0xf0 0xf4 b then
                    (if within 0xf0 0xf0 b then within 0x90 0xbf c
                     else if within 0xf4 0xf4 b then within 0x80 0x8f c else continues c)
                    && continues d && continues f && utf8 n bs
                  else false
              end
          end
      end
  end.
Definition from_utf8 (bs : bytes) : bool := utf8 (length bs) bs.

Definition dynamic_string_bytes (e : LoadedElf) (offset_ : Z) : result bytes LoadError :=
  let? table := ok_or (field (info e) StringTable) (Format "missing DT_STRTAB") in
  let? size := ok_or (field (info e) StringSize) (Format "missing DT_STRSZ") in
  if size <=? offset_ then Err (Bounds "dynamic string offset") else
  let? _ := require_loaded_range e table size (Some PF_R) "dynamic string table" in
  let? bs := loaded_slice e (table + offset_) (size - offset_) in
  terminated_dynamic_string bs.

Definition dynamic_string (e : LoadedElf) (offset_ : Z) : result bytes LoadError :=
  let? value := dynamic_string_bytes e offset_ in
  if from_utf8 value then Ok value else Err (Format "non-UTF-8 dynamic metadata string").

(** [elf_hash]. *)
Definition hash_step (hash : Z) (b : byte) : Z :=
  let hash := as_u32 (shl32 hash 4 + byte_value b) in
  let high := Z.land hash 0xf0000000 in
  let hash := if high =? 0 then hash else Z.lxor hash (Z.shiftr high 24) in
  Z.land hash (u32_max - high).
Definition elf_hash (name : bytes) : Z := foldl hash_step 0 name.

(** ** Symbols *)

Record DynamicSymbol : Type := {
  name_offset : Z; binding : Z; skind : Z; visibility : Z; section_index : Z; value : Z; ssize : Z }.

Definition byte_at (bs : bytes) (i : nat) : Z := match bs !! i with Some b => byte_value b | None => 0 end.

Definition dynamic_symbol (e : LoadedElf) (index : Z) : result DynamicSymbol LoadError :=
  let? table := ok_or (field (info e) SymbolTable) (Format "missing DT_SYMTAB") in
  let entry_size := default ELF64_SYM_SIZE (field (info e) SymbolEntrySize) in
  if negb (entry_size =? ELF64_SYM_SIZE) then Err (Format "invalid DT_SYMENT") else
  let? address := ok_or (checked_add u64_max table (index * entry_size)) (Bounds "dynamic symbol address overflow") in
  let? _ := require_loaded_range e address entry_size (Some PF_R) "dynamic symbol" in
  let? bs := loaded_slice e address ELF64_SYM_SIZE in
  let? name_offset := read_u32 bs 0 in
  let? section_index := read_u16 bs 6 in
  let? value := read_u64 bs 8 in
  let? size := read_u64 bs 16 in
  Ok {| name_offset := name_offset; binding := Z.shiftr (byte_at bs 4) 4; skind := Z.land (byte_at bs 4) 0x0f;
        visibility := Z.land (byte_at bs 5) 0x03; section_index := section_index; value := value; ssize := size |}.

Definition sysv_hash_symbol_count (e : LoadedElf) (hash : Z) : result Z LoadError :=
  let? _ := require_loaded_range e hash 8 (Some PF_R) "DT_HASH header" in
  let? bucket_count := read_loaded_u32 e hash in
  let? chain_count := read_loaded_u32 e (hash + 4) in
  let? words := ok_or (w ← checked_add u64_max 2 bucket_count; checked_add u64_max w chain_count) (Bounds "DT_HASH size overflow") in
  let? _ := require_loaded_range e hash (words * 4) (Some PF_R) "DT_HASH table" in
  Ok chain_count.

(** The loop over the buckets: the highest first symbol of a chain. *)
Fixpoint highest_bucket (e : LoadedElf) (buckets symbol_offset symbol_limit : Z) (index : Z) (count : nat) (highest : option Z)
    : result (option Z) LoadError :=
  match count with
  | O => Ok highest
  | S count =>
      let? symbol := read_loaded_u32 e (buckets + index * 4) in
      if symbol =? 0 then highest_bucket e buckets symbol_offset symbol_limit (index + 1) count highest
      else if (symbol <? symbol_offset) || (symbol_limit <=? symbol) then Err (Bounds "DT_GNU_HASH bucket symbol")
      else highest_bucket e buckets symbol_offset symbol_limit (index + 1) count
             (Some (match highest with Some current => Z.max current symbol | None => symbol end))
  end.

(** The loop along the last chain, with the iterations left. *)
Fixpoint chain_end (e : LoadedElf) (chains symbol_offset symbol_limit : Z) (fuel : nat) (symbol : Z)
    : option (result Z LoadError) :=
  match fuel with
  | O => None
  | S fuel =>
      if symbol_limit <=? symbol then Some (Err (Bounds "DT_GNU_HASH chain symbol")) else
      let! value := Some (
        let? address := ok_or (checked_add u64_max chains ((symbol - symbol_offset) * 4)) (Bounds "DT_GNU_HASH chain overflow") in
        read_loaded_u32 e address) in
      let! symbol := Some (ok_or (checked_add u32_max symbol 1) (Bounds "DT_GNU_HASH symbol count")) in
      if negb (Z.land value 1 =? 0) then Some (Ok symbol) else chain_end e chains symbol_offset symbol_limit fuel symbol
  end.

(** The checks of the table before its loops: the buckets, the chains, the first hashed symbol and the
    number of symbols the symbol table has room for. *)
Definition gnu_hash_table (e : LoadedElf) (hash : Z) : result (Z * Z * Z * Z * Z) LoadError :=
  let? _ := require_loaded_range e hash 16 (Some PF_R) "DT_GNU_HASH header" in
  let? bucket_count := read_loaded_u32 e hash in
  let? symbol_offset := read_loaded_u32 e (hash + 4) in
  let? bloom_count := read_loaded_u32 e (hash + 8) in
  if (bucket_count =? 0) || (bloom_count =? 0) || negb (is_power_of_two bloom_count)
  then Err (Format "invalid DT_GNU_HASH header") else
  let? buckets := ok_or (v ← checked_add u64_max hash 16; checked_add u64_max v (bloom_count * 8)) (Bounds "DT_GNU_HASH bloom overflow") in
  let? chains := ok_or (checked_add u64_max buckets (bucket_count * 4)) (Bounds "DT_GNU_HASH buckets overflow") in
  let? size := ok_or (checked_sub chains hash) (Bounds "DT_GNU_HASH prefix") in
  let? _ := require_loaded_range e hash size (Some PF_R) "DT_GNU_HASH prefix" in
  let? symbol_table := ok_or (field (info e) SymbolTable) (Format "missing DT_SYMTAB") in
  let entry_size := default ELF64_SYM_SIZE (field (info e) SymbolEntrySize) in
  if negb (entry_size =? ELF64_SYM_SIZE) then Err (Format "invalid DT_SYMENT") else
  let? load := ok_or (find (fun load => (virtual_address load <=? symbol_table) &&
                              match segment_end load with Some end_ => symbol_table <? end_ | None => false end) (image_loads e))
                 (Bounds "DT_SYMTAB outside PT_LOAD") in
  let? load_end := ok_or (segment_end load) (Bounds "DT_SYMTAB load end") in
  let symbol_limit := (load_end - symbol_table) / entry_size in
  if symbol_limit <? symbol_offset then Err (Bounds "DT_GNU_HASH symbol offset")
  else Ok (buckets, chains, bucket_count, symbol_offset, symbol_limit).

Definition gnu_hash_symbol_count (e : LoadedElf) (hash : Z) : option (result Z LoadError) :=
  let! (buckets, chains, bucket_count, symbol_offset, symbol_limit) := Some (gnu_hash_table e hash) in
  let! highest := Some (highest_bucket e buckets symbol_offset symbol_limit 0 (Z.to_nat bucket_count) None) in
  match highest with
  | None => Some (Ok symbol_offset)
  | Some symbol => chain_end e chains symbol_offset symbol_limit (S (Z.to_nat symbol_limit)) symbol
  end.

Definition symbol_count (e : LoadedElf) : option (result Z LoadError) :=
  match field (info e) Hash with
  | Some hash => Some (sysv_hash_symbol_count e hash)
  | None =>
      match field (info e) GnuHash with
      | Some hash => gnu_hash_symbol_count e hash
      | None => Some (Err (Capable MissingSysvHash))
      end
  end.

(** ** Versions *)

Record OwnedVersionRequirement : Type := { rsoname : bytes; rname : bytes; rflags : Z }.

(** The loop over the auxiliary entries of a requirement, [left] of them. *)
Fixpoint vernaux (e : LoadedElf) (soname : bytes) (left_ : nat) (auxiliary : Z) (found : gmap Z OwnedVersionRequirement)
    : result (gmap Z OwnedVersionRequirement) LoadError :=
  match left_ with
  | O => Ok found
  | S left_ =>
      let? _ := require_loaded_range e auxiliary 16 (Some PF_R) "Elf64_Vernaux" in
      let? expected_hash := read_loaded_u32 e auxiliary in
      let? flags := read_loaded_u16 e (auxiliary + 4) in
      let? raw_other := read_loaded_u16 e (auxiliary + 6) in
      let? name_offset := read_loaded_u32 e (auxiliary + 8) in
      let? next := read_loaded_u32 e (auxiliary + 12) in
      let index := Z.land raw_other (u16_max - VERSYM_HIDDEN) in
      if index <=? VER_NDX_GLOBAL then Err (Format "invalid Elf64_Vernaux version index")
      else if negb (Z.land flags (u16_max - VER_FLG_WEAK) =? 0) then Err (Format "unsupported Elf64_Vernaux flags") else
      let? name := dynamic_string e name_offset in
      if negb (elf_hash name =? expected_hash) then Err (Format "Elf64_Vernaux hash mismatch")
      else if present (found !! index) then Err (Format "duplicate version requirement index") else
      let found := <[index := {| rsoname := soname; rname := name; rflags := flags |}]> found in
      match left_ with
      | O => if negb (next =? 0) then Err (Format "final Elf64_Vernaux has nonzero next") else Ok found
      | _ =>
          if next =? 0 then Err (Format "truncated Elf64_Vernaux list") else
          let? auxiliary := ok_or (checked_add u64_max auxiliary next) (Bounds "Elf64_Vernaux next overflow") in
          vernaux e soname left_ auxiliary found
      end
  end.

(** One requirement: its auxiliary entries and the offset of the next. *)
Definition verneed (e : LoadedElf) (current : Z) (found : gmap Z OwnedVersionRequirement)
    : result (gmap Z OwnedVersionRequirement * Z) LoadError :=
  let? _ := require_loaded_range e current 16 (Some PF_R) "Elf64_Verneed" in
  let? version := read_loaded_u16 e current in
  let? auxiliary_count := read_loaded_u16 e (current + 2) in
  let? file_offset := read_loaded_u32 e (current + 4) in
  let? auxiliary_offset := read_loaded_u32 e (current + 8) in
  let? next_offset := read_loaded_u32 e (current + 12) in
  if negb (version =? 1) || (auxiliary_count =? 0) || (auxiliary_offset =? 0)
  then Err (Format "invalid Elf64_Verneed header") else
  let? soname := dynamic_string e file_offset in
  if negb (bool_decide (soname ∈ needed_names e)) then Err (Format "Elf64_Verneed file is not present in DT_NEEDED") else
  let? auxiliary := ok_or (checked_add u64_max current auxiliary_offset) (Bounds "Elf64_Vernaux address overflow") in
  let? found := vernaux e soname (Z.to_nat auxiliary_count) auxiliary found in
  Ok (found, next_offset).

(** The loop over a list of version records, with the iterations left; [body] reads a record and gives
    the offset of the next, [tag] and [record] name the list in errors. *)
Fixpoint version_list {A} (body : Z -> A -> result (A * Z) LoadError) (tag record : string) (fuel : nat) (left_ current : Z)
    (visited : gset Z) (found : A) : option (result A LoadError) :=
  match fuel with
  | O => None
  | S fuel =>
      if bool_decide (current ∈ visited) then Some (Err (Format ("cyclic DT_" +:+ tag +:+ " list"))) else
      match body current found with
      | Err error => Some (Err error)
      | Ok (found, next_offset) =>
          if left_ =? 1 then
            if negb (next_offset =? 0) then Some (Err (Format ("final Elf64_" +:+ record +:+ " has nonzero next")))
            else Some (Ok found)
          else if next_offset =? 0 then Some (Err (Format ("truncated Elf64_" +:+ record +:+ " list")))
          else
            match checked_add u64_max current next_offset with
            | None => Some (Err (Bounds ("Elf64_" +:+ record +:+ " next overflow")))
            | Some next => version_list body tag record fuel (left_ - 1) next ({[current]} ∪ visited) found
            end
      end
  end.

(** Iterations for any list of records inside an image: their addresses grow. *)
Definition version_fuel (e : LoadedElf) : nat := S (Z.to_nat (mapping_size e)).

Definition parse_version_requirements (e : LoadedElf) (symbol_count : Z)
    : option (result (gmap Z OwnedVersionRequirement) LoadError) :=
  match field (info e) Verneed, field (info e) VerneedCount with
  | Some current, Some count =>
      let! versym := Some (ok_or (field (info e) Versym) (Format "DT_VERNEED requires DT_VERSYM")) in
      if count =? 0 then Some (Err (Format "DT_VERNEEDNUM is zero")) else
      let! _ := Some (require_loaded_range e versym (symbol_count * 2) (Some PF_R) "DT_VERSYM") in
      version_list (verneed e) "VERNEED" "Verneed" (version_fuel e) count current ∅ ∅
  | None, None =>
      match field (info e) Versym with
      | Some versym => let! _ := Some (require_loaded_range e versym (symbol_count * 2) (Some PF_R) "DT_VERSYM") in Some (Ok ∅)
      | None => Some (Ok ∅)
      end
  | _, _ => Some (Err (Format "incomplete DT_VERNEED metadata"))
  end.

(** The loop over the auxiliary entries of a definition; the first names it. *)
Fixpoint verdaux (e : LoadedElf) (left_ : nat) (auxiliary : Z) (name : option bytes) : result (option bytes) LoadError :=
  match left_ with
  | O => Ok name
  | S left_ =>
      let? _ := require_loaded_range e auxiliary 8 (Some PF_R) "Elf64_Verdaux" in
      let? name_offset := read_loaded_u32 e auxiliary in
      let? read := dynamic_string e name_offset in
      let? next := read_loaded_u32 e (auxiliary + 4) in
      let name := match name with None => Some read | _ => name end in
      match left_ with
      | O => if negb (next =? 0) then Err (Format "final Elf64_Verdaux has nonzero next") else Ok name
      | _ =>
          if next =? 0 then Err (Format "truncated Elf64_Verdaux list") else
          let? auxiliary := ok_or (checked_add u64_max auxiliary next) (Bounds "Elf64_Verdaux next overflow") in
          verdaux e left_ auxiliary name
      end
  end.

Definition verdef (e : LoadedElf) (current : Z) (found : gmap Z bytes) : result (gmap Z bytes * Z) LoadError :=
  let? _ := require_loaded_range e current 20 (Some PF_R) "Elf64_Verdef" in
  let? version := read_loaded_u16 e current in
  let? flags := read_loaded_u16 e (current + 2) in
  let? raw_index := read_loaded_u16 e (current + 4) in
  let index := Z.land raw_index (u16_max - VERSYM_HIDDEN) in
  let? auxiliary_count := read_loaded_u16 e (current + 6) in
  let? expected_hash := read_loaded_u32 e (current + 8) in
  let? auxiliary_offset := read_loaded_u32 e (current + 12) in
  let? next_offset := read_loaded_u32 e (current + 16) in
  if negb (version =? 1) || (index =? VER_NDX_LOCAL) || ((index =? VER_NDX_GLOBAL) && (Z.land flags VER_FLG_BASE =? 0))
     || (auxiliary_count =? 0) || (auxiliary_offset =? 0)
  then Err (Format "invalid Elf64_Verdef header")
  else if negb (Z.land flags (u16_max - Z.lor VER_FLG_BASE VER_FLG_WEAK) =? 0) then Err (Format "unsupported Elf64_Verdef flags") else
  let? auxiliary := ok_or (checked_add u64_max current auxiliary_offset) (Bounds "Elf64_Verdaux address overflow") in
  let? name := verdaux e (Z.to_nat auxiliary_count) auxiliary None in (* not [None]: the count is not zero *)
  let name := default [] name in
  if negb (elf_hash name =? expected_hash) then Err (Format "Elf64_Verdef hash mismatch")
  else if present (found !! index) then Err (Format "duplicate version definition index")
  else Ok (<[index := name]> found, next_offset).

Definition parse_version_definitions (e : LoadedElf) (symbol_count : Z) : option (result (gmap Z bytes) LoadError) :=
  match field (info e) Verdef with
  | None => Some (if present (field (info e) VerdefCount) then Err (Format "incomplete DT_VERDEF metadata") else Ok ∅)
  | Some current =>
      let! count := Some (ok_or (field (info e) VerdefCount) (Format "incomplete DT_VERDEF metadata")) in
      let! versym := Some (ok_or (field (info e) Versym) (Format "DT_VERDEF requires DT_VERSYM")) in
      if count =? 0 then Some (Err (Format "DT_VERDEFNUM is zero")) else
      let! _ := Some (require_loaded_range e versym (symbol_count * 2) (Some PF_R) "DT_VERSYM") in
      version_list (verdef e) "VERDEF" "Verdef" (version_fuel e) count current ∅ ∅
  end.

(** The version of a symbol: the index [DT_VERSYM] gives it. *)
Definition versym_entry (e : LoadedElf) (table symbol_index : Z) : result Z LoadError :=
  let? address := ok_or (checked_add u64_max table (symbol_index * 2)) (Bounds "DT_VERSYM entry overflow") in
  read_loaded_u16 e address.

Definition version_for_symbol (e : LoadedElf) (symbol_index : Z) (requirements : gmap Z OwnedVersionRequirement)
    : result (option (OwnedVersionRequirement * bool)) LoadError :=
  match field (info e) Versym with
  | None => Ok None
  | Some table =>
      let? raw := versym_entry e table symbol_index in
      let index := Z.land raw (u16_max - VERSYM_HIDDEN) in
      if (index =? VER_NDX_LOCAL) || (index =? VER_NDX_GLOBAL) then Ok None else
      let? requirement := ok_or (requirements !! index) (Format "DT_VERSYM index has no DT_VERNEED entry") in
      Ok (Some (requirement, has raw VERSYM_HIDDEN))
  end.

Definition definition_for_symbol (e : LoadedElf) (symbol_index : Z) (definitions : gmap Z bytes)
    : result (option bytes * bool) LoadError :=
  match field (info e) Versym with
  | None => Ok (None, false)
  | Some table =>
      let? raw := versym_entry e table symbol_index in
      let index := Z.land raw (u16_max - VERSYM_HIDDEN) in
      if (index =? VER_NDX_LOCAL) || (index =? VER_NDX_GLOBAL) then Ok (None, has raw VERSYM_HIDDEN) else
      let? definition := ok_or (definitions !! index) (Format "DT_VERSYM index has no DT_VERDEF entry") in
      Ok (Some definition, has raw VERSYM_HIDDEN)
  end.

Definition version_index_for_symbol (e : LoadedElf) (symbol_index : Z) : result (option Z) LoadError :=
  match field (info e) Versym with
  | None => Ok None
  | Some table => let? raw := versym_entry e table symbol_index in Ok (Some raw)
  end.

(** ** Names of the image *)

Definition string_at (e : LoadedElf) (what : string) (offset_ : Z) : result bytes LoadError :=
  let? offset_ := ok_or (if offset_ <=? u32_max then Some offset_ else None) (Bounds what) in dynamic_string e offset_.

Definition materialize_dynamic_names (e : LoadedElf) : result LoadedElf LoadError :=
  let? needed := collect (string_at e "DT_NEEDED string offset") (needed_offsets (info e)) in
  let? soname := transpose (string_at e "DT_SONAME string offset") (field (info e) SonameOffset) in
  if existsb empty_string needed then Err (Format "empty DT_NEEDED string")
  else if match soname with Some s => empty_string s | None => false end then Err (Format "empty DT_SONAME string")
  else Ok {| mapping := mapping e; mapping_size := mapping_size e; base_page := base_page e; image_loads := image_loads e;
             info := info e; needed_names := needed; own_name := soname; image := image e |}.

(** ** Exports *)

Definition ascii_alphabetic (b : byte) : bool := within 0x41 0x5a b || within 0x61 0x7a b.
Definition ascii_alphanumeric (b : byte) : bool := ascii_alphabetic b || within 0x30 0x39 b.
Definition underscore (b : byte) : bool := within 0x5f 0x5f b.

Definition name_bytes (s : string) : bytes := (fun a => byte.of_Z (Z.of_N (Ascii.N_of_ascii a))) <$> String.list_ascii_of_string s.

Definition LINKER_MARKERS : list bytes :=
  name_bytes <$> ["__bss_start"; "__bss_end__"; "__bss_start__"; "_edata"; "_bss_end__"; "_end"; "__end__"; "end"]%string.

Definition strip_prefix (prefix bs : bytes) : option bytes :=
  if bool_decide (take (length prefix) bs = prefix) then Some (drop (length prefix) bs) else None.

(** [__start_] and [__stop_] followed by an identifier. *)
Definition section_marker (name : bytes) : bool :=
  match (match strip_prefix (name_bytes "__start_") name with Some s => Some s | None => strip_prefix (name_bytes "__stop_") name end) with
  | None => false
  | Some suffix =>
      match suffix with
      | [] => false
      | b :: rest => (ascii_alphabetic b || underscore b) && forallb (fun b => ascii_alphanumeric b || underscore b) rest
      end
  end.

Definition is_image_relative_absolute_marker (e : LoadedElf) (symbol : DynamicSymbol) (name : bytes) : bool :=
  (section_index symbol =? SHN_ABS) && (ssize symbol =? 0) &&
  (bool_decide (name ∈ LINKER_MARKERS) || section_marker name) &&
  is_ok (require_loaded_range e (value symbol) 0 None "image-relative absolute marker").

(** A symbol without a size at the end of a load. *)
Definition is_load_end_marker (e : LoadedElf) (symbol : DynamicSymbol) : bool :=
  (ssize symbol =? 0) &&
  existsb (fun load => match segment_end load with Some end_ => end_ =? value symbol | None => false end) (image_loads e).

Record ExportedSymbol : Type := {
  ename : bytes; address : Z; version : option bytes; version_hidden : bool; version_index : option Z }.

Definition exportable (symbol : DynamicSymbol) : bool :=
  negb ((section_index symbol =? SHN_UNDEF) || negb (one_of (skind symbol) [STT_NOTYPE; STT_OBJECT; STT_FUNC])
        || negb (one_of (binding symbol) [STB_GLOBAL; STB_WEAK]) || negb (one_of (visibility symbol) [STV_DEFAULT; STV_PROTECTED])
        || (value symbol =? 0)).

(** The body of the loop of [exported_symbols]. *)
Definition exported_symbol (e : LoadedElf) (versions : gmap Z bytes) (index : Z) : result (option ExportedSymbol) LoadError :=
  let? symbol := dynamic_symbol e index in
  if negb (exportable symbol) then Ok None else
  let? symbol_name := dynamic_string_bytes e (name_offset symbol) in
  if (section_index symbol =? SHN_ABS) && negb (is_image_relative_absolute_marker e symbol symbol_name)
  then Err (Capable AbsoluteSymbolDefinition) else
  let? _ := if is_load_end_marker e symbol then Ok tt
            else require_loaded_range e (value symbol) (Z.max (ssize symbol) 1) None "exported symbol" in
  if empty_string symbol_name then Ok None else
  let? (version, hidden) := definition_for_symbol e index versions in
  let? version_index := version_index_for_symbol e index in
  let? offset_ := loaded_pointer e (value symbol) (ssize symbol) in
  Ok (Some {| ename := symbol_name; address := mapping e + offset_; version := version; version_hidden := hidden;
              version_index := version_index |}).

Definition exported_symbols (e : LoadedElf) : option (result (list ExportedSymbol) LoadError) :=
  let! count := symbol_count e in
  let! versions := parse_version_definitions e count in
  Some (let? symbols := collect (exported_symbol e versions) (seqZ 1 (count - 1)) in Ok (omap id symbols)).

Definition find_exported_symbol (symbols : list ExportedSymbol) (name : bytes) : option ExportedSymbol :=
  find (fun symbol => bool_decide (ename symbol = name)) symbols.

Definition exported_address_bytes (e : LoadedElf) (name : bytes) : option (result Z LoadError) :=
  let! symbols := exported_symbols e in
  Some (let? symbol := ok_or (find_exported_symbol symbols name) (SymbolNotFound name) in Ok (address symbol)).

(** The loop of [resolve_function_bytes]; an error names the symbol, here by its bytes. *)
Fixpoint resolve_function_loop (e : LoadedElf) (requested : bytes) (indices : list Z) : result Z LoadError :=
  match indices with
  | [] => Err (SymbolNotFound requested)
  | index :: indices =>
      let? symbol := dynamic_symbol e index in
      let? name := dynamic_string_bytes e (name_offset symbol) in
      if negb (bool_decide (name = requested)) then resolve_function_loop e requested indices
      else if (section_index symbol =? SHN_UNDEF) || negb (one_of (skind symbol) [STT_FUNC; STT_NOTYPE])
              || negb (one_of (binding symbol) [STB_GLOBAL; STB_WEAK])
              || negb (one_of (visibility symbol) [STV_DEFAULT; STV_PROTECTED]) || (value symbol =? 0)
      then Err (InvalidSymbol requested)
      else if section_index symbol =? SHN_ABS then Err (Capable AbsoluteSymbolDefinition) else
      let? _ := require_loaded_range e (value symbol) (Z.max (ssize symbol) 1) (Some PF_X) "function symbol" in
      let? offset_ := loaded_pointer e (value symbol) 1 in
      Ok (mapping e + offset_)
  end.

Definition resolve_function_bytes (e : LoadedElf) (requested : bytes) : option (result Z LoadError) :=
  let! count := symbol_count e in
  Some (resolve_function_loop e requested (seqZ 1 (count - 1))).

(** ** Lemmas: ranges *)

Lemma load_covers_true a b flag l :
  load_covers a b flag l = true <->
  virtual_address l <= a /\ b <= virtual_address l + memory_size l /\ virtual_address l + memory_size l <= u64_max /\
  match flag with Some f => has (pflags l) f = true | None => True end.
Proof.
  unfold load_covers. destruct (checked_add _ _ _) as [le|] eqn:E.
  - apply checked_add_Some in E as [-> ?]. rewrite !andb_true_iff, !Z.leb_le. destruct flag; intuition.
  - split; [done|]. intros (_ & _ & ? & _). unfold checked_add in E. by rewrite (proj2 (Z.leb_le _ _)) in E.
Qed.

Lemma require_loaded_range_Ok e a n flag what :
  require_loaded_range e a n flag what = Ok tt <->
  a + n <= u64_max /\ exists l, l ∈ image_loads e /\ load_covers a (a + n) flag l = true.
Proof.
  unfold require_loaded_range. destruct (checked_add _ _ _) as [b|] eqn:E; simpl.
  - apply checked_add_Some in E as [-> ?]. destruct (existsb _ _) eqn:Ex.
    + split; [|done]. intros _. split; [done|]. apply existsb_exists in Ex as (l & Hin & ?). exists l. split; [by apply list_elem_of_In|done].
    + split; [done|]. intros (_ & l & Hin & Hl). rewrite <- not_true_iff_false in Ex. exfalso. apply Ex, existsb_exists.
      exists l. split; [by apply list_elem_of_In|done].
  - split; [done|]. intros [? _]. unfold checked_add in E. by rewrite (proj2 (Z.leb_le _ _)) in E.
Qed.

Lemma loaded_pointer_Ok e a n o :
  loaded_pointer e a n = Ok o <-> o = a - base_page e /\ base_page e <= a /\ o + n <= usize_max /\ o + n <= mapping_size e.
Proof.
  unfold loaded_pointer, difference_to_usize, to_usize, checked_sub, checked_add.
  destruct (Z.leb_spec (base_page e) a); simpl; [|split; [done|lia]].
  destruct (Z.leb_spec (a - base_page e + n) usize_max); simpl; [|split; [done|intros (-> & ? & ? & ?); lia]].
  destruct (Z.ltb_spec (mapping_size e) (a - base_page e + n)); [split; [done|intros (-> & ? & ? & ?); lia]|].
  split; [intros [= <-]; lia|by intros (-> & _)].
Qed.

(** What the plan and the staging give an image. *)
Record elf_ok (e : LoadedElf) : Prop := {
  elf_base : 0 <= base_page e; elf_size : 0 <= mapping_size e; elf_end : base_page e + mapping_size e <= u64_max;
  elf_length : len (image e) = mapping_size e;
  elf_loads : forall l, l ∈ image_loads e -> base_page e <= virtual_address l /\ 0 <= memory_size l /\
                          virtual_address l + memory_size l <= base_page e + mapping_size e }.

(** A loaded range is inside the mapping. *)
Lemma range_inside e a n flag what :
  elf_ok e -> 0 <= n -> require_loaded_range e a n flag what = Ok tt ->
  base_page e <= a /\ a + n <= base_page e + mapping_size e.
Proof.
  intros Hok Hn (_ & l & Hin & (? & ? & _ & _)%load_covers_true)%require_loaded_range_Ok.
  destruct (elf_loads e Hok l Hin) as (? & ? & ?). lia.
Qed.

Lemma range_pointer e a n flag what :
  elf_ok e -> 0 <= n -> require_loaded_range e a n flag what = Ok tt -> loaded_pointer e a n = Ok (a - base_page e).
Proof.
  intros Hok Hn H. apply range_inside in H; [|done..]. apply loaded_pointer_Ok.
  destruct Hok. unfold usize_max. lia.
Qed.

(** ** Counting symbols *)

Lemma highest_bucket_ok e buckets so lim i n h h' :
  highest_bucket e buckets so lim i n h = Ok h' ->
  (forall j, i <= j < i + Z.of_nat n -> exists s, read_loaded_u32 e (buckets + j * 4) = Ok s /\
     (s = 0 \/ (so <= s < lim /\ exists m, h' = Some m /\ s <= m))) /\
  (h' = h \/ exists j s, i <= j < i + Z.of_nat n /\ read_loaded_u32 e (buckets + j * 4) = Ok s /\ s <> 0 /\ so <= s < lim /\ h' = Some s) /\
  match h with Some m => exists m', h' = Some m' /\ m <= m' | None => True end.
Proof.
  revert i h. induction n as [|n IH]; intros i h; simpl.
  { intros [= <-]. split_and!; [lia|by left|]. destruct h; eauto using Z.le_refl. }
  destruct (read_loaded_u32 e (buckets + i * 4)) as [s|] eqn:Es; [|done].
  destruct (Z.eqb_spec s 0) as [->|Hs].
  { intros (Hb & Hh & Hm)%IH. split_and!; [|destruct Hh as [->|(j & t & ? & ?)]; [by left|right; exists j, t; split; [|done]; lia]|done].
    intros j Hj. destruct (decide (j = i)) as [->|]; [exists 0; eauto|apply Hb; lia]. }
  destruct (Z.ltb_spec s so), (Z.leb_spec lim s); simpl; try done.
  set (h1 := match h with Some current => Z.max current s | None => s end). intros (Hb & Hh & (m' & -> & Hm))%IH.
  assert (s <= h1 /\ match h with Some m => m <= h1 | None => True end) as [Hs1 Hh1] by (destruct h; lia). split_and!.
  - intros j Hj. destruct (decide (j = i)) as [->|]; [|apply Hb; lia]. exists s. split; [done|]. right. split; [lia|].
    exists m'. split; [done|lia].
  - destruct Hh as [[= ->]|(j & t & Hj & ? & ? & ? & [= ->])].
    + destruct (decide (h1 = s)) as [->|Hne]; [right; exists i, s; split_and!; try done; lia|]. left.
      destruct h as [m|]; [|done]. subst h1. f_equal. lia.
    + right. exists j, t. split_and!; try done; lia.
  - destruct h as [m|]; [|done]. exists m'. split; [done|lia].
Qed.

Lemma chain_end_ok e chains so lim fuel symbol :
  so <= symbol -> Z.max 0 (lim - symbol) < Z.of_nat fuel ->
  returns (chain_end e chains so lim fuel symbol) (fun n =>
    symbol < n <= lim /\
    (forall k, symbol <= k < n - 1 -> exists w, read_loaded_u32 e (chains + (k - so) * 4) = Ok w /\ Z.land w 1 = 0) /\
    exists w, read_loaded_u32 e (chains + (n - 1 - so) * 4) = Ok w /\ Z.land w 1 <> 0).
Proof.
  revert symbol. induction fuel as [|fuel IH]; intros symbol Hso Hf; [lia|]. cbn [chain_end].
  destruct (Z.leb_spec lim symbol); [apply returns_err|].
  destruct (checked_add u64_max chains _) as [a|] eqn:Ea; simpl; [|apply returns_err]. apply checked_add_Some in Ea as [-> _].
  destruct (read_loaded_u32 e _) as [w|] eqn:Ew; [|apply returns_err].
  destruct (checked_add u32_max symbol 1) as [next|] eqn:En; simpl; [|apply returns_err]. apply checked_add_Some in En as [-> _].
  destruct (Z.eqb_spec (Z.land w 1) 0) as [E0|E1]; simpl.
  - eapply returns_weaken; [apply IH; lia|]. intros n (? & Hk & Hlast). split_and!; [lia|lia| |done].
    intros k Hk'. destruct (decide (k = symbol)) as [->|]; [by exists w|apply Hk; lia].
  - apply returns_ok. split_and!; [lia|lia|intros; lia|]. exists w. split; [|done]. rewrite <- Ew. do 3 f_equal. lia.
Qed.

Lemma read_loaded_u32_range e a v : read_loaded_u32 e a = Ok v -> u32_range v.
Proof. unfold read_loaded_u32. destruct (loaded_slice e a 4); [|done]. apply read_u32_range. Qed.

Lemma gnu_count_ok e hash :
  returns (gnu_hash_symbol_count e hash) (fun n =>
    exists buckets chains count so lim, gnu_hash_table e hash = Ok (buckets, chains, count, so, lim) /\ so <= n <= lim /\
      (forall j, 0 <= j < count -> exists s, read_loaded_u32 e (buckets + j * 4) = Ok s /\ (s = 0 \/ so <= s < n)) /\
      ((n = so /\ forall j, 0 <= j < count -> read_loaded_u32 e (buckets + j * 4) = Ok 0) \/
       exists j s w, 0 <= j < count /\ read_loaded_u32 e (buckets + j * 4) = Ok s /\ so <= s < n /\
         (forall k, s <= k < n - 1 -> exists w, read_loaded_u32 e (chains + (k - so) * 4) = Ok w /\ Z.land w 1 = 0) /\
         read_loaded_u32 e (chains + (n - 1 - so) * 4) = Ok w /\ Z.land w 1 <> 0)).
Proof.
  unfold gnu_hash_symbol_count. destruct (gnu_hash_table e hash) as [[[[[buckets chains] count] so] lim]|] eqn:Et; [|apply returns_err].
  assert (0 <= count /\ 0 <= so <= lim) as [Hcount Hlim].
  { revert Et. unfold gnu_hash_table. destruct (require_loaded_range _ _ _ _ _); [|done].
    destruct (read_loaded_u32 e hash) as [bc|] eqn:Ec; [|done]. destruct (read_loaded_u32 e (hash + 4)) as [o|] eqn:Eo; [|done].
    repeat (case_match; try done). intros [= <- <- <- <- <-].
    apply read_loaded_u32_range in Ec as [? _], Eo as [? _]. rewrite Z.ltb_ge in *. lia. }
  destruct (highest_bucket e buckets so lim 0 (Z.to_nat count) None) as [h|] eqn:Eh; [|apply returns_err].
  apply highest_bucket_ok in Eh as (Hb & Hatt & _). rewrite Z2Nat.id in Hb, Hatt by done.
  destruct h as [m|].
  - destruct Hatt as [|(j & s & Hj & Hs & _ & Hr & [= ->])]; [done|].
    eapply returns_weaken; [apply chain_end_ok; lia|]. intros n (Hn & Hk & w & Hw & Hodd).
    exists buckets, chains, count, so, lim. split_and!; [done|lia|lia| |].
    + intros i Hi. destruct (Hb i Hi) as (s' & ? & [->|(? & m' & [= ->] & ?)]); [eauto|]. exists s'. split; [done|]. right. lia.
    + right. exists j, s, w. split_and!; try done; lia.
  - apply returns_ok. exists buckets, chains, count, so, lim. split_and!; [done|lia|lia| |].
    + intros i Hi. destruct (Hb i Hi) as (s' & ? & [->|(_ & m' & ? & _)]); [eauto|done].
    + left. split; [done|]. intros i Hi. destruct (Hb i Hi) as (s' & ? & [->|(_ & m' & ? & _)]); done.
Qed.


Lemma symbol_count_returns e : symbol_count e <> None.
Proof.
  unfold symbol_count. destruct (field (info e) Hash); [done|]. destruct (field (info e) GnuHash); [|done].
  eapply returns_not_None, gnu_count_ok.
Qed.

(** ** Version tables *)

(** A list of records whose addresses lie in the image ends. *)
Lemma version_list_ok {A} (P : A -> Prop) body tag record (base size : Z) fuel left_ current visited (found : A) :
  0 <= size ->
  (forall c f r, P f -> body c f = Ok r -> base <= c < base + size /\ 0 <= r.2 /\ P r.1) -> P found ->
  Z.max 0 (Z.min size (base + size - current)) < Z.of_nat fuel ->
  returns (version_list body tag record fuel left_ current visited found) P.
Proof.
  intros Hsize Hbody. revert left_ current visited found. induction fuel as [|fuel IH]; intros left_ current visited found HP Hf; [lia|].
  cbn [version_list]. case_bool_decide; [apply returns_err|].
  destruct (body current found) as [[found' next]|] eqn:Eb; [|apply returns_err].
  apply Hbody in Eb as (Hc & Hn & HP'); [|done]. simpl in *. destruct (left_ =? 1).
  { case_match; [apply returns_err|by apply returns_ok]. }
  destruct (Z.eqb_spec next 0); [apply returns_err|]. destruct (checked_add _ _ _) as [a|] eqn:Ea; [|apply returns_err].
  apply checked_add_Some in Ea as [-> _]. apply IH; [done|lia].
Qed.

Definition requirements_ok (e : LoadedElf) (found : gmap Z OwnedVersionRequirement) : Prop :=
  forall index r, found !! index = Some r ->
    VER_NDX_GLOBAL < index < VERSYM_HIDDEN /\ rsoname r ∈ needed_names e /\ from_utf8 (rname r) = true.

Lemma hidden_index raw : u16_range raw -> 0 <= Z.land raw (u16_max - VERSYM_HIDDEN) < VERSYM_HIDDEN.
Proof.
  intros Hr. change (u16_max - VERSYM_HIDDEN) with (2 ^ 15 - 1). rewrite land_ones_low by done. apply Z.mod_pos_bound. done.
Qed.

Lemma read_loaded_u16_range e a v : read_loaded_u16 e a = Ok v -> u16_range v.
Proof. unfold read_loaded_u16. destruct (loaded_slice e a 2); [|done]. apply read_u16_range. Qed.

Lemma dynamic_string_utf8 e o s : dynamic_string e o = Ok s -> from_utf8 s = true.
Proof. unfold dynamic_string. destruct (dynamic_string_bytes e o); [|done]. destruct (from_utf8 _) eqn:E; [|done]. by intros [= <-]. Qed.

Lemma vernaux_ok e soname n aux found found' :
  soname ∈ needed_names e -> requirements_ok e found -> vernaux e soname n aux found = Ok found' -> requirements_ok e found'.
Proof.
  intros Hs. revert aux found. induction n as [|n IH]; intros aux found HP; simpl; [by intros [= <-]|].
  destruct (require_loaded_range _ _ _ _ _); [|done]. destruct (read_loaded_u32 e aux); [|done].
  destruct (read_loaded_u16 e (aux + 4)) as [flags|]; [|done]. destruct (read_loaded_u16 e (aux + 6)) as [raw|] eqn:Er; [|done].
  apply read_loaded_u16_range in Er. destruct (read_loaded_u32 e (aux + 8)); [|done]. destruct (read_loaded_u32 e (aux + 12)); [|done].
  pose proof (hidden_index raw Er). destruct (Z.leb_spec (Z.land raw (u16_max - VERSYM_HIDDEN)) VER_NDX_GLOBAL); [done|].
  case_match; [done|]. destruct (dynamic_string e _) as [name|] eqn:En; [|done]. apply dynamic_string_utf8 in En.
  do 2 (case_match; [done|]). set (found1 := <[_ := _]> found).
  assert (requirements_ok e found1) as HP1.
  { intros index r. unfold found1. destruct (decide (Z.land raw (u16_max - VERSYM_HIDDEN) = index)) as [<-|Hne].
    - rewrite lookup_insert_eq. intros [= <-]. split_and!; [lia|lia|done|done].
    - rewrite lookup_insert_ne by done. apply HP. }
  destruct n; [case_match; [done|by intros [= <-]]|]. case_match; [done|]. destruct (checked_add _ _ _); simpl; [|done]. by apply IH.
Qed.

Lemma range_address e a n flag what :
  elf_ok e -> 0 < n -> require_loaded_range e a n flag what = Ok tt -> base_page e <= a < base_page e + mapping_size e.
Proof. intros Hok Hn H. apply range_inside in H; [lia|done|lia]. Qed.

Lemma verneed_ok e c found r :
  elf_ok e -> requirements_ok e found -> verneed e c found = Ok r ->
  base_page e <= c < base_page e + mapping_size e /\ 0 <= r.2 /\ requirements_ok e r.1.
Proof.
  intros Hok HP. unfold verneed. destruct (require_loaded_range e c 16 _ _) as [[]|] eqn:Er; [|done].
  apply range_address in Er; [|done..]. destruct (read_loaded_u16 e c); [|done]. destruct (read_loaded_u16 e (c + 2)); [|done].
  destruct (read_loaded_u32 e (c + 4)); [|done]. destruct (read_loaded_u32 e (c + 8)); [|done].
  destruct (read_loaded_u32 e (c + 12)) as [next|] eqn:En; [|done]. apply read_loaded_u32_range in En as [? _].
  case_match; [done|]. destruct (dynamic_string e _) as [soname|]; [|done]. case_bool_decide as Hs; simpl; [|done].
  destruct (checked_add _ _ _); simpl; [|done]. destruct (vernaux _ _ _ _ _) as [f|] eqn:Ev; [|done].
  apply vernaux_ok in Ev; [|done..]. intros [= <-]. done.
Qed.

Definition definitions_ok (found : gmap Z bytes) : Prop :=
  forall index name, found !! index = Some name -> VER_NDX_LOCAL < index < VERSYM_HIDDEN.

Lemma verdef_ok e c found r :
  elf_ok e -> definitions_ok found -> verdef e c found = Ok r ->
  base_page e <= c < base_page e + mapping_size e /\ 0 <= r.2 /\ definitions_ok r.1.
Proof.
  intros Hok HP. unfold verdef. destruct (require_loaded_range e c 20 _ _) as [[]|] eqn:Er; [|done].
  apply range_address in Er; [|done..]. destruct (read_loaded_u16 e c) as [version|]; [|done]. destruct (read_loaded_u16 e (c + 2)) as [flags|]; [|done].
  destruct (read_loaded_u16 e (c + 4)) as [raw|] eqn:Eraw; [|done]. apply read_loaded_u16_range in Eraw.
  pose proof (hidden_index raw Eraw). set (index := Z.land raw _) in *.
  destruct (read_loaded_u16 e (c + 6)) as [aux|]; [|done]. destruct (read_loaded_u32 e (c + 8)); [|done].
  destruct (read_loaded_u32 e (c + 12)); [|done]. destruct (read_loaded_u32 e (c + 16)) as [next|] eqn:En; [|done].
  apply read_loaded_u32_range in En as [? _]. destruct (Z.eqb_spec index VER_NDX_LOCAL) as [|Hne].
  { destruct (version =? 1); done. }
  case_match; [done|]. case_match; [done|]. destruct (checked_add _ _ _); simpl; [|done]. destruct (verdaux _ _ _ _); [|done].
  do 2 (case_match; [done|]). intros [= <-]. split_and!; [lia|lia|done|]. intros i name. simpl.
  destruct (decide (index = i)) as [<-|Hi]; [|rewrite lookup_insert_ne by done; apply HP]. intros _. unfold VER_NDX_LOCAL in *. lia.
Qed.

Lemma version_tables_ok e n :
  elf_ok e ->
  returns (parse_version_requirements e n) (requirements_ok e) /\
  returns (parse_version_definitions e n) definitions_ok.
Proof.
  intros Hok. pose proof (elf_size e Hok). split.
  - unfold parse_version_requirements. assert (requirements_ok e ∅) as H0 by (intros ? ? H'; by rewrite lookup_empty in H').
    destruct (field (info e) Verneed) as [current|], (field (info e) VerneedCount) as [count|]; try apply returns_err.
    + destruct (field (info e) Versym); cbn [ok_or]; [|apply returns_err]. case_match; [apply returns_err|].
      destruct (require_loaded_range _ _ _ _ _); [|apply returns_err].
      apply (version_list_ok _ _ _ _ (base_page e) (mapping_size e)); [done| |done|unfold version_fuel; lia].
      intros c f r HP E. by eapply verneed_ok.
    + destruct (field (info e) Versym); [|by apply returns_ok]. destruct (require_loaded_range _ _ _ _ _); [by apply returns_ok|apply returns_err].
  - unfold parse_version_definitions. assert (definitions_ok ∅) as H0 by (intros ? ? H'; by rewrite lookup_empty in H').
    destruct (field (info e) Verdef) as [current|]; [|case_match; [apply returns_err|by apply returns_ok]].
    destruct (field (info e) VerdefCount) as [count|]; cbn [ok_or]; [|apply returns_err].
    destruct (field (info e) Versym); cbn [ok_or]; [|apply returns_err]. case_match; [apply returns_err|].
    destruct (require_loaded_range _ _ _ _ _); [|apply returns_err].
    apply (version_list_ok _ _ _ _ (base_page e) (mapping_size e)); [done| |done|unfold version_fuel; lia].
    intros c f r HP E. by eapply verdef_ok.
Qed.

(** Reading the version tables terminates on every image, whatever counts and offsets the file
    gives, because each record starts after the one before.  The requirements found name libraries
    the image needs, and no index stands for a local or, for requirements, a global symbol. *)
Theorem version_tables_return e n :
  elf_ok e ->
  returns (parse_version_requirements e n) (requirements_ok e) /\
  returns (parse_version_definitions e n) definitions_ok.
Proof. apply version_tables_ok. Qed.

(** *** An image

    One load with a string table, a version table of two symbols and one requirement. *)
Definition sample_load : ProgramHeader :=
  {| kind := PT_LOAD; pflags := PF_R + PF_W; offset := 0; virtual_address := 0; file_size := 256; memory_size := 256; alignment := 4096 |}.
Definition sample_info : DynamicInfo :=
  {| needed_offsets := [1]; bind_now_tag := false;
     field := fun slot => match slot with
       | StringTable => Some 0 | StringSize => Some 14 | Versym => Some 32 | Verneed => Some 48 | VerneedCount => Some 1
       | _ => None end |}.
Definition sample_elf : LoadedElf :=
  {| mapping := 65536; mapping_size := 256; base_page := 0; image_loads := [sample_load]; info := sample_info;
     needed_names := [name_bytes "libc.so"]; own_name := None;
     image := put (zeroed 256)
       [(1%nat, name_bytes "libc.so"); (9%nat, name_bytes "LIBC"); (34%nat, u16_le 2);
        (48%nat, u16_le 1 ++ u16_le 1 ++ u32_le 1 ++ u32_le 16 ++ u32_le 0);
        (64%nat, u32_le (elf_hash (name_bytes "LIBC")) ++ u16_le 0 ++ u16_le 2 ++ u32_le 9 ++ u32_le 0)] |}.

Lemma sample_elf_ok : elf_ok sample_elf.
Proof.
  constructor; [by vm_compute..|]. intros l Hl. apply list_elem_of_singleton in Hl as ->. by vm_compute.
Qed.

(** At the sample: its requirement is found. *)
Lemma version_tables_return_witness :
  exists found, parse_version_requirements sample_elf 2 = Some (Ok found) /\ is_Some (found !! 2) /\ requirements_ok sample_elf found.
Proof.
  destruct (version_tables_return sample_elf 2 sample_elf_ok) as [([found|] & E & H) _].
  - exists found. split; [exact E|]. split; [|by apply H]. assert (Some (Ok found) = parse_version_requirements sample_elf 2) as E' by done.
    vm_compute in E'. injection E' as ->. by eexists.
  - exfalso. vm_compute in E. done.
Defined.
