(* ===== verification/ElfRelocate.v ===== *)
(** * Relocation ([lib.rs], [relocation_symbols.rs])

    The relocation tables of a loaded image and the symbols they bind.  Relocating changes the image,
    the cache of resolved symbols, the caller's resolver and the thread-local storage; an error leaves
    what was done before it.  The operations are written in a monad over that state, in which [None] is
    an abort of the process or, for the loops of the tables, the end of their fuel. *)
From S2P Require Import Prelude ElfBase PackedRelocations ElfRewrite ElfPlan ElfDynamic ElfTls ElfImage.
From coqutil Require Import Byte.
From stdpp Require Import pretty.
#[local] Open Scope Z_scope.

Definition R_AARCH64_ABS64 : Z := 257.
Definition R_AARCH64_GLOB_DAT : Z := 1025.
Definition R_AARCH64_JUMP_SLOT : Z := 1026.
Definition R_AARCH64_RELATIVE : Z := 1027.
Definition R_AARCH64_TLSDESC : Z := 1031.
Definition R_AARCH64_IRELATIVE : Z := 1032.

(** ** The resolver of the caller *)

Record VersionRequirement : Type := { vsoname : bytes; vname : bytes; vhidden : bool; vflags : Z }.
Record SymbolRequest : Type := {
  symbol : bytes; needed_libraries : list bytes; requested_version : option VersionRequirement; is_weak : bool }.

(** [SymbolResolver]: the address of a symbol, where there is one. *)
Class SymbolResolver (R : Type) : Type := {
  resolve_defined : R -> bytes -> option bytes -> R * result (option Z) ResolveError;
  resolve : R -> SymbolRequest -> R * result (option Z) ResolveError }.

(** [RejectAllResolver]. *)
#[export] Instance RejectAllResolver : SymbolResolver unit :=
  {| resolve_defined r _ _ := (r, Ok None); resolve r _ := (r, Ok None) |}.

(** ** The state *)

Record Linking (R : Type) : Type := {
  elf : LoadedElf; stack_guard : Z; tls_module : option Z; tls_descriptor_tokens : list Z;
  pending_irelative : list (Z * Z); resolved : gmap Z Z; resolver : R; tls : Tls }.
Arguments elf {R}. Arguments stack_guard {R}. Arguments tls_module {R}. Arguments tls_descriptor_tokens {R}.
Arguments pending_irelative {R}. Arguments resolved {R}. Arguments resolver {R}. Arguments tls {R}.

Definition M (R A : Type) : Type := Linking R -> option (Linking R * result A LoadError).

Section monad.
Context {R A B : Type}.

Definition ret (a : A) : M R A := fun s => Some (s, Ok a).
Definition fail (e : LoadError) : M R A := fun s => Some (s, Err e).
Definition bind (m : M R A) (k : A -> M R B) : M R B := fun s =>
  match m s with
  | Some (s, Ok a) => k a s
  | Some (s, Err e) => Some (s, Err e)
  | None => None
  end.
(** A pure operation on the image. *)
Definition ask (f : LoadedElf -> result A LoadError) : M R A := fun s => Some (s, f (elf s)).
Definition ask_total (f : LoadedElf -> option (result A LoadError)) : M R A := fun s => r ← f (elf s); Some (s, r).
End monad.
Notation "'let*' x := m 'in' k" := (bind m (fun x => k)) (at level 10, x pattern, m at level 200, k at level 200) : rust_scope.

Definition put_elf {R} (s : Linking R) (e : LoadedElf) : Linking R :=
  {| elf := e; stack_guard := stack_guard s; tls_module := tls_module s; tls_descriptor_tokens := tls_descriptor_tokens s;
     pending_irelative := pending_irelative s; resolved := resolved s; resolver := resolver s; tls := tls s |}.
Definition put_resolver {R} (s : Linking R) (r : R) : Linking R :=
  {| elf := elf s; stack_guard := stack_guard s; tls_module := tls_module s; tls_descriptor_tokens := tls_descriptor_tokens s;
     pending_irelative := pending_irelative s; resolved := resolved s; resolver := r; tls := tls s |}.

(** [ptr::write_unaligned] through [loaded_pointer]. *)
Definition write_loaded (e : LoadedElf) (offset_ : Z) (data : bytes) : LoadedElf :=
  set_image e (copy_at (Z.to_nat offset_) data (image e)).

Definition write_back {R} (address : Z) (data : bytes) : M R unit := fun s =>
  match loaded_pointer (elf s) address (len data) with
  | Ok offset_ => Some (put_elf s (write_loaded (elf s) offset_ data), Ok tt)
  | Err e => Some (s, Err e)
  end.

(** [resolved.insert]. *)
Definition remember {R} (index address : Z) : M R Z := fun s =>
  Some ({| elf := elf s; stack_guard := stack_guard s; tls_module := tls_module s; tls_descriptor_tokens := tls_descriptor_tokens s;
           pending_irelative := pending_irelative s; resolved := <[index := address]> (resolved s); resolver := resolver s;
           tls := tls s |}, Ok address).

Definition push_irelative {R} (target resolver_ : Z) : M R unit := fun s =>
  Some ({| elf := elf s; stack_guard := stack_guard s; tls_module := tls_module s; tls_descriptor_tokens := tls_descriptor_tokens s;
           pending_irelative := pending_irelative s ++ [(target, resolver_)]; resolved := resolved s; resolver := resolver s;
           tls := tls s |}, Ok tt).

(** ** Relative relocations in compact form *)

(** The value at a target plus the bias of the mapping. *)
Definition relr_value (e : LoadedElf) (addend : Z) : option Z := try_u64 (addend + (mapping e - base_page e)).

Definition apply_relr_target {R} (target : Z) : M R unit :=
  if negb (target mod 8 =? 0) then fail (Format "unaligned RELR target") else
  let* _ := ask (fun e => require_loaded_range e target 8 (Some PF_W) "RELR target") in
  let* addend := ask (fun e => read_loaded_u64 e target) in
  let* value := ask (fun e => ok_or (relr_value e addend) (Bounds "RELR value overflow")) in
  write_back target (u64_le value).

(** The bits of a bitmap, [bit] and on. *)
Fixpoint apply_relr_bits {R} (base bitmap : Z) (bits : list Z) (applied : Z) : M R Z :=
  match bits with
  | [] => ret applied
  | bit :: bits =>
      if Z.land bitmap (shl64 1 bit) =? 0 then apply_relr_bits base bitmap bits applied else
      let* target := ask (fun _ => ok_or (checked_add u64_max base (bit * 8)) (Bounds "RELR bitmap target overflow")) in
      let* _ := apply_relr_target target in
      let* applied := ask (fun _ => ok_or (checked_add u64_max applied 1) (Bounds "RELR relocation count")) in
      apply_relr_bits base bitmap bits applied
  end.

Fixpoint apply_relr_entries {R} (entries : list Z) (cursor : option Z) (applied : Z) : M R Z :=
  match entries with
  | [] => ret applied
  | entry :: entries =>
      if Z.land entry 1 =? 0 then
        let* _ := apply_relr_target entry in
        let* applied := ask (fun _ => ok_or (checked_add u64_max applied 1) (Bounds "RELR relocation count")) in
        let* cursor := ask (fun _ => ok_or (checked_add u64_max entry 8) (Bounds "RELR cursor overflow")) in
        apply_relr_entries entries (Some cursor) applied
      else
        let* base := ask (fun _ => ok_or cursor (Format "RELR bitmap precedes address")) in
        let* applied := apply_relr_bits base (Z.shiftr entry 1) (seqZ 0 63) applied in
        let* cursor := ask (fun _ => ok_or (checked_add u64_max base (63 * 8)) (Bounds "RELR bitmap cursor overflow")) in
        apply_relr_entries entries (Some cursor) applied
  end.

Definition read_relr_entry (e : LoadedElf) (table_address index : Z) : result Z LoadError :=
  let? at_ := ok_or (checked_add u64_max table_address (index * 8)) (Bounds "RELR entry overflow") in
  read_loaded_u64 e at_.

Definition apply_relr_table {R} (table_address table_size : Z) : M R unit :=
  let* _ := ask (fun e => require_loaded_range e table_address table_size (Some PF_R) "RELR table") in
  let count := table_size / 8 in
  let* entries := ask (fun e => collect (read_relr_entry e table_address) (seqZ 0 count)) in
  let* applied := apply_relr_entries entries None 0 in
  ask (fun e => match field (info e) RelrCount with
                | Some expected => if expected =? applied then Ok tt else Err (Format "DT_ANDROID_RELRCOUNT mismatch")
                | None => Ok tt
                end).

(** ** Binding symbols *)

Definition dynsym (index : Z) (what : string) : bytes := name_bytes ("dynsym[" +:+ pretty index +:+ "] " +:+ what).

(** A definition of the image, which the resolver can preempt. *)
Definition bind_definition {R} `{!SymbolResolver R} (index symbol_count : Z) (symbol : DynamicSymbol) : M R Z :=
  let* symbol_name := ask (fun e => dynamic_string_bytes e (name_offset symbol)) in
  let* _ := ask (fun e =>
    if (section_index symbol =? SHN_ABS) && negb (is_image_relative_absolute_marker e symbol symbol_name)
    then Err (Capable AbsoluteSymbolDefinition)
    else if is_load_end_marker e symbol then Ok tt
    else require_loaded_range e (value symbol) (Z.max (ssize symbol) 1) None "defined symbol") in
  let* address := ask (fun e => let? offset_ := loaded_pointer e (value symbol) (ssize symbol) in Ok (mapping e + offset_)) in
  let* preemptible := ask (fun e =>
    Ok (one_of (binding symbol) [STB_GLOBAL; STB_WEAK] && (visibility symbol =? STV_DEFAULT) &&
        match field (info e) Flags with Some flags => Z.land flags DF_SYMBOLIC =? 0 | None => true end)) in
  if negb preemptible then remember index address else
  let* definitions := ask_total (fun e => parse_version_definitions e symbol_count) in
  let* (definition, _) := ask (fun e => definition_for_symbol e index definitions) in
  let* selected := (fun s =>
    let '(r, answer) := resolve_defined (resolver s) symbol_name definition in
    Some (put_resolver s r, map_err (Resolver symbol_name) answer)) in
  remember index (default address selected).

Definition version_request (v : option (OwnedVersionRequirement * bool)) : option VersionRequirement :=
  (fun p => {| vsoname := rsoname p.1; vname := rname p.1; vhidden := p.2; vflags := rflags p.1 |}) <$> v.

(** An import. *)
Definition bind_import {R} `{!SymbolResolver R} (index : Z) (symbol : DynamicSymbol) (versions : gmap Z OwnedVersionRequirement) : M R Z :=
  if negb (one_of (binding symbol) [STB_GLOBAL; STB_WEAK]) || negb (visibility symbol =? 0)
  then fail (InvalidSymbol (dynsym index "binding")) else
  let* name := ask (fun e => dynamic_string_bytes e (name_offset symbol)) in
  if empty_string name then fail (InvalidSymbol (dynsym index "empty name"))
  else if negb (from_utf8 name) then fail (InvalidSymbol (dynsym index "non-UTF-8 name")) else
  let* version := ask (fun e => version_for_symbol e index versions) in
  let* found := (fun s =>
    let '(r, answer) := resolve (resolver s)
      {| symbol := name; needed_libraries := needed_names (elf s); requested_version := version_request version;
         is_weak := binding symbol =? STB_WEAK |} in
    Some (put_resolver s r, map_err (Resolver name) answer)) in
  match found with
  | Some address => remember index address
  | None =>
      if binding symbol =? STB_WEAK then remember index 0
      else fail (UnresolvedSymbol name ((fun p => rsoname p.1) <$> version) ((fun p => rname p.1) <$> version))
  end.

Definition resolve_relocation_symbol {R} `{!SymbolResolver R} (index symbol_count : Z) (versions : gmap Z OwnedVersionRequirement)
    : M R Z := fun s =>
  match resolved s !! index with
  | Some address => Some (s, Ok address)
  | None =>
      (if index =? 0 then ret 0
       else if symbol_count <=? index then fail (Bounds "relocation symbol index") else
       let* symbol := ask (fun e => dynamic_symbol e index) in
       if skind symbol =? STT_TLS then fail (Capable CapTls)
       else if negb (one_of (skind symbol) [STT_NOTYPE; STT_OBJECT; STT_FUNC]) then fail (InvalidSymbol (dynsym index "type"))
       else if negb (section_index symbol =? SHN_UNDEF) then bind_definition index symbol_count symbol
       else bind_import index symbol versions) s
  end.

(** ** Thread-local descriptors *)

Definition validate_defined_tls_symbol (t : Tls) (module : option Z) (symbol : DynamicSymbol) : result unit LoadError :=
  match module ≫= (fun id => modules t !! id) with
  | None => Err (Format "STT_TLS definition without PT_TLS")
  | Some m =>
      match checked_add usize_max (value symbol) (Z.max (ssize symbol) 1) with
      | Some end_ => if tmemory_size m <? end_ then Err (Bounds "STT_TLS symbol outside PT_TLS") else Ok tt
      | None => Err (Bounds "STT_TLS symbol outside PT_TLS")
      end
  end.

Definition validate_tls {R} (symbol : DynamicSymbol) : M R unit := fun s =>
  Some (s, validate_defined_tls_symbol (tls s) (tls_module s) symbol).

(** [register_tls_descriptor] and the token kept for the unloading. *)
Definition register_token {R} (context : TlsDescriptorContext) : M R Z := fun s =>
  match register_tls_descriptor (tls s) context with
  | None => None
  | Some (t, answer) =>
      Some ({| elf := elf s; stack_guard := stack_guard s; tls_module := tls_module s;
               tls_descriptor_tokens := tls_descriptor_tokens s; pending_irelative := pending_irelative s;
               resolved := resolved s; resolver := resolver s; tls := t |}, answer)
  end.
Definition push_token {R} (token : Z) : M R unit := fun s =>
  Some ({| elf := elf s; stack_guard := stack_guard s; tls_module := tls_module s;
           tls_descriptor_tokens := tls_descriptor_tokens s ++ [token]; pending_irelative := pending_irelative s;
           resolved := resolved s; resolver := resolver s; tls := tls s |}, Ok tt).

(** The module of the image, with its identifier. *)
Definition own_module {R} (missing : string) : M R (Z * TlsModule) := fun s =>
  Some (s, match tls_module s with
           | Some id => match modules (tls s) !! id with Some m => Ok (id, m) | None => Err (Format missing) end
           | None => Err (Format missing)
           end).

(** The value of the symbol of a descriptor. *)
Definition tlsdesc_base {R} (symbol_index symbol_count : Z) : M R Z :=
  if symbol_index =? 0 then ret 0
  else if symbol_count <=? symbol_index then fail (Bounds "TLS relocation symbol index") else
  let* symbol := ask (fun e => dynamic_symbol e symbol_index) in
  if negb (skind symbol =? STT_TLS) || (section_index symbol =? SHN_UNDEF) || (section_index symbol =? SHN_ABS)
  then fail (InvalidSymbol (dynsym symbol_index "is not a local TLS definition")) else
  let* _ := validate_tls symbol in
  ret (value symbol).

Definition thread_base {R} : M R Z := fun s => Some (s, Ok (Z.land (stack_guard s) (not64 0xfff))).

(** [darwin_art_tlsdesc_resolver] is a host function, its address an argument. *)
Definition apply_tlsdesc_relocation {R} (tlsdesc_resolver target symbol_index symbol_count addend : Z) : M R unit :=
  if negb (target mod 8 =? 0) then fail (Format "unaligned R_AARCH64_TLSDESC target") else
  let* _ := ask (fun e => require_loaded_range e target 16 (Some PF_W) "R_AARCH64_TLSDESC target") in
  let* (id, m) := own_module "R_AARCH64_TLSDESC without PT_TLS" in
  let* base := tlsdesc_base symbol_index symbol_count in
  let* offset_ := ask (fun _ => ok_or (try_u64 (base + addend)) (Bounds "R_AARCH64_TLSDESC offset overflow")) in
  if tmemory_size m <=? offset_ then fail (Bounds "R_AARCH64_TLSDESC outside PT_TLS") else
  let* destination := ask (fun e => let? o := loaded_pointer e target 16 in Ok (mapping e + o)) in
  let* base_ := thread_base in
  let* token := register_token {| cmodule := id; coffset := offset_; descriptor_address := destination; thread_pointer_base := base_ |} in
  let* _ := write_back target (u64_le tlsdesc_resolver ++ u64_le token) in
  push_token token.

(** ** One relocation *)

Definition load_bias_add (e : LoadedElf) (addend : Z) : result Z LoadError :=
  ok_or (try_u64 (mapping e + (addend - base_page e))) (Bounds "R_AARCH64_RELATIVE value overflow").

(** The value of a relocation that writes one word. *)
Definition relocation_value {R} `{!SymbolResolver R} (relocation_type symbol_index addend symbol_count : Z)
    (versions : gmap Z OwnedVersionRequirement) : M R Z :=
  if (relocation_type =? R_AARCH64_RELATIVE) && (symbol_index =? 0) then ask (fun e => load_bias_add e addend)
  else if one_of relocation_type [R_AARCH64_ABS64; R_AARCH64_GLOB_DAT; R_AARCH64_JUMP_SLOT] then
    if (symbol_index =? 0) && negb (relocation_type =? R_AARCH64_ABS64)
    then fail (Format "GLOB_DAT/JUMP_SLOT relocation has STN_UNDEF symbol index") else
    let* symbol_address := resolve_relocation_symbol symbol_index symbol_count versions in
    ask (fun _ => checked_signed_add symbol_address addend "symbol relocation value")
  else fail (Capable (UnsupportedRelocation relocation_type symbol_index)).

Definition apply_one_relocation {R} `{!SymbolResolver R} (tlsdesc_resolver offset_ info_ addend : Z) (plt_only : bool) (symbol_count : Z)
    (versions : gmap Z OwnedVersionRequirement) : M R unit :=
  let relocation_type := as_u32 info_ in
  let symbol_index := as_u32 (Z.shiftr info_ 32) in
  if plt_only && negb (one_of relocation_type [R_AARCH64_JUMP_SLOT; R_AARCH64_IRELATIVE])
  then fail (Capable (UnsupportedRelocation relocation_type symbol_index))
  else if relocation_type =? R_AARCH64_TLSDESC then
    if plt_only then fail (Capable (UnsupportedRelocation relocation_type symbol_index))
    else apply_tlsdesc_relocation tlsdesc_resolver offset_ symbol_index symbol_count addend
  else if relocation_type =? R_AARCH64_IRELATIVE then
    if negb (symbol_index =? 0) then fail (Format "R_AARCH64_IRELATIVE must be a symbol-free relocation") else
    let* _ := ask (fun e => require_loaded_range e offset_ 8 (Some PF_W) "R_AARCH64_IRELATIVE target") in
    let* function := ask (fun e => load_bias_add e addend) in
    let* _ := ask (fun e => require_host_executable e function "R_AARCH64_IRELATIVE resolver") in
    push_irelative offset_ function
  else
    let* _ := ask (fun e => require_loaded_range e offset_ 8 (Some PF_W) "RELA target") in
    let* value := relocation_value relocation_type symbol_index addend symbol_count versions in
    write_back offset_ (u64_le value).

(** ** The tables *)

Section tables.
  Context {R} `{!SymbolResolver R}.
  Variables (tlsdesc_resolver symbol_count : Z) (versions : gmap Z OwnedVersionRequirement).

(** The body of the loop of [apply_relocation_table]. *)
Definition apply_entry (table_address : Z) (plt_only : bool) (relative_prefix_count index : Z) : M R unit :=
  let* at_ := ask (fun _ => ok_or (checked_add u64_max table_address (index * ELF64_RELA_SIZE)) (Bounds "DT_RELA entry overflow")) in
  let* offset_ := ask (fun e => read_loaded_u64 e at_) in
  let* info_ := ask (fun e => read_loaded_u64 e (at_ + 8)) in
  let* addend := ask (fun e => read_loaded_i64 e (at_ + 16)) in
  if (index <? relative_prefix_count) && (negb (as_u32 info_ =? R_AARCH64_RELATIVE) || negb (as_u32 (Z.shiftr info_ 32) =? 0))
  then fail (Format "DT_RELACOUNT prefix contains non-relative relocation")
  else apply_one_relocation tlsdesc_resolver offset_ info_ addend plt_only symbol_count versions.

(** A [for] loop. *)
Fixpoint for_each {A} (body : A -> M R unit) (l : list A) : M R unit :=
  match l with
  | [] => ret tt
  | a :: l => let* _ := body a in for_each body l
  end.

Definition apply_relocation_table (table_address table_size : Z) (plt_only : bool) (relative_prefix_count : Z) : M R unit :=
  let* entry_size := ask (fun e => Ok (default ELF64_RELA_SIZE (field (info e) RelaEntrySize))) in
  if negb (entry_size =? ELF64_RELA_SIZE) || negb (table_size mod entry_size =? 0)
  then fail (Format "invalid DT_RELAENT/relocation table size") else
  let count := table_size / entry_size in
  if count <? relative_prefix_count then fail (Format "DT_RELACOUNT exceeds DT_RELASZ") else
  let* _ := ask (fun e => require_loaded_range e table_address table_size (Some PF_R) "RELA table") in
  for_each (apply_entry table_address plt_only relative_prefix_count) (seqZ 0 count).

Definition apply_android_packed_relocations (table_address table_size : Z) : M R unit :=
  let* _ := ask (fun e => require_loaded_range e table_address table_size (Some PF_R) "Android packed RELA table") in
  let* bs := ask (fun e => loaded_slice e table_address table_size) in
  let* relocations := ask_total (fun _ => map_err Format <$> decode_aps2_rela bs) in
  for_each (fun r => apply_one_relocation tlsdesc_resolver (roffset r) (rinfo r) (raddend r) false symbol_count versions) relocations.

(** The part of [validate_symbols_and_apply_relocations] after the versions. *)
Definition apply_tables : M R unit := fun s =>
  let dynamic := info (elf s) in
  let relr_size := or_zero (field dynamic RelrSize) in
  let android_rela_size := or_zero (field dynamic AndroidRelaSize) in
  let rela_address := or_zero (field dynamic Rela) in
  let rela_size := or_zero (field dynamic RelaSize) in
  let plt_address := or_zero (field dynamic PltRela) in
  let plt_size := or_zero (field dynamic PltRelaSize) in
  (let* _ := if relr_size =? 0 then ret tt else apply_relr_table (or_zero (field dynamic Relr)) relr_size in
   let* _ := if android_rela_size =? 0 then ret tt
             else apply_android_packed_relocations (or_zero (field dynamic AndroidRela)) android_rela_size in
   if negb (Bool.eqb (rela_address =? 0) (rela_size =? 0)) then fail (Format "incomplete DT_RELA metadata") else
   let* _ := if rela_size =? 0 then ret tt
             else apply_relocation_table rela_address rela_size false (or_zero (field dynamic RelativeRelocationCount)) in
   if negb (Bool.eqb (plt_address =? 0) (plt_size =? 0)) then fail (Format "incomplete PLT relocation metadata")
   else if plt_size =? 0 then ret tt else
   let* rela_end := ask (fun _ => ok_or (checked_add u64_max rela_address rela_size) (Bounds "DT_RELA range overflow")) in
   let* plt_end := ask (fun _ => ok_or (checked_add u64_max plt_address plt_size) (Bounds "DT_JMPREL range overflow")) in
   if negb (rela_size =? 0) && (rela_address <? plt_end) && (plt_address <? rela_end)
   then fail (Format "DT_RELA and DT_JMPREL overlap")
   else apply_relocation_table plt_address plt_size true 0) s.

End tables.

(** The check of a symbol of the table. *)
Definition check_symbol {R} (index : Z) : M R unit :=
  let* symbol := ask (fun e => dynamic_symbol e index) in
  if negb (skind symbol =? STT_TLS) then ret tt
  else if section_index symbol =? SHN_UNDEF then fail (Capable CapTls)
  else validate_tls symbol.

Definition validate_symbols_and_apply_relocations {R} `{!SymbolResolver R} (tlsdesc_resolver : Z) : M R unit :=
  let* symbol_count := ask_total symbol_count in
  let* _ := for_each check_symbol (seqZ 1 (symbol_count - 1)) in
  let* _ := ask_total (fun e => parse_version_definitions e symbol_count) in
  let* versions := ask_total (fun e => parse_version_requirements e symbol_count) in
  (fun s => apply_tables tlsdesc_resolver symbol_count versions
    {| elf := elf s; stack_guard := stack_guard s; tls_module := tls_module s; tls_descriptor_tokens := tls_descriptor_tokens s;
       pending_irelative := pending_irelative s; resolved := ∅; resolver := resolver s; tls := tls s |}).

(** ** What relocation keeps *)

(** An offset of the mapping inside a writable load. *)
Definition in_writable (e : LoadedElf) (i : Z) : Prop :=
  exists l, l ∈ image_loads e /\ has (pflags l) PF_W = true /\
    virtual_address l - base_page e <= i < virtual_address l - base_page e + memory_size l.

(** A deferred relocation: its target is writable, its function executable. *)
Definition pending_ok (e : LoadedElf) (p : Z * Z) : Prop :=
  require_loaded_range e p.1 8 (Some PF_W) "" = Ok tt /\ require_host_executable e p.2 "" = Ok tt.

Record link_ok {R} (s : Linking R) : Prop := {
  link_elf : elf_ok (elf s);
  link_tls : tls_ok (tls s);
  link_module : forall id, tls_module s = Some id -> is_Some (modules (tls s) !! id);
  link_tokens : NoDup (tls_descriptor_tokens s) /\
                forall token, token ∈ tls_descriptor_tokens s -> is_Some (registry (tls s) !! token);
  link_pending : Forall (pending_ok (elf s)) (pending_irelative s) }.

(** The image changed inside its writable loads. *)
Definition patched (e e' : LoadedElf) : Prop :=
  e' = set_image e (image e') /\ length (image e') = length (image e) /\
  forall i, ~ in_writable e (Z.of_nat i) -> image e' !! i = image e !! i.

(** What a part of the relocation does to the state. *)
Record extends {R} (s s' : Linking R) : Prop := {
  ext_elf : patched (elf s) (elf s');
  ext_module : tls_module s' = tls_module s;
  ext_steps : rtc step (tls s) (tls s');
  ext_blocks : blocks (tls s') = blocks (tls s);
  ext_modules : modules (tls s') = modules (tls s);
  ext_tokens : tls_descriptor_tokens s `prefix_of` tls_descriptor_tokens s';
  ext_registry : forall token, is_Some (registry (tls s') !! token) ->
                   is_Some (registry (tls s) !! token) \/ token ∈ tls_descriptor_tokens s';
  ext_keeps : registry (tls s) ⊆ registry (tls s');
  ext_fresh : forall token, token ∈ tls_descriptor_tokens s' -> token ∈ tls_descriptor_tokens s \/ registry (tls s) !! token = None;
  ext_pending : pending_irelative s `prefix_of` pending_irelative s' }.

Lemma patched_refl e : patched e e.
Proof. split_and!; try done. by destruct e. Qed.

Lemma in_writable_patched e e' i : patched e e' -> in_writable e' i <-> in_writable e i.
Proof. intros [-> _]. done. Qed.

Lemma patched_trans e1 e2 e3 : patched e1 e2 -> patched e2 e3 -> patched e1 e3.
Proof.
  intros H1 (E2 & L2 & I2). pose proof H1 as (E1 & L1 & I1). split_and!; [|congruence|].
  - rewrite E2, E1. done.
  - intros i Hi. rewrite I2; [by apply I1|]. by rewrite in_writable_patched.
Qed.

#[export] Instance extends_preorder {R} : PreOrder (extends (R := R)).
Proof.
  split.
  - intros s. constructor; try done; [apply patched_refl|by left|by left].
  - intros s1 s2 s3 [] []. constructor; try congruence.
    + by eapply patched_trans.
    + by etrans.
    + by etrans.
    + intros token Ht. destruct (ext_registry1 token Ht) as [Ht'|]; [|by right].
      destruct (ext_registry0 token Ht') as [|Hin]; [by left|right]. eapply elem_of_prefix; done.
    + by etrans.
    + intros token [Ht|Ht]%ext_fresh1; [by apply ext_fresh0|]. right. eapply lookup_weaken_None; done.
    + by etrans.
Qed.

Lemma elf_ok_patched e e' : patched e e' -> elf_ok e -> elf_ok e'.
Proof. intros (E & L & _) []. rewrite E. constructor; simpl; try done. unfold len in *. by rewrite L. Qed.

Lemma range_patched e e' a n flag what : patched e e' -> require_loaded_range e' a n flag what = require_loaded_range e a n flag what.
Proof. intros [-> _]. done. Qed.

Lemma pending_ok_patched e e' p : patched e e' -> pending_ok e p -> pending_ok e' p.
Proof. intros [-> _]. done. Qed.

(** ** Triples

    From a good state, an operation returns, or [mayabort] holds; it extends the state to a good one,
    and a value it returns has the postcondition. *)
Definition triple {R A} (mayabort : Prop) (P : Linking R -> Prop) (m : M R A) (Q : A -> Linking R -> Prop) : Prop :=
  forall s, link_ok s -> P s ->
    match m s with
    | Some (s', r) => link_ok s' /\ extends s s' /\ forall a, r = Ok a -> Q a s'
    | None => mayabort
    end.

Section triples.
  Context {R A B : Type} (mayabort : Prop).
  Implicit Types (P : Linking R -> Prop) (m : M R A) (k : A -> M R B) (Q : A -> Linking R -> Prop).

Lemma triple_ret P a (Q : A -> Linking R -> Prop) : (forall s, P s -> Q a s) -> triple mayabort P (ret a) Q.
Proof. intros HQ s Hs HP. split_and!; [done|done|]. intros ? [= <-]. auto. Qed.

Lemma triple_fail P e Q : triple mayabort P (fail e : M R A) Q.
Proof. intros s Hs HP. by split_and!. Qed.

Lemma triple_bind P m k Q (Q' : B -> Linking R -> Prop) :
  triple mayabort P m Q -> (forall a, triple mayabort (Q a) (k a) Q') -> triple mayabort P (bind m k) Q'.
Proof.
  intros Hm Hk s Hs HP. specialize (Hm s Hs HP). unfold bind. destruct (m s) as [[s1 [a|e]]|]; [| |done].
  - destruct Hm as (H1 & E1 & HQ). specialize (Hk a s1 H1 (HQ a eq_refl)).
    destruct (k a s1) as [[s2 r]|]; [|done]. destruct Hk as (? & ? & ?). split_and!; [done|by etrans|done].
  - destruct Hm as (? & ? & _). by split_and!.
Qed.

Lemma triple_ask P (f : LoadedElf -> result A LoadError) Q :
  (forall s a, link_ok s -> P s -> f (elf s) = Ok a -> Q a s) -> triple mayabort P (ask f) Q.
Proof. intros H s Hs HP. split_and!; [done|done|]. intros a E. by apply H. Qed.

Lemma triple_ask_total P (f : LoadedElf -> option (result A LoadError)) Q :
  (forall s, link_ok s -> P s -> match f (elf s) with Some r => forall a, r = Ok a -> Q a s | None => mayabort end) ->
  triple mayabort P (ask_total f) Q.
Proof.
  intros H s Hs HP. specialize (H s Hs HP). unfold ask_total. destruct (f (elf s)) as [r|]; simpl; [|done]. by split_and!.
Qed.

Lemma triple_weaken P P' m Q Q' :
  (forall s, P' s -> P s) -> (forall a s, Q a s -> Q' a s) -> triple mayabort P m Q -> triple mayabort P' m Q'.
Proof.
  intros HP HQ Hm s Hs HP'. specialize (Hm s Hs (HP s HP')). destruct (m s) as [[s' r]|]; [|done].
  destruct Hm as (? & ? & ?). split_and!; auto.
Qed.

End triples.

Abbreviation always := (fun _ => True).
Abbreviation any := (fun _ _ => True).

(** A fact about the image that no write changes. *)
Definition stable {R} (P : LoadedElf -> Prop) : Linking R -> Prop := fun s => P (elf s).

Lemma triple_frame {R A} mayabort (F : LoadedElf -> Prop) (m : M R A) (P : Linking R -> Prop) Q :
  (forall e e', patched e e' -> F e -> F e') -> triple mayabort P m Q ->
  triple mayabort (fun s => P s /\ stable F s) m (fun a s => Q a s /\ stable F s).
Proof.
  intros HF Hm s Hs [HP Hst]. specialize (Hm s Hs HP). destruct (m s) as [[s' r]|]; [|done].
  destruct Hm as (? & He & HQ). split_and!; [done|done|]. intros a Ha. split; [by apply HQ|]. eapply HF; [apply He|done].
Qed.

(** ** The operations *)

(** A range of a writable load. *)
Definition can_write (a n : Z) (e : LoadedElf) : Prop := require_loaded_range e a n (Some PF_W) "" = Ok tt.

Lemma can_write_range a n what e : require_loaded_range e a n (Some PF_W) what = Ok tt -> can_write a n e.
Proof. unfold can_write. by rewrite !require_loaded_range_Ok. Qed.

Lemma can_write_patched a n e e' : patched e e' -> can_write a n e -> can_write a n e'.
Proof. intros H. unfold can_write. by rewrite (range_patched e e'). Qed.

Lemma can_write_inside a n e i : can_write a n e -> a - base_page e <= i < a - base_page e + n -> in_writable e i.
Proof.
  intros (_ & l & Hin & (? & ? & _ & Hw)%load_covers_true)%require_loaded_range_Ok Hi. exists l. split_and!; [done|done|lia|lia].
Qed.

(** The write of a range: the bytes at its offset. *)
Lemma write_loaded_patched e a data :
  elf_ok e -> can_write a (len data) e -> loaded_pointer e a (len data) = Ok (a - base_page e) /\
  patched e (write_loaded e (a - base_page e) data) /\
  forall i, image (write_loaded e (a - base_page e) data) !! i =
    if decide (a - base_page e <= Z.of_nat i < a - base_page e + len data)
    then data !! (i - Z.to_nat (a - base_page e))%nat else image e !! i.
Proof.
  intros Hok Hw. pose proof (len_nonneg data) as Hlen. split; [by eapply range_pointer|].
  destruct (range_inside e a (len data) (Some PF_W) "" Hok Hlen Hw) as [Ha Hb]. pose proof (elf_length e Hok) as Hl.
  set (o := a - base_page e) in *. unfold len in *.
  assert (Z.to_nat o + length data <= length (image e))%nat as Hin by lia.
  assert (forall i, copy_at (Z.to_nat o) data (image e) !! i =
    if decide (o <= Z.of_nat i < o + Z.of_nat (length data)) then data !! (i - Z.to_nat o)%nat else image e !! i) as Hi.
  { intros i. rewrite lookup_copy_at by done.
    destruct (Nat.ltb_spec i (Z.to_nat o)), (Nat.ltb_spec i (Z.to_nat o + length data)),
      (decide (o <= Z.of_nat i < o + Z.of_nat (length data))); try lia; done. }
  split; [|exact Hi]. split_and!; [done|by apply length_copy_at|]. intros i Hn. simpl. rewrite Hi, decide_False; [done|].
  intros Hr. apply Hn. eapply can_write_inside; [exact Hw|]. done.
Qed.

Lemma link_patched {R} (s : Linking R) e : link_ok s -> patched (elf s) e -> link_ok (put_elf s e) /\ extends s (put_elf s e).
Proof.
  intros [] Hp. split.
  - constructor; simpl; try done; [by eapply elf_ok_patched|]. eapply Forall_impl; [done|]. intros p. by apply pending_ok_patched.
  - constructor; simpl; try done; by left.
Qed.

Lemma triple_write_back {R} pk a data :
  triple (R := R) pk (stable (can_write a (len data))) (write_back a data) any.
Proof.
  intros s Hs Hw. destruct (write_loaded_patched (elf s) a data (link_elf s Hs) Hw) as (E & Hp & _).
  unfold write_back. rewrite E. destruct (link_patched s _ Hs Hp). by split_and!.
Qed.

Lemma triple_range {R} pk a n what :
  triple (R := R) pk always (ask (fun e => require_loaded_range e a n (Some PF_W) what)) (fun _ => stable (can_write a n)).
Proof. apply triple_ask. intros s [] _ _ E. by eapply can_write_range. Qed.

(** A pure step that keeps a fact. *)
Lemma triple_pure {R A} pk P (f : LoadedElf -> result A LoadError) : triple (R := R) pk P (ask f) (fun _ => P).
Proof. by apply triple_ask. Qed.

Ltac step_triple H := eapply triple_bind; [apply H|intros ?; cbv beta].

Lemma triple_relr_target {R} pk target : triple (R := R) pk always (apply_relr_target target) any.
Proof.
  unfold apply_relr_target. destruct (negb _); [apply triple_fail|]. step_triple @triple_range.
  do 2 step_triple @triple_pure. eapply triple_weaken; [| |apply (triple_write_back pk target)]; done.
Qed.

Lemma triple_relr_bits {R} pk base bitmap bits applied : triple (R := R) pk always (apply_relr_bits base bitmap bits applied) any.
Proof.
  revert applied. induction bits as [|bit bits IH]; intros applied; simpl; [by apply triple_ret|].
  destruct (_ =? 0); [apply IH|]. step_triple @triple_pure. step_triple @triple_relr_target. step_triple @triple_pure. apply IH.
Qed.

Lemma triple_relr_entries {R} pk entries cursor applied : triple (R := R) pk always (apply_relr_entries entries cursor applied) any.
Proof.
  revert cursor applied. induction entries as [|entry entries IH]; intros cursor applied; cbn [apply_relr_entries]; [by apply triple_ret|].
  destruct (_ =? 0).
  - step_triple @triple_relr_target. do 2 step_triple @triple_pure. apply IH.
  - step_triple @triple_pure. step_triple @triple_relr_bits. step_triple @triple_pure. apply IH.
Qed.

Lemma triple_relr_table {R} pk address size : triple (R := R) pk always (apply_relr_table address size) any.
Proof.
  unfold apply_relr_table. do 2 step_triple @triple_pure. step_triple @triple_relr_entries. apply triple_pure.
Qed.

(** *** Symbols *)

Lemma link_same {R} (s s' : Linking R) :
  link_ok s -> elf s' = elf s -> tls_module s' = tls_module s -> tls s' = tls s ->
  tls_descriptor_tokens s' = tls_descriptor_tokens s -> pending_irelative s' = pending_irelative s ->
  link_ok s' /\ extends s s'.
Proof.
  intros [] Ee Em Et Ek Ep. split.
  - constructor; rewrite ?Ee, ?Em, ?Et, ?Ek, ?Ep; done.
  - constructor; rewrite ?Ee, ?Em, ?Et, ?Ek, ?Ep; try done; try apply patched_refl; by left.
Qed.

Lemma triple_remember {R} pk P index address : triple (R := R) pk P (remember index address) any.
Proof. intros s Hs _. simpl. split_and!; [by apply (link_same s)|by apply (link_same s)|done]. Qed.

(** A question to the resolver. *)
Lemma triple_question {R A E} pk P (f : Linking R -> R * result A E) (g : E -> LoadError) :
  triple (R := R) pk P (fun s => let '(r, answer) := f s in Some (put_resolver s r, map_err g answer)) any.
Proof.
  intros s Hs _. destruct (f s) as [r answer].
  destruct (link_same s (put_resolver s r) Hs eq_refl eq_refl eq_refl eq_refl eq_refl). by split_and!.
Qed.

Lemma triple_definitions {R} pk P n : triple (R := R) pk P (ask_total (fun e => parse_version_definitions e n)) (fun _ => P).
Proof.
  apply triple_ask_total. intros s Hs HP. destruct (version_tables_ok (elf s) n (link_elf s Hs)) as [_ (r & -> & _)]. done.
Qed.

Section binding.
  Context {R} `{!SymbolResolver R} (pk : Prop).

Lemma triple_bind_definition index n symbol : triple pk always (bind_definition (R := R) index n symbol) any.
Proof.
  unfold bind_definition. do 4 step_triple @triple_pure. destruct (negb _); [apply triple_remember|].
  step_triple @triple_definitions. eapply triple_bind; [apply triple_pure|]. intros [definition hidden]; cbv beta.
  eapply triple_bind; [apply (triple_question pk _ (fun s => resolve_defined (resolver s) _ definition))|]. intros selected.
  apply triple_remember.
Qed.

Lemma triple_bind_import index symbol versions : triple pk always (bind_import (R := R) index symbol versions) any.
Proof.
  unfold bind_import. destruct (_ || _); [apply triple_fail|]. step_triple @triple_pure.
  destruct (empty_string _); [apply triple_fail|]. destruct (negb _); [apply triple_fail|]. step_triple @triple_pure.
  eapply triple_bind; [apply (triple_question pk _ (fun s => resolve (resolver s) _))|]. intros [address|]; [apply triple_remember|].
  destruct (_ =? _); [apply triple_remember|apply triple_fail].
Qed.

Lemma triple_resolve index n versions : triple pk always (resolve_relocation_symbol (R := R) index n versions) any.
Proof.
  intros s Hs _. unfold resolve_relocation_symbol. destruct (resolved s !! index); [by split_and!|].
  revert s Hs. enough (triple (R := R) pk always
    (if index =? 0 then ret 0 else if n <=? index then fail (Bounds "relocation symbol index") else
       let* symbol := ask (fun e => dynamic_symbol e index) in
       if skind symbol =? STT_TLS then fail (Capable CapTls)
       else if negb (one_of (skind symbol) [STT_NOTYPE; STT_OBJECT; STT_FUNC]) then fail (InvalidSymbol (dynsym index "type"))
       else if negb (section_index symbol =? SHN_UNDEF) then bind_definition index n symbol
       else bind_import index symbol versions) any) as H by (intros s Hs; by apply H).
  destruct (_ =? 0); [by apply triple_ret|]. destruct (_ <=? _); [apply triple_fail|]. step_triple @triple_pure.
  destruct (_ =? _); [apply triple_fail|]. destruct (negb _); [apply triple_fail|].
  destruct (negb _); [apply triple_bind_definition|apply triple_bind_import].
Qed.

Lemma triple_value type index addend n versions : triple pk always (relocation_value (R := R) type index addend n versions) any.
Proof.
  unfold relocation_value. destruct (_ && _); [apply triple_pure|]. destruct (one_of _ _); [|apply triple_fail].
  destruct (_ && _); [apply triple_fail|]. step_triple @triple_resolve. apply triple_pure.
Qed.

(** *** Descriptors *)

(** Registering a descriptor, writing it and keeping its token. *)
Lemma triple_descriptor context target tlsdesc_resolver m :
  0 <= coffset context < tmemory_size m ->
  triple (R := R) pk
    (fun s => stable (can_write target 16) s /\ tls_module s = Some (cmodule context) /\ modules (tls s) !! cmodule context = Some m)
    (let* token := register_token context in
     let* _ := write_back target (u64_le tlsdesc_resolver ++ u64_le token) in push_token token) any.
Proof.
  intros Ho s Hs (Hw & Hmod & Hm). unfold bind, register_token. destruct (register_tls_descriptor (tls s) context) as [[t answer]|] eqn:Er.
  2: { exfalso. revert Er. unfold register_tls_descriptor. destruct (checked_add _ _ _) as [next|]; [|done].
       destruct (registry (tls s) !! _) as [c|] eqn:Ec; [|done]. destruct (ok_registry _ (link_tls s Hs) _ c Ec) as [? _]. lia. }
  pose proof (tls_register_ok _ _ _ _ _ (link_tls s Hs) Hm Ho Er) as Hok.
  assert (step (tls s) t) as Hstep by (by eapply step_register).
  revert Er. unfold register_tls_descriptor. destruct (checked_add _ _ _) as [next|].
  2: { intros [= <- <-]. split_and!; [by apply (link_same s)|by apply (link_same s)|done]. }
  destruct (registry (tls s) !! next_tls_descriptor_token (tls s)) eqn:Enew; [done|]. intros [= <- <-].
  set (token := next_tls_descriptor_token (tls s)) in *. set (data := u64_le tlsdesc_resolver ++ u64_le token).
  assert (len data = 16) as Hlen by (unfold data, len; by rewrite length_app, !length_u64_le).
  rewrite <- Hlen in Hw. destruct (write_loaded_patched (elf s) target data (link_elf s Hs) Hw) as (E & Hp & _).
  unfold write_back. simpl. rewrite E. simpl. pose proof Hs as [? ? ? [Hnd Hreg] ?]. split_and!.
  - constructor; simpl; try done.
    + by eapply elf_ok_patched.
    + split.
      * apply NoDup_app. split_and!; [done| |apply NoDup_singleton]. intros k Hk ->%list_elem_of_singleton.
        destruct (Hreg _ Hk) as [c Hc]. congruence.
      * intros k [Hk| ->%list_elem_of_singleton]%elem_of_app; [|by rewrite lookup_insert_eq].
        rewrite lookup_insert_is_Some'. right. auto.
  - constructor; simpl; try done.
    + by apply rtc_once.
    + by apply prefix_app_r.
    + intros k [<-|]%lookup_insert_is_Some'; [|by left]. right. apply elem_of_app. right. by constructor.
    + by apply insert_subseteq.
    + intros k [Hk| ->%list_elem_of_singleton]%elem_of_app; [by left|by right].
  - done.
Qed.

Lemma triple_validate_tls P symbol : triple (R := R) pk P (validate_tls symbol) (fun _ => P).
Proof. intros s Hs HP. by split_and!. Qed.

Lemma triple_tlsdesc_base P index n : triple (R := R) pk P (tlsdesc_base index n) (fun _ => P).
Proof.
  unfold tlsdesc_base. destruct (_ =? 0); [by apply triple_ret|]. destruct (_ <=? _); [apply triple_fail|].
  step_triple @triple_pure. destruct (_ || _); [apply triple_fail|]. step_triple @triple_validate_tls. by apply triple_ret.
Qed.

Lemma triple_tlsdesc tlsdesc_resolver target index n addend :
  triple (R := R) pk always (apply_tlsdesc_relocation tlsdesc_resolver target index n addend) any.
Proof.
  unfold apply_tlsdesc_relocation. destruct (negb _); [apply triple_fail|]. step_triple @triple_range.
  set (P := fun (p : Z * TlsModule) (s : Linking R) =>
    stable (can_write target 16) s /\ tls_module s = Some p.1 /\ modules (tls s) !! p.1 = Some p.2).
  apply (triple_bind _ _ _ _ P).
  { intros s Hs Hw. split_and!; [done|done|]. intros [id m]. destruct (tls_module s) as [id'|] eqn:Em; [|done].
    destruct (modules (tls s) !! id') as [m'|] eqn:E; [|done]. intros [= <- <-]. unfold P. by rewrite Em. }
  intros [id m]. step_triple @triple_tlsdesc_base.
  apply (triple_bind _ _ _ _ (fun offset_ s => 0 <= offset_ /\ P (id, m) s)).
  { apply triple_ask. intros s o _ HP E. split; [|done]. destruct (try_u64 _) as [v|] eqn:Ev; [|done].
    injection E as <-. apply try_u64_Some in Ev. lia. }
  intros o. destruct (Z.leb_spec (tmemory_size m) o); [apply triple_fail|]. step_triple @triple_pure.
  apply (triple_bind _ _ _ _ (fun _ s => 0 <= o /\ P (id, m) s)); [intros s Hs HP; by split_and!|]. intros base.
  intros s Hs [Ho HP]. apply (triple_descriptor _ target tlsdesc_resolver m); simpl; [lia|done|done].
Qed.

(** *** Relocations and tables *)

Lemma triple_irelative offset_ addend :
  triple (R := R) pk always
    (let* _ := ask (fun e => require_loaded_range e offset_ 8 (Some PF_W) "R_AARCH64_IRELATIVE target") in
     let* function := ask (fun e => load_bias_add e addend) in
     let* _ := ask (fun e => require_host_executable e function "R_AARCH64_IRELATIVE resolver") in
     push_irelative offset_ function) any.
Proof.
  step_triple @triple_range. step_triple @triple_pure.
  apply (triple_bind _ _ _ _ (fun _ s => pending_ok (elf s) (offset_, a0))).
  { apply triple_ask. intros s [] _ Hw E. split; [exact Hw|]. revert E. simpl. unfold require_host_executable.
    destruct (checked_sub _ _); simpl; [|done]. destruct (checked_add _ _ _); simpl; [|done]. by rewrite !require_loaded_range_Ok. }
  intros _ s Hs Hp. unfold push_irelative. pose proof Hs as []. split_and!; [| |done].
  - constructor; simpl; try done. apply Forall_app. split; [done|]. by apply Forall_singleton.
  - constructor; simpl; try done; [apply patched_refl|by left|by left|by apply prefix_app_r].
Qed.

Lemma triple_one tlsdesc_resolver offset_ info_ addend plt_only n versions :
  triple (R := R) pk always (apply_one_relocation tlsdesc_resolver offset_ info_ addend plt_only n versions) any.
Proof.
  unfold apply_one_relocation. cbv zeta. destruct (_ && _); [apply triple_fail|]. destruct (_ =? R_AARCH64_TLSDESC).
  { destruct plt_only; [apply triple_fail|apply triple_tlsdesc]. }
  destruct (_ =? R_AARCH64_IRELATIVE); [destruct (negb _); [apply triple_fail|apply triple_irelative]|].
  step_triple @triple_range. eapply triple_bind.
  - eapply (triple_weaken pk (fun s => True /\ stable (can_write offset_ 8) s)); [by intros s|intros v s H; exact H|].
    apply (triple_frame pk (can_write offset_ 8)); [apply can_write_patched|apply triple_value].
  - intros v. eapply triple_weaken; [| |apply (triple_write_back pk offset_ (u64_le v))]; [|done]. intros s [_ Hw]. exact Hw.
Qed.

Lemma triple_for_each {A} (body : A -> M R unit) l :
  (forall a, triple pk always (body a) any) -> triple pk always (for_each body l) any.
Proof. intros H. induction l as [|a l IH]; simpl; [by apply triple_ret|]. eapply triple_bind; [apply H|]. intros u. apply IH. Qed.

Lemma triple_table tlsdesc_resolver n versions address size plt_only prefix_count :
  triple (R := R) pk always (apply_relocation_table tlsdesc_resolver n versions address size plt_only prefix_count) any.
Proof.
  unfold apply_relocation_table. step_triple @triple_pure. destruct (_ || _); [apply triple_fail|]. cbv zeta.
  destruct (_ <? _); [apply triple_fail|]. step_triple @triple_pure. apply triple_for_each. intros index.
  unfold apply_entry. do 4 step_triple @triple_pure. destruct (_ && _); [apply triple_fail|apply triple_one].
Qed.

(** Decoding a packed table is the one step that can panic. *)
Lemma triple_packed tlsdesc_resolver n versions address size :
  pk -> triple (R := R) pk always (apply_android_packed_relocations tlsdesc_resolver n versions address size) any.
Proof.
  intros Hpk. unfold apply_android_packed_relocations. do 2 step_triple @triple_pure.
  apply (triple_bind _ _ _ _ any).
  { apply triple_ask_total. intros s _ _. destruct (decode_aps2_rela _); simpl; [done|exact Hpk]. }
  intros relocations. apply triple_for_each. intros r. apply triple_one.
Qed.

Lemma triple_check_symbol index : triple (R := R) pk always (check_symbol index) any.
Proof.
  unfold check_symbol. step_triple @triple_pure. destruct (negb _); [by apply triple_ret|]. destruct (_ =? _); [apply triple_fail|].
  apply triple_validate_tls.
Qed.

End binding.

Lemma info_patched d e e' : patched e e' -> info e = d -> info e' = d.
Proof. by intros [-> _]. Qed.

Section whole.
  Context {R} `{!SymbolResolver R} (pk : Prop).

(** An operation that keeps the dynamic section. *)
Lemma triple_info {A} d (m : M R A) (P : Linking R -> Prop) Q :
  triple pk P m Q -> triple pk (fun s => P s /\ stable (fun e => info e = d) s) m (fun a s => Q a s /\ stable (fun e => info e = d) s).
Proof. apply triple_frame. apply info_patched. Qed.

Lemma triple_tables tlsdesc_resolver n versions d :
  (or_zero (field d AndroidRelaSize) <> 0 -> pk) ->
  triple pk (stable (fun e => info e = d)) (apply_tables (R := R) tlsdesc_resolver n versions) any.
Proof.
  intros Hpk s Hs Hd. unfold apply_tables. cbv zeta. unfold stable in Hd. rewrite Hd. clear Hd.
  set (m := bind _ _). enough (triple pk always m any) as H by (by apply H). subst m.
  apply (triple_bind _ _ _ _ any).
  { destruct (_ =? 0); [by apply triple_ret|apply triple_relr_table]. }
  intros ?. apply (triple_bind _ _ _ _ any).
  { destruct (Z.eqb_spec (or_zero (field d AndroidRelaSize)) 0); [by apply triple_ret|]. apply triple_packed. auto. }
  intros ?. destruct (negb _); [apply triple_fail|]. apply (triple_bind _ _ _ _ any).
  { destruct (_ =? 0); [by apply triple_ret|apply triple_table]. }
  intros ?. destruct (negb _); [apply triple_fail|]. destruct (_ =? 0); [by apply triple_ret|].
  do 2 step_triple @triple_pure. destruct (_ && _); [apply triple_fail|apply triple_table].
Qed.

Lemma triple_versions P n : triple (R := R) pk P (ask_total (fun e => parse_version_requirements e n)) (fun _ => P).
Proof.
  apply triple_ask_total. intros s Hs HP. destruct (version_tables_ok (elf s) n (link_elf s Hs)) as [(r & -> & _) _]. done.
Qed.

Lemma triple_relocate tlsdesc_resolver d :
  (or_zero (field d AndroidRelaSize) <> 0 -> pk) ->
  triple pk (stable (fun e => info e = d)) (validate_symbols_and_apply_relocations (R := R) tlsdesc_resolver) any.
Proof.
  intros Hpk. unfold validate_symbols_and_apply_relocations. set (I := stable (fun e => info e = d)).
  apply (triple_bind _ _ _ _ (fun _ => I)).
  { apply triple_ask_total. intros s Hs HI. pose proof (symbol_count_returns (elf s)). by destruct (symbol_count (elf s)). }
  intros n. apply (triple_bind _ _ _ _ (fun _ => I)).
  { eapply (triple_weaken pk (fun s => True /\ I s) I _ (fun _ s => True /\ I s)); [by intros s|by intros ? s []|].
    apply triple_info. apply triple_for_each. intros index. apply triple_check_symbol. }
  intros ?. apply (triple_bind _ _ _ _ (fun _ => I)); [apply triple_definitions|].
  intros ?. apply (triple_bind _ _ _ _ (fun _ => I)); [apply triple_versions|].
  intros versions s Hs HI. set (s1 := {| elf := elf s |}).
  destruct (link_same s s1 Hs eq_refl eq_refl eq_refl eq_refl eq_refl) as [Hs1 He1].
  pose proof (triple_tables tlsdesc_resolver n versions d Hpk s1 Hs1 HI) as H.
  destruct (apply_tables _ _ _ s1) as [[s' r]|]; [|done]. destruct H as (? & ? & ?). split_and!; [done|by etrans|done].
Qed.

End whole.

(** The tokens of an image can be unregistered. *)
Lemma unregister_total t tokens :
  NoDup tokens -> (forall token, token ∈ tokens -> is_Some (registry t !! token)) ->
  exists t', unregister_tls_descriptors t tokens = Some t'.
Proof.
  revert t. induction tokens as [|token tokens IH]; intros t Hnd Hreg; simpl; [by eexists|].
  apply NoDup_cons in Hnd as [Hnot Hnd]. destruct (Hreg token) as [c ->]; [by constructor|]. apply IH; [done|].
  intros k Hk. simpl. rewrite lookup_delete_ne; [apply Hreg; by constructor|]. by intros ->.
Qed.


(** ** Compact relative relocations *)

(** The targets of a compact table: an even entry is an address, an odd one marks, with its bits from
    the second on, words after the last address. *)
Definition bit_targets (base entry : Z) (bits : list Z) : list Z :=
  (fun k => base + k * 8) <$> filter (fun k => Z.testbit entry (k + 1) = true) bits.

Fixpoint relr_targets (entries : list Z) (cursor : option Z) : option (list Z) :=
  match entries with
  | [] => Some []
  | entry :: entries =>
      if Z.testbit entry 0 then
        base ← cursor; rest ← relr_targets entries (Some (base + 63 * 8)); Some (bit_targets base entry (seqZ 0 63) ++ rest)
      else rest ← relr_targets entries (Some (entry + 8)); Some (entry :: rest)
  end.

(** *** Words of the image *)

Lemma read_word e a :
  elf_ok e -> base_page e <= a -> a + 8 <= base_page e + mapping_size e ->
  read_loaded_u64 e a = Ok (from_le (slice (image e) (Z.to_nat (a - base_page e)) (Z.to_nat (a - base_page e) + 8))).
Proof.
  intros Hok Ha Hb. pose proof (elf_length e Hok) as Hl. pose proof (elf_end e Hok). pose proof (elf_base e Hok). unfold read_loaded_u64, loaded_slice.
  rewrite (proj2 (loaded_pointer_Ok e a 8 (a - base_page e))) by (unfold usize_max; lia).
  replace (Z.to_nat (a - base_page e + 8)) with (Z.to_nat (a - base_page e) + 8)%nat by lia.
  set (w := slice (image e) _ _). assert (length w = 8)%nat as Hw by (unfold w; rewrite length_slice; unfold len in *; lia).
  unfold read_u64. rewrite (proj2 (checked_slice_Ok w 0 8 "u64 read" w ltac:(done) ltac:(done))); [done|].
  unfold len. rewrite Hw. split_and!; [done|done|]. rewrite drop_0, take_ge by lia. done.
Qed.

Lemma read_word_same e e' a :
  elf_ok e -> patched e e' -> base_page e <= a -> a + 8 <= base_page e + mapping_size e ->
  (forall i, a - base_page e <= Z.of_nat i < a - base_page e + 8 -> image e' !! i = image e !! i) ->
  read_loaded_u64 e' a = read_loaded_u64 e a.
Proof.
  intros Hok Hp Ha Hb Hi. pose proof (elf_ok_patched _ _ Hp Hok) as Hok'. pose proof Hp as (E & _ & _).
  rewrite (read_word e), (read_word e') by (done || by rewrite E). rewrite E. simpl. do 2 f_equal. apply list_eq. intros k.
  rewrite !lookup_slice. destruct (Nat.ltb_spec k (Z.to_nat (a - base_page e) + 8 - Z.to_nat (a - base_page e))); [|done].
  apply Hi. lia.
Qed.

Lemma read_written e a v :
  elf_ok e -> can_write a 8 e -> u64_range v -> read_loaded_u64 (write_loaded e (a - base_page e) (u64_le v)) a = Ok v.
Proof.
  intros Hok Hw Hv. destruct (range_inside e a 8 _ _ Hok ltac:(done) Hw) as [Ha Hb].
  assert (len (u64_le v) = 8) as Hlen by (unfold len; by rewrite length_u64_le).
  pose proof Hw as Hw'. rewrite <- Hlen in Hw'. destruct (write_loaded_patched e a (u64_le v) Hok Hw') as (_ & Hp & _).
  rewrite read_word by (done || by eapply elf_ok_patched). simpl. f_equal.
  pose proof (elf_length e Hok) as Hl. unfold len in Hl.
  replace 8%nat with (length (u64_le v)) by apply length_u64_le. rewrite slice_copy_at by lia. by apply from_u64_le.
Qed.

(** *** One target *)

Lemma relr_target_exact {R} (s s' : Linking R) target u :
  link_ok s -> apply_relr_target target s = Some (s', Ok u) ->
  target mod 8 = 0 /\ can_write target 8 (elf s) /\
  exists v w, read_loaded_u64 (elf s) target = Ok v /\ relr_value (elf s) v = Some w /\
    s' = put_elf s (write_loaded (elf s) (target - base_page (elf s)) (u64_le w)).
Proof.
  intros Hs. unfold apply_relr_target. destruct (Z.eqb_spec (target mod 8) 0) as [E8|]; [|done]. unfold bind, ask. simpl.
  destruct (require_loaded_range _ _ _ _ _) as [[]|] eqn:Er; [|done]. apply can_write_range in Er.
  destruct (read_loaded_u64 (elf s) target) as [v|] eqn:Ev; [|done]. destruct (relr_value (elf s) v) as [w|] eqn:Ew; simpl; [|done].
  unfold write_back. replace (len (u64_le w)) with 8 by (unfold len; by rewrite length_u64_le).
  rewrite (range_pointer (elf s) target 8 (Some PF_W) "" (link_elf s Hs) ltac:(done) Er). intros [= <-]. split_and!; [done|done|]. by exists v, w.
Qed.

(** The bytes of a word of the image. *)
Definition in_word (e : LoadedElf) (target : Z) (i : nat) : Prop :=
  target - base_page e <= Z.of_nat i < target - base_page e + 8.

Lemma words_apart e a b i : a mod 8 = 0 -> b mod 8 = 0 -> a <> b -> in_word e a i -> ~ in_word e b i.
Proof.
  intros Ha Hb Hne Hi Hj. unfold in_word in *. apply Z.mod_divide in Ha as [x ->], Hb as [y ->]; try done. lia.
Qed.

(** *** All targets, one after the other *)

Lemma relr_loop_exact {R} targets (s s' : Linking R) u :
  link_ok s -> NoDup targets -> for_each apply_relr_target targets s = Some (s', Ok u) ->
  patched (elf s) (elf s') /\
  (forall i, (forall target, target ∈ targets -> ~ in_word (elf s) target i) -> image (elf s') !! i = image (elf s) !! i) /\
  forall target, target ∈ targets -> target mod 8 = 0 /\ can_write target 8 (elf s) /\
    exists v, read_loaded_u64 (elf s) target = Ok v /\
      read_loaded_u64 (elf s') target = Ok (v + (mapping (elf s) - base_page (elf s))).
Proof.
  revert s. induction targets as [|t targets IH]; intros s Hs Hnd; simpl.
  { intros [= <- _]. split_and!; [apply patched_refl|done|]. intros target []%not_elem_of_nil. }
  apply NoDup_cons in Hnd as [Hnot Hnd]. unfold bind. destruct (apply_relr_target t s) as [[s1 [u1|]]|] eqn:E1; [|done|done].
  apply relr_target_exact in E1 as (H8 & Hw & v & w & Hv & Hval & ->); [|done].
  unfold relr_value in Hval. apply try_u64_Some in Hval as [-> Hrange]. set (w := v + (mapping (elf s) - base_page (elf s))) in *.
  assert (len (u64_le w) = 8) as Hlen by (unfold len; by rewrite length_u64_le).
  pose proof Hw as Hw'. rewrite <- Hlen in Hw'. destruct (write_loaded_patched (elf s) t (u64_le w) (link_elf s Hs) Hw') as (_ & Hp1 & Hi1).
  rewrite Hlen in Hi1. destruct (link_patched s _ Hs Hp1) as [Hs1 _]. intros H. apply IH in H as (Hp & Hout & Hin); [|done|done]. simpl in *.
  pose proof (patched_trans _ _ _ Hp1 Hp) as Hpall. split_and!; [done| |].
  - intros i Hi. rewrite Hout by (intros target Ht; apply Hi; by constructor). rewrite Hi1, decide_False; [done|].
    apply (Hi t). by constructor.
  - intros target [->|Ht]%elem_of_cons.
    + split_and!; [done|done|]. exists v. split; [done|].
      pose proof (read_written (elf s) t w (link_elf s Hs) Hw Hrange) as Hread. fold w. rewrite <- Hread.
      destruct (range_inside (elf s) t 8 (Some PF_W) "" (link_elf s Hs) ltac:(done) Hw) as [Ha Hb].
      apply read_word_same; [by eapply elf_ok_patched, link_elf|done|done|done|]. intros i Hi. apply Hout.
      intros target Htarget. destruct (Hin target Htarget) as (? & _). apply (words_apart _ t target); try done. by intros ->.
    + destruct (Hin target Ht) as (Ht8 & Htw & v' & Hr & Hr'). split_and!; [done|done|]. exists v'. split; [|done].
      rewrite <- Hr. symmetry. destruct (range_inside (elf s) target 8 (Some PF_W) "" (link_elf s Hs) ltac:(done) Htw) as [Ha Hb].
      apply read_word_same; [by apply link_elf|done|done|done|]. intros i Hi. rewrite Hi1, decide_False; [done|].
      apply (words_apart (elf s) target t); try done. by intros ->.
Qed.

(** *** The loops over entries and bits are the loop over the targets *)

Lemma for_each_app {R A} (body : A -> M R unit) l k s s1 s2 u v :
  for_each body l s = Some (s1, Ok u) -> for_each body k s1 = Some (s2, Ok v) -> for_each body (l ++ k) s = Some (s2, Ok v).
Proof.
  revert s. induction l as [|a l IH]; intros s; simpl; [by intros [= -> _]|]. unfold bind.
  destruct (body a s) as [[s' [x|]]|]; [|done|done]. apply IH.
Qed.

Lemma bitmap_bit entry k : 0 <= k < 63 -> (Z.land (Z.shiftr entry 1) (shl64 1 k) =? 0) = negb (Z.testbit entry (k + 1)).
Proof.
  intros Hk. unfold shl64, as_u64. rewrite Z.shiftl_mul_pow2, Z.mul_1_l by lia.
  rewrite Z.mod_small by (split; [lia|apply Z.pow_lt_mono_r; lia]). rewrite land_bit, Z.shiftr_spec by lia.
  pose proof (Z.pow_pos_nonneg 2 k). destruct (Z.testbit entry (k + 1)); [|done]. apply Z.eqb_neq. cbn [Z.b2z]. lia.
Qed.

Lemma bit_targets_cons base entry k bits :
  bit_targets base entry (k :: bits) =
  if Z.testbit entry (k + 1) then (base + k * 8) :: bit_targets base entry bits else bit_targets base entry bits.
Proof. unfold bit_targets. rewrite filter_cons. by destruct (Z.testbit entry (k + 1)). Qed.

Lemma len_cons {A} (a : A) l : len (a :: l) = 1 + len l.
Proof. unfold len. simpl. lia. Qed.

Lemma relr_bits_loop {R} base entry bits applied (s s' : Linking R) n :
  Forall (fun k => 0 <= k < 63) bits -> apply_relr_bits base (Z.shiftr entry 1) bits applied s = Some (s', Ok n) ->
  for_each apply_relr_target (bit_targets base entry bits) s = Some (s', Ok tt) /\ n = applied + len (bit_targets base entry bits).
Proof.
  intros Hb. revert applied s. induction Hb as [|k bits Hk _ IH]; intros applied s; simpl.
  { intros [= <- <-]. split; [done|]. unfold len. simpl. lia. }
  rewrite bitmap_bit, bit_targets_cons by done. destruct (Z.testbit entry (k + 1)); cbn [negb for_each].
  2: { intros H. by apply IH. }
  unfold bind, ask. destruct (checked_add u64_max base (k * 8)) as [t|] eqn:Et; simpl; [|done]. apply checked_add_Some in Et as [-> _].
  destruct (apply_relr_target (base + k * 8) s) as [[s1 [u|]]|]; [|done|done].
  destruct (checked_add u64_max applied 1) as [m|] eqn:Em; simpl; [|done]. apply checked_add_Some in Em as [-> _].
  intros [? ->]%IH. split; [done|]. rewrite len_cons. lia.
Qed.

Lemma testbit_0 entry : (Z.land entry 1 =? 0) = negb (Z.testbit entry 0).
Proof. change 1 with (2 ^ 0) at 1. rewrite land_bit by done. by destruct (Z.testbit entry 0). Qed.

Lemma relr_entries_loop {R} entries cursor applied (s s' : Linking R) n :
  apply_relr_entries entries cursor applied s = Some (s', Ok n) ->
  exists targets, relr_targets entries cursor = Some targets /\
    for_each apply_relr_target targets s = Some (s', Ok tt) /\ n = applied + len targets.
Proof.
  revert cursor applied s. induction entries as [|entry entries IH]; intros cursor applied s; cbn [apply_relr_entries relr_targets].
  { intros [= <- <-]. exists []. split_and!; [done|done|]. unfold len. simpl. lia. }
  rewrite testbit_0. destruct (Z.testbit entry 0); cbn [negb]; unfold bind at 1, ask at 1.
  - destruct cursor as [base|]; simpl ok_or; [|done]. unfold bind at 1.
    destruct (apply_relr_bits base (Z.shiftr entry 1) (seqZ 0 63) applied s) as [[s1 [m|]]|] eqn:Eb; [|done|done].
    apply relr_bits_loop in Eb as [Eb ->]; [|apply Forall_seqZ; lia]. unfold bind, ask.
    destruct (checked_add u64_max base (63 * 8)) as [c|] eqn:Ec; simpl ok_or; [|done]. apply checked_add_Some in Ec as [-> _].
    intros (targets & Ht & Hf & ->)%IH. simpl. rewrite Ht. simpl. eexists. split; [done|].
    split; [by eapply for_each_app|]. rewrite len_app. lia.
  - destruct (apply_relr_target entry s) as [[s1 [u|]]|] eqn:E1; [|done|done]. unfold bind, ask.
    destruct (checked_add u64_max applied 1) as [m|] eqn:Em; simpl ok_or; [|done]. apply checked_add_Some in Em as [-> _].
    destruct (checked_add u64_max entry 8) as [c|] eqn:Ec; simpl ok_or; [|done]. apply checked_add_Some in Ec as [-> _].
    intros (targets & Ht & Hf & ->)%IH. rewrite Ht. simpl. eexists. split; [done|]. split.
    + simpl. unfold bind. by rewrite E1.
    + unfold len. simpl. lia.
Qed.

(** The entries of a compact table, as they stand in the image. *)
Lemma relr_table_loop {R} address size (s s' : Linking R) u :
  apply_relr_table address size s = Some (s', Ok u) ->
  exists entries targets, collect (read_relr_entry (elf s) address) (seqZ 0 (size / 8)) = Ok entries /\
    relr_targets entries None = Some targets /\ for_each apply_relr_target targets s = Some (s', Ok tt) /\
    (forall n, field (info (elf s')) RelrCount = Some n -> n = len targets).
Proof.
  unfold apply_relr_table. unfold bind at 1, ask at 1. destruct (require_loaded_range _ _ _ _ _); [|done]. unfold bind at 1, ask at 1.
  destruct (collect _ _) as [entries|]; [|done]. unfold bind at 1. destruct (apply_relr_entries entries None 0 s) as [[s1 [n|]]|] eqn:E; [|done|done].
  apply relr_entries_loop in E as (targets & Ht & Hf & ->). unfold ask. intros [= <- Hc]. exists entries, targets. split_and!; try done.
  intros m Hm. rewrite Hm in Hc. destruct (Z.eqb_spec m (0 + len targets)); [lia|done].
Qed.

(** C33: a compact table of relative relocations means what its format says.  When applying it succeeds,
    its entries expand to a list of aligned words of writable loads, as many as the table announces;
    if no word occurs twice, each grows by the bias of the mapping, and no other byte of the image
    changes. *)
Theorem relr_exact {R} address size (s s' : Linking R) u :
  link_ok s -> apply_relr_table address size s = Some (s', Ok u) ->
  exists entries targets, collect (read_relr_entry (elf s) address) (seqZ 0 (size / 8)) = Ok entries /\
    relr_targets entries None = Some targets /\
    (forall n, field (info (elf s)) RelrCount = Some n -> n = len targets) /\
    (NoDup targets ->
      (forall target, target ∈ targets -> target mod 8 = 0 /\ can_write target 8 (elf s) /\
        exists v, read_loaded_u64 (elf s) target = Ok v /\
          read_loaded_u64 (elf s') target = Ok (v + (mapping (elf s) - base_page (elf s)))) /\
      forall i, (forall target, target ∈ targets -> ~ in_word (elf s) target i) -> image (elf s') !! i = image (elf s) !! i).
Proof.
  intros Hs H. pose proof (triple_relr_table False address size s Hs I) as Ht. rewrite H in Ht. destruct Ht as (_ & [(E & _) _ _ _ _ _ _ _] & _).
  apply relr_table_loop in H as (entries & targets & Hc & Hr & Hf & Hn). exists entries, targets. rewrite E in Hn.
  split_and!; try done. intros Hnd. apply relr_loop_exact in Hf as (_ & ? & ?); done.
Qed.

(** ** One relocation *)

(** What the resolver and the image say of a symbol. *)
Lemma resolved_once {R} `{!SymbolResolver R} index n versions (s s' : Linking R) a :
  resolve_relocation_symbol index n versions s = Some (s', Ok a) ->
  (index = 0 /\ a = 0) \/ resolved s' !! index = Some a.
Proof.
  unfold resolve_relocation_symbol. destruct (resolved s !! index) as [b|] eqn:Eb; [intros [= <- <-]; by right|].
  destruct (Z.eqb_spec index 0) as [->|]; [intros [= <- <-]; by left|]. destruct (_ <=? _); [done|]. unfold bind at 1, ask at 1.
  destruct (dynamic_symbol _ _) as [symbol|]; [|done]. do 2 (case_match; [done|]).
  assert (forall (s : Linking R) b, remember index b s = Some (s', Ok a) -> resolved s' !! index = Some a) as Hrem.
  { intros t b. unfold remember. intros [= <- <-]. apply lookup_insert_eq. }
  intros Hrun. right. revert Hrun. case_match.
  - unfold bind_definition, bind, ask, ask_total. repeat (case_match; simplify_eq/=; try done); eauto.
  - unfold bind_import, bind, ask, fail. repeat (case_match; simplify_eq/=; try done); eauto.
Qed.

Lemma resolve_keeps_image {R} `{!SymbolResolver R} index n versions (s s' : Linking R) r :
  resolve_relocation_symbol index n versions s = Some (s', r) -> elf s' = elf s.
Proof.
  unfold resolve_relocation_symbol. destruct (resolved s !! index); [by intros [= <- _]|].
  destruct (_ =? 0); [by intros [= <- _]|]. destruct (_ <=? _); [by intros [= <- _]|]. unfold bind at 1, ask at 1.
  destruct (dynamic_symbol _ _) as [symbol|]; [|by intros [= <- _]]. do 2 (case_match; [by intros [= <- _]|]). case_match.
  - unfold bind_definition, bind, ask, ask_total, remember. intros Hrun. repeat (case_match; simplify_eq/=; try done).
    all: destruct (parse_version_definitions _ _); by simplify_eq/=.
  - unfold bind_import, bind, ask, fail, remember. intros Hrun. repeat (case_match; simplify_eq/=; try done).
Qed.

(** The value of a word relocation: the bias plus the addend, or the address of a symbol plus the
    addend. *)
Definition word_value {R} (s s' : Linking R) (type index addend : Z) (v : Z) : Prop :=
  (type = R_AARCH64_RELATIVE /\ index = 0 /\ v = mapping (elf s) + (addend - base_page (elf s))) \/
  (type ∈ [R_AARCH64_ABS64; R_AARCH64_GLOB_DAT; R_AARCH64_JUMP_SLOT] /\
   exists a, v = a + addend /\ ((index = 0 /\ a = 0) \/ resolved s' !! index = Some a) /\
     (forall b, resolved s !! index = Some b -> b = a /\ resolver s' = resolver s)).

Lemma relocation_value_exact {R} `{!SymbolResolver R} type index addend n versions (s s' : Linking R) v :
  relocation_value type index addend n versions s = Some (s', Ok v) ->
  u64_range v /\ elf s' = elf s /\ word_value s s' type index addend v.
Proof.
  unfold relocation_value. destruct (Z.eqb_spec type R_AARCH64_RELATIVE) as [->|]; [destruct (Z.eqb_spec index 0) as [->|]|]; cbn [andb].
  { unfold ask, load_bias_add. intros [= <- E]. destruct (try_u64 _) as [w|] eqn:Ew; [|done]. injection E as <-.
    apply try_u64_Some in Ew as [-> ?]. split_and!; [done|done|by left]. }
  1: done.
  destruct (one_of type _) eqn:Eo; [|done]. apply one_of_spec in Eo. case_match; [done|]. unfold bind, ask.
  destruct (resolve_relocation_symbol index n versions s) as [[s1 [a|]]|] eqn:Er; [|done|done]. unfold checked_signed_add.
  intros [= <- E]. destruct (try_u64 _) as [w|] eqn:Ew; [|done]. injection E as <-. apply try_u64_Some in Ew as [-> ?].
  split_and!; [done|by eapply resolve_keeps_image|]. right. split; [done|]. exists a.
  split_and!; [done|by eapply resolved_once|]. intros b Hb. revert Er. unfold resolve_relocation_symbol. rewrite Hb. by intros [= <- <-].
Qed.

(** C34: a relocation of a word writes what the architecture asks for.  A relative relocation writes the
    bias of the mapping plus its addend, one that names a symbol the address of the symbol plus its
    addend; a symbol has one address for all relocations, and the resolver is asked once; no other
    byte of the image changes. *)
Theorem word_relocation_exact {R} `{!SymbolResolver R} tlsdesc_resolver offset_ info_ addend plt_only n versions (s s' : Linking R) u :
  link_ok s -> as_u32 info_ <> R_AARCH64_TLSDESC -> as_u32 info_ <> R_AARCH64_IRELATIVE ->
  apply_one_relocation tlsdesc_resolver offset_ info_ addend plt_only n versions s = Some (s', Ok u) ->
  exists v, word_value s s' (as_u32 info_) (as_u32 (Z.shiftr info_ 32)) addend v /\ can_write offset_ 8 (elf s) /\
    read_loaded_u64 (elf s') offset_ = Ok v /\
    forall i, ~ in_word (elf s) offset_ i -> image (elf s') !! i = image (elf s) !! i.
Proof.
  intros Hs Ht Hi. unfold apply_one_relocation. cbv zeta. destruct (plt_only && _); [done|].
  destruct (Z.eqb_spec (as_u32 info_) R_AARCH64_TLSDESC); [done|]. destruct (Z.eqb_spec (as_u32 info_) R_AARCH64_IRELATIVE); [done|].
  unfold bind at 1, ask at 1. destruct (require_loaded_range _ _ _ _ _) as [[]|] eqn:Er; [|done]. apply can_write_range in Er.
  unfold bind. destruct (relocation_value _ _ _ _ _ s) as [[s1 [v|]]|] eqn:Ev; [|done|done].
  apply relocation_value_exact in Ev as (Hv & Ee & Hval). unfold write_back. rewrite Ee.
  assert (len (u64_le v) = 8) as Hlen by (unfold len; by rewrite length_u64_le).
  pose proof Er as Hw. rewrite <- Hlen in Hw. destruct (write_loaded_patched (elf s) offset_ (u64_le v) (link_elf s Hs) Hw) as (E & _ & Himage).
  rewrite E. intros [= <- _]. exists v. split_and!; [exact Hval|done|simpl; by apply read_written; [apply link_elf|..]|].
  intros i Hn. simpl. rewrite Himage, Hlen, decide_False; done.
Qed.

(** ** A relocation *)

Definition sample_relr_elf : LoadedElf :=
  {| mapping := 65536; mapping_size := 256; base_page := 0; image_loads := [sample_load];
     info := {| needed_offsets := []; bind_now_tag := false;
                field := fun slot => match slot with Relr => Some 128 | RelrSize => Some 16 | RelrCount => Some 2 | _ => None end |};
     needed_names := []; own_name := None;
     image := put (zeroed 256) [(128%nat, u64_le 200 ++ u64_le 3); (200%nat, u64_le 16 ++ u64_le 24)] |}.

Definition sample_link : Linking unit :=
  {| elf := sample_relr_elf; stack_guard := 40; tls_module := None; tls_descriptor_tokens := []; pending_irelative := [];
     resolved := ∅; resolver := tt; tls := initial_tls |}.

Lemma sample_link_ok : link_ok sample_link.
Proof.
  constructor; [|apply tls_initial_ok|done|split; [constructor|by intros ? []%not_elem_of_nil]|constructor].
  constructor; [by vm_compute..|]. intros l Hl. apply list_elem_of_singleton in Hl as ->. by vm_compute.
Qed.

(** The two words of the table of the sample. *)
Lemma relr_exact_witness :
  exists s', apply_relr_table 128 16 sample_link = Some (s', Ok tt) /\ read_loaded_u64 (elf s') 208 = Ok 65560.
Proof.
  eexists. split; [vm_compute; reflexivity|].
  destruct (relr_exact 128 16 sample_link _ tt sample_link_ok ltac:(vm_compute; reflexivity)) as (entries & targets & Hc & Ht & _ & H).
  vm_compute in Hc. injection Hc as <-. vm_compute in Ht. injection Ht as <-. destruct H as [H _].
  - apply NoDup_cons. split; [|apply NoDup_singleton]. by intros ?%list_elem_of_singleton.
  - destruct (H 208) as (_ & _ & v & Hv & Hv'); [by apply list_elem_of_further, list_elem_of_here|]. vm_compute in Hv. injection Hv as <-. exact Hv'.
Defined.


(** A relative relocation of the first word. *)
Lemma word_relocation_exact_witness :
  exists s', apply_one_relocation 4096 200 R_AARCH64_RELATIVE 32 false 1 ∅ sample_link = Some (s', Ok tt) /\
    read_loaded_u64 (elf s') 200 = Ok 65568.
Proof.
  eexists. split; [vm_compute; reflexivity|].
  destruct (word_relocation_exact 4096 200 R_AARCH64_RELATIVE 32 false 1 ∅ sample_link _ tt sample_link_ok
    ltac:(done) ltac:(done) ltac:(vm_compute; reflexivity)) as (v & Hv & _ & Hr & _).
  destruct Hv as [(_ & _ & ->)|[Hin _]]; [exact Hr|]. exfalso. vm_compute in Hin. by apply list_elem_of_In in Hin; simpl in Hin; intuition.
Defined.
