(* ===== verification/DependencyGraph.v ===== *)
(** * Dependency graphs of images

    A graph is the list of the successors of each image, as the namespace code stores it
    ([Vec<Vec<usize>>]).  This file holds what the traversals of the namespace share: loops that
    can panic, paths, and the lemma that a path which leaves a set has an edge that leaves it. *)
From S2P Require Import Prelude.

#[local] Open Scope nat_scope.

(** [for x in l { ... }] with a body that can panic. *)
Fixpoint try_fold {A S : Type} (f : S → A → option S) (s : S) (l : list A) : option S :=
  match l with
  | [] => Some s
  | x :: rest => match f s x with Some s' => try_fold f s' rest | None => None end
  end.

(** [l.iter().enumerate()]. *)
Definition enumerate {A : Type} (l : list A) : list (nat * A) := zip (seq 0 (length l)) l.

Definition edge (edges : list (list nat)) (x y : nat) : Prop :=
  exists children, edges !! x = Some children /\ y ∈ children.

Definition reach (edges : list (list nat)) : relation nat := rtc (edge edges).

(** Every successor is a node of the graph. *)
Definition closed (edges : list (list nat)) : Prop := Forall (Forall (fun y => y < length edges)) edges.

Definition total (edges : list (list nat)) : nat := sum_list_with length edges.

(** ** Loops *)

(** The rule of [try_fold]: an invariant of the elements already visited. *)
Lemma try_fold_rule {A S} (P : list A → S → Prop) (f : S → A → option S) l s :
  P [] s ->
  (forall done x rest s, l = done ++ x :: rest -> P done s -> exists s', f s x = Some s' /\ P (done ++ [x]) s') ->
  exists s', try_fold f s l = Some s' /\ P l s'.
Proof.
  intros H0 Hs. enough (forall done rest s, l = done ++ rest -> P done s ->
    exists s', try_fold f s rest = Some s' /\ P l s') as H by by apply (H []).
  clear s H0. intros done rest. revert done. induction rest as [|x rest IH]; intros done s -> Hp.
  - rewrite app_nil_r in *. by exists s.
  - destruct (Hs done x rest s) as (s' & E & Hp'); [done..|]. simpl. rewrite E.
    apply (IH (done ++ [x])); [by rewrite <- app_assoc|done].
Qed.

Lemma try_fold_app {A S} (f : S → A → option S) l1 l2 s :
  try_fold f s (l1 ++ l2) = try_fold f s l1 ≫= fun s' => try_fold f s' l2.
Proof. revert s. induction l1 as [|x l IH]; intros s; [done|]. simpl. destruct (f s x); [apply IH|done]. Qed.

Lemma elem_of_snoc {A} (x y : A) l : x ∈ l ++ [y] <-> x ∈ l \/ x = y.
Proof. by rewrite elem_of_app, list_elem_of_singleton. Qed.

Lemma elem_of_enumerate {A} (l : list A) i x : (i, x) ∈ enumerate l <-> l !! i = Some x.
Proof.
  unfold enumerate. rewrite list_elem_of_lookup. setoid_rewrite lookup_zip_with. split.
  - intros [j Hj]. destruct (seq 0 (length l) !! j) as [k|] eqn:E1; [|done]. simpl in Hj.
    destruct (l !! j) as [y|] eqn:E2; [|done]. simpl in Hj. simplify_eq.
    apply lookup_seq in E1 as [-> _]. done.
  - intros Hi. exists i. pose proof (lookup_lt_Some _ _ _ Hi).
    rewrite (proj2 (lookup_seq 0 (length l) i i)) by lia. simpl. by rewrite Hi.
Qed.

Lemma lookup_enumerate {A} (l : list A) i x : l !! i = Some x -> enumerate l !! i = Some (i, x).
Proof.
  intros Hi. unfold enumerate. rewrite lookup_zip_with, (proj2 (lookup_seq 0 (length l) i i)).
  - simpl. by rewrite Hi.
  - apply lookup_lt_Some in Hi. lia.
Qed.

Lemma length_enumerate {A} (l : list A) : length (enumerate l) = length l.
Proof. unfold enumerate. rewrite length_zip_with, length_seq. lia. Qed.

(** ** Paths *)

Lemma reach_edge edges x y : edge edges x y -> reach edges x y.
Proof. apply rtc_once. Qed.

Lemma reach_step edges x y z : reach edges x y -> edge edges y z -> reach edges x z.
Proof. apply rtc_r. Qed.

Lemma reach_trans edges x y z : reach edges x y -> reach edges y z -> reach edges x z.
Proof. unfold reach. intros. by etrans. Qed.

Lemma reach_refl edges x : reach edges x x.
Proof. apply rtc_refl. Qed.

Lemma edge_closed edges x y : closed edges -> edge edges x y -> x < length edges /\ y < length edges.
Proof.
  intros Hc (cs & Hx & Hy). split; [by eapply lookup_lt_Some|].
  pose proof (Forall_lookup_1 _ _ _ _ Hc Hx) as Hf. rewrite Forall_forall in Hf. by apply Hf.
Qed.

Lemma reach_closed edges x y : closed edges -> x < length edges -> reach edges x y -> y < length edges.
Proof. intros Hc Hx. induction 1 as [|? ? ? H ? IH]; [done|]. apply IH. by apply (edge_closed edges _ _ Hc) in H as [_ ?]. Qed.

(** A path that leaves a set has an edge that leaves it. *)
Lemma path_leaves {A} (R : relation A) (P : A → Prop) `{!∀ a, Decision (P a)} x y :
  rtc R x y -> P x -> ¬ P y -> exists a b, rtc R x a /\ P a /\ R a b /\ ¬ P b /\ rtc R b y.
Proof.
  induction 1 as [|x z y Hxz Hzy IH]; intros Hx Hy; [done|]. destruct (decide (P z)) as [Hz|Hz].
  - destruct (IH Hz Hy) as (a & b & ? & ? & ? & ? & ?). exists a, b. split_and!; eauto using rtc_l.
  - exists x, z. split_and!; eauto using rtc_refl.
Qed.

(** A set closed under predecessors contains what reaches it. *)
Lemma backward_closed {A} (R : relation A) (P : A → Prop) x y :
  (forall a b, R a b -> P b -> P a) -> rtc R x y -> P y -> P x.
Proof. intros HP. induction 1; eauto. Qed.

Lemma forward_closed {A} (R : relation A) (P : A → Prop) x y :
  (forall a b, R a b -> P a -> P b) -> rtc R x y -> P x -> P y.
Proof. intros HP. induction 1; eauto. Qed.

(** ** Parents

    The parents of every node, in whatever container the source collects them: [add] puts one into
    it, and an edge to a node outside the graph is [None]. *)

Section parents.
Context {C : Type} `{!ElemOf nat C} (empty : C) (add : nat → C → C).

Definition note_parent (parent : nat) (parents : list C) (child : nat) : option (list C) :=
  known ← parents !! child; Some (<[child := add parent known]> parents).

Definition all_parents (edges : list (list nat)) : option (list C) :=
  try_fold (fun parents '(parent, children) => try_fold (note_parent parent) parents children)
    (replicate (length edges) empty) (enumerate edges).

Lemma all_parents_closed edges parents : all_parents edges = Some parents -> closed edges.
Proof.
  unfold all_parents. intros H. unfold closed. rewrite Forall_forall. intros cs [i Hi]%list_elem_of_lookup.
  assert (forall n l r, length r = n -> forall r', try_fold (fun parents '(parent, children) =>
    try_fold (note_parent parent) parents children) r l = Some r' -> forall j ds, (j, ds) ∈ l -> Forall (fun y => y < n) ds) as Hall.
  { intros n l. induction l as [|[q es] l IH]; intros r Hn r' Hr j ds Hin; [set_solver|]. simpl in Hr.
    destruct (try_fold (note_parent q) r es) as [r2|] eqn:E; [|done].
    assert (Forall (fun y => y < n) es /\ length r2 = n) as [Hes Hr2].
    { clear Hr IH Hin. revert r Hn E. induction es as [|e es IHe]; intros r Hn E; simplify_eq/=; [done|].
      unfold note_parent in E at 1. destruct (r !! e) as [P|] eqn:Ee; [|done]. simpl in E.
      destruct (IHe (<[e := add q P]> r)) as [Hes Hl]; [by rewrite length_insert|done|]. split; [|done].
      constructor; [by apply lookup_lt_Some in Ee|done]. }
    apply elem_of_cons in Hin as [[= -> ->]|Hin]; [done|]. by eapply (IH r2 Hr2). }
  by eapply (Hall (length edges)); [apply length_replicate|exact H|apply elem_of_enumerate].
Qed.
Context (Hempty : forall p, p ∉ empty) (Hadd : forall p q X, p ∈ add q X <-> p = q \/ p ∈ X).

Lemma note_parents_spec parent children parents :
  Forall (fun y => y < length parents) children ->
  exists parents', try_fold (note_parent parent) parents children = Some parents' /\
    length parents' = length parents /\
    forall c P, parents' !! c = Some P -> forall p, p ∈ P <->
      (exists old, parents !! c = Some old /\ p ∈ old) \/ (p = parent /\ c ∈ children).
Proof.
  intros Hf. apply (try_fold_rule (fun don r => length r = length parents /\
    forall c P, r !! c = Some P -> forall p, p ∈ P <->
      (exists old, parents !! c = Some old /\ p ∈ old) \/ (p = parent /\ c ∈ don))).
  - split; [done|]. intros c P Hc p. rewrite Hc, elem_of_nil. naive_solver.
  - intros don x rest r -> [Hl Hr]. apply Forall_app in Hf as [_ Hf]. inv Hf.
    destruct (lookup_lt_is_Some_2 r x) as [P HP]; [lia|]. unfold note_parent. rewrite HP. eexists. split; [done|].
    rewrite length_insert. split; [done|]. intros c Q HQ p. rewrite elem_of_app, list_elem_of_singleton.
    destruct (decide (c = x)) as [->|Hne].
    + rewrite list_lookup_insert_eq in HQ by (by eapply lookup_lt_Some). simplify_eq. rewrite Hadd, (Hr x P HP). tauto.
    + rewrite list_lookup_insert_ne in HQ by done. rewrite (Hr c Q HQ). tauto.
Qed.

Lemma all_parents_spec edges :
  closed edges -> exists parents, all_parents edges = Some parents /\ length parents = length edges /\
    forall c P, parents !! c = Some P -> forall p, p ∈ P <-> edge edges p c.
Proof.
  intros Hcl. unfold all_parents.
  destruct (try_fold_rule (fun don r => length r = length edges /\
      forall c P, r !! c = Some P -> forall p, p ∈ P <-> exists cs, (p, cs) ∈ don /\ c ∈ cs)
    (fun parents '(parent, children) => try_fold (note_parent parent) parents children)
    (enumerate edges) (replicate (length edges) empty)) as (r & E & Hl & Hr).
  - rewrite length_replicate. split; [done|]. intros c P [-> _]%lookup_replicate p. split; [by intros ?%Hempty|set_solver].
  - intros don [parent cs] rest r Heq [Hl Hr].
    assert (edges !! parent = Some cs) as Hp by (apply elem_of_enumerate; rewrite Heq; set_solver).
    destruct (note_parents_spec parent cs r) as (r' & E & Hl' & Hr').
    { rewrite Hl. exact (Forall_lookup_1 _ _ _ _ Hcl Hp). }
    exists r'. split; [done|]. split; [lia|]. intros c P HP p. rewrite (Hr' c P HP p). split.
    + intros [(old & Ho & Hin)|[-> Hin]]; [|set_solver]. apply (Hr c old Ho) in Hin as (ds & ? & ?). set_solver.
    + intros (ds & [Hd|Hd%list_elem_of_singleton]%elem_of_app & Hc); [|right; by simplify_eq].
      left. destruct (lookup_lt_is_Some_2 r c) as [old Ho].
      { apply lookup_lt_Some in HP. lia. }
      exists old. split; [done|]. apply (Hr c old Ho). eauto.
  - exists r. split; [done|]. split; [done|]. intros c P HP p. rewrite (Hr c P HP p).
    unfold edge. by setoid_rewrite elem_of_enumerate.
Qed.

End parents.

Create HintDb graph.
#[export] Hint Resolve reach_edge reach_step reach_trans reach_refl : graph.
