(* ===== verification/MappingComponents.v ===== *)
(** * Strongly connected components of mapping groups ([namespace_mapping_components.rs])

    The owners of mappings are the strongly connected components of the groups' dependencies, so
    that retention has no cycle.  The source finds them with an iterative Kosaraju search: [search]
    is its first pass, [collect] the second.  A [usize::MAX] owner is [None].  An index out of
    range, a failed assertion and a loop that runs out of steps are all [None] of the whole. *)
From S2P Require Import Prelude DependencyGraph.

#[local] Open Scope nat_scope.

Record Components : Type := { members : list (list nat); dependencies : list (list nat) }.

(** ** The searches *)

(** [reverse[child].push(parent)]. *)
Definition push_parent (parent : nat) (parents : list nat) : list nat := parents ++ [parent].

Definition reverse_edges (edges : list (list nat)) : option (list (list nat)) := all_parents [] push_parent edges.

(** The first pass from one root; the top of the stack is the head of the list. *)
Fixpoint search (edges : list (list nat)) (fuel : nat) (seen : list bool) (finish : list nat) (stack : list (nat * nat))
  : option (list bool * list nat) :=
  match stack, fuel with
  | [], _ => Some (seen, finish)
  | _ :: _, O => None
  | (node, cursor) :: below, S fuel =>
      children ← edges !! node;
      if cursor =? length children then search edges fuel seen (finish ++ [node]) below
      else
        child ← children !! cursor;
        seen_child ← seen !! child;
        if (seen_child : bool) then search edges fuel seen finish ((node, S cursor) :: below)
        else search edges fuel (<[child := true]> seen) finish ((child, 0) :: (node, S cursor) :: below)
  end.

Definition search_fuel (edges : list (list nat)) : nat := length edges + total edges.

Definition search_root (edges : list (list nat)) (s : list bool * list nat) (root : nat) : option (list bool * list nat) :=
  let '(seen, finish) := s in
  seen_root ← seen !! root;
  if (seen_root : bool) then Some s
  else search edges (search_fuel edges) (<[root := true]> seen) finish [(root, 0)].

Definition finish_order (edges : list (list nat)) : option (list nat) :=
  snd <$> try_fold (search_root edges) (replicate (length edges) false, []) (seq 0 (length edges)).

(** [owners[parent] == usize::MAX] claims the parent for the group and pushes it. *)
Definition claim (owner : nat) (s : list (option nat) * list nat) (parent : nat) : option (list (option nat) * list nat) :=
  let '(owners, stack) := s in
  match owners !! parent with
  | None => None
  | Some None => Some (<[parent := Some owner]> owners, parent :: stack)
  | Some (Some _) => Some s
  end.

Fixpoint collect (reverse : list (list nat)) (owner fuel : nat) (owners : list (option nat)) (group stack : list nat)
  : option (list (option nat) * list nat) :=
  match stack, fuel with
  | [], _ => Some (owners, group)
  | _ :: _, O => None
  | node :: below, S fuel =>
      parents ← reverse !! node;
      '(owners, stack) ← try_fold (claim owner) (owners, below) parents;
      collect reverse owner fuel owners (group ++ [node]) stack
  end.

Definition collect_root (reverse : list (list nat)) (s : list (option nat) * list (list nat)) (root : nat)
  : option (list (option nat) * list (list nat)) :=
  let '(owners, members) := s in
  match owners !! root with
  | None => None
  | Some (Some _) => Some s
  | Some None =>
      let owner := length members in
      '(owners, group) ← collect reverse owner (length owners) (<[root := Some owner]> owners) [] [root];
      Some (owners, members ++ [group])
  end.

Definition depend (owners : list (option nat)) (parent : nat) (dependencies : list (list nat)) (child : nat) : option (list (list nat)) :=
  a ← mjoin (owners !! parent); b ← mjoin (owners !! child);
  if a =? b then Some dependencies
  else
    known ← dependencies !! a;
    if bool_decide (b ∈ known) then Some dependencies
    else if a <? b then Some (<[a := known ++ [b]]> dependencies) else None.

Definition plan (edges : list (list nat)) : option Components :=
  reverse ← reverse_edges edges;
  finish ← finish_order edges;
  '(owners, members) ← try_fold (collect_root reverse) (replicate (length edges) None, []) (rev finish);
  dependencies ← try_fold (fun dependencies '(parent, children) => try_fold (depend owners parent) dependencies children)
    (replicate (length members) []) (enumerate edges);
  Some {| members := members; dependencies := dependencies |}.

(** ** Reversed edges *)

Lemma reverse_edges_spec edges :
  closed edges -> exists reverse, reverse_edges edges = Some reverse /\ length reverse = length edges /\
    forall c ps, reverse !! c = Some ps -> forall p, p ∈ ps <-> edge edges p c.
Proof.
  apply all_parents_spec; [by intros p ?%not_elem_of_nil|]. intros p q X. unfold push_parent. set_solver.
Qed.

(** ** The first pass *)

(** In an order of finished nodes, with [gray] still on the stack: what a finished node reaches is
    finished no later, unless a later node is on a cycle with it. *)
Definition finishes (edges : list (list nat)) (finish gray : list nat) : Prop :=
  forall before x after y, finish = before ++ x :: after -> reach edges x y ->
    y ∈ before ++ [x] \/ exists z, z ∈ after ++ gray /\ reach edges z x /\ reach edges x z.

Record searching (edges : list (list nat)) (seen : list bool) (finish : list nat) (stack : list (nat * nat)) : Prop := {
  s_length : length seen = length edges;
  s_seen : forall v, seen !! v = Some true <-> v ∈ finish ++ stack.*1;
  s_nodup : NoDup (finish ++ stack.*1);
  s_edges : forall x y, x ∈ finish -> edge edges x y -> seen !! y = Some true;
  s_cursor : forall v c, (v, c) ∈ stack -> exists cs, edges !! v = Some cs /\ c <= length cs /\
    forall y, y ∈ take c cs -> seen !! y = Some true;
  s_path : StronglySorted (fun u v => reach edges v u) stack.*1;
  s_order : finishes edges finish stack.*1 }.

(** A node finishes when its edges lead to nodes already seen. *)
Lemma finishes_step edges finish x gray :
  (forall a b, a ∈ finish ++ [x] -> edge edges a b -> b ∈ (finish ++ [x]) ++ gray) ->
  Forall (fun z => reach edges z x) gray ->
  finishes edges finish (x :: gray) -> finishes edges (finish ++ [x]) gray.
Proof.
  intros He Hg Hf before a after y Heq Hr. destruct (decide (after = [])) as [->|Hne].
  - apply app_inj_tail in Heq as [-> ->]. destruct (decide (y ∈ before ++ [a])) as [|Hy]; [by left|].
    destruct (path_leaves _ (fun v => v ∈ before ++ [a]) a y Hr) as (u & z & Hu & Hin & Huz & Hz & _); [set_solver|done|].
    right. exists z. assert (z ∈ gray) as Hzg by (specialize (He u z Hin Huz); set_solver).
    split; [done|]. split; [|eauto with graph]. rewrite Forall_forall in Hg. by apply Hg.
  - destruct (exists_last Hne) as (after' & w & ->).
    rewrite (app_assoc before (a :: after') [w] : before ++ a :: after' ++ [w] = _) in Heq.
    apply app_inj_tail in Heq as [-> ->].
    destruct (Hf before a after' y eq_refl Hr) as [|(z & Hz & ?)]; [by left|]. right. exists z. set_solver.
Qed.

Lemma search_finish edges seen finish node cs below :
  searching edges seen finish ((node, length cs) :: below) -> edges !! node = Some cs ->
  searching edges seen (finish ++ [node]) below.
Proof.
  intros [Hl Hs Hn He Hc Hp Ho] Hcs. simpl in *.
  assert (forall x y, x ∈ finish ++ [node] -> edge edges x y -> seen !! y = Some true) as He'.
  { intros x y [Hx| ->%list_elem_of_singleton]%elem_of_app Hxy; [by eapply He|].
    destruct (Hc node (length cs)) as (ds & E & _ & Hy); [set_solver|]. simplify_eq.
    apply Hy. rewrite take_ge by done. by destruct Hxy as (? & ? & ?); simplify_eq. }
  inv Hp. constructor; [done|intros v; rewrite Hs; set_solver| |done|set_solver|done|].
  - rewrite <- app_assoc. done.
  - apply finishes_step; [|done|done]. intros a b Ha Hab. apply (He' a b Ha) in Hab.
    apply Hs in Hab. set_solver.
Qed.

Lemma search_skip edges seen finish node cs cursor child above below :
  searching edges seen finish (above ++ (node, cursor) :: below) -> edges !! node = Some cs ->
  cs !! cursor = Some child -> seen !! child = Some true ->
  searching edges seen finish (above ++ (node, S cursor) :: below).
Proof.
  intros [Hl Hs Hn He Hc Hp Ho] Hcs Hch Hseen.
  rewrite fmap_app in *. constructor; rewrite ?fmap_app; try done.
  intros v c Hin. apply elem_of_app in Hin as [Hin|[[= -> ->]|Hin]%elem_of_cons]; [apply Hc; set_solver| |apply Hc; set_solver].
  destruct (Hc node cursor) as (ds & E & _ & Hy); [set_solver|]. simplify_eq. exists cs. split; [done|].
  apply lookup_lt_Some in Hch as Hlt. split; [lia|]. intros y. rewrite (take_S_r _ _ _ Hch).
  intros [?| ->%list_elem_of_singleton]%elem_of_app; [by apply Hy|done].
Qed.

Lemma seen_insert (seen : list bool) v w :
  v < length seen -> <[v := true]> seen !! w = Some true <-> seen !! w = Some true \/ w = v.
Proof.
  intros Hv. destruct (decide (w = v)) as [->|Hne].
  - rewrite list_lookup_insert_eq by done. tauto.
  - rewrite list_lookup_insert_ne by done. naive_solver.
Qed.

(** A new node is put on the stack above one that has an edge to it, or on an empty stack. *)
Lemma search_push edges seen finish child cs stack :
  searching edges seen finish stack -> edges !! child = Some cs -> seen !! child = Some false ->
  Forall (fun v => reach edges v child) stack.*1 ->
  searching edges (<[child := true]> seen) finish ((child, 0) :: stack).
Proof.
  intros [Hl Hs Hn He Hc Hp Ho] Hcs Hseen Hr.
  assert (child < length seen) as Hlt by by eapply lookup_lt_Some.
  assert (child ∉ finish ++ stack.*1) as Hnew by (rewrite <- Hs; congruence).
  assert (forall w, seen !! w = Some true -> <[child := true]> seen !! w = Some true) as Hmono
    by (intros w Hw; apply seen_insert; auto).
  constructor; simpl.
  - by rewrite length_insert.
  - intros v. rewrite seen_insert, Hs by done. set_solver.
  - rewrite <- Permutation_middle. by constructor.
  - eauto.
  - intros v c [[= -> ->]|Hin]%elem_of_cons.
    + exists cs. split; [done|]. split; [lia|]. simpl. set_solver.
    + destruct (Hc v c Hin) as (ds & ? & ? & ?). exists ds. eauto.
  - by constructor.
  - intros before x after y E Hxy. destruct (Ho before x after y E Hxy) as [|(z & ? & ?)]; [by left|].
    right. exists z. set_solver.
Qed.

(** What is left to do: one step for each unseen node and for each unfinished edge. *)
Definition unseen (edges : list (list nat)) (seen : list bool) : nat :=
  sum_list (zip_with (fun (b : bool) cs => if b then 0 else S (length cs)) seen edges).

Definition pending (edges : list (list nat)) (stack : list (nat * nat)) : nat :=
  sum_list_with (fun '(v, c) => S (length (default [] (edges !! v)) - c)) stack.

Lemma pending_cons edges v c cs stack :
  edges !! v = Some cs -> pending edges ((v, c) :: stack) = S (length cs - c) + pending edges stack.
Proof. intros H. unfold pending. simpl. by rewrite H. Qed.

Lemma unseen_insert edges seen v cs :
  seen !! v = Some false -> edges !! v = Some cs ->
  unseen edges (<[v := true]> seen) + S (length cs) = unseen edges seen.
Proof.
  unfold unseen. revert v edges. induction seen as [|b seen IH]; intros [|v] [|ds edges] Hb Hcs; simplify_eq/=; [lia|].
  pose proof (IH v edges Hb Hcs). lia.
Qed.

Lemma unseen_bound edges seen : unseen edges seen <= search_fuel edges.
Proof.
  unfold unseen, search_fuel, total. revert edges. induction seen as [|b seen IH]; intros [|cs edges]; simpl; try lia.
  specialize (IH edges). destruct b; lia.
Qed.

Lemma search_ok edges fuel seen finish stack :
  closed edges -> searching edges seen finish stack -> unseen edges seen + pending edges stack <= fuel ->
  exists seen' finish', search edges fuel seen finish stack = Some (seen', finish') /\
    searching edges seen' finish' [] /\ forall v, seen !! v = Some true -> seen' !! v = Some true.
Proof.
  intros Hcl. revert seen finish stack.
  induction fuel as [|fuel IH]; intros seen finish [|[node cursor] below] Hi Hm; try by eexists _, _.
  - destruct (s_cursor _ _ _ _ Hi node cursor) as (cs & Hcs & _); [set_solver|].
    rewrite (pending_cons _ _ _ _ _ Hcs) in Hm. lia.
  - destruct (s_cursor _ _ _ _ Hi node cursor) as (cs & Hcs & Hlen & _); [set_solver|]. simpl.
    rewrite (pending_cons _ _ _ _ _ Hcs) in Hm. rewrite Hcs. simpl.
    destruct (Nat.eqb_spec cursor (length cs)) as [->|Hne].
    { apply IH; [by eapply search_finish|lia]. }
    destruct (lookup_lt_is_Some_2 cs cursor) as [child Hch]; [lia|]. rewrite Hch. simpl.
    assert (edge edges node child) as He by (exists cs; split; [done|by eapply list_elem_of_lookup_2]).
    destruct (edge_closed edges node child Hcl He) as [_ Hlt].
    destruct (lookup_lt_is_Some_2 seen child) as [[|] Hsn]; [by rewrite (s_length _ _ _ _ Hi)|..];
      rewrite Hsn; simpl.
    + apply IH; [by apply (search_skip edges seen finish node cs cursor child [] below)|]. rewrite (pending_cons _ _ _ _ _ Hcs). lia.
    + destruct (lookup_lt_is_Some_2 edges child) as [ds Hds]; [done|].
      pose proof (unseen_insert edges seen child ds Hsn Hds).
      destruct (IH (<[child := true]> seen) finish ((child, 0) :: (node, S cursor) :: below)) as (s' & f' & ? & ? & Hmono).
      * apply (search_skip edges _ finish node cs cursor child [(child, 0)] below); [|done..|].
        -- eapply search_push; [done..|]. pose proof (s_path _ _ _ _ Hi) as Hp. simpl in *. inv Hp.
           constructor; [by apply reach_edge|]. eapply Forall_impl; [eassumption|]. simpl. eauto with graph.
        -- apply list_lookup_insert_eq. by eapply lookup_lt_Some.
      * rewrite (pending_cons _ _ _ _ _ Hds), (pending_cons _ _ _ _ _ Hcs). lia.
      * exists s', f'. split_and!; try done. intros v Hv. apply Hmono, seen_insert; [by eapply lookup_lt_Some|by left].
Qed.

Lemma search_root_ok edges seen finish root :
  closed edges -> searching edges seen finish [] -> root < length edges ->
  exists seen' finish', search_root edges (seen, finish) root = Some (seen', finish') /\
    searching edges seen' finish' [] /\ seen' !! root = Some true /\
    forall v, seen !! v = Some true -> seen' !! v = Some true.
Proof.
  intros Hcl Hi Hr. destruct (lookup_lt_is_Some_2 edges root Hr) as [cs Hcs]. simpl.
  destruct (lookup_lt_is_Some_2 seen root) as [[|] Hs]; [by rewrite (s_length _ _ _ _ Hi)|..]; rewrite Hs; simpl.
  { by eexists _, _. }
  assert (root < length seen) as Hlt by by eapply lookup_lt_Some.
  destruct (search_ok edges (search_fuel edges) (<[root := true]> seen) finish [(root, 0)]) as (s' & f' & E & Hi' & Hm);
    [done|by eapply search_push| |].
  - rewrite (pending_cons _ _ _ _ _ Hcs). unfold pending. simpl.
    pose proof (unseen_insert edges seen root cs Hs Hcs). pose proof (unseen_bound edges seen). lia.
  - exists s', f'. split_and!; [done..| |]; intros; apply Hm, seen_insert; auto.
Qed.

Lemma finish_order_spec edges :
  closed edges -> exists finish, finish_order edges = Some finish /\
    NoDup finish /\ (forall v, v ∈ finish <-> v < length edges) /\ finishes edges finish [].
Proof.
  intros Hcl. unfold finish_order.
  destruct (try_fold_rule (fun don '(seen, finish) => searching edges seen finish [] /\ Forall (fun v => seen !! v = Some true) don)
    (search_root edges) (seq 0 (length edges)) (replicate (length edges) false, [])) as ([seen finish] & E & Hi & Hf).
  - split; [|done]. constructor; simpl; rewrite ?length_replicate; try done; try (by intros; set_solver); [|constructor|constructor|].
    + intros v. rewrite lookup_replicate. set_solver.
    + intros [] ? ? ? ?; simplify_eq.
  - intros don root rest [seen finish] Heq [Hi Hf].
    assert (root ∈ seq 0 (length edges)) as Hr%elem_of_seq by (rewrite Heq; set_solver).
    destruct (search_root_ok edges seen finish root) as (s' & f' & E & Hi' & Hs & Hm); [done..|lia|].
    exists (s', f'). split_and!; try done. apply Forall_app. split; [|by constructor]. eapply Forall_impl; eauto.
  - rewrite E. exists finish. destruct Hi as [Hl Hs Hn _ _ _ Ho]. simpl in *. rewrite app_nil_r in *.
    split_and!; try done. intros v. rewrite <- Hs. split.
    + intros Hv%lookup_lt_Some. lia.
    + intros Hv. rewrite Forall_forall in Hf. apply Hf, elem_of_seq. lia.
Qed.

(** ** The second pass *)

Definition cyclic (edges : list (list nat)) (x y : nat) : Prop := reach edges x y /\ reach edges y x.

Record collecting (edges : list (list nat)) (root owner : nat) (owners0 owners : list (option nat)) (group stack : list nat) : Prop := {
  c_length : length owners = length owners0;
  c_owned : forall v, v ∈ group ++ stack -> owners !! v = Some (Some owner);
  c_other : forall v, v ∉ group ++ stack -> owners !! v = owners0 !! v;
  c_fresh : forall v, v ∈ group ++ stack -> owners0 !! v = Some None;
  c_nodup : NoDup (group ++ stack);
  c_root : root ∈ group ++ stack;
  c_reach : forall v, v ∈ group ++ stack -> reach edges v root;
  c_parents : forall p c, c ∈ group -> edge edges p c -> owners !! p <> Some None }.

Definition unowned (owners : list (option nat)) : nat :=
  sum_list_with (fun o : option nat => match o with None => 1 | Some _ => 0 end) owners.

Lemma unowned_insert owners p a :
  owners !! p = Some None -> S (unowned (<[p := Some a]> owners)) = unowned owners.
Proof.
  unfold unowned. revert p. induction owners as [|o owners IH]; intros [|p] H; simplify_eq/=; [done|].
  specialize (IH p H). lia.
Qed.

Lemma claims_ok edges root owner owners0 node parents owners group below :
  (forall p, p ∈ parents -> edge edges p node /\ p < length owners0) -> reach edges node root ->
  collecting edges root owner owners0 owners group (node :: below) ->
  exists owners' stack', try_fold (claim owner) (owners, below) parents = Some (owners', stack') /\
    collecting edges root owner owners0 owners' group (node :: stack') /\
    unowned owners' + length stack' = unowned owners + length below /\
    (forall p, p ∈ parents -> owners' !! p <> Some None).
Proof.
  intros Hp Hr Hc. destruct (try_fold_rule (fun don '(owners', stack') =>
      collecting edges root owner owners0 owners' group (node :: stack') /\
      unowned owners' + length stack' = unowned owners + length below /\
      (forall p, p ∈ don -> owners' !! p <> Some None)) (claim owner) parents (owners, below)) as ([o st] & E & Ho); [set_solver| |by exists o, st].
  intros don p rest [o st] -> (Hi & Hm & Hd). destruct (Hp p) as [He Hlt]; [set_solver|]. simpl.
  destruct (lookup_lt_is_Some_2 o p) as [[a|] Hl]; [by rewrite (c_length _ _ _ _ _ _ _ Hi)|..]; rewrite Hl.
  { exists (o, st). split_and!; try done. intros q [?| ->%list_elem_of_singleton]%elem_of_app; [by apply Hd|congruence]. }
  eexists (_, _). split; [done|]. assert (p < length o) as Hlo by by eapply lookup_lt_Some.
  destruct Hi as [Hlen Hown Hoth Hfr Hnd Hrt Hre Hpar].
  assert (p ∉ group ++ node :: st) as Hnew by (intros H%Hown; congruence).
  split_and!.
  - constructor; rewrite ?length_insert; [done|..].
    + intros v Hv. destruct (decide (v = p)) as [->|]; [by apply list_lookup_insert_eq|].
      rewrite list_lookup_insert_ne by done. apply Hown. set_solver.
    + intros v Hv. rewrite list_lookup_insert_ne by set_solver. apply Hoth. set_solver.
    + intros v Hv. destruct (decide (v = p)) as [->|]; [by rewrite <- Hoth|apply Hfr; set_solver].
    + rewrite (Permutation_swap p node st : node :: p :: st ≡ₚ _), <- Permutation_middle. by constructor.
    + set_solver.
    + intros v Hv. destruct (decide (v = p)) as [->|]; [eauto with graph|apply Hre; set_solver].
    + intros q c Hcg Hq. destruct (decide (q = p)) as [->|]; [by rewrite list_lookup_insert_eq|].
      rewrite list_lookup_insert_ne by done. eauto.
  - pose proof (unowned_insert o p owner Hl). simpl. lia.
  - intros q Hq. destruct (decide (q = p)) as [->|]; [by rewrite list_lookup_insert_eq|].
    rewrite list_lookup_insert_ne by done. set_solver.
Qed.

Lemma collect_ok edges reverse root owner owners0 fuel owners group stack :
  length reverse = length owners0 -> length owners0 = length edges ->
  (forall c ps, reverse !! c = Some ps -> forall p, p ∈ ps <-> edge edges p c) ->
  collecting edges root owner owners0 owners group stack -> unowned owners + length stack <= fuel ->
  exists owners' group', collect reverse owner fuel owners group stack = Some (owners', group') /\
    collecting edges root owner owners0 owners' group' [].
Proof.
  intros Hlr Hle Hrev. revert owners group stack.
  induction fuel as [|fuel IH]; intros owners group [|node below] Hi Hm; try by eexists _, _.
  { simpl in Hm. lia. }
  simpl. assert (node ∈ group ++ node :: below) as Hin by set_solver.
  pose proof (c_fresh _ _ _ _ _ _ _ Hi node Hin) as Hf. apply lookup_lt_Some in Hf.
  destruct (lookup_lt_is_Some_2 reverse node) as [ps Hps]; [lia|]. rewrite Hps. simpl.
  destruct (claims_ok edges root owner owners0 node ps owners group below) as (o & st & E & Hi' & Hm' & Hd).
  - intros p Hp. apply (Hrev node ps Hps) in Hp. split; [done|].
    destruct Hp as (cs & ?%lookup_lt_Some & _). lia.
  - by apply (c_reach _ _ _ _ _ _ _ Hi).
  - done.
  - rewrite E. simpl. apply IH; [|simpl in Hm; lia].
    destruct Hi' as [Hlen Hown Hoth Hfr Hnd Hrt Hre Hpar].
    constructor; rewrite <- ?app_assoc; try done. intros p c [Hc| ->%list_elem_of_singleton]%elem_of_app He; [by eauto|].
    apply Hd, (Hrev node ps Hps), He.
Qed.

(** The components found so far, and the owners they give. *)
Record owning (edges : list (list nat)) (owners : list (option nat)) (members : list (list nat)) : Prop := {
  o_length : length owners = length edges;
  o_members : forall v a, owners !! v = Some (Some a) <-> exists g, members !! a = Some g /\ v ∈ g;
  o_nodup : NoDup (mjoin members);
  o_cyclic : forall a g x y, members !! a = Some g -> x ∈ g -> (y ∈ g <-> cyclic edges x y);
  o_parents : forall p c a, edge edges p c -> owners !! c = Some (Some a) -> exists b, owners !! p = Some (Some b) /\ b <= a }.

Lemma cyclic_owner edges owners members x y a :
  owning edges owners members -> cyclic edges x y -> owners !! x = Some (Some a) -> owners !! y = Some (Some a).
Proof.
  intros [_ Hm _ Hc _] Hxy (g & Hg & Hx)%Hm. apply Hm. exists g. split; [done|]. by apply (Hc a g x y Hg Hx).
Qed.

(** A root whose later nodes all have owners is on a cycle with every ownerless node that reaches it. *)
Lemma reaches_root edges owners members before root after v :
  closed edges -> owning edges owners members -> NoDup (before ++ root :: after) ->
  (forall w, w ∈ before ++ root :: after <-> w < length edges) -> finishes edges (before ++ root :: after) [] ->
  Forall (fun w => exists a, owners !! w = Some (Some a)) after ->
  owners !! v = Some None -> reach edges v root -> cyclic edges v root.
Proof.
  intros Hcl Ho Hnd Hall Hfin Hafter. rewrite Forall_forall in Hafter.
  assert (forall k b1 v b2, length b2 <= k -> before = b1 ++ v :: b2 -> owners !! v = Some None ->
    reach edges v root -> cyclic edges v root) as H.
  { induction k as [k IH] using lt_wf_ind. intros b1 w b2 Hk -> Hw Hr.
    rewrite <- app_assoc in *. simpl in *.
    destruct (Hfin b1 w (b2 ++ root :: after) root eq_refl Hr) as [Hroot|(z & Hz & Hzw & Hwz)].
    { exfalso. rewrite (app_assoc b1 [w] (b2 ++ root :: after) : b1 ++ w :: b2 ++ root :: after = _) in Hnd.
      apply NoDup_app in Hnd as (_ & Hnd & _). apply (Hnd root Hroot). set_solver. }
    rewrite app_nil_r in Hz.
    assert (forall a, owners !! z <> Some (Some a)) as Hzo.
    { intros a Ha. pose proof (cyclic_owner edges owners members z w a Ho (conj Hzw Hwz) Ha). congruence. }
    assert (cyclic edges z root) as [Hzr Hrz]; [|split; eauto with graph].
    apply elem_of_app in Hz as [Hz|[->|Hz]%elem_of_cons]; [|split; apply reach_refl|by destruct (Hafter z Hz) as [a ?%Hzo]].
    apply list_elem_of_split in Hz as (c1 & c2 & ->). rewrite length_app in Hk. simpl in Hk.
    apply (IH (length c2) ltac:(lia) (b1 ++ w :: c1) z c2); [done|by rewrite <- app_assoc| |eauto with graph].
    assert (z < length edges) as Hlt by (apply Hall; set_solver). rewrite <- (o_length _ _ _ Ho) in Hlt.
    destruct (lookup_lt_is_Some_2 owners z Hlt) as [[a|] Ha]; [by destruct (Hzo a)|done]. }
  intros Hv Hr. assert (v ∈ before ++ root :: after) as Hin.
  { apply Hall. rewrite <- (o_length _ _ _ Ho). by eapply lookup_lt_Some. }
  apply elem_of_app in Hin as [Hin|[->|Hin]%elem_of_cons]; [|split; apply reach_refl|].
  - apply list_elem_of_split in Hin as (b1 & b2 & ->). by eapply (H (length b2)).
  - destruct (Hafter v Hin). congruence.
Qed.

Lemma group_exact edges root owner owners0 owners group members :
  owning edges owners0 members -> owners0 !! root = Some None ->
  (forall v, owners0 !! v = Some None -> reach edges v root -> cyclic edges v root) ->
  closed edges -> collecting edges root owner owners0 owners group [] -> forall v, v ∈ group <-> cyclic edges v root.
Proof.
  intros Ho Hroot Hdom Hcl [Hlen Hown Hoth Hfr Hnd Hrt Hre Hpar] v. rewrite app_nil_r in *. split; [by eauto|].
  intros [Hvr Hrv]. destruct (decide (v ∈ group)) as [|Hv]; [done|].
  destruct (path_leaves (edge edges) (fun w => w ∉ group) v root Hvr Hv) as (a & b & Hva & Ha & Hab & Hb & Hbr); [tauto|].
  exfalso. apply (Hpar a b); [by destruct (decide (b ∈ group))|done|]. rewrite Hoth by done.
  assert (cyclic edges a root) as Hcyc by (split; [eapply rtc_l|eapply reach_trans]; done).
  destruct (edge_closed edges a b Hcl Hab) as [Hlt _]. rewrite <- (o_length _ _ _ Ho) in Hlt.
  destruct (lookup_lt_is_Some_2 owners0 a Hlt) as [[c|] Hc]; [|done].
  pose proof (cyclic_owner edges owners0 members a root c Ho Hcyc Hc). congruence.
Qed.

Lemma owning_extend edges root owners0 owners members group :
  closed edges -> owning edges owners0 members ->
  collecting edges root (length members) owners0 owners group [] -> (forall v, v ∈ group <-> cyclic edges v root) ->
  owning edges owners (members ++ [group]).
Proof.
  intros Hcl [Hl Hm Hn Hc Hp] [Hlen Hown Hoth Hfr Hnd Hrt Hre Hpar] Hg. rewrite app_nil_r in *.
  assert (forall v a, owners0 !! v = Some (Some a) -> owners !! v = Some (Some a) /\ v ∉ group) as Hold.
  { intros v a Hv. assert (v ∉ group) by (intros H%Hfr; congruence). by rewrite Hoth. }
  assert (forall v a, owners !! v = Some (Some a) -> v ∉ group -> owners0 !! v = Some (Some a)) as Hback.
  { intros v a Hv Hnot. by rewrite <- Hoth. }
  constructor; [lia|..].
  - intros v a. split.
    + intros Hv. destruct (decide (v ∈ group)) as [Hin|Hin].
      * rewrite Hown in Hv by done. simplify_eq. exists group. split; [by apply list_lookup_middle|done].
      * apply (Hback v a Hv), Hm in Hin as (g & ? & ?). exists g. split; [by apply lookup_app_l_Some|done].
    + intros (g & [Hga|[Hle [Hge <-]%list_lookup_singleton_Some]]%lookup_app_Some & Hv).
      * by apply Hold, Hm; eauto.
      * rewrite Hown by done. do 2 f_equal. lia.
  - rewrite join_app. simpl. rewrite app_nil_r. apply NoDup_app. split; [done|]. split; [|done].
    intros v (g & Hv & [a Hga]%list_elem_of_lookup)%list_elem_of_join Hin. apply Hfr in Hin.
    assert (owners0 !! v = Some (Some a)) by (apply Hm; eauto). congruence.
  - intros a g x y [Hga|[Hle [Hge <-]%list_lookup_singleton_Some]]%lookup_app_Some Hx; [by eapply Hc|].
    apply Hg in Hx as [Hx1 Hx2]. rewrite Hg. unfold cyclic. split; intros [? ?]; split; eauto with graph.
  - intros p c a Hpc Ha. destruct (decide (c ∈ group)) as [Hin|Hin].
    + rewrite Hown in Ha by done. simplify_eq. destruct (edge_closed edges p c Hcl Hpc) as [Hlt _].
      destruct (lookup_lt_is_Some_2 owners p) as [[b|] Hb]; [lia| |by destruct (Hpar p c)].
      exists b. split; [done|]. destruct (decide (p ∈ group)) as [Hpg|Hpg].
      * rewrite Hown in Hb by done. by simplify_eq.
      * apply (Hback p b Hb), Hm in Hpg as (g & ?%lookup_lt_Some & _). lia.
    + destruct (Hp p c a Hpc) as (b & Hb & ?); [by apply Hback|]. exists b. split; [by apply Hold|done].
Qed.

Lemma collecting_start edges root owner owners :
  owners !! root = Some None -> collecting edges root owner owners (<[root := Some owner]> owners) [] [root].
Proof.
  intros Hr. assert (root < length owners) by by eapply lookup_lt_Some.
  constructor; simpl.
  - by rewrite length_insert.
  - intros v ->%list_elem_of_singleton. by apply list_lookup_insert_eq.
  - intros v Hv. apply list_lookup_insert_ne. set_solver.
  - by intros v ->%list_elem_of_singleton.
  - apply NoDup_singleton.
  - set_solver.
  - intros v ->%list_elem_of_singleton. apply reach_refl.
  - by intros p c ?%not_elem_of_nil.
Qed.

Lemma unowned_bound owners : unowned owners <= length owners.
Proof. unfold unowned. induction owners as [|[?|] owners IH]; simpl; lia. Qed.

Lemma collect_root_ok edges reverse owners members before root after :
  closed edges -> length reverse = length edges ->
  (forall c ps, reverse !! c = Some ps -> forall p, p ∈ ps <-> edge edges p c) ->
  NoDup (before ++ root :: after) -> (forall w, w ∈ before ++ root :: after <-> w < length edges) ->
  finishes edges (before ++ root :: after) [] ->
  owning edges owners members -> Forall (fun w => exists a, owners !! w = Some (Some a)) after ->
  exists owners' members', collect_root reverse (owners, members) root = Some (owners', members') /\
    owning edges owners' members' /\ Forall (fun w => exists a, owners' !! w = Some (Some a)) (root :: after).
Proof.
  intros Hcl Hlr Hrev Hnd Hall Hfin Ho Hafter. simpl.
  assert (root < length owners) as Hlt by (rewrite (o_length _ _ _ Ho); apply Hall; set_solver).
  destruct (lookup_lt_is_Some_2 owners root Hlt) as [[a|] Hr]; rewrite Hr.
  { eexists _, _. split; [done|]. split; [done|]. constructor; eauto. }
  pose proof (collecting_start edges root (length members) owners Hr) as Hi.
  destruct (collect_ok edges reverse root (length members) owners (length owners)
    (<[root := Some (length members)]> owners) [] [root]) as (owners' & group & E & Hi');
    [by rewrite (o_length _ _ _ Ho)|by rewrite (o_length _ _ _ Ho)|done|exact Hi| |].
  { pose proof (unowned_insert owners root (length members) Hr). pose proof (unowned_bound owners). simpl. lia. }
  rewrite E. simpl. eexists _, _. split; [done|].
  assert (forall v, v ∈ group <-> cyclic edges v root) as Hg.
  { eapply group_exact; try done. intros v Hv Hreach. by eapply reaches_root. }
  split; [by eapply owning_extend|]. constructor.
  - exists (length members). apply (c_owned _ _ _ _ _ _ _ Hi'). apply (c_root _ _ _ _ _ _ _ Hi').
  - eapply Forall_impl; [exact Hafter|]. intros w [a Ha]. exists a. rewrite (c_other _ _ _ _ _ _ _ Hi'); [done|].
    intros Hw%(c_fresh _ _ _ _ _ _ _ Hi'). congruence.
Qed.

Lemma owning_empty edges : owning edges (replicate (length edges) None) [].
Proof.
  constructor; simpl.
  - apply length_replicate.
  - intros v a. split; [by intros [? _]%lookup_replicate|by intros (g & ? & _)].
  - constructor.
  - done.
  - by intros p c a _ [? _]%lookup_replicate.
Qed.

Lemma owners_found edges :
  closed edges -> exists reverse finish owners members,
    reverse_edges edges = Some reverse /\ finish_order edges = Some finish /\
    try_fold (collect_root reverse) (replicate (length edges) None, []) (rev finish) = Some (owners, members) /\
    owning edges owners members /\ forall v, v < length edges -> exists a, owners !! v = Some (Some a).
Proof.
  intros Hcl. destruct (reverse_edges_spec edges Hcl) as (reverse & Er & Hlr & Hrev).
  destruct (finish_order_spec edges Hcl) as (finish & Ef & Hnd & Hall & Hfin).
  destruct (try_fold_rule (fun don '(owners, members) => owning edges owners members /\
      Forall (fun w => exists a, owners !! w = Some (Some a)) (rev don)) (collect_root reverse) (rev finish)
      (replicate (length edges) None, [])) as ([owners members] & E & Ho & Hf).
  - split; [apply owning_empty|constructor].
  - intros don root rest [owners members] Heq [Ho Hf].
    assert (finish = rev rest ++ root :: rev don) as Hs.
    { rewrite <- (rev_involutive finish), Heq, rev_app_distr. simpl. by rewrite <- app_assoc. }
    rewrite Hs in *. destruct (collect_root_ok edges reverse owners members (rev rest) root (rev don)) as (o & m & E & Ho' & Hf'); try done.
    exists (o, m). split_and!; try done. by rewrite rev_app_distr.
  - exists reverse, finish, owners, members. split_and!; try done. intros v Hv%Hall.
    rewrite rev_involutive, Forall_forall in Hf. by apply Hf.
Qed.

(** ** Dependencies between components *)

Definition depends (count : nat) (dependencies : list (list nat)) (R : nat → nat → Prop) : Prop :=
  length dependencies = count /\
  forall a ds, dependencies !! a = Some ds -> NoDup ds /\ forall b, b ∈ ds <-> R a b.

Lemma depends_ext count d (R R' : nat → nat → Prop) :
  (forall a b, R a b <-> R' a b) -> depends count d R -> depends count d R'.
Proof.
  intros HR [Hl Hd]. split; [done|]. intros a ds Ha. destruct (Hd a ds Ha) as [? Hb]. split; [done|].
  intros b. by rewrite Hb.
Qed.

Lemma depend_step owners count parent c a b d (R : nat → nat → Prop) :
  owners !! parent = Some (Some a) -> owners !! c = Some (Some b) -> a <= b -> a < count -> depends count d R ->
  exists d', depend owners parent d c = Some d' /\ depends count d' (fun x y => R x y \/ (x = a /\ y = b /\ a <> b)).
Proof.
  intros Ha Hb Hab Hlt Hi. unfold depend. rewrite Ha, Hb. simpl. destruct (Nat.eqb_spec a b) as [<-|Hne].
  { exists d. split; [done|]. eapply depends_ext; [|done]. naive_solver. }
  destruct Hi as [Hl Hd]. destruct (lookup_lt_is_Some_2 d a) as [ds Hds]; [lia|]. rewrite Hds. simpl.
  destruct (Hd a ds Hds) as [Hnd Hin]. case_bool_decide as Hk.
  { exists d. split; [done|]. eapply depends_ext; [|by split]. intros x y. split; [by left|].
    intros [|(-> & -> & _)]; [done|by apply Hin]. }
  rewrite (proj2 (Nat.ltb_lt a b)) by lia. eexists. split; [done|]. split; [by rewrite length_insert|].
  intros x es Hx. destruct (decide (x = a)) as [->|Hxa].
  - rewrite list_lookup_insert_eq in Hx by lia. simplify_eq. split.
    + apply NoDup_app. split_and!; [done|set_solver|apply NoDup_singleton].
    + intros y. rewrite elem_of_app, list_elem_of_singleton, Hin. naive_solver.
  - rewrite list_lookup_insert_ne in Hx by done. destruct (Hd x es Hx) as [? Hy]. split; [done|].
    intros y. rewrite Hy. naive_solver.
Qed.

(** What the loops over the edges have found when they have seen the pairs [E]. *)
Definition crossing (owners : list (option nat)) (E : nat → nat → Prop) (a b : nat) : Prop :=
  a <> b /\ exists p c, E p c /\ owners !! p = Some (Some a) /\ owners !! c = Some (Some b).

Lemma depend_children edges owners members parent children d (E : nat → nat → Prop) :
  owning edges owners members -> closed edges ->
  (forall v, v < length edges -> exists a, owners !! v = Some (Some a)) ->
  (forall c, c ∈ children -> edge edges parent c) -> depends (length members) d (crossing owners E) ->
  exists d', try_fold (depend owners parent) d children = Some d' /\
    depends (length members) d' (crossing owners (fun p c => E p c \/ (p = parent /\ c ∈ children))).
Proof.
  intros Ho Hcl Hall Hch Hd. apply (try_fold_rule (fun don d =>
    depends (length members) d (crossing owners (fun p c => E p c \/ (p = parent /\ c ∈ don))))).
  { eapply depends_ext; [|done]. intros x y. unfold crossing. setoid_rewrite elem_of_nil. naive_solver. }
  intros don c rest d' -> Hi. assert (edge edges parent c) as He by (apply Hch; set_solver).
  destruct (edge_closed edges parent c Hcl He) as [Hp Hc].
  destruct (Hall c Hc) as [b Hb]. destruct (o_parents _ _ _ Ho parent c b He Hb) as (a & Ha & Hab).
  assert (a < length members) as Hlt by (apply (o_members _ _ _ Ho) in Ha as (g & ?%lookup_lt_Some & _); done).
  destruct (depend_step owners (length members) parent c a b d' _ Ha Hb Hab Hlt Hi) as (d2 & E2 & Hd2).
  exists d2. split; [done|]. eapply depends_ext; [|exact Hd2]. intros x y. unfold crossing. split.
  - intros [(? & p & q & [?|[-> ?]] & ?)|(-> & -> & ?)]; (split; [done|]); [exists p, q|exists parent, q|exists parent, c]; set_solver.
  - intros (? & p & q & [?|[-> [?| ->%list_elem_of_singleton]%elem_of_app]] & ? & ?); [left; eauto 10|left; eauto 10|right].
    by simplify_eq.
Qed.

Lemma dependencies_ok edges owners members :
  owning edges owners members -> closed edges ->
  (forall v, v < length edges -> exists a, owners !! v = Some (Some a)) ->
  exists d, try_fold (fun d '(parent, children) => try_fold (depend owners parent) d children)
      (replicate (length members) []) (enumerate edges) = Some d /\
    depends (length members) d (crossing owners (edge edges)).
Proof.
  intros Ho Hcl Hall.
  destruct (try_fold_rule (fun don d => depends (length members) d
      (crossing owners (fun p c => exists cs, (p, cs) ∈ don /\ c ∈ cs)))
    (fun d '(parent, children) => try_fold (depend owners parent) d children)
    (enumerate edges) (replicate (length members) [])) as (d & E & Hd).
  - split; [by rewrite length_replicate|]. intros a ds [-> _]%lookup_replicate. split; [constructor|].
    unfold crossing. set_solver.
  - intros don [p cs] rest d Heq Hd.
    assert (edges !! p = Some cs) as Hp by (apply elem_of_enumerate; rewrite Heq; set_solver).
    destruct (depend_children edges owners members p cs d (fun p c => exists cs, (p, cs) ∈ don /\ c ∈ cs) Ho Hcl Hall)
      as (d' & E & Hd'); [by intros c ?; exists cs|done|].
    exists d'. split; [done|]. eapply depends_ext; [|exact Hd']. intros a b. unfold crossing. split.
    + intros (? & q & c & [(es & ? & ?)|[-> ?]] & ?); (split; [done|]); [exists q, c|exists p, c]; set_solver.
    + intros (? & q & c & (es & Hin & ?) & ?). apply elem_of_app in Hin as [?|[= -> ->]%list_elem_of_singleton]; (split; [done|]).
      * exists q, c. eauto 10.
      * exists p, c. auto.
  - exists d. split; [done|]. eapply depends_ext; [|exact Hd]. intros a b. unfold crossing, edge.
    by setoid_rewrite elem_of_enumerate.
Qed.

(** ** The plan *)

(** The plan, by the owners it gives. *)
Lemma plan_owned edges :
  closed edges -> exists owners c, plan edges = Some c /\ owning edges owners (members c) /\
    (forall v, v < length edges -> exists a, owners !! v = Some (Some a)) /\
    depends (length (members c)) (dependencies c) (fun a b => a < b /\ crossing owners (edge edges) a b).
Proof.
  intros Hcl. destruct (owners_found edges Hcl) as (reverse & finish & owners & ms & Er & Ef & Eo & Ho & Hall).
  destruct (dependencies_ok edges owners ms Ho Hcl Hall) as (d & Ed & Hd).
  exists owners, {| members := ms; dependencies := d |}. unfold plan. rewrite Er, Ef. simpl. rewrite Eo. simpl. rewrite Ed.
  split_and!; [done|done|done|]. eapply depends_ext; [|exact Hd]. intros a b. split; [|by intros [_ ?]].
  intros (Hne & p & c & He & Hpa & Hcb). destruct (o_parents _ _ _ Ho p c b He Hcb) as (a' & ? & ?). simplify_eq.
  split; [lia|]. split; [done|]. by exists p, c.
Qed.

(** C8: for a graph whose edges stay in it, the plan is found, without a panic and in bounded time.
    Its members partition the nodes into the strongly connected components; its dependencies list,
    once each, the components an edge leads to; and they lead to later components only, so the
    retention of mapping owners has no cycle. *)
Theorem components_exact edges :
  closed edges -> exists c, plan edges = Some c /\
    mjoin (members c) ≡ₚ seq 0 (length edges) /\
    (forall a g x y, members c !! a = Some g -> x ∈ g -> (y ∈ g <-> reach edges x y /\ reach edges y x)) /\
    length (dependencies c) = length (members c) /\
    forall a ds, dependencies c !! a = Some ds -> NoDup ds /\ forall b, b ∈ ds <->
      a < b /\ exists g h x y, members c !! a = Some g /\ members c !! b = Some h /\ x ∈ g /\ y ∈ h /\ edge edges x y.
Proof.
  intros Hcl. destruct (plan_owned edges Hcl) as (owners & c & E & [Hlo Hm Hn Hc _] & Hall & Hl & Hd). exists c. split_and!; [done| |exact Hc|done|].
  - apply NoDup_Permutation; [done|apply NoDup_seq|]. intros v. rewrite list_elem_of_join, elem_of_seq. split.
    + intros (g & Hv & [a Ha]%list_elem_of_lookup). assert (owners !! v = Some (Some a)) as Hw%lookup_lt_Some by (apply Hm; eauto). lia.
    + intros [_ Hv]. destruct (Hall v) as [a (g & ? & ?)%Hm]; [lia|]. exists g. split; [done|by eapply list_elem_of_lookup_2].
  - intros a ds Ha. destruct (Hd a ds Ha) as [? Hb]. split; [done|]. intros b. rewrite Hb. unfold crossing. split.
    + intros (Hlt & _ & p & q & He & (g & ? & ?)%Hm & (h & ? & ?)%Hm). split; [done|]. by exists g, h, p, q.
    + intros (Hlt & g & h & x & y & ? & ? & ? & ? & ?). split; [done|]. split; [lia|]. exists x, y. split; [done|]. split; apply Hm; eauto.
Qed.

Lemma components_exact_witness : exists c, plan [[1]; [0; 2]; [3]; [2]; []] = Some c.
Proof.
  destruct (components_exact [[1]; [0; 2]; [3]; [2]; []]) as (c & E & _).
  - repeat constructor.
  - by exists c.
Defined.
