(* ===== verification/GroupLayout.v ===== *)
(** * Local lookup groups ([namespace_group_layout.rs], [namespace_lookup_layout.rs],
      [namespace_scope_config.rs])

    Each new image belongs to the local group of one root: the images its symbols are looked up
    in, in breadth-first order of the dependencies, restricted to what the root's namespace may
    see.  The owner [usize::MAX] of an image without a group is [None].  An index out of range and
    a loop that runs out of steps are [None] of the whole. *)
From stdpp Require Export strings.
From S2P Require Import Prelude DependencyGraph.

#[local] Open Scope nat_scope.

(** ** The planner *)

Record GroupLayout : Type := { roots : list nat; scopes : list (list nat); owners : list nat }.

(** One child of a visited image: a new file of another namespace is a root of its own. *)
Definition consider (file_count : nat) (primary_namespaces : list Z) (parent : nat)
    (s : list nat * gset nat * list nat) (child : nat) : option (list nat * gset nat * list nat) :=
  let '(roots, known_roots, pending) := s in
  if child <? file_count then
    a ← primary_namespaces !! parent; b ← primary_namespaces !! child;
    if negb (a =? b)%Z && negb (bool_decide (child ∈ known_roots))
    then Some (roots ++ [child], {[child]} ∪ known_roots, pending ++ [child])
    else Some (roots, known_roots, pending ++ [child])
  else Some (roots, known_roots, pending ++ [child]).

Fixpoint gather_roots (file_count : nat) (primary_namespaces : list Z) (dependencies : list (list nat)) (fuel : nat)
    (roots : list nat) (known_roots visited : gset nat) (pending : list nat) : option (list nat) :=
  match pending, fuel with
  | [], _ => Some roots
  | _ :: _, O => None
  | parent :: rest, S fuel =>
      if bool_decide (parent ∈ visited)
      then gather_roots file_count primary_namespaces dependencies fuel roots known_roots visited rest
      else
        children ← dependencies !! parent;
        '(roots, known_roots, pending) ← try_fold (consider file_count primary_namespaces parent) (roots, known_roots, rest) children;
        gather_roots file_count primary_namespaces dependencies fuel roots known_roots ({[parent]} ∪ visited) pending
  end.

Fixpoint walk (dependencies : list (list nat)) (accessible : nat → bool) (fuel : nat) (group : list nat) (visited : gset nat)
    (pending : list nat) : option (list nat) :=
  match pending, fuel with
  | [], _ => Some group
  | _ :: _, O => None
  | image :: rest, S fuel =>
      if bool_decide (image ∈ visited) || negb (accessible image)
      then walk dependencies accessible fuel group ({[image]} ∪ visited) rest
      else
        children ← dependencies !! image;
        walk dependencies accessible fuel (group ++ [image]) ({[image]} ∪ visited) (rest ++ children)
  end.

Definition walk_fuel (dependencies : list (list nat)) : nat := S (total dependencies).

(** The image joins the group of the first root of its namespace that reaches it. *)
Definition assign (file_count : nat) (primary_namespaces : list Z) (namespace : Z) (group_root : nat) (group : list nat)
    (s : list (list nat) * list (option nat)) (image : nat) : option (list (list nat) * list (option nat)) :=
  let '(scopes, owners) := s in
  if image <? file_count then
    a ← primary_namespaces !! image; owner ← owners !! image;
    if (a =? namespace)%Z && bool_decide (owner = None)
    then Some (<[image := group]> scopes, <[image := Some group_root]> owners) else Some s
  else Some s.

Definition assign_root (file_count : nat) (primary_namespaces : list Z) (dependencies : list (list nat))
    (accessible : Z → nat → bool) (s : list (list nat) * list (option nat)) (group_root : nat)
    : option (list (list nat) * list (option nat)) :=
  namespace ← primary_namespaces !! group_root;
  group ← walk dependencies (accessible namespace) (walk_fuel dependencies) [] ∅ [group_root];
  try_fold (assign file_count primary_namespaces namespace group_root group) s group.

Definition plan (root file_count : nat) (primary_namespaces : list Z) (dependencies : list (list nat))
    (accessible : Z → nat → bool) : option (result GroupLayout string) :=
  let count := length dependencies in
  if (file_count <=? root) || (count <? file_count) || negb (length primary_namespaces =? count)
     || existsb (fun children => existsb (fun child => count <=? child) children) dependencies
  then Some (Err "invalid namespace group graph"%string)
  else
    roots ← gather_roots file_count primary_namespaces dependencies (walk_fuel dependencies) [root] {[root]} ∅ [root];
    '(scopes, owners) ← try_fold (assign_root file_count primary_namespaces dependencies accessible)
      (replicate file_count [], replicate file_count None) roots;
    match mapM id owners with
    | None => Some (Err "new file has no accessible local group"%string)
    | Some owners => Some (Ok {| roots := roots; scopes := scopes; owners := owners |})
    end.

Example plan_prunes_private_subtrees :
  plan 0 3 [10; 20; 20; 30]%Z [[1; 3]; [2]; []; []]
    (fun ns image => match [10; 20; 20; 30]%Z !! image with
                     | Some a => (a =? ns)%Z || ((ns =? 10)%Z && ((image =? 1) || (image =? 3)))
                     | None => false
                     end)
  = Some (Ok {| roots := [0; 1]; scopes := [[0; 1; 3]; [1; 2]; [1; 2]]; owners := [0; 1; 1] |}).
Proof. vm_compute. reflexivity. Qed.

(** ** What is left to visit *)

Fixpoint weight_from (start : nat) (dependencies : list (list nat)) (visited : gset nat) : nat :=
  match dependencies with
  | [] => 0
  | children :: rest => (if bool_decide (start ∈ visited) then 0 else length children) + weight_from (S start) rest visited
  end.

Definition weight (dependencies : list (list nat)) (visited : gset nat) : nat := weight_from 0 dependencies visited.

Lemma visit_other (v w : nat) (visited : gset nat) :
  w <> v -> bool_decide (w ∈ {[v]} ∪ visited) = bool_decide (w ∈ visited).
Proof. intros H. apply bool_decide_ext. set_solver. Qed.

Lemma weight_from_outside start dependencies visited v :
  v < start \/ start + length dependencies <= v ->
  weight_from start dependencies ({[v]} ∪ visited) = weight_from start dependencies visited.
Proof.
  revert start. induction dependencies as [|cs deps IH]; intros start Hv; [done|]. simpl in *.
  by rewrite IH, visit_other by lia.
Qed.

Lemma weight_from_visit start dependencies visited i cs :
  start + i ∉ visited -> dependencies !! i = Some cs ->
  weight_from start dependencies ({[start + i]} ∪ visited) + length cs = weight_from start dependencies visited.
Proof.
  revert start i. induction dependencies as [|ds deps IH]; intros start [|i] Hv Hi; simplify_eq/=.
  - rewrite Nat.add_0_r in *. rewrite weight_from_outside by lia.
    rewrite bool_decide_true by set_solver. rewrite bool_decide_false by done. lia.
  - rewrite <- Nat.add_succ_comm in *. pose proof (IH (S start) i Hv Hi). rewrite visit_other by lia. lia.
Qed.

Lemma weight_visit dependencies visited v cs :
  v ∉ visited -> dependencies !! v = Some cs ->
  weight dependencies ({[v]} ∪ visited) + length cs = weight dependencies visited.
Proof. apply (weight_from_visit 0). Qed.

Lemma weight_mono dependencies visited v : weight dependencies ({[v]} ∪ visited) <= weight dependencies visited.
Proof.
  destruct (decide (v ∈ visited)) as [Hv|Hv].
  - by replace ({[v]} ∪ visited) with visited by set_solver.
  - destruct (dependencies !! v) as [cs|] eqn:E; [pose proof (weight_visit _ _ _ _ Hv E); lia|].
    apply lookup_ge_None in E. unfold weight. rewrite weight_from_outside; lia.
Qed.

Lemma weight_total dependencies visited : weight dependencies visited <= total dependencies.
Proof.
  unfold weight, total. generalize 0. induction dependencies as [|cs deps IH]; intros start; [done|]. simpl.
  specialize (IH (S start)). case_bool_decide; lia.
Qed.

(** ** Breadth-first walks *)

Section walk.
Context (dependencies : list (list nat)) (accessible : nat → bool) (root : nat).

(** An edge to an accessible image, and the images at a number of such edges from the root. *)
Definition hop (x y : nat) : Prop := edge dependencies x y /\ accessible y = true.

Definition near (k : nat) (y : nat) : Prop := accessible root = true /\ nsteps hop k root y.

(** The list of a walk: every image that accessible edges lead to, once, no image before a nearer
    one. *)
Record breadth_first (group : list nat) : Prop := {
  bf_nodup : NoDup group;
  bf_members : forall y, y ∈ group <-> exists k, near k y;
  bf_order : forall before y after x k, group = before ++ y :: after -> x ∈ before -> near k y -> exists j, j <= k /\ near j x }.

(** A walk at distance [d]: [level] is what is left of the queue at this distance. *)
Record walking (d : nat) (group : list nat) (visited : gset nat) (level next : list nat) : Prop := {
  w_nodup : NoDup group;
  w_order : forall before y after x k, group = before ++ y :: after -> x ∈ before -> near k y -> exists j, j <= k /\ near j x;
  w_group : forall x, x ∈ group -> exists j, j <= d /\ near j x;
  w_below : forall k y, k < d -> near k y -> y ∈ group;
  w_here : forall y, near d y -> y ∈ group \/ y ∈ level;
  w_edges : forall x y, x ∈ group -> hop x y -> y ∈ group \/ y ∈ level \/ y ∈ next;
  w_level : forall y, y ∈ level -> accessible y = true -> near d y;
  w_next : forall y, y ∈ next -> accessible y = true -> near (S d) y;
  w_visited : forall y, accessible y = true -> y ∈ visited <-> y ∈ group }.

Lemma near_accessible k y : near k y -> accessible y = true.
Proof. intros [Hr Hn]. destruct k as [|k]; [by inv Hn|]. apply nsteps_inv_r in Hn as (z & _ & _ & ?). done. Qed.

Lemma near_step k x y : near k x -> hop x y -> near (S k) y.
Proof. intros [? ?] ?. split; [done|]. by eapply nsteps_r. Qed.

Lemma near_reach k y : near k y -> reach dependencies root y.
Proof.
  intros [_ Hn]. apply rtc_nsteps. exists k. eapply nsteps_congruence with (f := id); [|exact Hn]. by intros x z [].
Qed.

(** The walk moves on to the next distance. *)
Lemma walk_next d group visited next :
  walking d group visited [] next -> walking (S d) group visited next [].
Proof.
  intros [Hn Ho Hg Hb Hh He Hl Hx Hv]. constructor; try done.
  - intros x Hxg. destruct (Hg x Hxg) as (j & ? & ?). exists j. split; [lia|done].
  - intros k y Hk Hy. destruct (decide (k = d)) as [->|]; [|by apply (Hb k y); [lia|]].
    by destruct (Hh y Hy) as [|?%not_elem_of_nil].
  - intros y [Hr (x & Hx1 & Hx2)%nsteps_inv_r]. destruct (Hh x (conj Hr Hx1)) as [Hxg|?%not_elem_of_nil]; [|done].
    destruct (He x y Hxg Hx2) as [|[?%not_elem_of_nil|]]; auto; done.
  - intros x y Hxg Hxy. destruct (He x y Hxg Hxy) as [|[?%not_elem_of_nil|]]; auto; done.
  - by intros y ?%not_elem_of_nil.
Qed.

(** An image already visited, or not accessible. *)
Lemma walk_skip d group visited image level next :
  image ∈ visited \/ accessible image = false ->
  walking d group visited (image :: level) next -> walking d group ({[image]} ∪ visited) level next.
Proof.
  intros Hi [Hn Ho Hg Hb Hh He Hl Hx Hv].
  assert (forall y, accessible y = true -> y = image -> y ∈ group) as Hin.
  { intros y Hy ->. destruct Hi as [Hi|]; [by apply Hv|congruence]. }
  constructor; try done.
  - intros y Hy. destruct (Hh y Hy) as [|[Heq|]%elem_of_cons]; auto. left. apply Hin; [by eapply near_accessible|done].
  - intros x y Hxg Hxy. destruct (He x y Hxg Hxy) as [|[[Heq|]%elem_of_cons|]]; auto. left. apply Hin; [by apply Hxy|done].
  - intros y Hy. apply Hl. set_solver.
  - intros y Hy. rewrite elem_of_union, elem_of_singleton, Hv by done. split; [intros [->|]; [by apply Hin|done]|auto].
Qed.

Lemma walk_visit d group visited image level next children :
  image ∉ visited -> accessible image = true -> dependencies !! image = Some children ->
  walking d group visited (image :: level) next ->
  walking d (group ++ [image]) ({[image]} ∪ visited) level (next ++ children).
Proof.
  intros Hi Ha Hc [Hn Ho Hg Hb Hh He Hl Hx Hv].
  assert (image ∉ group) as Hnew by (rewrite <- Hv; done).
  assert (near d image) as Hnear by (apply Hl; [set_solver|done]).
  constructor.
  - apply NoDup_app. split_and!; [done|set_solver|apply NoDup_singleton].
  - intros before y after x k Heq Hin Hy. destruct (decide (after = [])) as [->|Hne].
    + apply app_inj_tail in Heq as [-> ->]. destruct (Hg x Hin) as (j & ? & ?).
      destruct (decide (k < d)) as [Hk|]; [by destruct Hnew; eapply Hb|]. exists j. split; [lia|done].
    + destruct (exists_last Hne) as (after' & w & ->).
      rewrite (app_assoc before (y :: after') [w] : before ++ y :: after' ++ [w] = _) in Heq.
      apply app_inj_tail in Heq as [-> ->]. by eapply Ho.
  - intros x [?| ->%list_elem_of_singleton]%elem_of_app; [by apply Hg|]. by exists d.
  - intros k y ? ?. apply elem_of_app. left. by eapply Hb.
  - intros y Hy. destruct (Hh y Hy) as [|[->|]%elem_of_cons]; set_solver.
  - intros x y [Hxg| ->%list_elem_of_singleton]%elem_of_app Hxy.
    + destruct (He x y Hxg Hxy) as [|[[->|]%elem_of_cons|]]; set_solver.
    + destruct Hxy as [(cs & ? & ?) _]. simplify_eq. set_solver.
  - intros y Hy. apply Hl. set_solver.
  - intros y [?|Hy]%elem_of_app Hay; [by apply Hx|]. eapply near_step; [done|]. split; [by exists children|done].
  - intros y Hy. rewrite elem_of_union, elem_of_singleton, elem_of_app, list_elem_of_singleton, Hv by done. tauto.
Qed.

Lemma walking_done d group visited : walking d group visited [] [] -> breadth_first group.
Proof.
  intros [Hn Ho Hg Hb Hh He Hl Hx Hv]. constructor; try done. intros y. split.
  - intros Hy. destruct (Hg y Hy) as (j & _ & ?). by exists j.
  - intros (k & Hr & Hy). assert (root ∈ group) as Hroot.
    { destruct (decide (0 < d)) as [|]; [by apply (Hb 0); [|split; [|constructor]]|].
      destruct (Hh root) as [|?%not_elem_of_nil]; [|done..]. split; [done|]. replace d with 0 by lia. constructor. }
    assert (forall x z, hop x z -> x ∈ group -> z ∈ group) as Hstep.
    { intros x z Hxz Hxg. by destruct (He x z Hxg Hxz) as [|[?%not_elem_of_nil|?%not_elem_of_nil]]. }
    apply (forward_closed hop (fun v => v ∈ group) root y Hstep); [|done]. apply rtc_nsteps. by exists k.
Qed.

Lemma walk_ok fuel d group visited level next :
  closed dependencies -> Forall (fun y => y < length dependencies) (level ++ next) ->
  walking d group visited level next -> weight dependencies visited + length (level ++ next) <= fuel ->
  exists group', walk dependencies accessible fuel group visited (level ++ next) = Some group' /\ breadth_first group'.
Proof.
  intros Hcl. revert d group visited level next. induction fuel as [|fuel IH]; intros d group visited level next Hf Hi Hm.
  { destruct level; [|simpl in Hm; lia]. destruct next; [|simpl in Hm; lia]. eexists. split; [done|]. by eapply walking_done. }
  assert (exists d level' next', level ++ next = level' ++ next' /\ walking d group visited level' next' /\
    (level' = [] -> next' = [])) as (d' & level' & next' & Heq & Hi' & Hne).
  { destruct level as [|a level]; [|by exists d, (a :: level), next].
    exists (S d), next, []. split; [by rewrite app_nil_r|]. split; [by apply walk_next|done]. }
  rewrite Heq in *. clear dependent level next. rename level' into level, next' into next.
  destruct level as [|image level]; [rewrite Hne in * by done; eexists; split; [done|by eapply walking_done]|].
  simpl in *. apply Forall_cons in Hf as [Hlt Hf].
  destruct (bool_decide (image ∈ visited) || negb (accessible image)) eqn:E.
  - eapply IH; [done| |].
    + eapply walk_skip; [|done]. apply orb_true_iff in E as [?%bool_decide_eq_true|?%negb_true_iff]; auto.
    + pose proof (weight_mono dependencies visited image). lia.
  - apply orb_false_iff in E as [Hv%bool_decide_eq_false Ha%negb_false_iff].
    destruct (lookup_lt_is_Some_2 dependencies image Hlt) as [cs Hcs]. rewrite Hcs. simpl.
    rewrite <- app_assoc. eapply IH.
    + rewrite app_assoc. apply Forall_app. split; [done|]. exact (Forall_lookup_1 _ _ _ _ Hcl Hcs).
    + by eapply walk_visit.
    + pose proof (weight_visit dependencies visited image cs Hv Hcs). rewrite !length_app in *. lia.
Qed.

Lemma walk_breadth_first :
  closed dependencies -> root < length dependencies ->
  exists group, walk dependencies accessible (walk_fuel dependencies) [] ∅ [root] = Some group /\ breadth_first group.
Proof.
  intros Hcl Hr. apply (walk_ok _ 0 [] ∅ [root] []); [done|by repeat constructor| |].
  - constructor; try done.
    + constructor.
    + by intros [] ? ? ? ? ?.
    + by intros x ?%not_elem_of_nil.
    + intros k y ?. lia.
    + intros y [_ Hy]. inv Hy. set_solver.
    + by intros x y ?%not_elem_of_nil.
    + intros y ->%list_elem_of_singleton ?. split; [done|constructor].
    + by intros y ?%not_elem_of_nil.
    + intros y _. set_solver.
  - unfold walk_fuel. pose proof (weight_total dependencies ∅). simpl. lia.
Qed.
End walk.

(** ** Roots *)

Section layout.
Context (root file_count : nat) (primary_namespaces : list Z) (dependencies : list (list nat)).

(** A dependency on a new file of another namespace. *)
Definition foreign (p c : nat) : Prop :=
  edge dependencies p c /\ c < file_count /\ primary_namespaces !! p <> primary_namespaces !! c.

Record gathering (roots : list nat) (known_roots visited : gset nat) (pending : list nat) : Prop := {
  g_known : forall v, v ∈ known_roots <-> v ∈ roots;
  g_nodup : NoDup roots;
  g_head : exists others, roots = root :: others;
  g_start : root ∈ visited \/ root ∈ pending;
  g_reach : forall v, v ∈ visited \/ v ∈ pending -> reach dependencies root v;
  g_edges : forall x y, x ∈ visited -> edge dependencies x y -> y ∈ visited \/ y ∈ pending;
  g_roots : forall c, c ∈ roots <-> c = root \/ exists p, p ∈ visited /\ foreign p c }.

(** What is known of the roots after the children [don] of [parent]. *)
Definition considered (parent : nat) (roots don : list nat) (s : list nat * gset nat * list nat) : Prop :=
  let '(roots', known', _) := s in
  (forall v, v ∈ known' <-> v ∈ roots') /\ NoDup roots' /\ (exists others, roots' = root :: others) /\
  forall c, c ∈ roots' <-> c ∈ roots \/ (c ∈ don /\ c < file_count /\ primary_namespaces !! parent <> primary_namespaces !! c).

Lemma consider_value parent c a b r k p :
  primary_namespaces !! parent = Some a -> primary_namespaces !! c = Some b ->
  consider file_count primary_namespaces parent (r, k, p) c =
    Some (if decide (c < file_count /\ primary_namespaces !! parent <> primary_namespaces !! c /\ c ∉ k)
          then (r ++ [c], {[c]} ∪ k, p ++ [c]) else (r, k, p ++ [c])).
Proof.
  intros Ha Hb. simpl. rewrite Ha, Hb. simpl. destruct (Nat.ltb_spec c file_count); [|rewrite decide_False by lia; done].
  destruct (Z.eqb_spec a b); [rewrite decide_False by naive_solver; done|]. simpl.
  case_bool_decide; [rewrite decide_False by tauto|rewrite decide_True by naive_solver]; done.
Qed.

Lemma consider_step parent c roots don r k p :
  parent < length primary_namespaces -> c < length primary_namespaces -> considered parent roots don (r, k, p) ->
  exists r' k', consider file_count primary_namespaces parent (r, k, p) c = Some (r', k', p ++ [c]) /\
    considered parent roots (don ++ [c]) (r', k', p ++ [c]).
Proof.
  intros [a Ha]%lookup_lt_is_Some_2 [b Hb]%lookup_lt_is_Some_2 (Hk & Hn & Hh & Hx).
  rewrite (consider_value parent c a b r k p Ha Hb). destruct (decide _) as [(Hf & Hne & Hck)|Hnot]; eexists _, _; (split; [done|]).
  - rewrite Hk in Hck. split_and!.
    + intros v. rewrite elem_of_union, elem_of_singleton, Hk, elem_of_app, list_elem_of_singleton. tauto.
    + apply NoDup_app. split_and!; [done|set_solver|apply NoDup_singleton].
    + destruct Hh as [others ->]. by exists (others ++ [c]).
    + intros x. rewrite !elem_of_app, !list_elem_of_singleton, Hx. split; [|tauto].
      intros [|H]; [tauto|subst]. tauto.
  - split_and!; try done. intros x. rewrite Hx, elem_of_app, list_elem_of_singleton.
    split; [tauto|]. intros [|([?| ->] & ? & ?)]; [tauto..|]. rewrite <- Hx, <- Hk. destruct (decide (c ∈ k)); tauto.
Qed.

Lemma consider_ok parent roots known visited rest children :
  length primary_namespaces = length dependencies -> closed dependencies -> dependencies !! parent = Some children ->
  gathering roots known visited (parent :: rest) ->
  exists roots' known', try_fold (consider file_count primary_namespaces parent) (roots, known, rest) children
      = Some (roots', known', rest ++ children) /\
    gathering roots' known' ({[parent]} ∪ visited) (rest ++ children).
Proof.
  intros Hl Hcl Hc [Hk Hn Hh Hs Hr He Hx].
  destruct (try_fold_rule (fun don s => s.2 = rest ++ don /\ considered parent roots don s)
    (consider file_count primary_namespaces parent) children (roots, known, rest))
    as ([[roots' known'] pending'] & E & Hp & Hk' & Hn' & Hh' & Hx').
  - rewrite app_nil_r. split; [done|]. split_and!; try done. set_solver.
  - intros don c post [[r k] p] -> [Hp Hi]. simpl in Hp. subst p.
    assert (edge dependencies parent c) as Hpc by (eexists; split; [done|set_solver]).
    destruct (edge_closed _ _ _ Hcl Hpc) as [Hp Hlt]. rewrite <- Hl in Hp, Hlt.
    destruct (consider_step parent c roots don r k (rest ++ don) Hp Hlt Hi) as (r' & k' & E & Hi').
    eexists. split; [done|]. split; [by rewrite <- app_assoc|done].
  - simpl in Hp. subst pending'. exists roots', known'. split; [done|]. constructor; try done.
    + set_solver.
    + intros v Hv. destruct (decide (v ∈ children)) as [Hvc|]; [|apply Hr; set_solver].
      eapply reach_step; [apply (Hr parent); set_solver|]. by exists children.
    + intros x y [->%elem_of_singleton|Hxv]%elem_of_union Hxy; [|destruct (He x y Hxv Hxy); set_solver].
      destruct Hxy as (cs & ? & ?). simplify_eq. set_solver.
    + intros c. rewrite Hx', Hx. unfold foreign. split.
      * intros [[->|(p & ? & ?)]|(? & ? & ?)]; [by left|right; exists p; set_solver|right; exists parent].
        split; [set_solver|]. split; [by exists children|done].
      * intros [->|(p & [->%elem_of_singleton|?]%elem_of_union & Hpc & ? & ?)]; [by left; left|right|left; right; by exists p].
        destruct Hpc as (cs & ? & ?). by simplify_eq.
Qed.

(** The roots of a layout: the root of the load, then each new file that something reachable from
    it depends on across namespaces. *)
Definition layout_roots (roots : list nat) : Prop :=
  (exists others, roots = root :: others) /\ NoDup roots /\
  forall c, c ∈ roots <-> c = root \/ exists p, reach dependencies root p /\ foreign p c.

Lemma gathering_done roots known visited : gathering roots known visited [] -> layout_roots roots.
Proof.
  intros [Hk Hn Hh Hs Hr He Hx]. split_and!; try done. intros c. rewrite Hx.
  split; (intros [->|(p & Hp & ?)]; [by left|right; exists p; split; [|done]]); [by apply Hr; left|].
  apply (forward_closed (edge dependencies) (fun v => v ∈ visited) root p); [|done|set_solver].
  intros a b Hab Ha. destruct (He a b Ha Hab); set_solver.
Qed.

Lemma gather_roots_ok fuel roots known visited pending :
  length primary_namespaces = length dependencies -> closed dependencies ->
  Forall (fun y => y < length dependencies) pending -> gathering roots known visited pending ->
  weight dependencies visited + length pending <= fuel ->
  exists roots', gather_roots file_count primary_namespaces dependencies fuel roots known visited pending = Some roots' /\
    layout_roots roots'.
Proof.
  intros Hl Hcl. revert roots known visited pending. induction fuel as [|fuel IH]; intros roots known visited [|parent rest] Hf Hi Hm.
  2: { simpl in Hm. lia. }
  1, 2: exists roots; split; [done|by eapply gathering_done].
  simpl. apply Forall_cons in Hf as [Hlt Hf]. case_bool_decide as Hv.
  - apply IH; [done| |simpl in Hm; lia]. destruct Hi as [Hk Hn Hh Hs Hr He Hx]. constructor; try done.
    + destruct Hs as [|[->|]%elem_of_cons]; auto.
    + intros v Hw. apply Hr. set_solver.
    + intros x y Hxv Hxy. destruct (He x y Hxv Hxy) as [|[->|]%elem_of_cons]; auto.
  - destruct (lookup_lt_is_Some_2 dependencies parent Hlt) as [cs Hcs]. rewrite Hcs. simpl.
    destruct (consider_ok parent roots known visited rest cs) as (r' & k' & E & Hi'); try done. rewrite E. simpl.
    apply IH; [|done|].
    + apply Forall_app. split; [done|]. exact (Forall_lookup_1 _ _ _ _ Hcl Hcs).
    + pose proof (weight_visit dependencies visited parent cs Hv Hcs). rewrite length_app. simpl in Hm. lia.
Qed.

Lemma roots_found :
  length primary_namespaces = length dependencies -> closed dependencies -> root < length dependencies ->
  exists roots, gather_roots file_count primary_namespaces dependencies (walk_fuel dependencies) [root] {[root]} ∅ [root] = Some roots /\
    layout_roots roots.
Proof.
  intros Hl Hcl Hr. apply gather_roots_ok; [done..|by repeat constructor| |].
  - constructor.
    + set_solver.
    + apply NoDup_singleton.
    + by exists [].
    + set_solver.
    + intros v [?| ->%list_elem_of_singleton]; [set_solver|apply reach_refl].
    + set_solver.
    + intros c. rewrite list_elem_of_singleton. split; [by left|]. intros [->|(p & ? & _)]; [done|set_solver].
  - pose proof (weight_total dependencies ∅). unfold walk_fuel. simpl. lia.
Qed.

(** ** Groups *)

Context (accessible : Z → nat → bool).

(** The root [r] takes the file [i]: same namespace, and accessible edges lead from [r] to [i]. *)
Definition serves (r i : nat) : Prop :=
  exists namespace k, primary_namespaces !! r = Some namespace /\ primary_namespaces !! i = Some namespace /\
    near dependencies (accessible namespace) r k i.

(** The first of the roots that serves a file owns it, and the file is looked up in its walk. *)
Definition owned_by (roots : list nat) (owner : option (option nat)) (scope : option (list nat)) (i : nat) : Prop :=
  exists before r after namespace group, roots = before ++ r :: after /\ (forall r', r' ∈ before -> ¬ serves r' i) /\
    serves r i /\ owner = Some (Some r) /\ scope = Some group /\ primary_namespaces !! r = Some namespace /\
    walk dependencies (accessible namespace) (walk_fuel dependencies) [] ∅ [r] = Some group /\
    breadth_first dependencies (accessible namespace) r group.

Definition assigned (don : list nat) (scopes : list (list nat)) (owners : list (option nat)) : Prop :=
  length scopes = file_count /\ length owners = file_count /\
  forall i, i < file_count -> owned_by don (owners !! i) (scopes !! i) i \/ (owners !! i = Some None /\ forall r, r ∈ don -> ¬ serves r i).

Lemma assign_ok namespace r group scopes owners :
  length scopes = file_count -> length owners = file_count -> file_count <= length primary_namespaces ->
  exists scopes' owners', try_fold (assign file_count primary_namespaces namespace r group) (scopes, owners) group = Some (scopes', owners') /\
    length scopes' = file_count /\ length owners' = file_count /\
    forall i, i < file_count ->
      if decide (i ∈ group /\ primary_namespaces !! i = Some namespace /\ owners !! i = Some None)
      then owners' !! i = Some (Some r) /\ scopes' !! i = Some group
      else owners' !! i = owners !! i /\ scopes' !! i = scopes !! i.
Proof.
  intros Hs Ho Hle.
  destruct (try_fold_rule (fun don '(scopes', owners') => length scopes' = file_count /\ length owners' = file_count /\
    forall i, i < file_count ->
      if decide (i ∈ don /\ primary_namespaces !! i = Some namespace /\ owners !! i = Some None)
      then owners' !! i = Some (Some r) /\ scopes' !! i = Some group
      else owners' !! i = owners !! i /\ scopes' !! i = scopes !! i)
    (assign file_count primary_namespaces namespace r group) group (scopes, owners)) as ([s' o'] & E & Hi); [| |by exists s', o'].
  { split_and!; [done..|]. intros i Hi. destruct (decide _); [set_solver|done]. }
  intros don c rest [s' o'] _ (Hs' & Ho' & Hi). simpl. destruct (Nat.ltb_spec c file_count) as [Hc|Hc].
  2: { eexists. split; [done|]. split_and!; try done. intros i Hlt. specialize (Hi i Hlt).
       rewrite (decide_ext _ (i ∈ don /\ primary_namespaces !! i = Some namespace /\ owners !! i = Some None)); [done|].
       rewrite elem_of_app, list_elem_of_singleton. split; [|tauto]. intros ([|] & ?); [tauto|lia]. }
  destruct (lookup_lt_is_Some_2 primary_namespaces c) as [a Ha]; [lia|]. destruct (lookup_lt_is_Some_2 o' c) as [w Hw]; [lia|].
  rewrite Ha, Hw. simpl. destruct ((a =? namespace)%Z && bool_decide (w = None)) eqn:Eg.
  - apply andb_true_iff in Eg as [->%Z.eqb_eq ->%bool_decide_eq_true]. eexists. split; [done|]. cbn iota beta. rewrite !length_insert.
    split_and!; try done. intros i Hlt. specialize (Hi i Hlt). destruct (decide (i = c)) as [->|Hne].
    + rewrite !list_lookup_insert_eq by lia. destruct (decide (c ∈ don /\ _)) as [|_]; [naive_solver|].
      rewrite decide_True; [done|]. split; [set_solver|]. split; [done|]. destruct Hi as [<- _]. done.
    + rewrite !list_lookup_insert_ne by done.
      rewrite (decide_ext _ (i ∈ don /\ primary_namespaces !! i = Some namespace /\ owners !! i = Some None)); [done|]. set_solver.
  - eexists. split; [done|]. split_and!; try done. intros i Hlt. specialize (Hi i Hlt).
    destruct (decide (i ∈ don /\ _)) as [Hd|Hd]; [rewrite decide_True by set_solver; done|].
    rewrite decide_False; [done|]. intros ([?| ->%list_elem_of_singleton]%elem_of_app & Hn & Hnone); [tauto|].
    destruct Hi as [Hi _]. rewrite Hw, Hnone in Hi. rewrite Ha in Hn. simplify_eq. rewrite Z.eqb_refl in Eg. done.
Qed.

Lemma owned_by_more roots r owner scope i : owned_by roots owner scope i -> owned_by (roots ++ [r]) owner scope i.
Proof.
  intros (b & r' & a & n & g & -> & H). exists b, r', (a ++ [r]), n, g. by rewrite <- app_assoc.
Qed.

Lemma assign_root_ok don r scopes owners :
  closed dependencies -> length primary_namespaces = length dependencies -> file_count <= length dependencies ->
  r < length dependencies -> assigned don scopes owners ->
  exists scopes' owners', assign_root file_count primary_namespaces dependencies accessible (scopes, owners) r = Some (scopes', owners') /\
    assigned (don ++ [r]) scopes' owners'.
Proof.
  intros Hcl Hl Hle Hr (Hs & Ho & Hi). unfold assign_root.
  destruct (lookup_lt_is_Some_2 primary_namespaces r) as [namespace Hn]; [lia|]. rewrite Hn. cbn [mbind option_bind].
  destruct (walk_breadth_first dependencies (accessible namespace) r Hcl Hr) as (group & E & Hb). rewrite E. cbn [mbind option_bind].
  destruct (assign_ok namespace r group scopes owners) as (s' & o' & E' & Hs' & Ho' & Hi'); [done..|lia|].
  exists s', o'. split; [done|]. split_and!; try done. intros i Hlt. specialize (Hi' i Hlt). specialize (Hi i Hlt).
  assert (serves r i <-> i ∈ group /\ primary_namespaces !! i = Some namespace) as Hsv.
  { unfold serves. rewrite (bf_members _ _ _ _ Hb). split; [intros (n & k & ? & ? & ?); simplify_eq; eauto|].
    intros [[k ?] ?]. by exists namespace, k. }
  destruct (decide _) as [(Hg & Hni & Hnone)|Hd].
  - left. destruct Hi as [(b & r' & a & n & g & _ & _ & _ & ? & _)|[_ Hnot]]; [congruence|].
    destruct Hi' as [-> ->]. exists don, r, [], namespace, group. split_and!; try done. by apply Hsv.
  - destruct Hi' as [-> ->]. destruct Hi as [Hown|[Hnone Hnot]]; [left; by apply owned_by_more|right]. split; [done|].
    intros q [Hq| ->%list_elem_of_singleton]%elem_of_app; [by apply Hnot|]. rewrite Hsv. tauto.
Qed.
End layout.

(** ** The layout *)

Lemma mapM_id_Some {A} (l : list (option A)) os : mapM id l = Some os -> l = Some <$> os.
Proof. intros H%mapM_Some_1. induction H as [|x y l os Hx _ IH]; [done|]. rewrite fmap_cons, <- Hx. by f_equal. Qed.

Lemma mapM_id_None {A} (l : list (option A)) : mapM id l = None -> exists i, l !! i = Some None.
Proof.
  intros H%mapM_None_1. apply Exists_exists in H as (x & [i Hi]%list_elem_of_lookup & Hx). exists i. by rewrite Hi, <- Hx.
Qed.

Lemma plan_guard root file_count primary_namespaces dependencies accessible :
  plan root file_count primary_namespaces dependencies accessible =
  if decide (root < file_count <= length dependencies /\ length primary_namespaces = length dependencies /\ closed dependencies)
  then
    rs ← gather_roots file_count primary_namespaces dependencies (walk_fuel dependencies) [root] {[root]} ∅ [root];
    '(scopes, owners) ← try_fold (assign_root file_count primary_namespaces dependencies accessible)
      (replicate file_count [], replicate file_count None) rs;
    match mapM id owners with
    | None => Some (Err "new file has no accessible local group"%string)
    | Some owners => Some (Ok {| roots := rs; scopes := scopes; owners := owners |})
    end
  else Some (Err "invalid namespace group graph"%string).
Proof.
  unfold plan. match goal with |- (if ?b then _ else _) = (if ?d then _ else _) => destruct b eqn:E; destruct d as [H|H] end; try done.
  - exfalso. destruct H as (? & ? & Hc). rewrite !orb_true_iff, Nat.leb_le, Nat.ltb_lt, negb_true_iff, Nat.eqb_neq in E.
    destruct E as [[[?|?]|?]|(cs & [i Hcs]%list_elem_of_In%list_elem_of_lookup & (y & Hy%list_elem_of_In & Hle%Nat.leb_le)%existsb_exists)%existsb_exists]; try lia.
    pose proof (Forall_lookup_1 _ _ _ _ Hc Hcs) as Hf. rewrite Forall_forall in Hf. specialize (Hf y Hy). lia.
  - exfalso. apply H. rewrite !orb_false_iff, Nat.leb_gt, Nat.ltb_ge, negb_false_iff, Nat.eqb_eq in E.
    destruct E as [[[? ?] ?] Hc]. split; [done|]. split; [done|]. unfold closed. rewrite Forall_forall. intros cs Hcs.
    rewrite Forall_forall. intros y Hy. apply Nat.lt_nge. intros Hle. apply not_true_iff_false in Hc. apply Hc.
    apply existsb_exists. exists cs. split; [by apply list_elem_of_In|]. apply existsb_exists. exists y.
    split; [by apply list_elem_of_In|by apply Nat.leb_le].
Qed.

(** A graph whose indices are in range is planned. *)
Lemma plan_in_range root file_count primary_namespaces dependencies accessible :
  root < file_count <= length dependencies -> length primary_namespaces = length dependencies -> closed dependencies ->
  exists rs, layout_roots root file_count primary_namespaces dependencies rs /\
    match plan root file_count primary_namespaces dependencies accessible with
    | Some (Ok l) => roots l = rs /\ length (owners l) = file_count /\ forall i, i < file_count ->
        owned_by primary_namespaces dependencies accessible rs (Some <$> owners l !! i) (scopes l !! i) i
    | Some (Err _) => exists i, i < file_count /\ forall r, r ∈ rs -> ¬ serves primary_namespaces dependencies accessible r i
    | None => False
    end.
Proof.
  intros Hr Hl Hcl. rewrite plan_guard, decide_True by done.
  destruct (roots_found root file_count primary_namespaces dependencies Hl Hcl ltac:(lia)) as (rs & Er & Hrs). rewrite Er. cbn [mbind option_bind].
  exists rs. split; [done|].
  destruct (try_fold_rule (fun don '(scopes, owners) => assigned file_count primary_namespaces dependencies accessible don scopes owners)
    (assign_root file_count primary_namespaces dependencies accessible) rs (replicate file_count [], replicate file_count None))
    as ([sc ow] & E & _ & Ho & Hi).
  - split_and!; [apply length_replicate..|]. intros i Hlt. right. split; [by apply lookup_replicate_2|]. by intros r ?%not_elem_of_nil.
  - intros don r rest [sc ow] Heq Ha. assert (r < length dependencies) as Hlt.
    { assert (r ∈ rs) as Hin by (rewrite Heq; set_solver). apply Hrs in Hin as [->|(p & _ & _ & ? & _)]; lia. }
    destruct (assign_root_ok root file_count primary_namespaces dependencies accessible don r sc ow) as (s' & o' & ? & ?); [done..|lia|lia|done|].
    by exists (s', o').
  - rewrite E. cbn [mbind option_bind]. destruct (mapM id ow) as [os|] eqn:Em.
    + apply mapM_id_Some in Em as ->. rewrite length_fmap in Ho. split_and!; try done. intros i Hlt. simpl.
      rewrite <- list_lookup_fmap. destruct (Hi i Hlt) as [|[Hnone _]]; [done|]. rewrite list_lookup_fmap in Hnone.
      by destruct (os !! i).
    + apply mapM_id_None in Em as [i Hnone]. assert (i < file_count) as Hlt by (apply lookup_lt_Some in Hnone; lia).
      exists i. split; [done|]. destruct (Hi i Hlt) as [(b & r & a & n & g & _ & _ & _ & ? & _)|[_ ?]]; [congruence|done].
Qed.

