(* ===== verification/UnloadOrder.v ===== *)
(** * The order of finalizers in a local group ([namespace_group_finalization.rs])

    When a local group is unloaded its members are finalized from the root down: a member is
    queued when the last of its parents has been visited.  The outer [option] is an index out of
    range or a loop without end, the inner one the [Option] of the source. *)
From S2P Require Import Prelude DependencyGraph GroupLayout.

#[local] Open Scope nat_scope.

(** [parents.get_mut(child)?.insert(parent)]. *)
Definition parent_sets (children : list (list nat)) : option (list (gset nat)) :=
  all_parents ∅ (fun parent parents => {[parent]} ∪ parents) children.

Definition release_child (parent : nat) (visited : gset nat) (s : list (gset nat) * list nat) (child : nat)
    : option (list (gset nat) * list nat) :=
  let '(parents, queue) := s in
  known ← parents !! child;
  let known := known ∖ {[parent]} in
  let parents := <[child := known]> parents in
  if negb (bool_decide (child ∈ visited)) && bool_decide (known = ∅) then Some (parents, queue ++ [child]) else Some (parents, queue).

Fixpoint unload (children : list (list nat)) (fuel : nat) (parents : list (gset nat)) (queue : list nat) (visited : gset nat)
    (order : list nat) : option (list nat) :=
  match queue, fuel with
  | [], _ => Some order
  | _ :: _, O => None
  | parent :: rest, S fuel =>
      if bool_decide (parent ∈ visited) then unload children fuel parents rest visited order
      else
        let visited := {[parent]} ∪ visited in
        cs ← children !! parent;
        '(parents, queue) ← try_fold (release_child parent visited) (parents, rest) cs;
        unload children fuel parents queue visited (order ++ [parent])
  end.

Definition local_order (root : nat) (children : list (list nat)) : option (option (list nat)) :=
  if length children <=? root then Some None
  else
    match parent_sets children with
    | None => Some None
    | Some parents =>
        order ← unload children (walk_fuel children) parents [root] ∅ [];
        Some (if length order =? length children then Some order else None)
    end.

Example siblings_and_diamond : local_order 0 [[1; 2]; [3]; [3]; []] = Some (Some [0; 1; 2; 3]).
Proof. vm_compute. reflexivity. Qed.

Example retained_cycle : local_order 0 [[1]; [2]; [1]] = Some None.
Proof. vm_compute. reflexivity. Qed.

Lemma parent_sets_spec children :
  closed children -> exists parents, parent_sets children = Some parents /\ length parents = length children /\
    forall c P, parents !! c = Some P -> forall p, p ∈ P <-> edge children p c.
Proof. apply all_parents_spec; [set_solver|]. intros p q X. by rewrite elem_of_union, elem_of_singleton. Qed.

(** ** The traversal *)

Section unload.
Context (children : list (list nat)) (root : nat).

(** An order that finalizes the whole group from its root, every member after all its parents.
    Edges back to the root do not count. *)
Definition unloads (order : list nat) : Prop :=
  order ≡ₚ seq 0 (length children) /\ head order = Some root /\
  forall before x after, order = before ++ x :: after -> x <> root ->
    (exists p, edge children p x) /\ forall p, edge children p x -> p ∈ before.

(** The queue holds the members whose parents have all been visited. *)
Definition ready (visited : gset nat) (x : nat) : Prop :=
  (exists p, edge children p x) /\ forall p, edge children p x -> p ∈ visited.

Record unloading (parents : list (gset nat)) (queue : list nat) (visited : gset nat) (order : list nat) : Prop := {
  u_length : length parents = length children;
  u_parents : forall c P, parents !! c = Some P -> forall p, p ∈ P <-> edge children p c /\ p ∉ visited;
  u_visited : forall v, v ∈ visited <-> v ∈ order;
  u_nodup : NoDup order;
  u_start : (order = [] /\ queue = [root]) \/ head order = Some root;
  u_range : forall v, v ∈ queue \/ v ∈ order -> v < length children;
  u_queue : forall v, v ∈ queue -> v = root \/ ready visited v;
  u_order : forall before x after, order = before ++ x :: after -> x <> root ->
    (exists p, edge children p x) /\ forall p, edge children p x -> p ∈ before;
  u_ready : forall v, v <> root -> ready visited v -> v ∈ visited \/ v ∈ queue }.

(** One visited parent, after the children [don]: the sets are those of the state before, without
    the parent in the sets of [don]. *)
Definition releasing (parent : nat) (visited : gset nat) (parents0 : list (gset nat)) (queue0 don : list nat)
    (s : list (gset nat) * list nat) : Prop :=
  let '(parents, queue) := s in
  length parents = length children /\
  (forall c P, parents !! c = Some P -> exists P0, parents0 !! c = Some P0 /\ P = (if decide (c ∈ don) then P0 ∖ {[parent]} else P0)) /\
  exists more, queue = queue0 ++ more /\ length more <= length don /\
    forall c, c ∈ more <-> c ∈ don /\ (c ∉ visited) /\ (parents !! c = Some ∅).

Lemma release_child_ok parent visited parents0 queue0 don parents queue c :
  c < length children -> releasing parent visited parents0 queue0 don (parents, queue) ->
  exists parents' queue', release_child parent visited (parents, queue) c = Some (parents', queue') /\
    releasing parent visited parents0 queue0 (don ++ [c]) (parents', queue').
Proof.
  intros Hc (Hl & Hp & more & -> & Hlen & Hm). unfold release_child.
  destruct (lookup_lt_is_Some_2 parents c) as [P HP]; [lia|]. rewrite HP. simpl.
  destruct (Hp c P HP) as (P0 & HP0 & HPv).
  assert (P ∖ {[parent]} = P0 ∖ {[parent]}) as HPd by (rewrite HPv; destruct (decide _); set_solver).
  assert (forall x Q, <[c := P ∖ {[parent]}]> parents !! x = Some Q -> exists Q0, parents0 !! x = Some Q0 /\
    Q = (if decide (x ∈ don ++ [c]) then Q0 ∖ {[parent]} else Q0)) as Hp'.
  { intros x Q HQ. destruct (decide (x = c)) as [->|Hne].
    - rewrite list_lookup_insert_eq in HQ by (by eapply lookup_lt_Some). injection HQ as <-. exists P0.
      rewrite decide_True by (apply elem_of_snoc; auto). by split.
    - rewrite list_lookup_insert_ne in HQ by done. destruct (Hp x Q HQ) as (Q0 & ? & ->). exists Q0. split; [done|].
      destruct (decide (x ∈ don)); [rewrite decide_True|rewrite decide_False]; rewrite ?elem_of_snoc; tauto. }
  assert (forall x, x <> c -> <[c := P ∖ {[parent]}]> parents !! x = parents !! x) as Hne
    by (intros; by apply list_lookup_insert_ne).
  assert (<[c := P ∖ {[parent]}]> parents !! c = Some (P ∖ {[parent]})) as Heq
    by (apply list_lookup_insert_eq; by eapply lookup_lt_Some).
  assert (c ∈ don -> parents !! c = Some ∅ <-> P ∖ {[parent]} = ∅) as Hagain.
  { intros Hin. rewrite HP. rewrite decide_True in HPv by done. subst P. split; [intros [= ->]; set_solver|intros H; f_equal; set_solver]. }
  destruct (negb (bool_decide (c ∈ visited)) && bool_decide (P ∖ {[parent]} = ∅)) eqn:E;
    eexists _, _; (split; [done|]); (split; [by rewrite length_insert|]); (split; [done|]).
  - apply andb_true_iff in E as [Hv%negb_true_iff%bool_decide_eq_false He%bool_decide_eq_true].
    exists (more ++ [c]). split; [by rewrite app_assoc|]. split; [rewrite !length_app; simpl; lia|]. intros x. rewrite !elem_of_app, !list_elem_of_singleton, Hm.
    destruct (decide (x = c)) as [->|Hx]; [rewrite Heq, He; naive_solver|rewrite (Hne x Hx); naive_solver].
  - exists more. split; [done|]. split; [rewrite length_app; lia|]. intros x. rewrite Hm, elem_of_snoc.
    destruct (decide (x = c)) as [->|Hx]; [|rewrite (Hne x Hx); naive_solver]. rewrite Heq.
    assert (¬ ((c ∉ visited) /\ P ∖ {[parent]} = ∅)) as Hnot.
    { intros [? Hemp]. rewrite bool_decide_false, bool_decide_true in E by done. done. }
    split; [|naive_solver]. intros (Hd & ? & Hz). destruct Hnot. split; [done|]. by apply Hagain.
Qed.

Lemma unload_visit parents parent rest visited order cs :
  closed children -> parent ∉ visited -> children !! parent = Some cs -> unloading parents (parent :: rest) visited order ->
  exists parents' queue', try_fold (release_child parent ({[parent]} ∪ visited)) (parents, rest) cs = Some (parents', queue') /\
    unloading parents' queue' ({[parent]} ∪ visited) (order ++ [parent]) /\ length queue' <= length rest + length cs.
Proof.
  intros Hcl Hpv Hcs [Hl Hp Hv Hn Hs Hr Hq Ho Hy].
  destruct (try_fold_rule (releasing parent ({[parent]} ∪ visited) parents rest) (release_child parent ({[parent]} ∪ visited)) cs (parents, rest))
    as ([parents' queue'] & E & Hl' & Hp' & more & -> & Hlen & Hm).
  { split; [done|]. split; [|exists []; rewrite app_nil_r; set_solver].
    intros c P HP. exists P. rewrite decide_False by set_solver. done. }
  { intros don c post [ps q] -> Hi. destruct (release_child_ok parent ({[parent]} ∪ visited) parents rest don ps q c) as (ps' & q' & ? & ?); [|done|by exists (ps', q')].
    eapply edge_closed; [done|]. eexists. split; [done|set_solver]. }
  exists parents', (rest ++ more). split; [done|]. split; [|rewrite length_app; lia].
  assert (forall c, edge children parent c <-> c ∈ cs) as Hedge.
  { intros c. split; [intros (ds & ? & ?); by simplify_eq|]. intros ?. by exists cs. }
  assert (forall c P, parents' !! c = Some P -> forall p, p ∈ P <-> edge children p c /\ p ∉ {[parent]} ∪ visited) as Hpar.
  { intros c P HP p. destruct (Hp' c P HP) as (P0 & HP0 & ->). specialize (Hp c P0 HP0 p). rewrite not_elem_of_union, not_elem_of_singleton.
    destruct (decide (c ∈ cs)) as [Hc|Hc]; [rewrite elem_of_difference, elem_of_singleton; tauto|].
    split; [|tauto]. intros Hin. apply Hp in Hin as [Hpc ?]. split; [done|]. split; [|done]. intros ->. by apply Hc, Hedge. }
  assert (forall v, ready visited v -> ready ({[parent]} ∪ visited) v) as Hmono.
  { intros v [? Hall]. split; [done|]. intros p Hpe. specialize (Hall p Hpe). set_solver. }
  assert (forall c, c ∈ cs -> parents' !! c = Some ∅ <-> ready ({[parent]} ∪ visited) c) as Hempty.
  { intros c Hc. destruct (lookup_lt_is_Some_2 parents' c) as [P HP].
    { rewrite Hl'. eapply edge_closed; [done|]. by apply Hedge. }
    specialize (Hpar c P HP). rewrite HP. split.
    - intros [= ->]. split; [exists parent; by apply Hedge|]. intros p Hpe.
      destruct (decide (p ∈ {[parent]} ∪ visited)); [done|]. exfalso. apply (not_elem_of_empty (C := gset nat) p), Hpar. done.
    - intros [_ Hall]. f_equal. apply set_eq. intros p. rewrite Hpar. split; [intros [?%Hall ?]; done|set_solver]. }
  constructor; try done.
  - set_solver.
  - apply NoDup_app. split_and!; [done|set_solver|apply NoDup_singleton].
  - right. destruct order; [|by destruct Hs as [[? _]|]]. destruct Hs as [[_ Hs]|]; [|done]. by simplify_eq.
  - intros v [[?|Hin%Hm]%elem_of_app|[?| ->%list_elem_of_singleton]%elem_of_app]; [apply Hr; set_solver| |apply Hr; set_solver..].
    eapply edge_closed; [done|]. by apply Hedge, Hin.
  - intros v [Hin|Hin%Hm]%elem_of_app; [destruct (Hq v); set_solver|]. right. apply Hempty; apply Hin.
  - intros before x after Heq Hx. destruct (decide (after = [])) as [->|Hne].
    + apply app_inj_tail in Heq as [-> ->]. destruct (Hq x) as [|[? Hall]]; [set_solver|done|]. split; [done|].
      intros p Hpe. by apply Hv, Hall.
    + destruct (exists_last Hne) as (after' & w & ->).
      rewrite (app_assoc before (x :: after') [w] : before ++ x :: after' ++ [w] = _) in Heq.
      apply app_inj_tail in Heq as [-> ->]. by eapply Ho.
  - intros v Hroot Hrv. destruct (decide (v ∈ {[parent]} ∪ visited)) as [|Hnv]; [by left|right].
    destruct (decide (v ∈ cs)) as [Hc|Hc].
    + apply elem_of_app. right. apply Hm. split; [done|]. split; [done|]. by apply Hempty.
    + destruct (Hy v Hroot) as [|]; [|set_solver..]. destruct Hrv as [? Hall]. split; [done|]. intros p Hpe.
      specialize (Hall p Hpe). assert (p <> parent); [|set_solver]. intros ->. by apply Hc, Hedge.
Qed.

Lemma unload_skip parents parent rest visited order :
  parent ∈ visited -> unloading parents (parent :: rest) visited order -> unloading parents rest visited order.
Proof.
  intros Hpv [Hl Hp Hv Hn Hs Hr Hq Ho Hy]. constructor; try done.
  - right. destruct Hs as [[-> _]|]; [|done]. apply Hv in Hpv. by apply not_elem_of_nil in Hpv.
  - intros v [|]; apply Hr; [left; by right|by right].
  - intros v Hin. apply Hq. by right.
  - intros v Hroot Hrv. destruct (Hy v Hroot Hrv) as [|[->|]%elem_of_cons]; auto.
Qed.

Lemma unload_queue_ok fuel parents queue visited order :
  closed children -> unloading parents queue visited order -> weight children visited + length queue <= fuel ->
  exists order' parents' visited', unload children fuel parents queue visited order = Some order' /\
    unloading parents' [] visited' order'.
Proof.
  intros Hcl. revert parents queue visited order. induction fuel as [|fuel IH]; intros parents [|parent rest] visited order Hi Hm.
  2: { simpl in Hm. lia. }
  1, 2: by exists order, parents, visited.
  simpl in *. case_bool_decide as Hv; [apply IH; [by eapply unload_skip|lia]|].
  destruct (lookup_lt_is_Some_2 children parent) as [cs Hcs]; [apply (u_range _ _ _ _ Hi); left; by left|].
  rewrite Hcs. simpl. destruct (unload_visit parents parent rest visited order cs) as (ps & q & E & Hi' & Hq); try done.
  rewrite E. simpl. apply IH; [done|]. pose proof (weight_visit children visited parent cs Hv Hcs). lia.
Qed.

(** An order whose members all get visited exists only if all get visited. *)
Lemma unload_complete parents visited order o :
  unloading parents [] visited order -> unloads o -> forall v, v < length children -> v ∈ order.
Proof.
  intros [Hl Hp Hv Hn Hs Hr Hq Ho Hy] (Hperm & Hhead & Hvalid) v Hlt.
  destruct Hs as [[_ ?]|Hs]; [done|].
  assert (root ∈ order) as Hroot by (destruct order; simplify_eq/=; by left).
  assert (forall after before, o = before ++ after -> Forall (fun x => x ∈ order) before -> Forall (fun x => x ∈ order) o) as Hall.
  { induction after as [|x after IH]; intros before Heq Hb; [by rewrite Heq, app_nil_r|].
    apply (IH (before ++ [x])); [by rewrite <- app_assoc|]. apply Forall_app. split; [done|]. constructor; [|constructor].
    destruct (decide (x = root)) as [->|Hne]; [done|]. destruct (Hvalid before x after Heq Hne) as [Hex Hpar].
    destruct (Hy x Hne) as [|?%not_elem_of_nil]; [|by apply Hv|done]. split; [done|]. intros p Hpe. apply Hv.
    rewrite Forall_forall in Hb. by apply Hb, Hpar. }
  specialize (Hall o [] eq_refl ltac:(constructor)). rewrite Forall_forall in Hall. apply Hall.
  rewrite Hperm. apply elem_of_seq. lia.
Qed.

Lemma unload_start parents :
  closed children -> root < length children -> parent_sets children = Some parents -> unloading parents [root] ∅ [].
Proof.
  intros Hcl Hr E. destruct (parent_sets_spec children Hcl) as (ps & E' & Hl & Hp). simplify_eq. constructor; try done.
  - intros c P HP p. rewrite (Hp c P HP). set_solver.
  - set_solver.
  - constructor.
  - by left.
  - intros v [->%list_elem_of_singleton|?%not_elem_of_nil]; done.
  - intros v ->%list_elem_of_singleton. by left.
  - by intros [] ? ? ?.
  - intros v _ [[p Hpe] Hall]. set_solver.
Qed.
End unload.

(** C39: the traversal returns, and it returns exactly the orders that finalize the whole group from
    its root with every other member after all its parents: [None] of the source means that the
    indices are out of range or that no such order exists. *)
Theorem local_order_exact root children :
  match local_order root children with
  | Some (Some order) => unloads children root order
  | Some None => root < length children -> closed children -> forall order, ¬ unloads children root order
  | None => False
  end.
Proof.
  unfold local_order. destruct (Nat.leb_spec (length children) root) as [|Hr]; [lia|].
  destruct (parent_sets children) as [parents|] eqn:E.
  - assert (closed children) as Hcl by (eapply all_parents_closed; exact E).
    destruct (unload_queue_ok children root (walk_fuel children) parents [root] ∅ []) as (order & ps & vs & E' & Hi); [done|by apply unload_start| |].
    { pose proof (weight_total children ∅). unfold walk_fuel. simpl. lia. }
    rewrite E'. cbn [mbind option_bind]. destruct (Nat.eqb_spec (length order) (length children)) as [Hlen|Hlen].
    + destruct Hi as [Hl Hp Hv Hn Hs Hrg Hq Ho Hy]. destruct Hs as [[_ ?]|Hs]; [done|]. split; [|done].
      apply submseteq_length_Permutation; [|rewrite length_seq; lia]. apply NoDup_submseteq; [done|].
      intros v Hin. apply elem_of_seq. specialize (Hrg v (or_intror Hin)). lia.
    + intros _ _ o Ho. apply Hlen. pose proof (u_nodup _ _ _ _ _ _ Hi) as Hn.
      rewrite <- (length_seq (length children) 0). apply Permutation_length, NoDup_Permutation; [done|apply NoDup_seq|].
      intros v. rewrite elem_of_seq. split; [intros Hin; pose proof (u_range _ _ _ _ _ _ Hi v (or_intror Hin)); lia|].
      intros [_ Hlt]. by eapply unload_complete.
  - intros _ Hcl. destruct (parent_sets_spec children Hcl) as (ps & E' & _). congruence.
Qed.
