(* ===== verification/NamespaceLayout.v ===== *)
(** * Namespaces and their lookup layout ([namespace_scope_config.rs],
      [namespace_lookup_layout.rs], [namespace.rs])

    What a namespace permits, and the layout of a load: the names of its slots (files first, then
    providers), their dependencies by index, and the local groups of [GroupLayout].  The order in
    which a [HashMap] is visited is the class [Iteration]. *)
From coqutil Require Import Byte.
From S2P Require Import Prelude ElfBase DependencyGraph GroupLayout.

#[local] Open Scope nat_scope.

(** Names are byte strings, and are the keys of maps. *)
#[export] Instance byte_eq_dec : EqDecision Byte.byte := Byte.byte_eq_dec.
#[export] Program Instance byte_countable : Countable Byte.byte := inj_countable Byte.to_N Byte.of_N _.
Next Obligation. intros b. apply Byte.of_to_N. Qed.

Inductive NamespaceError : Type :=
| Scope (detail : string)
| DuplicateSoname (soname : bytes)
| UnknownDependency (requested_by soname : bytes)
| SonameMismatch (supplied : bytes) (embedded : option bytes)
| Load (soname : bytes) (source : LoadError)
| Lifecycle (soname message : bytes).

(** ** Scopes ([namespace_scope_config.rs]) *)

Record NamespaceScopes : Type := {
  primary : gmap bytes Z; accessible : gmap Z (gset bytes); globals : gmap Z (list nat) }.

Definition namespace (p : NamespaceScopes) (name : bytes) : result Z NamespaceError :=
  match primary p !! name with
  | Some id => if (id =? 0)%Z then Err (Scope "missing primary namespace") else Ok id
  | None => Err (Scope "missing primary namespace")
  end.

Definition permits (p : NamespaceScopes) (namespace : Z) (name : bytes) : bool :=
  match accessible p !! namespace with
  | Some names => bool_decide (name ∈ names)
  | None => false
  end.

Fixpoint validate_names (p : NamespaceScopes) (names : list bytes) : result unit NamespaceError :=
  match names with
  | [] => Ok tt
  | name :: rest =>
      let? id := namespace p name in
      if negb (permits p id name) || negb (bool_decide (is_Some (globals p !! id)))
      then Err (Scope "missing namespace visibility/global scope") else validate_names p rest
  end.

Definition validate (p : NamespaceScopes) (names : list bytes) (global_count : nat) : result unit NamespaceError :=
  let? _ := validate_names p names in
  if existsb (fun '(_, indices) => existsb (fun index => global_count <=? index) indices) (map_to_list (globals p))
  then Err (Scope "invalid global image index") else Ok tt.

(** ** The layout ([namespace_lookup_layout.rs]) *)

Record Layout : Type := {
  names : list bytes; lscopes : list (list nat); lowners : list nat; ldependencies : list (list nat) }.

(** The order of [str], by bytes. *)
Fixpoint name_leb (a b : bytes) : bool :=
  match a, b with
  | [], _ => true
  | _ :: _, [] => false
  | x :: a, y :: b =>
      match N.compare (Byte.to_N x) (Byte.to_N y) with
      | Lt => true
      | Gt => false
      | Eq => name_leb a b
      end
  end.

Definition name_le (a b : bytes) : Prop := name_leb a b = true.
#[export] Instance name_le_dec : RelDecision name_le := fun a b => decide (name_leb a b = true).

Definition name_indices (names : list bytes) : gmap bytes nat :=
  foldl (fun indices '(i, name) => <[name := i]> indices) ∅ (enumerate names).

Definition needed_indices (indices : gmap bytes nat) (needed : list bytes) : list nat :=
  omap (fun name => indices !! name) needed.

Definition slot_names (files : list (bytes * list bytes)) (providers : gset bytes) : list bytes :=
  files.*1 ++ merge_sort name_le (elements providers).

Definition slot_dependencies `{!Iteration bytes (list bytes)} (files : list (bytes * list bytes)) (names : list bytes)
    (residents : gmap bytes (list bytes)) : list (list nat) :=
  let indices := name_indices names in
  let dependencies := foldl (fun d '(i, file) => <[i := needed_indices indices (snd file)]> d)
    (replicate (length names) []) (enumerate files) in
  foldl (fun d '(name, needed) =>
    match indices !! name with Some index => <[index := needed_indices indices needed]> d | None => d end)
    dependencies (Prelude.iter residents).

Fixpoint slot_namespaces (policy : option NamespaceScopes) (names : list bytes) : result (list Z) NamespaceError :=
  match names with
  | [] => Ok []
  | name :: rest =>
      let? id := match policy with Some policy => namespace policy name | None => Ok 0%Z end in
      let? ids := slot_namespaces policy rest in Ok (id :: ids)
  end.

Definition slot_permits (policy : option NamespaceScopes) (names : list bytes) (namespace : Z) (image : nat) : bool :=
  match policy with Some policy => permits policy namespace (default [] (names !! image)) | None => true end.

Definition layout_scoped `{!Iteration bytes (list bytes)} (root : nat) (files : list (bytes * list bytes))
    (providers : gset bytes) (residents : gmap bytes (list bytes)) (policy : option NamespaceScopes)
    : option (result Layout NamespaceError) :=
  let names := slot_names files providers in
  let dependencies := slot_dependencies files names residents in
  let! namespaces := Some (slot_namespaces policy names) in
  match plan root (length files) namespaces dependencies (slot_permits policy names) with
  | Some (Ok layout) =>
      Some (Ok {| names := names; lscopes := scopes layout; lowners := owners layout; ldependencies := dependencies |})
  | Some (Err detail) => Some (Err (Scope detail))
  | None => None
  end.

(** ** Slots *)

Lemma enumerate_snoc {A} (l : list A) x : enumerate (l ++ [x]) = enumerate l ++ [(length l, x)].
Proof.
  unfold enumerate. rewrite length_app. simpl. rewrite Nat.add_1_r, seq_S, zip_with_app; [done|apply length_seq].
Qed.

Lemma name_indices_lookup l name i : name_indices l !! name = Some i -> l !! i = Some name.
Proof.
  unfold name_indices. revert i. induction l as [|x l IH] using rev_ind; intros i; [done|].
  rewrite enumerate_snoc, foldl_app. simpl. intros [[-> <-]|[Hne H%IH]]%lookup_insert_Some.
  - apply list_lookup_middle. done.
  - by apply lookup_app_l_Some.
Qed.

Lemma name_indices_total l name : name ∈ l -> is_Some (name_indices l !! name).
Proof.
  unfold name_indices. induction l as [|x l IH] using rev_ind; [by intros ?%not_elem_of_nil|].
  rewrite enumerate_snoc, foldl_app, elem_of_snoc. simpl. intros [Hin| ->]; [|by rewrite lookup_insert_eq].
  destruct (decide (x = name)) as [->|]; [by rewrite lookup_insert_eq|]. rewrite lookup_insert_ne by done. auto.
Qed.

(** Without duplicates the index of a name is its slot. *)
Lemma name_indices_nodup l name i : NoDup l -> name_indices l !! name = Some i <-> l !! i = Some name.
Proof.
  intros Hn. split; [apply name_indices_lookup|]. intros Hi.
  destruct (name_indices_total l name) as [j Hj]; [by eapply list_elem_of_lookup_2|].
  rewrite Hj. f_equal. eapply NoDup_lookup; [done|by apply name_indices_lookup|done].
Qed.

Lemma needed_indices_range l needed : Forall (fun y => y < length l) (needed_indices (name_indices l) needed).
Proof.
  rewrite Forall_forall. intros y (name & _ & Hy)%list_elem_of_omap. apply name_indices_lookup in Hy. by eapply lookup_lt_Some.
Qed.

Lemma length_foldl_insert {A B} (f : A → B) (ps : list (nat * A)) (d : list B) :
  length (foldl (fun d '(i, x) => <[i := f x]> d) d ps) = length d.
Proof. revert d. induction ps as [|[j y] ps IH]; intros d; [done|]. simpl. by rewrite IH, length_insert. Qed.

Lemma foldl_enumerate_insert {A B} (f : A → B) (l : list A) (d : list B) i :
  foldl (fun d '(i, x) => <[i := f x]> d) d (enumerate l) !! i =
  match l !! i with Some x => if decide (i < length d) then Some (f x) else None | None => d !! i end.
Proof.
  induction l as [|x l IH] using rev_ind; [done|]. rewrite enumerate_snoc, foldl_app. simpl.
  pose proof (length_foldl_insert f (enumerate l) d) as Hlen.
  destruct (decide (i = length l)) as [->|Hne].
  - rewrite (list_lookup_middle l [] x (length l)) by done. rewrite list_lookup_insert, Hlen.
    destruct (decide (_ /\ _)) as [[_ ?]|Hd]; [by rewrite decide_True|]. rewrite decide_False by naive_solver. rewrite IH.
    rewrite lookup_ge_None_2 by lia. apply lookup_ge_None_2. naive_solver lia.
  - rewrite list_lookup_insert_ne by done. rewrite IH. destruct (decide (i < length l)) as [Hlt|].
    + by rewrite lookup_app_l.
    + rewrite !(lookup_ge_None_2 l), (lookup_ge_None_2 (l ++ [x])); [done|rewrite length_app; simpl; lia|lia].
Qed.

Lemma foldl_resident_insert {B : Type} (indices : gmap bytes nat) (f : list bytes → B) kvs (d : list B) i :
  NoDup kvs.*1 -> (forall a b j, indices !! a = Some j -> indices !! b = Some j -> a = b) -> i < length d ->
  let d' := foldl (fun d '(name, needed) => match indices !! name with Some index => <[index := f needed]> d | None => d end) d kvs in
  length d' = length d /\
  ((exists name needed, (name, needed) ∈ kvs /\ indices !! name = Some i /\ d' !! i = Some (f needed)) \/
   ((forall name needed, (name, needed) ∈ kvs -> indices !! name <> Some i) /\ d' !! i = d !! i)).
Proof.
  intros Hn Hinj Hi. revert d Hi. induction kvs as [|[name needed] kvs IH]; intros d Hi; simpl.
  { split; [done|]. right. split; [by intros ? ? ?%not_elem_of_nil|done]. }
  inv Hn. set (d1 := match indices !! name with Some index => <[index := f needed]> d | None => d end).
  assert (length d1 = length d) as Hl by (unfold d1; destruct (indices !! name); [apply length_insert|done]).
  destruct (IH ltac:(done) d1 ltac:(lia)) as [Hlen [(a & b & ? & ? & ?)|[Hnot Heq]]]; (split; [lia|]).
  { left. exists a, b. split; [by right|done]. }
  unfold d1 in Heq. destruct (decide (indices !! name = Some i)) as [Hname|Hname].
  - left. exists name, needed. split; [by left|]. split; [done|]. fold d1 in Heq. unfold d1 in Heq at 2.
    rewrite Hname in Heq. rewrite Heq. by apply list_lookup_insert_eq.
  - right. split.
    + intros a b [[= -> ->]|]%elem_of_cons; [done|by eapply Hnot].
    + fold d1 in Heq. rewrite Heq. unfold d1. destruct (indices !! name) as [j|] eqn:Ej; [|done].
      apply list_lookup_insert_ne. congruence.
Qed.

(** What a slot needs: a resident's recorded dependencies, or else those of its file. *)
Definition slot_needs (files : list (bytes * list bytes)) (residents : gmap bytes (list bytes)) (i : nat) (name : bytes) : list bytes :=
  match residents !! name with
  | Some needed => needed
  | None => match files !! i with Some file => file.2 | None => [] end
  end.

Lemma slot_dependencies_spec `{!Iteration bytes (list bytes)} files l residents i name :
  l !! i = Some name -> NoDup l ->
  length (slot_dependencies files l residents) = length l /\
  slot_dependencies files l residents !! i = Some (needed_indices (name_indices l) (slot_needs files residents i name)).
Proof.
  intros Hi Hn. assert (i < length l) as Hlt by by eapply lookup_lt_Some. unfold slot_dependencies.
  set (d := foldl (fun d '(i, file) => <[i := needed_indices (name_indices l) (snd file)]> d) (replicate (length l) []) (enumerate files)).
  assert (length d = length l) as Hd by (unfold d; rewrite (length_foldl_insert (fun file => needed_indices (name_indices l) (snd file))); apply length_replicate).
  assert (d !! i = Some (needed_indices (name_indices l) (match files !! i with Some file => file.2 | None => [] end))) as Hdi.
  { unfold d. rewrite (foldl_enumerate_insert (fun file => needed_indices (name_indices l) (snd file))).
    destruct (files !! i) as [file|]; [by rewrite decide_True by (by rewrite length_replicate)|]. by apply lookup_replicate_2. }
  destruct (foldl_resident_insert (name_indices l) (needed_indices (name_indices l)) (Prelude.iter residents) d i) as [Hlen Hv]; [|by intros a b j ?%name_indices_lookup ?%name_indices_lookup; simplify_eq|lia|].
  { rewrite iter_perm. apply NoDup_fst_map_to_list. }
  split; [lia|]. unfold slot_needs. destruct Hv as [(a & needed & Hin & Ha & ->)|[Hnot ->]].
  - rewrite iter_perm in Hin. apply elem_of_map_to_list in Hin. apply name_indices_lookup in Ha. simplify_eq. by rewrite Hin.
  - rewrite Hdi. destruct (residents !! name) as [needed|] eqn:E; [|done]. exfalso.
    apply (Hnot name needed); [by rewrite iter_perm, elem_of_map_to_list|]. by apply name_indices_nodup.
Qed.

Lemma slot_dependencies_closed `{!Iteration bytes (list bytes)} files l residents :
  NoDup l -> l <> [] -> length (slot_dependencies files l residents) = length l /\ closed (slot_dependencies files l residents).
Proof.
  intros Hn Hne. assert (length (slot_dependencies files l residents) = length l) as Hl.
  { destruct l as [|name l]; [done|]. by apply (slot_dependencies_spec files (name :: l) residents 0 name). }
  split; [done|]. unfold closed. rewrite Forall_forall. intros cs [i Hi]%list_elem_of_lookup.
  destruct (lookup_lt_is_Some_2 l i) as [name Hname]; [apply lookup_lt_Some in Hi; lia|].
  destruct (slot_dependencies_spec files l residents i name Hname Hn) as [_ E]. simplify_eq. rewrite Hl. apply needed_indices_range.
Qed.

Lemma slot_namespaces_ok policy l ids :
  slot_namespaces policy l = Ok ids -> length ids = length l /\ forall i name, l !! i = Some name ->
    exists id, ids !! i = Some id /\ match policy with Some p => namespace p name = Ok id | None => id = 0%Z end.
Proof.
  revert ids. induction l as [|name l IH]; intros ids H; simpl in H; [by simplify_eq|].
  destruct (match policy with Some p => namespace p name | None => Ok 0%Z end) as [id|e] eqn:E; [|done].
  destruct (slot_namespaces policy l) as [ids'|e]; [|done]. simplify_eq. destruct (IH ids' eq_refl) as [Hl Hi].
  split; [simpl; by rewrite Hl|]. intros [|i] n Hn; simplify_eq/=; [|by apply Hi].
  exists id. split; [done|]. by destruct policy; simplify_eq.
Qed.

Lemma slot_namespaces_none l : slot_namespaces None l = Ok (replicate (length l) 0%Z).
Proof. induction l as [|name l IH]; [done|]. simpl. by rewrite IH. Qed.

Section theorems.
Context `{!Iteration bytes (list bytes)} (root : nat) (files : list (bytes * list bytes)) (providers : gset bytes)
  (residents : gmap bytes (list bytes)).

Lemma layout_graph :
  NoDup (slot_names files providers) -> root < length files ->
  let d := slot_dependencies files (slot_names files providers) residents in
  length d = length (slot_names files providers) /\ closed d /\ root < length files <= length d.
Proof.
  intros Hn Hr d. assert (slot_names files providers <> []) as Hne by (unfold slot_names; destruct files; simpl in *; [lia|done]).
  destruct (slot_dependencies_closed files (slot_names files providers) residents Hn Hne) as [Hl Hcl].
  split_and!; try done. unfold d. rewrite Hl. unfold slot_names. rewrite length_app, length_fmap. lia.
Qed.

(** With one namespace, files that are all reached from the root form one group: the layout is
    found, every file is owned by the root, and every file looks its symbols up in the same
    breadth-first list, which starts at the root and holds exactly the slots the root reaches. *)
Theorem single_namespace_layout :
  NoDup (slot_names files providers) -> root < length files ->
  (forall i, i < length files -> reach (slot_dependencies files (slot_names files providers) residents) root i) ->
  exists l scope, layout_scoped root files providers residents None = Some (Ok l) /\
    names l = slot_names files providers /\ lowners l = replicate (length files) root /\
    (forall i, i < length files -> lscopes l !! i = Some scope) /\
    breadth_first (ldependencies l) (fun _ => true) root scope /\
    forall j, j ∈ scope <-> reach (ldependencies l) root j.
Proof.
  intros Hn Hr Hall. destruct (layout_graph Hn Hr) as (Hl & Hcl & Hle). unfold layout_scoped. rewrite slot_namespaces_none.
  set (d := slot_dependencies files (slot_names files providers) residents) in *.
  assert (forall j, (exists k, near d (fun _ => true) root k j) <-> reach d root j) as Hnear.
  { intros j. unfold near. unfold reach. rewrite rtc_nsteps. split.
    - intros (k & Hk). by apply rtc_nsteps, (near_reach d (fun _ => true) root k).
    - intros (k & Hk). exists k. split; [done|]. eapply nsteps_congruence with (f := id); [|exact Hk]. by intros x y ?. }
  pose proof (plan_in_range root (length files) (replicate (length (slot_names files providers)) 0%Z) d (slot_permits None (slot_names files providers))
    ltac:(lia) ltac:(by rewrite length_replicate) Hcl) as Hp. destruct Hp as (rs & ((others & ->) & Hnd & Hrs) & Hp).
  assert (others = []) as ->.
  { destruct others as [|c others]; [done|]. exfalso. assert (c ∈ root :: c :: others) as [->|(p & _ & He & Hc & Hns)]%Hrs by set_solver.
    - apply NoDup_cons in Hnd as [Hnd _]. set_solver.
    - apply Hns. destruct (edge_closed _ _ _ Hcl He) as [? ?]. by rewrite !lookup_replicate_2 by lia. }
  assert (forall i, i < length files -> serves (replicate (length (slot_names files providers)) 0%Z) d (slot_permits None (slot_names files providers)) root i) as Hserves.
  { intros i Hi. destruct (proj2 (Hnear i) (Hall i Hi)) as [k Hk]. exists 0%Z, k. by rewrite !lookup_replicate_2 by lia. }
  destruct (plan _ _ _ _ _) as [[lay|e]|]; [|destruct Hp as (i & Hi & Hnot); destruct (Hnot root); [set_solver|by apply Hserves]|done].
  destruct Hp as (_ & Hlen & Hown). destruct (walk_breadth_first d (fun _ => true) root Hcl) as (scope & Ew & Hb); [lia|].
  assert (forall i, i < length files -> owners lay !! i = Some root /\ scopes lay !! i = Some scope) as Heach.
  { intros i Hi. destruct (Hown i Hi) as (b & r & a & n & g & Heq & _ & _ & Ho & Hs & _ & Hw & _).
    destruct b as [|? [|??]]; simplify_eq/=. destruct (owners lay !! i); simplify_eq/=. split; [done|].
    rewrite Hs. f_equal. unfold slot_permits in Hw. congruence. }
  eexists _, scope. split; [done|]. simpl. split_and!; [done| |by intros i Hi; apply Heach|done|by intros j; rewrite (bf_members _ _ _ _ Hb)].
  apply list_eq. intros i. destruct (decide (i < length files)) as [Hi|Hi].
  - rewrite lookup_replicate_2 by done. by apply Heach.
  - rewrite !lookup_ge_None_2; [done|rewrite length_replicate; lia|lia].
Qed.

End theorems.

(** A root with a provider and a child that needs a second provider; the provider [x70] is listed
    before [x71]. *)
Definition example_files : list (bytes * list bytes) :=
  [([Byte.x61], [[Byte.x70]; [Byte.x62]]); ([Byte.x62], [[Byte.x61]; [Byte.x71]])].
Definition example_providers : gset bytes := {[ [Byte.x71]; [Byte.x70] ]}.
Definition example_policy : NamespaceScopes :=
  {| primary := list_to_map [([Byte.x61], 10%Z); ([Byte.x62], 10%Z); ([Byte.x70], 20%Z); ([Byte.x71], 20%Z)];
     accessible := {[ 10%Z := {[ [Byte.x61]; [Byte.x62]; [Byte.x70] ]} ]}; globals := {[ 10%Z := [] ]} |}.

Lemma example_slots : NoDup (slot_names example_files example_providers).
Proof. apply (bool_decide_unpack _). vm_compute. exact I. Qed.

Lemma single_namespace_layout_witness :
  exists l, layout_scoped 0 example_files example_providers ∅ None = Some (Ok l) /\ lowners l = [0; 0].
Proof.
  destruct (single_namespace_layout 0 example_files example_providers ∅) as (l & scope & E & _ & Ho & _).
  - apply example_slots.
  - simpl. lia.
  - intros i Hi. simpl in Hi. destruct i as [|[|]]; [apply reach_refl| |lia].
    apply reach_edge. exists [2; 1]. split; [vm_compute; reflexivity|set_solver].
  - exists l. split; [exact E|]. exact Ho.
Defined.

