(* ===== verification/NamespaceSymbols.v ===== *)
(** * Symbol lookup in a namespace ([namespace_symbols.rs], [namespace_android_versions.rs])

    The resolver a graph gives to the relocation of one of its images: the global catalogs first,
    then the slots of the image's local group in order, where a provider's slot asks the caller's
    resolver.  It is an instance of [SymbolResolver].  An index out of range is [None]. *)
From stdpp Require Import strings.
From S2P Require Import Prelude ElfBase ElfImage ElfRelocate DependencyGraph NamespaceLayout.
#[local] Open Scope Z_scope.

(** ** Versions ([namespace_android_versions.rs]) *)

(** The index of a requested version: that of a definition of the name, or [VER_NDX_GLOBAL]. *)
Definition requested_index `{!Iteration Z bytes} (definitions : gmap Z bytes) (requested : bytes) : Z :=
  match find (fun '(_, name) => bool_decide (name = requested)) (Prelude.iter definitions) with
  | Some (index, _) => index
  | None => VER_NDX_GLOBAL
  end.

Definition export_matches `{!Iteration Z bytes} (definitions : option (gmap Z bytes)) (version : option bytes)
    (export : ExportedSymbol) : bool :=
  match version, definitions with
  | None, _ => negb (version_hidden export)
  | Some _, None => true
  | Some requested, Some definitions =>
      match version_index export with
      | Some raw => Z.land raw (Z.lxor 0xffff VERSYM_HIDDEN) =? requested_index definitions requested
      | None => false
      end
  end.

Definition selected_export `{!Iteration Z bytes} (catalog : list ExportedSymbol) (definitions : option (gmap Z bytes))
    (name : bytes) (version : option bytes) : option Z :=
  address <$> find (fun export => bool_decide (ename export = name) && export_matches definitions version export) catalog.

(** ** The resolver *)

Inductive BindingSource : Type := Local (index : nat) | Resident (index : nat).
#[export] Instance binding_source_eq_dec : EqDecision BindingSource.
Proof. solve_decision. Defined.

Record GraphResolver (R : Type) : Type := {
  global_sources : list BindingSource; bindings : list BindingSource;
  global_catalog : list (list ExportedSymbol); global_versions : list (option (gmap Z bytes));
  requester : nat; object_sonames : list bytes; group_scopes : list (list nat);
  catalog : list (list ExportedSymbol); slot_versions : list (option (gmap Z bytes));
  provider_sonames : gset bytes; external : R }.
Arguments global_sources {R}. Arguments bindings {R}. Arguments global_catalog {R}. Arguments global_versions {R}.
Arguments requester {R}. Arguments object_sonames {R}. Arguments group_scopes {R}. Arguments catalog {R}.
Arguments slot_versions {R}. Arguments provider_sonames {R}. Arguments external {R}.

Section resolver.
Context {R : Type} `{!SymbolResolver R, !Iteration Z bytes}.

Definition set_bindings (r : GraphResolver R) (b : list BindingSource) : GraphResolver R :=
  {| global_sources := global_sources r; bindings := b; global_catalog := global_catalog r;
     global_versions := global_versions r; requester := requester r; object_sonames := object_sonames r;
     group_scopes := group_scopes r; catalog := catalog r; slot_versions := slot_versions r;
     provider_sonames := provider_sonames r; external := external r |}.
Definition set_external (r : GraphResolver R) (x : R) : GraphResolver R :=
  {| global_sources := global_sources r; bindings := bindings r; global_catalog := global_catalog r;
     global_versions := global_versions r; requester := requester r; object_sonames := object_sonames r;
     group_scopes := group_scopes r; catalog := catalog r; slot_versions := slot_versions r;
     provider_sonames := provider_sonames r; external := x |}.

(** [if !self.bindings.contains(&source) { self.bindings.push(source) }]. *)
Definition record_binding (r : GraphResolver R) (source : BindingSource) : GraphResolver R :=
  if bool_decide (source ∈ bindings r) then r else set_bindings r (bindings r ++ [source]).

Fixpoint global_loop (r : GraphResolver R) (name : bytes) (version : option bytes) (todo : list (nat * list ExportedSymbol))
    : option (GraphResolver R * option Z) :=
  match todo with
  | [] => Some (r, None)
  | (index, exports) :: todo =>
      definitions ← global_versions r !! index;
      match selected_export exports definitions name version with
      | Some address => source ← global_sources r !! index; Some (record_binding r source, Some address)
      | None => global_loop r name version todo
      end
  end.

Definition global_lookup (r : GraphResolver R) (name : bytes) (version : option bytes) : option (GraphResolver R * option Z) :=
  global_loop r name version (enumerate (global_catalog r)).

(** [NonZeroUsize::new(address).ok_or_else(...)]. *)
Definition nonzero (address : Z) : result Z ResolveError :=
  if address =? 0 then Err (Rejected (name_bytes "ELF export has null address")) else Ok address.

(** The loops over the slots of [graph_lookup] and [resolve_defined]: [ask] is the request a
    provider gets, [check] what is asked of an address before its slot is recorded. *)
Fixpoint slot_loop (ask : bytes -> result SymbolRequest ResolveError) (check : Z -> result Z ResolveError) (name : bytes)
    (version : option bytes) (indices : list nat) (r : GraphResolver R) : option (GraphResolver R * result (option Z) ResolveError) :=
  match indices with
  | [] => Some (r, Ok None)
  | index :: indices =>
      soname ← object_sonames r !! index;
      if bool_decide (soname ∈ provider_sonames r) then
        match ask soname with
        | Err e => Some (r, Err e)
        | Ok request =>
            let '(x, answer) := resolve (external r) request in
            match answer with
            | Err e => Some (set_external r x, Err e)
            | Ok (Some address) => Some (record_binding (set_external r x) (Local index), Ok (Some address))
            | Ok None => slot_loop ask check name version indices (set_external r x)
            end
        end
      else
        exports ← catalog r !! index; definitions ← slot_versions r !! index;
        match selected_export exports definitions name version with
        | Some address =>
            match check address with
            | Err e => Some (r, Err e)
            | Ok address => Some (record_binding r (Local index), Ok (Some address))
            end
        | None => slot_loop ask check name version indices r
        end
  end.

(** The slots a request is looked up in: the whole group, or the one that carries the version. *)
Fixpoint find_soname (r : GraphResolver R) (soname : bytes) (scope : list nat) : option (option nat) :=
  match scope with
  | [] => Some None
  | index :: scope =>
      name ← object_sonames r !! index; if bool_decide (name = soname) then Some (Some index) else find_soname r soname scope
  end.

(** [provider_has_symbol]. *)
Fixpoint has_symbol (r : GraphResolver R) (soname symbol : bytes) (scope : list nat) : option bool :=
  match scope with
  | [] => Some false
  | index :: scope =>
      name ← object_sonames r !! index;
      if bool_decide (name = soname) then
        exports ← catalog r !! index;
        if existsb (fun export => bool_decide (ename export = symbol)) exports then Some true else has_symbol r soname symbol scope
      else has_symbol r soname symbol scope
  end.

Definition graph_lookup (r : GraphResolver R) (symbol : bytes) (version : option VersionRequirement) (is_weak : bool)
    : option (GraphResolver R * result (option Z) ResolveError) :=
  scope ← group_scopes r !! requester r;
  let ask soname := Ok {| symbol := symbol; needed_libraries := [soname]; requested_version := version; is_weak := is_weak |} in
  match version with
  | None => slot_loop ask Ok symbol None scope r
  | Some requirement =>
      found ← find_soname r (vsoname requirement) scope;
      match found with
      | None => Some (r, Err (UnknownSoname (vsoname requirement)))
      | Some index =>
          match slot_loop ask Ok symbol (Some (vname requirement)) [index] r with
          | Some (r, Ok None) =>
              mismatch ← has_symbol r (vsoname requirement) symbol scope;
              Some (r, if (mismatch : bool) then Err (VersionMismatch (vsoname requirement) symbol (vname requirement)) else Ok None)
          | other => other
          end
      end
  end.

Definition graph_resolve_defined (r : GraphResolver R) (name : bytes) (version : option bytes)
    : option (GraphResolver R * result (option Z) ResolveError) :=
  '(r, found) ← global_lookup r name version;
  match found with
  | Some address => Some (r, result_map Some (nonzero address))
  | None =>
      scope ← group_scopes r !! requester r;
      let ask soname :=
        if negb (from_utf8 name) then Err (Rejected (name_bytes "native symbol name is not UTF-8"))
        else Ok {| symbol := name; needed_libraries := [soname];
                   requested_version := (fun v => {| vsoname := soname; vname := v; vhidden := false; vflags := 0 |}) <$> version;
                   is_weak := false |} in
      match slot_loop ask nonzero name version scope r with
      | Some (r, Ok None) => Some (r, Err (Rejected (name_bytes "definition absent from its local group")))
      | other => other
      end
  end.

Definition graph_resolve (r : GraphResolver R) (request : SymbolRequest) : option (GraphResolver R * result (option Z) ResolveError) :=
  '(r, found) ← global_lookup r (symbol request) (vname <$> requested_version request);
  match found with
  | Some address => Some (r, result_map Some (nonzero address))
  | None =>
      match graph_lookup r (symbol request) (requested_version request) (is_weak request) with
      | Some (r, Ok (Some address)) => Some (r, result_map Some (nonzero address))
      | other => other
      end
  end.

(** The resolver as relocation uses it; an index out of range cannot happen ([resolver_ok]). *)
Definition or_reject (r : GraphResolver R) (answer : option (GraphResolver R * result (option Z) ResolveError))
    : GraphResolver R * result (option Z) ResolveError :=
  default (r, Err (Rejected (name_bytes "index out of bounds"))) answer.

#[export] Instance graph_resolver : SymbolResolver (GraphResolver R) :=
  {| resolve_defined r name version := or_reject r (graph_resolve_defined r name version);
     resolve r request := or_reject r (graph_resolve r request) |}.

(** ** Lookups *)

(** The tables of a resolver cover the slots its requester is looked up in. *)
Record resolver_ok (r : GraphResolver R) : Prop := {
  rok_scope : exists scope, group_scopes r !! requester r = Some scope /\
    Forall (fun j => (j < length (object_sonames r) /\ j < length (catalog r) /\ j < length (slot_versions r))%nat) scope;
  rok_versions : length (global_versions r) = length (global_catalog r);
  rok_sources : length (global_sources r) = length (global_catalog r) }.

(** A lookup changes only the recorded bindings, which grow, and the caller's resolver. *)
Definition looked_up (r r' : GraphResolver R) : Prop :=
  r' = set_external (set_bindings r (bindings r')) (external r') /\ bindings r `prefix_of` bindings r'.

(** An image of the global catalog, or of a slot, exports the symbol. *)
Definition global_match (r : GraphResolver R) (name : bytes) (version : option bytes) (i : nat) (a : Z) : Prop :=
  exists exports definitions, global_catalog r !! i = Some exports /\ global_versions r !! i = Some definitions /\
    selected_export exports definitions name version = Some a.
Definition is_provider (r : GraphResolver R) (j : nat) : Prop :=
  exists soname, object_sonames r !! j = Some soname /\ soname ∈ provider_sonames r.
Definition slot_match (r : GraphResolver R) (name : bytes) (version : option bytes) (j : nat) (a : Z) : Prop :=
  ~ is_provider r j /\ exists exports definitions, catalog r !! j = Some exports /\ slot_versions r !! j = Some definitions /\
    selected_export exports definitions name version = Some a.

Lemma looked_up_refl r : looked_up r r.
Proof. split; [by destruct r|done]. Qed.

Lemma looked_up_trans r1 r2 r3 : looked_up r1 r2 -> looked_up r2 r3 -> looked_up r1 r3.
Proof. intros [E1 P1] [E2 P2]. split; [rewrite E2, E1; done|by etrans]. Qed.

Lemma looked_up_external r x : looked_up r (set_external r x).
Proof. by split. Qed.

Lemma record_binding_ok r source : looked_up r (record_binding r source) /\ source ∈ bindings (record_binding r source).
Proof.
  unfold record_binding. case_bool_decide as Hin; [split; [apply looked_up_refl|done]|].
  split; [split; [done|by apply prefix_app_r]|]. simpl. apply elem_of_snoc. by right.
Qed.

Lemma looked_up_match r r' name version j a : looked_up r r' -> slot_match r' name version j a <-> slot_match r name version j a.
Proof. intros [-> _]. done. Qed.

Lemma looked_up_provider r r' j : looked_up r r' -> is_provider r' j <-> is_provider r j.
Proof. intros [-> _]. done. Qed.

Lemma looked_up_ok r r' : looked_up r r' -> resolver_ok r -> resolver_ok r'.
Proof. intros [-> _] []. by constructor. Qed.

Definition in_tables (r : GraphResolver R) (j : nat) : Prop :=
  (j < length (object_sonames r) /\ j < length (catalog r) /\ j < length (slot_versions r))%nat.

(** The outcome of a loop over slots. *)
Definition slot_answer (r : GraphResolver R) (check : Z -> result Z ResolveError) (name : bytes) (version : option bytes)
    (indices : list nat) (answer : option (GraphResolver R * result (option Z) ResolveError)) : Prop :=
  match answer with
  | Some (r', Ok (Some a)) => looked_up r r' /\ exists before j after, indices = before ++ j :: after /\ Local j ∈ bindings r' /\
      (forall i b, i ∈ before -> ~ slot_match r name version i b) /\
      (is_provider r j \/ exists b, slot_match r name version j b /\ check b = Ok a)
  | Some (r', Ok None) => looked_up r r' /\ bindings r' = bindings r /\ forall i b, i ∈ indices -> ~ slot_match r name version i b
  | Some (r', Err _) => looked_up r r' /\ bindings r' = bindings r
  | None => False
  end.

Lemma slot_answer_cons r r' check name version j indices answer :
  looked_up r r' -> bindings r' = bindings r -> (forall b, ~ slot_match r name version j b) ->
  slot_answer r' check name version indices answer -> slot_answer r check name version (j :: indices) answer.
Proof.
  intros Hr Hb Hj. destruct answer as [[r2 [[a|]|e]]|]; simpl; [| | |done].
  - intros (H2 & before & k & after & -> & Hin & Hbefore & Hk). split; [by eapply looked_up_trans|].
    exists (j :: before), k, after. split; [done|]. split; [done|]. split.
    + intros i b [->|Hi]%elem_of_cons; [apply Hj|]. rewrite <- (looked_up_match r r') by done. by apply Hbefore.
    + setoid_rewrite (looked_up_match r r' _ _ _ _ Hr) in Hk. by rewrite (looked_up_provider r r') in Hk.
  - intros (H2 & Hb2 & Hall). split; [by eapply looked_up_trans|]. split; [congruence|].
    intros i b [->|Hi]%elem_of_cons; [apply Hj|]. rewrite <- (looked_up_match r r') by done. by apply Hall.
  - intros (H2 & Hb2). split; [by eapply looked_up_trans|congruence].
Qed.

Lemma slot_loop_ok ask check name version indices r :
  Forall (in_tables r) indices -> slot_answer r check name version indices (slot_loop ask check name version indices r).
Proof.
  revert r. induction indices as [|j indices IH]; intros r Hf.
  { split; [apply looked_up_refl|]. split; [done|]. by intros i b ?%not_elem_of_nil. }
  apply Forall_cons in Hf as [(Hs & Hc & Hv) Hf]. simpl.
  destruct (lookup_lt_is_Some_2 _ _ Hs) as [soname Es]. rewrite Es. simpl. case_bool_decide as Hp.
  - assert (is_provider r j) as Hprov by by exists soname.
    destruct (ask soname) as [request|e]; [|by split; [apply looked_up_refl|]].
    destruct (resolve (external r) request) as [x [[a|]|e]].
    + destruct (record_binding_ok (set_external r x) (Local j)) as [Hl Hin]. split.
      { eapply looked_up_trans; [apply looked_up_external|done]. }
      exists [], j, indices. split_and!; try done; [by intros i b ?%not_elem_of_nil|by left].
    + eapply slot_answer_cons; [apply looked_up_external|done|by intros b [? _]|]. apply IH.
      eapply Forall_impl; [exact Hf|]. done.
    + by split; [apply looked_up_external|].
  - assert (~ is_provider r j) as Hprov by (intros (s & ? & ?); by simplify_eq).
    destruct (lookup_lt_is_Some_2 _ _ Hc) as [exports Ec]. destruct (lookup_lt_is_Some_2 _ _ Hv) as [definitions Ev].
    rewrite Ec, Ev. simpl. destruct (selected_export exports definitions name version) as [a|] eqn:E.
    + destruct (check a) as [a'|e] eqn:Ek; [|by split; [apply looked_up_refl|]].
      destruct (record_binding_ok r (Local j)) as [Hl Hin]. split; [done|].
      exists [], j, indices. split_and!; try done; [by intros i b ?%not_elem_of_nil|]. right. exists a. split; [|done].
      split; [done|]. by exists exports, definitions.
    + eapply slot_answer_cons; [apply looked_up_refl|done| |by apply IH].
      intros b (_ & ex & de & ? & ? & ?). by simplify_eq.
Qed.

Definition global_answer (r : GraphResolver R) (name : bytes) (version : option bytes) (answer : option (GraphResolver R * option Z)) : Prop :=
  match answer with
  | Some (r', Some a) => looked_up r r' /\ exists i source, global_sources r !! i = Some source /\ source ∈ bindings r' /\
      global_match r name version i a /\ forall k b, (k < i)%nat -> ~ global_match r name version k b
  | Some (r', None) => r' = r /\ forall i b, ~ global_match r name version i b
  | None => False
  end.

Lemma global_lookup_ok r name version : resolver_ok r -> global_answer r name version (global_lookup r name version).
Proof.
  intros [_ Hv Hs]. unfold global_lookup.
  assert (forall n k, (k + n = length (global_catalog r))%nat -> (forall i b, (i < k)%nat -> ~ global_match r name version i b) ->
    global_answer r name version (global_loop r name version (drop k (enumerate (global_catalog r))))) as H.
  { induction n as [|n IH]; intros k Hk Hno.
    - rewrite drop_ge by (rewrite length_enumerate; lia). split; [done|]. intros i b Hm.
      apply (Hno i b); [|done]. destruct Hm as (ex & de & Hi & _). apply lookup_lt_Some in Hi. lia.
    - destruct (lookup_lt_is_Some_2 (global_catalog r) k) as [exports Ee]; [lia|].
      destruct (lookup_lt_is_Some_2 (global_versions r) k) as [definitions Ed]; [lia|].
      destruct (lookup_lt_is_Some_2 (global_sources r) k) as [source Es]; [lia|].
      rewrite (drop_S _ _ _ (lookup_enumerate _ _ _ Ee)). simpl. rewrite Ed. simpl.
      destruct (selected_export exports definitions name version) as [a|] eqn:E.
      + rewrite Es. simpl. destruct (record_binding_ok r source) as [Hl Hin]. split; [done|]. exists k, source.
        split; [done|]. split; [done|]. split; [|done]. by exists exports, definitions.
      + apply IH; [lia|]. intros i b Hi Hm. destruct (decide (i = k)) as [->|]; [|apply (Hno i b); [lia|done]].
        destruct Hm as (ex & de & ? & ? & ?). simplify_eq. }
  apply (H (length (global_catalog r)) 0%nat); [done|]. intros i b Hi. lia.
Qed.

Lemma find_soname_ok r soname scope :
  Forall (in_tables r) scope -> match find_soname r soname scope with
  | Some (Some j) => exists before after, scope = before ++ j :: after /\ object_sonames r !! j = Some soname /\
      forall i, i ∈ before -> object_sonames r !! i <> Some soname
  | Some None => forall i, i ∈ scope -> object_sonames r !! i <> Some soname
  | None => False
  end.
Proof.
  induction scope as [|j scope IH]; intros Hf; simpl; [by intros i ?%not_elem_of_nil|].
  apply Forall_cons in Hf as [(Hs & _) Hf]. destruct (lookup_lt_is_Some_2 _ _ Hs) as [name Es]. rewrite Es. simpl.
  case_bool_decide as Hn.
  - subst name. exists [], scope. split_and!; try done. by intros i ?%not_elem_of_nil.
  - specialize (IH Hf). destruct (find_soname r soname scope) as [[k|]|]; [| |done].
    + destruct IH as (before & after & -> & ? & Hb). exists (j :: before), after. split_and!; try done.
      intros i [->|Hi]%elem_of_cons; [congruence|by apply Hb].
    + intros i [->|Hi]%elem_of_cons; [congruence|by apply IH].
Qed.

Lemma has_symbol_total r soname symbol scope : Forall (in_tables r) scope -> is_Some (has_symbol r soname symbol scope).
Proof.
  induction scope as [|j scope IH]; intros Hf; simpl; [done|]. apply Forall_cons in Hf as [(Hs & Hc & _) Hf].
  destruct (lookup_lt_is_Some_2 _ _ Hs) as [name ->]. destruct (lookup_lt_is_Some_2 _ _ Hc) as [exports Ec]. simpl.
  case_bool_decide; [|auto]. rewrite Ec. simpl. destruct (existsb _ _); [done|auto].
Qed.

(** The slots in which [graph_lookup] looks. *)
Definition candidate_slots (r : GraphResolver R) (version : option VersionRequirement) (slots : list nat) : Prop :=
  exists scope, group_scopes r !! requester r = Some scope /\
    match version with
    | None => slots = scope
    | Some v => exists before j after, slots = [j] /\ scope = before ++ j :: after /\ object_sonames r !! j = Some (vsoname v) /\
        forall i, i ∈ before -> object_sonames r !! i <> Some (vsoname v)
    end.

Lemma graph_lookup_ok r name version weak :
  resolver_ok r ->
  match graph_lookup r name version weak with
  | Some (r', Err _) => looked_up r r' /\ bindings r' = bindings r
  | answer => exists slots, candidate_slots r version slots /\ slot_answer r Ok name (vname <$> version) slots answer
  end.
Proof.
  intros [(scope & Es & Hf) _ _]. unfold graph_lookup. rewrite Es. cbn [mbind option_bind]. destruct version as [v|].
  - pose proof (find_soname_ok r (vsoname v) scope Hf) as Hfind. destruct (find_soname r (vsoname v) scope) as [[j|]|]; [| |done]; cbn [mbind option_bind].
    2: { split; [apply looked_up_refl|done]. }
    destruct Hfind as (before & after & Hscope & Hj & Hbefore).
    assert (Forall (in_tables r) [j]) as Hin by (rewrite Hscope in Hf; apply Forall_app in Hf as [_ Hf]; inv Hf; by constructor).
    match goal with |- context [slot_loop ?ask ?chk ?nm ?vs ?ix ?rr] => pose proof (slot_loop_ok ask chk nm vs ix rr Hin) as Hs end.
    destruct (slot_loop _ _ _ _ _ _) as [[r' [[a|]|e]]|]; [| |exact Hs|done].
    + exists [j]. split; [|exact Hs]. exists scope. split; [done|]. by exists before, j, after.
    + destruct Hs as (Hl & Hb & Hno). destruct (has_symbol_total r' (vsoname v) name scope) as [b Eb].
      { destruct Hl as [-> _]. exact Hf. }
      rewrite Eb. cbn [mbind option_bind]. destruct b; [split; done|]. exists [j]. split; [|split_and!; done].
      exists scope. split; [done|]. by exists before, j, after.
  - match goal with |- context [slot_loop ?ask ?chk ?nm ?vs ?ix ?rr] => pose proof (slot_loop_ok ask chk nm vs ix rr Hf) as Hs end.
    destruct (slot_loop _ _ _ _ _ _) as [[r' [[a|]|e]]|]; [| |exact Hs|done]; exists scope; (split; [by exists scope|exact Hs]).
Qed.
End resolver.


(** A group of a consumer and a library that exports the symbol, without version tables. *)
Definition example_resolver : GraphResolver unit :=
  {| global_sources := []; bindings := []; global_catalog := []; global_versions := []; requester := 0;
     object_sonames := [[Byte.x61]; [Byte.x62]]; group_scopes := [[0; 1]; [1]]%nat;
     catalog := [[]; [{| ename := [Byte.x73]; address := 29; version := None; version_hidden := false; version_index := None |}]];
     slot_versions := [None; None]; provider_sonames := ∅; external := tt |}.
Definition example_request : SymbolRequest :=
  {| symbol := [Byte.x73]; needed_libraries := []; is_weak := false;
     requested_version := Some {| vsoname := [Byte.x62]; vname := [Byte.x56]; vhidden := false; vflags := 0 |} |}.

