(* ===== verification/ElfLoad.v ===== *)
(** * Loading an image ([lib.rs])

    The whole of a load: staging (plan, reservation, segments, dynamic section, thread-local
    storage, names) and finishing (rewriting, relocation, deferred relocation, integrity, templates,
    initializers, finalizers, protections).  What the host answers is the record [Host]; guest code
    that a load calls is its field [guest].  An abort is [None], and so is a write to a page that is
    not writable. *)
From S2P Require Import Prelude ElfBase ElfRewrite ElfPlan ElfSegments ElfDynamic ElfTls ElfImage ElfRelocate.
From coqutil Require Import Byte.
#[local] Open Scope Z_scope.

(** The architecture, the page size, the answers of [mmap] and [mprotect] (an error code, where there is one), the
    random word of the stack guard, the address of [darwin_art_tlsdesc_resolver], SHA-256, the
    environment switch that replaces the integrity function of BoringSSL, and the functions of the
    guest: what a call leaves in the image, and what it returns. *)
Record Host : Type := {
  aarch64 : bool; host_page_size : Z; mmap : Z -> result Z Z; mprotect : Z -> Z -> Z -> option Z; random_word : Z -> Z;
  tlsdesc_resolver : Z; sha256 : bytes -> bytes; preflight_boringssl : bool; guest : Z -> bytes -> bytes * Z }.

(** The image while it is loaded: [pages] are the protections of the reservation, [shim] the bytes
    of the veneers. *)
Record Loading (R : Type) : Type := {
  linking : Linking R; reservation : Z; shim_address : Z; shim : bytes; guard_word : Z;
  stack_guard_rewrites : list (Z * Z); direct_syscall_rewrites : list (Z * Z);
  tls_header : option ProgramHeader; finalizers : list Z; pages : list Z }.
Arguments linking {R}. Arguments reservation {R}. Arguments shim_address {R}. Arguments shim {R}. Arguments guard_word {R}.
Arguments stack_guard_rewrites {R}. Arguments direct_syscall_rewrites {R}. Arguments tls_header {R}. Arguments finalizers {R}.
Arguments pages {R}.

(** No resolver is known while an image is staged. *)
Record StagedElf : Type := { staged_image : Loading unit; staged_page_size : Z; staged_protections : list Z }.

Definition L (R A : Type) : Type := Loading R -> option (Loading R * result A LoadError).

Section monad.
Context {R A B : Type}.

Definition done_with (a : A) : L R A := fun l => Some (l, Ok a).
Definition reject (e : LoadError) : L R A := fun l => Some (l, Err e).
Definition andthen (m : L R A) (k : A -> L R B) : L R B := fun l =>
  match m l with
  | Some (l, Ok a) => k a l
  | Some (l, Err e) => Some (l, Err e)
  | None => None
  end.
Definition set_linking (l : Loading R) (s : Linking R) : Loading R :=
  {| linking := s; reservation := reservation l; shim_address := shim_address l; shim := shim l; guard_word := guard_word l;
     stack_guard_rewrites := stack_guard_rewrites l; direct_syscall_rewrites := direct_syscall_rewrites l;
     tls_header := tls_header l; finalizers := finalizers l; pages := pages l |}.
(** An operation of relocation. *)
Definition lift (m : M R A) : L R A := fun l =>
  match m (linking l) with Some (s, answer) => Some (set_linking l s, answer) | None => None end.
End monad.
Notation "'let^' x := m 'in' k" := (andthen m (fun x => k)) (at level 10, x pattern, m at level 200, k at level 200) : rust_scope.

Definition set_pages_of {R} (l : Loading R) (ps : list Z) : Loading R :=
  {| linking := linking l; reservation := reservation l; shim_address := shim_address l; shim := shim l; guard_word := guard_word l;
     stack_guard_rewrites := stack_guard_rewrites l; direct_syscall_rewrites := direct_syscall_rewrites l;
     tls_header := tls_header l; finalizers := finalizers l; pages := ps |}.
Definition set_finalizers {R} (l : Loading R) (fs : list Z) : Loading R :=
  {| linking := linking l; reservation := reservation l; shim_address := shim_address l; shim := shim l; guard_word := guard_word l;
     stack_guard_rewrites := stack_guard_rewrites l; direct_syscall_rewrites := direct_syscall_rewrites l;
     tls_header := tls_header l; finalizers := fs; pages := pages l |}.
Definition push_guard_rewrite {R} (l : Loading R) (r : Z * Z) : Loading R :=
  {| linking := linking l; reservation := reservation l; shim_address := shim_address l; shim := shim l; guard_word := guard_word l;
     stack_guard_rewrites := stack_guard_rewrites l ++ [r]; direct_syscall_rewrites := direct_syscall_rewrites l;
     tls_header := tls_header l; finalizers := finalizers l; pages := pages l |}.
Definition push_syscall_rewrite {R} (l : Loading R) (r : Z * Z) : Loading R :=
  {| linking := linking l; reservation := reservation l; shim_address := shim_address l; shim := shim l; guard_word := guard_word l;
     stack_guard_rewrites := stack_guard_rewrites l; direct_syscall_rewrites := direct_syscall_rewrites l ++ [r];
     tls_header := tls_header l; finalizers := finalizers l; pages := pages l |}.
Definition set_shim {R} (l : Loading R) (bs : bytes) : Loading R :=
  {| linking := linking l; reservation := reservation l; shim_address := shim_address l; shim := bs; guard_word := guard_word l;
     stack_guard_rewrites := stack_guard_rewrites l; direct_syscall_rewrites := direct_syscall_rewrites l;
     tls_header := tls_header l; finalizers := finalizers l; pages := pages l |}.

(** A pure operation on the image, and a write into it. *)
Definition query {R A} (f : LoadedElf -> result A LoadError) : L R A := fun l => Some (l, f (elf (linking l))).
Definition put_code {R} (l : Loading R) (offset_ : Z) (code : bytes) : Loading R :=
  set_linking l (put_elf (linking l) (write_loaded (elf (linking l)) offset_ code)).

(** Whether a write to host addresses of the reservation is granted; one that is not is a fault. *)
Definition granted {R} (h : Host) (l : Loading R) (start size : Z) : bool :=
  writable_span (host_page_size h) (pages l) (start - reservation l) (start - reservation l + size).

(** ** Rewriting of the code of an image *)

Definition executable_ranges (e : LoadedElf) : list (Z * Z) :=
  (fun load => (virtual_address load, file_size load)) <$> filter (fun load => has (pflags load) PF_X = true) (image_loads e).

(** The address of an instruction, as it is recorded. *)
Definition rewrite_address (virtual_address : Z) (index : nat) (what : string) : result Z LoadError :=
  ok_or (at_ ← checked_mul u64_max (Z.of_nat index) 4; checked_add u64_max virtual_address at_) (Bounds what).

Fixpoint record_guard_rewrites {R} (virtual_address : Z) (rewrites : list DirectTls.StackGuardRewrite) : L R unit :=
  match rewrites with
  | [] => done_with tt
  | rewrite :: rewrites =>
      let^ at_ := query (fun _ => rewrite_address virtual_address (DirectTls.instruction_index rewrite) "stack-guard rewrite address") in
      let^ _ := (fun l => Some (push_guard_rewrite l (at_, DirectTls.original rewrite), Ok tt)) in
      record_guard_rewrites virtual_address rewrites
  end.

Definition rewrite_guard_range {R} (range : Z * Z) : L R unit :=
  let '(virtual_address, size) := range in
  let^ offset_ := query (fun e => loaded_pointer e virtual_address size) in
  let^ rewrites := (fun l =>
    let e := elf (linking l) in
    let code := slice (image e) (Z.to_nat offset_) (Z.to_nat (offset_ + size)) in
    let '(code, answer) := DirectTls.rewrite_android_stack_guard_tls code (mapping e + offset_) (stack_guard (linking l)) in
    Some (put_code l offset_ code, answer)) in
  record_guard_rewrites virtual_address rewrites.

(** A [for] loop. *)
Fixpoint each {R A} (body : A -> L R unit) (l : list A) : L R unit :=
  match l with
  | [] => done_with tt
  | a :: l => let^ _ := body a in each body l
  end.

Definition rewrite_android_stack_guard_tls {R} : L R unit :=
  let^ ranges := query (fun e => Ok (executable_ranges e)) in each rewrite_guard_range ranges.

(** [try_fold] over the ranges: every range is read. *)
Fixpoint has_direct_syscall (e : LoadedElf) (ranges : list (Z * Z)) (found : bool) : result bool LoadError :=
  match ranges with
  | [] => Ok found
  | (virtual_address, size) :: ranges =>
      let? code := loaded_slice e virtual_address size in
      has_direct_syscall e ranges (found || DirectSyscall.contains_linux_svc code)
  end.

Definition libc_request (e : LoadedElf) (name : string) : SymbolRequest :=
  {| symbol := name_bytes name; needed_libraries := needed_names e; is_weak := false;
     requested_version := Some {| vsoname := name_bytes "libc.so"; vname := name_bytes "LIBC"; vhidden := false; vflags := 0 |} |}.

Definition resolve_libc {R} `{!SymbolResolver R} (name : string) : L R Z := fun l =>
  let s := linking l in
  let '(r, answer) := resolve (resolver s) (libc_request (elf s) name) in
  Some (set_linking l (put_resolver s r),
        match answer with
        | Err source => Err (Resolver (name_bytes name) source)
        | Ok None => Err (Capable DirectSyscall)
        | Ok (Some address) => Ok address
        end).

Fixpoint write_veneers {R} (target errno_target virtual_address : Z) (rewrites : list DirectSyscall.DirectSyscallRewrite) : L R unit :=
  match rewrites with
  | [] => done_with tt
  | rewrite :: rewrites =>
      let^ _ := (fun l =>
        match DirectSyscall.write_veneer (shim_address l + DirectSyscall.veneer_offset rewrite) target errno_target
                (DirectSyscall.return_address rewrite) with
        | Err e => Some (l, Err e)
        | Ok instructions =>
            Some (set_shim l (copy_at (Z.to_nat (DirectSyscall.veneer_offset rewrite)) (instructions ≫= u32_le) (shim l)), Ok tt)
        end) in
      let^ at_ := query (fun _ => rewrite_address virtual_address (DirectSyscall.instruction_index rewrite) "direct-syscall rewrite address") in
      let^ _ := (fun l => Some (push_syscall_rewrite l (at_, DirectSyscall.original rewrite), Ok tt)) in
      write_veneers target errno_target virtual_address rewrites
  end.

Fixpoint rewrite_syscall_ranges {R} (target errno_target cursor : Z) (ranges : list (Z * Z)) : L R unit :=
  match ranges with
  | [] => done_with tt
  | (virtual_address, size) :: ranges =>
      let^ offset_ := query (fun e => loaded_pointer e virtual_address size) in
      let^ (rewrites, cursor) := (fun l =>
        let e := elf (linking l) in
        let code := slice (image e) (Z.to_nat offset_) (Z.to_nat (offset_ + size)) in
        let '(code, cursor, answer) :=
          DirectSyscall.rewrite_linux_svc code (mapping e + offset_) (shim_address l) cursor (len (shim l)) in
        Some (put_code l offset_ code, result_map (fun rewrites => (rewrites, cursor)) answer)) in
      let^ _ := write_veneers target errno_target virtual_address rewrites in
      rewrite_syscall_ranges target errno_target cursor ranges
  end.

Definition rewrite_direct_android_syscalls {R} `{!SymbolResolver R} : L R unit :=
  let^ ranges := query (fun e => Ok (executable_ranges e)) in
  let^ found := query (fun e => has_direct_syscall e ranges false) in
  if negb found then done_with tt else
  let^ target := resolve_libc "syscall" in
  let^ errno_target := resolve_libc "__errno" in
  rewrite_syscall_ranges target errno_target 0 ranges.

(** ** Protections *)

(** How many pages in front satisfy a test. *)
Fixpoint run_length (test : Z -> bool) (planned : list Z) : nat :=
  match planned with
  | p :: planned => if test p then S (run_length test planned) else O
  | [] => O
  end.

(** [mprotect] on whole pages of the reservation. *)
Definition protect_pages {R} (h : Host) (page_size start : Z) (count : nat) (protection : Z) (operation : string) : L R unit := fun l =>
  let offset_ := start * page_size in
  let length_ := Z.of_nat count * page_size in
  match mprotect h offset_ length_ protection with
  | Some code => Some (l, Err (System operation code))
  | None => Some (set_pages_of l (set_pages page_size offset_ length_ protection (pages l)), Ok tt)
  end.

(** The executable runs become readable and executable before resolvers of the guest are called. *)
Fixpoint protect_executable {R} (h : Host) (page_size : Z) (fuel : nat) (start : Z) (planned : list Z) : L R unit :=
  match planned, fuel with
  | [], _ => done_with tt
  | _ :: _, O => fun _ => None
  | p :: rest, S fuel =>
      if negb (has p PROT_EXEC) then protect_executable h page_size fuel (start + 1) rest
      else
        let more := run_length (fun p => has p PROT_EXEC) rest in
        let^ _ := protect_pages h page_size start (S more) (Z.lor PROT_READ PROT_EXEC) "mprotect(IRELATIVE resolver)" in
        protect_executable h page_size fuel (start + Z.of_nat (S more)) (drop more rest)
  end.

Fixpoint protect_final {R} (h : Host) (page_size : Z) (fuel : nat) (start : Z) (planned : list Z) : L R unit :=
  match planned, fuel with
  | [], _ => done_with tt
  | _ :: _, O => fun _ => None
  | p :: rest, S fuel =>
      let more := run_length (Z.eqb p) rest in
      let^ _ := protect_pages h page_size start (S more) p "mprotect(final)" in
      protect_final h page_size fuel (start + Z.of_nat (S more)) (drop more rest)
  end.

Definition apply_final_protections {R} (h : Host) (page_size : Z) (page_protections : list Z) : L R unit :=
  protect_final h page_size (length page_protections) 0 page_protections.

(** ** Deferred relocations *)

Definition call_guest {R} (h : Host) (function : Z) : L R Z := fun l =>
  let '(bs, answer) := guest h function (image (elf (linking l))) in
  Some (set_linking l (put_elf (linking l) (set_image (elf (linking l)) bs)), Ok answer).

Fixpoint run_irelative {R} (h : Host) (relocations : list (Z * Z)) : L R unit :=
  match relocations with
  | [] => done_with tt
  | (target, function) :: relocations =>
      let^ implementation := call_guest h function in
      if implementation =? 0 then reject (Format "R_AARCH64_IRELATIVE resolver returned null") else
      let^ _ := lift (write_back target (u64_le implementation)) in
      run_irelative h relocations
  end.

(** [std::mem::take]. *)
Definition take_pending {R} : L R (list (Z * Z)) := fun l =>
  let s := linking l in
  Some (set_linking l
    {| elf := elf s; stack_guard := stack_guard s; tls_module := tls_module s; tls_descriptor_tokens := tls_descriptor_tokens s;
       pending_irelative := []; resolved := resolved s; resolver := resolver s; tls := tls s |}, Ok (pending_irelative s)).

Definition apply_irelative_relocations {R} (h : Host) (page_size : Z) (page_protections : list Z) : L R unit := fun l =>
  match pending_irelative (linking l) with
  | [] => Some (l, Ok tt)
  | _ :: _ =>
      (let^ _ := protect_executable h page_size (length page_protections) 0 page_protections in
       let^ relocations := take_pending in
       run_irelative h relocations) l
  end.

(** ** The integrity hash of BoringSSL *)

Definition boringssl_integrity_hmac (h : Host) (text rodata : bytes) : bytes :=
  let inner := sha256 h (replicate 64 (byte.of_Z 0x36) ++ u64_le (len text) ++ text ++ u64_le (len rodata) ++ rodata) in
  sha256 h (replicate 64 (byte.of_Z 0x5c) ++ inner).

(** Host addresses of the image, as offsets in it. *)
Definition host_bytes (e : LoadedElf) (start size : Z) : bytes :=
  slice (image e) (Z.to_nat (start - mapping e)) (Z.to_nat (start - mapping e + size)).

Definition host_slice (e : LoadedElf) (start end_ : Z) (required_flag : option Z) (what : string) : result bytes LoadError :=
  let? size := ok_or (checked_sub end_ start) (Bounds what) in
  let? _ := host_span_to_virtual e start size required_flag what in
  Ok (host_bytes e start size).

Definition exported_address (e : LoadedElf) (name : string) : option (result Z LoadError) := exported_address_bytes e (name_bytes name).

(** The address of the hash, from the code of its accessor: [ADRP], [LDR], [RET]. *)
Definition hash_address (e : LoadedElf) (hash_function : Z) : result Z LoadError :=
  let? _ := host_span_to_virtual e hash_function 12 (Some PF_X) "BoringSSL FIPS hash accessor" in
  let accessor := host_bytes e hash_function 12 in
  let adrp := u32_at accessor 0 in
  let ldr := u32_at accessor 4 in
  let ret := u32_at accessor 8 in
  if negb (Z.land adrp 0x9f00001f =? 0x90000000) || negb (Z.land ldr 0xffc003ff =? 0xf9400000) || negb (ret =? 0xd65f03c0)
  then Err (Integrity "BoringSSL FIPS hash accessor has an unsupported shape") else
  let? got_page := ok_or (try_u64 (adrp_page adrp hash_function)) (Bounds "BoringSSL FIPS hash GOT page") in
  let? got_address := ok_or (checked_add usize_max got_page (Z.land (Z.shiftr ldr 10) 0xfff * 8)) (Bounds "BoringSSL FIPS hash GOT slot") in
  let? _ := host_span_to_virtual e got_address 8 (Some PF_R) "BoringSSL FIPS hash GOT slot" in
  let expected_address := u64_at (host_bytes e got_address 8) 0 in
  if expected_address =? 0 then Err (Integrity "BoringSSL FIPS hash pointer is null") else
  let? _ := host_span_to_virtual e expected_address 32 (Some PF_R) "BoringSSL FIPS hash" in
  Ok expected_address.

(** The text with the recorded instructions put back. *)
Fixpoint original_text (e : LoadedElf) (text_start text_end : Z) (rewrites : list (Z * Z)) (text : bytes) : result bytes LoadError :=
  match rewrites with
  | [] => Ok text
  | (virtual_address, instruction) :: rewrites =>
      let? offset_ := loaded_pointer e virtual_address 4 in
      let host := mapping e + offset_ in
      if (host <? text_start) || match checked_add usize_max host 4 with Some end_ => text_end <? end_ | None => true end
      then original_text e text_start text_end rewrites text
      else original_text e text_start text_end rewrites (copy_at (Z.to_nat (host - text_start)) (u32_le instruction) text)
  end.

Definition ask_image {R A} (f : LoadedElf -> option (result A LoadError)) : L R A := fun l =>
  answer ← f (elf (linking l)); Some (l, answer).

Definition has_fips_hash (symbols : list ExportedSymbol) : bool :=
  existsb (fun symbol => bool_decide (ename symbol = name_bytes "FIPS_module_hash")) symbols.

Definition refresh_boringssl_integrity_after_rewrite {R} (h : Host) : L R unit :=
  let^ symbols := ask_image exported_symbols in
  if negb (has_fips_hash symbols) then done_with tt else
  let^ text_start := ask_image (fun e => exported_address e "BORINGSSL_bcm_text_start") in
  let^ text_end := ask_image (fun e => exported_address e "BORINGSSL_bcm_text_end") in
  let^ rodata_start := ask_image (fun e => exported_address e "BORINGSSL_bcm_rodata_start") in
  let^ rodata_end := ask_image (fun e => exported_address e "BORINGSSL_bcm_rodata_end") in
  let^ text := query (fun e => host_slice e text_start text_end (Some PF_X) "BoringSSL text span") in
  let^ rodata := query (fun e => host_slice e rodata_start rodata_end (Some PF_R) "BoringSSL rodata span") in
  let^ hash_function := ask_image (fun e => resolve_function_bytes e (name_bytes "FIPS_module_hash")) in
  let^ expected_address := query (fun e => hash_address e hash_function) in
  fun l =>
    let e := elf (linking l) in
    match original_text e text_start text_end (stack_guard_rewrites l ++ direct_syscall_rewrites l) text with
    | Err error => Some (l, Err error)
    | Ok original =>
        if negb (bool_decide (host_bytes e expected_address 32 = boringssl_integrity_hmac h original rodata))
        then Some (l, Err (Integrity "BoringSSL FIPS hash did not authenticate the original Android image"))
        else match stack_guard_rewrites l, direct_syscall_rewrites l with
             | [], [] => Some (l, Ok tt)
             | _, _ =>
                 if granted h l expected_address 32
                 then Some (put_code l (expected_address - mapping e) (boringssl_integrity_hmac h text rodata), Ok tt) else None
             end
    end.

(** ** Templates, initializers and finalizers *)

Definition refresh_tls_template {R} : L R unit := fun l =>
  let s := linking l in
  match tls_header l, tls_module s with
  | Some header, Some id =>
      if file_size header =? 0 then Some (l, Ok tt) else
      match loaded_slice (elf s) (virtual_address header) (file_size header) with
      | Err e => Some (l, Err e)
      | Ok template =>
          Some (set_linking l
            {| elf := elf s; stack_guard := stack_guard s; tls_module := tls_module s; tls_descriptor_tokens := tls_descriptor_tokens s;
               pending_irelative := pending_irelative s; resolved := resolved s; resolver := resolver s;
               tls := refresh_template (tls s) id template |}, Ok tt)
      end
  | _, _ => Some (l, Ok tt)
  end.

(** An entry that is not a function: null or all ones. *)
Definition no_function (pointer : Z) : bool := (pointer =? 0) || (pointer =? u64_max).

Definition array_entry (e : LoadedElf) (address index : Z) (what : string) : result Z LoadError :=
  let? at_ := ok_or (checked_add u64_max address (index * 8)) (Bounds what) in read_loaded_u64 e at_.

Definition check_initializer (e : LoadedElf) (address index : Z) : result unit LoadError :=
  let? pointer := array_entry e address index "DT_INIT_ARRAY entry overflow" in
  if no_function pointer then Ok tt else require_host_executable e pointer "DT_INIT_ARRAY function".

(** The pair of an array: both present or both absent, and whole words. *)
Definition array_pair_ok (address size : Z) : bool := Bool.eqb (address =? 0) (size =? 0) && (size mod 8 =? 0).

Definition validate_initializer_entries (e : LoadedElf) : result unit LoadError :=
  let address := or_zero (field (info e) InitArray) in
  let size := or_zero (field (info e) InitArraySize) in
  if negb (array_pair_ok address size) then Err (Format "invalid DT_INIT_ARRAY pair")
  else if size =? 0 then Ok tt else
  let? _ := require_loaded_range e address size None "DT_INIT_ARRAY" in
  let? _ := collect (check_initializer e address) (seqZ 0 (size / 8)) in Ok tt.

Definition finalizer_entry (e : LoadedElf) (address index : Z) : result (option Z) LoadError :=
  let? pointer := array_entry e address index "DT_FINI_ARRAY entry overflow" in
  if no_function pointer then Ok None else
  let? _ := require_host_executable e pointer "DT_FINI_ARRAY function" in Ok (Some pointer).

Definition collect_finalizers (e : LoadedElf) : result (list Z) LoadError :=
  let address := or_zero (field (info e) FiniArray) in
  let size := or_zero (field (info e) FiniArraySize) in
  if negb (array_pair_ok address size) then Err (Format "invalid DT_FINI_ARRAY pair") else
  let? entries :=
    if size =? 0 then Ok [] else
    let? _ := require_loaded_range e address size None "DT_FINI_ARRAY" in
    collect (finalizer_entry e address) (reverse (seqZ 0 (size / 8))) in
  let finalizers := omap id entries in
  match field (info e) Fini with
  | Some fini =>
      if fini =? 0 then Ok finalizers else
      let? _ := require_loaded_range e fini 1 (Some PF_X) "DT_FINI function" in
      let? offset_ := loaded_pointer e fini 1 in
      Ok (finalizers ++ [mapping e + offset_])
  | None => Ok finalizers
  end.

Definition prepare_finalizers {R} : L R unit :=
  let^ fs := query collect_finalizers in fun l => Some (set_finalizers l fs, Ok tt).

(** ** Finishing and staging *)

(** The diagnostic that replaces the integrity function with one that returns 1. *)
Definition preflight {R} (h : Host) : L R unit := fun l =>
  let e := elf (linking l) in
  if negb (bool_decide (own_name e = Some (name_bytes "libcrypto.so"))) || negb (preflight_boringssl h) then Some (l, Ok tt)
  else match loaded_pointer e 0xd35b4 8 with
       | Err error => Some (l, Err error)
       | Ok offset_ =>
           if granted h l (mapping e + offset_) 8
           then Some (put_code l offset_ (u32_le 0x52800020 ++ u32_le 0xd65f03c0), Ok tt) else None
       end.

Definition finish_load {R} `{!SymbolResolver R} (h : Host) (page_size : Z) (page_protections : list Z) : L R unit :=
  let^ _ := rewrite_android_stack_guard_tls in
  let^ _ := rewrite_direct_android_syscalls in
  let^ _ := preflight h in
  let^ _ := lift (validate_symbols_and_apply_relocations (tlsdesc_resolver h)) in
  let^ _ := apply_irelative_relocations h page_size page_protections in
  let^ _ := refresh_boringssl_integrity_after_rewrite h in
  let^ _ := refresh_tls_template in
  let^ _ := query validate_initializer_entries in
  let^ _ := prepare_finalizers in
  apply_final_protections h page_size page_protections.

(** The image as [stage_with_appcompat] builds it, once everything that can fail before has passed. *)
Definition staged_loading (h : Host) (plan : ParsedImage) (base : Z) (r : Reservation) (dynamic_info : DynamicInfo)
    (t : Tls) (module : option Z) : Loading unit :=
  let guard := base + stack_guard_offset plan + 0x28 in
  let e := {| mapping := base + image_offset plan; mapping_size := image_size plan; base_page := minimum_page plan;
              image_loads := loads plan; info := dynamic_info; needed_names := []; own_name := None;
              image := slice (memory r) (Z.to_nat (image_offset plan)) (Z.to_nat (image_offset plan + image_size plan)) |} in
  {| linking := {| elf := e; stack_guard := guard; tls_module := module; tls_descriptor_tokens := []; pending_irelative := [];
                   resolved := ∅; resolver := tt; tls := t |};
     reservation := base; shim_address := base + direct_syscall_shim_offset plan;
     shim := slice (memory r) (Z.to_nat (direct_syscall_shim_offset plan))
               (Z.to_nat (direct_syscall_shim_offset plan + direct_syscall_shim_size plan));
     guard_word := Z.lor (random_word h guard) 1; stack_guard_rewrites := []; direct_syscall_rewrites := [];
     tls_header := ElfPlan.tls plan; finalizers := []; pages := protections r |}.

(** [TlsModule::new] for the segment, where there is one. *)
Definition stage_module (t : Tls) (header : option ProgramHeader) (bs : bytes) : Tls * result (option Z) LoadError :=
  match header with
  | None => (t, Ok None)
  | Some header => let '(t, answer) := new_module t header bs in (t, result_map Some answer)
  end.

(** Dropping an image that was never initialized: its thread-local storage ends, [thread] being the
    thread that drops it. *)
Definition drop_staged {R} (thread : Z) (l : Loading R) : option Tls :=
  unload (tls (linking l)) thread (tls_descriptor_tokens (linking l)) (tls_module (linking l)).

(** The state that outlives a failed staging is the thread-local storage. *)
Definition stage_with_appcompat (h : Host) (thread : Z) (t : Tls) (bs : bytes) (appcompat_16kb : option bool)
    : option (Tls * result StagedElf LoadError) :=
  if negb (aarch64 h) then Some (t, Err (Capable HostArchitecture)) else
  let prepared :=
    let! plan := Some (parse_image_with_policy_and_appcompat (host_page_size h) bs false appcompat_16kb) in
    let! base := Some (match mmap h (reservation_size plan) with
                       | Err code => Err (System "mmap(reserve)" code)
                       | Ok pointer => if pointer =? 0 then Err (System "mmap(reserve)" 0) else Ok pointer
                       end) in
    let! r := populate (mprotect h) (reserve (page_size plan) (reservation_size plan)) plan bs in
    let! dynamic_info := Some (parse_dynamic bs (dynamic plan)) in
    let! _ := Some (validate_dynamic_capabilities dynamic_info) in
    Some (Ok (plan, base, r, dynamic_info)) in
  match prepared with
  | None => None
  | Some (Err e) => Some (t, Err e)
  | Some (Ok (plan, base, r, dynamic_info)) =>
      let '(t, module) := stage_module t (ElfPlan.tls plan) bs in
      match module with
      | Err e => Some (t, Err e)
      | Ok module =>
          let l := staged_loading h plan base r dynamic_info t module in
          match materialize_dynamic_names (elf (linking l)) with
          | Err e => t ← drop_staged thread l; Some (t, Err e)
          | Ok e =>
              Some (t, Ok {| staged_image := set_linking l (put_elf (linking l) e); staged_page_size := page_size plan;
                             staged_protections := page_protections plan |})
          end
      end
  end.

(** The image with the resolver of its relocation and the storage as it is now. *)
Definition attach {A R} (r : R) (t : Tls) (l : Loading A) : Loading R :=
  let s := linking l in
  {| linking := {| elf := elf s; stack_guard := stack_guard s; tls_module := tls_module s; tls_descriptor_tokens := tls_descriptor_tokens s;
                   pending_irelative := pending_irelative s; resolved := resolved s; resolver := r; tls := t |};
     reservation := reservation l; shim_address := shim_address l; shim := shim l; guard_word := guard_word l;
     stack_guard_rewrites := stack_guard_rewrites l; direct_syscall_rewrites := direct_syscall_rewrites l;
     tls_header := tls_header l; finalizers := finalizers l; pages := pages l |}.

Definition load_with_resolver {R} `{!SymbolResolver R} (h : Host) (thread : Z) (t : Tls) (bs : bytes) (r : R)
    : option (Tls * R * result (Loading R) LoadError) :=
  match stage_with_appcompat h thread t bs None with
  | None => None
  | Some (t, Err e) => Some (t, r, Err e)
  | Some (t, Ok staged) =>
      match finish_load h (staged_page_size staged) (staged_protections staged) (attach r t (staged_image staged)) with
      | None => None
      | Some (l, Ok _) => Some (tls (linking l), resolver (linking l), Ok l)
      | Some (l, Err e) => t ← drop_staged thread l; Some (t, resolver (linking l), Err e)
      end
  end.

(** ** What every part of a load keeps *)

Section logic.
Context {R : Type}.

(** From a state of [P] the operation ends in [Q], or fails in [E]; it aborts only if [X]. *)
Definition loads_to {A} (X : Prop) (P : Loading R -> Prop) (m : L R A) (Q : A -> Loading R -> Prop) (E : Loading R -> Prop) : Prop :=
  forall l, P l -> match m l with
  | Some (l', Ok a) => Q a l'
  | Some (l', Err _) => E l'
  | None => X
  end.

Lemma loads_to_andthen {A B} X P (m : L R A) (k : A -> L R B) Q Q' E :
  loads_to X P m Q E -> (forall a, loads_to X (Q a) (k a) Q' E) -> loads_to X P (andthen m k) Q' E.
Proof.
  intros Hm Hk l Hl. unfold andthen. specialize (Hm l Hl). destruct (m l) as [[l' [a|e]]|]; [|done..]. by apply Hk.
Qed.

Lemma loads_to_done {A} X P (a : A) (Q : A -> Loading R -> Prop) E : (forall l, P l -> Q a l) -> loads_to X P (done_with a) Q E.
Proof. intros H l Hl. by apply H. Qed.

Lemma loads_to_query {A} X P (f : LoadedElf -> result A LoadError) (Q : A -> Loading R -> Prop) (E : Loading R -> Prop) :
  (forall l a, P l -> f (elf (linking l)) = Ok a -> Q a l) -> (forall l, P l -> E l) -> loads_to X P (query f) Q E.
Proof. intros HQ HE l Hl. unfold query. destruct (f (elf (linking l))) eqn:Ef; [by apply HQ|by apply HE]. Qed.

Lemma loads_to_weaken {A} X (P P' : Loading R -> Prop) (m : L R A) Q (Q' : A -> Loading R -> Prop) (E E' : Loading R -> Prop) :
  (forall l, P' l -> P l) -> (forall a l, Q a l -> Q' a l) -> (forall l, E l -> E' l) -> loads_to X P m Q E -> loads_to X P' m Q' E'.
Proof. intros HP HQ HE H l Hl. specialize (H l (HP l Hl)). destruct (m l) as [[l' [a|e]]|]; auto. Qed.

Lemma loads_to_each {A} X (P : Loading R -> Prop) (body : A -> L R unit) items :
  (forall a, a ∈ items -> loads_to X P (body a) (fun _ => P) P) -> loads_to X P (each body items) (fun _ => P) P.
Proof.
  induction items as [|a items IH]; intros H; [by apply loads_to_done|]. simpl.
  eapply loads_to_andthen; [apply H; by left|]. intros []. apply IH. intros b Hb. apply H. by right.
Qed.
End logic.

(** The protections of the reservation, apart from the planned ones no page is writable and
    executable. *)
Definition pages_ok (count : nat) (ps : list Z) : Prop := length ps = count /\ no_wx ps.


Lemma lookup_set_pages page_size start count protection ps k :
  0 < page_size ->
  set_pages page_size (start * page_size) (Z.of_nat count * page_size) protection ps !! k =
  if decide (start <= Z.of_nat k < start + Z.of_nat count) then (fun _ => protection) <$> ps !! k else ps !! k.
Proof.
  intros Hp. unfold set_pages. rewrite list_lookup_imap. destruct (ps !! k) as [p|]; [|by destruct (decide _)]. simpl.
  destruct (decide _) as [Hd|Hd]; f_equal.
  - rewrite (proj2 (Z.leb_le _ _)), (proj2 (Z.ltb_lt _ _)); [done|nia..].
  - destruct (Z.leb_spec (start * page_size) (Z.of_nat k * page_size)), (Z.ltb_spec (Z.of_nat k * page_size) (start * page_size + Z.of_nat count * page_size)); try done.
    destruct Hd. nia.
Qed.

Lemma set_pages_ok page_size offset_ length_ protection count ps :
  writable_executable protection = false -> pages_ok count ps -> pages_ok count (set_pages page_size offset_ length_ protection ps).
Proof.
  intros Hp [Hl Hn]. split; [by rewrite length_set_pages|]. unfold no_wx, set_pages in *. rewrite Forall_forall in *.
  intros x [k Hk]%list_elem_of_lookup. rewrite list_lookup_imap in Hk. destruct (ps !! k) as [q|] eqn:E; [|done]. simpl in Hk.
  destruct (_ && _); simplify_eq; [done|]. apply Hn. by eapply list_elem_of_lookup_2.
Qed.

Section pages.
Context {R : Type} (h : Host) (page_size : Z) (planned : list Z).
Hypothesis Hsize : 0 < page_size.
Hypothesis Hplanned : no_wx planned.

Lemma protect_pages_ok start count protection operation :
  writable_executable protection = false ->
  forall l : Loading R, pages_ok (length planned) (pages l) ->
    match protect_pages h page_size start count protection operation l with
    | Some (l', Ok _) => l' = set_pages_of l (set_pages page_size (start * page_size) (Z.of_nat count * page_size) protection (pages l))
                         /\ pages_ok (length planned) (pages l')
    | Some (l', Err _) => l' = l
    | None => False
    end.
Proof.
  intros Hp l Hl. unfold protect_pages. destruct (mprotect h _ _ _); [done|]. split; [done|]. simpl. by apply set_pages_ok.
Qed.

Lemma run_length_le test ps : (run_length test ps <= length ps)%nat.
Proof. induction ps as [|p ps IH]; simpl; [lia|]. destruct (test p); simpl; lia. Qed.

Lemma run_length_all test ps k p : (k < run_length test ps)%nat -> ps !! k = Some p -> test p = true.
Proof.
  revert k. induction ps as [|q ps IH]; intros k Hk Hp; simpl in *; [lia|]. destruct (test q) eqn:E; [|simpl in Hk; lia].
  destruct k as [|k]; simplify_eq/=; [done|]. by apply (IH k); [lia|].
Qed.

(** The state but for the protections. *)
Definition only_pages (l l' : Loading R) : Prop := l' = set_pages_of l (pages l').

Lemma only_pages_refl l : only_pages l l.
Proof. by destruct l. Qed.
Lemma only_pages_trans l1 l2 l3 : only_pages l1 l2 -> only_pages l2 l3 -> only_pages l1 l3.
Proof. unfold only_pages. intros E1 E2. rewrite E2, E1. done. Qed.

Lemma protect_executable_ok fuel start rest (l : Loading R) :
  (length rest <= fuel)%nat -> pages_ok (length planned) (pages l) ->
  match protect_executable h page_size fuel start rest l with
  | Some (l', _) => only_pages l l' /\ pages_ok (length planned) (pages l')
  | None => False
  end.
Proof.
  revert start rest l. induction fuel as [|fuel IH]; intros start [|p rest] l Hf Hl; simpl in *; try lia;
    try (split; [apply only_pages_refl|done]).
  destruct (has p PROT_EXEC); simpl; [|apply IH; [lia|done]]. unfold andthen.
  pose proof (protect_pages_ok start (S (run_length (fun p => has p PROT_EXEC) rest)) (Z.lor PROT_READ PROT_EXEC)
    "mprotect(IRELATIVE resolver)" eq_refl l Hl) as Hp.
  destruct (protect_pages _ _ _ _ _ _ l) as [[l' [u|e]]|]; [|subst l'; split; [apply only_pages_refl|done]|done].
  destruct Hp as [E Hok]. pose proof (IH (start + Z.of_nat (S (run_length (fun p => has p PROT_EXEC) rest)))
    (drop (run_length (fun p => has p PROT_EXEC) rest) rest) l') as H.
  specialize (H ltac:(rewrite length_drop; lia) Hok). destruct (protect_executable _ _ _ _ _ l') as [[l2 r]|]; [|done].
  destruct H as [H ?]. split; [|done]. eapply only_pages_trans; [|exact H]. by rewrite E.
Qed.

(** When all calls succeed the protections are the planned ones. *)
Lemma protect_final_ok fuel start rest (l : Loading R) :
  (length rest <= fuel)%nat -> planned = take start planned ++ rest -> (start + length rest = length planned)%nat ->
  pages_ok (length planned) (pages l) -> take start (pages l) = take start planned ->
  match protect_final h page_size fuel (Z.of_nat start) rest l with
  | Some (l', Ok _) => only_pages l l' /\ pages l' = planned
  | Some (l', Err _) => only_pages l l' /\ pages_ok (length planned) (pages l')
  | None => False
  end.
Proof.
  revert start rest l. induction fuel as [|fuel IH]; intros start [|p rest] l Hf Hs Hlen Hl Ht; simpl in *; try lia.
  1, 2: split; [apply only_pages_refl|]; rewrite take_ge in Ht by (destruct Hl; lia); rewrite Ht; apply take_ge; lia.
  set (more := run_length (Z.eqb p) rest). unfold andthen.
  assert (planned !! start = Some p) as Hp by (rewrite Hs; apply list_lookup_middle; rewrite length_take; lia).
  assert (writable_executable p = false) as Hw by (eapply Forall_lookup_1 in Hplanned; [exact Hplanned|exact Hp]).
  pose proof (protect_pages_ok (Z.of_nat start) (S more) p "mprotect(final)" Hw l Hl) as H.
  destruct (protect_pages _ _ _ _ _ _ l) as [[l' [u|e]]|]; [|subst l'; split; [apply only_pages_refl|done]|done].
  destruct H as [E Hok]. pose proof (run_length_le (Z.eqb p) rest) as Hmore. fold more in Hmore.
  match goal with |- context [protect_final _ _ _ ?z _ l'] => replace z with (Z.of_nat (start + S more)) by lia end.
  assert (forall k q, rest !! k = Some q -> planned !! (start + S k)%nat = Some q) as Hrest.
  { intros k q Hk. rewrite Hs. rewrite lookup_app_r by (rewrite length_take; lia). rewrite length_take.
    replace (start + S k - start `min` length planned)%nat with (S k) by lia. done. }
  specialize (IH (start + S more)%nat (drop more rest) l'). rewrite length_drop in IH.
  assert (take (start + S more) (pages l') = take (start + S more) planned) as Ht'.
  { apply list_eq. intros k. destruct (decide (k < start + S more)%nat) as [Hk|Hk].
    2: { rewrite !lookup_take_ge by lia. done. }
    rewrite !lookup_take_lt by lia. rewrite E. simpl. rewrite lookup_set_pages by done.
    destruct (decide (start <= k)%nat) as [Hsk|Hsk].
    - rewrite decide_True by lia. destruct (lookup_lt_is_Some_2 (pages l) k) as [q Hq]; [destruct Hl; lia|]. rewrite Hq. simpl.
      destruct (decide (k = start)) as [->|Hne]; [by rewrite Hp|].
      destruct (lookup_lt_is_Some_2 rest (k - start - 1)) as [z Hz]; [lia|].
      pose proof (run_length_all (Z.eqb p) rest (k - start - 1) z ltac:(fold more; lia) Hz) as ->%Z.eqb_eq.
      rewrite <- (Hrest _ _ Hz). f_equal. lia.
    - rewrite decide_False by lia. rewrite <- (lookup_take_lt (pages l) start k), <- (lookup_take_lt planned start k) by lia. by rewrite Ht. }
  assert (match protect_final h page_size fuel (Z.of_nat (start + S more)) (drop more rest) l' with
    | Some (l2, Ok _) => only_pages l' l2 /\ pages l2 = planned
    | Some (l2, Err _) => only_pages l' l2 /\ pages_ok (length planned) (pages l2)
    | None => False end) as H.
  { apply IH; [lia| |lia|done|done]. rewrite <- (take_drop (start + S more) planned) at 1. f_equal.
    rewrite Hs at 1. rewrite drop_app_ge by (rewrite length_take; lia). rewrite length_take.
    replace (start + S more - start `min` length planned)%nat with (S more) by lia. done. }
  assert (only_pages l l') as Hop by by rewrite E.
  destruct (protect_final _ _ _ _ _ l') as [[l2 [u2|e2]]|]; [| |done]; destruct H as [H ?]; (split; [|done]); by eapply only_pages_trans.
Qed.
End pages.
