(* ===== verification/ElfLoadSafe.v ===== *)
(** * What a load guarantees ([lib.rs])

    Every step of a load keeps the reservation free of pages that are writable and executable, the
    thread-local storage in order and the fields of the image; once the system calls are rewritten,
    no step brings one back into the code. *)
From S2P Require Import Prelude ElfBase ElfRewrite ElfPlan ElfSegments ElfDynamic ElfTls ElfImage ElfRelocate ElfLoad.
#[local] Open Scope Z_scope.

(** ** Code of an image *)

(** A file range of an executable load, inside the mapping. *)
Definition range_in (e : LoadedElf) (range : Z * Z) : Prop :=
  base_page e <= range.1 /\ 0 <= range.2 /\ range.1 + range.2 <= base_page e + mapping_size e.
Definition range_before (a b : Z * Z) : Prop := a.1 + a.2 <= b.1.
Definition code_of (e : LoadedElf) (bs : bytes) (range : Z * Z) : bytes :=
  slice bs (Z.to_nat (range.1 - base_page e)) (Z.to_nat (range.1 - base_page e + range.2)).

(** Offsets of the executable loads. *)
Definition in_code (e : LoadedElf) (i : Z) : Prop :=
  exists l, l ∈ image_loads e /\ has (pflags l) PF_X = true /\
    virtual_address l - base_page e <= i < virtual_address l - base_page e + memory_size l.

(** What the plan gives the loads of an image. *)
Record loads_ok (e : LoadedElf) : Prop := {
  loads_sorted : StronglySorted before (image_loads e);
  loads_file : forall l, l ∈ image_loads e -> 0 <= file_size l <= memory_size l;
  loads_wx : forall l, l ∈ image_loads e -> has (pflags l) PF_W && has (pflags l) PF_X = false }.

Lemma executable_range e range :
  range ∈ executable_ranges e -> exists l, l ∈ image_loads e /\ has (pflags l) PF_X = true /\ range = (virtual_address l, file_size l).
Proof. intros (l & -> & [? ?]%list_elem_of_filter)%list_elem_of_fmap. by exists l. Qed.

Section code.
Context (e : LoadedElf).
Hypothesis Hok : elf_ok e.
Hypothesis Hloads : loads_ok e.

Lemma executable_in range : range ∈ executable_ranges e -> range_in e range.
Proof.
  intros (l & Hin & _ & ->)%executable_range. destruct (elf_loads e Hok l Hin) as (? & ? & ?).
  pose proof (loads_file e Hloads l Hin). unfold range_in. simpl. lia.
Qed.

Lemma executable_sorted : StronglySorted range_before (executable_ranges e).
Proof.
  unfold executable_ranges. pose proof (loads_file e Hloads) as Hf. induction (loads_sorted e Hloads) as [|l loads Hs IH Hl]; [constructor|].
  rewrite filter_cons. assert (forall l0, l0 ∈ loads -> 0 <= file_size l0 <= memory_size l0) as Hf' by (intros; apply Hf; by constructor).
  case_decide; [|by apply IH]. simpl. constructor; [by apply IH|]. rewrite Forall_forall in Hl. rewrite Forall_forall.
  intros r (b & -> & [_ Hb]%list_elem_of_filter)%list_elem_of_fmap. specialize (Hl b Hb). specialize (Hf l ltac:(constructor)).
  unfold before, range_before in *. simpl. lia.
Qed.

(** Writable loads hold no code. *)
Lemma code_not_writable i : in_code e i -> ~ in_writable e i.
Proof.
  intros (l & Hl & Hx & Hi) (l' & Hl' & Hw & Hi'). destruct (sorted_pair before (image_loads e) l l') as [<-|Hb]; [apply Hloads|done|done|..].
  - pose proof (loads_wx e Hloads l Hl). by rewrite Hx, Hw in *.
  - unfold before in Hb. lia.
Qed.

(** Bytes outside the code do not matter. *)
Definition same_code (bs bs' : bytes) : Prop :=
  length bs' = length bs /\ forall i, in_code e (Z.of_nat i) -> bs' !! i = bs !! i.

Lemma same_code_refl bs : same_code bs bs.
Proof. done. Qed.
Lemma same_code_trans bs1 bs2 bs3 : same_code bs1 bs2 -> same_code bs2 bs3 -> same_code bs1 bs3.
Proof. intros [L1 H1] [L2 H2]. split; [congruence|]. intros i Hi. rewrite H2 by done. by apply H1. Qed.

Lemma same_code_range bs bs' range : range ∈ executable_ranges e -> same_code bs bs' -> code_of e bs' range = code_of e bs range.
Proof.
  intros Hr [Hl H]. pose proof (executable_in range Hr) as (? & ? & ?). apply executable_range in Hr as (l & Hin & Hx & ->).
  apply slice_ext. intros i Hi. apply H. exists l. split_and!; [done|done|..]; pose proof (loads_file e Hloads l Hin); simpl in *; lia.
Qed.

Lemma patched_same_code e1 : e1 = set_image e (image e1) -> forall e2, patched e1 e2 -> same_code (image e1) (image e2).
Proof.
  intros E e2 (_ & Hl & Hp). split; [done|]. intros i Hi%code_not_writable. apply Hp. by rewrite E.
Qed.

(** New code in a range. *)
Lemma code_of_length bs range : len bs = mapping_size e -> range_in e range -> len (code_of e bs range) = range.2.
Proof. intros Hl (? & ? & ?). unfold code_of, len in *. rewrite length_slice by lia. lia. Qed.

Lemma code_of_copy bs range code :
  len bs = mapping_size e -> range_in e range -> len code = range.2 ->
  length (copy_at (Z.to_nat (range.1 - base_page e)) code bs) = length bs /\
  code_of e (copy_at (Z.to_nat (range.1 - base_page e)) code bs) range = code /\
  forall other, range_in e other -> range_before range other \/ range_before other range ->
    code_of e (copy_at (Z.to_nat (range.1 - base_page e)) code bs) other = code_of e bs other.
Proof.
  intros Hl (? & ? & ?) Hc. unfold len in *.
  assert (Z.to_nat (range.1 - base_page e) + length code <= length bs)%nat as Hfit by lia.
  assert (length (copy_at (Z.to_nat (range.1 - base_page e)) code bs) = length bs) as Hlen by by apply length_copy_at.
  split_and!; [done| |].
  - unfold code_of. replace (Z.to_nat (range.1 - base_page e + range.2)) with (Z.to_nat (range.1 - base_page e) + length code)%nat by lia.
    apply slice_copy_at. lia.
  - intros other (? & ? & ?) Hap. unfold code_of, range_before in *. apply slice_copy_outside; [done|]. lia.
Qed.
End code.

(** ** The invariant of a load *)

(** How the storage goes on while images are staged, finished and dropped: blocks stay, modules keep
    their size. *)
Record carries (t t' : Tls) : Prop := {
  c_steps : rtc step t t';
  c_blocks : blocks t' = blocks t;
  c_modules : forall id m, modules t !! id = Some m -> exists m', modules t' !! id = Some m' /\ tmemory_size m' = tmemory_size m }.

#[export] Instance carries_preorder : PreOrder carries.
Proof.
  split; [intros t; constructor; eauto; done|]. intros t1 t2 t3 [S1 B1 M1] [S2 B2 M2]. constructor; [by etrans|congruence|].
  intros id m (m2 & E2 & Hm2)%M1. destruct (M2 id m2 E2) as (m3 & E3 & Hm3). exists m3. split; [done|congruence].
Qed.

(** Relative to the image that was staged, the number of pages and the storage before: only the
    bytes of the image change; the pages are in order; the module of the image holds no block. *)
Record loading_ok {R} (e0 : LoadedElf) (count : nat) (t0 : Tls) (l : Loading R) : Prop := {
  lo_image : elf (linking l) = set_image e0 (image (elf (linking l)));
  lo_link : link_ok (linking l);
  lo_pages : pages_ok count (pages l);
  lo_shim : 0 <= shim_address l;
  lo_carries : carries t0 (tls (linking l));
  lo_keeps : registry t0 ⊆ registry (tls (linking l));
  lo_tokens : forall token, token ∈ tls_descriptor_tokens (linking l) -> registry t0 !! token = None;
  lo_registry : forall token, is_Some (registry (tls (linking l)) !! token) ->
    is_Some (registry t0 !! token) \/ token ∈ tls_descriptor_tokens (linking l);
  lo_fresh : forall id, tls_module (linking l) = Some id ->
    (forall thread, blocks (tls (linking l)) !! (thread, id) = None) /\
    forall header, tls_header l = Some header ->
      exists m, modules (tls (linking l)) !! id = Some m /\ 0 <= file_size header <= tmemory_size m }.

Section loading.
Context {R : Type} (h : Host) (e0 : LoadedElf) (count : nat) (t0 : Tls).
Hypothesis Hok : elf_ok e0.
Hypothesis Hloads : loads_ok e0.
Notation inv := (loading_ok (R := R) e0 count t0).

(** An operation that keeps the invariant, whatever its outcome; and one that also keeps the code. *)
Definition bytes_of (l : Loading R) : bytes := image (elf (linking l)).
Definition with_code (F : bytes -> Prop) (l : Loading R) : Prop := inv l /\ F (bytes_of l).

Lemma inv_length l : inv l -> len (bytes_of l) = mapping_size e0.
Proof. intros [E Hl _ _ _ _ _ _ _]. unfold bytes_of. pose proof (elf_length _ (link_elf _ Hl)) as H. by rewrite E in H. Qed.

Lemma inv_bytes l bs :
  inv l -> length bs = length (bytes_of l) -> inv (set_linking l (put_elf (linking l) (set_image (elf (linking l)) bs))).
Proof.
  intros [E [He ? ? ? Hp] ? ? ? ? ? ? ?] Hlen. constructor; simpl; try done.
  - by rewrite E.
  - constructor; simpl; try done. destruct He as [? ? ? Hl ?]. constructor; simpl; try done. unfold len in *. by rewrite Hlen.
Qed.

Lemma inv_aux l l' : inv l -> linking l' = linking l -> pages l' = pages l -> tls_header l' = tls_header l ->
  shim_address l' = shim_address l -> inv l'.
Proof. intros [] El Ep Eh Ea. constructor; rewrite ?El, ?Ep, ?Eh, ?Ea; done. Qed.

Lemma inv_linked l s : inv l -> link_ok s -> extends (linking l) s -> inv (set_linking l s).
Proof.
  intros [E Hl Hp Ha Hs Hkp Htk Hr Hf] Hk [(Ee & Elen & _) Em Hsteps Eb Emod Htok Hreg Hkeeps Hfresh _]. constructor; simpl; try done.
  - by rewrite Ee, E.
  - etrans; [done|]. constructor; [done|done|]. rewrite Emod. eauto.
  - by etrans.
  - intros token [Ht|Ht]%Hfresh; [by apply Htk|]. by eapply lookup_weaken_None.
  - intros token [Ht|Ht]%Hreg; [|by right]. destruct (Hr token Ht) as [|Hin]; [by left|right]. by eapply elem_of_prefix.
  - rewrite Em, Eb, Emod. done.
Qed.

Lemma inv_pointer l a n o : inv l -> loaded_pointer (elf (linking l)) a n = Ok o -> o = a - base_page e0.
Proof. intros [E _ _ _ _ _ _ _ _] (-> & _)%loaded_pointer_Ok. by rewrite E. Qed.

Lemma inv_put_code l range code :
  inv l -> range_in e0 range -> len code = range.2 ->
  inv (put_code l (range.1 - base_page e0) code) /\
  code_of e0 (bytes_of (put_code l (range.1 - base_page e0) code)) range = code /\
  forall other, range_in e0 other -> range_before range other \/ range_before other range ->
    code_of e0 (bytes_of (put_code l (range.1 - base_page e0) code)) other = code_of e0 (bytes_of l) other.
Proof.
  intros Hl Hr Hc. destruct (code_of_copy e0 (bytes_of l) range code (inv_length l Hl) Hr Hc) as (Hlen & Hin & Hout).
  split_and!; [|exact Hin|exact Hout]. by apply inv_bytes.
Qed.

(** *** The stack guard *)

Lemma keeps_record va rewrites : loads_to False inv (record_guard_rewrites (R := R) va rewrites) (fun _ => inv) inv.
Proof.
  induction rewrites as [|r rewrites IH]; simpl; [by apply loads_to_done|].
  eapply loads_to_andthen; [apply (loads_to_query _ _ _ (fun _ => inv)); auto|]. intros at_.
  eapply (loads_to_andthen _ _ _ _ (fun _ => inv)); [|intros ?; apply IH]. intros l Hl. simpl. by apply (inv_aux l).
Qed.

Lemma keeps_guard_range range : range_in e0 range -> loads_to False inv (rewrite_guard_range (R := R) range) (fun _ => inv) inv.
Proof.
  intros Hr. destruct range as [va size]. unfold rewrite_guard_range.
  eapply loads_to_andthen; [apply (loads_to_query _ _ _ (fun o l => inv l /\ o = va - base_page e0))|].
  { intros l o Hl Ho. split; [done|]. by eapply inv_pointer. }
  { done. }
  intros o. eapply (loads_to_andthen _ _ _ _ (fun _ => inv)); [|intros ?; apply keeps_record].
  intros l [Hl ->]. pose proof (code_of_length e0 (bytes_of l) (va, size) (inv_length l Hl) Hr) as Hlen.
  set (code := slice _ _ _). assert (len code = size) as Hc by exact Hlen.
  pose proof (guard_rewrite_length code (mapping (elf (linking l)) + (va - base_page e0)) (stack_guard (linking l))) as Hg.
  destruct (DirectTls.rewrite_android_stack_guard_tls _ _ _) as [code' answer]. simpl in *.
  destruct (inv_put_code l (va, size) code' Hl Hr) as [H _]; [unfold len in *; simpl; lia|]. by destruct answer.
Qed.

Lemma inv_ranges X (P : Loading R -> Prop) :
  (forall l, P l -> inv l) ->
  loads_to X P (query (fun e => Ok (executable_ranges e))) (fun ranges l => P l /\ ranges = executable_ranges e0) P.
Proof.
  intros HP. apply loads_to_query; [|done]. intros l ranges Hl [= <-]. split; [done|]. destruct (HP l Hl) as [E _ _ _ _ _ _ _ _]. by rewrite E.
Qed.

Lemma keeps_guard : loads_to False inv (rewrite_android_stack_guard_tls (R := R)) (fun _ => inv) inv.
Proof.
  eapply loads_to_andthen; [by apply inv_ranges|].
  intros ranges l [Hl ->]. apply loads_to_each; [|done]. intros range Hr. by apply keeps_guard_range, executable_in.
Qed.

(** *** The system calls *)

Definition range_clean (bs : bytes) (range : Z * Z) : Prop := DirectSyscall.contains_linux_svc (code_of e0 bs range) = false.
Definition all_clean (ranges : list (Z * Z)) (bs : bytes) : Prop := Forall (range_clean bs) ranges.

Lemma clean_write va target errno_target rewrites (F : bytes -> Prop) :
  loads_to False (with_code F) (write_veneers (R := R) target errno_target va rewrites) (fun _ => with_code F) inv.
Proof.
  induction rewrites as [|r rewrites IH]; simpl; [by apply loads_to_done|].
  eapply (loads_to_andthen _ _ _ _ (fun _ => with_code F)).
  { intros l [Hl HF]. destruct (DirectSyscall.write_veneer _ _ _ _); [|done]. split; [|done]. by apply (inv_aux l). }
  intros _. eapply loads_to_andthen; [apply (loads_to_query _ _ _ (fun _ => with_code F)); [done|by intros l []]|]. intros at_.
  eapply (loads_to_andthen _ _ _ _ (fun _ => with_code F)); [|intros ?; apply IH].
  intros l [Hl HF]. split; [|done]. by apply (inv_aux l).
Qed.

(** The ranges that were rewritten stay clean while the ones after them are. *)
Lemma clean_ranges target errno_target ranges cursor done_ :
  0 <= cursor -> Forall (range_in e0) (done_ ++ ranges) -> StronglySorted range_before ranges ->
  Forall (fun d => Forall (range_before d) ranges) done_ ->
  loads_to False (with_code (all_clean done_)) (rewrite_syscall_ranges (R := R) target errno_target cursor ranges)
    (fun _ => with_code (all_clean (done_ ++ ranges))) inv.
Proof.
  revert cursor done_. induction ranges as [|[va size] ranges IH]; intros cursor done_ Hc Hin Hs Hd; simpl.
  { rewrite app_nil_r. by apply loads_to_done. }
  apply Forall_app in Hin as Hin'. destruct Hin' as [Hdone [Hr _]%Forall_cons]. apply StronglySorted_inv in Hs as [Hs Hbefore].
  eapply loads_to_andthen; [apply (loads_to_query _ _ _ (fun o l => with_code (all_clean done_) l /\ o = va - base_page e0))|].
  { intros l o Hl Ho. split; [done|]. eapply inv_pointer; [apply Hl|done]. }
  { by intros l []. }
  intros o. eapply (loads_to_andthen _ _ _ _ (fun a l => with_code (all_clean (done_ ++ [(va, size)])) l /\ cursor <= a.2)).
  - intros l [[Hl HF] ->]. pose proof (code_of_length e0 (bytes_of l) (va, size) (inv_length l Hl) Hr) as Hlen.
    set (code := slice _ _ _). assert (len code = size) as Hcode by exact Hlen.
    pose proof (svc_rewrite_length code (mapping (elf (linking l)) + (va - base_page e0)) (shim_address l) cursor (len (shim l))) as Hg.
    destruct (DirectSyscall.rewrite_linux_svc _ _ _ _ _) as [[code' cursor'] answer] eqn:Erw. simpl in Hg.
    destruct (inv_put_code l (va, size) code' Hl Hr) as (H & Hnew & Hold); [unfold len in *; simpl; lia|].
    cbn [fst snd] in H, Hnew, Hold. destruct answer as [rewrites|]; simpl; [|done].
    apply svc_rewrite_clean in Erw as [? Hclean]; [|apply (lo_shim e0 count t0 l Hl)|done].
    split; [|done]. split; [done|]. apply Forall_app. split; [|constructor; [|done]; unfold range_clean; by rewrite Hnew].
    unfold all_clean in *. rewrite Forall_forall in *. intros d Hdin. unfold range_clean. rewrite Hold; [by apply HF|by apply Hdone|].
    right. specialize (Hd d Hdin). by apply Forall_cons in Hd as [? _].
  - intros [rewrites cursor']. apply (loads_to_weaken _ (fun l => with_code (all_clean (done_ ++ [(va, size)])) l /\ cursor <= cursor') _
      _ (fun _ => with_code (all_clean ((done_ ++ [(va, size)]) ++ ranges))) _ inv); [done|by rewrite <- app_assoc|done|].
    intros l [Hl Hcur]. eapply loads_to_andthen; [apply clean_write| |exact Hl]. intros ?. apply IH; [lia|by rewrite <- app_assoc|done|].
    apply Forall_app. split; [|by constructor]. eapply Forall_impl; [exact Hd|]. by intros d [_ ?]%Forall_cons.
Qed.

Lemma inv_slice l range code : inv l -> loaded_slice (elf (linking l)) range.1 range.2 = Ok code -> code = code_of e0 (bytes_of l) range.
Proof.
  intros Hl. unfold loaded_slice. destruct (loaded_pointer _ _ _) as [o|] eqn:Eo; [|done]. apply (inv_pointer l) in Eo as ->; [|done].
  intros [= <-]. done.
Qed.

Lemma no_svc l ranges found :
  inv l -> has_direct_syscall (elf (linking l)) ranges found = Ok false -> found = false /\ all_clean ranges (bytes_of l).
Proof.
  intros Hl. revert found. induction ranges as [|[va size] ranges IH]; intros found; simpl; [intros [= ->]; split; [done|constructor]|].
  destruct (loaded_slice _ va size) as [code|] eqn:Es; [|done]. apply (inv_slice l (va, size)) in Es; [|done].
  intros [[-> Hcode]%orb_false_iff Hall]%IH. split; [done|]. constructor; [|done]. unfold range_clean. by rewrite <- Es.
Qed.

Lemma keeps_libc `{!SymbolResolver R} name : loads_to False inv (resolve_libc (R := R) name) (fun _ => inv) inv.
Proof.
  intros l Hl. unfold resolve_libc. destruct (resolve _ _) as [r answer].
  destruct (link_same (linking l) (put_resolver (linking l) r) (lo_link e0 count t0 l Hl) eq_refl eq_refl eq_refl eq_refl eq_refl) as [Hk He].
  pose proof (inv_linked l _ Hl Hk He). by destruct answer as [[]|].
Qed.

Lemma clean_syscalls `{!SymbolResolver R} :
  loads_to False inv (rewrite_direct_android_syscalls (R := R)) (fun _ => with_code (all_clean (executable_ranges e0))) inv.
Proof.
  eapply loads_to_andthen; [by apply inv_ranges|]. intros ranges l [Hl ->]. revert l Hl.
  change (loads_to False inv (let^ found := query (fun e => has_direct_syscall e (executable_ranges e0) false) in
    if negb found then done_with tt else let^ target := resolve_libc "syscall" in let^ errno_target := resolve_libc "__errno" in
    rewrite_syscall_ranges target errno_target 0 (executable_ranges e0)) (fun _ => with_code (all_clean (executable_ranges e0))) inv).
  eapply loads_to_andthen; [apply (loads_to_query _ _ _ (fun found l => inv l /\ (found = false -> all_clean (executable_ranges e0) (bytes_of l))))|].
  { intros l found Hl Ef. split; [done|]. intros ->. by apply no_svc in Ef as [_ ?]. }
  { done. }
  intros []; simpl.
  - eapply loads_to_andthen; [|intros target; eapply loads_to_andthen; [apply keeps_libc|intros errno_target]].
    { eapply loads_to_weaken; [| | |apply keeps_libc]; [by intros l []|done|done]. }
    eapply (loads_to_weaken _ (with_code (all_clean []))); [by intros l; split; [|constructor]| | |apply (clean_ranges _ _ _ _ [])];
      [done|done|done| | |constructor].
    + apply Forall_forall. intros r Hr. by apply executable_in.
    + by apply executable_sorted.
  - apply loads_to_done. intros l [Hl HF]. split; auto.
Qed.

(** *** Relocation and the guest *)

(** A property of the code. *)
Definition of_code (F : bytes -> Prop) : Prop := forall bs bs', same_code e0 bs bs' -> F bs -> F bs'.

Lemma clean_of_code : of_code (all_clean (executable_ranges e0)).
Proof.
  intros bs bs' Hs HF. unfold all_clean in *. rewrite Forall_forall in *. intros r Hr. unfold range_clean.
  rewrite (same_code_range e0 Hok Hloads bs bs' r Hr Hs). by apply HF.
Qed.

Section stable.
Context (F : bytes -> Prop) (HF : of_code F).

Lemma with_code_linked l s : with_code F l -> link_ok s -> extends (linking l) s -> with_code F (set_linking l s).
Proof.
  intros [Hl Hc] Hs He. split; [by apply inv_linked|]. eapply HF; [|exact Hc].
  apply (patched_same_code e0 Hloads); [apply (lo_image e0 count t0 l Hl)|apply He].
Qed.

Lemma keeps_relocation `{!SymbolResolver R} tlsdesc_resolver :
  loads_to (or_zero (field (info e0) AndroidRelaSize) <> 0) (with_code F)
    (lift (validate_symbols_and_apply_relocations (R := R) tlsdesc_resolver)) (fun _ => with_code F) inv.
Proof.
  intros l Hl. unfold lift.
  assert (stable (fun e => info e = info e0) (linking l)) as Hinfo by (unfold stable; destruct Hl as [[E _ _ _ _ _ _ _ _] _]; by rewrite E).
  pose proof (triple_relocate (or_zero (field (info e0) AndroidRelaSize) <> 0) tlsdesc_resolver (info e0) (fun H => H) (linking l)
    (lo_link e0 count t0 l (proj1 Hl)) Hinfo) as H.
  destruct (validate_symbols_and_apply_relocations _ _) as [[s answer]|]; [|done]. destruct H as (Hs & He & _).
  pose proof (with_code_linked l s Hl Hs He) as Hw. destruct answer; [done|apply Hw].
Qed.

(** The functions of the guest leave the code alone. *)
Hypothesis Hguest : forall function bs, same_code e0 bs (guest h function bs).1.

Lemma keeps_guest function : loads_to False (with_code F) (call_guest h function) (fun _ => with_code F) inv.
Proof.
  intros l [Hl Hc]. unfold call_guest. pose proof (Hguest function (bytes_of l)) as Hg. fold (bytes_of l).
  destruct (guest h function (bytes_of l)) as [bs answer]. simpl in Hg. split; [apply inv_bytes; [done|apply Hg]|by eapply HF].
Qed.

Lemma keeps_irelative relocations :
  Forall (pending_ok e0) relocations -> loads_to False (with_code F) (run_irelative h relocations) (fun _ => with_code F) inv.
Proof.
  induction relocations as [|[target function] relocations IH]; intros Hp; simpl; [by apply loads_to_done|].
  apply Forall_cons in Hp as [[Hw _] Hp]. eapply loads_to_andthen; [apply keeps_guest|]. intros implementation.
  destruct (implementation =? 0); [by intros l []|]. eapply (loads_to_andthen _ _ _ _ (fun _ => with_code F)); [|intros ?; by apply IH].
  intros l Hl. unfold lift.
  assert (stable (can_write target (len (u64_le implementation))) (linking l)) as Hcan.
  { unfold stable, can_write. destruct Hl as [[E _ _ _ _ _ _ _ _] _]. rewrite E. unfold len. rewrite length_u64_le. exact Hw. }
  pose proof (triple_write_back False target (u64_le implementation) (linking l) (lo_link e0 count t0 l (proj1 Hl)) Hcan) as H.
  destruct (write_back _ _ _) as [[s answer]|]; [|done]. destruct H as (Hs & He & _).
  pose proof (with_code_linked l s Hl Hs He) as Hk. destruct answer; [done|apply Hk].
Qed.

Lemma keeps_deferred page_size planned :
  length planned = count ->
  loads_to False (with_code F) (apply_irelative_relocations h page_size planned) (fun _ => with_code F) inv.
Proof.
  intros Hcount l Hl. unfold apply_irelative_relocations. destruct (pending_irelative (linking l)) as [|p pending]; [done|].
  revert l Hl. change (loads_to False (with_code F)
    (let^ _ := protect_executable h page_size (length planned) 0 planned in let^ relocations := take_pending in run_irelative h relocations)
    (fun _ => with_code F) inv).
  eapply (loads_to_andthen _ _ _ _ (fun _ => with_code F)).
  { intros l [Hl Hc]. pose proof (protect_executable_ok h page_size planned (length planned) 0 planned l ltac:(lia)) as H.
    rewrite !Hcount in *. specialize (H (lo_pages e0 count t0 l Hl)).
    destruct (protect_executable _ _ _ _ _ l) as [[l' answer]|]; [|done]. destruct H as [Ho Hp].
    assert (with_code F l') as Hl'; [|destruct answer; [done|apply Hl']].
    split; [|by rewrite Ho]. rewrite Ho. destruct Hl. constructor; simpl; done. }
  intros ?. eapply (loads_to_andthen _ _ _ _ (fun relocations l => with_code F l /\ Forall (pending_ok e0) relocations)).
  - intros l [Hl Hc]. unfold take_pending. destruct Hl as [E [He ? ? ? Hp] ? ? ? ? ? ? ?]. split; [split; [|done]|].
    + by constructor.
    + rewrite E in Hp. exact Hp.
  - intros relocations l [Hl Hp]. by apply keeps_irelative.
Qed.
End stable.

(** *** The integrity hash *)

(** The image and the instructions that were replaced. *)
Definition view (l : Loading R) : LoadedElf * list (Z * Z) := (elf (linking l), stack_guard_rewrites l ++ direct_syscall_rewrites l).
Definition seen (G : LoadedElf * list (Z * Z) -> Prop) (l : Loading R) : Prop := inv l /\ G (view l).

(** A property of the code before a hash of 32 bytes was replaced, where instructions were. *)
Definition but_for_hash (F : bytes -> Prop) (v : LoadedElf * list (Z * Z)) : Prop :=
  F (image v.1) \/
  v.2 <> [] /\ exists at_ hash bs, F bs /\ length hash = 32%nat /\ (at_ + 32 <= length bs)%nat /\ image v.1 = copy_at at_ hash bs.

Lemma loads_to_may {A} (X Y : Prop) (P : Loading R -> Prop) (m : L R A) Q E : (X -> Y) -> loads_to X P m Q E -> loads_to Y P m Q E.
Proof. intros HXY H l Hl. specialize (H l Hl). destruct (m l) as [[l' []]|]; auto. Qed.

Lemma loads_to_abort {A} (X : Prop) (P : Loading R -> Prop) (m : L R A) Q E : loads_to False P m Q E -> loads_to X P m Q E.
Proof. by apply loads_to_may. Qed.

Lemma loads_to_ask {A} (P E : Loading R -> Prop) (f : LoadedElf -> option (result A LoadError)) :
  (forall l, P l -> E l) -> (forall l, P l -> f (elf (linking l)) <> None) -> loads_to False P (ask_image f) (fun _ => P) E.
Proof.
  intros HE Hf l Hl. unfold ask_image. specialize (Hf l Hl). destruct (f (elf (linking l))) as [[a|e]|]; simpl; [done|by apply HE|done].
Qed.

Lemma loads_to_same {A} X (P E : Loading R -> Prop) (f : LoadedElf -> result A LoadError) :
  (forall l, P l -> E l) -> loads_to X P (query f) (fun _ => P) E.
Proof. intros HE. by apply loads_to_query. Qed.

Lemma exports_return e : elf_ok e -> exported_symbols e <> None.
Proof.
  intros He. unfold exported_symbols. pose proof (symbol_count_returns e). destruct (symbol_count e) as [[n|]|]; [|done|done].
  destruct (version_tables_ok e n He) as [_ ([versions|] & -> & _)]; done.
Qed.

Lemma export_returns e name : elf_ok e -> exported_address e name <> None.
Proof.
  intros He. unfold exported_address, exported_address_bytes. pose proof (exports_return e He). by destruct (exported_symbols e) as [[]|].
Qed.

Lemma function_returns e name : resolve_function_bytes e name <> None.
Proof. unfold resolve_function_bytes. pose proof (symbol_count_returns e). by destruct (symbol_count e) as [[]|]. Qed.

(** A host span that was translated is inside the mapping. *)
Lemma host_span_inside e start n flag what a :
  elf_ok e -> 0 <= n -> host_span_to_virtual e start n flag what = Ok a -> 0 <= start - mapping e /\ start - mapping e + n <= mapping_size e.
Proof.
  intros He Hn. unfold host_span_to_virtual. destruct (checked_sub _ _) as [o|] eqn:Eo; simpl; [|done]. apply checked_sub_Some in Eo as [-> ?].
  destruct (checked_add _ _ _) as [b|] eqn:Eb; simpl; [|done]. apply checked_add_Some in Eb as [-> ?].
  destruct (require_loaded_range _ _ _ _ _) as [[]|] eqn:Er; [|done]. intros _.
  apply range_inside in Er as [? ?]; [|done..]. lia.
Qed.

Lemma hash_inside e function a : elf_ok e -> hash_address e function = Ok a -> 0 <= a - mapping e /\ a - mapping e + 32 <= mapping_size e.
Proof.
  intros He. unfold hash_address. intros H. ok_inv H. destruct (_ || _) in H; [done|]. ok_inv H. destruct (_ =? 0) in H; [done|].
  ok_inv H. injection H as <-. by eapply host_span_inside.
Qed.

Hypothesis Hsha : forall bs, length (sha256 h bs) = 32%nat.

(** An image that exports the hash. *)
Definition exports_hash : Prop :=
  exists bs symbols, exported_symbols (set_image e0 bs) = Some (Ok symbols) /\ has_fips_hash symbols = true.

Lemma keeps_integrity F :
  loads_to exports_hash (with_code F) (refresh_boringssl_integrity_after_rewrite h) (fun _ => seen (but_for_hash F)) inv.
Proof.
  assert (forall l, with_code F l -> inv l) as Hinv by by intros l [].
  assert (forall l, with_code F l -> elf_ok (elf (linking l))) as Hel by (intros l [Hl _]; apply (lo_link e0 count t0 l Hl)).
  eapply (loads_to_andthen _ _ _ _ (fun symbols l => with_code F l /\ exported_symbols (elf (linking l)) = Some (Ok symbols))).
  { intros l Hl. unfold ask_image. pose proof (exports_return _ (Hel l Hl)). destruct (exported_symbols (elf (linking l))) as [[symbols|]|] eqn:Es; simpl; [done|by apply Hinv|done]. }
  intros symbols. destruct (has_fips_hash symbols) eqn:Efips; simpl.
  2: { apply loads_to_done. intros l [[Hl Hc] _]. split; [done|by left]. }
  intros l0 [Hl0 Hsym].
  assert exports_hash as X by (exists (bytes_of l0), symbols; split; [|done]; by rewrite <- Hsym, (lo_image e0 count t0 l0 (Hinv l0 Hl0))).
  clear Hsym. revert l0 Hl0. do 4 (eapply loads_to_andthen; [apply loads_to_abort, (loads_to_ask (with_code F)); [done|intros; by apply export_returns, Hel]|intros ?]).
  do 2 (eapply loads_to_andthen; [by apply loads_to_same|intros ?]).
  eapply loads_to_andthen; [apply loads_to_abort, (loads_to_ask (with_code F)); [done|intros; by apply function_returns]|]. intros function.
  eapply loads_to_andthen.
  { apply (loads_to_query _ _ _ (fun at_ l => with_code F l /\ 0 <= at_ - mapping e0 /\ at_ - mapping e0 + 32 <= mapping_size e0)); [|done].
    intros l at_ Hl Ha. split; [done|]. pose proof Hl as [[E _ _ _ _ _ _ _ _] _]. apply hash_inside in Ha; [|by apply Hel]. by rewrite E in Ha. }
  intros at_ l [Hl Hat]. pose proof Hl as [Hi Hc]. cbv beta zeta. destruct (original_text _ _ _ _ _) as [original|]; [|done].
  destruct (negb _); [done|].
  assert (forall hash, length hash = 32%nat -> stack_guard_rewrites l ++ direct_syscall_rewrites l <> [] ->
    seen (but_for_hash F) (put_code l (at_ - mapping (elf (linking l))) hash)) as Hput.
  { intros hash Hh Hne. assert (mapping (elf (linking l)) = mapping e0) as -> by by rewrite (lo_image e0 count t0 l Hi).
    pose proof (inv_length l Hi) as Hlen. unfold len in Hlen.
    assert (length (copy_at (Z.to_nat (at_ - mapping e0)) hash (bytes_of l)) = length (bytes_of l)) as Hcopy by (apply length_copy_at; lia).
    split; [by apply inv_bytes|]. right. split; [done|].
    exists (Z.to_nat (at_ - mapping e0)), hash, (bytes_of l). split_and!; [done|done|lia|done]. }
  destruct (stack_guard_rewrites l) as [|g gs] eqn:Eg; [destruct (direct_syscall_rewrites l) as [|d ds] eqn:Ed|];
    [split; [done|by left]|destruct (granted _ _ _ _); [apply Hput; [apply Hsha|done]|done]..].
Qed.

(** *** Templates, initializers, finalizers *)

Lemma keeps_template G : loads_to False (seen G) refresh_tls_template (fun _ => seen G) inv.
Proof.
  intros l [Hl HG]. unfold refresh_tls_template. destruct (tls_header l) as [header|] eqn:Eh; [|done].
  destruct (tls_module (linking l)) as [id|] eqn:Em; [|done]. destruct (file_size header =? 0); [done|].
  destruct (loaded_slice _ _ _) as [template|] eqn:Es; [|done]. split; [|done].
  pose proof Hl as [E [He Ht Hm Htok Hp] Hpages Hshim Hcarries Hkeeps Htokens Hregistry Hfresh]. destruct (Hfresh id Em) as [Hblocks Hmod].
  destruct (Hmod header Eh) as (m & Hid & Hsize).
  assert (len template <= tmemory_size m) as Hlen.
  { revert Es. unfold loaded_slice. destruct (loaded_pointer _ _ _) as [o|] eqn:Eo; [|done]. intros [= <-].
    apply loaded_pointer_Ok in Eo as (-> & ? & _ & ?). pose proof (elf_length _ He). unfold len in *. rewrite length_slice by lia. lia. }
  assert (registry (refresh_template (tls (linking l)) id template) = registry (tls (linking l)) /\
    blocks (refresh_template (tls (linking l)) id template) = blocks (tls (linking l)) /\
    modules (refresh_template (tls (linking l)) id template) !! id = Some
      {| tmemory_size := tmemory_size m; talignment := talignment m; template := template; accepting := accepting m;
         active_threads := active_threads m |}) as (Er & Eb & Emod).
  { unfold refresh_template. rewrite Hid. simpl. by rewrite lookup_insert_eq. }
  constructor; simpl; try done.
  - constructor; simpl; try done; [by eapply refresh_ok| |by rewrite Er]. intros id' Hid'. simplify_eq. by rewrite Emod.
  - etrans; [done|]. constructor; [by eapply rtc_once, step_refresh|done|]. unfold refresh_template. rewrite Hid. simpl.
    intros id' m' Hm'. destruct (decide (id' = id)) as [->|Hne]; [|rewrite lookup_insert_ne by done; eauto].
    rewrite lookup_insert_eq. eexists. split; [done|]. simpl. congruence.
  - by rewrite Er.
  - by rewrite Er.
  - intros id' Hid'. simplify_eq. rewrite Eb. split; [done|]. intros header' Hheader. rewrite Eh in Hheader.
    simplify_eq. eexists. split; [exact Emod|done].
Qed.

(** The diagnostic, where it is switched on. *)
Lemma keeps_preflight F :
  loads_to (preflight_boringssl h = true) (with_code F) (preflight h) (fun _ => with_code (fun bs => preflight_boringssl h = false -> F bs)) inv.
Proof.
  intros l [Hl HF]. unfold preflight. destruct (negb _ || negb _) eqn:Eoff; [by split|].
  destruct (preflight_boringssl h); [|by rewrite orb_true_r in Eoff].
  destruct (loaded_pointer _ _ _) as [o|] eqn:Eo; [|done]. apply loaded_pointer_Ok in Eo as (-> & ? & _ & ?).
  pose proof (inv_length l Hl) as Hlen. rewrite (lo_image e0 count t0 l Hl) in *. simpl in *.
  destruct (granted _ _ _ _); [|done]. split; [|done]. apply inv_bytes; [done|]. apply length_copy_at. rewrite length_app, !length_u32_le. unfold bytes_of, len in *. lia.
Qed.

(** *** The whole of finishing *)

Definition code_free (bs : bytes) : Prop := preflight_boringssl h = false -> all_clean (executable_ranges e0) bs.

(** A finished image. *)
Record finished (planned : list Z) (l : Loading R) : Prop := {
  fin_inv : inv l;
  fin_pages : pages l = planned;
  fin_code : but_for_hash code_free (view l);
  fin_initializers : validate_initializer_entries (elf (linking l)) = Ok tt;
  fin_finalizers : collect_finalizers (elf (linking l)) = Ok (finalizers l) }.

(** Why finishing can fail to return. *)
Definition may_abort : Prop :=
  or_zero (field (info e0) AndroidRelaSize) <> 0 \/ preflight_boringssl h = true \/ exports_hash.

Lemma inv_pages l l' : inv l -> only_pages l l' -> pages_ok count (pages l') -> inv l'.
Proof. intros [] Ho Hp. rewrite Ho. by constructor. Qed.

Lemma finish_ok `{!SymbolResolver R} page_size planned :
  0 < page_size -> no_wx planned -> length planned = count ->
  (forall function bs, same_code e0 bs (guest h function bs).1) ->
  loads_to may_abort inv (finish_load (R := R) h page_size planned)
    (fun _ => finished planned) inv.
Proof.
  intros Hps Hwx Hcount Hguest. assert (of_code code_free) as HF by (intros bs bs' Hs HF Hoff; by eapply clean_of_code, HF).
  unfold finish_load. eapply loads_to_andthen; [apply loads_to_abort, keeps_guard|intros ?; cbv beta].
  eapply loads_to_andthen; [apply loads_to_abort, clean_syscalls|intros ?; cbv beta].
  eapply loads_to_andthen; [eapply loads_to_may, keeps_preflight; by right; left|intros ?; cbv beta]. fold code_free.
  eapply loads_to_andthen; [eapply loads_to_may, keeps_relocation; [by left|done]|intros ?; cbv beta].
  eapply loads_to_andthen; [by apply loads_to_abort, keeps_deferred|intros ?; cbv beta].
  eapply loads_to_andthen; [eapply loads_to_may, keeps_integrity; by right; right|intros ?; cbv beta].
  eapply loads_to_andthen; [apply loads_to_abort, keeps_template|intros ?; cbv beta].
  eapply loads_to_andthen.
  { apply (loads_to_query _ _ _ (fun _ l => seen (but_for_hash code_free) l /\ validate_initializer_entries (elf (linking l)) = Ok tt));
      [by intros l [] Hl E|by intros l []]. }
  intros ?. eapply (loads_to_andthen _ _ _ _ (fun _ l => seen (but_for_hash code_free) l /\
    validate_initializer_entries (elf (linking l)) = Ok tt /\ collect_finalizers (elf (linking l)) = Ok (finalizers l))).
  { intros l [[Hl HG] Hi]. unfold prepare_finalizers, andthen, query. destruct (collect_finalizers _) as [fs|] eqn:Ef; [|done].
    split_and!; [|done|done]. split; [|done]. by apply (inv_aux l). }
  intros ? l [[Hl HG] [Hi Hf]]. unfold apply_final_protections.
  pose proof (protect_final_ok h page_size planned Hps Hwx (length planned) 0 planned l) as H. simpl in H.
  rewrite Hcount in *. specialize (H ltac:(lia) eq_refl eq_refl (lo_pages e0 count t0 l Hl) ltac:(by rewrite !take_0)).
  destruct (protect_final _ _ _ _ _ l) as [[l' [u|error]]|]; [| |done]; destruct H as [Ho Hp].
  - assert (inv l') as Hl' by (eapply inv_pages; [done|done|]; by rewrite Hp). rewrite Ho in *. by constructor.
  - by eapply inv_pages.
Qed.
End loading.
