(* ===== verification/ElfLoadWhole.v ===== *)
(** * A whole load ([lib.rs]): what staging establishes, and what [load_with_resolver] guarantees *)
From S2P Require Import Prelude ElfBase ElfRewrite ElfPlan ElfSegments ElfDynamic ElfTls ElfImage ElfRelocate ElfLoad ElfLoadSafe.
#[local] Open Scope Z_scope.

(** ** Staging *)

Lemma parse_segments_tls bs metadata_only s ls dyn header :
  parse_segments bs metadata_only = Ok (s, ls, dyn) -> stls s = Some header ->
  header_ok header /\ validate_tls_segment bs header ls = Ok tt.
Proof.
  intros H Ht. pose proof (parse_segments_ok _ _ _ _ _ H) as ((_ & _ & _ & Hh) & _). split; [by apply Hh|].
  revert H. unfold parse_segments. destruct (parse_file_header bs) as [[at_ n]|]; [|done].
  destruct (scan_headers _ _ _ _ _ _) as [s'|]; [|done]. case_bool_decide; [done|]. intros Hk. ok_inv Hk. simplify_eq.
  rewrite Ht in *. by repeat match goal with u : unit |- _ => destruct u end.
Qed.

Lemma plan_tls host bs metadata_only appcompat plan header :
  parse_image_with_policy_and_appcompat host bs metadata_only appcompat = Ok plan -> ElfPlan.tls plan = Some header ->
  header_ok header /\ validate_tls_segment bs header (loads plan) = Ok tt.
Proof.
  unfold parse_image_with_policy_and_appcompat. intros H.
  destruct (parse_segments bs metadata_only) as [[[s ls] dyn]|] eqn:Es; [|done]. cbv beta iota in H.
  destruct (checked_page_size host); [|done]. destruct (present appcompat && _ && _ && _) in H; [done|]. ok_inv H.
  destruct (present appcompat && _ && _) in H; [done|]. ok_inv H. injection H as <-. simpl. by eapply parse_segments_tls.
Qed.

Lemma copy_loads_keeps plan bs ls r :
  0 < page_size plan -> Forall (load_ok bs) ls -> staged plan r ->
  returns (copy_loads plan bs ls r) (fun r' => length (memory r') = length (memory r) /\ protections r' = protections r).
Proof.
  intros Hp. revert r. induction ls as [|l ls IH]; intros r Hl Hst; simpl; [by apply returns_ok|].
  apply Forall_cons in Hl as [Hl Hls]. eapply returns_bind; [by apply copy_load_ok|]. intros r1 (Hst1 & Hlen1 & Hp1 & _).
  eapply returns_weaken; [by apply IH|]. intros r' [??]. split; congruence.
Qed.

(** The reservation after [populate]: as long as it was, and nothing writable and executable. *)
Lemma populate_pages bs plan mprotect :
  plan_ok bs plan ->
  returns (populate mprotect (reserve (page_size plan) (reservation_size plan)) plan bs) (fun r =>
    length (memory r) = Z.to_nat (reservation_size plan) /\ pages_ok (length (page_protections plan)) (protections r)).
Proof.
  intros Hplan. pose proof (reserved_pages bs plan Hplan) as Hlen. destruct Hplan as [Hp Hl _ _ _ _ _ _ _ _ _ _ _ _].
  pose proof (page_ok_bound _ Hp). unfold populate. set (r0 := reserve _ _) in *.
  destruct (stage_pages mprotect _ _ _ r0) as [r1|] eqn:E1; [|apply returns_err].
  apply (stage_pages_ok mprotect (page_size plan) 0) in E1 as (Hm1 & Hlen1 & Hk1); [|lia].
  assert (pages_ok (length (page_protections plan)) (protections r1)) as Hpages.
  { split; [congruence|]. apply Forall_forall. intros x [k Hk]%list_elem_of_lookup. rewrite Hk1 in Hk.
    assert (forall q, protections r0 !! k = Some q -> q = PROT_NONE) as Hnone by by intros q [-> _]%lookup_replicate.
    repeat case_match; try (apply Hnone in Hk as ->; done). destruct (protections r0 !! k); simplify_eq/=; done. }
  assert (staged plan r1) as Hst.
  { intros k p Hk Hne. rewrite Hk1, Nat.sub_0_r, Hk, decide_True by lia. rewrite (proj2 (Z.eqb_neq _ _) Hne).
    destruct (lookup_lt_is_Some_2 (protections r0) k) as [q ->]; [|done]. rewrite Hlen. by apply lookup_lt_is_Some_1. }
  eapply returns_weaken; [apply copy_loads_keeps; [lia|done|done]|]. intros r [Hlr Hpr]. rewrite Hpr. split; [|done].
  rewrite Hlr, Hm1. simpl. unfold zeroed. by rewrite length_replicate.
Qed.

Lemma new_module_carries t header bs ls t' r :
  tls_ok t -> header_ok header -> validate_tls_segment bs header ls = Ok tt -> new_module t header bs = (t', r) ->
  carries t t' /\ registry t' = registry t.
Proof.
  intros Ht Hok Hv En. pose proof (step_new _ _ _ _ _ _ Hok Hv En) as Hstep. revert En. unfold new_module.
  repeat case_match; intros [= <- <-]; try done. split; [|done]. constructor; [by apply rtc_once|done|]. simpl. intros id m Hm.
  destruct (ok_modules t Ht id m Hm) as (? & _). rewrite lookup_insert_ne by lia. eauto.
Qed.

(** The module of a segment. *)
Lemma stage_module_ok t header bs ls t' r :
  tls_ok t -> (forall h, header = Some h -> header_ok h /\ validate_tls_segment bs h ls = Ok tt) ->
  stage_module t header bs = (t', r) ->
  carries t t' /\ tls_ok t' /\ registry t' = registry t /\
  forall id, r = Ok (Some id) -> (forall thread, blocks t' !! (thread, id) = None) /\
    forall h, header = Some h -> exists m, modules t' !! id = Some m /\ 0 <= file_size h <= tmemory_size m.
Proof.
  intros Ht Hh. unfold stage_module. destruct header as [header|]; [|by intros [= <- <-]].
  destruct (Hh header eq_refl) as [Hok Hv]. destruct (new_module t header bs) as [t1 answer] eqn:En. intros [= <- <-].
  destruct (new_module_carries _ _ _ _ _ _ Ht Hok Hv En) as [Hcarries Ereg].
  split_and!; [done|by eapply new_module_ok|done|]. intros id Hid. destruct answer as [id'|]; [|done]. simpl in Hid. injection Hid as ->.
  destruct (tls_segment_layout bs header ls Hok Hv) as [_ Hsize]. revert En. unfold new_module, to_usize.
  destruct (checked_slice _ _ _ _); [|done]. destruct (checked_add _ _ _); [|done]. intros [= <- <-]. simpl. split.
  - intros thread. destruct (blocks t !! (thread, next_tls_module_id t)) as [b|] eqn:Eb; [|done].
    destruct (ok_blocks t Ht _ _ _ Eb) as (m & Hm & _). destruct (ok_modules t Ht _ _ Hm) as (? & _). lia.
  - intros h [= <-]. eexists. split; [apply lookup_insert_eq|]. simpl. destruct Hok as (_ & _ & _ & _ & Hf & _). unfold u64_range in Hf. lia.
Qed.

(** What the host does: the page size fits, addresses are not negative, a hash has 32 bytes. *)
Record host_ok (h : Host) : Prop := {
  host_page : i32_range (host_page_size h);
  host_mmap : forall n pointer, mmap h n = Ok pointer -> 0 <= pointer;
  host_sha : forall bs, length (sha256 h bs) = 32%nat }.

(** The fields of an image that the plan decides. *)
Definition planned_image (plan : ParsedImage) (e : LoadedElf) : Prop :=
  image_loads e = loads plan /\ base_page e = minimum_page plan /\ mapping_size e = image_size plan.

Lemma planned_ok bs plan e :
  plan_ok bs plan -> planned_image plan e -> len (image e) = image_size plan -> elf_ok e /\ loads_ok e.
Proof.
  intros [_ Hl Hs (? & ? & ? & ? & ? & Hin) _ _ _ _ _ _ _ _ _ _] (El & Eb & Em) Hlen. rewrite Forall_forall in Hl. split.
  - constructor; rewrite ?El, ?Eb, ?Em; try lia. intros l Hl'. destruct (Hin l Hl'). destruct (Hl l Hl'). lia.
  - constructor; rewrite ?El; [done| |]; intros l Hl'; destruct (Hl l Hl') as [(_ & _ & _ & _ & Hf & _) ? ? ? ? ? ?]; [|done].
    unfold u64_range in Hf. lia.
Qed.

(** The image that is staged. *)
Lemma staged_loading_ok h bs plan base r info t t' module :
  plan_ok bs plan -> 0 <= base -> length (memory r) = Z.to_nat (reservation_size plan) ->
  pages_ok (length (page_protections plan)) (protections r) -> tls_ok t' -> carries t t' -> registry t' = registry t ->
  (forall id, module = Some id -> (forall thread, blocks t' !! (thread, id) = None) /\
    is_Some (modules t' !! id) /\
    forall h, ElfPlan.tls plan = Some h -> exists m, modules t' !! id = Some m /\ 0 <= file_size h <= tmemory_size m) ->
  let l := staged_loading h plan base r info t' module in
  loads_ok (elf (linking l)) /\ loading_ok (elf (linking l)) (length (page_protections plan)) t l.
Proof.
  intros Hplan Hbase Hmem Hpages Ht Hsteps Hreg Hmod l.
  assert (planned_image plan (elf (linking l)) /\ len (image (elf (linking l))) = image_size plan) as [Hpl Hlen].
  { split; [done|]. simpl. destruct Hplan as [Hp _ _ (? & ? & ? & _) ? ? ? ? ? _ ? _ (n & Hn%count_direct_syscalls_mono & ?) _]. pose proof (page_ok_bound _ Hp).
    pose proof (len_nonneg (page_protections plan)). unfold len. rewrite length_slice; [lia|]. rewrite Hmem.
    unfold DirectSyscall.DIRECT_SYSCALL_VENEER_BYTES in *. lia. }
  destruct (planned_ok bs plan _ Hplan Hpl Hlen) as [He Hl]. split; [done|].
  constructor; simpl; try done.
  - constructor; simpl; try done; [by intros id (_ & ? & _)%Hmod|]. split; [constructor|]. by intros token ?%not_elem_of_nil.
  - destruct Hplan as [Hp _ _ (? & ? & ? & _) ? ? ? -> _ _ _ _ _ _]. pose proof (page_ok_bound _ Hp). lia.
  - by rewrite Hreg.
  - by intros token ?%not_elem_of_nil.
  - rewrite Hreg. by left.
  - intros id Hid. destruct (Hmod id Hid) as (? & _ & ?). done.
Qed.

(** The storage after a failure: the descriptors are those from before. *)
Definition ended (t t' : Tls) : Prop := carries t t' /\ registry t' = registry t.

Lemma ended_refl t : ended t t.
Proof. by split. Qed.
#[local] Hint Resolve ended_refl : core.

(** Ending the storage of an image whose module holds no block. *)
Lemma unload_total t thread tokens module :
  tls_ok t -> NoDup tokens -> (forall token, token ∈ tokens -> is_Some (registry t !! token)) ->
  (forall id, module = Some id -> is_Some (modules t !! id) /\ forall thread', blocks t !! (thread', id) = None) ->
  exists t', unload t thread tokens module = Some t' /\ carries t t' /\
    forall token, registry t' !! token = if decide (token ∈ tokens) then None else registry t !! token.
Proof.
  intros Ht Hnd Htok Hmod.
  assert (exists t', unload t thread tokens module = Some t' /\ blocks t' = blocks t /\
    (forall id m, modules t !! id = Some m -> exists m', modules t' !! id = Some m' /\ tmemory_size m' = tmemory_size m) /\
    forall token, registry t' !! token = if decide (token ∈ tokens) then None else registry t !! token) as (t' & E & Hb & Hm & Hr).
  { unfold unload. destruct (unregister_total t tokens Hnd Htok) as [t1 E1]. rewrite E1. simpl.
    apply unregister_ok in E1 as (Ht1 & Em1 & Eb1 & Er1); [|done].
    destruct module as [id|]; [|exists t1; rewrite Em1; split_and!; eauto]. destruct (Hmod id eq_refl) as [[m Hid] Hb].
    unfold release_current_thread_tls, seal_for_unload. rewrite Eb1, Hb. simpl. rewrite Em1, Hid.
    rewrite <- Em1 in Hid. destruct (ok_modules t1 Ht1 id m Hid) as (_ & _ & Hact).
    assert (holders t1 id = ∅) as E0.
    { apply set_eq. intros [th j]. rewrite elem_of_holders, Eb1. simpl. split; [|set_solver]. intros [-> Hs]. by rewrite Hb in Hs; destruct Hs. }
    rewrite Hact, E0, size_empty. eexists. split_and!; [done|done| |done]. simpl. rewrite Em1. intros id' m' Hm'.
    destruct (decide (id' = id)) as [->|Hne]; [|rewrite lookup_insert_ne by done; eauto]. rewrite lookup_insert_eq. eexists. split; [done|].
    rewrite Em1 in Hid. simpl. congruence. }
  exists t'. split_and!; [done| |done]. constructor; [by eapply rtc_once, step_unload|done|done].
Qed.

(** Dropping an image that holds no block. *)
Lemma drop_total {R} e0 count t thread (l : Loading R) :
  loading_ok e0 count t l -> exists t', drop_staged thread l = Some t' /\ ended t t'.
Proof.
  intros [_ [_ Ht Hm [Hnd Htok] _] _ _ Hcarries Hkeeps Htk Hreg Hfresh].
  destruct (unload_total (tls (linking l)) thread (tls_descriptor_tokens (linking l)) (tls_module (linking l)) Ht Hnd Htok) as (t' & E & Hc & Hr).
  { intros id Hid. split; [by apply Hm|]. by apply Hfresh. }
  exists t'. split; [done|split; [by etrans|]]. apply map_eq. intros token. rewrite Hr. case_decide as Hin; [by rewrite Htk|].
  destruct (registry t !! token) as [c|] eqn:E1; [by eapply lookup_weaken|].
  destruct (registry (tls (linking l)) !! token) as [c|] eqn:E2; [|done]. destruct (Hreg token) as [[]|]; [by rewrite E2|by simplify_eq..].
Qed.

Lemma names_ok {R} count t (l : Loading R) e :
  loads_ok (elf (linking l)) -> loading_ok (elf (linking l)) count t l -> materialize_dynamic_names (elf (linking l)) = Ok e ->
  loads_ok e /\ loading_ok e count t (set_linking l (put_elf (linking l) e)) /\ info e = info (elf (linking l)) /\
  forall plan, planned_image plan (elf (linking l)) -> planned_image plan e.
Proof.
  intros [] [E [[] ? ? ? Hp] ? ? ? ?] H. revert H. unfold materialize_dynamic_names.
  destruct (collect _ _); [|done]. destruct (transpose _ _); [|done]. do 2 (case_match; [done|]). intros [= <-].
  split_and!; [by constructor| |done|done]. by constructor.
Qed.

(** What staging establishes. *)
Lemma stage_ok h thread t bs appcompat :
  host_ok h -> tls_ok t ->
  match stage_with_appcompat h thread t bs appcompat with
  | Some (t', Ok staged) =>
      let l := staged_image staged in
      exists plan, parse_image_with_policy_and_appcompat (host_page_size h) bs false appcompat = Ok plan /\
        staged_page_size staged = page_size plan /\ staged_protections staged = page_protections plan /\
        planned_image plan (elf (linking l)) /\ parse_dynamic bs (dynamic plan) = Ok (info (elf (linking l))) /\
        loads_ok (elf (linking l)) /\ loading_ok (elf (linking l)) (length (page_protections plan)) t l /\ tls (linking l) = t' /\
        tls_descriptor_tokens (linking l) = []
  | Some (t', Err _) => ended t t'
  | None => False
  end.
Proof.
  intros [Hpage Hmmap _] Ht. unfold stage_with_appcompat. destruct (negb (aarch64 h)); [done|]. cbv beta iota zeta.
  destruct (parse_image_with_policy_and_appcompat (host_page_size h) bs false appcompat) as [plan|] eqn:Eplan; cbv beta iota; [|done].
  pose proof (parse_image_ok _ _ _ _ _ Hpage Eplan) as Hplan.
  destruct (mmap h (reservation_size plan)) as [base|] eqn:Emap; cbv beta iota; [|done]. apply Hmmap in Emap.
  destruct (base =? 0); cbv beta iota; [done|]. destruct (populate_pages bs plan (mprotect h) Hplan) as (answer & -> & Hr).
  destruct answer as [r|]; cbv beta iota; [|done]. destruct (Hr r eq_refl) as [Hmem Hpages].
  destruct (parse_dynamic bs (dynamic plan)) as [dynamic_info|] eqn:Ed; cbv beta iota; [|done].
  destruct (validate_dynamic_capabilities dynamic_info); cbv beta iota; [|done].
  destruct (stage_module t (ElfPlan.tls plan) bs) as [t1 module] eqn:Em.
  pose proof (stage_module_ok t _ bs (loads plan) t1 module Ht ltac:(intros; by eapply plan_tls) Em) as (Hsteps & Ht1 & Hreg & Hmod).
  destruct module as [module|]; [|split; [done|by rewrite Hreg]].
  destruct (staged_loading_ok h bs plan base r dynamic_info t t1 module) as [Hl Hload]; [done..| |].
  { intros id ->. destruct (Hmod id eq_refl) as [Hb Hh]. split_and!; [done| |done].
    destruct (ElfPlan.tls plan) as [header|]; [|by simplify_eq/=]. destruct (Hh header eq_refl) as (m & -> & _). done. }
  set (l := staged_loading _ _ _ _ _ _ _) in *. destruct (materialize_dynamic_names (elf (linking l))) as [e|] eqn:En.
  - destruct (names_ok _ _ l e Hl Hload En) as (? & ? & Hinfo & Hp). cbv beta iota zeta. exists plan. split_and!; try done.
    + apply Hp. by split_and!.
    + simpl. by rewrite Hinfo.
  - destruct (drop_total _ _ _ thread l Hload) as (t2 & -> & ?). done.
Qed.

(** ** Calls into the image *)

(** An address of the host inside an executable load. *)
Definition callable (e : LoadedElf) (pointer : Z) : Prop := in_code e (pointer - mapping e).

Lemma executable_range_in_code e a n what : 0 < n -> require_loaded_range e a n (Some PF_X) what = Ok tt -> in_code e (a - base_page e).
Proof.
  intros Hn (_ & l & Hin & (? & ? & _ & Hx)%load_covers_true)%require_loaded_range_Ok. exists l. split_and!; [done|done|lia|lia].
Qed.

Lemma host_executable_callable e pointer what : require_host_executable e pointer what = Ok tt -> callable e pointer.
Proof.
  unfold require_host_executable. destruct (checked_sub _ _) as [o|] eqn:Eo; simpl; [|done]. apply checked_sub_Some in Eo as [-> _].
  destruct (checked_add _ _ _) as [a|] eqn:Ea; simpl; [|done]. apply checked_add_Some in Ea as [-> _].
  intros H%executable_range_in_code; [|done]. unfold callable. by replace (base_page e + (pointer - mapping e) - base_page e) with (pointer - mapping e) in H by lia.
Qed.

Lemma collect_Forall {A B E} (f : A -> result B E) l bs : collect f l = Ok bs -> Forall2 (fun a b => f a = Ok b) l bs.
Proof.
  revert bs. induction l as [|a l IH]; intros bs; simpl; [intros [= <-]; constructor|].
  destruct (f a) eqn:Ef; [|done]. destruct (collect f l) eqn:Ec; [|done]. intros [= <-]. constructor; auto.
Qed.

(** The functions [initialize] calls, and the ones [finalize] calls. *)
Lemma initializers_callable e index pointer :
  validate_initializer_entries e = Ok tt -> 0 <= index < or_zero (field (info e) InitArraySize) / 8 ->
  array_entry e (or_zero (field (info e) InitArray)) index "DT_INIT_ARRAY entry overflow" = Ok pointer ->
  no_function pointer = false -> callable e pointer.
Proof.
  intros H Hi Hp Hf. revert H. unfold validate_initializer_entries. destruct (negb _); [done|]. destruct (Z.eqb_spec (or_zero (field (info e) InitArraySize)) 0) as [E|_].
  { rewrite E, Z.div_0_l in Hi by done. lia. }
  destruct (require_loaded_range _ _ _ _ _); [|done]. destruct (collect _ _) as [units|] eqn:Ec; [|done]. intros _.
  apply collect_Forall in Ec. assert (index ∈ seqZ 0 (or_zero (field (info e) InitArraySize) / 8)) as [k Hk]%list_elem_of_lookup
    by (apply elem_of_seqZ; lia).
  destruct (Forall2_lookup_l _ _ _ _ _ Ec Hk) as ([] & _ & Hc). unfold check_initializer in Hc. rewrite Hp, Hf in Hc.
  by eapply host_executable_callable.
Qed.

Lemma finalizers_callable e fs : collect_finalizers e = Ok fs -> Forall (callable e) fs.
Proof.
  unfold collect_finalizers. destruct (negb _); [done|]. set (es := if _ =? 0 then Ok [] else _).
  destruct es as [entries|] eqn:Ee; [|done].
  assert (Forall (callable e) (omap id entries)) as Hall.
  { subst es. destruct (_ =? 0); [simplify_eq; constructor|]. destruct (require_loaded_range _ _ _ _ _); [|done].
    apply collect_Forall in Ee. clear -Ee. induction Ee as [|index [p|] l k Hf _ IH]; simpl; [constructor| |done]. constructor; [|done].
    unfold finalizer_entry in Hf. destruct (array_entry _ _ _ _) as [q|]; [|done]. destruct (no_function q); [done|].
    destruct (require_host_executable _ _ _) as [[]|] eqn:Er; [|done]. simplify_eq. by eapply host_executable_callable. }
  destruct (field (info e) Fini) as [fini|]; [|by intros [= <-]]. destruct (fini =? 0); [by intros [= <-]|].
  destruct (require_loaded_range _ fini _ _ _) as [[]|] eqn:Er; [|done]. destruct (loaded_pointer _ _ _) as [o|] eqn:Eo; [|done].
  intros [= <-]. apply Forall_app. split; [done|]. constructor; [|done]. apply loaded_pointer_Ok in Eo as (-> & _).
  apply executable_range_in_code in Er; [|done]. unfold callable. by replace (mapping e + (fini - base_page e) - mapping e) with (fini - base_page e) by lia.
Qed.

(** ** System calls *)

(** No instruction of an executable load is [SVC #0], but for the bytes of a hash where one was
    replaced. *)
Definition outside (hash : option nat) (at_ : nat) : Prop :=
  match hash with Some o => (at_ + 4 <= o \/ o + 32 <= at_)%nat | None => True end.
Definition free_of_svc (e : LoadedElf) (hash : option nat) : Prop :=
  forall range k, range ∈ executable_ranges e -> (k < instruction_count (code_of e (image e) range))%nat ->
    outside hash (Z.to_nat (range.1 - base_page e) + k * 4) ->
    read_instruction (code_of e (image e) range) k <> DirectSyscall.LINUX_SVC_ZERO.

Lemma instruction_bytes (e : LoadedElf) bs bs' range k :
  range_in e range -> len bs = mapping_size e -> length bs' = length bs -> (k < instruction_count (code_of e bs range))%nat ->
  (forall i, (Z.to_nat (range.1 - base_page e) + k * 4 <= i < Z.to_nat (range.1 - base_page e) + k * 4 + 4)%nat -> bs' !! i = bs !! i) ->
  read_instruction (code_of e bs' range) k = read_instruction (code_of e bs range) k.
Proof.
  intros Hr Hl Hl' Hk Hi. pose proof (instruction_fits _ _ Hk) as Hfit. destruct Hr as (? & ? & ?).
  assert (length (code_of e bs range) = Z.to_nat range.2) as Hc.
  { unfold code_of, len in *. rewrite length_slice; lia. }
  unfold read_instruction. apply u32_at_field; [|by apply u32_at_range].
  rewrite u32_le_at by done. apply slice_ext. intros i Hr. unfold code_of. rewrite !lookup_slice.
  case_match; [|done]. apply Hi. lia.
Qed.

Lemma hash_free_of_svc {R} h e0 count t0 (l : Loading R) :
  elf_ok e0 -> loads_ok e0 -> loading_ok e0 count t0 l -> but_for_hash (code_free h e0) (view l) -> preflight_boringssl h = false ->
  exists hash, free_of_svc (elf (linking l)) hash /\
    (stack_guard_rewrites l = [] -> direct_syscall_rewrites l = [] -> hash = None).
Proof.
  intros Hok Hloads Hinv Hcode Hoff. pose proof (lo_image _ _ _ _ Hinv) as E. pose proof (inv_length e0 count t0 l Hinv) as Hlen.
  assert (executable_ranges (elf (linking l)) = executable_ranges e0 /\ base_page (elf (linking l)) = base_page e0 /\
    forall bs range, code_of (elf (linking l)) bs range = code_of e0 bs range) as (Er & Eb & Ec) by by rewrite E.
  destruct Hcode as [Hclean|(Hne & at_ & hash & bs & Hclean & Hh & Hbound & Hcopy)]; specialize (Hclean Hoff); unfold all_clean in Hclean;
    rewrite Forall_forall in Hclean.
  - exists None. split; [|done]. intros range k Hr. rewrite Er in Hr. rewrite Ec. intros Hk _.
    specialize (Hclean range Hr). unfold range_clean in Hclean. rewrite contains_linux_svc_false in Hclean. by apply Hclean.
  - exists (Some at_). split; [|intros Eg Ed; destruct Hne; simpl; by rewrite Eg, Ed].
    intros range k Hr. rewrite Er in Hr. rewrite Ec, Eb. intros Hk Hout. simpl in *. unfold bytes_of in *.
    specialize (Hclean range Hr). unfold range_clean in Hclean. rewrite contains_linux_svc_false in Hclean.
    pose proof (executable_in e0 Hok Hloads range Hr) as Hin.
    assert (length (image (elf (linking l))) = length bs) as Hl by (rewrite Hcopy; apply length_copy_at; lia).
    assert (read_instruction (code_of e0 bs range) k = read_instruction (code_of e0 (image (elf (linking l))) range) k) as <-.
    { apply instruction_bytes; [done|done|done|done|]. intros i Hi. rewrite Hcopy. symmetry.
      rewrite lookup_copy_at by lia. destruct (Nat.ltb_spec i at_); [done|]. destruct (Nat.ltb_spec i (at_ + length hash)); [lia|done]. }
    apply Hclean. pose proof (code_of_length e0 (image (elf (linking l))) range Hlen Hin) as L1.
    pose proof (code_of_length e0 bs range ltac:(unfold len in *; lia) Hin) as L2. unfold instruction_count, len in *.
    by replace (length (code_of e0 bs range)) with (length (code_of e0 (image (elf (linking l))) range)) by lia.
Qed.

(** ** The whole load *)

(** The functions of the guest do not write to executable loads: their pages are not writable. *)
Definition guest_keeps_code (h : Host) (bs : bytes) : Prop :=
  forall plan, parse_image (host_page_size h) bs = Ok plan ->
  forall function memory_, length (guest h function memory_).1 = length memory_ /\
    forall l i, l ∈ loads plan -> has (pflags l) PF_X = true ->
      virtual_address l - minimum_page plan <= Z.of_nat i < virtual_address l - minimum_page plan + memory_size l ->
      (guest h function memory_).1 !! i = memory_ !! i.

Lemma attach_ok {A R} (r : R) e0 count t (l : Loading A) : loading_ok e0 count t l -> loading_ok e0 count t (attach r (tls (linking l)) l).
Proof. intros [? [] ? ? ? ?]. by constructor. Qed.

(** An image of the plan that exports the integrity hash of BoringSSL. *)
Definition hash_exported (plan : ParsedImage) (dynamic_info : DynamicInfo) : Prop :=
  exists e symbols, planned_image plan e /\ info e = dynamic_info /\ exported_symbols e = Some (Ok symbols) /\ has_fips_hash symbols = true.


(** ** A library

    Code with a system call, and data with the dynamic section, a table of one finalizer and an
    [IRELATIVE] relocation; a host with pages of 4 KiB that grants everything, whose resolver of the
    C library answers one address. *)
Definition example_entry (index : nat) (tag value : Z) : list (nat * bytes) :=
  [(0x1000 + 16 * index, u64_le tag)%nat; (0x1008 + 16 * index, u64_le value)%nat].

Definition example_library : bytes :=
  put (zeroed 0x1140)
    (elf_header 3 ++
     elf_segment 0 PT_LOAD (PF_R + PF_X) 0 0 0x240 0x240 4096 ++
     elf_segment 1 PT_LOAD (PF_R + PF_W) 0x1000 0x1000 0x140 0x140 4096 ++
     elf_segment 2 PT_DYNAMIC (PF_R + PF_W) 0x1000 0x1000 0xd0 0xd0 8 ++
     [(0x180%nat, u32_le 1); (0x184%nat, u32_le 1); (0x200%nat, u32_le DirectSyscall.LINUX_SVC_ZERO)] ++
     example_entry 0 DT_HASH 0x180 ++ example_entry 1 DT_STRTAB 0x1a0 ++ example_entry 2 DT_STRSZ 1 ++
     example_entry 3 DT_SYMTAB 0x1a8 ++ example_entry 4 DT_SYMENT 24 ++ example_entry 5 DT_RELA 0x1100 ++
     example_entry 6 DT_RELASZ 48 ++ example_entry 7 DT_RELAENT 24 ++ example_entry 8 DT_FINI_ARRAY 0x10f0 ++
     example_entry 9 DT_FINI_ARRAYSZ 8 ++ example_entry 10 DT_NULL 0 ++
     [(0x1100%nat, u64_le 0x10f0); (0x1108%nat, u64_le R_AARCH64_RELATIVE); (0x1110%nat, u64_le 0x200);
      (0x1118%nat, u64_le 0x10f8); (0x1120%nat, u64_le R_AARCH64_IRELATIVE); (0x1128%nat, u64_le 0x208)]).

Inductive ExampleLibc : Type := Libc.
#[local] Instance example_resolver : SymbolResolver ExampleLibc :=
  {| resolve_defined r _ _ := (r, Ok None); resolve r _ := (r, Ok (Some 0x500000)) |}.

Definition example_host : Host :=
  {| aarch64 := true; host_page_size := 4096; mmap := fun _ => Ok 0x400000; mprotect := fun _ _ _ => None; random_word := fun _ => 0;
     tlsdesc_resolver := 0x600000; sha256 := fun _ => zeroed 32; preflight_boringssl := false;
     guest := fun _ memory_ => (memory_, 0x400208) |}.

Definition example_load : option (Tls * ExampleLibc * result (Loading ExampleLibc) LoadError) :=
  load_with_resolver example_host 7 initial_tls example_library Libc.


(** A library with the exports of BoringSSL, whose hash lies in the code; with or without a deferred
    relocation.  Deferred relocation takes the write permission of the code, so that the replacement
    of the hash, which the source takes for a write to a writable page, faults. *)
Definition example_symbol (index : nat) (name : Z) (info_ : byte) (value : Z) : list (nat * bytes) :=
  let at_ := (0x1b0 + 24 * index)%nat in
  [(at_, u32_le name); (at_ + 4, [info_])%nat; (at_ + 6, u16_le 1)%nat; (at_ + 8, u64_le value)%nat].

Definition example_names : bytes :=
  [Byte.x00] ++ name_bytes "FIPS_module_hash" ++ [Byte.x00] ++ name_bytes "BORINGSSL_bcm_text_start" ++ [Byte.x00] ++
  name_bytes "BORINGSSL_bcm_text_end" ++ [Byte.x00] ++ name_bytes "BORINGSSL_bcm_rodata_start" ++ [Byte.x00] ++
  name_bytes "BORINGSSL_bcm_rodata_end" ++ [Byte.x00].

Definition example_fips (deferred : bool) : bytes :=
  put (zeroed 0x1140)
    (elf_header 3 ++
     elf_segment 0 PT_LOAD (PF_R + PF_X) 0 0 0x340 0x340 4096 ++
     elf_segment 1 PT_LOAD (PF_R + PF_W) 0x1000 0x1000 0x140 0x140 4096 ++
     elf_segment 2 PT_DYNAMIC (PF_R + PF_W) 0x1000 0x1000 0xd0 0xd0 8 ++
     [(0x180%nat, u32_le 1); (0x184%nat, u32_le 6); (0x240%nat, example_names)] ++
     example_symbol 1 1 Byte.x12 0x2c0 ++ example_symbol 2 18 Byte.x11 0x2d0 ++ example_symbol 3 43 Byte.x11 0x2d8 ++
     example_symbol 4 66 Byte.x11 0x320 ++ example_symbol 5 93 Byte.x11 0x328 ++
     [(0x2c0%nat, u32_le 0xb0000000); (0x2c4%nat, u32_le 0xf9407400); (0x2c8%nat, u32_le 0xd65f03c0);
      (0x2d0%nat, u32_le DirectSyscall.LINUX_SVC_ZERO)] ++
     example_entry 0 DT_HASH 0x180 ++ example_entry 1 DT_STRTAB 0x240 ++ example_entry 2 DT_STRSZ 118 ++
     example_entry 3 DT_SYMTAB 0x1b0 ++ example_entry 4 DT_SYMENT 24 ++ example_entry 5 DT_RELA 0x1100 ++
     example_entry 6 DT_RELASZ (if deferred then 48 else 24) ++ example_entry 7 DT_RELAENT 24 ++ example_entry 8 DT_NULL 0 ++
     [(0x1100%nat, u64_le 0x10e8); (0x1108%nat, u64_le R_AARCH64_RELATIVE); (0x1110%nat, u64_le 0x300);
      (0x1118%nat, u64_le 0x10f8); (0x1120%nat, u64_le R_AARCH64_IRELATIVE); (0x1128%nat, u64_le 0x2c0)]).

Example example_fault :
  load_with_resolver example_host 7 initial_tls (example_fips true) Libc = None /\
  match load_with_resolver example_host 7 initial_tls (example_fips false) Libc with
  | Some (_, _, Ok l) => direct_syscall_rewrites l = [(0x2d0, DirectSyscall.LINUX_SVC_ZERO)]
  | _ => False
  end.
Proof. split; vm_compute; reflexivity. Qed.
